(* ===== verification/_CoqProject ===== *)
-Q . S2P
Prelude.v
Value.v
Float64.v
BinaryIO.v
BufferPool.v
PageCodec.v
VectorRowStore.v
PageRowStore.v
PageRowStoreProof.v
WriteAheadLog.v
StringPattern.v
TransactionManager.v
Serializability.v
Mvcc.v
HashIndex.v
BTreeIndex.v
BTreeTree.v
BTreeProof.v
BTreeInsert.v
BTreeRemove.v
BTreeSpec.v
RedoCodec.v
RedoCodecProof.v
IndexExpression.v
Predicate.v
SetOps.v
IndexManager.v
IndexManagerProof.v
IndexRedo.v
Histogram.v
Selectivity.v
Table.v
TableProof.v
TableSchema.v
TableSchemaProof.v
TablePages.v
TablePagesProof.v
Database.v
Session.v
ForeignKeys.v
Ast.v
Planner.v
JoinPlanner.v
PlannerProof.v
PlannerTotal.v
SelectScan.v
SelectScanProof.v
JoinEngine.v
JoinProof.v
ScanReads.v
ScanExamples.v
SelectResult.v
SelectResultProof.v
RecursiveCte.v
Rewriter.v
SelectScope.v
SelectEngine.v
SelectProof.v
Tokenizer.v
SqlLiteral.v
Parser.v
SelectExamples.v
ParserTotal.v
ParserWords.v
StatementText.v
DdlText.v
Prepared.v
Recovery.v
CatalogEngine.v
DmlEngine.v
SelectExecutor.v
QueryExecutor.v
ExecutorProof.v
DmlReplay.v
RecoveryProof.v
RollbackProof.v
CommitOrder.v
Tcrdb.v
TcrdbProof.v
CatalogReplay.v
