(* ===== verification/Prelude.v ===== *)
(** * VertexDB in Rocq

    A shallow embedding of VertexDB (C++20, [src/src] and [src/include/VertexDB])
    from the bytes of its pages and its log up to the parser and the executor, with
    the theorems that make it correct.

    ** The program

    A statement goes from the parser to [QueryExecutor], which hands it to the
    SELECT, DML or catalog engine.  The engines work on a [Database] of [Table]s.  A
    table keeps its rows in a [RowStore] (in practice [PageRowStore]: pages of
    encoded rows behind an LRU [BufferPool]), indexes them with the hash and B+ tree
    indexes of an [IndexManager], and keeps a chain of versions per row in an
    [MVCCRowStore], which snapshot reads use together with the [TransactionManager].
    A [TxnSession] holds the open transaction: its snapshot, its undo log, and the
    log records deferred until COMMIT.  [RecoveryService] writes the
    [WriteAheadLog] and, after a restart, replays it over the last saved database.

    ** Files

    Values and encodings
    - [Prelude]: exceptions and the [result] monad, lists, sorting, maps as sorted
      association lists;
    - [Value] (common/value.cpp): tagged values, equality, order; doubles are their
      IEEE-754 bit patterns;
    - [Float64]: the double arithmetic of the cost estimates, as binary64 numbers;
    - [BinaryIO] (common/binary_io.hpp): little-endian fields; the class [Codec] of
      a writer and a reader that agree, with round trip and truncation;
    - [PageCodec], [RedoCodec], [RedoCodecProof] (storage/page_row_store_io.cpp,
      persistence/page_image_redo.cpp, persistence/physical_redo.cpp): rows in
      pages and the two kinds of redo records;
    - [StringPattern] (common/string_pattern.cpp): LIKE and trigrams.

    Row stores
    - [VectorRowStore] (storage/row_store.hpp, vector_row_store.cpp,
      row_store_shared.cpp): the interface as the class [RowStore], the plain store,
      and the laws [RowStoreLaws] and [RowReplaceLaws] that say that a store
      answers as the plain one;
    - [BufferPool], [PageRowStore], [PageRowStoreProof] (storage/buffer_pool.cpp,
      page_row_store*.cpp): the page store and the proof that it satisfies the laws,
      also while its dirty marks are followed ([since_laws]).

    Transactions
    - [TransactionManager], [Serializability] (transaction/transaction_manager.cpp),
      [Mvcc] (transaction/mvcc_row_store.cpp);
    - [WriteAheadLog] (persistence/write_ahead_log.cpp): the log as the bytes of a
      file.

    Indexes
    - [HashIndex] (indexing/hash_index.cpp); [BTreeIndex], [BTreeTree],
      [BTreeProof], [BTreeInsert], [BTreeRemove], [BTreeSpec]
      (indexing/btree_index*.cpp): the page-based B+ tree, the tree it stands for,
      and its specification as a log of key/row pairs;
    - [IndexExpression] (common/index_expression.cpp), [IndexManager],
      [IndexManagerProof], [IndexRedo] (indexing/index_manager.cpp): the indexes of a
      table reflect its rows, and redo of their dirty pages keeps that.

    Tables and databases
    - [Predicate] (parser/predicate.hpp, storage/check_eval.cpp,
      execution/predicate_eval.cpp), [Histogram] (storage/histogram.cpp,
      table_statistics.cpp), [Selectivity] (the estimates from histograms and
      storage/relation_stats.cpp);
    - [Table], [TableProof] (storage/table.cpp, table_constraints.cpp,
      table_indexes.cpp, table_recovery.cpp): DML, constraints, undo operations;
    - [TableSchema], [TableSchemaProof] (storage/table_schema.cpp): ADD, DROP and
      RENAME COLUMN;
    - [TablePages], [TablePagesProof] (storage/table_snapshot_io.cpp,
      table_persist.cpp): page export, capture of changed pages and their redo;
    - [Database] (storage/database.cpp).

    SQL text
    - [Ast] (parser/ast.hpp): statements and queries;
    - [Tokenizer] (parser/tokenizer.cpp), [Parser] (parser/parser*.cpp),
      [RecursiveCte] (parser/recursive_cte.cpp): from characters to statements;
      [ParserTotal]: the parser returns on every input; [ParserWords]: what the
      parser does on the words of a printed statement;
    - [SqlLiteral] (execution/sql_literal.cpp), [StatementText], [DdlText]: the texts
      the executor writes to the log, and their round trip through tokenizer and
      parser;
    - [Prepared] (execution/prepared_bind.cpp, prepared_statement_catalog.cpp): binding of
      parameters and the catalog of prepared statements.

    Planner
    - [Planner] (planner/query_planner*.cpp): the candidate access paths of a WHERE
      clause, their costs, and the choice among them; [JoinPlanner]
      (query_planner_join.cpp, query_planner_format.cpp);
    - [PlannerProof], [PlannerTotal]: what a plan tests, and that planning returns;
    - [Rewriter] (planner/rewriter.cpp): WITH lists inlined or
      materialized.

    SELECT
    - [SelectScan], [SelectScanProof] (execution/select_engine_scan.cpp,
      select_engine_bitmap.cpp, select_engine_ssi.cpp, [matches] of
      subquery_runtime.cpp): the rows of an access path and the reads it records;
      [ScanReads]: these cover the WHERE clause;
    - [JoinEngine], [JoinProof] (select_engine_join.cpp): joins;
    - [SelectResult], [SelectResultProof] (select_aggregate.cpp, select_helpers.cpp, the
      ends of select_engine.cpp): groups, aggregates, ORDER BY, projection, LIMIT;
    - [SelectScope] (select_scope.cpp, subquery_runtime_bind.cpp): qualifiers and outer
      references;
    - [SelectEngine], [SelectProof] (select_engine.cpp, subquery_runtime.cpp,
      subquery_runtime_cte.cpp): the execution of a SELECT with its subqueries, set
      operations and WITH list; the Record [Runtime] is what the engine and the
      subqueries promise each other;
    - [SelectExecutor]: EXPLAIN, and the engine as the executor and DML call it;
    - [ScanExamples], [SelectExamples]: the theorems applied to concrete tables, and SQL
      texts that are parsed and run.

    Execution
    - [SetOps] (execution/set_ops.cpp, select_helpers.cpp): set operations,
      projection, limits;
    - [Session] (execution/txn_session.cpp, transaction/undo_log.cpp),
      [ForeignKeys] (execution/foreign_key_eval.cpp), [Recovery]
      (execution/recovery_service.cpp), [DmlEngine] (execution/dml_engine.cpp),
      [CatalogEngine] (execution/catalog_engine.cpp), [QueryExecutor]
      (execution/query_executor.cpp): the dispatch of a statement, its commit and
      the replay of the log;
    - [DmlReplay], [RecoveryProof], [RollbackProof], [CommitOrder],
      [CatalogReplay], [ExecutorProof]: the theorems about
      transactions, commits, rollbacks, recovery and prepared statements.

    Database files
    - [Tcrdb] (persistence/tcrdb_*.cpp, storage_manager.cpp): the file of a saved
      database, in all its versions for reading, and a disk on which such files are
      published by renaming; [TcrdbProof]: their round trip and the crash points of
      SAVE.

    ** How the model corresponds to the code

    A class is a Record of its members, a method a function on it.  A method of
    [Table] is an [op]: it takes the table and the transaction manager it is called
    with and returns its result or exception and the new state, which an exception
    does not undo.  The layers above use the same monad over a database, a session
    or the executor ([M]).  A shared pointer to a table is its name in the database.
    Ids, counters and sizes that cannot reach their limit are [nat]; fields of the
    file formats keep their width, and round trips assume that lengths are below
    2^64 ([size_ok]).  [std::map] is a sorted association list, an unordered map a
    finite map or, where its order is observable, an association list.

    What is not under src/ or not computable exactly is a parameter: conversion,
    addition and printing of doubles ([int_to_double], [double_add], [double_sub],
    [double_chars]), reading them from text ([std::stod]), and, for the
    executor, the database files (class [StorageManager] in [Recovery], which
    [disk_storage] of [Tcrdb] implements); also [double_div] and [llround_out] ([std::llround]
    of a double that no [long long] can hold), the printing of costs and times and the time
    measured ([cost_text], [time_text], [elapsed]), the regular expressions
    ([matchRegexPattern]), and the store a new table gets ([newStore]).

    [QueryExecutor] and [DmlEngine] take the SELECT engine and the scan that gives UPDATE
    and DELETE their rows as arguments, so that their theorems hold for every engine;
    [engine_select], [engine_explain] and [engine_targets] of [SelectExecutor] are the
    ones of the code.  The code normalizes the scopes of a shared SELECT in place;
    the model returns the new SELECT.  [std::sort] may give equal rows any order; here
    they keep theirs.  The replay of a
    logged DDL statement ([replayQuery], a callback of the recovery service) is a
    parameter of [Recovery]; [replay_statement] of [QueryExecutor] is the callback the
    executor installs, and [CatalogReplay] proves its theorem with it.

    ** What the theorems show

    - Storage: the page store behaves as a vector of optional rows for every page
      size and cache capacity; redo of its dirty pages, export and reload, and the
      page codec are exact ([PageRowStoreProof], [PageCodec]).
    - Indexes: both kinds of index answer as the log of their insertions and
      removals; the B+ tree keeps its shape and logarithmic height; lookups through
      the manager are scans of the rows ([HashIndex], [BTreeSpec],
      [IndexManagerProof]).
    - Transactions: committed histories are serializable, the commit decision is
      exact although committed sets are pruned, snapshots are stable
      ([Serializability], [Mvcc]).
    - Tables: constraints, indexes and versions agree after every sequence of
      operations; DML fails exactly when it must; DROP COLUMN is undone exactly
      ([TableProof], [TableSchemaProof]).
    - Recovery: a commit is atomic and durable for a crash at any byte of the log,
      and rollback restores the database ([RecoveryProof], [RollbackProof]).
      Catalog statements survive a restart through their text ([CatalogReplay]); the
      crash points of a commit are enumerated ([ExecutorProof]); SAVE moves the point
      recovery starts from ([CommitOrder]).
    - Database files: a saved database is loaded again, with its rows, indexes,
      constraints and statistics; a crash while it is saved leaves the old file or the
      new one; a failed publication may leave neither ([TcrdbProof]).
    - SQL text: the tokenizer splits its input without losing a character, the parser
      returns on every text, CHECK predicates and DDL statements are read back as they
      were printed ([Tokenizer], [ParserTotal], [StatementText], [DdlText]).
    - Prepared statements: EXECUTE runs the statement with its parameters bound; one
      that executes itself never returns ([ExecutorProof]).
    - Queries: whatever access path the statistics lead to, planning returns and the scan
      finds the rows of the full scan, apart from the kinds of plan that the theorems
      name ([SelectScanProof]); the predicates a scan records conflict with every row
      that would have changed its result ([ScanReads]).  Joins by probe, hash or nested
      loop return the rows of their definition ([JoinProof]), groups and aggregates are
      those of the rows ([SelectResultProof]), and a SELECT over one table returns the
      selected rows in order ([SelectProof]).  The rewriting of WITH lists ends
      ([Rewriter]).
    - Expressions: LIKE, CHECK and WHERE evaluation, set operations, histograms.
    - Error theorems state behaviour that looks unintended: records lost after a
      torn append, rows resurrected by rollback, a database lost by DDL after DML in
      one transaction, plans and inlined WITH entries that change a result, reads that
      no conflict detection sees ([ScanExamples], [SelectExamples]).

    ** Bounds and fuel

    B+ tree descents carry the height as fuel, which the invariant bounds; LIKE and
    the readers of the formats carry the length of the input; cascades carry the
    depth limit of the code (64); the undo loop carries the length of the log; the
    parser carries the number of tokens.  Each is shown to be enough where a theorem
    says that the operation returns.  [execute] carries fuel for nested EXECUTE
    statements, which no bound covers: a statement that executes itself uses up any
    amount.

    [rewriteSelect] has the size of the WITH lists as fuel and
    [normalizeSelectScopeQualifiers] the nesting of the queries; both are enough
    ([Rewriter], [SelectScope]).  [runtime] spends one unit for each nested
    query; the theorems about scans and SELECTs hold for every amount.  How deep
    queries nest is not bounded by a theorem.  The rounds of a recursive CTE are
    bounded by the code ([RecursiveCteLimits]).

    ** Not modelled

    - Locks and mutexes: every operation runs alone, as under the statement lock of
      [QueryExecutor].
    - [LockManager], a wrapper of [std::shared_mutex] per table.
    - What the operating system does for [durableSyncFile] and the other calls beyond
      their effect on the disk of [Tcrdb]; the command line, benchmarks. *)

From stdpp Require Export prelude gmap list strings sorting.
From Stdlib Require Export ZArith Lia.

(** ** Exceptions and results

    The C++ code reports failure by throwing.  A computation that can throw is
    a [result]; the exception carries the class the source names and its
    message. *)

Declare Scope vdb_scope.
Delimit Scope vdb_scope with vdb.
Open Scope vdb_scope.

Inductive exn : Type :=
| invalid_argument (what : string)
| runtime_error (what : string)
| logic_error (what : string)
| out_of_range (what : string)
| SerializationFailure (what : string).

Inductive result (A : Type) : Type :=
| Ok (a : A)
| Throw (e : exn).

Arguments Ok {A} a.
Arguments Throw {A} e.

#[export] Instance exn_eq_dec : EqDecision exn.
Proof. solve_decision. Defined.

#[export] Instance result_ret : MRet result := fun A a => Ok a.

#[export] Instance result_bind : MBind result := fun A B f r =>
  match r with
  | Ok a => f a
  | Throw e => Throw e
  end.

#[export] Instance result_fmap : FMap result := fun A B f r =>
  match r with
  | Ok a => Ok (f a)
  | Throw e => Throw e
  end.

Definition is_Ok {A} (r : result A) : bool :=
  match r with Ok _ => true | Throw _ => false end.

(** [throw_if c e] is the source's [if (c) { throw e; }]. *)
Definition throw_if (c : bool) (e : exn) : result unit :=
  if c then Throw e else Ok tt.

(** ** Shared tactics *)

(** Bind steps of a [result] computation known to succeed, from the left. *)
Ltac inv_result H :=
  repeat match type of H with
  | mbind ?f ?r = Ok _ =>
      let E := fresh "Hr" in
      destruct r eqn:E; cbn [mbind result_bind] in H; [| discriminate H]
  | throw_if ?c _ ≫= _ = Ok _ =>
      let E := fresh "Hc" in
      destruct c eqn:E; cbn [throw_if mbind result_bind] in H; [discriminate H |]
  end.

(** Split the goal and every hypothesis on a boolean test. *)
Ltac case_bool :=
  match goal with
  | |- context [if ?b then _ else _] =>
      match type of b with bool => let E := fresh "Eb" in destruct b eqn:E end
  | H : context [if ?b then _ else _] |- _ =>
      match type of b with bool => let E := fresh "Eb" in destruct b eqn:E end
  end.

(** Turn boolean facts into the propositions they decide. *)
Ltac bool_facts :=
  repeat match goal with
  | H : (_ && _)%bool = true |- _ => apply andb_true_iff in H as [? ?]
  | H : (_ || _)%bool = false |- _ => apply orb_false_iff in H as [? ?]
  | H : negb _ = true |- _ => apply negb_true_iff in H
  | H : negb _ = false |- _ => apply negb_false_iff in H
  | H : bool_decide _ = true |- _ => apply bool_decide_eq_true in H
  | H : bool_decide _ = false |- _ => apply bool_decide_eq_false in H
  | H : Nat.eqb _ _ = true |- _ => apply Nat.eqb_eq in H
  | H : Nat.eqb _ _ = false |- _ => apply Nat.eqb_neq in H
  | H : Nat.ltb _ _ = true |- _ => apply Nat.ltb_lt in H
  | H : Nat.ltb _ _ = false |- _ => apply Nat.ltb_ge in H
  | H : Nat.leb _ _ = true |- _ => apply Nat.leb_le in H
  | H : Nat.leb _ _ = false |- _ => apply Nat.leb_gt in H
  | H : Z.eqb _ _ = true |- _ => apply Z.eqb_eq in H
  | H : Z.eqb _ _ = false |- _ => apply Z.eqb_neq in H
  | H : Z.ltb _ _ = true |- _ => apply Z.ltb_lt in H
  | H : Z.ltb _ _ = false |- _ => apply Z.ltb_ge in H
  | H : Z.leb _ _ = true |- _ => apply Z.leb_le in H
  | H : Z.leb _ _ = false |- _ => apply Z.leb_gt in H
  end.

Create HintDb vdb.

(** ** Generic list operations *)

(** Pointwise boolean comparison of two vectors, as [std::vector]'s [==]. *)
Definition list_eqb {A} (f : A → A → bool) : list A → list A → bool :=
  fix go l1 l2 :=
    match l1, l2 with
    | [], [] => true
    | x :: l1, y :: l2 => f x y && go l1 l2
    | _, _ => false
    end.

(** Lexicographic three-way comparison of two vectors, the comparison behind
    [std::vector]'s [<]: the first pair that is not equivalent decides, a proper
    prefix is smaller. *)
Definition list_cmp {A} (cmp : A → A → comparison) : list A → list A → comparison :=
  fix go l1 l2 :=
    match l1, l2 with
    | [], [] => Eq
    | [], _ :: _ => Lt
    | _ :: _, [] => Gt
    | x :: l1, y :: l2 =>
        match cmp x y with
        | Eq => go l1 l2
        | c => c
        end
    end.

(** [std::erase(v, x)]: every occurrence of [x] goes. *)
Definition erase_all {A} `{EqDecision A} (x : A) (l : list A) : list A :=
  filter (λ y, y ≠ x) l.

(** [v.erase(std::find(v, x))]: the first occurrence goes. *)
Fixpoint erase_first {A} `{EqDecision A} (x : A) (l : list A) : list A :=
  match l with
  | [] => []
  | y :: l => if decide (y = x) then l else y :: erase_first x l
  end.

(** [v.back()] with the vector before it. *)
Definition unsnoc {A} (l : list A) : option (list A * A) :=
  match last l with
  | Some x => Some (take (length l - 1) l, x)
  | None => None
  end.

Lemma unsnoc_Some {A} (l l' : list A) x : unsnoc l = Some (l', x) ↔ l = l' ++ [x].
Proof.
  unfold unsnoc. split.
  - destruct (last l) eqn:E; [|done]. intros [= <- ->].
    apply last_Some in E as [l'' ->]. rewrite length_app; simpl.
    replace (length l'' + 1 - 1) with (length l'') by lia.
    by rewrite take_app_length.
  - intros ->. rewrite last_snoc, length_app; simpl.
    replace (length l' + 1 - 1) with (length l') by lia.
    by rewrite take_app_length.
Qed.

Lemma unsnoc_None {A} (l : list A) : unsnoc l = None ↔ l = [].
Proof.
  unfold unsnoc. split; [|by intros ->].
  destruct (last l) eqn:E; [done|]. intros _. by apply last_None in E.
Qed.

Lemma elem_of_erase_first {A} `{EqDecision A} (x y : A) l :
  NoDup l → y ∈ erase_first x l ↔ y ∈ l ∧ y ≠ x.
Proof.
  induction l as [|z l IH]; simpl; intros Hnd; [set_solver|].
  apply NoDup_cons in Hnd as [Hz Hnd]. case_decide; subst; [set_solver|].
  rewrite !elem_of_cons, IH by done. naive_solver.
Qed.

Lemma NoDup_erase_first {A} `{EqDecision A} (x : A) l : NoDup l → NoDup (erase_first x l).
Proof.
  induction l as [|z l IH]; simpl; intros Hnd; [done|].
  pose proof Hnd as Hnd'. apply NoDup_cons in Hnd' as [Hz Hnd'].
  case_decide; [done|]. apply NoDup_cons; split; [|auto].
  rewrite elem_of_erase_first by done. naive_solver.
Qed.

Lemma length_erase_first {A} `{EqDecision A} (x : A) l :
  x ∈ l → S (length (erase_first x l)) = length l.
Proof.
  induction l as [|z l IH]; simpl; intros Hx; [set_solver|].
  case_decide; [done|]. simpl. f_equal. apply IH. set_solver.
Qed.

(** Ascending enumeration of a map with natural-number keys, the iteration
    order of [std::map<std::size_t, _>]. *)
Definition sorted_keys {V} (m : gmap nat V) : list nat :=
  merge_sort (≤) (map_to_list m).*1.

Lemma elem_of_sorted_keys {V} (m : gmap nat V) k :
  k ∈ sorted_keys m ↔ is_Some (m !! k).
Proof.
  unfold sorted_keys. rewrite (merge_sort_Permutation (≤) _).
  rewrite list_elem_of_fmap. split.
  - intros ([k' v] & -> & Hin). apply elem_of_map_to_list in Hin. by exists v.
  - intros [v Hv]. exists (k, v). split; [done|]. by apply elem_of_map_to_list.
Qed.

Lemma NoDup_sorted_keys {V} (m : gmap nat V) : NoDup (sorted_keys m).
Proof.
  unfold sorted_keys. rewrite (merge_sort_Permutation (≤) _).
  apply NoDup_fst_map_to_list.
Qed.

Lemma filter_all {A} (P : A → Prop) `{∀ x, Decision (P x)} (l : list A) :
  Forall P l → filter P l = l.
Proof.
  induction 1 as [|x l Hx _ IH]; [done|]. by rewrite filter_cons_True, IH.
Qed.

(** The observations of a sequence of calls, and the final state. *)
Fixpoint run_trace {Op Obs S} (step : Op → S → Obs * S) (ops : list Op) (s : S) : list Obs * S :=
  match ops with
  | [] => ([], s)
  | op :: ops =>
      let '(o, s) := step op s in
      let '(os, s) := run_trace step ops s in (o :: os, s)
  end.

(** The entries of a map for the keys of a list, in the order of the list, and
    all entries in key order. *)
Definition entries_of {V} (m : gmap nat V) (ks : list nat) : list (nat * V) :=
  omap (λ k, (λ v, (k, v)) <$> m !! k) ks.

Definition sorted_entries {V} (m : gmap nat V) : list (nat * V) := entries_of m (sorted_keys m).

Lemma elem_of_entries_of {V} (m : gmap nat V) ks k v :
  (k, v) ∈ entries_of m ks ↔ k ∈ ks ∧ m !! k = Some v.
Proof.
  unfold entries_of. rewrite list_elem_of_omap. split.
  - intros (k' & Hk & Hm). destruct (m !! k') eqn:E; simplify_eq/=. done.
  - intros [Hk Hm]. exists k. by rewrite Hm.
Qed.

Lemma entries_of_fst {V} (m : gmap nat V) ks :
  (entries_of m ks).*1 = filter (λ k, is_Some (m !! k)) ks.
Proof.
  induction ks as [|k ks IH]; [done|]. destruct (m !! k) eqn:E.
  - rewrite filter_cons_True by (by eexists). unfold entries_of in *; simpl. rewrite E. simpl.
    f_equal. exact IH.
  - rewrite filter_cons_False by (by rewrite E; intros []). unfold entries_of in *; simpl.
    rewrite E. exact IH.
Qed.

Lemma sorted_entries_fst {V} (m : gmap nat V) : (sorted_entries m).*1 = sorted_keys m.
Proof.
  unfold sorted_entries. rewrite entries_of_fst. apply filter_all, Forall_forall.
  intros k. by rewrite elem_of_sorted_keys.
Qed.

Lemma NoDup_entries_of {V} (m : gmap nat V) ks : NoDup ks → NoDup (entries_of m ks).*1.
Proof. intros H. rewrite entries_of_fst. by apply NoDup_filter. Qed.

Lemma list_to_map_entries_of {V} (m : gmap nat V) ks k :
  NoDup ks → (list_to_map (entries_of m ks) : gmap nat V) !! k =
  if bool_decide (k ∈ ks) then m !! k else None.
Proof.
  intros Hnd. apply option_eq. intros v.
  rewrite <- elem_of_list_to_map, elem_of_entries_of by by apply NoDup_entries_of.
  case_bool_decide; naive_solver.
Qed.

Lemma list_to_map_sorted_entries {V} (m : gmap nat V) k :
  (list_to_map (sorted_entries m) : gmap nat V) !! k = m !! k.
Proof.
  unfold sorted_entries. rewrite list_to_map_entries_of by apply NoDup_sorted_keys.
  case_bool_decide as H; [done|]. rewrite elem_of_sorted_keys in H.
  destruct (m !! k) eqn:E; [|done]. exfalso. apply H. by eexists.
Qed.

(** Keys [a, a + 1, ..., a + n - 1] enumerate in that order. *)
Lemma sorted_keys_seq {V} (m : gmap nat V) a n :
  (∀ k, is_Some (m !! k) ↔ a ≤ k < a + n) → sorted_keys m = seq a n.
Proof.
  intros H. apply (StronglySorted_unique (≤)).
  - apply (StronglySorted_merge_sort (≤)).
  - clear H. revert a. induction n as [|n IH]; intros a; simpl; constructor; [apply IH|].
    apply Forall_forall. intros k Hk%elem_of_seq. lia.
  - apply NoDup_Permutation; [apply NoDup_sorted_keys|apply NoDup_seq|].
    intros k. by rewrite elem_of_sorted_keys, H, elem_of_seq.
Qed.

Lemma filter_ext_in {A} (P Q : A → Prop) `{∀ x, Decision (P x), ∀ x, Decision (Q x)} (l : list A) :
  Forall (λ x, P x ↔ Q x) l → filter P l = filter Q l.
Proof.
  induction 1 as [|x l Hx _ IH]; [done|]. destruct (decide (P x)).
  - rewrite !filter_cons_True by tauto. by rewrite IH.
  - rewrite !filter_cons_False by tauto. done.
Qed.

(** ** Sorting

    [std::sort] with the comparison [lt]; the source never relies on the order of
    equivalent elements. *)
Section std_sort.
Context {A : Type} (lt : A → A → bool).

Fixpoint sort_insert (x : A) (l : list A) : list A :=
  match l with
  | [] => [x]
  | y :: l => if lt y x then y :: sort_insert x l else x :: y :: l
  end.

Definition std_sort (l : list A) : list A := foldr sort_insert [] l.

Lemma sort_insert_perm x l : sort_insert x l ≡ₚ x :: l.
Proof. induction l as [|y l IH]; simpl; [done|]. destruct (lt y x); [|done]. rewrite IH. constructor. Qed.

Lemma std_sort_perm l : std_sort l ≡ₚ l.
Proof. induction l as [|x l IH]; simpl; [done|]. by rewrite sort_insert_perm, IH. Qed.

(** Where [lt] is a strict weak order, the result is sorted. *)
Lemma std_sort_sorted (good : A → Prop) l :
  (∀ x y, good x → good y → lt x y = true → lt y x = false) →
  (∀ x y z, good x → good y → good z → lt y x = false → lt z y = false → lt z x = false) →
  Forall good l → StronglySorted (λ x y, lt y x = false) (std_sort l).
Proof.
  intros Hasym Htrans Hl. induction Hl as [|x l Hx Hl IH]; simpl; [constructor|].
  assert (Forall good (std_sort l)) as Hs by (by rewrite std_sort_perm). revert IH Hs. generalize (std_sort l). clear l Hl.
  induction l as [|y l IHl]; simpl; intros Hsort Hs; [by repeat constructor|].
  apply StronglySorted_inv in Hsort as [Hsort Hy]. apply Forall_cons in Hs as [Hgy Hs].
  destruct (lt y x) eqn:E; constructor.
  - by apply IHl.
  - rewrite sort_insert_perm. constructor; [by apply Hasym|done].
  - by constructor.
  - constructor; [done|]. rewrite Forall_forall in Hy, Hs |- *. intros z Hz. apply (Htrans x y z); auto.
Qed.
End std_sort.
