(* ===== verification/Value.v ===== *)
(** * Typed SQL values

    [src/common/value.cpp] and [include/VertexDB/common/value.hpp]: the tagged
    value type with its equality and ordering, the composite index keys built
    from it, column types and column metadata; rows and row identifiers
    ([include/VertexDB/storage/row.hpp]).

    An [std::int64_t] is a [Z] (in range for every well-formed value); a
    [double] is its IEEE-754 binary64 bit pattern, so that NaN, the two zeros
    and the sign-magnitude order are all visible; [std::size_t] indexes are
    [nat]. *)

From S2P Require Import Prelude.
Local Open Scope Z_scope.

Inductive ColumnType : Type := CT_Int | CT_Double | CT_String.

#[export] Instance ColumnType_eq_dec : EqDecision ColumnType.
Proof. solve_decision. Defined.

(** The [static_cast<int>] of a [ColumnType]. *)
Definition ColumnType_code (t : ColumnType) : Z :=
  match t with CT_Int => 0 | CT_Double => 1 | CT_String => 2 end.

(** [include/VertexDB/common/comparison_operator.hpp]. *)
Inductive ComparisonOperator : Type := Equal | Greater | Less.

#[export] Instance ComparisonOperator_eq_dec : EqDecision ComparisonOperator.
Proof. solve_decision. Defined.

(** ** IEEE-754 binary64 comparison on bit patterns *)

Definition double_magnitude (bits : Z) : Z := Z.land bits (2 ^ 63 - 1).
Definition double_isNaN (bits : Z) : bool := 0x7FF0000000000000 <? double_magnitude bits.
Definition double_key (bits : Z) : Z :=
  if Z.testbit bits 63 then - double_magnitude bits else double_magnitude bits.

Definition double_eqb (a b : Z) : bool :=
  negb (double_isNaN a) && negb (double_isNaN b) && (double_key a =? double_key b).
Definition double_ltb (a b : Z) : bool :=
  negb (double_isNaN a) && negb (double_isNaN b) && (double_key a <? double_key b).

(** ** Values *)

Inductive Value : Type :=
| VNull
| VInt (i : Z)
| VDouble (bits : Z)
| VString (s : string)
| VParam (index : nat)
| VComposite (parts : list Value).

Abbreviation Row := (list Value).
Abbreviation RowId := nat.

Record Column : Type := mkColumn {
  col_name : string;
  col_type : ColumnType;
  col_nullable : bool;
  col_unique : bool;
  col_primaryKey : bool
}.

Definition isNull (v : Value) : bool := match v with VNull => true | _ => false end.
Definition isParameter (v : Value) : bool := match v with VParam _ => true | _ => false end.
Definition isComposite (v : Value) : bool := match v with VComposite _ => true | _ => false end.

(** [std::variant::index] of the stored alternative. *)
Definition Value_index (v : Value) : Z :=
  match v with
  | VNull => 0 | VInt _ => 1 | VDouble _ => 2 | VString _ => 3 | VParam _ => 4
  | VComposite _ => 5
  end.

Definition Value_type (v : Value) : result ColumnType :=
  match v with
  | VNull => Throw (runtime_error "null value has no concrete column type")
  | VParam _ => Throw (runtime_error "parameter placeholder has no concrete column type")
  | VComposite _ => Throw (runtime_error "composite value has no concrete column type")
  | VInt _ => Ok CT_Int
  | VDouble _ => Ok CT_Double
  | VString _ => Ok CT_String
  end.

Definition parameterIndex (v : Value) : result nat :=
  match v with
  | VParam i => Ok i
  | _ => Throw (runtime_error "value is not a parameter placeholder")
  end.

Definition compositeParts (v : Value) : result (list Value) :=
  match v with
  | VComposite ps => Ok ps
  | _ => Throw (runtime_error "value is not a composite key")
  end.

(** [Value::composite]: no part is an error, one part is that part itself. *)
Definition composite (parts : list Value) : result Value :=
  match parts with
  | [] => Throw (invalid_argument "composite value requires at least one part")
  | [v] => Ok v
  | _ => Ok (VComposite parts)
  end.

Fixpoint hasNullCompositePart (v : Value) : bool :=
  match v with
  | VComposite ps => existsb (λ p, isNull p || hasNullCompositePart p) ps
  | _ => isNull v
  end.

(** [operator==(const Value &, const Value &)]. *)
Fixpoint Value_eqb (l r : Value) : bool :=
  match l, r with
  | VComposite ps, VComposite qs => list_eqb Value_eqb ps qs
  | VComposite _, _ | _, VComposite _ => false
  | VNull, VNull => true
  | VInt a, VInt b => a =? b
  | VDouble a, VDouble b => double_eqb a b
  | VString a, VString b => String.eqb a b
  | VParam a, VParam b => Nat.eqb a b
  | _, _ => false
  end.

(** The three-way comparison a vector of values is ordered by: [Lt] when
    [l < r], [Gt] when [r < l], [Eq] when neither holds. *)
Definition double_cmp (a b : Z) : comparison :=
  if double_ltb a b then Lt else if double_ltb b a then Gt else Eq.

Fixpoint Value_cmp (l r : Value) : comparison :=
  match l, r with
  | VComposite ps, VComposite qs => list_cmp Value_cmp ps qs
  | VInt a, VInt b => Z.compare a b
  | VDouble a, VDouble b => double_cmp a b
  | VString a, VString b => String.compare a b
  | VInt _, VDouble _ => Z.compare (ColumnType_code CT_Int) (ColumnType_code CT_Double)
  | VInt _, VString _ => Z.compare (ColumnType_code CT_Int) (ColumnType_code CT_String)
  | VDouble _, VInt _ => Z.compare (ColumnType_code CT_Double) (ColumnType_code CT_Int)
  | VDouble _, VString _ => Z.compare (ColumnType_code CT_Double) (ColumnType_code CT_String)
  | VString _, VInt _ => Z.compare (ColumnType_code CT_String) (ColumnType_code CT_Int)
  | VString _, VDouble _ => Z.compare (ColumnType_code CT_String) (ColumnType_code CT_Double)
  | _, _ => Z.compare (Value_index l) (Value_index r)
  end.

(** [operator<(const Value &, const Value &)]: two composites compare
    lexicographically; when a null, a parameter or a composite is involved the
    variant index decides; otherwise the column type, then the payload. *)
Definition Value_ltb (l r : Value) : bool :=
  match Value_cmp l r with Lt => true | _ => false end.

(** [toString(ColumnType)] and [columnTypeFromString]. *)
Definition ColumnType_toString (t : ColumnType) : string :=
  match t with CT_Int => "INT" | CT_Double => "DOUBLE" | CT_String => "STRING" end.

(** [std::toupper] in the C locale. *)
Definition toupper (c : Ascii.ascii) : Ascii.ascii :=
  let n := Ascii.nat_of_ascii c in
  if (Nat.leb 97 n && Nat.leb n 122)%bool then Ascii.ascii_of_nat (n - 32) else c.

Fixpoint map_string (f : Ascii.ascii → Ascii.ascii) (s : string) : string :=
  match s with
  | EmptyString => EmptyString
  | String c s => String (f c) (map_string f s)
  end.

Definition columnTypeFromString (text : string) : option ColumnType :=
  let normalized := map_string toupper text in
  if String.eqb normalized "INT" then Some CT_Int
  else if String.eqb normalized "DOUBLE" then Some CT_Double
  else if String.eqb normalized "STRING" then Some CT_String
  else None.

(** [equalsIgnoreCase] of [string_utils.hpp]. *)
Fixpoint equalsIgnoreCase (lhs rhs : string) : bool :=
  match lhs, rhs with
  | EmptyString, EmptyString => true
  | String a lhs, String b rhs => Ascii.eqb (toupper a) (toupper b) && equalsIgnoreCase lhs rhs
  | _, _ => false
  end.

(** ** Well-formedness

    A value is comparable when no NaN and no parameter placeholder occurs in it:
    on those the source's [<] is not a strict weak order compatible with [==]. *)
Fixpoint comparable (v : Value) : bool :=
  match v with
  | VDouble b => negb (double_isNaN b)
  | VParam _ => false
  | VComposite ps => forallb comparable ps
  | _ => true
  end.

(** What a heap page can hold: a null or a typed scalar in the range of its C++ type. *)
Definition storable (v : Value) : bool :=
  match v with
  | VNull => true
  | VInt i => (- 2 ^ 63 <=? i) && (i <? 2 ^ 63)
  | VDouble b => (0 <=? b) && (b <? 2 ^ 64)
  | VString s => Z.of_nat (String.length s) <? 2 ^ 64
  | _ => false
  end.

(** The part-wise induction principle of [Value]. *)
Lemma Value_ind' (P : Value → Prop) :
  P VNull → (∀ i, P (VInt i)) → (∀ b, P (VDouble b)) → (∀ s, P (VString s)) →
  (∀ i, P (VParam i)) → (∀ ps, Forall P ps → P (VComposite ps)) → ∀ v, P v.
Proof.
  intros Hn Hi Hd Hs Hp Hc. fix IH 1. intros v.
  destruct v as [|i|b|s|i|ps]; [exact Hn|apply Hi|apply Hd|apply Hs|apply Hp|].
  apply Hc. induction ps as [|p ps IHps]; constructor; [apply IH|exact IHps].
Qed.

(** ** The order laws

    [cmp_laws good cmp a]: the laws of a three-way comparison whose first
    argument is [a], the others satisfying [good]. *)
Record cmp_laws {A} (good : A → bool) (cmp : A → A → comparison) (a : A) : Prop := {
  cl_eq b c : good b → good c → cmp a b = Eq → cmp a c = cmp b c;
  cl_lt b c : good b → good c → cmp a b = Lt → cmp b c = Lt → cmp a c = Lt;
  cl_lt_eq b c : good b → good c → cmp a b = Lt → cmp b c = Eq → cmp a c = Lt
}.

Section list_order.
Context {A : Type} (good : A → bool) (cmp : A → A → comparison).

Lemma list_cmp_anti (l1 l2 : list A) :
  Forall (λ x, ∀ y, cmp y x = CompOpp (cmp x y)) l1 →
  list_cmp cmp l2 l1 = CompOpp (list_cmp cmp l1 l2).
Proof.
  intros H. revert l2. induction H as [|x l1 Hx _ IH]; intros [|y l2]; simpl; auto.
  rewrite Hx, IH. by destruct (cmp x y).
Qed.

Lemma list_cmp_laws (l : list A) :
  Forall (cmp_laws good cmp) l → cmp_laws (forallb good) (list_cmp cmp) l.
Proof.
  intros Hl. split; induction Hl as [|x l Hx Hl IH]; intros [|y l2] [|z l3]; simpl;
    try done; rewrite ?andb_True; intros [Hy Hl2]; try (intros [Hz Hl3]); try done.
  - intros H. destruct (cmp x y) eqn:E; try done.
    rewrite (cl_eq _ _ _ Hx y z) by done. destruct (cmp y z); auto.
  - destruct (cmp x y) eqn:E1; [| |done]; destruct (cmp y z) eqn:E2; try done; intros H1 H2.
    + rewrite (cl_eq _ _ _ Hx y z), E2 by done. eauto.
    + by rewrite (cl_eq _ _ _ Hx y z), E2 by done.
    + by rewrite (cl_lt_eq _ _ _ Hx y z).
    + by rewrite (cl_lt _ _ _ Hx y z).
  - destruct (cmp x y) eqn:E1; [| |done]; destruct (cmp y z) eqn:E2; try done; intros H1 H2.
    + rewrite (cl_eq _ _ _ Hx y z), E2 by done. eauto.
    + by rewrite (cl_lt_eq _ _ _ Hx y z).
Qed.

Lemma list_cmp_eqb (eqb : A → A → bool) (l1 l2 : list A) :
  Forall (λ x, ∀ y, good x → good y → cmp x y = Eq ↔ eqb x y = true) l1 →
  forallb good l1 → forallb good l2 → list_cmp cmp l1 l2 = Eq ↔ list_eqb eqb l1 l2 = true.
Proof.
  intros H. revert l2. induction H as [|x l1 Hx _ IH]; intros [|y l2]; simpl; try done.
  rewrite !andb_True. intros [Hgx Hg1] [Hgy Hg2].
  specialize (Hx y Hgx Hgy). specialize (IH l2 Hg1 Hg2). rewrite andb_true_iff, <- Hx, <- IH.
  destruct (cmp x y); naive_solver.
Qed.

End list_order.

Lemma double_cmp_key a b : double_isNaN a = false → double_isNaN b = false →
  double_cmp a b = Z.compare (double_key a) (double_key b).
Proof.
  intros Ha Hb. unfold double_cmp, double_ltb. rewrite Ha, Hb. simpl.
  destruct (Z.compare_spec (double_key a) (double_key b)); repeat case_bool; bool_facts; try done; exfalso; lia.
Qed.

Lemma string_compare_trans a b c r :
  String.compare a b = r → String.compare b c = r → String.compare a c = r.
Proof.
  revert b c. induction a as [|x a IH]; intros [|y b] [|z c]; simpl; try congruence.
  unfold Ascii.compare.
  destruct (N.compare_spec (Ascii.N_of_ascii x) (Ascii.N_of_ascii y)) as [E1|E1|E1];
  destruct (N.compare_spec (Ascii.N_of_ascii y) (Ascii.N_of_ascii z)) as [E2|E2|E2];
  destruct (N.compare_spec (Ascii.N_of_ascii x) (Ascii.N_of_ascii z)) as [E3|E3|E3];
  try (exfalso; lia); try congruence; eauto.
Qed.

Lemma string_compare_Eq a b : String.compare a b = Eq ↔ a = b.
Proof.
  split; [apply String.compare_eq_iff|intros ->].
  pose proof (String.compare_antisym b b) as H. by destruct (String.compare b b).
Qed.

Lemma double_cmp_anti a b : double_cmp b a = CompOpp (double_cmp a b).
Proof.
  unfold double_cmp, double_ltb.
  destruct (double_isNaN a), (double_isNaN b); simpl; try done.
  repeat case_bool; bool_facts; try done; exfalso; lia.
Qed.

Lemma Value_cmp_anti a b : Value_cmp b a = CompOpp (Value_cmp a b).
Proof.
  revert b. induction a as [| | | | |ps IH] using Value_ind'; intros []; simpl; try done.
  - apply Z.compare_antisym.
  - apply double_cmp_anti.
  - apply String.compare_antisym.
  - by apply list_cmp_anti.
Qed.

Lemma Value_cmp_laws a : comparable a → cmp_laws comparable Value_cmp a.
Proof.
  induction a as [|i|d|str|i|ps IH] using Value_ind'; simpl; intros Ha; try done.
  - split; intros [] [] Hb Hc; simpl in *; try done.
  - split; intros [] [] Hb Hc; simpl in *; try done; intros;
      rewrite ?Z.compare_eq_iff, ?Z.compare_lt_iff in *; subst; try done; lia.
  - apply negb_True, Is_true_false in Ha.
    split; intros [| |d1| | |] [| |d2| | |]; simpl in *; try done;
      intros Hb%negb_True%Is_true_false; try (intros Hc%negb_True%Is_true_false);
      rewrite ?double_cmp_key by done; intros;
      rewrite ?Z.compare_eq_iff, ?Z.compare_lt_iff in *; try done; try lia.
    by f_equal.
  - split; intros [] [] Hb Hc; simpl in *; try done; intros.
    + by rewrite string_compare_Eq in *; subst.
    + by eapply string_compare_trans.
    + by rewrite string_compare_Eq in *; subst.
  - assert (Forall (cmp_laws comparable Value_cmp) ps) as Hps.
    { rewrite forallb_True in Ha. rewrite Forall_forall in *. eauto. }
    destruct (list_cmp_laws _ _ _ Hps) as [H1 H2 H3].
    split; intros [| | | | |qs] [| | | | |rs] Hb Hc; simpl in *; try done; eauto.
Qed.

Lemma Value_cmp_Eq a b : comparable a → comparable b →
  Value_cmp a b = Eq ↔ Value_eqb a b = true.
Proof.
  revert b. induction a as [|i|d|str|i|ps IH] using Value_ind'; intros b Ha Hb;
    destruct b; simpl in *; try done.
  - by rewrite Z.compare_eq_iff, Z.eqb_eq.
  - apply negb_True, Is_true_false in Ha. apply negb_True, Is_true_false in Hb.
    unfold double_eqb. rewrite double_cmp_key, Ha, Hb by done. simpl.
    by rewrite Z.compare_eq_iff, Z.eqb_eq.
  - by rewrite string_compare_Eq, String.eqb_eq.
  - by apply (list_cmp_eqb comparable).
Qed.

Lemma Value_ltb_cmp a b : Value_ltb a b = true ↔ Value_cmp a b = Lt.
Proof. unfold Value_ltb. by destruct (Value_cmp a b). Qed.

Lemma Value_ltb_gt a b : Value_ltb b a = true ↔ Value_cmp a b = Gt.
Proof. rewrite Value_ltb_cmp, (Value_cmp_anti a b). by destruct (Value_cmp a b). Qed.

Lemma Value_ltb_irrefl a : Value_ltb a a = false.
Proof.
  unfold Value_ltb. pose proof (Value_cmp_anti a a) as H.
  by destruct (Value_cmp a a).
Qed.

Lemma Value_ltb_asym a b : Value_ltb a b = true → Value_ltb b a = false.
Proof.
  rewrite Value_ltb_cmp. intros H. unfold Value_ltb. by rewrite (Value_cmp_anti a b), H.
Qed.

Lemma Value_ltb_trans a b c : comparable a → comparable b → comparable c →
  Value_ltb a b = true → Value_ltb b c = true → Value_ltb a c = true.
Proof.
  rewrite !Value_ltb_cmp. intros Ha Hb Hc. by apply (cl_lt _ _ _ (Value_cmp_laws a Ha)).
Qed.

Lemma Value_eqb_refl a : comparable a → Value_eqb a a = true.
Proof.
  intros Ha. apply (Value_cmp_Eq a a Ha Ha). pose proof (Value_cmp_anti a a) as H.
  by destruct (Value_cmp a a).
Qed.

(** Equal values compare alike with every other value. *)
Lemma Value_cmp_eq_l a b c : comparable a → comparable b → comparable c →
  Value_eqb a b = true → Value_cmp a c = Value_cmp b c.
Proof.
  intros Ha Hb Hc H%Value_cmp_Eq; [|done..]. by apply (cl_eq _ _ _ (Value_cmp_laws a Ha)).
Qed.

Lemma Value_cmp_eq_r a b c : comparable a → comparable b → comparable c →
  Value_eqb a b = true → Value_cmp c a = Value_cmp c b.
Proof.
  intros. rewrite (Value_cmp_anti a c), (Value_cmp_anti b c). f_equal. by apply Value_cmp_eq_l.
Qed.

Lemma bool_eq_iff (x y : bool) : (x = true ↔ y = true) → x = y.
Proof. destruct x, y; naive_solver. Qed.

Lemma Value_eqb_sym a b : comparable a → comparable b → Value_eqb a b = Value_eqb b a.
Proof.
  intros Ha Hb. apply bool_eq_iff. rewrite <- !Value_cmp_Eq by done.
  rewrite (Value_cmp_anti a b). by destruct (Value_cmp a b).
Qed.

(** On values without NaN and parameter placeholders the source's [<] is a
    strict total order modulo its [==]: irreflexive, transitive, and for any two
    values exactly one of [a < b], [a == b], [b < a] holds; equal values are
    interchangeable in both relations.  (The index structures rely on this.) *)
Theorem Value_order_total (a b c : Value) :
  comparable a → comparable b → comparable c →
  Value_ltb a a = false ∧
  (Value_ltb a b = true → Value_ltb b c = true → Value_ltb a c = true) ∧
  (Value_ltb a b, Value_eqb a b, Value_ltb b a)
    ∈ [(true, false, false); (false, true, false); (false, false, true)] ∧
  (Value_eqb a b = true →
   Value_ltb a c = Value_ltb b c ∧ Value_ltb c a = Value_ltb c b ∧ Value_eqb a c = Value_eqb b c).
Proof.
  intros Ha Hb Hc. repeat split.
  - apply Value_ltb_irrefl.
  - by apply Value_ltb_trans.
  - pose proof (Value_cmp_Eq a b Ha Hb) as He.
    unfold Value_ltb. rewrite (Value_cmp_anti a b).
    destruct (Value_cmp a b), (Value_eqb a b); simpl; set_solver by naive_solver.
  - unfold Value_ltb. by rewrite (Value_cmp_eq_l a b c).
  - unfold Value_ltb. by rewrite (Value_cmp_eq_r a b c).
  - apply bool_eq_iff. rewrite <- !Value_cmp_Eq by done. by rewrite (Value_cmp_eq_l a b c).
Qed.

Lemma Value_order_total_witness :
  let a := VComposite [VInt 1; VDouble (2 ^ 63)] in
  let b := VComposite [VInt 1; VDouble 0] in
  let c := VComposite [VInt 1; VString "x"] in
  Value_eqb a b = true ∧ Value_ltb a c = Value_ltb b c ∧ Value_ltb a c = true.
Proof.
  intros a b c. destruct (Value_order_total a b c I I I) as (_ & _ & _ & H).
  split; [reflexivity|]. split; [apply H; reflexivity|reflexivity].
Defined.
