(* ===== verification/Float64.v ===== *)
(** * Binary64 arithmetic

    The [double] computations of the selectivity estimates and of the planner, as
    executable functions on [spec_float] at precision 53 and exponent bound 1024.
    Rounding is to nearest, ties to even.

    [std::llround] of a NaN, an infinity or a number outside [int64_t] is
    unspecified: the parameter [llround_out] stands for what it returns then. *)

From S2P Require Import Prelude Value.
From Stdlib Require Import SpecFloat.
Local Open Scope Z_scope.

Abbreviation double := spec_float.

Definition d_add : double → double → double := SFadd 53 1024.
Definition d_sub : double → double → double := SFsub 53 1024.
Definition d_mul : double → double → double := SFmul 53 1024.
Definition d_div : double → double → double := SFdiv 53 1024.
Definition d_ltb : double → double → bool := SFltb.
Definition d_leb : double → double → bool := SFleb.
Definition d_eqb : double → double → bool := SFeqb.

(** [static_cast<double>] of an integer. *)
Definition double_of_Z (z : Z) : double := binary_normalize 53 1024 z 0 false.
Definition double_of_nat (n : nat) : double := double_of_Z (Z.of_nat n).

(** The nearest [double] to a decimal literal [n / d]. *)
Definition d_literal (n d : Z) : double := d_div (double_of_Z n) (double_of_Z d).
Definition d_zero : double := S754_zero false.
Definition d_one : double := double_of_Z 1.

(** The number with the bit pattern [bits]. *)
Definition double_of_bits (bits : Z) : double :=
  let s := Z.testbit bits 63 in
  let e := Z.land (Z.shiftr bits 52) 0x7FF in
  let m := Z.land bits (2 ^ 52 - 1) in
  if e =? 0x7FF then (if m =? 0 then S754_infinity s else S754_nan)
  else
    let m := if e =? 0 then m else m + 2 ^ 52 in
    match m with
    | Zpos p => S754_finite s p (Z.max e 1 - 1075)
    | _ => S754_zero s
    end.

(** [std::max] and [std::clamp] compare with [<] only. *)
Definition d_max (a b : double) : double := if d_ltb a b then b else a.
Definition d_clamp (v lo hi : double) : double := if d_ltb v lo then lo else if d_ltb hi v then hi else v.

Section llround.
Context (llround_out : double → Z).

(** Half away from zero. *)
Definition llround (x : double) : Z :=
  match x with
  | S754_zero _ => 0
  | S754_finite s m e =>
      let n := if 0 <=? e then Z.shiftl (Zpos m) e else (Z.shiftr (Zpos m) (- e - 1) + 1) / 2 in
      let n := if s then - n else n in
      if (- 2 ^ 63 <=? n) && (n <? 2 ^ 63) then n else llround_out x
  | _ => llround_out x
  end.
End llround.

(** ** Sanity of the rounding: no result is a NaN unless an operand is special *)

Definition d_isNaN (x : double) : bool := match x with S754_nan => true | _ => false end.
Definition d_sign (x : double) : bool :=
  match x with S754_zero s | S754_infinity s | S754_finite s _ _ => s | S754_nan => false end.

(** [0 <= x] for a number: not a NaN, and not negative. *)
Definition d_nonneg (x : double) : Prop := d_isNaN x = false ∧ d_sign x = false.

Lemma shr_nonneg mrs e n : 0 <= shr_m mrs → 0 <= shr_m (shr mrs e n).1.
Proof.
  destruct n as [|p|p]; try done. simpl. revert mrs.
  assert (∀ mrs, 0 <= shr_m mrs → 0 <= shr_m (shr_1 mrs)) as H1.
  { intros [m r s]. destruct m as [|[q|q|]|]; simpl; lia. }
  induction p as [p IH|p IH|]; intros mrs H; simpl; auto.
Qed.

Lemma shr_fexp_nonneg m e l : 0 <= m → 0 <= shr_m (shr_fexp 53 1024 m e l).1.
Proof.
  intros H. unfold shr_fexp. apply shr_nonneg. destruct l as [|[]]; done.
Qed.

Lemma round_nearest_even_nonneg m l : 0 <= m → 0 <= round_nearest_even m l.
Proof. destruct l as [|[]]; simpl; try lia. destruct (Z.even m); lia. Qed.

Lemma binary_round_aux_sign s m e l : 0 <= m →
  d_isNaN (binary_round_aux 53 1024 s m e l) = false ∧ d_sign (binary_round_aux 53 1024 s m e l) = s.
Proof.
  intros H. unfold binary_round_aux. pose proof (shr_fexp_nonneg m e l H) as H1.
  destruct (shr_fexp 53 1024 m e l) as [mrs e1]. cbn [fst] in H1.
  pose proof (shr_fexp_nonneg _ e1 loc_Exact (round_nearest_even_nonneg _ (loc_of_shr_record mrs) H1)) as H2.
  destruct (shr_fexp _ _ _ e1 loc_Exact) as [mrs2 e2]. cbn [fst] in H2.
  destruct (shr_m mrs2) as [|p|p]; [done| |lia]. by destruct (Z.leb _ _).
Qed.

Lemma double_of_nat_nonneg n : d_nonneg (double_of_nat n).
Proof.
  unfold double_of_nat, double_of_Z, binary_normalize, d_nonneg.
  destruct (Z.of_nat n) as [|p|p] eqn:E; [done| |lia].
  unfold binary_round. destruct (shl_align _ _ _) as [mz ez]. by apply binary_round_aux_sign.
Qed.

