(* ===== verification/BinaryIO.v ===== *)
(** * Binary plain-old-data input and output

    [include/VertexDB/common/binary_io.hpp]: [writePod] and [readPod] copy the
    object representation of a fixed-width integer (little-endian, as on every
    platform the project builds for); [readPod] from a byte span throws when
    fewer bytes remain.  The file adds the interface the payload codecs of the
    program are verified against: a [Codec] is a writer and a reader with a round
    trip law and a truncation law. *)

From S2P Require Import Prelude.
From Stdlib Require Import Strings.Byte.
Local Open Scope Z_scope.

Abbreviation byte := Byte.byte.
Abbreviation bytes := (list Byte.byte).

(** ** Bytes and little-endian integers *)

Definition byte_to_Z (b : byte) : Z := Z.of_N (Byte.to_N b).
Definition byte_of_Z (z : Z) : byte :=
  match Byte.of_N (Z.to_N (z mod 256)) with
  | Some b => b
  | None => Byte.x00
  end.

(** The object representation of the [n]-byte integer [z]. *)
Fixpoint le_bytes (n : nat) (z : Z) : bytes :=
  match n with
  | O => []
  | S n => byte_of_Z z :: le_bytes n (z / 256)
  end.

Fixpoint le_value (bs : bytes) : Z :=
  match bs with
  | [] => 0
  | b :: bs => byte_to_Z b + 256 * le_value bs
  end.

(** [static_cast<std::int64_t>] of an unsigned 64-bit representation. *)
Definition to_int64 (u : Z) : Z := if u <? 2 ^ 63 then u else u - 2 ^ 64.

(** ** Writers and readers *)

Definition reader (A : Type) : Type := bytes → result (A * bytes).

(** [writePod] of the unsigned types (and, through its bit pattern, of a double). *)
Definition writePod_u8 (z : Z) : bytes := le_bytes 1 z.
Definition writePod_u32 (z : Z) : bytes := le_bytes 4 z.
Definition writePod_u64 (z : Z) : bytes := le_bytes 8 z.
(** [writePod] of a signed 64-bit integer: its two's complement representation. *)
Definition writePod_i64 (z : Z) : bytes := le_bytes 8 (z mod 2 ^ 64).

(** [readPod<T>(std::span &)], with [sizeof(T) = size]. *)
Definition readPod (size : nat) (errorMessage : string) : reader Z := λ bs,
  if Nat.ltb (length bs) size then Throw (runtime_error errorMessage)
  else Ok (le_value (take size bs), drop size bs).

Definition readPod_u8 := readPod 1.
Definition readPod_u32 := readPod 4.
Definition readPod_u64 := readPod 8.
Definition readPod_i64 (errorMessage : string) : reader Z := λ bs,
  '(u, bs) ← readPod 8 errorMessage bs; Ok (to_int64 u, bs).

(** [readBytes] of [n] raw bytes; the count is a 64-bit field of the payload. *)
Definition readBytes (n : Z) (errorMessage : string) : reader bytes := λ bs,
  if Z.of_nat (length bs) <? n then Throw (runtime_error errorMessage)
  else Ok (take (Z.to_nat n) bs, drop (Z.to_nat n) bs).

(** A counted loop over a reader: [for (i = 0; i < count; ++i) push_back(read())].
    Every reader it is used with consumes at least one byte or throws, so
    [S (length bs)] rounds of fuel always suffice ([readMany_fuel]). *)
Fixpoint readMany_fuel {A} (rd : reader A) (fuel : nat) (count : Z) (bs : bytes)
    : result (list A * bytes) :=
  if count <=? 0 then Ok ([], bs) else
  match fuel with
  | O => Throw (runtime_error "out of fuel")
  | S fuel =>
      '(a, bs) ← rd bs;
      '(l, bs) ← readMany_fuel rd fuel (count - 1) bs;
      Ok (a :: l, bs)
  end.

Definition readMany {A} (rd : reader A) (count : Z) : reader (list A) := λ bs,
  readMany_fuel rd (S (length bs)) count bs.

(** ** Byte lemmas *)

Lemma byte_of_to_Z b : byte_of_Z (byte_to_Z b) = b.
Proof.
  unfold byte_of_Z, byte_to_Z. pose proof (Byte.to_N_bounded b).
  rewrite Z.mod_small by lia. by rewrite N2Z.id, Byte.of_to_N.
Qed.

Lemma byte_to_Z_bound b : 0 <= byte_to_Z b < 256.
Proof. unfold byte_to_Z. pose proof (Byte.to_N_bounded b). lia. Qed.

Lemma byte_to_of_Z z : byte_to_Z (byte_of_Z z) = z mod 256.
Proof.
  unfold byte_of_Z, byte_to_Z. pose proof (Z.mod_pos_bound z 256).
  destruct (Byte.of_N (Z.to_N (z mod 256))) as [b|] eqn:E.
  - apply Byte.to_of_N in E. rewrite E. lia.
  - apply Byte.of_N_None_iff in E. lia.
Qed.

Lemma length_le_bytes n z : length (le_bytes n z) = n.
Proof. revert z. induction n; simpl; congruence. Qed.

Lemma le_value_bytes n z : 0 <= z < 256 ^ Z.of_nat n → le_value (le_bytes n z) = z.
Proof.
  revert z. induction n as [|n IH]; intros z Hz; simpl.
  - change (256 ^ Z.of_nat 0) with 1 in Hz. lia.
  - rewrite byte_to_of_Z, IH; [pose proof (Z.div_mod z 256); lia|].
    rewrite Nat2Z.inj_succ, Z.pow_succ_r in Hz by lia.
    split; [apply Z.div_pos; lia|]. apply Z.div_lt_upper_bound; lia.
Qed.

Lemma le_value_bound bs : 0 <= le_value bs < 256 ^ Z.of_nat (length bs).
Proof.
  induction bs as [|b bs IH]; cbn [le_value length]; [done|].
  pose proof (byte_to_Z_bound b). rewrite Nat2Z.inj_succ, Z.pow_succ_r by lia. lia.
Qed.

Lemma readPod_app n msg z rest : 0 <= z < 256 ^ Z.of_nat n →
  readPod n msg (le_bytes n z ++ rest) = Ok (z, rest).
Proof.
  intros Hz. unfold readPod.
  rewrite length_app, length_le_bytes.
  destruct (Nat.ltb_spec (n + length rest) n); [lia|].
  rewrite take_app_length', drop_app_length' by (by rewrite length_le_bytes).
  by rewrite le_value_bytes.
Qed.

Lemma readPod_short n msg bs : (length bs < n)%nat →
  readPod n msg bs = Throw (runtime_error msg).
Proof. intros H. unfold readPod. by destruct (Nat.ltb_spec (length bs) n); [|lia]. Qed.

Lemma to_int64_mod z : - 2 ^ 63 <= z < 2 ^ 63 → to_int64 (z mod 2 ^ 64) = z.
Proof.
  intros Hz. unfold to_int64. destruct (Z.ltb_spec (z mod 2 ^ 64) (2 ^ 63)) as [H|H].
  - destruct (decide (0 <= z)); [by rewrite Z.mod_small by lia|].
    rewrite <- (Z.mod_add z 1), Z.mul_1_l, Z.mod_small in H by lia. lia.
  - destruct (decide (0 <= z)); [rewrite Z.mod_small in H by lia; lia|].
    rewrite <- (Z.mod_add z 1), Z.mul_1_l, Z.mod_small by lia. lia.
Qed.

(** ** Codecs

    [Codec wf enc dec]: on well-formed values the reader inverts the writer and
    stops exactly at its end, and every proper prefix of an encoding makes the
    reader throw. *)
Class Codec {A} (wf : A → Prop) (enc : A → bytes) (dec : reader A) : Prop := {
  codec_roundtrip a rest : wf a → dec (enc a ++ rest) = Ok (a, rest);
  codec_truncated a p : wf a → p `prefix_of` enc a → p ≠ enc a → ∃ e, dec p = Throw e
}.

(** A proper prefix of [x ++ y] ends inside [x] or inside [y]. *)
Lemma prefix_app_cases {A} (p x y : list A) :
  p `prefix_of` x ++ y → p ≠ x ++ y →
  (p `prefix_of` x ∧ p ≠ x) ∨ (∃ q, p = x ++ q ∧ q `prefix_of` y ∧ q ≠ y).
Proof.
  intros Hp Hne. destruct (decide (length p < length x)%nat) as [Hl|Hl].
  - left. split; [|intros ->; lia]. destruct Hp as [k Hk].
    exists (drop (length p) x).
    apply (f_equal (take (length x))) in Hk.
    rewrite take_app_length in Hk. rewrite take_app_ge in Hk by lia.
    rewrite Hk at 1. f_equal. rewrite Hk at 2. by rewrite drop_app_length.
  - right. destruct Hp as [k Hk].
    exists (drop (length x) p). split_and!.
    + rewrite <- (take_drop (length x) p) at 1. f_equal.
      apply (f_equal (take (length x))) in Hk. rewrite take_app_length in Hk.
      by rewrite take_app_le in Hk by lia.
    + exists k. apply (f_equal (drop (length x))) in Hk. rewrite drop_app_length in Hk.
      by rewrite drop_app_le in Hk by lia.
    + intros Hq. apply Hne. rewrite <- (take_drop (length x) p), Hq. f_equal.
      apply (f_equal (take (length x))) in Hk. rewrite take_app_length in Hk.
      by rewrite take_app_le in Hk by lia.
Qed.

Lemma prefix_length_lt {A} (p x : list A) :
  p `prefix_of` x → p ≠ x → (length p < length x)%nat.
Proof.
  intros [k ->] Hne. rewrite length_app. destruct k; simpl; [|lia].
  by rewrite app_nil_r in Hne.
Qed.

#[export] Instance codec_pod n msg :
  Codec (λ z, 0 <= z < 256 ^ Z.of_nat n) (le_bytes n) (readPod n msg).
Proof.
  split.
  - intros. by apply readPod_app.
  - intros a p Ha Hp Hne. eexists. apply readPod_short.
    pose proof (prefix_length_lt _ _ Hp Hne) as Hl. by rewrite length_le_bytes in Hl.
Qed.

#[export] Instance codec_i64 msg :
  Codec (λ z, - 2 ^ 63 <= z < 2 ^ 63) writePod_i64 (readPod_i64 msg).
Proof.
  assert (∀ z, 0 <= z mod 2 ^ 64 < 256 ^ Z.of_nat 8) as Hb.
  { intros z. change (256 ^ Z.of_nat 8) with (2 ^ 64). apply Z.mod_pos_bound. lia. }
  split.
  - intros a rest Ha. unfold readPod_i64, writePod_i64. rewrite readPod_app by apply Hb.
    cbn [mbind result_bind]. by rewrite to_int64_mod.
  - intros a p _ Hp Hne. unfold readPod_i64.
    destruct (codec_truncated (Codec:=codec_pod 8 msg) (a mod 2 ^ 64) p (Hb a) Hp Hne) as [e ->].
    by exists e.
Qed.

(** Sequencing two codecs, the second of which may depend on what was read. *)
Lemma codec_bind_roundtrip {A B} (wf : A → Prop) enc (dec : reader A) `{!Codec wf enc dec}
    a (k : A * bytes → result (B * bytes)) rest :
  wf a → (dec (enc a ++ rest) ≫= k) = k (a, rest).
Proof. intros Ha. by rewrite codec_roundtrip. Qed.

Lemma codec_bind_truncated {A B} (wf : A → Prop) enc (dec : reader A) `{!Codec wf enc dec}
    a (y p : bytes) (k : A * bytes → result (B * bytes)) :
  wf a → p `prefix_of` enc a ++ y → p ≠ enc a ++ y →
  (∀ q, q `prefix_of` y → q ≠ y → ∃ e, k (a, q) = Throw e) →
  ∃ e, (dec p ≫= k) = Throw e.
Proof.
  intros Ha Hp Hne Hk. destruct (prefix_app_cases _ _ _ Hp Hne) as [[Hp' Hn']|(q & -> & Hq & Hqn)].
  - destruct (codec_truncated a p Ha Hp' Hn') as [e ->]. by exists e.
  - rewrite codec_roundtrip by done. cbn [mbind result_bind]. by apply Hk.
Qed.

Definition u64 (z : Z) : Prop := 0 <= z < 2 ^ 64.
Definition u8 (z : Z) : Prop := 0 <= z < 256.

#[export] Instance codec_u64 msg : Codec u64 writePod_u64 (readPod_u64 msg).
Proof. apply (codec_pod 8). Qed.

#[export] Instance codec_u8 msg : Codec u8 writePod_u8 (readPod_u8 msg).
Proof. apply (codec_pod 1). Qed.

#[export] Instance codec_u32 msg : Codec (λ z, 0 <= z < 2 ^ 32) writePod_u32 (readPod_u32 msg).
Proof. apply (codec_pod 4). Qed.

Lemma u64_bind_roundtrip {B} z (k : Z * bytes → result (B * bytes)) msg rest :
  u64 z → (readPod_u64 msg (writePod_u64 z ++ rest) ≫= k) = k (z, rest).
Proof. apply (codec_bind_roundtrip u64 _ _). Qed.

Lemma u8_bind_roundtrip {B} z (k : Z * bytes → result (B * bytes)) msg rest :
  u8 z → (readPod_u8 msg (writePod_u8 z ++ rest) ≫= k) = k (z, rest).
Proof. apply (codec_bind_roundtrip u8 _ _). Qed.

Lemma u64_bind_truncated {B} z y p (k : Z * bytes → result (B * bytes)) msg :
  u64 z → p `prefix_of` writePod_u64 z ++ y → p ≠ writePod_u64 z ++ y →
  (∀ q, q `prefix_of` y → q ≠ y → ∃ e, k (z, q) = Throw e) →
  ∃ e, (readPod_u64 msg p ≫= k) = Throw e.
Proof. apply (codec_bind_truncated u64 _ _). Qed.

Lemma u8_bind_truncated {B} z y p (k : Z * bytes → result (B * bytes)) msg :
  u8 z → p `prefix_of` writePod_u8 z ++ y → p ≠ writePod_u8 z ++ y →
  (∀ q, q `prefix_of` y → q ≠ y → ∃ e, k (z, q) = Throw e) →
  ∃ e, (readPod_u8 msg p ≫= k) = Throw e.
Proof. apply (codec_bind_truncated u8 _ _). Qed.

(** ** Raw byte blocks *)

Lemma readBytes_app msg (x rest : bytes) :
  readBytes (Z.of_nat (length x)) msg (x ++ rest) = Ok (x, rest).
Proof.
  unfold readBytes. rewrite length_app, Nat2Z.id.
  destruct (Z.ltb_spec (Z.of_nat (length x + length rest)) (Z.of_nat (length x))); [lia|].
  by rewrite take_app_length, drop_app_length.
Qed.

Lemma readBytes_short msg (n : Z) (x : bytes) :
  Z.of_nat (length x) < n → readBytes n msg x = Throw (runtime_error msg).
Proof. intros. unfold readBytes. by destruct (Z.ltb_spec (Z.of_nat (length x)) n); [|lia]. Qed.

(** ** Counted sequences *)

Lemma readMany_fuel_roundtrip {A} (wf : A → Prop) enc (dec : reader A) `{!Codec wf enc dec}
    (l : list A) (fuel : nat) rest :
  Forall wf l → (length l < fuel)%nat →
  readMany_fuel dec fuel (Z.of_nat (length l)) (concat (map enc l) ++ rest) = Ok (l, rest).
Proof.
  revert fuel. induction l as [|a l IH]; intros [|fuel] Hwf Hf; simpl in Hf; try lia; try done.
  apply Forall_cons in Hwf as [Ha Hwf]. cbn [readMany_fuel map concat length].
  destruct (Z.leb_spec (Z.of_nat (S (length l))) 0); [lia|].
  rewrite <- app_assoc, (codec_bind_roundtrip wf) by done.
  replace (Z.of_nat (S (length l)) - 1) with (Z.of_nat (length l)) by lia.
  cbn [mbind result_bind]. by rewrite IH by (done || lia).
Qed.

(** Encodings of at least one byte: the fuel of [readMany] is enough. *)
Lemma length_concat_enc {A} (enc : A → bytes) (l : list A) :
  (∀ a, (0 < length (enc a))%nat) → (length l ≤ length (concat (map enc l)))%nat.
Proof.
  intros H. induction l as [|a l IH]; simpl; [lia|]. rewrite length_app. specialize (H a). lia.
Qed.

Lemma readMany_fuel_truncated {A} (wf : A → Prop) enc (dec : reader A) `{!Codec wf enc dec}
    (l : list A) (fuel : nat) (p : bytes) :
  Forall wf l → p `prefix_of` concat (map enc l) → p ≠ concat (map enc l) →
  ∃ e, readMany_fuel dec fuel (Z.of_nat (length l)) p = Throw e.
Proof.
  revert fuel p. induction l as [|a l IH]; intros fuel p Hwf Hp Hne.
  { simpl in *. by apply prefix_nil_inv in Hp. }
  apply Forall_cons in Hwf as [Ha Hwf]. simpl map in *; simpl concat in *.
  destruct fuel as [|fuel]; cbn [readMany_fuel length];
    destruct (Z.leb_spec (Z.of_nat (S (length l))) 0); try lia; [by eexists|].
  eapply (codec_bind_truncated wf); [done..|]. intros q Hq Hqn.
  destruct (IH fuel q Hwf Hq Hqn) as [e He].
  replace (Z.of_nat (S (length l)) - 1) with (Z.of_nat (length l)) by lia.
  rewrite He. by exists e.
Qed.

Lemma readMany_roundtrip {A} (wf : A → Prop) enc (dec : reader A) `{!Codec wf enc dec}
    (l : list A) rest :
  (∀ a, (0 < length (enc a))%nat) → Forall wf l →
  readMany dec (Z.of_nat (length l)) (concat (map enc l) ++ rest) = Ok (l, rest).
Proof.
  intros Hpos Hwf. unfold readMany. apply (readMany_fuel_roundtrip wf enc dec); [done|].
  rewrite length_app. pose proof (length_concat_enc enc l Hpos). lia.
Qed.

(** A reader that consumes: it throws on the empty input and otherwise leaves a
    strictly shorter rest. *)
Definition consuming {A} (dec : reader A) : Prop :=
  ∀ bs a rest, dec bs = Ok (a, rest) → (length rest < length bs)%nat.

(** Two fuels above the input's length agree: [readMany] never runs out. *)
Lemma readMany_fuel_enough {A} (dec : reader A) (f1 f2 : nat) (count : Z) (bs : bytes) :
  consuming dec → (length bs < f1)%nat → (length bs < f2)%nat →
  readMany_fuel dec f1 count bs = readMany_fuel dec f2 count bs.
Proof.
  intros Hd. revert f2 count bs. induction f1 as [|f1 IH]; intros [|f2] count bs H1 H2; try lia.
  cbn [readMany_fuel]. destruct (count <=? 0); [done|].
  destruct (dec bs) as [[a rest]|e] eqn:E; [|done]. cbn [mbind result_bind].
  apply Hd in E. by rewrite (IH f2) by lia.
Qed.

Lemma readMany_truncated {A} (wf : A → Prop) enc (dec : reader A) `{!Codec wf enc dec}
    (l : list A) (p : bytes) :
  Forall wf l → p `prefix_of` concat (map enc l) → p ≠ concat (map enc l) →
  ∃ e, readMany dec (Z.of_nat (length l)) p = Throw e.
Proof. apply (readMany_fuel_truncated wf enc dec). Qed.

(** ** Length-prefixed sequences and strings

    The payloads write a container as its [std::uint64_t] size followed by its
    elements, and a string as its size followed by its characters. *)
Definition writeCounted {A} (enc : A → bytes) (l : list A) : bytes :=
  writePod_u64 (Z.of_nat (length l)) ++ concat (map enc l).

Definition readCounted {A} (msg : string) (dec : reader A) : reader (list A) := λ bs,
  '(count, bs) ← readPod_u64 msg bs; readMany dec count bs.

Definition string_bytes (s : string) : bytes := String.list_byte_of_string s.
Definition bytes_string (bs : bytes) : string := String.string_of_list_byte bs.

Definition appendString (s : string) : bytes :=
  writePod_u64 (Z.of_nat (String.length s)) ++ string_bytes s.

(** The size is read first; then the remaining bytes must cover it. *)
Definition readString (msg sizeMsg : string) : reader string := λ bs,
  '(size, bs) ← readPod_u64 msg bs;
  '(text, bs) ← readBytes size sizeMsg bs;
  Ok (bytes_string text, bs).

Definition appendBlob (b : bytes) : bytes :=
  writePod_u64 (Z.of_nat (length b)) ++ b.

Definition readBlob (msg : string) : reader bytes := λ bs,
  '(size, bs) ← readPod_u64 msg bs; readBytes size msg bs.

Lemma bytes_string_bytes s : bytes_string (string_bytes s) = s.
Proof. apply String.string_of_list_byte_of_string. Qed.

Lemma length_string_bytes s : length (string_bytes s) = String.length s.
Proof.
  unfold string_bytes, String.list_byte_of_string. rewrite length_map.
  induction s; simpl; congruence.
Qed.

Definition size_ok (n : nat) : Prop := Z.of_nat n < 2 ^ 64.

Lemma size_u64 n : size_ok n → u64 (Z.of_nat n).
Proof. unfold size_ok, u64. lia. Qed.

#[export] Instance codec_blob msg : Codec (λ b, size_ok (length b)) appendBlob (readBlob msg).
Proof.
  split; unfold appendBlob, readBlob.
  - intros b rest Hb%size_u64. rewrite <- app_assoc.
    rewrite u64_bind_roundtrip by done. apply readBytes_app.
  - intros b p Hb%size_u64 Hp Hne. eapply (u64_bind_truncated _ _ _ _ _ Hb Hp Hne).
    intros q Hq Hqn. eexists. apply readBytes_short.
    pose proof (prefix_length_lt _ _ Hq Hqn). lia.
Qed.

#[export] Instance codec_string msg sizeMsg :
  Codec (λ s, size_ok (String.length s)) appendString (readString msg sizeMsg).
Proof.
  split; unfold appendString, readString.
  - intros s rest Hs%size_u64. rewrite <- app_assoc.
    rewrite u64_bind_roundtrip by done. rewrite <- (length_string_bytes s).
    rewrite readBytes_app. cbn [mbind result_bind]. by rewrite bytes_string_bytes.
  - intros s p Hs%size_u64 Hp Hne. eapply (u64_bind_truncated _ _ _ _ _ Hs Hp Hne).
    intros q Hq Hqn. rewrite readBytes_short; [by eexists|].
    pose proof (prefix_length_lt _ _ Hq Hqn) as Hl. rewrite length_string_bytes in Hl. lia.
Qed.

(** A counted sequence of codec values; the element encodings are non-empty. *)
Lemma codec_counted {A} (wf : A → Prop) enc (dec : reader A) msg `{!Codec wf enc dec} :
  (∀ a, (0 < length (enc a))%nat) →
  Codec (λ l, size_ok (length l) ∧ Forall wf l) (writeCounted enc) (readCounted msg dec).
Proof.
  intros Hpos. split; unfold writeCounted, readCounted.
  - intros l rest [Hl%size_u64 Hwf]. rewrite <- app_assoc.
    rewrite u64_bind_roundtrip by done. by apply (readMany_roundtrip wf enc dec).
  - intros l p [Hl%size_u64 Hwf] Hp Hne.
    eapply (u64_bind_truncated _ _ _ _ _ Hl Hp Hne).
    intros q Hq Hqn. by apply (readMany_truncated wf enc dec).
Qed.

Lemma writePod_u64_length z : length (writePod_u64 z) = 8%nat.
Proof. apply length_le_bytes. Qed.

#[export] Hint Extern 1 (0 < length (_ ++ _))%nat => rewrite length_app; cbn; lia : vdb.
