(* ===== verification/BufferPool.v ===== *)
(** * The buffer pool

    [src/storage/buffer_pool.cpp]: the LRU page cache of the page row store.
    The list of page identifiers [lru_] is kept most recent first; the map
    entry's list iterator is identified by its page identifier, which occurs
    once in the list.  The abstract contract is a bounded
    association list in recency order; every sequence of calls on the pool is
    observed exactly as on that list. *)

From S2P Require Import Prelude Value BinaryIO.
Local Open Scope nat_scope.

Abbreviation PageId := nat.

Record Page : Type := mkPage {
  page_id : PageId;
  page_bytes_of : bytes;
  page_dirty : bool
}.

Record BufferPool : Type := mkBufferPool {
  bp_capacity : nat;
  bp_lru : list PageId;
  bp_pages : gmap PageId Page
}.

(** The constructor. *)
Definition BufferPool_new (capacity : nat) : result BufferPool :=
  _ ← throw_if (Nat.eqb capacity 0)
        (invalid_argument "buffer pool capacity must be positive");
  Ok (mkBufferPool capacity [] ∅).

Definition BufferPool_size (b : BufferPool) : nat := size (bp_pages b).

Definition BufferPool_contains (b : BufferPool) (p : PageId) : bool :=
  bool_decide (is_Some (bp_pages b !! p)).

(** [lru_.splice(lru_.begin(), lru_, it)]. *)
Definition touch (p : PageId) (lru : list PageId) : list PageId := p :: erase_first p lru.

(** The [while] loop of [evictIfNeeded]; [fuel] bounds the rounds, each of
    which removes one page. *)
Fixpoint evict_loop (fuel : nat) (b : BufferPool) : BufferPool :=
  match fuel with
  | O => b
  | S fuel =>
      if Nat.ltb (bp_capacity b) (BufferPool_size b) then
        match unsnoc (bp_lru b) with
        | Some (lru, evicted) =>
            evict_loop fuel (mkBufferPool (bp_capacity b) lru (delete evicted (bp_pages b)))
        | None => b
        end
      else b
  end.

Definition evictIfNeeded (b : BufferPool) : BufferPool := evict_loop (BufferPool_size b) b.

Definition BufferPool_put (page : Page) (b : BufferPool) : BufferPool :=
  let id := page_id page in
  match bp_pages b !! id with
  | Some _ =>
      mkBufferPool (bp_capacity b) (touch id (bp_lru b)) (<[id := page]> (bp_pages b))
  | None =>
      evictIfNeeded (mkBufferPool (bp_capacity b) (id :: bp_lru b) (<[id := page]> (bp_pages b)))
  end.

Definition BufferPool_get (p : PageId) (b : BufferPool) : option Page * BufferPool :=
  match bp_pages b !! p with
  | None => (None, b)
  | Some page =>
      (Some page, mkBufferPool (bp_capacity b) (touch p (bp_lru b)) (bp_pages b))
  end.

(** ** The abstract cache

    [lru_cache]: the cached pages, most recently used first. *)
Abbreviation lru_cache := (list (PageId * Page)).

Definition lru_put (cap : nat) (page : Page) (c : lru_cache) : lru_cache :=
  take cap ((page_id page, page) :: filter (λ e, e.1 ≠ page_id page) c).

Definition lru_find (p : PageId) (c : lru_cache) : option Page :=
  snd <$> head (filter (λ e, e.1 = p) c).

Definition lru_get (p : PageId) (c : lru_cache) : option Page * lru_cache :=
  match lru_find p c with
  | None => (None, c)
  | Some page => (Some page, (p, page) :: filter (λ e, e.1 ≠ p) c)
  end.

(** The pool represents a cache. *)
Record bp_rep (b : BufferPool) (c : lru_cache) : Prop := {
  bpr_lru : bp_lru b = c.*1;
  bpr_pages : bp_pages b = list_to_map c;
  bpr_nodup : NoDup c.*1;
  bpr_pos : 0 < bp_capacity b;
  bpr_bound : length c ≤ bp_capacity b
}.

Lemma erase_first_fst (p : PageId) (c : lru_cache) :
  NoDup c.*1 → erase_first p c.*1 = (filter (λ e, e.1 ≠ p) c).*1.
Proof.
  induction c as [|[q pg] c IH]; intros Hnd; [done|]. rewrite fmap_cons in Hnd.
  apply NoDup_cons in Hnd as [Hq Hnd]. rewrite filter_cons; simpl.
  destruct (decide (q = p)) as [->|Hne].
  - rewrite decide_False by tauto. f_equal. symmetry. apply filter_all.
    rewrite Forall_forall. intros [q' pg'] Hin; simpl. intros ->.
    apply Hq. apply list_elem_of_fmap. by exists (p, pg').
  - rewrite decide_True by done. simpl. f_equal. by apply IH.
Qed.

Lemma list_to_map_filter_ne (p : PageId) (c : lru_cache) :
  (list_to_map (filter (λ e, e.1 ≠ p) c) : gmap PageId Page) = delete p (list_to_map c).
Proof.
  induction c as [|[q pg] c IH]; [simpl; by rewrite delete_empty|].
  rewrite filter_cons; simpl. destruct (decide (q = p)) as [->|Hne].
  - rewrite decide_False by tauto. by rewrite IH, delete_insert_eq.
  - rewrite decide_True by done. simpl. by rewrite IH, delete_insert_ne.
Qed.

Lemma NoDup_filter_fst (p : PageId) (c : lru_cache) :
  NoDup c.*1 → NoDup (filter (λ e, e.1 ≠ p) c).*1.
Proof.
  intros Hnd. rewrite <- erase_first_fst by done. by apply NoDup_erase_first.
Qed.

Lemma not_elem_of_filter_fst (p : PageId) (c : lru_cache) :
  p ∉ (filter (λ e, e.1 ≠ p) c).*1.
Proof.
  rewrite list_elem_of_fmap. intros ([q pg] & -> & Hin).
  apply list_elem_of_filter in Hin as [Hne _]. by simpl in Hne.
Qed.

Lemma bp_rep_size b c : bp_rep b c → BufferPool_size b = length c.
Proof.
  intros [_ Hp Hnd _ _]. unfold BufferPool_size. rewrite Hp.
  by apply map_size_list_to_map.
Qed.

Lemma lru_find_lookup (p : PageId) (c : lru_cache) :
  lru_find p c = (list_to_map c : gmap PageId Page) !! p.
Proof.
  unfold lru_find. induction c as [|[q pg] c IH]; [simpl; by rewrite lookup_empty|].
  rewrite filter_cons; simpl. destruct (decide (q = p)) as [->|Hne].
  - by rewrite lookup_insert_eq.
  - rewrite lookup_insert_ne by done. exact IH.
Qed.

Lemma evict_loop_snoc b l e fuel :
  bp_lru b = (l ++ [e]).*1 → bp_pages b = list_to_map (l ++ [e]) → NoDup (l ++ [e]).*1 →
  BufferPool_size b = length (l ++ [e]) →
  length l = bp_capacity b → 0 < fuel →
  evict_loop fuel b = mkBufferPool (bp_capacity b) l.*1 (list_to_map l).
Proof.
  intros Hl Hm Hnd Hsz Hcap Hf. destruct fuel as [|fuel]; [lia|]. simpl.
  rewrite Hsz, length_app; simpl.
  assert (Nat.ltb (bp_capacity b) (length l + 1) = true) as -> by (apply Nat.ltb_lt; lia).
  assert (unsnoc (bp_lru b) = Some (l.*1, e.1)) as ->.
  { apply unsnoc_Some. by rewrite Hl, fmap_app. }
  rewrite fmap_app in Hnd. apply NoDup_app in Hnd as (Hnd & Hd & _).
  assert (delete e.1 (bp_pages b) = list_to_map l) as ->.
  { rewrite Hm, list_to_map_app. destruct e as [k pg]; simpl.
    rewrite insert_empty, delete_union, delete_singleton_eq, map_union_empty.
    apply delete_id. apply not_elem_of_list_to_map_1. intros Hin. apply (Hd k Hin). set_solver. }
  assert (size (list_to_map l : gmap PageId Page) = length l) as Hs.
  { by apply map_size_list_to_map. }
  destruct fuel; simpl; [done|]. unfold BufferPool_size; simpl. rewrite Hs, Hcap.
  by rewrite Nat.ltb_irrefl.
Qed.

Lemma bp_rep_touch b c p page :
  bp_rep b c → bp_pages b !! p = Some page → ∀ page',
  bp_rep (mkBufferPool (bp_capacity b) (touch p (bp_lru b)) (<[p := page']> (bp_pages b)))
    ((p, page') :: filter (λ e, e.1 ≠ p) c).
Proof.
  intros [Hl Hm Hnd Hpos Hb] Hp page'. rename p into q.
  assert (q ∈ c.*1) as Hin.
  { destruct (decide (q ∈ c.*1)) as [|Hn]; [done|].
    apply not_elem_of_list_to_map_1 in Hn. rewrite Hm in Hp. congruence. }
  split; simpl; [| | |done|].
  - unfold touch. by rewrite Hl, erase_first_fst.
  - by rewrite list_to_map_filter_ne, insert_delete_eq, Hm.
  - apply NoDup_cons; split; [apply not_elem_of_filter_fst|by apply NoDup_filter_fst].
  - assert (S (length (filter (λ e, e.1 ≠ q) c)) = length c) as ->; [|done].
    rewrite <- (length_fmap fst c), <- (length_erase_first q c.*1) by done.
    by rewrite erase_first_fst, length_fmap.
Qed.

Lemma bp_rep_put b c page :
  bp_rep b c → bp_rep (BufferPool_put page b) (lru_put (bp_capacity b) page c).
Proof.
  intros Hrep. pose proof Hrep as [Hl Hm Hnd Hpos Hb]. unfold BufferPool_put, lru_put.
  destruct (bp_pages b !! page_id page) as [old|] eqn:Hp.
  - rewrite take_ge; [by eapply bp_rep_touch|].
    destruct (bp_rep_touch b c _ old Hrep Hp page) as [_ _ _ _ Hb']. exact Hb'.
  - set (q := page_id page) in *.
    assert (q ∉ c.*1) as Hq by (apply not_elem_of_list_to_map_2; congruence).
    rewrite filter_all; [|rewrite Forall_forall; intros e He Heq; apply Hq;
      rewrite <- Heq; by apply list_elem_of_fmap_2].
    set (b' := mkBufferPool _ _ _). set (c' := (q, page) :: c).
    assert (bp_lru b' = c'.*1) as Hl' by (simpl; by rewrite Hl).
    assert (bp_pages b' = list_to_map c') as Hm' by (simpl; by rewrite Hm).
    assert (NoDup c'.*1) as Hnd' by (apply NoDup_cons; split; done).
    assert (BufferPool_size b' = length c') as Hs'.
    { unfold BufferPool_size. rewrite Hm'. by apply map_size_list_to_map. }
    unfold evictIfNeeded. destruct (decide (length c = bp_capacity b)) as [Hfull|Hroom].
    + destruct (exists_last (l := c')) as (l & e & Hle); [done|].
      assert (length l = bp_capacity b) as Hll.
      { apply (f_equal length) in Hle. rewrite length_app in Hle. simpl in *. lia. }
      rewrite (evict_loop_snoc b' l e) by (rewrite <- ?Hle, ?Hs'; simpl; auto; lia).
      replace (bp_capacity b') with (bp_capacity b) by done.
      replace (take (bp_capacity b) c') with l
        by (rewrite Hle, <- Hll; symmetry; apply take_app_length).
      rewrite Hle, fmap_app in Hnd'. apply NoDup_app in Hnd' as [Hnd' _].
      split; simpl; auto. lia.
    + rewrite take_ge by (simpl; lia).
      assert (evict_loop (BufferPool_size b') b' = b') as ->.
      { destruct (BufferPool_size b') eqn:E; [done|]. cbn [evict_loop]. rewrite E.
        assert (Nat.ltb (bp_capacity b') (S n) = false) as ->; [|done].
        apply Nat.ltb_ge. simpl in *. lia. }
      split; simpl; auto; simpl in *; lia.
Qed.

Lemma bp_rep_get b c p :
  bp_rep b c → (BufferPool_get p b).1 = (lru_get p c).1 ∧ bp_rep (BufferPool_get p b).2 (lru_get p c).2.
Proof.
  intros Hrep. unfold BufferPool_get, lru_get.
  rewrite lru_find_lookup, <- (bpr_pages _ _ Hrep).
  destruct (bp_pages b !! p) as [page|] eqn:Hp; simpl; split; try done.
  pose proof (bp_rep_touch b c p page Hrep Hp page) as H. by rewrite insert_id in H.
Qed.

Lemma bp_rep_new cap b : BufferPool_new cap = Ok b → bp_rep b [].
Proof.
  unfold BufferPool_new, throw_if. case_bool; [done|]. intros [= <-]. bool_facts.
  split; simpl; [done|done|constructor|lia|lia].
Qed.

Lemma BufferPool_put_capacity page b : bp_capacity (BufferPool_put page b) = bp_capacity b.
Proof.
  unfold BufferPool_put, evictIfNeeded. case_match; [done|].
  set (b' := mkBufferPool _ _ _). replace (bp_capacity b) with (bp_capacity b') by done.
  generalize (BufferPool_size b'). intros n. generalize b'. clear.
  induction n as [|n IH]; intros b; simpl; [done|].
  case_bool; [|done]. destruct (unsnoc _) as [[??]|]; [|done]. by rewrite IH.
Qed.

(** What a write leaves in the cache: the page itself, and old entries. *)
Lemma BufferPool_put_lookup b c page p page' :
  bp_rep b c → bp_pages (BufferPool_put page b) !! p = Some page' →
  (p = page_id page ∧ page' = page) ∨ (page_id page ≠ p ∧ bp_pages b !! p = Some page').
Proof.
  intros Hrep Hp. rewrite (bpr_pages _ _ (bp_rep_put b c page Hrep)) in Hp.
  apply elem_of_list_to_map_2 in Hp. unfold lru_put in Hp.
  apply elem_of_take in Hp as (i & Hp & _). apply list_elem_of_lookup_2 in Hp.
  apply elem_of_cons in Hp as [[= -> ->]|[Hne Hin]%list_elem_of_filter]; [by left|].
  right. simpl in Hne. split; [done|]. rewrite (bpr_pages _ _ Hrep).
  by apply elem_of_list_to_map_1; [apply Hrep|].
Qed.

Lemma BufferPool_put_self b c page :
  bp_rep b c → bp_pages (BufferPool_put page b) !! page_id page = Some page.
Proof.
  intros Hrep. rewrite (bpr_pages _ _ (bp_rep_put b c page Hrep)).
  unfold lru_put. pose proof (bpr_pos _ _ Hrep). destruct (bp_capacity b); [lia|]. simpl.
  apply lookup_insert_eq.
Qed.

(** ** Traces *)

Inductive bp_op : Type :=
| BP_put (page : Page)
| BP_get (p : PageId)
| BP_contains (p : PageId)
| BP_size.

Inductive bp_obs : Type :=
| BO_unit
| BO_page (page : option Page)
| BO_bool (b : bool)
| BO_nat (n : nat).

Definition bp_step (op : bp_op) (b : BufferPool) : bp_obs * BufferPool :=
  match op with
  | BP_put page => (BO_unit, BufferPool_put page b)
  | BP_get p => let '(r, b) := BufferPool_get p b in (BO_page r, b)
  | BP_contains p => (BO_bool (BufferPool_contains b p), b)
  | BP_size => (BO_nat (BufferPool_size b), b)
  end.

Definition lru_step (cap : nat) (op : bp_op) (c : lru_cache) : bp_obs * lru_cache :=
  match op with
  | BP_put page => (BO_unit, lru_put cap page c)
  | BP_get p => let '(r, c) := lru_get p c in (BO_page r, c)
  | BP_contains p => (BO_bool (bool_decide (p ∈ c.*1)), c)
  | BP_size => (BO_nat (length c), c)
  end.

Lemma bp_step_sim cap op b c :
  bp_rep b c → bp_capacity b = cap →
  (bp_step op b).1 = (lru_step cap op c).1 ∧
  bp_rep (bp_step op b).2 (lru_step cap op c).2 ∧ bp_capacity (bp_step op b).2 = cap.
Proof.
  intros Hrep <-. destruct op as [page|p|p|]; simpl.
  - split; [done|]. split; [by apply bp_rep_put|apply BufferPool_put_capacity].
  - pose proof (bp_rep_get b c p Hrep) as [H1 H2].
    assert (bp_capacity (BufferPool_get p b).2 = bp_capacity b) as Hc
      by (unfold BufferPool_get; by case_match).
    destruct (BufferPool_get p b), (lru_get p c); simpl in *. by subst.
  - split; [|done]. f_equal. unfold BufferPool_contains. rewrite (bpr_pages _ _ Hrep).
    apply bool_decide_ext.
    destruct (decide (p ∈ c.*1)) as [Hin|Hn]; split; try done.
    + intros _. destruct (list_to_map c !! p) eqn:E; [done|].
      by apply not_elem_of_list_to_map_2 in E.
    + intros [x Hx]. apply not_elem_of_list_to_map_1 in Hn. congruence.
  - split; [|done]. by rewrite (bp_rep_size b c Hrep).
Qed.

(** C39: the buffer pool is an LRU cache of its capacity.  For a pool freshly
    built with any positive capacity and any sequence of [put], [get],
    [contains] and [size] calls, every call returns what it returns on the
    abstract recency list, which holds at most the capacity's number of pages,
    evicts from its least recently used end and moves a page to the front when
    it is written or read. *)
Theorem buffer_pool_refines_lru cap b ops :
  BufferPool_new cap = Ok b →
  (run_trace bp_step ops b).1 = (run_trace (lru_step cap) ops []).1 ∧
  BufferPool_size (run_trace bp_step ops b).2 ≤ cap.
Proof.
  intros Hnew. pose proof (bp_rep_new cap b Hnew) as Hrep.
  assert (bp_capacity b = cap) as Hcap.
  { unfold BufferPool_new, throw_if in Hnew. case_bool; [done|]. by injection Hnew as <-. }
  clear Hnew. revert Hrep Hcap. generalize (@nil (PageId * Page)). revert b.
  induction ops as [|op ops IH]; intros b c Hrep Hcap; simpl.
  - split; [done|]. rewrite (bp_rep_size b c Hrep), <- Hcap. by apply bpr_bound.
  - destruct (bp_step_sim cap op b c Hrep Hcap) as (H1 & H2 & H3).
    destruct (bp_step op b) as [o b'], (lru_step cap op c) as [o' c']; simpl in *. subst o'.
    destruct (IH b' c' H2 H3) as [H4 H5].
    destruct (run_trace bp_step ops b'), (run_trace (lru_step cap) ops c'); simpl in *.
    by subst.
Qed.

Lemma buffer_pool_refines_lru_witness :
  ∃ b, BufferPool_new 2 = Ok b ∧
  let ops := [BP_put (mkPage 1 [] false); BP_put (mkPage 2 [] false); BP_get 1;
              BP_put (mkPage 3 [] true); BP_contains 1; BP_contains 2; BP_size] in
  (run_trace bp_step ops b).1 = (run_trace (lru_step 2) ops []).1 ∧
  BufferPool_size (run_trace bp_step ops b).2 ≤ 2.
Proof.
  eexists. split; [reflexivity|]. apply (buffer_pool_refines_lru 2). reflexivity.
Defined.
