(* ===== verification/PageCodec.v ===== *)
(** * The heap page payload format

    [src/storage/page_row_store_io.cpp], lines 13-101: a page is the 64-bit count
    of its row slots followed by the rows; a row is its 64-bit width followed by
    its values; a value is a type tag byte (255 for NULL) and its payload.  An
    empty row is a tombstone.  Values that are neither null nor typed scalars
    cannot be written: [Value::type] throws. *)

From S2P Require Import Prelude Value BinaryIO.
Local Open Scope Z_scope.

Definition kTruncated : string := "truncated page payload while reading fixed-width field".

(** [appendValue]. *)
Definition page_appendValue (v : Value) : result bytes :=
  if isNull v then Ok (writePod_u8 255) else
  t ← Value_type v;
  Ok (writePod_u8 (ColumnType_code t) ++
      match v with
      | VInt i => writePod_i64 i
      | VDouble b => writePod_u64 b
      | VString s => appendString s
      | _ => []
      end).

(** [readValue]. *)
Definition page_readValue : reader Value := λ bs,
  '(typeTag, bs) ← readPod_u8 kTruncated bs;
  if typeTag =? 255 then Ok (VNull, bs)
  else if typeTag =? 0 then '(i, bs) ← readPod_i64 kTruncated bs; Ok (VInt i, bs)
  else if typeTag =? 1 then '(b, bs) ← readPod_u64 kTruncated bs; Ok (VDouble b, bs)
  else if typeTag =? 2 then
    '(s, bs) ← readString kTruncated "truncated page payload while reading string" bs;
    Ok (VString s, bs)
  else Throw (runtime_error "invalid value type tag in page payload").

(** The row loop body of [serializePage] and of [decodePage]. *)
Definition page_appendRow (row : Row) : result bytes :=
  vs ← mapM page_appendValue row;
  Ok (writePod_u64 (Z.of_nat (length row)) ++ concat vs).

Definition page_readRow : reader Row := readCounted kTruncated page_readValue.

(** [PageRowStore::serializePage] (the page's bytes). *)
Definition serializePage (rows : list Row) : result bytes :=
  rs ← mapM page_appendRow rows;
  Ok (writePod_u64 (Z.of_nat (length rows)) ++ concat rs).

(** [PageRowStore::decodePage]; bytes after the last row are not looked at. *)
Definition decodePage (bs : bytes) : result (list Row) :=
  '(rows, _) ← readCounted kTruncated page_readRow bs; Ok rows.

(** ** Correctness *)

(** The total encoder on storable values. *)
Definition value_bytes (v : Value) : bytes :=
  match page_appendValue v with Ok b => b | Throw _ => [Byte.x00] end.
Definition row_bytes (row : Row) : bytes := writeCounted value_bytes row.
Definition page_bytes (rows : list Row) : bytes := writeCounted row_bytes rows.

Definition storable_row (row : Row) : Prop :=
  size_ok (length row) ∧ Forall storable row.
Definition storable_rows (rows : list Row) : Prop :=
  size_ok (length rows) ∧ Forall storable_row rows.

Lemma page_appendValue_storable v : storable v → page_appendValue v = Ok (value_bytes v).
Proof. destruct v; done. Qed.

Lemma mapM_Ok {A B} (f : A → result B) (g : A → B) (l : list A) :
  Forall (λ a, f a = Ok (g a)) l → mapM f l = Ok (map g l).
Proof. induction 1 as [|a l Ha _ IH]; simpl; [done|]. by rewrite Ha; simpl; rewrite IH. Qed.

Lemma page_appendRow_storable row : storable_row row → page_appendRow row = Ok (row_bytes row).
Proof.
  intros [_ Hr]. unfold page_appendRow. rewrite (mapM_Ok _ value_bytes); [done|].
  eapply Forall_impl; [done|]. apply page_appendValue_storable.
Qed.

Lemma serializePage_storable rows : storable_rows rows → serializePage rows = Ok (page_bytes rows).
Proof.
  intros [_ Hr]. unfold serializePage. rewrite (mapM_Ok _ row_bytes); [done|].
  eapply Forall_impl; [done|]. apply page_appendRow_storable.
Qed.

Lemma value_bytes_pos v : (0 < length (value_bytes v))%nat.
Proof. destruct v; unfold value_bytes; cbn; lia. Qed.

Lemma row_bytes_pos row : (0 < length (row_bytes row))%nat.
Proof. unfold row_bytes, writeCounted. rewrite length_app, writePod_u64_length. lia. Qed.

#[export] Instance codec_page_value : Codec storable value_bytes page_readValue.
Proof.
  split.
  - intros v rest Hv. destruct v as [|i|b|s|i|ps]; try done; unfold value_bytes, page_appendValue;
      cbn [isNull Value_type mbind result_bind ColumnType_code];
      unfold page_readValue; rewrite <- ?app_assoc, u8_bind_roundtrip by done;
      cbn [Z.eqb Pos.eqb]; simpl in Hv.
    + apply andb_True in Hv as [H1%Is_true_true%Z.leb_le H2%Is_true_true%Z.ltb_lt].
      by rewrite (codec_roundtrip (Codec:=codec_i64 kTruncated)).
    + apply andb_True in Hv as [H1%Is_true_true%Z.leb_le H2%Is_true_true%Z.ltb_lt].
      by rewrite u64_bind_roundtrip.
    + apply Is_true_true, Z.ltb_lt in Hv.
      by rewrite (codec_roundtrip (Codec:=codec_string _ _)).
  - intros v p Hv Hp Hne. unfold page_readValue.
    destruct v as [|i|b|s|i|ps]; try done; unfold value_bytes, page_appendValue in Hp, Hne;
      cbn [isNull Value_type mbind result_bind ColumnType_code] in Hp, Hne; simpl in Hv.
    + rewrite <- (app_nil_r (writePod_u8 255)) in Hp, Hne.
      eapply u8_bind_truncated; [|exact Hp|exact Hne|]; [done|]. intros q Hq%prefix_nil_inv Hqn. done.
    + apply andb_True in Hv as [H1%Is_true_true%Z.leb_le H2%Is_true_true%Z.ltb_lt].
      eapply u8_bind_truncated; [|exact Hp|exact Hne|]; [done|]. intros q Hq Hqn; cbn [Z.eqb Pos.eqb].
      destruct (codec_truncated (Codec:=codec_i64 kTruncated) i q) as [e ->]; [done..|]. by exists e.
    + apply andb_True in Hv as [H1%Is_true_true%Z.leb_le H2%Is_true_true%Z.ltb_lt].
      eapply u8_bind_truncated; [|exact Hp|exact Hne|]; [done|]. intros q Hq Hqn; cbn [Z.eqb Pos.eqb].
      destruct (codec_truncated (Codec:=codec_u64 kTruncated) b q) as [e ->]; [done..|]. by exists e.
    + apply Is_true_true, Z.ltb_lt in Hv.
      eapply u8_bind_truncated; [|exact Hp|exact Hne|]; [done|]. intros q Hq Hqn; cbn [Z.eqb Pos.eqb].
      destruct (codec_truncated (Codec:=codec_string kTruncated
        "truncated page payload while reading string") s q) as [e ->]; [done..|]. by exists e.
Qed.

#[export] Instance codec_page_row : Codec storable_row row_bytes page_readRow.
Proof. exact (codec_counted _ _ _ _ value_bytes_pos). Qed.

#[export] Instance codec_page : Codec storable_rows page_bytes (readCounted kTruncated page_readRow).
Proof. exact (codec_counted _ _ _ _ row_bytes_pos). Qed.

Lemma decodePage_page_bytes rows : storable_rows rows → decodePage (page_bytes rows) = Ok rows.
Proof.
  intros Hr. unfold decodePage. rewrite <- (app_nil_r (page_bytes rows)).
  by rewrite (codec_roundtrip (Codec:=codec_page)).
Qed.

(** A page image reads back exactly: for rows of storable values (and sizes
    that fit their 64-bit count fields) serialization succeeds, decoding the
    payload yields the same rows, and decoding any proper prefix of the payload
    throws instead of yielding rows. *)
Theorem page_payload_roundtrip (rows : list Row) :
  storable_rows rows →
  ∃ payload, serializePage rows = Ok payload ∧
    decodePage payload = Ok rows ∧
    ∀ p, p `prefix_of` payload → p ≠ payload → ∃ e, decodePage p = Throw e.
Proof.
  intros Hr. exists (page_bytes rows). split_and!.
  - by apply serializePage_storable.
  - by apply decodePage_page_bytes.
  - intros p Hp Hne. unfold decodePage.
    destruct (codec_truncated (Codec:=codec_page) rows p Hr Hp Hne) as [e ->]. by exists e.
Qed.

Definition sample_rows : list Row :=
  [[VInt (-5); VString "ab"]; []; [VNull; VDouble 0x3FF8000000000000]].

Lemma page_payload_roundtrip_witness :
  storable_rows sample_rows ∧
  ∃ payload, serializePage sample_rows = Ok payload ∧ decodePage payload = Ok sample_rows ∧
    length payload = 62%nat.
Proof.
  assert (storable_rows sample_rows) as H by (repeat constructor).
  split; [exact H|]. destruct (page_payload_roundtrip sample_rows H) as (p & H1 & H2 & _).
  exists p. split; [exact H1|]. split; [exact H2|].
  vm_compute in H1. injection H1 as <-. reflexivity.
Defined.
