(* ===== verification/VectorRowStore.v ===== *)
(** * Row stores: the interface and the vector store

    [include/VertexDB/storage/row_store.hpp], [src/storage/row_store_shared.cpp]
    and [src/storage/vector_row_store.cpp].

    [RowStore] is the C++ abstract class: one field per virtual method.  A
    method that can throw returns a [result]; a [const] method whose
    implementations have mutable caches returns the store too.
    [RowStoreLaws] and [RowReplaceLaws] are what a client may rely on: a store
    simulates the plain vector of optional rows ([VectorRowStore]) on every
    method. *)

From S2P Require Import Prelude Value BinaryIO PageCodec.
Local Open Scope nat_scope.

Class RowStore (S : Type) : Type := {
  rs_append : Row → S → result (RowId * S);
  rs_erase : RowId → S → result (bool * S);
  rs_update : RowId → Row → S → result (bool * S);
  rs_revive : RowId → Row → S → result (bool * S);
  rs_upsertAt : RowId → Row → S → result (bool * S);
  rs_get : RowId → S → result (option Row * S);
  rs_snapshot : S → result (list Row * S);
  rs_liveEntries : S → result (list (RowId * Row) * S);
  rs_freeList : S → list RowId;
  rs_rowsById : list RowId → S → result (list Row * S);
  rs_size : S → nat;
  rs_capacity : S → nat;
  rs_replaceRows : list Row → S → result S;
  rs_replaceSparse : nat → list RowId → list (RowId * Row) → S → result S
}.

(** ** [validateSparseRowLayout] *)

(** One pass over row identifiers with the [seen] set: each must be below the
    capacity and new. *)
Fixpoint check_row_ids (capacity : nat) (bound dup : string) (ids : list RowId) (seen : gset nat)
  : result (gset nat) :=
  match ids with
  | [] => Ok seen
  | rowId :: ids =>
      _ ← throw_if (Nat.leb capacity rowId) (invalid_argument bound);
      _ ← throw_if (bool_decide (rowId ∈ seen)) (invalid_argument dup);
      check_row_ids capacity bound dup ids ({[rowId]} ∪ seen)
  end.

Definition validateSparseRowLayout (capacity : nat) (freeList : list RowId)
    (entries : list (RowId * Row)) : result unit :=
  _ ← throw_if (Nat.ltb capacity (length entries))
        (invalid_argument "sparse row layout has more live rows than capacity");
  _ ← throw_if (negb (Nat.eqb (length freeList + length entries) capacity))
        (invalid_argument "sparse row layout free list and live rows must cover capacity");
  seen ← check_row_ids capacity "sparse live row id exceeds capacity"
           "duplicate sparse live row id" entries.*1 ∅;
  seen ← check_row_ids capacity "sparse free-list row id exceeds capacity"
           "sparse free-list overlaps a live or duplicate row id" freeList seen;
  throw_if (negb (Nat.eqb (size seen) capacity))
    (invalid_argument "sparse row layout does not cover every slot").

(** ** The vector store *)

Record VectorRowStore : Type := mkVectorRowStore {
  vrs_rows : list (option Row);
  vrs_free : list RowId;
  vrs_live : nat
}.

Definition vrs_empty : VectorRowStore := mkVectorRowStore [] [] 0.

(** [rowId < rows_.size() && rows_[rowId].has_value()], with the row. *)
Definition vrs_lookup (v : VectorRowStore) (rowId : RowId) : option Row :=
  match vrs_rows v !! rowId with
  | Some (Some row) => Some row
  | _ => None
  end.

Definition vrs_append (row : Row) (v : VectorRowStore) : RowId * VectorRowStore :=
  match unsnoc (vrs_free v) with
  | Some (free, rowId) =>
      (rowId, mkVectorRowStore (<[rowId := Some row]> (vrs_rows v)) free (S (vrs_live v)))
  | None =>
      (length (vrs_rows v),
       mkVectorRowStore (vrs_rows v ++ [Some row]) (vrs_free v) (S (vrs_live v)))
  end.

Definition vrs_erase (rowId : RowId) (v : VectorRowStore) : bool * VectorRowStore :=
  match vrs_lookup v rowId with
  | None => (false, v)
  | Some _ =>
      (true, mkVectorRowStore (<[rowId := None]> (vrs_rows v)) (vrs_free v ++ [rowId])
               (vrs_live v - 1))
  end.

Definition vrs_update (rowId : RowId) (row : Row) (v : VectorRowStore) : bool * VectorRowStore :=
  match vrs_lookup v rowId with
  | None => (false, v)
  | Some _ =>
      (true, mkVectorRowStore (<[rowId := Some row]> (vrs_rows v)) (vrs_free v) (vrs_live v))
  end.

Definition vrs_revive (rowId : RowId) (row : Row) (v : VectorRowStore) : bool * VectorRowStore :=
  match vrs_rows v !! rowId with
  | Some None =>
      if bool_decide (rowId ∈ vrs_free v) then
        (true, mkVectorRowStore (<[rowId := Some row]> (vrs_rows v))
                 (erase_first rowId (vrs_free v)) (S (vrs_live v)))
      else (false, v)
  | _ => (false, v)
  end.

Definition vrs_upsertAt (rowId : RowId) (row : Row) (v : VectorRowStore) : bool * VectorRowStore :=
  if Nat.ltb rowId (length (vrs_rows v)) then
    match vrs_lookup v rowId with
    | Some _ => vrs_update rowId row v
    | None => vrs_revive rowId row v
    end
  else if negb (Nat.eqb rowId (length (vrs_rows v))) then (false, v)
  else (true, mkVectorRowStore (vrs_rows v ++ [Some row]) (vrs_free v) (S (vrs_live v))).

Definition vrs_get (rowId : RowId) (v : VectorRowStore) : option Row := vrs_lookup v rowId.

Definition vrs_snapshot (v : VectorRowStore) : list Row := omap id (vrs_rows v).

(** The loop of [liveEntries] from index [i] on. *)
Fixpoint live_entries_from (i : RowId) (rows : list (option Row)) : list (RowId * Row) :=
  match rows with
  | [] => []
  | Some row :: rows => (i, row) :: live_entries_from (S i) rows
  | None :: rows => live_entries_from (S i) rows
  end.

Definition vrs_liveEntries (v : VectorRowStore) : list (RowId * Row) :=
  live_entries_from 0 (vrs_rows v).

Definition vrs_rowsById (rowIds : list RowId) (v : VectorRowStore) : list Row :=
  omap (vrs_lookup v) rowIds.

Definition vrs_size (v : VectorRowStore) : nat := vrs_live v.
Definition vrs_capacity (v : VectorRowStore) : nat := length (vrs_rows v).

Definition vrs_replaceRows (rows : list Row) (v : VectorRowStore) : VectorRowStore :=
  foldl (λ v row, (vrs_append row v).2) vrs_empty rows.

Definition vrs_replaceSparse (capacity : nat) (freeList : list RowId)
    (entries : list (RowId * Row)) (v : VectorRowStore) : result VectorRowStore :=
  _ ← validateSparseRowLayout capacity freeList entries;
  Ok (mkVectorRowStore
        (foldl (λ rows e, <[e.1 := Some e.2]> rows) (replicate capacity None) entries)
        freeList (length entries)).

#[export] Instance VectorRowStore_RowStore : RowStore VectorRowStore := {
  rs_append row v := Ok (vrs_append row v);
  rs_erase i v := Ok (vrs_erase i v);
  rs_update i row v := Ok (vrs_update i row v);
  rs_revive i row v := Ok (vrs_revive i row v);
  rs_upsertAt i row v := Ok (vrs_upsertAt i row v);
  rs_get i v := Ok (vrs_get i v, v);
  rs_snapshot v := Ok (vrs_snapshot v, v);
  rs_liveEntries v := Ok (vrs_liveEntries v, v);
  rs_freeList := vrs_free;
  rs_rowsById ids v := Ok (vrs_rowsById ids v, v);
  rs_size := vrs_size;
  rs_capacity := vrs_capacity;
  rs_replaceRows rows v := Ok (vrs_replaceRows rows v);
  rs_replaceSparse := vrs_replaceSparse
}.

(** ** Invariant

    The free list enumerates the tombstones without repetition, and the live
    counter counts the occupied slots. *)
Record vrs_inv (v : VectorRowStore) : Prop := {
  vi_nodup : NoDup (vrs_free v);
  vi_free i : i ∈ vrs_free v ↔ vrs_rows v !! i = Some None;
  vi_live : vrs_live v = length (vrs_snapshot v)
}.

Lemma vrs_lookup_Some v i row : vrs_lookup v i = Some row ↔ vrs_rows v !! i = Some (Some row).
Proof. unfold vrs_lookup. destruct (vrs_rows v !! i) as [[r|]|]; naive_solver. Qed.

Lemma vrs_lookup_insert v i o free live j :
  i < length (vrs_rows v) →
  vrs_lookup (mkVectorRowStore (<[i := o]> (vrs_rows v)) free live) j =
  if decide (j = i) then o else vrs_lookup v j.
Proof.
  intros Hi. unfold vrs_lookup; simpl. case_decide; subst.
  - rewrite list_lookup_insert_eq by done. by destruct o.
  - by rewrite list_lookup_insert_ne.
Qed.

Lemma vrs_lookup_snoc v row free live j :
  vrs_lookup (mkVectorRowStore (vrs_rows v ++ [Some row]) free live) j =
  if decide (j = length (vrs_rows v)) then Some row else vrs_lookup v j.
Proof.
  unfold vrs_lookup; simpl. case_decide; subst.
  - by rewrite lookup_app_r, Nat.sub_diag by done.
  - destruct (decide (j < length (vrs_rows v))).
    + by rewrite lookup_app_l.
    + rewrite lookup_ge_None_2 by (rewrite length_app; simpl; lia).
      by rewrite lookup_ge_None_2 by lia.
Qed.

(** Occupying or freeing one slot changes the number of live rows by one. *)
Lemma omap_insert_length (rows : list (option Row)) i o o' :
  rows !! i = Some o →
  length (omap id (<[i := o']> rows)) + length (option_list o) =
  length (omap id rows) + length (option_list o').
Proof.
  intros Hi. rewrite insert_take_drop by by eapply lookup_lt_Some.
  rewrite <- (take_drop_middle rows i o Hi) at 3. rewrite !omap_app, !length_app.
  destruct o, o'; simpl; lia.
Qed.

Lemma vrs_inv_empty : vrs_inv vrs_empty.
Proof. split; simpl; [constructor|set_solver|done]. Qed.

Lemma free_insert_occupy (rows : list (option Row)) free i row :
  NoDup free → (∀ j, j ∈ free ↔ rows !! j = Some None) → i ∈ free →
  ∀ j, (j ∈ free ∧ j ≠ i) ↔ <[i := Some row]> rows !! j = Some None.
Proof.
  intros Hnd Hf Hi j. apply Hf in Hi as Hlen%lookup_lt_Some. rewrite Hf.
  destruct (decide (j = i)) as [->|]; [rewrite list_lookup_insert_eq by done|
    rewrite list_lookup_insert_ne by done]; naive_solver.
Qed.

Lemma vrs_inv_snoc v row :
  vrs_inv v → vrs_inv (mkVectorRowStore (vrs_rows v ++ [Some row]) (vrs_free v) (S (vrs_live v))).
Proof.
  intros [Hnd Hf Hl]. split; simpl; [done| |].
  - intros i. rewrite Hf, lookup_app. destruct (vrs_rows v !! i) eqn:E; [done|].
    destruct (i - length (vrs_rows v)); simpl; [|by rewrite lookup_nil]; naive_solver.
  - unfold vrs_snapshot in *; simpl. rewrite omap_app, length_app, Hl. simpl. lia.
Qed.

Lemma vrs_inv_occupy v i row :
  vrs_inv v → i ∈ vrs_free v → ∀ free, NoDup free → (∀ j, j ∈ free ↔ j ∈ vrs_free v ∧ j ≠ i) →
  vrs_inv (mkVectorRowStore (<[i := Some row]> (vrs_rows v)) free (S (vrs_live v))).
Proof.
  intros [Hnd Hf Hl] Hi free Hnd' Hf'. split; simpl; [done| |].
  - intros j. rewrite Hf'. by apply free_insert_occupy.
  - apply Hf in Hi. pose proof (omap_insert_length _ _ _ (Some row) Hi) as H.
    unfold vrs_snapshot in *; simpl in *. lia.
Qed.

Lemma vrs_append_spec v row :
  vrs_inv v → let '(i, v') := vrs_append row v in
  vrs_inv v' ∧ vrs_lookup v i = None ∧
  (∀ j, vrs_lookup v' j = if decide (j = i) then Some row else vrs_lookup v j).
Proof.
  intros Hv. pose proof Hv as [Hnd Hf Hl]. unfold vrs_append.
  destruct (unsnoc (vrs_free v)) as [[free i]|] eqn:E.
  - apply unsnoc_Some in E. assert (i ∈ vrs_free v) as Hi by (rewrite E; set_solver).
    pose proof (proj1 (Hf i) Hi) as Hn. split_and!.
    + apply vrs_inv_occupy; [done..| |].
      * rewrite E in Hnd. by apply NoDup_app in Hnd as [? _].
      * rewrite E in Hnd |- *. apply NoDup_app in Hnd as (_ & Hd & _). intros j.
        rewrite elem_of_app, list_elem_of_singleton. split; [|naive_solver].
        intros Hj. split; [by left|]. intros ->. apply (Hd i Hj). set_solver.
    + unfold vrs_lookup. by rewrite Hn.
    + intros j. apply vrs_lookup_insert. by eapply lookup_lt_Some.
  - split_and!; [by apply vrs_inv_snoc| |].
    + unfold vrs_lookup. by rewrite lookup_ge_None_2.
    + intros j. apply vrs_lookup_snoc.
Qed.

Lemma vrs_erase_inv v i : vrs_inv v → vrs_inv (vrs_erase i v).2.
Proof.
  intros [Hnd Hf Hl]. unfold vrs_erase. destruct (vrs_lookup v i) as [row|] eqn:E; [|done].
  apply vrs_lookup_Some in E. split; simpl.
  - apply NoDup_app. split_and!; [done| |apply NoDup_singleton].
    intros j Hj%Hf ->%list_elem_of_singleton. congruence.
  - intros j. rewrite elem_of_app, list_elem_of_singleton, Hf.
    destruct (decide (j = i)) as [->|].
    + rewrite list_lookup_insert_eq by by eapply lookup_lt_Some. naive_solver.
    + rewrite list_lookup_insert_ne by done. naive_solver.
  - pose proof (omap_insert_length _ _ _ None E) as H. unfold vrs_snapshot in *; simpl in *. lia.
Qed.

Lemma vrs_update_inv v i row : vrs_inv v → vrs_inv (vrs_update i row v).2.
Proof.
  intros [Hnd Hf Hl]. unfold vrs_update. destruct (vrs_lookup v i) as [row'|] eqn:E; [|done].
  apply vrs_lookup_Some in E. split; simpl; [done| |].
  - intros j. rewrite Hf. destruct (decide (j = i)) as [->|].
    + rewrite list_lookup_insert_eq by by eapply lookup_lt_Some. naive_solver.
    + by rewrite list_lookup_insert_ne by done.
  - pose proof (omap_insert_length _ _ _ (Some row) E) as H. unfold vrs_snapshot in *; simpl in *. lia.
Qed.

Lemma vrs_revive_inv v i row : vrs_inv v → vrs_inv (vrs_revive i row v).2.
Proof.
  intros Hv. unfold vrs_revive. destruct (vrs_rows v !! i) as [[r|]|] eqn:E; [done| |done].
  case_bool_decide as Hi; [|done]. simpl.
  apply vrs_inv_occupy; [done..|apply NoDup_erase_first, Hv|].
  intros j. apply elem_of_erase_first, Hv.
Qed.

Lemma vrs_upsertAt_inv v i row : vrs_inv v → vrs_inv (vrs_upsertAt i row v).2.
Proof.
  intros Hv. unfold vrs_upsertAt. repeat case_bool; simpl; [|done|by apply vrs_inv_snoc].
  destruct (vrs_lookup v i); [by apply vrs_update_inv|by apply vrs_revive_inv].
Qed.

Lemma vrs_replaceRows_inv rows v : vrs_inv (vrs_replaceRows rows v).
Proof.
  unfold vrs_replaceRows. pose proof vrs_inv_empty as H. revert H. generalize vrs_empty.
  induction rows as [|row rows IH]; intros w Hw; simpl; [done|]. apply IH.
  pose proof (vrs_append_spec w row Hw). destruct (vrs_append row w); tauto.
Qed.

Lemma vrs_replaceRows_rows rows v : vrs_rows (vrs_replaceRows rows v) = Some <$> rows.
Proof.
  unfold vrs_replaceRows.
  assert (∀ w, vrs_free w = [] →
    vrs_rows (foldl (λ v row, (vrs_append row v).2) w rows) = vrs_rows w ++ (Some <$> rows)) as H.
  { induction rows as [|row rows IH]; intros w Hw; simpl; [by rewrite app_nil_r|].
    rewrite IH; unfold vrs_append; rewrite Hw; simpl; [|done]. by rewrite <- app_assoc. }
  by apply H.
Qed.

(** ** Sparse layouts *)

Lemma check_row_ids_Ok cap bound dup ids seen seen' :
  check_row_ids cap bound dup ids seen = Ok seen' ↔
  Forall (λ i, i < cap) ids ∧ NoDup ids ∧ (∀ i, i ∈ ids → i ∉ seen) ∧
  seen' = list_to_set ids ∪ seen.
Proof.
  revert seen. induction ids as [|i ids IH]; intros seen; simpl.
  - split; [intros [= <-]; split_and!; [constructor..|set_solver|set_solver]|].
    intros (_ & _ & _ & ->). f_equal. set_solver.
  - unfold throw_if. destruct (Nat.leb cap i) eqn:E1; simpl.
    { apply Nat.leb_le in E1. split; [done|]. intros [H%Forall_cons_1 _]. lia. }
    apply Nat.leb_gt in E1. case_bool_decide as E2; simpl.
    { split; [done|]. intros (_ & _ & H & _). exfalso. apply (H i); set_solver. }
    rewrite IH, Forall_cons, NoDup_cons.
    assert (list_to_set ids ∪ ({[i]} ∪ seen) = {[i]} ∪ list_to_set ids ∪ seen) as <- by set_solver.
    split.
    + intros (H1 & H2 & H3 & ->). split_and!; try done; set_solver.
    + intros ((_ & H1) & (H2 & H3) & H4 & ->). split_and!; try done. set_solver.
Qed.

Lemma NoDup_bounded_Permutation (l : list nat) n :
  NoDup l → Forall (λ i, i < n) l → length l = n → l ≡ₚ seq 0 n.
Proof.
  intros Hnd Hb Hlen. apply submseteq_length_Permutation; [|rewrite length_seq; lia].
  apply NoDup_submseteq; [done|]. intros i Hi. rewrite Forall_forall in Hb.
  apply elem_of_seq. specialize (Hb i Hi). lia.
Qed.

Lemma size_list_to_set_NoDup (l : list nat) : NoDup l → size (list_to_set l : gset nat) = length l.
Proof. apply size_list_to_set. Qed.

Lemma validateSparseRowLayout_Ok cap free entries :
  validateSparseRowLayout cap free entries = Ok () ↔ entries.*1 ++ free ≡ₚ seq 0 cap.
Proof.
  unfold validateSparseRowLayout. split.
  - intros H. inv_result H. bool_facts.
    apply check_row_ids_Ok in Hr1 as (Hb1 & Hn1 & _ & ->).
    apply check_row_ids_Ok in Hr2 as (Hb2 & Hn2 & Hd & ->).
    unfold throw_if in *. repeat case_bool; try done. bool_facts.
    apply NoDup_bounded_Permutation.
    + apply NoDup_app. split_and!; [done| |done]. intros i Hi Hi'. apply (Hd i Hi'). set_solver.
    + by apply Forall_app.
    + rewrite length_app, length_fmap. lia.
  - intros HP. assert (NoDup (entries.*1 ++ free)) as Hnd by (rewrite HP; apply NoDup_seq).
    assert (Forall (λ i, i < cap) (entries.*1 ++ free)) as Hb.
    { rewrite HP, Forall_forall. intros i Hi%elem_of_seq. lia. }
    pose proof (Permutation_length HP) as Hlen. rewrite length_app, length_fmap, length_seq in Hlen.
    assert (Nat.ltb cap (length entries) = false) as -> by (apply Nat.ltb_ge; lia).
    assert (Nat.eqb (length free + length entries) cap = true) as -> by (apply Nat.eqb_eq; lia).
    simpl. apply Forall_app in Hb as [Hb1 Hb2]. apply NoDup_app in Hnd as (Hn1 & Hd & Hn2).
    erewrite (proj2 (check_row_ids_Ok _ _ _ _ _ _)) by (split_and!; [done..|set_solver|reflexivity]).
    simpl. erewrite (proj2 (check_row_ids_Ok _ _ _ _ _ _)) by (split_and!; [done..|set_solver|reflexivity]).
    simpl. replace (list_to_set free ∪ (list_to_set entries.*1 ∪ ∅) : gset nat)
      with (list_to_set (entries.*1 ++ free) : gset nat) by set_solver.
    rewrite size_list_to_set_NoDup, length_app, length_fmap by (by apply NoDup_app).
    by replace (length entries + length free) with cap by lia; rewrite Nat.eqb_refl.
Qed.

Lemma live_entries_from_fst k rows i :
  i ∈ (live_entries_from k rows).*1 ↔ k ≤ i ∧ ∃ row, rows !! (i - k) = Some (Some row).
Proof.
  revert k. induction rows as [|[row|] rows IH]; intros k; simpl.
  - rewrite elem_of_nil. split; [done|]. intros (_ & r & Hr). by rewrite lookup_nil in Hr.
  - rewrite elem_of_cons, IH. destruct (decide (i = k)) as [->|Hne].
    + rewrite Nat.sub_diag. naive_solver.
    + destruct (decide (k ≤ i)) as [Hle|]; [|naive_solver lia].
      replace (i - k) with (S (i - S k)) by lia. simpl. naive_solver lia.
  - rewrite IH. destruct (decide (i = k)) as [->|Hne].
    + rewrite Nat.sub_diag. naive_solver lia.
    + destruct (decide (k ≤ i)) as [Hle|]; [|naive_solver lia].
      replace (i - k) with (S (i - S k)) by lia. simpl. naive_solver lia.
Qed.

Lemma NoDup_live_entries_from k rows : NoDup (live_entries_from k rows).*1.
Proof.
  revert k. induction rows as [|[row|] rows IH]; intros k; simpl; [constructor| |done].
  apply NoDup_cons; split; [|done]. rewrite live_entries_from_fst. lia.
Qed.

Lemma live_entries_from_length k rows : length (live_entries_from k rows) = length (omap id rows).
Proof. revert k. induction rows as [|[row|] rows IH]; intros k; simpl; auto. Qed.

Lemma fill_live_entries pre rows :
  foldl (λ rs e, <[e.1 := Some e.2]> rs) (pre ++ replicate (length rows) None)
    (live_entries_from (length pre) rows) = pre ++ rows.
Proof.
  revert pre. induction rows as [|[row|] rows IH]; intros pre; simpl; [done| |].
  - rewrite insert_app_r_alt, Nat.sub_diag by done. simpl.
    specialize (IH (pre ++ [Some row])). rewrite <- !app_assoc, length_app in IH. simpl in IH.
    by rewrite Nat.add_1_r in IH.
  - specialize (IH (pre ++ [None])). rewrite <- !app_assoc, length_app in IH. simpl in IH.
    by rewrite Nat.add_1_r in IH.
Qed.

Lemma vrs_inv_layout v : vrs_inv v → (vrs_liveEntries v).*1 ++ vrs_free v ≡ₚ seq 0 (vrs_capacity v).
Proof.
  intros [Hnd Hf Hl]. unfold vrs_liveEntries. apply NoDup_Permutation.
  - apply NoDup_app. split_and!; [apply NoDup_live_entries_from| |done].
    intros i Hi Hi'%Hf. apply live_entries_from_fst in Hi as (_ & r & Hr).
    rewrite Nat.sub_0_r in Hr. congruence.
  - apply NoDup_seq.
  - intros i. rewrite elem_of_app, live_entries_from_fst, Nat.sub_0_r, elem_of_seq, Hf.
    unfold vrs_capacity. split.
    + intros [(_ & r & Hr)|Hr]; apply lookup_lt_Some in Hr; lia.
    + intros [_ Hlt]. destruct (lookup_lt_is_Some_2 _ _ Hlt) as [[r|] Hr]; [left|by right].
      split; [lia|]. by exists r.
Qed.

(** A sparse layout is accepted exactly when the live identifiers and the
    free list together enumerate every slot below the capacity once; and the
    layout a store exports ([capacity], [freeList], [liveEntries]) is accepted
    by [replaceSparse] and rebuilds that very store, whatever the target held. *)
Theorem sparse_layout_roundtrip v w :
  vrs_inv v →
  vrs_replaceSparse (vrs_capacity v) (vrs_free v) (vrs_liveEntries v) w = Ok v ∧
  ∀ cap free entries,
    validateSparseRowLayout cap free entries = Ok () ↔ entries.*1 ++ free ≡ₚ seq 0 cap.
Proof.
  intros Hv. split; [|apply validateSparseRowLayout_Ok]. unfold vrs_replaceSparse.
  rewrite (proj2 (validateSparseRowLayout_Ok _ _ _) (vrs_inv_layout v Hv)). simpl.
  pose proof (fill_live_entries [] (vrs_rows v)) as Hfill. simpl in Hfill.
  unfold vrs_liveEntries, vrs_capacity. rewrite Hfill, live_entries_from_length. destruct Hv as [_ _ Hl].
  unfold vrs_snapshot in Hl. rewrite <- Hl. by destruct v.
Qed.

Lemma sparse_layout_roundtrip_witness :
  let v := mkVectorRowStore [Some [VInt 1]; None; Some [VInt 3]; None] [3; 1] 2 in
  vrs_inv v ∧ vrs_replaceSparse 4 [3; 1] [(0, [VInt 1]); (2, [VInt 3])] vrs_empty = Ok v.
Proof.
  intros v. assert (vrs_inv v) as Hv.
  { split; [apply (bool_decide_unpack _); vm_compute; exact I| |reflexivity].
    intros i. do 4 (destruct i as [|i]; [simpl; set_solver by done|]).
    rewrite lookup_ge_None_2 by (simpl; lia). set_solver by lia. }
  split; [exact Hv|]. apply (sparse_layout_roundtrip v vrs_empty Hv).
Defined.

(** ** The contract of the interface *)

(** [simulates rep r a v]: the call [r] returns [a] and leaves a store that
    represents [v]. *)
Definition simulates {S A} (rep : S → VectorRowStore → Prop) (r : result (A * S)) (a : A)
    (v : VectorRowStore) : Prop :=
  ∃ s, r = Ok (a, s) ∧ rep s v.

Class RowStoreLaws (S : Type) `{RowStore S} : Type := {
  rs_rep : S → VectorRowStore → Prop;
  rs_rep_inv s v : rs_rep s v → vrs_inv v;
  rs_append_sim s v row : rs_rep s v → storable_row row →
    simulates rs_rep (rs_append row s) (vrs_append row v).1 (vrs_append row v).2;
  rs_erase_sim s v i : rs_rep s v →
    simulates rs_rep (rs_erase i s) (vrs_erase i v).1 (vrs_erase i v).2;
  rs_update_sim s v i row : rs_rep s v → storable_row row →
    simulates rs_rep (rs_update i row s) (vrs_update i row v).1 (vrs_update i row v).2;
  rs_revive_sim s v i row : rs_rep s v → storable_row row →
    simulates rs_rep (rs_revive i row s) (vrs_revive i row v).1 (vrs_revive i row v).2;
  rs_upsertAt_sim s v i row : rs_rep s v → storable_row row →
    simulates rs_rep (rs_upsertAt i row s) (vrs_upsertAt i row v).1 (vrs_upsertAt i row v).2;
  rs_get_sim s v i : rs_rep s v → simulates rs_rep (rs_get i s) (vrs_get i v) v;
  rs_snapshot_sim s v : rs_rep s v → simulates rs_rep (rs_snapshot s) (vrs_snapshot v) v;
  rs_liveEntries_sim s v : rs_rep s v → simulates rs_rep (rs_liveEntries s) (vrs_liveEntries v) v;
  rs_freeList_sim s v : rs_rep s v → rs_freeList s = vrs_free v;
  rs_rowsById_sim s v ids : rs_rep s v → simulates rs_rep (rs_rowsById ids s) (vrs_rowsById ids v) v;
  rs_size_sim s v : rs_rep s v → rs_size s = vrs_size v;
  rs_capacity_sim s v : rs_rep s v → rs_capacity s = vrs_capacity v
}.

(** The operations that replace the whole contents. *)
Class RowReplaceLaws (S : Type) `{RowStoreLaws S} : Type := {
  rs_replaceRows_sim s v rows : rs_rep s v → Forall storable_row rows →
    ∃ s', rs_replaceRows rows s = Ok s' ∧ rs_rep s' (vrs_replaceRows rows v);
  rs_replaceSparse_sim s v cap free entries : rs_rep s v → Forall storable_row entries.*2 →
    match vrs_replaceSparse cap free entries v with
    | Ok v' => ∃ s', rs_replaceSparse cap free entries s = Ok s' ∧ rs_rep s' v'
    | Throw e => rs_replaceSparse cap free entries s = Throw e
    end
}.

Lemma fill_length (entries : list (RowId * Row)) (rows : list (option Row)) :
  length (foldl (λ rs e, <[e.1 := Some e.2]> rs) rows entries) = length rows.
Proof.
  revert rows. induction entries as [|e entries IH]; intros rows; simpl; [done|].
  by rewrite IH, length_insert.
Qed.

Lemma fill_lookup_None (entries : list (RowId * Row)) rows i :
  Forall (λ j, j < length rows) entries.*1 →
  foldl (λ rs e, <[e.1 := Some e.2]> rs) rows entries !! i = Some None ↔
  rows !! i = Some None ∧ i ∉ entries.*1.
Proof.
  revert rows. induction entries as [|[j row] entries IH]; intros rows; simpl.
  { intros _. set_solver. }
  rewrite Forall_cons. intros [Hj Hes]. rewrite IH by (by rewrite length_insert).
  rewrite elem_of_cons. destruct (decide (i = j)) as [->|].
  - rewrite list_lookup_insert_eq by done. naive_solver.
  - rewrite list_lookup_insert_ne by done. naive_solver.
Qed.

Lemma fill_count (entries : list (RowId * Row)) rows :
  NoDup entries.*1 → Forall (λ j, rows !! j = Some None) entries.*1 →
  length (omap id (foldl (λ rs e, <[e.1 := Some e.2]> rs) rows entries)) =
  length (omap id rows) + length entries.
Proof.
  revert rows. induction entries as [|[j row] entries IH]; intros rows; simpl; [lia|].
  rewrite NoDup_cons, Forall_cons. intros [Hj Hnd] [Hjn Hes]. rewrite IH; [|done|].
  - pose proof (omap_insert_length rows j None (Some row) Hjn) as H. simpl in H. lia.
  - rewrite Forall_forall in *. intros k Hk. rewrite list_lookup_insert_ne; [auto|by intros ->].
Qed.

Lemma vrs_replaceSparse_inv cap free entries v v' :
  vrs_replaceSparse cap free entries v = Ok v' → vrs_inv v'.
Proof.
  unfold vrs_replaceSparse. destruct (validateSparseRowLayout cap free entries) as [[]|] eqn:E;
    [|done]. simpl. intros [= <-]. apply validateSparseRowLayout_Ok in E.
  assert (NoDup (entries.*1 ++ free)) as (Hn1 & Hd & Hn2)%NoDup_app by (rewrite E; apply NoDup_seq).
  assert (∀ i, i ∈ entries.*1 ∨ i ∈ free ↔ i < cap) as Hmem.
  { intros i. rewrite <- elem_of_app, E, elem_of_seq. lia. }
  split; simpl; [done| |].
  - intros i. rewrite fill_lookup_None.
    + rewrite lookup_replicate, <- Hmem. naive_solver.
    + rewrite length_replicate, Forall_forall. intros j Hj. apply Hmem. by left.
  - unfold vrs_snapshot; simpl. rewrite fill_count; [|done|].
    + assert (∀ n, omap id (replicate n (@None Row)) = []) as ->; [|done].
      induction n; simpl; auto.
    + rewrite Forall_forall. intros j Hj. apply lookup_replicate. split; [done|].
      apply Hmem. by left.
Qed.

#[export] Instance VectorRowStore_laws : RowStoreLaws VectorRowStore.
Proof.
  refine {| rs_rep s v := s = v ∧ vrs_inv v |}; unfold simulates; simpl.
  - tauto.
  - intros s v row [-> Hv] _. pose proof (vrs_append_spec v row Hv).
    destruct (vrs_append row v); simpl. naive_solver.
  - intros s v i [-> Hv]. exists (vrs_erase i v).2.
    rewrite <- surjective_pairing. eauto using vrs_erase_inv.
  - intros s v i row [-> Hv] _. exists (vrs_update i row v).2.
    rewrite <- surjective_pairing. eauto using vrs_update_inv.
  - intros s v i row [-> Hv] _. exists (vrs_revive i row v).2.
    rewrite <- surjective_pairing. eauto using vrs_revive_inv.
  - intros s v i row [-> Hv] _. exists (vrs_upsertAt i row v).2.
    rewrite <- surjective_pairing. eauto using vrs_upsertAt_inv.
  - naive_solver.
  - naive_solver.
  - naive_solver.
  - naive_solver.
  - naive_solver.
  - naive_solver.
  - naive_solver.
Defined.

#[export] Instance VectorRowStore_replace : RowReplaceLaws VectorRowStore.
Proof.
  split.
  - intros s v rows [-> Hv] _. eexists. split; [done|]. split; [done|]. by apply vrs_replaceRows_inv.
  - intros s v cap free entries [-> Hv] _.
    destruct (vrs_replaceSparse cap free entries v) eqn:E.
    + eexists. split; [exact E|]. split; [done|]. by eapply vrs_replaceSparse_inv.
    + exact E.
Qed.

(** ** Traces of calls *)

Inductive rs_op : Type :=
| RS_append (row : Row) | RS_erase (i : RowId) | RS_update (i : RowId) (row : Row)
| RS_revive (i : RowId) (row : Row) | RS_upsertAt (i : RowId) (row : Row)
| RS_get (i : RowId) | RS_snapshot | RS_liveEntries | RS_freeList
| RS_rowsById (ids : list RowId) | RS_size | RS_capacity
| RS_replaceRows (rows : list Row)
| RS_replaceSparse (capacity : nat) (freeList : list RowId) (entries : list (RowId * Row)).

Inductive rs_obs : Type :=
| RO_id (i : nat) | RO_bool (b : bool) | RO_row (r : option Row) | RO_rows (rows : list Row)
| RO_entries (es : list (RowId * Row)) | RO_ids (ids : list RowId) | RO_unit | RO_throw (e : exn).

(** The observation of a call and the store after it; a call that throws is
    observed as its exception, with the store it was called on. *)
Definition observe {S A} (f : A → rs_obs) (s : S) (r : result (A * S)) : rs_obs * S :=
  match r with
  | Ok (a, s') => (f a, s')
  | Throw e => (RO_throw e, s)
  end.

Definition rs_step {S} `{RowStore S} (op : rs_op) (s : S) : rs_obs * S :=
  let unit_result r := (s' ← r; Ok (tt, s')) : result (unit * S) in
  match op with
  | RS_append row => observe RO_id s (rs_append row s)
  | RS_erase i => observe RO_bool s (rs_erase i s)
  | RS_update i row => observe RO_bool s (rs_update i row s)
  | RS_revive i row => observe RO_bool s (rs_revive i row s)
  | RS_upsertAt i row => observe RO_bool s (rs_upsertAt i row s)
  | RS_get i => observe RO_row s (rs_get i s)
  | RS_snapshot => observe RO_rows s (rs_snapshot s)
  | RS_liveEntries => observe RO_entries s (rs_liveEntries s)
  | RS_freeList => (RO_ids (rs_freeList s), s)
  | RS_rowsById ids => observe RO_rows s (rs_rowsById ids s)
  | RS_size => (RO_id (rs_size s), s)
  | RS_capacity => (RO_id (rs_capacity s), s)
  | RS_replaceRows rows => observe (λ _, RO_unit) s (unit_result (rs_replaceRows rows s))
  | RS_replaceSparse c f e => observe (λ _, RO_unit) s (unit_result (rs_replaceSparse c f e s))
  end.

(** The rows a call carries are storable. *)
Definition rs_op_ok (op : rs_op) : Prop :=
  match op with
  | RS_append row | RS_update _ row | RS_revive _ row | RS_upsertAt _ row => storable_row row
  | RS_replaceRows rows => Forall storable_row rows
  | RS_replaceSparse _ _ entries => Forall storable_row entries.*2
  | _ => True
  end.

Section row_store_client.
Context {S : Type} `{RowReplaceLaws S}.

Lemma observe_simulates {A} (f : A → rs_obs) s v0 r a v :
  simulates rs_rep r a v →
  (observe f s r).1 = (observe f v0 (Ok (a, v))).1 ∧ rs_rep (observe f s r).2 v.
Proof. by intros (s' & -> & Hrep). Qed.

Lemma rs_step_sim op s v :
  rs_rep s v → rs_op_ok op →
  (rs_step op s).1 = (rs_step op v).1 ∧ rs_rep (rs_step op s).2 (rs_step op v).2.
Proof.
  intros Hrep Hop. destruct op; simpl in Hop |- *.
  - pose proof (rs_append_sim s v row Hrep Hop) as (s' & -> & ?). by destruct (vrs_append row v).
  - pose proof (rs_erase_sim s v i Hrep) as (s' & -> & ?). by destruct (vrs_erase i v).
  - pose proof (rs_update_sim s v i row Hrep Hop) as (s' & -> & ?). by destruct (vrs_update i row v).
  - pose proof (rs_revive_sim s v i row Hrep Hop) as (s' & -> & ?). by destruct (vrs_revive i row v).
  - pose proof (rs_upsertAt_sim s v i row Hrep Hop) as (s' & -> & ?).
    by destruct (vrs_upsertAt i row v).
  - by pose proof (rs_get_sim s v i Hrep) as (s' & -> & ?).
  - by pose proof (rs_snapshot_sim s v Hrep) as (s' & -> & ?).
  - by pose proof (rs_liveEntries_sim s v Hrep) as (s' & -> & ?).
  - by rewrite (rs_freeList_sim s v Hrep).
  - by pose proof (rs_rowsById_sim s v ids Hrep) as (s' & -> & ?).
  - by rewrite (rs_size_sim s v Hrep).
  - by rewrite (rs_capacity_sim s v Hrep).
  - by pose proof (rs_replaceRows_sim s v rows Hrep Hop) as (s' & -> & ?).
  - pose proof (rs_replaceSparse_sim s v capacity freeList entries Hrep Hop) as Hs.
    destruct (vrs_replaceSparse capacity freeList entries v) as [v'|e]; [|by rewrite Hs].
    by destruct Hs as (s' & -> & ?).
Qed.

Lemma rs_run_sim ops s v :
  rs_rep s v → Forall rs_op_ok ops →
  (run_trace rs_step ops s).1 = (run_trace rs_step ops v).1 ∧
  rs_rep (run_trace rs_step ops s).2 (run_trace rs_step ops v).2.
Proof.
  intros Hrep Hops. revert s v Hrep. induction Hops as [|op ops Hop _ IH]; intros s v Hrep; simpl.
  { done. }
  destruct (rs_step_sim op s v Hrep Hop) as [Ho Hs].
  destruct (rs_step op s) as [o s'], (rs_step op v) as [o' v']; simpl in *. subst o'.
  destruct (IH s' v' Hs) as [H3 H4].
  destruct (run_trace rs_step ops s'), (run_trace rs_step ops v'); simpl in *. by subst.
Qed.
End row_store_client.
