(* ===== verification/PageRowStore.v ===== *)
(** * The page row store

    [src/storage/page_row_store.cpp], [page_row_store_buffer.cpp] and the store
    part of [page_row_store_io.cpp]: rows live in serialized pages of a fixed
    number of slots; a buffer pool caches page payloads and a second cache the
    decoded rows.  Both caches are [mutable] in the source, so reads return the
    store as well.

    [dirtyPages_] maps a page to [true] or not at all: it is a set.  Iterations
    over [std::unordered_map] are in ascending page order, one of the orders the
    source allows.  Indexing a vector out of range, undefined in C++, throws
    here; [prs_simulates_vector] shows it is never reached. *)

From S2P Require Import Prelude Value BinaryIO BufferPool PageCodec VectorRowStore.
Local Open Scope nat_scope.

Record Slot : Type := mkSlot {
  slot_pageId : PageId;
  slot_offset : nat;
  slot_live : bool
}.

Record PageRowStore : Type := mkPageRowStore {
  prs_rowsPerPage : nat;
  prs_pool : BufferPool;
  prs_slots : list Slot;
  prs_free : list RowId;
  prs_dir : gmap PageId bytes;
  prs_decoded : gmap RowId Row;
  prs_live : nat;
  prs_dirty : gset PageId
}.

Record PageStoreSnapshot : Type := mkPageStoreSnapshot {
  ps_rowsPerPage : nat;
  ps_capacity : nat;
  ps_freeList : list RowId;
  ps_pages : list (PageId * bytes)
}.

Definition PageRowStore_new (rowsPerPage bufferPageCapacity : nat) : result PageRowStore :=
  pool ← BufferPool_new bufferPageCapacity;
  _ ← throw_if (Nat.eqb rowsPerPage 0) (invalid_argument "rows per page must be positive");
  Ok (mkPageRowStore rowsPerPage pool [] [] ∅ ∅ 0 ∅).

(** [v[i]] on a vector. *)
Definition at_index {A} (l : list A) (i : nat) : result A :=
  match l !! i with
  | Some x => Ok x
  | None => Throw (out_of_range "vector index out of range")
  end.

(** ** Buffer and dirty-page handling *)

Definition loadPageRows (s : PageRowStore) (p : PageId) : result (list Row) :=
  match prs_dir s !! p with
  | None => Ok []
  | Some payload => decodePage payload
  end.

(** The loop of [invalidateDecoded] over the slots from index [i] on. *)
Fixpoint invalidate_loop (p : PageId) (i : RowId) (slots : list Slot) (decoded : gmap RowId Row)
  : gmap RowId Row :=
  match slots with
  | [] => decoded
  | slot :: slots =>
      invalidate_loop p (S i) slots
        (if Nat.eqb (slot_pageId slot) p then delete i decoded else decoded)
  end.

Definition invalidateDecoded (p : PageId) (s : PageRowStore) : PageRowStore :=
  mkPageRowStore (prs_rowsPerPage s) (prs_pool s) (prs_slots s) (prs_free s) (prs_dir s)
    (invalidate_loop p 0 (prs_slots s) (prs_decoded s)) (prs_live s) (prs_dirty s).

Definition markDirty (p : PageId) (s : PageRowStore) : PageRowStore :=
  mkPageRowStore (prs_rowsPerPage s) (prs_pool s) (prs_slots s) (prs_free s) (prs_dir s)
    (prs_decoded s) (prs_live s) ({[p]} ∪ prs_dirty s).

Definition clearDirtyPages (s : PageRowStore) : PageRowStore :=
  mkPageRowStore (prs_rowsPerPage s) (prs_pool s) (prs_slots s) (prs_free s) (prs_dir s)
    (prs_decoded s) (prs_live s) ∅.

Definition hasDirtyPages (s : PageRowStore) : bool := negb (bool_decide (prs_dirty s = ∅)).

(** A page payload goes into the directory and the buffer pool. *)
Definition installPage (p : PageId) (payload : bytes) (dirty : bool) (s : PageRowStore)
  : PageRowStore :=
  mkPageRowStore (prs_rowsPerPage s) (BufferPool_put (mkPage p payload dirty) (prs_pool s))
    (prs_slots s) (prs_free s) (<[p := payload]> (prs_dir s)) (prs_decoded s) (prs_live s)
    (prs_dirty s).

Definition storePage (p : PageId) (rows : list Row) (s : PageRowStore) : result PageRowStore :=
  payload ← serializePage rows;
  Ok (markDirty p (invalidateDecoded p (installPage p payload true s))).

(** The directory's pages among [ids], in the order of [ids]. *)
Definition dir_pages (s : PageRowStore) (ids : list PageId) : list (PageId * bytes) :=
  entries_of (prs_dir s) ids.

Definition takeDirtyPages (s : PageRowStore) : list (PageId * bytes) * PageRowStore :=
  (dir_pages s (merge_sort (≤) (elements (prs_dirty s))), clearDirtyPages s).

Definition ensureBuffered (p : PageId) (s : PageRowStore) : PageRowStore :=
  if BufferPool_contains (prs_pool s) p then s
  else
    match prs_dir s !! p with
    | None => s
    | Some payload =>
        mkPageRowStore (prs_rowsPerPage s)
          (BufferPool_put (mkPage p payload false) (prs_pool s))
          (prs_slots s) (prs_free s) (prs_dir s) (prs_decoded s) (prs_live s) (prs_dirty s)
    end.

(** ** Row operations *)

Definition with_slots (slots : list Slot) (free : list RowId) (live : nat) (s : PageRowStore)
  : PageRowStore :=
  mkPageRowStore (prs_rowsPerPage s) (prs_pool s) slots free (prs_dir s) (prs_decoded s) live
    (prs_dirty s).

(** Overwrite one slot of a page: load, check the offset, store. *)
Definition rewriteSlot (slot : Slot) (row : Row) (what : string) (s : PageRowStore)
  : result PageRowStore :=
  pageRows ← loadPageRows s (slot_pageId slot);
  _ ← throw_if (Nat.leb (length pageRows) (slot_offset slot)) (runtime_error what);
  storePage (slot_pageId slot) (<[slot_offset slot := row]> pageRows) s.

Definition set_live (live : bool) (slot : Slot) : Slot :=
  mkSlot (slot_pageId slot) (slot_offset slot) live.

(** The end-extension [append] and [upsertAt] share: a new slot at the end of
    its page. *)
Definition prs_extend (row : Row) (s : PageRowStore) : result PageRowStore :=
  let pageId := length (prs_slots s) / prs_rowsPerPage s + 1 in
  pageRows ← loadPageRows s pageId;
  let pageRows := pageRows ++ [row] in
  storePage pageId pageRows
    (with_slots (prs_slots s ++ [mkSlot pageId (length pageRows - 1) true]) (prs_free s)
       (S (prs_live s)) s).

Definition prs_append (row : Row) (s : PageRowStore) : result (RowId * PageRowStore) :=
  match unsnoc (prs_free s) with
  | Some (free, rowId) =>
      slot ← at_index (prs_slots s) rowId;
      s' ← rewriteSlot slot row "page slot offset out of range on free-list reuse"
             (with_slots (<[rowId := set_live true slot]> (prs_slots s)) free (S (prs_live s)) s);
      Ok (rowId, s')
  | None =>
      s' ← prs_extend row s;
      Ok (length (prs_slots s), s')
  end.

Definition prs_erase (rowId : RowId) (s : PageRowStore) : result (bool * PageRowStore) :=
  match prs_slots s !! rowId with
  | Some slot =>
      if slot_live slot then
        s' ← rewriteSlot slot [] "page slot offset out of range on erase"
               (with_slots (<[rowId := set_live false slot]> (prs_slots s))
                  (prs_free s ++ [rowId]) (prs_live s - 1) s);
        Ok (true, s')
      else Ok (false, s)
  | None => Ok (false, s)
  end.

Definition prs_update (rowId : RowId) (row : Row) (s : PageRowStore)
  : result (bool * PageRowStore) :=
  match prs_slots s !! rowId with
  | Some slot =>
      if slot_live slot then
        s' ← rewriteSlot slot row "page slot offset out of range on update" s;
        Ok (true, s')
      else Ok (false, s)
  | None => Ok (false, s)
  end.

Definition prs_revive (rowId : RowId) (row : Row) (s : PageRowStore)
  : result (bool * PageRowStore) :=
  match prs_slots s !! rowId with
  | Some slot =>
      if slot_live slot then Ok (false, s)
      else if bool_decide (rowId ∈ prs_free s) then
        s' ← rewriteSlot slot row "page slot offset out of range on revive"
               (with_slots (<[rowId := set_live true slot]> (prs_slots s))
                  (erase_first rowId (prs_free s)) (S (prs_live s)) s);
        Ok (true, s')
      else Ok (false, s)
  | None => Ok (false, s)
  end.

Definition prs_upsertAt (rowId : RowId) (row : Row) (s : PageRowStore)
  : result (bool * PageRowStore) :=
  match prs_slots s !! rowId with
  | Some slot => if slot_live slot then prs_update rowId row s else prs_revive rowId row s
  | None =>
      if negb (Nat.eqb rowId (length (prs_slots s))) then Ok (false, s)
      else s' ← prs_extend row s; Ok (true, s')
  end.

Definition prs_get (rowId : RowId) (s : PageRowStore) : result (option Row * PageRowStore) :=
  match prs_slots s !! rowId with
  | Some slot =>
      if slot_live slot then
        let s := ensureBuffered (slot_pageId slot) s in
        match prs_decoded s !! rowId with
        | Some row => Ok (Some row, s)
        | None =>
            let '(buffered, pool) := BufferPool_get (slot_pageId slot) (prs_pool s) in
            let s := mkPageRowStore (prs_rowsPerPage s) pool (prs_slots s) (prs_free s)
                       (prs_dir s) (prs_decoded s) (prs_live s) (prs_dirty s) in
            match buffered with
            | None => Ok (None, s)
            | Some page =>
                pageRows ← decodePage (page_bytes_of page);
                match pageRows !! slot_offset slot with
                | None => Ok (None, s)
                | Some row =>
                    Ok (Some row,
                        mkPageRowStore (prs_rowsPerPage s) (prs_pool s) (prs_slots s) (prs_free s)
                          (prs_dir s) (<[rowId := row]> (prs_decoded s)) (prs_live s) (prs_dirty s))
                end
            end
        end
      else Ok (None, s)
  | None => Ok (None, s)
  end.

(** The read loop of [snapshot], [liveEntries] and [rowsById]. *)
Fixpoint prs_getMany (ids : list RowId) (s : PageRowStore)
  : result (list (RowId * Row) * PageRowStore) :=
  match ids with
  | [] => Ok ([], s)
  | rowId :: ids =>
      '(row, s) ← prs_get rowId s;
      '(rest, s) ← prs_getMany ids s;
      Ok (match row with Some row => (rowId, row) :: rest | None => rest end, s)
  end.

Definition prs_liveEntries (s : PageRowStore) : result (list (RowId * Row) * PageRowStore) :=
  prs_getMany (seq 0 (length (prs_slots s))) s.

Definition prs_rowsById (ids : list RowId) (s : PageRowStore) : result (list Row * PageRowStore) :=
  '(es, s) ← prs_getMany ids s; Ok (es.*2, s).

Definition prs_snapshot (s : PageRowStore) : result (list Row * PageRowStore) :=
  prs_rowsById (seq 0 (length (prs_slots s))) s.

Definition prs_size (s : PageRowStore) : nat := prs_live s.
Definition prs_capacity (s : PageRowStore) : nat := length (prs_slots s).

Definition pageIdFor (s : PageRowStore) (rowId : RowId) : result PageId :=
  match prs_slots s !! rowId with
  | Some slot => Ok (slot_pageId slot)
  | None => Throw (out_of_range "row id out of range")
  end.

(** ** Snapshots and bulk replacement *)

Definition exportPages (s : PageRowStore) : PageStoreSnapshot :=
  mkPageStoreSnapshot (prs_rowsPerPage s) (length (prs_slots s)) (prs_free s)
    (dir_pages s (sorted_keys (prs_dir s))).

(** The slots of one page against the free list, from row identifier [rowId] on. *)
Fixpoint validate_slots (freeIds : gset nat) (rowId : RowId) (pageRows : list Row) : result unit :=
  match pageRows with
  | [] => Ok tt
  | row :: pageRows =>
      _ ← (if bool_decide (rowId ∈ freeIds) then
             throw_if (negb (Nat.eqb (length row) 0))
               (invalid_argument "page store snapshot free slot must hold an empty tombstone row")
           else
             throw_if (Nat.eqb (length row) 0)
               (invalid_argument "page store snapshot live slot cannot be empty"));
      validate_slots freeIds (S rowId) pageRows
  end.

Fixpoint validate_pages (rowsPerPage capacity : nat) (freeIds : gset nat) (index : nat)
    (seenPages : gset nat) (pages : list (PageId * bytes)) : result unit :=
  match pages with
  | [] => Ok tt
  | (pageId, payload) :: pages =>
      _ ← throw_if (negb (Nat.eqb pageId (index + 1)))
            (invalid_argument "page store snapshot pages must be contiguous from 1");
      _ ← throw_if (bool_decide (pageId ∈ seenPages))
            (invalid_argument "page store snapshot has duplicate page id");
      pageRows ← decodePage payload;
      let firstRowId := (pageId - 1) * rowsPerPage in
      _ ← throw_if (negb (Nat.eqb (length pageRows) (rowsPerPage `min` (capacity - firstRowId))))
            (invalid_argument "page store snapshot page slot count does not match layout");
      _ ← validate_slots freeIds firstRowId pageRows;
      validate_pages rowsPerPage capacity freeIds (S index) ({[pageId]} ∪ seenPages) pages
  end.

Definition expectedPageCount (rowsPerPage capacity : nat) : nat :=
  if Nat.eqb capacity 0 then 0 else (capacity + rowsPerPage - 1) / rowsPerPage.

Definition validatePageStoreLayout (snapshot : PageStoreSnapshot) : result unit :=
  let rpp := ps_rowsPerPage snapshot in
  let cap := ps_capacity snapshot in
  _ ← throw_if (Nat.eqb rpp 0)
        (invalid_argument "page store snapshot rowsPerPage must be positive");
  _ ← throw_if (Nat.ltb cap (length (ps_freeList snapshot)))
        (invalid_argument "page store snapshot free list exceeds capacity");
  freeIds ← check_row_ids cap "page store snapshot free-list row id exceeds capacity"
              "page store snapshot free list has duplicate row id" (ps_freeList snapshot) ∅;
  _ ← throw_if (negb (Nat.eqb (length (ps_pages snapshot)) (expectedPageCount rpp cap)))
        (invalid_argument "page store snapshot page count does not match capacity");
  validate_pages rpp cap freeIds 0 ∅ (ps_pages snapshot).

Definition slot_default : Slot := mkSlot 0 0 false.

(** Write the slots of one page's rows, starting at row [rowId]; identifiers at
    or beyond the end of the slot vector are skipped. *)
Fixpoint place_slots (freeIds : gset nat) (pageId : PageId) (rowId : RowId) (offset : nat)
    (pageRows : list Row) (slots : list Slot) : list Slot :=
  match pageRows with
  | [] => slots
  | _ :: pageRows =>
      place_slots freeIds pageId (S rowId) (S offset) pageRows
        (<[rowId := mkSlot pageId offset (bool_decide (rowId ∉ freeIds))]> slots)
  end.

(** The page loop of [replaceFromPages]. *)
Fixpoint load_pages (freeIds : gset nat) (pages : list (PageId * bytes)) (s : PageRowStore)
  : result PageRowStore :=
  match pages with
  | [] => Ok s
  | (pageId, payload) :: pages =>
      pageRows ← decodePage payload;
      let slots := place_slots freeIds pageId ((pageId - 1) * prs_rowsPerPage s) 0 pageRows
                     (prs_slots s) in
      load_pages freeIds pages
        (installPage pageId payload false (with_slots slots (prs_free s) (prs_live s) s))
  end.

Definition replaceFromPages (snapshot : PageStoreSnapshot) (s : PageRowStore)
  : result PageRowStore :=
  _ ← validatePageStoreLayout snapshot;
  let free := ps_freeList snapshot in
  let s := mkPageRowStore (ps_rowsPerPage snapshot) (prs_pool s)
             (replicate (ps_capacity snapshot) slot_default) free ∅ ∅
             (ps_capacity snapshot - length free) (prs_dirty s) in
  s ← load_pages (list_to_set free) (ps_pages snapshot) s;
  Ok (clearDirtyPages s).

(** Reset to no rows; the buffer pool and the dirty set are left as they are. *)
Definition prs_cleared (s : PageRowStore) : PageRowStore :=
  mkPageRowStore (prs_rowsPerPage s) (prs_pool s) [] [] ∅ ∅ 0 (prs_dirty s).

Fixpoint prs_appendAll (rows : list Row) (s : PageRowStore) : result PageRowStore :=
  match rows with
  | [] => Ok s
  | row :: rows => '(_, s) ← prs_append row s; prs_appendAll rows s
  end.

Definition prs_replaceRows (rows : list Row) (s : PageRowStore) : result PageRowStore :=
  prs_appendAll rows (prs_cleared s).

(** The page-building loop of [replaceSparse] over the optional rows from row
    [rowId] on: the page map and the slots so far. *)
Fixpoint build_pages (rowsPerPage : nat) (rowId : RowId) (rows : list (option Row))
    (pages : gmap PageId (list Row)) (slots : list Slot) : gmap PageId (list Row) * list Slot :=
  match rows with
  | [] => (pages, slots)
  | row :: rows =>
      let pageId := rowId / rowsPerPage + 1 in
      let pageRows := default [] (pages !! pageId) in
      build_pages rowsPerPage (S rowId) rows
        (<[pageId := pageRows ++ [default [] row]]> pages)
        (<[rowId := mkSlot pageId (length pageRows) (bool_decide (is_Some row))]> slots)
  end.

Fixpoint store_pages (pages : list (PageId * list Row)) (s : PageRowStore) : result PageRowStore :=
  match pages with
  | [] => Ok s
  | (pageId, rows) :: pages => s ← storePage pageId rows s; store_pages pages s
  end.

Definition prs_replaceSparse (capacity : nat) (freeList : list RowId)
    (entries : list (RowId * Row)) (s : PageRowStore) : result PageRowStore :=
  _ ← validateSparseRowLayout capacity freeList entries;
  (* the vectors [live] and [liveRows] of the source, as one vector of optional rows *)
  let liveRows := foldl (λ rows e, <[e.1 := Some e.2]> rows) (replicate capacity None) entries in
  let '(pages, slots) :=
    build_pages (prs_rowsPerPage s) 0 liveRows ∅ (replicate capacity slot_default) in
  store_pages (sorted_entries pages)
    (mkPageRowStore (prs_rowsPerPage s) (prs_pool s) slots freeList ∅ ∅ (length entries)
       (prs_dirty s)).

(** ** Physical redo *)

Fixpoint rebuild_loop (freeIds : gset nat) (rowsPerPage : nat) (pages : list (PageId * bytes))
    (slots : list Slot) (live : nat) : result (list Slot * nat) :=
  match pages with
  | [] => Ok (slots, live)
  | (pageId, payload) :: pages =>
      pageRows ← decodePage payload;
      let first := (pageId - 1) * rowsPerPage in
      (* rows at or beyond the capacity are skipped *)
      let placed := filter (λ i, i < length slots ∧ i ∉ freeIds) (seq first (length pageRows)) in
      rebuild_loop freeIds rowsPerPage pages
        (place_slots freeIds pageId first 0 pageRows slots) (live + length placed)
  end.

Definition rebuildSlotsFromDirectory (s : PageRowStore) : result PageRowStore :=
  '(slots, live) ← rebuild_loop (list_to_set (prs_free s)) (prs_rowsPerPage s)
     (dir_pages s (sorted_keys (prs_dir s)))
     (replicate (length (prs_slots s)) slot_default) 0;
  Ok (with_slots slots (prs_free s) live s).

(** [slots_.resize(n)] to a larger size. *)
Definition resize_slots (n : nat) (slots : list Slot) : list Slot :=
  slots ++ replicate (n - length slots) slot_default.

Definition applyPageImages (capacity : option nat) (freeList : option (list RowId))
    (pages : list (PageId * bytes)) (s : PageRowStore) : result PageRowStore :=
  slots ← match capacity with
          | Some cap =>
              _ ← throw_if (Nat.ltb cap (length (prs_slots s)))
                    (invalid_argument "page image capacity cannot shrink below current slots");
              Ok (resize_slots cap (prs_slots s))
          | None => Ok (prs_slots s)
          end;
  let s := with_slots slots (default (prs_free s) freeList) (prs_live s) s in
  let s := foldl (λ s '(pageId, payload),
                   invalidateDecoded pageId (installPage pageId payload false s)) s pages in
  s ← rebuildSlotsFromDirectory s;
  Ok (clearDirtyPages s).

(** The store of a table, with the default page size and buffer capacity. *)
Definition makePageRowStore : result PageRowStore := PageRowStore_new 256 128.

#[export] Instance PageRowStore_RowStore : RowStore PageRowStore := {
  rs_append := prs_append;
  rs_erase := prs_erase;
  rs_update := prs_update;
  rs_revive := prs_revive;
  rs_upsertAt := prs_upsertAt;
  rs_get := prs_get;
  rs_snapshot := prs_snapshot;
  rs_liveEntries := prs_liveEntries;
  rs_freeList := prs_free;
  rs_rowsById := prs_rowsById;
  rs_size := prs_size;
  rs_capacity := prs_capacity;
  rs_replaceRows := prs_replaceRows;
  rs_replaceSparse := prs_replaceSparse
}.
