(* ===== verification/PageRowStoreProof.v ===== *)
(** * The page row store refines the vector store

    The representation relation between a [PageRowStore] and the plain vector
    of optional rows, its preservation by every method, and the two durability
    paths: exporting and reloading all pages, and redoing dirty pages on a
    stale replica. *)

From S2P Require Import Prelude Value BinaryIO BufferPool PageCodec VectorRowStore PageRowStore.
Local Open Scope nat_scope.

(** ** Rows cut into pages *)

(** A tombstone is serialized as the empty row. *)
Definition flat (rows : list (option Row)) : list Row := default [] <$> rows.

(** Page [q + 1] of rows [l], [rpp] rows per page. *)
Definition chunk {A} (rpp q : nat) (l : list A) : list A := take rpp (drop (q * rpp) l).

Lemma lookup_chunk {A} rpp q (l : list A) k :
  chunk rpp q l !! k = if decide (k < rpp) then l !! (q * rpp + k) else None.
Proof.
  unfold chunk. case_decide.
  - by rewrite lookup_take_lt, lookup_drop.
  - by rewrite lookup_take_ge by lia.
Qed.

Lemma length_chunk {A} rpp q (l : list A) : length (chunk rpp q l) = rpp `min` (length l - q * rpp).
Proof. unfold chunk. by rewrite length_take, length_drop. Qed.

Lemma div_mod_unique rpp q k : k < rpp → (q * rpp + k) / rpp = q ∧ (q * rpp + k) mod rpp = k.
Proof.
  intros Hk. split.
  - rewrite Nat.div_add_l by lia. rewrite Nat.div_small; lia.
  - rewrite Nat.add_comm, Nat.Div0.mod_add. by apply Nat.mod_small.
Qed.

Lemma div_mod_eq rpp i : 0 < rpp → i = i / rpp * rpp + i mod rpp ∧ i mod rpp < rpp.
Proof.
  intros H. split; [|apply Nat.mod_upper_bound; lia].
  rewrite (Nat.div_mod i rpp) at 1 by lia. lia.
Qed.

(** Pages other than [q] only depend on the rows outside page [q]. *)
Lemma chunk_other {A} rpp q q' (l l' : list A) :
  0 < rpp → q' ≠ q → (∀ j, j / rpp ≠ q → l' !! j = l !! j) → chunk rpp q' l' = chunk rpp q' l.
Proof.
  intros Hr Hq H. apply list_eq. intros k. rewrite !lookup_chunk. case_decide; [|done].
  apply H. by rewrite (proj1 (div_mod_unique rpp q' k ltac:(done))).
Qed.

Lemma chunk_insert {A} rpp i (l : list A) x :
  0 < rpp → chunk rpp (i / rpp) (<[i := x]> l) = <[i mod rpp := x]> (chunk rpp (i / rpp) l).
Proof.
  intros Hr. unfold chunk. destruct (div_mod_eq rpp i Hr) as [Hi Hm].
  rewrite drop_insert_ge by lia.
  replace (i - i / rpp * rpp) with (i mod rpp) by lia.
  by rewrite take_insert_lt.
Qed.

Lemma chunk_snoc {A} rpp (l : list A) x :
  0 < rpp → chunk rpp (length l / rpp) (l ++ [x]) = chunk rpp (length l / rpp) l ++ [x].
Proof.
  intros Hr. unfold chunk. destruct (div_mod_eq rpp (length l) Hr) as [Hi Hm].
  rewrite drop_app_le by lia. rewrite !take_ge; [done|rewrite ?length_app, length_drop; simpl; lia..].
Qed.

(** ** The representation relation *)

Definition slot_of (rpp i : nat) (o : option Row) : Slot :=
  mkSlot (i / rpp + 1) (i mod rpp) (bool_decide (is_Some o)).

(** The page directory of rows [rows]. *)
Definition dir_of (rpp : nat) (rows : list (option Row)) (p : PageId) : option (list Row) :=
  match p with
  | 0 => None
  | S q => match chunk rpp q (flat rows) with [] => None | c => Some c end
  end.

Record prs_core (s : PageRowStore) (rows : list (option Row)) : Prop := {
  pc_rpp : 0 < prs_rowsPerPage s;
  pc_rpp_size : size_ok (prs_rowsPerPage s);
  pc_slots : prs_slots s = imap (slot_of (prs_rowsPerPage s)) rows;
  pc_dir p : prs_dir s !! p = page_bytes <$> dir_of (prs_rowsPerPage s) rows p;
  pc_storable : Forall storable_row (flat rows);
  pc_pool : ∃ c, bp_rep (prs_pool s) c;
  pc_coherent p page payload :
    bp_pages (prs_pool s) !! p = Some page → prs_dir s !! p = Some payload →
    page_bytes_of page = payload;
  pc_decoded i row : prs_decoded s !! i = Some row → rows !! i = Some (Some row)
}.

Record prs_rep (s : PageRowStore) (v : VectorRowStore) : Prop := {
  pr_core : prs_core s (vrs_rows v);
  pr_free : prs_free s = vrs_free v;
  pr_live : prs_live s = vrs_live v;
  pr_inv : vrs_inv v
}.

Lemma lookup_flat rows i : flat rows !! i = default [] <$> rows !! i.
Proof. apply list_lookup_fmap. Qed.

Lemma length_flat rows : length (flat rows) = length rows.
Proof. apply length_fmap. Qed.

Lemma pc_lookup_slot s rows i :
  prs_core s rows → prs_slots s !! i = slot_of (prs_rowsPerPage s) i <$> rows !! i.
Proof. intros H. by rewrite (pc_slots _ _ H), list_lookup_imap. Qed.

Lemma pc_length_slots s rows : prs_core s rows → length (prs_slots s) = length rows.
Proof. intros H. by rewrite (pc_slots _ _ H), length_imap. Qed.

Lemma storable_chunk rpp q rows :
  size_ok rpp → Forall storable_row (flat rows) → storable_rows (chunk rpp q (flat rows)).
Proof.
  intros Hs Hr. split.
  - rewrite length_chunk. unfold size_ok in *. lia.
  - unfold chunk. by apply Forall_take, Forall_drop.
Qed.

Lemma loadPageRows_chunk s rows q :
  prs_core s rows → loadPageRows s (q + 1) = Ok (chunk (prs_rowsPerPage s) q (flat rows)).
Proof.
  intros H. unfold loadPageRows. rewrite (pc_dir _ _ H), Nat.add_1_r. simpl.
  destruct (chunk _ q (flat rows)) eqn:E; simpl; [done|]. rewrite <- E.
  apply decodePage_page_bytes, storable_chunk; apply H.
Qed.

Lemma lookup_invalidate_loop p k slots decoded i row :
  invalidate_loop p k slots decoded !! i = Some row →
  decoded !! i = Some row ∧
  (k ≤ i → ∀ slot, slots !! (i - k) = Some slot → slot_pageId slot ≠ p).
Proof.
  revert k decoded. induction slots as [|slot slots IH]; intros k decoded; simpl.
  { intros H. split; [done|]. intros _ slot Hs. by rewrite lookup_nil in Hs. }
  intros [H1 H2]%IH. destruct (Nat.eqb_spec (slot_pageId slot) p) as [Hp|Hp].
  - rewrite lookup_delete_Some in H1. destruct H1 as [Hk H1]. split; [done|].
    intros Hle slot'. replace (i - k) with (S (i - S k)) by lia. apply H2. lia.
  - split; [done|]. intros Hle slot'. destruct (decide (i = k)) as [->|].
    + rewrite Nat.sub_diag. by intros [= <-].
    + replace (i - k) with (S (i - S k)) by lia. apply H2. lia.
Qed.

(** Writing back one page after a change of rows confined to that page. *)
Lemma storePage_core s rows q rows' slots free live :
  prs_core s rows → slots = imap (slot_of (prs_rowsPerPage s)) rows' →
  length rows ≤ length rows' → Forall storable_row (flat rows') →
  (∀ j, j / prs_rowsPerPage s ≠ q → rows' !! j = rows !! j) →
  chunk (prs_rowsPerPage s) q (flat rows') ≠ [] →
  ∃ s', storePage (q + 1) (chunk (prs_rowsPerPage s) q (flat rows')) (with_slots slots free live s)
          = Ok s' ∧
    prs_core s' rows' ∧ prs_free s' = free ∧ prs_live s' = live ∧
    prs_rowsPerPage s' = prs_rowsPerPage s ∧ prs_dirty s' = {[q + 1]} ∪ prs_dirty s.
Proof.
  intros H -> Hlen Hst Hother Hne. destruct H as [Hr Hrs Hsl Hdir Hst0 [c Hpool] Hcoh Hdec].
  set (rpp := prs_rowsPerPage s) in *. unfold storePage.
  rewrite serializePage_storable by by apply storable_chunk. cbn [mbind result_bind].
  eexists. split; [reflexivity|]. split; [|done].
  assert (∀ q', q' ≠ q → chunk rpp q' (flat rows') = chunk rpp q' (flat rows)) as Hch.
  { intros q' Hq'. eapply chunk_other; [done..|]. intros j Hj. rewrite !lookup_flat.
    by rewrite Hother. }
  split; simpl; fold rpp; try done.
  - intros [|q']; [rewrite lookup_insert_ne by lia; apply Hdir|].
    destruct (decide (q' = q)) as [->|Hq'].
    + rewrite Nat.add_1_r, lookup_insert_eq. simpl.
      by destruct (chunk rpp q (flat rows')) eqn:E.
    + rewrite lookup_insert_ne, Hdir by lia. simpl. by rewrite Hch.
  - eexists. by apply bp_rep_put.
  - intros p page payload Hp. destruct (BufferPool_put_lookup _ _ _ _ _ Hpool Hp) as [[-> ->]|[Hne' Hp']].
    + simpl. rewrite lookup_insert_eq. congruence.
    + simpl in Hne'. rewrite lookup_insert_ne by done. eauto.
  - intros i row [Hi Hs]%lookup_invalidate_loop. apply Hdec in Hi as Hrow.
    rewrite <- Hrow. apply Hother. intros Hq.
    rewrite Nat.sub_0_r in Hs.
    destruct (lookup_lt_is_Some_2 rows' i) as [o Ho]; [apply lookup_lt_Some in Hrow; lia|].
    apply (Hs ltac:(lia) (slot_of rpp i o)).
    + by rewrite list_lookup_imap, Ho.
    + simpl. lia.
Qed.

(** ** Row operations *)

Lemma imap_insert' {A B} (f : nat → A → B) i x l :
  imap f (<[i := x]> l) = <[i := f i x]> (imap f l).
Proof.
  apply list_eq. intros j. rewrite list_lookup_imap. destruct (decide (j = i)) as [->|].
  - destruct (decide (i < length l)).
    + by rewrite !list_lookup_insert_eq by (by rewrite ?length_imap).
    + by rewrite !lookup_ge_None_2 by (rewrite ?length_insert, ?length_imap; lia).
  - by rewrite !list_lookup_insert_ne, list_lookup_imap.
Qed.

Lemma flat_insert rows i o : flat (<[i := o]> rows) = <[i := default [] o]> (flat rows).
Proof. apply list_fmap_insert. Qed.

Lemma rewriteSlot_core s rows i o o' b row what free live :
  let slot := slot_of (prs_rowsPerPage s) i o in
  prs_core s rows → rows !! i = Some o → storable_row row → row = default [] o' →
  b = bool_decide (is_Some o') →
  ∃ s', rewriteSlot slot row what
          (with_slots (<[i := set_live b slot]> (prs_slots s)) free live s) = Ok s' ∧
    prs_core s' (<[i := o']> rows) ∧ prs_free s' = free ∧ prs_live s' = live ∧
    prs_rowsPerPage s' = prs_rowsPerPage s ∧
    prs_dirty s' = {[i / prs_rowsPerPage s + 1]} ∪ prs_dirty s.
Proof.
  intros slot H Hi Hrow -> ->. pose proof (pc_rpp _ _ H) as Hr. unfold rewriteSlot, set_live.
  cbn [slot slot_of slot_pageId slot_offset].
  change (mkSlot _ _ (bool_decide (is_Some o'))) with (slot_of (prs_rowsPerPage s) i o').
  set (rpp := prs_rowsPerPage s) in *. set (q := i / rpp).
  change (loadPageRows (with_slots _ _ _ s)) with (loadPageRows s).
  rewrite (loadPageRows_chunk s rows q H). cbn [mbind result_bind]. fold rpp.
  pose proof (lookup_lt_Some _ _ _ Hi) as Hlt. destruct (div_mod_eq rpp i Hr) as [Hdiv Hmod].
  assert (i mod rpp < length (chunk rpp q (flat rows))) as Hoff.
  { rewrite length_chunk, length_flat. subst q. lia. }
  assert (Nat.leb (length (chunk rpp q (flat rows))) (i mod rpp) = false) as ->
    by (apply Nat.leb_gt; done).
  cbn [throw_if mbind result_bind].
  assert (chunk rpp q (flat (<[i := o']> rows)) =
    <[i mod rpp := default [] o']> (chunk rpp q (flat rows))) as Hch
    by (rewrite flat_insert; by apply chunk_insert).
  rewrite <- Hch.
  apply (storePage_core s rows q (<[i := o']> rows)); try done.
  - by rewrite (pc_slots _ _ H), imap_insert'.
  - by rewrite length_insert.
  - rewrite flat_insert. apply Forall_insert; [apply H|done].
  - intros j Hj. apply list_lookup_insert_ne. intros ->. by apply Hj.
  - fold rpp. rewrite Hch. intros Hn. apply (f_equal length) in Hn.
    rewrite length_insert in Hn. simpl in Hn. lia.
Qed.

Lemma prs_extend_core s rows row :
  prs_core s rows → storable_row row →
  ∃ s', prs_extend row s = Ok s' ∧ prs_core s' (rows ++ [Some row]) ∧
    prs_free s' = prs_free s ∧ prs_live s' = S (prs_live s) ∧
    prs_rowsPerPage s' = prs_rowsPerPage s ∧
    prs_dirty s' = {[length rows / prs_rowsPerPage s + 1]} ∪ prs_dirty s.
Proof.
  intros H Hrow. pose proof (pc_rpp _ _ H) as Hr. unfold prs_extend.
  rewrite (pc_length_slots _ _ H). set (rpp := prs_rowsPerPage s) in *. set (q := length rows / rpp).
  rewrite (loadPageRows_chunk s rows q H). cbn [mbind result_bind]. fold rpp.
  destruct (div_mod_eq rpp (length rows) Hr) as [Hdiv Hmod].
  assert (flat (rows ++ [Some row]) = flat rows ++ [row]) as Hflat
    by (unfold flat; by rewrite fmap_app).
  assert (chunk rpp q (flat (rows ++ [Some row])) = chunk rpp q (flat rows) ++ [row]) as Hch.
  { rewrite Hflat. subst q. rewrite <- (length_flat rows). by apply chunk_snoc. }
  rewrite <- Hch. apply (storePage_core s rows q (rows ++ [Some row])); try done.
  - rewrite imap_app, (pc_slots _ _ H). simpl. f_equal. unfold slot_of. fold rpp. rewrite Hch.
    do 2 f_equal; [by rewrite Nat.add_0_r|].
    rewrite length_app, length_chunk, length_flat, Nat.add_0_r. simpl. fold q in Hdiv. lia.
  - rewrite length_app. lia.
  - rewrite Hflat. apply Forall_app. split; [apply H|by constructor].
  - intros j Hj. destruct (decide (j < length rows)); [by apply lookup_app_l|].
    rewrite !lookup_ge_None_2; [done|lia|]. rewrite length_app; simpl.
    destruct (decide (j = length rows)) as [->|]; [|lia]. exfalso. by apply Hj.
  - fold rpp. rewrite Hch. by destruct (chunk rpp q (flat rows)).
Qed.

Lemma slot_live_of s v i :
  prs_rep s v → prs_slots s !! i = slot_of (prs_rowsPerPage s) i <$> vrs_rows v !! i.
Proof. intros H. apply pc_lookup_slot, H. Qed.

Lemma storable_nil : storable_row [].
Proof. split; [done|constructor]. Qed.

Lemma with_slots_same s i slot :
  prs_slots s !! i = Some slot → slot_live slot = true →
  with_slots (<[i := set_live true slot]> (prs_slots s)) (prs_free s) (prs_live s) s = s.
Proof.
  intros Hi Hl. assert (set_live true slot = slot) as -> by (destruct slot; by simpl in *; subst).
  rewrite list_insert_id by done. by destruct s.
Qed.

Lemma prs_rep_row s v i row :
  prs_rep s v → vrs_rows v !! i = Some (Some row) →
  let rpp := prs_rowsPerPage s in
  ∃ c, prs_dir s !! (i / rpp + 1) = Some (page_bytes c) ∧ decodePage (page_bytes c) = Ok c ∧
    c !! (i mod rpp) = Some row.
Proof.
  intros H Hi rpp. pose proof (pr_core _ _ H) as Hc.
  destruct (div_mod_eq rpp i (pc_rpp _ _ Hc)) as [Hdiv Hmod].
  assert (chunk rpp (i / rpp) (flat (vrs_rows v)) !! (i mod rpp) = Some row) as Hlk.
  { rewrite lookup_chunk, decide_True by done. by rewrite <- Hdiv, lookup_flat, Hi. }
  exists (chunk rpp (i / rpp) (flat (vrs_rows v))). split_and!; [| |done].
  - rewrite (pc_dir _ _ Hc), Nat.add_1_r. simpl. fold rpp.
    by destruct (chunk rpp (i / rpp) (flat (vrs_rows v))) eqn:E.
  - apply decodePage_page_bytes, storable_chunk; apply Hc.
Qed.

Lemma live_entries_omap k rows :
  live_entries_from k rows =
  omap (λ i, match rows !! (i - k) with Some (Some r) => Some (i, r) | _ => None end)
    (seq k (length rows)).
Proof.
  revert k. induction rows as [|o rows IH]; intros k; simpl; [done|].
  rewrite Nat.sub_diag. simpl.
  assert (omap (λ i, match (o :: rows) !! (i - k) with Some (Some r) => Some (i, r) | _ => None end)
    (seq (S k) (length rows)) = live_entries_from (S k) rows) as Hrest.
  { rewrite IH. apply list_omap_ext.
    apply Forall_Forall2_diag, Forall_forall. intros i Hi%elem_of_seq.
    replace (i - k) with (S (i - S k)) by lia. done. }
  rewrite <- Hrest. by destruct o.
Qed.

Lemma omap_id_seq (rows : list (option Row)) k :
  omap (λ i, mjoin (rows !! (i - k))) (seq k (length rows)) = omap id rows.
Proof.
  revert k. induction rows as [|o rows IH]; intros k; [done|].
  assert (omap (λ i, mjoin ((o :: rows) !! (i - k))) (seq (S k) (length rows)) = omap id rows) as Hrest.
  { rewrite <- (IH (S k)). apply list_omap_ext, Forall_Forall2_diag, Forall_forall.
    intros i Hi%elem_of_seq. by replace (i - k) with (S (i - S k)) by lia. }
  cbn [length seq]. destruct o; csimpl; rewrite Nat.sub_diag; simpl; [f_equal|]; exact Hrest.
Qed.

(** ** Simulation, parametrically in the invariant

    Every method either leaves the rows alone, rewrites one slot, or extends
    the last page: an invariant [R] that refines the representation and is kept
    by those three steps is kept by every method, with the results of the
    vector store. *)

Record step_closed (R : PageRowStore → VectorRowStore → Prop) : Prop := {
  sc_rep s v : R s v → prs_rep s v;
  sc_rewrite s v i o o' b row what free live :
    R s v → vrs_rows v !! i = Some o → storable_row row → row = default [] o' →
    b = bool_decide (is_Some o') →
    vrs_inv (mkVectorRowStore (<[i := o']> (vrs_rows v)) free live) →
    ∃ s', rewriteSlot (slot_of (prs_rowsPerPage s) i o) row what
            (with_slots (<[i := set_live b (slot_of (prs_rowsPerPage s) i o)]> (prs_slots s))
               free live s) = Ok s' ∧
      R s' (mkVectorRowStore (<[i := o']> (vrs_rows v)) free live);
  sc_extend s v row :
    R s v → storable_row row →
    ∃ s', prs_extend row s = Ok s' ∧
      R s' (mkVectorRowStore (vrs_rows v ++ [Some row]) (vrs_free v) (S (vrs_live v)));
  sc_caches s v pool decoded :
    R s v → (∃ c, bp_rep pool c) →
    (∀ p page payload, bp_pages pool !! p = Some page → prs_dir s !! p = Some payload →
       page_bytes_of page = payload) →
    (∀ i row, decoded !! i = Some row → vrs_rows v !! i = Some (Some row)) →
    R (mkPageRowStore (prs_rowsPerPage s) pool (prs_slots s) (prs_free s) (prs_dir s) decoded
         (prs_live s) (prs_dirty s)) v
}.

Lemma prs_rep_step_closed : step_closed prs_rep.
Proof.
  split; [done| | |].
  - intros s v i o o' b row what free live [Hc Hf Hl Hi] Ho Hrow Hd Hb Hinv.
    destruct (rewriteSlot_core s (vrs_rows v) i o o' b row what free live Hc Ho Hrow Hd Hb)
      as (s' & -> & Hc' & Hf' & Hl' & _). exists s'. split; [done|]. by split.
  - intros s v row [Hc Hf Hl Hi] Hrow.
    destruct (prs_extend_core s (vrs_rows v) row Hc Hrow) as (s' & -> & Hc' & Hf' & Hl' & _).
    exists s'. split; [done|]. split; simpl; [done|congruence|congruence|by apply vrs_inv_snoc].
  - intros s v pool decoded [[Hr Hrs Hsl Hdir Hst Hpool Hcoh Hdec] Hf Hl Hi] Hpool' Hcoh' Hdec'.
    by split.
Qed.

Section step_closed.
Context (R : PageRowStore → VectorRowStore → Prop) (HR : step_closed R).

Lemma rewriteSlot_sim {A} s v i o o' b row what free live (a : A) v' :
  R s v → vrs_rows v !! i = Some o → storable_row row → row = default [] o' →
  b = bool_decide (is_Some o') → v' = mkVectorRowStore (<[i := o']> (vrs_rows v)) free live →
  vrs_inv v' →
  simulates R
    (s' ← rewriteSlot (slot_of (prs_rowsPerPage s) i o) row what
            (with_slots (<[i := set_live b (slot_of (prs_rowsPerPage s) i o)]> (prs_slots s))
               free live s); Ok (a, s')) a v'.
Proof.
  intros H Ho Hrow Hd Hb -> Hinv.
  destruct (sc_rewrite R HR s v i o o' b row what free live) as (s' & -> & Hs'); try done.
  by exists s'.
Qed.

Lemma prs_extend_sim {A} s v row (a : A) :
  R s v → storable_row row →
  simulates R (s' ← prs_extend row s; Ok (a, s')) a
    (mkVectorRowStore (vrs_rows v ++ [Some row]) (vrs_free v) (S (vrs_live v))).
Proof.
  intros H Hrow. destruct (sc_extend R HR s v row H Hrow) as (s' & -> & Hs'). by exists s'.
Qed.

Lemma prs_append_sim s v row :
  R s v → storable_row row →
  simulates R (prs_append row s) (vrs_append row v).1 (vrs_append row v).2.
Proof.
  intros H Hrow. pose proof (sc_rep R HR _ _ H) as Hrep. pose proof Hrep as [Hc Hf Hl Hi].
  pose proof (vrs_append_spec v row Hi) as Hspec. unfold prs_append, vrs_append in *. rewrite Hf.
  destruct (unsnoc (vrs_free v)) as [[free i]|] eqn:E; destruct Hspec as [Hinv _].
  - apply unsnoc_Some in E.
    assert (vrs_rows v !! i = Some None) as Hn by (apply Hi; rewrite E; set_solver).
    unfold at_index. rewrite (slot_live_of s v i Hrep), Hn. simpl.
    rewrite Hl. apply (rewriteSlot_sim s v i None (Some row)); done.
  - rewrite (pc_length_slots _ _ Hc). by apply prs_extend_sim.
Qed.

Lemma simulates_same {A} s v (a : A) : R s v → simulates R (Ok (a, s)) a v.
Proof. intros H. by exists s. Qed.

Lemma prs_erase_sim s v i :
  R s v → simulates R (prs_erase i s) (vrs_erase i v).1 (vrs_erase i v).2.
Proof.
  intros H. pose proof (sc_rep R HR _ _ H) as Hrep. pose proof Hrep as [Hc Hf Hl Hi]. pose proof (vrs_erase_inv v i Hi) as Hinv.
  unfold prs_erase, vrs_erase, vrs_lookup in *. rewrite (slot_live_of s v i Hrep).
  destruct (vrs_rows v !! i) as [[row|]|] eqn:E; simpl; try by apply simulates_same.
  rewrite Hf, Hl. apply (rewriteSlot_sim s v i (Some row) None); done || apply storable_nil.
Qed.

Lemma prs_update_sim s v i row :
  R s v → storable_row row →
  simulates R (prs_update i row s) (vrs_update i row v).1 (vrs_update i row v).2.
Proof.
  intros H Hrow. pose proof (sc_rep R HR _ _ H) as Hrep. pose proof Hrep as [Hc Hf Hl Hi]. pose proof (vrs_update_inv v i row Hi) as Hinv.
  pose proof (slot_live_of s v i Hrep) as Hs. unfold prs_update, vrs_update, vrs_lookup in *. rewrite Hs.
  destruct (vrs_rows v !! i) as [[row'|]|] eqn:E; simpl; try by apply simulates_same.
  pose proof (with_slots_same s i _ Hs eq_refl) as Hw. rewrite Hf, Hl in Hw.
  rewrite <- Hw at 2.
  by apply (rewriteSlot_sim s v i (Some row') (Some row)).
Qed.

Lemma prs_revive_sim s v i row :
  R s v → storable_row row →
  simulates R (prs_revive i row s) (vrs_revive i row v).1 (vrs_revive i row v).2.
Proof.
  intros H Hrow. pose proof (sc_rep R HR _ _ H) as Hrep. pose proof Hrep as [Hc Hf Hl Hi]. pose proof (vrs_revive_inv v i row Hi) as Hinv.
  unfold prs_revive, vrs_revive in *. rewrite (slot_live_of s v i Hrep), Hf.
  destruct (vrs_rows v !! i) as [[row'|]|] eqn:E; simpl; try by apply simulates_same.
  case_bool_decide; [|by apply simulates_same]. rewrite Hl.
  by apply (rewriteSlot_sim s v i None (Some row)).
Qed.

Lemma prs_upsertAt_sim s v i row :
  R s v → storable_row row →
  simulates R (prs_upsertAt i row s) (vrs_upsertAt i row v).1 (vrs_upsertAt i row v).2.
Proof.
  intros H Hrow. pose proof (sc_rep R HR _ _ H) as Hrep. pose proof Hrep as [Hc Hf Hl Hi]. unfold prs_upsertAt, vrs_upsertAt.
  rewrite (slot_live_of s v i Hrep), (pc_length_slots _ _ Hc).
  destruct (vrs_rows v !! i) as [o|] eqn:E.
  - assert (Nat.ltb i (length (vrs_rows v)) = true) as ->
      by (apply Nat.ltb_lt; by eapply lookup_lt_Some).
    unfold vrs_lookup. rewrite E. destruct o as [row'|]; simpl.
    + by apply prs_update_sim.
    + by apply prs_revive_sim.
  - assert (Nat.ltb i (length (vrs_rows v)) = false) as ->
      by (apply Nat.ltb_ge; by apply lookup_ge_None_1).
    simpl. case_bool; [by apply simulates_same|]. by apply prs_extend_sim.
Qed.

Lemma ensureBuffered_rep s v p :
  R s v → R (ensureBuffered p s) v ∧
  prs_decoded (ensureBuffered p s) = prs_decoded s ∧
  prs_dir (ensureBuffered p s) = prs_dir s ∧
  prs_rowsPerPage (ensureBuffered p s) = prs_rowsPerPage s ∧
  (is_Some (prs_dir s !! p) → is_Some (bp_pages (prs_pool (ensureBuffered p s)) !! p)).
Proof.
  intros H. pose proof (pr_core _ _ (sc_rep R HR _ _ H)) as [_ _ _ _ _ [c Hpool] Hcoh Hdec].
  unfold ensureBuffered, BufferPool_contains. case_bool_decide as Hb; [done|].
  destruct (prs_dir s !! p) as [payload|] eqn:Hd; [|by split_and!; [..|intros [??]]].
  simpl. split_and!; try done.
  - apply (sc_caches R HR); [done|eexists; by apply bp_rep_put| |by apply Hdec].
    intros p' page payload' [[-> ->]|[Hne Hp']]%(BufferPool_put_lookup _ _ _ _ _ Hpool); simpl.
    + congruence.
    + eauto.
  - intros _. rewrite (BufferPool_put_self _ c (mkPage p payload false)) by done. eauto.
Qed.

Lemma prs_get_sim s v i : R s v → simulates R (prs_get i s) (vrs_get i v) v.
Proof.
  intros H. pose proof (sc_rep R HR _ _ H) as Hrep. unfold prs_get, vrs_get, vrs_lookup. rewrite (slot_live_of s v i Hrep).
  destruct (vrs_rows v !! i) as [[row|]|] eqn:E; simpl; try by apply simulates_same.
  set (p := i / prs_rowsPerPage s + 1).
  destruct (prs_rep_row s v i row Hrep E) as (c & Hdir & Hdec & Hrow). fold p in Hdir.
  destruct (ensureBuffered_rep s v p H) as (H1 & Hde & Hdi & Hrpp & Hb).
  destruct (Hb ltac:(by rewrite Hdir)) as [page Hpage]. clear Hb.
  set (s1 := ensureBuffered p s) in *. pose proof (pr_core _ _ (sc_rep R HR _ _ H1)) as Hc1.
  destruct (prs_decoded s1 !! i) as [row'|] eqn:Ed.
  { apply (pc_decoded _ _ Hc1) in Ed. simplify_eq. by exists s1. }
  unfold BufferPool_get. rewrite Hpage. simpl.
  assert (page_bytes_of page = page_bytes c) as ->
    by (eapply (pc_coherent _ _ Hc1); [done|by rewrite Hdi]).
  rewrite Hdec. simpl. rewrite Hrow. simpl. eexists. split; [done|].
  destruct (pc_pool _ _ Hc1) as [c1 Hp1].
  apply (sc_caches R HR); [done| | |].
  - pose proof (bp_rep_get (prs_pool s1) c1 p Hp1) as [_ Hg]. unfold BufferPool_get in Hg.
    rewrite Hpage in Hg. simpl in Hg. eauto.
  - apply Hc1.
  - intros j r. rewrite lookup_insert_Some. intros [[<- <-]|[_ Hj]]; [done|].
    by apply (pc_decoded _ _ Hc1).
Qed.

Lemma prs_getMany_sim s v ids :
  R s v → simulates R (prs_getMany ids s)
    (omap (λ i, (λ r, (i, r)) <$> vrs_lookup v i) ids) v.
Proof.
  revert s. induction ids as [|i ids IH]; intros s H; simpl; [by apply simulates_same|].
  destruct (prs_get_sim s v i H) as (s1 & -> & H1). simpl.
  destruct (IH s1 H1) as (s2 & -> & H2). exists s2. split; [|done]. simpl.
  unfold vrs_get. by destruct (vrs_lookup v i).
Qed.

Lemma prs_liveEntries_sim s v :
  R s v → simulates R (prs_liveEntries s) (vrs_liveEntries v) v.
Proof.
  intros H. unfold prs_liveEntries, vrs_liveEntries. rewrite live_entries_omap.
  rewrite (pc_length_slots _ _ (pr_core _ _ (sc_rep R HR _ _ H))).
  destruct (prs_getMany_sim s v (seq 0 (length (vrs_rows v))) H) as (s' & -> & H').
  exists s'. split; [|done]. do 2 f_equal. apply list_omap_ext.
  apply Forall_Forall2_diag, Forall_forall. intros i _. unfold vrs_lookup.
  rewrite Nat.sub_0_r. by destruct (vrs_rows v !! i) as [[]|].
Qed.

Lemma prs_rowsById_sim s v ids :
  R s v → simulates R (prs_rowsById ids s) (vrs_rowsById ids v) v.
Proof.
  intros H. unfold prs_rowsById, vrs_rowsById.
  destruct (prs_getMany_sim s v ids H) as (s' & -> & H'). exists s'. split; [|done]. simpl.
  do 2 f_equal. induction ids as [|i ids IH]; simpl; [done|].
  destruct (vrs_lookup v i); csimpl; [f_equal|]; exact IH.
Qed.

Lemma prs_snapshot_sim s v :
  R s v → simulates R (prs_snapshot s) (vrs_snapshot v) v.
Proof.
  intros H. unfold prs_snapshot. rewrite (pc_length_slots _ _ (pr_core _ _ (sc_rep R HR _ _ H))).
  destruct (prs_rowsById_sim s v (seq 0 (length (vrs_rows v))) H) as (s' & -> & H').
  exists s'. split; [|done]. do 2 f_equal. unfold vrs_rowsById, vrs_snapshot.
  rewrite <- (omap_id_seq (vrs_rows v) 0). apply list_omap_ext.
  apply Forall_Forall2_diag, Forall_forall. intros i _. unfold vrs_lookup. rewrite Nat.sub_0_r.
  by destruct (vrs_rows v !! i) as [[]|].
Qed.
End step_closed.

(** ** Bulk replacement *)

(** The buffer pool agrees with the directory on the pages both hold. *)
Definition coherent (s : PageRowStore) : Prop :=
  (∃ c, bp_rep (prs_pool s) c) ∧
  ∀ p page payload, bp_pages (prs_pool s) !! p = Some page → prs_dir s !! p = Some payload →
    page_bytes_of page = payload.

Lemma coherent_install s p payload dirty : coherent s → coherent (installPage p payload dirty s).
Proof.
  intros [[c Hc] Hcoh]. split; simpl; [eexists; by apply bp_rep_put|].
  intros p' page payload' [[-> ->]|[Hne Hp']]%(BufferPool_put_lookup _ _ _ _ _ Hc); simpl.
  - rewrite lookup_insert_eq. congruence.
  - simpl in Hne. rewrite lookup_insert_ne by done. eauto.
Qed.

Lemma prs_core_coherent s rows : prs_core s rows → coherent s.
Proof. intros [_ _ _ _ _ ? ? _]. by split. Qed.

(** A store with fresh slots and directory represents [rows] when both are the
    ones of [rows]. *)
Lemma prs_core_intro s rows :
  0 < prs_rowsPerPage s → size_ok (prs_rowsPerPage s) →
  prs_slots s = imap (slot_of (prs_rowsPerPage s)) rows →
  (∀ p, prs_dir s !! p = page_bytes <$> dir_of (prs_rowsPerPage s) rows p) →
  Forall storable_row (flat rows) → coherent s → prs_decoded s = ∅ → prs_core s rows.
Proof. intros Hr Hs Hsl Hd Hst [Hp Hc] He. split; try done. intros i row. by rewrite He, lookup_empty. Qed.

Lemma dir_of_nil rpp p : dir_of rpp [] p = None.
Proof. destruct p; simpl; [done|]. unfold chunk, flat. simpl. by rewrite drop_nil, take_nil. Qed.

Lemma prs_cleared_rep s v : prs_rep s v → prs_rep (prs_cleared s) vrs_empty.
Proof.
  intros [Hc _ _ _]. split; [|done|done|apply vrs_inv_empty]. simpl.
  apply prs_core_intro; simpl; try done; [apply Hc|apply Hc| |].
  - intros p. by rewrite lookup_empty, dir_of_nil.
  - split; [apply Hc|]. intros p page payload _. simpl. by rewrite lookup_empty.
Qed.

Lemma prs_replaceRows_sim s v rows :
  prs_rep s v → Forall storable_row rows →
  ∃ s', prs_replaceRows rows s = Ok s' ∧ prs_rep s' (vrs_replaceRows rows v).
Proof.
  intros H%prs_cleared_rep Hrows. unfold prs_replaceRows, vrs_replaceRows.
  revert H. generalize (prs_cleared s) vrs_empty. clear s v.
  induction Hrows as [|row rows Hrow _ IH]; intros s v H; simpl; [by exists s|].
  destruct (prs_append_sim prs_rep prs_rep_step_closed s v row H Hrow) as (s' & -> & H'). simpl. by apply IH.
Qed.

Lemma invalidate_loop_empty p k slots : invalidate_loop p k slots ∅ = ∅.
Proof.
  revert k. induction slots as [|slot slots IH]; intros k; simpl; [done|].
  destruct (Nat.eqb _ _); [rewrite delete_empty|]; apply IH.
Qed.

Lemma store_pages_spec l s :
  Forall (λ e, storable_rows e.2) l → NoDup l.*1 → coherent s → prs_decoded s = ∅ →
  ∃ s', store_pages l s = Ok s' ∧ coherent s' ∧ prs_decoded s' = ∅ ∧
    prs_rowsPerPage s' = prs_rowsPerPage s ∧ prs_slots s' = prs_slots s ∧
    prs_free s' = prs_free s ∧ prs_live s' = prs_live s ∧
    ∀ p, prs_dir s' !! p = match (list_to_map l : gmap PageId (list Row)) !! p with
                           | Some rows => Some (page_bytes rows)
                           | None => prs_dir s !! p
                           end.
Proof.
  revert s. induction l as [|[p rows] l IH]; intros s Hst Hnd Hcoh Hdec.
  { exists s. split; [done|]. do 6 (split; [done|]). intros p. simpl. by rewrite lookup_empty. }
  apply Forall_cons in Hst as [Hrows Hst]. apply NoDup_cons in Hnd as [Hp Hnd].
  simpl. unfold storePage. rewrite serializePage_storable by done. cbn [mbind result_bind].
  set (s1 := markDirty p _).
  destruct (IH s1) as (s' & Hs' & Hc' & Hd' & H1 & H2 & H3 & H4 & Hdir); [done|done| | |].
  - apply (coherent_install s p (page_bytes rows) true) in Hcoh. exact Hcoh.
  - simpl. rewrite Hdec. apply invalidate_loop_empty.
  - exists s'. split; [done|]. do 2 (split; [done|]). do 4 (split; [done|]).
    intros p'. rewrite Hdir. destruct (decide (p' = p)) as [->|Hne].
    + rewrite lookup_insert_eq, not_elem_of_list_to_map_1 by done. simpl. by rewrite lookup_insert_eq.
    + rewrite lookup_insert_ne by done. simpl. by rewrite lookup_insert_ne.
Qed.

Lemma build_pages_spec rpp rows pre pages :
  0 < rpp → (∀ p, pages !! p = dir_of rpp pre p) →
  let '(pages', slots') := build_pages rpp (length pre) rows pages
    (imap (slot_of rpp) pre ++ replicate (length rows) slot_default) in
  (∀ p, pages' !! p = dir_of rpp (pre ++ rows) p) ∧ slots' = imap (slot_of rpp) (pre ++ rows).
Proof.
  intros Hr. revert pre pages. induction rows as [|o rows IH]; intros pre pages Hp.
  { simpl. by rewrite !app_nil_r. }
  cbn [build_pages length replicate]. set (q := length pre / rpp).
  destruct (div_mod_eq rpp (length pre) Hr) as [Hdiv Hmod].
  assert (default [] (pages !! (q + 1)) = chunk rpp q (flat pre)) as Hq.
  { rewrite Hp, Nat.add_1_r. simpl. by destruct (chunk rpp q (flat pre)). }
  rewrite Hq.
  assert (chunk rpp q (flat (pre ++ [o])) = chunk rpp q (flat pre) ++ [default [] o]) as Hch.
  { unfold flat at 1. rewrite fmap_app. subst q. rewrite <- (length_flat pre). by apply chunk_snoc. }
  rewrite <- Hch. rewrite insert_app_r_alt, length_imap, Nat.sub_diag by (by rewrite length_imap).
  assert (mkSlot (q + 1) (length (chunk rpp q (flat pre))) (bool_decide (is_Some o))
    = slot_of rpp (length pre) o) as ->.
  { unfold slot_of. fold q. f_equal. rewrite length_chunk, length_flat. fold q in Hdiv. lia. }
  specialize (IH (pre ++ [o]) (<[q + 1 := chunk rpp q (flat (pre ++ [o]))]> pages)).
  rewrite length_app, imap_app in IH. simpl in IH. rewrite Nat.add_0_r, (Nat.add_1_r (length pre)) in IH.
  rewrite <- !app_assoc in IH. apply IH.
  intros [|q']; [by rewrite lookup_insert_ne, Hp by lia|].
  destruct (decide (q' = q)) as [->|Hne].
  - rewrite Nat.add_1_r, lookup_insert_eq. simpl. rewrite Hch. by destruct (chunk rpp q (flat pre)).
  - rewrite lookup_insert_ne, Hp by lia. simpl.
    rewrite (chunk_other rpp q q' (flat pre) (flat (pre ++ [o]))); [done..|].
    intros j Hj. rewrite !lookup_flat. f_equal.
    destruct (decide (j < length pre)); [by apply lookup_app_l|].
    rewrite !lookup_ge_None_2; [done|lia|]. rewrite length_app; simpl.
    destruct (decide (j = length pre)) as [->|]; [|lia]. exfalso. by apply Hj.
Qed.

Lemma dir_of_storable rpp rows p c :
  size_ok rpp → Forall storable_row (flat rows) → dir_of rpp rows p = Some c → storable_rows c.
Proof.
  intros Hs Hst. destruct p as [|q]; simpl; [done|].
  destruct (chunk rpp q (flat rows)) eqn:E; [done|]. intros [= <-]. rewrite <- E.
  by apply storable_chunk.
Qed.

Lemma flat_fill_storable (entries : list (RowId * Row)) rows :
  Forall storable_row entries.*2 → Forall storable_row (flat rows) →
  Forall storable_row (flat (foldl (λ rs e, <[e.1 := Some e.2]> rs) rows entries)).
Proof.
  revert rows. induction entries as [|[i row] entries IH]; intros rows; simpl; [done|].
  rewrite Forall_cons. intros [Hrow Hes] Hrows. apply IH; [done|].
  rewrite flat_insert. by apply Forall_insert.
Qed.

Lemma prs_replaceSparse_sim s v cap free entries :
  prs_rep s v → Forall storable_row entries.*2 →
  match vrs_replaceSparse cap free entries v with
  | Ok v' => ∃ s', prs_replaceSparse cap free entries s = Ok s' ∧ prs_rep s' v'
  | Throw e => prs_replaceSparse cap free entries s = Throw e
  end.
Proof.
  intros H Hes. destruct (vrs_replaceSparse cap free entries v) as [v'|e] eqn:Ev.
  2: { unfold vrs_replaceSparse in Ev. unfold prs_replaceSparse.
       destruct (validateSparseRowLayout cap free entries); simpl in *; congruence. }
  pose proof (vrs_replaceSparse_inv _ _ _ _ _ Ev) as Hinv.
  unfold vrs_replaceSparse in Ev. unfold prs_replaceSparse.
  destruct (validateSparseRowLayout cap free entries); [|done]. simpl in *. injection Ev as <-.
  pose proof (pr_core _ _ H) as Hc. set (rpp := prs_rowsPerPage s).
  set (rows := foldl _ (replicate cap None) entries) in *.
  assert (length rows = cap) as Hlen by (unfold rows; by rewrite fill_length, length_replicate).
  pose proof (build_pages_spec rpp rows [] ∅ (pc_rpp _ _ Hc)) as Hb. simpl in Hb.
  rewrite Hlen in Hb. specialize (Hb ltac:(intros p; by rewrite lookup_empty, dir_of_nil)).
  destruct (build_pages rpp 0 rows ∅ (replicate cap slot_default)) as [pages slots].
  destruct Hb as [Hpages ->].
  assert (Forall storable_row (flat rows)) as Hst.
  { apply flat_fill_storable; [done|]. unfold flat. rewrite fmap_replicate.
    apply Forall_replicate, storable_nil. }
  destruct (store_pages_spec (sorted_entries pages) (mkPageRowStore rpp (prs_pool s)
    (imap (slot_of rpp) rows) free ∅ ∅ (length entries) (prs_dirty s)))
    as (s' & -> & Hcoh & Hdec & H1 & H2 & H3 & H4 & Hdir); simpl.
  - apply Forall_forall. intros [p c] [_ Hp]%elem_of_entries_of. rewrite Hpages in Hp.
    by apply dir_of_storable in Hp; [|apply Hc|].
  - rewrite sorted_entries_fst. apply NoDup_sorted_keys.
  - split; [apply Hc|]. intros p page payload _. simpl. by rewrite lookup_empty.
  - done.
  - exists s'. split; [done|]. simpl in *. split; simpl; [|done..].
    apply prs_core_intro; rewrite ?H1; try done; try apply Hc.
    intros p. rewrite Hdir, list_to_map_sorted_entries, Hpages.
    by destruct (dir_of rpp rows p).
Qed.

#[export] Instance PageRowStore_laws : RowStoreLaws PageRowStore := {
  rs_rep := prs_rep;
  rs_rep_inv := pr_inv;
  rs_append_sim := prs_append_sim prs_rep prs_rep_step_closed;
  rs_erase_sim := prs_erase_sim prs_rep prs_rep_step_closed;
  rs_update_sim := prs_update_sim prs_rep prs_rep_step_closed;
  rs_revive_sim := prs_revive_sim prs_rep prs_rep_step_closed;
  rs_upsertAt_sim := prs_upsertAt_sim prs_rep prs_rep_step_closed;
  rs_get_sim := prs_get_sim prs_rep prs_rep_step_closed;
  rs_snapshot_sim := prs_snapshot_sim prs_rep prs_rep_step_closed;
  rs_liveEntries_sim := prs_liveEntries_sim prs_rep prs_rep_step_closed;
  rs_freeList_sim := pr_free;
  rs_rowsById_sim := prs_rowsById_sim prs_rep prs_rep_step_closed;
  rs_size_sim := pr_live;
  rs_capacity_sim := λ s v H, pc_length_slots _ _ (pr_core _ _ H)
}.

#[export] Instance PageRowStore_replace : RowReplaceLaws PageRowStore := {
  rs_replaceRows_sim := prs_replaceRows_sim;
  rs_replaceSparse_sim := prs_replaceSparse_sim
}.

Lemma prs_run_sim ops s v :
  prs_rep s v → Forall rs_op_ok ops →
  (run_trace rs_step ops s).1 = (run_trace rs_step ops v).1.
Proof. intros H Hops. exact (proj1 (rs_run_sim ops s v H Hops)). Qed.

Lemma PageRowStore_new_rep rpp cap s :
  PageRowStore_new rpp cap = Ok s → size_ok rpp → prs_rep s vrs_empty.
Proof.
  unfold PageRowStore_new. destruct (BufferPool_new cap) as [pool|] eqn:E; [|done].
  unfold throw_if. simpl. case_bool; [done|]. intros [= <-] Hs. bool_facts.
  pose proof (bp_rep_new _ _ E) as Hp.
  split; [|done|done|apply vrs_inv_empty]. apply prs_core_intro; simpl; try done; try lia.
  - intros p. by rewrite lookup_empty, dir_of_nil.
  - split; [by eexists|]. intros p page payload _. simpl. by rewrite lookup_empty.
Qed.

(** C26: the page row store behaves as the plain vector of optional rows.  For a
    store freshly built with any valid page size and buffer capacity (down to
    a single buffered page) and any sequence of interface calls whose rows are
    storable, every call returns the same result, in particular without
    throwing except where the vector store throws: pages, buffer evictions and
    the decoded-row cache are not observable. *)
Theorem prs_simulates_vector rpp cap s ops :
  PageRowStore_new rpp cap = Ok s → size_ok rpp → Forall rs_op_ok ops →
  (run_trace rs_step ops s).1 = (run_trace rs_step ops vrs_empty).1.
Proof.
  intros Hnew Hs Hops. apply prs_run_sim; [|done]. by eapply PageRowStore_new_rep.
Qed.

Lemma prs_simulates_vector_witness :
  let ops := [RS_append [VInt 1]; RS_append [VInt 2]; RS_append [VInt 3]; RS_erase 1; RS_get 0;
              RS_append [VString "x"]; RS_get 1; RS_upsertAt 3 [VNull]; RS_liveEntries;
              RS_replaceSparse 2 [0] [(1, [VInt 9])]; RS_append [VInt 7]; RS_snapshot] in
  ∃ s, PageRowStore_new 2 1 = Ok s ∧ Forall rs_op_ok ops ∧
  (run_trace rs_step ops s).1 = (run_trace rs_step ops vrs_empty).1.
Proof.
  intros ops. assert (Forall rs_op_ok ops) as Hops.
  { repeat constructor. }
  eexists. split; [reflexivity|]. split; [exact Hops|].
  apply (prs_simulates_vector 2 1); [reflexivity|reflexivity|exact Hops].
Defined.

(** ** Enumerating the pages *)

Lemma expectedPageCount_spec rpp cap q :
  0 < rpp → q < expectedPageCount rpp cap ↔ q * rpp < cap.
Proof.
  intros Hr. unfold expectedPageCount. destruct (Nat.eqb_spec cap 0) as [->|Hc]; [lia|].
  pose proof (Nat.div_mod (cap + rpp - 1) rpp ltac:(lia)) as Hd.
  pose proof (Nat.mod_upper_bound (cap + rpp - 1) rpp ltac:(lia)) as Hm.
  set (n := (cap + rpp - 1) / rpp) in *. split; intros H; nia.
Qed.

(** The pages of [rows] in directory order. *)
Definition pages_list (rpp : nat) (rows : list (option Row)) (k n : nat) : list (PageId * bytes) :=
  (λ q, (q + 1, page_bytes (chunk rpp q (flat rows)))) <$> seq k n.

Lemma dir_of_Some rpp rows q :
  0 < rpp → q * rpp < length rows → dir_of rpp rows (S q) = Some (chunk rpp q (flat rows)).
Proof.
  intros Hr Hq. simpl. destruct (chunk rpp q (flat rows)) eqn:E; [|done].
  apply (f_equal length) in E. rewrite length_chunk, length_flat in E. simpl in E. lia.
Qed.

Lemma dir_of_None rpp rows q : length rows ≤ q * rpp → dir_of rpp rows (S q) = None.
Proof.
  intros Hq. simpl. destruct (chunk rpp q (flat rows)) eqn:E; [done|].
  apply (f_equal length) in E. rewrite length_chunk, length_flat in E. simpl in E. lia.
Qed.

Lemma entries_of_seq rpp rows (m : gmap PageId bytes) k n :
  0 < rpp → (∀ p, m !! p = page_bytes <$> dir_of rpp rows p) →
  (∀ q, k ≤ q < k + n → q * rpp < length rows) →
  entries_of m (seq (S k) n) = pages_list rpp rows k n.
Proof.
  intros Hr Hm. revert k. induction n as [|n IH]; intros k Hk; [done|].
  unfold entries_of, pages_list in *. cbn [seq omap list_omap fmap list_fmap].
  rewrite Hm, dir_of_Some by (done || apply Hk; lia). simpl. rewrite Nat.add_1_r. f_equal.
  apply IH. intros q Hq. apply Hk. lia.
Qed.

Lemma dir_pages_list s rpp rows :
  0 < rpp → (∀ p, prs_dir s !! p = page_bytes <$> dir_of rpp rows p) →
  dir_pages s (sorted_keys (prs_dir s)) =
  pages_list rpp rows 0 (expectedPageCount rpp (length rows)).
Proof.
  intros Hr Hdir.
  unfold dir_pages. rewrite (sorted_keys_seq _ 1 (expectedPageCount rpp (length rows))).
  - apply entries_of_seq; [done..|]. intros q Hq. apply expectedPageCount_spec; [done|lia].
  - intros [|q]; rewrite Hdir; [simpl; split; [by intros []|lia]|].
    pose proof (expectedPageCount_spec rpp (length rows) q Hr) as He.
    destruct (decide (q * rpp < length rows)).
    + rewrite dir_of_Some by done. split; [lia|by eexists].
    + rewrite dir_of_None by lia. split; [by intros []|lia].
Qed.

(** ** Rebuilding slots from pages *)

(** The free set marks exactly the tombstones. *)
Definition free_marks (F : gset nat) (rows : list (option Row)) : Prop :=
  ∀ i o, rows !! i = Some o → i ∈ F ↔ o = None.

Lemma vrs_inv_marks v : vrs_inv v → free_marks (list_to_set (vrs_free v)) (vrs_rows v).
Proof. intros [_ Hf _] i o Ho. rewrite elem_of_list_to_set, Hf, Ho. naive_solver. Qed.

(** The slot vector after the first [k] pages. *)
Definition placed (rpp : nat) (rows : list (option Row)) (k : nat) : list Slot :=
  imap (λ i o, if decide (i < k * rpp) then slot_of rpp i o else slot_default) rows.

Lemma length_place_slots F p first off rws slots :
  length (place_slots F p first off rws slots) = length slots.
Proof.
  revert first off slots. induction rws as [|r rws IH]; intros first off slots; simpl; [done|].
  by rewrite IH, length_insert.
Qed.

Lemma lookup_place_slots F p first off rws slots i :
  place_slots F p first off rws slots !! i =
  if decide (first ≤ i < first + length rws ∧ i < length slots)
  then Some (mkSlot p (off + (i - first)) (bool_decide (i ∉ F))) else slots !! i.
Proof.
  revert first off slots. induction rws as [|r rws IH]; intros first off slots; simpl.
  { rewrite decide_False by lia. done. }
  rewrite IH, length_insert. destruct (decide (i = first)) as [->|Hne].
  - rewrite decide_False by lia. destruct (decide (first < length slots)).
    + rewrite decide_True, list_lookup_insert_eq by lia. by rewrite Nat.sub_diag, Nat.add_0_r.
    + rewrite decide_False, list_insert_ge by lia. done.
  - rewrite list_lookup_insert_ne by done. destruct (decide (first ≤ i < first + S (length rws) ∧ i < length slots)).
    + rewrite decide_True by lia. do 2 f_equal. lia.
    + by rewrite decide_False by lia.
Qed.

Lemma placed_step F rpp rows k :
  0 < rpp → free_marks F rows →
  place_slots F (k + 1) (k * rpp) 0 (chunk rpp k (flat rows)) (placed rpp rows k) =
  placed rpp rows (S k).
Proof.
  intros Hr HF. apply list_eq. intros i. rewrite lookup_place_slots. unfold placed.
  rewrite !list_lookup_imap, length_imap, length_chunk, length_flat.
  destruct (rows !! i) as [o|] eqn:E; simpl.
  - apply lookup_lt_Some in E as Hlt. case_decide as Hin.
    + rewrite decide_True by lia. unfold slot_of.
      assert (i = k * rpp + (i - k * rpp)) as Hi by lia.
      destruct (div_mod_unique rpp k (i - k * rpp) ltac:(lia)) as [H1 H2]. rewrite <- Hi in H1, H2.
      rewrite H1, H2. do 2 f_equal. apply bool_decide_ext. rewrite (HF i o E).
      destruct o; naive_solver.
    + destruct (decide (i < k * rpp)); [by rewrite decide_True by lia|].
      by rewrite decide_False by lia.
  - apply lookup_ge_None_1 in E. by rewrite decide_False by lia.
Qed.

Lemma placed_all rpp rows n : length rows ≤ n * rpp → placed rpp rows n = imap (slot_of rpp) rows.
Proof.
  intros Hn. apply list_eq. intros i. unfold placed. rewrite !list_lookup_imap.
  destruct (rows !! i) eqn:E; simpl; [|done]. apply lookup_lt_Some in E. by rewrite decide_True by lia.
Qed.

Lemma placed_none rpp rows : placed rpp rows 0 = replicate (length rows) slot_default.
Proof.
  apply list_eq. intros i. unfold placed. rewrite list_lookup_imap.
  destruct (rows !! i) eqn:E; cbn [fmap option_fmap option_map].
  - rewrite decide_False by lia. symmetry. apply lookup_replicate. split; [done|].
    by eapply lookup_lt_Some.
  - symmetry. apply lookup_ge_None_2. rewrite length_replicate. by apply lookup_ge_None_1.
Qed.

(** ** Export and reload *)

(** Rows as the tables store them: a live row has at least one column. *)
Definition rows_nonempty (rows : list (option Row)) : Prop := Forall (λ o, o ≠ Some []) rows.

Lemma validate_slots_Ok F first rws :
  (∀ k r, rws !! k = Some r → first + k ∈ F ↔ r = []) → validate_slots F first rws = Ok ().
Proof.
  revert first. induction rws as [|r rws IH]; intros first H; simpl; [done|].
  pose proof (H 0 r eq_refl) as H0. rewrite Nat.add_0_r in H0.
  assert (validate_slots F (S first) rws = Ok ()) as Hrest.
  { apply IH. intros k r' Hr. rewrite <- (H (S k) r' Hr). f_equiv. lia. }
  case_bool_decide as Hin.
  - apply H0 in Hin as ->. simpl. done.
  - destruct r as [|v r]; [tauto|]. simpl. done.
Qed.

Lemma chunk_slots F rpp q rows k r :
  0 < rpp → free_marks F rows → rows_nonempty rows →
  chunk rpp q (flat rows) !! k = Some r → q * rpp + k ∈ F ↔ r = [].
Proof.
  intros Hr HF Hne Hk. rewrite lookup_chunk in Hk. case_decide; [|done].
  rewrite lookup_flat in Hk. destruct (rows !! (q * rpp + k)) as [o|] eqn:E; [|done].
  simpl in Hk. injection Hk as <-. rewrite (HF _ _ E).
  apply (Forall_lookup_1 _ _ _ _ Hne) in E. destruct o as [[|v r]|]; simpl in *; naive_solver.
Qed.

Section reload.
Context (rpp : nat) (rows : list (option Row)) (F : gset nat).
Context (Hr : 0 < rpp) (Hsize : size_ok rpp) (Hst : Forall storable_row (flat rows)).
Context (HF : free_marks F rows).

Lemma chunk_decodes q :
  decodePage (page_bytes (chunk rpp q (flat rows))) = Ok (chunk rpp q (flat rows)).
Proof. by apply decodePage_page_bytes, storable_chunk. Qed.

Lemma validate_pages_Ok k n seen :
  rows_nonempty rows → (∀ q, k ≤ q < k + n → q * rpp < length rows) → (∀ p, p ∈ seen → p ≤ k) →
  validate_pages rpp (length rows) F k seen (pages_list rpp rows k n) = Ok ().
Proof.
  intros Hne. revert k seen. induction n as [|n IH]; intros k seen Hk Hseen; [done|].
  unfold pages_list. cbn [seq fmap list_fmap validate_pages].
  rewrite Nat.eqb_refl. cbn [negb throw_if mbind result_bind].
  rewrite bool_decide_false by (intros ?%Hseen; lia). cbn [throw_if mbind result_bind].
  rewrite chunk_decodes. cbn [mbind result_bind]. replace (k + 1 - 1) with k by lia.
  rewrite length_chunk, length_flat, Nat.eqb_refl. cbn [negb throw_if mbind result_bind].
  rewrite validate_slots_Ok by (intros j r; by apply chunk_slots). cbn [mbind result_bind].
  apply IH.
  - intros q Hq. apply Hk. lia.
  - intros p. rewrite elem_of_union, elem_of_singleton. intros [->|Hp%Hseen]; lia.
Qed.

(** Loading pages [k, ..., k + n - 1] into a store that holds the first [k]. *)
Lemma load_pages_spec k n s :
  prs_rowsPerPage s = rpp → prs_slots s = placed rpp rows k → coherent s → prs_decoded s = ∅ →
  (∀ q, k ≤ q < k + n → q * rpp < length rows) →
  (∀ p, prs_dir s !! p = if decide (p ≤ k) then page_bytes <$> dir_of rpp rows p else None) →
  ∃ s', load_pages F (pages_list rpp rows k n) s = Ok s' ∧
    prs_rowsPerPage s' = rpp ∧ prs_slots s' = placed rpp rows (k + n) ∧ coherent s' ∧
    prs_decoded s' = ∅ ∧ prs_free s' = prs_free s ∧ prs_live s' = prs_live s ∧
    ∀ p, prs_dir s' !! p = if decide (p ≤ k + n) then page_bytes <$> dir_of rpp rows p else None.
Proof.
  revert k s. induction n as [|n IH]; intros k s Hrpp Hsl Hcoh Hdec Hk Hdir.
  { exists s. rewrite Nat.add_0_r. by repeat (split; [done|]). }
  unfold pages_list. cbn [seq fmap list_fmap load_pages]. rewrite chunk_decodes.
  cbn [mbind result_bind]. replace (k + 1 - 1) with k by lia. rewrite Hrpp, Hsl, placed_step by done.
  destruct (IH (S k) (installPage (k + 1) (page_bytes (chunk rpp k (flat rows))) false
    (with_slots (placed rpp rows (S k)) (prs_free s) (prs_live s) s)))
    as (s' & Hs' & H1 & H2 & H3 & H4 & H5 & H6 & H7); try done.
  - apply coherent_install. destruct Hcoh as [Hp Hc]. by split.
  - intros q Hq. apply Hk. lia.
  - intros p. simpl. destruct (decide (p = k + 1)) as [->|Hne].
    + rewrite lookup_insert_eq, decide_True, Nat.add_1_r, dir_of_Some by (done || lia || apply Hk; lia). done.
    + rewrite lookup_insert_ne, Hdir by lia. destruct (decide (p ≤ k)).
      * by rewrite decide_True by lia.
      * by rewrite decide_False by lia.
  - exists s'. rewrite <- (Nat.add_succ_comm k n). by repeat (split; [done|]).
Qed.
End reload.

Lemma expectedPageCount_covers rpp cap : 0 < rpp → cap ≤ expectedPageCount rpp cap * rpp.
Proof.
  intros Hr. pose proof (expectedPageCount_spec rpp cap (expectedPageCount rpp cap) Hr). lia.
Qed.

Lemma dir_of_beyond rpp rows p :
  0 < rpp → ¬ p ≤ expectedPageCount rpp (length rows) → dir_of rpp rows p = None.
Proof.
  intros Hr Hp. destruct p as [|q]; [done|]. apply dir_of_None.
  pose proof (expectedPageCount_spec rpp (length rows) q Hr). lia.
Qed.

Lemma length_pages_list rpp rows k n : length (pages_list rpp rows k n) = n.
Proof. unfold pages_list. by rewrite length_fmap, length_seq. Qed.

Lemma vrs_inv_counts v : vrs_inv v → vrs_live v + length (vrs_free v) = length (vrs_rows v).
Proof.
  intros Hv. pose proof (Permutation_length (vrs_inv_layout v Hv)) as H.
  rewrite length_app, length_fmap, length_seq in H. unfold vrs_liveEntries, vrs_capacity in H.
  rewrite live_entries_from_length in H. rewrite (vi_live v Hv). exact H.
Qed.

Lemma free_bounded v : vrs_inv v → Forall (λ i, i < length (vrs_rows v)) (vrs_free v).
Proof. intros Hv. apply Forall_forall. intros i Hi%Hv. by eapply lookup_lt_Some. Qed.

(** The page snapshot of a table heap reloads to the same heap.  A store
    whose live rows have at least one column exports pages that pass
    [validatePageStoreLayout], and reloading them into any other page store
    (whatever it held and buffered) yields a store that represents the same
    rows, free list and live count, with no page dirty. *)
Theorem export_reload s v t w :
  prs_rep s v → prs_rep t w → rows_nonempty (vrs_rows v) →
  ∃ s', replaceFromPages (exportPages s) t = Ok s' ∧ prs_rep s' v ∧ prs_dirty s' = ∅.
Proof.
  intros [Hc Hf Hl Hi] [Ht _ _ _] Hne. set (rpp := prs_rowsPerPage s).
  set (n := expectedPageCount rpp (length (vrs_rows v))).
  pose proof (pc_rpp _ _ Hc) as Hr. pose proof (vrs_inv_marks v Hi) as HF.
  pose proof (vrs_inv_counts v Hi) as Hcnt.
  assert (∀ q, 0 ≤ q < 0 + n → q * rpp < length (vrs_rows v)) as Hq.
  { intros q Hq. apply expectedPageCount_spec; [done|]. fold n. lia. }
  unfold replaceFromPages, exportPages. rewrite (dir_pages_list s _ _ Hr (pc_dir _ _ Hc)), (pc_length_slots _ _ Hc), Hf.
  fold rpp n. unfold validatePageStoreLayout. cbn [ps_rowsPerPage ps_capacity ps_freeList ps_pages].
  assert (Nat.eqb rpp 0 = false) as -> by (apply Nat.eqb_neq; unfold rpp; lia).
  assert (Nat.ltb (length (vrs_rows v)) (length (vrs_free v)) = false) as ->
    by (apply Nat.ltb_ge; lia).
  cbn [throw_if mbind result_bind].
  rewrite (proj2 (check_row_ids_Ok _ _ _ (vrs_free v) ∅ (list_to_set (vrs_free v) ∪ ∅)))
    by (split_and!; [by apply free_bounded|apply Hi|set_solver|done]).
  rewrite (right_id_L ∅ (∪)). cbn [mbind result_bind].
  rewrite length_pages_list. fold n. rewrite (Nat.eqb_refl n). cbn [negb throw_if mbind result_bind].
  rewrite (validate_pages_Ok rpp (vrs_rows v) (list_to_set (vrs_free v))); try done;
    [|apply Hc|apply Hc]. cbn [mbind result_bind].
  destruct (load_pages_spec rpp (vrs_rows v) (list_to_set (vrs_free v)) Hr (pc_rpp_size _ _ Hc)
    (pc_storable _ _ Hc) HF 0 n (mkPageRowStore rpp (prs_pool t)
      (replicate (length (vrs_rows v)) slot_default) (vrs_free v) ∅ ∅
      (length (vrs_rows v) - length (vrs_free v)) (prs_dirty t)))
    as (s' & -> & H1 & H2 & H3 & H4 & H5 & H6 & H7); try done.
  - simpl. by rewrite placed_none.
  - split; [apply Ht|]. intros p page payload _. simpl. by rewrite lookup_empty.
  - intros p. simpl. rewrite lookup_empty. case_decide; [|done]. by destruct p; [|lia].
  - exists (clearDirtyPages s'). split; [done|]. split; [|done]. split; simpl; [|done| |done].
    + apply prs_core_intro; simpl; rewrite ?H1; try done; try apply Hc.
      * rewrite H2. by apply placed_all, expectedPageCount_covers.
      * intros p. rewrite H7. case_decide as Hp; [done|]. simpl in Hp.
        by rewrite dir_of_beyond.
    + rewrite H6. simpl. lia.
Qed.

(** ** Physical redo

    [prs_since rpp base]: the store represents [v], and every page not marked
    dirty still holds what it held when the rows were [base]. *)
Record prs_since (rpp : nat) (base : list (option Row)) (s : PageRowStore) (v : VectorRowStore)
  : Prop := {
  psn_rep : prs_rep s v;
  psn_rpp : prs_rowsPerPage s = rpp;
  psn_len : length base ≤ length (vrs_rows v);
  psn_clean q : q + 1 ∉ prs_dirty s → chunk rpp q (flat (vrs_rows v)) = chunk rpp q (flat base)
}.

Lemma prs_since_refl s v : prs_rep s v → prs_since (prs_rowsPerPage s) (vrs_rows v) s v.
Proof. by split. Qed.

Lemma chunk_flat_other rpp q q' rows rows' :
  0 < rpp → q' ≠ q → (∀ j, j / rpp ≠ q → rows' !! j = rows !! j) →
  chunk rpp q' (flat rows') = chunk rpp q' (flat rows).
Proof.
  intros Hr Hq H. eapply chunk_other; [done..|]. intros j Hj. rewrite !lookup_flat. by rewrite H.
Qed.

Lemma prs_since_step_closed rpp base : step_closed (prs_since rpp base).
Proof.
  split; [by intros s v []| | |].
  - intros s v i o o' b row what free live [[Hc Hf Hl Hi] <- Hlen Hcl] Ho Hrow Hd Hb Hinv.
    destruct (rewriteSlot_core s (vrs_rows v) i o o' b row what free live Hc Ho Hrow Hd Hb)
      as (s' & -> & Hc' & Hf' & Hl' & Hr' & Hdirty). exists s'. split; [done|].
    split; simpl; [by split|done|by rewrite length_insert|].
    intros q. rewrite Hdirty, not_elem_of_union, not_elem_of_singleton. intros [Hne Hq].
    rewrite <- Hcl by done. apply (chunk_flat_other _ (i / prs_rowsPerPage s)); [apply Hc|lia|].
    intros j Hj. apply list_lookup_insert_ne. by intros ->.
  - intros s v row [[Hc Hf Hl Hi] <- Hlen Hcl] Hrow.
    destruct (prs_extend_core s (vrs_rows v) row Hc Hrow)
      as (s' & -> & Hc' & Hf' & Hl' & Hr' & Hdirty). exists s'. split; [done|].
    split; simpl; [split; simpl; [done|congruence|congruence|by apply vrs_inv_snoc]|done|
      rewrite length_app; lia|].
    intros q. rewrite Hdirty, not_elem_of_union, not_elem_of_singleton. intros [Hne Hq].
    rewrite <- Hcl by done.
    apply (chunk_flat_other _ (length (vrs_rows v) / prs_rowsPerPage s)); [apply Hc|lia|].
    intros j Hj. destruct (decide (j < length (vrs_rows v))); [by apply lookup_app_l|].
    rewrite !lookup_ge_None_2; [done|lia|]. rewrite length_app; simpl.
    destruct (decide (j = length (vrs_rows v))) as [->|]; [done|lia].
  - intros s v pool decoded [H <- Hlen Hcl] Hp Hcoh Hdec. split; try done.
    by apply (sc_caches _ prs_rep_step_closed).
Qed.

(** Counting the live rows page by page. *)
Lemma live_count_step (F : gset nat) rpp cap k (slots : list Slot) :
  length slots = cap → k * rpp < cap →
  length (filter (λ i, i ∉ F) (seq 0 (k * rpp))) +
  length (filter (λ i, i < length slots ∧ i ∉ F) (seq (k * rpp) (rpp `min` (cap - k * rpp)))) =
  length (filter (λ i, i ∉ F) (seq 0 ((S k * rpp) `min` cap))).
Proof.
  intros Hlen Hk. replace ((S k * rpp) `min` cap) with (k * rpp + (rpp `min` (cap - k * rpp))) by lia.
  rewrite seq_app, filter_app, length_app. f_equal. rewrite Nat.add_0_l. f_equal.
  apply filter_ext_in, Forall_forall. intros i Hi%elem_of_seq. split; [tauto|].
  intros H. split; [lia|done].
Qed.

Lemma live_count_all v :
  vrs_inv v →
  length (filter (λ i, i ∉ (list_to_set (vrs_free v) : gset nat)) (seq 0 (length (vrs_rows v))))
  = vrs_live v.
Proof.
  intros Hv. pose proof (vrs_inv_layout v Hv) as HP. unfold vrs_capacity in HP. rewrite <- HP.
  rewrite filter_app, length_app. rewrite filter_all.
  - assert (filter (λ i, i ∉ (list_to_set (vrs_free v) : gset nat)) (vrs_free v) = []) as ->.
    { apply elem_of_nil_inv. intros i Hi.
      apply list_elem_of_filter in Hi as [Hn Hi]. apply Hn. by apply elem_of_list_to_set. }
    unfold vrs_liveEntries. rewrite length_fmap, live_entries_from_length. simpl.
    rewrite Nat.add_0_r. symmetry. apply Hv.
  - apply Forall_forall. intros i Hi. rewrite elem_of_list_to_set. intros Hf%Hv.
    apply live_entries_from_fst in Hi as (_ & r & Hr). rewrite Nat.sub_0_r in Hr. congruence.
Qed.

Lemma rebuild_loop_spec rpp rows (F : gset nat) k n :
  0 < rpp → size_ok rpp → Forall storable_row (flat rows) → free_marks F rows →
  (∀ q, k ≤ q < k + n → q * rpp < length rows) →
  rebuild_loop F rpp (pages_list rpp rows k n) (placed rpp rows k)
    (length (filter (λ i, i ∉ F) (seq 0 ((k * rpp) `min` length rows)))) =
  Ok (placed rpp rows (k + n),
      length (filter (λ i, i ∉ F) (seq 0 (((k + n) * rpp) `min` length rows)))).
Proof.
  intros Hr Hs Hst HF. revert k. induction n as [|n IH]; intros k Hk.
  { by rewrite Nat.add_0_r. }
  assert (k * rpp < length rows) as Hk0 by (apply Hk; lia).
  unfold pages_list. cbn [seq fmap list_fmap rebuild_loop]. rewrite chunk_decodes by done.
  cbn [mbind result_bind]. replace (k + 1 - 1) with k by lia. rewrite placed_step by done.
  rewrite length_chunk, length_flat. rewrite (Nat.min_l (k * rpp)) by lia.
  rewrite live_count_step by (done || unfold placed; by rewrite length_imap).
  rewrite <- (Nat.add_succ_comm k n). apply IH. intros q Hq. apply Hk. lia.
Qed.

Lemma install_all_spec pages s :
  NoDup pages.*1 → coherent s →
  let s' := foldl (λ s '(pageId, payload),
                    invalidateDecoded pageId (installPage pageId payload false s)) s pages in
  prs_rowsPerPage s' = prs_rowsPerPage s ∧ prs_slots s' = prs_slots s ∧
  prs_free s' = prs_free s ∧ coherent s' ∧
  (∀ p, prs_dir s' !! p = match (list_to_map pages : gmap PageId bytes) !! p with
                          | Some payload => Some payload
                          | None => prs_dir s !! p
                          end) ∧
  (∀ i row, prs_decoded s' !! i = Some row → prs_decoded s !! i = Some row ∧
     ∀ slot, prs_slots s !! i = Some slot → slot_pageId slot ∉ pages.*1).
Proof.
  revert s. induction pages as [|[p payload] pages IH]; intros s Hnd Hcoh; simpl.
  { split_and!; try done. intros i row Hi. split; [done|]. set_solver. }
  apply NoDup_cons in Hnd as [Hp Hnd].
  destruct (IH (invalidateDecoded p (installPage p payload false s)))
    as (H1 & H2 & H3 & H4 & H5 & H6); [done|by apply (coherent_install s p payload false) in Hcoh|].
  split_and!; try done.
  - intros p'. rewrite H5. destruct (decide (p' = p)) as [->|Hne].
    + rewrite lookup_insert_eq, not_elem_of_list_to_map_1 by done. simpl. by rewrite lookup_insert_eq.
    + rewrite lookup_insert_ne by done. simpl. by rewrite lookup_insert_ne.
  - intros i row [Hi Hs]%H6. apply lookup_invalidate_loop in Hi as [Hi Hinv]. split; [done|].
    intros slot Hslot. rewrite Nat.sub_0_r in Hinv. rewrite not_elem_of_cons.
    split; [by apply Hinv; [lia|]|by apply Hs].
Qed.

Lemma dir_of_chunk_eq rpp rows rows' q :
  chunk rpp q (flat rows') = chunk rpp q (flat rows) → dir_of rpp rows' (S q) = dir_of rpp rows (S q).
Proof. intros H. simpl. by rewrite H. Qed.

(** The directory after the redo of the dirty pages is the primary's. *)
Lemma redo_dir rpp base s v p :
  prs_since rpp base s v →
  match (list_to_map (takeDirtyPages s).1 : gmap PageId bytes) !! p with
  | Some payload => Some payload
  | None => page_bytes <$> dir_of rpp base p
  end = page_bytes <$> dir_of rpp (vrs_rows v) p.
Proof.
  intros [[Hc _ _ _] <- Hlen Hcl]. unfold takeDirtyPages, dir_pages; simpl.
  rewrite list_to_map_entries_of by (rewrite merge_sort_Permutation; apply NoDup_elements).
  case_bool_decide as Hin; rewrite merge_sort_Permutation, elem_of_elements in Hin.
  - rewrite (pc_dir _ _ Hc). destruct (dir_of _ (vrs_rows v) p) eqn:E; [done|]. simpl.
    destruct p as [|q]; [done|].
    destruct (decide (q * prs_rowsPerPage s < length (vrs_rows v))) as [Hlt|].
    { rewrite dir_of_Some in E by (done || apply Hc). done. }
    by rewrite dir_of_None by lia.
  - destruct p as [|q]; [done|]. f_equal. symmetry. apply dir_of_chunk_eq, Hcl.
    by rewrite Nat.add_1_r.
Qed.

(** A row decoded before the redo and not invalidated by it is still right. *)
Lemma redo_decoded rpp base s v i row :
  prs_since rpp base s v → rows_nonempty base → base !! i = Some (Some row) →
  i / rpp + 1 ∉ (takeDirtyPages s).1.*1 → vrs_rows v !! i = Some (Some row).
Proof.
  intros [[Hc _ _ _] <- Hlen Hcl] Hne Hi Hnot. set (rpp := prs_rowsPerPage s) in *.
  pose proof (pc_rpp _ _ Hc) as Hr. fold rpp in Hr.
  pose proof (lookup_lt_Some _ _ _ Hi) as Hlt. destruct (div_mod_eq rpp i Hr) as [Hdiv Hmod].
  assert (i / rpp + 1 ∉ prs_dirty s) as Hq.
  { intros Hin. apply Hnot. unfold takeDirtyPages, dir_pages; simpl.
    rewrite entries_of_fst, list_elem_of_filter, merge_sort_Permutation, elem_of_elements.
    split; [|done]. rewrite (pc_dir _ _ Hc), Nat.add_1_r, dir_of_Some; [by eexists|done|].
    fold rpp. lia. }
  apply Hcl in Hq. apply (f_equal (lookup (i mod rpp))) in Hq.
  rewrite !lookup_chunk, !decide_True, <- Hdiv, !lookup_flat, Hi in Hq by done.
  destruct (vrs_rows v !! i) as [o|]; [|done]. simpl in Hq. injection Hq as Hq.
  apply (Forall_lookup_1 _ _ _ _ Hne) in Hi. destruct o as [r|]; simpl in Hq; naive_solver.
Qed.

(** Rebuilding the slots of a store whose directory is the one of [v]. *)
Lemma rebuild_rep s v :
  let rpp := prs_rowsPerPage s in
  0 < rpp → size_ok rpp → Forall storable_row (flat (vrs_rows v)) → vrs_inv v →
  length (prs_slots s) = length (vrs_rows v) → prs_free s = vrs_free v → coherent s →
  (∀ p, prs_dir s !! p = page_bytes <$> dir_of rpp (vrs_rows v) p) →
  (∀ i row, prs_decoded s !! i = Some row → vrs_rows v !! i = Some (Some row)) →
  ∃ s', rebuildSlotsFromDirectory s = Ok s' ∧ prs_rep (clearDirtyPages s') v.
Proof.
  intros rpp Hr Hs Hst Hi Hls Hf [Hp Hcoh] Hdir Hdec. unfold rebuildSlotsFromDirectory.
  fold rpp. rewrite (dir_pages_list s rpp (vrs_rows v) Hr Hdir), Hls, Hf.
  set (n := expectedPageCount rpp (length (vrs_rows v))).
  pose proof (expectedPageCount_covers rpp (length (vrs_rows v)) Hr) as Hcov. fold n in Hcov.
  pose proof (rebuild_loop_spec rpp (vrs_rows v) (list_to_set (vrs_free v)) 0 n) as Hloop.
  rewrite placed_none in Hloop. simpl in Hloop. rewrite Hloop; try done.
  - simpl. eexists. split; [done|]. rewrite Nat.min_r, live_count_all by (done || lia).
    split; simpl; try done. split; simpl; try done. by apply placed_all.
  - by apply vrs_inv_marks.
  - intros q Hq. apply expectedPageCount_spec; [done|]. fold n. lia.
Qed.

Lemma redo_dirty_pages rpp base s v r w :
  prs_since rpp base s v → prs_rep r w → vrs_rows w = base → prs_rowsPerPage r = rpp →
  rows_nonempty base →
  ∃ r', applyPageImages (Some (prs_capacity s)) (Some (prs_free s)) (takeDirtyPages s).1 r = Ok r' ∧
    prs_rep r' v ∧ prs_dirty r' = ∅.
Proof.
  intros Hsince [Hcr _ _ _] <- Hrpp Hne. pose proof Hsince as [[Hc Hf Hl Hi] Hrpps Hlen Hcl].
  pose proof (vrs_inv_marks v Hi) as HF.
  pose proof (pc_rpp _ _ Hc) as Hr. rewrite Hrpps in Hr.
  unfold applyPageImages, prs_capacity. rewrite (pc_length_slots _ _ Hc), (pc_length_slots _ _ Hcr).
  assert (Nat.ltb (length (vrs_rows v)) (length (vrs_rows w)) = false) as ->
    by (apply Nat.ltb_ge; done).
  cbn [throw_if mbind result_bind default option_rect]. rewrite Hf. simpl.
  set (s0 := with_slots _ _ _ r).
  destruct (install_all_spec (takeDirtyPages s).1 s0) as (H1 & H2 & H3 & H4 & H5 & H6).
  { apply NoDup_entries_of. rewrite merge_sort_Permutation. apply NoDup_elements. }
  { apply prs_core_coherent in Hcr as [Hp Hcoh]. by split. }
  set (s1 := foldl _ s0 _) in *.
  assert (∀ p, prs_dir s1 !! p = page_bytes <$> dir_of rpp (vrs_rows v) p) as Hdir1.
  { intros p. rewrite H5, <- (redo_dir rpp (vrs_rows w) s v p Hsince). simpl.
    by rewrite (pc_dir _ _ Hcr), Hrpp. }
  assert (length (prs_slots s1) = length (vrs_rows v)) as Hls.
  { rewrite H2. simpl. unfold resize_slots.
    rewrite length_app, length_replicate, (pc_length_slots _ _ Hcr). lia. }
  assert (prs_rowsPerPage s1 = rpp) as Hr1 by (rewrite H1; done).
  destruct (rebuild_rep s1 v) as (s2 & -> & H7); rewrite ?Hr1; try done.
  - rewrite <- Hrpps. apply Hc.
  - apply Hc.
  - intros i row [Hd Hslot]%H6. apply (pc_decoded _ _ Hcr) in Hd.
    apply (redo_decoded rpp (vrs_rows w) s v); [done..|].
    specialize (Hslot (slot_of rpp i (Some row))). apply Hslot. simpl. unfold resize_slots.
    rewrite lookup_app_l
      by (rewrite (pc_length_slots _ _ Hcr); by eapply lookup_lt_Some).
    by rewrite (pc_lookup_slot _ _ _ Hcr), Hd, Hrpp.
  - by exists (clearDirtyPages s2).
Qed.

(** The calls that change rows one at a time, and the reads. *)
Definition is_row_op (op : rs_op) : Prop :=
  match op with RS_replaceRows _ | RS_replaceSparse _ _ _ => False | _ => True end.

Lemma row_op_step_closed R op s v :
  step_closed R → R s v → rs_op_ok op → is_row_op op → R (rs_step op s).2 (rs_step op v).2.
Proof.
  intros HR H Hok Hrow. destruct op; simpl in *; try done.
  - destruct (prs_append_sim R HR s v row H Hok) as (s' & -> & ?). by destruct (vrs_append row v).
  - destruct (prs_erase_sim R HR s v i H) as (s' & -> & ?). by destruct (vrs_erase i v).
  - destruct (prs_update_sim R HR s v i row H Hok) as (s' & -> & ?). by destruct (vrs_update i row v).
  - destruct (prs_revive_sim R HR s v i row H Hok) as (s' & -> & ?). by destruct (vrs_revive i row v).
  - destruct (prs_upsertAt_sim R HR s v i row H Hok) as (s' & -> & ?).
    by destruct (vrs_upsertAt i row v).
  - by destruct (prs_get_sim R HR s v i H) as (s' & -> & ?).
  - by destruct (prs_snapshot_sim R HR s v H) as (s' & -> & ?).
  - by destruct (prs_liveEntries_sim R HR s v H) as (s' & -> & ?).
  - by destruct (prs_rowsById_sim R HR s v ids H) as (s' & -> & ?).
Qed.

Lemma row_ops_since rpp base ops s v :
  prs_since rpp base s v → Forall rs_op_ok ops → Forall is_row_op ops →
  prs_since rpp base (run_trace rs_step ops s).2 (run_trace rs_step ops v).2.
Proof.
  intros H Hok. revert s v H. induction Hok as [|op ops Hop _ IH]; intros s v H Hrow; simpl; [done|].
  apply Forall_cons in Hrow as [Ho Hrow].
  pose proof (row_op_step_closed _ op s v (prs_since_step_closed rpp base) H Hop Ho) as H1.
  destruct (rs_step op s) as [o1 s1], (rs_step op v) as [o2 v1]. simpl in H1.
  specialize (IH s1 v1 H1 Hrow).
  by destruct (run_trace rs_step ops s1), (run_trace rs_step ops v1).
Qed.

(** C27: physical redo of dirty pages is complete.  Start a store and a stale
    replica from the same rows, run any sequence of row operations and reads
    on the store, and apply only its dirty pages with its capacity and free
    list to the replica: the application succeeds, leaves no dirty page, and
    the replica then answers every further sequence of calls exactly as the
    store does. *)
Theorem dirty_page_redo s v r ops :
  prs_rep s v → prs_rep r v → prs_rowsPerPage r = prs_rowsPerPage s → rows_nonempty (vrs_rows v) →
  Forall rs_op_ok ops → Forall is_row_op ops →
  let s' := (run_trace rs_step ops s).2 in
  ∃ r', applyPageImages (Some (prs_capacity s')) (Some (prs_free s')) (takeDirtyPages s').1 r = Ok r' ∧
    prs_dirty r' = ∅ ∧
    ∀ ops', Forall rs_op_ok ops' →
      (run_trace rs_step ops' r').1 = (run_trace rs_step ops' s').1.
Proof.
  intros Hs Hr Hrpp Hne Hok Hrow s'.
  pose proof (row_ops_since _ _ ops s v (prs_since_refl s v Hs) Hok Hrow) as Hsince. fold s' in Hsince.
  set (v' := (run_trace rs_step ops v).2) in *.
  destruct (redo_dirty_pages _ _ s' v' r v Hsince Hr eq_refl Hrpp Hne) as (r' & Happ & Hrep & Hd).
  exists r'. split; [exact Happ|]. split; [exact Hd|]. intros ops' Hops'.
  rewrite (prs_run_sim ops' r' v' Hrep Hops').
  by rewrite (prs_run_sim ops' s' v' (psn_rep _ _ _ _ Hsince) Hops').
Qed.

(** Two stores of two rows per page, as built by a checkpoint of one row. *)
Definition redo_sample : result PageRowStore :=
  s ← PageRowStore_new 2 1;
  '(_, s) ← prs_append [VInt 1] s;
  Ok s.

Lemma dirty_page_redo_witness :
  let ops := [RS_append [VInt 2]; RS_append [VInt 3]; RS_erase 0; RS_get 1] in
  ∃ s, redo_sample = Ok s ∧
  let s' := (run_trace rs_step ops s).2 in
  ∃ r', applyPageImages (Some (prs_capacity s')) (Some (prs_free s')) (takeDirtyPages s').1 s = Ok r' ∧
    (run_trace rs_step [RS_liveEntries; RS_freeList] r').1 =
    [RO_entries [(1, [VInt 2]); (2, [VInt 3])]; RO_ids [0]].
Proof.
  intros ops. assert (storable_row [VInt 1]) as H1 by repeat constructor.
  destruct (PageRowStore_new 2 1) as [s0|] eqn:E0; [|discriminate E0].
  pose proof (PageRowStore_new_rep 2 1 s0 E0 eq_refl) as H0.
  destruct (prs_append_sim prs_rep prs_rep_step_closed s0 vrs_empty [VInt 1] H0 H1)
    as (s & Hs & Hrep).
  exists s. split. { unfold redo_sample. rewrite E0. cbn [mbind result_bind]. by rewrite Hs. }
  intros s'.
  assert (Forall rs_op_ok ops) as Hok by repeat constructor.
  assert (Forall is_row_op ops) as Hrow by repeat constructor.
  destruct (dirty_page_redo s (vrs_append [VInt 1] vrs_empty).2 s ops Hrep Hrep eq_refl
    ltac:(repeat constructor; done) Hok Hrow) as (r' & Hr & _ & Hobs).
  exists r'. split; [exact Hr|].
  rewrite (Hobs [RS_liveEntries; RS_freeList]) by repeat constructor. subst s'.
  vm_compute in E0. injection E0 as <-. vm_compute in Hs. injection Hs as <-.
  vm_compute. reflexivity.
Defined.

Lemma export_reload_witness :
  ∃ s, redo_sample = Ok s ∧ ∃ s', replaceFromPages (exportPages s) s = Ok s' ∧
    (run_trace rs_step [RS_liveEntries] s').1 = [RO_entries [(0, [VInt 1])]].
Proof.
  assert (storable_row [VInt 1]) as H1 by repeat constructor.
  destruct (PageRowStore_new 2 1) as [s0|] eqn:E0; [|discriminate E0].
  pose proof (PageRowStore_new_rep 2 1 s0 E0 eq_refl) as H0.
  destruct (prs_append_sim prs_rep prs_rep_step_closed s0 vrs_empty [VInt 1] H0 H1)
    as (s & Hs & Hrep).
  exists s. split. { unfold redo_sample. rewrite E0. cbn [mbind result_bind]. by rewrite Hs. }
  destruct (export_reload s (vrs_append [VInt 1] vrs_empty).2 s (vrs_append [VInt 1] vrs_empty).2
    Hrep Hrep ltac:(repeat constructor; done)) as (s' & Hs' & Hrep' & _).
  exists s'. split; [exact Hs'|].
  rewrite (prs_run_sim [RS_liveEntries] s' _ Hrep' ltac:(repeat constructor)). reflexivity.
Defined.

(** The row operations keep [prs_since], so a client that uses the store through
    its interface can be followed from [base] on. *)
Definition since_laws (rpp : nat) (base : list (option Row)) : RowStoreLaws PageRowStore := {|
  rs_rep := prs_since rpp base;
  rs_rep_inv := λ s v H, pr_inv _ _ (psn_rep _ _ _ _ H);
  rs_append_sim := prs_append_sim _ (prs_since_step_closed rpp base);
  rs_erase_sim := prs_erase_sim _ (prs_since_step_closed rpp base);
  rs_update_sim := prs_update_sim _ (prs_since_step_closed rpp base);
  rs_revive_sim := prs_revive_sim _ (prs_since_step_closed rpp base);
  rs_upsertAt_sim := prs_upsertAt_sim _ (prs_since_step_closed rpp base);
  rs_get_sim := prs_get_sim _ (prs_since_step_closed rpp base);
  rs_snapshot_sim := prs_snapshot_sim _ (prs_since_step_closed rpp base);
  rs_liveEntries_sim := prs_liveEntries_sim _ (prs_since_step_closed rpp base);
  rs_freeList_sim := λ s v H, pr_free _ _ (psn_rep _ _ _ _ H);
  rs_rowsById_sim := prs_rowsById_sim _ (prs_since_step_closed rpp base);
  rs_size_sim := λ s v H, pr_live _ _ (psn_rep _ _ _ _ H);
  rs_capacity_sim := λ s v H, pc_length_slots _ _ (pr_core _ _ (psn_rep _ _ _ _ H))
|}.

Lemma clearDirtyPages_rep s v : prs_rep s v → prs_rep (clearDirtyPages s) v.
Proof. intros [Hc Hf Hl Hi]. split; [|done..]. by destruct Hc. Qed.
