(* ===== verification/WriteAheadLog.v ===== *)
(** * The write-ahead log

    [src/persistence/write_ahead_log.cpp]: an append-only file of records, each
    a magic number, a format version, a log sequence number, an operation code
    and a length-prefixed payload.  The state of a [WriteAheadLog] is the file's
    content ([None] when the file does not exist), the cached next sequence
    number and the durability bookkeeping.  Stream failures (a full disk, a
    missing permission) are outside the model; a crash in the middle of an append
    leaves a proper prefix of the record at the end of the file. *)

From S2P Require Import Prelude Value BinaryIO.
Local Open Scope Z_scope.

(** [WalOperation]; the code is read from disk unchecked, so any other byte is
    an operation too. *)
Inductive WalOperation : Type :=
| Wal_CreateDatabase | Wal_CreateTable | Wal_DropTable | Wal_RenameTable
| Wal_Insert | Wal_Update | Wal_Delete | Wal_CreateIndex | Wal_SaveDatabase
| Wal_PhysicalRedo | Wal_PageImageRedo | Wal_DropIndex | Wal_DropDatabase
| Wal_AlterTable
| Wal_other (code : Z).

Definition WalOperation_code (op : WalOperation) : Z :=
  match op with
  | Wal_CreateDatabase => 0 | Wal_CreateTable => 1 | Wal_DropTable => 2
  | Wal_RenameTable => 3 | Wal_Insert => 4 | Wal_Update => 5 | Wal_Delete => 6
  | Wal_CreateIndex => 7 | Wal_SaveDatabase => 8 | Wal_PhysicalRedo => 9
  | Wal_PageImageRedo => 10 | Wal_DropIndex => 11 | Wal_DropDatabase => 12
  | Wal_AlterTable => 13
  | Wal_other c => c
  end.

Definition WalOperation_of_code (c : Z) : WalOperation :=
  match c with
  | 0 => Wal_CreateDatabase | 1 => Wal_CreateTable | 2 => Wal_DropTable
  | 3 => Wal_RenameTable | 4 => Wal_Insert | 5 => Wal_Update | 6 => Wal_Delete
  | 7 => Wal_CreateIndex | 8 => Wal_SaveDatabase | 9 => Wal_PhysicalRedo
  | 10 => Wal_PageImageRedo | 11 => Wal_DropIndex | 12 => Wal_DropDatabase
  | 13 => Wal_AlterTable
  | c => Wal_other c
  end.

Inductive WalDurability : Type := WD_Sync | WD_FlushOnly.

Record WalRecord : Type := mkWalRecord {
  wal_lsn : Z;
  wal_operation : WalOperation;
  wal_payload : bytes
}.

Record WriteAheadLog : Type := mkWal {
  wal_file : option bytes;
  wal_nextLsn : option Z;
  wal_durability : WalDurability;
  wal_durableSyncCount : Z
}.

Definition kWalMagic : Z := 0x54435741.
Definition kWalVersion : Z := 1.
Definition kWalIoError : string := "failed to read WAL record".

(** The bytes [append] writes for one record. *)
Definition wal_record_bytes (r : WalRecord) : bytes :=
  writePod_u32 kWalMagic ++ writePod_u32 kWalVersion ++ writePod_u64 (wal_lsn r) ++
  writePod_u8 (WalOperation_code (wal_operation r)) ++ appendBlob (wal_payload r).

(** One round of the loop of [readAll]: [None] is its [break]. *)
Definition wal_readRecord (bs : bytes) : option (WalRecord * bytes) :=
  match readPod_u32 kWalIoError bs with
  | Throw _ => None
  | Ok (magic, bs) =>
  match readPod_u32 kWalIoError bs with
  | Throw _ => None
  | Ok (version, bs) =>
    if negb (magic =? kWalMagic) || negb (version =? kWalVersion) then None else
    match
      '(lsn, bs) ← readPod_u64 kWalIoError bs;
      '(op, bs) ← readPod_u8 kWalIoError bs;
      '(payload, bs) ← readBlob kWalIoError bs;
      Ok (mkWalRecord lsn (WalOperation_of_code op) payload, bs)
    with
    | Throw _ => None
    | Ok r => Some r
    end
  end end.

(** The loop of [readAll]: it ends at the end of the file or at the first record
    that is not complete.  A record is never empty, so the file's length bounds
    the number of rounds. *)
Fixpoint wal_readLoop (fuel : nat) (bs : bytes) : list WalRecord :=
  match fuel with
  | O => []
  | S fuel =>
    match bs with
    | [] => []
    | _ =>
      match wal_readRecord bs with
      | None => []
      | Some (r, bs) => r :: wal_readLoop fuel bs
      end
    end
  end.

Definition wal_readAll (w : WriteAheadLog) : list WalRecord :=
  match wal_file w with
  | None => []
  | Some bs => wal_readLoop (S (length bs)) bs
  end.

(** [nextLsn], with the [std::uint64_t] wrap-around of its increments. *)
Definition wal_nextLsn_step (w : WriteAheadLog) : Z * option Z :=
  match wal_nextLsn w with
  | Some n => (n, Some ((n + 1) mod 2 ^ 64))
  | None =>
    let next := foldl (λ next r, Z.max next ((wal_lsn r + 1) mod 2 ^ 64)) 1 (wal_readAll w) in
    (next, Some ((next + 1) mod 2 ^ 64))
  end.

Definition wal_durableSync (w : WriteAheadLog) : Z :=
  match wal_durability w with
  | WD_FlushOnly => wal_durableSyncCount w
  | WD_Sync => wal_durableSyncCount w + 1
  end.

(** [WriteAheadLog::append]: the sequence number given to the record and the new
    state. *)
Definition wal_append (op : WalOperation) (payload : bytes) (w : WriteAheadLog)
    : Z * WriteAheadLog :=
  let '(lsn, next) := wal_nextLsn_step w in
  let record := wal_record_bytes (mkWalRecord lsn op payload) in
  (lsn, mkWal (Some (default [] (wal_file w) ++ record)) next (wal_durability w)
              (wal_durableSync w)).

(** [WriteAheadLog::reset]: truncation at a SAVE checkpoint. *)
Definition wal_reset (w : WriteAheadLog) : WriteAheadLog :=
  mkWal (Some []) (Some 1) (wal_durability w) (wal_durableSync w).

(** A new process opens the log that is on disk. *)
Definition wal_open (file : option bytes) : WriteAheadLog := mkWal file None WD_Sync 0.

(** ** Reading back what was written *)

Definition wal_record_ok (r : WalRecord) : Prop :=
  u64 (wal_lsn r) ∧ u8 (WalOperation_code (wal_operation r)) ∧
  size_ok (length (wal_payload r)) ∧
  WalOperation_of_code (WalOperation_code (wal_operation r)) = wal_operation r.

Definition wal_bytes (rs : list WalRecord) : bytes := concat (map wal_record_bytes rs).

Lemma wal_readRecord_complete r rest : wal_record_ok r →
  wal_readRecord (wal_record_bytes r ++ rest) = Some (r, rest).
Proof.
  intros (H1 & H2 & H3 & H4). unfold wal_readRecord, wal_record_bytes. rewrite <- !app_assoc.
  rewrite (codec_roundtrip (Codec:=codec_u32 kWalIoError)) by (unfold kWalMagic; lia).
  rewrite (codec_roundtrip (Codec:=codec_u32 kWalIoError)) by (unfold kWalVersion; lia).
  rewrite !Z.eqb_refl. simpl negb; simpl orb; cbn match.
  rewrite u64_bind_roundtrip, u8_bind_roundtrip by done.
  rewrite (codec_roundtrip (Codec:=codec_blob kWalIoError)) by done.
  cbn [mbind result_bind]. rewrite H4. by destruct r.
Qed.

Lemma wal_readRecord_torn r p : wal_record_ok r →
  p `prefix_of` wal_record_bytes r → p ≠ wal_record_bytes r → wal_readRecord p = None.
Proof.
  intros (H1 & H2 & H3 & H4) Hp Hne. unfold wal_readRecord, wal_record_bytes in *.
  destruct (prefix_app_cases _ _ _ Hp Hne) as [[Hp' Hn']|(q & -> & Hq & Hqn)].
  { destruct (codec_truncated (Codec:=codec_u32 kWalIoError) kWalMagic p) as [e ->];
      [unfold kWalMagic; lia|done..]. }
  rewrite (codec_roundtrip (Codec:=codec_u32 kWalIoError)) by (unfold kWalMagic; lia).
  clear Hp Hne. destruct (prefix_app_cases _ _ _ Hq Hqn) as [[Hp' Hn']|(q' & -> & Hq' & Hqn')].
  { destruct (codec_truncated (Codec:=codec_u32 kWalIoError) kWalVersion q) as [e ->];
      [unfold kWalVersion; lia|done..]. }
  rewrite (codec_roundtrip (Codec:=codec_u32 kWalIoError)) by (unfold kWalVersion; lia).
  rewrite !Z.eqb_refl. cbn [negb orb].
  assert (∃ e, ('(lsn, bs) ← readPod_u64 kWalIoError q';
      '(op, bs) ← readPod_u8 kWalIoError bs;
      '(payload, bs) ← readBlob kWalIoError bs;
      Ok (mkWalRecord lsn (WalOperation_of_code op) payload, bs)) = Throw e) as [e ->]; [|done].
  eapply u64_bind_truncated; [|exact Hq'|exact Hqn'|]; [done|]. intros q2 Hq2 Hqn2.
  eapply u8_bind_truncated; [|exact Hq2|exact Hqn2|]; [done|]. intros q3 Hq3 Hqn3.
  destruct (codec_truncated (Codec:=codec_blob kWalIoError) _ q3 H3 Hq3 Hqn3) as [e ->].
  by exists e.
Qed.

Lemma wal_record_bytes_length r :
  (length (wal_record_bytes r) = 25 + length (wal_payload r))%nat.
Proof. unfold wal_record_bytes, appendBlob. rewrite !length_app. cbn. lia. Qed.

Lemma wal_readLoop_prefix rs p fuel :
  Forall wal_record_ok rs →
  (p = [] ∨ wal_readRecord p = None) → (length rs < fuel)%nat →
  wal_readLoop fuel (wal_bytes rs ++ p) = rs.
Proof.
  intros Hrs Hp. revert fuel. induction Hrs as [|r rs Hr Hrs IH]; intros [|fuel] Hf; simpl in Hf; try lia.
  - destruct Hp as [-> | Hp]; [done|]. simpl. destruct p; [done|]. by rewrite Hp.
  - change (wal_bytes (r :: rs)) with (wal_record_bytes r ++ wal_bytes rs).
    rewrite <- app_assoc. cbn [wal_readLoop]. rewrite wal_readRecord_complete by done.
    destruct (wal_record_bytes r ++ wal_bytes rs ++ p) as [|b bs] eqn:E.
    { apply (f_equal length) in E. rewrite length_app, wal_record_bytes_length in E. simpl in E. lia. }
    f_equal. apply IH. lia.
Qed.

Lemma wal_bytes_length rs : (length rs ≤ length (wal_bytes rs))%nat.
Proof.
  apply length_concat_enc. intros r. rewrite wal_record_bytes_length. lia.
Qed.

Lemma wal_readAll_prefix rs p w : wal_file w = Some (wal_bytes rs ++ p) →
  Forall wal_record_ok rs → (p = [] ∨ wal_readRecord p = None) → wal_readAll w = rs.
Proof.
  intros Hw Hrs Hp. unfold wal_readAll. rewrite Hw. apply wal_readLoop_prefix; [done..|].
  rewrite length_app. pose proof (wal_bytes_length rs). lia.
Qed.

(** C33: recovery reads the durable prefix.  A log of complete records followed
    by a torn record - any proper prefix, the empty one included, of a record's
    bytes, as a crash during an append leaves it - reads back as exactly the
    complete records, in order. *)
Theorem wal_readAll_torn_tail (rs : list WalRecord) (r : WalRecord) (torn : bytes) :
  Forall wal_record_ok rs → wal_record_ok r →
  torn `prefix_of` wal_record_bytes r → torn ≠ wal_record_bytes r →
  wal_readAll (wal_open (Some (wal_bytes rs ++ torn))) = rs.
Proof.
  intros Hrs Hr Ht Hn. eapply wal_readAll_prefix; [done..|].
  right. by eapply wal_readRecord_torn.
Qed.

Definition sample_record (n : Z) : WalRecord :=
  mkWalRecord n Wal_PageImageRedo [Byte.x01; Byte.x02; Byte.x03].

Lemma wal_readAll_torn_tail_witness :
  wal_readAll (wal_open (Some (wal_bytes [sample_record 1; sample_record 2] ++
                               take 26 (wal_record_bytes (sample_record 3)))))
  = [sample_record 1; sample_record 2].
Proof.
  apply (wal_readAll_torn_tail _ (sample_record 3)).
  - repeat constructor; done.
  - repeat constructor; done.
  - exists (drop 26 (wal_record_bytes (sample_record 3))). reflexivity.
  - vm_compute. intros H. discriminate H.
Defined.

(** ** Appending *)

Definition lsn_lt (r1 r2 : WalRecord) : Prop := wal_lsn r1 < wal_lsn r2.

(** A log whose file ends with a complete record, with increasing sequence
    numbers from 1 on; a cached next number is beyond them all. *)
Definition wal_inv (w : WriteAheadLog) (rs : list WalRecord) : Prop :=
  Forall wal_record_ok rs ∧ default [] (wal_file w) = wal_bytes rs ∧
  StronglySorted lsn_lt rs ∧ Forall (λ r, 0 < wal_lsn r) rs ∧
  (∀ n, wal_nextLsn w = Some n → 0 < n < 2 ^ 64 ∧ Forall (λ r, wal_lsn r < n) rs).

Lemma wal_inv_readAll w rs : wal_inv w rs → wal_readAll w = rs.
Proof.
  intros (Hrs & Hf & _). destruct (wal_file w) as [bs|] eqn:E.
  - eapply (wal_readAll_prefix rs []); [|done|by left]. rewrite E, app_nil_r. by simpl in Hf; subst.
  - unfold wal_readAll. rewrite E. simpl in Hf. destruct rs as [|r rs]; [done|].
    apply (f_equal length) in Hf. pose proof (wal_bytes_length (r :: rs)). simpl in *. lia.
Qed.

Lemma foldl_max_lsn rs acc :
  Forall (λ r, 0 < wal_lsn r < 2 ^ 64 - 2) rs → 1 <= acc < 2 ^ 64 - 1 →
  let n := foldl (λ next r, Z.max next ((wal_lsn r + 1) mod 2 ^ 64)) acc rs in
  acc <= n < 2 ^ 64 - 1 ∧ Forall (λ r, wal_lsn r < n) rs.
Proof.
  revert acc. induction rs as [|r rs IH]; intros acc Hrs Ha; simpl; [split; [lia|constructor]|].
  apply Forall_cons in Hrs as [Hr Hrs]. rewrite (Z.mod_small (wal_lsn r + 1)) by lia.
  destruct (IH (Z.max acc (wal_lsn r + 1)) Hrs) as [H1 H2]; [lia|].
  split; [lia|]. constructor; [lia|done].
Qed.

Lemma StronglySorted_snoc {A} (R : A → A → Prop) (l : list A) x :
  StronglySorted R l → Forall (λ y, R y x) l → StronglySorted R (l ++ [x]).
Proof.
  induction 1 as [|y l Hs IH Hy]; simpl; intros Hx.
  - repeat constructor.
  - apply Forall_cons in Hx as [Hyx Hx]. constructor; [auto|]. apply Forall_app; auto.
Qed.

Lemma wal_nextLsn_fresh w rs : wal_inv w rs →
  Forall (λ r, wal_lsn r < 2 ^ 64 - 2) rs →
  (∀ n, wal_nextLsn w = Some n → n < 2 ^ 64 - 1) →
  let '(lsn, next) := wal_nextLsn_step w in
  0 < lsn < 2 ^ 64 - 1 ∧ next = Some (lsn + 1) ∧ Forall (λ r, wal_lsn r < lsn) rs.
Proof.
  intros Hinv Hb Hn. pose proof (wal_inv_readAll _ _ Hinv) as Hra.
  destruct Hinv as (_ & _ & _ & Hpos & Hnext). unfold wal_nextLsn_step.
  destruct (wal_nextLsn w) as [n|] eqn:E.
  - destruct (Hnext n eq_refl) as [Hr Hf]. specialize (Hn n eq_refl).
    rewrite Z.mod_small by lia. split_and!; auto; lia.
  - rewrite Hra. destruct (foldl_max_lsn rs 1) as [H1 H2]; [|lia|].
    { rewrite Forall_forall in *. intros r Hr. split; [by apply Hpos|by apply Hb]. }
    rewrite Z.mod_small by lia. split_and!; auto; lia.
Qed.

(** A log with room for one more sequence number. *)
Definition wal_room (w : WriteAheadLog) (rs : list WalRecord) : Prop :=
  Forall (λ r, wal_lsn r < 2 ^ 64 - 2) rs ∧ (∀ n, wal_nextLsn w = Some n → n < 2 ^ 64 - 1).

Lemma wal_append_inv w rs op payload : wal_inv w rs → wal_room w rs →
  u8 (WalOperation_code op) → WalOperation_of_code (WalOperation_code op) = op → size_ok (length payload) →
  let '(lsn, w') := wal_append op payload w in
  Forall (λ r, wal_lsn r < lsn) rs ∧ wal_inv w' (rs ++ [mkWalRecord lsn op payload]).
Proof.
  intros Hinv [Hb Hn] Hop Hop' Hsz. pose proof (wal_nextLsn_fresh w rs Hinv Hb Hn) as Hf.
  unfold wal_append. destruct (wal_nextLsn_step w) as [lsn next].
  destruct Hf as (Hlsn & -> & Hlt). destruct Hinv as (Hrs & Hfile & Hsort & Hpos & Hnext). split; [done|].
  set (r := mkWalRecord lsn op payload). split_and!.
  - apply Forall_app; split; [done|]. apply Forall_singleton. split_and!; simpl; try done; unfold u64; lia.
  - simpl. rewrite Hfile. unfold wal_bytes. rewrite map_app, concat_app. simpl. by rewrite app_nil_r.
  - apply StronglySorted_snoc; [done|]. exact Hlt.
  - apply Forall_app; split; [done|]. apply Forall_singleton; simpl; lia.
  - intros n [= <-]. split; [lia|]. apply Forall_app; split.
    + eapply Forall_impl; [exact Hlt|]. simpl; lia.
    + apply Forall_singleton; simpl; lia.
Qed.

(** C34: an append to a clean log is durable and ordered.  The record just
    appended is the last one [readAll] returns, after all earlier ones; its
    sequence number exceeds every earlier one; and the log stays clean, so the
    statement iterates.  (Sequence numbers stay below the 64-bit limit.) *)
Theorem wal_append_durable (w : WriteAheadLog) (rs : list WalRecord)
    (op : WalOperation) (payload : bytes) :
  wal_inv w rs → Forall (λ r, wal_lsn r < 2 ^ 64 - 2) rs →
  (∀ n, wal_nextLsn w = Some n → n < 2 ^ 64 - 1) →
  u8 (WalOperation_code op) → WalOperation_of_code (WalOperation_code op) = op →
  size_ok (length payload) →
  let '(lsn, w') := wal_append op payload w in
  wal_readAll w' = wal_readAll w ++ [mkWalRecord lsn op payload] ∧
  Forall (λ r, wal_lsn r < lsn) rs ∧
  wal_inv w' (rs ++ [mkWalRecord lsn op payload]).
Proof.
  intros Hinv Hb Hn Hop Hop' Hsz. pose proof (wal_append_inv w rs op payload Hinv (conj Hb Hn) Hop Hop' Hsz) as Ha.
  destruct (wal_append op payload w) as [lsn w']. destruct Ha as [Hlt Hinv']. split_and!; [|done..].
  rewrite (wal_inv_readAll _ _ Hinv). by apply wal_inv_readAll.
Qed.

Lemma wal_append_durable_witness :
  let '(lsn, w') := wal_append Wal_CreateTable [] (wal_open None) in
  wal_readAll w' = [mkWalRecord 1 Wal_CreateTable []] ∧ lsn = 1.
Proof.
  pose proof (wal_append_durable (wal_open None) [] Wal_CreateTable []) as H.
  destruct (wal_append Wal_CreateTable [] (wal_open None)) as [lsn w'] eqn:E.
  assert (lsn = 1) as -> by (vm_compute in E; congruence).
  split; [|reflexivity]. destruct H as (H & _).
  - split_and!; try done; constructor.
  - constructor.
  - intros n Hn. discriminate Hn.
  - done.
  - reflexivity.
  - done.
  - exact H.
Defined.

(** ** Appending after a torn tail *)

(** A torn tail is never removed, and it hides what is appended after it.
    When a crash left between one and seven bytes of a record at the end of the
    log, a later append reports success, but [readAll] still returns only the
    records before the tear: the appended record is lost at the next recovery. *)
Theorem wal_append_after_torn_lost (rs : list WalRecord) (r : WalRecord) (torn : bytes)
    (op : WalOperation) (payload : bytes) :
  Forall wal_record_ok rs →
  torn `prefix_of` wal_record_bytes r → (0 < length torn < 8)%nat →
  let '(_, w') := wal_append op payload (wal_open (Some (wal_bytes rs ++ torn))) in
  wal_readAll w' = rs ∧ wal_durableSyncCount w' = 1.
Proof.
  intros Hrs [k Hk] Hlen. unfold wal_append.
  destruct (wal_nextLsn_step _) as [lsn next]. split; [|done].
  apply (wal_readAll_prefix rs (torn ++ wal_record_bytes (mkWalRecord lsn op payload)));
    [simpl; by rewrite app_assoc|done|]. right.
  set (hdr := writePod_u32 kWalMagic ++ writePod_u32 kWalVersion).
  assert (∃ t1, wal_record_bytes r = hdr ++ t1) as [t1 E1]
    by (eexists; unfold wal_record_bytes; by rewrite app_assoc).
  assert (∃ t2, wal_record_bytes (mkWalRecord lsn op payload) = hdr ++ t2) as [t2 ->]
    by (eexists; unfold wal_record_bytes; by rewrite app_assoc).
  assert (torn = take (length torn) hdr) as Ht.
  { rewrite E1 in Hk. apply (f_equal (take (length torn))) in Hk.
    rewrite take_app_length in Hk. rewrite take_app_le in Hk; [done|].
    change (length hdr) with 8%nat. lia. }
  rewrite Ht. remember (length torn) as n eqn:En. clear -Hlen.
  destruct n as [|[|[|[|[|[|[|[|n]]]]]]]]; try lia; reflexivity.
Qed.

Lemma wal_append_after_torn_lost_witness :
  let '(_, w') := wal_append Wal_SaveDatabase []
    (wal_open (Some (wal_bytes [sample_record 1] ++ [Byte.x41; Byte.x57]))) in
  wal_readAll w' = [sample_record 1] ∧ wal_durableSyncCount w' = 1.
Proof.
  apply (wal_append_after_torn_lost _ (sample_record 2)).
  - repeat constructor; done.
  - exists (drop 2 (wal_record_bytes (sample_record 2))). reflexivity.
  - simpl. lia.
Defined.
