(* ===== verification/StringPattern.v ===== *)
(** * String patterns

    [src/common/string_pattern.cpp]: SQL LIKE matching, the two literal shapes
    the planner turns into index probes ([abc%] and [%abc%]) and the trigrams a
    trigram index stores.  A [std::string_view] is the list of its characters.
    [matchRegexPattern] wraps [std::regex] and is a parameter of the predicate
    evaluator, not modelled here. *)

From S2P Require Import Prelude.
From Stdlib Require Import Ascii.
Local Open Scope nat_scope.

Abbreviation chars := (list ascii).
Abbreviation explode := String.list_ascii_of_string.
Abbreviation implode := String.string_of_list_ascii.

Definition percent : ascii := "%"%char.
Definition underscore : ascii := "_"%char.

(** The [while] loop, structural on the pattern; the inner [for] loop tries
    every suffix of the text. *)
Fixpoint matchLikeRec (text pattern : chars) {struct pattern} : bool :=
  match pattern with
  | [] => match text with [] => true | _ => false end
  | c :: pattern' =>
      if Ascii.eqb c percent then
        match pattern' with
        | [] => true
        | _ =>
            (fix suffixes (t : chars) : bool :=
               matchLikeRec t pattern' ||
               match t with [] => false | _ :: t => suffixes t end) text
        end
      else
        match text with
        | [] => false
        | d :: text' =>
            if (negb (Ascii.eqb c underscore) && negb (Ascii.eqb c d))%bool then false
            else matchLikeRec text' pattern'
        end
  end.

Definition matchLikePattern (text pattern : string) : bool :=
  matchLikeRec (explode text) (explode pattern).

Definition isWildcardFree (text : chars) : bool :=
  forallb (λ c, negb (Ascii.eqb c percent) && negb (Ascii.eqb c underscore))%bool text.

Definition likePrefixLiteral (pattern : string) : option string :=
  match unsnoc (explode pattern) with
  | Some (literal, c) =>
      if negb (Ascii.eqb c percent) then None
      else if (Nat.eqb (length literal) 0 || negb (isWildcardFree literal))%bool then None
      else Some (implode literal)
  | None => None
  end.

Definition likeContainsLiteral (pattern : string) : option string :=
  match explode pattern with
  | c :: rest =>
      if Nat.ltb (length (c :: rest)) 3 then None
      else if negb (Ascii.eqb c percent) then None
      else
        match unsnoc rest with
        | Some (literal, d) =>
            if negb (Ascii.eqb d percent) then None
            else if (Nat.eqb (length literal) 0 || negb (isWildcardFree literal))%bool then None
            else Some (implode literal)
        | None => None
        end
  | [] => None
  end.

(** The windows of three characters, from the front. *)
Fixpoint windows3 (text : chars) : list chars :=
  match text with
  | a :: (b :: c :: _) as rest => [a; b; c] :: windows3 rest
  | _ => []
  end.

Definition extractTrigrams (text : string) : list string :=
  let t := explode text in
  if Nat.ltb (length t) 3 then
    match t with [] => [] | _ => [text] end
  else implode <$> windows3 t.

(** ** LIKE, declaratively *)

Inductive like : chars → chars → Prop :=
| like_nil : like [] []
| like_percent skipped text pattern : like text pattern → like (skipped ++ text) (percent :: pattern)
| like_underscore c text pattern : like text pattern → like (c :: text) (underscore :: pattern)
| like_char c text pattern :
    c ≠ percent → c ≠ underscore → like text pattern → like (c :: text) (c :: pattern).

#[export] Hint Constructors like : vdb.

Lemma matchLikeRec_like text pattern : matchLikeRec text pattern = true ↔ like text pattern.
Proof.
  revert text. induction pattern as [|c pattern IH]; intros text; simpl.
  { destruct text; split; intros H; try done; [constructor|inversion H]. }
  destruct (Ascii.eqb_spec c percent) as [->|Hc].
  - assert (∀ t, (fix suffixes (t : chars) : bool :=
        matchLikeRec t pattern || match t with [] => false | _ :: t => suffixes t end) t = true ↔
        ∃ a b, t = a ++ b ∧ like b pattern) as Hsuf.
    { induction t as [|d t IHt].
      - rewrite orb_false_r, IH. split; [by exists [], []|].
        intros (a & b & Hab & Hl). symmetry in Hab. by apply app_eq_nil in Hab as [-> ->].
      - rewrite orb_true_iff, IH, IHt. split.
        + intros [Hl|(a & b & -> & Hl)]; [by exists [], (d :: t)|by exists (d :: a), b].
        + intros ([|a0 a] & b & Hab & Hl); simpl in Hab; [left; by subst|].
          injection Hab as -> ->. right. by exists a, b. }
    assert (like text (percent :: pattern) ↔ ∃ a b, text = a ++ b ∧ like b pattern) as Hl.
    { split; [inversion 1; subst; try done; by eauto|]. intros (a & b & -> & Hl). by constructor. }
    rewrite Hl. destruct pattern as [|p pattern]; [|apply Hsuf].
    split; [|done]. intros _. exists text, []. rewrite app_nil_r. by split; [|constructor].
  - destruct text as [|d text].
    { split; [done|]. inversion 1; subst; try done. }
    destruct (Ascii.eqb_spec c underscore) as [->|Hu]; simpl.
    + rewrite IH. split; [by constructor|]. inversion 1; subst; done.
    + destruct (Ascii.eqb_spec c d) as [->|Hd]; simpl.
      * rewrite IH. split; [by constructor|]. inversion 1; subst; done.
      * split; [done|]. inversion 1; subst; done.
Qed.

Lemma isWildcardFree_like literal text pattern :
  isWildcardFree literal = true →
  like text (literal ++ pattern) ↔ ∃ rest, text = literal ++ rest ∧ like rest pattern.
Proof.
  revert text. induction literal as [|c literal IH]; intros text; simpl.
  { intros _. split; [by eauto|]. by intros (rest & -> & H). }
  intros H. bool_facts. destruct (Ascii.eqb_spec c percent); [done|].
  destruct (Ascii.eqb_spec c underscore); [done|]. split.
  - inversion 1 as [| | |c' text' pattern' ? ? Hl]; subst; try done.
    apply IH in Hl as (rest & -> & Hr); [|done]. by exists rest.
  - intros (rest & -> & Hr). constructor; [done..|]. apply IH; [done|]. by exists rest.
Qed.

Lemma like_percent_only text : like text [percent].
Proof. rewrite <- (app_nil_r text). repeat constructor. Qed.

Lemma likePrefixLiteral_shape pattern literal :
  likePrefixLiteral pattern = Some literal →
  ∃ l, literal = implode l ∧ explode pattern = l ++ [percent] ∧ isWildcardFree l = true ∧ l ≠ [].
Proof.
  unfold likePrefixLiteral. destruct (unsnoc (explode pattern)) as [[l c]|] eqn:E; [|done].
  apply unsnoc_Some in E. destruct (Ascii.eqb_spec c percent) as [->|]; [|done]. simpl.
  case_bool; [done|]. intros [= <-]. bool_facts. exists l. split_and!; try done. by intros ->.
Qed.

Lemma likeContainsLiteral_shape pattern literal :
  likeContainsLiteral pattern = Some literal →
  ∃ l, literal = implode l ∧ explode pattern = percent :: l ++ [percent] ∧
    isWildcardFree l = true ∧ l ≠ [].
Proof.
  unfold likeContainsLiteral. destruct (explode pattern) as [|c rest]; [done|].
  case_bool; [done|]. destruct (Ascii.eqb_spec c percent) as [->|]; [|done]. simpl.
  destruct (unsnoc rest) as [[l d]|] eqn:E; [|done]. apply unsnoc_Some in E.
  destruct (Ascii.eqb_spec d percent) as [->|]; [|done]. simpl.
  case_bool; [done|]. intros [= <-]. bool_facts. exists l. split_and!; try done; [by subst|].
  by intros ->.
Qed.

Lemma windows3_app a b w : w ∈ windows3 b → w ∈ windows3 (a ++ b).
Proof.
  induction a as [|c a IH]; simpl; [done|]. intros Hw. specialize (IH Hw).
  destruct (a ++ b) as [|d [|e r]]; simpl in *; [by apply elem_of_nil in IH..|]. by right.
Qed.

Lemma windows3_prefix l r w : w ∈ windows3 l → w ∈ windows3 (l ++ r).
Proof.
  induction l as [|a l IH]; simpl; [by intros ?%elem_of_nil|].
  destruct l as [|b [|c l]]; simpl in *; [by intros ?%elem_of_nil..|].
  rewrite !elem_of_cons. intros [->|Hw]; [by left|right]. by apply IH.
Qed.

Lemma explode_implode l : explode (implode l) = l.
Proof. apply String.list_ascii_of_string_of_list_ascii. Qed.

Lemma length_windows3_pos (t : chars) w : w ∈ windows3 t → 3 ≤ length t.
Proof. destruct t as [|a [|b [|c t]]]; simpl; [by intros ?%elem_of_nil..|lia]. Qed.

(** LIKE matching is the declarative relation, and the planner's index
    probes are sound.  [matchLikePattern] decides [like]; a pattern with a
    prefix literal matches exactly the texts that start with it; a pattern with
    a contained literal matches exactly the texts that contain it; and when
    that literal has at least three characters, every trigram of the literal
    is a trigram of a matching text, so intersecting the trigram postings
    misses no row. *)
Theorem like_pattern_correct :
  (∀ text pattern, matchLikePattern text pattern = true ↔ like (explode text) (explode pattern)) ∧
  (∀ pattern literal text, likePrefixLiteral pattern = Some literal →
     matchLikePattern text pattern = true ↔ ∃ rest, explode text = explode literal ++ rest) ∧
  (∀ pattern literal text, likeContainsLiteral pattern = Some literal →
     matchLikePattern text pattern = true ↔ ∃ a b, explode text = a ++ explode literal ++ b) ∧
  (∀ pattern literal text gram, likeContainsLiteral pattern = Some literal →
     3 ≤ length (explode literal) → matchLikePattern text pattern = true →
     gram ∈ extractTrigrams literal → gram ∈ extractTrigrams text).
Proof.
  assert (∀ pattern literal text, likeContainsLiteral pattern = Some literal →
     matchLikePattern text pattern = true ↔ ∃ a b, explode text = a ++ explode literal ++ b) as Hcont.
  { intros pattern literal text (l & -> & Hp & Hw & _)%likeContainsLiteral_shape.
    unfold matchLikePattern. rewrite matchLikeRec_like, Hp, explode_implode. split.
    - inversion 1 as [|skipped text' pattern' Hl| |]; subst; try done.
      apply isWildcardFree_like in Hl as (rest & -> & _); [|done]. eauto.
    - intros (a & b & ->). constructor. apply isWildcardFree_like; [done|].
      exists b. split; [done|apply like_percent_only]. }
  split_and!; [|  |exact Hcont|].
  - intros. apply matchLikeRec_like.
  - intros pattern literal text (l & -> & Hp & Hw & _)%likePrefixLiteral_shape.
    unfold matchLikePattern. rewrite matchLikeRec_like, Hp, explode_implode, isWildcardFree_like by done.
    split; [naive_solver|]. intros (rest & ->). exists rest. split; [done|apply like_percent_only].
  - intros pattern literal text gram Hlit Hlen Hm Hg.
    apply (Hcont _ _ _ Hlit) in Hm as (a & b & Ht). unfold extractTrigrams in *.
    assert (Nat.ltb (length (explode literal)) 3 = false) as E by (apply Nat.ltb_ge; done).
    rewrite E in Hg. apply list_elem_of_fmap in Hg as (w & -> & Hw).
    assert (w ∈ windows3 (explode text)) as Hw' by (rewrite Ht; by apply windows3_app, windows3_prefix).
    apply length_windows3_pos in Hw' as Hl.
    assert (Nat.ltb (length (explode text)) 3 = false) as -> by (apply Nat.ltb_ge; done).
    by apply list_elem_of_fmap_2.
Qed.

Lemma like_pattern_correct_witness :
  matchLikePattern "hello" "%ell%" = true ∧ "ell" ∈ extractTrigrams "hello".
Proof.
  destruct like_pattern_correct as (_ & _ & _ & H). split; [reflexivity|].
  apply (H "%ell%" "ell"); [reflexivity|simpl; lia|reflexivity|by left].
Defined.
