(* ===== verification/TransactionManager.v ===== *)
(** * The transaction manager

    [src/transaction/transaction_manager.cpp]: transaction states, commit
    sequence numbers, snapshot visibility, and the serializable snapshot
    isolation check over row-level read and write sets and insert-phantom
    predicates.

    [TransactionId] and [CommitSeq] are 64-bit counters that only grow by one
    per transaction; they are [nat] here.  An [std::unordered_set<ConflictKey>]
    is a [gset string].  Operations that can throw after changing the state
    return the outcome and the state. *)

From S2P Require Import Prelude Value StringPattern.
From stdpp Require Import pretty.
Local Open Scope nat_scope.

Abbreviation TransactionId := nat.
Abbreviation CommitSeq := nat.

Definition kSystemTransactionId : TransactionId := 0.

Inductive TransactionState : Type := Active | Committed | RolledBack.

#[export] Instance TransactionState_eq_dec : EqDecision TransactionState.
Proof. solve_decision. Defined.

Record Transaction : Type := mkTransaction {
  txn_id : TransactionId;
  txn_state : TransactionState;
  txn_commitSeq : option CommitSeq;
  txn_snapshot : CommitSeq
}.

Record ReadSnapshot : Type := mkReadSnapshot {
  snap_self : TransactionId;
  snap_maxCommitSeq : CommitSeq
}.

Abbreviation ConflictKey := string.

Record SsiPredicate : Type := mkSsiPredicate {
  sp_relation : string;
  sp_column : string;
  sp_op : option ComparisonOperator;
  sp_value : option Value;
  sp_likePattern : option string
}.

Record SsiInsert : Type := mkSsiInsert {
  si_relation : string;
  si_columns : list (string * Value)
}.

Record TransactionManager : Type := mkTransactionManager {
  tm_nextId : TransactionId;
  tm_nextCommitSeq : CommitSeq;
  tm_transactions : gmap TransactionId Transaction;
  tm_activeReads : gmap TransactionId (gset ConflictKey);
  tm_activeWrites : gmap TransactionId (gset ConflictKey);
  tm_activePredicateReads : gmap TransactionId (list SsiPredicate);
  tm_activeInserts : gmap TransactionId (list SsiInsert);
  tm_committedWriteSets : gmap CommitSeq (gset ConflictKey);
  tm_committedPredicateReads : gmap CommitSeq (list SsiPredicate);
  tm_committedInserts : gmap CommitSeq (list SsiInsert)
}.

Definition tm_empty : TransactionManager := mkTransactionManager 1 0 ∅ ∅ ∅ ∅ ∅ ∅ ∅ ∅.

(** ** Conflict tests *)

(** Iterate over the smaller set, look up in the larger. *)
Definition intersects (left right : gset ConflictKey) : bool :=
  if bool_decide (left = ∅) || bool_decide (right = ∅) then false
  else
    let '(smaller, larger) := if Nat.leb (size left) (size right) then (left, right) else (right, left) in
    existsb (λ key, bool_decide (key ∈ larger)) (elements smaller).

Definition compareCell (left : Value) (op : ComparisonOperator) (right : Value) : bool :=
  match op with
  | Equal => Value_eqb left right
  | Greater => Value_ltb right left
  | Less => Value_ltb left right
  end.

(** The loop over the inserted row's columns: the first column with the
    predicate's name decides.  A cell of a stored row image is a null or a typed
    scalar; on a parameter or composite cell, where the source's [type()]
    throws, the LIKE test is false. *)
Fixpoint columns_match (columns : list (string * Value)) (predicate : SsiPredicate) : bool :=
  match columns with
  | [] => false
  | (name, value) :: columns =>
      if negb (String.eqb name (sp_column predicate)) then columns_match columns predicate
      else
        match sp_likePattern predicate with
        | Some pattern =>
            match value with
            | VString s => matchLikePattern s pattern
            | _ => false
            end
        | None =>
            match sp_op predicate, sp_value predicate with
            | Some op, Some v => compareCell value op v
            | _, _ => true
            end
        end
  end.

Definition insertMatchesPredicate (insert : SsiInsert) (predicate : SsiPredicate) : bool :=
  if negb (String.eqb (si_relation insert) (sp_relation predicate)) then false
  else if String.eqb (sp_column predicate) "" then true
  else columns_match (si_columns insert) predicate.

Definition predicateConflictsWithInserts (predicates : list SsiPredicate) (inserts : list SsiInsert)
  : bool :=
  existsb (λ predicate, existsb (λ insert, insertMatchesPredicate insert predicate) inserts) predicates.

(** [relation + '\0' + std::to_string(rowId)]. *)
Definition conflictKey (relation : string) (rowId : RowId) : ConflictKey :=
  relation +:+ String Ascii.zero (pretty rowId).

(** ** Transactions *)

(** [map.emplace(k, v)]: an existing entry stays. *)
Definition emplace {V} (k : nat) (v : V) (m : gmap nat V) : gmap nat V :=
  match m !! k with Some _ => m | None => <[k := v]> m end.

Definition tm_find (tm : TransactionManager) (id : TransactionId) : option Transaction :=
  tm_transactions tm !! id.

Definition begin (tm : TransactionManager) : Transaction * TransactionManager :=
  let t := mkTransaction (tm_nextId tm) Active None (tm_nextCommitSeq tm) in
  let id := txn_id t in
  (t, mkTransactionManager (S (tm_nextId tm)) (tm_nextCommitSeq tm)
        (emplace id t (tm_transactions tm))
        (emplace id ∅ (tm_activeReads tm)) (emplace id ∅ (tm_activeWrites tm))
        (emplace id [] (tm_activePredicateReads tm)) (emplace id [] (tm_activeInserts tm))
        (tm_committedWriteSets tm) (tm_committedPredicateReads tm) (tm_committedInserts tm)).

(** A committed set later than the snapshot that satisfies [test]. *)
Definition later_conflict {V} (snapshot : CommitSeq) (test : V → bool) (m : gmap CommitSeq V) : bool :=
  existsb (λ '(seq, v), negb (Nat.leb seq snapshot) && test v) (map_to_list m).

Definition isSerializable (tm : TransactionManager) (id : TransactionId) : bool :=
  match tm_find tm id with
  | None => false
  | Some t =>
      if negb (bool_decide (txn_state t = Active)) then false
      else
        let reads := default ∅ (tm_activeReads tm !! id) in
        let writes := default ∅ (tm_activeWrites tm !! id) in
        let predicates := default [] (tm_activePredicateReads tm !! id) in
        let inserts := default [] (tm_activeInserts tm !! id) in
        negb (later_conflict (txn_snapshot t)
                (λ committed, intersects reads committed || intersects writes committed)
                (tm_committedWriteSets tm))
        && negb (later_conflict (txn_snapshot t)
                   (λ committed, predicateConflictsWithInserts predicates committed)
                   (tm_committedInserts tm))
        && negb (later_conflict (txn_snapshot t)
                   (λ committed, predicateConflictsWithInserts committed inserts)
                   (tm_committedPredicateReads tm))
  end.

(** The smallest snapshot among the active transactions that own one of the
    four kinds of sets, and [nextCommitSeq_] when there is none. *)
Definition minSnapshot (tm : TransactionManager) : CommitSeq :=
  let consider acc id :=
    match tm_find tm id with
    | Some t => if bool_decide (txn_state t = Active) then acc `min` txn_snapshot t else acc
    | None => acc
    end in
  let ids := (map_to_list (tm_activeReads tm)).*1 ++ (map_to_list (tm_activePredicateReads tm)).*1
             ++ (map_to_list (tm_activeInserts tm)).*1 ++ (map_to_list (tm_activeWrites tm)).*1 in
  foldl consider (tm_nextCommitSeq tm) ids.

Definition pruneMap {V} (bound : CommitSeq) (m : gmap CommitSeq V) : gmap CommitSeq V :=
  filter (λ e, bound < e.1) m.

Definition with_committed (w : gmap CommitSeq (gset ConflictKey)) (p : gmap CommitSeq (list SsiPredicate))
    (i : gmap CommitSeq (list SsiInsert)) (tm : TransactionManager) : TransactionManager :=
  mkTransactionManager (tm_nextId tm) (tm_nextCommitSeq tm) (tm_transactions tm) (tm_activeReads tm)
    (tm_activeWrites tm) (tm_activePredicateReads tm) (tm_activeInserts tm) w p i.

Definition pruneCommittedConflictSets (tm : TransactionManager) : TransactionManager :=
  if bool_decide (tm_activeReads tm = ∅) && bool_decide (tm_activePredicateReads tm = ∅)
     && bool_decide (tm_activeInserts tm = ∅) && bool_decide (tm_activeWrites tm = ∅)
  then with_committed ∅ ∅ ∅ tm
  else
    let bound := minSnapshot tm in
    with_committed (pruneMap bound (tm_committedWriteSets tm))
      (pruneMap bound (tm_committedPredicateReads tm))
      (pruneMap bound (tm_committedInserts tm)) tm.

(** A transaction in its final state, its active sets gone. *)
Definition close_txn (t : Transaction) (nextSeq : CommitSeq) (tm : TransactionManager)
  : TransactionManager :=
  let id := txn_id t in
  mkTransactionManager (tm_nextId tm) nextSeq (<[id := t]> (tm_transactions tm))
    (delete id (tm_activeReads tm)) (delete id (tm_activeWrites tm))
    (delete id (tm_activePredicateReads tm)) (delete id (tm_activeInserts tm))
    (tm_committedWriteSets tm) (tm_committedPredicateReads tm) (tm_committedInserts tm).

Definition active_txn (tm : TransactionManager) (id : TransactionId) : option Transaction :=
  match tm_find tm id with
  | Some t => if bool_decide (txn_state t = Active) then Some t else None
  | None => None
  end.

Definition tm_rollback (id : TransactionId) (tm : TransactionManager) : result unit * TransactionManager :=
  match active_txn tm id with
  | None => (Throw (runtime_error "cannot roll back inactive transaction"), tm)
  | Some t =>
      (Ok tt, pruneCommittedConflictSets
                (close_txn (mkTransaction id RolledBack (txn_commitSeq t) (txn_snapshot t))
                   (tm_nextCommitSeq tm) tm))
  end.

(** [if (it != end && !it->second.empty()) committed.emplace(seq, it->second)]. *)
Definition retain {V} (empty : V → bool) (seq : CommitSeq) (active : option V) (m : gmap CommitSeq V)
  : gmap CommitSeq V :=
  match active with
  | Some v => if empty v then m else emplace seq v m
  | None => m
  end.

Definition is_empty_set (s : gset ConflictKey) : bool := bool_decide (s = ∅).
Definition is_empty_list {A} (l : list A) : bool := match l with [] => true | _ => false end.

Definition tm_commit (id : TransactionId) (tm : TransactionManager) : result unit * TransactionManager :=
  match active_txn tm id with
  | None => (Throw (runtime_error "cannot commit inactive transaction"), tm)
  | Some t =>
      if negb (isSerializable tm id) then
        let '(_, tm) := tm_rollback id tm in
        (Throw (SerializationFailure "serialization failure: concurrent read/write conflict"), tm)
      else
        let seq := S (tm_nextCommitSeq tm) in
        let tm1 := with_committed
                     (retain is_empty_set seq (tm_activeWrites tm !! id) (tm_committedWriteSets tm))
                     (retain is_empty_list seq (tm_activePredicateReads tm !! id)
                        (tm_committedPredicateReads tm))
                     (retain is_empty_list seq (tm_activeInserts tm !! id) (tm_committedInserts tm)) tm in
        (Ok tt, pruneCommittedConflictSets
                  (close_txn (mkTransaction id Committed (Some seq) (txn_snapshot t)) seq tm1))
  end.

Definition beginCommitted (tm : TransactionManager) : result TransactionId * TransactionManager :=
  let '(t, tm) := begin tm in
  let '(r, tm) := tm_commit (txn_id t) tm in
  (_ ← r; Ok (txn_id t), tm).

(** ** Visibility *)

Definition currentSnapshot (self : TransactionId) (tm : TransactionManager) : ReadSnapshot :=
  mkReadSnapshot self (tm_nextCommitSeq tm).

Definition isCreatorVisible (tm : TransactionManager) (creator : TransactionId) (snapshot : ReadSnapshot)
  : bool :=
  if Nat.eqb creator kSystemTransactionId then true
  else if Nat.eqb creator (snap_self snapshot) then true
  else
    match tm_find tm creator with
    | Some t =>
        match txn_state t, txn_commitSeq t with
        | Committed, Some seq => Nat.leb seq (snap_maxCommitSeq snapshot)
        | _, _ => false
        end
    | None => false
    end.

Definition isVisible (tm : TransactionManager) (createdBy : TransactionId)
    (deletedBy : option TransactionId) (snapshot : ReadSnapshot) : bool :=
  if negb (isCreatorVisible tm createdBy snapshot) then false
  else
    match deletedBy with
    | Some d => negb (isCreatorVisible tm d snapshot)
    | None => true
    end.

(** ** Recording reads and writes *)

(** The commit sequence of a committed transaction. *)
Definition committed_seq (tm : TransactionManager) (id : TransactionId) : option CommitSeq :=
  match tm_find tm id with
  | Some t => if bool_decide (txn_state t = Committed) then txn_commitSeq t else None
  | None => None
  end.

Definition recordRead (id : TransactionId) (relation : string) (rowId : RowId) (tm : TransactionManager)
  : TransactionManager :=
  if Nat.eqb id kSystemTransactionId then tm
  else
    match tm_activeReads tm !! id with
    | None => tm
    | Some keys =>
        mkTransactionManager (tm_nextId tm) (tm_nextCommitSeq tm) (tm_transactions tm)
          (<[id := {[conflictKey relation rowId]} ∪ keys]> (tm_activeReads tm))
          (tm_activeWrites tm) (tm_activePredicateReads tm) (tm_activeInserts tm)
          (tm_committedWriteSets tm) (tm_committedPredicateReads tm) (tm_committedInserts tm)
    end.

Definition recordWrite (id : TransactionId) (relation : string) (rowId : RowId) (tm : TransactionManager)
  : TransactionManager :=
  if Nat.eqb id kSystemTransactionId then tm
  else
    let key := conflictKey relation rowId in
    match tm_activeWrites tm !! id with
    | Some keys =>
        mkTransactionManager (tm_nextId tm) (tm_nextCommitSeq tm) (tm_transactions tm)
          (tm_activeReads tm) (<[id := {[key]} ∪ keys]> (tm_activeWrites tm))
          (tm_activePredicateReads tm) (tm_activeInserts tm)
          (tm_committedWriteSets tm) (tm_committedPredicateReads tm) (tm_committedInserts tm)
    | None =>
        match committed_seq tm id with
        | None => tm
        | Some seq =>
            with_committed
              (<[seq := {[key]} ∪ default ∅ (tm_committedWriteSets tm !! seq)]> (tm_committedWriteSets tm))
              (tm_committedPredicateReads tm) (tm_committedInserts tm) tm
        end
    end.

Definition recordPredicateRead (id : TransactionId) (predicate : SsiPredicate) (tm : TransactionManager)
  : TransactionManager :=
  if Nat.eqb id kSystemTransactionId then tm
  else
    match tm_activePredicateReads tm !! id with
    | None => tm
    | Some ps =>
        mkTransactionManager (tm_nextId tm) (tm_nextCommitSeq tm) (tm_transactions tm)
          (tm_activeReads tm) (tm_activeWrites tm)
          (<[id := ps ++ [predicate]]> (tm_activePredicateReads tm)) (tm_activeInserts tm)
          (tm_committedWriteSets tm) (tm_committedPredicateReads tm) (tm_committedInserts tm)
    end.

Definition recordRelationRead (id : TransactionId) (relation : string) (tm : TransactionManager)
  : TransactionManager :=
  recordPredicateRead id (mkSsiPredicate relation "" None None None) tm.

Definition recordInsert (id : TransactionId) (insert : SsiInsert) (tm : TransactionManager)
  : TransactionManager :=
  if Nat.eqb id kSystemTransactionId then tm
  else
    match tm_activeInserts tm !! id with
    | Some ins =>
        mkTransactionManager (tm_nextId tm) (tm_nextCommitSeq tm) (tm_transactions tm)
          (tm_activeReads tm) (tm_activeWrites tm) (tm_activePredicateReads tm)
          (<[id := ins ++ [insert]]> (tm_activeInserts tm))
          (tm_committedWriteSets tm) (tm_committedPredicateReads tm) (tm_committedInserts tm)
    | None =>
        match committed_seq tm id with
        | None => tm
        | Some seq =>
            with_committed (tm_committedWriteSets tm) (tm_committedPredicateReads tm)
              (<[seq := default [] (tm_committedInserts tm !! seq) ++ [insert]]>
                 (tm_committedInserts tm)) tm
        end
    end.
