(* ===== verification/Serializability.v ===== *)
(** * Serializable snapshot isolation

    What the transaction manager of [TransactionManager.v] guarantees.  Every
    operation is a step of a transition system; a ghost history records, for
    each commit sequence number, the sets of the transaction that committed
    with it and is never pruned.  Two facts follow for every reachable state:
    the commit decision, taken on the pruned sets, is the decision against the
    whole history; and the history is free of conflicts between concurrent
    committed transactions, so the commit order is a serial order. *)

From S2P Require Import Prelude Value StringPattern TransactionManager.
From stdpp Require Import pretty.
Local Open Scope nat_scope.

(** ** Conflict tests *)

Lemma intersects_spec (a b : gset ConflictKey) : intersects a b = false ↔ a ∩ b = ∅.
Proof.
  unfold intersects. case_bool_decide as Ha; simpl; [set_solver|].
  case_bool_decide as Hb; simpl; [set_solver|].
  assert (∀ x y : gset ConflictKey,
    existsb (λ key, bool_decide (key ∈ y)) (elements x) = false ↔ x ∩ y = ∅) as H.
  { intros x y. rewrite <- not_true_iff_false, existsb_exists. split.
    - intros Hn. apply set_eq. intros k. split; [|set_solver]. intros [Hx Hy]%elem_of_intersection.
      exfalso. apply Hn. exists k. split; [by apply list_elem_of_In, elem_of_elements|].
      by apply bool_decide_eq_true.
    - intros Hxy (k & Hk & Hy%bool_decide_eq_true). apply list_elem_of_In, elem_of_elements in Hk.
      set_solver. }
  destruct (Nat.leb _ _); rewrite H; [done|]. by rewrite (comm_L (∩)).
Qed.

Lemma intersects_empty_r a : intersects a ∅ = false.
Proof. apply intersects_spec. set_solver. Qed.

Lemma predConf_nil_r ps : predicateConflictsWithInserts ps [] = false.
Proof. unfold predicateConflictsWithInserts. by induction ps. Qed.

Lemma later_conflict_false {V} snapshot (test : V → bool) (m : gmap CommitSeq V) :
  later_conflict snapshot test m = false ↔
  ∀ seq v, m !! seq = Some v → snapshot < seq → test v = false.
Proof.
  unfold later_conflict. rewrite <- not_true_iff_false, existsb_exists. split.
  - intros Hn seq v Hm Hs. apply not_true_iff_false. intros Ht. apply Hn. exists (seq, v).
    split; [by apply list_elem_of_In, elem_of_map_to_list|].
    rewrite Ht, andb_true_r. apply negb_true_iff, Nat.leb_gt. done.
  - intros H ([seq v] & Hin & Ht). apply list_elem_of_In, elem_of_map_to_list in Hin.
    bool_facts. rewrite (H seq v) in *; done.
Qed.

Lemma later_conflict_default {V} snapshot (test : V → bool) (e : V) (m : gmap CommitSeq V) :
  test e = false →
  later_conflict snapshot test m = false ↔
  ∀ seq, snapshot < seq → test (default e (m !! seq)) = false.
Proof.
  intros He. rewrite later_conflict_false. split.
  - intros H seq Hs. destruct (m !! seq) eqn:E; simpl; eauto.
  - intros H seq v Hm Hs. specialize (H seq Hs). by rewrite Hm in H.
Qed.

(** ** The committed history *)

Record CommitRecord : Type := mkCommitRecord {
  cr_txn : TransactionId;
  cr_snapshot : CommitSeq;
  cr_reads : gset ConflictKey;
  cr_writes : gset ConflictKey;
  cr_predicates : list SsiPredicate;
  cr_inserts : list SsiInsert
}.

Abbreviation history := (gmap CommitSeq CommitRecord).

(** The sets of an active transaction, as they would be committed. *)
Definition active_record (tm : TransactionManager) (t : Transaction) : CommitRecord :=
  let id := txn_id t in
  mkCommitRecord id (txn_snapshot t) (default ∅ (tm_activeReads tm !! id))
    (default ∅ (tm_activeWrites tm !! id)) (default [] (tm_activePredicateReads tm !! id))
    (default [] (tm_activeInserts tm !! id)).

(** [later] read or overwrote something [earlier] wrote, or one inserted a row
    the other's predicate read covers. *)
Definition conflicts (later earlier : CommitRecord) : bool :=
  intersects (cr_reads later) (cr_writes earlier) || intersects (cr_writes later) (cr_writes earlier)
  || predicateConflictsWithInserts (cr_predicates later) (cr_inserts earlier)
  || predicateConflictsWithInserts (cr_predicates earlier) (cr_inserts later).

(** ** Operations as steps *)

Inductive tm_op : Type :=
| TBegin | TCommit (id : TransactionId) | TRollback (id : TransactionId) | TBeginCommitted
| TRead (id : TransactionId) (relation : string) (rowId : RowId)
| TWrite (id : TransactionId) (relation : string) (rowId : RowId)
| TPredicateRead (id : TransactionId) (predicate : SsiPredicate)
| TRelationRead (id : TransactionId) (relation : string)
| TInsert (id : TransactionId) (insert : SsiInsert).

Definition tm_apply (op : tm_op) (tm : TransactionManager) : TransactionManager :=
  match op with
  | TBegin => (begin tm).2
  | TCommit id => (tm_commit id tm).2
  | TRollback id => (tm_rollback id tm).2
  | TBeginCommitted => (beginCommitted tm).2
  | TRead id rel row => recordRead id rel row tm
  | TWrite id rel row => recordWrite id rel row tm
  | TPredicateRead id p => recordPredicateRead id p tm
  | TRelationRead id rel => recordRelationRead id rel tm
  | TInsert id ins => recordInsert id ins tm
  end.

(** A successful commit adds its record; a write or insert recorded for an
    already committed transaction (autocommit) is added to its record. *)
Definition hist_commit (id : TransactionId) (tm : TransactionManager) (h : history) : history :=
  match active_txn tm id with
  | Some t => if isSerializable tm id then <[S (tm_nextCommitSeq tm) := active_record tm t]> h else h
  | None => h
  end.

Definition add_write (key : ConflictKey) (r : CommitRecord) : CommitRecord :=
  mkCommitRecord (cr_txn r) (cr_snapshot r) (cr_reads r) ({[key]} ∪ cr_writes r) (cr_predicates r)
    (cr_inserts r).

Definition add_insert (ins : SsiInsert) (r : CommitRecord) : CommitRecord :=
  mkCommitRecord (cr_txn r) (cr_snapshot r) (cr_reads r) (cr_writes r) (cr_predicates r)
    (cr_inserts r ++ [ins]).

Definition hist_late {V} (active : gmap TransactionId V) (id : TransactionId)
    (f : CommitRecord → CommitRecord) (tm : TransactionManager) (h : history) : history :=
  if Nat.eqb id kSystemTransactionId then h
  else
    match active !! id, committed_seq tm id with
    | None, Some seq => alter f seq h
    | _, _ => h
    end.

Definition hist_apply (op : tm_op) (tm : TransactionManager) (h : history) : history :=
  match op with
  | TCommit id => hist_commit id tm h
  | TBeginCommitted => let '(t, tm) := begin tm in hist_commit (txn_id t) tm h
  | TWrite id rel row => hist_late (tm_activeWrites tm) id (add_write (conflictKey rel row)) tm h
  | TInsert id ins => hist_late (tm_activeInserts tm) id (add_insert ins) tm h
  | _ => h
  end.

(** Late recording happens inside the autocommit statement that began the
    transaction: no other transaction has committed since, and the transaction
    committed right after its snapshot. *)
Definition late_ok (tm : TransactionManager) (id : TransactionId) : Prop :=
  ∀ t seq, tm_find tm id = Some t → committed_seq tm id = Some seq →
    seq = tm_nextCommitSeq tm ∧ seq = S (txn_snapshot t).

Definition legal (op : tm_op) (tm : TransactionManager) : Prop :=
  match op with
  | TWrite id _ _ | TInsert id _ => late_ok tm id
  | _ => True
  end.

Inductive reach : TransactionManager → history → Prop :=
| reach_init : reach tm_empty ∅
| reach_step tm h op : reach tm h → legal op tm → reach (tm_apply op tm) (hist_apply op tm h).

(** ** Invariant *)

Definition is_active (tm : TransactionManager) (id : TransactionId) : Prop :=
  ∃ t, tm_transactions tm !! id = Some t ∧ txn_state t = Active.

(** The retained sets agree with the history at [seq]. *)
Definition sets_at (tm : TransactionManager) (h : history) (seq : CommitSeq) : Prop :=
  default ∅ (tm_committedWriteSets tm !! seq) = default ∅ (cr_writes <$> h !! seq) ∧
  default [] (tm_committedPredicateReads tm !! seq) = default [] (cr_predicates <$> h !! seq) ∧
  default [] (tm_committedInserts tm !! seq) = default [] (cr_inserts <$> h !! seq).

Record tm_inv (tm : TransactionManager) (h : history) : Prop := {
  ti_next : 0 < tm_nextId tm;
  ti_txn id t : tm_transactions tm !! id = Some t →
    txn_id t = id ∧ 0 < id < tm_nextId tm ∧ txn_snapshot t ≤ tm_nextCommitSeq tm;
  ti_committed id t seq : tm_transactions tm !! id = Some t → txn_state t = Committed →
    txn_commitSeq t = Some seq →
    seq ≤ tm_nextCommitSeq tm ∧
    ∃ r, h !! seq = Some r ∧ cr_txn r = id ∧ cr_snapshot r = txn_snapshot t;
  ti_reads id : is_active tm id ↔ is_Some (tm_activeReads tm !! id);
  ti_writes id : is_active tm id ↔ is_Some (tm_activeWrites tm !! id);
  ti_preds id : is_active tm id ↔ is_Some (tm_activePredicateReads tm !! id);
  ti_inserts id : is_active tm id ↔ is_Some (tm_activeInserts tm !! id);
  ti_hist seq r : h !! seq = Some r → seq ≤ tm_nextCommitSeq tm ∧ cr_snapshot r < seq;
  ti_keys seq : tm_nextCommitSeq tm < seq →
    tm_committedWriteSets tm !! seq = None ∧ tm_committedPredicateReads tm !! seq = None ∧
    tm_committedInserts tm !! seq = None;
  ti_sets id t seq : tm_transactions tm !! id = Some t → txn_state t = Active →
    txn_snapshot t < seq → sets_at tm h seq;
  ti_serial s1 s2 r1 r2 : h !! s1 = Some r1 → h !! s2 = Some r2 → cr_snapshot r1 < s2 < s1 →
    conflicts r1 r2 = false
}.

Lemma tm_inv_empty : tm_inv tm_empty ∅.
Proof.
  assert (∀ id, ¬ is_active tm_empty id) as Hn.
  { intros id (t & Ht & _). simpl in Ht. by rewrite lookup_empty in Ht. }
  split; simpl; intros *; rewrite ?lookup_empty; try done; try lia.
  all: split; [intros H; by apply Hn in H|by intros []].
Qed.

(** ** The commit decision *)

Lemma isSerializable_history tm h id t :
  tm_inv tm h → active_txn tm id = Some t →
  isSerializable tm id = true ↔
  ∀ seq r, h !! seq = Some r → txn_snapshot t < seq → conflicts (active_record tm t) r = false.
Proof.
  intros Hinv Ha. unfold active_txn in Ha. destruct (tm_find tm id) as [t'|] eqn:Hf; [|done].
  case_bool_decide as Hact; [|done]. injection Ha as ->.
  unfold isSerializable. rewrite Hf, bool_decide_true by done. simpl negb.
  destruct (ti_txn _ _ Hinv id t Hf) as (Hid & _ & _).
  rewrite !andb_true_iff, !negb_true_iff.
  rewrite !(later_conflict_default _ _ ∅), !(later_conflict_default _ _ [])
    by (by rewrite ?intersects_empty_r, ?predConf_nil_r).
  unfold conflicts, active_record. simpl. rewrite Hid.
  assert (∀ seq, txn_snapshot t < seq → sets_at tm h seq) as Hs
    by (intros seq; by apply (ti_sets _ _ Hinv id t)).
  split.
  - intros [[H1 H2] H3] seq r Hr Hlt. destruct (Hs seq Hlt) as (E1 & E2 & E3).
    rewrite Hr in E1, E2, E3. simpl in *. specialize (H1 seq Hlt). specialize (H2 seq Hlt).
    specialize (H3 seq Hlt). rewrite E1 in H1. rewrite E3 in H2. rewrite E2 in H3. by rewrite H1, H2, H3.
  - intros H.
    split_and!; intros seq Hlt; destruct (Hs seq Hlt) as (E1 & E2 & E3);
      destruct (h !! seq) as [r|] eqn:Hr; simpl in *; rewrite ?E1, ?E2, ?E3;
      rewrite ?intersects_empty_r, ?predConf_nil_r; try done;
      specialize (H seq r Hr Hlt); bool_facts; auto using orb_false_intro.
Qed.

(** ** Preservation *)

Lemma minSnapshot_le tm id t :
  tm_transactions tm !! id = Some t → txn_state t = Active → is_Some (tm_activeReads tm !! id) →
  minSnapshot tm ≤ txn_snapshot t.
Proof.
  intros Ht Hact [v Hv]. unfold minSnapshot. set (consider := λ acc id, _).
  assert (∀ ids acc, foldl consider acc ids ≤ acc) as Hmono.
  { induction ids as [|i ids IH]; intros acc; simpl; [done|]. etrans; [apply IH|].
    unfold consider. destruct (tm_find tm i); [|done]. case_bool_decide; lia. }
  assert (∀ ids acc, id ∈ ids → foldl consider acc ids ≤ txn_snapshot t) as Hin.
  { induction ids as [|i ids IH]; intros acc; [by intros ?%elem_of_nil|]. simpl.
    rewrite elem_of_cons. intros [<-|Hi]; [|by apply IH]. etrans; [apply Hmono|].
    unfold consider, tm_find. rewrite Ht, bool_decide_true by done. lia. }
  apply Hin. apply elem_of_app. left. apply list_elem_of_fmap. exists (id, v).
  split; [done|]. by apply elem_of_map_to_list.
Qed.

Lemma pruneMap_lookup {V} bound (m : gmap CommitSeq V) seq :
  bound < seq → pruneMap bound m !! seq = m !! seq.
Proof.
  intros Hs. unfold pruneMap. destruct (m !! seq) eqn:E.
  - by apply map_lookup_filter_Some.
  - apply map_lookup_filter_None. by left.
Qed.

Lemma pruneMap_lookup_None {V} bound (m : gmap CommitSeq V) seq :
  m !! seq = None → pruneMap bound m !! seq = None.
Proof. intros Hs. apply map_lookup_filter_None. by left. Qed.

Lemma prune_inv tm h : tm_inv tm h → tm_inv (pruneCommittedConflictSets tm) h.
Proof.
  intros Hinv. pose proof Hinv as [H1 H2 H3 H4 H5 H6 H7 H8 H9 H10 H11].
  unfold pruneCommittedConflictSets. case_bool.
  - bool_facts. split; try done.
    intros id t seq Ht Ha. exfalso. assert (is_Some (tm_activeReads tm !! id)) as [v Hv].
    { apply H4. by exists t. }
    replace (tm_activeReads tm) with (∅ : gmap TransactionId (gset ConflictKey)) in Hv by done.
    by rewrite lookup_empty in Hv.
  - split; try done.
    + intros seq Hs. destruct (H9 seq Hs) as (E1 & E2 & E3). simpl.
      by rewrite !pruneMap_lookup_None.
    + intros id t seq Ht Ha Hs.
      assert (minSnapshot tm < seq) as Hm.
      { eapply Nat.le_lt_trans; [apply (minSnapshot_le tm id t); try done|done].
        apply H4. by exists t. }
      unfold sets_at. simpl. rewrite !pruneMap_lookup by done. by apply (H10 id t).
Qed.

Lemma emplace_fresh {V} k (v : V) m : m !! k = None → emplace k v m = <[k := v]> m.
Proof. intros H. unfold emplace. by rewrite H. Qed.

Lemma lookup_insert_active {V} (P : nat → Prop) (m : gmap nat V) k v :
  (∀ id, P id ↔ is_Some (m !! id)) → ∀ id, (id = k ∨ P id) ↔ is_Some (<[k := v]> m !! id).
Proof.
  intros H id. rewrite H. destruct (decide (id = k)) as [->|].
  - rewrite lookup_insert_eq. naive_solver.
  - rewrite lookup_insert_ne by done. naive_solver.
Qed.

Lemma lookup_delete_active {V} (P : nat → Prop) (m : gmap nat V) k :
  (∀ id, P id ↔ is_Some (m !! id)) → ∀ id, (id ≠ k ∧ P id) ↔ is_Some (delete k m !! id).
Proof.
  intros H id. rewrite H. destruct (decide (id = k)) as [->|].
  - rewrite lookup_delete_eq. split; [tauto|by intros []].
  - rewrite lookup_delete_ne by done. naive_solver.
Qed.

Lemma tm_fresh tm h :
  tm_inv tm h → let id := tm_nextId tm in
  tm_transactions tm !! id = None ∧ tm_activeReads tm !! id = None ∧
  tm_activeWrites tm !! id = None ∧ tm_activePredicateReads tm !! id = None ∧
  tm_activeInserts tm !! id = None.
Proof.
  intros Hinv id. assert (tm_transactions tm !! id = None) as Hn.
  { destruct (tm_transactions tm !! id) eqn:E; [|done].
    apply (ti_txn _ _ Hinv) in E as (_ & Hlt & _). unfold id in Hlt. lia. }
  assert (¬ is_active tm id) as Hna by (intros (t & Ht & _); congruence).
  split; [done|]. rewrite (ti_reads _ _ Hinv), <- eq_None_not_Some in Hna.
  assert (¬ is_active tm id) as Hna' by (intros (t & Ht & _); congruence).
  split_and!; [done|..]; apply eq_None_not_Some; intros Hs; apply Hna'.
  - by apply (ti_writes _ _ Hinv).
  - by apply (ti_preds _ _ Hinv).
  - by apply (ti_inserts _ _ Hinv).
Qed.

Lemma begin_inv tm h : tm_inv tm h → tm_inv (begin tm).2 h.
Proof.
  intros Hinv. destruct (tm_fresh tm h Hinv) as (F1 & F2 & F3 & F4 & F5).
  pose proof Hinv as [H1 H2 H3 H4 H5 H6 H7 H8 H9 H10 H11].
  unfold begin; simpl. rewrite !emplace_fresh by done.
  set (k := tm_nextId tm) in *. set (t0 := mkTransaction k Active None (tm_nextCommitSeq tm)).
  set (tm' := mkTransactionManager _ _ _ _ _ _ _ _ _ _).
  assert (∀ id, is_active tm' id ↔ id = k ∨ is_active tm id) as Hact.
  { intros id. unfold is_active; simpl. destruct (decide (id = k)) as [->|].
    - rewrite lookup_insert_eq. naive_solver.
    - rewrite lookup_insert_ne by done. naive_solver. }
  split; simpl; try done; try lia.
  - intros id t. rewrite lookup_insert_Some. intros [[<- <-]|[_ Ht]]; simpl; [lia|].
    destruct (H2 id t Ht) as (? & ? & ?). lia.
  - intros id t seq. rewrite lookup_insert_Some. intros [[<- <-]|[_ Ht]]; [done|eauto].
  - intros id. rewrite Hact. by apply lookup_insert_active.
  - intros id. rewrite Hact. by apply lookup_insert_active.
  - intros id. rewrite Hact. by apply lookup_insert_active.
  - intros id. rewrite Hact. by apply lookup_insert_active.
  - intros id t seq. rewrite lookup_insert_Some. intros [[<- <-]|[_ Ht]] Ha Hs; [|by eapply H10].
    simpl in Hs. unfold sets_at; simpl. destruct (H9 seq Hs) as (E1 & E2 & E3).
    rewrite E1, E2, E3. destruct (h !! seq) as [r|] eqn:Er; [|done].
    apply H8 in Er. lia.
Qed.

(** Ending transaction [id] with record [t'], the history and the retained sets
    changing to [h'] and those of [tm']. *)
Lemma close_inv tm h id t t' seq w p i h' :
  tm_inv tm h → tm_transactions tm !! id = Some t → txn_state t = Active →
  txn_id t' = id → txn_state t' ≠ Active → txn_snapshot t' = txn_snapshot t →
  tm_nextCommitSeq tm ≤ seq →
  (∀ s, txn_state t' = Committed → txn_commitSeq t' = Some s →
     s ≤ seq ∧ ∃ r, h' !! s = Some r ∧ cr_txn r = id ∧ cr_snapshot r = txn_snapshot t) →
  (∀ s r, h !! s = Some r → h' !! s = Some r) →
  (∀ s r, h' !! s = Some r → s ≤ seq ∧ cr_snapshot r < s) →
  (∀ s, seq < s → w !! s = None ∧ p !! s = None ∧ i !! s = None) →
  (∀ id' t s, id' ≠ id → tm_transactions tm !! id' = Some t → txn_state t = Active →
     txn_snapshot t < s → sets_at (with_committed w p i tm) h' s) →
  (∀ s1 s2 r1 r2, h' !! s1 = Some r1 → h' !! s2 = Some r2 → cr_snapshot r1 < s2 < s1 →
     conflicts r1 r2 = false) →
  tm_inv (close_txn t' seq (with_committed w p i tm)) h'.
Proof.
  intros [H1 H2 H3 H4 H5 H6 H7 H8 H9 H10 H11] Ht Ha Hid Hna Hsn Hseq Hc Hh Hb Hk Hs Hser.
  assert (∀ j, is_active (close_txn t' seq (with_committed w p i tm)) j ↔ j ≠ id ∧ is_active tm j)
    as Hact.
  { intros j. unfold is_active, close_txn; simpl. rewrite Hid. destruct (decide (j = id)) as [->|].
    - rewrite lookup_insert_eq. naive_solver.
    - rewrite lookup_insert_ne by done. naive_solver. }
  split; try done.
  - intros j u. unfold close_txn; simpl. rewrite Hid, lookup_insert_Some.
    intros [[<- <-]|[_ Hu]].
    + destruct (H2 id t Ht) as (? & ? & ?). rewrite Hsn. split_and!; [done|lia|lia|lia].
    + destruct (H2 j u Hu) as (? & ? & ?). split_and!; [done|lia|lia|lia].
  - intros j u s. unfold close_txn; simpl. rewrite Hid, lookup_insert_Some.
    intros [[<- <-]|[_ Hu]] Hu1 Hu2; [rewrite Hsn; by apply Hc|].
    destruct (H3 j u s Hu Hu1 Hu2) as (Hle & r & Hr & Hr1 & Hr2). split; [lia|].
    exists r. split_and!; auto.
  - intros j. rewrite Hact. unfold close_txn; simpl. rewrite Hid. by apply lookup_delete_active.
  - intros j. rewrite Hact. unfold close_txn; simpl. rewrite Hid. by apply lookup_delete_active.
  - intros j. rewrite Hact. unfold close_txn; simpl. rewrite Hid. by apply lookup_delete_active.
  - intros j. rewrite Hact. unfold close_txn; simpl. rewrite Hid. by apply lookup_delete_active.
  - intros j u s. unfold close_txn; simpl. rewrite Hid, lookup_insert_Some.
    intros [[<- <-]|[Hne Hu]] Hu1 Hu2; [done|]. eapply Hs; eauto.
Qed.

Lemma active_txn_Some tm id t :
  active_txn tm id = Some t ↔ tm_transactions tm !! id = Some t ∧ txn_state t = Active.
Proof.
  unfold active_txn, tm_find. destruct (tm_transactions tm !! id) as [u|]; [|naive_solver].
  case_bool_decide; naive_solver.
Qed.

Lemma rollback_inv tm h id : tm_inv tm h → tm_inv (tm_rollback id tm).2 h.
Proof.
  intros Hinv. pose proof Hinv as [H1 H2 H3 H4 H5 H6 H7 H8 H9 H10 H11].
  unfold tm_rollback. destruct (active_txn tm id) as [t|] eqn:E; [|done].
  apply active_txn_Some in E as [Ht Ha]. simpl. apply prune_inv.
  replace tm with (with_committed (tm_committedWriteSets tm) (tm_committedPredicateReads tm)
    (tm_committedInserts tm) tm) at 2 by by destruct tm.
  eapply (close_inv tm h id t); eauto; simpl; try done.
Qed.

Lemma retain_lookup_ne {V} (empty : V → bool) seq active (m : gmap CommitSeq V) s :
  s ≠ seq → retain empty seq active m !! s = m !! s.
Proof.
  intros Hne. unfold retain. destruct active as [v|]; [|done]. destruct (empty v); [done|].
  unfold emplace. destruct (m !! seq); [done|]. by rewrite lookup_insert_ne.
Qed.

Lemma retain_lookup_eq {V} (empty : V → bool) (e : V) seq v (m : gmap CommitSeq V) :
  (∀ v, empty v = true ↔ v = e) → m !! seq = None →
  default e (retain empty seq (Some v) m !! seq) = v.
Proof.
  intros He Hm. unfold retain. destruct (empty v) eqn:E.
  - rewrite Hm. symmetry. by apply He.
  - by rewrite emplace_fresh, lookup_insert_eq.
Qed.

Lemma is_empty_set_spec s : is_empty_set s = true ↔ s = ∅.
Proof. apply bool_decide_eq_true. Qed.

Lemma is_empty_list_spec {A} (l : list A) : is_empty_list l = true ↔ l = [].
Proof. by destruct l. Qed.

Lemma commit_inv tm h id : tm_inv tm h → tm_inv (tm_commit id tm).2 (hist_commit id tm h).
Proof.
  intros Hinv. pose proof Hinv as [H1 H2 H3 H4 H5 H6 H7 H8 H9 H10 H11].
  unfold tm_commit, hist_commit. destruct (active_txn tm id) as [t|] eqn:E; [|done].
  destruct (isSerializable tm id) eqn:Hs; simpl.
  2: { pose proof (rollback_inv tm h id Hinv) as Hr. by destruct (tm_rollback id tm). }
  apply active_txn_Some in E as Eat. destruct Eat as [Ht Ha].
  pose proof (proj1 (isSerializable_history tm h id t Hinv E) Hs) as Hok.
  destruct (H2 id t Ht) as (Hid & _ & Hsnap).
  assert (is_active tm id) as Hact by by exists t.
  destruct (proj1 (H5 id) Hact) as [ws Hws]. destruct (proj1 (H6 id) Hact) as [ps Hps].
  destruct (proj1 (H7 id) Hact) as [ins Hins].
  destruct (H9 (S (tm_nextCommitSeq tm)) ltac:(lia)) as (N1 & N2 & N3).
  apply prune_inv. eapply (close_inv tm h id t); eauto; simpl; try done.
  - intros s _ [= <-]. split; [done|]. eexists. by rewrite lookup_insert_eq.
  - intros s r Hr. rewrite lookup_insert_ne; [done|]. intros <-. apply H8 in Hr. lia.
  - intros s r. rewrite lookup_insert_Some. intros [[<- <-]|[_ Hr%H8]]; simpl; lia.
  - intros s Hs'. rewrite !retain_lookup_ne by lia. apply H9. lia.
  - intros id' t' s Hne Ht' Ha' Hs'. unfold sets_at; simpl.
    destruct (decide (s = S (tm_nextCommitSeq tm))) as [->|Hns].
    + rewrite lookup_insert_eq. unfold active_record. rewrite Hid, Hws, Hps, Hins.
      rewrite (retain_lookup_eq _ ∅), !(retain_lookup_eq _ [])
        by (auto using is_empty_set_spec, is_empty_list_spec). done.
    + rewrite !retain_lookup_ne, lookup_insert_ne by done. by apply (H10 id' t').
  - intros s1 s2 r1 r2. rewrite !lookup_insert_Some.
    intros [[<- <-]|[Hn1 Hr1]] [[<- <-]|[Hn2 Hr2]] Hlt; simpl in Hlt; [lia| | |].
    + apply (Hok s2); [done|lia].
    + apply H8 in Hr1. lia.
    + by apply (H11 s1 s2).
Qed.

Lemma beginCommitted_inv tm h :
  tm_inv tm h → tm_inv (tm_apply TBeginCommitted tm) (hist_apply TBeginCommitted tm h).
Proof.
  intros Hinv. apply begin_inv in Hinv. unfold tm_apply, hist_apply, beginCommitted.
  destruct (begin tm) as [t tm1]. cbn [snd] in Hinv. apply (commit_inv _ _ (txn_id t)) in Hinv.
  revert Hinv. by destruct (tm_commit (txn_id t) tm1).
Qed.

(** Recording into the active sets only. *)
Lemma record_active_inv tm h r w p i :
  tm_inv tm h →
  (∀ id, is_Some (r !! id) ↔ is_Some (tm_activeReads tm !! id)) →
  (∀ id, is_Some (w !! id) ↔ is_Some (tm_activeWrites tm !! id)) →
  (∀ id, is_Some (p !! id) ↔ is_Some (tm_activePredicateReads tm !! id)) →
  (∀ id, is_Some (i !! id) ↔ is_Some (tm_activeInserts tm !! id)) →
  tm_inv (mkTransactionManager (tm_nextId tm) (tm_nextCommitSeq tm) (tm_transactions tm) r w p i
    (tm_committedWriteSets tm) (tm_committedPredicateReads tm) (tm_committedInserts tm)) h.
Proof.
  intros [H1 H2 H3 H4 H5 H6 H7 H8 H9 H10 H11] Hr Hw Hp Hi.
  split; try done; intros id; simpl; rewrite ?Hr, ?Hw, ?Hp, ?Hi; [apply H4|apply H5|apply H6|apply H7].
Qed.

Lemma insert_same_dom {V} (m : gmap nat V) k v v' :
  m !! k = Some v → ∀ id, is_Some (<[k := v']> m !! id) ↔ is_Some (m !! id).
Proof.
  intros Hk id. destruct (decide (id = k)) as [->|].
  - rewrite lookup_insert_eq, Hk. by split; eexists.
  - by rewrite lookup_insert_ne.
Qed.

Lemma recordRead_inv tm h id rel row : tm_inv tm h → tm_inv (recordRead id rel row tm) h.
Proof.
  intros Hinv. unfold recordRead. case_bool; [done|].
  destruct (tm_activeReads tm !! id) eqn:E; [|done].
  apply record_active_inv; [done| |done..]. by eapply insert_same_dom.
Qed.

Lemma recordPredicateRead_inv tm h id p : tm_inv tm h → tm_inv (recordPredicateRead id p tm) h.
Proof.
  intros Hinv. unfold recordPredicateRead. case_bool; [done|].
  destruct (tm_activePredicateReads tm !! id) eqn:E; [|done].
  apply record_active_inv; [done|done|done| |done]. by eapply insert_same_dom.
Qed.

(** A late write or insert only changes the record of the last commit. *)
Lemma late_inv tm h id t seq f w p i :
  tm_inv tm h → tm_transactions tm !! id = Some t → committed_seq tm id = Some seq →
  late_ok tm id →
  (∀ r, cr_txn (f r) = cr_txn r ∧ cr_snapshot (f r) = cr_snapshot r) →
  (∀ s, s ≠ seq → w !! s = tm_committedWriteSets tm !! s ∧
     p !! s = tm_committedPredicateReads tm !! s ∧ i !! s = tm_committedInserts tm !! s) →
  (∀ r, h !! seq = Some r → sets_at tm h seq → sets_at (with_committed w p i tm) (<[seq := f r]> h) seq) →
  tm_inv (with_committed w p i tm) (alter f seq h).
Proof.
  intros [H1 H2 H3 H4 H5 H6 H7 H8 H9 H10 H11] Ht Hseq Hlate Hf Hw Hsets.
  destruct (Hlate t seq Ht Hseq) as [Hmax Hsnap].
  assert (∃ r, h !! seq = Some r ∧ cr_snapshot r = txn_snapshot t) as (r & Hr & Hrs).
  { unfold committed_seq, tm_find in Hseq. rewrite Ht in Hseq. case_bool_decide; [|done].
    destruct (H3 id t seq) as (_ & r & Hr & _ & Hr2); eauto. }
  assert (alter f seq h = <[seq := f r]> h) as ->.
  { apply map_eq. intros s. destruct (decide (s = seq)) as [->|].
    - by rewrite lookup_alter_eq, lookup_insert_eq, Hr.
    - by rewrite lookup_alter_ne, lookup_insert_ne. }
  split; try done; simpl.
  - intros j u s Hu Hu1 Hu2. destruct (H3 j u s Hu Hu1 Hu2) as (Hle & r' & Hr' & Hr1 & Hr2).
    split; [done|]. destruct (decide (s = seq)) as [->|].
    + rewrite lookup_insert_eq. exists (f r). assert (r' = r) as -> by congruence.
      by destruct (Hf r) as [-> ->].
    + rewrite lookup_insert_ne by done. eauto.
  - intros s r'. rewrite lookup_insert_Some. intros [[<- <-]|[_ Hr']]; [|eauto].
    destruct (Hf r) as [_ ->]. eauto.
  - intros s Hs. destruct (Hw s ltac:(lia)) as (-> & -> & ->). by apply H9.
  - intros j u s Hu Ha Hs. destruct (decide (s = seq)) as [->|Hne].
    + apply Hsets; [done|]. by eapply H10.
    + unfold sets_at; simpl. destruct (Hw s Hne) as (-> & -> & ->).
      rewrite lookup_insert_ne by done. by eapply H10.
  - intros s1 s2 r1 r2. rewrite !lookup_insert_Some.
    intros [[<- <-]|[Hn1 Hr1]] [[<- <-]|[Hn2 Hr2]] Hlt; [lia| | |by apply (H11 s1 s2)].
    + destruct (Hf r) as [_ Hfr]. rewrite Hfr, Hrs in Hlt. lia.
    + apply H8 in Hr1. lia.
Qed.

Lemma recordWrite_inv tm h id rel row :
  tm_inv tm h → late_ok tm id →
  tm_inv (recordWrite id rel row tm) (hist_apply (TWrite id rel row) tm h).
Proof.
  intros Hinv Hlate. unfold recordWrite, hist_apply, hist_late. case_bool; [done|].
  destruct (tm_activeWrites tm !! id) eqn:E.
  { apply record_active_inv; [done|done| |done..]. by eapply insert_same_dom. }
  destruct (committed_seq tm id) as [seq|] eqn:Es; [|done].
  assert (∃ t, tm_transactions tm !! id = Some t) as [t Ht].
  { unfold committed_seq, tm_find in Es. destruct (tm_transactions tm !! id); [by eexists|done]. }
  eapply late_inv; try done.
  - intros s Hs. by rewrite lookup_insert_ne.
  - intros r Hr (E1 & E2 & E3). rewrite Hr in E1, E2, E3. unfold sets_at; simpl in *.
    rewrite !lookup_insert_eq. simpl. by rewrite E1, E2, E3.
Qed.

Lemma recordInsert_inv tm h id ins :
  tm_inv tm h → late_ok tm id →
  tm_inv (recordInsert id ins tm) (hist_apply (TInsert id ins) tm h).
Proof.
  intros Hinv Hlate. unfold recordInsert, hist_apply, hist_late. case_bool; [done|].
  destruct (tm_activeInserts tm !! id) eqn:E.
  { apply record_active_inv; [done|done|done|done|]. by eapply insert_same_dom. }
  destruct (committed_seq tm id) as [seq|] eqn:Es; [|done].
  assert (∃ t, tm_transactions tm !! id = Some t) as [t Ht].
  { unfold committed_seq, tm_find in Es. destruct (tm_transactions tm !! id); [by eexists|done]. }
  eapply late_inv; try done.
  - intros s Hs. by rewrite lookup_insert_ne.
  - intros r Hr (E1 & E2 & E3). rewrite Hr in E1, E2, E3. unfold sets_at; simpl in *.
    rewrite !lookup_insert_eq. simpl. by rewrite E1, E2, E3.
Qed.

Lemma reach_inv tm h : reach tm h → tm_inv tm h.
Proof.
  induction 1 as [|tm h op Hr IH Hl]; [apply tm_inv_empty|].
  destruct op; simpl in Hl.
  - by apply begin_inv.
  - by apply commit_inv.
  - by apply rollback_inv.
  - by apply beginCommitted_inv.
  - by apply recordRead_inv.
  - by apply recordWrite_inv.
  - by apply recordPredicateRead_inv.
  - by apply recordPredicateRead_inv.
  - by apply recordInsert_inv.
Qed.

(** ** Properties *)

(** C1: committed transactions are serializable in commit order.  In every
    reachable state, a committed transaction T has no conflict with a
    transaction that committed between T's snapshot and T's commit: T read and
    wrote no row that one wrote, no row it inserted falls under a predicate T
    read, and no row T inserted falls under a predicate it read.  T may thus be
    moved to its commit point without changing what it saw. *)
Theorem committed_history_serializable tm h s1 s2 r1 r2 :
  reach tm h → h !! s1 = Some r1 → h !! s2 = Some r2 → cr_snapshot r1 < s2 < s1 →
  cr_reads r1 ∩ cr_writes r2 = ∅ ∧ cr_writes r1 ∩ cr_writes r2 = ∅ ∧
  predicateConflictsWithInserts (cr_predicates r1) (cr_inserts r2) = false ∧
  predicateConflictsWithInserts (cr_predicates r2) (cr_inserts r1) = false.
Proof.
  intros Hr%reach_inv H1 H2 Hlt. pose proof (ti_serial _ _ Hr s1 s2 r1 r2 H1 H2 Hlt) as Hc.
  unfold conflicts in Hc. bool_facts. split_and!; try done; by apply intersects_spec.
Qed.

(** C2: the commit decision is exact although committed sets are pruned.  In
    every reachable state an active transaction commits, taking the next
    sequence number and adding its sets to the history, exactly when it
    conflicts with no transaction of the whole (never pruned) history that
    committed after its snapshot; otherwise it is rolled back and the commit
    throws [SerializationFailure]. *)
Theorem commit_decision_exact tm h id t :
  reach tm h → active_txn tm id = Some t →
  let ok := ∀ seq r, h !! seq = Some r → txn_snapshot t < seq →
              conflicts (active_record tm t) r = false in
  (ok → (tm_commit id tm).1 = Ok tt ∧
        committed_seq (tm_commit id tm).2 id = Some (S (tm_nextCommitSeq tm)) ∧
        hist_apply (TCommit id) tm h !! S (tm_nextCommitSeq tm) = Some (active_record tm t)) ∧
  (¬ ok → (∃ msg, (tm_commit id tm).1 = Throw (SerializationFailure msg)) ∧
          active_txn (tm_commit id tm).2 id = None ∧ committed_seq (tm_commit id tm).2 id = None ∧
          hist_apply (TCommit id) tm h = h).
Proof.
  intros Hr%reach_inv Ha ok. pose proof (isSerializable_history tm h id t Hr Ha) as Hs. fold ok in Hs.
  assert (∀ x, tm_transactions (pruneCommittedConflictSets x) = tm_transactions x) as Hp.
  { intros x. unfold pruneCommittedConflictSets. by case_bool. }
  unfold hist_apply, hist_commit, tm_commit, tm_rollback. rewrite Ha.
  destruct (isSerializable tm id); cbn [negb fst snd];
    unfold committed_seq, active_txn, tm_find; rewrite Hp; cbn; rewrite !lookup_insert_eq.
  - split; [done|tauto].
  - split; [by intros ?%Hs|]. intros _. split; [by eexists|done].
Qed.

(** ** Snapshots *)

(** What a step may do to the transaction table, as seen from a snapshot. *)
Lemma visible_insert tm tm' k t c snap :
  tm_transactions tm' = <[k := t]> (tm_transactions tm) →
  (∀ u seq, tm_transactions tm !! k = Some u → txn_state u = Committed → txn_commitSeq u = Some seq →
     False) →
  (∀ seq, txn_state t = Committed → txn_commitSeq t = Some seq → snap_maxCommitSeq snap < seq) →
  isCreatorVisible tm' c snap = isCreatorVisible tm c snap.
Proof.
  intros E Hold Hnew. unfold isCreatorVisible, tm_find. do 2 (case_bool; [done|]). rewrite E.
  destruct (decide (c = k)) as [->|]; [|by rewrite lookup_insert_ne].
  rewrite lookup_insert_eq.
  assert (match txn_state t, txn_commitSeq t with
    | Committed, Some seq => Nat.leb seq (snap_maxCommitSeq snap) | _, _ => false end = false) as ->.
  { destruct (txn_state t), (txn_commitSeq t) as [s|]; try done.
    apply Nat.leb_gt. by apply Hnew. }
  destruct (tm_transactions tm !! k) as [u|]; [|done].
  destruct (txn_state u) eqn:Eu, (txn_commitSeq u) as [s|] eqn:Es; try done. exfalso. eauto.
Qed.

Lemma visible_same tm tm' c snap :
  tm_transactions tm' = tm_transactions tm →
  isCreatorVisible tm' c snap = isCreatorVisible tm c snap.
Proof. intros E. unfold isCreatorVisible, tm_find. by rewrite E. Qed.

Lemma prune_fields tm :
  tm_transactions (pruneCommittedConflictSets tm) = tm_transactions tm ∧
  tm_nextCommitSeq (pruneCommittedConflictSets tm) = tm_nextCommitSeq tm.
Proof. unfold pruneCommittedConflictSets. by case_bool. Qed.

(** A step keeps every creator's visibility in a snapshot taken before it. *)
Definition step_stable (snap : ReadSnapshot) (tm tm' : TransactionManager) : Prop :=
  snap_maxCommitSeq snap ≤ tm_nextCommitSeq tm →
  snap_maxCommitSeq snap ≤ tm_nextCommitSeq tm' ∧
  ∀ c, isCreatorVisible tm' c snap = isCreatorVisible tm c snap.

Lemma begin_stable snap tm : step_stable snap tm (begin tm).2.
Proof.
  intros Hle. split; [done|]. intros c. unfold begin; simpl.
  destruct (tm_transactions tm !! tm_nextId tm) as [u|] eqn:E.
  - apply visible_same. simpl. unfold emplace. by rewrite E.
  - eapply visible_insert; [simpl; by rewrite emplace_fresh|naive_solver|done].
Qed.

Lemma rollback_stable snap id tm : step_stable snap tm (tm_rollback id tm).2.
Proof.
  intros Hle. unfold tm_rollback. destruct (active_txn tm id) as [t|] eqn:E; [|done].
  apply active_txn_Some in E as [Ht Ha]. simpl.
  destruct (prune_fields (close_txn (mkTransaction id RolledBack (txn_commitSeq t) (txn_snapshot t))
    (tm_nextCommitSeq tm) tm)) as [P1 P2].
  rewrite P2. split; [done|]. intros c.
  eapply visible_insert; [rewrite P1; done| |done]. simpl. intros u seq Hu Hc. simplify_eq. by rewrite Ha in Hc.
Qed.

Lemma commit_stable snap id tm : step_stable snap tm (tm_commit id tm).2.
Proof.
  intros Hle. unfold tm_commit. destruct (active_txn tm id) as [t|] eqn:E; [|done].
  destruct (negb (isSerializable tm id)).
  { pose proof (rollback_stable snap id tm Hle) as H. by destruct (tm_rollback id tm). }
  apply active_txn_Some in E as [Ht Ha]. cbn [snd].
  match goal with |- context [pruneCommittedConflictSets ?x] => destruct (prune_fields x) as [P1 P2] end.
  rewrite P2. split; [simpl; lia|]. intros c.
  eapply visible_insert; [rewrite P1; done| |].
  - simpl. intros u seq Hu Hc. simplify_eq. by rewrite Ha in Hc.
  - intros seq _ [= <-]. lia.
Qed.

Lemma apply_stable snap op tm : step_stable snap tm (tm_apply op tm).
Proof.
  intros Hle. destruct op; cbn [tm_apply].
  - by apply begin_stable.
  - by apply commit_stable.
  - by apply rollback_stable.
  - pose proof (begin_stable snap tm Hle) as H1. unfold beginCommitted.
    destruct (begin tm) as [t tm1]. simpl in H1. destruct H1 as [H1 H1'].
    pose proof (commit_stable snap (txn_id t) tm1 H1) as H2.
    destruct (tm_commit (txn_id t) tm1). simpl in *. destruct H2 as [H2 H2'].
    split; [done|]. intros c. by rewrite H2'.
  - unfold recordRead. case_bool; [done|]. by destruct (tm_activeReads tm !! id).
  - unfold recordWrite. case_bool; [done|]. destruct (tm_activeWrites tm !! id); [done|].
    by destruct (committed_seq tm id).
  - unfold recordPredicateRead. case_bool; [done|]. by destruct (tm_activePredicateReads tm !! id).
  - unfold recordRelationRead, recordPredicateRead. case_bool; [done|].
    by destruct (tm_activePredicateReads tm !! id).
  - unfold recordInsert. case_bool; [done|]. destruct (tm_activeInserts tm !! id); [done|].
    by destruct (committed_seq tm id).
Qed.

Lemma run_stable snap ops tm :
  step_stable snap tm (foldl (λ tm op, tm_apply op tm) tm ops).
Proof.
  revert tm. induction ops as [|op ops IH]; intros tm Hle; simpl; [done|].
  destruct (apply_stable snap op tm Hle) as [H1 H1'].
  destruct (IH _ H1) as [H2 H2']. split; [done|]. intros c. by rewrite H2'.
Qed.

(** Visibility in a snapshot never changes.  Once taken, a snapshot gives
    the same answer for every pair of creator and deleter after any further
    sequence of operations, whichever transactions begin, commit or roll back;
    and a transaction that has not committed by then is visible to no other
    transaction through it. *)
Theorem snapshot_visibility_stable tm self ops createdBy deletedBy :
  let snap := currentSnapshot self tm in
  let tm' := foldl (λ tm op, tm_apply op tm) tm ops in
  isVisible tm' createdBy deletedBy snap = isVisible tm createdBy deletedBy snap ∧
  (committed_seq tm createdBy = None → createdBy ≠ self → createdBy ≠ kSystemTransactionId →
   isVisible tm' createdBy deletedBy snap = false).
Proof.
  intros snap tm'. destruct (run_stable snap ops tm (le_n _)) as [_ H].
  assert (isVisible tm' createdBy deletedBy snap = isVisible tm createdBy deletedBy snap) as E.
  { unfold isVisible. unfold tm'. rewrite H. case_bool; [done|]. destruct deletedBy; [|done]. by rewrite H. }
  split; [done|]. rewrite E. intros Hc Hs Hk. unfold isVisible, isCreatorVisible.
  unfold committed_seq in Hc. simpl.
  rewrite (proj2 (Nat.eqb_neq createdBy self) Hs), (proj2 (Nat.eqb_neq createdBy _) Hk).
  destruct (tm_find tm createdBy) as [t|]; [|done].
  destruct (txn_state t), (txn_commitSeq t); try done.
Qed.

(** ** Conflict keys *)

Lemma append_inj_digits (r1 r2 d1 d2 : string) :
  (∀ c, c ∈ String.list_ascii_of_string d1 → c ≠ Ascii.zero) →
  (∀ c, c ∈ String.list_ascii_of_string d2 → c ≠ Ascii.zero) →
  r1 +:+ String Ascii.zero d1 = r2 +:+ String Ascii.zero d2 → r1 = r2 ∧ d1 = d2.
Proof.
  intros H1 H2. revert r2. induction r1 as [|c r1 IH]; intros [|c' r2]; simpl; intros E.
  - injection E as ->. done.
  - injection E as <- E. exfalso. subst d1. apply (H1 Ascii.zero); [|done].
    clear. induction r2; simpl; set_solver.
  - injection E as -> E. exfalso. rewrite <- E in H2. apply (H2 Ascii.zero); [|done].
    clear. induction r1; simpl; set_solver.
  - injection E as <- E. apply IH in E as [-> ->]. done.
Qed.

Lemma pretty_N_go_nonzero x s :
  (∀ c, c ∈ String.list_ascii_of_string s → c ≠ Ascii.zero) →
  ∀ c, c ∈ String.list_ascii_of_string (pretty_N_go x s) → c ≠ Ascii.zero.
Proof.
  revert s. induction (N.lt_wf_0 x) as [x _ IH]; intros s Hs.
  destruct (decide (0 < x)%N) as [Hx|Hx].
  - rewrite pretty_N_go_step by done. apply IH; [apply N.div_lt; lia|].
    intros c. simpl. rewrite elem_of_cons. intros [->|Hc]; [|by apply Hs].
    assert (x `mod` 10 < 10)%N as Hm by (by apply N.mod_lt).
    destruct (x `mod` 10)%N as [|p]; [done|]. do 4 (destruct p as [p|p|]; try done).
  - replace x with 0%N by lia. by rewrite pretty_N_go_0.
Qed.

Lemma pretty_nonzero (n : nat) : ∀ c, c ∈ String.list_ascii_of_string (pretty n) → c ≠ Ascii.zero.
Proof.
  unfold pretty, pretty_nat, pretty, pretty_N. case_decide.
  - intros c. simpl. rewrite list_elem_of_singleton. by intros ->.
  - apply pretty_N_go_nonzero. simpl. intros c. by rewrite elem_of_nil.
Qed.

(** two row accesses get the same conflict key only when they name the same
    relation and the same row: the separator cannot occur in the decimal row
    number, so keys of different rows or relations never collide, whatever
    characters a relation name contains. *)
Theorem conflictKey_injective rel1 row1 rel2 row2 :
  conflictKey rel1 row1 = conflictKey rel2 row2 ↔ rel1 = rel2 ∧ row1 = row2.
Proof.
  split; [|by intros [-> ->]]. unfold conflictKey. intros E.
  apply append_inj_digits in E as [-> E]; [|apply pretty_nonzero..].
  split; [done|]. by apply (inj pretty).
Qed.

(** ** Witnesses *)

(** Two concurrent readers and writers of one row, and a third transaction on
    another row. *)
Definition ssi_ops : list tm_op :=
  [TBegin; TBegin; TBegin; TRead 1 "t" 7; TWrite 2 "t" 7; TWrite 3 "t" 8; TCommit 2; TCommit 3].

Fixpoint run_hist (ops : list tm_op) (tm : TransactionManager) (h : history)
  : TransactionManager * history :=
  match ops with
  | [] => (tm, h)
  | op :: ops => run_hist ops (tm_apply op tm) (hist_apply op tm h)
  end.

(** [late_ok] as a test. *)
Definition late_okb (tm : TransactionManager) (id : TransactionId) : bool :=
  match tm_find tm id, committed_seq tm id with
  | Some t, Some seq => Nat.eqb seq (tm_nextCommitSeq tm) && Nat.eqb seq (S (txn_snapshot t))
  | _, _ => true
  end.

Definition legalb (op : tm_op) (tm : TransactionManager) : bool :=
  match op with TWrite id _ _ | TInsert id _ => late_okb tm id | _ => true end.

Fixpoint legal_run (ops : list tm_op) (tm : TransactionManager) : bool :=
  match ops with
  | [] => true
  | op :: ops => legalb op tm && legal_run ops (tm_apply op tm)
  end.

Lemma legalb_legal op tm : legalb op tm = true → legal op tm.
Proof.
  assert (∀ id, late_okb tm id = true → late_ok tm id) as H.
  { intros id H t seq Ht Hs. unfold late_okb in H. rewrite Ht, Hs in H. by bool_facts. }
  destruct op; simpl; auto.
Qed.

Lemma run_hist_reach ops tm h :
  reach tm h → legal_run ops tm = true → reach (run_hist ops tm h).1 (run_hist ops tm h).2.
Proof.
  revert tm h. induction ops as [|op ops IH]; intros tm h Hr Hl; simpl in *; [done|].
  bool_facts. apply IH; [|done]. constructor; [done|by apply legalb_legal].
Qed.

Lemma committed_history_serializable_witness :
  let '(tm, h) := run_hist ssi_ops tm_empty ∅ in
  ∃ r1 r2, h !! 2 = Some r1 ∧ h !! 1 = Some r2 ∧ cr_snapshot r1 < 1 < 2 ∧
    cr_writes r1 ∩ cr_writes r2 = ∅.
Proof.
  pose proof (run_hist_reach ssi_ops tm_empty ∅ reach_init ltac:(vm_compute; reflexivity)) as Hr.
  destruct (run_hist ssi_ops tm_empty ∅) as [tm h] eqn:E. simpl in Hr.
  assert (∃ r1, h !! 2 = Some r1 ∧ cr_snapshot r1 = 0) as (r1 & H1 & Hs).
  { vm_compute in E. injection E as _ <-. eexists. by split. }
  assert (∃ r2, h !! 1 = Some r2) as (r2 & H2).
  { vm_compute in E. injection E as _ <-. by eexists. }
  exists r1, r2. rewrite Hs. split_and!; [exact H1|exact H2|lia|lia|].
  apply (committed_history_serializable tm h 2 1 r1 r2 Hr H1 H2 ltac:(lia)).
Defined.

Lemma commit_decision_exact_witness :
  let '(tm, h) := run_hist ssi_ops tm_empty ∅ in
  ∃ t, active_txn tm 1 = Some t ∧ ∃ msg, (tm_commit 1 tm).1 = Throw (SerializationFailure msg).
Proof.
  pose proof (run_hist_reach ssi_ops tm_empty ∅ reach_init ltac:(vm_compute; reflexivity)) as Hr.
  destruct (run_hist ssi_ops tm_empty ∅) as [tm h] eqn:E. simpl in Hr.
  destruct (active_txn tm 1) as [t|] eqn:Ha.
  - exists t. split; [reflexivity|]. apply (commit_decision_exact tm h 1 t Hr Ha).
    vm_compute in E. injection E as <- <-. vm_compute in Ha. injection Ha as <-.
    intros Hok. specialize (Hok 1 _ eq_refl ltac:(simpl; lia)). vm_compute in Hok. discriminate Hok.
  - vm_compute in E. injection E as <- _. vm_compute in Ha. discriminate Ha.
Defined.

Lemma snapshot_visibility_stable_witness :
  let tm := (begin tm_empty).2 in
  let tm' := foldl (λ tm op, tm_apply op tm) tm [TCommit 1; TBegin] in
  isVisible tm' 1 None (currentSnapshot 5 tm) = false ∧
  isVisible tm' 1 None (currentSnapshot 5 tm') = true.
Proof.
  intros tm tm'. split; [|vm_compute; reflexivity].
  apply (snapshot_visibility_stable tm 5 [TCommit 1; TBegin] 1 None);
    [vm_compute; reflexivity|lia|unfold kSystemTransactionId; lia].
Defined.
