(* ===== verification/Mvcc.v ===== *)
(** * Multi-version row store

    [src/transaction/mvcc_row_store.cpp]: per-row version chains, oldest first,
    read through a snapshot of the transaction manager.  [std::map] iteration is
    in ascending row order. *)

From S2P Require Import Prelude Value StringPattern TransactionManager Serializability.
Local Open Scope nat_scope.

Record RowVersion : Type := mkRowVersion {
  rv_createdBy : TransactionId;
  rv_deletedBy : option TransactionId;
  rv_row : Row
}.

Abbreviation MVCCRowStore := (gmap RowId (list RowVersion)).

Definition with_deletedBy (d : option TransactionId) (v : RowVersion) : RowVersion :=
  mkRowVersion (rv_createdBy v) d (rv_row v).

(** Apply [f] to the last element. *)
Definition map_last {A} (f : A → A) (l : list A) : list A :=
  match unsnoc l with
  | Some (l', x) => l' ++ [f x]
  | None => l
  end.

Definition mvcc_write (rowId : RowId) (row : Row) (txn : TransactionId) (m : MVCCRowStore)
  : MVCCRowStore :=
  let chain := default [] (m !! rowId) in
  let close v := match rv_deletedBy v with None => with_deletedBy (Some txn) v | Some _ => v end in
  <[rowId := map_last close chain ++ [mkRowVersion txn None row]]> m.

Definition mvcc_erase (rowId : RowId) (txn : TransactionId) (m : MVCCRowStore) : MVCCRowStore :=
  match m !! rowId with
  | None => m
  | Some chain => <[rowId := map_last (with_deletedBy (Some txn)) chain]> m
  end.

Definition popLatestVersion (rowId : RowId) (m : MVCCRowStore) : bool * MVCCRowStore :=
  match m !! rowId with
  | None => (false, m)
  | Some chain =>
      match unsnoc chain with
      | None => (false, m)
      | Some ([], _) => (true, delete rowId m)
      | Some (rest, _) => (true, <[rowId := map_last (with_deletedBy None) rest]> m)
      end
  end.

Definition clearLatestDeletedBy (rowId : RowId) (m : MVCCRowStore) : bool * MVCCRowStore :=
  match m !! rowId with
  | None => (false, m)
  | Some chain =>
      match last chain with
      | Some v =>
          match rv_deletedBy v with
          | Some _ => (true, <[rowId := map_last (with_deletedBy None) chain]> m)
          | None => (false, m)
          end
      | None => (false, m)
      end
  end.

Definition mvcc_clear (m : MVCCRowStore) : MVCCRowStore := ∅.

Definition transformRows (fn : Row → Row) (m : MVCCRowStore) : MVCCRowStore :=
  let rewrite v := mkRowVersion (rv_createdBy v) (rv_deletedBy v) (fn (rv_row v)) in
  fmap (M := gmap RowId) (fmap (M := list) rewrite) m.

(** Newest first, the first visible version. *)
Definition chain_read (tm : TransactionManager) (snapshot : ReadSnapshot) (chain : list RowVersion)
  : option Row :=
  rv_row <$> List.find (λ v, isVisible tm (rv_createdBy v) (rv_deletedBy v) snapshot) (reverse chain).

Definition mvcc_read (rowId : RowId) (snapshot : ReadSnapshot) (tm : TransactionManager)
    (m : MVCCRowStore) : option Row :=
  match m !! rowId with
  | None => None
  | Some chain => chain_read tm snapshot chain
  end.

Definition visibleEntriesById (rowIds : list RowId) (snapshot : ReadSnapshot) (tm : TransactionManager)
    (m : MVCCRowStore) : list (RowId * Row) :=
  omap (λ i, (λ row, (i, row)) <$> mvcc_read i snapshot tm m) rowIds.

Definition visibleRowsById (rowIds : list RowId) (snapshot : ReadSnapshot) (tm : TransactionManager)
    (m : MVCCRowStore) : list Row :=
  omap (λ i, mvcc_read i snapshot tm m) rowIds.

Definition visibleEntries (snapshot : ReadSnapshot) (tm : TransactionManager) (m : MVCCRowStore)
  : list (RowId * Row) := visibleEntriesById (sorted_keys m) snapshot tm m.

Definition visibleRows (snapshot : ReadSnapshot) (tm : TransactionManager) (m : MVCCRowStore)
  : list Row := visibleRowsById (sorted_keys m) snapshot tm m.

Definition versionCount (rowId : RowId) (m : MVCCRowStore) : nat :=
  match m !! rowId with None => 0 | Some chain => length chain end.

(** ** Column surgery for ALTER TABLE *)

Definition remove_at {A} (k : nat) (l : list A) : list A := take k l ++ drop (S k) l.
Definition insert_at {A} (k : nat) (x : A) (l : list A) : list A := take k l ++ x :: drop k l.

Fixpoint extract_chain (columnIndex : nat) (chain : list RowVersion)
  : result (list Value * list RowVersion) :=
  match chain with
  | [] => Ok ([], [])
  | v :: chain =>
      match rv_row v !! columnIndex with
      | None => Throw (runtime_error "MVCC row narrower than schema during ALTER")
      | Some x =>
          '(values, chain) ← extract_chain columnIndex chain;
          Ok (x :: values,
              mkRowVersion (rv_createdBy v) (rv_deletedBy v) (remove_at columnIndex (rv_row v)) :: chain)
      end
  end.

(** The loop over the rows of [ids], in order. *)
Fixpoint extract_rows (columnIndex : nat) (ids : list RowId) (m : MVCCRowStore)
  : result (list (RowId * list Value) * MVCCRowStore) :=
  match ids with
  | [] => Ok ([], m)
  | rowId :: ids =>
      '(values, chain) ← extract_chain columnIndex (default [] (m !! rowId));
      '(out, m) ← extract_rows columnIndex ids (<[rowId := chain]> m);
      Ok ((rowId, values) :: out, m)
  end.

Definition extractColumn (columnIndex : nat) (m : MVCCRowStore)
  : result (list (RowId * list Value) * MVCCRowStore) :=
  extract_rows columnIndex (sorted_keys m) m.

Fixpoint insert_chain (columnIndex : nat) (values : list Value) (chain : list RowVersion)
  : result (list RowVersion) :=
  match values, chain with
  | [], [] => Ok []
  | x :: values, v :: chain =>
      _ ← throw_if (Nat.ltb (length (rv_row v)) columnIndex)
            (runtime_error "ALTER undo column index out of range");
      chain ← insert_chain columnIndex values chain;
      Ok (mkRowVersion (rv_createdBy v) (rv_deletedBy v) (insert_at columnIndex x (rv_row v)) :: chain)
  | _, _ => Throw (runtime_error "ALTER undo version column values mismatch")
  end.

(** [byId.emplace]: the first entry of a row counts. *)
Definition column_values (rowId : RowId) (values : list (RowId * list Value)) : option (list Value) :=
  snd <$> List.find (λ e, Nat.eqb e.1 rowId) values.

Fixpoint insert_rows (columnIndex : nat) (values : list (RowId * list Value)) (ids : list RowId)
    (m : MVCCRowStore) : result MVCCRowStore :=
  match ids with
  | [] => Ok m
  | rowId :: ids =>
      let chain := default [] (m !! rowId) in
      match column_values rowId values with
      | None => Throw (runtime_error "ALTER undo version column values mismatch")
      | Some xs =>
          _ ← throw_if (negb (Nat.eqb (length xs) (length chain)))
                (runtime_error "ALTER undo version column values mismatch");
          chain ← insert_chain columnIndex xs chain;
          insert_rows columnIndex values ids (<[rowId := chain]> m)
      end
  end.

Definition insertColumn (columnIndex : nat) (values : list (RowId * list Value)) (m : MVCCRowStore)
  : result MVCCRowStore :=
  insert_rows columnIndex values (sorted_keys m) m.

(** ** Chains *)

Lemma map_last_snoc {A} (f : A → A) l x : map_last f (l ++ [x]) = l ++ [f x].
Proof. unfold map_last. by rewrite (proj2 (unsnoc_Some (l ++ [x]) l x) eq_refl). Qed.

Lemma unsnoc_snoc {A} (l : list A) x : unsnoc (l ++ [x]) = Some (l, x).
Proof. by apply unsnoc_Some. Qed.

Lemma chain_read_snoc tm snap chain v :
  chain_read tm snap (chain ++ [v]) =
  if isVisible tm (rv_createdBy v) (rv_deletedBy v) snap then Some (rv_row v)
  else chain_read tm snap chain.
Proof. unfold chain_read. rewrite reverse_snoc. simpl. by case_bool. Qed.

Lemma chain_read_nil tm snap : chain_read tm snap [] = None.
Proof. done. Qed.

(** ** Repeatable reads

    The steps other transactions take on the version store while a snapshot is
    held.  A writer is a transaction the snapshot does not see.  An erase finds
    the latest version open (its row is live in the heap); a rollback undoes
    writes and erases of transactions the snapshot does not see, and the
    version below a popped one was closed by such a transaction or is open. *)

Definition unseen (tm : TransactionManager) (snap : ReadSnapshot) (w : TransactionId) : Prop :=
  isCreatorVisible tm w snap = false.

Definition unseen_or_open (tm : TransactionManager) (snap : ReadSnapshot) (v : RowVersion) : Prop :=
  match rv_deletedBy v with Some d => unseen tm snap d | None => True end.

Inductive mvcc_step (tm : TransactionManager) (snap : ReadSnapshot) : MVCCRowStore → MVCCRowStore → Prop :=
| ms_write m i row w : unseen tm snap w → mvcc_step tm snap m (mvcc_write i row w m)
| ms_erase m i w chain v :
    unseen tm snap w → m !! i = Some (chain ++ [v]) → unseen_or_open tm snap v →
    mvcc_step tm snap m (mvcc_erase i w m)
| ms_pop m i chain v :
    m !! i = Some (chain ++ [v]) → unseen tm snap (rv_createdBy v) →
    (∀ u, last chain = Some u → unseen_or_open tm snap u) →
    mvcc_step tm snap m (popLatestVersion i m).2
| ms_revive m i chain v :
    m !! i = Some (chain ++ [v]) → unseen_or_open tm snap v →
    mvcc_step tm snap m (clearLatestDeletedBy i m).2.

(** Interleavings of transaction-manager operations and version-store steps. *)
Inductive si_step (snap : ReadSnapshot)
  : TransactionManager * MVCCRowStore → TransactionManager * MVCCRowStore → Prop :=
| si_tm tm m op : si_step snap (tm, m) (tm_apply op tm, m)
| si_mvcc tm m m' : mvcc_step tm snap m m' → si_step snap (tm, m) (tm, m').

Lemma isVisible_reopen tm snap v d :
  unseen_or_open tm snap v → (∀ w, d = Some w → unseen tm snap w) →
  isVisible tm (rv_createdBy v) d snap = isVisible tm (rv_createdBy v) (rv_deletedBy v) snap.
Proof.
  unfold unseen_or_open, unseen, isVisible. intros Hv Hd. case_bool; [done|].
  destruct (rv_deletedBy v) as [d'|], d as [w|]; rewrite ?Hv, ?Hd; done.
Qed.

Lemma chain_read_reclose tm snap chain v d :
  unseen_or_open tm snap v → (∀ w, d = Some w → unseen tm snap w) →
  chain_read tm snap (chain ++ [with_deletedBy d v]) = chain_read tm snap (chain ++ [v]).
Proof. intros Hv Hd. rewrite !chain_read_snoc. simpl. by rewrite isVisible_reopen. Qed.

Lemma lookup_insert_read tm snap m i chain chain' j :
  m !! i = Some chain → chain_read tm snap chain' = chain_read tm snap chain →
  mvcc_read j snap tm (<[i := chain']> m) = mvcc_read j snap tm m.
Proof.
  intros Hi E. unfold mvcc_read. destruct (decide (j = i)) as [->|].
  - by rewrite lookup_insert_eq, Hi.
  - by rewrite lookup_insert_ne.
Qed.

Lemma isVisible_unseen tm snap w d : unseen tm snap w → isVisible tm w d snap = false.
Proof. unfold unseen, isVisible. by intros ->. Qed.

Lemma write_read_stable tm snap m i row w j :
  unseen tm snap w → mvcc_read j snap tm (mvcc_write i row w m) = mvcc_read j snap tm m.
Proof.
  intros Hw. unfold mvcc_write. set (close := λ v, _).
  assert (chain_read tm snap (map_last close (default [] (m !! i)) ++ [mkRowVersion w None row])
    = chain_read tm snap (default [] (m !! i))) as E.
  { rewrite chain_read_snoc. simpl. rewrite isVisible_unseen by done.
    destruct (default [] (m !! i)) as [|x l _] using rev_ind; [done|].
    rewrite map_last_snoc. unfold close. destruct (rv_deletedBy x) eqn:Ex; [done|].
    apply chain_read_reclose; [unfold unseen_or_open; by rewrite Ex|by intros ? [= <-]]. }
  destruct (m !! i) as [chain|] eqn:Hi.
  - by apply (lookup_insert_read tm snap m i chain).
  - unfold mvcc_read. destruct (decide (j = i)) as [->|].
    + rewrite lookup_insert_eq, Hi. exact E.
    + by rewrite lookup_insert_ne.
Qed.

Lemma mvcc_step_read_stable tm snap m m' j :
  mvcc_step tm snap m m' → mvcc_read j snap tm m' = mvcc_read j snap tm m.
Proof.
  intros Hstep. destruct Hstep as [m i row w Hw|m i w chain v Hw Hi Hv|m i chain v Hi Hv Hu|m i chain v Hi Hv].
  - by apply write_read_stable.
  - unfold mvcc_erase. rewrite Hi, map_last_snoc. eapply lookup_insert_read; [done|].
    apply chain_read_reclose; [done|by intros ? [= <-]].
  - unfold popLatestVersion. rewrite Hi, unsnoc_snoc.
    assert (chain_read tm snap (chain ++ [v]) = chain_read tm snap chain) as E.
    { rewrite chain_read_snoc. by rewrite isVisible_unseen. }
    destruct chain as [|u chain _] using rev_ind.
    + simpl. unfold mvcc_read. destruct (decide (j = i)) as [->|].
      * rewrite lookup_delete_eq, Hi. by rewrite E.
      * by rewrite lookup_delete_ne.
    + assert (∀ (l : list RowVersion) x, ∃ y l', l ++ [x] = y :: l') as Hc
        by (intros [|y l] x; simpl; eauto).
      destruct (Hc chain u) as (y & l' & El). rewrite El in *. simpl. rewrite <- El in *.
      eapply lookup_insert_read; [done|]. rewrite E, map_last_snoc.
      apply chain_read_reclose; [|done]. apply Hu. apply last_snoc.
  - unfold clearLatestDeletedBy. rewrite Hi, last_snoc.
    destruct (rv_deletedBy v) eqn:Ed; [|done]. rewrite map_last_snoc.
    eapply lookup_insert_read; [done|]. by apply chain_read_reclose.
Qed.

Lemma omap_filter_Some {A B} (f : A → option B) (l : list A) :
  omap f (filter (λ i, is_Some (f i)) l) = omap f l.
Proof.
  induction l as [|x l IH]; [done|]. destruct (f x) as [y|] eqn:E.
  - rewrite filter_cons_True by by eexists. simpl. rewrite E. f_equal. exact IH.
  - rewrite filter_cons_False by (rewrite E; by intros []). simpl. rewrite E. exact IH.
Qed.

Lemma StronglySorted_filter' (P : nat → Prop) `{∀ i, Decision (P i)} l :
  StronglySorted (≤) l → StronglySorted (≤) (filter P l).
Proof.
  induction 1 as [|x l Hs IH Hf]; [constructor|]. rewrite filter_cons. case_decide; [|done].
  constructor; [done|]. rewrite Forall_forall in *. intros y [_ Hy]%list_elem_of_filter. by apply Hf.
Qed.

(** A scan in key order only depends on where the scanned function is defined. *)
Lemma omap_sorted_keys_ext {V W B} (f : nat → option B) (m : gmap nat V) (m' : gmap nat W) :
  (∀ i, is_Some (f i) → is_Some (m !! i)) → (∀ i, is_Some (f i) → is_Some (m' !! i)) →
  omap f (sorted_keys m) = omap f (sorted_keys m').
Proof.
  intros Hm Hm'. rewrite <- (omap_filter_Some f (sorted_keys m)), <- (omap_filter_Some f (sorted_keys m')).
  f_equal. apply (StronglySorted_unique (≤)).
  - apply StronglySorted_filter', (StronglySorted_merge_sort (≤)).
  - apply StronglySorted_filter', (StronglySorted_merge_sort (≤)).
  - apply NoDup_Permutation; [apply NoDup_filter, NoDup_sorted_keys..|].
    intros i. rewrite !list_elem_of_filter, !elem_of_sorted_keys. naive_solver.
Qed.

Lemma mvcc_read_dom i snap tm m : is_Some (mvcc_read i snap tm m) → is_Some (m !! i).
Proof. unfold mvcc_read. destruct (m !! i); [by eexists|by intros []]. Qed.

Lemma si_step_stable snap tm m tm' m' :
  si_step snap (tm, m) (tm', m') → snap_maxCommitSeq snap ≤ tm_nextCommitSeq tm →
  snap_maxCommitSeq snap ≤ tm_nextCommitSeq tm' ∧
  ∀ i, mvcc_read i snap tm' m' = mvcc_read i snap tm m.
Proof.
  intros Hstep Hle. inversion Hstep as [? ? op|? ? ? Hm]; subst.
  - destruct (apply_stable snap op tm Hle) as [H1 H2]. split; [done|]. intros i.
    unfold mvcc_read, chain_read. destruct (m' !! i) as [chain|]; [|done]. f_equal.
    induction (reverse chain) as [|v l IH]; [done|]. simpl. rewrite IH. unfold isVisible.
    rewrite !H2. destruct (rv_deletedBy v); [by rewrite H2|done].
  - split; [done|]. intros i. by apply mvcc_step_read_stable.
Qed.


(** ** Rollback *)

(** The latest version of the row is open, or the row has none. *)
Definition latest_open (m : MVCCRowStore) (i : RowId) : Prop :=
  match m !! i with
  | None => True
  | Some chain => match last chain with Some v => rv_deletedBy v = None | None => False end
  end.

Lemma reopen_open v : rv_deletedBy v = None → with_deletedBy None v = v.
Proof. destruct v. simpl. by intros ->. Qed.

Lemma pop_write m i row w : latest_open m i → popLatestVersion i (mvcc_write i row w m) = (true, m).
Proof.
  unfold latest_open, popLatestVersion, mvcc_write. intros Ho. rewrite lookup_insert_eq.
  destruct (m !! i) as [chain|] eqn:Hi; simpl; [|f_equal; by rewrite delete_insert_id].
  destruct (last chain) as [v|] eqn:Hl; [|done]. apply last_Some in Hl as [l ->]. rewrite map_last_snoc, unsnoc_snoc, Ho.
  destruct (l ++ [with_deletedBy (Some w) v]) as [|y l'] eqn:El; [by destruct l|]. rewrite <- El.
  rewrite map_last_snoc. f_equal. rewrite insert_insert_eq.
  change (with_deletedBy None (with_deletedBy (Some w) v)) with (with_deletedBy None v).
  rewrite (reopen_open v Ho). by apply insert_id.
Qed.

Lemma clear_erase m i w : latest_open m i → is_Some (m !! i) → clearLatestDeletedBy i (mvcc_erase i w m) = (true, m).
Proof.
  unfold latest_open, clearLatestDeletedBy, mvcc_erase. intros Ho [chain Hi]. rewrite Hi in *.
  destruct (last chain) as [v|] eqn:Hl; [|done]. apply last_Some in Hl as [l ->].
  rewrite lookup_insert_eq, map_last_snoc, last_snoc. simpl. rewrite map_last_snoc. f_equal. rewrite insert_insert_eq.
  change (with_deletedBy None (with_deletedBy (Some w) v)) with (with_deletedBy None v).
  rewrite (reopen_open v Ho). by apply insert_id.
Qed.

(** Undo restores the version chains.  Undoing an update or the first
    insert of a row ([popLatestVersion] after [write]) and undoing a delete
    ([clearLatestDeletedBy] after [erase]) give back the exact version store,
    when the latest version of the row was open or absent; and a transaction
    reads its own write through its snapshot. *)
Theorem version_undo m i row w :
  latest_open m i →
  popLatestVersion i (mvcc_write i row w m) = (true, m) ∧
  (is_Some (m !! i) → clearLatestDeletedBy i (mvcc_erase i w m) = (true, m)) ∧
  (∀ tm snap, snap_self snap = w → mvcc_read i snap tm (mvcc_write i row w m) = Some row).
Proof.
  intros Ho. split_and!; [by apply pop_write|by apply clear_erase|].
  intros tm snap <-. unfold mvcc_read, mvcc_write. rewrite lookup_insert_eq, chain_read_snoc. simpl.
  unfold isVisible, isCreatorVisible. rewrite Nat.eqb_refl. by destruct (Nat.eqb _ _).
Qed.

(** C32: rolling back an insert that reused a deleted row's slot resurrects the
    deleted row.  When the latest version was created and deleted by
    transactions the reader sees (so the reader sees no such row), a
    transaction that writes a new row into that slot and is rolled back with
    [popLatestVersion] leaves the old version open again, and the reader then
    reads the deleted row. *)
Theorem pop_after_reuse_resurrects m i chain c d old row w tm snap :
  m !! i = Some (chain ++ [mkRowVersion c (Some d) old]) →
  isCreatorVisible tm c snap = true → isCreatorVisible tm d snap = true →
  (∀ v, v ∈ chain → isVisible tm (rv_createdBy v) (rv_deletedBy v) snap = false) →
  mvcc_read i snap tm m = None ∧
  mvcc_read i snap tm (popLatestVersion i (mvcc_write i row w m)).2 = Some old.
Proof.
  intros Hi Hc Hd Hch. assert (chain_read tm snap chain = None) as Hn.
  { unfold chain_read. destruct (List.find _ (reverse chain)) as [v|] eqn:E; [|done].
    apply List.find_some in E as [Hin Hv]. apply list_elem_of_In in Hin. rewrite elem_of_reverse in Hin.
    rewrite (Hch v Hin) in Hv. done. }
  split.
  - unfold mvcc_read. rewrite Hi, chain_read_snoc. unfold isVisible. simpl. by rewrite Hc, Hd.
  - unfold popLatestVersion, mvcc_write. rewrite lookup_insert_eq, Hi. simpl.
    rewrite map_last_snoc. simpl. rewrite unsnoc_snoc.
    destruct (chain ++ [mkRowVersion c (Some d) old]) as [|y l] eqn:El; [by destruct chain|].
    rewrite <- El, map_last_snoc. simpl. unfold mvcc_read. rewrite lookup_insert_eq, chain_read_snoc.
    unfold isVisible. simpl. by rewrite Hc.
Qed.

(** ** Column surgery *)

Definition wide_chain (k : nat) (chain : list RowVersion) : Prop :=
  Forall (λ v, k < length (rv_row v)) chain.

Lemma insert_remove_at {A} k (x : A) l : l !! k = Some x → insert_at k x (remove_at k l) = l.
Proof.
  intros Hk. unfold insert_at, remove_at. pose proof (lookup_lt_Some _ _ _ Hk) as Hlt.
  rewrite take_app_le, drop_app_ge by (rewrite length_take; lia).
  rewrite take_take, length_take. replace (k `min` k) with k by lia.
  replace (k - k `min` length l) with 0 by lia. rewrite drop_0. by apply take_drop_middle.
Qed.

Lemma extract_insert_chain k chain :
  wide_chain k chain →
  ∃ xs chain', extract_chain k chain = Ok (xs, chain') ∧ length xs = length chain' ∧
    insert_chain k xs chain' = Ok chain.
Proof.
  induction 1 as [|v chain Hv _ (xs & chain' & IH1 & IH2 & IH3)]; simpl; [by exists [], []|].
  destruct (lookup_lt_is_Some_2 _ _ Hv) as [x Hx]. rewrite Hx, IH1. simpl.
  eexists _, _. split; [done|]. simpl. split; [lia|].
  assert (Nat.ltb (length (remove_at k (rv_row v))) k = false) as ->.
  { apply Nat.ltb_ge. unfold remove_at. rewrite length_app, length_take, length_drop. lia. }
  simpl. rewrite IH3. simpl. rewrite insert_remove_at by done. by destruct v.
Qed.

(** The rows of [ids] carry their extracted chains, the others are unchanged. *)
Lemma extract_rows_spec k ids m :
  NoDup ids → (∀ i, i ∈ ids → wide_chain k (default [] (m !! i))) →
  ∃ out m', extract_rows k ids m = Ok (out, m') ∧ out.*1 = ids ∧
    (∀ i, i ∉ ids → m' !! i = m !! i) ∧
    ∀ i, i ∈ ids → ∃ xs chain', (i, xs) ∈ out ∧ m' !! i = Some chain' ∧
      length xs = length chain' ∧ insert_chain k xs chain' = Ok (default [] (m !! i)).
Proof.
  intros Hnd. revert m. induction Hnd as [|i ids Hi Hnd IH]; intros m Hw; simpl.
  { exists [], m. split_and!; try done. intros i Hi. by apply elem_of_nil in Hi. }
  destruct (extract_insert_chain k (default [] (m !! i))) as (xs & chain' & -> & Hlen & Hins);
    [apply Hw; set_solver|]. simpl.
  destruct (IH (<[i := chain']> m)) as (out & m' & -> & Hfst & Hout & Hin).
  { intros j Hj. rewrite lookup_insert_ne by (intros ->; done). apply Hw. set_solver. }
  simpl. eexists _, _. split; [done|]. simpl. split_and!; [by f_equal| |].
  - intros j Hj. rewrite not_elem_of_cons in Hj. destruct Hj as [Hne Hj]. rewrite Hout by done.
    by rewrite lookup_insert_ne.
  - intros j. rewrite elem_of_cons. intros [->|Hj].
    + exists xs, chain'. rewrite Hout, lookup_insert_eq by done. split_and!; try done. by left.
    + destruct (Hin j Hj) as (xs' & c' & H1 & H2 & H3 & H4). exists xs', c'. split_and!; try done.
      * by right.
      * by rewrite lookup_insert_ne in H4 by (intros ->; done).
Qed.

Lemma column_values_lookup i xs (out : list (RowId * list Value)) :
  NoDup out.*1 → (i, xs) ∈ out → column_values i out = Some xs.
Proof.
  unfold column_values. induction out as [|[j ys] out IH]; simpl; [by intros _ ?%elem_of_nil|].
  rewrite NoDup_cons, elem_of_cons. intros [Hj Hnd] [[= <- <-]|Hin].
  - by rewrite Nat.eqb_refl.
  - destruct (Nat.eqb_spec j i) as [->|]; [|by apply IH]. exfalso. apply Hj.
    apply list_elem_of_fmap. by exists (i, xs).
Qed.

Lemma insert_rows_spec k out ids m (m0 : MVCCRowStore) :
  NoDup ids →
  (∀ i, i ∈ ids → ∃ xs chain, column_values i out = Some xs ∧ m !! i = Some chain ∧
     length xs = length chain ∧ insert_chain k xs chain = Ok (default [] (m0 !! i))) →
  ∃ m', insert_rows k out ids m = Ok m' ∧ (∀ i, i ∉ ids → m' !! i = m !! i) ∧
    ∀ i, i ∈ ids → m' !! i = Some (default [] (m0 !! i)).
Proof.
  intros Hnd. revert m. induction Hnd as [|i ids Hi Hnd IH]; intros m H; simpl.
  { exists m. split_and!; try done. intros i Hi. by apply elem_of_nil in Hi. }
  destruct (H i ltac:(set_solver)) as (xs & chain & -> & -> & Hlen & Hins). simpl.
  rewrite Hlen, Nat.eqb_refl. simpl. rewrite Hins. simpl.
  destruct (IH (<[i := default [] (m0 !! i)]> m)) as (m' & -> & Hout & Hin).
  { intros j Hj. rewrite lookup_insert_ne by (intros ->; done). apply H. set_solver. }
  exists m'. split_and!; [done| |].
  - intros j Hj. rewrite not_elem_of_cons in Hj. destruct Hj. rewrite Hout by done.
    by rewrite lookup_insert_ne.
  - intros j. rewrite elem_of_cons. intros [->|Hj]; [|by apply Hin].
    by rewrite Hout, lookup_insert_eq.
Qed.

(** dropping a column and undoing the drop restores every version.  When
    every version of every row is wide enough, [extractColumn] succeeds and
    [insertColumn] with the extracted values rebuilds the exact version store. *)
Theorem extract_insert_column k m :
  (∀ i chain, m !! i = Some chain → wide_chain k chain) →
  ∃ out m', extractColumn k m = Ok (out, m') ∧ insertColumn k out m' = Ok m.
Proof.
  intros Hw. unfold extractColumn.
  destruct (extract_rows_spec k (sorted_keys m) m) as (out & m' & E & Hfst & Hout & Hin).
  { apply NoDup_sorted_keys. }
  { intros i [chain Hc]%elem_of_sorted_keys. rewrite Hc. by eapply Hw. }
  exists out, m'. split; [done|]. unfold insertColumn.
  assert (∀ i, is_Some (m' !! i) ↔ is_Some (m !! i)) as Hdom.
  { intros i. destruct (decide (i ∈ sorted_keys m)) as [Hi|Hi].
    - destruct (Hin i Hi) as (xs & c & _ & -> & _). rewrite elem_of_sorted_keys in Hi.
      split; [done|by eexists].
    - by rewrite Hout. }
  assert (∀ i, i ∈ sorted_keys m' ↔ i ∈ sorted_keys m) as Hkeys
    by (intros i; by rewrite !elem_of_sorted_keys, Hdom).
  destruct (insert_rows_spec k out (sorted_keys m') m' m) as (m'' & E' & Hout' & Hin').
  { apply NoDup_sorted_keys. }
  { intros i Hi%Hkeys. destruct (Hin i Hi) as (xs & c & H1 & H2 & H3 & H4). exists xs, c.
    split_and!; try done. apply column_values_lookup; [|done]. rewrite Hfst. apply NoDup_sorted_keys. }
  rewrite E'. f_equal. apply map_eq. intros i. destruct (decide (i ∈ sorted_keys m)) as [Hi|Hi].
  - rewrite Hin' by by apply Hkeys. apply elem_of_sorted_keys in Hi as [c Hc]. by rewrite Hc.
  - rewrite Hout' by (by rewrite Hkeys). by apply Hout.
Qed.

(** ** Witnesses *)

(** Row 0 created by the system and updated by transaction 1; a snapshot taken
    before transaction 1 commits. *)
Definition mvcc_sample : MVCCRowStore := mvcc_write 0 [VInt 1] kSystemTransactionId ∅.


Lemma version_undo_witness :
  latest_open mvcc_sample 0 ∧
  popLatestVersion 0 (mvcc_write 0 [VInt 9] 3 mvcc_sample) = (true, mvcc_sample).
Proof.
  assert (latest_open mvcc_sample 0) as H by (vm_compute; reflexivity).
  split; [exact H|]. exact (proj1 (version_undo mvcc_sample 0 [VInt 9] 3 H)).
Defined.

Lemma pop_after_reuse_resurrects_witness :
  let tm := (beginCommitted tm_empty).2 in
  let m := mvcc_erase 0 1 mvcc_sample in
  let snap := currentSnapshot kSystemTransactionId tm in
  mvcc_read 0 snap tm m = None ∧
  mvcc_read 0 snap tm (popLatestVersion 0 (mvcc_write 0 [VInt 9] 2 m)).2 = Some [VInt 1].
Proof.
  intros tm m snap.
  apply (pop_after_reuse_resurrects m 0 [] 0 1 [VInt 1] [VInt 9] 2 tm snap);
    [vm_compute; reflexivity..|]. intros v Hv. by apply elem_of_nil in Hv.
Defined.

Lemma extract_insert_column_witness :
  ∃ out m', extractColumn 0 mvcc_sample = Ok (out, m') ∧ insertColumn 0 out m' = Ok mvcc_sample.
Proof.
  apply (extract_insert_column 0 mvcc_sample). intros i chain Hi.
  unfold mvcc_sample, mvcc_write in Hi. rewrite lookup_insert_Some in Hi.
  destruct Hi as [[_ <-]|[_ Hi]]; [|by rewrite lookup_empty in Hi].
  repeat constructor.
Defined.
