(* ===== verification/HashIndex.v ===== *)
(** * The hash index

    [src/indexing/hash_index.cpp]: an unordered multimap from key values to row
    identifiers with the buckets touched since the last checkpoint.

    An [std::unordered_map<Value, _>] is an association list searched with the
    source's [==]; its iteration order, unspecified in C++, is the list order.
    The lookups of the source go through [ValueHash], which must give equal
    values equal hashes; that is proved here for any [std::hash] that does so on
    doubles ([+0.0] and [-0.0] are equal). *)

From S2P Require Import Prelude Value.
Local Open Scope nat_scope.

(** ** [ValueHash] *)

Section value_hash.
(** [std::hash] on the three payload types; a [std::size_t] is a [Z] below
    [2 ^ 64]. *)
Context (hash_int64 : Z → Z) (hash_double : Z → Z) (hash_string : string → Z).

Definition golden : Z := 0x9e3779b97f4a7c15.

(** [seed ^= h + golden + (seed << 6) + (seed >> 2)] on 64 bits. *)
Definition hash_combine (seed h : Z) : Z :=
  Z.lxor seed ((h + golden + Z.shiftl seed 6 mod 2 ^ 64 + Z.shiftr seed 2) mod 2 ^ 64).

Fixpoint ValueHash (v : Value) : result Z :=
  match v with
  | VNull => Ok golden
  | VComposite parts =>
      (fix combine (parts : list Value) (seed : Z) : result Z :=
         match parts with
         | [] => Ok seed
         | part :: parts => h ← ValueHash part; combine parts (hash_combine seed h)
         end) parts golden
  | VInt i => Ok (hash_int64 i)
  | VDouble b => Ok (hash_double b)
  | VString s => Ok (hash_string s)
  | VParam _ => Throw (runtime_error "parameter placeholder has no concrete column type")
  end.
End value_hash.

(** ** The index *)

Record HashIndexSnapshot : Type := mkHashIndexSnapshot {
  his_replaceAll : bool;
  his_buckets : list (Value * list RowId)
}.

Record HashIndex : Type := mkHashIndex {
  hi_entries : list (Value * list RowId);
  hi_dirtyKeys : list Value;
  hi_fullReplaceDirty : bool
}.

Definition hi_empty : HashIndex := mkHashIndex [] [] false.

Section assoc.
Context {V : Type}.

(** [map.find(key)]. *)
Fixpoint assoc_find (key : Value) (l : list (Value * V)) : option V :=
  match l with
  | [] => None
  | (k, v) :: l => if Value_eqb k key then Some v else assoc_find key l
  end.

(** The entry itself, with the key as stored. *)
Fixpoint assoc_entry (key : Value) (l : list (Value * V)) : option (Value * V) :=
  match l with
  | [] => None
  | (k, v) :: l => if Value_eqb k key then Some (k, v) else assoc_entry key l
  end.

(** [map[key] = f(map[key])], with [d] for a new entry. *)
Fixpoint assoc_alter (f : V → V) (d : V) (key : Value) (l : list (Value * V)) : list (Value * V) :=
  match l with
  | [] => [(key, f d)]
  | (k, v) :: l => if Value_eqb k key then (k, f v) :: l else (k, v) :: assoc_alter f d key l
  end.

(** [map.erase(key)]. *)
Fixpoint assoc_erase (key : Value) (l : list (Value * V)) : list (Value * V) :=
  match l with
  | [] => []
  | (k, v) :: l => if Value_eqb k key then l else (k, v) :: assoc_erase key l
  end.

(** [map.emplace(key, v)]: an existing entry stays. *)
Definition assoc_emplace (l : list (Value * V)) (e : Value * V) : list (Value * V) :=
  match assoc_find e.1 l with Some _ => l | None => l ++ [e] end.
End assoc.

(** [dirtyKeys_[key] = true]. *)
Definition mark_key (key : Value) (dirty : list Value) : list Value :=
  if existsb (λ k, Value_eqb k key) dirty then dirty else dirty ++ [key].

Definition HashIndex_insert (key : Value) (rowId : RowId) (h : HashIndex) : HashIndex :=
  mkHashIndex (assoc_alter (λ ids, ids ++ [rowId]) [] key (hi_entries h))
    (mark_key key (hi_dirtyKeys h)) (hi_fullReplaceDirty h).

Definition HashIndex_remove (key : Value) (rowId : RowId) (h : HashIndex) : HashIndex :=
  match assoc_find key (hi_entries h) with
  | None => h
  | Some ids =>
      let ids := erase_all rowId ids in
      mkHashIndex
        (match ids with
         | [] => assoc_erase key (hi_entries h)
         | _ => assoc_alter (λ _, ids) [] key (hi_entries h)
         end)
        (mark_key key (hi_dirtyKeys h)) (hi_fullReplaceDirty h)
  end.

Definition HashIndex_clear (h : HashIndex) : HashIndex := mkHashIndex [] [] true.

Definition HashIndex_find (key : Value) (h : HashIndex) : list RowId :=
  default [] (assoc_find key (hi_entries h)).

Definition HashIndex_size (h : HashIndex) : nat := length (hi_entries h).

Definition exportBuckets (h : HashIndex) : HashIndexSnapshot :=
  mkHashIndexSnapshot false (hi_entries h).

Definition replaceFromBuckets (snapshot : HashIndexSnapshot) (h : HashIndex) : HashIndex :=
  mkHashIndex (foldl assoc_emplace [] (his_buckets snapshot)) [] false.

Definition HashIndex_hasDirtyPages (h : HashIndex) : bool :=
  hi_fullReplaceDirty h || negb (bool_decide (hi_dirtyKeys h = [])).

Definition HashIndex_clearDirtyPages (h : HashIndex) : HashIndex :=
  mkHashIndex (hi_entries h) [] false.

Definition takeDirtyBuckets (h : HashIndex) : HashIndexSnapshot * HashIndex :=
  (mkHashIndexSnapshot (hi_fullReplaceDirty h)
     (if hi_fullReplaceDirty h then his_buckets (exportBuckets h)
      else (λ key, default (key, []) (assoc_entry key (hi_entries h))) <$> hi_dirtyKeys h),
   HashIndex_clearDirtyPages h).

Definition applyDirtyBuckets (dirty : HashIndexSnapshot) (h : HashIndex) : HashIndex :=
  if his_replaceAll dirty then
    replaceFromBuckets (mkHashIndexSnapshot false (his_buckets dirty)) h
  else
    HashIndex_clearDirtyPages
      (foldl (λ h '(key, ids),
         mkHashIndex
           (match ids with
            | [] => assoc_erase key (hi_entries h)
            | _ => assoc_alter (λ _, ids) [] key (hi_entries h)
            end) (hi_dirtyKeys h) (hi_fullReplaceDirty h))
         h (his_buckets dirty)).

(** ** Association lists over comparable keys *)

Fixpoint assoc_ok {V} (l : list (Value * V)) : Prop :=
  match l with
  | [] => True
  | (k, _) :: l => comparable k ∧ assoc_find k l = None ∧ assoc_ok l
  end.

Lemma Value_eqb_trans a b c :
  comparable a → comparable b → comparable c → Value_eqb a b = true → Value_eqb a c = Value_eqb b c.
Proof.
  intros Ha Hb Hc Hab. apply bool_eq_iff. rewrite <- !Value_cmp_Eq by done.
  by rewrite (Value_cmp_eq_l a b c).
Qed.

Lemma Value_eqb_trans_r a b c :
  comparable a → comparable b → comparable c → Value_eqb a b = true → Value_eqb c a = Value_eqb c b.
Proof.
  intros Ha Hb Hc Hab. rewrite (Value_eqb_sym c a), (Value_eqb_sym c b) by done. by apply Value_eqb_trans.
Qed.

Section assoc_lemmas.
Context {V : Type}.
Implicit Types l : list (Value * V).

Lemma assoc_find_eqb l k k' :
  assoc_ok l → comparable k → comparable k' → Value_eqb k k' = true →
  assoc_find k l = assoc_find k' l.
Proof.
  intros Hl Hk Hk' E. induction l as [|[a v] l IH]; simpl in *; [done|].
  destruct Hl as (Ha & _ & Hl). rewrite (Value_eqb_trans_r k k' a) by done. by rewrite IH.
Qed.

Lemma assoc_find_alter f (d : V) k k' l :
  assoc_ok l → comparable k → comparable k' →
  assoc_find k' (assoc_alter f d k l) =
  if Value_eqb k k' then Some (f (default d (assoc_find k l))) else assoc_find k' l.
Proof.
  intros Hl Hk Hk'. induction l as [|[a v] l IH]; simpl in *; [done|].
  destruct Hl as (Ha & _ & Hl). destruct (Value_eqb a k) eqn:E; simpl.
  - rewrite (Value_eqb_trans a k k') by done. by destruct (Value_eqb k k').
  - rewrite IH by done. destruct (Value_eqb a k') eqn:E1; [|done].
    destruct (Value_eqb k k') eqn:E2; [|done].
    rewrite (Value_eqb_trans_r k k' a) in E by done. congruence.
Qed.

Lemma assoc_find_erase k k' l :
  assoc_ok l → comparable k → comparable k' →
  assoc_find k' (assoc_erase k l) = if Value_eqb k k' then None else assoc_find k' l.
Proof.
  intros Hl Hk Hk'. induction l as [|[a v] l IH]; simpl in *; [by destruct (Value_eqb k k')|].
  destruct Hl as (Ha & Hn & Hl). destruct (Value_eqb a k) eqn:E; simpl.
  - rewrite <- (Value_eqb_trans a k k') by done. destruct (Value_eqb a k') eqn:E'; [|done].
    by rewrite <- (assoc_find_eqb l a k').
  - rewrite IH by done. destruct (Value_eqb a k') eqn:E1; [|done].
    destruct (Value_eqb k k') eqn:E2; [|done].
    rewrite (Value_eqb_trans_r k k' a) in E by done. congruence.
Qed.

Lemma assoc_ok_alter f (d : V) k l : assoc_ok l → comparable k → assoc_ok (assoc_alter f d k l).
Proof.
  intros Hl Hk. induction l as [|[a v] l IH]; simpl in *; [done|].
  destruct Hl as (Ha & Hn & Hl). destruct (Value_eqb a k) eqn:E; simpl; [done|].
  split_and!; [done| |by apply IH]. rewrite assoc_find_alter by done.
  rewrite Value_eqb_sym, E by done. done.
Qed.

Lemma assoc_ok_erase k l : assoc_ok l → comparable k → assoc_ok (assoc_erase k l).
Proof.
  intros Hl Hk. induction l as [|[a v] l IH]; simpl in *; [done|].
  destruct Hl as (Ha & Hn & Hl). destruct (Value_eqb a k) eqn:E; simpl; [done|].
  split_and!; [done| |by apply IH]. rewrite assoc_find_erase by done. by destruct (Value_eqb k a).
Qed.

Lemma assoc_find_app k l1 l2 :
  assoc_find k (l1 ++ l2) = match assoc_find k l1 with Some v => Some v | None => assoc_find k l2 end.
Proof. induction l1 as [|[a v] l1 IH]; simpl; [done|]. by destruct (Value_eqb a k). Qed.

Lemma assoc_ok_app l1 l2 :
  assoc_ok (l1 ++ l2) ↔ assoc_ok l1 ∧ assoc_ok l2 ∧ (∀ k v, (k, v) ∈ l1 → assoc_find k l2 = None).
Proof.
  induction l1 as [|[a v] l1 IH]; simpl.
  - split; [|tauto]. intros H. split_and!; [done|done|]. intros k v Hin. by apply elem_of_nil in Hin.
  - rewrite IH, assoc_find_app. split.
    + intros (Ha & Hn & H1 & H2 & H3). destruct (assoc_find a l1) eqn:E; [done|].
      split_and!; try done. intros k w. rewrite elem_of_cons. intros [[= -> ->]|Hin]; eauto.
    + intros ((Ha & Hn & H1) & H2 & H3). rewrite Hn. split_and!; try done.
      * apply (H3 a v). by left.
      * intros k w Hin. apply (H3 k w). by right.
Qed.

Lemma emplace_all_ok l1 l2 : assoc_ok (l1 ++ l2) → foldl assoc_emplace l1 l2 = l1 ++ l2.
Proof.
  revert l1. induction l2 as [|[k v] l2 IH]; intros l1 H; simpl; [by rewrite app_nil_r|].
  unfold assoc_emplace at 2; simpl. pose proof H as H0. apply assoc_ok_app in H0 as (H1 & (Hk & Hn & H2) & H3).
  assert (assoc_find k l1 = None) as ->.
  { destruct (assoc_find k l1) eqn:E; [|done]. exfalso.
    clear - E H3 H1 Hk. induction l1 as [|[a w] l1 IH]; simpl in *; [done|].
    destruct H1 as (Ha & _ & H1). destruct (Value_eqb a k) eqn:Ea.
    - specialize (H3 a w ltac:(by left)). simpl in H3. rewrite Value_eqb_sym, Ea in H3 by done. done.
    - apply IH; [done| |done]. intros b u Hin. apply (H3 b u). by right. }
  rewrite IH; [by rewrite <- app_assoc|]. by rewrite <- app_assoc.
Qed.

Lemma assoc_entry_find k l :
  assoc_entry k l = None ∧ assoc_find k l = None ∨
  ∃ k' v, assoc_entry k l = Some (k', v) ∧ assoc_find k l = Some v ∧ Value_eqb k' k = true ∧
    (k', v) ∈ l.
Proof.
  induction l as [|[a v] l IH]; simpl; [by left|].
  destruct (Value_eqb a k) eqn:E; [right; exists a, v; split_and!; try done; by left|].
  destruct IH as [IH|(k' & w & ? & ? & ? & ?)]; [by left|]. right. exists k', w.
  split_and!; try done. by right.
Qed.

Lemma assoc_ok_comparable l k v : assoc_ok l → (k, v) ∈ l → comparable k.
Proof.
  induction l as [|[a w] l IH]; simpl; [by intros _ ?%elem_of_nil|].
  intros (Ha & _ & Hl) [[= -> ->]|Hin]%elem_of_cons; auto.
Qed.
End assoc_lemmas.

(** ** The abstract multimap

    The log of live (key, row) pairs in insertion order, the contract both
    index structures implement. *)
Abbreviation index_log := (list (Value * RowId)).

Inductive index_op : Type :=
| IX_insert (key : Value) (rowId : RowId)
| IX_remove (key : Value) (rowId : RowId)
| IX_clear.

Definition log_apply (op : index_op) (log : index_log) : index_log :=
  match op with
  | IX_insert key rowId => log ++ [(key, rowId)]
  | IX_remove key rowId => filter (λ e, ¬ (Value_eqb e.1 key = true ∧ e.2 = rowId)) log
  | IX_clear => []
  end.

Definition log_find (key : Value) (log : index_log) : list RowId :=
  (filter (λ e, Value_eqb e.1 key = true) log).*2.

Definition index_op_ok (op : index_op) : Prop :=
  match op with IX_insert key _ | IX_remove key _ => comparable key | IX_clear => True end.

Definition hash_apply (op : index_op) (h : HashIndex) : HashIndex :=
  match op with
  | IX_insert key rowId => HashIndex_insert key rowId h
  | IX_remove key rowId => HashIndex_remove key rowId h
  | IX_clear => HashIndex_clear h
  end.

Record hi_rep (h : HashIndex) (log : index_log) : Prop := {
  hr_ok : assoc_ok (hi_entries h);
  hr_nonempty k ids : comparable k → assoc_find k (hi_entries h) = Some ids → ids ≠ [];
  hr_log : Forall (λ e, comparable e.1) log;
  hr_find k : comparable k → HashIndex_find k h = log_find k log
}.

Lemma log_find_insert k key rowId log :
  log_find k (log ++ [(key, rowId)]) =
  if Value_eqb key k then log_find k log ++ [rowId] else log_find k log.
Proof.
  unfold log_find. rewrite filter_app, fmap_app. destruct (Value_eqb key k) eqn:E.
  - by rewrite filter_cons_True.
  - rewrite filter_cons_False by (simpl; congruence). by rewrite app_nil_r.
Qed.

Lemma log_find_remove k key rowId log :
  comparable k → comparable key → Forall (λ e, comparable e.1) log →
  log_find k (log_apply (IX_remove key rowId) log) =
  if Value_eqb key k then erase_all rowId (log_find k log) else log_find k log.
Proof.
  intros Hk Hkey Hlog. unfold log_find, log_apply, erase_all.
  induction Hlog as [|[a r] log Ha _ IH]; [by destruct (Value_eqb key k)|]. simpl in Ha.
  assert (Value_eqb key k = true → Value_eqb a key = Value_eqb a k) as Ht
    by (intros E; by apply Value_eqb_trans_r).
  destruct (decide (Value_eqb a key = true ∧ r = rowId)) as [[Hak ->]|Hn].
  - rewrite filter_cons_False by (simpl; tauto). rewrite IH.
    destruct (Value_eqb key k) eqn:E.
    + rewrite Ht in Hak by done. rewrite (filter_cons_True _ (a, rowId)), fmap_cons by done.
      by rewrite filter_cons_False by tauto.
    + rewrite (filter_cons_False _ (a, rowId)); [done|]. simpl.
      rewrite (Value_eqb_trans a key k) by done. congruence.
  - rewrite filter_cons_True by (simpl; tauto).
    destruct (Value_eqb a k) eqn:Eak.
    + rewrite !(filter_cons_True _ (a, r)), !fmap_cons by done. cbn [snd]. rewrite IH.
      destruct (Value_eqb key k) eqn:E; [|done].
      rewrite filter_cons_True; [done|]. intros ->. apply Hn. split; [by rewrite Ht|done].
    + rewrite !(filter_cons_False _ (a, r)) by (simpl; congruence). done.
Qed.

(** A new bucket list for one key, erased when empty. *)
Definition set_bucket (key : Value) (ids : list RowId) (l : list (Value * list RowId))
  : list (Value * list RowId) :=
  match ids with
  | [] => assoc_erase key l
  | _ => assoc_alter (λ _, ids) [] key l
  end.

Lemma find_set_bucket key ids l k :
  assoc_ok l → comparable key → comparable k →
  default [] (assoc_find k (set_bucket key ids l)) =
  if Value_eqb key k then ids else default [] (assoc_find k l).
Proof.
  intros Hl Hkey Hk. unfold set_bucket. destruct ids as [|i ids].
  - rewrite assoc_find_erase by done. by destruct (Value_eqb key k).
  - rewrite assoc_find_alter by done. by destruct (Value_eqb key k).
Qed.

Lemma set_bucket_ok key ids l : assoc_ok l → comparable key → assoc_ok (set_bucket key ids l).
Proof. intros Hl Hk. unfold set_bucket. destruct ids; auto using assoc_ok_erase, assoc_ok_alter. Qed.

Definition buckets_nonempty (l : list (Value * list RowId)) : Prop :=
  ∀ k ids, comparable k → assoc_find k l = Some ids → ids ≠ [].

Lemma set_bucket_nonempty key ids l :
  assoc_ok l → comparable key → buckets_nonempty l → buckets_nonempty (set_bucket key ids l).
Proof.
  intros Hl Hkey Hne k ids' Hk. unfold set_bucket. destruct ids as [|i ids].
  - rewrite assoc_find_erase by done. destruct (Value_eqb key k); [done|]. by apply Hne.
  - rewrite assoc_find_alter by done. destruct (Value_eqb key k); [by intros [= <-]|]. by apply Hne.
Qed.

Lemma HashIndex_insert_set key rowId h :
  assoc_ok (hi_entries h) → comparable key → ∀ k, comparable k →
  assoc_find k (hi_entries (HashIndex_insert key rowId h)) =
  assoc_find k (set_bucket key (HashIndex_find key h ++ [rowId]) (hi_entries h)).
Proof.
  intros Hl Hkey k Hk. unfold HashIndex_insert, set_bucket, HashIndex_find; simpl.
  destruct (default [] (assoc_find key (hi_entries h)) ++ [rowId]) as [|i ids] eqn:E.
  { by destruct (default [] (assoc_find key (hi_entries h))). }
  rewrite !assoc_find_alter by done. destruct (Value_eqb key k); [|done]. by rewrite E.
Qed.

Lemma HashIndex_remove_set key rowId h :
  buckets_nonempty (hi_entries h) → comparable key →
  HashIndex_remove key rowId h =
  match assoc_find key (hi_entries h) with
  | None => h
  | Some ids => mkHashIndex (set_bucket key (erase_all rowId ids) (hi_entries h))
                  (mark_key key (hi_dirtyKeys h)) (hi_fullReplaceDirty h)
  end.
Proof. intros _ _. unfold HashIndex_remove, set_bucket. by destruct (assoc_find key (hi_entries h)). Qed.

Lemma hash_apply_rep op h log :
  hi_rep h log → index_op_ok op → hi_rep (hash_apply op h) (log_apply op log).
Proof.
  intros [Hok Hne Hlog Hfind] Hop. destruct op as [key rowId|key rowId|]; simpl in Hop.
  - split.
    + by apply assoc_ok_alter.
    + intros k ids Hk. cbn [hash_apply]. rewrite HashIndex_insert_set by done. by apply set_bucket_nonempty.
    + apply Forall_app. split; [done|]. by constructor.
    + intros k Hk. cbn [hash_apply log_apply]. rewrite log_find_insert, <- Hfind by done.
      unfold HashIndex_find at 1. rewrite HashIndex_insert_set, find_set_bucket by done.
      destruct (Value_eqb key k) eqn:E; [|done]. unfold HashIndex_find.
      by rewrite (assoc_find_eqb _ key k).
  - assert (Forall (λ e, comparable e.1) (log_apply (IX_remove key rowId) log)) as Hlog'.
    { apply Forall_forall. intros e [_ He]%list_elem_of_filter. rewrite Forall_forall in Hlog. auto. }
    cbn [hash_apply]. rewrite HashIndex_remove_set by done.
    destruct (assoc_find key (hi_entries h)) as [ids|] eqn:E; split; simpl; try done.
    + by apply set_bucket_ok.
    + by apply set_bucket_nonempty.
    + intros k Hk. unfold HashIndex_find; simpl. rewrite find_set_bucket by done.
      pose proof (log_find_remove k key rowId log Hk Hop Hlog) as Hr. simpl in Hr. rewrite Hr.
      destruct (Value_eqb key k) eqn:Ek; [|by apply Hfind].
      rewrite <- Hfind by done. unfold HashIndex_find. by rewrite <- (assoc_find_eqb _ key k), E.
    + intros k Hk. pose proof (log_find_remove k key rowId log Hk Hop Hlog) as Hr. simpl in Hr.
      rewrite Hr. destruct (Value_eqb key k) eqn:Ek; [|by apply Hfind].
      rewrite <- Hfind by done. unfold HashIndex_find. by rewrite <- (assoc_find_eqb _ key k), E.
  - split; simpl; try done.
Qed.

Lemma hi_rep_empty : hi_rep hi_empty [].
Proof. by split. Qed.

Lemma hash_run_rep ops h log :
  hi_rep h log → Forall index_op_ok ops →
  hi_rep (foldl (λ h op, hash_apply op h) h ops) (foldl (λ l op, log_apply op l) log ops).
Proof.
  intros H Hops. revert h log H. induction Hops as [|op ops Hop _ IH]; intros h log H; simpl; [done|].
  by apply IH, hash_apply_rep.
Qed.

(** C35: the hash index is the multimap of its operations.  After any sequence of
    insertions, removals and clears with comparable keys, [find] returns exactly
    the row identifiers inserted under a key equal to the probe and not removed
    since, in insertion order. *)
Theorem hash_index_refines_log ops key :
  Forall index_op_ok ops → comparable key →
  HashIndex_find key (foldl (λ h op, hash_apply op h) hi_empty ops) =
  log_find key (foldl (λ l op, log_apply op l) [] ops).
Proof. intros Hops Hk. apply (hash_run_rep ops _ _ hi_rep_empty Hops). done. Qed.

Lemma hash_index_refines_log_witness :
  let ops := [IX_insert (VInt 1) 10; IX_insert (VDouble 0) 11; IX_insert (VInt 1) 12;
              IX_insert (VDouble (2 ^ 63)) 13; IX_remove (VInt 1) 10] in
  HashIndex_find (VDouble 0) (foldl (λ h op, hash_apply op h) hi_empty ops) = [11; 13] ∧
  HashIndex_find (VInt 1) (foldl (λ h op, hash_apply op h) hi_empty ops) = [12].
Proof.
  intros ops. assert (Forall index_op_ok ops) as Hops by (repeat constructor).
  split; rewrite hash_index_refines_log; try done; reflexivity.
Defined.

(** ** Redo of dirty buckets *)

(** Keys that are not marked dirty still hold what they held at [base]. *)
Definition hi_since (base h : HashIndex) : Prop :=
  Forall (λ k, comparable k) (hi_dirtyKeys h) ∧
  (hi_fullReplaceDirty h = false →
   ∀ k, comparable k → existsb (λ d, Value_eqb d k) (hi_dirtyKeys h) = false →
     HashIndex_find k h = HashIndex_find k base).

Lemma mark_key_covers key dirty k :
  comparable key → comparable k → Forall (λ d, comparable d) dirty →
  existsb (λ d, Value_eqb d k) (mark_key key dirty) =
  existsb (λ d, Value_eqb d k) dirty || Value_eqb key k.
Proof.
  intros Hkey Hk Hd. unfold mark_key. destruct (existsb (λ d, Value_eqb d key) dirty) eqn:E.
  - destruct (Value_eqb key k) eqn:Ek; [|by rewrite orb_false_r]. rewrite orb_true_r.
    apply existsb_exists in E as (d & Hin & Ed). apply existsb_exists. exists d. split; [done|].
    apply list_elem_of_In in Hin. rewrite Forall_forall in Hd.
    by rewrite <- (Value_eqb_trans_r key k d) by auto.
  - rewrite existsb_app. simpl. by rewrite orb_false_r.
Qed.

Lemma mark_key_comparable key dirty :
  comparable key → Forall (λ d, comparable d) dirty → Forall (λ d, comparable d) (mark_key key dirty).
Proof.
  intros Hk Hd. unfold mark_key. case_bool; [done|]. apply Forall_app. split; [done|]. by constructor.
Qed.

Lemma hash_apply_since base op h log :
  hi_since base h → hi_rep h log → index_op_ok op → hi_since base (hash_apply op h).
Proof.
  intros [Hd Hs] [Hok Hne Hlog Hfind] Hop. destruct op as [key rowId|key rowId|]; simpl in Hop.
  - split; simpl; [by apply mark_key_comparable|]. intros Hfull k Hk.
    rewrite mark_key_covers by done. intros [Hn Ek]%orb_false_iff.
    unfold HashIndex_find at 1. rewrite HashIndex_insert_set, find_set_bucket, Ek by done.
    by apply Hs.
  - cbn [hash_apply]. rewrite HashIndex_remove_set by done.
    destruct (assoc_find key (hi_entries h)) as [ids|] eqn:E; [|done].
    split; simpl; [by apply mark_key_comparable|]. intros Hfull k Hk.
    rewrite mark_key_covers by done. intros [Hn Ek]%orb_false_iff.
    unfold HashIndex_find at 1; simpl. rewrite find_set_bucket, Ek by done. by apply Hs.
  - split; simpl; [constructor|done].
Qed.

Lemma hash_run_since base ops h log :
  hi_since base h → hi_rep h log → Forall index_op_ok ops →
  hi_since base (foldl (λ h op, hash_apply op h) h ops).
Proof.
  intros Hs Hr Hops. revert h log Hs Hr. induction Hops as [|op ops Hop _ IH]; intros h log Hs Hr; simpl; [done|].
  eapply IH; [by eapply hash_apply_since|by apply hash_apply_rep].
Qed.

Lemma apply_buckets_find (f : Value → list RowId) buckets h k :
  assoc_ok (hi_entries h) → comparable k → Forall (λ e, comparable e.1) buckets →
  (∀ k1 k2, comparable k1 → comparable k2 → Value_eqb k1 k2 = true → f k1 = f k2) →
  (∀ key ids, (key, ids) ∈ buckets → ids = f key) →
  let h' := foldl (λ h '(key, ids),
         mkHashIndex (set_bucket key ids (hi_entries h)) (hi_dirtyKeys h) (hi_fullReplaceDirty h))
         h buckets in
  assoc_ok (hi_entries h') ∧
  HashIndex_find k h' =
  if existsb (λ e, Value_eqb e.1 k) buckets then f k else HashIndex_find k h.
Proof.
  intros Hok Hk Hb Hf Hids. revert h Hok. induction buckets as [|[key ids] buckets IH]; intros h Hok; simpl; [done|].
  apply Forall_cons in Hb as [Hkey Hb]. simpl in Hkey.
  destruct (IH Hb ltac:(intros; apply Hids; by right)
    (mkHashIndex (set_bucket key ids (hi_entries h)) (hi_dirtyKeys h) (hi_fullReplaceDirty h)))
    as [H1 H2]; [by apply set_bucket_ok|]. split; [done|]. rewrite H2.
  destruct (existsb _ buckets); [by rewrite orb_true_r|]. rewrite orb_false_r.
  unfold HashIndex_find; simpl. rewrite find_set_bucket by done.
  destruct (Value_eqb key k) eqn:E; [|done]. rewrite (Hids key ids) by by left. by apply Hf.
Qed.

Lemma dirty_buckets_cover (l : list (Value * list RowId)) dirty k :
  assoc_ok l → Forall (λ d, comparable d) dirty → comparable k →
  existsb (λ e : Value * list RowId, Value_eqb e.1 k)
    ((λ key, default (key, []) (assoc_entry key l)) <$> dirty) =
  existsb (λ d, Value_eqb d k) dirty.
Proof.
  intros Hl Hd Hk. induction Hd as [|d dirty Hd _ IH]; [done|]. rewrite fmap_cons. cbn [existsb].
  rewrite IH. f_equal.
  destruct (assoc_entry_find d l) as [[-> _]|(k' & v & -> & _ & E & Hin)]; [done|]. simpl.
  apply assoc_ok_comparable in Hin; [|done]. by apply Value_eqb_trans.
Qed.

Lemma apply_buckets_nonempty buckets h :
  assoc_ok (hi_entries h) → Forall (λ e, comparable e.1) buckets → buckets_nonempty (hi_entries h) →
  buckets_nonempty (hi_entries (foldl (λ h '(key, ids),
         mkHashIndex (set_bucket key ids (hi_entries h)) (hi_dirtyKeys h) (hi_fullReplaceDirty h))
         h buckets)).
Proof.
  intros Hok Hb. revert h Hok. induction Hb as [|[key ids] buckets Hk _ IH]; intros h Hok Hne; simpl; [done|].
  simpl in Hk. apply IH; [by apply set_bucket_ok|by apply set_bucket_nonempty].
Qed.

Lemma dirty_buckets_find h k ids : assoc_ok (hi_entries h) → Forall (λ d, comparable d) (hi_dirtyKeys h) →
  (k, ids) ∈ (λ key, default (key, []) (assoc_entry key (hi_entries h))) <$> hi_dirtyKeys h →
  comparable k ∧ ids = HashIndex_find k h.
Proof.
  intros Hok Hdirty Hin. apply list_elem_of_fmap in Hin as (d & Hd & Hdin).
  rewrite Forall_forall in Hdirty. specialize (Hdirty d Hdin).
  destruct (assoc_entry_find d (hi_entries h)) as [[E1 E2]|(k' & v & E1 & E2 & E3 & E4)];
    rewrite E1 in Hd; simpl in Hd; injection Hd as -> ->.
  - split; [done|]. unfold HashIndex_find. by rewrite E2.
  - pose proof (assoc_ok_comparable _ _ _ Hok E4) as Hk'. split; [done|].
    unfold HashIndex_find. by rewrite (assoc_find_eqb _ k' d), E2.
Qed.

(** What the redo of the dirty buckets of [h] leaves in [replica]. *)
Lemma apply_dirty_find h replica :
  assoc_ok (hi_entries h) → buckets_nonempty (hi_entries h) → Forall (λ d, comparable d) (hi_dirtyKeys h) →
  assoc_ok (hi_entries replica) → buckets_nonempty (hi_entries replica) →
  let r := applyDirtyBuckets (takeDirtyBuckets h).1 replica in
  assoc_ok (hi_entries r) ∧ buckets_nonempty (hi_entries r) ∧ HashIndex_hasDirtyPages r = false ∧
  ∀ k, comparable k → HashIndex_find k r =
    if hi_fullReplaceDirty h || existsb (λ d, Value_eqb d k) (hi_dirtyKeys h)
    then HashIndex_find k h else HashIndex_find k replica.
Proof.
  intros Hok Hne Hdirty Hokr Hner r. subst r. unfold takeDirtyBuckets, applyDirtyBuckets.
  cbn [fst his_replaceAll his_buckets]. destruct (hi_fullReplaceDirty h) eqn:Efull.
  - unfold replaceFromBuckets, exportBuckets; simpl. unfold HashIndex_find; simpl.
    rewrite (emplace_all_ok [] (hi_entries h)) by done. by split_and!.
  - cbn [orb]. set (buckets := (λ key, default (key, []) (assoc_entry key (hi_entries h))) <$> hi_dirtyKeys h).
    assert (Forall (λ e, comparable e.1) buckets) as Hb.
    { apply Forall_forall. intros [k ids] Hin. by apply (dirty_buckets_find h k ids). }
    assert (∀ k1 k2, comparable k1 → comparable k2 → Value_eqb k1 k2 = true →
      HashIndex_find k1 h = HashIndex_find k2 h) as Heq.
    { intros. unfold HashIndex_find. by rewrite (assoc_find_eqb _ k1 k2). }
    pose proof (λ k Hk, apply_buckets_find (λ k, HashIndex_find k h) buckets replica k Hokr Hk Hb Heq
      (λ key ids Hin, proj2 (dirty_buckets_find h key ids Hok Hdirty Hin))) as Hfind.
    unfold set_bucket in Hfind. split_and!; [|by apply apply_buckets_nonempty|done|].
    + by destruct (Hfind VNull) as [Hr _].
    + intros k Hk. destruct (Hfind k Hk) as [_ Hf]. unfold HashIndex_find at 1 in Hf.
      unfold HashIndex_find at 1. simpl. rewrite Hf. unfold buckets. by rewrite dirty_buckets_cover.
Qed.

(** Redoing the dirty buckets brings a stale replica up to date.  Starting
    from the same contents, after any sequence of index operations on the
    primary, applying [takeDirtyBuckets] to the replica makes every lookup on
    the replica answer as on the primary, and leaves no dirty mark on it. *)
Theorem dirty_bucket_redo ops h replica log key :
  hi_rep h log → hi_rep replica log → hi_dirtyKeys h = [] → hi_fullReplaceDirty h = false →
  Forall index_op_ok ops → comparable key →
  let h' := foldl (λ h op, hash_apply op h) h ops in
  let replica' := applyDirtyBuckets (takeDirtyBuckets h').1 replica in
  HashIndex_find key replica' = HashIndex_find key h' ∧ HashIndex_hasDirtyPages replica' = false.
Proof.
  intros Hrep Hrepl Hdk Hfr Hops Hkey h' replica'.
  assert (hi_since h h') as [Hdirty Hs].
  { eapply hash_run_since; [|done..]. split; [by rewrite Hdk|done]. }
  pose proof (hash_run_rep ops h log Hrep Hops) as [Hok' Hne' _ Hf']. fold h' in Hok', Hne', Hf'.
  destruct (apply_dirty_find h' replica) as (_ & _ & Hclean & Hfind); [done..|apply Hrepl|exact (hr_nonempty _ _ Hrepl)|].
  split; [|done]. subst replica'. rewrite Hfind by done.
  destruct (hi_fullReplaceDirty h') eqn:Efull; [done|]. cbn [orb].
  destruct (existsb _ _) eqn:Ee; [done|].
  rewrite (hr_find _ _ Hrepl), <- (hr_find _ _ Hrep) by done. symmetry. by apply Hs.
Qed.

Lemma hi_rep_clearDirty h log : hi_rep h log → hi_rep (HashIndex_clearDirtyPages h) log.
Proof. intros [H1 H2 H3 H4]. by split. Qed.

Lemma dirty_bucket_redo_witness :
  let ops0 := [IX_insert (VInt 2) 7; IX_insert (VInt 3) 8] in
  let ops := [IX_insert (VInt 1) 10; IX_remove (VInt 2) 7] in
  let h := HashIndex_clearDirtyPages (foldl (λ h op, hash_apply op h) hi_empty ops0) in
  let h' := foldl (λ h op, hash_apply op h) h ops in
  HashIndex_find (VInt 2) (applyDirtyBuckets (takeDirtyBuckets h').1 h) = [].
Proof.
  intros ops0 ops h h'.
  assert (hi_rep h (foldl (λ l op, log_apply op l) [] ops0)) as Hrep.
  { apply hi_rep_clearDirty, hash_run_rep; [apply hi_rep_empty|by repeat constructor]. }
  assert (Forall index_op_ok ops) as Hops by (repeat constructor).
  etrans; [apply (dirty_bucket_redo ops h h _ (VInt 2) Hrep Hrep eq_refl eq_refl Hops); done|].
  reflexivity.
Defined.

(** ** Hashing respects equality *)

Section hash_equal.
Context (hash_int64 : Z → Z) (hash_double : Z → Z) (hash_string : string → Z).
(** [std::hash<double>] gives equal doubles equal hashes. *)
Hypothesis hash_double_eq : ∀ a b, double_eqb a b = true → hash_double a = hash_double b.

(** equal values have equal hashes: whenever [a == b] for two values (also
    composite keys, and [+0.0] and [-0.0]), [ValueHash] agrees on them, so the
    unordered maps of the index find a key under any value equal to it. *)
Theorem ValueHash_equal a b :
  Value_eqb a b = true →
  ValueHash hash_int64 hash_double hash_string a = ValueHash hash_int64 hash_double hash_string b.
Proof.
  revert b. induction a as [|i|d|s|i|ps IH] using Value_ind'; intros b E; destruct b as [|j|d'|s'|j|qs];
    simpl in E; try done.
  - bool_facts. by subst.
  - simpl. by rewrite (hash_double_eq d d').
  - apply String.eqb_eq in E. by subst.
  - simpl. revert qs E. generalize golden as seed. induction IH as [|p ps Hp _ IHps]; intros seed [|q qs] E;
      simpl in E; try done. bool_facts. simpl. rewrite (Hp q) by done.
    destruct (ValueHash _ _ _ q); simpl; [|done]. by apply IHps.
Qed.
End hash_equal.

Lemma ValueHash_equal_witness :
  ValueHash id double_key (λ _, 0%Z) (VComposite [VInt 1; VDouble 0]) =
  ValueHash id double_key (λ _, 0%Z) (VComposite [VInt 1; VDouble (2 ^ 63)]).
Proof.
  apply (ValueHash_equal id double_key (λ _, 0%Z)); [|reflexivity].
  intros a b E. unfold double_eqb in E. by bool_facts.
Defined.
