(* ===== verification/BTreeIndex.v ===== *)
(** * The B+ tree index

    [src/indexing/btree_index_lookup.cpp], [btree_index_mutate.cpp],
    [btree_index_snapshot.cpp] and [btree_index_detail.hpp]: nodes in a page
    table, leaves chained through [nextLeaf], insertion with splits propagated
    along the path from the root.

    A path is kept with its last page first, so that [path.pop_back()] is the
    tail.  [nodes_.at] throws; the non-const accessor marks the page dirty.  The
    loops that walk the tree or the leaf chain take as fuel one more than the
    number of pages, which a well-formed tree never exhausts ([BTreeProof.v]);
    running out of it throws [logic_error]. *)

From S2P Require Import Prelude Value.
Local Open Scope nat_scope.

Abbreviation BTreePageId := nat.

Record BTreeNode : Type := mkBTreeNode {
  bn_pageId : BTreePageId;
  bn_leaf : bool;
  bn_keys : list Value;
  bn_rowIds : list (list RowId);
  bn_children : list BTreePageId;
  bn_nextLeaf : option BTreePageId
}.

Record BTreeIndexSnapshot : Type := mkBTreeIndexSnapshot {
  bs_maxKeysPerNode : nat;
  bs_rootPageId : BTreePageId;
  bs_nextPageId : BTreePageId;
  bs_freePageIds : list BTreePageId;
  bs_keyCount : nat;
  bs_nodes : list BTreeNode
}.

Record BTreeIndex : Type := mkBTreeIndex {
  bt_maxKeysPerNode : nat;
  bt_nodes : gmap BTreePageId BTreeNode;
  bt_freePageIds : list BTreePageId;
  bt_rootPageId : BTreePageId;
  bt_nextPageId : BTreePageId;
  bt_keyCount : nat;
  bt_dirtyPages : gset BTreePageId;
  bt_metadataDirty : bool;
  bt_fullReplaceDirty : bool
}.

(** [btree_detail::lowerBoundKey]: binary search for the first key not below
    [key]. *)
Fixpoint lowerBound_loop (fuel : nat) (keys : list Value) (key : Value) (lo hi : nat) : nat :=
  match fuel with
  | O => lo
  | S fuel =>
      if Nat.ltb lo hi then
        let mid := lo + (hi - lo) / 2 in
        match keys !! mid with
        | Some k =>
            if Value_ltb k key then lowerBound_loop fuel keys key (mid + 1) hi
            else lowerBound_loop fuel keys key lo mid
        | None => lo
        end
      else lo
  end.

Definition lowerBoundKey (keys : list Value) (key : Value) : nat :=
  lowerBound_loop (length keys) keys key 0 (length keys).

(** ** Pages *)

Definition node_at (b : BTreeIndex) (p : BTreePageId) : result BTreeNode :=
  match bt_nodes b !! p with
  | Some n => Ok n
  | None => Throw (out_of_range "unordered_map::at")
  end.

Definition bt_with_nodes (nodes : gmap BTreePageId BTreeNode) (b : BTreeIndex) : BTreeIndex :=
  mkBTreeIndex (bt_maxKeysPerNode b) nodes (bt_freePageIds b) (bt_rootPageId b) (bt_nextPageId b)
    (bt_keyCount b) (bt_dirtyPages b) (bt_metadataDirty b) (bt_fullReplaceDirty b).

Definition bt_markDirty (p : BTreePageId) (b : BTreeIndex) : BTreeIndex :=
  mkBTreeIndex (bt_maxKeysPerNode b) (bt_nodes b) (bt_freePageIds b) (bt_rootPageId b)
    (bt_nextPageId b) (bt_keyCount b) ({[p]} ∪ bt_dirtyPages b) true (bt_fullReplaceDirty b).

(** The non-const [node(pageId)]: the page is marked dirty, then looked up. *)
Definition node_mut (p : BTreePageId) (b : BTreeIndex) : result (BTreeNode * BTreeIndex) :=
  let b := bt_markDirty p b in
  n ← node_at b p; Ok (n, b).

(** A write through a page reference. *)
Definition put_node (p : BTreePageId) (n : BTreeNode) (b : BTreeIndex) : BTreeIndex :=
  bt_with_nodes (<[p := n]> (bt_nodes b)) b.

(** [nodes_.emplace(p, n)]. *)
Definition emplace_node (p : BTreePageId) (n : BTreeNode) (b : BTreeIndex) : BTreeIndex :=
  match bt_nodes b !! p with Some _ => b | None => put_node p n b end.

Definition allocatePage (b : BTreeIndex) : BTreePageId * BTreeIndex :=
  match unsnoc (bt_freePageIds b) with
  | Some (free, id) =>
      (id, mkBTreeIndex (bt_maxKeysPerNode b) (bt_nodes b) free (bt_rootPageId b) (bt_nextPageId b)
             (bt_keyCount b) (bt_dirtyPages b) true (bt_fullReplaceDirty b))
  | None =>
      (bt_nextPageId b,
       mkBTreeIndex (bt_maxKeysPerNode b) (bt_nodes b) (bt_freePageIds b) (bt_rootPageId b)
         (S (bt_nextPageId b)) (bt_keyCount b) (bt_dirtyPages b) true (bt_fullReplaceDirty b))
  end.

Definition leaf_node (p : BTreePageId) : BTreeNode := mkBTreeNode p true [] [] [] None.

Definition BTreeIndex_new (maxKeysPerNode : nat) : result BTreeIndex :=
  _ ← throw_if (Nat.ltb maxKeysPerNode 2)
        (invalid_argument "B+ tree node capacity must be at least 2");
  Ok (mkBTreeIndex maxKeysPerNode {[1 := leaf_node 1]} [] 1 2 0 ∅ false false).

Definition BTreeIndex_clear (b : BTreeIndex) : BTreeIndex :=
  mkBTreeIndex (bt_maxKeysPerNode b) {[1 := leaf_node 1]} [] 1 2 0 ∅ true true.

(** ** Descent *)

(** The first index whose key is above [key]. *)
Fixpoint childIndex (keys : list Value) (key : Value) : nat :=
  match keys with
  | [] => 0
  | k :: keys => if negb (Value_ltb key k) then S (childIndex keys key) else 0
  end.

Definition childFor (internal : BTreeNode) (key : Value) : result BTreePageId :=
  match bn_children internal !! childIndex (bn_keys internal) key with
  | Some p => Ok p
  | None => Throw (out_of_range "vector index out of range")
  end.

Definition out_of_fuel {A} : result A := Throw (logic_error "page walk does not end").

Fixpoint leftmost_loop (fuel : nat) (b : BTreeIndex) (p : BTreePageId) : result BTreePageId :=
  match fuel with
  | O => out_of_fuel
  | S fuel =>
      n ← node_at b p;
      if bn_leaf n then Ok p
      else
        match bn_children n with
        | c :: _ => leftmost_loop fuel b c
        | [] => Throw (out_of_range "front of an empty vector")
        end
  end.

Definition walk_fuel (b : BTreeIndex) : nat := S (size (bt_nodes b)).

Definition leftmostLeaf (b : BTreeIndex) : result BTreePageId :=
  leftmost_loop (walk_fuel b) b (bt_rootPageId b).

(** The path so far, its last page first. *)
Fixpoint path_loop (fuel : nat) (b : BTreeIndex) (key : Value) (p : BTreePageId)
    (path : list BTreePageId) : result (list BTreePageId) :=
  match fuel with
  | O => out_of_fuel
  | S fuel =>
      let path := p :: path in
      current ← node_at b p;
      if bn_leaf current then Ok path
      else c ← childFor current key; path_loop fuel b key c path
  end.

Definition pathToLeaf (key : Value) (b : BTreeIndex) : result (list BTreePageId) :=
  path_loop (walk_fuel b) b key (bt_rootPageId b) [].

(** [path.back()]. *)
Definition path_back (path : list BTreePageId) : result BTreePageId :=
  match path with p :: _ => Ok p | [] => Throw (out_of_range "back of an empty vector") end.

(** ** Lookups *)

Definition BTreeIndex_find (key : Value) (b : BTreeIndex) : result (list RowId) :=
  path ← pathToLeaf key b;
  leafId ← path_back path;
  leaf ← node_at b leafId;
  let index := lowerBoundKey (bn_keys leaf) key in
  match bn_keys leaf !! index with
  | Some k => if Value_eqb k key then Ok (default [] (bn_rowIds leaf !! index)) else Ok []
  | None => Ok []
  end.

(** The entries of one leaf in [lessThan]: the rows collected and whether the
    scan stops in this leaf. *)
Fixpoint leaf_less (key : Value) (keys : list Value) (rowIds : list (list RowId)) : list RowId * bool :=
  match keys, rowIds with
  | k :: keys, ids :: rowIds =>
      if negb (Value_ltb k key) then ([], true)
      else let '(rest, stop) := leaf_less key keys rowIds in (ids ++ rest, stop)
  | _, _ => ([], false)
  end.

Fixpoint less_loop (fuel : nat) (b : BTreeIndex) (key : Value) (p : option BTreePageId)
  : result (list RowId) :=
  match p with
  | None => Ok []
  | Some p =>
      match fuel with
      | O => out_of_fuel
      | S fuel =>
          leaf ← node_at b p;
          let '(ids, stop) := leaf_less key (bn_keys leaf) (bn_rowIds leaf) in
          if stop : bool then Ok ids
          else rest ← less_loop fuel b key (bn_nextLeaf leaf); Ok (ids ++ rest)
      end
  end.

Definition BTreeIndex_lessThan (key : Value) (b : BTreeIndex) : result (list RowId) :=
  p ← leftmostLeaf b;
  less_loop (walk_fuel b) b key (Some p).

(** The entries of one leaf in [greaterThan], with the [collecting] flag. *)
Fixpoint leaf_greater (key : Value) (keys : list Value) (rowIds : list (list RowId))
    (collecting : bool) : list RowId * bool :=
  match keys, rowIds with
  | k :: keys, ids :: rowIds =>
      let collecting := collecting || Value_ltb key k in
      let '(rest, c) := leaf_greater key keys rowIds collecting in
      ((if collecting then ids else []) ++ rest, c)
  | _, _ => ([], collecting)
  end.

Fixpoint greater_loop (fuel : nat) (b : BTreeIndex) (key : Value) (p : option BTreePageId)
    (collecting : bool) : result (list RowId) :=
  match p with
  | None => Ok []
  | Some p =>
      match fuel with
      | O => out_of_fuel
      | S fuel =>
          leaf ← node_at b p;
          let '(ids, collecting) := leaf_greater key (bn_keys leaf) (bn_rowIds leaf) collecting in
          rest ← greater_loop fuel b key (bn_nextLeaf leaf) collecting; Ok (ids ++ rest)
      end
  end.

Definition BTreeIndex_greaterThan (key : Value) (b : BTreeIndex) : result (list RowId) :=
  path ← pathToLeaf key b;
  startId ← path_back path;
  greater_loop (walk_fuel b) b key (Some startId) false.

Definition BTreeIndex_size (b : BTreeIndex) : nat := bt_keyCount b.

(** The levels of the tree and the leaves of the chain. *)
Fixpoint height_loop (fuel : nat) (b : BTreeIndex) (p : BTreePageId) (levels : nat) : result nat :=
  match fuel with
  | O => out_of_fuel
  | S fuel =>
      n ← node_at b p;
      if bn_leaf n then Ok levels
      else
        match bn_children n with
        | c :: _ => height_loop fuel b c (S levels)
        | [] => Throw (out_of_range "front of an empty vector")
        end
  end.

Definition BTreeIndex_height (b : BTreeIndex) : result nat :=
  height_loop (walk_fuel b) b (bt_rootPageId b) 1.

Fixpoint leaf_chain (fuel : nat) (b : BTreeIndex) (p : option BTreePageId) : result (list BTreeNode) :=
  match p with
  | None => Ok []
  | Some p =>
      match fuel with
      | O => out_of_fuel
      | S fuel =>
          leaf ← node_at b p;
          rest ← leaf_chain fuel b (bn_nextLeaf leaf); Ok (leaf :: rest)
      end
  end.

Definition leafPageCount (b : BTreeIndex) : result nat :=
  p ← leftmostLeaf b;
  l ← leaf_chain (walk_fuel b) b (Some p); Ok (length l).

(** ** Insertion *)

Definition insert_vec {A} (i : nat) (x : A) (l : list A) : list A := take i l ++ x :: drop i l.

Definition bt_set_root (p : BTreePageId) (b : BTreeIndex) : BTreeIndex :=
  mkBTreeIndex (bt_maxKeysPerNode b) (bt_nodes b) (bt_freePageIds b) p (bt_nextPageId b)
    (bt_keyCount b) (bt_dirtyPages b) (bt_metadataDirty b) (bt_fullReplaceDirty b).

Definition bt_incr_keyCount (b : BTreeIndex) : BTreeIndex :=
  mkBTreeIndex (bt_maxKeysPerNode b) (bt_nodes b) (bt_freePageIds b) (bt_rootPageId b)
    (bt_nextPageId b) (S (bt_keyCount b)) (bt_dirtyPages b) (bt_metadataDirty b)
    (bt_fullReplaceDirty b).

(** [insertSeparator] and [splitInternal] call each other along the path; the
    recursion is structural on it. *)
Fixpoint insertSeparator (path : list BTreePageId) (separator : Value) (rightChild : BTreePageId)
    (b : BTreeIndex) : result BTreeIndex :=
  match path with
  | [] =>
      let oldRoot := bt_rootPageId b in
      let '(id, b) := allocatePage b in
      Ok (emplace_node id (mkBTreeNode id false [separator] [] [oldRoot; rightChild] None)
            (bt_set_root id b))
  | parentId :: path' =>
      '(parent, b) ← node_mut parentId b;
      let index := childIndex (bn_keys parent) separator in
      let parent := mkBTreeNode (bn_pageId parent) (bn_leaf parent)
                      (insert_vec index separator (bn_keys parent)) (bn_rowIds parent)
                      (insert_vec (index + 1) rightChild (bn_children parent)) (bn_nextLeaf parent) in
      let b := put_node parentId parent b in
      if Nat.ltb (bt_maxKeysPerNode b) (length (bn_keys parent)) then
        (* splitInternal(path) *)
        '(lpage, b) ← node_mut parentId b;
        let mid := length (bn_keys lpage) / 2 in
        match bn_keys lpage !! mid with
        | None => Throw (out_of_range "vector index out of range")
        | Some promoted =>
            let '(rightId, b) := allocatePage b in
            let rpage := mkBTreeNode rightId false (drop (mid + 1) (bn_keys lpage)) []
                           (drop (mid + 1) (bn_children lpage)) None in
            let lpage := mkBTreeNode (bn_pageId lpage) (bn_leaf lpage) (take mid (bn_keys lpage))
                          (bn_rowIds lpage) (take (mid + 1) (bn_children lpage)) (bn_nextLeaf lpage) in
            let b := emplace_node rightId rpage (put_node parentId lpage b) in
            insertSeparator path' promoted rightId b
        end
      else Ok b
  end.

Definition splitLeaf (path : list BTreePageId) (b : BTreeIndex) : result BTreeIndex :=
  match path with
  | [] => Throw (out_of_range "back of an empty vector")
  | leftId :: path' =>
      '(lpage, b) ← node_mut leftId b;
      let mid := length (bn_keys lpage) / 2 in
      let '(rightId, b) := allocatePage b in
      let rpage := mkBTreeNode rightId true (drop mid (bn_keys lpage)) (drop mid (bn_rowIds lpage)) []
                     (bn_nextLeaf lpage) in
      let lpage := mkBTreeNode (bn_pageId lpage) (bn_leaf lpage) (take mid (bn_keys lpage))
                    (take mid (bn_rowIds lpage)) (bn_children lpage) (Some rightId) in
      match bn_keys rpage with
      | [] => Throw (out_of_range "front of an empty vector")
      | separator :: _ =>
          insertSeparator path' separator rightId
            (emplace_node rightId rpage (put_node leftId lpage b))
      end
  end.

Definition insertIntoLeaf (path : list BTreePageId) (key : Value) (rowId : RowId) (b : BTreeIndex)
  : result BTreeIndex :=
  leafId ← path_back path;
  '(leaf, b) ← node_mut leafId b;
  let index := lowerBoundKey (bn_keys leaf) key in
  let found := match bn_keys leaf !! index with Some k => Value_eqb k key | None => false end in
  if found : bool then
    Ok (put_node leafId
          (mkBTreeNode (bn_pageId leaf) (bn_leaf leaf) (bn_keys leaf)
             (alter (λ ids, ids ++ [rowId]) index (bn_rowIds leaf)) (bn_children leaf)
             (bn_nextLeaf leaf)) b)
  else
    let leaf := mkBTreeNode (bn_pageId leaf) (bn_leaf leaf) (insert_vec index key (bn_keys leaf))
                  (insert_vec index [rowId] (bn_rowIds leaf)) (bn_children leaf) (bn_nextLeaf leaf) in
    let b := bt_incr_keyCount (put_node leafId leaf b) in
    if Nat.ltb (bt_maxKeysPerNode b) (length (bn_keys leaf)) then splitLeaf path b else Ok b.

Definition BTreeIndex_insert (key : Value) (rowId : RowId) (b : BTreeIndex) : result BTreeIndex :=
  path ← pathToLeaf key b;
  insertIntoLeaf path key rowId b.

(** ** Removal *)

Definition bt_minKeys (b : BTreeIndex) : nat := bt_maxKeysPerNode b / 2.

Definition freePage (p : BTreePageId) (b : BTreeIndex) : BTreeIndex :=
  mkBTreeIndex (bt_maxKeysPerNode b) (delete p (bt_nodes b)) (bt_freePageIds b ++ [p])
    (bt_rootPageId b) (bt_nextPageId b) (bt_keyCount b) (bt_dirtyPages b ∖ {[p]}) true true.

Definition bt_decr_keyCount (b : BTreeIndex) : BTreeIndex :=
  mkBTreeIndex (bt_maxKeysPerNode b) (bt_nodes b) (bt_freePageIds b) (bt_rootPageId b)
    (bt_nextPageId b) (pred (bt_keyCount b)) (bt_dirtyPages b) (bt_metadataDirty b)
    (bt_fullReplaceDirty b).

(** Vector accesses; an index outside the vector throws here. *)
Definition vec_at {A} (l : list A) (i : nat) : result A :=
  match l !! i with Some x => Ok x | None => Throw (out_of_range "vector index out of range") end.
Definition vec_front {A} (l : list A) : result A :=
  match l with x :: _ => Ok x | [] => Throw (out_of_range "front of an empty vector") end.
Definition vec_back {A} (l : list A) : result (list A * A) :=
  match unsnoc l with Some p => Ok p | None => Throw (out_of_range "back of an empty vector") end.

(** Assignments to the vectors of a page. *)
Definition set_leaf (n : BTreeNode) (keys : list Value) (rowIds : list (list RowId))
    (next : option BTreePageId) : BTreeNode :=
  mkBTreeNode (bn_pageId n) (bn_leaf n) keys rowIds (bn_children n) next.
Definition set_inner (n : BTreeNode) (keys : list Value) (children : list BTreePageId) : BTreeNode :=
  mkBTreeNode (bn_pageId n) (bn_leaf n) keys (bn_rowIds n) children (bn_nextLeaf n).

Definition updateSeparator (parentId : BTreePageId) (index : nat) (separator : Value)
    (b : BTreeIndex) : result BTreeIndex :=
  '(parent, b) ← node_mut parentId b;
  if Nat.eqb index 0 || Nat.ltb (length (bn_keys parent)) index then Ok b
  else Ok (put_node parentId
             (set_inner parent (<[index - 1 := separator]> (bn_keys parent)) (bn_children parent)) b).

(** The parent and its adjacent children [i] and [i + 1], as references. *)
Definition siblings (parentId : BTreePageId) (i : nat) (b : BTreeIndex)
  : result (BTreeNode * (BTreePageId * BTreeNode) * (BTreePageId * BTreeNode) * BTreeIndex) :=
  '(parent, b) ← node_mut parentId b;
  lid ← vec_at (bn_children parent) i;
  '(lpage, b) ← node_mut lid b;
  rid ← vec_at (bn_children parent) (i + 1);
  '(rpage, b) ← node_mut rid b;
  Ok (parent, (lid, lpage), (rid, rpage), b).

Definition borrowFromLeftLeaf (parentId : BTreePageId) (i : nat) (b : BTreeIndex) : result BTreeIndex :=
  '(parent, (lid, lpage), (rid, rpage), b) ← siblings parentId (i - 1) b;
  '(lkeys, k) ← vec_back (bn_keys lpage);
  '(lrows, ids) ← vec_back (bn_rowIds lpage);
  let rpage := set_leaf rpage (k :: bn_keys rpage) (ids :: bn_rowIds rpage) (bn_nextLeaf rpage) in
  let lpage := set_leaf lpage lkeys lrows (bn_nextLeaf lpage) in
  let parent := set_inner parent (<[i - 1 := k]> (bn_keys parent)) (bn_children parent) in
  Ok (put_node parentId parent (put_node lid lpage (put_node rid rpage b))).

Definition borrowFromRightLeaf (parentId : BTreePageId) (i : nat) (b : BTreeIndex) : result BTreeIndex :=
  '(parent, (lid, lpage), (rid, rpage), b) ← siblings parentId i b;
  k ← vec_front (bn_keys rpage);
  ids ← vec_front (bn_rowIds rpage);
  let lpage := set_leaf lpage (bn_keys lpage ++ [k]) (bn_rowIds lpage ++ [ids]) (bn_nextLeaf lpage) in
  let rpage := set_leaf rpage (drop 1 (bn_keys rpage)) (drop 1 (bn_rowIds rpage)) (bn_nextLeaf rpage) in
  sep ← vec_front (bn_keys rpage);
  let parent := set_inner parent (<[i := sep]> (bn_keys parent)) (bn_children parent) in
  Ok (put_node parentId parent (put_node rid rpage (put_node lid lpage b))).

Definition borrowFromLeftInternal (parentId : BTreePageId) (i : nat) (b : BTreeIndex) : result BTreeIndex :=
  '(parent, (lid, lpage), (rid, rpage), b) ← siblings parentId (i - 1) b;
  sep ← vec_at (bn_keys parent) (i - 1);
  '(lchildren, c) ← vec_back (bn_children lpage);
  '(lkeys, k) ← vec_back (bn_keys lpage);
  let rpage := set_inner rpage (sep :: bn_keys rpage) (c :: bn_children rpage) in
  let parent := set_inner parent (<[i - 1 := k]> (bn_keys parent)) (bn_children parent) in
  let lpage := set_inner lpage lkeys lchildren in
  Ok (put_node lid lpage (put_node parentId parent (put_node rid rpage b))).

Definition borrowFromRightInternal (parentId : BTreePageId) (i : nat) (b : BTreeIndex) : result BTreeIndex :=
  '(parent, (lid, lpage), (rid, rpage), b) ← siblings parentId i b;
  sep ← vec_at (bn_keys parent) i;
  c ← vec_front (bn_children rpage);
  k ← vec_front (bn_keys rpage);
  let lpage := set_inner lpage (bn_keys lpage ++ [sep]) (bn_children lpage ++ [c]) in
  let parent := set_inner parent (<[i := k]> (bn_keys parent)) (bn_children parent) in
  let rpage := set_inner rpage (drop 1 (bn_keys rpage)) (drop 1 (bn_children rpage)) in
  Ok (put_node rid rpage (put_node parentId parent (put_node lid lpage b))).

Definition mergeLeaves (parentId : BTreePageId) (i : nat) (b : BTreeIndex) : result BTreeIndex :=
  '(parent, (lid, lpage), (rid, rpage), b) ← siblings parentId i b;
  let lpage := set_leaf lpage (bn_keys lpage ++ bn_keys rpage) (bn_rowIds lpage ++ bn_rowIds rpage)
                 (bn_nextLeaf rpage) in
  let parent := set_inner parent (delete i (bn_keys parent)) (delete (i + 1) (bn_children parent)) in
  Ok (freePage rid (put_node parentId parent (put_node lid lpage b))).

Definition mergeInternals (parentId : BTreePageId) (i : nat) (b : BTreeIndex) : result BTreeIndex :=
  '(parent, (lid, lpage), (rid, rpage), b) ← siblings parentId i b;
  sep ← vec_at (bn_keys parent) i;
  let lpage := set_inner lpage (bn_keys lpage ++ sep :: bn_keys rpage)
                 (bn_children lpage ++ bn_children rpage) in
  let parent := set_inner parent (delete i (bn_keys parent)) (delete (i + 1) (bn_children parent)) in
  Ok (freePage rid (put_node parentId parent (put_node lid lpage b))).

Definition collapseRootIfNeeded (b : BTreeIndex) : result BTreeIndex :=
  '(root, b) ← node_mut (bt_rootPageId b) b;
  if bn_leaf root then Ok b
  else
    match bn_children root with
    | [onlyChild] => Ok (bt_set_root onlyChild (freePage (bt_rootPageId b) b))
    | _ => Ok b
    end.

(** Position of a page among the children of its parent. *)
Fixpoint child_pos (p : BTreePageId) (children : list BTreePageId) : option nat :=
  match children with
  | [] => None
  | c :: children => if Nat.eqb c p then Some 0 else S <$> child_pos p children
  end.

(** Whether a sibling can give a key; the access marks its page dirty. *)
Definition can_lend (parent : BTreeNode) (i : nat) (b : BTreeIndex) : result (bool * BTreeIndex) :=
  c ← vec_at (bn_children parent) i;
  '(sibling, b) ← node_mut c b;
  Ok (Nat.ltb (bt_minKeys b) (length (bn_keys sibling)), b).

(** The body of the loop for an underfull page: [true] when the loop breaks. *)
Definition rebalance_step (isLeaf : bool) (parentId : BTreePageId) (parent : BTreeNode) (index : nat)
    (b : BTreeIndex) : result (bool * BTreeIndex) :=
  '(fromLeft, b) ← (if Nat.ltb 0 index then can_lend parent (index - 1) b else Ok (false, b));
  if fromLeft : bool then
    b ← (if isLeaf then borrowFromLeftLeaf else borrowFromLeftInternal) parentId index b; Ok (true, b)
  else
    '(fromRight, b) ← (if Nat.ltb (index + 1) (length (bn_children parent))
                       then can_lend parent (index + 1) b else Ok (false, b));
    if fromRight : bool then
      b ← (if isLeaf then borrowFromRightLeaf else borrowFromRightInternal) parentId index b;
      Ok (true, b)
    else
      b ← (if isLeaf then mergeLeaves else mergeInternals) parentId
            (if Nat.ltb 0 index then index - 1 else index) b;
      Ok (false, b).

(** The loop of [rebalanceAfterDelete], on the path. *)
Fixpoint rebalance_loop (path : list BTreePageId) (b : BTreeIndex) : result BTreeIndex :=
  match path with
  | pageId :: (parentId :: up) as path' =>
      '(current, b) ← node_mut pageId b;
      '(parent, b) ← node_mut parentId b;
      match child_pos pageId (bn_children parent) with
      | None => Throw (logic_error "B+ tree child missing from parent")
      | Some index =>
          if negb (Nat.ltb (length (bn_keys current)) (bt_minKeys b)) then Ok b
          else
            '(stop, b) ← rebalance_step (bn_leaf current) parentId parent index b;
            if stop : bool then Ok b
            else
              '(parent, b) ← node_mut parentId b;
              if Nat.leb (bt_minKeys b) (length (bn_keys parent)) || Nat.eqb (length (parentId :: up)) 1
              then Ok b
              else rebalance_loop path' b
      end
  | _ => Ok b
  end.

Definition rebalanceAfterDelete (path : list BTreePageId) (b : BTreeIndex) : result BTreeIndex :=
  b ← rebalance_loop path b; collapseRootIfNeeded b.

(** The end of [removeFromLeaf], once the key at [index] is erased and [keys] are
    left in the leaf: the separator of the leaf, then the rebalancing. *)
Definition leafShrunk (path : list BTreePageId) (index : nat) (key : Value) (keys : list Value)
    (b : BTreeIndex) : result BTreeIndex :=
  match path with
  | _ :: parentId :: _ =>
      b ← match index, keys with
          | O, first :: _ =>
              '(parent, b) ← node_mut parentId b;
              let parentChild := childIndex (bn_keys parent) key in
              if Nat.ltb 0 parentChild then updateSeparator parentId parentChild first b else Ok b
          | _, _ => Ok b
          end;
      if Nat.ltb (length keys) (bt_minKeys b) then rebalanceAfterDelete path b else Ok b
  | _ => Ok b
  end.

Definition removeFromLeaf (path : list BTreePageId) (key : Value) (rowId : RowId) (b : BTreeIndex)
  : result BTreeIndex :=
  leafId ← path_back path;
  '(leaf, b) ← node_mut leafId b;
  let index := lowerBoundKey (bn_keys leaf) key in
  let found := match bn_keys leaf !! index with Some k => Value_eqb k key | None => false end in
  if negb found then Ok b
  else
    ids ← vec_at (bn_rowIds leaf) index;
    let ids := erase_all rowId ids in
    if negb (bool_decide (ids = [])) then
      Ok (put_node leafId (set_leaf leaf (bn_keys leaf) (<[index := ids]> (bn_rowIds leaf))
                             (bn_nextLeaf leaf)) b)
    else
      let leaf := set_leaf leaf (delete index (bn_keys leaf)) (delete index (bn_rowIds leaf))
                    (bn_nextLeaf leaf) in
      let b := bt_decr_keyCount (put_node leafId leaf b) in
      leafShrunk path index key (bn_keys leaf) b.

Definition BTreeIndex_remove (key : Value) (rowId : RowId) (b : BTreeIndex) : result BTreeIndex :=
  path ← pathToLeaf key b;
  removeFromLeaf path key rowId b.

(** ** Snapshots *)

Definition bt_exportPages (b : BTreeIndex) : BTreeIndexSnapshot :=
  mkBTreeIndexSnapshot (bt_maxKeysPerNode b) (bt_rootPageId b) (bt_nextPageId b) (bt_freePageIds b)
    (bt_keyCount b) (sorted_entries (bt_nodes b)).*2.

(** [nodes_.emplace(page.pageId, page)] for every page. *)
Definition load_nodes (nodes : list BTreeNode) : gmap BTreePageId BTreeNode :=
  foldl (λ m n, match m !! bn_pageId n with Some _ => m | None => <[bn_pageId n := n]> m end) ∅ nodes.

Definition bt_replaceFromPages (snapshot : BTreeIndexSnapshot) (b : BTreeIndex) : result BTreeIndex :=
  _ ← throw_if (Nat.ltb (bs_maxKeysPerNode snapshot) 2)
        (invalid_argument "B+ tree node capacity must be at least 2");
  let nodes := load_nodes (bs_nodes snapshot) in
  _ ← throw_if (negb (bool_decide (is_Some (nodes !! bs_rootPageId snapshot))))
        (invalid_argument "B+ tree snapshot is missing the root page");
  Ok (mkBTreeIndex (bs_maxKeysPerNode snapshot) nodes (bs_freePageIds snapshot)
        (bs_rootPageId snapshot) (bs_nextPageId snapshot) (bs_keyCount snapshot) ∅ false false).

Definition bt_clearDirtyPages (b : BTreeIndex) : BTreeIndex :=
  mkBTreeIndex (bt_maxKeysPerNode b) (bt_nodes b) (bt_freePageIds b) (bt_rootPageId b)
    (bt_nextPageId b) (bt_keyCount b) ∅ false false.

Definition bt_hasDirtyPages (b : BTreeIndex) : bool :=
  bt_fullReplaceDirty b || bt_metadataDirty b || negb (bool_decide (bt_dirtyPages b = ∅)).

(** [BTreeIndexSnapshot{}] with its member initializers. *)
Definition bs_default : BTreeIndexSnapshot := mkBTreeIndexSnapshot 64 1 2 [] 0 [].

Definition bt_takeDirtyPages (b : BTreeIndex) : BTreeIndexSnapshot * BTreeIndex :=
  if negb (bt_hasDirtyPages b) then (bs_default, b)
  else (bt_exportPages b, bt_clearDirtyPages b).

Definition bt_applyDirtyPages (dirty : BTreeIndexSnapshot) (b : BTreeIndex) : result BTreeIndex :=
  if bool_decide (length (bs_nodes dirty) = 0) && Nat.eqb (bs_keyCount dirty) 0
     && Nat.eqb (bs_rootPageId dirty) 0
  then Ok b
  else bt_replaceFromPages dirty b.
