(* ===== verification/BTreeTree.v ===== *)
(** * Ghost trees for the B+ tree index

    The page table of a [BTreeIndex] represents an inductive tree: [pages] lists
    the pages of a tree with the leaf chain threaded through it, [wf] is the
    B+ tree invariant (uniform height, key bounds, fill) and a [ctx] is the path
    from a subtree to the root, with the siblings on both sides.  [store] ties a
    page table to a list of pages, up to permutation, so that each page update of
    the code is one rewriting step. *)

From S2P Require Import Prelude Value HashIndex BTreeIndex.
Local Open Scope nat_scope.

(** ** Order facts on comparable keys *)

Lemma vlt_le_trans a b c : comparable a → comparable b → comparable c →
  Value_ltb a b = true → Value_ltb c b = false → Value_ltb a c = true.
Proof.
  intros Ha Hb Hc Hab Hcb. destruct (Value_ltb a c) eqn:E; [done|]. exfalso.
  destruct (Value_ltb c a) eqn:E2.
  - rewrite (Value_ltb_trans c a b) in Hcb by done. done.
  - assert (Value_cmp a c = Eq) as Heq.
    { unfold Value_ltb in E, E2. rewrite (Value_cmp_anti a c) in E2. by destruct (Value_cmp a c). }
    apply Value_cmp_Eq in Heq; [|done..].
    unfold Value_ltb in Hab, Hcb. rewrite (Value_cmp_eq_l a c b) in Hab by done.
    by destruct (Value_cmp c b).
Qed.

Lemma vle_lt_trans a b c : comparable a → comparable b → comparable c →
  Value_ltb b a = false → Value_ltb b c = true → Value_ltb a c = true.
Proof.
  intros Ha Hb Hc Hba Hbc. destruct (Value_ltb a c) eqn:E; [done|]. exfalso.
  rewrite (vlt_le_trans b c a) in Hba by done. done.
Qed.

Lemma vlt_le a b : Value_ltb a b = true → Value_ltb b a = false.
Proof. apply Value_ltb_asym. Qed.

Lemma veq_not_lt a b : comparable a → comparable b → Value_eqb a b = true → Value_ltb a b = false.
Proof.
  intros Ha Hb H. apply (Value_cmp_Eq a b) in H; [|done..]. unfold Value_ltb. by rewrite H.
Qed.

Lemma vle_cases a b : comparable a → comparable b → Value_ltb a b = false →
  Value_eqb a b = true ∨ Value_ltb b a = true.
Proof.
  intros Ha Hb H. unfold Value_ltb in *. rewrite (Value_cmp_anti a b).
  destruct (Value_cmp a b) eqn:E; try done; [left|by right]. by apply Value_cmp_Eq.
Qed.

Lemma vlt_neq a b : comparable a → comparable b → Value_ltb a b = true → Value_eqb a b = false.
Proof.
  intros Ha Hb H. destruct (Value_eqb a b) eqn:E; [|done].
  by rewrite veq_not_lt in H by done.
Qed.

(** Bounds of a subtree: keys are at or above [lo] and below [hi]. *)
Abbreviation bound := (option Value).

Definition bok (o : bound) : Prop := match o with Some k => comparable k | None => True end.
Definition blt (lo hi : bound) : Prop :=
  match lo, hi with Some a, Some b => Value_ltb a b = true | _, _ => True end.
Definition bnd (lo hi : bound) : Prop := bok lo ∧ bok hi ∧ blt lo hi.
Definition ge_lo (lo : bound) (k : Value) : Prop :=
  match lo with Some l => Value_ltb k l = false | None => True end.
Definition lt_hi (hi : bound) (k : Value) : Prop :=
  match hi with Some h => Value_ltb k h = true | None => True end.
Definition inb (lo hi : bound) (k : Value) : Prop := comparable k ∧ ge_lo lo k ∧ lt_hi hi k.

Lemma bnd_trans a k b : bnd a (Some k) → bnd (Some k) b → bnd a b.
Proof.
  destruct a, b; unfold bnd, bok, blt; try naive_solver.
  intros (?&?&?) (?&?&?). split_and!; try done. by apply (Value_ltb_trans _ k).
Qed.

(** ** Trees *)

Abbreviation entry := (Value * list RowId)%type.

Inductive btree : Type :=
| BLeaf (id : BTreePageId) (kvs : list entry)
| BNode (id : BTreePageId) (ks : list Value) (cs : list btree).

Definition troot (t : btree) : BTreePageId := match t with BLeaf id _ | BNode id _ _ => id end.

(** The leftmost leaf. *)
Fixpoint tfirst (t : btree) : BTreePageId :=
  match t with
  | BLeaf id _ => id
  | BNode _ _ cs => match cs with c :: _ => tfirst c | [] => 0 end
  end.

Fixpoint ents (t : btree) : list entry :=
  match t with
  | BLeaf _ kvs => kvs
  | BNode _ _ cs => flat_map ents cs
  end.
Abbreviation entsl cs := (flat_map ents cs).

(** The leaf that follows: the first leaf of [cs], or [nl] when there is none. *)
Definition firstl (cs : list btree) (nl : option BTreePageId) : option BTreePageId :=
  match cs with c :: _ => Some (tfirst c) | [] => nl end.

Definition leaf_page (id : BTreePageId) (kvs : list entry) (nl : option BTreePageId) : BTreeNode :=
  mkBTreeNode id true kvs.*1 kvs.*2 [] nl.
Definition inner_page (id : BTreePageId) (ks : list Value) (children : list BTreePageId) : BTreeNode :=
  mkBTreeNode id false ks [] children None.

Abbreviation page := (BTreePageId * BTreeNode)%type.

(** The pages of a tree, its last leaf chained to [nl]. *)
Fixpoint pages (t : btree) (nl : option BTreePageId) : list page :=
  match t with
  | BLeaf id kvs => [(id, leaf_page id kvs nl)]
  | BNode id ks cs =>
      (id, inner_page id ks (troot <$> cs)) ::
      (fix go (cs : list btree) : list page :=
         match cs with [] => [] | c :: cs => pages c (firstl cs nl) ++ go cs end) cs
  end.

Fixpoint pagesl (cs : list btree) (nl : option BTreePageId) : list page :=
  match cs with [] => [] | c :: cs => pages c (firstl cs nl) ++ pagesl cs nl end.

Lemma pages_node id ks cs nl :
  pages (BNode id ks cs) nl = (id, inner_page id ks (troot <$> cs)) :: pagesl cs nl.
Proof. simpl. f_equal. induction cs as [|c cs IH]; simpl; [done|]. by rewrite IH. Qed.

Lemma firstl_app cs1 cs2 nl : firstl (cs1 ++ cs2) nl = firstl cs1 (firstl cs2 nl).
Proof. by destruct cs1. Qed.

Lemma pagesl_app cs1 cs2 nl : pagesl (cs1 ++ cs2) nl = pagesl cs1 (firstl cs2 nl) ++ pagesl cs2 nl.
Proof.
  induction cs1 as [|c cs1 IH]; simpl; [done|]. by rewrite firstl_app, IH, <- app_assoc.
Qed.

Lemma entsl_app cs1 cs2 : entsl (cs1 ++ cs2) = entsl cs1 ++ entsl cs2.
Proof. apply flat_map_app. Qed.

Lemma tfirst_node id ks cs nl : cs ≠ [] → Some (tfirst (BNode id ks cs)) = firstl cs nl.
Proof. by destruct cs. Qed.

(** ** The invariant *)

Section wf.
Context (W : bound → bound → btree → Prop).

(** Children interleaved with separators, from [lo] to [hi]. *)
Fixpoint wf_cs (lo hi : bound) (ks : list Value) (cs : list btree) : Prop :=
  match ks, cs with
  | [], [c] => W lo hi c
  | k :: ks, c :: cs => W lo (Some k) c ∧ wf_cs (Some k) hi ks cs
  | _, _ => False
  end.

(** Children each followed by its separator, up to the bound [lo']. *)
Fixpoint wf_l (lo : bound) (ks : list Value) (cs : list btree) (lo' : bound) : Prop :=
  match ks, cs with
  | [], [] => lo = lo'
  | k :: ks, c :: cs => W lo (Some k) c ∧ wf_l (Some k) ks cs lo'
  | _, _ => False
  end.

(** Children each preceded by its separator, from the bound [hi']. *)
Definition wf_r (hi' : bound) (ks : list Value) (cs : list btree) (hi : bound) : Prop :=
  match ks with
  | [] => cs = [] ∧ hi' = hi
  | k :: ks => hi' = Some k ∧ wf_cs (Some k) hi ks cs
  end.

Lemma wf_cs_length lo hi ks cs : wf_cs lo hi ks cs → length cs = S (length ks).
Proof.
  revert lo cs. induction ks as [|k ks IH]; intros lo [|c cs]; simpl; try done.
  - by destruct cs.
  - intros [_ H%IH]. lia.
Qed.

Lemma wf_l_length lo ks cs lo' : wf_l lo ks cs lo' → length cs = length ks.
Proof.
  revert lo cs. induction ks as [|k ks IH]; intros lo [|c cs]; simpl; try done.
  intros [_ H%IH]. lia.
Qed.

Lemma wf_r_length hi' ks cs hi : wf_r hi' ks cs hi → length cs = length ks.
Proof. destruct ks; simpl; [by intros [-> _]|]. by intros [_ H%wf_cs_length]. Qed.

Lemma wf_cs_app lo hi ks1 k ks2 cs1 cs2 : length cs1 = S (length ks1) →
  wf_cs lo hi (ks1 ++ k :: ks2) (cs1 ++ cs2) ↔
  wf_cs lo (Some k) ks1 cs1 ∧ wf_cs (Some k) hi ks2 cs2.
Proof.
  revert lo cs1. induction ks1 as [|k1 ks1 IH]; intros lo [|c [|c' cs1]] Hl; simpl in *; try lia.
  - done.
  - rewrite (IH (Some k1) (c' :: cs1)) by (simpl; lia). simpl. tauto.
Qed.

(** Replacing a middle segment keeps the sides. *)
Lemma wf_cs_mid lo hi lk lc mk mc rk rc :
  length lc = length lk → length mc = S (length mk) →
  wf_cs lo hi (lk ++ mk ++ rk) (lc ++ mc ++ rc) ↔
  ∃ lo' hi', wf_l lo lk lc lo' ∧ wf_cs lo' hi' mk mc ∧ wf_r hi' rk rc hi.
Proof.
  intros Hl Hm. revert lo lc Hl. induction lk as [|k lk IH]; intros lo [|c lc] Hl; simpl in *; try lia.
  - destruct rk as [|k rk].
    + rewrite app_nil_r. split.
      * intros H. pose proof (wf_cs_length _ _ _ _ H) as Hlen. rewrite length_app in Hlen.
        destruct rc; [|simpl in Hlen; lia]. rewrite app_nil_r in H. by exists lo, hi.
      * intros (lo' & hi' & -> & H & -> & ->). by rewrite app_nil_r.
    + rewrite wf_cs_app by lia. naive_solver.
  - rewrite IH by lia. naive_solver.
Qed.

Lemma wf_l_snoc lo lk lc k c lo' :
  wf_l lo (lk ++ [k]) (lc ++ [c]) lo' ↔ ∃ m, wf_l lo lk lc m ∧ W m (Some k) c ∧ lo' = Some k.
Proof.
  revert lo lc. induction lk as [|k1 lk IH]; intros lo [|c1 lc]; simpl.
  - naive_solver.
  - destruct lc; naive_solver.
  - destruct lk; naive_solver.
  - rewrite IH. naive_solver.
Qed.

Lemma wf_r_cons hi' k rk c rc hi :
  wf_r hi' (k :: rk) (c :: rc) hi ↔ hi' = Some k ∧ ∃ m, W (Some k) m c ∧ wf_r m rk rc hi.
Proof.
  simpl. destruct rk as [|k' rk]; simpl.
  - destruct rc; naive_solver.
  - naive_solver.
Qed.
End wf.

Arguments wf_cs W lo hi !ks !cs /.
Arguments wf_l W lo !ks !cs lo' /.

Definition keys_sorted (kvs : list entry) : Prop :=
  StronglySorted (λ a b, Value_ltb a.1 b.1 = true) kvs.

Section invariant.
Context (max : nat).
Abbreviation mn := (max / 2).

(** Height [h], at least [m] keys in the root page, keys between [lo] and [hi]. *)
Fixpoint wf (h m : nat) (lo hi : bound) (t : btree) : Prop :=
  bnd lo hi ∧
  match h, t with
  | O, BLeaf _ kvs =>
      m ≤ length kvs ≤ max ∧ keys_sorted kvs ∧ Forall (λ e, inb lo hi e.1 ∧ e.2 ≠ []) kvs
  | S h, BNode _ ks cs => m ≤ length ks ≤ max ∧ wf_cs (wf h mn) lo hi ks cs
  | _, _ => False
  end.

Lemma wf_bnd h m lo hi t : wf h m lo hi t → bnd lo hi.
Proof. destruct h; intros [? _]; done. Qed.

Lemma wf_cs_bnd h m lo hi ks cs : wf_cs (wf h m) lo hi ks cs → bnd lo hi.
Proof.
  revert lo cs. induction ks as [|k ks IH]; intros lo [|c cs]; simpl; try done.
  - destruct cs; [apply wf_bnd|done].
  - intros [H1%wf_bnd H2%IH]. by eapply bnd_trans.
Qed.

Lemma wf_min h m m' lo hi t : m' ≤ m → wf h m lo hi t → wf h m' lo hi t.
Proof. destruct h, t; simpl; intros ? [? H]; split; try done; intuition lia. Qed.

Lemma wf_node h m lo hi id ks cs :
  m ≤ length ks ≤ max → wf_cs (wf h mn) lo hi ks cs → wf (S h) m lo hi (BNode id ks cs).
Proof. intros Hl H. split; [by eapply wf_cs_bnd|done]. Qed.

Lemma inb_left lo k hi x : bnd (Some k) hi → inb lo (Some k) x → inb lo hi x.
Proof.
  intros (Hk & Hh & Hkh) (Hx & Hl & Hxk). split_and!; [done..|]. destruct hi as [h|]; [|done].
  simpl in *. by apply (Value_ltb_trans x k h).
Qed.

Lemma inb_right lo k hi x : bnd lo (Some k) → inb (Some k) hi x → inb lo hi x.
Proof.
  intros (Hl & Hk & Hlk) (Hx & Hkx & Hxh). split_and!; [done| |done]. destruct lo as [l|]; [|done].
  simpl in *. destruct (Value_ltb x l) eqn:E; [|done].
  by rewrite (Value_ltb_trans x l k) in Hkx.
Qed.

Lemma keys_sorted_app kvs1 kvs2 :
  keys_sorted (kvs1 ++ kvs2) ↔ keys_sorted kvs1 ∧ keys_sorted kvs2 ∧
  ∀ x y, x ∈ kvs1 → y ∈ kvs2 → Value_ltb x.1 y.1 = true.
Proof.
  unfold keys_sorted. rewrite StronglySorted_app. naive_solver.
Qed.

(** Two runs of keys separated by a bound. *)
Lemma keys_sorted_pivot lo k hi kvs1 kvs2 :
  keys_sorted kvs1 → keys_sorted kvs2 → comparable k →
  Forall (λ e, inb lo (Some k) e.1) kvs1 → Forall (λ e, inb (Some k) hi e.1) kvs2 →
  keys_sorted (kvs1 ++ kvs2).
Proof.
  intros H1 H2 Hk HF1 HF2. rewrite keys_sorted_app. split_and!; [done..|]. intros x y Hx Hy.
  rewrite Forall_forall in HF1, HF2.
  destruct (HF1 x Hx) as (Hcx & _ & Hxk), (HF2 y Hy) as (Hcy & Hky & _). simpl in *.
  by apply (vlt_le_trans _ k).
Qed.

Definition ents_ok (lo hi : bound) (kvs : list entry) : Prop :=
  keys_sorted kvs ∧ Forall (λ e, inb lo hi e.1) kvs ∧ Forall (λ e, e.2 ≠ []) kvs.

Lemma ents_ok_app lo k hi kvs1 kvs2 :
  bnd lo (Some k) → bnd (Some k) hi →
  ents_ok lo (Some k) kvs1 → ents_ok (Some k) hi kvs2 → ents_ok lo hi (kvs1 ++ kvs2).
Proof.
  intros B1 B2 (S1 & F1 & N1) (S2 & F2 & N2). split_and!.
  - eapply keys_sorted_pivot; try done. apply B1.
  - apply Forall_app; split.
    + eapply Forall_impl; [exact F1|]. intros e. by apply inb_left.
    + eapply Forall_impl; [exact F2|]. intros e. by apply inb_right.
  - by apply Forall_app.
Qed.

Lemma wf_ents h m lo hi t : wf h m lo hi t → ents_ok lo hi (ents t).
Proof.
  revert m lo hi t. induction h as [|h IH]; intros m lo hi [id kvs|id ks cs]; intros [B H]; try done.
  - destruct H as (_ & Hs & HF). apply Forall_and in HF as [HF1 HF2]. done.
  - destruct H as [_ H]. cbn [ents]. clear B. revert lo cs H.
    induction ks as [|k ks IHk]; intros lo [|c cs]; simpl; try done.
    + destruct cs; [|done]. simpl. rewrite app_nil_r. apply IH.
    + intros [H1 H2]. apply (ents_ok_app _ k); [by eapply wf_bnd|by eapply wf_cs_bnd| |by apply IHk].
      by eapply IH.
Qed.

Lemma wf_cs_ents h m lo hi ks cs : wf_cs (wf h m) lo hi ks cs → ents_ok lo hi (entsl cs).
Proof.
  revert lo cs. induction ks as [|k ks IH]; intros lo [|c cs]; simpl; try done.
  - destruct cs; [|done]. simpl. rewrite app_nil_r. apply wf_ents.
  - intros [H1 H2]. apply (ents_ok_app _ k); [by eapply wf_bnd|by eapply wf_cs_bnd| |by apply IH].
    by eapply wf_ents.
Qed.

(** ** Contexts *)

(** The pages above a subtree, innermost first: each with the separators and
    siblings on both sides of the hole. *)
Record frame : Type := mkFrame {
  f_id : BTreePageId;
  f_lk : list Value;
  f_lc : list btree;
  f_rk : list Value;
  f_rc : list btree
}.

Definition fill (f : frame) (mk : list Value) (mc : list btree) : btree :=
  BNode (f_id f) (f_lk f ++ mk ++ f_rk f) (f_lc f ++ mc ++ f_rc f).

Fixpoint plug (ctx : list frame) (t : btree) : btree :=
  match ctx with [] => t | f :: ctx => plug ctx (fill f [] [t]) end.

(** The leaf after the hole, the root page, the leftmost leaf. *)
Fixpoint ctx_next (ctx : list frame) : option BTreePageId :=
  match ctx with [] => None | f :: ctx => firstl (f_rc f) (ctx_next ctx) end.

Fixpoint ctx_root (ctx : list frame) (r : BTreePageId) : BTreePageId :=
  match ctx with [] => r | f :: ctx => ctx_root ctx (f_id f) end.

Definition frame_first (f : frame) (first : BTreePageId) : BTreePageId :=
  match f_lc f with c :: _ => tfirst c | [] => first end.

(** The pages outside the hole, when the hole has root page [r] and leftmost
    leaf [first]. *)
Fixpoint ctx_pages (ctx : list frame) (r first : BTreePageId) : list page :=
  match ctx with
  | [] => []
  | f :: ctx =>
      (f_id f, inner_page (f_id f) (f_lk f ++ f_rk f) ((troot <$> f_lc f) ++ r :: (troot <$> f_rc f))) ::
      pagesl (f_lc f) (Some first) ++ pagesl (f_rc f) (ctx_next ctx) ++
      ctx_pages ctx (f_id f) (frame_first f first)
  end.

Fixpoint ctx_left (ctx : list frame) : list entry :=
  match ctx with [] => [] | f :: ctx => ctx_left ctx ++ entsl (f_lc f) end.
Fixpoint ctx_right (ctx : list frame) : list entry :=
  match ctx with [] => [] | f :: ctx => entsl (f_rc f) ++ ctx_right ctx end.

Lemma plug_ents ctx t : ents (plug ctx t) = ctx_left ctx ++ ents t ++ ctx_right ctx.
Proof.
  revert t. induction ctx as [|f ctx IH]; intros t; simpl; [by rewrite app_nil_r|].
  rewrite IH. cbn [fill ents]. rewrite !entsl_app. simpl. by rewrite app_nil_r, !(assoc_L (++)).
Qed.

Lemma plug_root ctx t : troot (plug ctx t) = ctx_root ctx (troot t).
Proof. revert t. induction ctx as [|f ctx IH]; intros t; simpl; [done|]. by rewrite IH. Qed.

Lemma tfirst_fill f t : tfirst (fill f [] [t]) = frame_first f (tfirst t).
Proof. unfold fill, frame_first. by destruct (f_lc f). Qed.

Lemma plug_pages ctx t :
  pages (plug ctx t) None ≡ₚ pages t (ctx_next ctx) ++ ctx_pages ctx (troot t) (tfirst t).
Proof.
  revert t. induction ctx as [|f ctx IH]; intros t; simpl; [by rewrite app_nil_r|].
  rewrite IH, tfirst_fill. unfold fill at 1. rewrite pages_node, pagesl_app. cbn [app].
  cbn [pagesl firstl]. rewrite fmap_app, fmap_cons. simpl. solve_Permutation.
Qed.

(** The least number of keys in the hole: only the root may be less than half
    full. *)
Definition hole_min (h : nat) (ctx : list frame) : nat :=
  match ctx with [] => match h with O => 0 | S _ => 1 end | _ => mn end.

Fixpoint wf_ctx (h : nat) (lo hi : bound) (ctx : list frame) : Prop :=
  match ctx with
  | [] => lo = None ∧ hi = None
  | f :: ctx =>
      hole_min (S h) ctx ≤ length (f_lk f ++ f_rk f) ≤ max ∧
      ∃ lo' hi', wf_l (wf h mn) lo' (f_lk f) (f_lc f) lo ∧ wf_r (wf h mn) hi (f_rk f) (f_rc f) hi' ∧
                 wf_ctx (S h) lo' hi' ctx
  end.

Definition wf_root (t : btree) : Prop := ∃ h, wf h (hole_min h []) None None t.

(** A segment in the place of the hole. *)
Lemma wf_fill h lo hi f ctx mk mc lo' hi' :
  wf_l (wf h mn) lo' (f_lk f) (f_lc f) lo → wf_r (wf h mn) hi (f_rk f) (f_rc f) hi' →
  wf_cs (wf h mn) lo hi mk mc →
  hole_min (S h) ctx ≤ length (f_lk f ++ mk ++ f_rk f) ≤ max →
  wf (S h) (hole_min (S h) ctx) lo' hi' (fill f mk mc).
Proof.
  intros Hl Hr Hm Hs. apply wf_node; [done|].
  apply wf_cs_mid; [by eapply wf_l_length|by eapply wf_cs_length|]. eauto.
Qed.

Lemma wf_plug ctx h lo hi t :
  wf_ctx h lo hi ctx → wf h (hole_min h ctx) lo hi t → wf_root (plug ctx t).
Proof.
  revert h lo hi t. induction ctx as [|f ctx IH]; intros h lo hi t; simpl.
  - intros [-> ->] H. by exists h.
  - intros (Hs & lo' & hi' & Hl & Hr & Hc) H. eapply IH; [done|].
    eapply wf_fill; try done.
Qed.
End invariant.

Arguments wf max !h m lo hi !t /.
