(* ===== verification/BTreeProof.v ===== *)
(** * The B+ tree refines a sorted association list: lookups and insertion

    [bt_rep max b t]: the page table of [b] holds exactly the pages of the well
    formed tree [t].  Under it every descent and leaf walk ends within its fuel,
    lookups read the sorted entries of [t], and insertion, with its chain of
    splits, gives a well formed tree whose entries are [kv_insert] of the old
    ones. *)

From S2P Require Import Prelude Value HashIndex BTreeIndex BTreeTree.
Local Open Scope nat_scope.

(** ** Page tables as lists of pages *)

(** The table of [b] is [pgs]; [rs] are page ids handed out by [allocatePage] and
    not yet in the table. *)
Record store (max : nat) (b : BTreeIndex) (rs : list BTreePageId) (root count : nat)
    (pgs : list page) : Prop := {
  st_nodes : bt_nodes b = list_to_map pgs;
  st_nodup : NoDup (rs ++ pgs.*1 ++ bt_freePageIds b);
  st_fresh : ∀ p, p ∈ rs ++ pgs.*1 ++ bt_freePageIds b → p < bt_nextPageId b;
  st_max : bt_maxKeysPerNode b = max;
  st_root : bt_rootPageId b = root;
  st_count : bt_keyCount b = count
}.

Section store.
Context (max : nat).
Abbreviation store := (store max).

Lemma store_perm b rs r c pgs pgs' : store b rs r c pgs → pgs ≡ₚ pgs' → store b rs r c pgs'.
Proof.
  intros [Hn Hd Hf Hm Hr Hc] Hp. split; try done.
  - rewrite Hn. apply list_to_map_proper; [|done].
    by apply NoDup_app in Hd as (_ & _ & [? _]%NoDup_app).
  - by rewrite <- Hp.
  - intros p. rewrite <- Hp. apply Hf.
Qed.

Lemma store_lookup b rs r c pgs p n : store b rs r c pgs → (p, n) ∈ pgs → bt_nodes b !! p = Some n.
Proof.
  intros [Hn Hd _ _ _ _] Hin. rewrite Hn. apply elem_of_list_to_map; [|done].
  by apply NoDup_app in Hd as (_ & _ & [? _]%NoDup_app).
Qed.

Lemma store_at b rs r c pgs p n : store b rs r c pgs → (p, n) ∈ pgs → node_at b p = Ok n.
Proof. intros H Hin. unfold node_at. by erewrite store_lookup. Qed.

Lemma store_mark b rs r c pgs p : store b rs r c pgs → store (bt_markDirty p b) rs r c pgs.
Proof. by intros []. Qed.

Lemma store_mut b rs r c pgs p n : store b rs r c pgs → (p, n) ∈ pgs →
  node_mut p b = Ok (n, bt_markDirty p b).
Proof.
  intros H Hin. unfold node_mut. by erewrite store_at; [|by apply store_mark|].
Qed.

Lemma store_put b rs r c pgs p n n' : store b rs r c ((p, n) :: pgs) →
  store (put_node p n' b) rs r c ((p, n') :: pgs).
Proof.
  intros [Hn Hd Hf Hm Hr Hc]. split; try done. simpl. rewrite Hn. simpl. by rewrite insert_insert_eq.
Qed.

Lemma store_alloc b rs r c pgs : store b rs r c pgs →
  ∃ id b', allocatePage b = (id, b') ∧ store b' (id :: rs) r c pgs.
Proof.
  intros [Hn Hd Hf Hm Hr Hc]. unfold allocatePage.
  destruct (unsnoc (bt_freePageIds b)) as [[free id]|] eqn:E; eexists _, _; (split; [done|]).
  - apply unsnoc_Some in E. rewrite E in Hd, Hf. split; try done; simpl.
    + by rewrite (Permutation_cons_append _ id), <- !app_assoc.
    + intros p Hp. apply Hf. set_solver.
  - apply unsnoc_None in E. split; try done; simpl.
    + apply NoDup_cons. split; [|done]. intros Hin%Hf. lia.
    + intros p [->|Hp]%elem_of_cons; [lia|]. apply Hf in Hp. lia.
Qed.

Lemma store_emplace b id rs r c pgs n : store b (id :: rs) r c pgs →
  store (emplace_node id n b) rs r c ((id, n) :: pgs).
Proof.
  intros [Hn Hd Hf Hm Hr Hc]. unfold emplace_node.
  assert (id ∉ pgs.*1) as Hid.
  { simpl in Hd. apply NoDup_cons in Hd as [Hd _]. set_solver. }
  rewrite Hn, not_elem_of_list_to_map_1 by done. split; simpl; try done.
  - by rewrite Hn.
  - by rewrite <- Permutation_middle.
  - intros p Hp. apply Hf. set_solver.
Qed.

Lemma store_set_root b rs r c pgs r' : store b rs r c pgs → store (bt_set_root r' b) rs r' c pgs.
Proof. by intros []. Qed.

Lemma store_incr b rs r c pgs : store b rs r c pgs → store (bt_incr_keyCount b) rs r (S c) pgs.
Proof. intros []. by split; simpl; auto. Qed.

Lemma store_size b rs r c pgs : store b rs r c pgs → size (bt_nodes b) = length pgs.
Proof.
  intros [Hn Hd _ _ _ _]. rewrite Hn, map_size_list_to_map; [done|].
  by apply NoDup_app in Hd as (_ & _ & [? _]%NoDup_app).
Qed.
End store.

(** The representation invariant. *)
Definition bt_rep (max : nat) (b : BTreeIndex) (t : btree) : Prop :=
  2 ≤ max ∧ wf_root max t ∧ store max b [] (troot t) (length (ents t)) (pages t None).

(** The state of an insertion or removal working on subtree [t] at [ctx]. *)
Definition at_ctx (max : nat) (b : BTreeIndex) (ctx : list frame) (t : btree) (count : nat) : Prop :=
  store max b [] (ctx_root ctx (troot t)) count (pages t (ctx_next ctx) ++ ctx_pages ctx (troot t) (tfirst t)).

Lemma at_ctx_plug max b ctx t count :
  at_ctx max b ctx t count ↔ store max b [] (troot (plug ctx t)) count (pages (plug ctx t) None).
Proof.
  unfold at_ctx. rewrite plug_root. split; intros H; eapply store_perm; try done; by rewrite plug_pages.
Qed.

(** ** Searching in a page *)

Lemma childIndex_split a b key :
  Forall (λ k, Value_ltb key k = false) a → (∀ k b', b = k :: b' → Value_ltb key k = true) →
  childIndex (a ++ b) key = length a.
Proof.
  intros Ha Hb. induction Ha as [|k a Hk _ IH]; simpl.
  - destruct b as [|k b]; [done|]. simpl. by rewrite (Hb k b).
  - by rewrite Hk, IH.
Qed.

Lemma lowerBound_loop_split fuel a b key lo hi :
  Forall (λ k, Value_ltb k key = true) a → Forall (λ k, Value_ltb k key = false) b →
  lo ≤ length a ≤ hi → hi ≤ length (a ++ b) → hi - lo ≤ fuel →
  lowerBound_loop fuel (a ++ b) key lo hi = length a.
Proof.
  intros Ha Hb. revert lo hi. induction fuel as [|fuel IH]; intros lo hi Hl Hh Hf; cbn [lowerBound_loop]; [lia|].
  destruct (Nat.ltb_spec lo hi) as [Hlt|Hge]; [|lia].
  assert (lo ≤ lo + (hi - lo) / 2 < hi) as Hmid.
  { pose proof (Nat.div_lt (hi - lo) 2). lia. }
  set (mid := lo + (hi - lo) / 2) in *.
  destruct ((a ++ b) !! mid) as [k|] eqn:E.
  2:{ apply lookup_ge_None in E. lia. }
  apply lookup_app_Some in E as [E|[Hm E]].
  - rewrite Forall_lookup in Ha. rewrite (Ha _ _ E). apply lookup_lt_Some in E. apply IH; lia.
  - rewrite Forall_lookup in Hb. rewrite (Hb _ _ E). apply IH; lia.
Qed.

Lemma lowerBoundKey_split a b key :
  Forall (λ k, Value_ltb k key = true) a → Forall (λ k, Value_ltb k key = false) b →
  lowerBoundKey (a ++ b) key = length a.
Proof.
  intros Ha Hb. unfold lowerBoundKey. apply lowerBound_loop_split; try done; rewrite ?length_app; lia.
Qed.

(** Sorted entries split at a key. *)
Lemma kvs_split key kvs : keys_sorted kvs → comparable key → Forall (λ e, comparable e.1) kvs →
  ∃ a b, kvs = a ++ b ∧ Forall (λ e, Value_ltb e.1 key = true) a ∧
         Forall (λ e, Value_ltb e.1 key = false) b ∧
         ∀ e b', b = e :: b' → Forall (λ e, Value_ltb key e.1 = true) b'.
Proof.
  intros Hs Hkey. induction Hs as [|e kvs _ IH He]; intros Hc.
  - by exists [], [].
  - inversion Hc as [|? ? Hce Hck]; subst. destruct (Value_ltb e.1 key) eqn:E.
    + destruct IH as (a & b & -> & Ha & Hb & Hb'); [done|]. exists (e :: a), b.
      split_and!; [done|by constructor|done|done].
    + exists [], (e :: kvs). rewrite Forall_forall in He, Hck. split_and!; [done|done| |].
      * constructor; [done|]. apply Forall_forall. intros x Hx.
        apply vlt_le, (vle_lt_trans _ e.1); auto.
      * intros ? ? [= <- <-]. apply Forall_forall. intros x Hx.
        apply (vle_lt_trans _ e.1); auto.
Qed.

(** ** Descent *)

Lemma wf_cs_descend W lo hi ks cs key :
  wf_cs W lo hi ks cs → inb lo hi key →
  ∃ lc c rc lo' hi',
    let i := childIndex ks key in
    cs = lc ++ c :: rc ∧ length lc = i ∧
    wf_l W lo (take i ks) lc lo' ∧ W lo' hi' c ∧ wf_r W hi' (drop i ks) rc hi ∧ inb lo' hi' key.
Proof.
  revert lo cs. induction ks as [|k ks IH]; intros lo [|c cs] H Hin; try done.
  - destruct cs; [|done]. by exists [], c, [], lo, hi.
  - destruct H as [Hc H]. cbn [childIndex]. destruct (Value_ltb key k) eqn:E; cbn [negb].
    + exists [], c, cs, lo, (Some k). split_and!; try done. by destruct Hin as (? & ? & ?).
    + destruct (IH (Some k) cs H) as (lc & c' & rc & lo' & hi' & -> & Hlen & Hl & Hc' & Hr & Hin').
      { by destruct Hin as (? & ? & ?). }
      exists (c :: lc), c', rc, lo', hi'. split_and!; simpl; auto.
Qed.

Section descent.
Context (max : nat).

Lemma path_ok b key h fuel ctx t count lo hi :
  at_ctx max b ctx t count → wf_ctx max h lo hi ctx → wf max h (hole_min max h ctx) lo hi t →
  inb lo hi key → h < fuel →
  ∃ ctx' id kvs lo' hi',
    path_loop fuel b key (troot t) (f_id <$> ctx) = Ok (id :: (f_id <$> ctx')) ∧
    plug ctx' (BLeaf id kvs) = plug ctx t ∧ wf_ctx max 0 lo' hi' ctx' ∧
    wf max 0 (hole_min max 0 ctx') lo' hi' (BLeaf id kvs) ∧ inb lo' hi' key.
Proof.
  revert fuel ctx t lo hi. induction h as [|h IH]; intros fuel ctx t lo hi Hst Hctx Hwf Hin Hf;
    (destruct fuel as [|fuel]; [lia|]); cbn [path_loop];
    destruct t as [id kvs|id ks cs]; try by destruct Hwf as [_ []].
  - erewrite store_at; [|exact Hst|apply elem_of_app; left; by apply list_elem_of_here].
    by exists ctx, id, kvs, lo, hi.
  - erewrite store_at; [|exact Hst|apply elem_of_app; left; rewrite pages_node; by apply list_elem_of_here].
    cbn [mbind result_bind bn_leaf inner_page]. destruct Hwf as (Hb & Hs & Hcs).
    destruct (wf_cs_descend _ _ _ _ _ key Hcs Hin) as (lc & c & rc & lo' & hi' & -> & Hlen & Hl & Hc & Hr & Hin').
    unfold childFor. cbn [bn_children bn_keys inner_page].
    rewrite fmap_app, fmap_cons, lookup_app_r by (rewrite length_fmap; lia).
    rewrite length_fmap, Hlen, Nat.sub_diag. cbn [lookup list_lookup mbind result_bind].
    set (f := mkFrame id (take (childIndex ks key) ks) lc (drop (childIndex ks key) ks) rc).
    assert (plug ctx (BNode id ks (lc ++ c :: rc)) = plug (f :: ctx) c) as Hplug.
    { simpl. unfold fill; simpl. by rewrite take_drop. }
    rewrite Hplug. apply (IH fuel (f :: ctx) c lo' hi').
    + apply at_ctx_plug. rewrite <- Hplug. by apply at_ctx_plug.
    + simpl. rewrite take_drop. split; [done|]. exists lo, hi. auto.
    + done.
    + done.
    + lia.
Qed.

Lemma wf_height h m lo hi t nl : wf max h m lo hi t → h < length (pages t nl).
Proof.
  revert m lo hi t nl. induction h as [|h IH]; intros m lo hi [id kvs|id ks cs] nl [_ H]; try done; [simpl; lia|].
  destruct H as [_ H]. rewrite pages_node. destruct ks, cs as [|c cs]; try done;
    cbn [pagesl length]; rewrite length_app.
  - destruct cs; [|done]. apply (IH _ _ _ _ (firstl [] nl)) in H. lia.
  - destruct H as [H _]. apply (IH _ _ _ _ (firstl cs nl)) in H. lia.
Qed.

(** The leaf a key belongs to. *)
Lemma pathToLeaf_ok b t key : bt_rep max b t → comparable key →
  ∃ ctx id kvs lo hi,
    pathToLeaf key b = Ok (id :: (f_id <$> ctx)) ∧ plug ctx (BLeaf id kvs) = t ∧
    wf_ctx max 0 lo hi ctx ∧ wf max 0 (hole_min max 0 ctx) lo hi (BLeaf id kvs) ∧ inb lo hi key ∧
    at_ctx max b ctx (BLeaf id kvs) (length (ents t)).
Proof.
  intros (Hm & [h Hwf] & Hst) Hkey. unfold pathToLeaf, walk_fuel.
  rewrite (store_size _ _ _ _ _ _ Hst), (st_root _ _ _ _ _ _ Hst).
  destruct (path_ok b key h (S (length (pages t None))) [] t (length (ents t)) None None)
    as (ctx & id & kvs & lo & hi & Hp & Hplug & Hctx & Hleaf & Hin); try done.
  - by apply at_ctx_plug.
  - apply (wf_height _ _ _ _ _ None) in Hwf. lia.
  - exists ctx, id, kvs, lo, hi. split_and!; try done. apply at_ctx_plug. by rewrite Hplug.
Qed.

(** ** The sorted entries around a leaf *)

Lemma wf_l_ents h m lo ks cs lo' : wf_l (wf max h m) lo ks cs lo' →
  (cs = [] ∧ ks = [] ∧ lo = lo') ∨
  ∃ k, lo' = Some k ∧ bnd lo lo' ∧ ents_ok lo lo' (entsl cs) ∧ cs ≠ [].
Proof.
  revert lo cs. induction ks as [|k ks IH]; intros lo [|c cs] H; try done; [by left|].
  right. destruct H as [Hc H]. pose proof (wf_bnd _ _ _ _ _ _ Hc) as Hb.
  apply wf_ents in Hc. apply IH in H as [(-> & -> & <-)|(k' & -> & Hb' & He & Hn)]; simpl.
  - exists k. rewrite app_nil_r. by split_and!.
  - exists k'. split_and!; [done|by eapply bnd_trans|by eapply ents_ok_app|done].
Qed.

Lemma wf_r_ents h m hi ks cs hi' : wf_r (wf max h m) hi ks cs hi' →
  (cs = [] ∧ ks = [] ∧ hi = hi') ∨
  ∃ k, hi = Some k ∧ bnd hi hi' ∧ ents_ok hi hi' (entsl cs) ∧ cs ≠ [].
Proof.
  destruct ks as [|k ks]; simpl; [by intros [-> ->]; left|]. intros [-> H]. right. exists k.
  split_and!; [done|by eapply wf_cs_bnd|by eapply wf_cs_ents|].
  apply wf_cs_length in H. by destruct cs.
Qed.

(** Everything left of the hole is below its lower bound, everything right of it
    at or above its upper bound. *)
Lemma wf_ctx_left h lo hi ctx : wf_ctx max h lo hi ctx →
  Forall (λ e, comparable e.1 ∧ ∃ l, lo = Some l ∧ comparable l ∧ Value_ltb e.1 l = true) (ctx_left ctx).
Proof.
  revert h lo hi. induction ctx as [|f ctx IH]; intros h lo hi; simpl; [constructor|].
  intros (_ & lo' & hi' & Hl & _ & Hc). apply IH in Hc.
  apply wf_l_ents in Hl as [(-> & _ & <-)|(k & -> & (Hb1 & Hb2 & Hb3) & (_ & He & _) & _)].
  - simpl. by rewrite app_nil_r.
  - apply Forall_app; split.
    + eapply Forall_impl; [exact Hc|]. intros e (Hce & l & -> & Hcl & Hel). split; [done|].
      exists k. split_and!; [done..|]. by apply (Value_ltb_trans _ l).
    + eapply Forall_impl; [exact He|]. intros e (Hce & _ & Hk). split; [done|]. by exists k.
Qed.

Lemma wf_ctx_right h lo hi ctx : wf_ctx max h lo hi ctx →
  Forall (λ e, comparable e.1 ∧ ∃ l, hi = Some l ∧ comparable l ∧ Value_ltb e.1 l = false) (ctx_right ctx).
Proof.
  revert h lo hi. induction ctx as [|f ctx IH]; intros h lo hi; simpl; [constructor|].
  intros (_ & lo' & hi' & _ & Hr & Hc). apply IH in Hc.
  apply wf_r_ents in Hr as [(-> & _ & ->)|(k & -> & (Hb1 & Hb2 & Hb3) & (_ & He & _) & _)].
  - done.
  - apply Forall_app; split.
    + eapply Forall_impl; [exact He|]. intros e (Hce & Hk & _). split; [done|]. by exists k.
    + eapply Forall_impl; [exact Hc|]. intros e (Hce & l & -> & Hcl & Hel). split; [done|].
      exists k. split_and!; [done..|]. simpl in *. destruct (Value_ltb e.1 k) eqn:E; [|done].
      by rewrite (Value_ltb_trans e.1 k l) in Hel.
Qed.

(** Around the leaf of [key]: smaller entries on the left, larger on the right. *)
Lemma leaf_sides h lo hi ctx key : wf_ctx max h lo hi ctx → inb lo hi key →
  Forall (λ e, comparable e.1 ∧ Value_ltb e.1 key = true) (ctx_left ctx) ∧
  Forall (λ e, comparable e.1 ∧ Value_ltb key e.1 = true) (ctx_right ctx).
Proof.
  intros Hc (Hk & Hlo & Hhi). split.
  - eapply Forall_impl; [by eapply wf_ctx_left|]. intros e (He & l & -> & Hl & Hel).
    split; [done|]. by apply (vlt_le_trans _ l).
  - eapply Forall_impl; [by eapply wf_ctx_right|]. intros e (He & l & -> & Hl & Hel).
    split; [done|]. by apply (vlt_le_trans _ l).
Qed.
End descent.

(** ** The abstract ordered multimap *)

Fixpoint kv_insert (key : Value) (rowId : RowId) (kvs : list entry) : list entry :=
  match kvs with
  | [] => [(key, [rowId])]
  | (k, ids) :: kvs =>
      if Value_ltb k key then (k, ids) :: kv_insert key rowId kvs
      else if Value_eqb k key then (k, ids ++ [rowId]) :: kvs
      else (key, [rowId]) :: (k, ids) :: kvs
  end.

Definition kv_find (key : Value) (kvs : list entry) : list RowId := default [] (assoc_find key kvs).

Definition kv_less (key : Value) (kvs : list entry) : list RowId :=
  concat (filter (λ e, Value_ltb e.1 key = true) kvs).*2.
Definition kv_greater (key : Value) (kvs : list entry) : list RowId :=
  concat (filter (λ e, Value_ltb key e.1 = true) kvs).*2.

Lemma kv_insert_left key rowId a kvs :
  Forall (λ e, comparable e.1 ∧ Value_ltb e.1 key = true) a →
  kv_insert key rowId (a ++ kvs) = a ++ kv_insert key rowId kvs.
Proof. induction 1 as [|[k ids] a [_ Hk] _ IH]; simpl in *; [done|]. by rewrite Hk, IH. Qed.

Lemma kv_insert_right key rowId kvs b :
  comparable key → Forall (λ e, comparable e.1 ∧ Value_ltb key e.1 = true) b →
  kv_insert key rowId (kvs ++ b) = kv_insert key rowId kvs ++ b.
Proof.
  intros Hkey Hb. induction kvs as [|[k ids] kvs IH]; simpl.
  - destruct Hb as [|[k ids] b [Hc Hk] _]; simpl in *; [done|].
    rewrite (Value_ltb_asym _ _ Hk), (Value_eqb_sym k key), (vlt_neq key k) by done. done.
  - rewrite IH. by repeat case_match.
Qed.

Lemma assoc_find_skip key (a kvs : list entry) :
  comparable key → Forall (λ e, comparable e.1 ∧ Value_ltb e.1 key = true) a →
  assoc_find key (a ++ kvs) = assoc_find key kvs.
Proof.
  intros Hkey. induction 1 as [|[k ids] a [Hc Hk] _ IH]; simpl in *; [done|].
  by rewrite (vlt_neq k key).
Qed.

Lemma assoc_find_above key (b : list entry) :
  comparable key → Forall (λ e, comparable e.1 ∧ Value_ltb key e.1 = true) b →
  assoc_find key b = None.
Proof.
  intros Hkey. induction 1 as [|[k ids] b [Hc Hk] _ IH]; simpl in *; [done|].
  by rewrite (Value_eqb_sym k key), (vlt_neq key k).
Qed.

(** ** The leaf chain *)

Fixpoint leaves (t : btree) : list (BTreePageId * list entry) :=
  match t with
  | BLeaf id kvs => [(id, kvs)]
  | BNode _ _ cs => flat_map leaves cs
  end.

Definition nextl (l : list (BTreePageId * list entry)) (nl : option BTreePageId) : option BTreePageId :=
  match l with (id, _) :: _ => Some id | [] => nl end.

Fixpoint chain (l : list (BTreePageId * list entry)) (nl : option BTreePageId) : list page :=
  match l with
  | [] => []
  | (id, kvs) :: l => (id, leaf_page id kvs (nextl l nl)) :: chain l nl
  end.

Lemma chain_app l1 l2 nl : chain (l1 ++ l2) nl = chain l1 (nextl l2 nl) ++ chain l2 nl.
Proof.
  induction l1 as [|[id kvs] l1 IH]; simpl; [done|]. rewrite IH. by destruct l1 as [|[? ?] ?].
Qed.

Lemma length_chain l nl : length (chain l nl) = length l.
Proof. induction l as [|[id kvs] l IH]; simpl; auto. Qed.

Lemma leaves_ents t : concat (leaves t).*2 = ents t.
Proof.
  revert t. fix IH 1. intros [id kvs|id ks cs]; simpl; [apply app_nil_r|].
  induction cs as [|c cs IHcs]; simpl; [done|]. by rewrite fmap_app, concat_app, IH, IHcs.
Qed.

Lemma wf_leaves max h m lo hi t : wf max h m lo hi t →
  (∃ kvs l, leaves t = (tfirst t, kvs) :: l) ∧ ∀ nl, chain (leaves t) nl `sublist_of` pages t nl.
Proof.
  revert m lo hi t. induction h as [|h IH]; intros m lo hi [id kvs|id ks cs] [_ H]; try done.
  - split; [by eexists _, []|]. done.
  - destruct H as [_ H]. cbn [leaves].
    assert ((∃ kvs l, flat_map leaves cs = (tfirst (BNode id ks cs), kvs) :: l) ∧
            ∀ nl, firstl cs nl = nextl (flat_map leaves cs) nl ∧
                  chain (flat_map leaves cs) nl `sublist_of` pagesl cs nl) as [H1 H2].
    { revert lo cs H. induction ks as [|k ks IHk]; intros lo [|c cs] H; try done.
      - destruct cs; [|done]. apply IH in H as [(kvs & l & Hl) Hch]. cbn [flat_map pagesl].
        rewrite !app_nil_r. split; [by exists kvs, l|]. intros nl. rewrite app_nil_r.
        split; [by rewrite Hl|apply Hch].
      - destruct H as [Hc H]. apply IH in Hc as [(kvs & l & Hl) Hch].
        destruct (IHk _ _ H) as [_ H2]. cbn [flat_map pagesl].
        split; [exists kvs, (l ++ flat_map leaves cs); by rewrite Hl|]. intros nl.
        split; [by rewrite Hl|]. rewrite chain_app. destruct (H2 nl) as [-> H3].
        by apply sublist_app. }
    split; [done|]. intros nl. rewrite pages_node. apply sublist_cons. apply H2.
Qed.

(** ** Range scans *)

Lemma kv_less_app key a b : kv_less key (a ++ b) = kv_less key a ++ kv_less key b.
Proof. unfold kv_less. by rewrite filter_app, fmap_app, concat_app. Qed.
Lemma kv_greater_app key a b : kv_greater key (a ++ b) = kv_greater key a ++ kv_greater key b.
Proof. unfold kv_greater. by rewrite filter_app, fmap_app, concat_app. Qed.

Lemma kv_less_cons key k ids kvs :
  kv_less key ((k, ids) :: kvs) = (if Value_ltb k key then ids else []) ++ kv_less key kvs.
Proof.
  unfold kv_less. rewrite filter_cons; simpl. destruct (Value_ltb k key) eqn:E.
  - by rewrite decide_True.
  - by rewrite decide_False.
Qed.
Lemma kv_greater_cons key k ids kvs :
  kv_greater key ((k, ids) :: kvs) = (if Value_ltb key k then ids else []) ++ kv_greater key kvs.
Proof.
  unfold kv_greater. rewrite filter_cons; simpl. destruct (Value_ltb key k) eqn:E.
  - by rewrite decide_True.
  - by rewrite decide_False.
Qed.

Lemma kv_less_nil key kvs : Forall (λ e, Value_ltb e.1 key = false) kvs → kv_less key kvs = [].
Proof.
  induction 1 as [|[k ids] kvs Hk _ IH]; [done|]. simpl in Hk. by rewrite kv_less_cons, Hk.
Qed.
Lemma kv_greater_nil key kvs : Forall (λ e, Value_ltb key e.1 = false) kvs → kv_greater key kvs = [].
Proof.
  induction 1 as [|[k ids] kvs Hk _ IH]; [done|]. simpl in Hk. by rewrite kv_greater_cons, Hk.
Qed.

Definition kvs_ok (kvs : list entry) : Prop := keys_sorted kvs ∧ Forall (λ e, comparable e.1) kvs.

Lemma kvs_ok_app kvs1 kvs2 : kvs_ok (kvs1 ++ kvs2) → kvs_ok kvs1 ∧ kvs_ok kvs2.
Proof. intros [H1%keys_sorted_app H2%Forall_app]. unfold kvs_ok. naive_solver. Qed.

Lemma leaf_less_ok key kvs rest : comparable key → kvs_ok (kvs ++ rest) →
  let '(ids, stop) := leaf_less key kvs.*1 kvs.*2 in
  if stop : bool then kv_less key (kvs ++ rest) = ids else kv_less key kvs = ids.
Proof.
  intros Hkey. induction kvs as [|[k ids] kvs IH]; [done|]. intros [Hs Hc].
  rewrite !fmap_cons. cbn [leaf_less fst snd]. rewrite <- app_comm_cons in Hs, Hc |- *.
  inversion Hs as [|? ? Hs' Hk]; subst. inversion Hc as [|? ? Hck Hc']; subst.
  cbn [fst] in Hck, Hk.
  destruct (Value_ltb k key) eqn:E; cbn [negb].
  - destruct (leaf_less key kvs.*1 kvs.*2) as [r stop]. specialize (IH (conj Hs' Hc')).
    destruct stop; by rewrite kv_less_cons, E, IH.
  - apply kv_less_nil. constructor; [done|]. rewrite Forall_forall in Hk, Hc'.
    apply Forall_forall. intros e He. apply vlt_le, (vle_lt_trans _ k); auto.
Qed.

Lemma less_loop_ok max b r c pgs key l fuel :
  store max b [] r c pgs → comparable key → kvs_ok (concat l.*2) → length l ≤ fuel →
  (∀ p, p ∈ chain l None → p ∈ pgs) →
  less_loop fuel b key (nextl l None) = Ok (kv_less key (concat l.*2)).
Proof.
  intros Hst Hkey. revert fuel. induction l as [|[id kvs] l IH]; intros fuel Hok Hf Hin.
  - by destruct fuel.
  - rewrite fmap_cons in Hok |- *. cbn [concat snd nextl] in Hok |- *. simpl in Hf. destruct fuel as [|fuel]; [lia|]. cbn [less_loop].
    erewrite store_at; [|exact Hst|apply Hin; by apply list_elem_of_here].
    cbn [mbind result_bind leaf_page bn_keys bn_rowIds bn_nextLeaf].
    pose proof (leaf_less_ok key kvs _ Hkey Hok) as Hl.
    destruct (leaf_less key kvs.*1 kvs.*2) as [ids stop]. destruct stop; [by rewrite <- Hl|].
    rewrite IH; [|by destruct (kvs_ok_app _ _ Hok)|lia|]; simpl; [by rewrite kv_less_app, Hl|].
    intros p Hp. apply Hin. by apply list_elem_of_further.
Qed.

(** Once a key above the bound is met, everything after it is above it. *)
Lemma leaf_greater_ok key kvs rest c : comparable key → kvs_ok (kvs ++ rest) →
  (c = true → Forall (λ e, Value_ltb key e.1 = true) (kvs ++ rest)) →
  let '(ids, c') := leaf_greater key kvs.*1 kvs.*2 c in
  kv_greater key kvs = ids ∧ (c' = true → Forall (λ e, Value_ltb key e.1 = true) rest).
Proof.
  intros Hkey. revert c. induction kvs as [|[k ids] kvs IH]; intros c Hok Hc; [done|].
  rewrite !fmap_cons. cbn [leaf_greater fst snd]. rewrite <- app_comm_cons in Hok, Hc.
  destruct Hok as [Hs Hck]. inversion Hs as [|? ? Hs' Hk]; subst. inversion Hck as [|? ? Hck1 Hck2]; subst.
  cbn [fst] in Hck1, Hk. specialize (IH (c || Value_ltb key k) (conj Hs' Hck2)).
  destruct (leaf_greater key kvs.*1 kvs.*2 (c || Value_ltb key k)) as [r c'].
  destruct IH as [IH1 IH2].
  { intros [->|Hlt]%orb_true_iff; [by specialize (Hc eq_refl); inversion Hc|].
    rewrite Forall_forall in Hk, Hck2. apply Forall_forall. intros e He.
    apply (Value_ltb_trans _ k); auto. }
  split; [|done]. rewrite kv_greater_cons, IH1. destruct c; [|done].
  specialize (Hc eq_refl). inversion Hc; subst. simpl in *. by rewrite H1.
Qed.

Lemma greater_loop_ok max b r n pgs key l fuel c :
  store max b [] r n pgs → comparable key → kvs_ok (concat l.*2) → length l ≤ fuel →
  (∀ p, p ∈ chain l None → p ∈ pgs) →
  (c = true → Forall (λ e, Value_ltb key e.1 = true) (concat l.*2)) →
  greater_loop fuel b key (nextl l None) c = Ok (kv_greater key (concat l.*2)).
Proof.
  intros Hst Hkey. revert fuel c. induction l as [|[id kvs] l IH]; intros fuel c Hok Hf Hin Hc.
  - by destruct fuel.
  - rewrite fmap_cons in Hok, Hc |- *. cbn [concat snd nextl] in Hok, Hc |- *. simpl in Hf. destruct fuel as [|fuel]; [lia|]. cbn [greater_loop].
    erewrite store_at; [|exact Hst|apply Hin; by apply list_elem_of_here].
    cbn [mbind result_bind leaf_page bn_keys bn_rowIds bn_nextLeaf].
    pose proof (leaf_greater_ok key kvs _ c Hkey Hok Hc) as Hl.
    destruct (leaf_greater key kvs.*1 kvs.*2 c) as [ids c']. destruct Hl as [Hl Hc'].
    rewrite IH; [|by destruct (kvs_ok_app _ _ Hok)|lia| |done]; simpl; [by rewrite kv_greater_app, Hl|].
    intros p Hp. apply Hin. by apply list_elem_of_further.
Qed.

(** ** Lookups refine the sorted entries *)

Section lookups.
Context (max : nat) (b : BTreeIndex) (t : btree) (Hrep : bt_rep max b t).

Lemma rep_kvs_ok : kvs_ok (ents t) ∧ Forall (λ e, e.2 ≠ []) (ents t).
Proof.
  destruct Hrep as (_ & [h Hwf] & _). apply wf_ents in Hwf as (Hs & Hb & Hn).
  split; [split; [done|]|done]. eapply Forall_impl; [exact Hb|]. by intros e [? _].
Qed.

Lemma leaf_walk_fuel l1 l2 : leaves t = l1 ++ l2 →
  length l2 ≤ walk_fuel b ∧ ∀ p, p ∈ chain l2 None → p ∈ pages t None.
Proof.
  intros Hl. destruct Hrep as (_ & [h Hwf] & Hst). apply wf_leaves in Hwf as [_ Hc].
  specialize (Hc None). split.
  - unfold walk_fuel. rewrite (store_size _ _ _ _ _ _ Hst). apply sublist_length in Hc.
    rewrite length_chain, Hl, length_app in Hc. lia.
  - intros p Hp. eapply elem_of_sublist; [|exact Hc]. rewrite Hl, chain_app. set_solver.
Qed.

(** The entry of [key] in its leaf. *)
Lemma leaf_search key kvs : comparable key → kvs_ok kvs →
  ∃ a c, kvs = a ++ c ∧ lowerBoundKey kvs.*1 key = length a ∧
    Forall (λ e, comparable e.1 ∧ Value_ltb e.1 key = true) a ∧
    (Forall (λ e, comparable e.1 ∧ Value_ltb key e.1 = true) c ∨
     ∃ k ids c', c = (k, ids) :: c' ∧ comparable k ∧ Value_eqb k key = true ∧
       Forall (λ e, comparable e.1 ∧ Value_ltb key e.1 = true) c').
Proof.
  intros Hkey [Hs Hc]. destruct (kvs_split key kvs Hs Hkey Hc) as (a & c & -> & Ha & Hge & Hc').
  exists a, c. apply Forall_app in Hc as [Hca Hcc]. split_and!; [done| |by apply Forall_and|].
  - rewrite fmap_app, lowerBoundKey_split; [by rewrite length_fmap|by rewrite Forall_fmap..].
  - destruct c as [|[k ids] c]; [by left|]. specialize (Hc' _ _ eq_refl).
    inversion Hcc as [|? ? Hck Hcc']; subst. inversion Hge as [|? ? Hk Hge']; subst. simpl in *.
    destruct (vle_cases k key Hck Hkey Hk) as [E|E].
    + right. exists k, ids, c. split_and!; try done. by apply Forall_and.
    + left. constructor; [done|]. by apply Forall_and.
Qed.

Lemma find_ok key : comparable key → BTreeIndex_find key b = Ok (kv_find key (ents t)).
Proof.
  intros Hkey. destruct (pathToLeaf_ok _ _ _ _ Hrep Hkey)
    as (ctx & id & kvs & lo & hi & Hp & Hplug & Hctx & Hleaf & Hin & Hat).
  unfold BTreeIndex_find. rewrite Hp. cbn [mbind result_bind path_back].
  erewrite store_at; [|exact Hat|by apply list_elem_of_here].
  cbn [mbind result_bind leaf_page bn_keys bn_rowIds].
  destruct (leaf_sides _ _ _ _ _ _ Hctx Hin) as [HL HR].
  apply wf_ents in Hleaf as (Hs & Hb & _). cbn [ents] in Hs, Hb.
  destruct (leaf_search key kvs) as (a & c & -> & Hlb & Ha & Hc); [done| |].
  { split; [done|]. eapply Forall_impl; [exact Hb|]. by intros e [? _]. }
  rewrite Hlb, <- Hplug, plug_ents. unfold kv_find. cbn [ents].
  rewrite <- app_assoc, !assoc_find_skip by done.
  rewrite !fmap_app, !lookup_app_r, !length_fmap, Nat.sub_diag by (by rewrite length_fmap).
  destruct Hc as [Hc|(k & ids & c' & -> & Hck & Hk & Hc')].
  - rewrite assoc_find_above by (try done; by apply Forall_app). destruct Hc as [|[k ids] c [Hck Hk] _]; [done|].
    simpl in *. by rewrite (Value_eqb_sym k key), (vlt_neq key k).
  - simpl. by rewrite Hk.
Qed.

Lemma leftmost_loop_ok h m lo hi s nl r c pgs fuel :
  wf max h m lo hi s → store max b [] r c pgs → (∀ p, p ∈ pages s nl → p ∈ pgs) → h < fuel →
  leftmost_loop fuel b (troot s) = Ok (tfirst s).
Proof.
  revert m lo hi s nl fuel. induction h as [|h IH]; intros m lo hi s nl fuel Hwf Hst Hin Hf;
    (destruct fuel as [|fuel]; [lia|]); cbn [leftmost_loop];
    destruct s as [id kvs|id ks cs]; try by destruct Hwf as [_ []].
  - by erewrite store_at; [|exact Hst|apply Hin, list_elem_of_here].
  - rewrite pages_node in Hin.
    erewrite store_at; [|exact Hst|apply Hin, list_elem_of_here].
    destruct Hwf as (_ & _ & Hcs). cbn [mbind result_bind inner_page bn_leaf bn_children].
    assert (∃ c1 cs1 hi1, cs = c1 :: cs1 ∧ wf max h (max / 2) lo hi1 c1) as (c1 & cs1 & hi1 & -> & Hc1).
    { destruct ks, cs as [|c1 cs1]; try done.
      - destruct cs1; [|done]. by eexists _, _, _.
      - destruct Hcs as [? _]. by eexists _, _, _. }
    rewrite fmap_cons. change (leftmost_loop fuel b (troot c1) = Ok (tfirst c1)).
    eapply IH; [exact Hc1|done| |lia]. intros p Hp.
    apply Hin, list_elem_of_further. cbn [pagesl]. apply elem_of_app. left. exact Hp.
Qed.

Lemma leftmost_ok : leftmostLeaf b = Ok (tfirst t).
Proof.
  destruct Hrep as (_ & [h Hwf] & Hst). unfold leftmostLeaf, walk_fuel.
  rewrite (store_size _ _ _ _ _ _ Hst), (st_root _ _ _ _ _ _ Hst).
  pose proof (wf_height _ _ _ _ _ _ None Hwf) as Hf.
  eapply leftmost_loop_ok; try done. lia.
Qed.

Lemma lessThan_ok key : comparable key → BTreeIndex_lessThan key b = Ok (kv_less key (ents t)).
Proof.
  intros Hkey. unfold BTreeIndex_lessThan. rewrite leftmost_ok. cbn [mbind result_bind].
  pose proof Hrep as (_ & [h Hwf] & Hst). pose proof (wf_leaves _ _ _ _ _ _ Hwf) as [(kvs & l & Hl) _].
  destruct (leaf_walk_fuel [] _ eq_refl) as [Hf Hin].
  replace (Some (tfirst t)) with (nextl (leaves t) None) by by rewrite Hl.
  rewrite <- leaves_ents. eapply less_loop_ok; try done. rewrite leaves_ents. apply rep_kvs_ok.
Qed.

Fixpoint lleaves (ctx : list frame) : list (BTreePageId * list entry) :=
  match ctx with [] => [] | f :: ctx => lleaves ctx ++ flat_map leaves (f_lc f) end.
Fixpoint rleaves (ctx : list frame) : list (BTreePageId * list entry) :=
  match ctx with [] => [] | f :: ctx => flat_map leaves (f_rc f) ++ rleaves ctx end.

Lemma plug_leaves ctx s : leaves (plug ctx s) = lleaves ctx ++ leaves s ++ rleaves ctx.
Proof.
  revert s. induction ctx as [|f ctx IH]; intros s; simpl; [by rewrite app_nil_r|].
  rewrite IH. cbn [fill leaves]. rewrite !flat_map_app. simpl. by rewrite app_nil_r, !(assoc_L (++)).
Qed.

Lemma greaterThan_ok key : comparable key →
  BTreeIndex_greaterThan key b = Ok (kv_greater key (ents t)).
Proof.
  intros Hkey. destruct (pathToLeaf_ok _ _ _ _ Hrep Hkey)
    as (ctx & id & kvs & lo & hi & Hp & Hplug & Hctx & Hleaf & Hin & Hat).
  unfold BTreeIndex_greaterThan. rewrite Hp. cbn [mbind result_bind path_back].
  pose proof (plug_leaves ctx (BLeaf id kvs)) as Hlv. rewrite Hplug in Hlv.
  destruct (leaf_walk_fuel _ _ Hlv) as [Hf Hch]. cbn [leaves app] in Hf, Hch.
  pose proof rep_kvs_ok as [Hok _]. rewrite <- (leaves_ents t), Hlv, fmap_app, concat_app in Hok.
  destruct Hrep as (_ & _ & Hst).
  change (Some id) with (nextl ((id, kvs) :: rleaves ctx) None).
  erewrite greater_loop_ok; [|exact Hst|done|by destruct (kvs_ok_app _ _ Hok)|done|done|done].
  rewrite <- (leaves_ents t), Hlv, fmap_app, concat_app, kv_greater_app.
  rewrite (kv_greater_nil _ (concat (lleaves ctx).*2)); [done|].
  destruct (leaf_sides _ _ _ _ _ _ Hctx Hin) as [HL _].
  replace (concat (lleaves ctx).*2) with (ctx_left ctx).
  - eapply Forall_impl; [exact HL|]. intros e [_ He]. by apply vlt_le.
  - clear. induction ctx as [|f ctx IH]; simpl; [done|]. rewrite fmap_app, concat_app, <- IH. f_equal.
    induction (f_lc f) as [|c cs IHc]; simpl; [done|]. by rewrite fmap_app, concat_app, leaves_ents, <- IHc.
Qed.
End lookups.
