(* ===== verification/BTreeInsert.v ===== *)
(** * Insertion into the B+ tree

    [insertSeparator] works on a zipper: the split subtree [t1], [sep], [t2] sits
    in the hole of a context whose page ids are the rest of the path.  Each round
    either fills the hole and stops or splits the page above and moves up. *)

From S2P Require Import Prelude Value HashIndex BTreeIndex BTreeTree BTreeProof.
Local Open Scope nat_scope.

Lemma half_bounds n : n / 2 ≤ S n / 2 ∧ n / 2 + S n / 2 ≤ n ∧ S n ≤ n / 2 + S n / 2 + 1.
Proof.
  pose proof (Nat.div_mod_eq n 2). pose proof (Nat.div_mod_eq (S n) 2).
  pose proof (Nat.mod_upper_bound n 2). pose proof (Nat.mod_upper_bound (S n) 2). lia.
Qed.

Lemma insert_vec_app {A} (i : nat) (x : A) l1 l2 : length l1 = i → insert_vec i x (l1 ++ l2) = l1 ++ x :: l2.
Proof. intros <-. unfold insert_vec. by rewrite take_app_length, drop_app_length. Qed.

Lemma insert_vec_after {A} (i : nat) (x y : A) l1 l2 :
  length l1 = i → insert_vec (i + 1) x (l1 ++ y :: l2) = l1 ++ y :: x :: l2.
Proof.
  intros H. rewrite (cons_middle y l1 l2), (app_assoc l1), insert_vec_app.
  - by rewrite <- app_assoc.
  - rewrite length_app. simpl. lia.
Qed.

Section insert.
Context (max : nat) (Hmax : 2 ≤ max).
Abbreviation mn := (max / 2).

(** The separators left of the hole are at most its lower bound, those right of
    it at least its upper bound. *)
Lemma wf_l_keys h m lo ks cs lo' key :
  wf_l (wf max h m) lo ks cs lo' → comparable key → ge_lo lo' key →
  Forall (λ k, Value_ltb key k = false) ks.
Proof.
  intros H Hkey. revert lo cs H. induction ks as [|k ks IH]; intros lo [|c cs] H Hge; try done.
  destruct H as [Hc H]. constructor; [|by eapply IH].
  pose proof (wf_bnd _ _ _ _ _ _ Hc) as (_ & Hk & _). simpl in Hk.
  apply wf_l_ents in H as [(_ & _ & <-)|(k' & -> & (Hb1 & Hb2 & Hb3) & _)]; simpl in *; [done|].
  destruct (Value_ltb key k) eqn:E; [|done]. by rewrite (Value_ltb_trans key k k') in Hge.
Qed.

Lemma wf_r_head h m hi ks cs hi' key : wf_r (wf max h m) hi ks cs hi' → lt_hi hi key →
  ∀ k ks', ks = k :: ks' → Value_ltb key k = true.
Proof. destruct ks; [done|]. by intros [-> _] Hlt k' ks' [= <- _]. Qed.

Lemma hole_index h lo hi f lo' hi' key :
  wf_l (wf max h mn) lo' (f_lk f) (f_lc f) lo → wf_r (wf max h mn) hi (f_rk f) (f_rc f) hi' →
  inb lo hi key → childIndex (f_lk f ++ f_rk f) key = length (f_lk f).
Proof.
  intros Hl Hr (Hk & Hlo & Hhi). apply childIndex_split; [by eapply wf_l_keys|by eapply wf_r_head].
Qed.

(** The state in which [t1] and its new right neighbour [t2] wait for the
    separator [sep] in the page above. *)
Definition split_at (b : BTreeIndex) (ctx : list frame) (t1 t2 : btree) (count : nat) : Prop :=
  store max b [] (ctx_root ctx (troot t1)) count
    (pages t1 (Some (tfirst t2)) ++ pages t2 (ctx_next ctx) ++ ctx_pages ctx (troot t1) (tfirst t1)).

(** The separator and the new child go into the parent page. *)
Definition sep_page (f : frame) (sep : Value) (t1 t2 : btree) : BTreeNode :=
  inner_page (f_id f) (f_lk f ++ sep :: f_rk f)
    ((troot <$> f_lc f) ++ troot t1 :: troot t2 :: (troot <$> f_rc f)).

(** The pages of a node with one more child than its frame, and of its context. *)
Lemma split_at_pages b f ctx t1 t2 count : split_at b (f :: ctx) t1 t2 count →
  store max b [] (ctx_root ctx (f_id f)) count
    ((f_id f, inner_page (f_id f) (f_lk f ++ f_rk f)
                ((troot <$> f_lc f) ++ troot t1 :: (troot <$> f_rc f))) ::
     pagesl (f_lc f ++ t1 :: t2 :: f_rc f) (ctx_next ctx) ++
     ctx_pages ctx (f_id f) (frame_first f (tfirst t1))).
Proof.
  intros Hst. eapply store_perm; [exact Hst|]. rewrite pagesl_app. cbn [ctx_pages ctx_next pagesl firstl].
  solve_Permutation.
Qed.

Lemma split_at_fill b f ctx sep t1 t2 count : split_at b (f :: ctx) t1 t2 count →
  at_ctx max (put_node (f_id f) (sep_page f sep t1 t2) (bt_markDirty (f_id f) b)) ctx
    (fill f [sep] [t1; t2]) count.
Proof.
  intros Hst%split_at_pages. unfold at_ctx. unfold fill at 2. cbn [app].
  rewrite pages_node, fmap_app, !fmap_cons.
  replace (tfirst (fill f [sep] [t1; t2])) with (frame_first f (tfirst t1))
    by (unfold frame_first, fill; by destruct (f_lc f)).
  eapply store_put, store_mark, Hst.
Qed.

(** Splitting an overfull internal page. *)
Lemma splitInternal_at b ctx id ks cs h lo hi count :
  at_ctx max b ctx (BNode id ks cs) count → wf_ctx max (S h) lo hi ctx →
  wf_cs (wf max h mn) lo hi ks cs → length ks = S max →
  ∃ promoted rightId b' t1 t2,
    let mid := length ks / 2 in
    ks !! mid = Some promoted ∧
    allocatePage (bt_markDirty id b) = (rightId, b') ∧
    t1 = BNode id (take mid ks) (take (mid + 1) cs) ∧
    t2 = BNode rightId (drop (mid + 1) ks) (drop (mid + 1) cs) ∧
    wf max (S h) mn lo (Some promoted) t1 ∧ wf max (S h) mn (Some promoted) hi t2 ∧
    split_at (emplace_node rightId (inner_page rightId (drop (mid + 1) ks) (drop (mid + 1) (troot <$> cs)))
                (put_node id (inner_page id (take mid ks) (take (mid + 1) (troot <$> cs))) b'))
      ctx t1 t2 count.
Proof.
  intros Hst Hctx Hcs Hlen. pose proof (half_bounds max) as Hh. cbn zeta.
  rewrite Hlen. set (mid := S max / 2) in *.
  pose proof (wf_cs_length _ _ _ _ _ Hcs) as Hlc.
  destruct (lookup_lt_is_Some_2 ks mid) as [promoted Hp]; [lia|].
  assert (ks = take mid ks ++ promoted :: drop (mid + 1) ks) as Hks.
  { rewrite Nat.add_1_r. symmetry. by apply take_drop_middle. }
  rewrite <- (take_drop (mid + 1) cs), Hks in Hcs.
  apply wf_cs_app in Hcs as [H1 H2]; [|rewrite !length_take; lia].
  apply (store_mark _ _ _ _ _ _ id) in Hst.
  destruct (store_alloc _ _ _ _ _ _ Hst) as (rightId & b' & Ha & Hst').
  eexists promoted, rightId, b', _, _. split_and!; try done.
  - apply wf_node; [rewrite length_take; lia|done].
  - apply wf_node; [rewrite length_drop; lia|done].
  - unfold split_at. rewrite !pages_node. cbn [troot]. rewrite fmap_take, fmap_drop.
    eapply store_perm; [apply store_emplace; eapply store_put|].
    + eapply store_perm; [exact Hst'|]. rewrite pages_node. simpl. reflexivity.
    + rewrite <- (take_drop (mid + 1) cs) at 3. rewrite pagesl_app.
      assert (drop (mid + 1) cs ≠ []) as Hd.
      { intros E. apply (f_equal length) in E. rewrite length_drop in E. simpl in E. lia. }
      rewrite <- (tfirst_node rightId (drop (mid + 1) ks) (drop (mid + 1) cs)) by done.
      assert (tfirst (BNode id (take mid ks) (take (mid + 1) cs)) = tfirst (BNode id ks cs)) as ->.
      { rewrite Nat.add_1_r. by destruct cs. }
      cbn [tfirst].
      solve_Permutation.
Qed.

Lemma insertSeparator_ok ctx h lo hi t1 sep t2 b count :
  split_at b ctx t1 t2 count →
  wf_ctx max h lo hi ctx → wf max h mn lo (Some sep) t1 → wf max h mn (Some sep) hi t2 →
  ∃ b' t', insertSeparator (f_id <$> ctx) sep (troot t2) b = Ok b' ∧
    wf_root max t' ∧ store max b' [] (troot t') count (pages t' None) ∧
    ents t' = ctx_left ctx ++ ents t1 ++ ents t2 ++ ctx_right ctx.
Proof.
  revert h lo hi t1 sep t2 b. induction ctx as [|f ctx IH]; intros h lo hi t1 sep t2 b Hst Hctx H1 H2.
  - destruct Hctx as [-> ->]. cbn [insertSeparator fmap list_fmap].
    unfold split_at in Hst. simpl in Hst. rewrite app_nil_r in Hst.
    rewrite (st_root _ _ _ _ _ _ Hst).
    destruct (store_alloc _ _ _ _ _ _ Hst) as (id & b' & -> & Hst').
    eexists _, (BNode id [sep] [t1; t2]). split; [done|]. split; [|split].
    + exists (S h). apply wf_node; [simpl; lia|]. done.
    + rewrite pages_node. cbn [pagesl firstl troot]. rewrite app_nil_r.
      apply store_emplace. eapply store_set_root. exact Hst'.
    + simpl. by rewrite !app_nil_r.
  - destruct Hctx as (Hs & lo' & hi' & Hl & Hr & Hc). rewrite fmap_cons. cbn [insertSeparator].
    assert (inb lo hi sep) as Hsep.
    { pose proof (wf_bnd _ _ _ _ _ _ H1) as (Hlo & Hsep & Hlt).
      pose proof (wf_bnd _ _ _ _ _ _ H2) as (_ & _ & Hlt').
      split_and!; [done| |by destruct hi]. destruct lo; [|done]. simpl in *. by apply vlt_le. }
    pose proof (split_at_pages _ _ _ _ _ _ Hst) as Hst1.
    erewrite store_mut; [|exact Hst1|apply list_elem_of_here]. cbn [mbind result_bind].
    cbn [inner_page bn_pageId bn_leaf bn_keys bn_rowIds bn_children bn_nextLeaf].
    rewrite (hole_index h lo hi f lo' hi') by done.
    pose proof (wf_l_length _ _ _ _ _ Hl) as Hll.
    rewrite insert_vec_app, insert_vec_after by (rewrite ?length_fmap; lia).
    apply (split_at_fill _ _ _ sep) in Hst. unfold sep_page, inner_page in Hst.
    set (b1 := put_node _ _ _) in *.
    rewrite (st_max _ _ _ _ _ _ Hst).
    assert (wf_cs (wf max h mn) lo' hi' (f_lk f ++ [sep] ++ f_rk f) (f_lc f ++ [t1; t2] ++ f_rc f)) as Hcs.
    { apply wf_cs_mid; [done|done|]. by exists lo, hi. }
    destruct (Nat.ltb_spec max (length (f_lk f ++ sep :: f_rk f))) as [Hover|Hfit].
    + clearbody b1. unfold fill in Hst. erewrite store_mut; [|exact Hst|].
      2:{ apply elem_of_app. left. rewrite pages_node. apply list_elem_of_here. }
      cbn [mbind result_bind inner_page bn_pageId bn_leaf bn_keys bn_rowIds bn_children bn_nextLeaf].
      destruct (splitInternal_at _ _ _ _ _ _ _ _ _ Hst Hc Hcs)
        as (promoted & rightId & b' & u1 & u2 & Hp & Ha & Hu1 & Hu2 & Hw1 & Hw2 & Hsp).
      { rewrite !length_app in *. simpl in *. lia. }
      rewrite Hp, Ha. destruct (IH _ _ _ _ _ _ _ Hsp Hc Hw1 Hw2) as (b2 & t' & E & Hroot & Hst' & Hents).
      exists b2, t'. subst u1 u2. split; [exact E|]. split_and!; [done..|]. rewrite Hents.
      cbn [ents ctx_left ctx_right]. rewrite (app_assoc (entsl _)), <- entsl_app, take_drop, !entsl_app.
      simpl. rewrite app_nil_r. by rewrite !(assoc_L (++)).
    + eexists b1, (plug ctx (fill f [sep] [t1; t2])). split; [done|]. split; [|split].
      * eapply wf_plug; [exact Hc|]. eapply wf_fill; try done. rewrite !length_app in *; simpl in *. lia.
      * by apply at_ctx_plug.
      * rewrite plug_ents. cbn [fill ents ctx_left ctx_right]. rewrite !entsl_app. simpl.
        rewrite app_nil_r. by rewrite !(assoc_L (++)).
Qed.

(** ** The leaf *)

(** Sorted entries split before an entry whose key is the new bound. *)
Lemma ents_split lo hi kvs1 e kvs2 :
  bnd lo hi → ents_ok lo hi (kvs1 ++ e :: kvs2) → kvs1 ≠ [] →
  bnd lo (Some e.1) ∧ bnd (Some e.1) hi ∧ ents_ok lo (Some e.1) kvs1 ∧ ents_ok (Some e.1) hi (e :: kvs2).
Proof.
  intros (Hlo & Hhi & Hb) (Hs & Hin & Hne) Hn.
  apply keys_sorted_app in Hs as (Hs1 & Hs2 & Hlt). apply Forall_app in Hin as [Hin1 Hin2].
  apply Forall_app in Hne as [Hne1 Hne2].
  assert (Forall (λ x, Value_ltb x.1 e.1 = true) kvs1) as Hlt1.
  { apply Forall_forall. intros x Hx. apply Hlt; [done|apply list_elem_of_here]. }
  inversion Hin2 as [|? ? (Hce & Hle & Hhe) Hin2']; subst.
  split_and!.
  - split_and!; [done..|]. destruct kvs1 as [|x kvs1]; [done|]. destruct lo as [l|]; [|done]. simpl in *.
    inversion Hin1 as [|? ? (Hcx & Hlx & _) _]; subst. inversion Hlt1; subst.
    by apply (vle_lt_trans _ x.1).
  - split_and!; [done..|]. by destruct hi.
  - split_and!; [done| |done]. apply Forall_forall. intros x Hx.
    rewrite Forall_forall in Hin1, Hlt1. destruct (Hin1 x Hx) as (? & ? & ?). split_and!; try done.
    by apply Hlt1.
  - split_and!; [done| |done]. constructor; [split_and!; try done; apply Value_ltb_irrefl|].
    inversion Hs2 as [|? ? _ Hgt]; subst. rewrite Forall_forall in Hgt, Hin2'.
    apply Forall_forall. intros x Hx. destruct (Hin2' x Hx) as (? & ? & ?). split_and!; try done.
    simpl. apply vlt_le. by apply Hgt.
Qed.

Lemma wf_leaf m lo hi id kvs :
  wf max 0 m lo hi (BLeaf id kvs) ↔ bnd lo hi ∧ m ≤ length kvs ≤ max ∧ ents_ok lo hi kvs.
Proof. simpl. unfold ents_ok. rewrite Forall_and. tauto. Qed.

Lemma leaf_update b ctx id kvs kvs' count :
  at_ctx max b ctx (BLeaf id kvs) count →
  at_ctx max (put_node id (leaf_page id kvs' (ctx_next ctx)) (bt_markDirty id b)) ctx (BLeaf id kvs') count.
Proof. intros Hst. eapply store_put, store_mark, Hst. Qed.

Lemma at_ctx_incr b ctx t count : at_ctx max b ctx t count → at_ctx max (bt_incr_keyCount b) ctx t (S count).
Proof. apply store_incr. Qed.

Lemma splitLeaf_ok b ctx id kvs lo hi count :
  at_ctx max b ctx (BLeaf id kvs) count → wf_ctx max 0 lo hi ctx →
  bnd lo hi → ents_ok lo hi kvs → length kvs = S max →
  ∃ b' t', splitLeaf (id :: (f_id <$> ctx)) b = Ok b' ∧
    wf_root max t' ∧ store max b' [] (troot t') count (pages t' None) ∧
    ents t' = ctx_left ctx ++ kvs ++ ctx_right ctx.
Proof.
  intros Hst Hctx Hb Hok Hlen. pose proof (half_bounds max) as Hh. unfold splitLeaf.
  erewrite store_mut; [|exact Hst|apply list_elem_of_here].
  cbn [mbind result_bind leaf_page bn_pageId bn_leaf bn_keys bn_rowIds bn_children bn_nextLeaf].
  rewrite length_fmap, Hlen. set (mid := S max / 2) in *.
  apply (store_mark _ _ _ _ _ _ id) in Hst.
  destruct (store_alloc _ _ _ _ _ _ Hst) as (rid & b' & -> & Hst').
  rewrite <- !fmap_drop, <- !fmap_take.
  destruct (drop mid kvs) as [|e kvs2] eqn:Ed.
  { apply (f_equal length) in Ed. rewrite length_drop in Ed. simpl in Ed. lia. }
  rewrite <- (take_drop mid kvs), Ed in Hok.
  assert (length (take mid kvs) = mid) as Hlt by (rewrite length_take; lia).
  destruct (ents_split lo hi (take mid kvs) e kvs2) as (Hb1 & Hb2 & Ho1 & Ho2); [done..| |].
  { intros E. rewrite E in Hlt. simpl in Hlt. lia. }
  rewrite fmap_cons. cbn [fst].
  destruct (insertSeparator_ok ctx 0 lo hi (BLeaf id (take mid kvs)) e.1 (BLeaf rid (e :: kvs2))
    (emplace_node rid (leaf_page rid (e :: kvs2) (ctx_next ctx))
       (put_node id (leaf_page id (take mid kvs) (Some rid)) b')) count) as (b2 & t' & E & Hr & Hs & He).
  - eapply store_perm; [apply store_emplace; eapply store_put, Hst'|]. simpl. solve_Permutation.
  - done.
  - apply wf_leaf. split_and!; [done|lia|lia|done..].
  - apply wf_leaf. apply (f_equal length) in Ed. rewrite length_drop in Ed.
    split_and!; [done|lia|lia|done..].
  - exists b2, t'. split; [exact E|]. split_and!; [done..|]. rewrite He. cbn [ents].
    by rewrite (app_assoc (take mid kvs)), <- Ed, take_drop.
Qed.
End insert.

(** ** Insertion *)

Lemma ents_ok_kvs_ok lo hi kvs : ents_ok lo hi kvs → kvs_ok kvs.
Proof. intros (Hs & Hb & _). split; [done|]. eapply Forall_impl; [exact Hb|]. by intros e [? _]. Qed.

(** [kv_insert] at the split found by the leaf search. *)
Lemma kv_insert_new key rowId a c :
  comparable key → Forall (λ e, comparable e.1 ∧ Value_ltb e.1 key = true) a →
  Forall (λ e, comparable e.1 ∧ Value_ltb key e.1 = true) c →
  kv_insert key rowId (a ++ c) = a ++ (key, [rowId]) :: c.
Proof. intros Hkey Ha Hc. rewrite kv_insert_left by done. f_equal. apply (kv_insert_right key rowId []); done. Qed.

Lemma kv_insert_old key rowId a k ids c :
  comparable key → comparable k → Forall (λ e, comparable e.1 ∧ Value_ltb e.1 key = true) a →
  Value_eqb k key = true →
  kv_insert key rowId (a ++ (k, ids) :: c) = a ++ (k, ids ++ [rowId]) :: c.
Proof.
  intros Hkey Hck Ha Hk. rewrite kv_insert_left by done. simpl. by rewrite veq_not_lt, Hk.
Qed.

Lemma inb_sorted_insert lo hi key rowId a c :
  inb lo hi key → ents_ok lo hi (a ++ c) →
  Forall (λ e, comparable e.1 ∧ Value_ltb e.1 key = true) a →
  Forall (λ e, comparable e.1 ∧ Value_ltb key e.1 = true) c →
  ents_ok lo hi (a ++ (key, [rowId]) :: c).
Proof.
  intros Hin (Hs & Hb & Hn) Ha Hc. apply Forall_app in Hb as [Hb1 Hb2], Hn as [Hn1 Hn2].
  apply keys_sorted_app in Hs as (Hs1 & Hs2 & Hlt). rewrite Forall_forall in Ha, Hc.
  split_and!.
  - apply keys_sorted_app. split_and!; [done| |].
    + constructor; [done|]. apply Forall_forall. intros e He. by apply Hc.
    + intros x y Hx [->|Hy]%elem_of_cons; [by apply Ha|by apply Hlt].
  - apply Forall_app. split; [done|]. by constructor.
  - apply Forall_app. split; [done|]. by constructor.
Qed.

Lemma ents_ok_update lo hi a k ids ids' c : ids' ≠ [] →
  ents_ok lo hi (a ++ (k, ids) :: c) → ents_ok lo hi (a ++ (k, ids') :: c).
Proof.
  intros Hne (Hs & Hb & Hn). apply keys_sorted_app in Hs as (Hs1 & Hs2 & Hlt).
  apply Forall_app in Hb as [Hb1 Hb2], Hn as [Hn1 Hn2]. inversion Hs2; subst.
  inversion Hb2; subst. inversion Hn2; subst. split_and!.
  - apply keys_sorted_app. split_and!; [done|by constructor|]. intros x y Hx [->|Hy]%elem_of_cons.
    + apply (Hlt x (k, ids)); [done|apply list_elem_of_here].
    + apply Hlt; [done|by apply list_elem_of_further].
  - apply Forall_app. split; [done|]. by constructor.
  - apply Forall_app. split; [done|]. by constructor.
Qed.

Lemma alter_middle {A} (f : A → A) (l1 l2 : list A) x : alter f (length l1) (l1 ++ x :: l2) = l1 ++ f x :: l2.
Proof. induction l1 as [|y l1 IH]; simpl; [done|]. f_equal. exact IH. Qed.

Lemma insert_ok max b t key rowId : bt_rep max b t → comparable key →
  ∃ b' t', BTreeIndex_insert key rowId b = Ok b' ∧ bt_rep max b' t' ∧
           ents t' = kv_insert key rowId (ents t).
Proof.
  intros Hrep Hkey. destruct (pathToLeaf_ok _ _ _ _ Hrep Hkey)
    as (ctx & id & kvs & lo & hi & Hp & Hplug & Hctx & Hleaf & Hin & Hat).
  destruct Hrep as (Hmax & _ & _). unfold BTreeIndex_insert. rewrite Hp. cbn [mbind result_bind].
  unfold insertIntoLeaf. cbn [path_back mbind result_bind].
  erewrite store_mut; [|exact Hat|apply list_elem_of_here].
  cbn [mbind result_bind leaf_page bn_pageId bn_leaf bn_keys bn_rowIds bn_children bn_nextLeaf].
  destruct (leaf_sides _ _ _ _ _ _ Hctx Hin) as [HL HR].
  apply wf_leaf in Hleaf as (Hb & Hlen & Hok).
  assert (∀ t', ents t' = ctx_left ctx ++ kv_insert key rowId kvs ++ ctx_right ctx →
                ents t' = kv_insert key rowId (ents t)) as Hspec.
  { intros t' ->. by rewrite <- Hplug, plug_ents, kv_insert_left, kv_insert_right. }
  destruct (leaf_search key kvs) as (a & c & -> & Hlb & Ha & Hc); [done|by eapply ents_ok_kvs_ok|].
  rewrite Hlb, !fmap_app, lookup_app_r, !length_fmap, Nat.sub_diag by (by rewrite length_fmap).
  destruct Hc as [Hc|(k & ids & c' & -> & Hck & Hk & Hc')].
  - rewrite kv_insert_new in Hspec by done.
    assert (match c.*1 !! 0 with Some k => Value_eqb k key | None => false end = false) as ->.
    { destruct Hc as [|[k ids] c [Hck Hk] _]; [done|]. simpl in *.
      by rewrite (Value_eqb_sym k key), (vlt_neq key k). }
    rewrite !insert_vec_app by by rewrite length_fmap.
    apply (leaf_update _ _ _ _ _ (a ++ (key, [rowId]) :: c)) in Hat. unfold leaf_page in Hat.
    rewrite !fmap_app, !fmap_cons in Hat. cbn [fst snd] in Hat.
    apply at_ctx_incr in Hat. set (b1 := bt_incr_keyCount _) in *. clearbody b1.
    pose proof (inb_sorted_insert _ _ _ rowId _ _ Hin Hok Ha Hc) as Hok'.
    rewrite (st_max _ _ _ _ _ _ Hat), length_app; cbn [length]; rewrite !length_fmap.
    rewrite length_app in Hlen.
    assert (S (length (ents t)) = length (ctx_left ctx ++ (a ++ (key, [rowId]) :: c) ++ ctx_right ctx)) as Hcnt.
    { rewrite <- Hplug, plug_ents. cbn [ents]. rewrite !length_app. simpl. lia. }
    destruct (Nat.ltb_spec max (length a + S (length c))) as [Hover|Hfit].
    + destruct (splitLeaf_ok _ Hmax _ _ _ _ _ _ _ Hat Hctx Hb Hok') as (b' & t' & E & Hr & Hs & He).
      { rewrite length_app. simpl. lia. }
      exists b', t'. split_and!; [done| |by apply Hspec]. split_and!; [done..|].
      rewrite He. by rewrite <- Hcnt.
    + exists b1, (plug ctx (BLeaf id (a ++ (key, [rowId]) :: c))). split; [done|]. split; [|apply Hspec; by rewrite plug_ents].
      split_and!; [done| |].
      * eapply wf_plug; [exact Hctx|]. apply wf_leaf. rewrite length_app. simpl. split_and!; try done; lia.
      * apply at_ctx_plug. rewrite plug_ents. cbn [ents]. by rewrite <- Hcnt.
  - rewrite kv_insert_old in Hspec by done. simpl. rewrite Hk.
    rewrite <- (length_fmap snd a), alter_middle. eexists _, (plug ctx (BLeaf id (a ++ (k, ids ++ [rowId]) :: c'))).
    split; [done|]. split; [|apply Hspec; by rewrite plug_ents]. split_and!; [done| |].
    + eapply wf_plug; [exact Hctx|]. apply wf_leaf. rewrite length_app in *. simpl in Hlen |- *.
      split; [done|]. split; [lia|]. eapply ents_ok_update; [|exact Hok]. by destruct ids.
    + apply at_ctx_plug. rewrite <- Hplug, !plug_ents in *. cbn [ents] in *. rewrite !length_app in *. simpl in *.
      apply (leaf_update _ _ _ _ _ (a ++ (k, ids ++ [rowId]) :: c')) in Hat. unfold leaf_page in Hat.
      rewrite !fmap_app, !fmap_cons in Hat. exact Hat.
Qed.
