(* ===== verification/BTreeRemove.v ===== *)
(** * Removal from the B+ tree

    After a key leaves its leaf the page may be underfull.  Each round of
    [rebalanceAfterDelete] looks at one pair of adjacent siblings under the
    parent: borrowing moves an entry across their separator and stops, merging
    frees the right page and moves up. *)

From S2P Require Import Prelude Value HashIndex BTreeIndex BTreeTree BTreeProof BTreeInsert.
Local Open Scope nat_scope.
Local Arguments Nat.div : simpl never.

Definition tkeys (t : btree) : list Value :=
  match t with BLeaf _ kvs => kvs.*1 | BNode _ ks _ => ks end.
Definition tsize (t : btree) : nat := length (tkeys t).
Definition tleaf (t : btree) : bool := match t with BLeaf _ _ => true | BNode _ _ _ => false end.

(** The root page of a tree, and the pages below it. *)
Definition tpage (t : btree) (nl : option BTreePageId) : BTreeNode :=
  match t with
  | BLeaf id kvs => leaf_page id kvs nl
  | BNode id ks cs => inner_page id ks (troot <$> cs)
  end.
Definition tbelow (t : btree) (nl : option BTreePageId) : list page :=
  match t with BLeaf _ _ => [] | BNode _ _ cs => pagesl cs nl end.

Lemma pages_tpage t nl : pages t nl = (troot t, tpage t nl) :: tbelow t nl.
Proof. destruct t as [id kvs|id ks cs]; [done|]. by rewrite pages_node. Qed.

Lemma tpage_keys t nl : bn_keys (tpage t nl) = tkeys t.
Proof. by destruct t. Qed.
Lemma tpage_leaf t nl : bn_leaf (tpage t nl) = tleaf t.
Proof. by destruct t. Qed.

Section store.
Context (max : nat).

Lemma store_put2 b rs r c x pgs p n n' : store max b rs r c (x :: (p, n) :: pgs) →
  store max (put_node p n' b) rs r c (x :: (p, n') :: pgs).
Proof.
  intros H. eapply store_perm; [eapply store_put, store_perm; [exact H|]|]; apply Permutation_swap.
Qed.

Lemma store_put3 b rs r c x y pgs p n n' : store max b rs r c (x :: y :: (p, n) :: pgs) →
  store max (put_node p n' b) rs r c (x :: y :: (p, n') :: pgs).
Proof.
  intros H. apply (store_perm _ _ _ _ _ ((p, n') :: x :: y :: pgs)); [|solve_Permutation].
  apply (store_put _ _ _ _ _ _ _ n). eapply store_perm; [exact H|]. solve_Permutation.
Qed.

Lemma store_free b r c p n pgs : store max b [] r c ((p, n) :: pgs) →
  store max (freePage p b) [] r c pgs.
Proof.
  intros [Hn Hd Hf Hm Hr Hc]. simpl in *. split; simpl; try done.
  - rewrite Hn. simpl. apply NoDup_cons in Hd as [Hd _].
    apply delete_insert_id, not_elem_of_list_to_map_1. set_solver.
  - rewrite (app_assoc pgs.*1), <- Permutation_cons_append. done.
  - intros q Hq. apply Hf. set_solver.
Qed.

(** Two pages rewritten and a third one freed. *)
Lemma store_merge b r c p n n' q m m' x k rest :
  store max b [] r c ((p, n) :: (q, m) :: (x, k) :: rest) →
  store max (freePage x (put_node p n' (put_node q m' b))) [] r c ((p, n') :: (q, m') :: rest).
Proof.
  intros H. apply (store_free _ _ _ x k). eapply store_perm; [eapply store_put, store_put2, H|].
  solve_Permutation.
Qed.

Lemma store_decr b rs r c pgs : store max b rs r c pgs → store max (bt_decr_keyCount b) rs r (pred c) pgs.
Proof. intros []. split; simpl; auto. Qed.
End store.

(** A list is not empty because its length is known. *)
Ltac nonempty :=
  let E := fresh in
  intros E; apply (f_equal length) in E; rewrite ?length_app in E; simpl in *; lia.

(** ** A pair of siblings *)

Section pair.
Context (max : nat) (Hmax : 2 ≤ max).
Abbreviation mn := (max / 2).

Lemma mn_pos : 1 ≤ mn.
Proof. change 1 with (2 / 2). by apply Nat.Div0.div_le_mono. Qed.

Lemma wf_tsize h m lo hi t : wf max h m lo hi t → m ≤ tsize t ≤ max.
Proof.
  destruct h, t as [id kvs|id ks cs]; intros [_ H]; try done; unfold tsize; simpl in *.
  - rewrite length_fmap. tauto.
  - tauto.
Qed.

Lemma wf_tleaf h m lo hi t : wf max h m lo hi t → tleaf t = match h with O => true | S _ => false end.
Proof. destruct h, t; intros [_ H]; done. Qed.

(** The raised minimum. *)
Lemma wf_tsize_min h m m' lo hi t : wf max h m lo hi t → m' ≤ tsize t → wf max h m' lo hi t.
Proof.
  destruct h, t as [id kvs|id ks cs]; intros [? H]; try done; unfold tsize, tkeys; destruct H as [[_ Hl] H];
    rewrite ?length_fmap; intros Hm; repeat (split; try done).
Qed.

Definition pair_page (g : frame) (sep : Value) (l r : btree) : BTreeNode :=
  inner_page (f_id g) (f_lk g ++ sep :: f_rk g)
    ((troot <$> f_lc g) ++ troot l :: troot r :: (troot <$> f_rc g)).

(** The pages of the pair's parent in the order the code touches them. *)
Definition pair_pages (g : frame) (sep : Value) (l r : btree) (nl : option BTreePageId) : list page :=
  (f_id g, pair_page g sep l r) ::
  (troot l, tpage l (Some (tfirst r))) ::
  (troot r, tpage r (firstl (f_rc g) nl)) ::
  (tbelow l (Some (tfirst r)) ++ tbelow r (firstl (f_rc g) nl)) ++
  pagesl (f_lc g) (Some (tfirst l)) ++ pagesl (f_rc g) nl.

Lemma fill_pair_pages g sep l r nl : pages (fill g [sep] [l; r]) nl ≡ₚ pair_pages g sep l r nl.
Proof.
  unfold fill, pair_pages, pair_page. cbn [app]. rewrite pages_node, pagesl_app. cbn [pagesl firstl].
  rewrite fmap_app, !fmap_cons, !pages_tpage. solve_Permutation.
Qed.

Lemma tfirst_fill_l g mk l mc : tfirst (fill g mk (l :: mc)) = frame_first g (tfirst l).
Proof. unfold fill, frame_first. by destruct (f_lc g). Qed.

Lemma fill_one_pages g m nl :
  pages (fill g [] [m]) nl ≡ₚ
  (f_id g, inner_page (f_id g) (f_lk g ++ f_rk g) ((troot <$> f_lc g) ++ troot m :: (troot <$> f_rc g))) ::
  (troot m, tpage m (firstl (f_rc g) nl)) ::
  tbelow m (firstl (f_rc g) nl) ++ pagesl (f_lc g) (Some (tfirst m)) ++ pagesl (f_rc g) nl.
Proof.
  unfold fill. cbn [app]. rewrite pages_node, pagesl_app. cbn [pagesl firstl].
  rewrite fmap_app, fmap_cons, pages_tpage. solve_Permutation.
Qed.

Definition pair_at (b : BTreeIndex) (g : frame) (ctx : list frame) (sep : Value) (l r : btree)
    (count : nat) : Prop :=
  store max b [] (ctx_root ctx (f_id g)) count
    (pair_pages g sep l r (ctx_next ctx) ++ ctx_pages ctx (f_id g) (frame_first g (tfirst l))).

Lemma pair_at_iff b g ctx sep l r count :
  pair_at b g ctx sep l r count ↔ at_ctx max b ctx (fill g [sep] [l; r]) count.
Proof.
  unfold pair_at, at_ctx. rewrite tfirst_fill_l. cbn [troot fill].
  split; intros H; (eapply store_perm; [exact H|]); by rewrite fill_pair_pages.
Qed.

Lemma pair_mark b g ctx sep l r count p : pair_at b g ctx sep l r count →
  pair_at (bt_markDirty p b) g ctx sep l r count.
Proof. apply store_mark. Qed.

Lemma vec_at_mid {A} (l1 l2 : list A) x i : length l1 = i → vec_at (l1 ++ x :: l2) i = Ok x.
Proof. intros <-. unfold vec_at. by rewrite list_lookup_middle. Qed.

Lemma vec_at_mid2 {A} (l1 l2 : list A) x y i : length l1 = i → vec_at (l1 ++ x :: y :: l2) (i + 1) = Ok y.
Proof.
  intros <-. rewrite (cons_middle x), app_assoc. apply vec_at_mid. by rewrite length_app.
Qed.

Lemma siblings_ok b g ctx sep l r count i :
  pair_at b g ctx sep l r count → length (f_lc g) = i →
  ∃ b', siblings (f_id g) i b =
        Ok (pair_page g sep l r, (troot l, tpage l (Some (tfirst r))),
            (troot r, tpage r (firstl (f_rc g) (ctx_next ctx))), b') ∧
        pair_at b' g ctx sep l r count.
Proof.
  intros Hp Hi. unfold siblings.
  erewrite store_mut; [|exact Hp|apply list_elem_of_here]. cbn [mbind result_bind].
  cbn [pair_page inner_page bn_children].
  rewrite vec_at_mid2, vec_at_mid by (by rewrite length_fmap).
  apply (pair_mark _ _ _ _ _ _ _ (f_id g)) in Hp. cbn [mbind result_bind].
  erewrite store_mut; [|exact Hp|apply list_elem_of_further, list_elem_of_here]. cbn [mbind result_bind].
  apply (pair_mark _ _ _ _ _ _ _ (troot l)) in Hp.
  erewrite store_mut; [|exact Hp|do 2 apply list_elem_of_further; apply list_elem_of_here].
  eexists. split; [done|]. by apply pair_mark.
Qed.

(** What a rebalancing step on the pair gives: the same entries under the same
    bounds, in pages filled to the minimum. *)
Definition borrowed (h : nat) (lo hi : bound) (g : frame) (ctx : list frame) (l r : btree) (count : nat)
    (res : result BTreeIndex) : Prop :=
  ∃ b' sep' l' r', res = Ok b' ∧ at_ctx max b' ctx (fill g [sep'] [l'; r']) count ∧
    wf_cs (wf max h mn) lo hi [sep'] [l'; r'] ∧ ents l' ++ ents r' = ents l ++ ents r.

Definition merged (h : nat) (lo hi : bound) (g : frame) (ctx : list frame) (l r : btree) (count : nat)
    (res : result BTreeIndex) : Prop :=
  ∃ b' m, res = Ok b' ∧ at_ctx max b' ctx (fill g [] [m]) count ∧
    wf max h mn lo hi m ∧ ents m = ents l ++ ents r.

Section ops.
Context (b : BTreeIndex) (g : frame) (ctx : list frame) (sep : Value) (count h : nat) (lo hi : bound).
Context (Hg : length (f_lc g) = length (f_lk g)).

Lemma insert_sep (x : Value) : <[length (f_lk g) := x]> (f_lk g ++ sep :: f_rk g) = f_lk g ++ x :: f_rk g.
Proof. by rewrite insert_app_r_alt, Nat.sub_diag. Qed.

(** Two leaves under new contents. *)
Lemma leaf_pair_wf id1 kvs1 id2 e kvs2 :
  bnd lo hi → ents_ok lo hi (kvs1 ++ e :: kvs2) → 1 ≤ mn →
  mn ≤ length kvs1 ≤ max → mn ≤ length (e :: kvs2) ≤ max →
  wf_cs (wf max 0 mn) lo hi [e.1] [BLeaf id1 kvs1; BLeaf id2 (e :: kvs2)].
Proof.
  intros Hb Hok Hmn H1 H2. destruct (ents_split _ _ _ _ _ Hb Hok) as (? & ? & ? & ?).
  - destruct kvs1; [simpl in *; lia|done].
  - split; by apply wf_leaf.
Qed.

Lemma leaves_ents_ok id1 kvs1 id2 kvs2 m1 m2 :
  wf max 0 m1 lo (Some sep) (BLeaf id1 kvs1) → wf max 0 m2 (Some sep) hi (BLeaf id2 kvs2) →
  bnd lo hi ∧ ents_ok lo hi (kvs1 ++ kvs2).
Proof.
  intros (H1 & _ & O1)%wf_leaf (H2 & _ & O2)%wf_leaf.
  split; [by eapply bnd_trans|by eapply ents_ok_app].
Qed.

Lemma borrowFromLeftLeaf_ok id1 kvs1 id2 kvs2 :
  let l := BLeaf id1 kvs1 in let r := BLeaf id2 kvs2 in
  pair_at b g ctx sep l r count →
  wf max 0 mn lo (Some sep) l → wf max 0 (mn - 1) (Some sep) hi r →
  mn < tsize l → tsize r < mn →
  borrowed 0 lo hi g ctx l r count (borrowFromLeftLeaf (f_id g) (S (length (f_lk g))) b).
Proof.
  intros l r Hp Hl Hr Hsl Hsr. unfold borrowFromLeftLeaf.
  destruct (siblings_ok _ _ _ _ _ _ _ (length (f_lk g)) Hp) as (b' & E & Hp'); [done|].
  rewrite Nat.sub_1_r. cbn [pred]. rewrite E. cbn [mbind result_bind]. clear E Hp.
  pose proof (wf_tsize _ _ _ _ _ Hl) as Hl'. pose proof (wf_tsize _ _ _ _ _ Hr) as Hr'.
  pose proof mn_pos as Hmn.
  unfold l, r, tsize in *. cbn [tkeys] in *. rewrite length_fmap in *.
  destruct kvs1 as [|e kvs1 _] using rev_ind; [simpl in Hsl; lia|].
  destruct (leaves_ents_ok _ _ _ _ _ _ Hl Hr) as [Hb Hok]. rewrite <- app_assoc in Hok. cbn [app] in Hok.
  rewrite length_app in *. simpl in Hsl, Hl'.
  unfold vec_back. cbn [tpage leaf_page bn_keys bn_rowIds]. rewrite !fmap_app. cbn [fmap list_fmap].
  rewrite !(proj2 (unsnoc_Some _ _ _) eq_refl). cbn [mbind result_bind].
  eexists _, e.1, (BLeaf id1 kvs1), (BLeaf id2 (e :: kvs2)). split; [done|]. split; [|split].
  - apply pair_at_iff. cbn [pair_page set_inner inner_page bn_keys]. rewrite insert_sep.
    eapply store_put, store_put2, store_put3. exact Hp'.
  - apply leaf_pair_wf; [done|done|lia|lia|simpl; lia].
  - cbn [ents]. by rewrite <- app_assoc.
Qed.

Lemma borrowFromRightLeaf_ok id1 kvs1 id2 kvs2 :
  let l := BLeaf id1 kvs1 in let r := BLeaf id2 kvs2 in
  pair_at b g ctx sep l r count →
  wf max 0 (mn - 1) lo (Some sep) l → wf max 0 mn (Some sep) hi r →
  tsize l < mn → mn < tsize r →
  borrowed 0 lo hi g ctx l r count (borrowFromRightLeaf (f_id g) (length (f_lk g)) b).
Proof.
  intros l r Hp Hl Hr Hsl Hsr. unfold borrowFromRightLeaf.
  destruct (siblings_ok _ _ _ _ _ _ _ (length (f_lk g)) Hp) as (b' & E & Hp'); [done|].
  rewrite E. cbn [mbind result_bind]. clear E Hp.
  pose proof (wf_tsize _ _ _ _ _ Hl) as Hl'. pose proof (wf_tsize _ _ _ _ _ Hr) as Hr'.
  destruct (leaves_ents_ok _ _ _ _ _ _ Hl Hr) as [Hb Hok]. pose proof mn_pos as Hmn.
  unfold l, r, tsize in *. cbn [tkeys] in *. rewrite length_fmap in *.
  destruct kvs2 as [|e [|e2 kvs2]]; [simpl in Hsr; lia|simpl in Hsr; lia|].
  rewrite (cons_middle e), app_assoc in Hok. simpl in Hsr, Hr'.
  cbn [tpage leaf_page bn_keys bn_rowIds]. rewrite !fmap_cons.
  cbn [vec_front mbind result_bind set_leaf bn_keys drop].
  eexists _, e2.1, (BLeaf id1 (kvs1 ++ [e])), (BLeaf id2 (e2 :: kvs2)). split; [done|]. split; [|split].
  - apply pair_at_iff. cbn [pair_page set_inner inner_page bn_keys]. rewrite insert_sep.
    unfold pair_at, pair_pages. cbn [tpage]. unfold leaf_page. rewrite !fmap_app.
    eapply store_put, store_put3, store_put2. exact Hp'.
  - apply leaf_pair_wf; [done|done|lia|rewrite length_app; simpl; lia|simpl; lia].
  - cbn [ents]. by rewrite <- app_assoc.
Qed.

Lemma delete_sep : delete (length (f_lk g)) (f_lk g ++ sep :: f_rk g) = f_lk g ++ f_rk g.
Proof. apply delete_middle. Qed.

Lemma delete_child l r :
  delete (length (f_lk g) + 1) ((troot <$> f_lc g) ++ troot l :: troot r :: (troot <$> f_rc g)) =
  (troot <$> f_lc g) ++ troot l :: (troot <$> f_rc g).
Proof.
  rewrite (cons_middle (troot l)), app_assoc, <- Hg.
  replace (length (f_lc g) + 1) with (length ((troot <$> f_lc g) ++ [troot l]))
    by (rewrite length_app, length_fmap; done).
  rewrite delete_middle. by rewrite <- app_assoc.
Qed.

(** The merged page takes the place of the left one. *)
Lemma merged_at b' l r m L' :
  pair_at b' g ctx sep l r count → troot m = troot l → tfirst m = tfirst l →
  L' = tpage m (firstl (f_rc g) (ctx_next ctx)) →
  tbelow m (firstl (f_rc g) (ctx_next ctx)) =
    tbelow l (Some (tfirst r)) ++ tbelow r (firstl (f_rc g) (ctx_next ctx)) →
  at_ctx max
    (freePage (troot r)
       (put_node (f_id g)
          (set_inner (pair_page g sep l r) (delete (length (f_lk g)) (bn_keys (pair_page g sep l r)))
             (delete (length (f_lk g) + 1) (bn_children (pair_page g sep l r))))
          (put_node (troot l) L' b'))) ctx (fill g [] [m]) count.
Proof.
  intros Hp Hm Hf -> Hb. unfold at_ctx. rewrite tfirst_fill_l.
  eapply store_perm; [|rewrite fill_one_pages; reflexivity]. rewrite Hm, Hf, Hb.
  cbn [pair_page inner_page bn_keys bn_children]. rewrite delete_sep, delete_child.
  eapply store_merge. exact Hp.
Qed.

Lemma mergeLeaves_ok id1 kvs1 id2 kvs2 m1 m2 :
  let l := BLeaf id1 kvs1 in let r := BLeaf id2 kvs2 in
  pair_at b g ctx sep l r count →
  wf max 0 m1 lo (Some sep) l → wf max 0 m2 (Some sep) hi r →
  mn ≤ tsize l + tsize r ≤ max →
  merged 0 lo hi g ctx l r count (mergeLeaves (f_id g) (length (f_lk g)) b).
Proof.
  intros l r Hp Hl Hr Hs. unfold mergeLeaves.
  destruct (siblings_ok _ _ _ _ _ _ _ (length (f_lk g)) Hp) as (b' & E & Hp'); [done|].
  rewrite E. cbn [mbind result_bind]. clear E Hp.
  destruct (leaves_ents_ok _ _ _ _ _ _ Hl Hr) as [Hb Hok].
  unfold l, r, tsize in *. cbn [tkeys] in *. rewrite !length_fmap in *.
  eexists _, (BLeaf id1 (kvs1 ++ kvs2)). split; [done|]. split; [|split].
  - eapply merged_at; [exact Hp'|done..| |done]. cbn [tpage]. unfold leaf_page. by rewrite !fmap_app.
  - apply wf_leaf. rewrite length_app. done.
  - done.
Qed.

(** *** Internal pages *)

Lemma inner_below i1 ks1 cs1 i2 ks2 cs2 nl : cs2 ≠ [] →
  tbelow (BNode i1 ks1 cs1) (Some (tfirst (BNode i2 ks2 cs2))) ++ tbelow (BNode i2 ks2 cs2) nl =
  pagesl (cs1 ++ cs2) nl.
Proof. intros Hn. cbn [tbelow]. by rewrite pagesl_app, (tfirst_node i2 ks2 cs2 nl). Qed.

(** Children moved across the separator. *)
Lemma inner_pair_at b1 b2 i1 ks1 cs1 i2 ks2 cs2 ks1' cs1' ks2' cs2' sep' :
  cs1 ++ cs2 = cs1' ++ cs2' → cs1 ≠ [] → cs1' ≠ [] → cs2 ≠ [] → cs2' ≠ [] →
  pair_at b1 g ctx sep (BNode i1 ks1 cs1) (BNode i2 ks2 cs2) count →
  (∀ rest, store max b1 [] (ctx_root ctx (f_id g)) count
     ((f_id g, pair_page g sep (BNode i1 ks1 cs1) (BNode i2 ks2 cs2)) ::
      (i1, inner_page i1 ks1 (troot <$> cs1)) :: (i2, inner_page i2 ks2 (troot <$> cs2)) :: rest) →
   store max b2 [] (ctx_root ctx (f_id g)) count
     ((f_id g, pair_page g sep' (BNode i1 ks1' cs1') (BNode i2 ks2' cs2')) ::
      (i1, inner_page i1 ks1' (troot <$> cs1')) :: (i2, inner_page i2 ks2' (troot <$> cs2')) :: rest)) →
  at_ctx max b2 ctx (fill g [sep'] [BNode i1 ks1' cs1'; BNode i2 ks2' cs2']) count.
Proof.
  intros Hcs H1 H1' H2 H2' Hp Hup. apply pair_at_iff. unfold pair_at, pair_pages in *.
  rewrite inner_below in Hp |- * by done. rewrite <- Hcs.
  assert (tfirst (BNode i1 ks1' cs1') = tfirst (BNode i1 ks1 cs1)) as ->.
  { destruct cs1, cs1'; try done. by injection Hcs as ->. }
  by apply Hup.
Qed.

Lemma borrowFromLeftInternal_ok i1 ks1 cs1 i2 ks2 cs2 :
  let l := BNode i1 ks1 cs1 in let r := BNode i2 ks2 cs2 in
  pair_at b g ctx sep l r count →
  wf max (S h) mn lo (Some sep) l → wf max (S h) (mn - 1) (Some sep) hi r →
  mn < tsize l → tsize r < mn →
  borrowed (S h) lo hi g ctx l r count (borrowFromLeftInternal (f_id g) (S (length (f_lk g))) b).
Proof.
  intros l r Hp Hl Hr Hsl Hsr. unfold borrowFromLeftInternal.
  destruct (siblings_ok _ _ _ _ _ _ _ (length (f_lk g)) Hp) as (b' & E & Hp'); [done|].
  rewrite Nat.sub_1_r. cbn [pred]. rewrite E. cbn [mbind result_bind]. clear E Hp.
  destruct Hl as (_ & Hl & Hw1), Hr as (_ & Hr & Hw2). unfold l, r, tsize in *. cbn [tkeys] in *.
  destruct ks1 as [|k ks1 _] using rev_ind; [simpl in Hsl; lia|].
  pose proof (wf_cs_length _ _ _ _ _ Hw1) as Hlen1. pose proof (wf_cs_length _ _ _ _ _ Hw2) as Hlen2.
  rewrite length_app in *. simpl in Hlen1, Hsl, Hl.
  destruct cs1 as [|c cs1 _] using rev_ind; [simpl in Hlen1; lia|]. rewrite length_app in Hlen1. simpl in Hlen1.
  apply wf_cs_app in Hw1 as [Hw1 Hwc]; [|lia].
  cbn [pair_page tpage inner_page bn_keys bn_children]. rewrite vec_at_mid by done.
  unfold vec_back. rewrite fmap_app. cbn [fmap list_fmap mbind result_bind].
  rewrite !(proj2 (unsnoc_Some _ _ _) eq_refl). cbn [mbind result_bind].
  rewrite insert_sep. eexists _, k, (BNode i1 ks1 cs1), (BNode i2 (sep :: ks2) (c :: cs2)). split; [done|]. split; [|split].
  - eapply inner_pair_at; [| | | | |exact Hp'|].
    + by rewrite <- app_assoc.
    + nonempty.
    + nonempty.
    + nonempty.
    + done.
    + intros rest Hst. unfold pair_page.
      eapply store_put2, store_put, store_put3. exact Hst.
  - split; apply wf_node; try done; simpl; lia.
  - cbn [ents]. rewrite entsl_app. simpl. rewrite app_nil_r. by rewrite <- app_assoc.
Qed.

Lemma borrowFromRightInternal_ok i1 ks1 cs1 i2 ks2 cs2 :
  let l := BNode i1 ks1 cs1 in let r := BNode i2 ks2 cs2 in
  pair_at b g ctx sep l r count →
  wf max (S h) (mn - 1) lo (Some sep) l → wf max (S h) mn (Some sep) hi r →
  tsize l < mn → mn < tsize r →
  borrowed (S h) lo hi g ctx l r count (borrowFromRightInternal (f_id g) (length (f_lk g)) b).
Proof.
  intros l r Hp Hl Hr Hsl Hsr. unfold borrowFromRightInternal.
  destruct (siblings_ok _ _ _ _ _ _ _ (length (f_lk g)) Hp) as (b' & E & Hp'); [done|].
  rewrite E. cbn [mbind result_bind]. clear E Hp.
  destruct Hl as (_ & Hl & Hw1), Hr as (_ & Hr & Hw2). unfold l, r, tsize in *. cbn [tkeys] in *.
  pose proof (wf_cs_length _ _ _ _ _ Hw1) as Hlen1. pose proof (wf_cs_length _ _ _ _ _ Hw2) as Hlen2.
  destruct ks2 as [|k ks2]; [simpl in Hsr; lia|]. simpl in Hsr, Hr, Hlen2.
  destruct cs2 as [|c [|c2 cs2]]; [simpl in Hlen2; lia|simpl in *; lia|].
  destruct Hw2 as [Hwc Hw2].
  cbn [pair_page tpage inner_page bn_keys bn_children]. rewrite vec_at_mid by done.
  rewrite !fmap_cons. cbn [vec_front mbind result_bind drop].
  rewrite insert_sep. eexists _, k, (BNode i1 (ks1 ++ [sep]) (cs1 ++ [c])), (BNode i2 ks2 (c2 :: cs2)).
  split; [done|]. split; [|split].
  - eapply inner_pair_at; [| | | | |exact Hp'|].
    + by rewrite <- app_assoc.
    + nonempty.
    + nonempty.
    + done.
    + done.
    + intros rest Hst. unfold pair_page. rewrite fmap_app.
      eapply store_put3, store_put, store_put2. exact Hst.
  - split; apply wf_node; try done; rewrite ?length_app; simpl; try lia.
    by apply wf_cs_app.
  - cbn [ents]. rewrite entsl_app. simpl. rewrite app_nil_r. by rewrite <- app_assoc.
Qed.

Lemma mergeInternals_ok i1 ks1 cs1 i2 ks2 cs2 m1 m2 :
  let l := BNode i1 ks1 cs1 in let r := BNode i2 ks2 cs2 in
  pair_at b g ctx sep l r count →
  wf max (S h) m1 lo (Some sep) l → wf max (S h) m2 (Some sep) hi r →
  mn ≤ S (tsize l + tsize r) ≤ max →
  merged (S h) lo hi g ctx l r count (mergeInternals (f_id g) (length (f_lk g)) b).
Proof.
  intros l r Hp Hl Hr Hs. unfold mergeInternals.
  destruct (siblings_ok _ _ _ _ _ _ _ (length (f_lk g)) Hp) as (b' & E & Hp'); [done|].
  rewrite E. cbn [mbind result_bind]. clear E Hp.
  destruct Hl as (_ & Hl & Hw1), Hr as (_ & Hr & Hw2). unfold l, r, tsize in *. cbn [tkeys] in *.
  pose proof (wf_cs_length _ _ _ _ _ Hw1) as Hlen1. pose proof (wf_cs_length _ _ _ _ _ Hw2) as Hlen2.
  cbn [pair_page tpage inner_page bn_keys]. rewrite vec_at_mid by done. cbn [mbind result_bind].
  eexists _, (BNode i1 (ks1 ++ sep :: ks2) (cs1 ++ cs2)). split; [done|]. split; [|split].
  - eapply merged_at; [exact Hp'|done| | |].
    + simpl. destruct cs1; [simpl in Hlen1; lia|done].
    + cbn [tpage]. by rewrite fmap_app.
    + rewrite inner_below; [done|nonempty].
  - apply wf_node; [rewrite length_app; simpl; lia|]. by apply wf_cs_app.
  - cbn [ents]. by rewrite entsl_app.
Qed.
End ops.

(** ** One round of the loop *)

Lemma borrow_left_ok b g ctx sep count h lo hi l r :
  length (f_lc g) = length (f_lk g) → pair_at b g ctx sep l r count →
  wf max h mn lo (Some sep) l → wf max h (mn - 1) (Some sep) hi r → mn < tsize l → tsize r < mn →
  borrowed h lo hi g ctx l r count
    ((if tleaf r then borrowFromLeftLeaf else borrowFromLeftInternal) (f_id g) (S (length (f_lk g))) b).
Proof.
  intros Hg Hp Hl Hr Hsl Hsr. destruct h, l, r;
    first [by destruct Hl as [_ []] | by destruct Hr as [_ []] | idtac].
  - by eapply borrowFromLeftLeaf_ok.
  - by eapply borrowFromLeftInternal_ok.
Qed.

Lemma borrow_right_ok b g ctx sep count h lo hi l r :
  length (f_lc g) = length (f_lk g) → pair_at b g ctx sep l r count →
  wf max h (mn - 1) lo (Some sep) l → wf max h mn (Some sep) hi r → tsize l < mn → mn < tsize r →
  borrowed h lo hi g ctx l r count
    ((if tleaf l then borrowFromRightLeaf else borrowFromRightInternal) (f_id g) (length (f_lk g)) b).
Proof.
  intros Hg Hp Hl Hr Hsl Hsr. destruct h, l, r;
    first [by destruct Hl as [_ []] | by destruct Hr as [_ []] | idtac].
  - by eapply borrowFromRightLeaf_ok.
  - by eapply borrowFromRightInternal_ok.
Qed.

Lemma merge_ok b g ctx sep count h lo hi l r m1 m2 isLeaf :
  length (f_lc g) = length (f_lk g) → pair_at b g ctx sep l r count →
  wf max h m1 lo (Some sep) l → wf max h m2 (Some sep) hi r →
  mn ≤ tsize l + tsize r → S (tsize l + tsize r) ≤ max → isLeaf = tleaf l →
  merged h lo hi g ctx l r count
    ((if isLeaf then mergeLeaves else mergeInternals) (f_id g) (length (f_lk g)) b).
Proof.
  intros Hg Hp Hl Hr H1 H2 ->. destruct h, l, r;
    first [by destruct Hl as [_ []] | by destruct Hr as [_ []] | idtac].
  - eapply mergeLeaves_ok; try done. lia.
  - eapply mergeInternals_ok; try done. lia.
Qed.

(** The parent after the round: filled to its minimum when the loop stops, one
    key short of it at most when the loop goes on. *)
Definition rebalanced (h : nat) (lo hi : bound) (ctx : list frame) (root : BTreePageId)
    (es : list entry) (count : nat) (res : result (bool * BTreeIndex)) : Prop :=
  ∃ (stop : bool) b' t', res = Ok (stop, b') ∧ at_ctx max b' ctx t' count ∧ troot t' = root ∧
    wf max (S h) (hole_min max (S h) ctx - (if stop then 0 else 1)) lo hi t' ∧ ents t' = es.

Section round.
Context (h : nat) (lo hi lo' hi' : bound) (g : frame) (ctx : list frame) (l r : btree) (count : nat).
Context (Hl : wf_l (wf max h mn) lo' (f_lk g) (f_lc g) lo).
Context (Hr : wf_r (wf max h mn) hi (f_rk g) (f_rc g) hi').
Context (Hs : hole_min max (S h) ctx ≤ S (length (f_lk g ++ f_rk g)) ≤ max).
Abbreviation es := (entsl (f_lc g) ++ (ents l ++ ents r) ++ entsl (f_rc g)).

Lemma borrowed_rebalanced res : borrowed h lo hi g ctx l r count res →
  rebalanced h lo' hi' ctx (f_id g) es count (b ← res; Ok (true, b)).
Proof.
  intros (b' & sep' & l' & r' & -> & Hat & Hw & He). rewrite length_app in Hs.
  exists true, b', (fill g [sep'] [l'; r']). split_and!; [done|done|done| |].
  - rewrite Nat.sub_0_r. eapply wf_fill; try done. rewrite !length_app. simpl. lia.
  - cbn [fill ents]. rewrite !entsl_app. simpl. by rewrite app_nil_r, He.
Qed.

Lemma merged_rebalanced res : merged h lo hi g ctx l r count res →
  rebalanced h lo' hi' ctx (f_id g) es count (b ← res; Ok (false, b)).
Proof.
  intros (b' & m & -> & Hat & Hw & He). rewrite length_app in Hs.
  exists false, b', (fill g [] [m]). split_and!; [done|done|done| |].
  - apply wf_node; [rewrite !length_app; simpl; lia|].
    apply wf_cs_mid; [by eapply wf_l_length|done|]. by exists lo, hi.
  - cbn [fill ents]. rewrite !entsl_app. simpl. by rewrite app_nil_r, He.
Qed.
End round.

Lemma at_ctx_cons b f ctx t count :
  at_ctx max b (f :: ctx) t count ↔ at_ctx max b ctx (fill f [] [t]) count.
Proof. by rewrite !at_ctx_plug. Qed.

Lemma pair_can_lend b g ctx sep l r count parent i (x : btree) :
  pair_at b g ctx sep l r count → bn_children parent !! i = Some (troot x) → x = l ∨ x = r →
  can_lend parent i b = Ok (Nat.ltb mn (tsize x), bt_markDirty (troot x) b).
Proof.
  intros Hp Hi Hx. unfold can_lend, vec_at. rewrite Hi. cbn [mbind result_bind].
  assert (∃ nl, node_mut (troot x) b = Ok (tpage x nl, bt_markDirty (troot x) b)) as [nl ->].
  { destruct Hx as [->| ->]; eexists; (eapply store_mut; [exact Hp|]);
      [apply list_elem_of_further, list_elem_of_here|do 2 apply list_elem_of_further; apply list_elem_of_here]. }
  cbn [mbind result_bind]. rewrite tpage_keys. unfold bt_minKeys. cbn [bt_markDirty bt_maxKeysPerNode].
  by rewrite (st_max _ _ _ _ _ _ Hp).
Qed.

Lemma hole_min_pos h ctx : 1 ≤ hole_min max (S h) ctx.
Proof. destruct ctx; simpl; [done|apply mn_pos]. Qed.

Section step.
Context (id : BTreePageId) (lk rk : list Value) (lc rc : list btree) (t : btree) (ctx : list frame).
Context (count h : nat) (lo hi lo' hi' : bound).
Context (Hw : wf max h (mn - 1) lo hi t) (Hsz : tsize t < mn).

(** The right sibling, when the left one cannot lend (or does not exist). *)
Lemma step_right b k s parent isLeaf :
  let f := mkFrame id lk lc (k :: rk) (s :: rc) in
  at_ctx max b ctx (fill f [] [t]) count →
  wf_l (wf max h mn) lo' lk lc lo → wf_r (wf max h mn) hi (k :: rk) (s :: rc) hi' →
  hole_min max (S h) ctx ≤ S (length (lk ++ rk)) ≤ max →
  bn_children parent = (troot <$> lc) ++ troot t :: troot s :: (troot <$> rc) → isLeaf = tleaf t →
  ∃ (lend : bool) b', can_lend parent (length lc + 1) b = Ok (lend, b') ∧
    at_ctx max b' ctx (fill f [] [t]) count ∧
    if lend then
      rebalanced h lo' hi' ctx id (ents (fill f [] [t])) count
        (b ← (if isLeaf then borrowFromRightLeaf else borrowFromRightInternal) id (length lc) b'; Ok (true, b))
    else
      rebalanced h lo' hi' ctx id (ents (fill f [] [t])) count
        (b ← (if isLeaf then mergeLeaves else mergeInternals) id (length lc) b'; Ok (false, b)).
Proof.
  intros f Hat Hl Hr Hs Hpar ->. set (g := mkFrame id lk lc rk rc).
  pose proof (wf_l_length _ _ _ _ _ Hl) as Hg.
  assert (fill f [] [t] = fill g [k] [t; s]) as Hfg by done. rewrite Hfg in *.
  apply wf_r_cons in Hr as (-> & m & Hws & Hr).
  apply pair_at_iff in Hat. pose proof (wf_tsize _ _ _ _ _ Hws) as Hss.
  exists (Nat.ltb mn (tsize s)), (bt_markDirty (troot s) b). split; [|split].
  - eapply pair_can_lend; [exact Hat| |by right]. rewrite Hpar, (cons_middle (troot t)), app_assoc.
    rewrite <- (length_fmap troot lc). apply list_lookup_middle. rewrite length_app. done.
  - apply pair_at_iff. by apply pair_mark.
  - apply (pair_mark _ _ _ _ _ _ _ (troot s)) in Hat.
    replace (ents (fill g [k] [t; s])) with (entsl (f_lc g) ++ (ents t ++ ents s) ++ entsl (f_rc g))
      by (cbn [fill ents]; rewrite !entsl_app; simpl; by rewrite app_nil_r).
    pose proof mn_pos as Hmn. pose proof (half_bounds max) as Hh. rewrite Hg.
    destruct (Nat.ltb_spec mn (tsize s)) as [Hlend|Hno].
    + eapply (borrowed_rebalanced h lo m lo' hi' g ctx t s count Hl Hr Hs).
      eapply borrow_right_ok; try done.
    + eapply (merged_rebalanced h lo m lo' hi' g ctx t s count Hl Hr Hs).
      pose proof (wf_tsize _ _ _ _ _ Hw). eapply merge_ok; try done; lia.
Qed.

Lemma step_left b k s parent isLeaf :
  let f := mkFrame id (lk ++ [k]) (lc ++ [s]) rk rc in
  at_ctx max b ctx (fill f [] [t]) count →
  wf_l (wf max h mn) lo' (lk ++ [k]) (lc ++ [s]) lo → wf_r (wf max h mn) hi rk rc hi' →
  hole_min max (S h) ctx ≤ S (length (lk ++ rk)) ≤ max →
  bn_children parent = (troot <$> lc) ++ troot s :: troot t :: (troot <$> rc) → isLeaf = tleaf t →
  ∃ (lend : bool) b', can_lend parent (length lc) b = Ok (lend, b') ∧
    at_ctx max b' ctx (fill f [] [t]) count ∧
    if lend then
      rebalanced h lo' hi' ctx id (ents (fill f [] [t])) count
        (b ← (if isLeaf then borrowFromLeftLeaf else borrowFromLeftInternal) id (S (length lc)) b'; Ok (true, b))
    else
      ∀ b', at_ctx max b' ctx (fill f [] [t]) count →
      rebalanced h lo' hi' ctx id (ents (fill f [] [t])) count
        (b ← (if isLeaf then mergeLeaves else mergeInternals) id (length lc) b'; Ok (false, b)).
Proof.
  intros f Hat Hl Hr Hs Hpar ->. set (g := mkFrame id lk lc rk rc).
  apply wf_l_snoc in Hl as (m & Hl & Hws & ->).
  pose proof (wf_l_length _ _ _ _ _ Hl) as Hg.
  assert (fill f [] [t] = fill g [k] [s; t]) as Hfg by (unfold fill; simpl; by rewrite <- !app_assoc).
  rewrite Hfg in *. apply pair_at_iff in Hat. pose proof (wf_tsize _ _ _ _ _ Hws) as Hss.
  exists (Nat.ltb mn (tsize s)), (bt_markDirty (troot s) b). split; [|split].
  - eapply pair_can_lend; [exact Hat| |by left]. rewrite Hpar, <- (length_fmap troot lc).
    by apply list_lookup_middle.
  - apply pair_at_iff. by apply pair_mark.
  - apply (pair_mark _ _ _ _ _ _ _ (troot s)) in Hat.
    replace (ents (fill g [k] [s; t])) with (entsl (f_lc g) ++ (ents s ++ ents t) ++ entsl (f_rc g))
      by (cbn [fill ents]; rewrite !entsl_app; simpl; by rewrite app_nil_r).
    pose proof mn_pos as Hmn. pose proof (half_bounds max) as Hh. rewrite Hg.
    destruct (Nat.ltb_spec mn (tsize s)) as [Hlend|Hno].
    + eapply (borrowed_rebalanced h m hi lo' hi' g ctx s t count Hl Hr Hs).
      by eapply borrow_left_ok.
    + intros b1 Hb1%pair_at_iff.
      eapply (merged_rebalanced h m hi lo' hi' g ctx s t count Hl Hr Hs).
      pose proof (wf_tsize _ _ _ _ _ Hw). eapply merge_ok; try done; try lia.
      by rewrite (wf_tleaf _ _ _ _ _ Hw), (wf_tleaf _ _ _ _ _ Hws).
Qed.
End step.

Definition hole_page (f : frame) (t : btree) : BTreeNode :=
  inner_page (f_id f) (f_lk f ++ f_rk f) ((troot <$> f_lc f) ++ troot t :: (troot <$> f_rc f)).

Lemma rebalance_step_ok b f ctx t count h lo hi lo' hi' :
  at_ctx max b (f :: ctx) t count →
  wf_l (wf max h mn) lo' (f_lk f) (f_lc f) lo → wf_r (wf max h mn) hi (f_rk f) (f_rc f) hi' →
  hole_min max (S h) ctx ≤ length (f_lk f ++ f_rk f) ≤ max →
  wf max h (mn - 1) lo hi t → tsize t < mn →
  rebalanced h lo' hi' ctx (f_id f) (ents (fill f [] [t])) count
    (rebalance_step (tleaf t) (f_id f) (hole_page f t) (length (f_lc f)) b).
Proof.
  intros Hat%at_ctx_cons Hl Hr Hs Hw Hsz. destruct f as [id lk lc rk rc]. simpl in Hl, Hr, Hs.
  pose proof (wf_l_length _ _ _ _ _ Hl) as Hll. pose proof (wf_r_length _ _ _ _ _ Hr) as Hlr.
  pose proof (hole_min_pos h ctx) as Hmn. unfold rebalance_step.
  set (parent := hole_page _ t). cbn [f_lc f_id].
  destruct lk as [|k lk _] using rev_ind.
  - destruct lc; [|simpl in Hll; lia]. destruct rk as [|k rk]; [simpl in Hs; lia|].
    destruct rc as [|s rc]; [simpl in Hlr; lia|]. change (Nat.ltb 0 (length [])) with false.
    cbn [length mbind result_bind Nat.add].
    assert (Nat.ltb 1 (length (bn_children parent)) = true) as -> by (apply Nat.ltb_lt; simpl; lia).
    edestruct (step_right id [] rk [] rc) as (lend & b' & -> & Hat' & Hres); try done.
    cbn [mbind result_bind]. by destruct lend.
  - destruct lc as [|s lc _] using rev_ind; [rewrite length_app in Hll; simpl in Hll; lia|].
    rewrite !length_app in *. cbn [length] in *. rewrite !Nat.add_1_r, Nat.sub_1_r.
    change (Nat.ltb 0 (S (length lc))) with true. cbn [pred].
    edestruct (step_left id lk rk lc rc) as (lend & b' & -> & Hat' & Hres); try done;
      [rewrite length_app; lia|simpl; by rewrite fmap_app, <- app_assoc|].
    cbn [mbind result_bind]. destruct lend; [done|].
    destruct rk as [|k2 rk].
    + destruct rc; [|simpl in Hlr; lia].
      assert (Nat.ltb (S (S (length lc))) (length (bn_children parent)) = false) as ->.
      { apply Nat.ltb_ge. simpl. rewrite length_app, length_fmap, length_app. simpl. lia. }
      cbn [mbind result_bind]. by apply Hres.
    + destruct rc as [|s2 rc]; [simpl in Hlr; lia|].
      assert (Nat.ltb (S (S (length lc))) (length (bn_children parent)) = true) as ->.
      { apply Nat.ltb_lt. simpl. rewrite length_app, length_fmap, length_app. simpl. lia. }
      destruct (step_right id (lk ++ [k]) rk (lc ++ [s]) rc t ctx count h lo hi lo' hi' Hw Hsz b' k2 s2 parent (tleaf t))
        as (lend2 & b2 & E & Hat2 & Hres2); try done; [rewrite !length_app in *; simpl in *; lia|].
      rewrite length_app, !Nat.add_1_r in E. cbn [length] in E. rewrite E. cbn [mbind result_bind].
      rewrite length_app, Nat.add_1_r in Hres2. destruct lend2; [done|]. by apply Hres.
Qed.

(** ** The loop *)

Lemma child_pos_split p l1 l2 : p ∉ l1 → child_pos p (l1 ++ p :: l2) = Some (length l1).
Proof.
  induction l1 as [|q l1 IH]; simpl; intros Hn; [by rewrite Nat.eqb_refl|].
  destruct (Nat.eqb_spec q p) as [->|Hq]; [set_solver|]. by rewrite IH by set_solver.
Qed.

Lemma troots_pagesl cs nl p : p ∈ troot <$> cs → p ∈ (pagesl cs nl).*1.
Proof.
  induction cs as [|c cs IH]; [done|]. rewrite fmap_cons. cbn [pagesl]. rewrite fmap_app, pages_tpage.
  simpl. set_solver.
Qed.

Lemma at_ctx_child_pos b f ctx t count : at_ctx max b (f :: ctx) t count →
  child_pos (troot t) (bn_children (hole_page f t)) = Some (length (f_lc f)).
Proof.
  intros Hat. unfold hole_page. cbn [inner_page bn_children].
  rewrite child_pos_split by (intros Hin%(troots_pagesl _ (Some (tfirst t)));
    pose proof (st_nodup _ _ _ _ _ _ Hat) as Hd; rewrite pages_tpage in Hd; simpl in Hd;
    rewrite !fmap_app in Hd; simpl in Hd; rewrite !fmap_app in Hd;
    apply NoDup_cons in Hd as [Hd _]; set_solver).
  by rewrite length_fmap.
Qed.

Lemma at_ctx_page b ctx t count : at_ctx max b ctx t count →
  node_mut (troot t) b = Ok (tpage t (ctx_next ctx), bt_markDirty (troot t) b).
Proof.
  intros H. eapply store_mut; [exact H|]. rewrite pages_tpage. apply list_elem_of_here.
Qed.

Lemma at_ctx_parent b f ctx t count : at_ctx max b (f :: ctx) t count →
  node_mut (f_id f) b = Ok (hole_page f t, bt_markDirty (f_id f) b).
Proof.
  intros H. eapply store_mut; [exact H|]. apply elem_of_app. right. apply list_elem_of_here.
Qed.

Lemma at_ctx_mark b ctx t count p : at_ctx max b ctx t count → at_ctx max (bt_markDirty p b) ctx t count.
Proof. apply store_mark. Qed.

(** A whole tree whose root may have lost its last separator. *)
Definition whole (b : BTreeIndex) (t : btree) (count : nat) (es : list entry) : Prop :=
  store max b [] (troot t) count (pages t None) ∧ (∃ h, wf max h 0 None None t) ∧ ents t = es.

Lemma whole_plug b ctx t count h lo hi :
  at_ctx max b ctx t count → wf_ctx max h lo hi ctx → wf max h (hole_min max h ctx) lo hi t →
  whole b (plug ctx t) count (ctx_left ctx ++ ents t ++ ctx_right ctx).
Proof.
  intros Hat Hc Hw. split; [by apply at_ctx_plug|]. split; [|apply plug_ents].
  destruct (wf_plug _ _ _ _ _ _ Hc Hw) as [H HH]. exists H. eapply wf_min; [|exact HH]. lia.
Qed.

Lemma rebalance_loop_ok ctx h lo hi t b count :
  at_ctx max b ctx t count → wf_ctx max h lo hi ctx → wf max h (hole_min max h ctx - 1) lo hi t →
  ∃ b' t', rebalance_loop (troot t :: (f_id <$> ctx)) b = Ok b' ∧
    whole b' t' count (ctx_left ctx ++ ents t ++ ctx_right ctx).
Proof.
  revert h lo hi t b. induction ctx as [|f ctx IH]; intros h lo hi t b Hat Hc Hw.
  - exists b, t. split; [done|]. destruct Hc as [-> ->]. split; [|split].
    + by apply (at_ctx_plug max b [] t).
    + exists h. eapply wf_min; [|exact Hw]. lia.
    + simpl. by rewrite app_nil_r.
  - rewrite fmap_cons. cbn [rebalance_loop]. rewrite (at_ctx_page _ _ _ _ Hat). cbn [mbind result_bind].
    apply (at_ctx_mark _ _ _ _ (troot t)) in Hat. rewrite (at_ctx_parent _ _ _ _ _ Hat). cbn [mbind result_bind].
    apply (at_ctx_mark _ _ _ _ (f_id f)) in Hat. rewrite (at_ctx_child_pos _ _ _ _ _ Hat).
    set (b0 := bt_markDirty _ _) in *. clearbody b0.
    assert (bt_minKeys b0 = mn) as -> by (unfold bt_minKeys; by rewrite (st_max _ _ _ _ _ _ Hat)).
    rewrite tpage_keys, tpage_leaf. fold (tsize t).
    destruct (Nat.ltb_spec (tsize t) mn) as [Hsz|Hsz]; cbn [negb].
    + pose proof Hc as (Hs & lo' & hi' & Hl & Hr & Hc').
      destruct (rebalance_step_ok _ _ _ _ _ _ _ _ _ _ Hat Hl Hr Hs Hw Hsz)
        as (stop & b1 & t1 & -> & Hat1 & Hroot & Hw1 & He1). cbn [mbind result_bind].
      assert (ctx_left ctx ++ ents t1 ++ ctx_right ctx =
              ctx_left (f :: ctx) ++ ents t ++ ctx_right (f :: ctx)) as <-.
      { rewrite He1. cbn [fill ents ctx_left ctx_right]. rewrite !entsl_app. simpl.
        by rewrite app_nil_r, !(assoc_L (++)). }
      destruct stop.
      { rewrite Nat.sub_0_r in Hw1. eexists b1, _. split; [done|]. by eapply whole_plug. }
      rewrite <- Hroot, (at_ctx_page _ _ _ _ Hat1). cbn [mbind result_bind].
      apply (at_ctx_mark _ _ _ _ (troot t1)) in Hat1.
      set (b2 := bt_markDirty _ _) in *. clearbody b2.
      assert (bt_minKeys b2 = mn) as -> by (unfold bt_minKeys; by rewrite (st_max _ _ _ _ _ _ Hat1)).
      rewrite tpage_keys. fold (tsize t1). cbn [length]. rewrite length_fmap.
      destruct (Nat.leb_spec mn (tsize t1)) as [Hfull|Hless]; cbn [orb].
      { eexists b2, _. split; [done|]. eapply whole_plug; [done|done|].
        eapply wf_tsize_min; [exact Hw1|]. pose proof mn_pos. destruct ctx; simpl; lia. }
      destruct ctx as [|f2 ctx]; cbn [length Nat.eqb]; [|by eapply IH].
      apply (IH (S h) lo' hi' t1 b2) in Hat1 as (b3 & t3 & [= <-] & Hwh); [|done|done]. eauto.
    + eexists b0, _. split; [done|]. eapply whole_plug; [done|done|]. by eapply wf_tsize_min.
Qed.

Lemma collapse_ok b t count es : whole b t count es →
  ∃ b' t', collapseRootIfNeeded b = Ok b' ∧ wf_root max t' ∧
    store max b' [] (troot t') count (pages t' None) ∧ ents t' = es.
Proof.
  intros (Hst & [h Hw] & He). unfold collapseRootIfNeeded.
  rewrite (st_root _ _ _ _ _ _ Hst).
  assert (at_ctx max b [] t count) as Hat by by apply (at_ctx_plug max b [] t).
  rewrite (at_ctx_page _ _ _ _ Hat). cbn [mbind result_bind]. rewrite tpage_leaf.
  apply (store_mark _ _ _ _ _ _ (troot t)) in Hst.
  destruct t as [id kvs|id ks cs]; cbn [tleaf].
  - eexists _, (BLeaf id kvs). split; [done|]. split_and!; [|done..].
    destruct h; [|by destruct Hw as [_ []]]. by exists 0.
  - destruct h as [|h]; [by destruct Hw as [_ []]|]. destruct Hw as (_ & Hl & Hcs).
    cbn [tpage inner_page bn_children]. destruct ks as [|k ks].
    + destruct cs as [|c [|c2 cs]]; [done| |done]. rewrite fmap_cons. cbn [fmap list_fmap].
      eexists _, c. split; [done|]. split_and!.
      * exists h. eapply wf_min; [|exact Hcs]. pose proof mn_pos. destruct h; simpl; lia.
      * eapply store_set_root, store_free. rewrite pages_node in Hst. cbn [pagesl firstl] in Hst.
        rewrite app_nil_r in Hst. by rewrite (st_root _ _ _ _ _ _ Hst).
      * rewrite <- He. simpl. by rewrite app_nil_r.
    + pose proof (wf_cs_length _ _ _ _ _ Hcs) as Hlen.
      destruct cs as [|c [|c2 cs]]; [simpl in Hlen; lia|simpl in Hlen; lia|]. rewrite !fmap_cons.
      eexists _, (BNode id (k :: ks) (c :: c2 :: cs)). split; [done|]. split_and!; [|done..].
      exists (S h). apply wf_node; [simpl in *; lia|done].
Qed.
End pair.

(** ** Removal *)

Fixpoint kv_remove (key : Value) (rowId : RowId) (kvs : list entry) : list entry :=
  match kvs with
  | [] => []
  | (k, ids) :: kvs =>
      if Value_eqb k key then
        let ids := erase_all rowId ids in
        if bool_decide (ids = []) then kvs else (k, ids) :: kvs
      else (k, ids) :: kv_remove key rowId kvs
  end.

Lemma kv_remove_left key rowId a kvs :
  comparable key → Forall (λ e, comparable e.1 ∧ Value_ltb e.1 key = true) a →
  kv_remove key rowId (a ++ kvs) = a ++ kv_remove key rowId kvs.
Proof.
  intros Hkey. induction 1 as [|[k ids] a [Hc Hk] _ IH]; simpl in *; [done|].
  by rewrite (vlt_neq k key), IH.
Qed.

Lemma kv_remove_above key rowId b :
  comparable key → Forall (λ e, comparable e.1 ∧ Value_ltb key e.1 = true) b →
  kv_remove key rowId b = b.
Proof.
  intros Hkey. induction 1 as [|[k ids] b [Hc Hk] _ IH]; simpl in *; [done|].
  by rewrite (Value_eqb_sym k key), (vlt_neq key k), IH.
Qed.

Lemma kv_remove_right key rowId kvs b :
  comparable key → Forall (λ e, comparable e.1 ∧ Value_ltb key e.1 = true) b →
  kv_remove key rowId (kvs ++ b) = kv_remove key rowId kvs ++ b.
Proof.
  intros Hkey Hb. induction kvs as [|[k ids] kvs IH]; simpl; [by apply kv_remove_above|].
  rewrite IH. by repeat case_match.
Qed.

Section remove.
Context (max : nat) (Hmax : 2 ≤ max).
Abbreviation mn := (max / 2).

(** A subtree stays well formed when its upper bound grows. *)
Lemma wf_raise h m lo k k' t : comparable k' → Value_ltb k k' = true →
  wf max h m lo (Some k) t → wf max h m lo (Some k') t.
Proof.
  intros Hk' Hlt. revert m lo t. induction h as [|h IH]; intros m lo t Hw;
    (assert (bnd lo (Some k')) as Hb; [eapply bnd_trans; [by eapply wf_bnd|];
      pose proof (wf_bnd _ _ _ _ _ _ Hw) as (_ & ? & _); by split_and!|]);
    destruct t as [id kvs|id ks cs]; destruct Hw as [Hb0 Hw]; try done; split; try done.
  - destruct Hw as (Hl & Hs & HF). split_and!; try done; try lia.
    eapply Forall_impl; [exact HF|]. intros e [He ?]. split; [|done].
    eapply inb_left; [|exact He]. destruct Hb0 as (_ & ? & _). by split_and!.
  - destruct Hw as [Hl Hw]. split; [done|]. clear Hl Hb0 Hb. revert lo cs Hw.
    induction ks as [|k1 ks IHk]; intros lo [|c cs] Hw; try done.
    + destruct cs; [|done]. by apply IH.
    + destruct Hw as [Hc Hw]. split; [done|]. by apply IHk.
Qed.

(** The frame with the separator left of the hole replaced. *)
Lemma updateSeparator_ok b id lk k lc rk rc ctx lid kvs count sep :
  let f := mkFrame id (lk ++ [k]) lc rk rc in
  at_ctx max b (f :: ctx) (BLeaf lid kvs) count →
  ∃ b', updateSeparator id (length (lk ++ [k])) sep b = Ok b' ∧
        at_ctx max b' (mkFrame id (lk ++ [sep]) lc rk rc :: ctx) (BLeaf lid kvs) count.
Proof.
  intros f Hat. unfold updateSeparator. pose proof (at_ctx_parent _ _ _ _ _ _ Hat) as E.
  cbn [f f_id] in E. rewrite E. cbn [mbind result_bind hole_page inner_page bn_keys f f_lk f_rk].
  rewrite !length_app. cbn [length].
  assert (Nat.eqb (length lk + 1) 0 = false) as -> by (apply Nat.eqb_neq; lia).
  assert (Nat.ltb (length lk + 1 + length rk) (length lk + 1) = false) as -> by (apply Nat.ltb_ge; lia).
  cbn [orb]. eexists. split; [done|].
  rewrite Nat.add_sub, <- app_assoc, insert_app_r_alt, Nat.sub_diag by done. cbn [insert list_insert app].
  replace (lk ++ sep :: rk) with ((lk ++ [sep]) ++ rk) by (by rewrite <- app_assoc).
  eapply store_put2, store_mark. exact Hat.
Qed.

(** The first key of the leaf is gone: the separator before the leaf becomes the
    new first key, when the leaf is not the first child. *)
Lemma first_key_ok b f ctx lid e kvs count lo hi key :
  at_ctx max b (f :: ctx) (BLeaf lid (e :: kvs)) count → wf_ctx max 0 lo hi (f :: ctx) →
  bnd lo hi → ents_ok lo hi (e :: kvs) → inb lo hi key → Value_ltb key e.1 = true →
  ∃ b' f' lo1,
    ('(parent, b) ← node_mut (f_id f) b;
     let parentChild := childIndex (bn_keys parent) key in
     if Nat.ltb 0 parentChild then updateSeparator (f_id f) parentChild e.1 b else Ok b) = Ok b' ∧
    at_ctx max b' (f' :: ctx) (BLeaf lid (e :: kvs)) count ∧ wf_ctx max 0 lo1 hi (f' :: ctx) ∧
    bnd lo1 hi ∧ ents_ok lo1 hi (e :: kvs) ∧ f_id f' = f_id f ∧
    f_lc f' = f_lc f ∧ f_rc f' = f_rc f.
Proof.
  intros Hat (Hs & lo' & hi' & Hl & Hr & Hc) Hb Hok Hin Hlt.
  rewrite (at_ctx_parent _ _ _ _ _ _ Hat). cbn [mbind result_bind hole_page inner_page bn_keys].
  rewrite (hole_index _ 0 lo hi f lo' hi') by done. apply (at_ctx_mark _ _ _ _ _ (f_id f)) in Hat.
  set (b0 := bt_markDirty _ _) in *. clearbody b0.
  destruct f as [id lk lc rk rc]. cbn [f_lk f_lc f_rk f_rc f_id] in *.
  destruct lk as [|k lk _] using rev_ind.
  - exists b0, (mkFrame id [] lc rk rc), lo. split_and!; try done; simpl; eauto 10.
  - destruct lc as [|s lc _] using rev_ind; [apply wf_l_length in Hl; rewrite length_app in Hl; simpl in Hl; lia|].
    assert (Nat.ltb 0 (length (lk ++ [k])) = true) as -> by (apply Nat.ltb_lt; rewrite length_app; simpl; lia).
    destruct (updateSeparator_ok _ _ _ _ _ _ _ _ _ _ _ e.1 Hat) as (b1 & -> & Hat1).
    apply wf_l_snoc in Hl as (m & Hl & Hws & ->). destruct Hin as (Hck & Hge & _). simpl in Hge.
    destruct Hok as (Hso & HF & HN). inversion HF as [|? ? (Hce & _ & Hhe) HF']; subst.
    inversion Hso as [|? ? _ Hgt]; subst.
    eexists b1, _, (Some e.1). split; [done|]. split; [exact Hat1|]. split; [|split; [|split; [|done]]].
    + split; [cbn [f_lk f_rk]; rewrite !length_app in Hs |- *; exact Hs|].
      exists lo', hi'. cbn [f_lk f_rk f_lc f_rc]. split_and!; [|done..].
      apply wf_l_snoc. exists m. split_and!; [done| |done].
      eapply wf_raise; [done| |exact Hws]. pose proof (wf_bnd _ _ _ _ _ _ Hws) as (_ & ? & _).
      by apply (vle_lt_trans _ key).
    + destruct Hb as (_ & ? & _). split_and!; [done..|]. by destruct hi.
    + split_and!; [done| |done]. constructor; [split_and!; [done|apply Value_ltb_irrefl|done]|].
      rewrite Forall_forall in Hgt, HF'. apply Forall_forall. intros x Hx.
      destruct (HF' x Hx) as (? & ? & ?). split_and!; try done. apply vlt_le, (Hgt x Hx).
Qed.

Lemma rebalance_ok ctx lo hi t b count :
  at_ctx max b ctx t count → wf_ctx max 0 lo hi ctx → wf max 0 (hole_min max 0 ctx - 1) lo hi t →
  ∃ b' t', rebalanceAfterDelete (troot t :: (f_id <$> ctx)) b = Ok b' ∧ wf_root max t' ∧
    store max b' [] (troot t') count (pages t' None) ∧
    ents t' = ctx_left ctx ++ ents t ++ ctx_right ctx.
Proof.
  intros Hat Hc Hw. destruct (rebalance_loop_ok _ Hmax _ _ _ _ _ _ _ Hat Hc Hw) as (b1 & t1 & E & Hwh).
  unfold rebalanceAfterDelete. rewrite E. eapply collapse_ok; [done|exact Hwh].
Qed.

Lemma leafShrunk_ok b ctx id kvs count lo hi key index :
  at_ctx max b ctx (BLeaf id kvs) count → wf_ctx max 0 lo hi ctx → bnd lo hi → ents_ok lo hi kvs →
  hole_min max 0 ctx - 1 ≤ length kvs ≤ max → inb lo hi key →
  (index = 0 → Forall (λ e, Value_ltb key e.1 = true) kvs) →
  ∃ b' t', leafShrunk (id :: (f_id <$> ctx)) index key kvs.*1 b = Ok b' ∧ wf_root max t' ∧
    store max b' [] (troot t') count (pages t' None) ∧
    ents t' = ctx_left ctx ++ kvs ++ ctx_right ctx.
Proof.
  intros Hat Hc Hb Hok Hlen Hin Hidx. destruct ctx as [|f ctx].
  - exists b, (BLeaf id kvs). split; [done|]. destruct Hc as [-> ->]. split_and!.
    + exists 0. apply wf_leaf. split_and!; try done; simpl; lia.
    + by apply (at_ctx_plug max b []).
    + simpl. by rewrite app_nil_r.
  - unfold leafShrunk. rewrite fmap_cons. cbv beta match.
    assert (∃ b1 f1 lo1,
      match index, kvs.*1 with
      | O, first :: _ =>
          '(parent, b) ← node_mut (f_id f) b;
          if Nat.ltb 0 (childIndex (bn_keys parent) key)
          then updateSeparator (f_id f) (childIndex (bn_keys parent) key) first b else Ok b
      | _, _ => Ok b
      end = Ok b1 ∧ at_ctx max b1 (f1 :: ctx) (BLeaf id kvs) count ∧ wf_ctx max 0 lo1 hi (f1 :: ctx) ∧
      bnd lo1 hi ∧ ents_ok lo1 hi kvs ∧ f_id f1 = f_id f ∧ f_lc f1 = f_lc f ∧ f_rc f1 = f_rc f)
      as (b1 & f1 & lo1 & -> & Hat1 & Hc1 & Hb1 & Hok1 & Hid & Hlc & Hrc).
    { destruct index; [|by exists b, f, lo]. destruct kvs as [|e kvs]; [by exists b, f, lo|].
      specialize (Hidx eq_refl). inversion Hidx; subst. by eapply first_key_ok. }
    cbn [mbind result_bind]. rewrite <- Hid.
    assert (ctx_left (f :: ctx) ++ kvs ++ ctx_right (f :: ctx) =
            ctx_left (f1 :: ctx) ++ kvs ++ ctx_right (f1 :: ctx)) as ->
      by (simpl; by rewrite Hlc, Hrc).
    assert (bt_minKeys b1 = mn) as -> by (unfold bt_minKeys; by rewrite (st_max _ _ _ _ _ _ Hat1)).
    rewrite length_fmap. destruct (Nat.ltb_spec (length kvs) mn) as [Hless|Hge].
    + eapply (rebalance_ok (f1 :: ctx) lo1 hi (BLeaf id kvs)); [done|done|]. by apply wf_leaf.
    + eexists b1, (plug (f1 :: ctx) (BLeaf id kvs)). split; [done|]. split_and!.
      * eapply wf_plug; [exact Hc1|]. apply wf_leaf. split_and!; try done; simpl; lia.
      * by apply at_ctx_plug.
      * apply plug_ents.
Qed.

Lemma ents_ok_delete lo hi a e c : ents_ok lo hi (a ++ e :: c) → ents_ok lo hi (a ++ c).
Proof.
  intros (Hs & Hb & Hn). apply keys_sorted_app in Hs as (Hs1 & Hs2 & Hlt).
  apply Forall_app in Hb as [Hb1 Hb2], Hn as [Hn1 Hn2]. inversion Hs2; subst.
  inversion Hb2; subst. inversion Hn2; subst. split_and!; [|by apply Forall_app..].
  apply keys_sorted_app. split_and!; [done..|]. intros x y Hx Hy. apply Hlt; [done|].
  by apply list_elem_of_further.
Qed.

Lemma remove_ok b t key rowId : bt_rep max b t → comparable key →
  ∃ b' t', BTreeIndex_remove key rowId b = Ok b' ∧ bt_rep max b' t' ∧
           ents t' = kv_remove key rowId (ents t).
Proof.
  intros Hrep Hkey. destruct (pathToLeaf_ok _ _ _ _ Hrep Hkey)
    as (ctx & id & kvs & lo & hi & Hp & Hplug & Hctx & Hleaf & Hin & Hat).
  unfold BTreeIndex_remove. rewrite Hp. cbn [mbind result_bind].
  unfold removeFromLeaf. cbn [path_back mbind result_bind].
  pose proof (at_ctx_page _ _ _ _ _ Hat) as E. cbn [troot] in E. rewrite E. clear E.
  cbn [mbind result_bind tpage leaf_page bn_keys bn_rowIds].
  destruct (leaf_sides _ _ _ _ _ _ Hctx Hin) as [HL HR].
  apply wf_leaf in Hleaf as (Hb & Hlen & Hok).
  assert (kv_remove key rowId (ents t) = ctx_left ctx ++ kv_remove key rowId kvs ++ ctx_right ctx) as ->
    by (by rewrite <- Hplug, plug_ents, kv_remove_left, kv_remove_right).
  destruct (leaf_search key kvs) as (a & c & -> & Hlb & Ha & Hc); [done|by eapply ents_ok_kvs_ok|].
  rewrite Hlb, !fmap_app, lookup_app_r, !length_fmap, Nat.sub_diag by (by rewrite length_fmap).
  rewrite kv_remove_left by done.
  destruct Hc as [Hc|(k & ids & c' & -> & Hck & Hk & Hc')].
  - assert (match c.*1 !! 0 with Some k => Value_eqb k key | None => false end = false) as ->.
    { destruct Hc as [|[k ids] c [Hck Hk] _]; [done|]. simpl in *.
      by rewrite (Value_eqb_sym k key), (vlt_neq key k). }
    rewrite kv_remove_above by done. cbn [negb]. eexists _, t. split; [done|]. split.
    + destruct Hrep as (? & ? & ?). split_and!; [done..|]. by apply store_mark.
    + by rewrite <- Hplug, plug_ents.
  - rewrite !fmap_cons. cbn [lookup list_lookup fst snd]. rewrite Hk. cbn [negb].
    rewrite vec_at_mid by by rewrite length_fmap. cbn [mbind result_bind kv_remove]. rewrite Hk.
    case_bool_decide as Hids; cbn [negb].
    + assert (delete (length a) (a.*1 ++ k :: c'.*1) = a.*1 ++ c'.*1) as ->
        by (rewrite <- (length_fmap fst a); apply delete_middle).
      assert (delete (length a) (a.*2 ++ ids :: c'.*2) = a.*2 ++ c'.*2) as ->
        by (rewrite <- (length_fmap snd a); apply delete_middle).
      apply (leaf_update _ _ _ _ _ (a ++ c')) in Hat. unfold leaf_page in Hat. rewrite !fmap_app in Hat.
      unfold set_leaf. cbn [bn_pageId bn_leaf bn_children bn_nextLeaf]. cbn [app].
      apply (store_decr max) in Hat. set (b1 := bt_decr_keyCount _) in *. clearbody b1. cbn [bn_keys].
      rewrite <- fmap_app.
      destruct (leafShrunk_ok b1 ctx id (a ++ c') (pred (length (ents t))) lo hi key (length a))
        as (b' & t' & E & Hr & Hs & He); try done.
      * by eapply ents_ok_delete.
      * rewrite length_app in *. simpl in Hlen. lia.
      * intros Ha0%nil_length_inv. subst a. eapply Forall_impl; [exact Hc'|]. by intros e [_ ?].
      * exists b', t'. split; [done|]. split; [|done]. destruct Hrep as (? & _ & _).
        split_and!; [done..|]. rewrite He.
        assert (pred (length (ents t)) = length (ctx_left ctx ++ (a ++ c') ++ ctx_right ctx)) as <-; [|done].
        rewrite <- Hplug, plug_ents. cbn [ents]. rewrite !length_app. simpl. lia.
    + rewrite <- (length_fmap snd a), insert_app_r_alt, Nat.sub_diag by done. cbn [insert list_insert].
      eexists _, (plug ctx (BLeaf id (a ++ (k, erase_all rowId ids) :: c'))). split; [done|].
      split; [|by rewrite plug_ents]. destruct Hrep as (? & _ & _). split_and!; [done| |].
      * eapply wf_plug; [exact Hctx|]. apply wf_leaf. rewrite length_app in *. simpl in Hlen |- *.
        split; [done|]. split; [lia|]. by eapply ents_ok_update.
      * apply at_ctx_plug. rewrite <- Hplug, !plug_ents in *. cbn [ents] in *. rewrite !length_app in *. simpl in *.
        apply (leaf_update _ _ _ _ _ (a ++ (k, erase_all rowId ids) :: c')) in Hat. unfold leaf_page in Hat.
        rewrite !fmap_app, !fmap_cons in Hat. exact Hat.
Qed.
End remove.
