(* ===== verification/BTreeSpec.v ===== *)
(** * What the B+ tree index promises

    The refinement of the abstract multimap of [HashIndex.v] for every sequence of
    operations, with the order of the range scans, and the snapshot round trip
    used by redo. *)

From S2P Require Import Prelude Value HashIndex BTreeIndex BTreeTree BTreeProof BTreeInsert BTreeRemove.
Local Open Scope nat_scope.
Local Arguments Nat.div : simpl never.
Local Arguments Nat.pow : simpl never.

(** ** Sorted entries as a multimap *)

Lemma kvs_ok_cons k ids kvs : kvs_ok ((k, ids) :: kvs) →
  comparable k ∧ kvs_ok kvs ∧ Forall (λ e, comparable e.1 ∧ Value_ltb k e.1 = true) kvs.
Proof.
  intros [Hs Hc]. inversion Hs; subst. inversion Hc; subst. split_and!; [done|by split|].
  by apply Forall_and.
Qed.

Lemma kv_find_insert key rowId kvs k : kvs_ok kvs → comparable key → comparable k →
  kv_find k (kv_insert key rowId kvs) =
  if Value_eqb key k then kv_find k kvs ++ [rowId] else kv_find k kvs.
Proof.
  intros Hok Hkey Hk. unfold kv_find. induction kvs as [|[k0 ids] kvs IH]; simpl.
  - by destruct (Value_eqb key k).
  - apply kvs_ok_cons in Hok as (Hk0 & Hok & Hgt). specialize (IH Hok).
    destruct (Value_ltb k0 key) eqn:E1; simpl; [|destruct (Value_eqb k0 key) eqn:E2; simpl].
    + destruct (Value_eqb k0 k) eqn:E3; [|done].
      rewrite Value_eqb_sym, <- (Value_eqb_trans k0 k key), vlt_neq by done. done.
    + rewrite (Value_eqb_trans k0 key k) by done. by destruct (Value_eqb key k).
    + destruct (Value_eqb key k) eqn:E3; [|done].
      assert (Value_ltb key k0 = true) as Hlt.
      { destruct (vle_cases k0 key Hk0 Hkey E1); congruence. }
      rewrite <- (Value_eqb_trans_r key k k0) by done. rewrite E2.
      rewrite (assoc_find_above k); [done|done|]. eapply Forall_impl; [exact Hgt|].
      intros e [He Hke]. split; [done|]. unfold Value_ltb. rewrite <- (Value_cmp_eq_l key k) by done.
      apply Value_ltb_cmp in Hlt, Hke.
      assert (Value_ltb key e.1 = true) as Hx
        by (apply (Value_ltb_trans _ k0); try done; by apply Value_ltb_cmp).
      apply Value_ltb_cmp in Hx. by rewrite Hx.
Qed.

Lemma kv_find_remove key rowId kvs k : kvs_ok kvs → comparable key → comparable k →
  kv_find k (kv_remove key rowId kvs) =
  if Value_eqb key k then erase_all rowId (kv_find k kvs) else kv_find k kvs.
Proof.
  intros Hok Hkey Hk. unfold kv_find. induction kvs as [|[k0 ids] kvs IH]; simpl.
  - by destruct (Value_eqb key k).
  - apply kvs_ok_cons in Hok as (Hk0 & Hok & Hgt). specialize (IH Hok).
    destruct (Value_eqb k0 key) eqn:E2.
    + rewrite (Value_eqb_trans k0 key k) by done. case_bool_decide as Hn; simpl.
      * destruct (Value_eqb key k) eqn:E3; [|done]. simpl. rewrite Hn.
        rewrite (assoc_find_above k); [done|done|]. eapply Forall_impl; [exact Hgt|].
        intros e [He Hke]. split; [done|]. unfold Value_ltb in *.
        by rewrite <- (Value_cmp_eq_l key k), <- (Value_cmp_eq_l k0 key).
      * rewrite (Value_eqb_trans k0 key k) by done. by destruct (Value_eqb key k).
    + simpl. destruct (Value_eqb k0 k) eqn:E3; [|done].
      destruct (Value_eqb key k) eqn:E4; [|done].
      rewrite (Value_eqb_trans_r key k k0) in E2 by done. congruence.
Qed.

(** ** Refinement *)

Definition bt_apply (op : index_op) (b : BTreeIndex) : result BTreeIndex :=
  match op with
  | IX_insert key rowId => BTreeIndex_insert key rowId b
  | IX_remove key rowId => BTreeIndex_remove key rowId b
  | IX_clear => Ok (BTreeIndex_clear b)
  end.

Definition bt_run (ops : list index_op) (b : BTreeIndex) : result BTreeIndex :=
  foldl (λ r op, b ← r; bt_apply op b) (Ok b) ops.

Definition bt_refines (max : nat) (b : BTreeIndex) (t : btree) (log : index_log) : Prop :=
  bt_rep max b t ∧ Forall (λ e, comparable e.1) log ∧
  ∀ k, comparable k → kv_find k (ents t) = log_find k log.

Lemma bt_rep_empty max b : 2 ≤ max → bt_maxKeysPerNode b = max → bt_nodes b = {[1 := leaf_node 1]} →
  bt_freePageIds b = [] → bt_rootPageId b = 1 → bt_nextPageId b = 2 → bt_keyCount b = 0 →
  bt_rep max b (BLeaf 1 []).
Proof.
  intros Hm E1 E2 E3 E4 E5 E6. split_and!; [done| |].
  - exists 0. apply wf_leaf. split_and!; simpl; try done; try lia. split_and!; constructor.
  - split; simpl; try done; rewrite ?E3, ?E5; simpl.
    + apply NoDup_singleton.
    + intros p ->%list_elem_of_singleton. lia.
Qed.

Lemma bt_apply_refines max op b t log : bt_refines max b t log → index_op_ok op →
  ∃ b' t', bt_apply op b = Ok b' ∧ bt_refines max b' t' (log_apply op log).
Proof.
  intros (Hrep & Hlog & Hfind) Hop. pose proof (rep_kvs_ok _ _ _ Hrep) as [Hok _].
  destruct op as [key rowId|key rowId|]; simpl in Hop; cbn [bt_apply].
  - destruct (insert_ok _ _ _ key rowId Hrep Hop) as (b' & t' & -> & Hrep' & He).
    exists b', t'. split; [done|]. split_and!; [done| |].
    + apply Forall_app. split; [done|]. by constructor.
    + intros k Hk. rewrite He, kv_find_insert, Hfind by done. cbn [log_apply]. by rewrite log_find_insert.
  - pose proof Hrep as (Hm & _ & _).
    destruct (remove_ok _ Hm _ _ key rowId Hrep Hop) as (b' & t' & -> & Hrep' & He).
    exists b', t'. split; [done|]. split_and!; [done| |].
    + apply Forall_forall. intros e [_ He']%list_elem_of_filter. rewrite Forall_forall in Hlog. auto.
    + intros k Hk. rewrite He, kv_find_remove, Hfind by done. by rewrite log_find_remove.
  - exists (BTreeIndex_clear b), (BLeaf 1 []). split; [done|]. split_and!; [|constructor|done].
    destruct Hrep as (Hm & _ & Hst). apply bt_rep_empty; try done. apply Hst.
Qed.

Lemma bt_run_refines max ops b t log : bt_refines max b t log → Forall index_op_ok ops →
  ∃ b' t', bt_run ops b = Ok b' ∧ bt_refines max b' t' (foldl (λ l op, log_apply op l) log ops).
Proof.
  intros H Hops. revert b t log H. induction Hops as [|op ops Hop _ IH]; intros b t log H; simpl.
  - eauto.
  - unfold bt_run. simpl. destruct (bt_apply_refines _ _ _ _ _ H Hop) as (b' & t' & -> & H').
    by apply (IH b' t').
Qed.

Lemma bt_new_refines max : 2 ≤ max → ∃ b, BTreeIndex_new max = Ok b ∧ bt_refines max b (BLeaf 1 []) [].
Proof.
  intros Hm. unfold BTreeIndex_new. destruct (Nat.ltb_spec max 2); [lia|]. eexists. split; [done|].
  split_and!; [by apply bt_rep_empty|constructor|done].
Qed.

(** C30: The B+ tree index is an ordered multimap.  From a new index with any node
    capacity of at least two, every sequence of insertions, removals and clears
    with comparable keys succeeds: no page walk runs out of fuel, no vector access
    is out of range.  In the resulting index [find] returns exactly the live row
    identifiers of the probe in insertion order; there is a strictly ascending
    list of keys with their rows such that [size] is its length, [lessThan] lists
    the rows of the smaller keys and [greaterThan] those of the larger keys, in
    key order. *)
Theorem btree_index_refines_log max ops key :
  2 ≤ max → Forall index_op_ok ops → comparable key →
  ∃ b kvs, (b0 ← BTreeIndex_new max; bt_run ops b0) = Ok b ∧
    BTreeIndex_find key b = Ok (log_find key (foldl (λ l op, log_apply op l) [] ops)) ∧
    keys_sorted kvs ∧ Forall (λ e, e.2 ≠ []) kvs ∧
    (∀ k, comparable k → log_find k (foldl (λ l op, log_apply op l) [] ops) = kv_find k kvs) ∧
    BTreeIndex_size b = length kvs ∧
    BTreeIndex_lessThan key b = Ok (kv_less key kvs) ∧
    BTreeIndex_greaterThan key b = Ok (kv_greater key kvs).
Proof.
  intros Hm Hops Hkey. destruct (bt_new_refines max Hm) as (b0 & -> & H0). cbn [mbind result_bind].
  destruct (bt_run_refines _ _ _ _ _ H0 Hops) as (b & t & -> & Hrep & _ & Hfind).
  pose proof (rep_kvs_ok _ _ _ Hrep) as [[Hs _] Hne].
  exists b, (ents t). split_and!; try done.
  - by rewrite (find_ok _ _ _ Hrep), Hfind.
  - intros k Hk. by rewrite Hfind.
  - apply Hrep.
  - by apply (lessThan_ok _ _ _ Hrep).
  - by apply (greaterThan_ok _ _ _ Hrep).
Qed.

Lemma btree_index_refines_log_witness :
  let ops := [IX_insert (VInt 5) 5; IX_insert (VInt 3) 3; IX_insert (VInt 8) 8; IX_insert (VInt 1) 1;
              IX_insert (VInt 4) 4; IX_insert (VInt 3) 33; IX_remove (VInt 5) 5; IX_remove (VInt 1) 1] in
  ∃ b, (b0 ← BTreeIndex_new 2; bt_run ops b0) = Ok b ∧ BTreeIndex_find (VInt 3) b = Ok [3; 33].
Proof.
  intros ops. destruct (btree_index_refines_log 2 ops (VInt 3)) as (b & kvs & Hb & Hf & _).
  - lia.
  - repeat constructor.
  - reflexivity.
  - exists b. split; [exact Hb|]. rewrite Hf. vm_compute. reflexivity.
Defined.

(** ** Shape *)

Lemma height_loop_ok max b h m lo hi s nl r c pgs fuel n :
  wf max h m lo hi s → store max b [] r c pgs → (∀ p, p ∈ pages s nl → p ∈ pgs) → h < fuel →
  height_loop fuel b (troot s) n = Ok (n + h).
Proof.
  revert m lo hi s nl fuel n. induction h as [|h IH]; intros m lo hi s nl fuel n Hwf Hst Hin Hf;
    (destruct fuel as [|fuel]; [lia|]); cbn [height_loop];
    destruct s as [id kvs|id ks cs]; try by destruct Hwf as [_ []].
  - erewrite store_at; [|exact Hst|apply Hin, list_elem_of_here]. simpl. by rewrite Nat.add_0_r.
  - rewrite pages_node in Hin.
    erewrite store_at; [|exact Hst|apply Hin, list_elem_of_here].
    destruct Hwf as (_ & _ & Hcs). cbn [mbind result_bind inner_page bn_leaf bn_children].
    assert (∃ c1 cs1 hi1, cs = c1 :: cs1 ∧ wf max h (max / 2) lo hi1 c1) as (c1 & cs1 & hi1 & -> & Hc1).
    { destruct ks, cs as [|c1 cs1]; try done.
      - destruct cs1; [|done]. by eexists _, _, _.
      - destruct Hcs as [? _]. by eexists _, _, _. }
    rewrite fmap_cons. rewrite (IH _ _ _ c1 (firstl cs1 nl) fuel (S n) Hc1); [f_equal; lia|done| |lia].
    intros p Hp. apply Hin, list_elem_of_further. cbn [pagesl]. apply elem_of_app. by left.
Qed.

(** The number of entries grows exponentially with the height. *)
Lemma wf_entries_lower max h lo hi t : wf max h (max / 2) lo hi t →
  (max / 2) * (S (max / 2)) ^ h ≤ length (ents t).
Proof.
  revert lo hi t. induction h as [|h IH]; intros lo hi [id kvs|id ks cs] [_ H]; try done.
  - destruct H as [? _]. rewrite Nat.pow_0_r. cbn [ents]. lia.
  - destruct H as [[Hk _] H]. pose proof (wf_cs_length _ _ _ _ _ H) as Hlen. cbn [ents].
    assert (length cs * ((max / 2) * (S (max / 2)) ^ h) ≤ length (entsl cs)) as Hle.
    { clear Hk Hlen. revert lo cs H. induction ks as [|k ks IHk]; intros lo [|c cs] H; try done.
      - destruct cs; [|done]. cbn [flat_map length]. rewrite length_app. simpl. apply IH in H. lia.
      - destruct H as [Hc H]. apply IHk in H. apply IH in Hc. cbn [flat_map length]. rewrite length_app. lia. }
    rewrite Hlen in Hle. rewrite Nat.pow_succ_r'. nia.
Qed.

(** C36: The B+ tree stays balanced and at least half full: after any sequence of
    operations [height] succeeds, and a tree of height [n] with more than one level
    holds at least [2 * m * (m + 1) ^ (n - 2)] keys, where [m] is half the node
    capacity, so lookups visit a logarithmic number of pages. *)
Theorem btree_height_bound max ops b :
  2 ≤ max → Forall index_op_ok ops → (b0 ← BTreeIndex_new max; bt_run ops b0) = Ok b →
  ∃ n, BTreeIndex_height b = Ok n ∧ 1 ≤ n ∧
       (2 ≤ n → 2 * (max / 2) * (S (max / 2)) ^ (n - 2) ≤ BTreeIndex_size b).
Proof.
  intros Hm Hops Hb. destruct (bt_new_refines max Hm) as (b0 & E0 & H0). rewrite E0 in Hb. simpl in Hb.
  destruct (bt_run_refines _ _ _ _ _ H0 Hops) as (b1 & t & E & (_ & [h Hwf] & Hst) & _).
  assert (b1 = b) as -> by congruence. exists (1 + h). split_and!; [|lia|].
  - unfold BTreeIndex_height, walk_fuel.
    rewrite (store_size _ _ _ _ _ _ Hst), (st_root _ _ _ _ _ _ Hst).
    pose proof (wf_height _ _ _ _ _ _ None Hwf) as Hf. eapply height_loop_ok; try done. lia.
  - intros Hn. unfold BTreeIndex_size. rewrite (st_count _ _ _ _ _ _ Hst).
    destruct h as [|h]; [lia|]. replace (1 + S h - 2) with h by lia.
    destruct t as [id kvs|id ks cs]; [by destruct Hwf as [_ []]|]. destruct Hwf as (_ & [Hk _] & H).
    cbn [ents]. destruct ks as [|k ks]; [simpl in Hk; lia|]. destruct cs as [|c cs]; [done|].
    destruct H as [Hc H]. apply wf_entries_lower in Hc.
    assert (∃ c2 cs2 lo2 hi2, cs = c2 :: cs2 ∧ wf max h (max / 2) lo2 hi2 c2) as (c2 & cs2 & lo2 & hi2 & -> & Hc2).
    { destruct ks, cs as [|c2 cs2]; try done.
      - destruct cs2; [|done]. by eexists _, _, _, _.
      - destruct H as [? _]. by eexists _, _, _, _. }
    apply wf_entries_lower in Hc2. cbn [flat_map]. rewrite !length_app. lia.
Qed.

Lemma btree_height_bound_witness :
  let ops := [IX_insert (VInt 5) 5; IX_insert (VInt 3) 3; IX_insert (VInt 8) 8; IX_insert (VInt 1) 1;
              IX_insert (VInt 4) 4; IX_insert (VInt 9) 9; IX_insert (VInt 2) 2] in
  ∃ b n, (b0 ← BTreeIndex_new 2; bt_run ops b0) = Ok b ∧ BTreeIndex_height b = Ok n ∧
         (2 ≤ n → 2 * 1 * 2 ^ (n - 2) ≤ BTreeIndex_size b).
Proof.
  intros ops. destruct (b0 ← BTreeIndex_new 2; bt_run ops b0) as [b|e] eqn:E; [|by vm_compute in E].
  destruct (btree_height_bound 2 ops b) as (n & Hn & _ & Hb); [lia|repeat constructor|done|].
  exists b, n. split; [done|]. split; [done|exact Hb].
Defined.

(** ** Snapshots *)

Lemma store_pageIds t nl : Forall (λ p, bn_pageId p.2 = p.1) (pages t nl).
Proof.
  revert t nl. fix IH 1. intros [id kvs|id ks cs] nl; [by repeat constructor|]. rewrite pages_node.
  constructor; [done|]. induction cs as [|c cs IHcs]; simpl; [constructor|].
  apply Forall_app. split; [apply IH|apply IHcs].
Qed.

Lemma load_nodes_entries (l : list (nat * BTreeNode)) (m : gmap nat BTreeNode) :
  Forall (λ p, bn_pageId p.2 = p.1) l → NoDup l.*1 → (∀ k, k ∈ l.*1 → m !! k = None) →
  foldl (λ m n, match m !! bn_pageId n with Some _ => m | None => <[bn_pageId n := n]> m end) m l.*2 =
  list_to_map l ∪ m.
Proof.
  intros Hid. revert m. induction Hid as [|[k n] l Hk _ IH]; intros m Hnd Hm.
  - simpl. by rewrite (left_id_L ∅ (∪)).
  - simpl in *. apply NoDup_cons in Hnd as [Hkl Hnd]. rewrite Hk, (Hm k) by set_solver.
    rewrite IH; [|done|].
    + rewrite <- insert_union_r by (by apply not_elem_of_list_to_map_1). by rewrite insert_union_l.
    + intros j Hj. rewrite lookup_insert_ne by set_solver. apply Hm. set_solver.
Qed.

(** The pages of a tree turn any index into the tree, with nothing marked. *)
Lemma bt_export_reload max b t log replica : bt_refines max b t log →
  bt_replaceFromPages (bt_exportPages b) replica = Ok (bt_clearDirtyPages b).
Proof.
  intros ((Hm & Hwf & Hst) & _ & _).
  assert (load_nodes (bs_nodes (bt_exportPages b)) = bt_nodes b) as Hload.
  { unfold load_nodes. cbn [bs_nodes bt_exportPages]. rewrite load_nodes_entries.
    - rewrite (right_id_L ∅ (∪)). apply map_eq. intros k. apply list_to_map_sorted_entries.
    - apply Forall_forall. intros [k n] Hin. unfold sorted_entries in Hin.
      apply elem_of_entries_of in Hin as [_ Hn]. rewrite (st_nodes _ _ _ _ _ _ Hst) in Hn.
      apply elem_of_list_to_map_2 in Hn. pose proof (store_pageIds t None) as HF.
      rewrite Forall_forall in HF. by apply (HF (k, n)).
    - unfold sorted_entries. apply NoDup_entries_of, NoDup_sorted_keys.
    - intros k _. apply lookup_empty. }
  assert (is_Some (bt_nodes b !! bt_rootPageId b)) as Hn.
  { exists (tpage t None). eapply store_lookup; [exact Hst|]. rewrite (st_root _ _ _ _ _ _ Hst), pages_tpage.
    apply list_elem_of_here. }
  unfold bt_replaceFromPages. rewrite Hload. cbn [bt_exportPages bs_maxKeysPerNode bs_rootPageId].
  rewrite (st_max _ _ _ _ _ _ Hst). destruct (Nat.ltb_spec max 2); [lia|]. cbn [throw_if mbind result_bind].
  rewrite bool_decide_eq_true_2 by done. cbn [negb throw_if mbind result_bind].
  unfold bt_clearDirtyPages. by rewrite (st_max _ _ _ _ _ _ Hst).
Qed.

Lemma bt_image_applies max b t log replica : bt_refines max b t log →
  bt_applyDirtyPages (bt_exportPages b) replica = Ok (bt_clearDirtyPages b).
Proof.
  intros Href. pose proof (bt_export_reload max b t log replica Href) as Hload. pose proof Href as ((Hm & Hwf & Hst) & _ & _).
  unfold bt_applyDirtyPages. destruct (_ && _ && _) eqn:Eg; [|done].
  exfalso. apply andb_true_iff in Eg as [[Hl _]%andb_true_iff _]. apply bool_decide_eq_true, nil_length_inv in Hl.
  unfold bt_replaceFromPages in Hload. rewrite Hl in Hload. cbn in Hload.
  destruct (throw_if (Nat.leb _ _) _); [|done]. cbn in Hload. by rewrite lookup_empty, bool_decide_eq_false_2 in Hload by (by intros []).
Qed.

(** A redo image of the B+ tree is complete: whatever index it is applied to
    becomes the index the image was taken from, with nothing marked dirty, and
    taking the image marks the index clean. *)
Theorem btree_dirty_redo max ops b replica :
  2 ≤ max → Forall index_op_ok ops → (b0 ← BTreeIndex_new max; bt_run ops b0) = Ok b →
  bt_hasDirtyPages b = true →
  let '(image, b') := bt_takeDirtyPages b in
  bt_applyDirtyPages image replica = Ok b' ∧ bt_hasDirtyPages b' = false ∧
  bt_nodes b' = bt_nodes b ∧ bt_rootPageId b' = bt_rootPageId b.
Proof.
  intros Hm Hops Hb Hdirty. destruct (bt_new_refines max Hm) as (b0 & E0 & H0). rewrite E0 in Hb. simpl in Hb.
  destruct (bt_run_refines _ _ _ _ _ H0 Hops) as (b1 & t & E & Hr). assert (b1 = b) as -> by congruence.
  unfold bt_takeDirtyPages. rewrite Hdirty. cbn [negb].
  split; [|done]. by eapply bt_image_applies.
Qed.

Lemma btree_dirty_redo_witness :
  let ops := [IX_insert (VInt 5) 5; IX_insert (VInt 3) 3; IX_insert (VInt 8) 8; IX_remove (VInt 5) 5] in
  ∃ b, (b0 ← BTreeIndex_new 2; bt_run ops b0) = Ok b ∧ bt_hasDirtyPages b = true ∧
    let '(image, b') := bt_takeDirtyPages b in bt_applyDirtyPages image (BTreeIndex_clear b) = Ok b'.
Proof.
  intros ops. destruct (b0 ← BTreeIndex_new 2; bt_run ops b0) as [b|e] eqn:E; [|by vm_compute in E].
  exists b. split; [done|].
  assert (bt_hasDirtyPages b = true) as Hd by (vm_compute in E; injection E as <-; reflexivity).
  split; [done|]. pose proof (btree_dirty_redo 2 ops b (BTreeIndex_clear b)) as H.
  destruct (bt_takeDirtyPages b) as [image b']. apply H; [lia|repeat constructor|done|done].
Defined.

(** The redo image of an index without changes cannot be applied: the guard of
    [applyDirtyPages] tests for root page 0, the image of a clean index names root
    page 1, so applying it fails for the missing root page instead of doing
    nothing. *)
Theorem btree_clean_redo_throws b replica : bt_hasDirtyPages b = false →
  bt_applyDirtyPages (bt_takeDirtyPages b).1 replica =
  Throw (invalid_argument "B+ tree snapshot is missing the root page").
Proof. intros H. unfold bt_takeDirtyPages. by rewrite H. Qed.

Lemma btree_clean_redo_throws_witness :
  ∃ b, BTreeIndex_new 4 = Ok b ∧
    bt_applyDirtyPages (bt_takeDirtyPages b).1 b =
    Throw (invalid_argument "B+ tree snapshot is missing the root page").
Proof. eexists. split; [reflexivity|]. by apply btree_clean_redo_throws. Defined.
