(* ===== verification/RedoCodec.v ===== *)
(** * Redo records of the write-ahead log

    [src/persistence/page_image_redo.cpp] and [src/persistence/physical_redo.cpp]:
    the payloads that carry page images, and the older row images, of a
    transaction.  Writers return the bytes or throw where [Value::type] throws;
    readers are those of [BinaryIO].  [std::vector::reserve] of a count that is
    larger than the payload throws in the source too, possibly with another
    message.  A composite key nests values, so the reader of values has fuel;
    [readValue_fuel_enough] shows that the length of the input is enough. *)

From S2P Require Import Prelude Value BinaryIO PageCodec BufferPool HashIndex BTreeIndex.
Local Open Scope nat_scope.

(** ** Fields *)

Definition appendNat (n : nat) : bytes := writePod_u64 (Z.of_nat n).
Definition readNat (msg : string) : reader nat := λ bs,
  '(z, bs) ← readPod_u64 msg bs; Ok (Z.to_nat z, bs).

Definition appendFlag (b : bool) : bytes := writePod_u8 (if b then 1 else 0)%Z.
Definition readFlag (msg : string) : reader bool := λ bs,
  '(z, bs) ← readPod_u8 msg bs; Ok (negb (Z.eqb z 0), bs).

(** ** Values *)

Definition imageTruncated : string := "truncated page image redo payload".

Fixpoint image_appendValue (v : Value) : result bytes :=
  if isNull v then Ok (writePod_u8 255)
  else
    match v with
    | VComposite parts =>
        bs ← (fix go (ps : list Value) : result (list bytes) :=
                match ps with
                | [] => Ok []
                | p :: ps => b ← image_appendValue p; bs ← go ps; Ok (b :: bs)
                end) parts;
        Ok (writePod_u8 254 ++ appendNat (length parts) ++ concat bs)
    | _ =>
        t ← Value_type v;
        Ok (writePod_u8 (ColumnType_code t) ++
            match v with
            | VInt i => writePod_i64 i
            | VDouble b => writePod_u64 b
            | VString s => appendString s
            | _ => []
            end)
    end.

(** The readers of values and index images; the database file has the same format with
    messages of its own. *)
Section images.
Context (truncated unsupported : string).

Fixpoint readValue_fuel (fuel : nat) : reader Value := λ bs,
  match fuel with
  | 0 => Throw (runtime_error "out of fuel")
  | S fuel =>
      '(encodedType, bs) ← readPod_u8 truncated bs;
      if Z.eqb encodedType 255 then Ok (VNull, bs)
      else if Z.eqb encodedType 254 then
        '(partCount, bs) ← readPod_u64 truncated bs;
        '(parts, bs) ← readMany (readValue_fuel fuel) partCount bs;
        v ← composite parts; Ok (v, bs)
      else if Z.eqb encodedType 0 then '(i, bs) ← readPod_i64 truncated bs; Ok (VInt i, bs)
      else if Z.eqb encodedType 1 then '(b, bs) ← readPod_u64 truncated bs; Ok (VDouble b, bs)
      else if Z.eqb encodedType 2 then
        '(s, bs) ← readString truncated truncated bs; Ok (VString s, bs)
      else Throw (runtime_error unsupported)
  end.

Definition image_readValue : reader Value := λ bs, readValue_fuel (S (length bs)) bs.

(** ** B+ tree and hash index images *)

Definition appendNodeLinks (node : BTreeNode) : bytes :=
  if bn_leaf node then
    writeCounted (writeCounted appendNat) (bn_rowIds node) ++
    appendFlag (bool_decide (is_Some (bn_nextLeaf node))) ++
    match bn_nextLeaf node with Some next => appendNat next | None => [] end
  else writeCounted appendNat (bn_children node).

Definition appendBTreeNode (node : BTreeNode) : result bytes :=
  keys ← mapM image_appendValue (bn_keys node);
  Ok (appendNat (bn_pageId node) ++ appendFlag (bn_leaf node) ++
      appendNat (length (bn_keys node)) ++ concat keys ++ appendNodeLinks node).

Definition readNats (msg : string) : reader (list nat) := readCounted msg (readNat msg).

Definition readBTreeNode : reader BTreeNode := λ bs,
  '(pageId, bs) ← readNat truncated bs;
  '(leaf, bs) ← readFlag truncated bs;
  '(keys, bs) ← readCounted truncated image_readValue bs;
  if leaf : bool then
    '(rowIds, bs) ← readCounted truncated (readNats truncated) bs;
    '(hasNext, bs) ← readFlag truncated bs;
    if hasNext : bool then
      '(next, bs) ← readNat truncated bs;
      Ok (mkBTreeNode pageId leaf keys rowIds [] (Some next), bs)
    else Ok (mkBTreeNode pageId leaf keys rowIds [] None, bs)
  else
    '(children, bs) ← readNats truncated bs;
    Ok (mkBTreeNode pageId leaf keys [] children None, bs).

Definition appendBTreeSnapshot (s : BTreeIndexSnapshot) : result bytes :=
  nodes ← mapM appendBTreeNode (bs_nodes s);
  Ok (appendNat (bs_maxKeysPerNode s) ++ appendNat (bs_rootPageId s) ++ appendNat (bs_nextPageId s) ++
      appendNat (bs_keyCount s) ++ writeCounted appendNat (bs_freePageIds s) ++
      appendNat (length (bs_nodes s)) ++ concat nodes).

Definition readBTreeSnapshot : reader BTreeIndexSnapshot := λ bs,
  '(maxKeysPerNode, bs) ← readNat truncated bs;
  '(rootPageId, bs) ← readNat truncated bs;
  '(nextPageId, bs) ← readNat truncated bs;
  '(keyCount, bs) ← readNat truncated bs;
  '(freePageIds, bs) ← readNats truncated bs;
  '(nodes, bs) ← readCounted truncated readBTreeNode bs;
  Ok (mkBTreeIndexSnapshot maxKeysPerNode rootPageId nextPageId freePageIds keyCount nodes, bs).

Definition appendBucket (b : Value * list RowId) : result bytes :=
  key ← image_appendValue b.1; Ok (key ++ writeCounted appendNat b.2).

Definition readBucket : reader (Value * list RowId) := λ bs,
  '(key, bs) ← image_readValue bs;
  '(rowIds, bs) ← readNats truncated bs;
  Ok ((key, rowIds), bs).

Definition readBuckets : reader (list (Value * list RowId)) := readCounted truncated readBucket.
End images.

Definition imageUnsupported : string := "unsupported value type in page image redo payload".

Definition appendHashSnapshot (s : HashIndexSnapshot) : result bytes :=
  buckets ← mapM appendBucket (his_buckets s);
  Ok (appendFlag (his_replaceAll s) ++ appendNat (length (his_buckets s)) ++ concat buckets).

Definition readHashSnapshot : reader HashIndexSnapshot := λ bs,
  '(replaceAll, bs) ← readFlag imageTruncated bs;
  '(buckets, bs) ← readBuckets imageTruncated imageUnsupported bs;
  Ok (mkHashIndexSnapshot replaceAll buckets, bs).

(** ** Page image records *)

Record PageImageRedoRecord : Type := mkPageImageRedoRecord {
  pir_tableName : string;
  pir_hasHeapMeta : bool;
  pir_capacity : nat;
  pir_freeList : list RowId;
  pir_heapPages : list (PageId * bytes);
  pir_btreeIndexes : list (string * BTreeIndexSnapshot);
  pir_hashIndexes : list (string * HashIndexSnapshot)
}.

Definition appendHeapPage (p : PageId * bytes) : bytes := appendNat p.1 ++ appendBlob p.2.
Definition readHeapPage : reader (PageId * bytes) := λ bs,
  '(pageId, bs) ← readNat imageTruncated bs;
  '(payload, bs) ← readBlob imageTruncated bs;
  Ok ((pageId, payload), bs).

(** The index images: name, kind byte (1 for a B+ tree, 0 for a hash index), image. *)
Definition appendNamedBTree (e : string * BTreeIndexSnapshot) : result bytes :=
  s ← appendBTreeSnapshot e.2; Ok (appendString e.1 ++ writePod_u8 1 ++ s).
Definition appendNamedHash (e : string * HashIndexSnapshot) : result bytes :=
  s ← appendHashSnapshot e.2; Ok (appendString e.1 ++ writePod_u8 0 ++ s).

Definition readNamedBTree : reader (string * BTreeIndexSnapshot) := λ bs,
  '(name, bs) ← readString imageTruncated imageTruncated bs;
  '(kind, bs) ← readPod_u8 imageTruncated bs;
  _ ← throw_if (negb (Z.eqb kind 1)) (runtime_error "expected btree index page kind in page image redo");
  '(s, bs) ← readBTreeSnapshot imageTruncated imageUnsupported bs;
  Ok ((name, s), bs).
Definition readNamedHash : reader (string * HashIndexSnapshot) := λ bs,
  '(name, bs) ← readString imageTruncated imageTruncated bs;
  '(kind, bs) ← readPod_u8 imageTruncated bs;
  _ ← throw_if (negb (Z.eqb kind 0)) (runtime_error "expected hash index page kind in page image redo");
  '(s, bs) ← readHashSnapshot bs;
  Ok ((name, s), bs).

Definition appendHeapMeta (r : PageImageRedoRecord) : bytes :=
  if pir_hasHeapMeta r then appendNat (pir_capacity r) ++ writeCounted appendNat (pir_freeList r) else [].

Definition image_appendRecord (r : PageImageRedoRecord) : result bytes :=
  btrees ← mapM appendNamedBTree (pir_btreeIndexes r);
  hashes ← mapM appendNamedHash (pir_hashIndexes r);
  Ok (appendString (pir_tableName r) ++ appendFlag (pir_hasHeapMeta r) ++ appendHeapMeta r ++
      writeCounted appendHeapPage (pir_heapPages r) ++
      appendNat (length (pir_btreeIndexes r)) ++ concat btrees ++
      appendNat (length (pir_hashIndexes r)) ++ concat hashes).

Definition readHeapMeta (hasHeapMeta : bool) : reader (nat * list RowId) := λ bs,
  if hasHeapMeta then
    '(capacity, bs) ← readNat imageTruncated bs;
    '(freeList, bs) ← readNats imageTruncated bs;
    Ok ((capacity, freeList), bs)
  else Ok ((0, []), bs).

Definition image_readRecord : reader PageImageRedoRecord := λ bs,
  '(tableName, bs) ← readString imageTruncated imageTruncated bs;
  '(hasHeapMeta, bs) ← readFlag imageTruncated bs;
  '(meta, bs) ← readHeapMeta hasHeapMeta bs;
  '(heapPages, bs) ← readCounted imageTruncated readHeapPage bs;
  '(btrees, bs) ← readCounted imageTruncated readNamedBTree bs;
  '(hashes, bs) ← readCounted imageTruncated readNamedHash bs;
  Ok (mkPageImageRedoRecord tableName hasHeapMeta meta.1 meta.2 heapPages btrees hashes, bs).

(** A non-empty batch: its size and its records, nothing after them. *)
Definition encode_batch {A} (empty : string) (append : A → result bytes) (records : list A) : result bytes :=
  _ ← throw_if (bool_decide (length records = 0)) (invalid_argument empty);
  rs ← mapM append records;
  Ok (appendNat (length records) ++ concat rs).

Definition decode_batch {A} (truncated empty trailing : string) (read : reader A) (payload : bytes)
  : result (list A) :=
  '(count, bs) ← readPod_u64 truncated payload;
  _ ← throw_if (Z.eqb count 0) (runtime_error empty);
  '(records, bs) ← readMany read count bs;
  _ ← throw_if (bool_decide (length bs ≠ 0)) (runtime_error trailing);
  Ok records.

Definition encodePageImageRedos : list PageImageRedoRecord → result bytes :=
  encode_batch "page image redo batch must be non-empty" image_appendRecord.
Definition decodePageImageRedos : bytes → result (list PageImageRedoRecord) :=
  decode_batch imageTruncated "empty page image redo batch in WAL payload"
    "trailing bytes in page image redo payload" image_readRecord.
Definition encodePageImageRedo (record : PageImageRedoRecord) : result bytes := encodePageImageRedos [record].

(** ** Physical row redo *)

Inductive PhysicalRedoKind : Type := PR_Upsert | PR_Erase.

Record PhysicalRedoRecord : Type := mkPhysicalRedoRecord {
  prr_kind : PhysicalRedoKind;
  prr_tableName : string;
  prr_rowId : RowId;
  prr_row : Row
}.

Definition physicalTruncated : string := "truncated physical redo payload".

(** The value format is that of heap pages, with other messages. *)
Definition physical_readValue : reader Value := λ bs,
  '(encodedType, bs) ← readPod_u8 physicalTruncated bs;
  if Z.eqb encodedType 255 then Ok (VNull, bs)
  else if Z.eqb encodedType 0 then '(i, bs) ← readPod_i64 physicalTruncated bs; Ok (VInt i, bs)
  else if Z.eqb encodedType 1 then '(b, bs) ← readPod_u64 physicalTruncated bs; Ok (VDouble b, bs)
  else if Z.eqb encodedType 2 then
    '(s, bs) ← readString physicalTruncated physicalTruncated bs; Ok (VString s, bs)
  else Throw (runtime_error "unsupported value type in physical redo payload").

Definition physical_appendRecord (r : PhysicalRedoRecord) : result bytes :=
  match prr_kind r with
  | PR_Upsert =>
      values ← mapM page_appendValue (prr_row r);
      Ok (writePod_u8 0 ++ appendString (prr_tableName r) ++ appendNat (prr_rowId r) ++
          appendNat (length (prr_row r)) ++ concat values)
  | PR_Erase => Ok (writePod_u8 1 ++ appendString (prr_tableName r) ++ appendNat (prr_rowId r))
  end.

Definition physical_readRecord : reader PhysicalRedoRecord := λ bs,
  '(kind, bs) ← readPod_u8 physicalTruncated bs;
  '(tableName, bs) ← readString physicalTruncated physicalTruncated bs;
  '(rowId, bs) ← readNat physicalTruncated bs;
  if Z.eqb kind 0 then
    '(row, bs) ← readCounted physicalTruncated physical_readValue bs;
    Ok (mkPhysicalRedoRecord PR_Upsert tableName rowId row, bs)
  else if Z.eqb kind 1 then Ok (mkPhysicalRedoRecord PR_Erase tableName rowId [], bs)
  else Throw (runtime_error "unknown physical redo kind in WAL payload").

Definition encodePhysicalRedos : list PhysicalRedoRecord → result bytes :=
  encode_batch "physical redo batch must be non-empty" physical_appendRecord.
Definition decodePhysicalRedos : bytes → result (list PhysicalRedoRecord) :=
  decode_batch physicalTruncated "empty physical redo batch in WAL payload"
    "trailing bytes in physical redo payload" physical_readRecord.
