(* ===== verification/RedoCodecProof.v ===== *)
(** * Redo records read back exactly

    [decodes d b x]: the reader [d] turns the bytes [x], whatever follows, into [b],
    and throws on every proper prefix of [x].  It composes along the binds of a
    reader, so each reader is verified field by field. *)

From S2P Require Import Prelude Value BinaryIO PageCodec BufferPool HashIndex BTreeIndex RedoCodec.
Local Open Scope nat_scope.

Definition decodes {A} (d : reader A) (a : A) (x : bytes) : Prop :=
  (∀ rest, d (x ++ rest) = Ok (a, rest)) ∧
  (∀ p, p `prefix_of` x → p ≠ x → ∃ e, d p = Throw e).

Lemma decodes_codec {A} (wf : A → Prop) enc d `{!Codec wf enc d} a : wf a → decodes d a (enc a).
Proof. intros Ha. split; [intros rest; by apply codec_roundtrip|intros p; by apply codec_truncated]. Qed.

Lemma codec_parses {A} (wf : A → Prop) enc (d : reader A) : (∀ a, wf a → decodes d a (enc a)) → Codec wf enc d.
Proof. intros Hp. split; [intros a rest Ha; by apply Hp|intros a p Ha; by apply Hp]. Qed.

Lemma decodes_bind {A B} (d : reader A) (k : A → reader B) a b x y :
  decodes d a x → decodes (k a) b y → decodes (λ bs, '(a, bs) ← d bs; k a bs) b (x ++ y).
Proof.
  intros [Hr Ht] [Hr' Ht']. split.
  - intros rest. rewrite <- app_assoc, Hr. apply Hr'.
  - intros p Hp Hne. destruct (prefix_app_cases _ _ _ Hp Hne) as [[Hp1 Hn1]|(q & -> & Hq & Hqn)].
    + destruct (Ht p Hp1 Hn1) as [e ->]. by exists e.
    + rewrite Hr. cbn [mbind result_bind]. by apply Ht'.
Qed.

Lemma decodes_last {A B} (d : reader A) (f : A → B) a x :
  decodes d a x → decodes (λ bs, '(a, bs) ← d bs; Ok (f a, bs)) (f a) x.
Proof.
  intros [Hr Ht]. split; [intros rest; by rewrite Hr|].
  intros p Hp Hne. destruct (Ht p Hp Hne) as [e ->]. by exists e.
Qed.

Lemma decodes_ret {A} (a : A) : decodes (λ bs, Ok (a, bs)) a [].
Proof. split; [done|]. intros p Hp%prefix_nil_inv. done. Qed.

(** ** Fields *)

#[export] Instance codec_nat msg : Codec size_ok appendNat (readNat msg).
Proof.
  apply codec_parses. intros n Hn. unfold readNat, appendNat. rewrite <- (Nat2Z.id n) at 1.
  apply (decodes_last _ Z.to_nat). by apply (decodes_codec u64 writePod_u64 _), size_u64.
Qed.

#[export] Instance codec_flag msg : Codec (λ _, True) appendFlag (readFlag msg).
Proof.
  apply codec_parses. intros b _. unfold readFlag, appendFlag.
  replace b with (negb (Z.eqb (if b then 1 else 0) 0)) at 1 by (by destruct b).
  apply (decodes_last _ (λ z, negb (Z.eqb z 0))). apply (decodes_codec u8 writePod_u8 _). by destruct b.
Qed.

Lemma appendNat_pos n : 0 < length (appendNat n).
Proof. unfold appendNat. rewrite writePod_u64_length. lia. Qed.

#[export] Instance codec_nats msg : Codec (λ l, size_ok (length l) ∧ Forall size_ok l) (writeCounted appendNat) (readNats msg).
Proof. apply codec_counted; [apply _|exact appendNat_pos]. Qed.

(** A counted sequence written element by element. *)
Lemma decodes_counted {A} (wf : A → Prop) enc (d : reader A) msg `{!Codec wf enc d} (l : list A) :
  (∀ a, 0 < length (enc a)) → size_ok (length l) → Forall wf l →
  decodes (readCounted msg d) l (appendNat (length l) ++ concat (map enc l)).
Proof. intros Hpos Hl Hwf. by apply (decodes_codec _ _ _ (Codec0 := codec_counted wf enc d msg Hpos)). Qed.

Lemma writeCounted_pos {A} (enc : A → bytes) l : 0 < length (writeCounted enc l).
Proof. unfold writeCounted. rewrite length_app, writePod_u64_length. lia. Qed.

(** ** Values *)

(** A key an index can hold: a null or typed scalar, or a composite of at least two
    such parts. *)
Fixpoint keyable (v : Value) : bool :=
  match v with
  | VComposite ps => forallb keyable ps && Nat.leb 2 (length ps) && Z.ltb (Z.of_nat (length ps)) (2 ^ 64)
  | _ => storable v
  end.

Fixpoint value_depth (v : Value) : nat :=
  match v with
  | VComposite ps => S (list_max (map value_depth ps))
  | _ => 0
  end.

Definition image_bytes (v : Value) : bytes := match image_appendValue v with Ok b => b | Throw _ => [Byte.x00] end.

Lemma image_append_parts ps : Forall (λ p, image_appendValue p = Ok (image_bytes p)) ps →
  (fix go (ps : list Value) : result (list bytes) :=
     match ps with [] => Ok [] | p :: ps => b ← image_appendValue p; bs ← go ps; Ok (b :: bs) end) ps
  = Ok (map image_bytes ps).
Proof. induction 1 as [|p ps Hp _ IH]; [done|]. rewrite Hp. cbn [mbind result_bind]. by rewrite IH. Qed.

Lemma image_append_keyable v : keyable v → image_appendValue v = Ok (image_bytes v).
Proof.
  induction v as [|i|d|s|i|ps IH] using Value_ind'; try done. intros Hk.
  assert (Forall (λ p, image_appendValue p = Ok (image_bytes p)) ps) as Hps.
  { simpl in Hk. rewrite !andb_True in Hk. destruct Hk as [[Hk _] _]. rewrite forallb_True in Hk.
    rewrite Forall_forall in *. eauto. }
  unfold image_bytes. cbn [image_appendValue isNull]. by rewrite image_append_parts.
Qed.

Lemma image_bytes_composite ps : Forall (λ p, keyable p) ps →
  image_bytes (VComposite ps) = writePod_u8 254 ++ appendNat (length ps) ++ concat (map image_bytes ps).
Proof.
  intros Hps. unfold image_bytes at 1. cbn [image_appendValue isNull]. rewrite image_append_parts; [done|].
  eapply Forall_impl; [exact Hps|]. intros p. apply image_append_keyable.
Qed.

Lemma image_bytes_pos v : 0 < length (image_bytes v).
Proof.
  unfold image_bytes. destruct v as [|i|d|s|i|ps]; cbn [image_appendValue isNull mbind result_bind Value_type]; try (simpl; lia).
  destruct ((fix go (ps : list Value) : result (list bytes) := _) ps); simpl; lia.
Qed.

Lemma readMany_ext {A} (d1 d2 : reader A) : ∀ fuel count bs,
  (∀ bs', length bs' ≤ length bs → d1 bs' = d2 bs') → consuming d1 →
  readMany_fuel d1 fuel count bs = readMany_fuel d2 fuel count bs.
Proof.
  induction fuel as [|fuel IH]; intros count bs Hd Hc; cbn [readMany_fuel]; [done|].
  destruct (Z.leb count 0); [done|]. rewrite <- Hd by lia.
  destruct (d1 bs) as [[a rest]|e] eqn:E; [|done]. cbn [mbind result_bind].
  pose proof (Hc _ _ _ E). rewrite IH; [done| |done]. intros bs' Hl. apply Hd. lia.
Qed.

(** ** Every reader consumes *)

Definition shrinking {A} (d : reader A) : Prop :=
  ∀ bs a rest, d bs = Ok (a, rest) → length rest ≤ length bs.

Lemma consuming_pod n msg : 0 < n → consuming (readPod n msg).
Proof.
  intros Hn bs a rest. unfold readPod. destruct (Nat.ltb_spec (length bs) n); [done|]. intros [= _ <-].
  rewrite length_drop. lia.
Qed.

Lemma consuming_bind {A B} (d : reader A) (k : A → reader B) :
  consuming d → (∀ a, shrinking (k a)) → consuming (λ bs, '(a, bs) ← d bs; k a bs).
Proof.
  intros Hd Hk bs b rest E. destruct (d bs) as [[a bs1]|e] eqn:E1; [|done]. cbn [mbind result_bind] in E.
  pose proof (Hd _ _ _ E1). pose proof (Hk _ _ _ _ E). lia.
Qed.

Lemma shrinking_bind {A B} (d : reader A) (k : A → reader B) :
  shrinking d → (∀ a, shrinking (k a)) → shrinking (λ bs, '(a, bs) ← d bs; k a bs).
Proof.
  intros Hd Hk bs b rest E. destruct (d bs) as [[a bs1]|e] eqn:E1; [|done]. cbn [mbind result_bind] in E.
  pose proof (Hd _ _ _ E1). pose proof (Hk _ _ _ _ E). lia.
Qed.

Lemma consuming_shrinking {A} (d : reader A) : consuming d → shrinking d.
Proof. intros Hd bs a rest E. specialize (Hd _ _ _ E). lia. Qed.

Lemma shrinking_ret {A} (a : A) : shrinking (λ bs, Ok (a, bs)).
Proof. intros bs b rest [= _ <-]. lia. Qed.

Lemma shrinking_bytes n msg : shrinking (readBytes n msg).
Proof.
  intros bs a rest. unfold readBytes. destruct (Z.ltb _ _); [done|]. intros [= _ <-]. rewrite length_drop. lia.
Qed.

Lemma shrinking_many {A} (d : reader A) count : shrinking d → shrinking (readMany d count).
Proof.
  intros Hd bs l rest. unfold readMany. generalize (S (length bs)). intros fuel. revert count bs l rest.
  induction fuel as [|fuel IH]; intros count bs l rest; cbn [readMany_fuel]; destruct (Z.leb count 0);
    try (intros [= _ <-]; lia); try done.
  destruct (d bs) as [[a bs1]|e] eqn:E1; [|done]. cbn [mbind result_bind].
  destruct (readMany_fuel d fuel (count - 1) bs1) as [[l1 bs2]|e] eqn:E2; [|done]. cbn [mbind result_bind].
  intros [= _ <-]. pose proof (Hd _ _ _ E1). pose proof (IH _ _ _ _ E2). lia.
Qed.

Section images.
Context (truncated unsupported : string).
Abbreviation readValue_fuel := (readValue_fuel truncated unsupported).
Abbreviation image_readValue := (image_readValue truncated unsupported).
Abbreviation readBTreeNode := (readBTreeNode truncated unsupported).
Abbreviation readBTreeSnapshot := (readBTreeSnapshot truncated unsupported).
Abbreviation readBucket := (readBucket truncated unsupported).

Lemma readValue_consuming fuel : consuming (readValue_fuel fuel).
Proof.
  induction fuel as [|fuel IH]; [done|]. cbn [readValue_fuel].
  apply (consuming_bind _ (λ encodedType bs, _)); [by apply consuming_pod; lia|]. intros ty.
  assert (∀ (d : reader Z) (f : Z → Value), shrinking d → shrinking (λ bs, '(x, bs) ← d bs; Ok (f x, bs))) as Hfield.
  { intros d f Hd. apply (shrinking_bind _ (λ x bs, Ok (f x, bs))); [done|]. intros x. apply shrinking_ret. }
  pose proof (consuming_shrinking _ (consuming_pod 8 truncated ltac:(lia))) as H8.
  destruct (Z.eqb ty 255); [apply shrinking_ret|]. destruct (Z.eqb ty 254).
  { apply (shrinking_bind _ (λ n bs, _)); [exact H8|]. intros n. apply (shrinking_bind _ (λ ps bs, _)).
    - apply shrinking_many, consuming_shrinking, IH.
    - intros ps bs v rest E. destruct (composite ps); [|done]. injection E as _ <-. lia. }
  destruct (Z.eqb ty 0).
  { apply Hfield. unfold readPod_i64. apply (shrinking_bind _ (λ u bs, Ok (to_int64 u, bs))); [exact H8|].
    intros u. apply shrinking_ret. }
  destruct (Z.eqb ty 1); [by apply Hfield|]. destruct (Z.eqb ty 2); [|done].
  apply (shrinking_bind _ (λ s bs, Ok (VString s, bs))); [|intros s; apply shrinking_ret].
  unfold readString. apply (shrinking_bind _ (λ n bs, _)); [exact H8|]. intros n.
  apply (shrinking_bind _ (λ text bs, Ok (bytes_string text, bs))); [apply shrinking_bytes|]. intros text. apply shrinking_ret.
Qed.

(** The fuel of [image_readValue] is never used up: any larger fuel gives the same. *)
Lemma readValue_fuel_enough f1 : ∀ f2 bs, length bs < f1 → length bs < f2 → readValue_fuel f1 bs = readValue_fuel f2 bs.
Proof.
  induction f1 as [|f1 IH]; intros [|f2] bs H1 H2; try lia. cbn [readValue_fuel].
  destruct (readPod_u8 truncated bs) as [[ty bs1]|e] eqn:E1; [|done]. cbn [mbind result_bind].
  pose proof (consuming_pod 1 truncated ltac:(lia) _ _ _ E1) as Hl1.
  destruct (Z.eqb ty 255); [done|]. destruct (Z.eqb ty 254); [|done].
  destruct (readPod_u64 truncated bs1) as [[n bs2]|e] eqn:E2; [|done]. cbn [mbind result_bind].
  pose proof (consuming_pod 8 truncated ltac:(lia) _ _ _ E2) as Hl2. unfold readMany.
  rewrite (readMany_ext (readValue_fuel f1) (readValue_fuel f2)); [done| |apply readValue_consuming].
  intros bs' Hl. apply IH; lia.
Qed.

(** ** The value codec *)

Lemma decodes_value n : ∀ v, keyable v → value_depth v < n → decodes (readValue_fuel n) v (image_bytes v).
Proof.
  induction n as [|n IH]; intros v Hk Hd; [lia|]. cbn [readValue_fuel].
  assert (∀ ty w (k : Z → reader Value) y, u8 ty → decodes (k ty) w y →
    decodes (λ bs, '(t, bs) ← readPod_u8 truncated bs; k t bs) w (writePod_u8 ty ++ y)) as Htag.
  { intros ty w k y Hty Hp. apply (decodes_bind _ k ty); [|done]. by apply (decodes_codec u8 writePod_u8 _). }
  destruct v as [|i|b|s|i|ps]; try done.
  - unfold image_bytes. simpl. rewrite <- (app_nil_r (writePod_u8 255)).
    apply (Htag 255%Z _ (λ t bs, _)); [done|]. apply decodes_ret.
  - simpl in Hk. apply andb_True in Hk as [H1%Is_true_true%Z.leb_le H2%Is_true_true%Z.ltb_lt].
    apply (Htag 0%Z _ (λ t bs, _)); [done|]. apply (decodes_last _ VInt). by apply (decodes_codec _ writePod_i64 _).
  - simpl in Hk. apply andb_True in Hk as [H1%Is_true_true%Z.leb_le H2%Is_true_true%Z.ltb_lt].
    apply (Htag 1%Z _ (λ t bs, _)); [done|]. apply (decodes_last _ VDouble). by apply (decodes_codec u64 writePod_u64 _).
  - simpl in Hk. apply Is_true_true, Z.ltb_lt in Hk.
    apply (Htag 2%Z _ (λ t bs, _)); [done|]. apply (decodes_last _ VString). by apply (decodes_codec _ appendString _).
  - cbn [keyable] in Hk. rewrite !andb_True in Hk. destruct Hk as [[Hps%forallb_True Hl%Is_true_true%Nat.leb_le] Hsz%Is_true_true%Z.ltb_lt].
    rewrite image_bytes_composite by done. apply (Htag 254%Z _ (λ t bs, _)); [done|]. cbn [Z.eqb Pos.eqb].
    assert (Codec (λ v, keyable v ∧ value_depth v < n) image_bytes (readValue_fuel n)) as Hc.
    { apply codec_parses. intros v [Hv Hvd]. by apply IH. }
    assert (Forall (λ v, keyable v ∧ value_depth v < n) ps) as Hwf.
    { rewrite Forall_forall in Hps |- *. intros p Hp. split; [auto|]. cbn [value_depth] in Hd.
      assert (value_depth p ≤ list_max (map value_depth ps)); [|lia].
      pose proof (proj1 (list_max_le (map value_depth ps) _) (Nat.le_refl _)) as Hm. rewrite List.Forall_forall in Hm.
      apply Hm, in_map. by apply list_elem_of_In. }
    pose proof (decodes_counted _ image_bytes (readValue_fuel n) truncated ps image_bytes_pos Hsz Hwf) as [Hr Ht].
    assert (composite ps = Ok (VComposite ps)) as Ecomp by (by destruct ps as [|? [|]]; simpl in Hl; try lia).
    unfold readCounted in Hr, Ht. split.
    + intros rest. specialize (Hr rest). destruct (readPod_u64 truncated _) as [[c bs1]|e]; [|done].
      cbn [mbind result_bind] in Hr |- *. rewrite Hr. cbn [mbind result_bind]. by rewrite Ecomp.
    + intros p Hp Hne. destruct (Ht p Hp Hne) as [e E]. destruct (readPod_u64 truncated p) as [[c bs1]|e1]; [|by eexists].
      cbn [mbind result_bind] in E |- *. rewrite E. by eexists.
Qed.

Lemma value_depth_bytes v : keyable v → value_depth v < length (image_bytes v).
Proof.
  induction v as [|i|b|s|i|ps IH] using Value_ind'; intros Hk; try apply image_bytes_pos.
  cbn [keyable] in Hk. rewrite !andb_True in Hk. destruct Hk as [[Hps%forallb_True _] _].
  rewrite image_bytes_composite by done. rewrite !length_app. cbn [value_depth].
  assert (list_max (map value_depth ps) ≤ length (concat (map image_bytes ps))).
  { apply list_max_le. rewrite List.Forall_forall. intros x (p & <- & Hp)%in_map_iff. apply list_elem_of_In in Hp.
    rewrite Forall_forall in IH, Hps. specialize (IH p Hp (Hps p Hp)).
    assert (length (image_bytes p) ≤ length (concat (map image_bytes ps))); [|lia]. clear -Hp.
    induction ps as [|q ps IHps]; [by apply not_elem_of_nil in Hp|]. simpl. rewrite length_app.
    apply elem_of_cons in Hp as [->|Hp]; [lia|]. specialize (IHps Hp). lia. }
  change (length (writePod_u8 254)) with 1. pose proof (appendNat_pos (length ps)). lia.
Qed.

#[export] Instance codec_image_value : Codec (λ v, keyable v) image_bytes image_readValue.
Proof.
  split.
  - intros v rest Hk. unfold image_readValue. apply (decodes_value _ v Hk). rewrite length_app. pose proof (value_depth_bytes v Hk). lia.
  - intros v p Hk Hp Hne. unfold image_readValue.
    rewrite (readValue_fuel_enough _ (S (length p + value_depth v))) by lia.
    apply (decodes_value _ v Hk); [lia|done|done].
Qed.

(** ** Index images *)

(** The bytes of a writer that succeeds. *)
Definition written {A} (append : A → result bytes) (a : A) : bytes :=
  match append a with Ok b => b | Throw _ => [Byte.x00] end.

Definition writes {A} (append : A → result bytes) (a : A) : Prop := append a = Ok (written append a).

Lemma writes_mapM {A} (append : A → result bytes) (l : list A) : Forall (writes append) l →
  mapM append l = Ok (map (written append) l).
Proof. apply mapM_Ok. Qed.

Definition sizes_ok (l : list nat) : Prop := size_ok (length l) ∧ Forall size_ok l.
Definition keys_ok (keys : list Value) : Prop := size_ok (length keys) ∧ Forall (λ k, keyable k) keys.

Record node_ok (n : BTreeNode) : Prop := {
  no_page : size_ok (bn_pageId n);
  no_keys : keys_ok (bn_keys n);
  no_links : if bn_leaf n
    then size_ok (length (bn_rowIds n)) ∧ Forall sizes_ok (bn_rowIds n) ∧ bn_children n = [] ∧
         match bn_nextLeaf n with Some p => size_ok p | None => True end
    else sizes_ok (bn_children n) ∧ bn_rowIds n = [] ∧ bn_nextLeaf n = None
}.

Lemma writes_keys keys : keys_ok keys → mapM image_appendValue keys = Ok (map image_bytes keys).
Proof. intros [_ Hk]. apply mapM_Ok. eapply Forall_impl; [exact Hk|]. intros k. apply image_append_keyable. Qed.

Lemma writes_node n : node_ok n → appendBTreeNode n = Ok (appendNat (bn_pageId n) ++ appendFlag (bn_leaf n) ++
  appendNat (length (bn_keys n)) ++ concat (map image_bytes (bn_keys n)) ++ appendNodeLinks n).
Proof. intros Hn. unfold appendBTreeNode. by rewrite writes_keys by apply Hn. Qed.

Lemma decodes_nat msg n : size_ok n → decodes (readNat msg) n (appendNat n).
Proof. apply (decodes_codec size_ok appendNat _). Qed.
Lemma decodes_flag msg b : decodes (readFlag msg) b (appendFlag b).
Proof. by apply (decodes_codec (λ _, True) appendFlag _). Qed.
Lemma decodes_nats msg l : sizes_ok l → decodes (readNats msg) l (writeCounted appendNat l).
Proof. apply (decodes_codec (λ l, size_ok (length l) ∧ Forall size_ok l) (writeCounted appendNat) _). Qed.
Lemma decodes_keys keys : keys_ok keys → 
  decodes (readCounted truncated image_readValue) keys (appendNat (length keys) ++ concat (map image_bytes keys)).
Proof. intros [Hl Hk]. apply (decodes_counted (λ v, keyable v) image_bytes image_readValue); [apply _|apply image_bytes_pos|done|done]. Qed.

Lemma decodes_node n : node_ok n → decodes readBTreeNode n (written appendBTreeNode n).
Proof.
  intros Hn. unfold written. rewrite writes_node by done. destruct Hn as [Hp Hk Hl]. unfold readBTreeNode.
  destruct n as [page leaf keys rowIds children next].
  cbn [bn_pageId bn_leaf bn_keys bn_rowIds bn_children bn_nextLeaf] in *.
  eapply decodes_bind; [by apply decodes_nat|]. eapply decodes_bind; [apply decodes_flag|]. rewrite app_assoc.
  eapply decodes_bind; [by apply decodes_keys|]. unfold appendNodeLinks. cbn [bn_leaf bn_rowIds bn_children bn_nextLeaf]. destruct leaf.
  - destruct Hl as (Hr1 & Hr2 & -> & Hnext). eapply decodes_bind.
    { apply (decodes_counted sizes_ok (writeCounted appendNat) (readNats truncated)); [apply _|apply writeCounted_pos|done|done]. }
    eapply decodes_bind; [apply decodes_flag|]. destruct next as [next|].
    + rewrite bool_decide_true by (by eexists). apply (decodes_last _ (λ next, mkBTreeNode page true keys rowIds [] (Some next))).
      by apply decodes_nat.
    + rewrite bool_decide_false by (by intros []). apply decodes_ret.
  - destruct Hl as (Hc & -> & ->). apply (decodes_last _ (λ children, mkBTreeNode page false keys [] children None)).
    by apply decodes_nats.
Qed.

#[export] Instance codec_node : Codec node_ok (written appendBTreeNode) readBTreeNode.
Proof. apply codec_parses, decodes_node. Qed.

(** Writers put something. *)
Lemma written_pos {A} (append : A → result bytes) a : (∀ b, append a = Ok b → 0 < length b) → 0 < length (written append a).
Proof. intros Hp. unfold written. destruct (append a); [by apply Hp|simpl; lia]. Qed.

Lemma Ok_pos (x b : bytes) : 0 < length x → Ok x = Ok b → 0 < length b.
Proof. by intros Hx [= <-]. Qed.

Lemma node_pos n : 0 < length (written appendBTreeNode n).
Proof.
  apply written_pos. intros b. unfold appendBTreeNode. destruct (mapM image_appendValue _); [|done].
  apply Ok_pos. rewrite length_app. pose proof (appendNat_pos (bn_pageId n)). lia.
Qed.

Record btree_image_ok (s : BTreeIndexSnapshot) : Prop := {
  bi_max : size_ok (bs_maxKeysPerNode s);
  bi_root : size_ok (bs_rootPageId s);
  bi_next : size_ok (bs_nextPageId s);
  bi_free : sizes_ok (bs_freePageIds s);
  bi_keys : size_ok (bs_keyCount s);
  bi_nodes : size_ok (length (bs_nodes s)) ∧ Forall node_ok (bs_nodes s)
}.

Lemma writes_btree s : btree_image_ok s → writes appendBTreeSnapshot s ∧
  decodes readBTreeSnapshot s (written appendBTreeSnapshot s).
Proof.
  intros [Hm Hr Hn Hf Hk [Hl Hnodes]]. unfold writes, written at 1.
  assert (mapM appendBTreeNode (bs_nodes s) = Ok (map (written appendBTreeNode) (bs_nodes s))) as E.
  { apply writes_mapM. eapply Forall_impl; [exact Hnodes|]. intros n Hok. unfold writes, written. by rewrite writes_node. }
  unfold written, appendBTreeSnapshot. rewrite E. cbn [mbind result_bind]. split; [done|]. unfold readBTreeSnapshot.
  do 4 (eapply decodes_bind; [by apply decodes_nat|]). eapply decodes_bind; [by apply decodes_nats|].
  destruct s as [mx root next free kc nodes].
  cbn [bs_maxKeysPerNode bs_rootPageId bs_nextPageId bs_freePageIds bs_keyCount bs_nodes] in *.
  apply (decodes_last _ (λ nodes, mkBTreeIndexSnapshot mx root next free kc nodes)).
  apply (decodes_counted node_ok (written appendBTreeNode) readBTreeNode); [apply _|apply node_pos|done|done].
Qed.

Definition bucket_ok (b : Value * list RowId) : Prop := keyable b.1 ∧ sizes_ok b.2.

Lemma writes_bucket b : bucket_ok b → appendBucket b = Ok (image_bytes b.1 ++ writeCounted appendNat b.2).
Proof. intros [Hk _]. unfold appendBucket. by rewrite image_append_keyable. Qed.

#[export] Instance codec_bucket : Codec bucket_ok (written appendBucket) readBucket.
Proof.
  apply codec_parses. intros [key ids] Hb. unfold written. rewrite writes_bucket by done. destruct Hb as [Hk Hi]. cbn [fst snd] in *.
  unfold readBucket. eapply decodes_bind; [by apply (decodes_codec (λ v, keyable v) image_bytes _)|].
  apply (decodes_last _ (λ ids, (key, ids))). by apply decodes_nats.
Qed.

Lemma bucket_pos b : 0 < length (written appendBucket b).
Proof.
  apply written_pos. intros x. unfold appendBucket. destruct (image_appendValue b.1); [|done].
  apply Ok_pos. rewrite length_app. pose proof (writeCounted_pos appendNat b.2). lia.
Qed.

Lemma decodes_buckets buckets : size_ok (length buckets) → Forall bucket_ok buckets →
  decodes (readBuckets truncated unsupported) buckets (appendNat (length buckets) ++ concat (map (written appendBucket) buckets)).
Proof. intros Hl Hb. apply (decodes_counted bucket_ok (written appendBucket) readBucket); [apply _|apply bucket_pos|done|done]. Qed.
End images.

Definition hash_image_ok (s : HashIndexSnapshot) : Prop :=
  size_ok (length (his_buckets s)) ∧ Forall bucket_ok (his_buckets s).

Lemma writes_hash s : hash_image_ok s → writes appendHashSnapshot s ∧
  decodes readHashSnapshot s (written appendHashSnapshot s).
Proof.
  intros [Hl Hb].
  assert (mapM appendBucket (his_buckets s) = Ok (map (written appendBucket) (his_buckets s))) as E.
  { apply writes_mapM. eapply Forall_impl; [exact Hb|]. intros b Hok. unfold writes, written. by rewrite writes_bucket. }
  unfold writes, written, appendHashSnapshot. rewrite E. cbn [mbind result_bind]. split; [done|]. unfold readHashSnapshot.
  eapply decodes_bind; [apply decodes_flag|]. destruct s as [all buckets]. cbn [his_replaceAll his_buckets] in *.
  apply (decodes_last _ (λ buckets, mkHashIndexSnapshot all buckets)).
  by apply decodes_buckets.
Qed.

(** ** Records and batches *)

Definition name_ok (s : string) : Prop := size_ok (String.length s).
Definition heap_page_ok (p : PageId * bytes) : Prop := size_ok p.1 ∧ size_ok (length p.2).
Definition named_btree_ok (e : string * BTreeIndexSnapshot) : Prop := name_ok e.1 ∧ btree_image_ok e.2.
Definition named_hash_ok (e : string * HashIndexSnapshot) : Prop := name_ok e.1 ∧ hash_image_ok e.2.

Lemma decodes_name msg s : name_ok s → decodes (readString msg msg) s (appendString s).
Proof. apply (decodes_codec (λ s, size_ok (String.length s)) appendString _). Qed.

Lemma decodes_tag msg z : u8 z → decodes (readPod_u8 msg) z (writePod_u8 z).
Proof. apply (decodes_codec u8 writePod_u8 _). Qed.

#[export] Instance codec_heap_page : Codec heap_page_ok appendHeapPage readHeapPage.
Proof.
  apply codec_parses. intros [id payload] [Hi Hp]. unfold readHeapPage, appendHeapPage. cbn [fst snd] in *.
  eapply decodes_bind; [by apply decodes_nat|]. apply (decodes_last _ (λ payload, (id, payload))).
  by apply (decodes_codec (λ b, size_ok (length b)) appendBlob _).
Qed.

Lemma writes_named_btree e : named_btree_ok e →
  appendNamedBTree e = Ok (appendString e.1 ++ writePod_u8 1 ++ written appendBTreeSnapshot e.2).
Proof. intros [_ Hs]. unfold appendNamedBTree. destruct (writes_btree imageTruncated imageUnsupported e.2 Hs) as [-> _]. done. Qed.

Lemma writes_named_hash e : named_hash_ok e →
  appendNamedHash e = Ok (appendString e.1 ++ writePod_u8 0 ++ written appendHashSnapshot e.2).
Proof. intros [_ Hs]. unfold appendNamedHash. destruct (writes_hash e.2 Hs) as [-> _]. done. Qed.

#[export] Instance codec_named_btree : Codec named_btree_ok (written appendNamedBTree) readNamedBTree.
Proof.
  apply codec_parses. intros [name s] Hok. unfold written. rewrite writes_named_btree by done. destruct Hok as [Hn Hs].
  cbn [fst snd] in *. unfold readNamedBTree. eapply decodes_bind; [by apply decodes_name|].
  eapply decodes_bind; [by apply decodes_tag|]. apply (decodes_last _ (λ s, (name, s))). by apply writes_btree.
Qed.

#[export] Instance codec_named_hash : Codec named_hash_ok (written appendNamedHash) readNamedHash.
Proof.
  apply codec_parses. intros [name s] Hok. unfold written. rewrite writes_named_hash by done. destruct Hok as [Hn Hs].
  cbn [fst snd] in *. unfold readNamedHash. eapply decodes_bind; [by apply decodes_name|].
  eapply decodes_bind; [by apply decodes_tag|]. apply (decodes_last _ (λ s, (name, s))). by apply writes_hash.
Qed.

Lemma appendString_pos s : 0 < length (appendString s).
Proof. unfold appendString. rewrite length_app, writePod_u64_length. lia. Qed.

Lemma named_btree_pos e : 0 < length (written appendNamedBTree e).
Proof.
  apply written_pos. intros x. unfold appendNamedBTree. destruct (appendBTreeSnapshot e.2); [|done].
  apply Ok_pos. rewrite length_app. pose proof (appendString_pos e.1). lia.
Qed.

Lemma named_hash_pos e : 0 < length (written appendNamedHash e).
Proof.
  apply written_pos. intros x. unfold appendNamedHash. destruct (appendHashSnapshot e.2); [|done].
  apply Ok_pos. rewrite length_app. pose proof (appendString_pos e.1). lia.
Qed.

Lemma heap_page_pos p : 0 < length (appendHeapPage p).
Proof. unfold appendHeapPage. rewrite length_app. pose proof (appendNat_pos p.1). lia. Qed.

Record image_record_ok (r : PageImageRedoRecord) : Prop := {
  ir_name : name_ok (pir_tableName r);
  ir_meta : if pir_hasHeapMeta r then size_ok (pir_capacity r) ∧ sizes_ok (pir_freeList r)
            else pir_capacity r = 0 ∧ pir_freeList r = [];
  ir_pages : size_ok (length (pir_heapPages r)) ∧ Forall heap_page_ok (pir_heapPages r);
  ir_btrees : size_ok (length (pir_btreeIndexes r)) ∧ Forall named_btree_ok (pir_btreeIndexes r);
  ir_hashes : size_ok (length (pir_hashIndexes r)) ∧ Forall named_hash_ok (pir_hashIndexes r)
}.

Lemma decodes_meta r : image_record_ok r →
  decodes (readHeapMeta (pir_hasHeapMeta r)) (pir_capacity r, pir_freeList r) (appendHeapMeta r).
Proof.
  intros [_ Hm _ _ _]. unfold readHeapMeta, appendHeapMeta. destruct (pir_hasHeapMeta r).
  - destruct Hm as [Hc Hf]. eapply decodes_bind; [by apply decodes_nat|].
    apply (decodes_last _ (λ f, (pir_capacity r, f))). by apply decodes_nats.
  - destruct Hm as [-> ->]. apply decodes_ret.
Qed.

Lemma writes_record r : image_record_ok r → image_appendRecord r =
  Ok (appendString (pir_tableName r) ++ appendFlag (pir_hasHeapMeta r) ++ appendHeapMeta r ++
      writeCounted appendHeapPage (pir_heapPages r) ++
      appendNat (length (pir_btreeIndexes r)) ++ concat (map (written appendNamedBTree) (pir_btreeIndexes r)) ++
      appendNat (length (pir_hashIndexes r)) ++ concat (map (written appendNamedHash) (pir_hashIndexes r))).
Proof.
  intros [_ _ _ [_ Hb] [_ Hh]]. unfold image_appendRecord. rewrite !writes_mapM; [done| |].
  - eapply Forall_impl; [exact Hb|]. intros e He. unfold writes, written. by rewrite writes_named_btree.
  - eapply Forall_impl; [exact Hh|]. intros e He. unfold writes, written. by rewrite writes_named_hash.
Qed.

#[export] Instance codec_image_record : Codec image_record_ok (written image_appendRecord) image_readRecord.
Proof.
  apply codec_parses. intros r Hr. unfold written. rewrite writes_record by done. pose proof (decodes_meta r Hr) as Hmeta.
  destruct Hr as [Hn _ [Hp1 Hp2] [Hb1 Hb2] [Hh1 Hh2]]. unfold image_readRecord.
  eapply decodes_bind; [by apply decodes_name|]. eapply decodes_bind; [apply decodes_flag|].
  eapply decodes_bind; [exact Hmeta|]. eapply decodes_bind.
  { apply (decodes_counted heap_page_ok appendHeapPage readHeapPage); [apply _|apply heap_page_pos|done|done]. }
  rewrite app_assoc. eapply decodes_bind.
  { apply (decodes_counted named_btree_ok (written appendNamedBTree) readNamedBTree); [apply _|apply named_btree_pos|done|done]. }
  destruct r as [name has cap free pages bts hs].
  cbn [pir_tableName pir_hasHeapMeta pir_capacity pir_freeList pir_heapPages pir_btreeIndexes pir_hashIndexes fst snd] in *.
  apply (decodes_last _ (λ hs, mkPageImageRedoRecord name has cap free pages bts hs)).
  apply (decodes_counted named_hash_ok (written appendNamedHash) readNamedHash); [apply _|apply named_hash_pos|done|done].
Qed.

Lemma image_record_pos r : 0 < length (written image_appendRecord r).
Proof.
  apply written_pos. intros x. unfold image_appendRecord. destruct (mapM appendNamedBTree _); [|done].
  cbn [mbind result_bind]. destruct (mapM appendNamedHash _); [|done].
  apply Ok_pos. rewrite length_app. pose proof (appendString_pos (pir_tableName r)). lia.
Qed.

(** A batch of records written and read with a codec. *)
Lemma batch_roundtrip {A} (wf : A → Prop) append (read : reader A) m1 m2 m3 m4 (records : list A)
    `{!Codec wf (written append) read} :
  (∀ a, wf a → writes append a) → (∀ a, 0 < length (written append a)) →
  records ≠ [] → size_ok (length records) → Forall wf records →
  ∃ payload, encode_batch m1 append records = Ok payload ∧ decode_batch m2 m3 m4 read payload = Ok records ∧
    (∀ p, p `prefix_of` payload → p ≠ payload → ∃ e, decode_batch m2 m3 m4 read p = Throw e) ∧
    (∀ q, q ≠ [] → decode_batch m2 m3 m4 read (payload ++ q) = Throw (runtime_error m4)).
Proof.
  intros Hw Hpos Hne Hsz Hwf. exists (appendNat (length records) ++ concat (map (written append) records)).
  assert (0 < length records) as Hl by (destruct records; [done|simpl; lia]).
  assert (∀ bs, decode_batch m2 m3 m4 read bs =
    match readPod_u64 m2 bs with
    | Throw e => Throw e
    | Ok (c, bs) => _ ← throw_if (Z.eqb c 0) (runtime_error m3); '(records, bs) ← readMany read c bs;
        _ ← throw_if (bool_decide (length bs ≠ 0)) (runtime_error m4); Ok records
    end) as Hdec. { intros bs. unfold decode_batch. by destruct (readPod_u64 m2 bs) as [[]|]. }
  assert (∀ rest, decode_batch m2 m3 m4 read ((appendNat (length records) ++ concat (map (written append) records)) ++ rest) =
    (_ ← throw_if (bool_decide (length rest ≠ 0)) (runtime_error m4); Ok records)) as Hfull.
  { intros rest. rewrite Hdec. rewrite <- app_assoc. unfold appendNat. rewrite (codec_roundtrip (Codec := codec_u64 m2)) by (by apply size_u64).
    destruct (Z.eqb_spec (Z.of_nat (length records)) 0); [lia|]. cbn [throw_if mbind result_bind].
    by rewrite (readMany_roundtrip wf (written append) read). }
  split_and!.
  - unfold encode_batch. rewrite bool_decide_false by lia. cbn [throw_if mbind result_bind].
    rewrite writes_mapM; [done|]. eapply Forall_impl; [exact Hwf|]. exact Hw.
  - rewrite <- (app_nil_r (appendNat _ ++ _)). rewrite Hfull. done.
  - intros p Hp Hpn. rewrite Hdec. destruct (prefix_app_cases _ _ _ Hp Hpn) as [[Hp1 Hn1]|(q & -> & Hq & Hqn)].
    + destruct (codec_truncated (Codec := codec_u64 m2) _ _ (size_u64 _ Hsz) Hp1 Hn1) as [e ->]. by exists e.
    + unfold appendNat. rewrite (codec_roundtrip (Codec := codec_u64 m2)) by (by apply size_u64).
      destruct (Z.eqb_spec (Z.of_nat (length records)) 0); [lia|]. cbn [throw_if mbind result_bind].
      destruct (readMany_truncated wf (written append) read records q Hwf Hq Hqn) as [e ->]. by exists e.
  - intros q Hq. rewrite Hfull. by rewrite bool_decide_true by (by destruct q).
Qed.

Lemma image_batch_codes (records : list PageImageRedoRecord) :
  records ≠ [] → size_ok (length records) → Forall image_record_ok records →
  ∃ payload, encodePageImageRedos records = Ok payload ∧ decodePageImageRedos payload = Ok records ∧
    (∀ p, p `prefix_of` payload → p ≠ payload → ∃ e, decodePageImageRedos p = Throw e) ∧
    (∀ q, q ≠ [] → ∃ e, decodePageImageRedos (payload ++ q) = Throw e).
Proof.
  intros Hne Hsz Hwf.
  destruct (batch_roundtrip image_record_ok image_appendRecord image_readRecord "page image redo batch must be non-empty"
    imageTruncated "empty page image redo batch in WAL payload" "trailing bytes in page image redo payload" records)
    as (payload & He & Hd & Hp & Hq); [|exact image_record_pos|done|done|done|].
  - intros r Hr. unfold writes, written. by rewrite writes_record.
  - exists payload. split_and!; [exact He|exact Hd|exact Hp|]. intros q Hqn. eexists. by apply Hq.
Qed.

(** Page-image redo records survive the log.  For a non-empty batch of records
    whose sizes fit their 64-bit fields, whose index keys are nulls, typed scalars
    or composites of at least two keys, and whose nodes carry only the links of
    their kind, [encodePageImageRedos] succeeds and [decodePageImageRedos] gives
    back the same records; it throws on every proper prefix of the payload and on
    the payload followed by anything, and an empty batch is refused. *)
Theorem page_image_redo_roundtrip (records : list PageImageRedoRecord) :
  (records = [] → ∃ e, encodePageImageRedos records = Throw e) ∧
  (records ≠ [] → size_ok (length records) → Forall image_record_ok records →
   ∃ payload, encodePageImageRedos records = Ok payload ∧ decodePageImageRedos payload = Ok records ∧
     (∀ p, p `prefix_of` payload → p ≠ payload → ∃ e, decodePageImageRedos p = Throw e) ∧
     (∀ q, q ≠ [] → ∃ e, decodePageImageRedos (payload ++ q) = Throw e)).
Proof.
  split; [intros ->; by eexists|]. apply image_batch_codes.
Qed.

(** ** Physical redo *)

#[export] Instance codec_physical_value : Codec storable value_bytes physical_readValue.
Proof.
  apply codec_parses. intros v Hk. unfold physical_readValue.
  destruct v as [|i|b|s|i|ps]; try done; unfold value_bytes; cbn [page_appendValue isNull Value_type mbind result_bind ColumnType_code].
  - rewrite <- (app_nil_r (writePod_u8 255)). eapply decodes_bind; [by apply decodes_tag|]. apply decodes_ret.
  - simpl in Hk. apply andb_True in Hk as [H1%Is_true_true%Z.leb_le H2%Is_true_true%Z.ltb_lt].
    eapply decodes_bind; [by apply decodes_tag|]. apply (decodes_last _ VInt). by apply (decodes_codec _ writePod_i64 _).
  - simpl in Hk. apply andb_True in Hk as [H1%Is_true_true%Z.leb_le H2%Is_true_true%Z.ltb_lt].
    eapply decodes_bind; [by apply decodes_tag|]. apply (decodes_last _ VDouble). by apply (decodes_codec u64 writePod_u64 _).
  - simpl in Hk. apply Is_true_true, Z.ltb_lt in Hk.
    eapply decodes_bind; [by apply decodes_tag|]. apply (decodes_last _ VString). by apply decodes_name.
Qed.

(** The row of an erase record is not written. *)
Record physical_record_ok (r : PhysicalRedoRecord) : Prop := {
  po_name : name_ok (prr_tableName r);
  po_rowId : size_ok (prr_rowId r);
  po_row : match prr_kind r with PR_Upsert => storable_row (prr_row r) | PR_Erase => prr_row r = [] end
}.

Lemma writes_physical r : physical_record_ok r → physical_appendRecord r = Ok
  (writePod_u8 (match prr_kind r with PR_Upsert => 0 | PR_Erase => 1 end) ++ appendString (prr_tableName r) ++
   appendNat (prr_rowId r) ++
   match prr_kind r with PR_Upsert => appendNat (length (prr_row r)) ++ concat (map value_bytes (prr_row r)) | PR_Erase => [] end).
Proof.
  intros [_ _ Hr]. unfold physical_appendRecord. destruct (prr_kind r).
  - rewrite (mapM_Ok _ value_bytes); [done|]. destruct Hr as [_ Hr]. eapply Forall_impl; [exact Hr|].
    apply page_appendValue_storable.
  - by rewrite app_nil_r.
Qed.

#[export] Instance codec_physical_record : Codec physical_record_ok (written physical_appendRecord) physical_readRecord.
Proof.
  apply codec_parses. intros r Hr. unfold written. rewrite writes_physical by done. destruct Hr as [Hn Hi Hr].
  destruct r as [kind name id row]. cbn [prr_kind prr_tableName prr_rowId prr_row] in *. unfold physical_readRecord.
  eapply decodes_bind; [apply decodes_tag; by destruct kind|]. eapply decodes_bind; [by apply decodes_name|].
  eapply decodes_bind; [by apply decodes_nat|]. destruct kind; cbn [Z.eqb Pos.eqb].
  - destruct Hr as [Hl Hv]. apply (decodes_last _ (λ row, mkPhysicalRedoRecord PR_Upsert name id row)).
    apply (decodes_counted storable value_bytes physical_readValue); [apply _|apply value_bytes_pos|done|done].
  - rewrite Hr. apply decodes_ret.
Qed.

Lemma physical_record_pos r : 0 < length (written physical_appendRecord r).
Proof.
  apply written_pos. intros x. unfold physical_appendRecord.
  destruct (prr_kind r); [destruct (mapM page_appendValue _); [|done]|]; apply Ok_pos; rewrite length_app;
    change (length (writePod_u8 _)) with 1; lia.
Qed.

(** Row-image redo records survive the log, as the page images do: a non-empty
    batch of storable records is read back exactly, and a payload that is cut off
    or has bytes after its end is rejected. *)
Theorem physical_redo_roundtrip (records : list PhysicalRedoRecord) :
  records ≠ [] → size_ok (length records) → Forall physical_record_ok records →
  ∃ payload, encodePhysicalRedos records = Ok payload ∧ decodePhysicalRedos payload = Ok records ∧
    (∀ p, p `prefix_of` payload → p ≠ payload → ∃ e, decodePhysicalRedos p = Throw e) ∧
    (∀ q, q ≠ [] → ∃ e, decodePhysicalRedos (payload ++ q) = Throw e).
Proof.
  intros Hne Hsz Hwf.
  destruct (batch_roundtrip physical_record_ok physical_appendRecord physical_readRecord "physical redo batch must be non-empty"
    physicalTruncated "empty physical redo batch in WAL payload" "trailing bytes in physical redo payload" records)
    as (payload & He & Hd & Hp & Hq); [|exact physical_record_pos|done|done|done|].
  - intros r Hr. unfold writes, written. by rewrite writes_physical.
  - exists payload. split_and!; [exact He|exact Hd|exact Hp|]. intros q Hqn. eexists. by apply Hq.
Qed.

(** ** Witnesses *)

Definition sample_image : PageImageRedoRecord :=
  mkPageImageRedoRecord "t" true 2 [1] [(0, page_bytes [[VInt 1]])]
    [("i", mkBTreeIndexSnapshot 64 1 2 [] 1 [mkBTreeNode 1 true [VComposite [VInt 1; VNull]] [[0]] [] None])]
    [("i", mkHashIndexSnapshot true [(VString "k", [0])])].

Lemma sample_image_ok : image_record_ok sample_image.
Proof. repeat constructor. Qed.

Lemma page_image_redo_roundtrip_witness : ∃ payload, encodePageImageRedos [sample_image; sample_image] = Ok payload ∧
  decodePageImageRedos payload = Ok [sample_image; sample_image].
Proof.
  destruct (proj2 (page_image_redo_roundtrip [sample_image; sample_image])) as (payload & E & D & _).
  - done.
  - done.
  - repeat constructor.
  - exists payload. split; [exact E|exact D].
Defined.

Lemma physical_redo_roundtrip_witness :
  let rs := [mkPhysicalRedoRecord PR_Upsert "t" 3 [VInt 7; VNull]; mkPhysicalRedoRecord PR_Erase "t" 3 []] in
  ∃ payload, encodePhysicalRedos rs = Ok payload ∧ decodePhysicalRedos payload = Ok rs.
Proof.
  intros rs. destruct (physical_redo_roundtrip rs) as (payload & E & D & _).
  - done.
  - done.
  - repeat constructor.
  - exists payload. split; [exact E|exact D].
Defined.
