(* ===== verification/IndexExpression.v ===== *)
(** * Index expressions

    [src/common/index_expression.cpp]: the expressions an index can be built on,
    their evaluation on a row, their textual form and the encoding of an index
    definition in a snapshot file; [Value::toString], which the textual form uses.

    Formatting a [double] with [operator<<], [std::stod], the conversion of an
    [int64_t] to [double] and the two floating-point operations are parameters of
    the section.  Signed 64-bit addition, subtraction and negation wrap around, as
    the compiled code does; the C++ standard leaves their overflow undefined. *)

From S2P Require Import Prelude Value StringPattern.
From Stdlib Require Import Ascii DecimalString DecimalN.
Local Open Scope nat_scope.

Inductive IndexExpression_Kind : Type := K_Column | K_Negate | K_Add | K_Subtract | K_Trigram.

Record IndexExpression : Type := mkIndexExpression {
  ie_kind : IndexExpression_Kind;
  ie_column : string;
  ie_literal : Value
}.

#[export] Instance IndexExpression_Kind_eq_dec : EqDecision IndexExpression_Kind.
Proof. solve_decision. Defined.

(** The defaulted [operator==]. *)
Definition IndexExpression_eqb (a b : IndexExpression) : bool :=
  bool_decide (ie_kind a = ie_kind b) && String.eqb (ie_column a) (ie_column b)
  && Value_eqb (ie_literal a) (ie_literal b).

(** ** Characters in the C locale *)

Definition code_in (lo hi : nat) (c : ascii) : bool :=
  Nat.leb lo (nat_of_ascii c) && Nat.leb (nat_of_ascii c) hi.
Definition isdigit : ascii → bool := code_in 48 57.
Definition isalpha (c : ascii) : bool := code_in 65 90 c || code_in 97 122 c.
Definition isalnum (c : ascii) : bool := isalpha c || isdigit c.
Definition isspace (c : ascii) : bool := code_in 9 13 c || code_in 32 32 c.

Definition isIdentStart (ch : ascii) : bool := isalpha ch || Ascii.eqb ch "_".
Definition isIdentContinue (ch : ascii) : bool := isalnum ch || Ascii.eqb ch "_".

Fixpoint drop_spaces (text : chars) : chars :=
  match text with
  | c :: text' => if isspace c then drop_spaces text' else text
  | [] => []
  end.

Definition trim (text : chars) : chars := rev (drop_spaces (rev (drop_spaces text))).

(** The longest prefix of identifier characters, and the rest. *)
Fixpoint ident_span (text : chars) : chars * chars :=
  match text with
  | c :: text' =>
      if isIdentContinue c then let '(a, b) := ident_span text' in (c :: a, b) else ([], text)
  | [] => ([], [])
  end.

Definition tryParseIdentifier (text : chars) : option string :=
  match text with
  | c :: text' =>
      if negb (isIdentStart c) then None
      else match ident_span text' with (_, []) => Some (implode text) | _ => None end
  | [] => None
  end.

(** ** Integers *)

(** [stream << item] of an [int64_t]. *)
Definition int_chars (i : Z) : chars := explode (NilZero.string_of_int (Z.to_int i)).

(** [std::from_chars] of a whole range of digits. *)
Definition from_chars (digits : chars) : option Z :=
  match NilZero.uint_of_string (implode digits) with
  | Some d => let v := Z.of_uint d in if (v <? 2 ^ 63)%Z then Some v else None
  | None => None
  end.

Definition wrap64 (z : Z) : Z := ((z + 2 ^ 63) mod 2 ^ 64 - 2 ^ 63)%Z.

Section expression.
Context (double_chars : Z → chars) (stod : chars → option Z).
Context (int_to_double : Z → Z) (double_add double_sub : Z → Z → Z).

(** The sign bit of a [double]. *)
Definition double_neg (bits : Z) : Z := Z.lxor bits (2 ^ 63).

(** [Value::toString]. *)
Fixpoint Value_toString (v : Value) : chars :=
  match v with
  | VNull => explode "NULL"
  | VParam _ => explode "?"
  | VComposite parts =>
      explode "(" ++
      (fix go (first : bool) (parts : list Value) : chars :=
         match parts with
         | [] => []
         | p :: parts => (if first then [] else explode ", ") ++ Value_toString p ++ go false parts
         end) true parts ++ explode ")"
  | VInt i => int_chars i
  | VDouble b => double_chars b
  | VString s => explode s
  end.

(** ** Evaluation *)

Definition requireNumeric (v : Value) (context : string) : result Value :=
  _ ← throw_if (isNull v) (runtime_error (String.append context " cannot be null"));
  t ← Value_type v;
  _ ← throw_if (negb (bool_decide (t = CT_Int)) && negb (bool_decide (t = CT_Double)))
        (runtime_error (String.append context " requires a numeric value"));
  Ok v.

Definition negateValue (v : Value) : result Value :=
  numeric ← requireNumeric v "unary minus";
  match numeric with
  | VInt i => Ok (VInt (wrap64 (- i)))
  | VDouble b => Ok (VDouble (double_neg b))
  | _ => Throw (logic_error "bad variant access")
  end.

(** The common shape of [addValues] and [subtractValues]. *)
Definition arithValues (context : string) (iop : Z → Z → Z) (dop : Z → Z → Z) (l r : Value) : result Value :=
  lhs ← requireNumeric l context;
  rhs ← requireNumeric r context;
  match lhs, rhs with
  | VInt a, VInt b => Ok (VInt (wrap64 (iop a b)))
  | VInt a, VDouble b => Ok (VDouble (dop (int_to_double a) b))
  | VDouble a, VInt b => Ok (VDouble (dop a (int_to_double b)))
  | VDouble a, VDouble b => Ok (VDouble (dop a b))
  | _, _ => Throw (logic_error "bad variant access")
  end.

Definition addValues : Value → Value → result Value := arithValues "addition" Z.add double_add.
Definition subtractValues : Value → Value → result Value := arithValues "subtraction" Z.sub double_sub.

Definition evaluateIndexExpression (e : IndexExpression) (row : Row) (lookup : string → option nat)
  : result Value :=
  match lookup (ie_column e) with
  | None => Throw (runtime_error "unknown expression index column")
  | Some index =>
      match row !! index with
      | None => Throw (out_of_range "vector index out of range")
      | Some base =>
          match ie_kind e with
          | K_Column => Ok base
          | K_Negate => negateValue base
          | K_Add => addValues base (ie_literal e)
          | K_Subtract => subtractValues base (ie_literal e)
          | K_Trigram => Ok base
          end
      end
  end.

(** ** Text *)

Definition indexExpressionToString (e : IndexExpression) : chars :=
  let column := explode (ie_column e) in
  match ie_kind e with
  | K_Column => column
  | K_Negate => explode "-" ++ column
  | K_Add => column ++ explode "+" ++ Value_toString (ie_literal e)
  | K_Subtract => column ++ explode "-" ++ Value_toString (ie_literal e)
  | K_Trigram => explode "trigram(" ++ column ++ explode ")"
  end.

Definition negate_literal (negative : bool) (v : Value) : Value :=
  match v with
  | VInt i => VInt (if negative then - i else i)
  | VDouble b => VDouble (if negative then double_neg b else b)
  | _ => v
  end.

Definition parseExpressionLiteral (text : chars) : option Value :=
  let text := trim text in
  match text with
  | [] => None
  | front :: tail =>
      if bool_decide (text = explode "NULL") then Some VNull
      else
        let negative := Ascii.eqb front "-" in
        let digits := if negative then tail else text in
        match digits with
        | [] => None
        | d :: _ =>
            if isdigit d || Ascii.eqb d "." then
              if existsb (λ c, Ascii.eqb c ".") digits then
                negate_literal negative <$> (VDouble <$> stod digits)
              else negate_literal negative <$> (VInt <$> from_chars digits)
            else Some (VString (implode text))
        end
  end.

Definition parseIndexExpressionString (text : chars) : option IndexExpression :=
  let text := trim text in
  match text with
  | [] => None
  | front :: tail =>
      if Ascii.eqb front "-" then
        (λ column, mkIndexExpression K_Negate column VNull) <$> tryParseIdentifier tail
      else if negb (isIdentStart front) then None
      else
        let '(more, rest) := ident_span tail in
        let column := implode (front :: more) in
        match rest with
        | [] => Some (mkIndexExpression K_Column column VNull)
        | c :: rest' =>
            if String.eqb column "trigram" && Ascii.eqb c "(" then
              match unsnoc rest' with
              | Some (inner, close) =>
                  if negb (Ascii.eqb close ")") then None
                  else (λ inner, mkIndexExpression K_Trigram inner VNull) <$> tryParseIdentifier (trim inner)
              | None => None
              end
            else if Ascii.eqb c "+" then
              mkIndexExpression K_Add column <$> parseExpressionLiteral rest'
            else if Ascii.eqb c "-" then
              mkIndexExpression K_Subtract column <$> parseExpressionLiteral rest'
            else None
        end
  end.

(** ** Index definitions in snapshot files *)

Definition kExpressionIndexPrefix : chars := explode "expr:".
Definition kCompositeIndexPrefix : chars := explode "cols:".

Fixpoint join_columns (columns : list string) : chars :=
  match columns with
  | [] => []
  | [c] => explode c
  | c :: columns => explode c ++ explode "," ++ join_columns columns
  end.

Definition encodeIndexDefinitionColumns (columns : list string) (expression : option IndexExpression)
  : result chars :=
  match expression with
  | Some e =>
      if negb (Nat.eqb (length columns) 1)
      then Throw (runtime_error "expression indexes must be single-column")
      else Ok (kExpressionIndexPrefix ++ indexExpressionToString e)
  | None =>
      match columns with
      | [] => Throw (runtime_error "index definition requires at least one column")
      | [c] => Ok (explode c)
      | _ => Ok (kCompositeIndexPrefix ++ join_columns columns)
      end
  end.

Definition encodeIndexDefinitionColumn (column : string) (expression : option IndexExpression)
  : result chars := encodeIndexDefinitionColumns [column] expression.

(** The text between commas. *)
Fixpoint split_commas (text : chars) : list chars :=
  match text with
  | [] => [[]]
  | c :: text =>
      if Ascii.eqb c "," then [] :: split_commas text
      else match split_commas text with
           | part :: parts => (c :: part) :: parts
           | [] => [[c]]
           end
  end.

Definition decodeIndexDefinitionColumns (encoded : chars)
  : result (list string * option IndexExpression) :=
  if bool_decide (take 5 encoded = kExpressionIndexPrefix) then
    match parseIndexExpressionString (drop 5 encoded) with
    | None => Throw (runtime_error "invalid expression index metadata")
    | Some e => Ok ([ie_column e], Some e)
    end
  else if bool_decide (take 5 encoded = kCompositeIndexPrefix) then
    let parts := split_commas (drop 5 encoded) in
    if existsb (λ p, bool_decide (p = [])) parts || Nat.ltb (length parts) 2
    then Throw (runtime_error "invalid composite index metadata")
    else Ok (implode <$> parts, None)
  else Ok ([implode encoded], None).

Definition decodeIndexDefinitionColumn (encoded : chars) : result (string * option IndexExpression) :=
  decoded ← decodeIndexDefinitionColumns encoded;
  match decoded.1 with
  | [] => Throw (runtime_error "invalid index metadata")
  | c :: _ => Ok (c, decoded.2)
  end.
End expression.

(** ** Text facts *)

Lemma implode_explode s : implode (explode s) = s.
Proof. apply String.string_of_list_ascii_of_string. Qed.

Lemma explode_app s1 s2 : explode (String.append s1 s2) = explode s1 ++ explode s2.
Proof. induction s1 as [|c s1 IH]; simpl; [done|]. by rewrite IH. Qed.

Definition uint_chars (n : N) : chars := explode (NilZero.string_of_uint (N.to_uint n)).

Lemma uint_digits d : Forall (λ c, isdigit c = true) (explode (NilEmpty.string_of_uint d)).
Proof. induction d; simpl; constructor; done. Qed.

Lemma to_uint_nonnil n : N.to_uint n <> Decimal.Nil.
Proof. destruct n as [|p]; simpl; [done|]. apply DecimalPos.Unsigned.to_uint_nonnil. Qed.

Lemma uint_chars_digits n : Forall (λ c, isdigit c = true) (uint_chars n) ∧ uint_chars n ≠ [].
Proof.
  unfold uint_chars. pose proof (to_uint_nonnil n) as Hn. destruct (N.to_uint n) eqn:E; [done|..];
    (split; [apply (uint_digits (_ _))|done]).
Qed.

Lemma int_chars_nonneg n : int_chars (Z.of_N n) = uint_chars n.
Proof. unfold int_chars, uint_chars. by destruct n. Qed.

Lemma int_chars_neg p : int_chars (Zneg p) = "-"%char :: uint_chars (Npos p).
Proof. done. Qed.

Lemma from_uint_chars n : (Z.of_N n < 2 ^ 63)%Z → from_chars (uint_chars n) = Some (Z.of_N n).
Proof.
  intros Hn. unfold from_chars, uint_chars. rewrite implode_explode, NilZero.usu by apply to_uint_nonnil.
  replace (Z.of_uint (N.to_uint n)) with (Z.of_N n).
  - apply Z.ltb_lt in Hn. by rewrite Hn.
  - unfold Z.of_uint. f_equal. symmetry. apply DecimalN.Unsigned.of_to.
Qed.

Lemma drop_spaces_id text : (∀ c l, text = c :: l → isspace c = false) → drop_spaces text = text.
Proof. destruct text as [|c l]; [done|]. intros H. simpl. by rewrite (H c l). Qed.

Lemma trim_id text : (∀ c l, text = c :: l → isspace c = false) →
  (∀ c l, text = l ++ [c] → isspace c = false) → trim text = text.
Proof.
  intros H1 H2. unfold trim. rewrite (drop_spaces_id text) by done. rewrite drop_spaces_id; [apply rev_involutive|].
  intros c l E. apply (H2 c (rev l)). by rewrite <- (rev_involutive text), E.
Qed.

Lemma isspace_digit c : isdigit c = true → isspace c = false.
Proof.
  unfold isdigit, isspace, code_in. intros [H1 H2]%andb_true_iff.
  apply Nat.leb_le in H1, H2. apply orb_false_iff. split; apply andb_false_iff; right; apply Nat.leb_gt; lia.
Qed.

Lemma trim_no_space text : Forall (λ c, isspace c = false) text → trim text = text.
Proof.
  intros H. apply trim_id.
  - intros c l ->. by inversion H.
  - intros c l ->. apply Forall_app in H as [_ H]. by inversion H.
Qed.

Lemma existsb_digits l (c : ascii) : Forall (λ c, isdigit c = true) l → isdigit c = false →
  existsb (λ d, Ascii.eqb d c) l = false.
Proof.
  intros H Hc. induction H as [|d l Hd _ IH]; simpl; [done|]. rewrite IH, orb_false_r.
  apply Ascii.eqb_neq. intros ->. congruence.
Qed.

Lemma parse_int_literal stod i : (- 2 ^ 63 < i < 2 ^ 63)%Z →
  parseExpressionLiteral stod (int_chars i) = Some (VInt i).
Proof.
  intros Hi.
  assert (∀ n, ∃ c l, uint_chars n = c :: l ∧ isdigit c = true ∧
                existsb (λ d, Ascii.eqb d "."%char) (c :: l) = false) as Hu.
  { intros n. destruct (uint_chars_digits n) as [Hd Hne].
    destruct (uint_chars n) as [|c l] eqn:E; [done|]. exists c, l. split; [done|].
    split; [by inversion Hd|]. by apply existsb_digits. }
  unfold parseExpressionLiteral.
  assert (trim (int_chars i) = int_chars i) as ->.
  { apply trim_no_space. destruct i as [|p|p].
    - by repeat constructor.
    - change (Zpos p) with (Z.of_N (Npos p)). rewrite int_chars_nonneg.
      eapply Forall_impl; [apply uint_chars_digits|]. apply isspace_digit.
    - rewrite int_chars_neg. constructor; [done|].
      eapply Forall_impl; [apply uint_chars_digits|]. apply isspace_digit. }
  destruct i as [|p|p]; [done| |].
  - change (Zpos p) with (Z.of_N (Npos p)). rewrite int_chars_nonneg.
    destruct (Hu (Npos p)) as (c & l & E & Hc & Hdot). rewrite E.
    assert (Ascii.eqb c "-" = false) as Hm by (apply Ascii.eqb_neq; by intros ->).
    rewrite bool_decide_eq_false_2 by (intros [= -> _]; done).
    rewrite Hm, Hc. cbn [orb]. rewrite Hdot, <- E, from_uint_chars by (simpl; lia). done.
  - rewrite int_chars_neg. destruct (Hu (Npos p)) as (c & l & E & Hc & Hdot). rewrite E.
    rewrite bool_decide_eq_false_2 by done. change (Ascii.eqb "-" "-") with true. cbv iota.
    rewrite Hc. cbn [orb]. rewrite Hdot, <- E, from_uint_chars by (simpl; lia). done.
Qed.

(** ** Round trips *)

(** An identifier as the tokenizer accepts it. *)
Definition identifier (s : string) : bool :=
  match explode s with c :: l => isIdentStart c && forallb isIdentContinue l | [] => false end.

(** The literals that survive the textual form. *)
Definition literal_ok (e : IndexExpression) : bool :=
  match ie_kind e, ie_literal e with
  | (K_Column | K_Negate | K_Trigram), VNull => true
  | (K_Add | K_Subtract), VNull => true
  | (K_Add | K_Subtract), VInt i => (- 2 ^ 63 <? i)%Z && (i <? 2 ^ 63)%Z
  | _, _ => false
  end.

Lemma ident_span_app a rest :
  forallb isIdentContinue a = true → (∀ c l, rest = c :: l → isIdentContinue c = false) →
  ident_span (a ++ rest) = (a, rest).
Proof.
  intros Ha Hr. induction a as [|c a IH]; simpl in *.
  - destruct rest as [|c l]; [done|]. simpl. by rewrite (Hr c l).
  - apply andb_true_iff in Ha as [Hc Ha]. by rewrite Hc, IH.
Qed.

Lemma isIdentContinue_space c : isIdentContinue c = true → isspace c = false.
Proof.
  unfold isIdentContinue, isalnum, isalpha, isspace, isdigit, code_in. intros H.
  destruct (nat_of_ascii c) eqn:E; [done|]. rewrite <- E in *. apply orb_false_iff.
  apply orb_true_iff in H as [[[H|H]%orb_true_iff|H]%orb_true_iff|H].
  1-3: apply andb_true_iff in H as [H1 H2]; apply Nat.leb_le in H1, H2;
       split; apply andb_false_iff; right; apply Nat.leb_gt; lia.
  apply Ascii.eqb_eq in H as ->. done.
Qed.

Lemma isIdentStart_continue c : isIdentStart c = true → isIdentContinue c = true.
Proof.
  unfold isIdentStart, isIdentContinue, isalnum. intros [->| ->]%orb_true_iff; [done|apply orb_true_r].
Qed.

Lemma identifier_chars s : identifier s = true →
  ∃ c l, explode s = c :: l ∧ isIdentStart c = true ∧ forallb isIdentContinue l = true ∧
         Forall (λ c, isspace c = false) (explode s) ∧ Ascii.eqb c "-" = false.
Proof.
  unfold identifier. destruct (explode s) as [|c l] eqn:E; [done|]. intros [Hc Hl]%andb_true_iff.
  exists c, l. split_and!; try done.
  - constructor; [by apply isIdentContinue_space, isIdentStart_continue|].
    apply Forall_forall. intros d Hd. apply isIdentContinue_space.
    rewrite forallb_forall in Hl. by apply Hl, list_elem_of_In.
  - apply Ascii.eqb_neq. by intros ->.
Qed.

Lemma tryParseIdentifier_ok s : identifier s = true → tryParseIdentifier (explode s) = Some s.
Proof.
  intros (c & l & E & Hc & Hl & _)%identifier_chars. rewrite E. cbn [tryParseIdentifier]. rewrite Hc. cbn [negb].
  rewrite <- (app_nil_r l) at 1. rewrite ident_span_app by done. by rewrite <- E, implode_explode.
Qed.

Section roundtrip.
Context (double_chars : Z → chars) (stod : chars → option Z).

(** Parsing [column + suffix], the suffix starting with an operator. *)
Lemma parse_column_suffix s op rest :
  identifier s = true → isIdentContinue op = false → Ascii.eqb op "(" = false →
  trim (explode s ++ op :: rest) = explode s ++ op :: rest →
  parseIndexExpressionString stod (explode s ++ op :: rest) =
  if Ascii.eqb op "+" then mkIndexExpression K_Add s <$> parseExpressionLiteral stod rest
  else if Ascii.eqb op "-" then mkIndexExpression K_Subtract s <$> parseExpressionLiteral stod rest
  else None.
Proof.
  intros (c & l & E & Hc & Hl & Hsp & Hm)%identifier_chars Hop Hpar Htrim.
  unfold parseIndexExpressionString. rewrite Htrim, E. cbn [app]. rewrite Hm, Hc. cbn [negb].
  rewrite ident_span_app; [|done|by intros ? ? [= <- <-]]. cbv beta iota zeta.
  rewrite <- E, implode_explode, Hpar, andb_false_r.
  done.
Qed.

Lemma int_chars_no_space i : Forall (λ c, isspace c = false) (int_chars i).
Proof.
  destruct i as [|p|p].
  - by repeat constructor.
  - change (Zpos p) with (Z.of_N (Npos p)). rewrite int_chars_nonneg.
    eapply Forall_impl; [apply uint_chars_digits|]. apply isspace_digit.
  - rewrite int_chars_neg. constructor; [done|].
    eapply Forall_impl; [apply uint_chars_digits|]. apply isspace_digit.
Qed.

Lemma literal_text v : v = VNull ∨ (∃ i, v = VInt i ∧ (- 2 ^ 63 < i < 2 ^ 63)%Z) →
  Forall (λ c, isspace c = false) (Value_toString double_chars v) ∧
  parseExpressionLiteral stod (Value_toString double_chars v) = Some v.
Proof.
  intros [->|(i & -> & Hi)]; [split; [by repeat constructor|done]|].
  split; [apply int_chars_no_space|by apply parse_int_literal].
Qed.

(** The textual form of an index expression is read back as the same
    expression, for every column name and every literal other than a [double] or
    the least integer. *)
Lemma index_expression_parse e :
  identifier (ie_column e) = true → literal_ok e = true →
  parseIndexExpressionString stod (indexExpressionToString double_chars e) = Some e.
Proof.
  destruct e as [kind s v]. intros Hs Hl. unfold indexExpressionToString. cbn [ie_kind ie_column ie_literal] in *.
  pose proof (identifier_chars s Hs) as (c & l & E & Hc & Hcl & Hsp & Hm).
  assert (kind = K_Add ∨ kind = K_Subtract → v = VNull ∨ ∃ i, v = VInt i ∧ (- 2 ^ 63 < i < 2 ^ 63)%Z) as Hv.
  { unfold literal_ok in Hl. cbn [ie_kind ie_literal] in Hl. intros [-> | ->]; destruct v; try done; auto;
      right; eexists; split; try done; apply andb_true_iff in Hl as [H1 H2];
      apply Z.ltb_lt in H1, H2; lia. }
  destruct kind.
  - unfold parseIndexExpressionString. rewrite trim_no_space by done. rewrite E at 1.
    rewrite Hm, Hc. cbn [negb]. rewrite <- (app_nil_r l) at 1. rewrite ident_span_app by done.
    rewrite <- E, implode_explode.
    unfold literal_ok in Hl. cbn [ie_kind ie_literal] in Hl. by destruct v.
  - unfold parseIndexExpressionString. rewrite trim_no_space by (by constructor). cbn [app explode].
    change (Ascii.eqb "-" "-") with true. cbv iota. rewrite tryParseIdentifier_ok by done.
    unfold literal_ok in Hl. cbn [ie_kind ie_literal] in Hl. by destruct v.
  - destruct (literal_text v) as [Hvs Hvp]; [by apply Hv; left|].
    cbn [explode app]. rewrite parse_column_suffix, Hvp; try done.
    apply trim_no_space, Forall_app. split; [done|by constructor].
  - destruct (literal_text v) as [Hvs Hvp]; [by apply Hv; right|].
    cbn [explode app]. rewrite parse_column_suffix, Hvp; try done.
    apply trim_no_space, Forall_app. split; [done|by constructor].
  - unfold parseIndexExpressionString. rewrite trim_no_space.
    2:{ apply Forall_app. split; [by repeat constructor|]. apply Forall_app. split; [done|by repeat constructor]. }
    change (explode "trigram(" ++ explode s ++ explode ")")
      with ("t"%char :: explode "rigram" ++ "("%char :: explode s ++ [")"%char]).
    cbv iota beta. change (Ascii.eqb "t" "-") with false. change (isIdentStart "t") with true. cbn [negb].
    rewrite ident_span_app; [|done|by intros ? ? [= <- <-]].
    change (String.eqb (implode ("t"%char :: explode "rigram")) "trigram") with true.
    change (Ascii.eqb "(" "(") with true. cbn [andb].
    rewrite (proj2 (unsnoc_Some _ _ _) eq_refl). change (Ascii.eqb ")" ")") with true. cbn [negb].
    rewrite trim_no_space, tryParseIdentifier_ok by done.
    unfold literal_ok in Hl. cbn [ie_kind ie_literal] in Hl. by destruct v.
Qed.

Lemma identifier_not_in s c : identifier s = true → isIdentContinue c = false → c ∉ explode s.
Proof.
  intros (d & l & E & Hd & Hl & _)%identifier_chars Hc. rewrite E. intros [->|Hin]%elem_of_cons.
  - apply isIdentStart_continue in Hd. congruence.
  - rewrite forallb_forall in Hl. apply list_elem_of_In, Hl in Hin. congruence.
Qed.

Lemma identifier_no_prefix s p : identifier s = true → ":"%char ∈ p → take 5 (explode s) ≠ p.
Proof.
  intros Hs Hp E. rewrite <- E in Hp. apply elem_of_take in Hp as (i & Hi & _).
  apply list_elem_of_lookup_2 in Hi. by apply (identifier_not_in s ":") in Hi.
Qed.

Lemma split_commas_part a rest : ","%char ∉ a →
  split_commas (a ++ "," %char :: rest) = a :: split_commas rest ∧ split_commas a = [a].
Proof.
  intros Ha. induction a as [|c a IH]; [done|]. apply not_elem_of_cons in Ha as [Hc Ha].
  destruct (IH Ha) as [E1 E2]. cbn [app split_commas].
  assert (Ascii.eqb c "," = false) as -> by (by apply Ascii.eqb_neq). by rewrite E1, E2.
Qed.

Lemma split_join cols : cols ≠ [] → Forall (λ s, identifier s = true) cols →
  split_commas (join_columns cols) = explode <$> cols.
Proof.
  intros Hn H. induction H as [|s cols Hs Hc IH]; [done|].
  pose proof (identifier_not_in s "," Hs eq_refl) as Hns.
  destruct cols as [|s2 cols]; [by apply (split_commas_part _ [])|].
  change (join_columns (s :: s2 :: cols)) with (explode s ++ ","%char :: join_columns (s2 :: cols)).
  rewrite (proj1 (split_commas_part _ _ Hns)), IH by done. done.
Qed.

(** The encoding of an index definition in a snapshot file is read back as the
    same definition: a single column, a composite column list or an expression. *)
Theorem index_definition_roundtrip columns expression :
  Forall (λ s, identifier s = true) columns → columns ≠ [] →
  (∀ e, expression = Some e → columns = [ie_column e] ∧ literal_ok e = true) →
  ∃ encoded, encodeIndexDefinitionColumns double_chars columns expression = Ok encoded ∧
             decodeIndexDefinitionColumns stod encoded = Ok (columns, expression).
Proof.
  intros Hcols Hne He. destruct expression as [e|].
  - destruct (He e eq_refl) as [-> Hl]. inversion Hcols as [|? ? Hs _]; subst.
    eexists. split; [done|]. unfold decodeIndexDefinitionColumns.
    rewrite bool_decide_eq_true_2 by done.
    change (drop 5 (kExpressionIndexPrefix ++ indexExpressionToString double_chars e))
      with (indexExpressionToString double_chars e).
    by rewrite index_expression_parse.
  - destruct columns as [|s [|s2 cols]]; [done| |].
    + inversion Hcols as [|? ? Hs _]; subst. eexists. split; [done|]. unfold decodeIndexDefinitionColumns.
      rewrite bool_decide_eq_false_2 by (apply identifier_no_prefix; [done|vm_compute; set_solver]).
      rewrite bool_decide_eq_false_2 by (apply identifier_no_prefix; [done|vm_compute; set_solver]).
      by rewrite implode_explode.
    + eexists. split; [done|]. unfold decodeIndexDefinitionColumns. cbn [app].
      rewrite bool_decide_eq_false_2 by done. rewrite bool_decide_eq_true_2 by done.
      change (drop 5 (kCompositeIndexPrefix ++ join_columns (s :: s2 :: cols)))
        with (join_columns (s :: s2 :: cols)).
      rewrite split_join by done.
      assert (existsb (λ p, bool_decide (p = [])) (explode <$> s :: s2 :: cols) = false) as ->.
      { apply not_true_iff_false. intros (p & Hp & E)%existsb_exists. apply bool_decide_eq_true in E as ->.
        apply list_elem_of_In, list_elem_of_fmap in Hp as (s0 & E0 & Hs0).
        rewrite Forall_forall in Hcols. apply Hcols, identifier_chars in Hs0 as (c & l & E1 & _). congruence. }
      rewrite length_fmap. cbn [length Nat.ltb Nat.leb orb].
      replace (implode <$> (explode <$> s :: s2 :: cols)) with (s :: s2 :: cols); [done|].
      rewrite <- list_fmap_compose. rewrite <- (list_fmap_id (s :: s2 :: cols)) at 1.
      apply list_fmap_ext. intros i x _. symmetry. apply implode_explode.
Qed.
End roundtrip.

Lemma index_definition_roundtrip_witness :
  ∃ encoded, encodeIndexDefinitionColumns (λ _, []) ["age"] (Some (mkIndexExpression K_Add "age" (VInt (-5))))
               = Ok encoded ∧ encoded = explode "expr:age+-5" ∧
             decodeIndexDefinitionColumns (λ _, None) encoded =
               Ok (["age"], Some (mkIndexExpression K_Add "age" (VInt (-5)))).
Proof.
  destruct (index_definition_roundtrip (λ _, []) (λ _, None) ["age"]
              (Some (mkIndexExpression K_Add "age" (VInt (-5))))) as (encoded & He & Hd).
  - by repeat constructor.
  - done.
  - by intros e [= <-].
  - exists encoded. split_and!; [exact He| |exact Hd]. vm_compute in He. by injection He as <-.
Defined.

(** A [double] literal that prints without a decimal point does not survive a
    snapshot: the reloaded index is defined by the integer literal, which is not
    the expression the index was created with. *)
Theorem double_literal_lost double_chars stod column bits i :
  identifier column = true → (0 ≤ i < 2 ^ 63)%Z → double_chars bits = int_chars i →
  let e := mkIndexExpression K_Add column (VDouble bits) in
  let e' := mkIndexExpression K_Add column (VInt i) in
  ∃ encoded, encodeIndexDefinitionColumns double_chars [column] (Some e) = Ok encoded ∧
    decodeIndexDefinitionColumns stod encoded = Ok ([column], Some e') ∧
    IndexExpression_eqb e e' = false.
Proof.
  intros Hc Hi Hd e e'. eexists. split; [done|]. split.
  - unfold decodeIndexDefinitionColumns. rewrite bool_decide_eq_true_2 by done.
    change (drop 5 (kExpressionIndexPrefix ++ indexExpressionToString double_chars e))
      with (indexExpressionToString double_chars e).
    assert (indexExpressionToString double_chars e = indexExpressionToString double_chars e') as ->.
    { unfold indexExpressionToString. simpl. by rewrite Hd. }
    rewrite index_expression_parse; [done|done|]. unfold literal_ok. simpl.
    apply andb_true_iff. split; apply Z.ltb_lt; lia.
  - unfold IndexExpression_eqb. simpl. by rewrite String.eqb_refl.
Qed.

(** [2.0] prints as [2]. *)
Lemma double_literal_lost_witness :
  ∃ encoded,
    encodeIndexDefinitionColumns (λ _, explode "2") ["x"]
      (Some (mkIndexExpression K_Add "x" (VDouble 0x4000000000000000))) = Ok encoded ∧
    decodeIndexDefinitionColumns (λ _, None) encoded =
      Ok (["x"], Some (mkIndexExpression K_Add "x" (VInt 2))).
Proof.
  destruct (double_literal_lost (λ _, explode "2") (λ _, None) "x" 0x4000000000000000 2)
    as (encoded & He & Hd & _); [done|lia|done|]. exists encoded. split; [exact He|exact Hd].
Defined.
