(* ===== verification/Predicate.v ===== *)
(** * Predicates: CHECK constraints and WHERE clauses

    [include/VertexDB/parser/predicate.hpp], [src/storage/check_eval.cpp] and
    [src/execution/predicate_eval.cpp].  CHECK constraints are evaluated in
    three-valued logic and reject a row only when they are false; WHERE clauses
    are evaluated in two-valued logic, with [NULL] an ordinary value.

    A subquery ([Select]) is only carried around here; its type is a parameter.
    [matchRegexPattern] wraps [std::regex] and is a parameter of [evalPredicate].
    [row[i]] outside the row throws. *)

From S2P Require Import Prelude Value StringPattern IndexExpression.
From Stdlib Require Import Ascii.
Local Open Scope nat_scope.

Section predicate.
Context {Select : Type}.

Inductive Predicate : Type :=
| ComparisonPred (column : string) (op : ComparisonOperator) (value : Value)
    (rhsColumn : option string) (expression : option IndexExpression) (referencesOuter : bool)
| AndPred (l r : Predicate)
| OrPred (l r : Predicate)
| InListPred (column : string) (inValues : list Value) (expression : option IndexExpression)
    (referencesOuter : bool)
| InSubqueryPred (column : string) (subquery : Select) (referencesOuter : bool)
| ExistsPred (subquery : Select) (referencesOuter : bool)
| LikePred (column pattern : string) (referencesOuter : bool)
| RegexPred (column pattern : string) (referencesOuter : bool).

Inductive PredicateKind : Type :=
| PK_Comparison | PK_And | PK_Or | PK_InSubquery | PK_InList | PK_Exists | PK_Like | PK_Regex.

Definition predicateKind (p : Predicate) : PredicateKind :=
  match p with
  | ComparisonPred _ _ _ _ _ _ => PK_Comparison
  | AndPred _ _ => PK_And
  | OrPred _ _ => PK_Or
  | InListPred _ _ _ _ => PK_InList
  | InSubqueryPred _ _ _ => PK_InSubquery
  | ExistsPred _ _ => PK_Exists
  | LikePred _ _ _ => PK_Like
  | RegexPred _ _ _ => PK_Regex
  end.

Fixpoint predicateReferencesOuter (p : Predicate) : bool :=
  match p with
  | AndPred l r | OrPred l r => predicateReferencesOuter l || predicateReferencesOuter r
  | ComparisonPred _ _ _ _ _ o | InListPred _ _ _ o | InSubqueryPred _ _ o | ExistsPred _ o
  | LikePred _ _ o | RegexPred _ _ o => o
  end.

Definition compareValues (l : Value) (op : ComparisonOperator) (r : Value) : bool :=
  match op with
  | Equal => Value_eqb l r
  | Greater => Value_ltb r l
  | Less => Value_ltb l r
  end.

Definition row_at (row : Row) (i : nat) : result Value :=
  match row !! i with Some v => Ok v | None => Throw (out_of_range "vector index out of range") end.

(** ** CHECK *)

Inductive TriBool : Type := TFalse | TTrue | TUnknown.

#[export] Instance TriBool_eq_dec : EqDecision TriBool.
Proof. solve_decision. Defined.

Definition tri_of_bool (b : bool) : TriBool := if b then TTrue else TFalse.

Definition not_simple : exn :=
  runtime_error "CHECK supports only column comparisons combined with AND / OR".

Definition check_column (row : Row) (lookup : string → option nat) (column : string) : result Value :=
  match lookup column with
  | None => Throw (runtime_error (String.append "unknown CHECK column " column))
  | Some i => row_at row i
  end.

Fixpoint evalCheckTri (p : Predicate) (row : Row) (lookup : string → option nat) : result TriBool :=
  match p with
  | AndPred l r =>
      left ← evalCheckTri l row lookup;
      if bool_decide (left = TFalse) then Ok TFalse
      else
        right ← evalCheckTri r row lookup;
        if bool_decide (right = TFalse) then Ok TFalse
        else if bool_decide (left = TTrue) && bool_decide (right = TTrue) then Ok TTrue
        else Ok TUnknown
  | OrPred l r =>
      left ← evalCheckTri l row lookup;
      if bool_decide (left = TTrue) then Ok TTrue
      else
        right ← evalCheckTri r row lookup;
        if bool_decide (right = TTrue) then Ok TTrue
        else if bool_decide (left = TFalse) && bool_decide (right = TFalse) then Ok TFalse
        else Ok TUnknown
  | ComparisonPred column op value rhsColumn expression _ =>
      match expression with
      | Some _ => Throw (runtime_error "CHECK does not support expression comparisons")
      | None =>
          leftValue ← check_column row lookup column;
          if isNull leftValue then Ok TUnknown
          else
            match rhsColumn with
            | Some rhs =>
                rightValue ← check_column row lookup rhs;
                if isNull rightValue then Ok TUnknown
                else Ok (tri_of_bool (compareValues leftValue op rightValue))
            | None =>
                if isNull value then Ok TUnknown
                else Ok (tri_of_bool (compareValues leftValue op value))
            end
      end
  | _ => Throw not_simple
  end.

Definition evalCheckPredicate (p : Predicate) (row : Row) (lookup : string → option nat) : result bool :=
  t ← evalCheckTri p row lookup; Ok (negb (bool_decide (t = TFalse))).

Fixpoint assertSimpleCheckConstraint (p : Predicate) : result unit :=
  match p with
  | AndPred l r | OrPred l r =>
      _ ← assertSimpleCheckConstraint l; assertSimpleCheckConstraint r
  | ComparisonPred _ _ value rhsColumn expression referencesOuter =>
      match expression with
      | Some _ => Throw (runtime_error "CHECK does not support expression comparisons")
      | None =>
          _ ← throw_if referencesOuter (runtime_error "CHECK cannot reference outer query columns");
          throw_if (bool_decide (rhsColumn = None) && isParameter value)
            (runtime_error "CHECK does not support parameter placeholders")
      end
  | _ => Throw not_simple
  end.

(** ** Printing a CHECK *)

Section print.
Context (double_chars : Z → chars).

(** A [double] literal gets [.0] when it prints as an integer. *)
Definition literalForCheck (v : Value) : result chars :=
  if isNull v then Ok (explode "NULL")
  else
    t ← Value_type v;
    match t, v with
    | CT_Double, VDouble b =>
        let text := double_chars b in
        if existsb (λ c, Ascii.eqb c "." || Ascii.eqb c "e" || Ascii.eqb c "E") text
        then Ok text else Ok (text ++ explode ".0")
    | CT_String, VString s =>
        let quote := ascii_of_nat 34 in
        let backslash := ascii_of_nat 92 in
        let escaped := flat_map (λ c, if Ascii.eqb c quote || Ascii.eqb c backslash
                                      then [backslash; c] else [c]) (explode s) in
        Ok (quote :: escaped ++ [quote])
    | _, _ => Ok (Value_toString double_chars v)
    end.

Definition op_text (op : ComparisonOperator) : chars :=
  explode (match op with Equal => "=" | Greater => ">" | Less => "<" end).

Fixpoint checkConstraintLiteral (p : Predicate) : result chars :=
  match p with
  | AndPred l r =>
      a ← checkConstraintLiteral l; b ← checkConstraintLiteral r;
      Ok (explode "(" ++ a ++ explode " AND " ++ b ++ explode ")")
  | OrPred l r =>
      a ← checkConstraintLiteral l; b ← checkConstraintLiteral r;
      Ok (explode "(" ++ a ++ explode " OR " ++ b ++ explode ")")
  | ComparisonPred column op value rhsColumn _ _ =>
      match rhsColumn with
      | Some rhs => Ok (explode column ++ explode " " ++ op_text op ++ explode " " ++ explode rhs)
      | None =>
          text ← literalForCheck value;
          Ok (explode column ++ explode " " ++ op_text op ++ explode " " ++ text)
      end
  | _ => Throw not_simple
  end.
End print.

(** ** WHERE *)

Section where_clause.
Context (matchRegexPattern : string → string → bool).
Context (int_to_double : Z → Z) (double_add double_sub : Z → Z → Z).

(** A function that finds a column; the one for joined rows can throw. *)
Definition ColumnLookup : Type := string → result (option nat).
Definition total_lookup (lookup : string → option nat) : ColumnLookup := λ column, Ok (lookup column).

Definition pred_column (row : Row) (lookup : ColumnLookup) (column : string) : result Value :=
  index ← lookup column;
  match index with
  | None => Throw (runtime_error "unknown predicate column")
  | Some i => row_at row i
  end.

(** The left operand of a comparison or an IN list. *)
Definition pred_operand (row : Row) (lookup : ColumnLookup) (column : string)
    (expression : option IndexExpression) : result Value :=
  match expression with
  | Some e =>
      index ← lookup (ie_column e);
      evaluateIndexExpression int_to_double double_add double_sub e row (λ _, index)
  | None => pred_column row lookup column
  end.

Definition match_text (f : string → string → bool) (row : Row) (lookup : ColumnLookup)
    (column pattern : string) : result bool :=
  v ← pred_column row lookup column;
  if isNull v then Ok false
  else
    t ← Value_type v;
    match t, v with
    | CT_String, VString s => Ok (f s pattern)
    | _, _ => Ok false
    end.

Fixpoint evalPredicate (p : Predicate) (row : Row) (lookup : ColumnLookup) : result bool :=
  match p with
  | AndPred l r =>
      a ← evalPredicate l row lookup; if a : bool then evalPredicate r row lookup else Ok false
  | OrPred l r =>
      a ← evalPredicate l row lookup; if a : bool then Ok true else evalPredicate r row lookup
  | InSubqueryPred _ _ _ => Throw (runtime_error "IN subquery must be materialized before evaluation")
  | ExistsPred _ _ => Throw (runtime_error "EXISTS must be evaluated by the executor")
  | LikePred column pattern _ => match_text matchLikePattern row lookup column pattern
  | RegexPred column pattern _ => match_text matchRegexPattern row lookup column pattern
  | InListPred column inValues expression _ =>
      leftValue ← pred_operand row lookup column expression;
      Ok (existsb (Value_eqb leftValue) inValues)
  | ComparisonPred column op value rhsColumn expression _ =>
      leftValue ← pred_operand row lookup column expression;
      match rhsColumn with
      | Some rhs => r ← pred_column row lookup rhs; Ok (compareValues leftValue op r)
      | None => Ok (compareValues leftValue op value)
      end
  end.
End where_clause.
End predicate.

Arguments Predicate : clear implicits.

(** ** Three-valued logic *)

Section check_spec.
Context {Select : Type}.
Implicit Types p : Predicate Select.

(** Kleene conjunction and disjunction: minimum and maximum of F < U < T. *)
Definition tri_rank (t : TriBool) : nat := match t with TFalse => 0 | TUnknown => 1 | TTrue => 2 end.
Definition tri_and (a b : TriBool) : TriBool := if Nat.leb (tri_rank a) (tri_rank b) then a else b.
Definition tri_or (a b : TriBool) : TriBool := if Nat.leb (tri_rank a) (tri_rank b) then b else a.

Fixpoint pred_columns p : list string :=
  match p with
  | AndPred l r | OrPred l r => pred_columns l ++ pred_columns r
  | ComparisonPred c _ _ rhs _ _ => c :: match rhs with Some d => [d] | None => [] end
  | InListPred c _ _ _ | InSubqueryPred c _ _ | LikePred c _ _ | RegexPred c _ _ => [c]
  | ExistsPred _ _ => []
  end.

Definition known (row : Row) (lookup : string → option nat) (column : string) : Prop :=
  ∃ i v, lookup column = Some i ∧ row !! i = Some v.

(** The value of a column, [NULL] where there is none. *)
Definition cell (row : Row) (lookup : string → option nat) (column : string) : Value :=
  match lookup column with Some i => default VNull (row !! i) | None => VNull end.

Definition tri_compare (l : Value) (op : ComparisonOperator) (r : Value) : TriBool :=
  if isNull l || isNull r then TUnknown else tri_of_bool (compareValues l op r).

(** The SQL meaning of a CHECK, without short circuits. *)
Fixpoint check_meaning p (row : Row) (lookup : string → option nat) : TriBool :=
  match p with
  | AndPred l r => tri_and (check_meaning l row lookup) (check_meaning r row lookup)
  | OrPred l r => tri_or (check_meaning l row lookup) (check_meaning r row lookup)
  | ComparisonPred c op value rhs _ _ =>
      tri_compare (cell row lookup c) op
        (match rhs with Some d => cell row lookup d | None => value end)
  | _ => TUnknown
  end.

Lemma check_column_known row lookup c : known row lookup c →
  check_column row lookup c = Ok (cell row lookup c).
Proof.
  intros (i & v & Hi & Hv). unfold check_column, cell, row_at. by rewrite Hi, Hv.
Qed.

Lemma evalCheckTri_meaning p row lookup :
  assertSimpleCheckConstraint p = Ok tt → Forall (known row lookup) (pred_columns p) →
  evalCheckTri p row lookup = Ok (check_meaning p row lookup).
Proof.
  induction p as [c op value rhs e o|l IHl r IHr|l IHl r IHr| | | | |]; simpl; intros Hs Hk; try done.
  - destruct e; [done|]. inversion Hk as [|? ? Hc Hk']; subst. rewrite check_column_known by done. simpl.
    unfold tri_compare. destruct (isNull (cell row lookup c)); [done|].
    destruct rhs as [d|].
    + inversion Hk' as [|? ? Hd _]; subst. rewrite check_column_known by done. simpl. by case_match.
    + simpl. by case_match.
  - inv_result Hs. destruct a. apply Forall_app in Hk as [Hkl Hkr].
    rewrite IHl, IHr by done. simpl. by destruct (check_meaning l row lookup), (check_meaning r row lookup).
  - inv_result Hs. destruct a. apply Forall_app in Hk as [Hkl Hkr].
    rewrite IHl, IHr by done. simpl. by destruct (check_meaning l row lookup), (check_meaning r row lookup).
Qed.

(** A CHECK accepted at definition time never fails to evaluate on a row that
    has its columns, and rejects the row exactly when its three-valued meaning is
    false: the short circuits of the evaluator do not change the Kleene value. *)
Theorem check_rejects_only_false p row lookup :
  assertSimpleCheckConstraint p = Ok tt → Forall (known row lookup) (pred_columns p) →
  evalCheckTri p row lookup = Ok (check_meaning p row lookup) ∧
  evalCheckPredicate p row lookup = Ok (negb (bool_decide (check_meaning p row lookup = TFalse))).
Proof.
  intros Hs Hk. pose proof (evalCheckTri_meaning p row lookup Hs Hk) as E.
  split; [done|]. unfold evalCheckPredicate. by rewrite E.
Qed.

(** Replacing nulls by values. *)
Definition more_defined (row row' : Row) : Prop :=
  Forall2 (λ v v', v = VNull ∨ v' = v) row row'.

Lemma cell_more_defined row row' lookup c : more_defined row row' →
  cell row lookup c = VNull ∨ cell row' lookup c = cell row lookup c.
Proof.
  intros H. unfold cell. destruct (lookup c) as [i|]; [|by left].
  destruct (row !! i) as [v|] eqn:E; simpl; [|by left].
  destruct (Forall2_lookup_l _ _ _ _ _ H E) as (v' & -> & Hv). simpl. exact Hv.
Qed.

(** NULL means unknown: when a CHECK has a definite value on a row with nulls,
    it keeps that value however the nulls are filled in. *)
Theorem check_null_monotone p row row' lookup :
  assertSimpleCheckConstraint p = Ok tt → Forall (known row lookup) (pred_columns p) →
  more_defined row row' → check_meaning p row lookup ≠ TUnknown →
  evalCheckTri p row' lookup = evalCheckTri p row lookup.
Proof.
  intros Hs Hk Hm Hu. rewrite !evalCheckTri_meaning; [|done|done|done|].
  - f_equal. clear Hs Hk. revert Hu.
    induction p as [c op value rhs e o|l IHl r IHr|l IHl r IHr| | | | |]; simpl; try done.
    + unfold tri_compare. destruct (cell_more_defined row row' lookup c Hm) as [->| ->]; [done|].
      destruct (isNull (cell row lookup c)); [done|]. cbn [orb]. destruct rhs as [d|]; [|done].
      destruct (cell_more_defined row row' lookup d Hm) as [->| ->]; done.
    + destruct (check_meaning l row lookup) eqn:El, (check_meaning r row lookup) eqn:Er; simpl; intros Hu;
        try (exfalso; by apply Hu); rewrite ?IHl, ?IHr by done;
        try (by destruct (check_meaning l row' lookup)); by destruct (check_meaning r row' lookup).
    + destruct (check_meaning l row lookup) eqn:El, (check_meaning r row lookup) eqn:Er; simpl; intros Hu;
        try (exfalso; by apply Hu); rewrite ?IHl, ?IHr by done;
        try (by destruct (check_meaning l row' lookup)); by destruct (check_meaning r row' lookup).
  - eapply Forall_impl; [exact Hk|]. intros c (i & v & Hi & Hv).
    destruct (Forall2_lookup_l _ _ _ _ _ Hm Hv) as (v' & Hv' & _). by exists i, v'.
Qed.

(** A predicate without nulls on a row. *)
Fixpoint null_free p (row : Row) (lookup : string → option nat) : Prop :=
  match p with
  | AndPred l r | OrPred l r => null_free l row lookup ∧ null_free r row lookup
  | ComparisonPred c _ value rhs _ _ =>
      isNull (cell row lookup c) = false ∧
      match rhs with Some d => isNull (cell row lookup d) = false | None => isNull value = false end
  | _ => True
  end.

(** Where no null is involved, a WHERE clause and a CHECK with the same
    predicate agree: the two-valued and the three-valued evaluators coincide. *)
Theorem where_check_agree p row lookup regex i2d dadd dsub :
  assertSimpleCheckConstraint p = Ok tt → Forall (known row lookup) (pred_columns p) →
  null_free p row lookup →
  ∃ b, evalPredicate regex i2d dadd dsub p row (total_lookup lookup) = Ok b ∧
       evalCheckTri p row lookup = Ok (tri_of_bool b).
Proof.
  intros Hs Hk Hn. rewrite evalCheckTri_meaning by done. revert Hs Hk Hn.
  induction p as [c op value rhs e o|l IHl r IHr|l IHl r IHr| | | | |]; simpl; intros Hs Hk Hn; try done.
  - destruct e; [done|]. destruct Hn as [Hc Hr]. inversion Hk as [|? ? (i & v & Hi & Hv) Hk']; subst.
    unfold pred_operand, pred_column, total_lookup, row_at, tri_compare. cbn [mbind result_bind]. unfold cell in *. rewrite Hi, Hv in *. simpl in *.
    rewrite Hc. destruct rhs as [d|]; [|rewrite Hr; by eexists].
    inversion Hk' as [|? ? (j & w & Hj & Hw) _]; subst. rewrite Hj, Hw in *. simpl in *. rewrite Hr. by eexists.
  - inv_result Hs. destruct a. apply Forall_app in Hk as [Hkl Hkr]. destruct Hn as [Hnl Hnr].
    destruct IHl as (a & -> & [= ->]); [done..|]. destruct IHr as (b & -> & [= ->]); [done..|]. simpl.
    destruct a, b; by eexists.
  - inv_result Hs. destruct a. apply Forall_app in Hk as [Hkl Hkr]. destruct Hn as [Hnl Hnr].
    destruct IHl as (a & -> & [= ->]); [done..|]. destruct IHr as (b & -> & [= ->]); [done..|]. simpl.
    destruct a, b; by eexists.
Qed.
End check_spec.

(** *** Witnesses *)

Definition example_check : Predicate unit :=
  OrPred (ComparisonPred "a" Greater (VInt 0) None None false)
         (ComparisonPred "b" Less VNull (Some "a") None false).
Definition example_lookup (s : string) : option nat :=
  if String.eqb s "a" then Some 0 else if String.eqb s "b" then Some 1 else None.

Lemma example_known v w : Forall (known [v; w] example_lookup) (pred_columns example_check).
Proof. repeat constructor; [by exists 0, v|by exists 1, w|by exists 0, v]. Qed.

Lemma check_rejects_only_false_witness :
  evalCheckPredicate example_check [VInt (-1); VNull] example_lookup = Ok true ∧
  evalCheckPredicate example_check [VInt (-1); VInt 4] example_lookup = Ok false.
Proof.
  split.
  - rewrite (proj2 (check_rejects_only_false example_check [VInt (-1); VNull] example_lookup
                      eq_refl (example_known _ _))). reflexivity.
  - rewrite (proj2 (check_rejects_only_false example_check [VInt (-1); VInt 4] example_lookup
                      eq_refl (example_known _ _))). reflexivity.
Defined.

Lemma check_null_monotone_witness :
  evalCheckTri example_check [VInt 3; VInt 9] example_lookup =
  evalCheckTri example_check [VInt 3; VNull] example_lookup.
Proof.
  apply check_null_monotone; [reflexivity|apply example_known| |discriminate].
  constructor; [by right|]. constructor; [by left|constructor].
Defined.

Lemma where_check_agree_witness :
  ∃ b, evalPredicate (λ _ _, false) (λ z, z) Z.add Z.sub example_check [VInt (-1); VInt (-5)]
         (total_lookup example_lookup) = Ok b ∧
       evalCheckTri example_check [VInt (-1); VInt (-5)] example_lookup = Ok (tri_of_bool b).
Proof. apply where_check_agree; [reflexivity|apply example_known|by repeat split]. Defined.
