(* ===== verification/SetOps.v ===== *)
(** * Set operations and projection

    [src/execution/set_ops.cpp] (UNION, INTERSECT, EXCEPT and their ALL forms) and
    the projection, LIMIT and column resolution of [src/execution/select_helpers.cpp].

    An [unordered_set<Row>] is the list of its rows, an [unordered_map<Row, size_t>]
    an association list, both searched with the rows' [==]; [RowHash] gives equal
    rows equal hashes ([RowHash_equal]), so the hash buckets cannot separate them. *)

From S2P Require Import Prelude Value HashIndex StringPattern.
From Stdlib Require Import Ascii.
Local Open Scope nat_scope.

Record QueryResult : Type := mkQueryResult {
  qr_success : bool;
  qr_message : string;
  qr_columns : list string;
  qr_rows : list Row
}.

Inductive SetOpKind : Type :=
| SO_Union | SO_UnionAll | SO_Intersect | SO_IntersectAll | SO_Except | SO_ExceptAll.

(** [==] of two rows. *)
Definition row_eqb : Row → Row → bool := list_eqb Value_eqb.

Section hash.
Context (hash_int64 : Z → Z) (hash_double : Z → Z) (hash_string : string → Z).

Definition hashValue (v : Value) : result Z :=
  match v with
  | VNull => Ok golden
  | VInt i => Ok (hash_int64 i)
  | VDouble b => Ok (hash_double b)
  | VString s => Ok (hash_string s)
  | _ => _ ← Value_type v; Ok 0%Z
  end.

Fixpoint row_hash_loop (row : Row) (h : Z) : result Z :=
  match row with
  | [] => Ok h
  | v :: row => hv ← hashValue v; row_hash_loop row (hash_combine h hv)
  end.

Definition RowHash (row : Row) : result Z := row_hash_loop row (Z.of_nat (length row) mod 2 ^ 64).
End hash.

Definition setOpKindName (op : SetOpKind) : string :=
  match op with
  | SO_Union => "union"
  | SO_UnionAll => "union all"
  | SO_Intersect => "intersect"
  | SO_IntersectAll => "intersect all"
  | SO_Except => "except"
  | SO_ExceptAll => "except all"
  end.

Definition requireCompatibleSetOpSchemas (l r : QueryResult) : result unit :=
  _ ← throw_if (negb (qr_success l)) (runtime_error (qr_message l));
  _ ← throw_if (negb (qr_success r)) (runtime_error (qr_message r));
  _ ← throw_if (negb (Nat.eqb (length (qr_columns l)) (length (qr_columns r))))
        (runtime_error "set operation requires equal column counts");
  _ ← throw_if (existsb (λ row, negb (Nat.eqb (length row) (length (qr_columns l)))) (qr_rows l))
        (runtime_error "set operation left row width mismatch");
  throw_if (existsb (λ row, negb (Nat.eqb (length row) (length (qr_columns r)))) (qr_rows r))
    (runtime_error "set operation right row width mismatch").

(** [set.contains(row)]. *)
Definition set_contains (row : Row) (set : list Row) : bool := existsb (row_eqb row) set.

(** The rows that pass [keep] and are new, given the rows emitted so far. *)
Fixpoint emit_new (keep : Row → bool) (emitted : list Row) (rows : list Row) : list Row :=
  match rows with
  | [] => []
  | row :: rows =>
      if keep row && negb (set_contains row emitted)
      then row :: emit_new keep (emitted ++ [row]) rows
      else emit_new keep emitted rows
  end.

Definition deduplicateRows (rows : list Row) : list Row := emit_new (λ _, true) [] rows.

(** [counts.find(row)->second], 0 when there is no entry. *)
Fixpoint count_of (row : Row) (counts : list (Row * nat)) : nat :=
  match counts with
  | [] => 0
  | (r, n) :: counts => if row_eqb r row then n else count_of row counts
  end.

Fixpoint count_update (f : nat → nat) (row : Row) (counts : list (Row * nat)) : list (Row * nat) :=
  match counts with
  | [] => [(row, f 0)]
  | (r, n) :: counts => if row_eqb r row then (r, f n) :: counts else (r, n) :: count_update f row counts
  end.

Definition count_rows (rows : list Row) : list (Row * nat) :=
  foldl (λ counts row, count_update S row counts) [] rows.

Fixpoint intersect_all (rows : list Row) (counts : list (Row * nat)) : list Row :=
  match rows with
  | [] => []
  | row :: rows =>
      if Nat.ltb 0 (count_of row counts)
      then row :: intersect_all rows (count_update pred row counts)
      else intersect_all rows counts
  end.

Fixpoint except_all (rows : list Row) (counts : list (Row * nat)) : list Row :=
  match rows with
  | [] => []
  | row :: rows =>
      if Nat.ltb 0 (count_of row counts)
      then except_all rows (count_update pred row counts)
      else row :: except_all rows counts
  end.

Definition set_op_rows (op : SetOpKind) (l r : list Row) : list Row :=
  match op with
  | SO_UnionAll => l ++ r
  | SO_Union => deduplicateRows (l ++ r)
  | SO_Intersect => emit_new (λ row, set_contains row r) [] l
  | SO_IntersectAll => intersect_all l (count_rows r)
  | SO_Except => emit_new (λ row, negb (set_contains row r)) [] l
  | SO_ExceptAll => except_all l (count_rows r)
  end.

Definition applySetOperation (op : SetOpKind) (l r : QueryResult) : result QueryResult :=
  _ ← requireCompatibleSetOpSchemas l r;
  Ok (mkQueryResult true "selected rows" (qr_columns l) (set_op_rows op (qr_rows l) (qr_rows r))).

(** ** Projection *)

Fixpoint project_row (row : Row) (projection : list nat) : result Row :=
  match projection with
  | [] => Ok []
  | i :: projection =>
      match row !! i with
      | Some v => rest ← project_row row projection; Ok (v :: rest)
      | None => Throw (out_of_range "vector index out of range")
      end
  end.

(** The loop pushes a row, then tests the limit. *)
Fixpoint project_loop (rows : list Row) (projection : list nat) (limit : option nat) (acc : list Row)
  : result (list Row) :=
  match rows with
  | [] => Ok acc
  | row :: rows =>
      projected ← project_row row projection;
      let acc := acc ++ [projected] in
      match limit with
      | Some n => if Nat.leb n (length acc) then Ok acc else project_loop rows projection limit acc
      | None => project_loop rows projection limit acc
      end
  end.

Definition projectWithLimit (rows : list Row) (projection : list nat) (columns : list string)
    (limit : option nat) (message : string) : result QueryResult :=
  rows ← project_loop rows projection limit [];
  Ok (mkQueryResult true message columns rows).

(** ** Column references *)

Fixpoint exact_column (columns : list string) (requested : string) (i : nat) : option nat :=
  match columns with
  | [] => None
  | c :: columns => if String.eqb c requested then Some i else exact_column columns requested (S i)
  end.

(** Whether a column ends in [suffix]. *)
Definition has_suffix (suffix column : chars) : bool :=
  Nat.leb (length suffix) (length column) &&
  bool_decide (drop (length column - length suffix) column = suffix).

Fixpoint suffix_column (columns : list string) (suffix : chars) (i : nat) (found : option nat)
  : result (option nat) :=
  match columns with
  | [] => Ok found
  | c :: columns =>
      if has_suffix suffix (explode c) then
        match found with
        | Some _ => Throw (runtime_error "ambiguous column reference")
        | None => suffix_column columns suffix (S i) (Some i)
        end
      else suffix_column columns suffix (S i) found
  end.

Definition resolveResultColumn (columns : list string) (requested : string) : result (option nat) :=
  match exact_column columns requested 0 with
  | Some i => Ok (Some i)
  | None => suffix_column columns (explode "." ++ explode requested) 0 None
  end.

Definition messageResult (success : bool) (message : string) : QueryResult :=
  mkQueryResult success message [] [].

(** ** Multiplicities *)

Definition row_ok (row : Row) : Prop := comparable (VComposite row).

(** How often a row occurs, up to [==]. *)
Definition mult (row : Row) (rows : list Row) : nat := length (filter (λ r, row_eqb r row = true) rows).

Lemma row_eqb_composite r s : row_eqb r s = Value_eqb (VComposite r) (VComposite s).
Proof. done. Qed.

Lemma row_eqb_refl r : row_ok r → row_eqb r r = true.
Proof. apply Value_eqb_refl. Qed.
Lemma row_eqb_sym r s : row_ok r → row_ok s → row_eqb r s = row_eqb s r.
Proof. apply Value_eqb_sym. Qed.
Lemma row_eqb_trans a b c : row_ok a → row_ok b → row_ok c → row_eqb a b = true → row_eqb a c = row_eqb b c.
Proof. apply Value_eqb_trans. Qed.
Lemma row_eqb_trans_r a b c : row_ok a → row_ok b → row_ok c → row_eqb a b = true → row_eqb c a = row_eqb c b.
Proof. apply Value_eqb_trans_r. Qed.

Lemma mult_cons r row rows : mult r (row :: rows) = (if row_eqb row r then 1 else 0) + mult r rows.
Proof.
  unfold mult. destruct (row_eqb row r) eqn:E.
  - by rewrite filter_cons_True.
  - rewrite filter_cons_False by congruence. done.
Qed.

Lemma mult_app r l1 l2 : mult r (l1 ++ l2) = mult r l1 + mult r l2.
Proof. unfold mult. by rewrite filter_app, length_app. Qed.

Lemma set_contains_mult r rows : row_ok r → Forall row_ok rows →
  set_contains r rows = Nat.ltb 0 (mult r rows).
Proof.
  intros Hr H. unfold set_contains. induction H as [|row rows Hrow _ IH]; [done|]. simpl.
  rewrite mult_cons, IH, (row_eqb_sym r row) by done. by destruct (row_eqb row r).
Qed.

Lemma emit_new_mult keep r emitted rows :
  row_ok r → Forall row_ok rows → Forall row_ok emitted →
  (∀ a b, row_ok a → row_ok b → row_eqb a b = true → keep a = keep b) →
  mult r (emit_new keep emitted rows) =
  if keep r && Nat.ltb 0 (mult r rows) && Nat.eqb (mult r emitted) 0 then 1 else 0.
Proof.
  intros Hr Hrows He Hkeep. revert emitted He.
  induction Hrows as [|row rows Hrow Hrows IH]; intros emitted He; cbn [emit_new].
  - by rewrite andb_false_r.
  - rewrite mult_cons, set_contains_mult by done.
    destruct (row_eqb row r) eqn:E.
    + rewrite (Hkeep row r) by done.
      assert (mult row emitted = mult r emitted) as ->.
      { unfold mult. f_equal. apply filter_ext_in. eapply Forall_impl; [exact He|]. intros x Hx.
        by rewrite (row_eqb_trans_r row r x). }
      destruct (keep r); cbn [andb].
      * destruct (mult r emitted) eqn:Em; cbn [Nat.ltb Nat.leb negb].
        -- rewrite mult_cons, E, IH, mult_app, mult_cons, E, Em by (apply Forall_app; split; [done|by constructor]).
           simpl. by rewrite andb_false_r.
        -- rewrite IH, Em by done. simpl. by rewrite !andb_false_r.
      * rewrite IH by done. done.
    + destruct (keep row && negb (Nat.ltb 0 (mult row emitted))).
      * rewrite mult_cons, E, IH, mult_app, mult_cons, E by (apply Forall_app; split; [done|by constructor]).
        simpl. by rewrite Nat.add_0_r.
      * by rewrite IH.
Qed.

Definition counts_ok (counts : list (Row * nat)) : Prop := Forall (λ c, row_ok c.1) counts.

Lemma count_of_update f r row counts : row_ok r → row_ok row → counts_ok counts →
  count_of r (count_update f row counts) =
  if row_eqb row r then f (count_of row counts) else count_of r counts.
Proof.
  intros Hr Hrow H. induction H as [|[x n] counts Hx _ IH]; simpl; [by destruct (row_eqb row r)|].
  simpl in Hx. destruct (row_eqb x row) eqn:E; simpl.
  - rewrite (row_eqb_trans x row r) by done. by destruct (row_eqb row r).
  - rewrite IH. destruct (row_eqb x r) eqn:E2; [|done]. destruct (row_eqb row r) eqn:E3; [|done].
    rewrite (row_eqb_trans_r row r x) in E by done. congruence.
Qed.

Lemma count_of_eqb a b counts : row_ok a → row_ok b → counts_ok counts → row_eqb a b = true →
  count_of a counts = count_of b counts.
Proof.
  intros Ha Hb Hc E. induction Hc as [|[x n] counts Hx _ IHc]; simpl; [done|].
  simpl in Hx. by rewrite (row_eqb_trans_r a b x), IHc.
Qed.

Lemma counts_ok_update f row counts : row_ok row → counts_ok counts → counts_ok (count_update f row counts).
Proof.
  intros Hrow H. induction H as [|[x n] counts Hx Hc IH]; simpl; [by repeat constructor|].
  case_match; constructor; done.
Qed.

Lemma count_rows_mult r rows : row_ok r → Forall row_ok rows →
  count_of r (count_rows rows) = mult r rows ∧ counts_ok (count_rows rows).
Proof.
  intros Hr H. induction rows as [|row rows IH] using rev_ind; [split; [done|constructor]|].
  apply Forall_app in H as [H Hrow]. inversion Hrow; subst. destruct (IH H) as [E Hok].
  unfold count_rows. rewrite foldl_app. simpl. fold (count_rows rows). split; [|by apply counts_ok_update].
  rewrite count_of_update, mult_app, mult_cons by done. destruct (row_eqb row r) eqn:Er.
  - rewrite (count_of_eqb row r), E by done. cbn. lia.
  - rewrite E. cbn. lia.
Qed.

Lemma intersect_all_mult r rows counts : row_ok r → Forall row_ok rows → counts_ok counts →
  mult r (intersect_all rows counts) = Nat.min (mult r rows) (count_of r counts).
Proof.
  intros Hr H. revert counts. induction H as [|row rows Hrow _ IH]; intros counts Hc; [done|].
  cbn [intersect_all]. rewrite mult_cons. destruct (Nat.ltb_spec 0 (count_of row counts)) as [Hlt|Hle].
  - rewrite mult_cons, IH, count_of_update by (try done; by apply counts_ok_update).
    destruct (row_eqb row r) eqn:E; [|done].
    rewrite (count_of_eqb row r) in Hlt |- * by done. lia.
  - rewrite IH by done. destruct (row_eqb row r) eqn:E; [|done].
    rewrite (count_of_eqb row r) in Hle by done. lia.
Qed.

Lemma except_all_mult r rows counts : row_ok r → Forall row_ok rows → counts_ok counts →
  mult r (except_all rows counts) = mult r rows - count_of r counts.
Proof.
  intros Hr H. revert counts. induction H as [|row rows Hrow _ IH]; intros counts Hc; [done|].
  cbn [except_all]. rewrite mult_cons. destruct (Nat.ltb_spec 0 (count_of row counts)) as [Hlt|Hle].
  - rewrite IH, count_of_update by (try done; by apply counts_ok_update).
    destruct (row_eqb row r) eqn:E; [|done].
    rewrite (count_of_eqb row r) in Hlt |- * by done. lia.
  - rewrite mult_cons, IH by done. destruct (row_eqb row r) eqn:E; [|done].
    rewrite (count_of_eqb row r) in Hle by done. lia.
Qed.

(** The rows that come out are rows that went in, in the same order. *)
Lemma emit_new_sublist keep emitted rows : emit_new keep emitted rows `sublist_of` rows.
Proof.
  revert emitted. induction rows as [|row rows IH]; intros emitted; simpl; [done|].
  case_match; [by apply sublist_skip|by apply sublist_cons].
Qed.

Lemma intersect_all_sublist rows counts : intersect_all rows counts `sublist_of` rows.
Proof.
  revert counts. induction rows as [|row rows IH]; intros counts; simpl; [done|].
  case_match; [by apply sublist_skip|by apply sublist_cons].
Qed.

Lemma except_all_sublist rows counts : except_all rows counts `sublist_of` rows.
Proof.
  revert counts. induction rows as [|row rows IH]; intros counts; simpl; [done|].
  case_match; [by apply sublist_cons|by apply sublist_skip].
Qed.

(** The SQL multiplicity of a row after a set operation. *)
Definition set_op_mult (op : SetOpKind) (l r : nat) : nat :=
  match op with
  | SO_UnionAll => l + r
  | SO_Union => Nat.min 1 (l + r)
  | SO_Intersect => Nat.min 1 (Nat.min l r)
  | SO_IntersectAll => Nat.min l r
  | SO_Except => if Nat.eqb r 0 then Nat.min 1 l else 0
  | SO_ExceptAll => l - r
  end.



(** ** Projection *)

Definition project_all (rows : list Row) (projection : list nat) : result (list Row) :=
  mapM (λ row, project_row row projection) rows.

Lemma project_all_cons row rows projection projected :
  project_all (row :: rows) projection = Ok projected →
  ∃ p ps, projected = p :: ps ∧ project_row row projection = Ok p ∧ project_all rows projection = Ok ps.
Proof.
  unfold project_all. cbn [mapM]. intros H. inv_result H.
  injection H as <-. eauto.
Qed.

Lemma project_loop_spec rows projection limit acc projected :
  project_all rows projection = Ok projected →
  match limit with Some n => length acc < n | None => True end →
  project_loop rows projection limit acc =
  Ok (acc ++ match limit with Some n => take (n - length acc) projected | None => projected end).
Proof.
  revert acc projected. induction rows as [|row rows IH]; intros acc projected Hp Hl.
  - injection Hp as <-. simpl. destruct limit; by rewrite ?take_nil, app_nil_r.
  - apply project_all_cons in Hp as (p & ps & -> & Hrow & Hrows). simpl. rewrite Hrow. simpl.
    destruct limit as [n|].
    + rewrite length_app. simpl. destruct (Nat.leb_spec n (length acc + 1)).
      * replace (n - length acc) with 1 by lia. done.
      * rewrite (IH _ ps); [|done|rewrite length_app; simpl; lia]. rewrite length_app, <- app_assoc. simpl.
        replace (n - length acc) with (S (n - (length acc + 1))) by lia. done.
    + rewrite (IH _ ps) by done. by rewrite <- app_assoc.
Qed.

(** A positive LIMIT keeps that many projected rows from the front, no LIMIT
    keeps them all; but LIMIT 0 returns one row when there is one, since the limit
    is tested after the row is added. *)
Theorem project_limit rows projection columns limit message projected :
  project_all rows projection = Ok projected →
  projectWithLimit rows projection columns limit message =
  Ok (mkQueryResult true message columns
        (match limit with
         | None => projected
         | Some 0 => take 1 projected
         | Some n => take n projected
         end)).
Proof.
  intros Hp. unfold projectWithLimit. destruct limit as [[|n]|].
  - destruct rows as [|row rows]; [by injection Hp as <-|].
    apply project_all_cons in Hp as (p & ps & -> & Hrow & _). simpl. by rewrite Hrow.
  - rewrite (project_loop_spec _ _ (Some (S n)) [] projected) by (try done; simpl; lia). done.
  - by rewrite (project_loop_spec _ _ None [] projected).
Qed.

Lemma project_limit_witness :
  projectWithLimit [[VInt 1; VInt 2]; [VInt 3; VInt 4]] [1] ["b"] (Some 0) "selected rows" =
  Ok (mkQueryResult true "selected rows" ["b"] [[VInt 2]]).
Proof.
  exact (project_limit [[VInt 1; VInt 2]; [VInt 3; VInt 4]] [1] ["b"] (Some 0) "selected rows"
           [[VInt 2]; [VInt 4]] eq_refl).
Defined.

(** ** Column references *)

Lemma exact_column_spec columns requested k :
  match exact_column columns requested k with
  | Some i => ∃ j, i = k + j ∧ columns !! j = Some requested ∧ ∀ j', j' < j → columns !! j' ≠ Some requested
  | None => requested ∉ columns
  end.
Proof.
  revert k. induction columns as [|c columns IH]; intros k; simpl; [set_solver|].
  destruct (String.eqb_spec c requested) as [->|Hne].
  - exists 0. split_and!; [lia|done|lia].
  - specialize (IH (S k)). destruct (exact_column columns requested (S k)) as [i|].
    + destruct IH as (j & -> & Hj & Hlt). exists (S j). split_and!; [lia|done|].
      intros [|j'] Hj'; simpl; [congruence|]. apply Hlt. lia.
    + set_solver.
Qed.

(** Positions of the columns that end in the suffix. *)
Fixpoint suffix_hits (columns : list string) (suffix : chars) (i : nat) : list nat :=
  match columns with
  | [] => []
  | c :: columns =>
      (if has_suffix suffix (explode c) then [i] else []) ++ suffix_hits columns suffix (S i)
  end.

Lemma suffix_column_spec columns suffix k found :
  suffix_column columns suffix k found =
  match (match found with Some i => [i] | None => [] end) ++ suffix_hits columns suffix k with
  | [] => Ok None
  | [i] => Ok (Some i)
  | _ => Throw (runtime_error "ambiguous column reference")
  end.
Proof.
  revert k found. induction columns as [|c columns IH]; intros k found; simpl.
  - by destruct found.
  - destruct (has_suffix suffix (explode c)); destruct found as [i|]; rewrite ?IH; done.
Qed.

(** A column reference names the first column of exactly that name; without
    one, the only column that ends in a dot and the name; it is unknown when there
    is no such column and an error when there are several. *)
Theorem resolve_column_spec columns requested :
  (∀ i, resolveResultColumn columns requested = Ok (Some i) →
     columns !! i = Some requested ∧ (∀ j, j < i → columns !! j ≠ Some requested) ∨
     requested ∉ columns ∧ suffix_hits columns (explode "." ++ explode requested) 0 = [i]) ∧
  (resolveResultColumn columns requested = Ok None ↔
     requested ∉ columns ∧ suffix_hits columns (explode "." ++ explode requested) 0 = []) ∧
  ((∃ e, resolveResultColumn columns requested = Throw e) ↔
     requested ∉ columns ∧ 2 ≤ length (suffix_hits columns (explode "." ++ explode requested) 0)).
Proof.
  unfold resolveResultColumn. pose proof (exact_column_spec columns requested 0) as H.
  destruct (exact_column columns requested 0) as [i|].
  - destruct H as (j & -> & Hj & Hlt). apply list_elem_of_lookup_2 in Hj as Hin.
    split_and!; [|by split; [done|intros [? _]]|split; [by intros [e ?]|by intros [? _]]].
    intros i [= <-]. left. done.
  - rewrite suffix_column_spec. simpl.
    destruct (suffix_hits columns ("."%char :: explode requested) 0) as [|i1 [|i2 l]].
    + split_and!; [done|done|]. split; [by intros [e ?]|intros [_ ?]; simpl in *; lia].
    + split_and!; [|by split; [done|intros [_ ?]]|].
      * intros i [= <-]. by right.
      * split; [by intros [e ?]|intros [_ ?]; simpl in *; lia].
    + split_and!; [done|by split; [done|intros [_ ?]]|].
      split; [intros _; split; [done|simpl; lia]|by eexists].
Qed.

(** ** Hashing *)

Lemma row_eqb_length r s : row_eqb r s = true → length r = length s.
Proof.
  unfold row_eqb. revert s. induction r as [|v r IH]; intros [|w s]; simpl; try done.
  intros [_ H]%andb_true_iff. f_equal. by apply IH.
Qed.

Lemma RowHash_equal hi hd hs r s :
  (∀ a b, double_eqb a b = true → hd a = hd b) → row_eqb r s = true →
  RowHash hi hd hs r = RowHash hi hd hs s.
Proof.
  intros Hd H. unfold RowHash. rewrite (row_eqb_length r s H).
  generalize (Z.of_nat (length s) mod 2 ^ 64)%Z. revert s H. unfold row_eqb.
  induction r as [|v r IH]; intros [|w s]; simpl; try done. intros [Hv H]%andb_true_iff h.
  assert (hashValue hi hd hs v = hashValue hi hd hs w) as ->.
  { destruct v, w; try done; simpl in *.
    - by apply Z.eqb_eq in Hv as ->.
    - by rewrite (Hd _ _ Hv).
    - by apply String.eqb_eq in Hv as ->. }
  destruct (hashValue hi hd hs w); [|done]. simpl. by apply IH.
Qed.
