(* ===== verification/IndexManager.v ===== *)
(** * The index manager

    [src/indexing/index_manager.cpp]: the index definitions of a table with one
    hash index and one B+ tree per definition, looked up by column, column list or
    expression and maintained from the row store.

    A [std::map<std::string, _>] is the association list of its entries in
    ascending key order.  The row store is any instance of [RowStore]; reading a
    row may change its caches, so the store is threaded through.  The maintenance
    operations return the state also when they throw: an exception leaves the
    updates made so far in place. *)

From S2P Require Import Prelude Value VectorRowStore StringPattern HashIndex BTreeIndex IndexExpression.
Local Open Scope nat_scope.

(** ** [std::map] with string keys *)

Section smap.
Context {V : Type}.
Implicit Types m : list (string * V).

Fixpoint smap_find (name : string) m : option V :=
  match m with
  | [] => None
  | (k, v) :: m => if String.eqb k name then Some v else smap_find name m
  end.

Definition smap_contains (name : string) m : bool :=
  match smap_find name m with Some _ => true | None => false end.

(** [emplace] and [try_emplace]: an existing entry stays. *)
Fixpoint smap_emplace (name : string) (v : V) m : list (string * V) :=
  match m with
  | [] => [(name, v)]
  | (k, w) :: m' =>
      if String.eqb k name then m
      else if String.ltb name k then (name, v) :: m
      else (k, w) :: smap_emplace name v m'
  end.

Fixpoint smap_erase (name : string) m : list (string * V) :=
  match m with
  | [] => []
  | (k, v) :: m => if String.eqb k name then m else (k, v) :: smap_erase name m
  end.

(** Assignment to an existing entry. *)
Definition smap_set (name : string) (v : V) m : list (string * V) :=
  (λ e, if String.eqb e.1 name then (e.1, v) else e) <$> m.

Definition smap_at (name : string) m : result V :=
  match smap_find name m with Some v => Ok v | None => Throw (out_of_range "map::at") end.

(** A loop over the entries that updates the values; an exception leaves the
    entries updated so far and the others as they were. *)
Fixpoint smap_iter (f : string → V → result V) m : result unit * list (string * V) :=
  match m with
  | [] => (Ok tt, [])
  | (k, v) :: m' =>
      match f k v with
      | Throw e => (Throw e, m)
      | Ok v => let '(r, m') := smap_iter f m' in (r, (k, v) :: m')
      end
  end.
End smap.

Record IndexManager : Type := mkIndexManager {
  im_indexColumns : list (string * list nat);
  im_indexExpressions : list (string * IndexExpression);
  im_indexes : list (string * HashIndex);
  im_orderedIndexes : list (string * BTreeIndex)
}.

Definition im_empty : IndexManager := mkIndexManager [] [] [] [].

Record IndexDefinition : Type := mkIndexDefinition {
  id_name : string;
  id_column : string;
  id_columns : list string;
  id_expression : option IndexExpression
}.

Abbreviation Schema := (list Column).

Definition orderedFind (index : BTreeIndex) (op : ComparisonOperator) (value : Value)
  : result (option (list RowId)) :=
  match op with
  | Equal => Some <$> BTreeIndex_find value index
  | Greater => Some <$> BTreeIndex_greaterThan value index
  | Less => Some <$> BTreeIndex_lessThan value index
  end.

Fixpoint findColumn (schema : Schema) (column : string) : option nat :=
  match schema with
  | [] => None
  | c :: schema => if String.eqb (col_name c) column then Some 0 else S <$> findColumn schema column
  end.

Definition column_name (schema : Schema) (i : nat) : result string :=
  match schema !! i with
  | Some c => Ok (col_name c)
  | None => Throw (out_of_range "span index out of range")
  end.

Fixpoint columns_equal (indexes : list nat) (columns : list string) (schema : Schema) : result bool :=
  match indexes, columns with
  | i :: indexes, c :: columns =>
      n ← column_name schema i;
      if negb (String.eqb n c) then Ok false else columns_equal indexes columns schema
  | _, _ => Ok true
  end.

Definition columnsMatch (indexes : list nat) (columns : list string) (schema : Schema) : result bool :=
  if negb (Nat.eqb (length indexes) (length columns)) then Ok false
  else columns_equal indexes columns schema.

(** The first column index, in name order, on exactly these columns. *)
Fixpoint column_index_loop (defs : list (string * list nat)) (exprs : list (string * IndexExpression))
    (columns : list string) (schema : Schema) : result (option string) :=
  match defs with
  | [] => Ok None
  | (name, indexes) :: defs =>
      if smap_contains name exprs then column_index_loop defs exprs columns schema
      else
        m ← columnsMatch indexes columns schema;
        if m : bool then Ok (Some name) else column_index_loop defs exprs columns schema
  end.

Definition column_index (im : IndexManager) (columns : list string) (schema : Schema)
  : result (option string) :=
  column_index_loop (im_indexColumns im) (im_indexExpressions im) columns schema.

Fixpoint expression_index (exprs : list (string * IndexExpression)) (e : IndexExpression) : option string :=
  match exprs with
  | [] => None
  | (name, stored) :: exprs => if IndexExpression_eqb stored e then Some name else expression_index exprs e
  end.

(** ** Lookups *)

Definition indexDistinctCount (im : IndexManager) (columns : list string) (schema : Schema)
  : result (option nat) :=
  name ← column_index im columns schema;
  match name with
  | None => Ok None
  | Some name => h ← smap_at name (im_indexes im); Ok (Some (HashIndex_size h))
  end.

Definition indexDistinctCount_expr (im : IndexManager) (e : IndexExpression) : result (option nat) :=
  match expression_index (im_indexExpressions im) e with
  | None => Ok None
  | Some name => h ← smap_at name (im_indexes im); Ok (Some (HashIndex_size h))
  end.

Definition indexedLookup (im : IndexManager) (columns : list string) (key : Value) (schema : Schema)
  : result (option (list RowId)) :=
  name ← column_index im columns schema;
  match name with
  | None => Ok None
  | Some name => h ← smap_at name (im_indexes im); Ok (Some (HashIndex_find key h))
  end.

Definition indexedLookup_expr (im : IndexManager) (e : IndexExpression) (key : Value)
  : result (option (list RowId)) :=
  match expression_index (im_indexExpressions im) e with
  | None => Ok None
  | Some name => h ← smap_at name (im_indexes im); Ok (Some (HashIndex_find key h))
  end.

Definition orderedLookup (im : IndexManager) (column : string) (op : ComparisonOperator) (value : Value)
    (schema : Schema) : result (option (list RowId)) :=
  name ← column_index im [column] schema;
  match name with
  | None => Ok None
  | Some name => b ← smap_at name (im_orderedIndexes im); orderedFind b op value
  end.

Definition orderedLookup_expr (im : IndexManager) (e : IndexExpression) (op : ComparisonOperator)
    (value : Value) : result (option (list RowId)) :=
  match expression_index (im_indexExpressions im) e with
  | None => Ok None
  | Some name => b ← smap_at name (im_orderedIndexes im); orderedFind b op value
  end.

Definition hasIndex (im : IndexManager) (columns : list string) (schema : Schema) : result bool :=
  name ← column_index im columns schema;
  Ok (match name with Some _ => true | None => false end).

Definition hasExpressionIndex (im : IndexManager) (e : IndexExpression) : bool :=
  existsb (λ item, IndexExpression_eqb item.2 e) (im_indexExpressions im).

Definition listIndexes (im : IndexManager) : list string := (im_indexes im).*1.

Fixpoint column_names (schema : Schema) (indexes : list nat) : result (list string) :=
  match indexes with
  | [] => Ok []
  | i :: indexes => n ← column_name schema i; rest ← column_names schema indexes; Ok (n :: rest)
  end.

Fixpoint indexDefinitions_loop (defs : list (string * list nat)) (exprs : list (string * IndexExpression))
    (schema : Schema) : result (list IndexDefinition) :=
  match defs with
  | [] => Ok []
  | (name, indexes) :: defs =>
      columns ← column_names schema indexes;
      rest ← indexDefinitions_loop defs exprs schema;
      Ok (mkIndexDefinition name (default EmptyString (head columns)) columns (smap_find name exprs) :: rest)
  end.

Definition indexDefinitions (im : IndexManager) (schema : Schema) : result (list IndexDefinition) :=
  indexDefinitions_loop (im_indexColumns im) (im_indexExpressions im) schema.

(** ** Maintenance *)

Section maintenance.
Context {S : Type} `{RowStore S}.
Context (int_to_double : Z → Z) (double_add double_sub : Z → Z → Z).

Fixpoint row_parts (row : Row) (indexes : list nat) : result (list Value) :=
  match indexes with
  | [] => Ok []
  | i :: indexes =>
      match row !! i with
      | Some v => rest ← row_parts row indexes; Ok (v :: rest)
      | None => Throw (out_of_range "vector index out of range")
      end
  end.

Definition indexKeyForRow (im : IndexManager) (name : string) (row : Row) (schema : Schema) : result Value :=
  match smap_find name (im_indexExpressions im) with
  | Some e => evaluateIndexExpression int_to_double double_add double_sub e row (findColumn schema)
  | None =>
      columns ← smap_at name (im_indexColumns im);
      parts ← row_parts row columns;
      match parts with
      | [v] => Ok v
      | _ => composite parts
      end
  end.

Definition isTrigram (im : IndexManager) (name : string) : bool :=
  match smap_find name (im_indexExpressions im) with
  | Some e => bool_decide (ie_kind e = K_Trigram)
  | None => false
  end.

(** The keys a row has in the hash index [name]. *)
Definition hash_keys (im : IndexManager) (name : string) (row : Row) (schema : Schema) : result (list Value) :=
  key ← indexKeyForRow im name row schema;
  if isTrigram im name then
    match key with
    | VString s => Ok (VString <$> extractTrigrams s)
    | VParam _ => _ ← Value_type key; Ok []
    | _ => Ok []
    end
  else Ok [key].

Definition im_with_indexes (im : IndexManager) (indexes : list (string * HashIndex))
    (ordered : list (string * BTreeIndex)) : IndexManager :=
  mkIndexManager (im_indexColumns im) (im_indexExpressions im) indexes ordered.

(** What one row adds to one hash index and to one B+ tree. *)
Definition add_to_hash (im : IndexManager) (schema : Schema) (rowId : RowId) (row : Row)
    (name : string) (index : HashIndex) : result HashIndex :=
  keys ← hash_keys im name row schema;
  Ok (foldl (λ index key, HashIndex_insert key rowId index) index keys).

Definition add_to_ordered (im : IndexManager) (schema : Schema) (rowId : RowId) (row : Row)
    (name : string) (index : BTreeIndex) : result BTreeIndex :=
  if isTrigram im name then Ok index
  else
    key ← indexKeyForRow im name row schema;
    BTreeIndex_insert key rowId index.

(** Both loops; the second one starts only when the first one ended. *)
Definition addRowToIndexes (rowId : RowId) (schema : Schema) (im : IndexManager) (store : S)
  : result unit * IndexManager * S :=
  match rs_get rowId store with
  | Throw e => (Throw e, im, store)
  | Ok (None, store) => (Ok tt, im, store)
  | Ok (Some row, store) =>
      match smap_iter (add_to_hash im schema rowId row) (im_indexes im) with
      | (Throw e, indexes) => (Throw e, im_with_indexes im indexes (im_orderedIndexes im), store)
      | (Ok _, indexes) =>
          let '(r, ordered) := smap_iter (add_to_ordered im schema rowId row) (im_orderedIndexes im) in
          (r, im_with_indexes im indexes ordered, store)
      end
  end.

Fixpoint add_rows (rowIds : list RowId) (schema : Schema) (im : IndexManager) (store : S)
  : result unit * IndexManager * S :=
  match rowIds with
  | [] => (Ok tt, im, store)
  | rowId :: rowIds =>
      match addRowToIndexes rowId schema im store with
      | (Throw e, im, store) => (Throw e, im, store)
      | (Ok _, im, store) => add_rows rowIds schema im store
      end
  end.

Definition clear_indexes (im : IndexManager) : IndexManager :=
  mkIndexManager (im_indexColumns im) (im_indexExpressions im)
    ((λ e, (e.1, HashIndex_clear e.2)) <$> im_indexes im)
    ((λ e, (e.1, BTreeIndex_clear e.2)) <$> im_orderedIndexes im).

Definition rebuildIndexes (schema : Schema) (im : IndexManager) (store : S)
  : result unit * IndexManager * S :=
  add_rows (seq 0 (rs_capacity store)) schema (clear_indexes im) store.

(** [BTreeIndex{}] with its default capacity of 64 keys. *)
Definition bt_default : BTreeIndex :=
  mkBTreeIndex 64 {[1 := leaf_node 1]} [] 1 2 0 ∅ false false.

(** The new definition, with empty indexes. *)
Definition im_define (name : string) (columnIndexes : list nat) (expression : option IndexExpression)
    (im : IndexManager) : IndexManager :=
  mkIndexManager (smap_emplace name columnIndexes (im_indexColumns im))
    (match expression with
     | Some e => smap_emplace name e (im_indexExpressions im)
     | None => im_indexExpressions im
     end)
    (smap_emplace name hi_empty (im_indexes im))
    (smap_emplace name bt_default (im_orderedIndexes im)).

(** The definition is in place before the indexes are rebuilt. *)
Definition registerIndex (name : string) (columnIndexes : list nat) (expression : option IndexExpression)
    (rebuild : bool) (schema : Schema) (im : IndexManager) (store : S) : result bool * IndexManager * S :=
  if Nat.eqb (length columnIndexes) 0 then (Ok false, im, store)
  else if match expression with Some _ => negb (Nat.eqb (length columnIndexes) 1) | None => false end
  then (Ok false, im, store)
  else if smap_contains name (im_indexes im) || smap_contains name (im_indexColumns im)
  then (Ok false, im, store)
  else if existsb (λ i, Nat.leb (length schema) i) columnIndexes then (Ok false, im, store)
  else
    let im := im_define name columnIndexes expression im in
    if rebuild then
      match rebuildIndexes schema im store with
      | (Throw e, im, store) => (Throw e, im, store)
      | (Ok _, im, store) => (Ok true, im, store)
      end
    else (Ok true, im, store).
End maintenance.

Definition dropIndex (name : string) (im : IndexManager) : bool * IndexManager :=
  if negb (smap_contains name (im_indexColumns im)) && negb (smap_contains name (im_indexes im))
     && negb (smap_contains name (im_orderedIndexes im)) && negb (smap_contains name (im_indexExpressions im))
  then (false, im)
  else (true, mkIndexManager (smap_erase name (im_indexColumns im)) (smap_erase name (im_indexExpressions im))
                (smap_erase name (im_indexes im)) (smap_erase name (im_orderedIndexes im))).
