(* ===== verification/IndexManagerProof.v ===== *)
(** * Index lookups agree with scans

    [im_reflects]: every index of the manager holds exactly the keys of the live
    rows.  Rebuilding establishes it and adding an appended row keeps it; under it
    a lookup returns the rows a scan with the same comparison would return.  The
    proofs use the row store only through [RowStoreLaws] and the two indexes only
    through the multimap they refine. *)

From S2P Require Import Prelude Value BinaryIO PageCodec VectorRowStore StringPattern HashIndex BTreeIndex BTreeTree BTreeProof.
From S2P Require Import BTreeSpec IndexExpression Predicate IndexManager.
Local Open Scope nat_scope.

(** ** Range scans as filters of the log *)

Lemma filter_test {A} (f : A → bool) x l :
  filter (λ e, f e = true) (x :: l) =
  if f x then x :: filter (λ e, f e = true) l else filter (λ e, f e = true) l.
Proof.
  destruct (f x) eqn:E; [by rewrite filter_cons_True|]. rewrite filter_cons_False by congruence. done.
Qed.
Lemma filter_test_not {A} (f : A → bool) x l :
  filter (λ e, f e = false) (x :: l) =
  if f x then filter (λ e, f e = false) l else x :: filter (λ e, f e = false) l.
Proof.
  destruct (f x) eqn:E; [|by rewrite filter_cons_True]. rewrite filter_cons_False by congruence. done.
Qed.

Lemma log_find_filter (Q : Value * RowId → Prop) `{∀ e, Decision (Q e)} k log :
  log_find k (filter Q log) = (filter (λ e, Value_eqb e.1 k = true ∧ Q e) log).*2.
Proof. unfold log_find. by rewrite list_filter_filter. Qed.

(** A test on keys that does not separate equal keys. *)
Definition respects (P : Value → bool) : Prop :=
  ∀ a b, comparable a → comparable b → Value_eqb a b = true → P a = P b.

Lemma respects_lt key : comparable key → respects (λ k, Value_ltb k key).
Proof. intros Hk a b Ha Hb E. unfold Value_ltb. by rewrite (Value_cmp_eq_l a b). Qed.
Lemma respects_gt key : comparable key → respects (λ k, Value_ltb key k).
Proof. intros Hk a b Ha Hb E. unfold Value_ltb. by rewrite (Value_cmp_eq_r a b). Qed.

Lemma respects_eq key : comparable key → respects (λ k, Value_eqb k key).
Proof.
  intros Hk a b Ha Hb E. by apply Value_eqb_trans.
Qed.

(** Two logs that no query by key or range of keys tells apart: the same row
    identifiers, with equal keys. *)
Definition log_sim (l1 l2 : index_log) : Prop :=
  ∀ P, respects P → (filter (λ e, P e.1 = true) l1).*2 ≡ₚ (filter (λ e, P e.1 = true) l2).*2.

#[export] Instance log_sim_equivalence : Equivalence log_sim.
Proof.
  split.
  - by intros l P HP.
  - intros l1 l2 E P HP. symmetry. by apply E.
  - intros l1 l2 l3 E1 E2 P HP. etrans; [by apply E1|by apply E2].
Qed.
#[export] Instance log_sim_perm : subrelation (≡ₚ) log_sim.
Proof. intros l1 l2 E P HP. by rewrite E. Qed.
#[export] Instance log_sim_app : Proper (log_sim ==> log_sim ==> log_sim) (++).
Proof.
  intros l1 l1' E1 l2 l2' E2 P HP. rewrite !filter_app, !fmap_app. by rewrite (E1 P HP), (E2 P HP).
Qed.

Lemma log_empty log : Forall (λ e, comparable e.1) log →
  (∀ k, comparable k → log_find k log = []) → log = [].
Proof.
  intros Hc H. destruct Hc as [|[k r] log Hk _]; [done|]. specialize (H k Hk). unfold log_find in H.
  rewrite filter_cons_True in H by (by apply Value_eqb_refl). done.
Qed.

(** The entries of a log whose key is not [k0]. *)
Definition others (k0 : Value) (log : index_log) : index_log := filter (λ e, Value_eqb e.1 k0 = false) log.

Lemma others_comparable k0 log : Forall (λ e, comparable e.1) log → Forall (λ e, comparable e.1) (others k0 log).
Proof. intros Hlog. apply Forall_forall. intros e [_ He]%list_elem_of_filter. rewrite Forall_forall in Hlog. auto. Qed.

Lemma filter_class (P : Value → bool) k0 log : respects P → comparable k0 → Forall (λ e, comparable e.1) log →
  (filter (λ e, P e.1 = true) log).*2 ≡ₚ
  (if P k0 then log_find k0 log else []) ++ (filter (λ e, P e.1 = true) (others k0 log)).*2.
Proof.
  intros HP Hk0 Hlog. unfold others, log_find.
  induction Hlog as [|[k r] log Hk _ IHl]; [by destruct (P k0)|]. simpl in Hk.
  rewrite (filter_test (λ e, P e.1)), (filter_test (λ e, Value_eqb e.1 k0)),
    (filter_test_not (λ e, Value_eqb e.1 k0)). simpl.
  destruct (Value_eqb k k0) eqn:E.
  - rewrite (HP k k0) by done. destruct (P k0); [|done]. rewrite !fmap_cons, IHl. done.
  - rewrite (filter_test (λ e, P e.1)). simpl. destruct (P k); [|done].
    rewrite !fmap_cons, IHl. simpl. by rewrite Permutation_middle.
Qed.

Lemma log_find_others k0 k log : comparable k0 → comparable k → Forall (λ e, comparable e.1) log →
  log_find k (others k0 log) = if Value_eqb k0 k then [] else log_find k log.
Proof.
  intros Hk0 Hk Hlog. unfold others. rewrite log_find_filter. destruct (Value_eqb k0 k) eqn:E.
  - induction Hlog as [|e log He _ IHl]; [done|]. rewrite filter_cons_False; [done|]. intros [E1 E2].
    rewrite (Value_eqb_trans_r k0 k e.1) in E2 by done. congruence.
  - unfold log_find. f_equal. apply filter_ext_in. eapply Forall_impl; [exact Hlog|]. intros e He.
    split; [tauto|]. intros E1. split; [done|]. apply not_true_iff_false. intros E2.
    rewrite <- (Value_eqb_trans e.1 k0 k) in E by done. congruence.
Qed.

(** Two logs with the same rows at every key. *)
Lemma log_sim_find l1 l2 : Forall (λ e, comparable e.1) l1 → Forall (λ e, comparable e.1) l2 →
  (∀ k, comparable k → log_find k l1 ≡ₚ log_find k l2) → log_sim l1 l2.
Proof.
  intros H1 H2 Hf P HP. remember (length l1) as n eqn:Hn. revert l1 l2 Hn H1 H2 Hf.
  induction n as [n IH] using lt_wf_ind. intros l1 l2 Hn H1 H2 Hf. destruct l1 as [|[k0 r] l1].
  - rewrite (log_empty l2); [done|done|]. intros k Hk. symmetry. apply Permutation_nil_l. by apply Hf.
  - assert (comparable k0) as Hk0 by (by inversion H1).
    rewrite (filter_class P k0 (_ :: _)), (filter_class P k0 l2) by done. f_equiv.
    { destruct (P k0); [by apply Hf|done]. }
    assert (length (others k0 ((k0, r) :: l1)) < n) as Hlt.
    { unfold others. rewrite filter_cons_False by (simpl; by rewrite Value_eqb_refl). subst n. simpl.
      pose proof (length_filter (λ e : Value * RowId, Value_eqb e.1 k0 = false) l1). lia. }
    eapply IH; [exact Hlt|done|by apply others_comparable..|]. intros k Hk.
    rewrite !log_find_others by done. destruct (Value_eqb k0 k); [done|by apply Hf].
Qed.

Lemma range_log (P : Value → bool) kvs log : respects P →
  kvs_ok kvs → Forall (λ e, comparable e.1) log →
  (∀ k, comparable k → kv_find k kvs = log_find k log) →
  concat (filter (λ e, P e.1 = true) kvs).*2 ≡ₚ (filter (λ e, P e.1 = true) log).*2.
Proof.
  intros HP. revert log. induction kvs as [|[k0 ids] kvs IH]; intros log Hok Hlog Hfind.
  - rewrite (log_empty log); [done|done|]. intros k Hk. by rewrite <- Hfind.
  - apply kvs_ok_cons in Hok as (Hk0 & Hok & Hgt).
    rewrite (filter_class P k0 log) by done.
    assert (ids = log_find k0 log) as ->.
    { rewrite <- Hfind by done. unfold kv_find. simpl. by rewrite Value_eqb_refl. }
    assert (concat (filter (λ e, P e.1 = true) ((k0, log_find k0 log) :: kvs)).*2 =
            (if P k0 then log_find k0 log else []) ++ concat (filter (λ e, P e.1 = true) kvs).*2) as ->.
    { destruct (P k0) eqn:EP; [by rewrite filter_cons_True|].
      by rewrite filter_cons_False by (simpl; congruence). }
    f_equiv. apply IH; [done|by apply others_comparable|].
    intros k Hk. rewrite log_find_others by done. destruct (Value_eqb k0 k) eqn:E.
    + unfold kv_find. rewrite (assoc_find_above k); [done|done|].
      eapply Forall_impl; [exact Hgt|]. intros e [He Hlt]. split; [done|]. unfold Value_ltb in *.
      by rewrite <- (Value_cmp_eq_l k0 k).
    + specialize (Hfind k Hk). unfold kv_find in *. simpl in Hfind. by rewrite E in Hfind.
Qed.

(** ** [std::map] *)

Lemma smap_find_emplace {V} n (v : V) m k : smap_find n m = None →
  smap_find k (smap_emplace n v m) = if String.eqb n k then Some v else smap_find k m.
Proof.
  induction m as [|[a w] m IH]; simpl; [done|]. intros Hn.
  destruct (String.eqb_spec a n) as [->|Ha]; [done|]. destruct (String.ltb n a); [done|]. simpl.
  rewrite IH by done. destruct (String.eqb_spec a k), (String.eqb_spec n k); congruence.
Qed.

Lemma smap_erase_emplace {V} n (v : V) m : smap_find n m = None → smap_erase n (smap_emplace n v m) = m.
Proof.
  induction m as [|[a w] m IH]; simpl; [by rewrite String.eqb_refl|]. intros Hn.
  destruct (String.eqb_spec a n) as [->|Ha]; [done|]. destruct (String.ltb n a); simpl.
  - by rewrite String.eqb_refl.
  - apply String.eqb_neq in Ha as ->. by rewrite IH.
Qed.

Lemma smap_emplace_keys {V W} n (v : V) (w : W) m m' : m.*1 = m'.*1 →
  (smap_emplace n v m).*1 = (smap_emplace n w m').*1.
Proof.
  revert m'. induction m as [|[a x] m IH]; intros [|[b y] m']; try done. simpl. intros [= <- E].
  destruct (String.eqb a n); simpl; [by rewrite E|]. destruct (String.ltb n a); simpl; [by rewrite E|].
  f_equal. by apply IH.
Qed.

Lemma smap_erase_keys {V W} n (m : list (string * V)) (m' : list (string * W)) : m.*1 = m'.*1 →
  (smap_erase n m).*1 = (smap_erase n m').*1.
Proof.
  revert m'. induction m as [|[a x] m IH]; intros [|[b y] m']; try done. simpl. intros [= <- E].
  destruct (String.eqb a n); simpl; [done|]. f_equal. by apply IH.
Qed.

Lemma smap_emplace_perm {V} n (v : V) m : smap_find n m = None → smap_emplace n v m ≡ₚ (n, v) :: m.
Proof.
  induction m as [|[a w] m IH]; simpl; [done|]. destruct (String.eqb a n); [done|]. intros Hn.
  destruct (String.ltb n a); [done|]. rewrite IH by done. apply Permutation_swap.
Qed.

Lemma smap_find_None {V} n (m : list (string * V)) : smap_find n m = None ↔ n ∉ m.*1.
Proof.
  induction m as [|[a w] m IH]; simpl; [set_solver|]. destruct (String.eqb_spec a n); set_solver.
Qed.

Lemma smap_find_NoDup {V} n (v : V) m : NoDup m.*1 → (n, v) ∈ m → smap_find n m = Some v.
Proof.
  induction m as [|[a w] m IH]; [set_solver|]. simpl. intros [Ha Hnd]%NoDup_cons [[= -> ->]|He]%elem_of_cons.
  - by rewrite String.eqb_refl.
  - destruct (String.eqb_spec a n) as [->|]; [|auto]. destruct Ha. by apply (list_elem_of_fmap_2 fst _ (n, v)).
Qed.

Lemma smap_find_Some {V} n (v : V) m : smap_find n m = Some v → (n, v) ∈ m.
Proof.
  induction m as [|[a w] m IH]; simpl; [done|]. destruct (String.eqb_spec a n) as [->|].
  - intros [= ->]. by apply list_elem_of_here.
  - intros E. apply list_elem_of_further. auto.
Qed.

Lemma smap_erase_sublist {V} n (m : list (string * V)) : smap_erase n m `sublist_of` m.
Proof.
  induction m as [|[a w] m IH]; simpl; [constructor|]. destruct (String.eqb a n); by constructor.
Qed.

Lemma smap_erase_NoDup {V} n (m : list (string * V)) : NoDup m.*1 → NoDup (smap_erase n m).*1.
Proof. intros Hn. eapply sublist_NoDup; [exact Hn|]. apply fmap_sublist, smap_erase_sublist. Qed.

Lemma smap_erase_Forall {V} n (m : list (string * V)) (P : string * V → Prop) :
  Forall P m → Forall P (smap_erase n m).
Proof.
  induction 1 as [|[a w] m Ha Hm IH]; simpl; [constructor|]. destruct (String.eqb a n); [done|by constructor].
Qed.

Lemma smap_erase_elem {V} n (m : list (string * V)) e : NoDup m.*1 → e ∈ smap_erase n m → e ∈ m ∧ e.1 ≠ n.
Proof.
  induction m as [|[a w] m IH]; simpl; [set_solver|]. intros [Ha Hnd]%NoDup_cons.
  destruct (String.eqb_spec a n) as [->|].
  - intros He. split; [by apply list_elem_of_further|]. intros <-. destruct Ha. by apply list_elem_of_fmap_2.
  - intros [->|He]%elem_of_cons; [split; [by apply list_elem_of_here|done]|].
    destruct (IH Hnd He). split; [by apply list_elem_of_further|done].
Qed.

Lemma smap_find_erase_ne {V} n k (m : list (string * V)) : k ≠ n → smap_find k (smap_erase n m) = smap_find k m.
Proof.
  intros Hk. induction m as [|[a w] m IH]; simpl; [done|]. destruct (String.eqb_spec a n) as [->|]; simpl.
  - destruct (String.eqb_spec n k); congruence.
  - by rewrite IH.
Qed.

Lemma smap_erase_keep {V} n k (m : list (string * V)) : k ≠ n → k ∈ m.*1 → k ∈ (smap_erase n m).*1.
Proof.
  intros Hk Hin. apply dec_stable. intros Hn%smap_find_None. rewrite smap_find_erase_ne in Hn by done.
  by apply smap_find_None in Hn.
Qed.

Lemma smap_erase_fresh {V} n (m : list (string * V)) : smap_find n m = None → smap_erase n m = m.
Proof.
  induction m as [|[a w] m IH]; simpl; [done|]. destruct (String.eqb a n); [done|]. intros. by rewrite IH.
Qed.

Lemma smap_Forall_find {V} n (m : list (string * V)) (P : string * V → Prop) : Forall P m → n ∈ m.*1 →
  ∃ v, smap_find n m = Some v ∧ P (n, v).
Proof.
  intros HP Hn. destruct (smap_find n m) as [v|] eqn:E; [|by apply smap_find_None in E].
  exists v. split; [done|]. rewrite Forall_forall in HP. by apply HP, smap_find_Some.
Qed.

(** ** Index contents *)

Section manager.
Context {S : Type} `{RowStoreLaws S}.
Context (i2d : Z → Z) (dadd dsub : Z → Z → Z) (schema : Schema).
Abbreviation hash_keys := (hash_keys i2d dadd dsub).
Abbreviation indexKeyForRow := (indexKeyForRow i2d dadd dsub).
Abbreviation addRowToIndexes := (addRowToIndexes i2d dadd dsub).
Abbreviation rebuildIndexes := (rebuildIndexes i2d dadd dsub).

(** The keys of a row in the hash index and in the B+ tree of a definition. *)
Definition hkeys (im : IndexManager) (name : string) (row : Row) : list Value :=
  match hash_keys im name row schema with Ok keys => keys | Throw _ => [] end.
Definition okeys (im : IndexManager) (name : string) (row : Row) : list Value :=
  if isTrigram im name then []
  else match indexKeyForRow im name row schema with Ok key => [key] | Throw _ => [] end.

(** A row that every index can take: its keys exist and have no NaN. *)
Definition indexable (im : IndexManager) (row : Row) : Prop :=
  (∀ name, name ∈ (im_indexes im).*1 → ∃ keys,
     hash_keys im name row schema = Ok keys ∧ Forall (λ k, comparable k) keys) ∧
  (∀ name, name ∈ (im_orderedIndexes im).*1 → isTrigram im name = false →
     ∃ key, indexKeyForRow im name row schema = Ok key ∧ comparable key).

Definition row_log (keys : Row → list Value) (e : RowId * Row) : index_log := (λ k, (k, e.1)) <$> keys e.2.
Definition index_log_of (keys : Row → list Value) (v : VectorRowStore) : index_log :=
  flat_map (row_log keys) (vrs_liveEntries v).

Definition hash_holds (log : index_log) (h : HashIndex) : Prop := ∃ l, hi_rep h l ∧ log_sim l log.
Definition tree_holds (log : index_log) (b : BTreeIndex) : Prop :=
  ∃ max t l, bt_refines max b t l ∧ log_sim l log.

Definition im_holds (hlog olog : string → index_log) (im : IndexManager) : Prop :=
  Forall (λ e, hash_holds (hlog e.1) e.2) (im_indexes im) ∧
  Forall (λ e, tree_holds (olog e.1) e.2) (im_orderedIndexes im).

(** Every index holds the keys of the live rows. *)
Definition im_reflects (im : IndexManager) (v : VectorRowStore) : Prop :=
  im_holds (λ name, index_log_of (hkeys im name) v) (λ name, index_log_of (okeys im name) v) im.

(** Two managers with the same definitions. *)
Definition same_defs (im im' : IndexManager) : Prop :=
  im_indexColumns im' = im_indexColumns im ∧ im_indexExpressions im' = im_indexExpressions im ∧
  (im_indexes im').*1 = (im_indexes im).*1 ∧ (im_orderedIndexes im').*1 = (im_orderedIndexes im).*1.

Lemma same_defs_refl im : same_defs im im.
Proof. done. Qed.
Lemma same_defs_trans im1 im2 im3 : same_defs im1 im2 → same_defs im2 im3 → same_defs im1 im3.
Proof. unfold same_defs. intuition congruence. Qed.

Lemma same_defs_keys im im' name row : same_defs im im' →
  isTrigram im' name = isTrigram im name ∧
  indexKeyForRow im' name row schema = indexKeyForRow im name row schema ∧
  hash_keys im' name row schema = hash_keys im name row schema.
Proof.
  intros (E1 & E2 & _).
  assert (isTrigram im' name = isTrigram im name) as Ht by (unfold isTrigram; by rewrite E2).
  assert (indexKeyForRow im' name row schema = indexKeyForRow im name row schema) as Hk
    by (unfold IndexManager.indexKeyForRow; by rewrite E1, E2).
  split_and!; [done..|]. unfold IndexManager.hash_keys. by rewrite Hk, Ht.
Qed.

Lemma same_defs_logs im im' name row : same_defs im im' →
  hkeys im' name row = hkeys im name row ∧ okeys im' name row = okeys im name row.
Proof.
  intros Hs. destruct (same_defs_keys im im' name row Hs) as (Ht & Hk & Hh).
  unfold hkeys, okeys. by rewrite Ht, Hk, Hh.
Qed.

Lemma same_defs_indexable im im' row : same_defs im im' → indexable im row → indexable im' row.
Proof.
  intros Hs [Hh Ho]. pose proof Hs as (_ & _ & E3 & E4). split.
  - intros name Hn. rewrite E3 in Hn. destruct (same_defs_keys im im' name row Hs) as (_ & _ & ->). auto.
  - intros name Hn. rewrite E4 in Hn. destruct (same_defs_keys im im' name row Hs) as (-> & -> & _). auto.
Qed.

(** ** Adding a row *)

Lemma hash_holds_insert log h rowId keys : hash_holds log h → Forall (λ k, comparable k) keys →
  hash_holds (log ++ ((λ k, (k, rowId)) <$> keys)) (foldl (λ h key, HashIndex_insert key rowId h) h keys).
Proof.
  intros Hh Hk. revert log h Hh. induction Hk as [|k keys Hk _ IH]; intros log h Hh; simpl.
  - by rewrite app_nil_r.
  - destruct Hh as (l & Hrep & Hp). rewrite (cons_middle (k, rowId)), app_assoc. apply IH.
    exists (l ++ [(k, rowId)]). split; [|by rewrite Hp].
    by apply (hash_apply_rep (IX_insert k rowId)).
Qed.

Lemma tree_holds_insert log b rowId key : tree_holds log b → comparable key →
  ∃ b', BTreeIndex_insert key rowId b = Ok b' ∧ tree_holds (log ++ [(key, rowId)]) b'.
Proof.
  intros (max & t & l & Hr & Hp) Hk.
  destruct (bt_apply_refines max (IX_insert key rowId) b t l Hr Hk) as (b' & t' & E & Hr').
  exists b'. split; [done|]. exists max, t', (l ++ [(key, rowId)]). split; [done|]. by rewrite Hp.
Qed.

(** The loop over a map succeeds when every step does. *)
Lemma smap_iter_ok {V} (f : string → V → result V) (P Q : string → V → Prop) (m : list (string * V)) :
  (∀ k v, k ∈ m.*1 → P k v → ∃ v', f k v = Ok v' ∧ Q k v') →
  Forall (λ e, P e.1 e.2) m →
  ∃ m', smap_iter f m = (Ok tt, m') ∧ m'.*1 = m.*1 ∧ Forall (λ e, Q e.1 e.2) m'.
Proof.
  intros Hf HP. induction m as [|[k v] m IH].
  - exists []. split_and!; done.
  - inversion HP as [|? ? Hv HP']; subst. simpl in Hv.
    destruct (Hf k v) as (v' & E & Hq); [by apply list_elem_of_here|done|].
    destruct IH as (m' & E' & Hm & HQ); [|done|].
    { intros k' w Hk'. apply Hf. by apply list_elem_of_further. }
    exists ((k, v') :: m'). simpl. rewrite E, E'. split_and!; [done|by f_equal|by constructor].
Qed.

Lemma addRow_ok im store v rowId hlog olog :
  rs_rep store v → im_holds hlog olog im → (∀ row, vrs_get rowId v = Some row → indexable im row) →
  ∃ im' store', addRowToIndexes rowId schema im store = (Ok tt, im', store') ∧
    rs_rep store' v ∧ same_defs im im' ∧
    match vrs_get rowId v with
    | Some row => im_holds (λ name, hlog name ++ row_log (hkeys im name) (rowId, row))
                           (λ name, olog name ++ row_log (okeys im name) (rowId, row)) im'
    | None => im' = im
    end.
Proof.
  intros Hrep [Hh Ho] Hidx. unfold IndexManager.addRowToIndexes.
  destruct (rs_get_sim store v rowId Hrep) as (store' & -> & Hrep').
  destruct (vrs_get rowId v) as [row|]; [|by exists im, store'].
  destruct (Hidx row eq_refl) as [Hih Hio].
  destruct (smap_iter_ok (add_to_hash i2d dadd dsub im schema rowId row)
    (λ name, hash_holds (hlog name)) (λ name, hash_holds (hlog name ++ row_log (hkeys im name) (rowId, row)))
    (im_indexes im)) as (indexes & -> & Hn1 & HQ1); [|done|].
  { intros name h Hn Hheld. destruct (Hih name Hn) as (keys & E & Hk). unfold add_to_hash, hkeys.
    unfold row_log. cbn [fst snd]. rewrite E. eexists. split; [done|]. by apply hash_holds_insert. }
  destruct (smap_iter_ok (add_to_ordered i2d dadd dsub im schema rowId row)
    (λ name, tree_holds (olog name)) (λ name, tree_holds (olog name ++ row_log (okeys im name) (rowId, row)))
    (im_orderedIndexes im)) as (ordered & -> & Hn2 & HQ2); [|done|].
  { intros name b Hn Hheld. unfold add_to_ordered, okeys. destruct (isTrigram im name) eqn:Et.
    - eexists. split; [done|]. unfold row_log. simpl. by rewrite app_nil_r.
    - destruct (Hio name Hn Et) as (key & E & Hk). unfold row_log. cbn [fst snd].
      rewrite E. simpl. by apply tree_holds_insert. }
  eexists _, store'. split; [done|]. split; [done|]. split; [by split_and!|]. by split.
Qed.

Lemma im_holds_perm hlog olog hlog' olog' im : (∀ name, hlog name ≡ₚ hlog' name) →
  (∀ name, olog name ≡ₚ olog' name) → im_holds hlog olog im → im_holds hlog' olog' im.
Proof.
  intros Eh Eo [Hh Ho]. split; eapply Forall_impl; [exact Hh| |exact Ho|].
  - intros e (l & Hr & Hp). exists l. split; [done|]. etrans; [exact Hp|]. by rewrite Eh.
  - intros e (max & t & l & Hr & Hp). exists max, t, l. split; [done|]. etrans; [exact Hp|]. by rewrite Eo.
Qed.

(** ** Adding all rows *)

(** The live row at a row identifier, with it. *)
Definition live_at (v : VectorRowStore) (rowId : RowId) : option (RowId * Row) :=
  (rowId,.) <$> vrs_get rowId v.

Lemma live_at_entries v : omap (live_at v) (seq 0 (vrs_capacity v)) = vrs_liveEntries v.
Proof.
  unfold live_at, vrs_get, vrs_lookup, vrs_capacity, vrs_liveEntries.
  cut (∀ pre rows, vrs_rows v = pre ++ rows →
    omap (λ i, (i,.) <$> match vrs_rows v !! i with Some (Some row) => Some row | _ => None end)
      (seq (length pre) (length rows)) = live_entries_from (length pre) rows).
  { intros Hc. by apply (Hc [] (vrs_rows v)). }
  intros pre rows. revert pre. induction rows as [|o rows IH]; intros pre E; [done|].
  specialize (IH (pre ++ [o])). rewrite length_app in IH. simpl in IH. rewrite Nat.add_1_r in IH.
  rewrite <- app_assoc in IH. specialize (IH E). cbn [length seq omap list_omap].
  rewrite E, list_lookup_middle by done. rewrite <- E. destruct o; simpl; by rewrite <- IH.
Qed.

Lemma add_rows_ok ids im store v hlog olog :
  rs_rep store v → im_holds hlog olog im →
  (∀ i row, i ∈ ids → vrs_get i v = Some row → indexable im row) →
  ∃ im' store', add_rows i2d dadd dsub ids schema im store = (Ok tt, im', store') ∧
    rs_rep store' v ∧ same_defs im im' ∧
    im_holds (λ name, hlog name ++ flat_map (row_log (hkeys im name)) (omap (live_at v) ids))
             (λ name, olog name ++ flat_map (row_log (okeys im name)) (omap (live_at v) ids)) im'.
Proof.
  revert im store hlog olog. induction ids as [|i ids IH]; intros im store hlog olog Hrep Hh Hidx.
  { exists im, store. split_and!; try done. eapply im_holds_perm, Hh; intros name; by rewrite app_nil_r. }
  destruct (addRow_ok im store v i hlog olog Hrep Hh) as (im1 & store1 & E1 & Hrep1 & Hs1 & Hh1).
  { intros row. apply Hidx. by apply list_elem_of_here. }
  cbn [add_rows]. rewrite E1. cbn [omap list_omap].
  assert (live_at v i = (i,.) <$> vrs_get i v) as -> by done.
  assert (∀ j row, j ∈ ids → vrs_get j v = Some row → indexable im1 row) as Hidx1.
  { intros j row Hj Hg. eapply same_defs_indexable; [done|]. eapply Hidx; [|done]. by apply list_elem_of_further. }
  destruct (vrs_get i v) as [row|].
  - destruct (IH im1 store1 _ _ Hrep1 Hh1 Hidx1) as (im2 & store2 & E2 & Hrep2 & Hs2 & Hh2).
    exists im2, store2. split_and!; [done..|by eapply same_defs_trans|].
    eapply im_holds_perm, Hh2; intros name; cbn [flat_map fmap option_fmap option_map]; rewrite <- app_assoc;
      apply reflexive_eq; do 2 f_equal; apply flat_map_ext; intros e; unfold row_log;
      destruct (same_defs_logs im im1 name e.2 Hs1) as [Eh Eo]; by rewrite ?Eh, ?Eo.
  - subst im1. by apply IH.
Qed.

Lemma live_entries_elem v i row : (i, row) ∈ vrs_liveEntries v ↔ vrs_get i v = Some row.
Proof.
  rewrite <- live_at_entries, list_elem_of_omap. unfold live_at. split.
  - intros (j & _ & Hj). destruct (vrs_get j v) eqn:E; simplify_eq/=. done.
  - intros E. exists i. rewrite E. split; [|done]. apply elem_of_seq. split; [lia|].
    apply vrs_lookup_Some in E. by apply lookup_lt_Some in E.
Qed.

Lemma NoDup_live_entries v : NoDup (vrs_liveEntries v).
Proof. apply (NoDup_fmap_1 fst), NoDup_live_entries_from. Qed.

Lemma append_live_entries row v : vrs_inv v →
  vrs_liveEntries (vrs_append row v).2 ≡ₚ vrs_liveEntries v ++ [((vrs_append row v).1, row)] ∧
  vrs_get (vrs_append row v).1 (vrs_append row v).2 = Some row.
Proof.
  intros Hv. pose proof (vrs_append_spec v row Hv) as Ha. destruct (vrs_append row v) as [i v'].
  destruct Ha as (_ & Hn & Hl). unfold vrs_get. simpl. rewrite Hl, decide_True by done. split; [|done].
  apply NoDup_Permutation; [apply NoDup_live_entries| |].
  - apply NoDup_app. split_and!; [apply NoDup_live_entries| |apply NoDup_singleton].
    intros [j r] Hj%live_entries_elem Hs%list_elem_of_singleton. unfold vrs_get in Hj. congruence.
  - intros [j r]. rewrite elem_of_app, !live_entries_elem, list_elem_of_singleton. unfold vrs_get. rewrite Hl.
    case_decide; naive_solver.
Qed.

Lemma index_log_of_perm keys v v' : vrs_liveEntries v ≡ₚ vrs_liveEntries v' →
  index_log_of keys v ≡ₚ index_log_of keys v'.
Proof. intros E. unfold index_log_of. by apply Permutation_flat_map. Qed.

(** ** Definitions *)

(** The definitions are consistent: the maps have the same names, no name twice,
    expressions belong to definitions, columns exist and the trees can split. *)
Record im_wf (im : IndexManager) : Prop := {
  iw_hash : (im_indexes im).*1 = (im_indexColumns im).*1;
  iw_ordered : (im_orderedIndexes im).*1 = (im_indexColumns im).*1;
  iw_nodup : NoDup (im_indexColumns im).*1;
  iw_exprs_nodup : NoDup (im_indexExpressions im).*1;
  iw_exprs : (im_indexExpressions im).*1 ⊆ (im_indexColumns im).*1;
  iw_columns : Forall (λ e, Forall (λ i, i < length schema) e.2) (im_indexColumns im);
  iw_trees : Forall (λ e, 2 ≤ bt_maxKeysPerNode e.2) (im_orderedIndexes im)
}.


(** ** Rebuilding *)

Lemma index_log_same im im' v name : same_defs im im' →
  index_log_of (hkeys im' name) v = index_log_of (hkeys im name) v ∧
  index_log_of (okeys im' name) v = index_log_of (okeys im name) v.
Proof.
  intros Hs. unfold index_log_of, row_log. split; apply flat_map_ext; intros e;
    destruct (same_defs_logs im im' name e.2 Hs) as [Eh Eo]; by rewrite ?Eh, ?Eo.
Qed.

Lemma clear_holds im : Forall (λ e, 2 ≤ bt_maxKeysPerNode e.2) (im_orderedIndexes im) →
  im_holds (λ _, []) (λ _, []) (clear_indexes im) ∧ same_defs im (clear_indexes im).
Proof.
  intros Ht. unfold clear_indexes, same_defs. simpl. rewrite <- !list_fmap_compose. split_and!; try done.
  split; simpl; apply Forall_fmap.
  - apply Forall_true. intros e. exists []. split; [by split|done].
  - eapply Forall_impl; [exact Ht|]. intros e He. simpl. exists (bt_maxKeysPerNode e.2), (BLeaf 1 []), [].
    split; [|done]. split_and!; [by apply bt_rep_empty|constructor|done].
Qed.

Lemma rebuild_ok im store v :
  rs_rep store v → Forall (λ e, 2 ≤ bt_maxKeysPerNode e.2) (im_orderedIndexes im) →
  (∀ i row, vrs_get i v = Some row → indexable im row) →
  ∃ im' store', rebuildIndexes schema im store = (Ok tt, im', store') ∧
    rs_rep store' v ∧ same_defs im im' ∧ im_reflects im' v.
Proof.
  intros Hrep Ht Hidx. unfold IndexManager.rebuildIndexes. destruct (clear_holds im Ht) as [Hc Hs].
  destruct (add_rows_ok (seq 0 (rs_capacity store)) (clear_indexes im) store v _ _ Hrep Hc)
    as (im' & store' & E & Hrep' & Hs' & Hh).
  { intros i row _ Hg. eapply same_defs_indexable; [done|]. by eapply Hidx. }
  exists im', store'. rewrite E. split_and!; [done..|by eapply same_defs_trans|].
  rewrite (rs_capacity_sim store v), live_at_entries in Hh by done.
  eapply im_holds_perm, Hh; intros name; simpl; apply reflexive_eq; symmetry;
    by apply (index_log_same (clear_indexes im) im').
Qed.

(** ** Creating and dropping *)

Lemma reflects_trees im v : im_reflects im v → Forall (λ e, 2 ≤ bt_maxKeysPerNode e.2) (im_orderedIndexes im).
Proof.
  intros [_ Ho]. eapply Forall_impl; [exact Ho|]. intros e (max & t & l & ((Hm & _ & Hst) & _) & _).
  by rewrite (st_max _ _ _ _ _ _ Hst).
Qed.

Lemma same_defs_wf im im' v : same_defs im im' → im_reflects im' v → im_wf im → im_wf im'.
Proof.
  intros (E1 & E2 & E3 & E4) Hr [Hh Ho Hn Hen He Hc Ht].
  split; rewrite ?E1, ?E2, ?E3, ?E4; try done. by eapply reflects_trees.
Qed.

Lemma define_wf name cols e im : im_wf im → name ∉ (im_indexColumns im).*1 →
  Forall (λ i, i < length schema) cols → im_wf (im_define name cols e im).
Proof.
  intros [Hh Ho Hn Hen He Hc Ht] Hname Hcols.
  assert (smap_find name (im_indexColumns im) = None) as Hf by (by apply smap_find_None).
  assert (smap_find name (im_orderedIndexes im) = None) as Hf' by (apply smap_find_None; by rewrite Ho).
  split; simpl.
  - by apply smap_emplace_keys.
  - by apply smap_emplace_keys.
  - rewrite smap_emplace_perm by done. by apply NoDup_cons.
  - destruct e as [e|]; [|done]. rewrite smap_emplace_perm by (apply smap_find_None; set_solver).
    apply NoDup_cons. set_solver.
  - rewrite smap_emplace_perm by done. destruct e as [e|]; [|set_solver].
    rewrite smap_emplace_perm; [set_solver|]. apply smap_find_None. set_solver.
  - rewrite smap_emplace_perm by done. by constructor.
  - rewrite smap_emplace_perm by done. constructor; [simpl; lia|done].
Qed.

Lemma drop_keys name k im row : k ≠ name →
  hkeys (dropIndex name im).2 k row = hkeys im k row ∧ okeys (dropIndex name im).2 k row = okeys im k row.
Proof.
  intros Hk. unfold dropIndex. destruct (_ && _); [done|].
  unfold hkeys, okeys, IndexManager.hash_keys, IndexManager.indexKeyForRow, isTrigram, smap_at. simpl.
  by rewrite !smap_find_erase_ne.
Qed.

(** Dropping an index keeps the others exact. *)
Lemma drop_reflects name im v : im_wf im → im_reflects im v →
  im_wf (dropIndex name im).2 ∧ im_reflects (dropIndex name im).2 v.
Proof.
  intros Hwf [Hh Ho]. pose proof Hwf as [Eh Eo Hn Hen He Hc Ht]. pose proof (drop_keys name) as Hdk.
  assert (∀ k, k ≠ name → index_log_of (hkeys (dropIndex name im).2 k) v = index_log_of (hkeys im k) v ∧
    index_log_of (okeys (dropIndex name im).2 k) v = index_log_of (okeys im k) v) as Hlog.
  { intros k Hk. unfold index_log_of, row_log. split; apply flat_map_ext; intros e;
      destruct (Hdk k im e.2 Hk) as [E1 E2]; by rewrite ?E1, ?E2. }
  clear Hdk. revert Hlog. unfold dropIndex. destruct (_ && _); [done|]. simpl. intros Hlog.
  rewrite <- Eh in Hn. split; split; simpl.
  - by apply smap_erase_keys.
  - by apply smap_erase_keys.
  - rewrite Eh in Hn. by apply smap_erase_NoDup.
  - by apply smap_erase_NoDup.
  - intros k (e & -> & [Hin Hne]%smap_erase_elem)%list_elem_of_fmap; [|done].
    apply smap_erase_keep; [done|]. apply He. by apply list_elem_of_fmap_2.
  - by apply smap_erase_Forall.
  - by apply smap_erase_Forall.
  - apply Forall_forall. intros e [Hin Hne]%smap_erase_elem; [|done]. rewrite Forall_forall in Hh.
    destruct (Hlog e.1 Hne) as [-> _]. auto.
  - apply Forall_forall. intros e [Hin Hne]%smap_erase_elem; [|by rewrite Eo, <- Eh]. rewrite Forall_forall in Ho.
    destruct (Hlog e.1 Hne) as [_ ->]. auto.
Qed.

Lemma drop_define name cols e im im' : im_wf im → name ∉ (im_indexColumns im).*1 →
  same_defs (im_define name cols e im) im' → same_defs im (dropIndex name im').2.
Proof.
  intros [Hh Ho Hn Hen He Hc Ht] Hname (E1 & E2 & E3 & E4). simpl in *.
  assert (smap_find name (im_indexColumns im) = None) as Hf by (by apply smap_find_None).
  assert (smap_find name (im_indexExpressions im) = None) as Hfe by (apply smap_find_None; set_solver).
  assert (smap_find name (im_indexes im) = None) as Hfh by (apply smap_find_None; by rewrite Hh).
  assert (smap_find name (im_orderedIndexes im) = None) as Hfo by (apply smap_find_None; by rewrite Ho).
  unfold dropIndex. rewrite E1. unfold smap_contains at 1. rewrite smap_find_emplace, String.eqb_refl by done.
  simpl. split_and!; simpl.
  - by rewrite smap_erase_emplace.
  - rewrite E2. destruct e; [by rewrite smap_erase_emplace|]. by apply smap_erase_fresh.
  - rewrite (smap_erase_keys _ _ _ E3). by rewrite smap_erase_emplace.
  - rewrite (smap_erase_keys _ _ _ E4). by rewrite smap_erase_emplace.
Qed.

Lemma registerIndex_accepts name cols e rebuild im store : im_wf im →
  cols ≠ [] → (e = None ∨ length cols = 1) → name ∉ (im_indexColumns im).*1 →
  Forall (λ i, i < length schema) cols →
  registerIndex i2d dadd dsub name cols e rebuild schema im store =
  if rebuild then
    match rebuildIndexes schema (im_define name cols e im) store with
    | (Throw err, im, store) => (Throw err, im, store)
    | (Ok _, im, store) => (Ok true, im, store)
    end
  else (Ok true, im_define name cols e im, store).
Proof.
  intros [Hh Ho Hn Hen He Hc Ht] Hne He1 Hname Hcols. unfold registerIndex.
  assert (existsb (λ i, Nat.leb (length schema) i) cols = false) as ->.
  { apply not_true_iff_false. rewrite existsb_exists. intros (i & Hi & Hl%Nat.leb_le).
    rewrite Forall_forall in Hcols. apply list_elem_of_In, Hcols in Hi. lia. }
  unfold smap_contains. rewrite (proj2 (smap_find_None name (im_indexColumns im))) by done.
  rewrite (proj2 (smap_find_None name (im_indexes im))) by (by rewrite Hh). simpl.
  destruct cols as [|c cols]; [done|]. cbn [length Nat.eqb].
  destruct He1 as [->|[= ->]]; [done|]. by destruct e.
Qed.

(** CREATE INDEX and its undo.  For a consistent manager, a fresh name and
    existing columns, with the keys of all live rows defined: [registerIndex]
    succeeds, its manager is consistent and has the definition, and afterwards
    every index, the new one and the old ones, holds exactly the keys of the live
    rows, in the hash index and in the B+ tree.  Dropping the index brings back
    the definitions as they were, and the other indexes are still exact. *)
Theorem create_index_reflects name cols e im store v :
  im_wf im → rs_rep store v → cols ≠ [] → (e = None ∨ length cols = 1) →
  name ∉ (im_indexColumns im).*1 → Forall (λ i, i < length schema) cols →
  (∀ i row, vrs_get i v = Some row → indexable (im_define name cols e im) row) →
  ∃ im' store', registerIndex i2d dadd dsub name cols e true schema im store = (Ok true, im', store') ∧
    rs_rep store' v ∧ im_wf im' ∧ im_reflects im' v ∧
    smap_find name (im_indexColumns im') = Some cols ∧ smap_find name (im_indexExpressions im') = e ∧
    same_defs im (dropIndex name im').2 ∧ im_wf (dropIndex name im').2 ∧ im_reflects (dropIndex name im').2 v.
Proof.
  intros Hwf Hrep Hne He1 Hname Hcols Hidx. rewrite registerIndex_accepts by done.
  pose proof (define_wf name cols e im Hwf Hname Hcols) as Hwf1.
  destruct (rebuild_ok (im_define name cols e im) store v) as (im' & store' & -> & Hrep' & Hs & Hr);
    [done|apply Hwf1|done|].
  exists im', store'. pose proof (same_defs_wf _ _ _ Hs Hr Hwf1) as Hwf'.
  assert (smap_find name (im_indexExpressions im) = None) as Hfe.
  { apply smap_find_None. intros Hin. by apply Hname, (iw_exprs _ Hwf). }
  destruct (drop_reflects name im' v Hwf' Hr) as [Hwd Hrd]. pose proof Hs as (E1 & E2 & _).
  split_and!; try done.
  - rewrite E1. simpl. rewrite smap_find_emplace by (by apply smap_find_None). by rewrite String.eqb_refl.
  - rewrite E2. simpl. destruct e as [x|]; [|done]. rewrite smap_find_emplace by done. by rewrite String.eqb_refl.
  - by eapply drop_define.
Qed.

(** Adding a row that the store already holds. *)
Lemma addRow_maintains row im store v rowId v' : rs_rep store v' →
  vrs_liveEntries v' ≡ₚ vrs_liveEntries v ++ [(rowId, row)] → vrs_get rowId v' = Some row →
  im_reflects im v → indexable im row →
  ∃ im' store', addRowToIndexes rowId schema im store = (Ok tt, im', store') ∧
    rs_rep store' v' ∧ same_defs im im' ∧ im_reflects im' v'.
Proof.
  intros Hrep Hlive Hget Hr Hidx.
  destruct (addRow_ok im store v' rowId _ _ Hrep Hr) as (im' & store2 & E2 & Hrep2 & Hs & Hh).
  { intros row'. rewrite Hget. by intros [= ->]. }
  exists im', store2. split_and!; try done. rewrite Hget in Hh.
  eapply im_holds_perm, Hh; intros name; simpl; destruct (index_log_same im im' v' name Hs) as [Eh Eo];
    rewrite ?Eh, ?Eo; unfold index_log_of; symmetry; rewrite (Permutation_flat_map _ Hlive), flat_map_app; simpl;
    by rewrite app_nil_r.
Qed.

(** inserting keeps the indexes exact.  After appending a row whose keys are
    defined to the store and adding it with [addRowToIndexes], every index again
    holds exactly the keys of the live rows, the appended one included; the
    definitions do not change. *)
Theorem insert_maintains_indexes row im store v :
  rs_rep store v → storable_row row → im_reflects im v → indexable im row →
  ∃ rowId store1 im' store2, rs_append row store = Ok (rowId, store1) ∧
    addRowToIndexes rowId schema im store1 = (Ok tt, im', store2) ∧
    rs_rep store2 (vrs_append row v).2 ∧ same_defs im im' ∧ im_reflects im' (vrs_append row v).2.
Proof.
  intros Hrep Hst Hr Hidx. destruct (rs_append_sim store v row Hrep Hst) as (store1 & E & Hrep1).
  destruct (append_live_entries row v (rs_rep_inv _ _ Hrep)) as [Hlive Hget].
  destruct (addRow_maintains row im store1 v _ _ Hrep1 Hlive Hget Hr Hidx) as (im' & store2 & E2 & Hrest).
  by exists (vrs_append row v).1, store1, im', store2.
Qed.

(** ** Lookups *)

(** The rows a scan with the test returns. *)
Definition scan_ids (test : Row → bool) (v : VectorRowStore) : list RowId :=
  (filter (λ e, test e.2 = true) (vrs_liveEntries v)).*1.

(** The comparison of a column with a value. *)
Definition column_test (i : nat) (op : ComparisonOperator) (value : Value) (row : Row) : bool :=
  match row !! i with Some x => compareValues x op value | None => false end.

Lemma log_scan (P : Value → bool) (keys : Row → list Value) (test : Row → bool) v :
  (∀ row, P <$> keys row = (if test row then [true] else []) ∨ P <$> keys row = [false] ∧ test row = false) →
  (filter (λ e, P e.1 = true) (index_log_of keys v)).*2 = scan_ids test v.
Proof.
  intros Hk. unfold index_log_of, scan_ids. induction (vrs_liveEntries v) as [|[i row] l IH]; [done|].
  cbn [flat_map]. rewrite filter_app, fmap_app, IH. rewrite (filter_test (λ e : RowId * Row, test e.2)). unfold row_log at 1. cbn [fst snd].
  specialize (Hk row). destruct (keys row) as [|k [|k' ks]]; csimpl in *.
  - destruct (test row); naive_solver.
  - rewrite (filter_test (λ e, P e.1)). simpl. destruct (P k), (test row); naive_solver.
  - destruct (test row); naive_solver.
Qed.

(** The columns of a column list by position. *)
Definition columns_at (idxs : list nat) (columns : list string) : Prop :=
  Forall2 (λ i c, ∃ col, schema !! i = Some col ∧ col_name col = c) idxs columns.

(** What [column_index] returns. *)
Definition index_on (columns : list string) (defs : list (string * list nat))
    (exprs : list (string * IndexExpression)) (name : string) : Prop :=
  ∃ idxs, (name, idxs) ∈ defs ∧ smap_find name exprs = None ∧ columns_at idxs columns.

Lemma columns_equal_ok idxs columns : Forall (λ i, i < length schema) idxs → length idxs = length columns →
  ∃ b, columns_equal idxs columns schema = Ok b ∧ (b = true → columns_at idxs columns).
Proof.
  intros Hi. revert columns. induction Hi as [|i idxs Hi _ IH]; intros [|c columns]; try done.
  - intros _. exists true. split; [done|]. constructor.
  - intros [= El]. apply lookup_lt_is_Some_2 in Hi as [col Hcol]. cbn [columns_equal]. unfold column_name.
    rewrite Hcol. cbn [mbind result_bind]. destruct (String.eqb_spec (col_name col) c) as [Ec|]; simpl.
    + destruct (IH columns El) as (b & -> & Hb). exists b. split; [done|]. intros Ht. constructor; [by exists col|by apply Hb].
    + by exists false.
Qed.

Lemma column_loop_ok columns defs exprs :
  Forall (λ e, Forall (λ i, i < length schema) e.2) defs →
  ∃ o, column_index_loop defs exprs columns schema = Ok o ∧ ∀ name, o = Some name → index_on columns defs exprs name.
Proof.
  induction 1 as [|[name cols] defs Hc _ IH]; [by exists None|]. simpl in Hc.
  destruct IH as (o & E & Ho). cbn [column_index_loop]. rewrite E.
  assert (∃ o', Ok o = Ok o' ∧ ∀ n, o' = Some n → index_on columns ((name, cols) :: defs) exprs n) as Hskip.
  { exists o. split; [done|]. intros n (idxs & Hin & Hrest)%Ho. exists idxs.
    split; [by apply list_elem_of_further|done]. }
  unfold smap_contains. destruct (smap_find name exprs) eqn:Ee; [done|].
  unfold columnsMatch. destruct (Nat.eqb_spec (length cols) (length columns)) as [El|]; [|done]. simpl.
  destruct (columns_equal_ok cols columns Hc El) as ([] & -> & Hb); [|done]. simpl.
  eexists. split; [done|]. intros n [= <-]. exists cols. split_and!; [by apply list_elem_of_here|done|auto].
Qed.

Lemma findColumn_lookup (sch : Schema) i col : NoDup (col_name <$> sch) → sch !! i = Some col →
  findColumn sch (col_name col) = Some i.
Proof.
  revert i. induction sch as [|c sch IH]; intros i Hnd; [done|]. apply NoDup_cons in Hnd as [Hc Hnd].
  destruct i as [|i]; simpl; [intros [= ->]; by rewrite String.eqb_refl|]. intros Hi.
  destruct (String.eqb_spec (col_name c) (col_name col)) as [E|]; [|by rewrite (IH i)].
  destruct Hc. rewrite E. apply (list_elem_of_fmap_2 col_name _ col). by eapply list_elem_of_lookup_2.
Qed.

(** The key of a row in an index on the columns [idxs]. *)
Definition column_key (idxs : list nat) (row : Row) : result Value :=
  parts ← row_parts row idxs; match parts with [v] => Ok v | _ => composite parts end.

Lemma column_keys im name idxs row : smap_find name (im_indexExpressions im) = None →
  smap_find name (im_indexColumns im) = Some idxs →
  hkeys im name row = match column_key idxs row with Ok k => [k] | Throw _ => [] end ∧
  okeys im name row = match column_key idxs row with Ok k => [k] | Throw _ => [] end.
Proof.
  intros He Hc. unfold hkeys, okeys, IndexManager.hash_keys, isTrigram, IndexManager.indexKeyForRow, smap_at, column_key.
  rewrite He, Hc. cbn [mbind result_bind]. by destruct (row_parts row idxs) as [[|v [|w vs]]|].
Qed.

Lemma column_key_single i row :
  column_key [i] row = match row !! i with Some v => Ok v | None => Throw (out_of_range "vector index out of range") end.
Proof. unfold column_key. simpl. by destruct (row !! i). Qed.

Lemma hash_holds_find log h key : hash_holds log h → comparable key →
  HashIndex_find key h ≡ₚ (filter (λ e, Value_eqb e.1 key = true) log).*2.
Proof. intros (l & Hr & Hp) Hk. rewrite (hr_find _ _ Hr key Hk). apply (Hp _ (respects_eq key Hk)). Qed.

Lemma tree_holds_find log b op value : tree_holds log b → comparable value →
  ∃ ids, orderedFind b op value = Ok (Some ids) ∧
    ids ≡ₚ (filter (λ e, compareValues e.1 op value = true) log).*2.
Proof.
  intros (max & t & l & (Hrep & Hc & Hf) & Hp) Hv. pose proof (rep_kvs_ok _ _ _ Hrep) as [Hok _].
  destruct op; simpl.
  - rewrite (find_ok _ _ _ Hrep) by done. eexists. split; [done|]. rewrite Hf by done. apply (Hp _ (respects_eq value Hv)).
  - rewrite (greaterThan_ok _ _ _ Hrep) by done. eexists. split; [done|]. unfold kv_greater.
    rewrite (range_log (λ k, Value_ltb value k) _ l); [apply (Hp _ (respects_gt value Hv))|by apply respects_gt|done..].
  - rewrite (lessThan_ok _ _ _ Hrep) by done. eexists. split; [done|]. unfold kv_less.
    rewrite (range_log (λ k, Value_ltb k value) _ l); [apply (Hp _ (respects_lt value Hv))|by apply respects_lt|done..].
Qed.

(** A test of the keys of an index on [idxs], as a test of rows. *)
Definition key_test (idxs : list nat) (P : Value → bool) (row : Row) : bool :=
  match column_key idxs row with Ok k => P k | Throw _ => false end.

Lemma key_test_keys (P : Value → bool) idxs row :
  P <$> match column_key idxs row with Ok k => [k] | Throw _ => [] end =
    (if key_test idxs P row then [true] else []) ∨
  P <$> match column_key idxs row with Ok k => [k] | Throw _ => [] end = [false] ∧ key_test idxs P row = false.
Proof. unfold key_test. destruct (column_key idxs row) as [k|]; simpl; [|by left]. destruct (P k); auto. Qed.

(** A hash lookup on a column list, as a scan. *)
Lemma indexedLookup_scan im v columns key : im_wf im → im_reflects im v → comparable key →
  ∃ r, indexedLookup im columns key schema = Ok r ∧ hasIndex im columns schema = Ok (bool_decide (is_Some r)) ∧
    ∀ ids, r = Some ids → ∃ idxs, columns_at idxs columns ∧
      ids ≡ₚ scan_ids (key_test idxs (λ k, Value_eqb k key)) v.
Proof.
  intros Hwf [Hh _] Hk. unfold indexedLookup, hasIndex, column_index.
  destruct (column_loop_ok columns (im_indexColumns im) (im_indexExpressions im)) as (o & -> & Hs); [apply Hwf|].
  destruct o as [name|]; [|by exists None]. destruct (Hs name eq_refl) as (idxs & Hin & He & Hcols).
  assert (name ∈ (im_indexColumns im).*1) as Hname by (by apply (list_elem_of_fmap_2 fst _ (name, idxs))).
  pose proof (smap_find_NoDup _ _ _ (iw_nodup _ Hwf) Hin) as Hc.
  destruct (smap_Forall_find name _ _ Hh) as (h & Eh & Hhh); [by rewrite (iw_hash _ Hwf)|].
  cbn [fst snd] in Hhh. cbn [mbind result_bind]. unfold smap_at. rewrite Eh. cbn [mbind result_bind].
  exists (Some (HashIndex_find key h)). split; [done|]. split; [done|]. intros ? [= <-]. exists idxs. split; [done|].
  rewrite (hash_holds_find _ _ _ Hhh Hk). apply reflexive_eq, (log_scan (λ k, Value_eqb k key)). intros row.
  destruct (column_keys im name idxs row He Hc) as [-> _]. apply key_test_keys.
Qed.

(** A range lookup on one column, as a scan. *)
Lemma orderedLookup_scan im v c op value : im_wf im → im_reflects im v → comparable value →
  ∃ r, orderedLookup im c op value schema = Ok r ∧ hasIndex im [c] schema = Ok (bool_decide (is_Some r)) ∧
    ∀ ids, r = Some ids → ∃ idxs, columns_at idxs [c] ∧
      ids ≡ₚ scan_ids (key_test idxs (λ k, compareValues k op value)) v.
Proof.
  intros Hwf [_ Ho] Hv. unfold orderedLookup, hasIndex, column_index.
  destruct (column_loop_ok [c] (im_indexColumns im) (im_indexExpressions im)) as (o & -> & Hs); [apply Hwf|].
  destruct o as [name|]; [|by exists None]. destruct (Hs name eq_refl) as (idxs & Hin & He & Hcols).
  assert (name ∈ (im_indexColumns im).*1) as Hname by (by apply (list_elem_of_fmap_2 fst _ (name, idxs))).
  pose proof (smap_find_NoDup _ _ _ (iw_nodup _ Hwf) Hin) as Hc.
  destruct (smap_Forall_find name _ _ Ho) as (b & Eb & Hb); [by rewrite (iw_ordered _ Hwf)|].
  cbn [fst snd] in Hb. cbn [mbind result_bind]. unfold smap_at. rewrite Eb. cbn [mbind result_bind].
  destruct (tree_holds_find _ b op value Hb Hv) as (ids & -> & Hids).
  exists (Some ids). split; [done|]. split; [done|]. intros ? [= <-]. exists idxs. split; [done|].
  rewrite Hids. apply reflexive_eq, (log_scan (λ k, compareValues k op value)). intros row.
  destruct (column_keys im name idxs row He Hc) as [_ ->]. apply key_test_keys.
Qed.

Lemma key_test_column i op value row : key_test [i] (λ k, compareValues k op value) row = column_test i op value row.
Proof. unfold key_test, column_test. rewrite column_key_single. by destruct (row !! i). Qed.

Lemma scan_ids_ext test test' v : (∀ row, test row = test' row) → scan_ids test v = scan_ids test' v.
Proof. intros E. unfold scan_ids. f_equal. apply list_filter_iff. intros e. by rewrite E. Qed.

Lemma columns_at_single idxs c : NoDup (col_name <$> schema) → columns_at idxs [c] →
  ∃ i, idxs = [i] ∧ findColumn schema c = Some i.
Proof.
  intros Hnd Hc. inversion Hc as [|i ? idxs' ? (col & Hcol & <-) Hn]; subst. inversion Hn; subst.
  exists i. split; [done|]. by apply findColumn_lookup.
Qed.

(** An index lookup is a scan.  With exact indexes and distinct column names,
    [orderedLookup] and [indexedLookup] on a column never throw.  They return
    nothing only if the table has no index on the column; otherwise they return,
    up to order, the identifiers of the live rows a scan comparing the column with
    the same operator returns: no row is missed, none is listed twice. *)
Theorem lookup_is_scan im v c op value :
  im_wf im → im_reflects im v → NoDup (col_name <$> schema) → comparable value →
  ∃ r, orderedLookup im c op value schema = Ok r ∧ hasIndex im [c] schema = Ok (bool_decide (is_Some r)) ∧
    ∀ ids, r = Some ids → ∃ i ids', findColumn schema c = Some i ∧
      ids ≡ₚ scan_ids (column_test i op value) v ∧
      indexedLookup im [c] value schema = Ok (Some ids') ∧ ids' ≡ₚ scan_ids (column_test i Equal value) v.
Proof.
  intros Hwf Hr Hnd Hv. destruct (orderedLookup_scan im v c op value Hwf Hr Hv) as (r & E & Eh & Hids).
  destruct (indexedLookup_scan im v [c] value Hwf Hr Hv) as (r' & E' & Eh' & Hids').
  exists r. split; [done|]. split; [done|]. intros ids ->. destruct (Hids ids eq_refl) as (idxs & Hc & Hp).
  rewrite Eh in Eh'. injection Eh' as Es. destruct r' as [ids'|]; [|by vm_compute in Es]. destruct (Hids' ids' eq_refl) as (idxs' & Hc' & Hp').
  destruct (columns_at_single idxs c) as (i & -> & Hi); [done..|].
  destruct (columns_at_single idxs' c) as (j & -> & Hj); [done..|]. rewrite Hi in Hj. injection Hj as <-.
  exists i, ids'. split_and!; [done|..|done|].
  - by rewrite Hp, (scan_ids_ext _ _ _ (key_test_column i op value)).
  - by rewrite Hp', (scan_ids_ext _ _ _ (key_test_column i Equal value)).
Qed.

(** ** A failing CREATE INDEX *)

Lemma smap_iter_keys {V} (f : string → V → result V) (m : list (string * V)) : (smap_iter f m).2.*1 = m.*1.
Proof.
  induction m as [|[k v] m IH]; [done|]. cbn [smap_iter]. destruct (f k v); [|done].
  destruct (smap_iter f m) as [r m']. simpl in *. by f_equal.
Qed.

Lemma addRow_defs rowId im (store : S) : same_defs im (addRowToIndexes rowId schema im store).1.2.
Proof.
  unfold IndexManager.addRowToIndexes. destruct (rs_get rowId store) as [[[row|] store1]|]; try done.
  pose proof (smap_iter_keys (add_to_hash i2d dadd dsub im schema rowId row) (im_indexes im)) as Hh.
  pose proof (smap_iter_keys (add_to_ordered i2d dadd dsub im schema rowId row) (im_orderedIndexes im)) as Ho.
  destruct (smap_iter _ (im_indexes im)) as [[] indexes]; simpl in *; [|done].
  by destruct (smap_iter _ (im_orderedIndexes im)) as [r ordered].
Qed.

Lemma add_rows_defs ids im (store : S) : same_defs im (add_rows i2d dadd dsub ids schema im store).1.2.
Proof.
  revert im store. induction ids as [|i ids IH]; intros im store; [done|]. cbn [add_rows].
  pose proof (addRow_defs i im store) as Hs. destruct (addRowToIndexes i schema im store) as [[[] im1] store1]; [|done].
  eapply same_defs_trans; [exact Hs|apply IH].
Qed.

(** A CREATE INDEX that throws stays half done.  When the key of some row
    cannot be computed, [registerIndex] throws; the definition is in the manager
    all the same, the planner finds the expression, the index is listed, and
    creating it again is refused as a duplicate. *)
Theorem failed_create_index_stays name cols e im store err im' store' :
  im_wf im → registerIndex i2d dadd dsub name cols e true schema im store = (Throw err, im', store') →
  smap_find name (im_indexColumns im') = Some cols ∧ name ∈ listIndexes im' ∧
  (∀ x, e = Some x → comparable (ie_literal x) → hasExpressionIndex im' x = true) ∧
  ∀ cols' e' rebuild (store2 : S),
    registerIndex i2d dadd dsub name cols' e' rebuild schema im' store2 = (Ok false, im', store2).
Proof.
  intros [Hh Ho Hn Hen He Hc Ht] Hreg.
  assert (smap_find name (im_indexColumns im) = None ∧ same_defs (im_define name cols e im) im') as [Hf Hs].
  { revert Hreg. unfold registerIndex, IndexManager.rebuildIndexes, smap_contains.
    destruct (Nat.eqb (length cols) 0); [done|]. destruct (match e with Some _ => _ | None => _ end); [done|].
    destruct (smap_find name (im_indexes im)); [done|].
    destruct (smap_find name (im_indexColumns im)); [done|]. simpl. destruct (existsb _ cols); [done|].
    set (im1 := im_define name cols e im).
    pose proof (add_rows_defs (seq 0 (rs_capacity store)) (clear_indexes im1) store) as Hs.
    destruct (add_rows _ _ _ _ _ (clear_indexes im1) store) as [[[] im2] store2]; intros [= <- <- <-].
    split; [done|]. eapply same_defs_trans; [|exact Hs]. unfold clear_indexes, same_defs. simpl.
    by rewrite <- !list_fmap_compose. }
  assert (smap_find name (im_indexExpressions im) = None) as Hfe by (apply smap_find_None in Hf; apply smap_find_None; set_solver).
  destruct Hs as (E1 & E2 & E3 & _). simpl in *.
  assert (smap_find name (im_indexColumns im') = Some cols) as Hcol.
  { rewrite E1, smap_find_emplace by done. by rewrite String.eqb_refl. }
  split_and!; [done|..].
  - unfold listIndexes. rewrite E3. erewrite (smap_emplace_keys _ _ cols), smap_emplace_perm by done. set_solver.
  - intros x -> Hx. unfold hasExpressionIndex. apply existsb_exists. exists (name, x). split.
    + apply list_elem_of_In, smap_find_Some. rewrite E2, smap_find_emplace by done. by rewrite String.eqb_refl.
    + unfold IndexExpression_eqb. simpl. by rewrite bool_decide_eq_true_2, String.eqb_refl, Value_eqb_refl.
  - intros cols' e' rebuild store2. unfold registerIndex, smap_contains. rewrite Hcol, orb_true_r.
    by repeat case_match.
Qed.
End manager.

(** ** Examples *)

Definition example_schema : Schema :=
  [mkColumn "id" CT_Int false false true; mkColumn "qty" CT_Int true false false].
Definition example_store : VectorRowStore :=
  mkVectorRowStore [Some [VInt 1; VInt 7]; None; Some [VInt 3; VInt 7]; Some [VInt 4; VInt 9]] [1] 3.
Definition example_im : IndexManager := im_define "by_qty" [1] None im_empty.
Abbreviation example_register := (registerIndex (λ z, z) Z.add Z.sub).
Abbreviation example_reflects := (im_reflects (λ z, z) Z.add Z.sub example_schema).

Lemma example_inv : vrs_inv example_store.
Proof.
  split; [apply NoDup_singleton| |done]. intros i. unfold example_store. simpl.
  destruct i as [|[|[|[|i]]]]; simpl; set_solver.
Qed.

Lemma example_im_wf (sch : Schema) : im_wf sch im_empty.
Proof. split; simpl; done || apply NoDup_nil_2 || apply Forall_nil_2. Qed.

Lemma example_indexable im name i row : (im_indexes im).*1 = [name] → (im_orderedIndexes im).*1 = [name] →
  smap_find name (im_indexExpressions im) = None → smap_find name (im_indexColumns im) = Some [i] →
  (∃ x, row !! i = Some x ∧ comparable x) → indexable (λ z, z) Z.add Z.sub example_schema im row.
Proof.
  intros E1 E2 E3 E4 (x & Hx & Hc). unfold indexable, hash_keys, indexKeyForRow, isTrigram, smap_at.
  rewrite E1, E2. split; intros n ->%list_elem_of_singleton; rewrite E3, E4; simpl; rewrite Hx; simpl; eauto.
Qed.

Lemma example_rows (P : Row → Prop) : P [VInt 1; VInt 7] → P [VInt 3; VInt 7] → P [VInt 4; VInt 9] →
  ∀ i row, vrs_get i example_store = Some row → P row.
Proof. intros H1 H2 H3 i row. destruct i as [|[|[|[|i]]]]; cbn; intros E; by simplify_eq. Qed.

Lemma create_index_reflects_witness :
  ∃ im store, example_register "by_qty" [1] None true example_schema im_empty example_store = (Ok true, im, store) ∧
    example_reflects im example_store ∧ orderedLookup im "qty" Greater (VInt 8) example_schema = Ok (Some [3]).
Proof.
  destruct (create_index_reflects (λ z, z) Z.add Z.sub example_schema "by_qty" [1] None im_empty
    example_store example_store) as (im & store & E & _ & _ & Hr & _).
  - apply example_im_wf.
  - split; [done|apply example_inv].
  - done.
  - by left.
  - set_solver.
  - repeat constructor.
  - intros i row. revert i row. apply example_rows; eapply example_indexable; try done; by eexists.
  - exists im, store. split; [exact E|]. split; [exact Hr|].
    assert (im = (example_register "by_qty" [1] None true example_schema im_empty example_store).1.2) as ->
      by (by rewrite E).
    vm_compute. reflexivity.
Defined.

Lemma example_im_reflects : ∃ im, example_reflects im example_store ∧ im_wf example_schema im ∧
  same_defs example_im im.
Proof.
  assert (im_wf example_schema example_im) as Hwf.
  { apply define_wf; [apply example_im_wf|set_solver|repeat constructor]. }
  destruct (rebuild_ok (λ z, z) Z.add Z.sub example_schema example_im example_store example_store)
    as (im & store & E & _ & Hs & Hr).
  - split; [done|apply example_inv].
  - apply Hwf.
  - apply example_rows; eapply example_indexable; try done; by eexists.
  - exists im. split_and!; try done. by eapply same_defs_wf.
Qed.

Lemma insert_maintains_indexes_witness :
  ∃ im im' store, addRowToIndexes (λ z, z) Z.add Z.sub 1 example_schema im
      (vrs_append [VInt 5; VInt 2] example_store).2 = (Ok tt, im', store) ∧
    example_reflects im' (vrs_append [VInt 5; VInt 2] example_store).2.
Proof.
  destruct example_im_reflects as (im & Hr & _ & Hs).
  destruct (insert_maintains_indexes (λ z, z) Z.add Z.sub example_schema [VInt 5; VInt 2] im
    example_store example_store) as (rowId & store1 & im' & store2 & E1 & E2 & _ & _ & Hr').
  - split; [done|apply example_inv].
  - split; [unfold size_ok; simpl; lia|]. repeat constructor; done.
  - exact Hr.
  - eapply same_defs_indexable; [exact Hs|]. eapply example_indexable; try done; by eexists.
  - exists im, im', store2. split; [|exact Hr']. injection E1 as <- <-. exact E2.
Defined.

Lemma lookup_is_scan_witness :
  ∃ im r, orderedLookup im "qty" Less (VInt 8) example_schema = Ok r ∧
    ∀ ids, r = Some ids → ids ≡ₚ [0; 2].
Proof.
  destruct example_im_reflects as (im & Hr & Hwf & _).
  destruct (lookup_is_scan (λ z, z) Z.add Z.sub example_schema im example_store "qty" Less (VInt 8))
    as (r & E & _ & Hids).
  - exact Hwf.
  - exact Hr.
  - vm_compute. repeat constructor; set_solver.
  - done.
  - exists im, r. split; [exact E|]. intros ids Hs. destruct (Hids ids Hs) as (i & ids' & Hc & Hp & _).
    injection Hc as <-. exact Hp.
Defined.

(** An index on [qty + 1] over a row whose [qty] is NULL. *)
Lemma failed_create_index_stays_witness :
  let e := mkIndexExpression K_Add "qty" (VInt 1) in
  let store := mkVectorRowStore [Some [VInt 1; VNull]] [] 1 in
  let r := example_register "i" [1] (Some e) true example_schema im_empty store in
  (∃ err, r.1.1 = Throw err) ∧ hasExpressionIndex r.1.2 e = true ∧ "i" ∈ listIndexes r.1.2.
Proof.
  intros e store r. destruct r as [[res im'] store'] eqn:E. unfold r in E.
  assert (∃ err, res = Throw err) as [err ->].
  { vm_compute in E. injection E as <- _ _. by eexists. }
  destruct (failed_create_index_stays (λ z, z) Z.add Z.sub example_schema "i" [1] (Some e) im_empty
    store err im' store' (example_im_wf _) E) as (_ & Hl & He & _).
  split; [by exists err|]. split; [by apply He|exact Hl].
Defined.
