(* ===== verification/IndexRedo.v ===== *)
(** * Redo of index changes

    [hash_since base h] and [tree_since base b]: what the dirty marks of an index
    say of it relative to the state [base] in which the marks were cleared.  The
    operations of the index manager keep them, whatever they are given, and the
    images taken from the marks bring a replica of [base] to the contents of the
    index. *)

From S2P Require Import Prelude Value BinaryIO VectorRowStore HashIndex BTreeIndex BTreeTree BTreeProof BTreeSpec.
From S2P Require Import IndexExpression IndexManager IndexManagerProof.
Local Open Scope nat_scope.

(** ** [operator==] is symmetric and transitive on all values *)

Lemma Value_eqb_symm a b : Value_eqb a b = true → Value_eqb b a = true.
Proof.
  revert b. induction a as [|i|d|s|i|ps IH] using Value_ind'; intros b; destruct b as [|j|d'|s'|j|qs];
    simpl; try done.
  - rewrite !Z.eqb_eq. by intros ->.
  - unfold double_eqb. rewrite !andb_true_iff, !Z.eqb_eq. intuition.
  - rewrite !String.eqb_eq. by intros ->.
  - rewrite !Nat.eqb_eq. by intros ->.
  - revert qs. induction IH as [|p ps Hp _ IH]; intros [|q qs]; simpl; try done.
    rewrite !andb_true_iff. intros [E1 E2]. auto.
Qed.

Lemma Value_eqb_transitive a b c : Value_eqb a b = true → Value_eqb b c = true → Value_eqb a c = true.
Proof.
  revert b c. induction a as [|i|d|s|i|ps IH] using Value_ind'; intros b c;
    destruct b as [|j|d'|s'|j|qs], c as [|k|d''|s''|k|rs]; simpl; try done.
  - rewrite !Z.eqb_eq. congruence.
  - unfold double_eqb. rewrite !andb_true_iff, !Z.eqb_eq. intuition congruence.
  - rewrite !String.eqb_eq. congruence.
  - rewrite !Nat.eqb_eq. congruence.
  - revert qs rs. induction IH as [|p ps Hp _ IH]; intros [|q qs] [|r rs]; simpl; try done.
    rewrite !andb_true_iff. intros [E1 E2] [E3 E4]. eauto.
Qed.

Lemma eqb_comparable a b : comparable a → Value_eqb a b = true → comparable b.
Proof.
  revert b. induction a as [|i|d|s|i|ps IH] using Value_ind'; intros b; destruct b as [|j|d'|s'|j|qs];
    simpl; try done.
  - unfold double_eqb. rewrite !andb_true_iff. intros _ [[_ E] _]. by rewrite E.
  - revert qs. induction IH as [|p ps Hp _ IH]; intros [|q qs]; simpl; try done.
    rewrite !andb_True, andb_true_iff. intros [H1 H2] [E1 E2]. eauto.
Qed.

(** ** Dirty marks of a hash index *)

(** Unless everything is marked, a key that is not marked has the bucket it had,
    and every marked key has a bucket. *)
Definition hash_since (base h : HashIndex) : Prop :=
  (∀ d, d ∈ hi_dirtyKeys h → ∃ k ids, (k, ids) ∈ hi_entries h ∧ (k = d ∨ Value_eqb k d = true)) ∧
  (hi_fullReplaceDirty h = false →
   ∀ k, existsb (λ d, Value_eqb d k) (hi_dirtyKeys h) = false →
     assoc_find k (hi_entries h) = assoc_find k (hi_entries base)).

Lemma hash_since_clear h : hash_since (HashIndex_clearDirtyPages h) (HashIndex_clearDirtyPages h).
Proof. split; [|done]. by intros d ?%elem_of_nil. Qed.

Lemma assoc_find_alter_ne {V} (f : V → V) d key k l : Value_eqb key k = false →
  assoc_find k (assoc_alter f d key l) = assoc_find k l.
Proof.
  intros E. induction l as [|[a v] l IH]; simpl; [by rewrite E|].
  destruct (Value_eqb a key) eqn:Ea; simpl; [|by rewrite IH].
  destruct (Value_eqb a k) eqn:Eb; [|done].
  rewrite (Value_eqb_transitive key a k) in E by auto using Value_eqb_symm. done.
Qed.

Lemma assoc_alter_keys {V} (f : V → V) d key l k v : (k, v) ∈ l → ∃ w, (k, w) ∈ assoc_alter f d key l.
Proof.
  induction l as [|[a w] l IH]; simpl; [by intros ?%elem_of_nil|].
  intros [[= -> ->]|Hin]%elem_of_cons.
  - destruct (Value_eqb a key); eexists; by left.
  - destruct (Value_eqb a key); [eexists; right; exact Hin|]. destruct (IH Hin) as [u Hu]. exists u. by right.
Qed.

Lemma assoc_alter_has {V} (f : V → V) d key l :
  ∃ k v, (k, v) ∈ assoc_alter f d key l ∧ (k = key ∨ Value_eqb k key = true).
Proof.
  induction l as [|[a w] l IH]; simpl; [exists key, (f d); split; by left|].
  destruct (Value_eqb a key) eqn:E; [exists a, (f w); split; [by left|by right]|].
  destruct IH as (k & v & Hin & Hk). exists k, v. split; [by right|done].
Qed.

Lemma hash_since_insert base h key rowId : hash_since base h → hash_since base (HashIndex_insert key rowId h).
Proof.
  intros [Hd Hs]. split; simpl.
  - intros d. unfold mark_key. intros Hin.
    assert (d ∈ hi_dirtyKeys h ∨ d = key) as [Hold| ->].
    { destruct (existsb _ _); [by left|]. apply elem_of_app in Hin as [?|?%list_elem_of_singleton]; auto. }
    + destruct (Hd d Hold) as (k & ids & Hk & Hkd).
      destruct (assoc_alter_keys (λ ids, ids ++ [rowId]) [] key _ _ _ Hk) as [w Hw]. by exists k, w.
    + apply assoc_alter_has.
  - intros Hf k Hk. unfold mark_key in Hk.
    assert (existsb (λ d, Value_eqb d k) (hi_dirtyKeys h) = false ∧ Value_eqb key k = false) as [Hk1 Hk2].
    { destruct (existsb (λ d, Value_eqb d key) (hi_dirtyKeys h)) eqn:E.
      - split; [done|]. destruct (Value_eqb key k) eqn:Ek; [|done]. exfalso.
        apply existsb_exists in E as (d & Hin & Ed). rewrite <- not_true_iff_false in Hk. apply Hk.
        apply existsb_exists. exists d. split; [done|]. by apply (Value_eqb_transitive d key k).
      - rewrite existsb_app in Hk. apply orb_false_iff in Hk as [? Hk]. split; [done|].
        simpl in Hk. by rewrite orb_false_r in Hk. }
    rewrite assoc_find_alter_ne by done. by apply Hs.
Qed.

Lemma hash_since_inserts base h keys rowId : hash_since base h →
  hash_since base (foldl (λ h key, HashIndex_insert key rowId h) h keys).
Proof. revert h. induction keys as [|k keys IH]; intros h Hs; simpl; [done|]. by apply IH, hash_since_insert. Qed.

(** ** Dirty marks of a B+ tree *)

(** A tree without marks is unchanged. *)
Definition tree_since (base b : BTreeIndex) : Prop := bt_hasDirtyPages b = false → b = base.

Definition marked (b : BTreeIndex) : Prop := bt_metadataDirty b = true.

Lemma marked_emplace p n b : marked b → marked (emplace_node p n b).
Proof. unfold emplace_node, marked. by destruct (bt_nodes b !! p). Qed.
Lemma marked_allocate b : marked (allocatePage b).2.
Proof. unfold allocatePage, marked. by destruct (unsnoc _) as [[??]|]. Qed.

Ltac destruct_bind := match goal with
  | H : (_ ← ?m; _) = Ok _ |- _ => destruct m as [[? ?]|?] eqn:?; cbn [mbind result_bind] in H; [|discriminate H]
  end.

Ltac destruct_allocate := match goal with
  | H : context [allocatePage ?b] |- _ => pose proof (marked_allocate b); destruct (allocatePage b) as [? ?]
  end.

Lemma marked_node_mut p b n b' : node_mut p b = Ok (n, b') → marked b'.
Proof.
  unfold node_mut. destruct (node_at _ p); cbn [mbind result_bind]; [|done]. by intros [= _ <-].
Qed.

Lemma marked_insertSeparator path separator right b b' :
  marked b → insertSeparator path separator right b = Ok b' → marked b'.
Proof.
  revert separator right b. induction path as [|p path IH]; intros separator right b Hb; cbn [insertSeparator].
  - intros E. destruct_allocate. injection E as <-. by apply marked_emplace.
  - intros E. destruct_bind. destruct (Nat.ltb _ _).
    + destruct_bind. destruct (_ !! _); [|done].
      destruct_allocate. revert E. apply IH. by apply marked_emplace.
    + injection E as <-. by apply marked_node_mut in Heqr.
Qed.

Lemma marked_insert key rowId b b' : BTreeIndex_insert key rowId b = Ok b' → marked b'.
Proof.
  unfold BTreeIndex_insert, insertIntoLeaf. destruct (pathToLeaf key b) as [path|]; cbn [mbind result_bind]; [|done].
  destruct (path_back path) as [leafId|]; cbn [mbind result_bind]; [|done].
  intros E. destruct_bind. apply marked_node_mut in Heqr.
  destruct (match _ !! _ with Some _ => _ | None => _ end); [by injection E as <-|].
  destruct (Nat.ltb _ _); [|by injection E as <-].
  unfold splitLeaf in E. destruct path as [|leftId path]; [done|]. destruct_bind.
  destruct_allocate. cbn [bn_keys] in E.
  destruct (drop _ _); [done|]. revert E. apply marked_insertSeparator. by apply marked_emplace.
Qed.

Lemma marked_dirty b : marked b → bt_hasDirtyPages b = true.
Proof. unfold marked, bt_hasDirtyPages. intros ->. by rewrite orb_true_r. Qed.

Lemma tree_since_insert base b b' key rowId : BTreeIndex_insert key rowId b = Ok b' → tree_since base b'.
Proof. intros E%marked_insert%marked_dirty E'. congruence. Qed.

(** ** The index manager *)

Definition im_since (base im : IndexManager) : Prop :=
  Forall2 (λ e0 e, e.1 = e0.1 ∧ hash_since e0.2 e.2) (im_indexes base) (im_indexes im) ∧
  Forall2 (λ e0 e, e.1 = e0.1 ∧ tree_since e0.2 e.2) (im_orderedIndexes base) (im_orderedIndexes im).

Lemma smap_iter_since {V} (R : V → V → Prop) (f : string → V → result V) (m0 m : list (string * V)) :
  (∀ k v0 v v', R v0 v → f k v = Ok v' → R v0 v') →
  Forall2 (λ e0 e, e.1 = e0.1 ∧ R e0.2 e.2) m0 m →
  Forall2 (λ e0 e, e.1 = e0.1 ∧ R e0.2 e.2) m0 (smap_iter f m).2.
Proof.
  intros Hf HF. induction HF as [|[k0 v0] [k v] m0 m [Hk Hv] HF IH]; simpl; [constructor|].
  destruct (f k v) as [v'|e] eqn:E; [|by constructor]. destruct (smap_iter f m) as [r m']; simpl in *.
  constructor; [|done]. split; [done|]. by eapply Hf.
Qed.

Section since.
Context {S : Type} `{RowStore S}.
Context (i2d : Z → Z) (dadd dsub : Z → Z → Z).

Lemma addRow_since rowId schema base im store :
  im_since base im → im_since base (addRowToIndexes i2d dadd dsub rowId schema im store).1.2.
Proof.
  intros [Hh Ho]. unfold addRowToIndexes. destruct (rs_get rowId store) as [[[row|] st]|e]; [|done..].
  pose proof (smap_iter_since hash_since (add_to_hash i2d dadd dsub im schema rowId row) _ _ ltac:(
    intros k v0 v v' Hs; unfold add_to_hash; destruct (hash_keys _ _ _ _ _ _ _) as [keys|]; [|done];
    intros [= <-]; by apply hash_since_inserts) Hh) as Hh'.
  pose proof (smap_iter_since tree_since (add_to_ordered i2d dadd dsub im schema rowId row) _ _ ltac:(
    intros k v0 v v' Hs; unfold add_to_ordered; destruct (isTrigram _ _); [by intros [= <-]|];
    destruct (indexKeyForRow _ _ _ _ _ _ _) as [key|]; [|done]; apply tree_since_insert) Ho) as Ho'.
  destruct (smap_iter _ (im_indexes im)) as [[[]|e] hs]; [|by split].
  destruct (smap_iter _ (im_orderedIndexes im)) as [r os]. by split.
Qed.

Lemma add_rows_since ids schema base im store :
  im_since base im → im_since base (add_rows i2d dadd dsub ids schema im store).1.2.
Proof.
  revert im store. induction ids as [|i ids IH]; intros im store Hs; cbn [add_rows]; [done|].
  pose proof (addRow_since i schema base im store Hs) as Hs1.
  destruct (addRowToIndexes _ _ _ i schema im store) as [[[[]|e] im1] store1]; [|done]. by apply IH.
Qed.

Lemma rebuild_since schema base im store :
  im_since base im → im_since base (rebuildIndexes i2d dadd dsub schema im store).1.2.
Proof.
  intros [Hh Ho]. apply add_rows_since. split; simpl.
  - apply Forall2_fmap_r. eapply Forall2_impl; [exact Hh|]. intros e0 e [? _]. split; [done|].
    split; simpl; [by intros d ?%elem_of_nil|done].
  - apply Forall2_fmap_r. eapply Forall2_impl; [exact Ho|]. intros e0 e [? _]. by split.
Qed.
End since.

(** ** Redo of one index *)

Definition hash_log (h : HashIndex) : index_log := flat_map (λ e, (λ i, (e.1, i)) <$> e.2) (hi_entries h).

Lemma log_find_bucket k a (ids : list RowId) :
  log_find k ((λ i, (a, i)) <$> ids) = if Value_eqb a k then ids else [].
Proof.
  unfold log_find. induction ids as [|i ids IH]; [by destruct (Value_eqb a k)|]. rewrite fmap_cons.
  rewrite (filter_test (λ e, Value_eqb e.1 k)). cbn [fst]. destruct (Value_eqb a k); [|done].
  rewrite fmap_cons. by rewrite IH.
Qed.

Lemma hash_log_find (l : list (Value * list RowId)) k : assoc_ok l → comparable k →
  log_find k (flat_map (λ e, (λ i, (e.1, i)) <$> e.2) l) = default [] (assoc_find k l).
Proof.
  intros Hok Hk. induction l as [|[a ids] l IH]; [done|]. destruct Hok as (Ha & Hn & Hok).
  cbn [flat_map assoc_find fst snd]. unfold log_find in *. rewrite filter_app, fmap_app, IH by done.
  pose proof (log_find_bucket k a ids) as Hb. unfold log_find in Hb. rewrite Hb.
  destruct (Value_eqb a k) eqn:E; [|done]. rewrite <- (assoc_find_eqb _ a k), Hn by done. by rewrite app_nil_r.
Qed.

Lemma hash_log_rep h : assoc_ok (hi_entries h) → buckets_nonempty (hi_entries h) → hi_rep h (hash_log h).
Proof.
  intros Hok Hne. split; [done|exact Hne| |].
  - apply Forall_forall. intros [k i] Hin. apply list_elem_of_In, in_flat_map in Hin as ([a ids] & Ha & Hin).
    apply list_elem_of_In, list_elem_of_fmap in Hin as (j & [= -> ->] & _).
    apply list_elem_of_In in Ha. by eapply assoc_ok_comparable.
  - intros k Hk. symmetry. by apply hash_log_find.
Qed.

(** The hash index of the replica after the redo of [h]. *)
Definition hash_replayed (h hr : HashIndex) : HashIndex :=
  if HashIndex_hasDirtyPages h then applyDirtyBuckets (takeDirtyBuckets h).1 hr else hr.

Lemma marks_comparable base h : hash_since base h → assoc_ok (hi_entries h) → Forall (λ d, comparable d) (hi_dirtyKeys h).
Proof.
  intros [Hd _] Hok. apply Forall_forall. intros d Hin. destruct (Hd d Hin) as (k & ids & Hk & Hkd).
  apply assoc_ok_comparable in Hk; [|done]. destruct Hkd as [<-|E]; [done|]. by eapply eqb_comparable.
Qed.

Lemma hash_redo base h hr L L' : hash_holds L base → hash_holds L' h → hash_since base h →
  hash_holds L hr → hash_holds L' (hash_replayed h hr).
Proof.
  intros (l0 & H0 & E0) (l & Hl & El) Hs (lr & Hr & Er).
  pose proof (marks_comparable _ _ Hs (hr_ok _ _ Hl)) as Hd.
  assert (assoc_ok (hi_entries (hash_replayed h hr)) ∧ buckets_nonempty (hi_entries (hash_replayed h hr)) ∧
    ∀ k, comparable k → HashIndex_find k (hash_replayed h hr) =
      if hi_fullReplaceDirty h || existsb (λ d, Value_eqb d k) (hi_dirtyKeys h)
      then HashIndex_find k h else HashIndex_find k hr) as (Hok & Hne & Hf).
  { unfold hash_replayed. destruct (HashIndex_hasDirtyPages h) eqn:Ed.
    - destruct (apply_dirty_find h hr) as (Hok & Hne & _ & Hf); [apply Hl|exact (hr_nonempty _ _ Hl)|done|apply Hr
        |exact (hr_nonempty _ _ Hr)|]. by split_and!.
    - split_and!; [apply Hr|exact (hr_nonempty _ _ Hr)|]. intros k Hk. unfold HashIndex_hasDirtyPages in Ed.
      apply orb_false_iff in Ed as [-> Ed]. by case_bool_decide as Ek; [rewrite Ek|]. }
  exists (hash_log (hash_replayed h hr)). pose proof (hash_log_rep _ Hok Hne) as Hrep. split; [done|].
  etrans; [|exact El]. apply log_sim_find; [apply Hrep|apply Hl|]. intros k Hk.
  rewrite <- (hr_find _ _ Hrep), Hf, <- (hr_find _ _ Hl) by done.
  destruct (_ || _) eqn:Em; [done|]. apply orb_false_iff in Em as [Efull Em].
  destruct Hs as [_ Hs]. unfold HashIndex_find at 2. rewrite (Hs Efull k Em).
  change (default [] (assoc_find k (hi_entries base))) with (HashIndex_find k base).
  rewrite (hr_find _ _ Hr), (hr_find _ _ H0) by done.
  etrans; [apply (Er _ (respects_eq k Hk))|]. symmetry. apply (E0 _ (respects_eq k Hk)).
Qed.

Lemma tree_find_log max b t l k : bt_refines max b t l → comparable k → BTreeIndex_find k b = Ok (log_find k l).
Proof. intros (Hrep & _ & Hf) Hk. by rewrite (find_ok _ _ _ Hrep), Hf. Qed.

Lemma tree_holds_clean L b : tree_holds L b → tree_holds L (bt_clearDirtyPages b).
Proof.
  intros (max & t & l & ((Hm & Hwf & Hst) & Hc & Hf) & El). exists max, t, l. split; [|done].
  split; [|done]. split; [done|]. split; [done|]. destruct Hst. by split.
Qed.

(** The tree of the replica after the redo of [b]. *)
Definition tree_replayed (b br : BTreeIndex) : BTreeIndex :=
  if bt_hasDirtyPages b then bt_clearDirtyPages b else br.

Lemma tree_image b br L : tree_holds L b → bt_hasDirtyPages b = true →
  bt_applyDirtyPages (bt_takeDirtyPages b).1 br = Ok (tree_replayed b br).
Proof.
  intros (max & t & l & Hr & _) Hd. unfold bt_takeDirtyPages, tree_replayed. rewrite Hd. cbn [negb fst].
  by eapply bt_image_applies.
Qed.

Lemma tree_redo base b br L L' : tree_holds L base → tree_holds L' b → tree_since base b →
  tree_holds L br → tree_holds L' (tree_replayed b br).
Proof.
  intros H0 Hb Hs Hr. unfold tree_replayed. destruct (bt_hasDirtyPages b) eqn:Ed; [by apply tree_holds_clean|].
  rewrite (Hs Ed) in Hb. destruct H0 as (m0 & t0 & l0 & R0 & E0), Hb as (m1 & t1 & l1 & R1 & E1).
  destruct Hr as (mr & tr & lr & Rr & Er). exists mr, tr, lr. split; [done|].
  etrans; [exact Er|]. etrans; [symmetry; exact E0|]. etrans; [|exact E1].
  apply log_sim_find; [apply R0|apply R1|]. intros k Hk.
  pose proof (tree_find_log _ _ _ _ k R0 Hk) as F0. rewrite (tree_find_log _ _ _ _ k R1 Hk) in F0.
  injection F0 as ->. done.
Qed.
