(* ===== verification/Histogram.v ===== *)
(** * Column histograms and table statistics

    [src/storage/histogram.cpp] (the construction of equi-height histograms) and
    [src/storage/table_statistics.cpp]: ANALYZE sorts the values of every column
    and cuts them into buckets of nearly the same number of rows.  The counters of
    the source are [nat]s, the map of histograms is an [smap]. *)

From S2P Require Import Prelude Value VectorRowStore IndexManager.
Local Open Scope nat_scope.

Definition kDefaultHistogramBuckets : nat := 32.

Record HistogramBucket : Type := mkHistogramBucket {
  hb_lower : Value;
  hb_upper : Value;
  hb_rowCount : nat;
  hb_distinctCount : nat
}.

Record ColumnHistogram : Type := mkColumnHistogram {
  ch_column : string;
  ch_rowCount : nat;
  ch_distinctCount : nat;
  ch_buckets : list HistogramBucket
}.

(** [sorted[i]]; the callers keep [i] in range. *)
Definition value_at (sorted : list Value) (i : nat) : Value := default VNull (sorted !! i).

(** The loop of [distinctInRange] over [i = begin + 1, ..., end - 1]. *)
Definition distinctInRange (sorted : list Value) (first last : nat) : nat :=
  if Nat.leb last first then 0
  else
    foldl (λ distinct i,
             if negb (Value_eqb (value_at sorted i) (value_at sorted (i - 1)))
             then S distinct else distinct)
          1 (seq (S first) (last - S first)).

Definition histogram_bucket (sortedValues : list Value) (bucketCount bucketIndex : nat) : HistogramBucket :=
  let first := bucketIndex * length sortedValues / bucketCount in
  let last := (bucketIndex + 1) * length sortedValues / bucketCount in
  mkHistogramBucket (value_at sortedValues first) (value_at sortedValues (last - 1))
    (last - first) (distinctInRange sortedValues first last).

Definition buildEquiHeightHistogram (column : string) (sortedValues : list Value) (maxBuckets : nat)
  : ColumnHistogram :=
  if bool_decide (sortedValues = []) then mkColumnHistogram column 0 0 []
  else
    let bucketCount := Nat.max 1 (Nat.min maxBuckets (length sortedValues)) in
    mkColumnHistogram column (length sortedValues) (distinctInRange sortedValues 0 (length sortedValues))
      (histogram_bucket sortedValues bucketCount <$> seq 0 bucketCount).

(** ** Table statistics *)

Abbreviation TableStatistics := (list (string * ColumnHistogram)).

(** The values of one column. *)
Definition analyzed_values (columnIndex : nat) (entries : list (RowId * Row)) : list Value :=
  omap (λ e, v ← e.2 !! columnIndex; if isNull v then None else Some v) entries.

(** [std::sort]; the order it gives to equivalent values is not specified. *)
Definition sort_values : list Value → list Value := std_sort Value_ltb.

Definition column_analysis (entries : list (RowId * Row)) (maxBuckets : nat) (columnIndex : nat) (c : Column)
  : ColumnHistogram :=
  buildEquiHeightHistogram (col_name c) (sort_values (analyzed_values columnIndex entries)) maxBuckets.

Definition TableStatistics_analyze (schema : list Column) (entries : list (RowId * Row)) (maxBuckets : nat)
  : TableStatistics :=
  foldl (λ histograms h, smap_emplace (ch_column h) h histograms) []
    (imap (column_analysis entries maxBuckets) schema).

Definition columnHistogram (column : string) (stats : TableStatistics) : option ColumnHistogram :=
  smap_find column stats.

Definition columnHistograms (stats : TableStatistics) : list ColumnHistogram := stats.*2.

Definition replaceColumnHistograms (histograms : list ColumnHistogram) : TableStatistics :=
  foldl (λ m h, smap_emplace (ch_column h) h m) [] histograms.

Definition clearColumnHistograms : TableStatistics := [].

(** ** The buckets partition the sorted values *)

Definition Value_leb (a b : Value) : Prop := Value_ltb b a = false.

Lemma Value_leb_trans a b c : comparable a → comparable b → comparable c →
  Value_leb a b → Value_leb b c → Value_leb a c.
Proof.
  intros Ha Hb Hc. unfold Value_leb. rewrite <- !not_true_iff_false, !Value_ltb_gt. intros Hab Hbc Hac.
  destruct (Value_cmp a b) eqn:E; [| |done].
  - rewrite (cl_eq _ _ _ (Value_cmp_laws a Ha) b c) in Hac by done. done.
  - destruct (Value_cmp b c) eqn:E2; [| |done].
    + by rewrite (cl_lt_eq _ _ _ (Value_cmp_laws a Ha) b c) in Hac.
    + by rewrite (cl_lt _ _ _ (Value_cmp_laws a Ha) b c) in Hac.
Qed.

Lemma Value_lt_neq a b : comparable a → comparable b → Value_leb a b → Value_eqb a b = false → Value_ltb a b = true.
Proof.
  intros Ha Hb Hle Hne. apply Value_ltb_cmp. unfold Value_leb in Hle. rewrite <- not_true_iff_false, Value_ltb_gt in Hle.
  rewrite <- not_true_iff_false, <- Value_cmp_Eq in Hne by done. by destruct (Value_cmp a b).
Qed.

Definition sorted_values (vs : list Value) : Prop :=
  StronglySorted Value_leb vs ∧ Forall (λ x, comparable x) vs.

Lemma sort_values_ok vs : Forall (λ x, comparable x) vs → sort_values vs ≡ₚ vs ∧ sorted_values (sort_values vs).
Proof.
  intros Hvs. split; [apply std_sort_perm|]. split; [|by unfold sort_values; rewrite std_sort_perm].
  apply (std_sort_sorted _ (λ x, comparable x)); [|exact Value_leb_trans|done]. intros x y _ _. apply Value_ltb_asym.
Qed.

(** [n] is the number of different values among [vs]: there are [n] of them, no
    two equal, and each value of [vs] equals one of them. *)
Definition distinct_values (vs : list Value) (n : nat) : Prop :=
  ∃ reps, length reps = n ∧ Forall (λ r, r ∈ vs) reps ∧
    Forall (λ x, ∃ r, r ∈ reps ∧ Value_eqb x r = true) vs ∧
    StronglySorted (λ r r', Value_eqb r r' = false) reps.

(** The number of changes between neighbours. *)
Fixpoint changes (x : Value) (l : list Value) : nat :=
  match l with
  | [] => 0
  | y :: l => (if Value_eqb y x then 0 else 1) + changes y l
  end.

Lemma changes_distinct x l : sorted_values (x :: l) → distinct_values (x :: l) (S (changes x l)).
Proof.
  revert x. induction l as [|y l IH]; intros x [Hs Hc].
  - apply Forall_cons in Hc as [Hx _]. exists [x]. split_and!; [done|by repeat constructor; left| |by repeat constructor].
    constructor; [|constructor]. exists x. split; [by left|]. by apply Value_eqb_refl.
  - apply StronglySorted_inv in Hs as [Hs Hle]. apply Forall_cons in Hc as [Hx Hc].
    destruct (IH y) as (reps & El & Hin & Hall & Hd); [done|]. simpl. apply Forall_cons in Hc as [Hy Hcl].
    rewrite Forall_forall in Hin, Hcl. assert (∀ r, r ∈ reps → comparable r) as Hrc.
    { intros r Hr. pose proof (Hin r Hr) as [->|Hrl]%elem_of_cons; auto. }
    destruct (Value_eqb y x) eqn:E.
    + exists reps. split_and!; [done| | |done]; [apply Forall_forall; intros r Hr; right; auto|].
      constructor; [|done]. apply Forall_cons in Hall as [(r & Hr & Er) _]. exists r. split; [done|].
      rewrite <- (Value_cmp_Eq x r) by auto. rewrite <- (Value_cmp_eq_l y x r) by auto. apply Value_cmp_Eq; auto.
    + exists (x :: reps). split_and!; [simpl; lia| | |].
      * constructor; [by left|]. apply Forall_forall. intros r Hr. right. auto.
      * constructor; [exists x; split; [by left|by apply Value_eqb_refl]|].
        eapply Forall_impl; [exact Hall|]. intros z (r & Hr & Er). exists r. split; [by right|done].
      * constructor; [done|]. apply Forall_forall. intros r Hr.
        apply Forall_cons in Hle as [Hxy Hxl]. apply StronglySorted_inv in Hs as [_ Hyl].
        rewrite (Value_eqb_sym y x) in E by done. pose proof (Value_lt_neq x y Hx Hy Hxy E) as Hlt.
        assert (Value_ltb x r = true) as Hxr.
        { pose proof (Hin r Hr) as [->|Hrl]%elem_of_cons; [done|]. rewrite Forall_forall in Hyl.
          pose proof (Hyl r Hrl) as Hyr. rewrite Value_ltb_cmp in Hlt |- *.
          unfold Value_leb in Hyr. rewrite <- not_true_iff_false, Value_ltb_gt in Hyr.
          destruct (Value_cmp y r) eqn:E3; [| |done].
          - by apply (cl_lt_eq _ _ _ (Value_cmp_laws x Hx) y r); auto.
          - by apply (cl_lt _ _ _ (Value_cmp_laws x Hx) y r); auto. }
        apply not_true_iff_false. rewrite <- Value_cmp_Eq by auto. rewrite Value_ltb_cmp in Hxr. by rewrite Hxr.
Qed.

Lemma value_at_app pre x l : value_at (pre ++ x :: l) (length pre) = x.
Proof. unfold value_at. by rewrite list_lookup_middle. Qed.

Lemma distinct_loop pre x rest post d :
  foldl (λ distinct i, if negb (Value_eqb (value_at (pre ++ x :: rest ++ post) i) (value_at (pre ++ x :: rest ++ post) (i - 1)))
                       then S distinct else distinct) d (seq (S (length pre)) (length rest)) = d + changes x rest.
Proof.
  revert pre x d. induction rest as [|y rest IH]; intros pre x d; simpl; [lia|].
  rewrite Nat.sub_0_r, value_at_app. replace (value_at (pre ++ x :: y :: rest ++ post) (S (length pre))) with y.
  2:{ pose proof (value_at_app (pre ++ [x]) y (rest ++ post)) as Hy. rewrite <- app_assoc, length_app in Hy. simpl in Hy.
      by rewrite Nat.add_1_r in Hy. }
  specialize (IH (pre ++ [x]) y). rewrite <- app_assoc, length_app in IH. simpl in IH. rewrite Nat.add_1_r in IH.
  rewrite IH. destruct (Value_eqb y x); simpl; lia.
Qed.

Lemma distinctInRange_changes pre x rest post :
  distinctInRange (pre ++ x :: rest ++ post) (length pre) (length pre + S (length rest)) = S (changes x rest).
Proof.
  unfold distinctInRange. destruct (Nat.leb_spec (length pre + S (length rest)) (length pre)); [lia|].
  replace (length pre + S (length rest) - S (length pre)) with (length rest) by lia. by rewrite distinct_loop.
Qed.

(** What a bucket says of the segment of values it covers. *)
Record bucket_of (b : HistogramBucket) (seg : list Value) : Prop := {
  bo_rows : hb_rowCount b = length seg;
  bo_lower : head seg = Some (hb_lower b);
  bo_upper : last seg = Some (hb_upper b);
  bo_bounds : Forall (λ x, Value_leb (hb_lower b) x ∧ Value_leb x (hb_upper b)) seg;
  bo_distinct : distinct_values seg (hb_distinctCount b)
}.

Lemma sorted_last x l y : StronglySorted Value_leb (x :: l) → last (x :: l) = Some y →
  Forall (λ z, z = y ∨ Value_leb z y) (x :: l).
Proof.
  revert x. induction l as [|z l IH]; intros x Hs Hl; [simpl in Hl; injection Hl as ->; by repeat constructor; left|].
  apply StronglySorted_inv in Hs as [Hs Hx]. rewrite last_cons_cons in Hl. constructor; [|by apply IH].
  right. rewrite Forall_forall in Hx. apply Hx. by apply last_Some_elem_of.
Qed.

Lemma StronglySorted_app_inv {A} (R : A → A → Prop) l1 l2 : StronglySorted R (l1 ++ l2) →
  StronglySorted R l1 ∧ StronglySorted R l2.
Proof. rewrite StronglySorted_app. naive_solver. Qed.

Lemma histogram_bucket_ok vs first last pre x rest post :
  sorted_values vs → vs = pre ++ x :: rest ++ post → first = length pre → last = first + S (length rest) →
  bucket_of (mkHistogramBucket (value_at vs first) (value_at vs (last - 1)) (last - first) (distinctInRange vs first last))
    (x :: rest).
Proof.
  intros [Hs Hc] -> -> ->. apply StronglySorted_app_inv in Hs as [_ Hs].
  change (x :: rest ++ post) with ((x :: rest) ++ post) in Hs. apply StronglySorted_app_inv in Hs as [Hs _].
  apply Forall_app in Hc as [_ Hc]. change (x :: rest ++ post) with ((x :: rest) ++ post) in Hc.
  apply Forall_app in Hc as [Hc _]. rewrite value_at_app, distinctInRange_changes.
  assert (last (x :: rest) = Some (value_at (pre ++ x :: rest ++ post) (length pre + S (length rest) - 1))) as Hlast.
  { rewrite last_lookup. unfold value_at. replace (length pre + S (length rest) - 1) with (length pre + length rest) by lia.
    change (x :: rest ++ post) with ((x :: rest) ++ post). rewrite lookup_app_r by lia.
    replace (length pre + length rest - length pre) with (length rest) by lia. rewrite lookup_app_l by (simpl; lia).
    simpl pred. destruct (lookup_lt_is_Some_2 (x :: rest) (length rest)) as [y ->]; [simpl; lia|done]. }
  split; cbn [hb_rowCount hb_lower hb_upper hb_distinctCount]; [simpl; lia|done|done| |by apply changes_distinct].
  pose proof (sorted_last _ _ _ Hs Hlast) as Hup. apply StronglySorted_inv in Hs as [_ Hx].
  assert (∀ z, comparable z → Value_leb z z) as Hrefl by (intros z _; apply Value_ltb_irrefl).
  rewrite Forall_forall in Hup, Hx, Hc |- *. intros z Hz. split.
  - pose proof Hz as [->|Hz']%elem_of_cons; auto.
  - destruct (Hup z Hz) as [<-|]; auto.
Qed.

(** ** The cuts *)

Definition cut (n k i : nat) : nat := i * n / k.

Lemma cut_0 n k : cut n k 0 = 0.
Proof. by unfold cut; destruct k. Qed.
Lemma cut_k n k : k ≠ 0 → cut n k k = n.
Proof. intros Hk. unfold cut. rewrite Nat.mul_comm. by apply Nat.div_mul. Qed.

Lemma cut_step n k i : 0 < k ≤ n → cut n k i + n / k ≤ cut n k (i + 1) ≤ cut n k i + n / k + 1 ∧ 1 ≤ n / k.
Proof.
  intros Hk. unfold cut. assert (1 ≤ n / k) by (apply Nat.div_le_lower_bound; lia).
  pose proof (Nat.div_mod (i * n) k ltac:(lia)). pose proof (Nat.mod_upper_bound (i * n) k ltac:(lia)).
  pose proof (Nat.div_mod n k ltac:(lia)). pose proof (Nat.mod_upper_bound n k ltac:(lia)).
  split; [|done]. split.
  - apply Nat.div_le_lower_bound; [lia|]. nia.
  - apply Nat.lt_succ_r, Nat.Div0.div_lt_upper_bound; nia.
Qed.

(** The segments of [vs] between consecutive cuts, from cut [i] on. *)
Fixpoint segments (vs : list Value) (k i m : nat) : list (list Value) :=
  match m with
  | 0 => []
  | S m =>
      let first := cut (length vs) k i in
      let last := cut (length vs) k (i + 1) in
      take (last - first) (drop first vs) :: segments vs k (i + 1) m
  end.

Lemma segments_concat vs k i m : 0 < k ≤ length vs → i + m = k →
  concat (segments vs k i m) = drop (cut (length vs) k i) vs.
Proof.
  intros Hk. revert i. induction m as [|m IH]; intros i Him; simpl.
  - replace i with k by lia. rewrite cut_k by lia. by rewrite drop_all.
  - destruct (cut_step (length vs) k i Hk) as [[? ?] ?]. rewrite IH by lia.
    set (a := cut (length vs) k i) in *. set (b := cut (length vs) k (i + 1)) in *.
    rewrite <- (take_drop (b - a) (drop a vs)) at 2. rewrite drop_drop. do 2 f_equal. lia.
Qed.

(** The histogram of a column.  For a non-empty vector of comparable values in
    ascending order, [buildEquiHeightHistogram] cuts it into
    [max 1 (min maxBuckets n)] consecutive segments that together are the vector:
    bucket [i] has the first and last value of segment [i] as bounds, all its
    values lie between them, and its row count and its number of distinct values
    are those of the segment.  The row counts of any two buckets differ by at most
    one, and the totals are those of the whole vector. *)
Theorem histogram_partitions column vs maxBuckets :
  vs ≠ [] → sorted_values vs →
  let h := buildEquiHeightHistogram column vs maxBuckets in
  ch_column h = column ∧ ch_rowCount h = length vs ∧ distinct_values vs (ch_distinctCount h) ∧
  length (ch_buckets h) = Nat.max 1 (Nat.min maxBuckets (length vs)) ∧
  (∀ b b', b ∈ ch_buckets h → b' ∈ ch_buckets h → hb_rowCount b ≤ hb_rowCount b' + 1) ∧
  ∃ segs, concat segs = vs ∧ Forall2 bucket_of (ch_buckets h) segs.
Proof.
  intros Hne Hs. unfold buildEquiHeightHistogram. rewrite bool_decide_false by done. cbn [ch_column ch_rowCount ch_distinctCount ch_buckets].
  set (k := Nat.max 1 (Nat.min maxBuckets (length vs))).
  assert (0 < k ≤ length vs) as Hk. { destruct vs as [|v vs]; [done|]. unfold k. simpl. lia. }
  split_and!; [done|done| |by rewrite length_fmap, length_seq| |].
  - destruct vs as [|x vs]; [done|]. pose proof (distinctInRange_changes [] x vs []) as Hd.
    rewrite app_nil_r in Hd. simpl in Hd. cbn [length]. rewrite Hd. by apply changes_distinct.
  - intros b b' (i & -> & _)%list_elem_of_fmap (j & -> & _)%list_elem_of_fmap. cbn [histogram_bucket hb_rowCount].
    pose proof (cut_step (length vs) k i Hk) as Hi. pose proof (cut_step (length vs) k j Hk) as Hj. unfold cut in *. lia.
  - exists (segments vs k 0 k). split; [by rewrite (segments_concat vs k 0 k) by done; rewrite cut_0|].
    assert (∀ m i, i + m = k → Forall2 bucket_of (histogram_bucket vs k <$> seq i m) (segments vs k i m)) as Hall.
    2:{ by apply (Hall k 0). }
    induction m as [|m IH]; intros i Him; simpl; [constructor|]. constructor.
    2:{ rewrite <- Nat.add_1_r. apply IH. lia. }
    destruct (cut_step (length vs) k i Hk) as [[? ?] ?].
    assert (cut (length vs) k (i + 1) ≤ length vs) as Hle.
    { rewrite <- (cut_k (length vs) k) at 2 by lia. unfold cut. apply Nat.Div0.div_le_mono. nia. }
    set (a := cut (length vs) k i) in *. set (b := cut (length vs) k (i + 1)) in *.
    destruct (take (b - a) (drop a vs)) as [|x rest] eqn:E.
    { apply (f_equal length) in E. rewrite length_take, length_drop in E. simpl in E. lia. }
    apply (histogram_bucket_ok vs a b (take a vs) x rest (drop b vs)); [done| | |].
    + rewrite <- (take_drop a vs) at 1. f_equal. rewrite <- (take_drop (b - a) (drop a vs)), E, drop_drop. simpl.
      do 3 f_equal. lia.
    + rewrite length_take. lia.
    + apply (f_equal length) in E. rewrite length_take, length_drop in E. simpl in E. lia.
Qed.

Lemma histogram_partitions_witness :
  let vs := [VInt 1; VInt 1; VInt 2; VInt 5; VInt 9] in
  let h := buildEquiHeightHistogram "qty" vs 2 in
  ch_buckets h = [mkHistogramBucket (VInt 1) (VInt 1) 2 1; mkHistogramBucket (VInt 2) (VInt 9) 3 3] ∧
  distinct_values vs 4 ∧ ∃ segs, concat segs = vs ∧ Forall2 bucket_of (ch_buckets h) segs.
Proof.
  intros vs h. split; [reflexivity|]. destruct (histogram_partitions "qty" vs 2) as (_ & _ & Hd & _ & _ & Hsegs).
  - done.
  - split; repeat constructor.
  - split; [exact Hd|exact Hsegs].
Defined.
