(* ===== verification/Selectivity.v ===== *)
(** * Selectivity estimates

    [src/storage/histogram.cpp]: how many rows of a column satisfy a comparison,
    from the column's equi-height histogram and assuming that values are uniform
    inside a bucket.  The counters of the source are [nat]s. *)

From S2P Require Import Prelude Value Float64 Histogram.
Local Open Scope nat_scope.

Definition bad_variant_access : exn := logic_error "bad variant access".

Definition clampFraction (value : double) : double :=
  if d_ltb value d_zero then d_zero
  else if d_ltb d_one value then d_one
  else value.

Definition valueGreater (lhs rhs : Value) : bool := Value_ltb rhs lhs.

(** [std::get<std::int64_t>] or [std::get<double>], by the type of the bound. *)
Definition numeric_value (t : ColumnType) (v : Value) : result double :=
  match t, v with
  | CT_Int, VInt i => Ok (double_of_Z i)
  | CT_Double, VDouble b => Ok (double_of_bits b)
  | _, _ => Throw bad_variant_access
  end.

Definition is_numeric (t : ColumnType) : bool := negb (bool_decide (t = CT_String)).

(** The type both bounds of the interpolation have, when there is one. *)
Definition interpolation_type (bucket : HistogramBucket) (value : Value) : result (option ColumnType) :=
  if isNull value || isNull (hb_lower bucket) then Ok None
  else
    t ← Value_type value;
    lt ← Value_type (hb_lower bucket);
    Ok (if bool_decide (t = lt) && is_numeric t then Some t else None).

Section selectivity.
Context (llround_out : double → Z).

(** The share [num / den] of the rows of a bucket. *)
Definition bucket_share (bucket : HistogramBucket) (num den : double) : nat :=
  Z.to_nat (llround llround_out
              (d_mul (clampFraction (d_div num den)) (double_of_nat (hb_rowCount bucket))) mod 2 ^ 64).

Definition rowsGreaterInBucket (bucket : HistogramBucket) (value : Value) : result nat :=
  let above := if valueGreater (hb_upper bucket) value then hb_rowCount bucket else 0 in
  if negb (valueGreater (hb_upper bucket) value) then Ok 0
  else if valueGreater (hb_lower bucket) value then Ok (hb_rowCount bucket)
  else if Nat.leb (hb_distinctCount bucket) 1 then Ok above
  else
    t ← interpolation_type bucket value;
    match t with
    | Some t =>
        lo ← numeric_value t (hb_lower bucket);
        hi ← numeric_value t (hb_upper bucket);
        v ← numeric_value t value;
        if d_leb hi lo then Ok above
        else Ok (bucket_share bucket (d_sub hi v) (d_sub hi lo))
    | None => Ok (Nat.max (hb_rowCount bucket / 2) 1)
    end.

Definition rowsLessInBucket (bucket : HistogramBucket) (value : Value) : result nat :=
  let below := if Value_ltb (hb_lower bucket) value then hb_rowCount bucket else 0 in
  if negb (Value_ltb (hb_lower bucket) value) then Ok 0
  else if Value_ltb (hb_upper bucket) value then Ok (hb_rowCount bucket)
  else if Nat.leb (hb_distinctCount bucket) 1 then Ok below
  else
    t ← interpolation_type bucket value;
    match t with
    | Some t =>
        lo ← numeric_value t (hb_lower bucket);
        hi ← numeric_value t (hb_upper bucket);
        v ← numeric_value t value;
        if d_leb hi lo then Ok below
        else Ok (bucket_share bucket (d_sub v lo) (d_sub hi lo))
    | None => Ok (Nat.max (hb_rowCount bucket / 2) 1)
    end.

(** The sum over the buckets; a [std::uint64_t], which does not reach 2^64. *)
Fixpoint rows_matching (op : ComparisonOperator) (value : Value) (buckets : list HistogramBucket) : result nat :=
  match buckets with
  | [] => Ok 0
  | bucket :: buckets =>
      n ← match op with
          | Greater => rowsGreaterInBucket bucket value
          | Less => rowsLessInBucket bucket value
          | Equal => Ok 0
          end;
      rest ← rows_matching op value buckets;
      Ok (n + rest)
  end.

Definition histogramRangeSelectivity (histogram : ColumnHistogram) (op : ComparisonOperator) (value : Value)
  : result double :=
  if Nat.eqb (ch_rowCount histogram) 0 || bool_decide (length (ch_buckets histogram) = 0) then Ok d_zero
  else
    matching ← rows_matching op value (ch_buckets histogram);
    let matching := Nat.min matching (ch_rowCount histogram) in
    Ok (clampFraction (d_div (double_of_nat matching) (double_of_nat (ch_rowCount histogram)))).

Definition histogramEqualitySelectivity (histogram : ColumnHistogram) : double :=
  if Nat.eqb (ch_rowCount histogram) 0 then d_zero
  else clampFraction (d_div d_one (double_of_nat (Nat.max (ch_distinctCount histogram) 1))).

Definition histogramInSelectivity (histogram : ColumnHistogram) (values : list Value) : double :=
  if Nat.eqb (ch_rowCount histogram) 0 || bool_decide (length values = 0) then d_zero
  else
    let perValue := d_div d_one (double_of_nat (Nat.max (ch_distinctCount histogram) 1)) in
    clampFraction (d_mul (double_of_nat (length values)) perValue).
End selectivity.

(** ** Estimates are computed for every comparable value *)

(** The bounds of every bucket have the type of the column. *)
Definition typed_as (t : ColumnType) (v : Value) : Prop := Value_type v = Ok t.
Definition histogram_typed (h : ColumnHistogram) : Prop :=
  ∃ t, Forall (λ b, typed_as t (hb_lower b) ∧ typed_as t (hb_upper b)) (ch_buckets h).

(** A null or a typed scalar: the values a comparison has after binding. *)
Definition scalar (v : Value) : Prop := isNull v = true ∨ ∃ t, typed_as t v.

Lemma numeric_value_ok t v : typed_as t v → is_numeric t = true → ∃ d, numeric_value t v = Ok d.
Proof. unfold typed_as. destruct t, v; naive_solver. Qed.

Lemma bucket_rows_ok out op b t value : typed_as t (hb_lower b) → typed_as t (hb_upper b) → scalar value →
  ∃ n, match op with
       | Greater => rowsGreaterInBucket out b value
       | Less => rowsLessInBucket out b value
       | Equal => Ok 0
       end = Ok n.
Proof.
  intros Hl Hu Hv. assert (isNull (hb_lower b) = false) as Hn by (by destruct (hb_lower b)).
  assert (∃ o, interpolation_type b value = Ok o ∧ ∀ t', o = Some t' →
    ∃ lo hi v, numeric_value t' (hb_lower b) = Ok lo ∧ numeric_value t' (hb_upper b) = Ok hi ∧ numeric_value t' value = Ok v)
    as (o & Eo & Ho).
  { unfold interpolation_type. rewrite Hn, orb_false_r. destruct Hv as [->|[t' Ht]]; [by exists None|].
    destruct (isNull value); [by exists None|]. rewrite Ht, Hl. cbn [mbind result_bind]. eexists. split; [done|].
    destruct (decide (t' = t)) as [->|]; [|by rewrite bool_decide_false]. rewrite bool_decide_true by done. simpl.
    destruct (is_numeric t) eqn:En; [|done]. intros ? [= <-].
    destruct (numeric_value_ok _ _ Hl En) as [lo ->], (numeric_value_ok _ _ Hu En) as [hi ->],
      (numeric_value_ok _ _ Ht En) as [v ->]. eauto 6. }
  destruct op; [(eexists; reflexivity)| |].
  - unfold rowsGreaterInBucket. repeat case_match; try (eexists; reflexivity).
    all: rewrite Eo; cbn [mbind result_bind]; destruct o as [t'|]; [|(eexists; reflexivity)];
      destruct (Ho t' eq_refl) as (lo & hi & v & -> & -> & ->); cbn [mbind result_bind]; case_match; (eexists; reflexivity).
  - unfold rowsLessInBucket. repeat case_match; try (eexists; reflexivity).
    all: rewrite Eo; cbn [mbind result_bind]; destruct o as [t'|]; [|(eexists; reflexivity)];
      destruct (Ho t' eq_refl) as (lo & hi & v & -> & -> & ->); cbn [mbind result_bind]; case_match; (eexists; reflexivity).
Qed.

Lemma histogramRangeSelectivity_ok out h op value : histogram_typed h → scalar value →
  ∃ s, histogramRangeSelectivity out h op value = Ok s.
Proof.
  intros [t Ht] Hv. unfold histogramRangeSelectivity. case_match; [by eexists|].
  assert (∃ n, rows_matching out op value (ch_buckets h) = Ok n) as [n ->]; [|by eexists].
  clear -Ht Hv. induction Ht as [|b bs [Hl Hu] _ IH]; [by eexists|]. cbn [rows_matching].
  destruct (bucket_rows_ok out op b t value Hl Hu Hv) as [n ->], IH as [m ->]. by eexists.
Qed.
