(* ===== verification/Table.v ===== *)
(** * Tables

    [src/storage/table.cpp], [table_constraints.cpp], [table_indexes.cpp],
    [table_recovery.cpp], the row operations of [table_snapshot_io.cpp] and
    [table_persist.cpp]: a table owns a row store, the version store of its rows
    and its indexes, and keeps the three in step under the constraints of its
    schema.

    An operation is a state transformer that keeps the state also when it throws
    ([op]): the code has no rollback inside an operation, so an exception leaves
    the changes made so far.  The mutex makes every operation atomic and is not
    modelled.  The transaction manager an operation gets by pointer is part of
    the state, [None] for a null pointer.  [row[i]] outside a row and a null row
    pointer throw. *)

From S2P Require Import Prelude Value VectorRowStore TransactionManager Mvcc.
From S2P Require Import StringPattern HashIndex BTreeIndex IndexExpression Predicate IndexManager Histogram.
Local Open Scope nat_scope.

Record UniqueConstraint : Type := mkUniqueConstraint {
  uc_columns : list string;
  uc_primaryKey : bool
}.

Inductive ForeignKeyAction : Type := FK_NoAction | FK_Cascade | FK_SetNull.

Record ForeignKeyConstraint : Type := mkForeignKeyConstraint {
  fk_childColumns : list string;
  fk_parentTable : string;
  fk_parentColumns : list string;
  fk_onDelete : ForeignKeyAction;
  fk_onUpdate : ForeignKeyAction
}.

Section table.
Context {Select S : Type} `{RowStore S}.
Context (int_to_double : Z → Z) (double_add double_sub : Z → Z → Z) (double_chars : Z → chars).

Record Table : Type := mkTable {
  t_name : string;
  t_schema : Schema;
  t_checkConstraints : list (Predicate Select);
  t_foreignKeys : list ForeignKeyConstraint;
  t_uniqueConstraints : list UniqueConstraint;
  t_rowStore : S;
  t_indexManager : IndexManager;
  t_versions : MVCCRowStore;
  t_statistics : TableStatistics
}.

Definition set_store (store : S) (t : Table) : Table :=
  mkTable (t_name t) (t_schema t) (t_checkConstraints t) (t_foreignKeys t) (t_uniqueConstraints t)
    store (t_indexManager t) (t_versions t) (t_statistics t).
Definition set_indexes (im : IndexManager) (t : Table) : Table :=
  mkTable (t_name t) (t_schema t) (t_checkConstraints t) (t_foreignKeys t) (t_uniqueConstraints t)
    (t_rowStore t) im (t_versions t) (t_statistics t).
Definition set_versions (versions : MVCCRowStore) (t : Table) : Table :=
  mkTable (t_name t) (t_schema t) (t_checkConstraints t) (t_foreignKeys t) (t_uniqueConstraints t)
    (t_rowStore t) (t_indexManager t) versions (t_statistics t).
Definition set_statistics (statistics : TableStatistics) (t : Table) : Table :=
  mkTable (t_name t) (t_schema t) (t_checkConstraints t) (t_foreignKeys t) (t_uniqueConstraints t)
    (t_rowStore t) (t_indexManager t) (t_versions t) statistics.

(** ** State and exceptions *)

Record state : Type := mkState {
  st_table : Table;
  st_transactions : option TransactionManager
}.

Definition op (A : Type) : Type := state → result A * state.

#[local] Instance op_ret : MRet op := λ A a s, (Ok a, s).
#[local] Instance op_bind : MBind op := λ A B f m s,
  match m s with
  | (Ok a, s) => f a s
  | (Throw e, s) => (Throw e, s)
  end.

Definition on_table {A} (f : Table → A) : op A := λ s, (Ok (f (st_table s)), s).
Definition lift {A} (r : result A) : op A := λ s, (r, s).
Definition throw {A} (e : exn) : op A := lift (Throw e).
Definition set_table (f : Table → Table) : op unit :=
  λ s, (Ok tt, mkState (f (st_table s)) (st_transactions s)).

(** A call of the row store. *)
Definition row_store {A} (f : S → result (A * S)) : op A := λ s,
  match f (t_rowStore (st_table s)) with
  | Ok (a, store) => (Ok a, mkState (set_store store (st_table s)) (st_transactions s))
  | Throw e => (Throw e, s)
  end.

(** A call of the index manager, which may read the row store. *)
Definition indexes {A} (f : IndexManager → S → result A * IndexManager * S) : op A := λ s,
  let '(r, im, store) := f (t_indexManager (st_table s)) (t_rowStore (st_table s)) in
  (r, mkState (set_indexes im (set_store store (st_table s))) (st_transactions s)).

Definition versions {A} (f : MVCCRowStore → A * MVCCRowStore) : op A := λ s,
  let '(a, v) := f (t_versions (st_table s)) in
  (Ok a, mkState (set_versions v (st_table s)) (st_transactions s)).

(** [if (transactions != nullptr) ...] *)
Definition transactions (f : TransactionManager → TransactionManager) : op unit := λ s,
  (Ok tt, mkState (st_table s) (f <$> st_transactions s)).

(** [*rowStore_->get(rowId)] *)
Definition stored_row (rowId : RowId) : op Row :=
  row ← row_store (rs_get rowId);
  match row with Some row => mret row | None => throw (logic_error "null row dereferenced") end.

(** ** Schema and constraints *)

Definition columnIndex (t : Table) (column : string) : option nat := findColumn (t_schema t) column.

Fixpoint validate_cells (row : Row) (schema : Schema) : result unit :=
  match row, schema with
  | v :: row, c :: schema =>
      if isNull v then
        _ ← throw_if (negb (col_nullable c))
              (invalid_argument (String.append "NOT NULL constraint violation on column " (col_name c)));
        validate_cells row schema
      else
        ty ← Value_type v;
        _ ← throw_if (negb (bool_decide (ty = col_type c)))
              (invalid_argument "row value does not match column type");
        validate_cells row schema
  | _, _ => Ok tt
  end.

Fixpoint enforce_checks (checks : list (Predicate Select)) (row : Row) (lookup : string → option nat)
  : result unit :=
  match checks with
  | [] => Ok tt
  | check :: checks =>
      ok ← evalCheckPredicate check row lookup;
      if ok : bool then enforce_checks checks row lookup
      else
        text ← checkConstraintLiteral double_chars check;
        Throw (invalid_argument (String.append "CHECK constraint violation: " (implode text)))
  end.

Definition enforceCheckConstraints (t : Table) (row : Row) : result unit :=
  enforce_checks (t_checkConstraints t) row (columnIndex t).

Definition validateRow (t : Table) (row : Row) : result unit :=
  _ ← throw_if (negb (Nat.eqb (length row) (length (t_schema t))))
        (invalid_argument "row width does not match table schema");
  _ ← validate_cells row (t_schema t);
  enforceCheckConstraints t row.

(** The table-level constraints, then the flags of columns none of them covers. *)
Definition covers (column : string) (c : UniqueConstraint) : bool :=
  match uc_columns c with [name] => String.eqb name column | _ => false end.

Definition column_constraints (uniques : list UniqueConstraint) (schema : Schema) : list UniqueConstraint :=
  flat_map (λ c,
    if negb (col_unique c) && negb (col_primaryKey c) then []
    else if existsb (covers (col_name c)) uniques then []
    else [mkUniqueConstraint [col_name c] (col_primaryKey c)]) schema.

Definition allUniqueConstraints (t : Table) : list UniqueConstraint :=
  t_uniqueConstraints t ++ column_constraints (t_uniqueConstraints t) (t_schema t).

Definition constraintIndexName (c : UniqueConstraint) : string :=
  String.append (if uc_primaryKey c then "__pk_" else "__uq_") (String.concat "_" (uc_columns c)).

Definition formatUniqueColumns (c : UniqueConstraint) : string :=
  match uc_columns c with
  | [name] => name
  | names => String.append "(" (String.append (String.concat ", " names) ")")
  end.

Fixpoint unique_parts (columns : list string) (lookup : string → option nat) (row : Row)
  : result (list Value) :=
  match columns with
  | [] => Ok []
  | column :: columns =>
      match lookup column with
      | None => Throw (runtime_error "unknown unique constraint column")
      | Some i => v ← row_at row i; rest ← unique_parts columns lookup row; Ok (v :: rest)
      end
  end.

Definition uniqueKeyForRow (t : Table) (c : UniqueConstraint) (row : Row) : result Value :=
  parts ← unique_parts (uc_columns c) (columnIndex t) row;
  composite parts.

Fixpoint unique_equal (columns : list string) (lookup : string → option nat) (l r : Row) : result bool :=
  match columns with
  | [] => Ok true
  | column :: columns =>
      match lookup column with
      | None => Ok false
      | Some i =>
          x ← row_at l i; y ← row_at r i;
          if isNull x || isNull y then Ok false
          else if negb (Value_eqb x y) then Ok false
          else unique_equal columns lookup l r
      end
  end.

Definition uniqueRowsEqual (t : Table) (c : UniqueConstraint) (l r : Row) : result bool :=
  unique_equal (uc_columns c) (columnIndex t) l r.

Fixpoint rows_conflict (t : Table) (constraints : list UniqueConstraint) (l r : Row) : result bool :=
  match constraints with
  | [] => Ok false
  | c :: constraints =>
      e ← uniqueRowsEqual t c l r;
      if e : bool then Ok true else rows_conflict t constraints l r
  end.

Definition rowsConflictOnUnique (t : Table) (l r : Row) : result bool :=
  rows_conflict t (allUniqueConstraints t) l r.

Definition unique_violation (c : UniqueConstraint) : exn :=
  invalid_argument (String.append "unique constraint violation on column " (formatUniqueColumns c)).

Definition excluded (excludeRowId : option RowId) (rowId : RowId) : bool :=
  match excludeRowId with Some x => Nat.eqb rowId x | None => false end.

(** The scan of the live rows, without an index. *)
Fixpoint unique_scan (t : Table) (c : UniqueConstraint) (row : Row) (excludeRowId : option RowId)
    (entries : list (RowId * Row)) : result unit :=
  match entries with
  | [] => Ok tt
  | (rowId, existing) :: entries =>
      if excluded excludeRowId rowId then unique_scan t c row excludeRowId entries
      else
        e ← uniqueRowsEqual t c row existing;
        if e : bool then Throw (unique_violation c) else unique_scan t c row excludeRowId entries
  end.

Definition enforce_one (c : UniqueConstraint) (row : Row) (excludeRowId : option RowId) : op unit :=
  t ← on_table id;
  key ← lift (uniqueKeyForRow t c row);
  if hasNullCompositePart key then mret tt
  else
    hits ← lift (indexedLookup (t_indexManager t) (uc_columns c) key (t_schema t));
    match hits with
    | Some hits => lift (throw_if (existsb (λ hit, negb (excluded excludeRowId hit)) hits) (unique_violation c))
    | None =>
        entries ← row_store rs_liveEntries;
        lift (unique_scan t c row excludeRowId entries)
    end.

Fixpoint enforce_all (constraints : list UniqueConstraint) (row : Row) (excludeRowId : option RowId)
  : op unit :=
  match constraints with
  | [] => mret tt
  | c :: constraints =>
      _ ← enforce_one c row excludeRowId;
      enforce_all constraints row excludeRowId
  end.

Definition enforceUniqueConstraintsUnlocked (row : Row) (excludeRowId : option RowId) : op unit :=
  t ← on_table id;
  enforce_all (allUniqueConstraints t) row excludeRowId.

Definition assertUniqueRow (row : Row) (excludeRowId : option RowId) : op unit :=
  t ← on_table id;
  _ ← lift (validateRow t row);
  enforceUniqueConstraintsUnlocked row excludeRowId.

(** ** Construction *)

Fixpoint validate_unique_columns (primaryKey : bool) (columns seen : list string) (schema : Schema)
  : result unit :=
  match columns with
  | [] => Ok tt
  | name :: columns =>
      _ ← throw_if (existsb (String.eqb name) seen)
            (invalid_argument (String.append "duplicate column in UNIQUE / PRIMARY KEY: " name));
      match List.find (λ c, String.eqb (col_name c) name) schema with
      | None => Throw (invalid_argument (String.append "unknown UNIQUE / PRIMARY KEY column: " name))
      | Some c =>
          _ ← throw_if (primaryKey && col_nullable c)
                (invalid_argument (String.append "PRIMARY KEY column cannot be NULL: " name));
          validate_unique_columns primaryKey columns (name :: seen) schema
      end
  end.

Definition validateUniqueConstraintColumns (c : UniqueConstraint) (schema : Schema) : result unit :=
  _ ← throw_if (bool_decide (uc_columns c = []))
        (invalid_argument "UNIQUE / PRIMARY KEY requires at least one column");
  validate_unique_columns (uc_primaryKey c) (uc_columns c) [] schema.

(** The loop over the columns; the result tells whether a primary key was seen. *)
Fixpoint check_columns (schema : Schema) (sawPrimaryKey : bool) : result bool :=
  match schema with
  | [] => Ok sawPrimaryKey
  | c :: schema =>
      if col_primaryKey c then
        _ ← throw_if sawPrimaryKey (invalid_argument "multiple PRIMARY KEY columns are not supported");
        _ ← throw_if (col_nullable c) (invalid_argument "PRIMARY KEY column cannot be NULL");
        _ ← throw_if (negb (col_unique c)) (invalid_argument "PRIMARY KEY column must be UNIQUE");
        check_columns schema true
      else check_columns schema sawPrimaryKey
  end.

Definition not_null (columns : list string) (c : Column) : Column :=
  if existsb (String.eqb (col_name c)) columns
  then mkColumn (col_name c) (col_type c) false (col_unique c) (col_primaryKey c) else c.

Fixpoint check_uniques (uniques : list UniqueConstraint) (schema : Schema) (sawPrimaryKey : bool)
  : result Schema :=
  match uniques with
  | [] => Ok schema
  | c :: uniques =>
      _ ← validateUniqueConstraintColumns c schema;
      if uc_primaryKey c then
        _ ← throw_if sawPrimaryKey (invalid_argument "multiple PRIMARY KEY constraints are not supported");
        check_uniques uniques (not_null (uc_columns c) <$> schema) true
      else check_uniques uniques schema sawPrimaryKey
  end.

Fixpoint assert_checks (checks : list (Predicate Select)) : result unit :=
  match checks with
  | [] => Ok tt
  | check :: checks => _ ← assertSimpleCheckConstraint check; assert_checks checks
  end.

(** [rowStore] is the store [makePageRowStore] returns. *)
Definition Table_new (rowStore : S) (name : string) (schema : Schema) (checks : list (Predicate Select))
    (foreignKeys : list ForeignKeyConstraint) (uniques : list UniqueConstraint) : result Table :=
  _ ← throw_if (String.eqb name EmptyString) (invalid_argument "table name cannot be empty");
  _ ← throw_if (bool_decide (length schema = 0)) (invalid_argument "table schema cannot be empty");
  saw ← check_columns schema false;
  schema ← check_uniques uniques schema saw;
  _ ← assert_checks checks;
  Ok (mkTable name schema checks foreignKeys uniques rowStore im_empty ∅ []).

Definition setName (name : string) : op unit :=
  _ ← lift (throw_if (String.eqb name EmptyString) (invalid_argument "table name cannot be empty"));
  set_table (λ t, mkTable name (t_schema t) (t_checkConstraints t) (t_foreignKeys t)
                    (t_uniqueConstraints t) (t_rowStore t) (t_indexManager t) (t_versions t) (t_statistics t)).

(** ** Reads *)

Definition Table_rowsSnapshot : op (list Row) := row_store rs_snapshot.
Definition Table_liveEntries : op (list (RowId * Row)) := row_store rs_liveEntries.
Definition Table_freeList : op (list RowId) := on_table (λ t, rs_freeList (t_rowStore t)).
Definition Table_rowsById (rowIds : list RowId) : op (list Row) := row_store (rs_rowsById rowIds).
Definition Table_rowCount : op nat := on_table (λ t, rs_size (t_rowStore t)).
Definition Table_capacity : op nat := on_table (λ t, rs_capacity (t_rowStore t)).
Definition Table_versionCount (rowId : RowId) : op nat := on_table (λ t, versionCount rowId (t_versions t)).
Definition Table_getRow (rowId : RowId) : op (option Row) := row_store (rs_get rowId).

(** A read through a snapshot records the rows it returns in the read set.  These
    reads take the transaction manager by reference. *)
Definition record_reads (self : TransactionId) (name : string) (entries : list (RowId * Row))
    (tm : TransactionManager) : TransactionManager :=
  foldl (λ tm e, recordRead self name e.1 tm) tm entries.

Definition visibleEntries_of (snapshot : ReadSnapshot) (t : Table) (tm : TransactionManager)
  : list (RowId * Row) * TransactionManager :=
  let entries := visibleEntries snapshot tm (t_versions t) in
  (entries, record_reads (snap_self snapshot) (t_name t) entries tm).

Definition visibleEntriesById_of (rowIds : list RowId) (snapshot : ReadSnapshot) (t : Table)
    (tm : TransactionManager) : list (RowId * Row) * TransactionManager :=
  let entries := visibleEntriesById rowIds snapshot tm (t_versions t) in
  (entries, record_reads (snap_self snapshot) (t_name t) entries tm).

Definition rowsSnapshot_of (snapshot : ReadSnapshot) (t : Table) (tm : TransactionManager)
  : list Row * TransactionManager :=
  let '(entries, tm) := visibleEntries_of snapshot t tm in (entries.*2, tm).

Definition rowsById_of (rowIds : list RowId) (snapshot : ReadSnapshot) (t : Table) (tm : TransactionManager)
  : list Row * TransactionManager :=
  let '(entries, tm) := visibleEntriesById_of rowIds snapshot t tm in (entries.*2, tm).

(** ** Statistics *)

Definition analyze (maxBuckets : nat) : op unit :=
  t ← on_table id;
  entries ← row_store rs_liveEntries;
  set_table (set_statistics (TableStatistics_analyze (t_schema t) entries maxBuckets)).

Definition Table_columnHistogram (column : string) : op (option ColumnHistogram) :=
  on_table (λ t, columnHistogram column (t_statistics t)).
Definition Table_columnHistograms : op (list ColumnHistogram) := on_table (λ t, columnHistograms (t_statistics t)).
Definition Table_replaceColumnHistograms (histograms : list ColumnHistogram) : op unit :=
  set_table (set_statistics (replaceColumnHistograms histograms)).
Definition Table_clearColumnHistograms : op unit := set_table (set_statistics clearColumnHistograms).

(** ** Indexes *)

Definition Table_indexDistinctCount (columns : list string) : op (option nat) :=
  t ← on_table id; lift (indexDistinctCount (t_indexManager t) columns (t_schema t)).
Definition Table_indexDistinctCount_expr (expression : IndexExpression) : op (option nat) :=
  t ← on_table id; lift (indexDistinctCount_expr (t_indexManager t) expression).
Definition Table_indexedLookup (columns : list string) (key : Value) : op (option (list RowId)) :=
  t ← on_table id; lift (indexedLookup (t_indexManager t) columns key (t_schema t)).
Definition Table_indexedLookup_expr (expression : IndexExpression) (value : Value) : op (option (list RowId)) :=
  t ← on_table id; lift (indexedLookup_expr (t_indexManager t) expression value).
Definition Table_orderedLookup (column : string) (o : ComparisonOperator) (value : Value) : op (option (list RowId)) :=
  t ← on_table id; lift (orderedLookup (t_indexManager t) column o value (t_schema t)).
Definition Table_orderedLookup_expr (expression : IndexExpression) (o : ComparisonOperator) (value : Value)
  : op (option (list RowId)) :=
  t ← on_table id; lift (orderedLookup_expr (t_indexManager t) expression o value).
Definition Table_hasIndex (columns : list string) : op bool :=
  t ← on_table id; lift (hasIndex (t_indexManager t) columns (t_schema t)).
Definition Table_hasExpressionIndex (expression : IndexExpression) : op bool :=
  on_table (λ t, hasExpressionIndex (t_indexManager t) expression).
Definition Table_listIndexes : op (list string) := on_table (λ t, listIndexes (t_indexManager t)).
Definition Table_indexDefinitions : op (list IndexDefinition) :=
  t ← on_table id; lift (indexDefinitions (t_indexManager t) (t_schema t)).

Definition Table_addRowToIndexes (rowId : RowId) : op unit :=
  t ← on_table id;
  indexes (addRowToIndexes int_to_double double_add double_sub rowId (t_schema t)).

Definition Table_rebuildIndexes : op unit :=
  t ← on_table id;
  indexes (rebuildIndexes int_to_double double_add double_sub (t_schema t)).

Definition Table_registerIndex (name : string) (columnIndexes : list nat)
    (expression : option IndexExpression) (rebuild : bool) : op bool :=
  t ← on_table id;
  indexes (registerIndex int_to_double double_add double_sub name columnIndexes expression rebuild (t_schema t)).

Fixpoint columnIndexes (t : Table) (columns : list string) : option (list nat) :=
  match columns with
  | [] => Some []
  | column :: columns => i ← columnIndex t column; rest ← columnIndexes t columns; Some (i :: rest)
  end.

Definition create_index (rebuild : bool) (name : string) (columns : list string) : op bool :=
  t ← on_table id;
  match columns, columnIndexes t columns with
  | [], _ | _, None => mret false
  | _, Some idxs => Table_registerIndex name idxs None rebuild
  end.

Definition create_index_expr (rebuild : bool) (name : string) (expression : IndexExpression) : op bool :=
  t ← on_table id;
  match columnIndex t (ie_column expression) with
  | None => mret false
  | Some i => Table_registerIndex name [i] (Some expression) rebuild
  end.

Definition createIndex := create_index true.
Definition createIndex_expr := create_index_expr true.
Definition createIndexWithoutRebuild := create_index false.
Definition createIndexWithoutRebuild_expr := create_index_expr false.

Definition Table_dropIndex (name : string) : op bool :=
  indexes (λ im store, let '(b, im) := dropIndex name im in (Ok b, im, store)).

Definition compositeIndexColumnLists : op (list (list string)) :=
  t ← on_table id;
  definitions ← lift (indexDefinitions (t_indexManager t) (t_schema t));
  mret (id_columns <$> filter (λ d, (bool_decide (id_expression d = None) && Nat.leb 2 (length (id_columns d))) = true) definitions).

Fixpoint ensure_indexes (constraints : list UniqueConstraint) : op unit :=
  match constraints with
  | [] => mret tt
  | c :: constraints =>
      t ← on_table id;
      let failed := runtime_error (String.append "failed to create constraint index " (constraintIndexName c)) in
      has ← lift (hasIndex (t_indexManager t) (uc_columns c) (t_schema t));
      _ ← (if has : bool then mret tt
           else
             match columnIndexes t (uc_columns c) with
             | None => throw failed
             | Some idxs =>
                 ok ← Table_registerIndex (constraintIndexName c) idxs None true;
                 lift (throw_if (negb ok) failed)
             end);
      ensure_indexes constraints
  end.

Definition ensureConstraintIndexes : op unit :=
  t ← on_table id;
  ensure_indexes (allUniqueConstraints t).

(** ** Insert, erase, update *)

Fixpoint ssi_columns (schema : Schema) (row : Row) : result (list (string * Value)) :=
  match schema, row with
  | [], _ => Ok []
  | c :: schema, v :: row => rest ← ssi_columns schema row; Ok ((col_name c, v) :: rest)
  | _ :: _, [] => Throw (out_of_range "vector index out of range")
  end.

(** [recordWrite] and [recordInsert] of the stored row, if there is a manager. *)
Definition record_image (writerId : TransactionId) (rowId : RowId) (stored : Row) : op unit :=
  t ← on_table id;
  has ← (λ s, (Ok (bool_decide (is_Some (st_transactions s))), s));
  if negb has then mret tt
  else
    _ ← transactions (recordWrite writerId (t_name t) rowId);
    columns ← lift (ssi_columns (t_schema t) stored);
    transactions (recordInsert writerId (mkSsiInsert (t_name t) columns)).

Definition Table_insert (row : Row) (writerId : TransactionId) : op RowId :=
  t ← on_table id;
  _ ← lift (validateRow t row);
  _ ← enforceUniqueConstraintsUnlocked row None;
  rowId ← row_store (rs_append row);
  stored ← stored_row rowId;
  _ ← versions (λ v, (tt, mvcc_write rowId stored writerId v));
  _ ← Table_addRowToIndexes rowId;
  _ ← record_image writerId rowId stored;
  mret rowId.

Definition Table_erase (rowId : RowId) (writerId : TransactionId) : op bool :=
  t ← on_table id;
  row ← row_store (rs_get rowId);
  match row with
  | None => mret false
  | Some _ =>
      _ ← versions (λ v, (tt, mvcc_erase rowId writerId v));
      erased ← row_store (rs_erase rowId);
      if negb erased then mret false
      else
        _ ← Table_rebuildIndexes;
        _ ← transactions (recordWrite writerId (t_name t) rowId);
        mret true
  end.

(** The tests on the new value of column [c]. *)
Definition validate_update (c : Column) (value : Value) : result unit :=
  if isNull value then
    throw_if (negb (col_nullable c))
      (invalid_argument (String.append "NOT NULL constraint violation on column " (col_name c)))
  else
    ty ← Value_type value;
    throw_if (negb (bool_decide (ty = col_type c)))
      (invalid_argument "updated value does not match column type").

Definition Table_update (rowId : RowId) (index : nat) (value : Value) (writerId : TransactionId) : op bool :=
  t ← on_table id;
  row ← row_store (rs_get rowId);
  match row, t_schema t !! index with
  | None, _ | _, None => mret false
  | Some _, Some c =>
      _ ← lift (validate_update c value);
      row ← stored_row rowId;
      _ ← lift (row_at row index);
      let updated := <[index := value]> row in
      _ ← lift (enforceCheckConstraints t updated);
      _ ← enforceUniqueConstraintsUnlocked updated (Some rowId);
      updatedOk ← row_store (rs_update rowId updated);
      if negb updatedOk then mret false
      else
        stored ← stored_row rowId;
        _ ← versions (λ v, (tt, mvcc_write rowId stored writerId v));
        _ ← Table_rebuildIndexes;
        _ ← record_image writerId rowId stored;
        mret true
  end.

(** ** Undo *)

Definition eraseDiscardingVersion (rowId : RowId) : op bool :=
  row ← row_store (rs_get rowId);
  match row with
  | None => mret false
  | Some _ =>
      erased ← row_store (rs_erase rowId);
      if negb erased then mret false
      else
        _ ← versions (popLatestVersion rowId);
        _ ← Table_rebuildIndexes;
        mret true
  end.

Definition replaceRow (rowId : RowId) (row : Row) : op bool :=
  t ← on_table id;
  _ ← lift (validateRow t row);
  old ← row_store (rs_get rowId);
  match old with
  | None => mret false
  | Some _ =>
      _ ← enforceUniqueConstraintsUnlocked row (Some rowId);
      updated ← row_store (rs_update rowId row);
      if negb updated then mret false
      else
        _ ← versions (popLatestVersion rowId);
        _ ← Table_rebuildIndexes;
        mret true
  end.

Definition Table_revive (rowId : RowId) (row : Row) : op bool :=
  t ← on_table id;
  _ ← lift (validateRow t row);
  _ ← enforceUniqueConstraintsUnlocked row (Some rowId);
  revived ← row_store (rs_revive rowId row);
  if negb revived then mret false
  else
    _ ← versions (clearLatestDeletedBy rowId);
    _ ← Table_rebuildIndexes;
    mret true.

(** ** Physical redo and bulk replacement *)

Definition applyPhysicalUpsert (rowId : RowId) (row : Row) : op bool :=
  t ← on_table id;
  _ ← lift (validateRow t row);
  old ← row_store (rs_get rowId);
  ok ← row_store (rs_upsertAt rowId row);
  if negb ok then mret false
  else
    stored ← stored_row rowId;
    _ ← versions (λ v, (tt, mvcc_write rowId stored kSystemTransactionId v));
    _ ← (if bool_decide (is_Some old) then Table_rebuildIndexes else Table_addRowToIndexes rowId);
    mret true.

Definition applyPhysicalErase (rowId : RowId) : op bool := eraseDiscardingVersion rowId.

Fixpoint refresh_rows (rowIds : list RowId) : op unit :=
  match rowIds with
  | [] => mret tt
  | rowId :: rowIds =>
      row ← row_store (rs_get rowId);
      _ ← match row with
          | None => mret tt
          | Some row => versions (λ v, (tt, mvcc_write rowId row kSystemTransactionId v))
          end;
      refresh_rows rowIds
  end.

(** One version per live row, by the system transaction. *)
Definition refreshVersionsFromStore : op unit :=
  _ ← versions (λ v, (tt, mvcc_clear v));
  t ← on_table id;
  refresh_rows (seq 0 (rs_capacity (t_rowStore t))).

Fixpoint validate_rows (t : Table) (rows : list Row) : result unit :=
  match rows with
  | [] => Ok tt
  | row :: rows => _ ← validateRow t row; validate_rows t rows
  end.

Definition replace_store (f : S → result S) : op unit :=
  row_store (λ store, store ← f store; Ok (tt, store)).

Definition Table_replaceRows (rows : list Row) : op unit :=
  t ← on_table id;
  _ ← lift (validate_rows t rows);
  _ ← replace_store (rs_replaceRows rows);
  _ ← refreshVersionsFromStore;
  Table_rebuildIndexes.

Definition Table_replaceSparse (capacity : nat) (freeList : list RowId) (entries : list (RowId * Row))
  : op unit :=
  t ← on_table id;
  _ ← lift (validate_rows t entries.*2);
  _ ← replace_store (rs_replaceSparse capacity freeList entries);
  _ ← refreshVersionsFromStore;
  Table_rebuildIndexes.
End table.

Arguments Table : clear implicits.
Arguments state : clear implicits.
Arguments op : clear implicits.
