(* ===== verification/TableProof.v ===== *)
(** * Tables keep their constraints

    [table_ok t v]: the row store of [t] represents the plain store [v], every live
    row satisfies the schema and the CHECK constraints, no two live rows agree on
    a UNIQUE or PRIMARY KEY constraint, every index holds exactly the keys of the
    live rows, and the newest version of every row is the row in the store.
    Inserts, erases, updates and index definitions keep it, whether they succeed
    or throw, and a row is refused exactly when it violates a constraint. *)

From S2P Require Import Prelude Value BinaryIO PageCodec VectorRowStore PageRowStore PageRowStoreProof TransactionManager Mvcc.
From S2P Require Import StringPattern HashIndex BTreeIndex IndexExpression Predicate IndexManager IndexManagerProof Table.
Local Open Scope nat_scope.

Section table_proof.
Context {Select S : Type} `{RowStoreLaws S}.
Context (i2d : Z → Z) (dadd dsub : Z → Z → Z) (dchars : Z → chars).
Abbreviation Table := (Table Select S).
Abbreviation state := (state Select S).
Abbreviation op := (op Select S).
Abbreviation validateRow := (validateRow (Select := Select) (S := S) dchars).
Implicit Types t : Table.
Implicit Types s : state.

(** ** Running operations *)

(** [m] run in [s] has the result [r] and ends in a state of [P]. *)
Definition runs {A} (m : op A) (s : state) (r : result A) (P : state → Prop) : Prop :=
  ∃ s', m s = (r, s') ∧ P s'.

Lemma runs_bind {A B} (m : op A) (f : A → op B) s a P r Q :
  runs m s (Ok a) P → (∀ s', P s' → runs (f a) s' r Q) → runs (@mbind _ op_bind _ _ f m) s r Q.
Proof.
  intros (s1 & E1 & H1) Hf. destruct (Hf s1 H1) as (s2 & E2 & H2). exists s2. split; [|done].
  unfold mbind, op_bind. by rewrite E1.
Qed.

Lemma runs_throw {A B} (m : op A) (f : A → op B) s e P :
  runs m s (Throw e) P → runs (@mbind _ op_bind _ _ f m) s (Throw e) P.
Proof. intros (s1 & E1 & H1). exists s1. split; [|done]. unfold mbind, op_bind. by rewrite E1. Qed.

Lemma runs_ret {A} (a : A) s (P : state → Prop) : P s → runs (@mret _ op_ret _ a) s (Ok a) P.
Proof. intros Hp. by exists s. Qed.

Lemma runs_lift {A} (r : result A) s (P : state → Prop) : P s → runs (lift r) s r P.
Proof. intros Hp. by exists s. Qed.

Lemma runs_lift_eq {A} (r r' : result A) s (P : state → Prop) : r = r' → P s → runs (lift r) s r' P.
Proof. intros -> Hp. by exists s. Qed.

(** The table with the static part of [t]. *)
Definition with_parts (t : Table) (store : S) (im : IndexManager) (vs : MVCCRowStore) : Table :=
  mkTable (t_name t) (t_schema t) (t_checkConstraints t) (t_foreignKeys t) (t_uniqueConstraints t) store im vs (t_statistics t).

Definition at_state t (v : VectorRowStore) (im : IndexManager) (vs : MVCCRowStore)
    (tm : option TransactionManager) (s : state) : Prop :=
  ∃ store, s = mkState (with_parts t store im vs) tm ∧ rs_rep store v.

Lemma runs_table {B} (f : Table → op B) t v im vs tm s r Q :
  at_state t v im vs tm s → (∀ store, rs_rep store v → runs (f (with_parts t store im vs)) s r Q) →
  runs (@mbind _ op_bind _ _ f (on_table id)) s r Q.
Proof. intros (store & -> & Hrep) Hf. exact (Hf store Hrep). Qed.

Lemma runs_store {A} (f : S → result (A * S)) t v im vs tm s a v' :
  at_state t v im vs tm s → (∀ store, rs_rep store v → simulates rs_rep (f store) a v') →
  runs (row_store f) s (Ok a) (at_state t v' im vs tm).
Proof.
  intros (store & -> & Hrep) Hf. destruct (Hf store Hrep) as (store' & E & Hrep').
  eexists. split; [unfold row_store; simpl; by rewrite E|]. by exists store'.
Qed.

Lemma runs_versions {A} (f : MVCCRowStore → A * MVCCRowStore) t v im vs tm s :
  at_state t v im vs tm s → runs (versions f) s (Ok (f vs).1) (at_state t v im (f vs).2 tm).
Proof.
  intros (store & -> & Hrep). unfold runs, versions. simpl. destruct (f vs) as [a vs']. simpl.
  eexists. split; [done|]. by exists store.
Qed.

Lemma runs_transactions f t v im vs tm s :
  at_state t v im vs tm s → runs (transactions f) s (Ok tt) (at_state t v im vs (f <$> tm)).
Proof. intros (store & -> & Hrep). eexists. split; [done|]. by exists store. Qed.

Lemma runs_indexes {A} (f : IndexManager → S → result A * IndexManager * S) t v im vs tm s a (P : IndexManager → Prop) :
  at_state t v im vs tm s →
  (∀ store, rs_rep store v → ∃ im' store', f im store = (Ok a, im', store') ∧ rs_rep store' v ∧ P im') →
  runs (indexes f) s (Ok a) (λ s', ∃ im', P im' ∧ at_state t v im' vs tm s').
Proof.
  intros (store & -> & Hrep) Hf. destruct (Hf store Hrep) as (im' & store' & E & Hrep' & HP).
  eexists. split; [unfold indexes; simpl; by rewrite E|]. exists im'. split; [done|]. by exists store'.
Qed.

Lemma runs_stored t v im vs tm s i row : at_state t v im vs tm s → vrs_get i v = Some row →
  runs (stored_row i) s (Ok row) (at_state t v im vs tm).
Proof.
  intros Hs Hg. unfold stored_row. eapply runs_bind.
  - eapply runs_store; [exact Hs|]. intros store Hrep. apply rs_get_sim, Hrep.
  - intros s' Hs'. rewrite Hg. by apply runs_ret.
Qed.

(** ** Constraints *)

(** A row the table can hold: it passes [validateRow], has no NaN, and fits into
    the page format. *)
Definition good_row t (row : Row) : Prop :=
  validateRow t row = Ok tt ∧ Forall (λ x, comparable x) row ∧ storable_row row.

Definition column_names_of t : list string := col_name <$> t_schema t.

(** The cells of [row] in [columns]. *)
Definition cells t (columns : list string) (row : Row) (xs : list Value) : Prop :=
  Forall2 (λ c x, ∃ i, columnIndex t c = Some i ∧ row !! i = Some x) columns xs.

Lemma findColumn_Some (sch : Schema) c : c ∈ col_name <$> sch → ∃ i, findColumn sch c = Some i ∧ i < length sch.
Proof.
  induction sch as [|col sch IH]; [set_solver|]. simpl. destruct (String.eqb_spec (col_name col) c) as [|Hne].
  - intros _. exists 0. split; [done|lia].
  - intros [->|Hc]%elem_of_cons; [done|]. destruct (IH Hc) as (i & -> & Hi). exists (Datatypes.S i). split; [done|lia].
Qed.

Lemma unique_parts_ok t columns row : Forall (λ c, c ∈ column_names_of t) columns →
  length row = length (t_schema t) →
  ∃ xs, unique_parts columns (columnIndex t) row = Ok xs ∧ cells t columns row xs.
Proof.
  intros Hc Hl. induction Hc as [|c columns Hc _ IH]; [exists []; split; [done|constructor]|].
  destruct IH as (xs & E & Hx).
  destruct (findColumn_Some _ _ Hc) as (i & Hi & Hlt). rewrite <- Hl in Hlt.
  apply lookup_lt_is_Some_2 in Hlt as [x Hr]. exists (x :: xs). simpl. unfold columnIndex in *.
  rewrite Hi. unfold row_at. rewrite Hr. simpl. rewrite E. split; [done|]. constructor; [by exists i|done].
Qed.

Definition nn_eqb (x y : Value) : bool := negb (isNull x) && negb (isNull y) && Value_eqb x y.

Lemma unique_equal_cells t columns l r xs ys : cells t columns l xs → cells t columns r ys →
  unique_equal columns (columnIndex t) l r = Ok (list_eqb nn_eqb xs ys).
Proof.
  intros Hx. revert ys. induction Hx as [|c x columns xs (i & Hi & Hxi) _ IH]; intros ys Hy;
    inversion Hy as [|? y ? ys' (j & Hj & Hyj) Hy']; subst; try done.
  rewrite Hi in Hj. injection Hj as <-. simpl. rewrite Hi. unfold row_at. rewrite Hxi, Hyj. simpl.
  unfold nn_eqb at 1. destruct (isNull x), (isNull y); simpl; try done. destruct (Value_eqb x y); simpl; [|done].
  by apply IH.
Qed.

(** Cells of good rows are neither composite nor parameters. *)
Definition simple_value (x : Value) : Prop := isComposite x = false ∧ isParameter x = false.

Lemma validate_cells_simple row sch : validate_cells row sch = Ok tt → length row = length sch →
  Forall simple_value row.
Proof.
  revert sch. induction row as [|x row IH]; intros [|c sch]; try done. simpl.
  intros Hv [= Hl]. constructor; [by destruct x|]. apply (IH sch); [|done].
  destruct (isNull x); inv_result Hv; done.
Qed.

Lemma good_row_shape t row : good_row t row →
  length row = length (t_schema t) ∧ Forall simple_value row ∧ Forall (λ x, comparable x) row.
Proof.
  intros (Hv & Hc & _). unfold Table.validateRow in Hv.
  destruct (Nat.eqb_spec (length row) (length (t_schema t))) as [El|]; [|done]. simpl in Hv.
  destruct (validate_cells row (t_schema t)) as [[]|] eqn:Ec; [|done]. split_and!; [done| |done].
  by eapply validate_cells_simple.
Qed.

Lemma cells_Forall (P : Value → Prop) t columns row xs : cells t columns row xs → Forall P row → Forall P xs.
Proof.
  intros Hx Hr. induction Hx as [|c x columns xs (i & _ & Hi) _ IH]; [by constructor|].
  constructor; [|done]. rewrite Forall_lookup in Hr. eauto.
Qed.

Lemma nn_eqb_nonnull x y : isNull x = false → nn_eqb x y = Value_eqb x y.
Proof. unfold nn_eqb. intros E. rewrite E. by destruct x, y. Qed.

Lemma list_eqb_nonnull xs ys : Forall (λ x, isNull x = false) xs → list_eqb nn_eqb xs ys = list_eqb Value_eqb xs ys.
Proof.
  intros Hx. revert ys. induction Hx as [|x xs Hx _ IH]; intros [|y ys]; try done. simpl.
  by rewrite nn_eqb_nonnull, IH.
Qed.

Lemma list_eqb_null xs ys : ¬ Forall (λ x, isNull x = false) xs → list_eqb nn_eqb xs ys = false.
Proof.
  revert ys. induction xs as [|x xs IH]; intros [|y ys] Hn; try done; [by destruct Hn|]. simpl.
  destruct (isNull x) eqn:E; [by unfold nn_eqb; rewrite E|]. rewrite IH, andb_false_r; [done|].
  intros Hf. apply Hn. by constructor.
Qed.

Lemma composite_Ok xs : xs ≠ [] → ∃ key, composite xs = Ok key.
Proof. destruct xs as [|x [|y xs]]; [done|..]; by eexists. Qed.

Lemma composite_null xs key : composite xs = Ok key → Forall simple_value xs →
  hasNullCompositePart key = false ↔ Forall (λ x, isNull x = false) xs.
Proof.
  assert (∀ x, simple_value x → hasNullCompositePart x = isNull x) as Hs by (by intros [] []).
  destruct xs as [|x [|y xs]]; [done|..].
  - intros [= ->] [Hx _]%Forall_cons. rewrite Hs, Forall_singleton by done. done.
  - intros [= <-] Hx.
    change (existsb (λ p, isNull p || hasNullCompositePart p) (x :: y :: xs) = false ↔
            Forall (λ x, isNull x = false) (x :: y :: xs)).
    rewrite <- not_true_iff_false, existsb_exists.
    rewrite Forall_forall in Hx. rewrite Forall_forall. split.
    + intros Hn z Hz. apply not_true_iff_false. intros Ez. apply Hn. exists z. split; [by apply list_elem_of_In|by rewrite Ez].
    + intros Hn (z & Hz%list_elem_of_In & Ez). rewrite (Hs z), (Hn z) in Ez by auto. done.
Qed.

Lemma composite_eqb xs ys kx ky : composite xs = Ok kx → composite ys = Ok ky → length xs = length ys →
  Value_eqb kx ky = list_eqb Value_eqb xs ys.
Proof.
  destruct xs as [|x [|x' xs]], ys as [|y [|y' ys]]; try done.
  - intros [= ->] [= ->] _. simpl. by rewrite andb_true_r.
  - by intros [= <-] [= <-] _.
Qed.

Lemma composite_comparable xs key : composite xs = Ok key → Forall (λ x, comparable x) xs → comparable key.
Proof.
  destruct xs as [|x [|y xs]]; [done|..].
  - by intros [= ->] [Hx _]%Forall_cons.
  - intros [= <-] Hx. simpl. apply Is_true_true, (forallb_forall comparable (x :: y :: xs)).
    intros z Hz%list_elem_of_In. rewrite Forall_forall in Hx. by apply Is_true_true, Hx.
Qed.

Lemma cells_length t columns row xs : cells t columns row xs → length xs = length columns.
Proof. intros Hx. symmetry. by eapply Forall2_length. Qed.

Lemma cells_row_parts t columns idxs row ys : NoDup (column_names_of t) → columns_at (t_schema t) idxs columns →
  cells t columns row ys → row_parts row idxs = Ok ys.
Proof.
  intros Hnd Hc. revert ys. induction Hc as [|i c idxs columns (col & Hcol & <-) _ IH]; intros ys Hy;
    inversion Hy as [|? y ? ys' (j & Hj & Hyj) Hy']; subst; [done|].
  unfold columnIndex in Hj. rewrite (findColumn_lookup _ i) in Hj by done. injection Hj as <-.
  simpl. rewrite Hyj. by rewrite (IH ys').
Qed.

Definition constraint_ok t (c : UniqueConstraint) : Prop :=
  uc_columns c ≠ [] ∧ Forall (λ n, n ∈ column_names_of t) (uc_columns c).

(** The unique test of two good rows, by their cells. *)
Lemma uniqueRowsEqual_cells t c l r : constraint_ok t c → good_row t l → good_row t r →
  ∃ xs ys, cells t (uc_columns c) l xs ∧ cells t (uc_columns c) r ys ∧
    unique_parts (uc_columns c) (columnIndex t) l = Ok xs ∧
    uniqueRowsEqual t c l r = Ok (list_eqb nn_eqb xs ys).
Proof.
  intros [_ Hc] Hl%good_row_shape Hr%good_row_shape.
  destruct (unique_parts_ok t (uc_columns c) l Hc) as (xs & Ex & Hx); [apply Hl|].
  destruct (unique_parts_ok t (uc_columns c) r Hc) as (ys & Ey & Hy); [apply Hr|].
  exists xs, ys. split_and!; [done..|]. by apply unique_equal_cells.
Qed.

(** The index of a constraint decides the same test, once the key has no NULL. *)
Lemma key_test_unique t c idxs row r key : NoDup (column_names_of t) → constraint_ok t c →
  columns_at (t_schema t) idxs (uc_columns c) → good_row t row → good_row t r →
  uniqueKeyForRow t c row = Ok key → hasNullCompositePart key = false →
  uniqueRowsEqual t c row r = Ok (key_test idxs (λ k, Value_eqb k key) r).
Proof.
  intros Hnd Hc Hidx Hrow Hr Hk Hn. destruct (uniqueRowsEqual_cells t c row r Hc Hrow Hr) as (xs & ys & Hx & Hy & Ex & ->).
  pose proof (good_row_shape _ _ Hrow) as (_ & Hs & Hcr). pose proof (good_row_shape _ _ Hr) as (_ & _ & Hcy).
  unfold uniqueKeyForRow in Hk. rewrite Ex in Hk. cbn [mbind result_bind] in Hk.
  pose proof (cells_length _ _ _ _ Hx) as Lx. pose proof (cells_length _ _ _ _ Hy) as Ly.
  assert (ys ≠ []) as Hne. { intros ->. destruct Hc as [Hc _]. by destruct (uc_columns c). }
  destruct (composite_Ok ys Hne) as [ky Eky].
  unfold key_test, column_key. rewrite (cells_row_parts t (uc_columns c) idxs r ys) by done. cbn [mbind result_bind].
  assert (match ys with [v] => Ok v | _ => composite ys end = Ok ky) as -> by (by destruct ys as [|? []]).
  assert (comparable key) by (eapply composite_comparable; [exact Hk|by eapply cells_Forall]).
  assert (comparable ky) by (eapply composite_comparable; [exact Eky|by eapply cells_Forall]).
  f_equal. rewrite Value_eqb_sym, (composite_eqb xs ys) by (done || congruence).
  apply list_eqb_nonnull, (composite_null xs key Hk); [|done]. by eapply cells_Forall.
Qed.

(** ** Enforcing uniqueness *)

(** A live row other than the excluded one agrees with [row] on [c]. *)
Definition conflicts t (c : UniqueConstraint) (row : Row) (v : VectorRowStore) (ex : option RowId) : Prop :=
  ∃ i ri, excluded ex i = false ∧ vrs_get i v = Some ri ∧ uniqueRowsEqual t c row ri = Ok true.

(** What the lookups rely on. *)
Record tcore t (v : VectorRowStore) (im : IndexManager) : Prop := {
  tc_wf : im_wf (t_schema t) im;
  tc_reflects : im_reflects i2d dadd dsub (t_schema t) im v;
  tc_rows i row : vrs_get i v = Some row → good_row t row;
  tc_names : NoDup (column_names_of t);
  tc_uniques : Forall (constraint_ok t) (allUniqueConstraints t)
}.

Lemma unique_scan_ok t c row ex entries : constraint_ok t c → good_row t row →
  (∀ e, e ∈ entries → good_row t e.2) →
  (unique_scan t c row ex entries = Ok tt ∧
     ∀ e, e ∈ entries → excluded ex e.1 = false → uniqueRowsEqual t c row e.2 ≠ Ok true) ∨
  (unique_scan t c row ex entries = Throw (unique_violation c) ∧
     ∃ e, e ∈ entries ∧ excluded ex e.1 = false ∧ uniqueRowsEqual t c row e.2 = Ok true).
Proof.
  intros Hc Hrow. induction entries as [|[i r] entries IH]; intros Hg; [left; split; [done|set_solver]|].
  simpl. destruct IH as [[E Hno]|[E (e & He & Hx)]]; [set_solver| |].
  - destruct (excluded ex i) eqn:Ei.
    + left. split; [done|]. intros e [->|He]%elem_of_cons Hex; [simpl in Hex; congruence|auto].
    + destruct (uniqueRowsEqual_cells t c row r Hc Hrow) as (xs & ys & _ & _ & _ & Eu); [apply (Hg (i, r)); set_solver|].
      rewrite Eu. simpl. destruct (list_eqb nn_eqb xs ys) eqn:El.
      * right. split; [done|]. exists (i, r). split_and!; [set_solver|done|simpl; congruence].
      * left. split; [done|]. intros e [->|He]%elem_of_cons Hex; [simpl; rewrite Eu; congruence|auto].
  - destruct (excluded ex i) eqn:Ei.
    + right. split; [done|]. exists e. split; [set_solver|done].
    + destruct (uniqueRowsEqual_cells t c row r Hc Hrow) as (xs & ys & _ & _ & _ & Eu); [apply (Hg (i, r)); set_solver|].
      rewrite Eu. simpl. destruct (list_eqb nn_eqb xs ys) eqn:El.
      * right. split; [done|]. exists (i, r). split_and!; [set_solver|done|simpl; congruence].
      * right. split; [done|]. exists e. split; [set_solver|done].
Qed.

Lemma scan_ids_elem test v i : i ∈ scan_ids test v ↔ ∃ row, vrs_get i v = Some row ∧ test row = true.
Proof.
  unfold scan_ids. rewrite list_elem_of_fmap. split.
  - intros ([j row] & -> & [Ht Hl]%list_elem_of_filter). exists row. by rewrite live_entries_elem in Hl.
  - intros (row & Hg & Ht). exists (i, row). split; [done|]. apply list_elem_of_filter. by rewrite live_entries_elem.
Qed.

(** The outcome of the test once the key is known and has no NULL. *)
Definition unique_outcome t (c : UniqueConstraint) (row : Row) (ex : option RowId) (v : VectorRowStore)
    (hits : option (list RowId)) : result unit :=
  match hits with
  | Some hits => throw_if (existsb (λ hit, negb (excluded ex hit)) hits) (unique_violation c)
  | None => unique_scan t c row ex (vrs_liveEntries v)
  end.

Lemma unique_scan_parts t store im vs c row ex entries :
  unique_scan (with_parts t store im vs) c row ex entries = unique_scan t c row ex entries.
Proof.
  induction entries as [|[i r] entries IH]; [done|]. cbn [unique_scan]. rewrite IH.
  by change (uniqueRowsEqual (with_parts t store im vs) c row r) with (uniqueRowsEqual t c row r).
Qed.

Lemma enforce_one_outcome t v im vs tm s c row ex key hits : at_state t v im vs tm s →
  uniqueKeyForRow t c row = Ok key → hasNullCompositePart key = false →
  indexedLookup im (uc_columns c) key (t_schema t) = Ok hits →
  runs (enforce_one c row ex) s (unique_outcome t c row ex v hits) (at_state t v im vs tm).
Proof.
  intros Hs Hkey En El. eapply runs_table; [exact Hs|]. intros store Hrep.
  eapply runs_bind; [eapply runs_lift_eq; [exact Hkey|exact Hs]|]. intros s1 Hs1. rewrite En.
  eapply runs_bind; [eapply runs_lift_eq; [exact El|exact Hs1]|]. intros s2 Hs2.
  destruct hits as [hits|]; [by apply runs_lift|]. eapply runs_bind.
  - eapply runs_store; [exact Hs2|]. intros store1 Hrep1. apply rs_liveEntries_sim, Hrep1.
  - intros s3 Hs3. eapply runs_lift_eq; [apply unique_scan_parts|exact Hs3].
Qed.

Lemma unique_outcome_exact t v im c row ex key hits : tcore t v im → constraint_ok t c → good_row t row →
  uniqueKeyForRow t c row = Ok key → hasNullCompositePart key = false → comparable key →
  indexedLookup im (uc_columns c) key (t_schema t) = Ok hits →
  (unique_outcome t c row ex v hits = Ok tt ∧ ¬ conflicts t c row v ex) ∨
  (unique_outcome t c row ex v hits = Throw (unique_violation c) ∧ conflicts t c row v ex).
Proof.
  intros [Hwf Hr Hrows Hnd _] Hc Hrow Hkey En Hck El.
  destruct (indexedLookup_scan i2d dadd dsub (t_schema t) im v (uc_columns c) key Hwf Hr Hck) as (hits' & El' & _ & Hids).
  rewrite El in El'. injection El' as <-. destruct hits as [hits|]; simpl.
  - destruct (Hids hits eq_refl) as (idxs & Hat & Hp).
    assert (∀ i, i ∈ hits ↔ ∃ ri, vrs_get i v = Some ri ∧ uniqueRowsEqual t c row ri = Ok true) as Hhit.
    { intros i. rewrite Hp, scan_ids_elem. split; intros (ri & Hg & Ht); exists ri; (split; [done|]).
      - rewrite (key_test_unique t c idxs row ri key); eauto. by rewrite Ht.
      - rewrite (key_test_unique t c idxs row ri key) in Ht; eauto. congruence. }
    destruct (existsb (λ hit, negb (excluded ex hit)) hits) eqn:Ee; [right|left]; (split; [done|]).
    + apply existsb_exists in Ee as (i & Hi%list_elem_of_In%Hhit & Hx'%negb_true_iff).
      destruct Hi as (ri & Hg & Eu). by exists i, ri.
    + intros (i & ri & Hex & Hg & Eu). apply not_true_iff_false in Ee. apply Ee, existsb_exists.
      exists i. split; [apply list_elem_of_In, Hhit; eauto|by rewrite Hex].
  - destruct (unique_scan_ok t c row ex (vrs_liveEntries v) Hc Hrow) as [[E Hno]|[E ([i ri] & He & Hex & Eu)]].
    + intros [i ri] Hi%live_entries_elem. eauto.
    + left. split; [done|]. intros (i & ri & Hex & Hg%live_entries_elem & Eu). by apply (Hno (i, ri)).
    + right. split; [done|]. apply live_entries_elem in He. by exists i, ri.
Qed.

Lemma null_key_no_conflict t v im c row ex xs key : tcore t v im → constraint_ok t c → good_row t row →
  unique_parts (uc_columns c) (columnIndex t) row = Ok xs → Forall simple_value xs →
  composite xs = Ok key → hasNullCompositePart key = true → ¬ conflicts t c row v ex.
Proof.
  intros Hcore Hc Hrow Ex Hs Ek En (i & ri & _ & Hg & Eu).
  destruct (uniqueRowsEqual_cells t c row ri Hc Hrow (tc_rows _ _ _ Hcore _ _ Hg)) as (xs' & ys & Hx' & _ & Ex' & Eu').
  rewrite Ex in Ex'. injection Ex' as <-. rewrite Eu' in Eu. rewrite list_eqb_null in Eu; [done|].
  rewrite <- (composite_null xs key Ek); [congruence|done].
Qed.

Lemma enforce_one_runs t v im vs tm s c row ex : at_state t v im vs tm s → tcore t v im →
  constraint_ok t c → good_row t row →
  (runs (enforce_one c row ex) s (Ok tt) (at_state t v im vs tm) ∧ ¬ conflicts t c row v ex) ∨
  (runs (enforce_one c row ex) s (Throw (unique_violation c)) (at_state t v im vs tm) ∧ conflicts t c row v ex).
Proof.
  intros Hs Hcore Hc Hrow. destruct (uniqueRowsEqual_cells t c row row Hc Hrow Hrow) as (xs & ? & Hx & _ & Ex & _).
  pose proof (good_row_shape _ _ Hrow) as (_ & Hsimple & Hcr).
  destruct (composite_Ok xs) as [key Ek].
  { intros ->. destruct Hc as [Hc _]. apply cells_length in Hx. by destruct (uc_columns c). }
  assert (uniqueKeyForRow t c row = Ok key) as Hkey by (unfold uniqueKeyForRow; by rewrite Ex).
  pose proof (composite_comparable xs key Ek (cells_Forall _ _ _ _ _ Hx Hcr)) as Hck.
  destruct (hasNullCompositePart key) eqn:En.
  - left. split; [|by eapply null_key_no_conflict; eauto using cells_Forall].
    eapply runs_table; [exact Hs|]. intros store Hrep.
    eapply runs_bind; [eapply runs_lift_eq; [exact Hkey|exact Hs]|]. intros s' Hs'. rewrite En. by apply runs_ret.
  - destruct (indexedLookup_scan i2d dadd dsub (t_schema t) im v (uc_columns c) key) as (hits & El & _);
      [apply Hcore..|done|].
    pose proof (enforce_one_outcome _ _ _ _ _ _ c row ex key hits Hs Hkey En El) as Hrun.
    destruct (unique_outcome_exact t v im c row ex key hits) as [[E Hno]|[E Hyes]]; [done..| |];
      rewrite E in Hrun; auto.
Qed.

(** The verdict depends only on the rows: the same in every state. *)
Lemma enforce_one_stable t v im vs tm s c row ex : at_state t v im vs tm s → tcore t v im →
  constraint_ok t c → good_row t row →
  (¬ conflicts t c row v ex ∧ ∀ vs tm s, at_state t v im vs tm s →
     runs (enforce_one c row ex) s (Ok tt) (at_state t v im vs tm)) ∨
  (conflicts t c row v ex ∧ ∀ vs tm s, at_state t v im vs tm s →
     runs (enforce_one c row ex) s (Throw (unique_violation c)) (at_state t v im vs tm)).
Proof.
  intros Hs Hcore Hc Hrow.
  destruct (enforce_one_runs t v im vs tm s c row ex Hs Hcore Hc Hrow) as [[_ Hno]|[_ Hyes]]; [left|right];
    (split; [done|]); intros vs' tm' s' Hs';
    by destruct (enforce_one_runs t v im vs' tm' s' c row ex Hs' Hcore Hc Hrow) as [[? ?]|[? ?]].
Qed.

Lemma enforce_all_runs t v im vs tm s cs row ex : at_state t v im vs tm s → tcore t v im →
  Forall (constraint_ok t) cs → good_row t row →
  ((∀ c, c ∈ cs → ¬ conflicts t c row v ex) ∧ ∀ vs tm s, at_state t v im vs tm s →
     runs (enforce_all cs row ex) s (Ok tt) (at_state t v im vs tm)) ∨
  (∃ c, c ∈ cs ∧ conflicts t c row v ex ∧ ∀ vs tm s, at_state t v im vs tm s →
     runs (enforce_all cs row ex) s (Throw (unique_violation c)) (at_state t v im vs tm)).
Proof.
  intros Hs Hcore Hcs Hrow. induction Hcs as [|c cs Hc _ IH].
  { left. split; [set_solver|]. intros vs' tm' s' Hs'. by apply runs_ret. }
  destruct (enforce_one_stable t v im vs tm s c row ex Hs Hcore Hc Hrow) as [[Hno Hone]|[Hyes Hone]].
  - destruct IH as [[Hall Hrun]|(c' & Hin & Hyes & Hrun)].
    + left. split; [set_solver|]. intros vs' tm' s' Hs'. eapply runs_bind; [by apply Hone|]. intros s1. apply Hrun.
    + right. exists c'. split; [set_solver|]. split; [done|]. intros vs' tm' s' Hs'.
      eapply runs_bind; [by apply Hone|]. intros s1. apply Hrun.
  - right. exists c. split; [set_solver|]. split; [done|]. intros vs' tm' s' Hs'. by apply runs_throw, Hone.
Qed.

(** ** The invariant *)

(** The row of the newest version, if that version is not deleted. *)
Definition latest (vs : MVCCRowStore) (i : RowId) : option Row :=
  match vs !! i ≫= last with
  | Some v => match rv_deletedBy v with None => Some (rv_row v) | Some _ => None end
  | None => None
  end.

(** The rows and the indexes. *)
Record hinv t (v : VectorRowStore) (im : IndexManager) : Prop := {
  hi_core : tcore t v im;
  hi_keys row : good_row t row → indexable i2d dadd dsub (t_schema t) im row;
  hi_unique c i j ri rj : c ∈ allUniqueConstraints t → i ≠ j →
    vrs_get i v = Some ri → vrs_get j v = Some rj → uniqueRowsEqual t c ri rj ≠ Ok true
}.

(** The rows, the indexes and the versions. *)
Record tinv t (v : VectorRowStore) (im : IndexManager) (vs : MVCCRowStore) : Prop := {
  ti_heap : hinv t v im;
  ti_versions i : latest vs i = vrs_get i v
}.

Lemma ti_core t v im vs : tinv t v im vs → tcore t v im.
Proof. intros Hinv. apply Hinv. Qed.
Lemma ti_keys t v im vs row : tinv t v im vs → good_row t row → indexable i2d dadd dsub (t_schema t) im row.
Proof. intros Hinv. apply Hinv. Qed.

Definition table_ok t (v : VectorRowStore) : Prop :=
  rs_rep (t_rowStore t) v ∧ tinv t v (t_indexManager t) (t_versions t).

Lemma latest_write vs i row w j : latest (mvcc_write i row w vs) j = if decide (j = i) then Some row else latest vs j.
Proof.
  unfold latest, mvcc_write. destruct (decide (j = i)) as [->|Hne].
  - rewrite lookup_insert_eq. simpl. by rewrite last_snoc.
  - by rewrite lookup_insert_ne.
Qed.

Lemma latest_erase vs i w j : latest (mvcc_erase i w vs) j = if decide (j = i) then None else latest vs j.
Proof.
  unfold latest, mvcc_erase. destruct (vs !! i) as [chain|] eqn:E.
  - destruct (decide (j = i)) as [->|Hne]; [|by rewrite lookup_insert_ne]. rewrite lookup_insert_eq. simpl.
    destruct chain as [|v chain _] using rev_ind; [done|]. by rewrite map_last_snoc, last_snoc.
  - destruct (decide (j = i)) as [->|Hne]; [by rewrite E|done].
Qed.

Lemma list_eqb_sym xs ys : Forall (λ x, comparable x) xs → Forall (λ x, comparable x) ys →
  list_eqb nn_eqb xs ys = list_eqb nn_eqb ys xs.
Proof.
  intros Hx. revert ys. induction Hx as [|x xs Hx _ IH]; intros ys Hy; destruct Hy as [|y ys Hy Hys]; try done.
  simpl. rewrite (IH ys Hys). f_equal. unfold nn_eqb. rewrite (Value_eqb_sym x y) by done.
  by rewrite (andb_comm (negb (isNull x))).
Qed.

Lemma uniqueRowsEqual_sym t c l r : constraint_ok t c → good_row t l → good_row t r →
  uniqueRowsEqual t c l r = uniqueRowsEqual t c r l.
Proof.
  intros Hc Hl Hr. destruct (uniqueRowsEqual_cells t c l r Hc Hl Hr) as (xs & ys & Hx & Hy & _ & ->).
  unfold uniqueRowsEqual. rewrite (unique_equal_cells _ _ _ _ ys xs) by done. f_equal. apply list_eqb_sym.
  - eapply cells_Forall; [exact Hx|]. by apply (good_row_shape t l).
  - eapply cells_Forall; [exact Hy|]. by apply (good_row_shape t r).
Qed.

(** Replacing the row at [i]. *)
Lemma hinv_put t v im i row v' im' : hinv t v im →
  (∀ j, vrs_get j v' = if decide (j = i) then Some row else vrs_get j v) → good_row t row →
  (∀ c, c ∈ allUniqueConstraints t → ¬ conflicts t c row v (Some i)) →
  same_defs im im' → im_reflects i2d dadd dsub (t_schema t) im' v' → hinv t v' im'.
Proof.
  intros [[Hwf Hr Hrows Hnd Hun] Hkeys Huniq] Hg Hrow Hno Hs Hr'.
  assert (∀ j rj, vrs_get j v' = Some rj → good_row t rj) as Hrows'.
  { intros j rj. rewrite Hg. case_decide; [by intros [= <-]|apply Hrows]. }
  assert (∀ c j rj, c ∈ allUniqueConstraints t → j ≠ i → vrs_get j v = Some rj →
    uniqueRowsEqual t c row rj ≠ Ok true) as Hnew.
  { intros c j rj Hc Hj Hgj Eu. apply (Hno c Hc). exists j, rj. split_and!; [|done..]. simpl. by apply Nat.eqb_neq. }
  split; [split| |..]; try done.
  - by eapply same_defs_wf.
  - intros r Hr1. eapply same_defs_indexable; [exact Hs|by apply Hkeys].
  - intros c a b ra rb Hc Hab Ha Hb. pose proof (Hrows' _ _ Ha) as Hga. pose proof (Hrows' _ _ Hb) as Hgb.
    rewrite Hg in Ha, Hb. rewrite Forall_forall in Hun.
    destruct (decide (a = i)) as [->|Hai], (decide (b = i)) as [->|Hbi]; simplify_eq.
    + by apply (Hnew c b).
    + rewrite uniqueRowsEqual_sym by auto. by apply (Hnew c a).
    + by apply (Huniq c a b).
Qed.

Lemma tinv_put t v im vs i row v' im' vs' : tinv t v im vs →
  (∀ j, vrs_get j v' = if decide (j = i) then Some row else vrs_get j v) → good_row t row →
  (∀ c, c ∈ allUniqueConstraints t → ¬ conflicts t c row v (Some i)) →
  same_defs im im' → im_reflects i2d dadd dsub (t_schema t) im' v' →
  (∀ j, latest vs' j = if decide (j = i) then Some row else latest vs j) → tinv t v' im' vs'.
Proof.
  intros [Hh Hvs] Hg Hrow Hno Hs Hr' Hl. split; [by eapply hinv_put|].
  intros j. rewrite Hl, Hg. case_decide; [done|]. apply Hvs.
Qed.

(** Removing the row at [i]. *)
Lemma hinv_del t v im i v' im' : hinv t v im →
  (∀ j, vrs_get j v' = if decide (j = i) then None else vrs_get j v) →
  same_defs im im' → im_reflects i2d dadd dsub (t_schema t) im' v' → hinv t v' im'.
Proof.
  intros [[Hwf Hr Hrows Hnd Hun] Hkeys Huniq] Hg Hs Hr'.
  split; [split| |..]; try done.
  - by eapply same_defs_wf.
  - intros j rj. rewrite Hg. case_decide; [done|apply Hrows].
  - intros r Hr1. eapply same_defs_indexable; [exact Hs|by apply Hkeys].
  - intros c a b ra rb Hc Hab. rewrite !Hg. repeat case_decide; try done. by apply Huniq.
Qed.

Lemma tinv_del t v im vs i v' im' vs' : tinv t v im vs →
  (∀ j, vrs_get j v' = if decide (j = i) then None else vrs_get j v) →
  same_defs im im' → im_reflects i2d dadd dsub (t_schema t) im' v' →
  (∀ j, latest vs' j = if decide (j = i) then None else latest vs j) → tinv t v' im' vs'.
Proof.
  intros [Hh Hvs] Hg Hs Hr' Hl. split; [by eapply hinv_del|].
  intros j. rewrite Hl, Hg. case_decide; [done|]. apply Hvs.
Qed.

(** ** Operations *)

Lemma rebuild_runs t v im vs tm s : at_state t v im vs tm s → im_wf (t_schema t) im →
  (∀ i row, vrs_get i v = Some row → indexable i2d dadd dsub (t_schema t) im row) →
  runs (Table_rebuildIndexes i2d dadd dsub) s (Ok tt)
    (λ s', ∃ im', (same_defs im im' ∧ im_reflects i2d dadd dsub (t_schema t) im' v) ∧ at_state t v im' vs tm s').
Proof.
  intros Hs Hwf Hidx. eapply runs_table; [exact Hs|]. intros store Hrep. eapply runs_indexes; [exact Hs|].
  intros store1 Hrep1. destruct (rebuild_ok i2d dadd dsub (t_schema t) im store1 v Hrep1) as (im' & store' & E & Hrep' & Hd & Hr);
    [apply Hwf|done|]. by exists im', store'.
Qed.

Lemma ssi_columns_ok sch row : length row = length sch → ∃ columns, ssi_columns sch row = Ok columns.
Proof.
  revert row. induction sch as [|c sch IH]; intros [|x row]; try done; [by eexists|]. simpl. intros [= E].
  destruct (IH row E) as [columns ->]. by eexists.
Qed.

Lemma record_image_runs t v im vs tm s w i row : at_state t v im vs tm s → length row = length (t_schema t) →
  runs (record_image w i row) s (Ok tt) (λ s', ∃ tm', at_state t v im vs tm' s').
Proof.
  intros Hs Hl. destruct (ssi_columns_ok (t_schema t) row Hl) as [columns E].
  eapply runs_table; [exact Hs|]. intros store Hrep. eapply (runs_bind _ _ _ (bool_decide (is_Some tm)) (at_state t v im vs tm)).
  { destruct Hs as (store0 & -> & Hr0). eexists. split; [done|]. by exists store0. }
  intros s1 Hs1. case_bool_decide; [|apply runs_ret; by exists tm].
  eapply runs_bind; [eapply runs_transactions, Hs1|]. intros s2 Hs2.
  eapply runs_bind; [eapply runs_lift_eq; [exact E|exact Hs2]|]. intros s3 Hs3.
  destruct (runs_transactions (recordInsert w (mkSsiInsert (t_name t) columns)) _ _ _ _ _ _ Hs3) as (s4 & E4 & Hs4).
  exists s4. split; [exact E4|]. eauto.
Qed.

(** The outcome of [insert]: the exception of [validateRow], a unique violation
    with a live row, or the row appended. *)
Definition insert_outcome t (v : VectorRowStore) (row : Row) (r : result RowId) (v' : VectorRowStore) : Prop :=
  match validateRow t row with
  | Throw e => r = Throw e ∧ v' = v
  | Ok _ =>
      (∃ c, c ∈ allUniqueConstraints t ∧ conflicts t c row v None ∧ r = Throw (unique_violation c) ∧ v' = v) ∨
      ((∀ c, c ∈ allUniqueConstraints t → ¬ conflicts t c row v None) ∧
       r = Ok (vrs_append row v).1 ∧ v' = (vrs_append row v).2)
  end.

(** A final state of an operation that keeps the invariant. *)
Definition ok_state t (v : VectorRowStore) (s : state) : Prop :=
  ∃ im vs tm, at_state t v im vs tm s ∧ tinv t v im vs.

Lemma at_state_inv t v im vs tm s : at_state t v im vs tm s → vrs_inv v.
Proof. intros (store & _ & Hrep). by eapply rs_rep_inv. Qed.

(** The constraint test as a whole. *)
Lemma enforce_runs t v im vs tm s row ex : at_state t v im vs tm s → tcore t v im → good_row t row →
  ((∀ c, c ∈ allUniqueConstraints t → ¬ conflicts t c row v ex) ∧ ∀ vs tm s, at_state t v im vs tm s →
     runs (enforceUniqueConstraintsUnlocked row ex) s (Ok tt) (at_state t v im vs tm)) ∨
  (∃ c, c ∈ allUniqueConstraints t ∧ conflicts t c row v ex ∧ ∀ vs tm s, at_state t v im vs tm s →
     runs (enforceUniqueConstraintsUnlocked row ex) s (Throw (unique_violation c)) (at_state t v im vs tm)).
Proof.
  intros Hs Hcore Hrow.
  destruct (enforce_all_runs t v im vs tm s _ row ex Hs Hcore (tc_uniques _ _ _ Hcore) Hrow)
    as [[Hno Hrun]|(c & Hin & Hyes & Hrun)].
  - left. split; [done|]. intros vs' tm' s' Hs'. eapply runs_table; [exact Hs'|]. intros store Hrep. by apply Hrun.
  - right. exists c. split_and!; [done..|]. intros vs' tm' s' Hs'.
    eapply runs_table; [exact Hs'|]. intros store Hrep. by apply Hrun.
Qed.

Lemma runs_mono {A} (m : op A) s r (P Q : state → Prop) : runs m s r P → (∀ s', P s' → Q s') → runs m s r Q.
Proof. intros (s' & E & Hp) Hpq. exists s'. auto. Qed.

Lemma ok_state_intro t v im vs tm s : at_state t v im vs tm s → tinv t v im vs → ok_state t v s.
Proof. intros. by exists im, vs, tm. Qed.

(** A final state with known versions. *)
Definition ok_with t (v : VectorRowStore) (vs : MVCCRowStore) (s : state) : Prop :=
  ∃ im tm, at_state t v im vs tm s ∧ tinv t v im vs.

Lemma ok_with_intro t v im vs tm s : at_state t v im vs tm s → tinv t v im vs → ok_with t v vs s.
Proof. intros. by exists im, tm. Qed.
Lemma ok_with_state t v vs s : ok_with t v vs s → ok_state t v s.
Proof. intros (im & tm & ? & ?). by exists im, vs, tm. Qed.

Lemma insert_accepts t v im vs tm s row w : at_state t v im vs tm s → tinv t v im vs → good_row t row →
  runs (enforceUniqueConstraintsUnlocked row None) s (Ok tt) (at_state t v im vs tm) →
  (∀ c, c ∈ allUniqueConstraints t → ¬ conflicts t c row v None) →
  runs (Table_insert i2d dadd dsub dchars row w) s (Ok (vrs_append row v).1) 
    (ok_with t (vrs_append row v).2 (mvcc_write (vrs_append row v).1 row w vs)).
Proof.
  intros Hs Hinv Hgood Henf Hno. pose proof Hgood as (Ev & _ & Hst). pose proof (ti_core _ _ _ _ Hinv) as Hcore.
  pose proof (at_state_inv _ _ _ _ _ _ Hs) as Hv. destruct (append_live_entries row v Hv) as [Hlive Hget].
  pose proof (vrs_append_spec v row Hv) as Happ. destruct (vrs_append row v) as [i v'] eqn:Ea. simpl in *.
  destruct Happ as (_ & Hfresh & Hlook).
  eapply runs_table; [exact Hs|]. intros store0 Hrep0.
  eapply runs_bind; [eapply runs_lift_eq; [exact Ev|exact eq_refl]|]. intros ? <-.
  eapply runs_bind; [exact Henf|]. intros s1 Hs1.
  eapply (runs_bind _ _ _ i).
  { eapply runs_store; [exact Hs1|]. intros store Hrep. pose proof (rs_append_sim store v row Hrep Hst) as Hsim.
    rewrite Ea in Hsim. exact Hsim. }
  intros s2 Hs2. eapply runs_bind; [eapply runs_stored; [exact Hs2|exact Hget]|]. intros s3 Hs3.
  eapply runs_bind; [eapply runs_versions, Hs3|]. intros s4 Hs4. simpl in Hs4.
  eapply runs_bind.
  { eapply runs_table; [exact Hs4|]. intros store4 Hrep4. eapply runs_indexes; [exact Hs4|].
    intros store Hrep. apply (addRow_maintains i2d dadd dsub (t_schema t) row im store v i v'); try done.
    - apply Hcore.
    - by apply (ti_keys t v im vs). }
  intros s5 (im' & (Hd & Hr) & Hs5). eapply runs_bind; [eapply record_image_runs; [exact Hs5|by apply (good_row_shape t)]|].
  intros s6 (tm' & Hs6). apply runs_ret. eapply ok_with_intro; [exact Hs6|].
  eapply (tinv_put t v im vs i row); try done.
  - intros c Hc (j & rj & _ & Hg & Eu). apply (Hno c Hc). by exists j, rj.
  - intros j. apply latest_write.
Qed.

Lemma insert_runs t v im vs tm s row w : at_state t v im vs tm s → tinv t v im vs →
  Forall (λ x, comparable x) row → storable_row row →
  ∃ r v', runs (Table_insert i2d dadd dsub dchars row w) s r
      (ok_with t v' match r with Ok i => mvcc_write i row w vs | Throw _ => vs end) ∧ insert_outcome t v row r v'.
Proof.
  intros Hs Hinv Hcr Hst. unfold insert_outcome. destruct (validateRow t row) as [[]|e] eqn:Ev.
  - assert (good_row t row) as Hgood by done.
    destruct (enforce_runs t v im vs tm s row None Hs (ti_core _ _ _ _ Hinv) Hgood) as [[Hno Hrun]|(c & Hin & Hyes & Hrun)].
    + exists (Ok (vrs_append row v).1), (vrs_append row v).2. split; [eapply insert_accepts; eauto|by right].
    + exists (Throw (unique_violation c)), v. split; [|left; by exists c].
      eapply runs_table; [exact Hs|]. intros store Hrep.
      eapply runs_bind; [eapply runs_lift_eq; [exact Ev|exact eq_refl]|]. intros ? <-.
      apply runs_throw. eapply runs_mono; [by apply Hrun|]. intros s1 Hs1. by eapply ok_with_intro.
  - exists (Throw e), v. split; [|done]. eapply runs_table; [exact Hs|]. intros store Hrep.
    apply runs_throw. eapply runs_lift_eq; [exact Ev|by eapply ok_with_intro].
Qed.

Lemma erase_get v i row j : vrs_get i v = Some row →
  (vrs_erase i v).1 = true ∧ vrs_get j (vrs_erase i v).2 = if decide (j = i) then None else vrs_get j v.
Proof.
  unfold vrs_get, vrs_erase. intros E. rewrite E. split; [done|]. cbn [snd].
  apply vrs_lookup_Some in E. apply vrs_lookup_insert. by eapply lookup_lt_Some.
Qed.

Lemma update_get v i old row j : vrs_get i v = Some old →
  (vrs_update i row v).1 = true ∧ vrs_get j (vrs_update i row v).2 = if decide (j = i) then Some row else vrs_get j v.
Proof.
  unfold vrs_get, vrs_update. intros E. rewrite E. split; [done|]. cbn [snd].
  apply vrs_lookup_Some in E. apply vrs_lookup_insert. by eapply lookup_lt_Some.
Qed.

(** The outcome of [erase]. *)
Definition erase_outcome (v : VectorRowStore) (i : RowId) (r : result bool) (v' : VectorRowStore) : Prop :=
  match vrs_get i v with
  | None => r = Ok false ∧ v' = v
  | Some _ => r = Ok true ∧ v' = (vrs_erase i v).2
  end.

Lemma get_runs t v im vs tm s i : at_state t v im vs tm s →
  runs (row_store (rs_get i)) s (Ok (vrs_get i v)) (at_state t v im vs tm).
Proof. intros Hs. eapply runs_store; [exact Hs|]. intros store Hrep. apply rs_get_sim, Hrep. Qed.

Lemma rebuild_keys t v im v' : hinv t v im → (∀ i row, vrs_get i v' = Some row → good_row t row) →
  ∀ i row, vrs_get i v' = Some row → indexable i2d dadd dsub (t_schema t) im row.
Proof. intros Hinv Hrows i row Hg. eapply hi_keys; [exact Hinv|eauto]. Qed.

Lemma erase_runs t v im vs tm s i w : at_state t v im vs tm s → tinv t v im vs →
  ∃ r v', runs (Table_erase i2d dadd dsub i w) s r
      (ok_with t v' match r with Ok true => mvcc_erase i w vs | _ => vs end) ∧ erase_outcome v i r v'.
Proof.
  intros Hs Hinv. unfold erase_outcome. destruct (vrs_get i v) as [row|] eqn:Eg.
  - exists (Ok true), (vrs_erase i v).2. split; [|done]. pose proof (λ j, erase_get v i row j Eg) as Hdel.
    eapply runs_table; [exact Hs|]. intros store0 Hrep0.
    eapply runs_bind; [eapply get_runs, Hs|]. rewrite Eg. intros s1 Hs1.
    eapply runs_bind; [eapply runs_versions, Hs1|]. intros s2 Hs2. simpl in Hs2.
    eapply (runs_bind _ _ _ true).
    { eapply runs_store; [exact Hs2|]. intros store Hrep. rewrite <- (proj1 (Hdel i)). apply rs_erase_sim, Hrep. }
    intros s3 Hs3. cbn [negb]. eapply runs_bind.
    { eapply rebuild_runs; [exact Hs3|apply Hinv|]. eapply rebuild_keys; [apply Hinv|]. intros j rj.
      rewrite (proj2 (Hdel j)). case_decide; [done|]. apply (tc_rows _ _ _ (ti_core _ _ _ _ Hinv)). }
    intros s4 (im' & (Hd & Hr) & Hs4). eapply runs_bind; [eapply runs_transactions, Hs4|]. intros s5 Hs5.
    apply runs_ret. eapply ok_with_intro; [exact Hs5|]. eapply (tinv_del t v im vs i); try done.
    + intros j. apply Hdel.
    + intros j. apply latest_erase.
  - exists (Ok false), v. split; [|done]. eapply runs_table; [exact Hs|]. intros store0 Hrep0.
    eapply runs_bind; [eapply get_runs, Hs|]. rewrite Eg. intros s1 Hs1. apply runs_ret. by eapply ok_with_intro.
Qed.

Lemma validate_cells_insert row sch k c value : validate_cells row sch = Ok tt → sch !! k = Some c →
  validate_update c value = Ok tt → validate_cells (<[k := value]> row) sch = Ok tt.
Proof.
  revert row k. induction sch as [|c' sch IH]; intros [|x row] k Hv; try done. destruct k as [|k]; simpl in *.
  - intros [= ->] Hu. unfold validate_update in Hu. destruct (isNull value).
    + rewrite Hu. simpl. by destruct (isNull x); inv_result Hv.
    + destruct (Value_type value) as [ty|]; [|done]. simpl in *. destruct (bool_decide (ty = col_type c)); [|done].
      simpl. by destruct (isNull x); inv_result Hv.
  - intros Hk Hu. destruct (isNull x).
    + destruct (throw_if _ _) as [[]|]; [|done]. simpl in *. by apply IH.
    + destruct (Value_type x); [|done]. simpl in *. destruct (throw_if _ _) as [[]|]; [|done]. simpl in *. by apply IH.
Qed.

Lemma good_row_insert t row k c value : good_row t row → t_schema t !! k = Some c →
  validate_update c value = Ok tt → enforceCheckConstraints dchars t (<[k := value]> row) = Ok tt →
  comparable value → storable value → good_row t (<[k := value]> row).
Proof.
  intros (Hv & Hc & [Hsz Hst]) Hk Hu Hch Hcv Hsv. unfold good_row, Table.validateRow in *. rewrite length_insert.
  destruct (Nat.eqb (length row) (length (t_schema t))); [|done]. simpl in *.
  destruct (validate_cells row (t_schema t)) as [[]|] eqn:Ec; [|done].
  rewrite (validate_cells_insert row (t_schema t) k c value) by done. split_and!; [done|by apply Forall_insert|].
  split; [by rewrite length_insert|by apply Forall_insert].
Qed.

(** The outcome of [update]. *)
Definition update_outcome t (v : VectorRowStore) (i : RowId) (k : nat) (value : Value) (r : result bool)
    (v' : VectorRowStore) : Prop :=
  match vrs_get i v, t_schema t !! k with
  | Some row, Some c =>
      let updated := <[k := value]> row in
      match validate_update c value, enforceCheckConstraints dchars t updated with
      | Throw e, _ | Ok _, Throw e => r = Throw e ∧ v' = v
      | Ok _, Ok _ =>
          (∃ u, u ∈ allUniqueConstraints t ∧ conflicts t u updated v (Some i) ∧
                r = Throw (unique_violation u) ∧ v' = v) ∨
          ((∀ u, u ∈ allUniqueConstraints t → ¬ conflicts t u updated v (Some i)) ∧
           r = Ok true ∧ v' = (vrs_update i updated v).2)
      end
  | _, _ => r = Ok false ∧ v' = v
  end.

(** The end of [update] and of the undo operations: the row is in the store, the
    versions are written, the indexes are rebuilt. *)
Lemma replaced_runs t v im vs tm s i old row vs' : at_state t (vrs_update i row v).2 im vs' tm s →
  tinv t v im vs → vrs_get i v = Some old → good_row t row →
  (∀ c, c ∈ allUniqueConstraints t → ¬ conflicts t c row v (Some i)) →
  (∀ j, latest vs' j = if decide (j = i) then Some row else latest vs j) →
  runs (Table_rebuildIndexes i2d dadd dsub) s (Ok tt)
    (λ s', ∃ im', at_state t (vrs_update i row v).2 im' vs' tm s' ∧ tinv t (vrs_update i row v).2 im' vs').
Proof.
  intros Hs Hinv Hg Hrow Hno Hl. pose proof (λ j, update_get v i old row j Hg) as Hput.
  eapply runs_mono.
  - eapply rebuild_runs; [exact Hs|apply Hinv|]. eapply rebuild_keys; [apply Hinv|]. intros j rj.
    rewrite (proj2 (Hput j)). case_decide; [by intros [= <-]|]. apply (tc_rows _ _ _ (ti_core _ _ _ _ Hinv)).
  - intros s' (im' & (Hd & Hr) & Hs'). exists im'. split; [done|]. eapply (tinv_put t v im vs i row); try done.
    intros j. apply Hput.
Qed.

Lemma update_store_runs t v im vs tm s i old row : at_state t v im vs tm s → vrs_get i v = Some old →
  storable_row row → runs (row_store (rs_update i row)) s (Ok true) (at_state t (vrs_update i row v).2 im vs tm).
Proof.
  intros Hs Hg Hst. eapply runs_store; [exact Hs|]. intros store Hrep.
  rewrite <- (proj1 (update_get v i old row i Hg)). by apply rs_update_sim.
Qed.

(** One step of an operation whose outcome is among the hypotheses. *)
Ltac op_step :=
  lazymatch goal with
  | |- runs (mbind _ (on_table id)) _ _ _ => eapply runs_table; [eassumption|intros ? ?; cbv beta]
  | |- runs (mbind _ (row_store (rs_get _))) _ _ _ => eapply runs_bind; [eapply get_runs; eassumption|intros ? ?]
  | |- runs (mbind _ (stored_row _)) _ _ _ => eapply runs_bind; [eapply runs_stored; eassumption|intros ? ?]
  | |- runs (mbind _ (versions _)) _ _ _ => eapply runs_bind; [eapply runs_versions; eassumption|intros ? ?]
  | |- runs (mbind _ (transactions _)) _ _ _ => eapply runs_bind; [eapply runs_transactions; eassumption|intros ? ?]
  | |- runs (mbind _ (lift _)) _ _ _ =>
      first [eapply runs_bind; [eapply runs_lift_eq; [eassumption|eassumption]|intros ? ?]
            |apply runs_throw; eapply runs_lift_eq; [eassumption|]]
  end.

Lemma update_accepts t v im vs tm s i k value c row w : at_state t v im vs tm s → tinv t v im vs →
  vrs_get i v = Some row → t_schema t !! k = Some c → validate_update c value = Ok tt →
  enforceCheckConstraints dchars t (<[k := value]> row) = Ok tt → good_row t (<[k := value]> row) →
  (∀ u, u ∈ allUniqueConstraints t → ¬ conflicts t u (<[k := value]> row) v (Some i)) →
  runs (Table_update i2d dadd dsub dchars i k value w) s (Ok true) 
    (ok_with t (vrs_update i (<[k := value]> row) v).2 (mvcc_write i (<[k := value]> row) w vs)).
Proof.
  intros Hs Hinv Hg Hk Hu Hch Hgood Hno. pose proof (good_row_shape _ _ Hgood) as (Hlen & _).
  assert (row_at row k = Ok (default VNull (row !! k))) as Hat.
  { apply lookup_lt_Some in Hk. rewrite length_insert in Hlen. rewrite <- Hlen in Hk.
    apply lookup_lt_is_Some_2 in Hk as [x Hx]. unfold row_at. by rewrite Hx. }
  destruct (enforce_runs t v im vs tm s (<[k := value]> row) (Some i) Hs (ti_core _ _ _ _ Hinv) Hgood)
    as [[_ Hrun]|(u & Hin & Hyes & _)]; [|by destruct (Hno u Hin)].
  unfold Table_update. op_step. op_step. rewrite Hg. cbn [t_schema with_parts]. rewrite Hk. op_step. op_step. op_step.
  cbv zeta. eapply runs_bind; [eapply runs_lift_eq; [exact Hch|eassumption]|]. intros s4 Hs4.
  eapply runs_bind; [by apply Hrun|]. intros s5 Hs5.
  eapply runs_bind; [eapply update_store_runs; [exact Hs5|exact Hg|apply Hgood]|]. intros s6 Hs6. cbn [negb].
  pose proof (proj2 (update_get v i row (<[k := value]> row) i Hg)) as Hnew. rewrite decide_True in Hnew by done.
  op_step. op_step. eapply runs_bind.
  { eapply replaced_runs; [eassumption|exact Hinv|exact Hg|done|done|]. intros j. apply latest_write. }
  intros s9 (im' & Hs9 & Hinv'). eapply runs_bind; [eapply record_image_runs; [exact Hs9|done]|].
  intros s10 (tm' & Hs10). apply runs_ret. by eapply ok_with_intro.
Qed.

Lemma update_runs t v im vs tm s i k value w : at_state t v im vs tm s → tinv t v im vs →
  comparable value → storable value →
  ∃ r v', runs (Table_update i2d dadd dsub dchars i k value w) s r
      (ok_with t v' match r, vrs_get i v with
                    | Ok true, Some row => mvcc_write i (<[k := value]> row) w vs
                    | _, _ => vs
                    end) ∧ update_outcome t v i k value r v'.
Proof.
  intros Hs Hinv Hcv Hsv. unfold update_outcome, Table_update. destruct (vrs_get i v) as [row|] eqn:Hg.
  2:{ exists (Ok false), v. split; [|done]. op_step. op_step. rewrite Hg. apply runs_ret. by eapply ok_with_intro. }
  destruct (t_schema t !! k) as [c|] eqn:Hk.
  2:{ exists (Ok false), v. split; [|done]. op_step. op_step. rewrite Hg. cbn [t_schema with_parts]. rewrite Hk.
      apply runs_ret. by eapply ok_with_intro. }
  pose proof (tc_rows _ _ _ (ti_core _ _ _ _ Hinv) _ _ Hg) as Hold. pose proof (good_row_shape _ _ Hold) as (Hlen & _).
  assert (row_at row k = Ok (default VNull (row !! k))) as Hat.
  { pose proof (lookup_lt_Some _ _ _ Hk) as Hlt. rewrite <- Hlen in Hlt.
    apply lookup_lt_is_Some_2 in Hlt as [x Hx]. unfold row_at. by rewrite Hx. }
  destruct (validate_update c value) as [[]|e] eqn:Hu.
  2:{ exists (Throw e), v. split; [|done]. op_step. op_step. rewrite Hg. cbn [t_schema with_parts]. rewrite Hk.
      op_step. by eapply ok_with_intro. }
  destruct (enforceCheckConstraints dchars t (<[k := value]> row)) as [[]|e] eqn:Hch.
  2:{ exists (Throw e), v. split; [|done]. op_step. op_step. rewrite Hg. cbn [t_schema with_parts]. rewrite Hk.
      op_step. op_step. op_step. cbv zeta. apply runs_throw. eapply runs_lift_eq; [exact Hch|by eapply ok_with_intro]. }
  assert (good_row t (<[k := value]> row)) as Hgood by (by eapply good_row_insert).
  destruct (enforce_runs t v im vs tm s (<[k := value]> row) (Some i) Hs (ti_core _ _ _ _ Hinv) Hgood)
    as [[Hno _]|(u & Hin & Hyes & Hrun)].
  - exists (Ok true), (vrs_update i (<[k := value]> row) v).2. split; [by eapply update_accepts|by right].
  - exists (Throw (unique_violation u)), v. split; [|left; by exists u]. 
    op_step. op_step. rewrite Hg. cbn [t_schema with_parts]. rewrite Hk. op_step. op_step. op_step. cbv zeta.
    eapply runs_bind; [eapply runs_lift_eq; [exact Hch|eassumption]|]. intros s4 Hs4. apply runs_throw.
    eapply runs_mono; [by apply Hrun|]. intros s5 Hs5. by eapply ok_with_intro.
Qed.

(** ** Index definitions *)

Lemma row_parts_ok row cols : Forall (λ i, i < length row) cols →
  ∃ parts, row_parts row cols = Ok parts ∧ length parts = length cols ∧ ∀ x, x ∈ parts → x ∈ row.
Proof.
  induction 1 as [|i cols Hi _ IH]; [exists []; split_and!; [done|done|set_solver]|].
  destruct IH as (parts & E & El & Hp). apply lookup_lt_is_Some_2 in Hi as [x Hx].
  exists (x :: parts). simpl. rewrite Hx, E. split_and!; [done|by rewrite <- El|].
  intros y [->|Hy]%elem_of_cons; [by eapply list_elem_of_lookup_2|auto].
Qed.

Lemma column_key_ok row cols : Forall (λ i, i < length row) cols → cols ≠ [] → Forall (λ x, comparable x) row →
  ∃ key, column_key cols row = Ok key ∧ comparable key.
Proof.
  intros Hi Hne Hc. destruct (row_parts_ok row cols Hi) as (parts & E & El & Hp).
  destruct (composite_Ok parts) as [key Ek]. { intros ->. by destruct cols. }
  exists key. split.
  - unfold column_key. rewrite E. cbn [mbind result_bind]. by destruct parts as [|x [|]].
  - eapply composite_comparable; [exact Ek|]. rewrite Forall_forall in Hc |- *. auto.
Qed.

Lemma define_indexable sch name cols im row : im_wf sch im → name ∉ (im_indexColumns im).*1 → cols ≠ [] →
  Forall (λ i, i < length row) cols → Forall (λ x, comparable x) row →
  indexable i2d dadd dsub sch im row → indexable i2d dadd dsub sch (im_define name cols None im) row.
Proof.
  intros Hwf Hname Hne Hi Hc [Hh Ho]. destruct (column_key_ok row cols Hi Hne Hc) as (key & Ek & Hk).
  assert (smap_find name (im_indexColumns im) = None) as Hf by (by apply smap_find_None).
  assert (smap_find name (im_indexExpressions im) = None) as Hfe
    by (apply smap_find_None; intros Hin; by apply Hname, (iw_exprs _ _ Hwf)).
  assert (∀ n, indexKeyForRow i2d dadd dsub (im_define name cols None im) n row sch =
    if String.eqb name n then Ok key else indexKeyForRow i2d dadd dsub im n row sch) as Hkey.
  { intros n. unfold indexKeyForRow, smap_at. cbn [im_indexExpressions im_indexColumns im_define].
    rewrite smap_find_emplace by done. destruct (String.eqb_spec name n) as [<-|]; [|done]. rewrite Hfe.
    cbn [mbind result_bind]. exact Ek. }
  assert (isTrigram (im_define name cols None im) name = false) as Htri by (unfold isTrigram; simpl; by rewrite Hfe).
  split; intros n Hn; simpl in Hn; rewrite smap_emplace_perm in Hn
    by (apply smap_find_None; by rewrite ?(iw_hash _ _ Hwf), ?(iw_ordered _ _ Hwf)).
  - unfold hash_keys. rewrite Hkey. destruct (String.eqb_spec name n) as [<-|Hnn].
    + rewrite Htri. simpl. exists [key]. split; [done|by repeat constructor].
    + apply Hh. set_solver.
  - intros Ht. rewrite Hkey. destruct (String.eqb_spec name n) as [<-|Hnn]; [by exists key|].
    apply Ho; [set_solver|done].
Qed.

Lemma columnIndexes_range t columns idxs : columnIndexes t columns = Some idxs →
  Forall (λ i, i < length (t_schema t)) idxs ∧ length idxs = length columns.
Proof.
  revert idxs. induction columns as [|c columns IH]; simpl; intros idxs; [by intros [= <-]|].
  destruct (columnIndex t c) as [i|] eqn:Ei; [|done]. simpl. destruct (columnIndexes t columns) as [rest|]; [|done].
  intros [= <-]. destruct (IH rest eq_refl) as [Hr El]. split; [|by simpl; rewrite El].
  constructor; [|done]. clear -Ei. unfold columnIndex in Ei. revert i Ei.
  induction (t_schema t) as [|col sch IHs]; intros i; simpl; [done|]. destruct (String.eqb _ _).
  - intros [= <-]. lia.
  - destruct (findColumn sch c) as [j|]; [|done]. intros [= <-]. specialize (IHs j eq_refl). lia.
Qed.

Lemma tinv_defs t v im vs im' : tinv t v im vs → im_wf (t_schema t) im' →
  im_reflects i2d dadd dsub (t_schema t) im' v →
  (∀ row, good_row t row → indexable i2d dadd dsub (t_schema t) im' row) → tinv t v im' vs.
Proof. intros [[[Hwf Hr Hrows Hnd Hun] Hkeys Huniq] Hvs] Hwf' Hr' Hk. split; [|done]. split; [by split|done..]. Qed.

(** A definition accepted or refused by [registerIndex]. *)
Lemma register_runs t v im vs tm s name idxs : at_state t v im vs tm s → tinv t v im vs →
  idxs ≠ [] → Forall (λ i, i < length (t_schema t)) idxs →
  ∃ b, runs (Table_registerIndex i2d dadd dsub name idxs None true) s (Ok b) (ok_state t v).
Proof.
  intros Hs Hinv Hne Hi. pose proof (tc_wf _ _ _ (ti_core _ _ _ _ Hinv)) as Hwf.
  destruct (decide (name ∈ (im_indexColumns im).*1)) as [Hin|Hname].
  - exists false. eapply runs_mono.
    + eapply runs_table; [exact Hs|]. intros store0 Hrep0. eapply (runs_indexes _ _ _ _ _ _ _ false (λ im', im' = im)); [exact Hs|].
      intros store Hrep. exists im, store. split_and!; try done. unfold registerIndex. cbn [t_schema with_parts].
      destruct idxs as [|i idxs]; [done|]. cbn [length Nat.eqb]. unfold smap_contains at 2.
      destruct (smap_find name (im_indexColumns im)) eqn:E; [|by apply smap_find_None in E].
      simpl. by rewrite orb_true_r.
    + intros s' (im' & -> & Hs'). by eapply ok_state_intro.
  - exists true. eapply runs_mono.
    + eapply runs_table; [exact Hs|]. intros store0 Hrep0. eapply runs_indexes; [exact Hs|]. intros store Hrep.
      rewrite registerIndex_accepts by (auto; done). cbn [t_schema with_parts].
      destruct (rebuild_ok i2d dadd dsub (t_schema t) (im_define name idxs None im) store v Hrep)
        as (im' & store' & -> & Hrep' & Hd & Hr).
      * by apply (define_wf (t_schema t) name idxs None im).
      * intros i row Hg. pose proof (tc_rows _ _ _ (ti_core _ _ _ _ Hinv) i row Hg) as Hgood.
        pose proof (good_row_shape _ _ Hgood) as (Hl & _). apply define_indexable; try done; [by rewrite Hl|apply Hgood|].
        by apply (ti_keys t v im vs).
      * exists im', store'. split; [done|]. split; [done|]. exact (conj Hd Hr).
    + intros s' (im' & (Hd & Hr) & Hs'). eapply ok_state_intro; [exact Hs'|].
      assert (im_wf (t_schema t) (im_define name idxs None im)) as Hwd by (by apply define_wf).
      eapply tinv_defs; [exact Hinv|by eapply same_defs_wf|done|]. intros row Hgood.
      pose proof (good_row_shape _ _ Hgood) as (Hl & _). eapply same_defs_indexable; [exact Hd|].
      apply define_indexable; try done; [by rewrite Hl|apply Hgood|]. by apply (ti_keys t v im vs).
Qed.

Lemma createIndex_runs t v im vs tm s name columns : at_state t v im vs tm s → tinv t v im vs →
  ∃ b, runs (createIndex i2d dadd dsub name columns) s (Ok b) (ok_state t v).
Proof.
  intros Hs Hinv. unfold createIndex, create_index.
  assert (∀ store, columnIndexes (with_parts t store im vs) columns = columnIndexes t columns) as Hci.
  { intros store. induction columns as [|c columns IH]; [done|]. simpl. by rewrite IH. }
  destruct (columnIndexes t columns) as [idxs|] eqn:Ec.
  - destruct columns as [|c columns].
    { exists false. op_step. apply runs_ret. by eapply ok_state_intro. }
    destruct (columnIndexes_range _ _ _ Ec) as [Hr El].
    destruct (register_runs t v im vs tm s name idxs Hs Hinv) as [b Hb]; [by destruct idxs|done|].
    exists b. op_step. rewrite Hci. exact Hb.
  - exists false. op_step. destruct columns as [|c columns]; [done|]. rewrite Hci. apply runs_ret. by eapply ok_state_intro.
Qed.

Lemma drop_indexable sch name im row : im_wf sch im → indexable i2d dadd dsub sch im row →
  indexable i2d dadd dsub sch (dropIndex name im).2 row.
Proof.
  intros Hwf [Hh Ho]. unfold dropIndex. destruct (_ && _); [done|]. simpl.
  pose proof (iw_nodup _ _ Hwf) as Hn.
  assert (∀ k, k ≠ name → ∀ im', im_indexColumns im' = smap_erase name (im_indexColumns im) →
    im_indexExpressions im' = smap_erase name (im_indexExpressions im) →
    indexKeyForRow i2d dadd dsub im' k row sch = indexKeyForRow i2d dadd dsub im k row sch ∧
    isTrigram im' k = isTrigram im k) as Hsame.
  { intros k Hk im' E1 E2. unfold indexKeyForRow, isTrigram, smap_at. by rewrite E1, E2, !smap_find_erase_ne. }
  split; intros k Hk; simpl in Hk; apply list_elem_of_fmap in Hk as (e & -> & [Hin Hne]%smap_erase_elem);
    try (by rewrite ?(iw_hash _ _ Hwf), ?(iw_ordered _ _ Hwf)).
  - unfold hash_keys. destruct (Hsame e.1 Hne (mkIndexManager (smap_erase name (im_indexColumns im))
      (smap_erase name (im_indexExpressions im)) (smap_erase name (im_indexes im)) (smap_erase name (im_orderedIndexes im)))
      eq_refl eq_refl) as [-> ->]. apply (Hh e.1). by apply list_elem_of_fmap_2.
  - destruct (Hsame e.1 Hne (mkIndexManager (smap_erase name (im_indexColumns im))
      (smap_erase name (im_indexExpressions im)) (smap_erase name (im_indexes im)) (smap_erase name (im_orderedIndexes im)))
      eq_refl eq_refl) as [-> ->]. apply (Ho e.1). by apply list_elem_of_fmap_2.
Qed.

Lemma dropIndex_runs t v im vs tm s name : at_state t v im vs tm s → tinv t v im vs →
  ∃ b, runs (Table_dropIndex name) s (Ok b) (ok_state t v).
Proof.
  intros Hs Hinv. exists (dropIndex name im).1. pose proof (tc_wf _ _ _ (ti_core _ _ _ _ Hinv)) as Hwf.
  eapply runs_mono.
  - eapply (runs_indexes _ _ _ _ _ _ _ _ (λ im', im' = (dropIndex name im).2)); [exact Hs|]. intros store Hrep.
    exists (dropIndex name im).2, store. split_and!; try done. by destruct (dropIndex name im).
  - intros s' (im' & -> & Hs'). eapply ok_state_intro; [exact Hs'|].
    destruct (drop_reflects i2d dadd dsub (t_schema t) name im v Hwf) as [Hw Hr]; [apply (ti_core _ _ _ _ Hinv)|].
    eapply tinv_defs; [exact Hinv|done|done|]. intros row Hgood. apply drop_indexable; [done|]. by apply (ti_keys t v im vs).
Qed.

(** ** A new table *)

Lemma find_column_name name (sch : Schema) c :
  List.find (λ c, String.eqb (col_name c) name) sch = Some c → name ∈ col_name <$> sch.
Proof.
  intros [Hin He]%find_some. apply String.eqb_eq in He as <-. by apply list_elem_of_fmap_2, list_elem_of_In.
Qed.

Lemma validate_unique_columns_names pk columns seen sch : validate_unique_columns pk columns seen sch = Ok tt →
  Forall (λ n, n ∈ col_name <$> sch) columns.
Proof.
  revert seen. induction columns as [|n columns IH]; intros seen; simpl; [by constructor|]. intros E.
  destruct (throw_if (existsb _ _) _) as [[]|]; [|done]. cbn [mbind result_bind] in E.
  destruct (List.find _ sch) as [c|] eqn:Ef; [|done]. destruct (throw_if _ _) as [[]|]; [|done].
  constructor; [by eapply find_column_name|by eapply IH].
Qed.

Lemma not_null_names columns (sch : Schema) : col_name <$> (not_null columns <$> sch) = col_name <$> sch.
Proof.
  rewrite <- list_fmap_compose. apply list_fmap_ext. intros i c _. simpl. unfold not_null. by destruct (existsb _ _).
Qed.

Lemma check_uniques_names uniques sch saw sch' : check_uniques uniques sch saw = Ok sch' →
  col_name <$> sch' = col_name <$> sch ∧
  Forall (λ c, uc_columns c ≠ [] ∧ Forall (λ n, n ∈ col_name <$> sch) (uc_columns c)) uniques.
Proof.
  revert sch saw. induction uniques as [|c uniques IH]; intros sch saw; simpl; [by intros [= ->]|]. intros E.
  unfold validateUniqueConstraintColumns in E. destruct (bool_decide_reflect (uc_columns c = [])) as [|Hne]; [done|].
  cbn [throw_if mbind result_bind] in E.
  destruct (validate_unique_columns _ _ _ sch) as [[]|] eqn:Ev; [|done]. cbn [mbind result_bind] in E.
  apply validate_unique_columns_names in Ev. destruct (uc_primaryKey c).
  - destruct (throw_if saw _) as [[]|]; [|done]. apply IH in E as [E1 E2]. rewrite not_null_names in E1, E2.
    split; [done|]. by constructor.
  - apply IH in E as [E1 E2]. split; [done|]. by constructor.
Qed.

Lemma column_constraints_ok uniques sch c : c ∈ column_constraints uniques sch →
  ∃ col, col ∈ sch ∧ uc_columns c = [col_name col].
Proof.
  intros Hc%list_elem_of_In. apply in_flat_map in Hc as (col & Hin & Hc). apply list_elem_of_In in Hin.
  destruct (negb _ && negb _); [done|]. destruct (existsb _ _); [done|]. destruct Hc as [<-|[]]. by exists col.
Qed.

Lemma Table_new_ok store name schema checks fks uniques t : rs_rep store vrs_empty →
  Table_new store name schema checks fks uniques = Ok t → NoDup (col_name <$> schema) → table_ok t vrs_empty.
Proof.
  intros Hrep E Hnd. unfold Table_new in E. destruct (throw_if (String.eqb name _) _) as [[]|]; [|done].
  cbn [mbind result_bind] in E. destruct (throw_if _ _) as [[]|]; [|done]. cbn [mbind result_bind] in E.
  destruct (check_columns schema false) as [saw|]; [|done]. cbn [mbind result_bind] in E.
  destruct (check_uniques uniques schema saw) as [sch|] eqn:Eu; [|done]. cbn [mbind result_bind] in E.
  destruct (assert_checks checks) as [[]|]; [|done]. cbn [mbind result_bind] in E. injection E as <-.
  apply check_uniques_names in Eu as [Enames Hun]. split; [done|]. split; [split|]; simpl; try done.
  - split; simpl; try done.
    + apply example_im_wf.
    + unfold column_names_of. simpl. by rewrite Enames.
    + unfold allUniqueConstraints. simpl. apply Forall_app. split.
      * eapply Forall_impl; [exact Hun|]. intros c [Hne Hc]. split; [done|]. unfold column_names_of. simpl. by rewrite Enames.
      * apply Forall_forall. intros c (col & Hin & Ec)%column_constraints_ok. unfold constraint_ok. rewrite Ec.
        split; [done|]. constructor; [|done]. unfold column_names_of. simpl. by apply list_elem_of_fmap_2.
  - intros row Hrow. split; simpl; set_solver.
Qed.

(** ** Sequences of operations *)

(** The operations of the client; an exception ends the operation, not the
    sequence. *)
Inductive table_op : Type :=
  | Do_insert (row : Row) (writerId : TransactionId)
  | Do_erase (rowId : RowId) (writerId : TransactionId)
  | Do_update (rowId : RowId) (index : nat) (value : Value) (writerId : TransactionId)
  | Do_createIndex (name : string) (columns : list string)
  | Do_dropIndex (name : string).

Definition run_op (o : table_op) (s : state) : state :=
  match o with
  | Do_insert row w => (Table_insert i2d dadd dsub dchars row w s).2
  | Do_erase i w => (Table_erase i2d dadd dsub i w s).2
  | Do_update i k value w => (Table_update i2d dadd dsub dchars i k value w s).2
  | Do_createIndex name columns => (createIndex i2d dadd dsub name columns s).2
  | Do_dropIndex name => (Table_dropIndex name s).2
  end.

Definition run_ops (ops : list table_op) (s : state) : state := foldl (λ s o, run_op o s) s ops.

(** The values of an operation can be stored and compared: no string is longer than
    the page format can say, and no number is a NaN. *)
Definition op_ok (o : table_op) : Prop :=
  match o with
  | Do_insert row _ => storable_row row ∧ Forall (λ x, comparable x) row
  | Do_update _ _ value _ => storable value ∧ comparable value
  | _ => True
  end.

Lemma runs_snd {A} (m : op A) s r (P : state → Prop) : runs m s r P → P (m s).2.
Proof. intros (s' & -> & HP). exact HP. Qed.

Lemma run_op_ok t v s o : ok_state t v s → op_ok o → ∃ v', ok_state t v' (run_op o s).
Proof.
  intros (im & vs & tm & Hs & Hinv) Ho. destruct o as [row w|i w|i k value w|name columns|name]; simpl.
  - destruct (insert_runs t v im vs tm s row w Hs Hinv) as (r & v' & Hr & _); [apply Ho..|]. exists v'. by eapply ok_with_state, runs_snd.
  - destruct (erase_runs t v im vs tm s i w Hs Hinv) as (r & v' & Hr & _). exists v'. by eapply ok_with_state, runs_snd.
  - destruct (update_runs t v im vs tm s i k value w Hs Hinv) as (r & v' & Hr & _); [apply Ho..|]. exists v'. by eapply ok_with_state, runs_snd.
  - destruct (createIndex_runs t v im vs tm s name columns Hs Hinv) as [b Hr]. exists v. by eapply runs_snd.
  - destruct (dropIndex_runs t v im vs tm s name Hs Hinv) as [b Hr]. exists v. by eapply runs_snd.
Qed.

Lemma run_ops_ok t v s ops : ok_state t v s → Forall op_ok ops → ∃ v', ok_state t v' (run_ops ops s).
Proof.
  intros Hs Ho. revert v s Hs. induction Ho as [|o ops Ho _ IH]; intros v s Hs; [by exists v|].
  destruct (run_op_ok t v s o Hs Ho) as [v1 Hs1]. exact (IH v1 _ Hs1).
Qed.

Lemma table_ok_state t v tm : table_ok t v → ok_state t v (mkState t tm).
Proof.
  intros [Hrep Hinv]. exists (t_indexManager t), (t_versions t), tm. split; [|done].
  exists (t_rowStore t). split; [by destruct t|done].
Qed.

Lemma ok_state_table t v s : ok_state t v s → table_ok (st_table s) v ∧
  st_table s = with_parts t (t_rowStore (st_table s)) (t_indexManager (st_table s)) (t_versions (st_table s)).
Proof.
  intros (im & vs & tm & (store & -> & Hrep) & [[[Hwf Hr Hrows Hnd Hun] Hkeys Huniq] Hvs]).
  split; [|done]. split; [done|]. split; [split; [by split|done..]|done].
Qed.


End table_proof.

(** ** Examples *)

(** [items (id INT PRIMARY KEY, qty INT, CHECK (qty > 0), UNIQUE (qty, id))] over pages. *)
Definition items_schema : Schema :=
  [mkColumn "id" CT_Int false true true; mkColumn "qty" CT_Int true false false].
Definition items_checks : list (Predicate unit) := [ComparisonPred "qty" Greater (VInt 0) None None false].
Definition items_uniques : list UniqueConstraint := [mkUniqueConstraint ["qty"; "id"] false].
Abbreviation items_insert := (Table_insert (λ z, z) Z.add Z.sub (λ _, [])).
Abbreviation items_run := (run_ops (λ z, z) Z.add Z.sub (λ _, [])).

Lemma items_store : ∃ store, makePageRowStore = Ok store ∧ rs_rep store vrs_empty.
Proof.
  destruct makePageRowStore as [store|e] eqn:E; [|done]. exists store. split; [done|].
  by apply (PageRowStore_new_rep 256 128).
Qed.

Lemma items_names : NoDup (col_name <$> items_schema).
Proof. vm_compute. repeat constructor; set_solver. Qed.

Definition items_ops : list table_op :=
  [Do_insert [VInt 1; VInt 7] 1; Do_createIndex "by_qty" ["qty"]; Do_insert [VInt 1; VInt 8] 1;
   Do_insert [VInt 2; VInt 7] 1; Do_update 1 1 (VInt 0) 1; Do_update 1 1 VNull 1; Do_erase 0 1;
   Do_insert [VInt 1; VInt 8] 1; Do_dropIndex "by_qty"].

Lemma items_ops_ok : Forall op_ok items_ops.
Proof. repeat constructor; done. Qed.



(** Column names are not required to differ: with two columns [id], the UNIQUE flag
    of the second one is checked against the first. *)
Definition twins_schema : Schema :=
  [mkColumn "id" CT_Int true false false; mkColumn "id" CT_Int true true false].

Lemma duplicate_name_not_unique : ∃ t,
  Table_new vrs_empty "twins" twins_schema ([] : list (Predicate unit)) [] [] = Ok t ∧
  let s := items_run [Do_insert [VInt 1; VInt 5] 1; Do_insert [VInt 2; VInt 5] 1] (mkState t None) in
  (Table_rowsSnapshot s).1 = Ok [[VInt 1; VInt 5]; [VInt 2; VInt 5]].
Proof. eexists. split; reflexivity. Qed.

(** A row whose key in an expression index cannot be computed: [insert] throws, but
    the row is in the heap and in the version store. *)
Lemma insert_throws_after_append : ∃ t,
  Table_new vrs_empty "items" items_schema ([] : list (Predicate unit)) [] [] = Ok t ∧
  let s0 := (createIndex_expr (λ z, z) Z.add Z.sub "i" (mkIndexExpression K_Add "qty" (VInt 1)) (mkState t None)).2 in
  let '(r, s1) := items_insert [VInt 1; VNull] 1 s0 in
  is_Ok r = false ∧ (Table_rowsSnapshot s1).1 = Ok [[VInt 1; VNull]] ∧
  (Table_versionCount 0 s1).1 = Ok 1.
Proof. eexists. split; [reflexivity|]. vm_compute. done. Qed.
