(* ===== verification/TableSchema.v ===== *)
(** * ALTER TABLE on a table

    [src/storage/table_schema.cpp]: adding, dropping, restoring and renaming a
    column, and the tests of [src/execution/foreign_key_eval.cpp] that dropping
    uses.  As in [Table], an exception keeps the changes made before it.  The one
    simplification: when [extractColumn] or [insertColumn] of the version store
    throws, the versions are left as they were before the call.

    The database is given by the tables it holds, in name order. *)

From S2P Require Import Prelude Value VectorRowStore TransactionManager Mvcc.
From S2P Require Import StringPattern HashIndex BTreeIndex IndexExpression Predicate IndexManager Histogram Table.
Local Open Scope nat_scope.

Section schema.
Context {Select S : Type} `{RowStore S}.
Context (int_to_double : Z → Z) (double_add double_sub : Z → Z → Z).
Abbreviation Table := (Table Select S).
Abbreviation op := (op Select S).
Abbreviation Predicate := (Predicate Select).
#[local] Existing Instances op_ret op_bind.

(** ** Dependencies of a column *)

(** The columns [collectCheckColumns] finds: those of comparisons only. *)
Fixpoint collectCheckColumns (p : Predicate) : list string :=
  match p with
  | AndPred l r | OrPred l r => collectCheckColumns l ++ collectCheckColumns r
  | ComparisonPred column _ _ rhsColumn _ _ =>
      column :: match rhsColumn with Some c => [c] | None => [] end
  | _ => []
  end.

Definition mentions (columnName : string) (names : list string) : bool := existsb (String.eqb columnName) names.

Definition checkReferencesColumn (columnName : string) (p : Predicate) : bool :=
  mentions columnName (collectCheckColumns p).

Definition renamed (oldName newName name : string) : string := if String.eqb name oldName then newName else name.

Fixpoint renameCheckColumn (oldName newName : string) (p : Predicate) : Predicate :=
  let ren := renamed oldName newName in
  match p with
  | AndPred l r => AndPred (renameCheckColumn oldName newName l) (renameCheckColumn oldName newName r)
  | OrPred l r => OrPred (renameCheckColumn oldName newName l) (renameCheckColumn oldName newName r)
  | ComparisonPred column o value rhsColumn e outer =>
      ComparisonPred (ren column) o value (ren <$> rhsColumn) e outer
  | InListPred column vs e outer => InListPred (ren column) vs e outer
  | InSubqueryPred column q outer => InSubqueryPred (ren column) q outer
  | LikePred column pat outer => LikePred (ren column) pat outer
  | RegexPred column pat outer => RegexPred (ren column) pat outer
  | ExistsPred q outer => ExistsPred q outer
  end.

Definition indexReferencesColumn (columnName : string) (d : IndexDefinition) : bool :=
  match id_expression d with
  | Some e => String.eqb (ie_column e) columnName
  | None => mentions columnName (id_columns d)
  end.

Definition uniqueReferencesColumn (columnName : string) (c : UniqueConstraint) : bool :=
  mentions columnName (uc_columns c).

Definition foreignKeyReferencesColumn (columnName : string) (fk : ForeignKeyConstraint) : bool :=
  mentions columnName (fk_childColumns fk).

Definition renameNameList (oldName newName : string) (names : list string) : list string :=
  renamed oldName newName <$> names.

Definition tableIsForeignKeyParent (tables : list Table) (tableName : string) : bool :=
  existsb (λ other, existsb (λ fk, String.eqb (fk_parentTable fk) tableName) (t_foreignKeys other)) tables.

Definition columnIsForeignKeyParent (tables : list Table) (tableName columnName : string) : bool :=
  existsb (λ other, existsb (λ fk, String.eqb (fk_parentTable fk) tableName
                                   && mentions columnName (fk_parentColumns fk)) (t_foreignKeys other)) tables.

Definition columnIsForeignKeyChild (t : Table) (columnName : string) : bool :=
  existsb (foreignKeyReferencesColumn columnName) (t_foreignKeys t).

(** [name.starts_with("__pk_") || name.starts_with("__uq_")] *)
Definition constraint_index_name (name : string) : bool :=
  String.prefix "__pk_" name || String.prefix "__uq_" name.

(** ** Fields *)

Definition with_schema (schema : Schema) (t : Table) : Table :=
  mkTable (t_name t) schema (t_checkConstraints t) (t_foreignKeys t) (t_uniqueConstraints t)
    (t_rowStore t) (t_indexManager t) (t_versions t) (t_statistics t).
Definition with_constraints (checks : list Predicate) (fks : list ForeignKeyConstraint)
    (uniques : list UniqueConstraint) (t : Table) : Table :=
  mkTable (t_name t) (t_schema t) checks fks uniques
    (t_rowStore t) (t_indexManager t) (t_versions t) (t_statistics t).

(** A call of the version store that can throw. *)
Definition versions_try {A} (f : MVCCRowStore → result (A * MVCCRowStore)) : op A := λ s,
  match f (t_versions (st_table s)) with
  | Ok (a, v) => (Ok a, mkState (set_versions v (st_table s)) (st_transactions s))
  | Throw e => (Throw e, s)
  end.

Definition throw_unless (b : bool) (e : exn) : op unit := lift (throw_if (negb b) e).

(** ** ADD COLUMN *)

(** The loop that rewrites every live row; [f] computes the new row. *)
Fixpoint rewrite_rows (f : RowId → Row → result Row) (failed : exn) (entries : list (RowId * Row)) : op unit :=
  match entries with
  | [] => mret tt
  | (rowId, row) :: entries =>
      new ← lift (f rowId row);
      ok ← row_store (rs_update rowId new);
      _ ← throw_unless ok failed;
      rewrite_rows f failed entries
  end.

Definition check_default (column : Column) (fill : option Value) : result unit :=
  match fill with
  | Some v =>
      if isNull v then
        throw_if (negb (col_nullable column)) (invalid_argument "DEFAULT NULL requires a nullable column")
      else
        ty ← Value_type v;
        throw_if (negb (bool_decide (ty = col_type column)))
          (invalid_argument "DEFAULT literal type does not match column type")
  | None => Ok tt
  end.

Definition column_exists (name : string) : exn :=
  invalid_argument (String.append "column already exists: " name).

(** A NOT NULL column without default, on a table without rows. *)
Definition append_column (column : Column) : op unit :=
  entries ← row_store rs_liveEntries;
  _ ← throw_unless (bool_decide (entries = []))
        (invalid_argument "ALTER TABLE ADD COLUMN NOT NULL requires DEFAULT when the table has rows");
  _ ← set_table (λ t, with_schema (t_schema t ++ [column]) t);
  versions (λ v, (tt, transformRows (λ row, row ++ [VNull]) v)).

Definition pad_column (column : Column) (pad : Value) : op unit :=
  _ ← set_table (λ t, with_schema (t_schema t ++ [column]) t);
  entries ← row_store rs_liveEntries;
  _ ← rewrite_rows (λ _ row, Ok (row ++ [pad])) (runtime_error "failed to pad row during ADD COLUMN") entries;
  versions (λ v, (tt, transformRows (λ row, row ++ [pad]) v)).

Definition addColumn (column : Column) (fill : option Value) : op unit :=
  _ ← lift (throw_if (col_unique column || col_primaryKey column)
              (invalid_argument "ALTER TABLE ADD COLUMN does not support UNIQUE / PRIMARY KEY"));
  _ ← lift (throw_if (String.eqb (col_name column) EmptyString) (invalid_argument "column name cannot be empty"));
  _ ← lift (check_default column fill);
  t ← on_table id;
  _ ← lift (throw_if (bool_decide (is_Some (columnIndex t (col_name column)))) (column_exists (col_name column)));
  if bool_decide (fill = None) && negb (col_nullable column) then append_column column
  else pad_column column (default VNull fill).

(** ** DROP COLUMN *)

Record DroppedColumnCapture : Type := mkDroppedColumnCapture {
  dc_column : Column;
  dc_columnIndex : nat;
  dc_heapValues : list (RowId * Value);
  dc_versionValues : list (RowId * list Value);
  dc_cascaded : bool;
  dc_droppedUserIndexes : list IndexDefinition;
  dc_droppedChecks : list Predicate;
  dc_droppedUniques : list UniqueConstraint;
  dc_droppedChildForeignKeys : list ForeignKeyConstraint
}.

(** [rejectOrCascade] for the dependents found. *)
Definition reject_or_cascade {A} (cascade : bool) (dependents : list A) (message : string) : result unit :=
  throw_if (negb cascade && negb (bool_decide (length dependents = 0))) (invalid_argument message).

Fixpoint drop_indexes (definitions : list IndexDefinition) : op unit :=
  match definitions with
  | [] => mret tt
  | d :: definitions =>
      ok ← Table_dropIndex (id_name d);
      _ ← throw_unless ok (runtime_error (String.append "failed to CASCADE-drop index " (id_name d)));
      drop_indexes definitions
  end.

Fixpoint drop_constraint_indexes (constraints : list UniqueConstraint) : op unit :=
  match constraints with
  | [] => mret tt
  | c :: constraints => _ ← Table_dropIndex (constraintIndexName c); drop_constraint_indexes constraints
  end.

(** The positions above [index] move down; [false] when [index] itself occurs, the
    positions before it being moved already. *)
Fixpoint shift_positions (index : nat) (l : list nat) : bool * list nat :=
  match l with
  | [] => (true, [])
  | i :: l =>
      if Nat.eqb i index then (false, i :: l)
      else
        let '(ok, l') := shift_positions index l in
        (ok, (if Nat.ltb index i then i - 1 else i) :: l')
  end.

Fixpoint shift_definitions (index : nat) (defs : list (string * list nat)) : bool * list (string * list nat) :=
  match defs with
  | [] => (true, [])
  | (name, l) :: defs =>
      let '(ok, l') := shift_positions index l in
      if ok then let '(ok, defs') := shift_definitions index defs in (ok, (name, l') :: defs')
      else (false, (name, l') :: defs)
  end.

Definition set_indexColumns (defs : list (string * list nat)) (im : IndexManager) : IndexManager :=
  mkIndexManager defs (im_indexExpressions im) (im_indexes im) (im_orderedIndexes im).

Definition shift_index_columns (index : nat) : op unit := λ s,
  let t := st_table s in
  let '(ok, defs) := shift_definitions index (im_indexColumns (t_indexManager t)) in
  (if ok then Ok tt else Throw (runtime_error "index still references dropped column"),
   mkState (set_indexes (set_indexColumns defs (t_indexManager t)) t) (st_transactions s)).

Definition narrow_row (index : nat) (row : Row) : result Row :=
  _ ← throw_if (Nat.leb (length row) index) (runtime_error "heap row narrower than schema during DROP COLUMN");
  Ok (remove_at index row).

(** The dependents of the column, rejected unless [cascade]. *)
Definition column_dependents (t : Table) (columnName : string) (column : Column) (cascade : bool)
  : result (list IndexDefinition * list Predicate * list ForeignKeyConstraint * list UniqueConstraint) :=
  definitions ← indexDefinitions (t_indexManager t) (t_schema t);
  let userIndexes := List.filter (λ d, negb (constraint_index_name (id_name d)) && indexReferencesColumn columnName d) definitions in
  _ ← reject_or_cascade cascade userIndexes "cannot DROP COLUMN: column is indexed";
  let checks := List.filter (checkReferencesColumn columnName) (t_checkConstraints t) in
  _ ← reject_or_cascade cascade checks "cannot DROP COLUMN: column referenced by CHECK";
  let fks := List.filter (foreignKeyReferencesColumn columnName) (t_foreignKeys t) in
  _ ← reject_or_cascade cascade fks "cannot DROP COLUMN: column is a FOREIGN KEY child";
  let keyed := col_primaryKey column || col_unique column in
  _ ← throw_if (negb cascade && keyed) (invalid_argument "cannot DROP COLUMN: column is PRIMARY KEY or UNIQUE");
  let uniques := List.filter (uniqueReferencesColumn columnName) (t_uniqueConstraints t) in
  _ ← reject_or_cascade cascade uniques
        "cannot DROP COLUMN: column is part of a UNIQUE / PRIMARY KEY constraint";
  let uniques := if keyed && negb (existsb (covers columnName) uniques)
                 then uniques ++ [mkUniqueConstraint [columnName] (col_primaryKey column)] else uniques in
  Ok (userIndexes, checks, fks, uniques).

Definition drop_dependents (columnName : string) (userIndexes : list IndexDefinition)
    (uniques : list UniqueConstraint) : op unit :=
  _ ← drop_indexes userIndexes;
  _ ← set_table (λ t, with_constraints
        (List.filter (λ p, negb (checkReferencesColumn columnName p)) (t_checkConstraints t))
        (List.filter (λ fk, negb (foreignKeyReferencesColumn columnName fk)) (t_foreignKeys t))
        (t_uniqueConstraints t) t);
  _ ← drop_constraint_indexes uniques;
  set_table (λ t, with_constraints (t_checkConstraints t) (t_foreignKeys t)
        (List.filter (λ c, negb (uniqueReferencesColumn columnName c)) (t_uniqueConstraints t)) t).

Definition other_histograms (columnName : string) (stats : TableStatistics) : TableStatistics :=
  replaceColumnHistograms (List.filter (λ h, negb (String.eqb (ch_column h) columnName)) (columnHistograms stats)).

Definition drop_histogram (columnName : string) : op unit :=
  set_table (λ t, set_statistics (other_histograms columnName (t_statistics t)) t).

Definition dropColumn (columnName : string) (database : option (list Table)) (cascade : bool)
  : op DroppedColumnCapture :=
  t ← on_table id;
  match columnIndex t columnName with
  | None => throw (invalid_argument (String.append "unknown column: " columnName))
  | Some index =>
      _ ← lift (throw_if (Nat.leb (length (t_schema t)) 1)
                  (invalid_argument "cannot DROP the last column of a table"));
      match t_schema t !! index with
      | None => throw (out_of_range "vector index out of range")
      | Some column =>
          _ ← lift (throw_if
                (match database with Some tables => columnIsForeignKeyParent tables (t_name t) columnName | None => false end)
                (invalid_argument "cannot DROP COLUMN: column is referenced by FOREIGN KEY"));
          dependents ← lift (column_dependents t columnName column cascade);
          let '(userIndexes, checks, fks, uniques) := dependents in
          _ ← (if cascade then drop_dependents columnName userIndexes uniques else mret tt);
          entries ← row_store rs_liveEntries;
          _ ← rewrite_rows (λ _ row, narrow_row index row)
                (runtime_error "failed to rewrite row during DROP COLUMN") entries;
          versionValues ← versions_try (extractColumn index);
          _ ← set_table (λ t, with_schema (remove_at index (t_schema t)) t);
          _ ← shift_index_columns index;
          _ ← Table_rebuildIndexes int_to_double double_add double_sub;
          _ ← drop_histogram columnName;
          mret (mkDroppedColumnCapture column index
                  (omap (λ e, (λ v, (e.1, v)) <$> e.2 !! index) entries)
                  versionValues cascade userIndexes checks uniques fks)
      end
  end.

(** ** Restoring a dropped column *)

Definition raise_positions (index : nat) (l : list nat) : list nat :=
  (λ i, if Nat.leb index i then i + 1 else i) <$> l.

Definition raise_index_columns (index : nat) : op unit :=
  set_table (λ t, set_indexes (set_indexColumns
    ((λ e, (e.1, raise_positions index e.2)) <$> im_indexColumns (t_indexManager t)) (t_indexManager t)) t).

(** [heapById.emplace]: the first value of a row counts. *)
Definition heap_value (rowId : RowId) (values : list (RowId * Value)) : option Value :=
  snd <$> List.find (λ e, Nat.eqb e.1 rowId) values.

Definition widen_row (capture : DroppedColumnCapture) (rowId : RowId) (row : Row) : result Row :=
  match heap_value rowId (dc_heapValues capture) with
  | None => Throw (runtime_error "ALTER DROP COLUMN undo missing heap value")
  | Some v =>
      _ ← throw_if (Nat.ltb (length row) (dc_columnIndex capture))
            (runtime_error "ALTER DROP COLUMN undo heap index out of range");
      Ok (insert_at (dc_columnIndex capture) v row)
  end.

Fixpoint restore_indexes (definitions : list IndexDefinition) : op unit :=
  match definitions with
  | [] => mret tt
  | d :: definitions =>
      t ← on_table id;
      let failed := runtime_error (String.append "failed to restore cascaded index " (id_name d)) in
      let idxs := match id_expression d with
                  | Some e => columnIndexes t [ie_column e]
                  | None => columnIndexes t (id_columns d)
                  end in
      _ ← match idxs with
          | None => throw failed
          | Some idxs =>
              ok ← Table_registerIndex int_to_double double_add double_sub (id_name d) idxs (id_expression d) false;
              throw_unless ok failed
          end;
      restore_indexes definitions
  end.

Fixpoint restore_constraint_indexes (constraints : list UniqueConstraint) : op unit :=
  match constraints with
  | [] => mret tt
  | c :: constraints =>
      t ← on_table id;
      let failed := runtime_error (String.append "failed to restore constraint index " (constraintIndexName c)) in
      has ← lift (hasIndex (t_indexManager t) (uc_columns c) (t_schema t));
      _ ← (if has : bool then mret tt
           else
             match columnIndexes t (uc_columns c) with
             | None => throw failed
             | Some idxs =>
                 ok ← Table_registerIndex int_to_double double_add double_sub (constraintIndexName c) idxs None false;
                 throw_unless ok failed
             end);
      restore_constraint_indexes constraints
  end.

Definition restore_dependents (capture : DroppedColumnCapture) : op unit :=
  _ ← set_table (λ t, with_constraints (t_checkConstraints t ++ dc_droppedChecks capture)
        (t_foreignKeys t ++ dc_droppedChildForeignKeys capture)
        (t_uniqueConstraints t ++
           List.filter (λ c, negb (covers (col_name (dc_column capture)) c)) (dc_droppedUniques capture)) t);
  _ ← restore_indexes (dc_droppedUserIndexes capture);
  t ← on_table id;
  restore_constraint_indexes (allUniqueConstraints t).

Definition restoreDroppedColumn (capture : DroppedColumnCapture) : op unit :=
  t ← on_table id;
  _ ← lift (throw_if (Nat.ltb (length (t_schema t)) (dc_columnIndex capture))
              (runtime_error "ALTER DROP COLUMN undo index out of range"));
  _ ← lift (throw_if (bool_decide (is_Some (columnIndex t (col_name (dc_column capture)))))
              (runtime_error "ALTER DROP COLUMN undo column already exists"));
  _ ← set_table (λ t, with_schema (insert_at (dc_columnIndex capture) (dc_column capture) (t_schema t)) t);
  _ ← raise_index_columns (dc_columnIndex capture);
  _ ← versions_try (λ m, m ← insertColumn (dc_columnIndex capture) (dc_versionValues capture) m; Ok (tt, m));
  entries ← row_store rs_liveEntries;
  _ ← rewrite_rows (widen_row capture) (runtime_error "failed to restore row during DROP COLUMN undo") entries;
  _ ← (if dc_cascaded capture then restore_dependents capture else mret tt);
  Table_rebuildIndexes int_to_double double_add double_sub.

(** ** RENAME COLUMN *)

Definition rename_parent_columns (parentTable oldName newName : string) (fk : ForeignKeyConstraint)
  : ForeignKeyConstraint :=
  if negb (String.eqb (fk_parentTable fk) parentTable) then fk
  else mkForeignKeyConstraint (fk_childColumns fk) (fk_parentTable fk)
         (renameNameList oldName newName (fk_parentColumns fk)) (fk_onDelete fk) (fk_onUpdate fk).

Definition rewriteForeignKeyParentColumn (parentTable oldName newName : string) (t : Table) : Table :=
  with_constraints (t_checkConstraints t)
    (rename_parent_columns parentTable oldName newName <$> t_foreignKeys t) (t_uniqueConstraints t) t.

Definition rename_unique (oldName newName : string) (c : UniqueConstraint) : UniqueConstraint :=
  mkUniqueConstraint (renameNameList oldName newName (uc_columns c)) (uc_primaryKey c).

Definition rename_child_columns (oldName newName : string) (fk : ForeignKeyConstraint) : ForeignKeyConstraint :=
  mkForeignKeyConstraint (renameNameList oldName newName (fk_childColumns fk)) (fk_parentTable fk)
    (fk_parentColumns fk) (fk_onDelete fk) (fk_onUpdate fk).

Definition rename_column_at (index : nat) (newName : string) (schema : Schema) : Schema :=
  alter (λ c, mkColumn newName (col_type c) (col_nullable c) (col_unique c) (col_primaryKey c)) index schema.

Definition rename_expressions (oldName newName : string) (im : IndexManager) : IndexManager :=
  mkIndexManager (im_indexColumns im)
    ((λ e, (e.1, mkIndexExpression (ie_kind e.2) (renamed oldName newName (ie_column e.2)) (ie_literal e.2)))
       <$> im_indexExpressions im)
    (im_indexes im) (im_orderedIndexes im).

Definition rename_histograms (oldName newName : string) (stats : TableStatistics) : TableStatistics :=
  replaceColumnHistograms ((λ h, mkColumnHistogram (renamed oldName newName (ch_column h)) (ch_rowCount h)
                                   (ch_distinctCount h) (ch_buckets h)) <$> columnHistograms stats).

(** Everything the table holds that names the column. *)
Definition rename_in_table (index : nat) (oldName newName : string) (t : Table) : Table :=
  mkTable (t_name t) (rename_column_at index newName (t_schema t))
    (renameCheckColumn oldName newName <$> t_checkConstraints t)
    (rename_child_columns oldName newName <$> t_foreignKeys t)
    (rename_unique oldName newName <$> t_uniqueConstraints t)
    (t_rowStore t) (rename_expressions oldName newName (t_indexManager t)) (t_versions t)
    (rename_histograms oldName newName (t_statistics t)).

Fixpoint rename_constraint_indexes (renames : list (string * UniqueConstraint)) : op unit :=
  match renames with
  | [] => mret tt
  | (oldIndexName, updated) :: renames =>
      let newIndexName := constraintIndexName updated in
      _ ← (if String.eqb oldIndexName newIndexName then mret tt
           else
             dropped ← Table_dropIndex oldIndexName;
             if negb dropped then mret tt
             else
               t ← on_table id;
               match columnIndexes t (uc_columns updated) with
               | None => throw (runtime_error "failed to rename constraint index")
               | Some idxs =>
                   ok ← Table_registerIndex int_to_double double_add double_sub newIndexName idxs None true;
                   throw_unless ok (runtime_error (String.append "failed to recreate constraint index " newIndexName))
               end);
      rename_constraint_indexes renames
  end.

(** [renameColumn] on its own table, up to the loop over the other tables; the
    result tells whether that loop runs. *)
Definition renameColumn_local (oldName newName : string) : op bool :=
  _ ← lift (throw_if (String.eqb oldName EmptyString || String.eqb newName EmptyString)
              (invalid_argument "column name cannot be empty"));
  if String.eqb oldName newName then mret false
  else
    t ← on_table id;
    match columnIndex t oldName with
    | None => throw (invalid_argument (String.append "unknown column: " oldName))
    | Some index =>
        _ ← lift (throw_if (bool_decide (is_Some (columnIndex t newName))) (column_exists newName));
        let renames := (λ c, (constraintIndexName c, rename_unique oldName newName c)) <$>
                         List.filter (uniqueReferencesColumn oldName) (allUniqueConstraints t) in
        _ ← set_table (rename_in_table index oldName newName);
        _ ← rename_constraint_indexes renames;
        mret true
    end.
End schema.

Arguments DroppedColumnCapture : clear implicits.
