(* ===== verification/TableSchemaProof.v ===== *)
(** * ALTER TABLE keeps rows, keys and versions

    Dropping a column removes its cell from every row and every version and moves
    the index positions; the keys of the remaining indexes are the same, and
    restoring the column brings everything back.  Adding a column with a default
    keeps the table valid under the wider schema. *)

From S2P Require Import Prelude Value BinaryIO PageCodec VectorRowStore PageRowStore PageRowStoreProof TransactionManager Mvcc.
From S2P Require Import StringPattern HashIndex BTreeIndex IndexExpression Predicate IndexManager IndexManagerProof Histogram.
From S2P Require Import Table TableProof TableSchema.
Local Open Scope nat_scope.

#[local] Arguments remove_at : simpl never.
#[local] Arguments insert_at : simpl never.

(** ** Removing and inserting at a position *)

(** Where position [i ≠ k] goes when [k] is removed, and back. *)
Definition down (k i : nat) : nat := if Nat.ltb k i then i - 1 else i.
Definition up (k i : nat) : nat := if Nat.leb k i then i + 1 else i.

Lemma up_down k i : i ≠ k → up k (down k i) = i.
Proof.
  unfold up, down. intros Hi. destruct (Nat.ltb_spec k i), (Nat.leb_spec k (i - 1)), (Nat.leb_spec k i); lia.
Qed.

Lemma remove_at_lookup {A} k i (l : list A) : k < length l → i ≠ k → remove_at k l !! down k i = l !! i.
Proof.
  intros Hk Hi. unfold remove_at, down. destruct (Nat.ltb_spec k i).
  - rewrite lookup_app_r by (rewrite length_take; lia). rewrite length_take, lookup_drop. f_equal. lia.
  - rewrite lookup_app_l by (rewrite length_take; lia). by rewrite lookup_take_lt by lia.
Qed.

Lemma length_remove_at {A} k (l : list A) : k < length l → length (remove_at k l) = length l - 1.
Proof. intros Hk. unfold remove_at. rewrite length_app, length_take, length_drop. lia. Qed.

Lemma remove_at_elem {A} k (l : list A) x : x ∈ remove_at k l → x ∈ l.
Proof.
  unfold remove_at. intros [Hx|Hx]%elem_of_app.
  - by eapply subseteq_take.
  - by eapply subseteq_drop.
Qed.

Lemma findColumn_remove (sch : Schema) k c n : NoDup (col_name <$> sch) → sch !! k = Some c → n ≠ col_name c →
  findColumn (remove_at k sch) n = down k <$> findColumn sch n.
Proof.
  revert k. induction sch as [|c0 sch IH]; intros k; [done|]. rewrite fmap_cons, NoDup_cons. intros [Hc0 Hnd] Hk Hn.
  destruct k as [|k]; simpl in *.
  - injection Hk as ->. unfold remove_at. simpl. rewrite drop_0. destruct (String.eqb_spec (col_name c) n); [done|].
    destruct (findColumn sch n) as [i|]; [|done]. simpl. unfold down. simpl. by rewrite Nat.sub_0_r.
  - change (take k sch ++ drop (S k) sch) with (remove_at k sch).
    destruct (String.eqb (col_name c0) n); [done|]. rewrite (IH k) by done.
    destruct (findColumn sch n) as [i|]; [|done]. simpl. f_equal. unfold down.
    destruct (Nat.ltb_spec k i), (Nat.ltb_spec (S k) (S i)); lia.
Qed.

(** The positions of a definition after the drop. *)
Definition lowered (k : nat) (e : string * list nat) : string * list nat := (e.1, down k <$> e.2).

Lemma shift_positions_down k l : k ∉ l → shift_positions k l = (true, down k <$> l).
Proof.
  induction l as [|i l IH]; [done|]. intros [Hi Hl]%not_elem_of_cons. simpl.
  destruct (Nat.eqb_spec i k); [done|]. by rewrite IH.
Qed.

Lemma shift_definitions_down k defs : Forall (λ e, k ∉ e.2) defs →
  shift_definitions k defs = (true, lowered k <$> defs).
Proof.
  induction 1 as [|[name l] defs Hl _ IH]; [done|]. simpl in *. by rewrite shift_positions_down, IH.
Qed.

Lemma raise_down k (defs : list (string * list nat)) : Forall (λ e, k ∉ e.2) defs →
  (λ e, (e.1, raise_positions k e.2)) <$> (lowered k <$> defs) = defs.
Proof.
  induction 1 as [|[name l] defs Hl _ IH]; [done|]. rewrite !fmap_cons. f_equal; [|exact IH]. simpl in *. f_equal.
  unfold raise_positions. rewrite <- list_fmap_compose. rewrite <- (list_fmap_id l) at 2. apply list_fmap_ext.
  intros i x Hx. simpl. apply up_down. intros ->. apply Hl. by eapply list_elem_of_lookup_2.
Qed.

(** The definitions after the drop. *)
Definition drop_positions (k : nat) (im : IndexManager) : IndexManager :=
  set_indexColumns (lowered k <$> im_indexColumns im) im.

Section keys.
Context (i2d : Z → Z) (dadd dsub : Z → Z → Z).

Lemma row_parts_remove k row cols : k < length row → k ∉ cols →
  row_parts (remove_at k row) (down k <$> cols) = row_parts row cols.
Proof.
  intros Hk. induction cols as [|i cols IH]; [done|]. intros [Hi Hc]%not_elem_of_cons.
  rewrite fmap_cons. cbn [row_parts]. rewrite remove_at_lookup, IH by done. done.
Qed.

Lemma smap_find_lowered k name (m : list (string * list nat)) :
  smap_find (V := list nat) name (lowered k <$> m) = fmap (M := option) (fmap (M := list) (down k)) (smap_find name m).
Proof. induction m as [|[n v] m IH]; [done|]. simpl. by destruct (String.eqb n name). Qed.

(** The key of a row in an index that does not use the dropped column. *)
Lemma key_remove sch im k c name row : NoDup (col_name <$> sch) → sch !! k = Some c → length row = length sch →
  Forall (λ e, k ∉ e.2) (im_indexColumns im) → Forall (λ e, ie_column e.2 ≠ col_name c) (im_indexExpressions im) →
  indexKeyForRow i2d dadd dsub (drop_positions k im) name (remove_at k row) (remove_at k sch) =
  indexKeyForRow i2d dadd dsub im name row sch.
Proof.
  intros Hnd Hk Hl Hcols Hexprs. pose proof (lookup_lt_Some _ _ _ Hk) as Hlt. unfold indexKeyForRow. simpl.
  destruct (smap_find name (im_indexExpressions im)) as [e|] eqn:Ee.
  - apply smap_find_Some in Ee. rewrite Forall_forall in Hexprs. specialize (Hexprs _ Ee). simpl in Hexprs.
    unfold evaluateIndexExpression. rewrite (findColumn_remove sch k c) by done.
    destruct (findColumn sch (ie_column e)) as [i|] eqn:Ei; [|done]. simpl.
    assert (i ≠ k) as Hik.
    { intros ->. apply Hexprs. clear -Ei Hk. revert k c Ei Hk. induction sch as [|c0 sch IH]; intros k c; [done|]. simpl.
      destruct (String.eqb_spec (col_name c0) (ie_column e)) as [E|]; [intros [= <-]; simpl; intros [= ->]; done|].
      destruct (findColumn sch (ie_column e)) as [j|]; [|done]. intros [= <-]. simpl. by apply IH. }
    by rewrite remove_at_lookup by (done || lia).
  - unfold smap_at. rewrite smap_find_lowered. destruct (smap_find name (im_indexColumns im)) as [cols|] eqn:Ec; [|done].
    apply smap_find_Some in Ec. rewrite Forall_forall in Hcols. specialize (Hcols _ Ec). simpl in *.
    by rewrite row_parts_remove by (done || lia).
Qed.

Lemma indexable_remove sch im k c row : NoDup (col_name <$> sch) → sch !! k = Some c → length row = length sch →
  Forall (λ e, k ∉ e.2) (im_indexColumns im) → Forall (λ e, ie_column e.2 ≠ col_name c) (im_indexExpressions im) →
  indexable i2d dadd dsub sch im row →
  indexable i2d dadd dsub (remove_at k sch) (drop_positions k im) (remove_at k row).
Proof.
  intros Hnd Hk Hl Hcols Hexprs [Hh Ho]. split; intros name Hn.
  - unfold hash_keys. rewrite (key_remove sch im k c) by done. exact (Hh name Hn).
  - intros Ht. rewrite (key_remove sch im k c) by done. exact (Ho name Hn Ht).
Qed.
End keys.

(** ** Rewriting every row *)

Definition vrs_map (g : RowId → Row → Row) (v : VectorRowStore) : VectorRowStore :=
  mkVectorRowStore (imap (λ i o, g i <$> o) (vrs_rows v)) (vrs_free v) (vrs_live v).

Lemma vrs_map_get g v i : vrs_get i (vrs_map g v) = g i <$> vrs_get i v.
Proof.
  unfold vrs_get, vrs_lookup, vrs_map. simpl. rewrite list_lookup_imap.
  by destruct (vrs_rows v !! i) as [[row|]|].
Qed.

Lemma vrs_map_id g v : (∀ i row, vrs_get i v = Some row → g i row = row) → vrs_map g v = v.
Proof.
  intros Hg. unfold vrs_map. destruct v as [rows free live]. simpl in *. f_equal. apply list_eq. intros i.
  rewrite list_lookup_imap. destruct (rows !! i) as [[row|]|] eqn:E; [|done..]. simpl. do 2 f_equal. apply Hg.
  unfold vrs_get. apply vrs_lookup_Some. exact E.
Qed.

Lemma vrs_map_compose g h v : vrs_map h (vrs_map g v) = vrs_map (λ i row, h i (g i row)) v.
Proof.
  unfold vrs_map. simpl. f_equal. apply list_eq. intros i. rewrite !list_lookup_imap.
  by destruct (vrs_rows v !! i) as [[row|]|].
Qed.

Lemma vrs_map_live g v : vrs_liveEntries (vrs_map g v) = (λ e, (e.1, g e.1 e.2)) <$> vrs_liveEntries v.
Proof.
  unfold vrs_liveEntries, vrs_map. simpl.
  assert (∀ rows k, live_entries_from k (imap (λ i o, g (k + i) <$> o) rows) =
    (λ e, (e.1, g e.1 e.2)) <$> live_entries_from k rows) as Hgen; [|by apply (Hgen (vrs_rows v) 0)].
  induction rows as [|o rows IH]; intros k; [done|]. simpl. rewrite Nat.add_0_r.
  rewrite (imap_ext _ (λ i o, g (S k + i) <$> o)) by (intros; simpl; do 2 f_equal; lia).
  destruct o as [row|]; simpl; rewrite IH; done.
Qed.

(** The store after the first rows are rewritten. *)
Definition rewritten (g : RowId → Row → Row) (v : VectorRowStore) (entries : list (RowId * Row)) : VectorRowStore :=
  foldl (λ v e, (vrs_update e.1 (g e.1 e.2) v).2) v entries.

Lemma rewritten_spec g v entries : NoDup entries.*1 → (∀ i row, (i, row) ∈ entries → vrs_get i v = Some row) →
  vrs_free (rewritten g v entries) = vrs_free v ∧ vrs_live (rewritten g v entries) = vrs_live v ∧
  length (vrs_rows (rewritten g v entries)) = length (vrs_rows v) ∧
  (∀ i row, (i, row) ∈ entries → vrs_rows (rewritten g v entries) !! i = Some (Some (g i row))) ∧
  (∀ i, i ∉ entries.*1 → vrs_rows (rewritten g v entries) !! i = vrs_rows v !! i).
Proof.
  revert v. induction entries as [|[i row] entries IH]; intros v; cbn [fmap list_fmap fst]; [set_solver|].
  intros [Hi Hnd]%NoDup_cons Hget. cbn [rewritten foldl fst snd]. fold (rewritten g).
  assert (vrs_get i v = Some row) as Hg by (apply Hget; left).
  set (v1 := (vrs_update i (g i row) v).2).
  assert (v1 = mkVectorRowStore (<[i := Some (g i row)]> (vrs_rows v)) (vrs_free v) (vrs_live v)) as E1.
  { unfold v1, vrs_update. unfold vrs_get in Hg. by rewrite Hg. }
  pose proof Hg as Hl. unfold vrs_get in Hl. apply vrs_lookup_Some, lookup_lt_Some in Hl.
  destruct (IH v1 Hnd) as (Hf & Hlive & Hlen & Hin & Hout).
  { intros j rj Hj. rewrite E1. unfold vrs_get, vrs_lookup. simpl. assert (i ≠ j) by (intros ->; apply Hi; by apply (list_elem_of_fmap_2 fst) in Hj).
    rewrite list_lookup_insert_ne by done. apply Hget. by right. }
  fold (rewritten g v1 entries). split_and!.
  - by rewrite Hf, E1.
  - by rewrite Hlive, E1.
  - rewrite Hlen, E1. apply length_insert.
  - intros j rj [[= -> ->]|Hj]%elem_of_cons; [|by apply Hin]. rewrite Hout by done. rewrite E1. simpl.
    by apply list_lookup_insert_eq.
  - intros j [Hji Hj]%not_elem_of_cons. rewrite Hout by done. rewrite E1. simpl. by apply list_lookup_insert_ne.
Qed.

Lemma live_entries_NoDup v : NoDup (vrs_liveEntries v).*1.
Proof.
  unfold vrs_liveEntries. generalize 0. induction (vrs_rows v) as [|o rows IH]; intros k; [constructor|]. simpl.
  destruct o as [row|]; [|apply IH]. simpl. constructor; [|apply IH].
  clear IH. assert (∀ m, k < m → k ∉ (live_entries_from m rows).*1) as Hge; [|apply Hge; lia].
  induction rows as [|o rows IH]; intros m Hm; simpl; [apply not_elem_of_nil|].
  destruct o as [r|]; simpl; [|apply IH; lia]. apply not_elem_of_cons. split; [lia|apply IH; lia].
Qed.

Lemma rewritten_map g v : rewritten g v (vrs_liveEntries v) = vrs_map g v.
Proof.
  destruct (rewritten_spec g v (vrs_liveEntries v)) as (Hf & Hl & Hlen & Hin & Hout); [apply live_entries_NoDup| |].
  { intros i row Hi. by apply live_entries_elem. }
  destruct (rewritten g v (vrs_liveEntries v)) as [rows free live]. simpl in *. subst. unfold vrs_map. f_equal.
  apply list_eq. intros i. rewrite list_lookup_imap. destruct (vrs_rows v !! i) as [[row|]|] eqn:E; simpl.
  - apply Hin, live_entries_elem. by apply vrs_lookup_Some.
  - rewrite Hout, E; [done|]. intros ([j row] & -> & Hj)%list_elem_of_fmap. apply live_entries_elem, vrs_lookup_Some in Hj.
    simpl in *. congruence.
  - apply lookup_ge_None_2. apply lookup_ge_None in E. lia.
Qed.

Section alter.
Context {Select S : Type} `{RowStoreLaws S}.
Context (i2d : Z → Z) (dadd dsub : Z → Z → Z) (dchars : Z → chars).
Abbreviation Table := (Table Select S).
Abbreviation state := (state Select S).
Abbreviation good_row := (good_row (Select := Select) (S := S) dchars).
Implicit Types t : Table.
Implicit Types s : state.
#[local] Existing Instances op_ret op_bind.

Lemma runs_set_table f t v im vs tm s t' im' vs' : at_state t v im vs tm s →
  (∀ store, f (with_parts t store im vs) = with_parts t' store im' vs') →
  runs (set_table f) s (Ok tt) (at_state t' v im' vs' tm).
Proof. intros (store & -> & Hrep) Hf. eexists. split; [done|]. simpl. rewrite Hf. by exists store. Qed.

Lemma runs_versions_try {A} (f : MVCCRowStore → result (A * MVCCRowStore)) t v im vs tm s a vs' :
  at_state t v im vs tm s → f vs = Ok (a, vs') → runs (versions_try f) s (Ok a) (at_state t v im vs' tm).
Proof. intros (store & -> & Hrep) Hf. unfold runs, versions_try. simpl. rewrite Hf. eexists. split; [done|]. by exists store. Qed.

Lemma live_runs t v im vs tm s : at_state t v im vs tm s →
  runs (row_store rs_liveEntries) s (Ok (vrs_liveEntries v)) (at_state t v im vs tm).
Proof. intros Hs. eapply runs_store; [exact Hs|]. intros store Hrep. apply rs_liveEntries_sim, Hrep. Qed.

Lemma rewrite_loop_runs f g failed t im vs tm entries : ∀ v s, at_state t v im vs tm s →
  NoDup entries.*1 → (∀ i row, (i, row) ∈ entries → vrs_get i v = Some row ∧ f i row = Ok (g i row) ∧ storable_row (g i row)) →
  runs (rewrite_rows f failed entries) s (Ok tt) (at_state t (rewritten g v entries) im vs tm).
Proof.
  induction entries as [|[i row] entries IH]; intros v s Hs; cbn [fmap list_fmap fst]; [intros _ _; by apply runs_ret|].
  intros [Hi Hnd]%NoDup_cons Hf. destruct (Hf i row) as (Hg & Ef & Hst); [left|].
  simpl. eapply runs_bind; [by eapply runs_lift_eq|]. intros s1 Hs1.
  eapply runs_bind; [by eapply update_store_runs|]. intros s2 Hs2.
  eapply runs_bind; [by eapply runs_lift_eq|]. intros s3 Hs3. apply IH; [done|done|].
  intros j rj Hj. destruct (Hf j rj) as (Hgj & Efj & Hstj); [by right|]. split_and!; try done.
  rewrite (proj2 (update_get v i row (g i row) j Hg)), decide_False; [done|].
  intros ->. apply Hi. by apply (list_elem_of_fmap_2 fst) in Hj.
Qed.

Lemma rewrite_runs f g failed t v im vs tm s : at_state t v im vs tm s →
  (∀ i row, vrs_get i v = Some row → f i row = Ok (g i row) ∧ storable_row (g i row)) →
  runs (rewrite_rows f failed (vrs_liveEntries v)) s (Ok tt) (at_state t (vrs_map g v) im vs tm).
Proof.
  intros Hs Hf. rewrite <- rewritten_map. eapply rewrite_loop_runs; [done|apply live_entries_NoDup|].
  intros i row Hi%live_entries_elem. split; [done|]. by apply Hf.
Qed.

Lemma shift_runs k t v im vs tm s : at_state t v im vs tm s → Forall (λ e, k ∉ e.2) (im_indexColumns im) →
  runs (shift_index_columns k) s (Ok tt) (at_state t v (drop_positions k im) vs tm).
Proof.
  intros (store & -> & Hrep) Hk. unfold runs, shift_index_columns. simpl. rewrite shift_definitions_down by done.
  eexists. split; [done|]. by exists store.
Qed.

Lemma drop_positions_wf sch k c im : im_wf sch im → sch !! k = Some c → Forall (λ e, k ∉ e.2) (im_indexColumns im) →
  im_wf (remove_at k sch) (drop_positions k im).
Proof.
  intros [Hh Ho Hn Hen He Hc Ht] Hk Hnk. pose proof (lookup_lt_Some _ _ _ Hk) as Hlt.
  assert ((lowered k <$> im_indexColumns im).*1 = (im_indexColumns im).*1) as E by (by rewrite <- list_fmap_compose).
  split; simpl; rewrite ?E; try done. rewrite Forall_fmap. rewrite Forall_forall in Hc, Hnk |- *.
  intros e Hin. simpl. rewrite Forall_fmap. specialize (Hc e Hin). specialize (Hnk e Hin).
  rewrite Forall_forall in Hc |- *. intros i Hi. simpl. rewrite length_remove_at by done. specialize (Hc i Hi).
  assert (i ≠ k) by (by intros ->). unfold down. destruct (Nat.ltb_spec k i); lia.
Qed.

Lemma storable_remove k row : storable_row row → storable_row (remove_at k row).
Proof.
  intros [Hsz Hst]. split.
  - unfold size_ok in *. unfold remove_at. rewrite length_app, length_take, length_drop. lia.
  - rewrite Forall_forall in Hst |- *. intros x Hx%remove_at_elem. auto.
Qed.

(** Every version is as wide as the schema. *)
Definition versions_wide t (vs : MVCCRowStore) : Prop :=
  ∀ i chain, vs !! i = Some chain → Forall (λ v, length (rv_row v) = length (t_schema t)) chain.

Lemma findColumn_name (sch : Schema) n k c : findColumn sch n = Some k → sch !! k = Some c → col_name c = n.
Proof.
  revert k. induction sch as [|c0 sch IH]; intros k; [done|]. simpl. destruct (String.eqb_spec (col_name c0) n) as [<-|].
  - intros [= <-]. simpl. by intros [= ->].
  - destruct (findColumn sch n) as [j|]; [|done]. intros [= <-]. simpl. by apply IH.
Qed.

(** The column is not used by an index, by a constraint or by a foreign key. *)
Record free_column t (im : IndexManager) (tables : option (list Table)) (name : string) (k : nat) (c : Column) : Prop := {
  fc_index : columnIndex t name = Some k;
  fc_column : t_schema t !! k = Some c;
  fc_others : 1 < length (t_schema t);
  fc_parent : match tables with Some tables => columnIsForeignKeyParent tables (t_name t) name | None => false end = false;
  fc_dependents : ∀ store vs, is_Ok (column_dependents (with_parts t store im vs) name c false) = true;
  fc_positions : Forall (λ e, k ∉ e.2) (im_indexColumns im);
  fc_expressions : Forall (λ e, ie_column e.2 ≠ name) (im_indexExpressions im)
}.

Lemma live_row_shape t v im vs i row : tinv i2d dadd dsub dchars t v im vs → vrs_get i v = Some row →
  length row = length (t_schema t) ∧ storable_row row ∧ good_row t row.
Proof.
  intros Hinv Hg. pose proof (tc_rows _ _ _ _ _ _ _ (ti_core _ _ _ _ _ _ _ _ Hinv) i row Hg) as Hgood.
  split; [by apply (good_row_shape _ _ _ Hgood)|]. split; [|done]. apply Hgood.
Qed.

Lemma drop_runs t v im vs tm s tables name k c : at_state t v im vs tm s → tinv i2d dadd dsub dchars t v im vs →
  versions_wide t vs → free_column t im tables name k c →
  ∃ capture vs' st, dc_column capture = c ∧ dc_columnIndex capture = k ∧ dc_cascaded capture = false ∧
    dc_heapValues capture = omap (λ e, (λ x, (e.1, x)) <$> e.2 !! k) (vrs_liveEntries v) ∧
    insertColumn k (dc_versionValues capture) vs' = Ok vs ∧
    runs (dropColumn i2d dadd dsub name tables false) s (Ok capture)
      (λ s', ∃ im', same_defs (drop_positions k im) im' ∧
        im_reflects i2d dadd dsub (remove_at k (t_schema t)) im' (vrs_map (λ _, remove_at k) v) ∧
        at_state (set_statistics st (with_schema (remove_at k (t_schema t)) t)) (vrs_map (λ _, remove_at k) v) im' vs' tm s').
Proof.
  intros Hs Hinv Hwide [Hk Hc Hlen Hpar Hdep Hpos Hexp]. pose proof (findColumn_name _ _ _ _ Hk Hc) as Hname. subst name.
  pose proof (lookup_lt_Some _ _ _ Hc) as Hlt.
  destruct (extract_insert_column k vs) as (values & vs' & Eex & Ein).
  { intros i chain Hi. unfold wide_chain. eapply Forall_impl; [exact (Hwide i chain Hi)|]. intros rv ->. done. }
  destruct Hs as (store0 & -> & Hrep0). pose proof (Hdep store0 vs) as Hd.
  destruct (column_dependents (with_parts t store0 im vs) (col_name c) c false) as [[[[ui ch] fks] us]|] eqn:Ed; [|done].
  eexists (mkDroppedColumnCapture c k _ values false ui ch us fks), vs',
    (other_histograms (col_name c) (t_statistics t)).
  split_and!; [done..|exact Ein|].
  assert (at_state t v im vs tm (mkState (with_parts t store0 im vs) tm)) as Hs by (by exists store0).
  revert Hs. generalize (mkState (with_parts t store0 im vs) tm). intros s Hs.
  unfold dropColumn. eapply runs_table; [exact Hs|]. intros store Hrep. change (columnIndex (with_parts _ _ _ _) _) with (columnIndex t (col_name c)). rewrite Hk.
  eapply runs_bind; [eapply runs_lift_eq; [|exact Hs]|]. { simpl. destruct (Nat.leb_spec (length (t_schema t)) 1); [lia|done]. }
  intros s1 Hs1. cbn [t_schema with_parts t_name]. rewrite Hc.
  eapply runs_bind; [eapply runs_lift_eq; [|exact Hs1]|]. { by rewrite Hpar. } intros s2 Hs2.
  eapply runs_bind; [eapply runs_lift_eq; [exact Ed|exact Hs2]|]. intros s3 Hs3.
  eapply runs_bind; [by apply (runs_ret tt)|]. intros s4 Hs4.
  eapply runs_bind; [by eapply live_runs|]. intros s5 Hs5.
  eapply runs_bind; [eapply (rewrite_runs _ (λ _, remove_at k)); [exact Hs5|]|].
  { intros i row Hg. destruct (live_row_shape _ _ _ _ _ _ Hinv Hg) as (Hl & Hst & _). unfold narrow_row.
    destruct (Nat.leb_spec (length row) k); [lia|]. split; [done|]. by apply storable_remove. }
  intros s6 Hs6. eapply runs_bind; [by eapply runs_versions_try|]. intros s7 Hs7.
  eapply runs_bind; [eapply (runs_set_table _ _ _ _ _ _ _ (with_schema (remove_at k (t_schema t)) t) im vs'); [exact Hs7|done]|].
  intros s8 Hs8. eapply runs_bind; [by eapply shift_runs|]. intros s9 Hs9.
  eapply runs_bind.
  { eapply rebuild_runs; [exact Hs9|eapply drop_positions_wf; [apply (ti_core _ _ _ _ _ _ _ _ Hinv)|exact Hc|done]|].
    intros i row. rewrite vrs_map_get. destruct (vrs_get i v) as [row0|] eqn:Eg; [|done]. intros [= <-].
    destruct (live_row_shape _ _ _ _ _ _ Hinv Eg) as (Hl & _ & Hgood).
    apply (indexable_remove _ _ _ (t_schema t) im k c); try done; [apply (ti_core _ _ _ _ _ _ _ _ Hinv)|].
    by eapply ti_keys. }
  intros s10 (im' & (Hd' & Hr') & Hs10).
  eapply runs_bind; [eapply (runs_set_table _ _ _ _ _ _ _ (set_statistics (other_histograms (col_name c) (t_statistics t))
    (with_schema (remove_at k (t_schema t)) t)) im' vs'); [exact Hs10|done]|].
  intros s11 Hs11. apply runs_ret. exists im'. split_and!; [exact Hd'|exact Hr'|]. exact Hs11.
Qed.

Lemma findColumn_removed (sch : Schema) k c : NoDup (col_name <$> sch) → sch !! k = Some c →
  findColumn (remove_at k sch) (col_name c) = None.
Proof.
  intros Hnd Hk. destruct (findColumn (remove_at k sch) (col_name c)) as [j|] eqn:E; [|done]. exfalso.
  assert (col_name c ∈ col_name <$> remove_at k sch) as Hin.
  { clear -E. revert j E. induction (remove_at k sch) as [|c0 l IH]; intros j; [done|]. simpl.
    destruct (String.eqb_spec (col_name c0) (col_name c)) as [->|]; [intros _; left|].
    destruct (findColumn l (col_name c)) as [i|]; [|done]. intros _. right. by eapply IH. }
  rewrite <- (insert_remove_at k c sch Hk) in Hnd. unfold insert_at in Hnd. rewrite fmap_app, fmap_cons in Hnd.
  assert (col_name <$> remove_at k sch = (col_name <$> take k (remove_at k sch)) ++ (col_name <$> drop k (remove_at k sch))) as Es.
  { by rewrite <- fmap_app, take_drop. }
  rewrite Es in Hin. apply NoDup_app in Hnd as (_ & Hd & [Hn _]%NoDup_cons). apply elem_of_app in Hin as [Hin|Hin]; [|done].
  apply (Hd _ Hin). left.
Qed.

Lemma heap_value_live k v i row x : vrs_get i v = Some row → row !! k = Some x →
  heap_value i (omap (λ e, (λ y, (e.1, y)) <$> e.2 !! k) (vrs_liveEntries v)) = Some x.
Proof.
  intros Hg%live_entries_elem Hx. unfold heap_value. pose proof (live_entries_NoDup v) as Hnd. revert Hg Hnd.
  induction (vrs_liveEntries v) as [|[j rj] l IH]; [set_solver|]. rewrite fmap_cons, NoDup_cons. simpl.
  intros [[= <- <-]|Hin]%elem_of_cons [Hj Hnd].
  - rewrite Hx. simpl. by rewrite Nat.eqb_refl.
  - assert (j ≠ i) as Hji. { intros ->. apply Hj. by apply (list_elem_of_fmap_2 fst) in Hin. }
    destruct (rj !! k) as [y|]; simpl; [|by apply IH]. destruct (Nat.eqb_spec j i); [done|]. by apply IH.
Qed.

Lemma raise_runs k t v im vs tm s : at_state t v im vs tm s →
  runs (raise_index_columns k) s (Ok tt)
    (at_state t v (set_indexColumns ((λ e, (e.1, raise_positions k e.2)) <$> im_indexColumns im) im) vs tm).
Proof. intros (store & -> & Hrep). eexists. split; [done|]. by exists store. Qed.

Lemma tinv_statistics st t v im vs : tinv i2d dadd dsub dchars t v im vs → tinv i2d dadd dsub dchars (set_statistics st t) v im vs.
Proof. intros [[[Hwf Hr Hrows Hnd Hun] Hkeys Huniq] Hvs]. split; [split; [by split|done..]|done]. Qed.

Lemma restore_runs t v im vs tm tables name k c st capture vs' im' s : tinv i2d dadd dsub dchars t v im vs →
  free_column t im tables name k c →
  dc_column capture = c → dc_columnIndex capture = k → dc_cascaded capture = false →
  dc_heapValues capture = omap (λ e, (λ x, (e.1, x)) <$> e.2 !! k) (vrs_liveEntries v) →
  insertColumn k (dc_versionValues capture) vs' = Ok vs → same_defs (drop_positions k im) im' →
  im_reflects i2d dadd dsub (remove_at k (t_schema t)) im' (vrs_map (λ _, remove_at k) v) →
  at_state (set_statistics st (with_schema (remove_at k (t_schema t)) t)) (vrs_map (λ _, remove_at k) v) im' vs' tm s →
  runs (restoreDroppedColumn i2d dadd dsub capture) s (Ok tt)
    (λ s', ∃ im'', at_state (set_statistics st t) v im'' vs tm s' ∧ same_defs im im'' ∧
       tinv i2d dadd dsub dchars (set_statistics st t) v im'' vs).
Proof.
  intros Hinv [Hk Hc Hlen _ _ Hpos _] Ec Ek Ecas Eheap Ein (D1 & D2 & D3 & D4) Hr' Hs.
  pose proof (lookup_lt_Some _ _ _ Hc) as Hlt. pose proof (tc_names _ _ _ _ _ _ _ (ti_core _ _ _ _ _ _ _ _ Hinv)) as Hnd.
  unfold restoreDroppedColumn. rewrite Ec, Ek, Ecas. eapply runs_table; [exact Hs|]. intros store Hrep.
  eapply runs_bind; [eapply runs_lift_eq; [|exact Hs]|].
  { cbn [t_schema with_parts with_schema set_statistics]. rewrite length_remove_at by done.
    destruct (Nat.ltb_spec (length (t_schema t) - 1) k); [lia|done]. }
  intros s1 Hs1. eapply runs_bind; [eapply runs_lift_eq; [|exact Hs1]|].
  { unfold columnIndex. cbn [t_schema with_parts with_schema set_statistics]. rewrite findColumn_removed by done.
    by rewrite bool_decide_false by (by intros []). }
  intros s2 Hs2.
  eapply runs_bind; [eapply (runs_set_table _ _ _ _ _ _ _ (set_statistics st t) im' vs'); [exact Hs2|]|].
  { intros store'. unfold with_schema, set_statistics, with_parts. simpl. by rewrite insert_remove_at. }
  intros s3 Hs3. eapply runs_bind; [by eapply raise_runs|]. intros s4 Hs4. rewrite D1 in Hs4. simpl in Hs4. rewrite raise_down in Hs4 by done.
  set (im1 := set_indexColumns (im_indexColumns im) im') in *.
  assert (same_defs im im1) as Hd1 by (by unfold im1; split_and!).
  eapply runs_bind; [eapply (runs_versions_try _ _ _ _ _ _ _ tt vs); [exact Hs4|by rewrite Ein]|]. intros s5 Hs5.
  eapply runs_bind; [by eapply live_runs|]. intros s6 Hs6.
  set (g := λ (i : RowId) (row : Row), insert_at k (default VNull (vrs_get i v ≫= (.!! k))) row).
  assert (∀ i row, vrs_get i v = Some row → g i (remove_at k row) = row) as Hgi.
  { intros i row Hg. destruct (live_row_shape _ _ _ _ _ _ Hinv Hg) as (Hl & _ & _). unfold g. rewrite Hg. simpl.
    destruct (lookup_lt_is_Some_2 row k) as [x Hx]; [lia|]. rewrite Hx. by apply insert_remove_at. }
  eapply runs_bind; [eapply (rewrite_runs _ g); [exact Hs6|]|].
  { intros i row. rewrite vrs_map_get. destruct (vrs_get i v) as [row0|] eqn:Eg; [|done]. intros [= <-].
    destruct (live_row_shape _ _ _ _ _ _ Hinv Eg) as (Hl & Hst & _). rewrite Hgi by done. split; [|done].
    destruct (lookup_lt_is_Some_2 row0 k) as [x Hx]; [lia|].
    unfold widen_row. rewrite Eheap, (heap_value_live k v i row0 x Eg Hx), Ek, length_remove_at by lia.
    destruct (Nat.ltb_spec (length row0 - 1) k); [lia|]. simpl. f_equal. by apply insert_remove_at. }
  intros s7 Hs7. rewrite vrs_map_compose, vrs_map_id in Hs7 by done.
  eapply runs_bind; [by apply (runs_ret tt)|]. intros s8 Hs8. eapply runs_mono.
  { eapply rebuild_runs; [exact Hs8| |].
    - destruct (tc_wf _ _ _ _ _ _ _ (ti_core _ _ _ _ _ _ _ _ Hinv)) as [Hh Ho Hn Hen He Hcc Ht].
      split; simpl; rewrite ?D2, ?D3, ?D4; try done.
      by eapply reflects_trees.
    - intros i row Hg. eapply same_defs_indexable; [exact Hd1|]. eapply (ti_keys _ _ _ _ t v im vs); [exact Hinv|].
      by apply (live_row_shape _ _ _ _ _ _ Hinv Hg). }
  intros s9 (im2 & (Hd2 & Hr2) & Hs9). exists im2.
  pose proof (same_defs_trans _ _ _ Hd1 Hd2) as Hd. split_and!; [exact Hs9|done|]. apply tinv_statistics.
  eapply tinv_defs; [exact Hinv| |exact Hr2|].
  - eapply same_defs_wf; [exact Hd|exact Hr2|]. apply (ti_core _ _ _ _ _ _ _ _ Hinv).
  - intros row Hgood. eapply same_defs_indexable; [exact Hd|]. by eapply ti_keys.
Qed.

(** ** A wider schema *)

Lemma findColumn_app (sch : Schema) c n : n ∈ col_name <$> sch → findColumn (sch ++ [c]) n = findColumn sch n.
Proof.
  induction sch as [|c0 sch IH]; [set_solver|]. simpl. destruct (String.eqb_spec (col_name c0) n); [done|].
  intros [->|Hn]%elem_of_cons; [done|]. by rewrite IH.
Qed.

Lemma check_column_widen (sch : Schema) c row x n : n ∈ col_name <$> sch → length row = length sch →
  check_column (row ++ [x]) (findColumn (sch ++ [c])) n = check_column row (findColumn sch) n.
Proof.
  intros Hn Hl. unfold check_column. rewrite findColumn_app by done.
  destruct (findColumn_Some sch n Hn) as (i & -> & Hi). unfold row_at. by rewrite lookup_app_l by lia.
Qed.

Lemma evalCheckTri_widen (sch : Schema) c row x (p : Predicate Select) : length row = length sch →
  Forall (λ n, n ∈ col_name <$> sch) (collectCheckColumns p) →
  evalCheckTri p (row ++ [x]) (findColumn (sch ++ [c])) = evalCheckTri p row (findColumn sch).
Proof.
  intros Hl. induction p as [column o value rhs e outer|l IHl r IHr|l IHl r IHr| | | | |]; simpl; try done.
  - intros [Hc Hr]%Forall_cons. destruct e; [done|]. rewrite check_column_widen by done.
    destruct rhs as [rhs|]; [|done]. apply Forall_cons in Hr as [Hr _]. by rewrite check_column_widen.
  - intros [Hcl Hcr]%Forall_app. by rewrite IHl, IHr.
  - intros [Hcl Hcr]%Forall_app. by rewrite IHl, IHr.
Qed.

Lemma enforce_checks_widen (sch : Schema) c row x (checks : list (Predicate Select)) : length row = length sch →
  Forall (λ p, Forall (λ n, n ∈ col_name <$> sch) (collectCheckColumns p)) checks →
  enforce_checks dchars checks (row ++ [x]) (findColumn (sch ++ [c])) = enforce_checks dchars checks row (findColumn sch).
Proof.
  intros Hl. induction 1 as [|p checks Hp _ IH]; [done|]. simpl. unfold evalCheckPredicate.
  by rewrite evalCheckTri_widen, IH.
Qed.

(** One cell against its column. *)
Definition cell_ok (c : Column) (x : Value) : Prop := validate_cells [x] [c] = Ok tt.

Lemma validate_cells_app row sch x c : length row = length sch →
  validate_cells (row ++ [x]) (sch ++ [c]) = Ok tt ↔ validate_cells row sch = Ok tt ∧ cell_ok c x.
Proof.
  intros Hl. revert sch Hl. induction row as [|y row IH]; intros [|c0 sch]; simpl; intros Hl; simplify_eq; [tauto|].
  specialize (IH sch Hl). destruct (isNull y).
  - destruct (throw_if _ _) as [[]|]; simpl; [done|]. naive_solver.
  - destruct (Value_type y) as [ty|]; simpl; [|naive_solver]. destruct (throw_if _ _) as [[]|]; simpl; [done|]. naive_solver.
Qed.

(** What the schema names: the columns of the CHECK constraints and of the
    expression indexes exist. *)
Definition names_known t (im : IndexManager) : Prop :=
  Forall (λ p, Forall (λ n, n ∈ column_names_of t) (collectCheckColumns p)) (t_checkConstraints t) ∧
  Forall (λ e, ie_column e.2 ∈ column_names_of t) (im_indexExpressions im).

Abbreviation wider c t := (with_schema (t_schema t ++ [c]) t).

Lemma validateRow_widen t im c row x : names_known t im →
  validateRow dchars (wider c t) (row ++ [x]) = Ok tt ↔ validateRow dchars t row = Ok tt ∧ cell_ok c x.
Proof.
  intros [Hn _]. unfold validateRow, enforceCheckConstraints. cbn [with_schema t_schema t_checkConstraints]. rewrite !length_app.
  cbn [length]. destruct (Nat.eqb_spec (length row) (length (t_schema t))) as [Hl|Hl].
  2:{ destruct (Nat.eqb_spec (length row + 1) (length (t_schema t) + 1)); [lia|]. simpl. naive_solver. }
  destruct (Nat.eqb_spec (length row + 1) (length (t_schema t) + 1)); [|lia]. simpl.
  pose proof (validate_cells_app row (t_schema t) x c Hl) as Happ.
  destruct (validate_cells (row ++ [x]) (t_schema t ++ [c])) as [[]|] eqn:E1; simpl.
  - destruct (proj1 Happ eq_refl) as [-> Hx]. simpl. unfold columnIndex. cbn [with_schema t_schema].
    rewrite enforce_checks_widen by done. naive_solver.
  - split; [done|]. intros [Hv Hx]. destruct (validate_cells row (t_schema t)) as [[]|]; [|done].
    by pose proof (proj2 Happ (conj eq_refl Hx)).
Qed.

Lemma good_row_narrow t im c r : names_known t im → good_row (wider c t) r →
  ∃ row x, r = row ++ [x] ∧ good_row t row ∧ comparable x.
Proof.
  intros Hn Hg. pose proof (good_row_shape _ _ _ Hg) as (Hl & _). cbn [with_schema t_schema] in Hl. rewrite length_app in Hl.
  destruct r as [|x row _] using rev_ind; [simpl in Hl; lia|]. exists row, x. destruct Hg as (Hv & Hc & Hsz & Hst).
  apply (validateRow_widen t im) in Hv as [Hv _]; [|done]. apply Forall_app in Hc as [Hc Hx]. apply Forall_app in Hst as [Hst _].
  split_and!; [done| |by apply Forall_cons in Hx as [Hx _]]. split_and!; [done|done|]. split; [|done].
  unfold size_ok in *. rewrite length_app in Hsz. lia.
Qed.

Lemma row_parts_widen row x cols : Forall (λ i, i < length row) cols → row_parts (row ++ [x]) cols = row_parts row cols.
Proof. induction 1 as [|i cols Hi _ IH]; [done|]. simpl. by rewrite lookup_app_l, IH. Qed.

Lemma key_widen t im c name row x : names_known t im → im_wf (t_schema t) im → length row = length (t_schema t) →
  indexKeyForRow i2d dadd dsub im name (row ++ [x]) (t_schema t ++ [c]) = indexKeyForRow i2d dadd dsub im name row (t_schema t).
Proof.
  intros [_ He] Hwf Hl. unfold indexKeyForRow. destruct (smap_find name (im_indexExpressions im)) as [e|] eqn:Ee.
  - apply smap_find_Some in Ee. rewrite Forall_forall in He. specialize (He _ Ee). simpl in He.
    unfold evaluateIndexExpression. rewrite findColumn_app by done. unfold column_names_of in He.
    destruct (findColumn_Some _ _ He) as (i & -> & Hi). by rewrite lookup_app_l by lia.
  - unfold smap_at. destruct (smap_find name (im_indexColumns im)) as [cols|] eqn:Ec; [|done]. simpl.
    apply smap_find_Some in Ec. pose proof (iw_columns _ _ Hwf) as Hc. rewrite Forall_forall in Hc. specialize (Hc _ Ec).
    simpl in Hc. rewrite row_parts_widen; [done|]. by rewrite Hl.
Qed.

Lemma logs_widen v pad (hk hk' : Row → list Value) :
  (∀ i row, vrs_get i v = Some row → hk' (row ++ [pad]) = hk row) →
  index_log_of hk' (vrs_map (λ _ row, row ++ [pad]) v) = index_log_of hk v.
Proof.
  intros Hk. unfold index_log_of. rewrite vrs_map_live. 
  assert (Forall (λ e, hk' (e.2 ++ [pad]) = hk e.2) (vrs_liveEntries v)) as Hall.
  { apply Forall_forall. intros [i row] Hin%live_entries_elem. by eapply Hk. }
  induction Hall as [|e l He _ IH]; [done|]. rewrite fmap_cons. cbn [flat_map]. rewrite IH. f_equal. unfold row_log. simpl. by rewrite He.
Qed.

Lemma reflects_widen t im c v pad : names_known t im → im_wf (t_schema t) im →
  (∀ i row, vrs_get i v = Some row → length row = length (t_schema t)) →
  im_reflects i2d dadd dsub (t_schema t) im v →
  im_reflects i2d dadd dsub (t_schema t ++ [c]) im (vrs_map (λ _ row, row ++ [pad]) v).
Proof.
  intros Hn Hwf Hl [Hh Ho]. pose proof (λ name row x, key_widen t im c name row x Hn Hwf) as Hkey.
  split; (eapply Forall_impl; [eassumption|]); intros e; simpl.
  - erewrite logs_widen; [done|]. intros i row Hg. unfold hkeys, hash_keys.
    by rewrite Hkey by eauto.
  - erewrite logs_widen; [done|]. intros i row Hg. unfold okeys.
    by rewrite Hkey by eauto.
Qed.

Lemma latest_transform f vs i : latest (transformRows f vs) i = f <$> latest vs i.
Proof.
  unfold latest, transformRows. rewrite lookup_fmap. destruct (vs !! i) as [chain|]; [|done]. simpl.
  rewrite fmap_last. destruct (last chain) as [rv|]; [|done]. simpl. by destruct (rv_deletedBy rv).
Qed.

Lemma uniques_widen t c : col_unique c = false → col_primaryKey c = false →
  allUniqueConstraints (wider c t) = allUniqueConstraints t.
Proof.
  intros Hu Hp. unfold allUniqueConstraints, column_constraints. cbn [with_schema t_schema t_uniqueConstraints].
  rewrite flat_map_app. simpl. rewrite Hu, Hp. simpl. by rewrite app_nil_r.
Qed.

Lemma unique_equal_widen t c columns l r x y : Forall (λ n, n ∈ column_names_of t) columns →
  length l = length (t_schema t) → length r = length (t_schema t) →
  unique_equal columns (columnIndex (wider c t)) (l ++ [x]) (r ++ [y]) = unique_equal columns (columnIndex t) l r.
Proof.
  intros Hc Hl Hr. induction Hc as [|n columns Hn _ IH]; [done|]. simpl. rewrite IH. unfold columnIndex in *.
  cbn [with_schema t_schema]. rewrite findColumn_app by done. destruct (findColumn_Some _ _ Hn) as (i & -> & Hi).
  unfold row_at. by rewrite !lookup_app_l by lia.
Qed.

Lemma tinv_widen t v im vs c pad : tinv i2d dadd dsub dchars t v im vs → names_known t im →
  col_unique c = false → col_primaryKey c = false → col_name c ∉ column_names_of t → size_ok (Datatypes.S (length (t_schema t))) →
  (∀ i row, vrs_get i v = Some row → cell_ok c pad ∧ comparable pad ∧ storable pad) →
  tinv i2d dadd dsub dchars (wider c t) (vrs_map (λ _ row, row ++ [pad]) v) im (transformRows (λ row, row ++ [pad]) vs).
Proof.
  intros Hinv Hn Hu Hp Hc Hsz Hpad. pose proof Hinv as [[[Hwf Hr Hrows Hnd Hun] Hkeys Huniq] Hvs].
  assert (∀ i row, vrs_get i v = Some row → length row = length (t_schema t)) as Hl.
  { intros i row Hg. by apply (live_row_shape _ _ _ _ _ _ Hinv Hg). }
  split; [split; [split|..]|]; rewrite ?uniques_widen by done.
  - destruct Hwf as [Hh Ho Hnn Hen He Hcc Ht]. split; try done. eapply Forall_impl; [exact Hcc|]. intros e He'.
    eapply Forall_impl; [exact He'|]. cbn [with_schema t_schema]. intros i Hi. rewrite length_app. simpl. lia.
  - cbn [with_schema t_schema]. by apply (reflects_widen t).
  - intros i r. rewrite vrs_map_get. destruct (vrs_get i v) as [row|] eqn:Eg; [|done]. intros [= <-].
    destruct (Hpad i row Eg) as (Hcell & Hcmp & Hst). destruct (Hrows i row Eg) as (Hv & Hcr & Hsr). split_and!.
    + by apply (validateRow_widen t im).
    + apply Forall_app. split; [done|]. by constructor.
    + destruct Hsr as [_ Hsr]. split; [|apply Forall_app; split; [done|by constructor]].
      rewrite length_app, (Hl i row Eg), Nat.add_1_r. done.
  - unfold column_names_of. cbn [with_schema t_schema]. rewrite fmap_app. apply NoDup_app. split_and!; [done| |apply NoDup_singleton].
    intros n Hin ->%list_elem_of_singleton. done.
  - rewrite Forall_forall in Hun |- *. intros u Hin. destruct (Hun u Hin) as [Hne Hcols]. split; [done|].
    eapply Forall_impl; [exact Hcols|]. intros n Hnn. unfold column_names_of. cbn [with_schema t_schema]. rewrite fmap_app. set_solver.
  - intros r Hgood. destruct (good_row_narrow t im c r Hn Hgood) as (row & x & -> & Hgr & _).
    destruct (Hkeys row Hgr) as [Hh Ho]. pose proof (good_row_shape _ _ _ Hgr) as (Hlr & _).
    split; [intros name Hname|intros name Hname Htri]; cbn [with_schema t_schema]; unfold hash_keys;
      rewrite (key_widen t im) by done; [exact (Hh name Hname)|exact (Ho name Hname Htri)].
  - intros u i j ri rj Hin Hij. rewrite !vrs_map_get. destruct (vrs_get i v) as [row|] eqn:Ei; [|done].
    destruct (vrs_get j v) as [row'|] eqn:Ej; [|done]. intros [= <-] [= <-]. unfold uniqueRowsEqual.
    rewrite Forall_forall in Hun. destruct (Hun u Hin) as [_ Hcols]. rewrite unique_equal_widen by eauto.
    by apply (Huniq u i j row row').
  - intros i. by rewrite latest_transform, vrs_map_get, Hvs.
Qed.

Lemma check_default_cell c fill : check_default c fill = Ok tt → (fill = None → col_nullable c = true) →
  cell_ok c (default VNull fill).
Proof.
  unfold check_default, cell_ok. destruct fill as [x|]; simpl; [|by intros _ ->].
  destruct (isNull x); [by destruct (col_nullable c)|]. destruct (Value_type x) as [ty|]; [|done]. simpl.
  by destruct (bool_decide (ty = col_type c)).
Qed.

Lemma transform_runs t v im vs tm s f : at_state t v im vs tm s → tinv i2d dadd dsub dchars t v im (transformRows f vs) →
  runs (versions (λ v, (tt, transformRows f v))) s (Ok tt) (ok_state i2d dadd dsub dchars t v).
Proof.
  intros Hs Hinv. destruct (runs_versions (λ v, (tt, transformRows f v)) _ _ _ _ _ _ Hs) as (s' & E & Hs').
  exists s'. split; [exact E|]. by eapply ok_state_intro.
Qed.

(** The part of ADD COLUMN after its tests. *)
Lemma pad_runs t v im vs tm s c pad : at_state t v im vs tm s → tinv i2d dadd dsub dchars t v im vs → names_known t im →
  col_unique c = false → col_primaryKey c = false → col_name c ∉ column_names_of t → size_ok (Datatypes.S (length (t_schema t))) →
  cell_ok c pad → comparable pad → storable pad →
  runs (pad_column c pad) s (Ok tt)
    (ok_state i2d dadd dsub dchars (wider c t) (vrs_map (λ _ row, row ++ [pad]) v)).
Proof.
  intros Hs Hinv Hn Hu Hp Hc Hsz Hcell Hcmp Hst.
  eapply runs_bind; [eapply (runs_set_table _ _ _ _ _ _ _ (wider c t) im vs); [exact Hs|done]|]. intros s1 Hs1.
  eapply runs_bind; [by eapply live_runs|]. intros s2 Hs2.
  eapply runs_bind; [eapply (rewrite_runs _ (λ _ row, row ++ [pad])); [exact Hs2|]|].
  { intros i row Hg. split; [done|]. destruct (live_row_shape _ _ _ _ _ _ Hinv Hg) as (Hl & [_ Hsr] & _). split.
    - by rewrite length_app, Hl, Nat.add_1_r.
    - apply Forall_app. split; [done|]. by constructor. }
  intros s3 Hs3. eapply (transform_runs (wider c t)); [exact Hs3|]. by apply tinv_widen.
Qed.

Lemma runs_guard {A} (b : bool) e (m : unit → op Select S A) t v im vs tm s (Q : result A → state → Prop) :
  at_state t v im vs tm s → tinv i2d dadd dsub dchars t v im vs →
  (∀ e s, ok_state i2d dadd dsub dchars t v s → Q (Throw e) s) →
  (b = false → ∃ r, runs (m tt) s r (Q r)) → ∃ r, runs (lift (throw_if b e) ≫= m) s r (Q r).
Proof.
  intros Hs Hinv Hth Hm. destruct b; [|by apply Hm]. exists (Throw e). apply runs_throw. eapply runs_lift_eq; [done|].
  apply Hth. by eapply ok_state_intro.
Qed.

Lemma add_runs t v im vs tm s column fill : at_state t v im vs tm s → tinv i2d dadd dsub dchars t v im vs →
  names_known t im → size_ok (Datatypes.S (length (t_schema t))) → (∀ x, fill = Some x → comparable x ∧ storable x) →
  ∃ r, runs (addColumn column fill) s r (λ s',
    match r with
    | Ok _ => (col_name column ∉ column_names_of t) ∧
        ok_state i2d dadd dsub dchars (wider column t)
          (vrs_map (λ _ row, row ++ [default VNull fill]) v) s'
    | Throw _ => ok_state i2d dadd dsub dchars t v s'
    end).
Proof.
  intros Hs Hinv Hn Hsz Hfill. unfold addColumn.
  set (Q := λ (r : result unit) (s' : state), match r with
    | Ok _ => (col_name column ∉ column_names_of t) ∧
        ok_state i2d dadd dsub dchars (wider column t)
          (vrs_map (λ _ row, row ++ [default VNull fill]) v) s'
    | Throw _ => ok_state i2d dadd dsub dchars t v s' end).
  change (∃ r, runs (addColumn column fill) s r (Q r)).
  eapply runs_guard; [exact Hs|exact Hinv|done|]. intros [Hu Hp]%orb_false_iff.
  eapply runs_guard; [exact Hs|exact Hinv|done|]. intros _.
  destruct (check_default column fill) as [[]|e] eqn:Ed.
  2:{ exists (Throw e). apply runs_throw. eapply runs_lift_eq; [done|]. by eapply ok_state_intro. }
  destruct Hs as (store0 & -> & Hrep0). set (s0 := mkState _ _).
  assert (at_state t v im vs tm s0) as Hs by (by exists store0).
  change (∃ r, runs (lift (throw_if (bool_decide (is_Some (columnIndex t (col_name column)))) (column_exists (col_name column)))
    ≫= λ _ : unit, if bool_decide (fill = None) && negb (col_nullable column) then append_column column
                   else pad_column column (default VNull fill)) s0 r (Q r)).
  eapply runs_guard; [exact Hs|exact Hinv|done|]. intros Hnew%bool_decide_eq_false.
  assert (col_name column ∉ column_names_of t) as Hc.
  { intros Hin. destruct (findColumn_Some _ _ Hin) as (i & Ei & _). apply Hnew. by exists i. }
  destruct (bool_decide (fill = None) && negb (col_nullable column)) eqn:Eb.
  - apply andb_true_iff in Eb as [->%bool_decide_eq_true Hnull]. simpl in *.
    destruct (decide (vrs_liveEntries v = [])) as [Hempty|Hrows].
    + exists (Ok tt). eapply runs_bind; [by eapply live_runs|]. intros s1 Hs1.
      eapply runs_bind; [eapply runs_lift_eq; [|exact Hs1]; by rewrite bool_decide_true|]. intros s2 Hs2.
      eapply runs_bind; [eapply (runs_set_table _ _ _ _ _ _ _ (wider column t) im vs); [exact Hs2|done]|]. intros s3 Hs3.
      assert (∀ i row, vrs_get i v = Some row → False) as Hno.
      { intros i row Hg%live_entries_elem. rewrite Hempty in Hg. by apply not_elem_of_nil in Hg. }
      rewrite <- (vrs_map_id (λ _ row, row ++ [VNull]) v) in Hs3 by (intros i row Hg; by destruct (Hno i row Hg)).
      eapply runs_mono; [eapply transform_runs; [exact Hs3|]|intros s4 Hs4; by split].
      apply tinv_widen; try done. intros i row Hg. by destruct (Hno i row Hg).
    + eexists (Throw _). eapply runs_bind; [by eapply live_runs|]. intros s1 Hs1. apply runs_throw.
      eapply runs_lift_eq; [by rewrite bool_decide_false|]. by eapply ok_state_intro.
  - exists (Ok tt). eapply runs_mono; [eapply pad_runs|intros s4 Hs4; by split]; try done.
    + apply check_default_cell; [done|]. intros ->. simpl in Eb. by destruct (col_nullable column).
    + destruct fill as [x|]; [by apply (Hfill x)|done].
    + destruct fill as [x|]; [by apply (Hfill x)|done].
Qed.


(** C37: DROP COLUMN and its undo.  On a table whose invariant holds and whose
    versions have the width of the schema, for a column that no index, constraint
    or foreign key uses, [dropColumn] succeeds: the cell is gone from every row,
    the schema is shorter and every remaining index, its positions moved, holds
    exactly the keys of the narrowed rows.  [restoreDroppedColumn] with the capture
    of the drop then succeeds and brings back rows, versions, schema, constraints
    and index definitions, with the invariant; only the column's histogram is not
    restored. *)
Theorem drop_restore_column t v tm tables name k c :
  table_ok i2d dadd dsub dchars t v → versions_wide t (t_versions t) →
  free_column t (t_indexManager t) tables name k c →
  ∃ capture s1 s2, dropColumn i2d dadd dsub name tables false (mkState t tm) = (Ok capture, s1) ∧
    t_schema (st_table s1) = remove_at k (t_schema t) ∧
    rs_rep (t_rowStore (st_table s1)) (vrs_map (λ _, remove_at k) v) ∧
    im_reflects i2d dadd dsub (t_schema (st_table s1)) (t_indexManager (st_table s1)) (vrs_map (λ _, remove_at k) v) ∧
    restoreDroppedColumn i2d dadd dsub capture s1 = (Ok tt, s2) ∧
    table_ok i2d dadd dsub dchars (st_table s2) v ∧
    same_defs (t_indexManager t) (t_indexManager (st_table s2)) ∧
    set_statistics (t_statistics t) (st_table s2) =
      with_parts t (t_rowStore (st_table s2)) (t_indexManager (st_table s2)) (t_versions t).
Proof.
  intros Hok Hwide Hfree. destruct (table_ok_state _ _ _ _ t v tm Hok) as (im & vs & tm' & Hs & Hinv).
  assert (im = t_indexManager t ∧ vs = t_versions t) as [-> ->]. { destruct Hs as (store & E & _). injection E as ->. done. }
  destruct (drop_runs t v _ _ tm' _ tables name k c Hs Hinv Hwide Hfree)
    as (capture & vs' & st & Ec & Ek & Ecas & Eh & Ein & s1 & E1 & im1 & Hd1 & Hr1 & Hs1).
  destruct (restore_runs t v _ _ tm' tables name k c st capture vs' im1 s1 Hinv Hfree Ec Ek Ecas Eh Ein Hd1 Hr1 Hs1)
    as (s2 & E2 & im2 & Hs2 & Hd2 & Hinv2).
  exists capture, s1, s2. destruct (ok_state_table _ _ _ _ _ _ s2 (ok_state_intro _ _ _ _ _ _ _ _ _ _ Hs2 Hinv2)) as [Ht2 _].
  destruct Hs1 as (store1 & -> & Hrep1), Hs2 as (store2 & -> & Hrep2). by split_and!.
Qed.
End alter.

(** ** Examples *)

Lemma items_new : ∃ store t, makePageRowStore = Ok store ∧
  Table_new store "items" items_schema items_checks [] items_uniques = Ok t ∧
  table_ok (λ z, z) Z.add Z.sub (λ _, []) t vrs_empty ∧ names_known t (t_indexManager t) ∧ length (t_schema t) = 2 ∧
  columnIndex t "note" = None.
Proof.
  destruct items_store as (store & Es & Hrep). 
  assert (∃ t, Table_new store "items" items_schema items_checks [] items_uniques = Ok t) as [t Et] by (by eexists).
  exists store, t. split; [exact Es|]. split; [exact Et|]. split; [eapply Table_new_ok; [exact Hrep|exact Et|exact items_names]|].
  injection Et as <-. split; [|done]. split; [|constructor].
  by repeat constructor.
Qed.


(** The table of the examples with a spare column. *)
Definition spare_schema : Schema := [mkColumn "id" CT_Int false true true; mkColumn "note" CT_String true false false].

Lemma drop_restore_column_witness : ∃ (t : Table unit VectorRowStore) capture s1 s2,
  dropColumn (λ z, z) Z.add Z.sub "note" None false (mkState t None) = (Ok capture, s1) ∧
  t_schema (st_table s1) = [mkColumn "id" CT_Int false true true] ∧
  restoreDroppedColumn (λ z, z) Z.add Z.sub capture s1 = (Ok tt, s2) ∧
  table_ok (λ z, z) Z.add Z.sub (λ _, []) (st_table s2) vrs_empty.
Proof.
  assert (∃ t, Table_new vrs_empty "spare" spare_schema ([] : list (Predicate unit)) [] [] = Ok t) as [t Et] by (by eexists).
  destruct (drop_restore_column (λ z, z) Z.add Z.sub (λ _, []) t vrs_empty None None "note" 1
    (mkColumn "note" CT_String true false false)) as (capture & s1 & s2 & E1 & Es & _ & _ & E2 & Hok & _).
  - eapply Table_new_ok; [|exact Et|]; [split; [done|apply vrs_inv_empty]|].
    vm_compute. repeat constructor; set_solver.
  - injection Et as <-. intros i chain Hi. done.
  - injection Et as <-. split; try done; simpl; lia.
  - exists t, capture, s1, s2. split_and!; [exact E1| |exact E2|exact Hok]. rewrite Es. by injection Et as <-.
Defined.

(** The names of constraint indexes join column names with [_]: UNIQUE (a, b) and a
    UNIQUE column [a_b] get the same name, and the second index is refused. *)
Definition joined_schema : Schema :=
  [mkColumn "a" CT_Int false false false; mkColumn "b" CT_Int false false false; mkColumn "a_b" CT_Int false true false].

Lemma constraint_index_names_collide : ∃ t,
  Table_new vrs_empty "joined" joined_schema ([] : list (Predicate unit)) [] [mkUniqueConstraint ["a"; "b"] false] = Ok t ∧
  (ensureConstraintIndexes (λ z, z) Z.add Z.sub (mkState t None)).1 =
    Throw (runtime_error "failed to create constraint index __uq_a_b").
Proof. eexists. split; reflexivity. Qed.

(** An index with a reserved name is not counted among the dependents of its column:
    DROP COLUMN then throws after the rows, the versions and the schema have lost
    the column. *)
Lemma reserved_index_drop_throws : ∃ t,
  Table_new vrs_empty "spare" spare_schema ([] : list (Predicate unit)) [] [] = Ok t ∧
  let s0 := items_run [Do_insert [VInt 1; VString "x"] 1; Do_createIndex "__uq_mine" ["note"]] (mkState t None) in
  let '(r, s1) := dropColumn (λ z, z) Z.add Z.sub "note" None false s0 in
  r = Throw (runtime_error "index still references dropped column") ∧
  (Table_rowsSnapshot s1).1 = Ok [[VInt 1]] ∧ length (t_schema (st_table s1)) = 1.
Proof. eexists. split; [reflexivity|]. vm_compute. done. Qed.
