(* ===== verification/TablePages.v ===== *)
(** * Tables as pages

    The page operations of [src/storage/table_snapshot_io.cpp] and
    [table_persist.cpp], on a table whose row store is the page row store: the
    export and the restore of its heap pages and index pages, the capture of what
    changed since the last capture, and the redo of such a capture. *)

From S2P Require Import Prelude Value BinaryIO BufferPool PageCodec VectorRowStore PageRowStore TransactionManager Mvcc.
From S2P Require Import StringPattern HashIndex BTreeIndex IndexExpression Predicate IndexManager Histogram Table.
Local Open Scope nat_scope.

Record IndexStoreSnapshot : Type := mkIndexStoreSnapshot {
  iss_name : string;
  iss_column : string;
  iss_btree : BTreeIndexSnapshot;
  iss_hash : HashIndexSnapshot
}.

Record PageImageCapture : Type := mkPageImageCapture {
  pic_capacity : nat;
  pic_freeList : list RowId;
  pic_heapPages : list (PageId * bytes);
  pic_btreeIndexes : list (string * BTreeIndexSnapshot);
  pic_hashIndexes : list (string * HashIndexSnapshot)
}.

Section pages.
Context {Select : Type}.
Context (int_to_double : Z → Z) (double_add double_sub : Z → Z → Z) (double_chars : Z → chars).
Abbreviation Table := (Table Select PageRowStore).
Abbreviation op := (op Select PageRowStore).
#[local] Existing Instances op_ret op_bind.

(** ** Export and restore *)

Definition exportPageStore : op PageStoreSnapshot := on_table (λ t, exportPages (t_rowStore t)).

Fixpoint validate_page_rows (t : Table) (rows : list Row) : result unit :=
  match rows with
  | [] => Ok tt
  | row :: rows =>
      _ ← (if Nat.eqb (length row) 0 then Ok tt else validateRow double_chars t row);
      validate_page_rows t rows
  end.

Fixpoint validate_pages (t : Table) (pages : list (PageId * bytes)) : result unit :=
  match pages with
  | [] => Ok tt
  | (_, payload) :: pages =>
      rows ← decodePage payload;
      _ ← validate_page_rows t rows;
      validate_pages t pages
  end.

Definition Table_replaceFromPages (snapshot : PageStoreSnapshot) (rebuildIndexesAfter : bool) : op unit :=
  t ← on_table id;
  _ ← lift (validatePageStoreLayout snapshot);
  _ ← lift (validate_pages t (ps_pages snapshot));
  _ ← replace_store (replaceFromPages snapshot);
  _ ← refreshVersionsFromStore;
  if rebuildIndexesAfter then Table_rebuildIndexes int_to_double double_add double_sub else mret tt.

Fixpoint column_names_at (schema : Schema) (columnIndexes : list nat) : result (list string) :=
  match columnIndexes with
  | [] => Ok []
  | i :: columnIndexes =>
      match schema !! i with
      | None => Throw (out_of_range "vector index out of range")
      | Some c => rest ← column_names_at schema columnIndexes; Ok (col_name c :: rest)
      end
  end.

Definition export_index (im : IndexManager) (schema : Schema) (name : string) (columnIndexes : list nat)
  : result IndexStoreSnapshot :=
  columns ← column_names_at schema columnIndexes;
  column ← encodeIndexDefinitionColumns double_chars columns (smap_find name (im_indexExpressions im));
  b ← smap_at name (im_orderedIndexes im);
  h ← smap_at name (im_indexes im);
  Ok (mkIndexStoreSnapshot name (implode column) (bt_exportPages b) (exportBuckets h)).

Definition exportIndexPages : op (list IndexStoreSnapshot) :=
  t ← on_table id;
  lift (mapM (λ e, export_index (t_indexManager t) (t_schema t) e.1 e.2) (im_indexColumns (t_indexManager t))).

Definition set_tree (name : string) (b : BTreeIndex) (im : IndexManager) : IndexManager :=
  im_with_indexes im (im_indexes im) (smap_set name b (im_orderedIndexes im)).
Definition set_hash (name : string) (h : HashIndex) (im : IndexManager) : IndexManager :=
  im_with_indexes im (smap_set name h (im_indexes im)) (im_orderedIndexes im).
Definition update_indexes (f : IndexManager → IndexManager) : op unit :=
  set_table (λ t, set_indexes (f (t_indexManager t)) t).

Fixpoint replaceIndexPages (entries : list IndexStoreSnapshot) : op unit :=
  match entries with
  | [] => mret tt
  | e :: entries =>
      im ← on_table t_indexManager;
      match smap_find (iss_name e) (im_indexes im), smap_find (iss_name e) (im_orderedIndexes im) with
      | Some h, Some b =>
          b ← lift (bt_replaceFromPages (iss_btree e) b);
          _ ← update_indexes (set_tree (iss_name e) b);
          _ ← update_indexes (set_hash (iss_name e) (replaceFromBuckets (iss_hash e) h));
          replaceIndexPages entries
      | _, _ =>
          throw (runtime_error (String.append "index page restore references unknown index " (iss_name e)))
      end
  end.

(** ** Capture and redo *)

Definition clear_index_marks (im : IndexManager) : IndexManager :=
  im_with_indexes im ((λ e, (e.1, HashIndex_clearDirtyPages e.2)) <$> im_indexes im)
    ((λ e, (e.1, bt_clearDirtyPages e.2)) <$> im_orderedIndexes im).

Definition clearDirtyTracking : op unit :=
  set_table (λ t, set_indexes (clear_index_marks (t_indexManager t)) (set_store (clearDirtyPages (t_rowStore t)) t)).

(** Taking the images of the changed indexes marks them clean. *)
Definition btree_images (indexes : list (string * BTreeIndex)) : list (string * BTreeIndexSnapshot) :=
  flat_map (λ e, if bt_hasDirtyPages e.2 then [(e.1, (bt_takeDirtyPages e.2).1)] else []) indexes.
Definition hash_images (indexes : list (string * HashIndex)) : list (string * HashIndexSnapshot) :=
  flat_map (λ e, if HashIndex_hasDirtyPages e.2 then [(e.1, (takeDirtyBuckets e.2).1)] else []) indexes.
Definition take_index_marks (im : IndexManager) : IndexManager :=
  im_with_indexes im
    ((λ e, (e.1, if HashIndex_hasDirtyPages e.2 then (takeDirtyBuckets e.2).2 else e.2)) <$> im_indexes im)
    ((λ e, (e.1, if bt_hasDirtyPages e.2 then (bt_takeDirtyPages e.2).2 else e.2)) <$> im_orderedIndexes im).

Definition takePageImageCapture : op PageImageCapture := λ s,
  let t := st_table s in
  let '(heapPages, store) := takeDirtyPages (t_rowStore t) in
  let im := t_indexManager t in
  (Ok (mkPageImageCapture (prs_capacity (t_rowStore t)) (prs_free (t_rowStore t)) heapPages
         (btree_images (im_orderedIndexes im)) (hash_images (im_indexes im))),
   mkState (set_indexes (take_index_marks im) (set_store store t)) (st_transactions s)).

Fixpoint apply_btrees (images : list (string * BTreeIndexSnapshot)) : op unit :=
  match images with
  | [] => mret tt
  | (name, snapshot) :: images =>
      im ← on_table t_indexManager;
      match smap_find name (im_orderedIndexes im) with
      | None => throw (runtime_error (String.append "page image redo references unknown btree index " name))
      | Some b =>
          b ← lift (bt_applyDirtyPages snapshot b);
          _ ← update_indexes (set_tree name b);
          apply_btrees images
      end
  end.

Fixpoint apply_hashes (images : list (string * HashIndexSnapshot)) : op unit :=
  match images with
  | [] => mret tt
  | (name, snapshot) :: images =>
      im ← on_table t_indexManager;
      match smap_find name (im_indexes im) with
      | None => throw (runtime_error (String.append "page image redo references unknown hash index " name))
      | Some h =>
          _ ← update_indexes (set_hash name (applyDirtyBuckets snapshot h));
          apply_hashes images
      end
  end.

Definition Table_applyPageImageRedo (hasHeapMeta : bool) (capacity : nat) (freeList : list RowId)
    (heapPages : list (PageId * bytes)) (btreeIndexes : list (string * BTreeIndexSnapshot))
    (hashIndexes : list (string * HashIndexSnapshot)) : op unit :=
  _ ← replace_store (applyPageImages (if hasHeapMeta then Some capacity else None)
                       (if hasHeapMeta then Some freeList else None) heapPages);
  _ ← apply_btrees btreeIndexes;
  _ ← apply_hashes hashIndexes;
  refreshVersionsFromStore.
End pages.
