(* ===== verification/TablePagesProof.v ===== *)
(** * Page-image redo of a table

    A replica that holds the rows of a table before an operation, with exact
    indexes, holds the rows after it, again with exact indexes, once the pages the
    operation changed are applied to it. *)

From S2P Require Import Prelude Value BinaryIO BufferPool PageCodec VectorRowStore PageRowStore PageRowStoreProof TransactionManager Mvcc.
From S2P Require Import StringPattern HashIndex BTreeIndex BTreeSpec IndexExpression Predicate IndexManager IndexManagerProof IndexRedo.
From S2P Require Import Histogram Table TableProof TablePages.
Local Open Scope nat_scope.

(** ** Operations keep the dirty marks of the indexes *)

Section keeps.
Context {Select S : Type} `{RowStore S}.
Context (i2d : Z → Z) (dadd dsub : Z → Z → Z) (dchars : Z → chars).
Abbreviation op := (op Select S).
Implicit Types R : IndexManager → Prop.

(** Whatever the outcome of [m], its index manager satisfies [R] again. *)
Definition keeps R {A} (m : op A) : Prop := ∀ s,
  R (t_indexManager (st_table s)) → R (t_indexManager (st_table (m s).2)).

Lemma keeps_bind R {A B} (m : op A) (f : A → op B) :
  keeps R m → (∀ a, keeps R (f a)) → keeps R (@mbind _ op_bind _ _ f m).
Proof.
  intros Hm Hf s Hs. unfold mbind, op_bind. specialize (Hm s Hs).
  destruct (m s) as [[a|e] s1]; [by apply Hf|done].
Qed.
Lemma keeps_ret R {A} (a : A) : keeps R (@mret _ op_ret _ a).
Proof. by intros s. Qed.
Lemma keeps_lift R {A} (r : result A) : keeps R (lift r).
Proof. by intros s. Qed.
Lemma keeps_on_table R {A} (f : Table Select S → A) : keeps R (on_table f).
Proof. by intros s. Qed.
Lemma keeps_row_store R {A} (f : S → result (A * S)) : keeps R (row_store f).
Proof. intros s Hs. unfold row_store. by destruct (f _) as [[a store]|]. Qed.
Lemma keeps_versions R {A} (f : MVCCRowStore → A * MVCCRowStore) : keeps R (versions f).
Proof. intros s Hs. unfold versions. by destruct (f _). Qed.
Lemma keeps_transactions R f : keeps R (transactions f).
Proof. by intros s. Qed.
Lemma keeps_gets R {A} (f : state Select S → A) : keeps R (λ s, (Ok (f s), s)).
Proof. by intros s. Qed.
Lemma keeps_indexes R {A} (f : IndexManager → S → result A * IndexManager * S) :
  (∀ im store, R im → R (f im store).1.2) → keeps R (indexes f).
Proof.
  intros Hf s Hs. unfold indexes. specialize (Hf _ (t_rowStore (st_table s)) Hs). by destruct (f _ _) as [[r im] store].
Qed.

(** The dirty marks are relative to [base], which has the same definitions. *)
Definition follows (base im : IndexManager) : Prop := im_since base im ∧ same_defs base im.

Lemma keeps_addRow base rowId : keeps (follows base) (Table_addRowToIndexes i2d dadd dsub rowId).
Proof.
  apply keeps_bind; [apply keeps_on_table|]. intros t. apply keeps_indexes. intros im store [Hs Hd].
  split; [by apply addRow_since|]. eapply same_defs_trans; [exact Hd|apply addRow_defs].
Qed.
Lemma keeps_rebuild base : keeps (follows base) (Table_rebuildIndexes i2d dadd dsub).
Proof.
  apply keeps_bind; [apply keeps_on_table|]. intros t. apply keeps_indexes. intros im store [Hs Hd].
  split; [by apply rebuild_since|]. eapply same_defs_trans; [exact Hd|].
  eapply same_defs_trans; [|apply add_rows_defs].
  split_and!; [done..| |]; simpl; rewrite <- list_fmap_compose; by apply list_fmap_ext.
Qed.
End keeps.

Create HintDb keeps.
#[local] Hint Resolve keeps_ret keeps_lift keeps_on_table keeps_row_store keeps_versions keeps_transactions
  keeps_gets keeps_addRow keeps_rebuild : keeps.

(** One statement of an operation at a time. *)
Ltac keep := repeat (intros; first
  [ solve [auto with keeps]
  | match goal with |- keeps _ (@mbind _ _ _ _ _ _) => apply keeps_bind end
  | match goal with |- context [match ?x with _ => _ end] => destruct x end ]).

Section operations.
Context {Select S : Type} `{RowStore S}.
Context (i2d : Z → Z) (dadd dsub : Z → Z → Z) (dchars : Z → chars).
Context (base : IndexManager).
Abbreviation kept := (keeps (Select := Select) (S := S) (follows base)).

Lemma keeps_stored rowId : kept (stored_row rowId).
Proof. unfold stored_row, throw. keep. Qed.
Lemma keeps_enforce_all cs row ex : kept (enforce_all cs row ex).
Proof. induction cs as [|c cs IH]; cbn [enforce_all]; [keep|]. apply keeps_bind; [unfold enforce_one; keep|done]. Qed.
Lemma keeps_enforce row ex : kept (enforceUniqueConstraintsUnlocked row ex).
Proof. unfold enforceUniqueConstraintsUnlocked. apply keeps_bind; [keep|]. intros. apply keeps_enforce_all. Qed.
Lemma keeps_record w i row : kept (record_image w i row).
Proof. unfold record_image. keep. Qed.
#[local] Hint Resolve keeps_stored keeps_enforce keeps_record : keeps.

Lemma keeps_insert row w : kept (Table_insert i2d dadd dsub dchars row w).
Proof. unfold Table_insert. keep. Qed.
Lemma keeps_erase i w : kept (Table_erase i2d dadd dsub i w).
Proof. unfold Table_erase. keep. Qed.
Lemma keeps_update i k value w : kept (Table_update i2d dadd dsub dchars i k value w).
Proof. unfold Table_update. keep. Qed.
End operations.

(** ** Applying index images *)

Lemma smap_set_middle {V} n (v w : V) D R : NoDup (D ++ (n, v) :: R).*1 →
  smap_set n w (D ++ (n, v) :: R) = D ++ (n, w) :: R.
Proof.
  rewrite fmap_app, fmap_cons. intros (Hd & Hx & Hr)%NoDup_app. apply NoDup_cons in Hr as [Hn Hr].
  assert (∀ m : list (string * V), n ∉ m.*1 → smap_set n w m = m) as Hid.
  { intros m. unfold smap_set. induction m as [|[k x] m IH]; [done|]. rewrite !fmap_cons. intros Hin.
    apply not_elem_of_cons in Hin as [Hk Hin]. simpl in *. rewrite IH by done.
    by rewrite (proj2 (String.eqb_neq k n)). }
  unfold smap_set. rewrite fmap_app, fmap_cons. simpl. rewrite String.eqb_refl.
  change (_ <$> D) with (smap_set n w D). change (_ <$> R) with (smap_set n w R). rewrite !Hid; [done..|].
  intros Hin. by apply (Hx n Hin), list_elem_of_here.
Qed.

Section apply.
Context {Select : Type}.
Context (i2d : Z → Z) (dadd dsub : Z → Z → Z) (dchars : Z → chars).
Abbreviation Table := (Table Select PageRowStore).
Abbreviation state := (state Select PageRowStore).
Implicit Types t : Table.
Implicit Types s : state.

Definition with_im (im : IndexManager) (s : state) : state :=
  mkState (set_indexes im (st_table s)) (st_transactions s).
Definition im_of (s : state) : IndexManager := t_indexManager (st_table s).

Lemma apply_btrees_ok P R D s : im_orderedIndexes (im_of s) = D ++ R → NoDup (D ++ R).*1 →
  Forall2 (λ e r, r.1 = e.1 ∧ (bt_hasDirtyPages e.2 = true →
    bt_applyDirtyPages (bt_takeDirtyPages e.2).1 r.2 = Ok (tree_replayed e.2 r.2))) P R →
  apply_btrees (btree_images P) s =
  (Ok tt, with_im (im_with_indexes (im_of s) (im_indexes (im_of s))
                     (D ++ zip_with (λ e r, (r.1, tree_replayed e.2 r.2)) P R)) s).
Proof.
  intros Hs Hnd HF. revert D s Hs Hnd. induction HF as [|[n b] [n' r] P R [Hn Hb] HF IH]; intros D s Hs Hnd; [|simpl in Hn].
  - simpl. rewrite <- Hs. by destruct s as [[????? ? []]].
  - subst n'. unfold btree_images. cbn [flat_map fst snd zip_with].
    destruct (bt_hasDirtyPages b) eqn:Ed; simpl in Hb.
    + cbn [app apply_btrees]. unfold mbind at 1, op_bind, on_table.
      fold (im_of s). rewrite (smap_find_NoDup n r) by (rewrite Hs; first [exact Hnd | apply elem_of_app; right; left]).
      unfold mbind, lift. rewrite Hb by done. unfold update_indexes, set_table. cbn [st_table st_transactions].
      unfold set_tree. fold (im_of s). rewrite Hs, smap_set_middle by (by rewrite <- Hs, Hs).
      rewrite (IH (D ++ [(n, tree_replayed b r)])).
      * unfold with_im, im_of. simpl. by rewrite <- app_assoc.
      * simpl. by rewrite <- app_assoc.
      * rewrite <- app_assoc. rewrite fmap_app, fmap_cons in *. done.
    + rewrite app_nil_l. fold (btree_images P). rewrite (IH (D ++ [(n, r)])).
      * assert (tree_replayed b r = r) as -> by (unfold tree_replayed; by rewrite Ed). by rewrite <- app_assoc.
      * by rewrite <- app_assoc.
      * by rewrite <- app_assoc.
Qed.

Lemma apply_hashes_ok P R D s : im_indexes (im_of s) = D ++ R → NoDup (D ++ R).*1 →
  Forall2 (λ e r, r.1 = e.1) P R →
  apply_hashes (hash_images P) s =
  (Ok tt, with_im (im_with_indexes (im_of s) (D ++ zip_with (λ e r, (r.1, hash_replayed e.2 r.2)) P R)
                     (im_orderedIndexes (im_of s))) s).
Proof.
  intros Hs Hnd HF. revert D s Hs Hnd. induction HF as [|[n h] [n' r] P R Hn HF IH]; intros D s Hs Hnd; [|simpl in Hn].
  - simpl. rewrite <- Hs. by destruct s as [[????? ? []]].
  - subst n'. unfold hash_images. cbn [flat_map fst snd zip_with].
    destruct (HashIndex_hasDirtyPages h) eqn:Ed.
    + cbn [app apply_hashes]. unfold mbind at 1, op_bind, on_table.
      fold (im_of s). rewrite (smap_find_NoDup n r) by (rewrite Hs; first [exact Hnd | apply elem_of_app; right; left]).
      unfold mbind, lift. unfold update_indexes, set_table. cbn [st_table st_transactions].
      unfold set_hash. fold (im_of s). rewrite Hs, smap_set_middle by (by rewrite <- Hs, Hs).
      rewrite (IH (D ++ [(n, hash_replayed h r)])).
      * unfold with_im, im_of. simpl. by rewrite <- app_assoc.
      * simpl. unfold hash_replayed. rewrite Ed. by rewrite <- app_assoc.
      * rewrite <- app_assoc. rewrite fmap_app, fmap_cons in *. done.
    + rewrite app_nil_l. fold (hash_images P). rewrite (IH (D ++ [(n, r)])).
      * assert (hash_replayed h r = r) as -> by (unfold hash_replayed; by rewrite Ed). by rewrite <- app_assoc.
      * by rewrite <- app_assoc.
      * by rewrite <- app_assoc.
Qed.
End apply.

(** ** Redo of the index manager *)

Lemma zip_replayed {V} (A B : string → V → Prop) (R : V → V → Prop) (f : V → V → V) (l0 l1 l2 : list (string * V)) :
  (∀ k x y z, A k x → B k y → R x y → A k z → B k (f y z)) →
  Forall (λ e, A e.1 e.2) l0 → Forall (λ e, B e.1 e.2) l1 → Forall (λ e, A e.1 e.2) l2 →
  Forall2 (λ e0 e, e.1 = e0.1 ∧ R e0.2 e.2) l0 l1 → l2.*1 = l0.*1 →
  Forall (λ e, B e.1 e.2) (zip_with (λ e r, (r.1, f e.2 r.2)) l1 l2) ∧
  (zip_with (λ e r, (r.1, f e.2 r.2)) l1 l2).*1 = l2.*1 ∧ Forall2 (λ e r, r.1 = e.1) l1 l2.
Proof.
  intros Hf H0 H1 H2 HF. revert l2 H2. induction HF as [|[k x] [k' y] l0 l1 [Hk Hr] HF IH]; intros [|[k2 z] l2] H2 Hkeys;
    try discriminate Hkeys; [by split_and!|].
  simpl in Hk, Hr. rewrite !fmap_cons in Hkeys. injection Hkeys as -> Hkeys. subst k'.
  apply Forall_cons in H0 as [Hx H0], H1 as [Hy H1], H2 as [Hz H2]. simpl in *.
  destruct (IH H0 H1 l2 H2 Hkeys) as (HB & Hks & HF2). split_and!; [|by f_equal|by constructor].
  constructor; [|done]. simpl. exact (Hf _ x y z Hx Hy Hr Hz).
Qed.

Section im_redo.
Context (i2d : Z → Z) (dadd dsub : Z → Z → Z) (schema : Schema).

(** The indexes of the replica after the redo of [im]. *)
Definition im_replayed (im imr : IndexManager) : IndexManager :=
  im_with_indexes imr
    (zip_with (λ e r, (r.1, hash_replayed e.2 r.2)) (im_indexes im) (im_indexes imr))
    (zip_with (λ e r, (r.1, tree_replayed e.2 r.2)) (im_orderedIndexes im) (im_orderedIndexes imr)).

Lemma im_redo base im imr v v' :
  im_reflects i2d dadd dsub schema base v → im_reflects i2d dadd dsub schema im v' →
  im_reflects i2d dadd dsub schema imr v → im_since base im → same_defs base im → same_defs base imr →
  im_reflects i2d dadd dsub schema (im_replayed im imr) v' ∧ same_defs imr (im_replayed im imr) ∧
  Forall2 (λ e r, r.1 = e.1) (im_indexes im) (im_indexes imr) ∧
  Forall2 (λ e r, r.1 = e.1 ∧ (bt_hasDirtyPages e.2 = true →
    bt_applyDirtyPages (bt_takeDirtyPages e.2).1 r.2 = Ok (tree_replayed e.2 r.2)))
    (im_orderedIndexes im) (im_orderedIndexes imr).
Proof.
  intros [B1 B2] [I1 I2] [R1 R2] [Sh St] Hdi Hdr.
  set (hl := λ w name, index_log_of (hkeys i2d dadd dsub schema base name) w).
  set (ol := λ w name, index_log_of (okeys i2d dadd dsub schema base name) w).
  assert (∀ im' w, same_defs base im' → ∀ name,
    index_log_of (hkeys i2d dadd dsub schema im' name) w = hl w name ∧
    index_log_of (okeys i2d dadd dsub schema im' name) w = ol w name) as Hsame.
  { intros im' w Hs name. by apply (index_log_same i2d dadd dsub schema base im' w name). }
  destruct (zip_replayed (λ name, hash_holds (hl v name)) (λ name, hash_holds (hl v' name)) hash_since hash_replayed
    (im_indexes base) (im_indexes im) (im_indexes imr)) as (Zh & Kh & Fh).
  { intros name x y z. apply hash_redo. }
  { exact B1. }
  { eapply Forall_impl; [exact I1|]. intros e He. cbv beta in *. by rewrite (proj1 (Hsame im v' Hdi e.1)) in He. }
  { eapply Forall_impl; [exact R1|]. intros e He. cbv beta in *. by rewrite (proj1 (Hsame imr v Hdr e.1)) in He. }
  { done. }
  { apply Hdr. }
  destruct (zip_replayed (λ name, tree_holds (ol v name)) (λ name, tree_holds (ol v' name)) tree_since tree_replayed
    (im_orderedIndexes base) (im_orderedIndexes im) (im_orderedIndexes imr)) as (Zt & Kt & Ft).
  { intros name x y z. apply tree_redo. }
  { exact B2. }
  { eapply Forall_impl; [exact I2|]. intros e He. cbv beta in *. by rewrite (proj2 (Hsame im v' Hdi e.1)) in He. }
  { eapply Forall_impl; [exact R2|]. intros e He. cbv beta in *. by rewrite (proj2 (Hsame imr v Hdr e.1)) in He. }
  { done. }
  { apply Hdr. }
  assert (same_defs imr (im_replayed im imr)) as Hd by (by split_and!).
  split_and!; [|done|done|].
  - assert (same_defs base (im_replayed im imr)) as Hdb by (by eapply same_defs_trans).
    split; simpl.
    + eapply Forall_impl; [exact Zh|]. intros e He. cbv beta in *. by rewrite (proj1 (Hsame _ v' Hdb e.1)).
    + eapply Forall_impl; [exact Zt|]. intros e He. cbv beta in *. by rewrite (proj2 (Hsame _ v' Hdb e.1)).
  - clear -Ft I2. induction Ft as [|e r l1 l2 Hk Ft IH]; [constructor|].
    apply Forall_cons in I2 as [He I2]. constructor; [|by apply IH]. split; [done|]. by eapply tree_image.
Qed.
End im_redo.

(** ** The versions after a redo *)

Section refresh.
Context {Select S : Type} `{RowStoreLaws S}.
Implicit Types t : Table Select S.

Definition refreshed (v : VectorRowStore) (vs : MVCCRowStore) (ids : list RowId) : MVCCRowStore :=
  foldl (λ vs i, match vrs_get i v with Some row => mvcc_write i row kSystemTransactionId vs | None => vs end) vs ids.

Lemma refresh_rows_runs ids t v im vs tm s : at_state t v im vs tm s →
  runs (refresh_rows ids) s (Ok tt) (at_state t v im (refreshed v vs ids) tm).
Proof.
  revert vs s. induction ids as [|i ids IH]; intros vs s Hs; cbn [refresh_rows]; [by apply runs_ret|].
  eapply runs_bind; [eapply get_runs, Hs|]. intros s1 Hs1. cbv beta in *.
  unfold refreshed. cbn [foldl]. destruct (vrs_get i v) as [row|].
  - eapply runs_bind; [eapply runs_versions, Hs1|]. intros s2 Hs2. by apply IH.
  - eapply runs_bind; [by apply runs_ret|]. intros s2 Hs2. by apply IH.
Qed.

Lemma refreshed_latest v ids i : latest (refreshed v ∅ ids) i = if decide (i ∈ ids) then vrs_get i v else None.
Proof.
  unfold refreshed. induction ids as [|j ids IH] using rev_ind; [done|]. rewrite foldl_app. cbn [foldl].
  destruct (vrs_get j v) as [row|] eqn:Ej.
  - rewrite latest_write, IH. destruct (decide (i = j)) as [->|Hne].
    + rewrite decide_True by set_solver. done.
    + apply decide_ext. set_solver.
  - rewrite IH. destruct (decide (i = j)) as [->|Hne].
    + rewrite Ej. by repeat case_decide.
    + apply decide_ext. set_solver.
Qed.

Lemma refresh_runs t v im vs tm s : at_state t v im vs tm s →
  runs refreshVersionsFromStore s (Ok tt) (λ s', ∃ vs', at_state t v im vs' tm s' ∧ ∀ i, latest vs' i = vrs_get i v).
Proof.
  intros Hs. unfold refreshVersionsFromStore. eapply runs_bind; [eapply runs_versions, Hs|]. intros s1 Hs1. simpl in Hs1.
  eapply runs_table; [exact Hs1|]. intros store Hrep. simpl.
  eapply runs_mono; [by apply refresh_rows_runs|]. intros s2 Hs2. eexists. split; [exact Hs2|].
  intros i. unfold mvcc_clear. rewrite refreshed_latest. case_decide as Hi; [done|].
  rewrite elem_of_seq in Hi. rewrite (rs_capacity_sim _ _ Hrep) in Hi.
  unfold vrs_get, vrs_lookup. rewrite lookup_ge_None_2; [done|]. unfold vrs_capacity in Hi. lia.
Qed.
End refresh.

(** ** Redo of one operation *)

Lemma applyPageImages_rpp capacity freeList pages s s' :
  applyPageImages capacity freeList pages s = Ok s' → prs_rowsPerPage s' = prs_rowsPerPage s.
Proof.
  unfold applyPageImages. destruct (match capacity with Some _ => _ | None => _ end) as [slots|]; cbn [mbind result_bind]; [|done].
  set (s1 := foldl _ _ pages). intros E.
  assert (prs_rowsPerPage s1 = prs_rowsPerPage s) as <-.
  { subst s1. set (s0 := with_slots _ _ _ _). change (prs_rowsPerPage s) with (prs_rowsPerPage s0). clearbody s0. clear E.
    revert s0. induction pages as [|[p b] pages IH]; intros s0; [done|]. cbn [foldl]. by rewrite IH. }
  unfold rebuildSlotsFromDirectory in E. destruct (rebuild_loop _ _ _ _ _) as [[slots' live]|]; cbn [mbind result_bind] in E; [|done].
  by injection E as <-.
Qed.

Section table_redo.
Context {Select : Type}.
Context (i2d : Z → Z) (dadd dsub : Z → Z → Z) (dchars : Z → chars).
Abbreviation Table := (Table Select PageRowStore).
Abbreviation state := (state Select PageRowStore).
Abbreviation op := (op Select PageRowStore).
Implicit Types t : Table.

(** What DDL determines: the rest of two tables may differ. *)
Definition static t := (t_name t, t_schema t, t_checkConstraints t, t_foreignKeys t, t_uniqueConstraints t).

Lemma hinv_static t t' v im : static t = static t' → hinv i2d dadd dsub dchars t v im → hinv i2d dadd dsub dchars t' v im.
Proof.
  destruct t, t'. intros E. unfold static in E. simpl in E. injection E as -> -> -> -> ->.
  intros [[Hwf Hr Hrows Hnd Hun] Hkeys Huniq]. split; [by split|done|done].
Qed.

Lemma good_rows_nonempty t v im : hinv i2d dadd dsub dchars t v im → t_schema t ≠ [] → rows_nonempty (vrs_rows v).
Proof.
  intros Hinv Hs. apply Forall_lookup. intros i o Ho ->.
  destruct (good_row_shape dchars t [] (tc_rows _ _ _ _ _ _ _ (hi_core _ _ _ _ _ _ _ Hinv) i [] ltac:(
    unfold vrs_get, vrs_lookup; by rewrite Ho))) as (Hl & _). simpl in Hl. by destruct (t_schema t).
Qed.

(** A table whose pages and indexes are marked relative to the rows [v] and the
    indexes [base]. *)
Record marked_since t (v : VectorRowStore) (base : IndexManager) (rpp : nat) (v' : VectorRowStore) : Prop := {
  ms_store : prs_since rpp (vrs_rows v) (t_rowStore t) v';
  ms_inv : hinv i2d dadd dsub dchars t v' (t_indexManager t);
  ms_base : im_reflects i2d dadd dsub (t_schema t) base v;
  ms_since : im_since base (t_indexManager t);
  ms_defs : same_defs base (t_indexManager t)
}.

(** A replica with the rows [v]. *)
Record replica_of t tr (v : VectorRowStore) : Prop := {
  ro_static : static tr = static t;
  ro_rep : prs_rep (t_rowStore tr) v;
  ro_inv : hinv i2d dadd dsub dchars tr v (t_indexManager tr);
  ro_defs : same_defs (t_indexManager tr) (t_indexManager t);
  ro_rpp : prs_rowsPerPage (t_rowStore tr) = prs_rowsPerPage (t_rowStore t)
}.

Definition apply_capture (c : PageImageCapture) : op unit :=
  Table_applyPageImageRedo true (pic_capacity c) (pic_freeList c) (pic_heapPages c) (pic_btreeIndexes c)
    (pic_hashIndexes c).

Lemma marks_reflect (f : HashIndex → HashIndex) (g : BTreeIndex → BTreeIndex) schema im v :
  (∀ L h, hash_holds L h → hash_holds L (f h)) → (∀ L b, tree_holds L b → tree_holds L (g b)) →
  im_reflects i2d dadd dsub schema im v →
  let im' := im_with_indexes im ((λ e, (e.1, f e.2)) <$> im_indexes im) ((λ e, (e.1, g e.2)) <$> im_orderedIndexes im) in
  im_reflects i2d dadd dsub schema im' v ∧ same_defs im im'.
Proof.
  intros Hf Hg [Hh Ht] im'. assert (same_defs im im') as Hd.
  { split_and!; [done..| |]; simpl; rewrite <- list_fmap_compose; by apply list_fmap_ext. }
  split; [|done]. split; simpl; apply Forall_fmap; eapply Forall_impl; [exact Hh| |exact Ht|]; intros e He; simpl.
  - rewrite (proj1 (index_log_same i2d dadd dsub schema im im' v e.1 Hd)). by apply Hf.
  - rewrite (proj2 (index_log_same i2d dadd dsub schema im im' v e.1 Hd)). by apply Hg.
Qed.

Lemma hash_holds_clean L h : hash_holds L h → hash_holds L (HashIndex_clearDirtyPages h).
Proof. intros (l & Hr & El). exists l. split; [by apply hi_rep_clearDirty|done]. Qed.

Lemma clear_marks_reflect schema im v : im_reflects i2d dadd dsub schema im v →
  im_reflects i2d dadd dsub schema (clear_index_marks im) v ∧ same_defs im (clear_index_marks im).
Proof. apply marks_reflect; [apply hash_holds_clean|apply tree_holds_clean]. Qed.

Lemma take_marks_reflect schema im v : im_reflects i2d dadd dsub schema im v →
  im_reflects i2d dadd dsub schema (take_index_marks im) v ∧ same_defs im (take_index_marks im).
Proof.
  apply (marks_reflect (λ h, if HashIndex_hasDirtyPages h then (takeDirtyBuckets h).2 else h)
    (λ b, if bt_hasDirtyPages b then (bt_takeDirtyPages b).2 else b)).
  - intros L h Hh. destruct (HashIndex_hasDirtyPages h); [by apply hash_holds_clean|done].
  - intros L b Hb. unfold bt_takeDirtyPages. destruct (bt_hasDirtyPages b); [by apply tree_holds_clean|done].
Qed.

(** Other indexes with the same definitions and contents. *)
Lemma hinv_indexes t v im im' : hinv i2d dadd dsub dchars t v im → same_defs im im' →
  im_reflects i2d dadd dsub (t_schema t) im' v → hinv i2d dadd dsub dchars t v im'.
Proof.
  intros [[Hwf Hr Hrows Hnd Hun] Hkeys Huniq] Hd Hr'. split; [split| |]; try done.
  - by eapply same_defs_wf.
  - intros row Hrow. eapply same_defs_indexable; [exact Hd|by apply Hkeys].
Qed.

(** Bringing a replica of the rows before an operation up to date. *)
Lemma capture_replays t tr v base rpp v' tm tmr : marked_since t v base rpp v' → replica_of t tr v → t_schema t ≠ [] →
  ∃ c t' tr', takePageImageCapture (mkState t tm) = (Ok c, mkState t' tm) ∧
    apply_capture c (mkState tr tmr) = (Ok tt, mkState tr' tmr) ∧
    t' = with_parts t (t_rowStore t') (t_indexManager t') (t_versions t) ∧
    prs_rep (t_rowStore t') v' ∧ hinv i2d dadd dsub dchars t' v' (t_indexManager t') ∧
    replica_of t' tr' v' ∧ (∀ i, latest (t_versions tr') i = vrs_get i v') ∧
    t_statistics tr' = t_statistics tr.
Proof.
  intros [Hst Hinv Hb Hsince Hdefs] [Hstat Hrep Hrinv Hrdefs Hrpp] Hne.
  pose proof Hst as [_ Erpp _ _].
  destruct (redo_dirty_pages _ _ _ _ (t_rowStore tr) v Hst Hrep eq_refl) as (rstore & Eapp & Hrrep & _).
  { by rewrite Hrpp. }
  { eapply good_rows_nonempty; [exact Hrinv|]. unfold static in Hstat. congruence. }
  assert (t_schema tr = t_schema t) as Hsch by (unfold static in Hstat; congruence).
  assert (same_defs base (t_indexManager tr)) as Hbr.
  { destruct Hdefs as (D1 & D2 & D3 & D4), Hrdefs as (R1 & R2 & R3 & R4). split_and!; congruence. }
  pose proof (tc_reflects _ _ _ _ _ _ _ (hi_core _ _ _ _ _ _ _ Hinv)) as Href.
  pose proof (tc_reflects _ _ _ _ _ _ _ (hi_core _ _ _ _ _ _ _ Hrinv)) as Hrref. rewrite Hsch in Hrref.
  destruct (im_redo i2d dadd dsub (t_schema t) base (t_indexManager t) (t_indexManager tr) v v' Hb Href Hrref Hsince Hdefs Hbr)
    as (Hnew & Hdn & Fh & Ft).
  destruct (take_marks_reflect (t_schema t) (t_indexManager t) v' Href) as [Htake Hdt].
  pose proof (tc_wf _ _ _ _ _ _ _ (hi_core _ _ _ _ _ _ _ Hrinv)) as Hwf.
  set (imr := im_replayed (t_indexManager t) (t_indexManager tr)) in *.
  set (tr1 := set_indexes imr (set_store rstore tr)).
  destruct (@refresh_runs Select PageRowStore _ (since_laws (prs_rowsPerPage rstore) (vrs_rows v'))
    tr1 v' imr (t_versions tr) tmr (mkState tr1 tmr)) as (s2 & E2 & vs & (store2 & -> & Hrep2) & Hvs).
  { exists rstore. split; [by destruct tr|by apply prs_since_refl]. }
  eexists _, _, _. split; [reflexivity|]. split.
  { unfold apply_capture, Table_applyPageImageRedo. cbn [pic_capacity pic_freeList pic_heapPages pic_btreeIndexes pic_hashIndexes].
    unfold mbind at 1, op_bind at 1, replace_store, row_store. cbn [st_table st_transactions].
    unfold takeDirtyPages in Eapp. cbn [fst] in Eapp. rewrite Eapp. cbn [mbind result_bind].
    unfold mbind at 1, op_bind at 1.
    rewrite (apply_btrees_ok (im_orderedIndexes (t_indexManager t)) (im_orderedIndexes (t_indexManager tr)) []);
      [|done|simpl; rewrite (iw_ordered _ _ Hwf); apply Hwf|done].
    unfold mbind at 1, op_bind at 1.
    rewrite (apply_hashes_ok (im_indexes (t_indexManager t)) (im_indexes (t_indexManager tr)) []);
      [|done|simpl; rewrite (iw_hash _ _ Hwf); apply Hwf|done].
    exact E2. }
  split; [reflexivity|]. cbn [t_rowStore t_indexManager set_store set_indexes with_parts].
  split; [by apply clearDirtyPages_rep; apply Hst|].
  split; [|split; [|by split]].
  - apply (hinv_static t); [reflexivity|]. eapply hinv_indexes; [exact Hinv|exact Hdt|exact Htake].
  - split; cbn.
    + exact Hstat.
    + apply Hrep2.
    + eapply (hinv_static t); [by rewrite <- Hstat|]. eapply hinv_indexes; [exact Hinv| |exact Hnew].
      eapply same_defs_trans; [|exact Hdn].
      destruct Hrdefs as (R1 & R2 & R3 & R4). split_and!; congruence.
    + eapply same_defs_trans; [|exact Hdt]. 
      destruct Hrdefs as (R1 & R2 & R3 & R4), Hdn as (N1 & N2 & N3 & N4). split_and!; congruence.
    + rewrite (psn_rpp _ _ _ _ Hrep2), (applyPageImages_rpp _ _ _ _ _ Eapp). exact Hrpp.
Qed.
End table_redo.
