(* ===== verification/Database.v ===== *)
(** * Databases

    [src/storage/database.cpp] and the part of [Table::renameColumn] that visits
    the other tables: a database is a name and a [std::map] of tables.

    Tables are shared objects in the code.  A table is reachable from one database
    or, once detached, from one undo record, never from both, so the model keeps
    the table itself in the map; a pointer to a table of the database is its key.
    [M St A] is the exception-and-state monad of the files above the tables: an
    exception keeps the changes made so far. *)

From S2P Require Import Prelude Value VectorRowStore TransactionManager Mvcc.
From S2P Require Import StringPattern HashIndex BTreeIndex IndexExpression Predicate IndexManager Histogram Table TableSchema.
Local Open Scope nat_scope.

(** ** State and exceptions *)

Definition M (St A : Type) : Type := St → result A * St.

#[export] Instance M_ret {St} : MRet (M St) := λ A a s, (Ok a, s).
#[export] Instance M_bind {St} : MBind (M St) := λ A B f m s,
  match m s with
  | (Ok a, s) => f a s
  | (Throw e, s) => (Throw e, s)
  end.

Definition gets {St A} (f : St → A) : M St A := λ s, (Ok (f s), s).
Definition modify {St} (f : St → St) : M St unit := λ s, (Ok tt, f s).
Definition raise {St A} (e : exn) : M St A := λ s, (Throw e, s).
Definition liftM {St A} (r : result A) : M St A := λ s, (r, s).

(** Loops: [mapM_] stops at the first exception. *)
Fixpoint mapM_ {St A} (f : A → M St unit) (l : list A) : M St unit :=
  match l with
  | [] => mret tt
  | a :: l => _ ← f a; mapM_ f l
  end.

Section database.
Context {Select S : Type} `{RowStore S}.
Context (int_to_double : Z → Z) (double_add double_sub : Z → Z → Z) (double_chars : Z → chars).
(** What [makePageRowStore] returns. *)
Context (newStore : S).
Abbreviation Table := (Table Select S).
Abbreviation op := (op Select S).
Abbreviation Predicate := (Predicate Select).
#[local] Existing Instances op_ret op_bind.

Record Database : Type := mkDatabase {
  db_name : string;
  db_tables : list (string * Table)
}.

Definition Database_new (name : string) : result Database :=
  _ ← throw_if (String.eqb name EmptyString) (invalid_argument "database name cannot be empty");
  Ok (mkDatabase name []).

Definition set_tables (f : list (string * Table) → list (string * Table)) (db : Database) : Database :=
  mkDatabase (db_name db) (f (db_tables db)).

(** The table is built before [try_emplace] looks the name up. *)
Definition createTable (name : string) (schema : Schema) (checks : list Predicate)
    (foreignKeys : list ForeignKeyConstraint) (uniques : list UniqueConstraint) : M Database bool := λ db,
  match Table_new newStore name schema checks foreignKeys uniques with
  | Throw e => (Throw e, db)
  | Ok t => (Ok (negb (smap_contains name (db_tables db))), set_tables (smap_emplace name t) db)
  end.

Definition detachTable (name : string) : M Database (option Table) := λ db,
  (Ok (smap_find name (db_tables db)), set_tables (smap_erase name) db).

Definition dropTable (name : string) : M Database bool :=
  t ← detachTable name;
  mret (bool_decide (is_Some t)).

(** [None] is the null pointer. *)
Definition attachTable (table : option Table) : M Database bool :=
  match table with
  | None => mret false
  | Some t => λ db,
      (Ok (negb (smap_contains (t_name t) (db_tables db))), set_tables (smap_emplace (t_name t) t) db)
  end.

(** The entry is erased before [setName], so an exception there loses the table. *)
Definition renameTable (oldName newName : string) : M Database bool := λ db,
  match smap_find oldName (db_tables db) with
  | None => (Ok false, db)
  | Some t =>
      if smap_contains newName (db_tables db) then (Ok false, db)
      else
        let db := set_tables (smap_erase oldName) db in
        match setName newName (mkState t None) with
        | (Throw e, _) => (Throw e, db)
        | (Ok _, s) => (Ok true, set_tables (smap_emplace newName (st_table s)) db)
        end
  end.

Definition Database_table (name : string) (db : Database) : option Table := smap_find name (db_tables db).
Definition listTables (db : Database) : list string := (db_tables db).*1.
Definition Database_tables (db : Database) : list Table := (db_tables db).*2.

(** ** Operations on a table of the database *)

Record catalog : Type := mkCatalog {
  cat_database : Database;
  cat_transactions : option TransactionManager
}.

(** A call through a pointer to the table with key [name]; the pointer is valid
    as long as the table is in the database. *)
Definition call {A} (name : string) (m : op A) : M catalog A := λ c,
  match Database_table name (cat_database c) with
  | None => (Throw (logic_error "null table dereferenced"), c)
  | Some t =>
      let '(r, s) := m (mkState t (cat_transactions c)) in
      (r, mkCatalog (set_tables (smap_set name (st_table s)) (cat_database c)) (st_transactions s))
  end.

(** [renameColumn]: the table itself, then the foreign keys of the others. *)
Definition renameColumn (key oldName newName : string) : M catalog unit :=
  others ← call key (renameColumn_local int_to_double double_add double_sub oldName newName);
  if negb others then mret tt
  else
    name ← call key (on_table t_name);
    keys ← gets (λ c, listTables (cat_database c));
    mapM_ (λ other,
      if String.eqb other key then mret tt
      else call other (set_table (rewriteForeignKeyParentColumn name oldName newName))) keys.

(** ** [clone] *)

(** An operation on the copy of a table, which no transaction sees. *)
Definition on_copy {A} (m : op A) (t : Table) : result Table :=
  match m (mkState t None) with
  | (Ok _, s) => Ok (st_table s)
  | (Throw e, _) => Throw e
  end.

Fixpoint clone_indexes (definitions : list IndexDefinition) : op unit :=
  match definitions with
  | [] => mret tt
  | d :: definitions =>
      ok ← match id_expression d with
           | Some e => createIndex_expr int_to_double double_add double_sub (id_name d) e
           | None => createIndex int_to_double double_add double_sub (id_name d) (id_columns d)
           end;
      _ ← lift (throw_if (negb ok) (runtime_error "failed to clone index"));
      clone_indexes definitions
  end.

(** The indexes and rows of the copy; reading the source may move its pages in
    the cache. *)
Definition clone_contents (copy : Table) : op Table :=
  definitions ← Table_indexDefinitions;
  copy ← lift (on_copy (clone_indexes definitions) copy);
  capacity ← Table_capacity;
  freeList ← Table_freeList;
  entries ← Table_liveEntries;
  copy ← lift (on_copy (Table_replaceSparse int_to_double double_add double_sub double_chars
                          capacity freeList entries) copy);
  lift (on_copy (ensureConstraintIndexes int_to_double double_add double_sub) copy).

Definition clone_table (key : string) (copy : Database) : M catalog Database :=
  source ← call key (on_table id);
  let '(created, copy) := createTable (t_name source) (t_schema source) (t_checkConstraints source)
                            (t_foreignKeys source) (t_uniqueConstraints source) copy in
  created ← liftM created;
  if negb created then raise (runtime_error "failed to clone table")
  else
    destination ← match Database_table (t_name source) copy with
                  | Some t => mret t
                  | None => raise (logic_error "null table dereferenced")
                  end;
    destination ← call key (clone_contents destination);
    mret (set_tables (smap_set (t_name source) destination) copy).

Fixpoint clone_tables (keys : list string) (copy : Database) : M catalog Database :=
  match keys with
  | [] => mret copy
  | key :: keys => copy ← clone_table key copy; clone_tables keys copy
  end.

Definition clone : M catalog Database :=
  name ← gets (λ c, db_name (cat_database c));
  keys ← gets (λ c, listTables (cat_database c));
  copy ← liftM (Database_new name);
  clone_tables keys copy.
End database.

Arguments Database : clear implicits.
Arguments catalog : clear implicits.
