(* ===== verification/Session.v ===== *)
(** * Undo log and transaction session

    [src/transaction/undo_log.cpp] and [src/execution/txn_session.cpp]: the
    transaction manager with the state of the one transaction a session can have
    open, the records that undo its changes and the log records it will write at
    commit.

    An undo record has the fields of the code; those of DROP COLUMN are the fields
    of [DroppedColumnCapture] and kept as one.  A retained table or database is
    the object itself: only the record refers to it. *)

From S2P Require Import Prelude Value BinaryIO VectorRowStore WriteAheadLog TransactionManager Mvcc.
From S2P Require Import HashIndex BTreeIndex RedoCodec IndexExpression Predicate SetOps IndexManager Histogram.
From S2P Require Import Table TableSchema Database.
Local Open Scope nat_scope.

(** ** Text of log payloads *)

#[export] Instance byte_eq_decision : EqDecision Byte.byte := Byte.byte_eq_dec.

Fixpoint starts_with (prefix text : bytes) : bool :=
  match prefix, text with
  | [], _ => true
  | p :: prefix, c :: text => bool_decide (p = c) && starts_with prefix text
  | _ :: _, [] => false
  end.

(** [std::string::find]: the first position of [needle]. *)
Fixpoint find_from (needle text : bytes) (pos : nat) : option nat :=
  if starts_with needle text then Some pos
  else match text with [] => None | _ :: text => find_from needle text (S pos) end.
Definition bytes_find (needle text : bytes) : option nat := find_from needle text 0.

Definition bytes_replace (pos n : nat) (replacement text : bytes) : bytes :=
  take pos text ++ replacement ++ drop (pos + n) text.

Definition ends_with (suffix text : bytes) : bool := starts_with (rev suffix) (rev text).

(** [std::string] concatenation of string literals and names. *)
Definition text (parts : list string) : bytes := string_bytes (String.concat EmptyString parts).

Inductive UndoKind : Type :=
| UK_Insert | UK_Update | UK_Delete | UK_CreateIndex | UK_DropIndex | UK_CreateTable | UK_DropTable
| UK_RenameTable | UK_SwapDatabase | UK_AlterAddColumn | UK_AlterDropColumn | UK_AlterRenameColumn.

Record PendingWalRecord : Type := mkPendingWalRecord {
  pw_operation : WalOperation;
  pw_payload : bytes
}.

Section session.
Context {Select S : Type}.

Record UndoRecord : Type := mkUndoRecord {
  ur_tableName : string;
  ur_kind : UndoKind;
  ur_rowId : RowId;
  ur_beforeImage : option Row;
  ur_indexName : string;
  ur_indexColumn : string;
  ur_indexColumns : list string;
  ur_indexExpression : option IndexExpression;
  ur_retainedTable : option (Table Select S);
  ur_previousDatabase : option (Database Select S);
  ur_renameTo : string;
  ur_alter : DroppedColumnCapture Select
}.

Definition capture_default : DroppedColumnCapture Select :=
  mkDroppedColumnCapture (mkColumn EmptyString CT_Int false false false) 0 [] [] false [] [] [] [].

(** [UndoRecord{tableName, kind, rowId, beforeImage}] *)
Definition undo_row (tableName : string) (kind : UndoKind) (rowId : RowId) (beforeImage : option Row) : UndoRecord :=
  mkUndoRecord tableName kind rowId beforeImage EmptyString EmptyString [] None None None EmptyString capture_default.

(** ** [UndoLog] *)

Definition UndoLog_push (record : UndoRecord) (log : list UndoRecord) : list UndoRecord := log ++ [record].
Definition UndoLog_pop (log : list UndoRecord) : option (list UndoRecord * UndoRecord) := unsnoc log.

Definition rewritten (oldName newName name : string) : string := if String.eqb name oldName then newName else name.

Definition UndoLog_rewriteTableName (oldName newName : string) (log : list UndoRecord) : list UndoRecord :=
  (λ r, mkUndoRecord (rewritten oldName newName (ur_tableName r)) (ur_kind r) (ur_rowId r) (ur_beforeImage r)
          (ur_indexName r) (ur_indexColumn r) (ur_indexColumns r) (ur_indexExpression r) (ur_retainedTable r)
          (ur_previousDatabase r) (rewritten oldName newName (ur_renameTo r)) (ur_alter r)) <$> log.

(** ** [TxnSession] *)

Record TxnSession : Type := mkTxnSession {
  ts_transactionManager : TransactionManager;
  ts_undoLog : list UndoRecord;
  ts_activeTransaction : option TransactionId;
  ts_activeSnapshot : option ReadSnapshot;
  ts_pendingWal : list PendingWalRecord
}.

Definition session_new : TxnSession := mkTxnSession tm_empty [] None None [].

Definition set_tm (tm : TransactionManager) (s : TxnSession) : TxnSession :=
  mkTxnSession tm (ts_undoLog s) (ts_activeTransaction s) (ts_activeSnapshot s) (ts_pendingWal s).
Definition set_undo (log : list UndoRecord) (s : TxnSession) : TxnSession :=
  mkTxnSession (ts_transactionManager s) log (ts_activeTransaction s) (ts_activeSnapshot s) (ts_pendingWal s).
Definition set_pending (pending : list PendingWalRecord) (s : TxnSession) : TxnSession :=
  mkTxnSession (ts_transactionManager s) (ts_undoLog s) (ts_activeTransaction s) (ts_activeSnapshot s) pending.

Definition messageResult (success : bool) (message : string) : QueryResult := mkQueryResult success message [] [].

Definition transactionActive (s : TxnSession) : bool := bool_decide (is_Some (ts_activeTransaction s)).

Definition session_begin : M TxnSession QueryResult := λ s,
  if transactionActive s then (Ok (messageResult false "transaction already active"), s)
  else
    let '(t, tm) := begin (ts_transactionManager s) in
    (Ok (messageResult true "began transaction"),
     mkTxnSession tm [] (Some (txn_id t)) (Some (currentSnapshot (txn_id t) tm)) []).

Definition session_commit : M TxnSession QueryResult := λ s,
  match ts_activeTransaction s with
  | None => (Ok (messageResult false "no active transaction"), s)
  | Some id =>
      if negb (isSerializable (ts_transactionManager s) id) then (Ok (messageResult false "serialization failure"), s)
      else
        match tm_commit id (ts_transactionManager s) with
        | (Throw e, tm) => (Throw e, set_tm tm s)
        | (Ok _, tm) => (Ok (messageResult true "committed transaction"), mkTxnSession tm [] None None (ts_pendingWal s))
        end
  end.

Definition session_rollback : M TxnSession QueryResult := λ s,
  match ts_activeTransaction s with
  | None => (Ok (messageResult false "no active transaction"), s)
  | Some id =>
      match tm_rollback id (ts_transactionManager s) with
      | (Throw e, tm) => (Throw e, set_tm tm s)
      | (Ok _, tm) => (Ok (messageResult true "rolled back transaction"), mkTxnSession tm [] None None [])
      end
  end.

Definition session_reset (s : TxnSession) : TxnSession := mkTxnSession (ts_transactionManager s) [] None None [].

Definition readSnapshot (s : TxnSession) : ReadSnapshot :=
  match ts_activeSnapshot s with
  | Some snapshot => snapshot
  | None => currentSnapshot kSystemTransactionId (ts_transactionManager s)
  end.

Definition writeTransactionId : M TxnSession TransactionId := λ s,
  match ts_activeTransaction s with
  | Some id => (Ok id, s)
  | None => let '(r, tm) := beginCommitted (ts_transactionManager s) in (r, set_tm tm s)
  end.

Definition rejectIfTransactionActive (action : string) (s : TxnSession) : QueryResult :=
  if negb (transactionActive s) then messageResult true EmptyString
  else messageResult false (String.append action " is not allowed while a transaction is active").

Definition pushUndo (record : UndoRecord) (s : TxnSession) : TxnSession := set_undo (UndoLog_push record (ts_undoLog s)) s.
Definition pushPendingWal (record : PendingWalRecord) (s : TxnSession) : TxnSession :=
  set_pending (ts_pendingWal s ++ [record]) s.
Definition clearPendingWal (s : TxnSession) : TxnSession := set_pending [] s.

(** ** [rewriteTableName] *)

Definition rename_redo (from to : string) (r : PageImageRedoRecord) : PageImageRedoRecord :=
  mkPageImageRedoRecord (rewritten from to (pir_tableName r)) (pir_hasHeapMeta r) (pir_capacity r) (pir_freeList r)
    (pir_heapPages r) (pir_btreeIndexes r) (pir_hashIndexes r).

(** The payload is replaced only when some record names the table. *)
Definition rename_images (from to : string) (payload : bytes) : result bytes :=
  redos ← decodePageImageRedos payload;
  if existsb (λ r, String.eqb (pir_tableName r) from) redos
  then encodePageImageRedos (rename_redo from to <$> redos)
  else Ok payload.

Definition replace_prefix (needle replacement payload : bytes) : bytes :=
  if starts_with needle payload then bytes_replace 0 (length needle) replacement payload else payload.
Definition replace_found (needle replacement payload : bytes) : bytes :=
  match bytes_find needle payload with
  | Some pos => bytes_replace pos (length needle) replacement payload
  | None => payload
  end.

(** [RENAME TABLE source TO dest;] *)
Definition rename_renames (from to : string) (payload : bytes) : bytes :=
  let prefix := text ["RENAME TABLE "] in
  if negb (starts_with prefix payload) then payload
  else
    match bytes_find (text [" TO "]) payload with
    | None => payload
    | Some toPos =>
        if negb (ends_with (text [";"]) payload) then payload
        else
          let source := take (toPos - length prefix) (drop (length prefix) payload) in
          let dest := take (length payload - (toPos + 4) - 1) (drop (toPos + 4) payload) in
          let swap name := if bool_decide (name = string_bytes from) then string_bytes to else name in
          prefix ++ swap source ++ text [" TO "] ++ swap dest ++ text [";"]
    end.

Definition rename_payload (from to : string) (r : PendingWalRecord) : result PendingWalRecord :=
  payload ← match pw_operation r with
    | Wal_PageImageRedo => rename_images from to (pw_payload r)
    | Wal_CreateTable =>
        Ok (replace_prefix (text ["CREATE TABLE "; from; " ("]) (text ["CREATE TABLE "; to; " ("]) (pw_payload r))
    | Wal_DropTable =>
        Ok (if bool_decide (pw_payload r = text ["DROP TABLE "; from; ";"]) then text ["DROP TABLE "; to; ";"]
            else pw_payload r)
    | Wal_CreateIndex => Ok (replace_found (text [" ON "; from; "("]) (text [" ON "; to; "("]) (pw_payload r))
    | Wal_DropIndex => Ok (replace_found (text [" ON "; from; ";"]) (text [" ON "; to; ";"]) (pw_payload r))
    | Wal_RenameTable => Ok (rename_renames from to (pw_payload r))
    | Wal_AlterTable =>
        Ok (replace_prefix (text ["ALTER TABLE "; from; " "]) (text ["ALTER TABLE "; to; " "]) (pw_payload r))
    | _ => Ok (pw_payload r)
    end;
  Ok (mkPendingWalRecord (pw_operation r) payload).

(** The loop over the pending records: an exception leaves the rest as it was. *)
Fixpoint rename_pending (from to : string) (pending : list PendingWalRecord) : result unit * list PendingWalRecord :=
  match pending with
  | [] => (Ok tt, [])
  | r :: rest =>
      match rename_payload from to r with
      | Throw e => (Throw e, pending)
      | Ok r => let '(res, rest) := rename_pending from to rest in (res, r :: rest)
      end
  end.

Definition session_rewriteTableName (oldName newName : string) : M TxnSession unit := λ s,
  let s := set_undo (UndoLog_rewriteTableName oldName newName (ts_undoLog s)) s in
  let '(r, pending) := rename_pending oldName newName (ts_pendingWal s) in
  (r, set_pending pending s).
End session.

Arguments UndoRecord : clear implicits.
Arguments TxnSession : clear implicits.
