(* ===== verification/ForeignKeys.v ===== *)
(** * Foreign keys

    [src/execution/foreign_key_eval.cpp]: the validation of FOREIGN KEY
    definitions, the test that a child row has its parent, and the search for the
    children of a parent key, all through a read snapshot.  The reads record
    themselves in the transaction manager, which is the state of the searches; a
    table found is named by its key in the database. *)

From S2P Require Import Prelude Value VectorRowStore TransactionManager Mvcc.
From S2P Require Import StringPattern HashIndex BTreeIndex IndexExpression Predicate IndexManager Histogram Table TableSchema Database.
Local Open Scope nat_scope.

Definition kMaxReferentialActionDepth : nat := 64.

Definition find_column (schema : Schema) (name : string) : option Column :=
  List.find (λ c, String.eqb (col_name c) name) schema.

Definition columnsEqual (l r : list string) : bool := bool_decide (l = r).

(** The table-level constraints, then every UNIQUE column that no constraint in
    the list so far covers. *)
Definition uniqueConstraintsFromSchema (schema : Schema) (tableLevel : list UniqueConstraint) : list UniqueConstraint :=
  foldl (λ constraints c,
    if negb (col_unique c) && negb (col_primaryKey c) then constraints
    else if existsb (covers (col_name c)) constraints then constraints
    else constraints ++ [mkUniqueConstraint [col_name c] (col_primaryKey c)]) tableLevel schema.

Definition parentHasExactUniqueKey (constraints : list UniqueConstraint) (parentColumns : list string) : bool :=
  existsb (λ c, columnsEqual (uc_columns c) parentColumns) constraints.

Definition isSupportedAction (action : ForeignKeyAction) : bool :=
  match action with FK_NoAction | FK_Cascade | FK_SetNull => true end.

Definition keyHasNullPart (key : Value) : bool :=
  if isNull key then true
  else match compositeParts key with
       | Ok parts => existsb isNull parts
       | Throw _ => false
       end.

Definition foreignKeyColumnsLabel (columns : list string) : string := String.concat ", " columns.

Definition foreignKeyActionName (action : ForeignKeyAction) : string :=
  match action with FK_NoAction => "NO ACTION" | FK_Cascade => "CASCADE" | FK_SetNull => "SET NULL" end.

Definition foreignKeyLiteral (fk : ForeignKeyConstraint) : string :=
  String.concat EmptyString
    (["FOREIGN KEY ("; foreignKeyColumnsLabel (fk_childColumns fk); ") REFERENCES "; fk_parentTable fk; "(";
      foreignKeyColumnsLabel (fk_parentColumns fk); ")"] ++
     match fk_onDelete fk with FK_NoAction => [] | a => [" ON DELETE "; foreignKeyActionName a] end ++
     match fk_onUpdate fk with FK_NoAction => [] | a => [" ON UPDATE "; foreignKeyActionName a] end).

Record ForeignKeyChildHit : Type := mkForeignKeyChildHit {
  fch_tableName : string;
  fch_fk : ForeignKeyConstraint;
  fch_rowId : RowId;
  fch_row : Row
}.

Fixpoint assertNoActionParentKeyNotReferenced (refs : list ForeignKeyChildHit) (forUpdate : bool) : result unit :=
  match refs with
  | [] => Ok tt
  | hit :: refs =>
      match if forUpdate then fk_onUpdate (fch_fk hit) else fk_onDelete (fch_fk hit) with
      | FK_NoAction => Throw (invalid_argument "FOREIGN KEY constraint violation: key is still referenced")
      | _ => assertNoActionParentKeyNotReferenced refs forUpdate
      end
  end.

Section foreign_keys.
Context {Select S : Type} `{RowStore S}.
Abbreviation Table := (Table Select S).
Abbreviation Database := (Database Select S).

(** ** Definitions *)

Fixpoint validate_fk_columns (childSchema parentSchema : Schema) (parentTable : string)
    (childColumns parentColumns : list string) : result unit :=
  match childColumns, parentColumns with
  | c :: childColumns, p :: parentColumns =>
      match find_column childSchema c with
      | None => Throw (invalid_argument (String.append "FOREIGN KEY child column not found: " c))
      | Some childCol =>
          match find_column parentSchema p with
          | None => Throw (invalid_argument (String.append "FOREIGN KEY parent column not found: " p))
          | Some parentCol =>
              _ ← throw_if (negb (bool_decide (col_type parentCol = col_type childCol)))
                    (invalid_argument (String.concat EmptyString
                       ["FOREIGN KEY column type mismatch: "; c; " vs "; parentTable; "."; p]));
              validate_fk_columns childSchema parentSchema parentTable childColumns parentColumns
          end
      end
  | _, _ => Ok tt
  end.

Fixpoint validate_set_null (childSchema : Schema) (childColumns : list string) : result unit :=
  match childColumns with
  | [] => Ok tt
  | c :: childColumns =>
      let refuse := Throw (invalid_argument (String.append "FOREIGN KEY SET NULL requires nullable child column: " c)) in
      match find_column childSchema c with
      | None => refuse
      | Some col => if negb (col_nullable col) then refuse else validate_set_null childSchema childColumns
      end
  end.

(** The schema and the keys of the parent: the table being created, for a foreign
    key on itself. *)
Definition fk_parent (db : Database) (childTableName : string) (creatingSchema : Schema)
    (creatingUniques : list UniqueConstraint) (fk : ForeignKeyConstraint) : result (Schema * list UniqueConstraint) :=
  if String.eqb (fk_parentTable fk) childTableName && negb (bool_decide (length creatingSchema = 0))
  then Ok (creatingSchema, uniqueConstraintsFromSchema creatingSchema creatingUniques)
  else
    match Database_table (fk_parentTable fk) db with
    | None => Throw (invalid_argument (String.append "FOREIGN KEY parent table not found: " (fk_parentTable fk)))
    | Some parent => Ok (t_schema parent, allUniqueConstraints parent)
    end.

Definition validate_fk (db : Database) (childTableName : string) (childSchema creatingSchema : Schema)
    (creatingUniques : list UniqueConstraint) (fk : ForeignKeyConstraint) : result unit :=
  _ ← throw_if (bool_decide (length (fk_childColumns fk) = 0) || bool_decide (length (fk_parentColumns fk) = 0))
        (invalid_argument "FOREIGN KEY requires at least one column");
  _ ← throw_if (negb (Nat.eqb (length (fk_childColumns fk)) (length (fk_parentColumns fk))))
        (invalid_argument "FOREIGN KEY child/parent column count mismatch");
  '(parentSchema, parentUniques) ← fk_parent db childTableName creatingSchema creatingUniques fk;
  _ ← validate_fk_columns childSchema parentSchema (fk_parentTable fk) (fk_childColumns fk) (fk_parentColumns fk);
  _ ← throw_if (negb (parentHasExactUniqueKey parentUniques (fk_parentColumns fk)))
        (invalid_argument (String.concat EmptyString
           ["FOREIGN KEY parent columns must be PRIMARY KEY or UNIQUE: "; fk_parentTable fk; "(";
            foreignKeyColumnsLabel (fk_parentColumns fk); ")"]));
  _ ← throw_if (negb (isSupportedAction (fk_onDelete fk)) || negb (isSupportedAction (fk_onUpdate fk)))
        (invalid_argument "FOREIGN KEY only supports ON DELETE/UPDATE NO ACTION, CASCADE, or SET NULL");
  match fk_onDelete fk, fk_onUpdate fk with
  | FK_SetNull, _ | _, FK_SetNull => validate_set_null childSchema (fk_childColumns fk)
  | _, _ => Ok tt
  end.

Fixpoint validateForeignKeyDefinitions (db : Database) (childTableName : string) (childSchema : Schema)
    (foreignKeys : list ForeignKeyConstraint) (creatingSchema : Schema) (creatingUniques : list UniqueConstraint)
  : result unit :=
  match foreignKeys with
  | [] => Ok tt
  | fk :: foreignKeys =>
      _ ← validate_fk db childTableName childSchema creatingSchema creatingUniques fk;
      validateForeignKeyDefinitions db childTableName childSchema foreignKeys creatingSchema creatingUniques
  end.

(** ** Keys *)

Fixpoint key_parts (t : Table) (row : Row) (columns : list string) : result (option (list Value)) :=
  match columns with
  | [] => Ok (Some [])
  | column :: columns =>
      match columnIndex t column with
      | None => Ok None
      | Some i =>
          v ← row_at row i;
          rest ← key_parts t row columns;
          Ok (match rest with Some rest => Some (v :: rest) | None => None end)
      end
  end.

Definition keyFromRow (t : Table) (row : Row) (columns : list string) : result (option Value) :=
  parts ← key_parts t row columns;
  match parts with
  | None => Ok None
  | Some [part] => Ok (Some part)
  | Some parts => key ← composite parts; Ok (Some key)
  end.

Definition rowMatchesKey (t : Table) (row : Row) (columns : list string) (key : Value) : result bool :=
  actual ← keyFromRow t row columns;
  Ok (match actual with Some actual => Value_eqb actual key | None => false end).

Fixpoint any_matches (t : Table) (columns : list string) (key : Value) (entries : list (RowId * Row)) : result bool :=
  match entries with
  | [] => Ok false
  | (_, row) :: entries =>
      m ← rowMatchesKey t row columns key;
      if m : bool then Ok true else any_matches t columns key entries
  end.

Fixpoint matching_entries (t : Table) (columns : list string) (key : Value) (entries : list (RowId * Row))
  : result (list (RowId * Row)) :=
  match entries with
  | [] => Ok []
  | (rowId, row) :: entries =>
      m ← rowMatchesKey t row columns key;
      rest ← matching_entries t columns key entries;
      Ok (if m && negb (keyHasNullPart key) then (rowId, row) :: rest else rest)
  end.

(** ** Searches through a snapshot *)

Definition visible (snapshot : ReadSnapshot) (t : Table) : M TransactionManager (list (RowId * Row)) := λ tm,
  let '(entries, tm) := visibleEntries_of snapshot t tm in (Ok entries, tm).
Definition visible_by_id (rowIds : list RowId) (snapshot : ReadSnapshot) (t : Table)
  : M TransactionManager (list (RowId * Row)) := λ tm,
  let '(entries, tm) := visibleEntriesById_of rowIds snapshot t tm in (Ok entries, tm).

Definition parentKeyVisible (parent : Table) (parentColumns : list string) (value : Value) (snapshot : ReadSnapshot)
  : M TransactionManager bool :=
  hits ← liftM (indexedLookup (t_indexManager parent) parentColumns value (t_schema parent));
  match hits with
  | None | Some [] =>
      entries ← visible snapshot parent;
      liftM (any_matches parent parentColumns value entries)
  | Some hits =>
      entries ← visible_by_id hits snapshot parent;
      mret (negb (bool_decide (length entries = 0)))
  end.

Definition visibleChildrenForKey (child : Table) (childColumns : list string) (key : Value) (snapshot : ReadSnapshot)
  : M TransactionManager (list (RowId * Row)) :=
  hits ← liftM (indexedLookup (t_indexManager child) childColumns key (t_schema child));
  match hits with
  | Some hits => visible_by_id hits snapshot child
  | None =>
      entries ← visible snapshot child;
      liftM (matching_entries child childColumns key entries)
  end.

(** MATCH SIMPLE: a key with a NULL part needs no parent. *)
Definition assert_fk (db : Database) (child : Table) (row : Row) (snapshot : ReadSnapshot) (fk : ForeignKeyConstraint)
  : M TransactionManager unit :=
  key ← liftM (keyFromRow child row (fk_childColumns fk));
  match key with
  | None => raise (invalid_argument (String.append "FOREIGN KEY child column not found: "
                                       (foreignKeyColumnsLabel (fk_childColumns fk))))
  | Some key =>
      if keyHasNullPart key then mret tt
      else
        match Database_table (fk_parentTable fk) db with
        | None => raise (invalid_argument (String.append "FOREIGN KEY parent table not found: " (fk_parentTable fk)))
        | Some parent =>
            found ← parentKeyVisible parent (fk_parentColumns fk) key snapshot;
            liftM (throw_if (negb found)
              (invalid_argument (String.append "FOREIGN KEY constraint violation on column "
                                   (foreignKeyColumnsLabel (fk_childColumns fk)))))
        end
  end.

Definition assertForeignKeysOnChildRow (db : Database) (child : Table) (row : Row) (snapshot : ReadSnapshot)
  : M TransactionManager unit :=
  mapM_ (assert_fk db child row snapshot) (t_foreignKeys child).

(** Whether an update of column [updating] of the parent touches the key of [fk]. *)
Definition touches_key (parent : Table) (updating : option nat) (fk : ForeignKeyConstraint) : bool :=
  match updating with
  | None => true
  | Some i =>
      match t_schema parent !! i with
      | None => false
      | Some c => existsb (λ column, String.eqb column (col_name c)) (fk_parentColumns fk)
      end
  end.

(** Whether the update leaves the key as it was. *)
Definition key_unchanged (parent : Table) (parentRow : Row) (updating : option nat) (newValue : option Value)
    (columns : list string) (oldKey : Value) : result bool :=
  match updating, newValue with
  | Some i, Some value =>
      _ ← row_at parentRow i;
      newKey ← keyFromRow parent (<[i := value]> parentRow) columns;
      Ok (match newKey with Some newKey => Value_eqb newKey oldKey | None => false end)
  | _, _ => Ok false
  end.

Definition children_of_fk (parent other : Table) (parentRow : Row) (snapshot : ReadSnapshot) (updating : option nat)
    (newValue : option Value) (fk : ForeignKeyConstraint) : M TransactionManager (list ForeignKeyChildHit) :=
  if negb (String.eqb (fk_parentTable fk) (t_name parent)) then mret []
  else if negb (touches_key parent updating fk) then mret []
  else
    oldKey ← liftM (keyFromRow parent parentRow (fk_parentColumns fk));
    match oldKey with
    | None => mret []
    | Some oldKey =>
        if keyHasNullPart oldKey then mret []
        else
          same ← liftM (key_unchanged parent parentRow updating newValue (fk_parentColumns fk) oldKey);
          if same : bool then mret []
          else
            entries ← visibleChildrenForKey other (fk_childColumns fk) oldKey snapshot;
            mret ((λ e, mkForeignKeyChildHit (t_name other) fk e.1 e.2) <$> entries)
    end.

(** Loops that collect hits. *)
Fixpoint collect {A} (f : A → M TransactionManager (list ForeignKeyChildHit)) (l : list A)
  : M TransactionManager (list ForeignKeyChildHit) :=
  match l with
  | [] => mret []
  | a :: l => hits ← f a; rest ← collect f l; mret (hits ++ rest)
  end.

Definition collectReferencingChildren (db : Database) (parent : Table) (parentRow : Row) (snapshot : ReadSnapshot)
    (updating : option nat) (newValue : option Value) : M TransactionManager (list ForeignKeyChildHit) :=
  collect (λ other, collect (children_of_fk parent other parentRow snapshot updating newValue) (t_foreignKeys other))
    (Database_tables db).
End foreign_keys.
