(* ===== verification/Ast.v ===== *)
(** * Statements

    [include/VertexDB/parser/ast.hpp]: the statements the parser builds.  A
    statement is parametric in the type of subqueries where its predicate is; the
    type [Select] closes the recursion between selects and predicates. *)

From S2P Require Import Prelude Value StringPattern IndexExpression Predicate SetOps Histogram IndexManager Table.
Local Open Scope nat_scope.

Section statements.
Context {Select : Type}.
Abbreviation Predicate := (Predicate Select).

Record CreateTable : Type := mkCreateTable {
  ct_name : string;
  ct_columns : list Column;
  ct_checkConstraints : list Predicate;
  ct_foreignKeys : list ForeignKeyConstraint;
  ct_uniqueConstraints : list UniqueConstraint
}.

Inductive AlterTableAction : Type :=
| AlterAddColumn (column : Column) (defaultValue : option Value)
| AlterDropColumn (column : string) (cascade : bool)
| AlterRenameColumn (oldName newName : string).

Record AlterTable : Type := mkAlterTable {
  at_table : string;
  at_action : AlterTableAction
}.

Record CreateIndex : Type := mkCreateIndex {
  ci_name : string;
  ci_table : string;
  ci_column : string;
  ci_columns : list string;
  ci_expression : option IndexExpression
}.

Record Update : Type := mkUpdate {
  up_table : string;
  up_column : string;
  up_value : Value;
  up_where : option Predicate
}.

(** ** Selects *)

Inductive MaterializeMode : Type := MM_DefaultInline | MM_Materialized | MM_NotMaterialized.

(** [None] is the null pointer. *)
Record SetOpArm : Type := mkSetOpArm {
  arm_op : SetOpKind;
  arm_select : option Select
}.

Record CteEntry : Type := mkCteEntry {
  cte_name : string;
  cte_body : option Select;
  cte_materializeMode : MaterializeMode;
  cte_recursive : bool;
  cte_recursiveDistinct : bool;
  cte_recursiveBindAccumulator : bool;
  cte_recursiveArm : option Select
}.
End statements.

Arguments CreateTable : clear implicits.
Arguments Update : clear implicits.
Arguments SetOpArm : clear implicits.
Arguments CteEntry : clear implicits.

Record OrderBy : Type := mkOrderBy {
  ob_column : string;
  ob_ascending : bool
}.

Inductive JoinKind : Type := JK_Inner | JK_LeftOuter | JK_RightOuter | JK_FullOuter | JK_Cross.

Record JoinClause : Type := mkJoinClause {
  jc_table : string;
  jc_leftColumn : string;
  jc_rightColumn : string;
  jc_tableAlias : option string;
  jc_kind : JoinKind;
  jc_op : ComparisonOperator
}.

Definition joinScopeName (join : JoinClause) : string := default (jc_table join) (jc_tableAlias join).

Inductive AggregateOp : Type := AO_CountStar | AO_Count | AO_Sum | AO_Avg | AO_Min | AO_Max.

#[export] Instance AggregateOp_eq_dec : EqDecision AggregateOp.
Proof. solve_decision. Defined.
#[export] Instance JoinKind_eq_dec : EqDecision JoinKind.
Proof. solve_decision. Defined.

(** A [SelectExpr] is a star, a column or an aggregate. *)
Inductive SelectExpr : Type :=
| SE_Star
| SE_Column (column : string)
| SE_Aggregate (aggregate : AggregateOp) (aggregateArg : option string).

#[export] Instance SelectExpr_eq_dec : EqDecision SelectExpr.
Proof. solve_decision. Defined.

Definition outputName (expr : SelectExpr) : string :=
  match expr with
  | SE_Star => "*"
  | SE_Column column => column
  | SE_Aggregate aggregate arg =>
      let named (name : string) := name +:+ "(" +:+ default EmptyString arg +:+ ")" in
      match aggregate with
      | AO_CountStar => "COUNT(*)"
      | AO_Count => named "COUNT"
      | AO_Sum => named "SUM"
      | AO_Avg => named "AVG"
      | AO_Min => named "MIN"
      | AO_Max => named "MAX"
      end
  end.

Definition isStarProjection (columns : list SelectExpr) : bool :=
  match columns with [SE_Star] => true | _ => false end.

Definition hasAggregates (columns : list SelectExpr) : bool :=
  existsb (λ c, match c with SE_Aggregate _ _ => true | _ => false end) columns.

Inductive Select : Type := mkSelect {
  sel_table : string;
  sel_joins : list JoinClause;
  sel_columns : list SelectExpr;
  sel_where : option (Predicate Select);
  sel_groupBy : list string;
  sel_orderBy : option OrderBy;
  sel_limit : option Z;
  sel_ctes : list (CteEntry Select);
  sel_setOps : list (SetOpArm Select);
  sel_tableAlias : option string;
  sel_hasOuterRefs : bool
}.

Definition selectScopeName (select : Select) : string := default (sel_table select) (sel_tableAlias select).

(** ** Queries *)

Inductive Explained : Type :=
| Explain_Select (select : Select)
| Explain_Update (update : Update Select)
| Explain_Delete (table : string) (condition : option (Predicate Select))
| Explain_Insert (table : string) (rows : list Row).

Inductive Query : Type :=
| Q_CreateDatabase (name : string)
| Q_DropDatabase (name : string)
| Q_CreateTable (command : CreateTable Select)
| Q_DropTable (name : string)
| Q_RenameTable (oldName newName : string)
| Q_AlterTable (command : AlterTable)
| Q_ListTables
| Q_Insert (table : string) (rows : list Row)
| Q_Select (select : Select)
| Q_Update (update : Update Select)
| Q_Delete (table : string) (condition : option (Predicate Select))
| Q_CreateIndex (command : CreateIndex)
| Q_DropIndex (name table : string)
| Q_SaveDatabase
| Q_LoadDatabase (name : option string)
| Q_BeginTransaction
| Q_CommitTransaction
| Q_RollbackTransaction
| Q_PrepareStatement (name sql : string)
| Q_ExecutePrepared (name : string) (parameters : list Value)
| Q_ExplainQuery (query : Explained) (analyze : bool)
| Q_Analyze (table : option string)
| Q_Exit.
