(* ===== verification/Planner.v ===== *)
(** * Access paths and the planner

    [include/VertexDB/planner/query_planner.hpp] and [src/planner/query_planner*.cpp]:
    [planSelect] chooses how the rows of one table are found: by a scan, by one
    index, or by combining several, with the rest of the WHERE clause as a filter.

    The planner sees the table through two interfaces
    ([include/VertexDB/storage/relation_stats.hpp]), here the records
    [RelationStats] and [IndexCatalogView].  A function that fills a plan and
    returns [true] returns [Some] plan.  A [const Predicate *] into the vector of
    conjuncts is the position in it where its identity matters. *)

From S2P Require Import Prelude Value Float64 StringPattern IndexExpression Predicate SetOps Histogram Selectivity IndexManager Table Ast.
From Stdlib Require Import Ascii.
Local Open Scope nat_scope.

Abbreviation Pred := (Predicate Select).

Record RelationStats : Type := mkRelationStats {
  st_rowCount : nat;
  st_columnHistogram : string → option ColumnHistogram
}.

Record IndexCatalogView : Type := mkIndexCatalogView {
  iv_hasIndex : string → result bool;
  iv_hasIndexOn : list string → result bool;
  iv_hasExpressionIndex : IndexExpression → bool;
  iv_indexDistinctCount : string → result (option nat);
  iv_indexDistinctCountOn : list string → result (option nat);
  iv_indexDistinctCountOf : IndexExpression → result (option nat);
  iv_compositeIndexColumnLists : result (list (list string))
}.

Inductive AccessPath : Type :=
| AP_FullScan | AP_HashEq | AP_OrderedRange | AP_HashIn | AP_Intersect | AP_Union | AP_PrefixLike.

#[export] Instance AccessPath_eq_dec : EqDecision AccessPath.
Proof. solve_decision. Defined.

Record IndexEqualityProbe : Type := mkIndexEqualityProbe {
  pr_column : string;
  pr_expression : option IndexExpression;
  pr_value : Value
}.

Inductive IndexBitmapNode : Type :=
| BN_Probe (probe : IndexEqualityProbe)
| BN_Intersect (children : list IndexBitmapNode)
| BN_Union (children : list IndexBitmapNode).

Inductive AccessPathPlan : Type :=
| FullScanPlan
| HashEqPlan (indexColumn : string) (indexExpression : option IndexExpression) (indexValue : Value)
    (indexColumns : list string)
| OrderedRangePlan (indexColumn : string) (indexExpression : option IndexExpression)
    (indexOp : ComparisonOperator) (indexValue : Value)
| HashInPlan (indexColumn : string) (indexExpression : option IndexExpression) (indexValues : list Value)
| IntersectPlan (children : list IndexBitmapNode)
| UnionPlan (children : list IndexBitmapNode)
| PrefixLikePlan (indexColumn prefix : string).

Record PlanEstimates : Type := mkPlanEstimates {
  pe_estimatedRows : nat;
  pe_estimatedCost : double;
  pe_explanation : string;
  pe_notes : list string;
  pe_residual : option Pred;
  pe_complementaryResidual : option Pred
}.

Record QueryPlan : Type := mkQueryPlan {
  qp_path : AccessPathPlan;
  qp_estimates : PlanEstimates
}.

Definition accessPath (plan : QueryPlan) : AccessPath :=
  match qp_path plan with
  | FullScanPlan => AP_FullScan
  | HashEqPlan _ _ _ _ => AP_HashEq
  | OrderedRangePlan _ _ _ _ => AP_OrderedRange
  | HashInPlan _ _ _ => AP_HashIn
  | IntersectPlan _ => AP_Intersect
  | PrefixLikePlan _ _ => AP_PrefixLike
  | UnionPlan _ => AP_Union
  end.

Definition residual (plan : QueryPlan) : option Pred := pe_residual (qp_estimates plan).
Definition complementaryResidual (plan : QueryPlan) : option Pred := pe_complementaryResidual (qp_estimates plan).

Definition with_residual (r : option Pred) (e : PlanEstimates) : PlanEstimates :=
  mkPlanEstimates (pe_estimatedRows e) (pe_estimatedCost e) (pe_explanation e) (pe_notes e) r
    (pe_complementaryResidual e).

(** ** Predicates as lists *)

Fixpoint collectAndConjuncts (p : Pred) : list Pred :=
  match p with
  | AndPred l r => collectAndConjuncts l ++ collectAndConjuncts r
  | _ => [p]
  end.

Fixpoint collectOrDisjuncts (p : Pred) : list Pred :=
  match p with
  | OrPred l r => collectOrDisjuncts l ++ collectOrDisjuncts r
  | _ => [p]
  end.

Definition buildAndTree (conjuncts : list Pred) : option Pred :=
  match conjuncts with [] => None | p :: ps => Some (foldl AndPred p ps) end.
Definition buildOrTree (disjuncts : list Pred) : option Pred :=
  match disjuncts with [] => None | p :: ps => Some (foldl OrPred p ps) end.

(** [std::optional] equality. *)
Definition expression_eqb (a b : option IndexExpression) : bool :=
  match a, b with
  | Some a, Some b => IndexExpression_eqb a b
  | None, None => true
  | _, _ => false
  end.

(** The constants of equalities on one column or expression. *)
Fixpoint same_column_values (column : string) (expression : option IndexExpression) (disjuncts : list Pred)
  : option (list Value) :=
  match disjuncts with
  | [] => Some []
  | ComparisonPred c Equal v None e _ :: disjuncts =>
      if String.eqb c column && expression_eqb e expression
      then cons v <$> same_column_values column expression disjuncts else None
  | _ => None
  end.

Definition tryRewriteSameColumnEqualityOrToIn (p : Pred) : option Pred :=
  match p with
  | OrPred _ _ =>
      match collectOrDisjuncts p with
      | ComparisonPred column Equal v None expression referencesOuter :: (_ :: _) as rest =>
          values ← same_column_values column expression rest;
          Some (InListPred column (v :: values) expression referencesOuter)
      | _ => None
      end
  | _ => None
  end.

(** ** Estimates *)

Definition averageRowsPerKey (rowCount distinctKeys : nat) : double :=
  if Nat.eqb rowCount 0 then d_one
  else d_div (double_of_nat rowCount) (double_of_nat (Nat.max distinctKeys 1)).

Section planner.
Context (double_chars : Z → chars) (llround_out : double → Z).
Context (stats : RelationStats) (indexes : IndexCatalogView).

Definition distinctOrOne (column : string) : result nat :=
  distinct ← iv_indexDistinctCount indexes column;
  match distinct with
  | Some distinct => Ok (Nat.max distinct 1)
  | None =>
      match st_columnHistogram stats column with
      | Some histogram => Ok (Nat.max (ch_distinctCount histogram) 1)
      | None => Ok 1
      end
  end.

Definition distinctOrOne_expr (expression : IndexExpression) : result nat :=
  distinct ← iv_indexDistinctCountOf indexes expression;
  match distinct with Some distinct => Ok (Nat.max distinct 1) | None => Ok 1 end.

(** The larger of an estimate and one row. *)
Definition at_least_one (cost : double) : double := d_max cost d_one.
Definition row_double (rowCount : nat) : double := double_of_nat (Nat.max rowCount 1).

Definition rangeCost (column : string) (op : ComparisonOperator) (value : Value) (rowCount : nat) : result double :=
  match st_columnHistogram stats column with
  | Some histogram =>
      selectivity ← histogramRangeSelectivity llround_out histogram op value;
      Ok (at_least_one (d_mul selectivity (row_double rowCount)))
  | None => Ok (at_least_one (d_div (double_of_nat rowCount) (double_of_Z 3)))
  end.

Definition inCost (column : string) (values : list Value) (rowCount : nat) : result double :=
  match st_columnHistogram stats column with
  | Some histogram =>
      Ok (at_least_one (d_mul (histogramInSelectivity histogram values) (row_double rowCount)))
  | None =>
      distinct ← distinctOrOne column;
      Ok (d_mul (double_of_nat (length values)) (averageRowsPerKey rowCount distinct))
  end.

Definition isIndexableComparison (p : Pred) (rowCount : nat) : result (option (AccessPath * double)) :=
  match p with
  | ComparisonPred column op value None (Some expression) _ =>
      if negb (iv_hasExpressionIndex indexes expression) then Ok None
      else
        match op with
        | Equal =>
            distinct ← distinctOrOne_expr expression;
            Ok (Some (AP_HashEq, averageRowsPerKey rowCount distinct))
        | Greater | Less =>
            Ok (Some (AP_OrderedRange, at_least_one (d_div (double_of_nat rowCount) (double_of_Z 3))))
        end
  | ComparisonPred column op value None None _ =>
      has ← iv_hasIndex indexes column;
      if negb has then Ok None
      else
        match op with
        | Equal =>
            distinct ← distinctOrOne column;
            Ok (Some (AP_HashEq, averageRowsPerKey rowCount distinct))
        | Greater | Less => cost ← rangeCost column op value rowCount; Ok (Some (AP_OrderedRange, cost))
        end
  | _ => Ok None
  end.

Definition isIndexableInList (p : Pred) (rowCount : nat) : result (option double) :=
  match p with
  | InListPred column inValues expression _ =>
      if bool_decide (length inValues = 0) then Ok None
      else
        match expression with
        | Some expression =>
            if negb (iv_hasExpressionIndex indexes expression) then Ok None
            else
              distinct ← distinctOrOne_expr expression;
              Ok (Some (d_mul (double_of_nat (length inValues)) (averageRowsPerKey rowCount distinct)))
        | None =>
            has ← iv_hasIndex indexes column;
            if negb has then Ok None else cost ← inCost column inValues rowCount; Ok (Some cost)
        end
  | _ => Ok None
  end.

Definition isEqualityIndexProbe (p : Pred) : result bool :=
  match p with
  | ComparisonPred column Equal _ None (Some expression) _ => Ok (iv_hasExpressionIndex indexes expression)
  | ComparisonPred column Equal _ None None _ => iv_hasIndex indexes column
  | _ => Ok false
  end.

Definition makeEqualityProbe (p : Pred) : result IndexEqualityProbe :=
  match p with
  | ComparisonPred column _ value _ expression _ => Ok (mkIndexEqualityProbe column expression value)
  | _ => Throw bad_variant_access
  end.

Definition equalityFanout (p : Pred) (rowCount : nat) : result double :=
  match p with
  | ComparisonPred _ _ _ _ (Some expression) _ =>
      distinct ← distinctOrOne_expr expression; Ok (averageRowsPerKey rowCount distinct)
  | ComparisonPred column _ _ _ None _ =>
      distinct ← distinctOrOne column; Ok (averageRowsPerKey rowCount distinct)
  | _ => Throw bad_variant_access
  end.

Definition rowsFromCost (cost : double) (rowCount : nat) : nat :=
  if Nat.eqb rowCount 0 then 0
  else Nat.min rowCount (Z.to_nat (Z.max (llround llround_out cost) 1)).

(** ** Labels *)

Definition comma_separated (labels : list string) : string := String.concat ", " labels.

Definition probeLabel (probe : IndexEqualityProbe) : string :=
  match pr_expression probe with
  | Some expression => "(" +:+ implode (indexExpressionToString double_chars expression) +:+ ")"
  | None => pr_column probe
  end.

Fixpoint bitmapNodeLabel (node : IndexBitmapNode) : string :=
  match node with
  | BN_Probe probe => probeLabel probe
  | BN_Union children => "union(" +:+ comma_separated (bitmapNodeLabel <$> children) +:+ ")"
  | BN_Intersect children => "intersect(" +:+ comma_separated (bitmapNodeLabel <$> children) +:+ ")"
  end.

(** ** OR as a union of probes *)

Record OrUnionSplit : Type := mkOrUnionSplit {
  os_probes : list IndexBitmapNode;
  os_residualDisjuncts : list Pred
}.
Definition os_unionNode (split : OrUnionSplit) : IndexBitmapNode := BN_Union (os_probes split).

(** The loop over the disjuncts: probes of indexes, and the rest. *)
Fixpoint split_disjuncts (disjuncts : list Pred) : result OrUnionSplit :=
  match disjuncts with
  | [] => Ok (mkOrUnionSplit [] [])
  | p :: disjuncts =>
      is_probe ← isEqualityIndexProbe p;
      if is_probe : bool then
        probe ← makeEqualityProbe p;
        rest ← split_disjuncts disjuncts;
        Ok (mkOrUnionSplit (BN_Probe probe :: os_probes rest) (os_residualDisjuncts rest))
      else
        rest ← split_disjuncts disjuncts;
        Ok (mkOrUnionSplit (os_probes rest) (p :: os_residualDisjuncts rest))
  end.

Definition tryMakeOrUnionSplit (p : Pred) : result (option OrUnionSplit) :=
  match p with
  | OrPred _ _ =>
      split ← split_disjuncts (collectOrDisjuncts p);
      Ok (if bool_decide (length (os_probes split) = 0) then None else Some split)
  | _ => Ok None
  end.

Definition tryMakeFullyIndexableOrUnion (p : Pred) : result (option (list IndexBitmapNode)) :=
  split ← tryMakeOrUnionSplit p;
  Ok (match split with
      | Some split =>
          if negb (bool_decide (length (os_residualDisjuncts split) = 0)) then None else Some (os_probes split)
      | None => None
      end).

(** [std::clamp(x, 0.0, 1.0)] and its complement. *)
Definition fraction (x : double) : double := d_clamp x d_zero d_one.
Definition miss (x : double) : double := d_sub d_one (fraction x).

Definition residualDisjunctSelectivity (p : Pred) (estimatedRows : nat) : result double :=
  let n := row_double estimatedRows in
  match p with
  | ComparisonPred column Equal _ None expression _ =>
      haveDistinct ← match expression with
                     | Some expression =>
                         d ← iv_indexDistinctCountOf indexes expression; Ok (bool_decide (is_Some d))
                     | None =>
                         d ← iv_indexDistinctCount indexes column;
                         Ok (bool_decide (is_Some d) || bool_decide (is_Some (st_columnHistogram stats column)))
                     end;
      if haveDistinct : bool then
        fanout ← equalityFanout p estimatedRows; Ok (fraction (d_div fanout n))
      else Ok (d_literal 1 10)
  | ComparisonPred column op value None None _ =>
      match st_columnHistogram stats column with
      | Some _ => cost ← rangeCost column op value estimatedRows; Ok (fraction (d_div cost n))
      | None => Ok (d_literal 1 2)
      end
  | _ => Ok (d_literal 1 2)
  end.

Definition isIndexableLike (p : Pred) (rowCount : nat)
  : result (option (AccessPath * double * option (list IndexBitmapNode))) :=
  match p with
  | LikePred column pattern _ =>
      match likePrefixLiteral pattern with
      | Some _ =>
          has ← iv_hasIndex indexes column;
          Ok (if negb has then None
              else Some (AP_PrefixLike, at_least_one (d_div (double_of_nat rowCount) (double_of_Z 10)), None))
      | None =>
          match likeContainsLiteral pattern with
          | Some needle =>
              let trigram := mkIndexExpression K_Trigram column VNull in
              let grams := extractTrigrams needle in
              if Nat.ltb (String.length needle) 3 then Ok None
              else if negb (iv_hasExpressionIndex indexes trigram) then Ok None
              else if bool_decide (length grams = 0) then Ok None
              else
                let children :=
                  (λ gram, BN_Probe (mkIndexEqualityProbe column (Some trigram) (VString gram))) <$> grams in
                Ok (Some (AP_Intersect, at_least_one (d_div (double_of_nat rowCount) (double_of_Z 20)),
                          Some children))
          | None => Ok None
          end
      end
  | _ => Ok None
  end.

(** ** Selectivity of a tree of probes *)

Definition probe_selectivity (probe : IndexEqualityProbe) (estimatedRows : nat) : result double :=
  distinct ← match pr_expression probe with
             | Some expression => distinctOrOne_expr expression
             | None => distinctOrOne (pr_column probe)
             end;
  Ok (fraction (d_div (averageRowsPerKey estimatedRows distinct) (row_double estimatedRows))).

(** [missProduct] of a union: only the probes among the children count. *)
Fixpoint union_miss (children : list IndexBitmapNode) (estimatedRows : nat) (missProduct : double) : result double :=
  match children with
  | [] => Ok missProduct
  | BN_Probe probe :: children =>
      s ← probe_selectivity probe estimatedRows;
      union_miss children estimatedRows (d_mul missProduct (d_sub d_one s))
  | _ :: children => union_miss children estimatedRows missProduct
  end.

Definition unionSelectivity (children : list IndexBitmapNode) (estimatedRows : nat) : result double :=
  missProduct ← union_miss children estimatedRows d_one;
  Ok (d_sub d_one missProduct).

Fixpoint nodeSelectivity (node : IndexBitmapNode) (estimatedRows : nat) : result double :=
  match node with
  | BN_Probe probe => probe_selectivity probe estimatedRows
  | BN_Union children => unionSelectivity children estimatedRows
  | BN_Intersect children =>
      product ← (fix go (children : list IndexBitmapNode) (product : double) : result double :=
                   match children with
                   | [] => Ok product
                   | child :: children =>
                       s ← nodeSelectivity child estimatedRows; go children (d_mul product s)
                   end) children d_one;
      Ok (fraction product)
  end.

(** ** Top-level OR *)

Definition full_scan_or (where_ : Pred) (plan : QueryPlan) : QueryPlan :=
  let e := qp_estimates plan in
  mkQueryPlan (qp_path plan)
    (mkPlanEstimates (pe_estimatedRows e) (pe_estimatedCost e) "full table scan (OR predicate)" (pe_notes e)
       (Some where_) (pe_complementaryResidual e)).

(** The disjuncts an equality index answers, and the others. *)
Fixpoint partition_disjuncts (disjuncts : list Pred) : result (list Pred * list Pred) :=
  match disjuncts with
  | [] => Ok ([], [])
  | p :: disjuncts =>
      is_probe ← isEqualityIndexProbe p;
      '(indexable, others) ← partition_disjuncts disjuncts;
      Ok (if is_probe : bool then (p :: indexable, others) else (indexable, p :: others))
  end.

Fixpoint equality_miss (indexable : list Pred) (estimatedRows : nat) (missProduct : double) : result double :=
  match indexable with
  | [] => Ok missProduct
  | p :: indexable =>
      fanout ← equalityFanout p estimatedRows;
      equality_miss indexable estimatedRows (d_mul missProduct (miss (d_div fanout (row_double estimatedRows))))
  end.

Fixpoint residual_miss (residuals : list Pred) (estimatedRows : nat) (missProduct : double) : result double :=
  match residuals with
  | [] => Ok missProduct
  | p :: residuals =>
      s ← residualDisjunctSelectivity p estimatedRows;
      residual_miss residuals estimatedRows (d_mul missProduct (d_sub d_one s))
  end.

Fixpoint make_probes (preds : list Pred) : result (list IndexEqualityProbe) :=
  match preds with
  | [] => Ok []
  | p :: preds => probe ← makeEqualityProbe p; probes ← make_probes preds; Ok (probe :: probes)
  end.

(** Separators are written before every label but those that follow an empty text. *)
Definition or_labels (probes : list IndexEqualityProbe) : string :=
  foldl (λ labels probe, (if String.eqb labels EmptyString then labels else labels +:+ ", ") +:+ probeLabel probe)
    EmptyString probes.

Definition tryPlanTopLevelOrUnion (where_ : Pred) (plan : QueryPlan) : result (option QueryPlan) :=
  match where_ with
  | OrPred _ _ =>
      let e := qp_estimates plan in
      '(indexable, residualDisjuncts) ← partition_disjuncts (collectOrDisjuncts where_);
      if bool_decide (length indexable = 0) then Ok (Some (full_scan_or where_ plan))
      else
        let n := row_double (pe_estimatedRows e) in
        indexMissProduct ← equality_miss indexable (pe_estimatedRows e) d_one;
        let indexUnionCost := at_least_one (d_mul n (d_sub d_one indexMissProduct)) in
        if negb (d_ltb indexUnionCost (pe_estimatedCost e)) then Ok (Some (full_scan_or where_ plan))
        else
          missProduct ← residual_miss residualDisjuncts (pe_estimatedRows e) indexMissProduct;
          let unionCost := at_least_one (d_mul n (d_sub d_one missProduct)) in
          probes ← make_probes indexable;
          let r := buildOrTree residualDisjuncts in
          Ok (Some (mkQueryPlan (UnionPlan (BN_Probe <$> probes))
                (mkPlanEstimates (rowsFromCost unionCost (st_rowCount stats)) unionCost
                   ("multi-index union on " +:+ or_labels probes)
                   (pe_notes e ++ match r with
                                  | Some _ => ["residual OR complementary scan for non-indexable disjuncts"]
                                  | None => []
                                  end)
                   r (pe_complementaryResidual e))))
  | _ => Ok None
  end.

(** ** The best single path *)

Record BestConjunctChoice : Type := mkBestConjunctChoice {
  bc_bestIndex : nat;
  bc_bestPath : AccessPath;
  bc_bestCost : double;
  bc_bestTrigramIntersect : option (list IndexBitmapNode);
  bc_bestUnion : option (list IndexBitmapNode)
}.

Definition consider (i : nat) (path : AccessPath) (cost : double) (trigram unionPlan : option (list IndexBitmapNode))
    (choice : BestConjunctChoice) : BestConjunctChoice :=
  let betterCost := d_ltb cost (bc_bestCost choice) in
  let same := d_eqb cost (bc_bestCost choice) in
  let firstIndexAtParity :=
    same && bool_decide (bc_bestPath choice = AP_FullScan) && negb (bool_decide (path = AP_FullScan)) in
  let preferEquality :=
    same && bool_decide (path = AP_HashEq) && negb (bool_decide (bc_bestPath choice = AP_HashEq))
    && negb (bool_decide (bc_bestPath choice = AP_FullScan)) in
  if betterCost || firstIndexAtParity || preferEquality
  then mkBestConjunctChoice i path cost trigram unionPlan
  else choice.

Definition consider_conjunct (estimatedRows i : nat) (p : Pred) (choice : BestConjunctChoice)
  : result BestConjunctChoice :=
  comparison ← isIndexableComparison p estimatedRows;
  let choice := match comparison with
                | Some (path, cost) => consider i path cost None None choice
                | None => choice
                end in
  inList ← isIndexableInList p estimatedRows;
  let choice := match inList with
                | Some cost => consider i AP_HashIn cost None None choice
                | None => choice
                end in
  like ← isIndexableLike p estimatedRows;
  let choice := match like with
                | Some (path, cost, trigramIntersect) => consider i path cost trigramIntersect None choice
                | None => choice
                end in
  unionNode ← tryMakeFullyIndexableOrUnion p;
  match unionNode with
  | Some children =>
      sel ← unionSelectivity children estimatedRows;
      let unionCost := at_least_one (d_mul (row_double estimatedRows) sel) in
      Ok (consider i AP_Union unionCost None (Some children) choice)
  | None => Ok choice
  end.

Fixpoint consider_conjuncts (estimatedRows i : nat) (conjuncts : list Pred) (choice : BestConjunctChoice)
  : result BestConjunctChoice :=
  match conjuncts with
  | [] => Ok choice
  | p :: conjuncts =>
      choice ← consider_conjunct estimatedRows i p choice;
      consider_conjuncts estimatedRows (S i) conjuncts choice
  end.

Definition chooseBestConjunctPath (conjuncts : list Pred) (fullScanCost : double) (estimatedRows : nat)
  : result BestConjunctChoice :=
  consider_conjuncts estimatedRows 0 conjuncts
    (mkBestConjunctChoice (length conjuncts) AP_FullScan fullScanCost None None).

Definition residual_note (r : option Pred) : list string :=
  match r with Some _ => ["residual filter applied after index lookup"] | None => [] end.

(** The path a choice stands for, with its explanation. *)
Definition chosen_path (chosen : Pred) (choice : BestConjunctChoice) : result (option (AccessPathPlan * string)) :=
  let on (expression : IndexExpression) := "(" +:+ implode (indexExpressionToString double_chars expression) +:+ ")" in
  match bc_bestPath choice, bc_bestTrigramIntersect choice, bc_bestUnion choice with
  | AP_HashEq, _, _ =>
      match chosen with
      | ComparisonPred column _ value _ expression _ =>
          Ok (Some (HashEqPlan column expression value [],
                    match expression with
                    | Some e => "expression hash index equality lookup on " +:+ on e
                    | None => "hash index equality lookup on " +:+ column
                    end))
      | _ => Throw bad_variant_access
      end
  | AP_OrderedRange, _, _ =>
      match chosen with
      | ComparisonPred column op value _ expression _ =>
          Ok (Some (OrderedRangePlan column expression op value,
                    match expression with
                    | Some e => "expression ordered index range lookup on " +:+ on e
                    | None => "ordered index range lookup on " +:+ column
                    end))
      | _ => Throw bad_variant_access
      end
  | AP_HashIn, _, _ =>
      match chosen with
      | InListPred column inValues expression _ =>
          let count := " (" +:+ implode (int_chars (Z.of_nat (length inValues))) +:+ " values)" in
          Ok (Some (HashInPlan column expression inValues,
                    match expression with
                    | Some e => "expression hash index IN lookup on " +:+ on e +:+ count
                    | None => "hash index IN lookup on " +:+ column +:+ count
                    end))
      | _ => Throw bad_variant_access
      end
  | AP_PrefixLike, _, _ =>
      match chosen with
      | LikePred column pattern _ =>
          match likePrefixLiteral pattern with
          | Some prefix => Ok (Some (PrefixLikePlan column prefix, "ordered index prefix LIKE on " +:+ column))
          | None => Throw (logic_error "bad optional access")
          end
      | _ => Throw bad_variant_access
      end
  | AP_Intersect, Some children, _ =>
      match chosen with
      | LikePred column _ _ => Ok (Some (IntersectPlan children, "trigram intersect for LIKE on " +:+ column))
      | _ => Throw bad_variant_access
      end
  | AP_Union, _, Some children =>
      Ok (Some (UnionPlan children, "multi-index union on " +:+ comma_separated (bitmapNodeLabel <$> children)))
  | _, _, _ => Ok None
  end.

(** A prefix or trigram probe is approximate: its LIKE stays as a filter. *)
Definition keeps_conjunct (choice : BestConjunctChoice) : bool :=
  bool_decide (bc_bestPath choice = AP_PrefixLike)
  || (bool_decide (bc_bestPath choice = AP_Intersect) && bool_decide (is_Some (bc_bestTrigramIntersect choice))).

Definition remaining_conjuncts (conjuncts : list Pred) (choice : BestConjunctChoice) : list Pred :=
  if keeps_conjunct choice then conjuncts
  else take (bc_bestIndex choice) conjuncts ++ drop (S (bc_bestIndex choice)) conjuncts.

Definition finalizeBestAccessPath (conjuncts : list Pred) (choice : BestConjunctChoice) (plan : QueryPlan)
  : result QueryPlan :=
  let e := qp_estimates plan in
  match conjuncts !! bc_bestIndex choice with
  | None => Throw (out_of_range "vector index out of range")
  | Some chosen =>
      path ← chosen_path chosen choice;
      let r := buildAndTree (remaining_conjuncts conjuncts choice) in
      let notes := pe_notes e ++ residual_note r in
      Ok (match path with
          | Some (path, explanation) =>
              mkQueryPlan path
                (mkPlanEstimates (rowsFromCost (bc_bestCost choice) (st_rowCount stats)) (bc_bestCost choice)
                   explanation notes r (pe_complementaryResidual e))
          | None =>
              mkQueryPlan (qp_path plan)
                (mkPlanEstimates (pe_estimatedRows e) (bc_bestCost choice) (pe_explanation e) notes r
                   (pe_complementaryResidual e))
          end)
  end.

(** ** Several equalities and a composite index *)

(** The first constant equality on each column, with its position. *)
Fixpoint equality_by_column (i : nat) (conjuncts : list Pred) (m : list (string * (nat * Value)))
  : list (string * (nat * Value)) :=
  match conjuncts with
  | [] => m
  | ComparisonPred column Equal value None None _ :: conjuncts =>
      equality_by_column (S i) conjuncts (smap_emplace column (i, value) m)
  | _ :: conjuncts => equality_by_column (S i) conjuncts m
  end.

Record Candidate : Type := mkCandidate {
  cd_columns : list string;
  cd_parts : list Value;
  cd_absorbed : list nat;
  cd_cost : double
}.

Fixpoint covered (m : list (string * (nat * Value))) (columns : list string) : option (list Value * list nat) :=
  match columns with
  | [] => Some ([], [])
  | column :: columns =>
      '(i, v) ← smap_find column m;
      '(parts, absorbed) ← covered m columns;
      Some (v :: parts, i :: absorbed)
  end.

(** The product of the distinct counts of the columns, at most [n]. *)
Fixpoint independent_distinct (n : nat) (columns : list string) (distinct : nat) : result nat :=
  match columns with
  | [] => Ok (Nat.min distinct n)
  | column :: columns =>
      part ← distinctOrOne column;
      if Nat.ltb (n / Nat.max part 1) distinct then Ok n
      else independent_distinct n columns (distinct * part)
  end.

Definition composite_candidate (m : list (string * (nat * Value))) (columns : list string)
  : result (option Candidate) :=
  if Nat.ltb (length columns) 2 then Ok None
  else
    has ← iv_hasIndexOn indexes columns;
    if negb has then Ok None
    else
      match covered m columns with
      | None => Ok None
      | Some (parts, absorbed) =>
          let n := Nat.max (st_rowCount stats) 1 in
          known ← iv_indexDistinctCountOn indexes columns;
          let distinct := default 0 known in
          distinct ← (if Nat.eqb distinct 0 then independent_distinct n columns 1 else Ok distinct);
          Ok (Some (mkCandidate columns parts absorbed (averageRowsPerKey n distinct)))
      end.

Fixpoint best_candidate (m : list (string * (nat * Value))) (composites : list (list string)) (bestCost : double)
    (best : option Candidate) : result (option Candidate) :=
  match composites with
  | [] => Ok best
  | columns :: composites =>
      candidate ← composite_candidate m columns;
      let best :=
        match candidate with
        | None => best
        | Some c =>
            if d_ltb bestCost (cd_cost c) then best
            else
              match best with
              | None => Some c
              | Some b =>
                  if d_ltb (cd_cost c) (cd_cost b)
                     || (d_eqb (cd_cost c) (cd_cost b) && Nat.ltb (length (cd_columns b)) (length (cd_columns c)))
                  then Some c else Some b
              end
        end in
      best_candidate m composites bestCost best
  end.

(** The elements of a list whose position is not in [absorbed]. *)
Definition not_absorbed (absorbed : list nat) (conjuncts : list Pred) : list Pred :=
  (filter (λ e, negb (existsb (Nat.eqb e.1) absorbed) = true) (imap pair conjuncts)).*2.

Definition tryPlanCompositeHashEq (conjuncts : list Pred) (bestCost : double) (plan : QueryPlan)
  : result (option QueryPlan) :=
  let m := equality_by_column 0 conjuncts [] in
  if Nat.ltb (length m) 2 then Ok None
  else
    composites ← iv_compositeIndexColumnLists indexes;
    best ← best_candidate m composites bestCost None;
    match best with
    | None => Ok None
    | Some best =>
        key ← composite (cd_parts best);
        let e := qp_estimates plan in
        let r := buildAndTree (not_absorbed (cd_absorbed best) conjuncts) in
        Ok (Some (mkQueryPlan (HashEqPlan (default EmptyString (head (cd_columns best))) None key (cd_columns best))
              (mkPlanEstimates (rowsFromCost (cd_cost best) (st_rowCount stats)) (cd_cost best)
                 ("hash index equality lookup on " +:+ comma_separated (cd_columns best))
                 (pe_notes e ++ ["composite index equality for multi-column AND"] ++ residual_note r)
                 r (pe_complementaryResidual e))))
    end.

(** ** AND as an intersection *)

Record AbsorbedOr : Type := mkAbsorbedOr {
  ao_original : Pred;
  ao_residualDisjuncts : list Pred
}.

(** What the loop over the conjuncts collects. *)
Record AndSplit : Type := mkAndSplit {
  as_children : list IndexBitmapNode;
  as_equalityConjuncts : list Pred;
  as_absorbedOrs : list AbsorbedOr;
  as_residualConjuncts : list Pred
}.

Fixpoint split_conjuncts (conjuncts : list Pred) : result AndSplit :=
  match conjuncts with
  | [] => Ok (mkAndSplit [] [] [] [])
  | p :: conjuncts =>
      is_probe ← isEqualityIndexProbe p;
      if is_probe : bool then
        probe ← makeEqualityProbe p;
        s ← split_conjuncts conjuncts;
        Ok (mkAndSplit (BN_Probe probe :: as_children s) (p :: as_equalityConjuncts s) (as_absorbedOrs s)
              (as_residualConjuncts s))
      else
        split ← tryMakeOrUnionSplit p;
        s ← split_conjuncts conjuncts;
        match split with
        | Some split =>
            Ok (mkAndSplit (os_unionNode split :: as_children s) (as_equalityConjuncts s)
                  (mkAbsorbedOr p (os_residualDisjuncts split) :: as_absorbedOrs s) (as_residualConjuncts s))
        | None =>
            Ok (mkAndSplit (as_children s) (as_equalityConjuncts s) (as_absorbedOrs s)
                  (p :: as_residualConjuncts s))
        end
  end.

Fixpoint intersect_rows (children : list IndexBitmapNode) (estimatedRows : nat) (rows : double) : result double :=
  match children with
  | [] => Ok rows
  | child :: children =>
      s ← nodeSelectivity child estimatedRows; intersect_rows children estimatedRows (d_mul rows s)
  end.

Definition partial_or (absorbed : AbsorbedOr) : bool := negb (bool_decide (length (ao_residualDisjuncts absorbed) = 0)).

Fixpoint absorbed_miss (absorbedOrs : list AbsorbedOr) (rowCount : nat) (missProduct : double) : result double :=
  match absorbedOrs with
  | [] => Ok missProduct
  | absorbed :: absorbedOrs =>
      if negb (partial_or absorbed) then
        full ← tryMakeFullyIndexableOrUnion (ao_original absorbed);
        match full with
        | Some children =>
            s ← nodeSelectivity (BN_Union children) rowCount;
            absorbed_miss absorbedOrs rowCount (d_mul missProduct (d_sub d_one s))
        | None => absorbed_miss absorbedOrs rowCount missProduct
        end
      else
        orMiss ← residual_miss (ao_residualDisjuncts absorbed) rowCount d_one;
        absorbed_miss absorbedOrs rowCount (d_mul missProduct orMiss)
  end.

(** The estimate with the complementary scan folded in. *)
Definition explain_cost (s : AndSplit) (intersectCost : double) : result double :=
  let rowCount := st_rowCount stats in
  let tableN := row_double rowCount in
  let mainSel := fraction (d_div intersectCost tableN) in
  m ← equality_miss (as_equalityConjuncts s) rowCount d_one;
  m ← absorbed_miss (as_absorbedOrs s) rowCount m;
  m ← residual_miss (as_residualConjuncts s) rowCount m;
  let complementarySel := d_sub d_one m in
  let combinedSel := fraction (d_sub (d_add mainSel complementarySel) (d_mul mainSel complementarySel)) in
  Ok (at_least_one (d_mul tableN combinedSel)).

Definition is_union (node : IndexBitmapNode) : bool := match node with BN_Union _ => true | _ => false end.

Definition intersect_explanation (children : list IndexBitmapNode) : string :=
  let unions := filter (λ c, is_union c = true) children in
  let probes := filter (λ c, is_union c = false) children in
  let unionLabels := comma_separated (bitmapNodeLabel <$> unions) in
  let probeLabels := comma_separated (bitmapNodeLabel <$> probes) in
  "multi-index intersect on " +:+
  match probes, unions with
  | _ :: _, _ :: _ => probeLabels +:+ " with " +:+ unionLabels
  | _ :: _, [] => probeLabels
  | [], _ => unionLabels
  end.

(** The rows an index cannot find: the equalities, the fully indexed ORs and the
    filters hold in full, and of each partial OR a disjunct without an index. *)
Definition complementary_parts (s : AndSplit) : list Pred :=
  as_equalityConjuncts s
  ++ omap (λ a, if partial_or a then buildOrTree (ao_residualDisjuncts a) else Some (ao_original a)) (as_absorbedOrs s)
  ++ as_residualConjuncts s.

Definition tryPlanAndIntersect (conjuncts : list Pred) (bestCost : double) (plan : QueryPlan)
  : result (option QueryPlan) :=
  s ← split_conjuncts conjuncts;
  if Nat.ltb (length (as_children s)) 2 then Ok None
  else
    let e := qp_estimates plan in
    intersectRows ← intersect_rows (as_children s) (pe_estimatedRows e) (row_double (pe_estimatedRows e));
    let intersectCost := at_least_one intersectRows in
    if negb (d_ltb intersectCost bestCost) then Ok None
    else
      let hasPartialNestedOr := existsb partial_or (as_absorbedOrs s) in
      explainCost ← (if hasPartialNestedOr then explain_cost s intersectCost else Ok intersectCost);
      let r := buildAndTree (as_residualConjuncts s) in
      Ok (Some (mkQueryPlan (IntersectPlan (as_children s))
            (mkPlanEstimates (rowsFromCost explainCost (st_rowCount stats)) explainCost
               (intersect_explanation (as_children s))
               (pe_notes e
                ++ (if existsb is_union (as_children s)
                    then ["composite Intersect∪Union for nested OR under AND"] else [])
                ++ residual_note r
                ++ (if hasPartialNestedOr
                    then ["partial nested OR complementary scan under AND for non-indexable disjuncts"] else []))
               r
               (if hasPartialNestedOr then buildAndTree (complementary_parts s)
                else pe_complementaryResidual e)))).

(** ** SELECT *)

Definition rewritten (p : Pred) : Pred := default p (tryRewriteSameColumnEqualityOrToIn p).

Definition planSelect (query : Select) : result QueryPlan :=
  let rows := st_rowCount stats in
  let plan := mkQueryPlan FullScanPlan
                (mkPlanEstimates rows (row_double rows) "full table scan" [] None None) in
  match sel_where query with
  | None => Ok plan
  | Some query_where =>
      let where_ := rewritten query_where in
      union ← tryPlanTopLevelOrUnion where_ plan;
      match union with
      | Some plan => Ok plan
      | None =>
          let conjuncts := rewritten <$> collectAndConjuncts where_ in
          choice ← chooseBestConjunctPath conjuncts (row_double rows) rows;
          hashEq ← tryPlanCompositeHashEq conjuncts (bc_bestCost choice) plan;
          match hashEq with
          | Some plan => Ok plan
          | None =>
              intersect ← tryPlanAndIntersect conjuncts (bc_bestCost choice) plan;
              match intersect with
              | Some plan => Ok plan
              | None =>
                  if Nat.eqb (bc_bestIndex choice) (length conjuncts)
                  then Ok (mkQueryPlan (qp_path plan) (with_residual (Some query_where) (qp_estimates plan)))
                  else finalizeBestAccessPath conjuncts choice plan
              end
          end
      end
  end.
End planner.
