(* ===== verification/JoinPlanner.v ===== *)
(** * Tables and the planner; joins; EXPLAIN

    [src/planner/query_planner_join.cpp] and [query_planner_format.cpp]: the algorithm
    of a join and the text of a plan; what a table shows the planner of statistics
    and indexes ([src/storage/table_indexes.cpp]). *)

From S2P Require Import Prelude Value Float64 VectorRowStore StringPattern IndexExpression Predicate SetOps Histogram Selectivity IndexManager Table Ast Planner.
From Stdlib Require Import Ascii.
Local Open Scope nat_scope.

(** ** What a table shows the planner *)

Section table_view.
Context {S : Type} `{RowStore S}.
Abbreviation Table := (Table Select S).

Definition table_stats (t : Table) : RelationStats :=
  mkRelationStats (rs_size (t_rowStore t)) (λ column, columnHistogram column (t_statistics t)).

Definition composite_lists (definitions : list IndexDefinition) : list (list string) :=
  id_columns <$> filter (λ d, bool_decide (id_expression d = None) && Nat.leb 2 (length (id_columns d)) = true) definitions.

Definition table_composites (t : Table) : result (list (list string)) :=
  definitions ← indexDefinitions (t_indexManager t) (t_schema t); Ok (composite_lists definitions).

Definition table_view (t : Table) : IndexCatalogView :=
  let im := t_indexManager t in
  let schema := t_schema t in
  mkIndexCatalogView (λ column, hasIndex im [column] schema) (λ columns, hasIndex im columns schema)
    (hasExpressionIndex im) (λ column, indexDistinctCount im [column] schema)
    (λ columns, indexDistinctCount im columns schema) (indexDistinctCount_expr im) (table_composites t).

Definition planSelect_table (double_chars : Z → chars) (llround_out : double → Z) (query : Select) (t : Table)
  : result QueryPlan :=
  planSelect double_chars llround_out (table_stats t) (table_view t) query.

(** ** Joins *)

Inductive JoinAlgorithm : Type := JA_HashJoin | JA_NestedLoopIndexProbe.

#[export] Instance JoinAlgorithm_eq_dec : EqDecision JoinAlgorithm.
Proof. solve_decision. Defined.

Record JoinPlan : Type := mkJoinPlan {
  jp_algorithm : JoinAlgorithm;
  jp_outerIsLeft : bool;
  jp_probeTable : string;
  jp_probeColumn : string;
  jp_estimatedRows : nat;
  jp_estimatedCost : double;
  jp_explanation : string
}.

Definition isEquiJoin (join : JoinClause) : bool :=
  negb (bool_decide (jc_kind join = JK_Cross)) && bool_decide (jc_op join = Equal).

Definition forcesNestedLoop (kind : JoinKind) : bool :=
  match kind with JK_LeftOuter | JK_RightOuter | JK_FullOuter | JK_Cross => true | JK_Inner => false end.

Definition joinKindLabel (kind : JoinKind) : string :=
  match kind with
  | JK_LeftOuter => "left outer"
  | JK_RightOuter => "right outer"
  | JK_FullOuter => "full outer"
  | JK_Cross => "cross"
  | JK_Inner => "inner"
  end.

Definition table_hasIndex (t : Table) (column : string) : result bool := hasIndex (t_indexManager t) [column] (t_schema t).

(** Scanning [outerRows] rows and probing the index of [t] on [column]. *)
Definition probe_cost (outerRows : nat) (t : Table) (column : string) : result double :=
  distinct ← distinctOrOne (table_stats t) (table_view t) column;
  Ok (d_mul (row_double outerRows) (averageRowsPerKey (rs_size (t_rowStore t)) distinct)).

Definition probed (t : Table) (column : string) : string :=
  "(index probe on " +:+ t_name t +:+ "." +:+ column +:+ ")".

(** The product and the sum of the numbers of rows, each at least one; a product
    below 2^64. *)
Definition product_cost (leftRows rightRows : nat) : double := double_of_nat (Nat.max leftRows 1 * Nat.max rightRows 1).
Definition sum_cost (leftRows rightRows : nat) : double := double_of_nat (Nat.max leftRows 1 + Nat.max rightRows 1).

Definition nested_loop (rows : nat) (outerIsLeft : bool) (t : Table) (column : string) (cost : double)
    (label : string) : JoinPlan :=
  mkJoinPlan JA_NestedLoopIndexProbe outerIsLeft (t_name t) column rows cost (label +:+ probed t column).

(** [considerNested]. *)
Definition consider_nested (outerIsLeft : bool) (outerRows : nat) (t : Table) (column : string) (plan : JoinPlan)
  : result JoinPlan :=
  indexed ← table_hasIndex t column;
  if negb indexed then Ok plan
  else
    cost ← probe_cost outerRows t column;
    Ok (if d_ltb cost (jp_estimatedCost plan)
        then nested_loop (jp_estimatedRows plan) outerIsLeft t column cost "nested loop join "
        else plan).

Definition planJoin (left right : Table) (join : JoinClause) : result JoinPlan :=
  let leftRows := rs_size (t_rowStore left) in
  let rightRows := rs_size (t_rowStore right) in
  let rows := Nat.max leftRows rightRows in
  let label := joinKindLabel (jc_kind join) +:+ " nested loop join" in
  if bool_decide (jc_kind join = JK_Cross) then
    Ok (mkJoinPlan JA_NestedLoopIndexProbe true EmptyString EmptyString rows (product_cost leftRows rightRows)
          "cross nested loop join")
  else if negb (isEquiJoin join) || forcesNestedLoop (jc_kind join) then
    let scan := Ok (mkJoinPlan JA_NestedLoopIndexProbe true EmptyString EmptyString rows
                      (product_cost leftRows rightRows) label) in
    if negb (isEquiJoin join) then scan
    else if negb (bool_decide (jc_kind join = JK_RightOuter)) then
      indexed ← table_hasIndex right (jc_rightColumn join);
      if indexed : bool then
        cost ← probe_cost leftRows right (jc_rightColumn join);
        Ok (nested_loop rows true right (jc_rightColumn join) cost (label +:+ " "))
      else scan
    else
      indexed ← table_hasIndex left (jc_leftColumn join);
      if indexed : bool then
        cost ← probe_cost rightRows left (jc_leftColumn join);
        Ok (nested_loop rows false left (jc_leftColumn join) cost (label +:+ " "))
      else scan
  else
    let plan := mkJoinPlan JA_HashJoin true EmptyString EmptyString rows (sum_cost leftRows rightRows) "hash join" in
    plan ← consider_nested true leftRows right (jc_rightColumn join) plan;
    consider_nested false rightRows left (jc_leftColumn join) plan.

Definition planJoinAgainstRows (leftRows : nat) (right : Table) (join : JoinClause) : result JoinPlan :=
  let rightRows := rs_size (t_rowStore right) in
  let rows := Nat.max leftRows rightRows in
  let label := joinKindLabel (jc_kind join) +:+ " nested loop join" in
  if bool_decide (jc_kind join = JK_Cross) then
    Ok (mkJoinPlan JA_NestedLoopIndexProbe true EmptyString EmptyString rows (product_cost leftRows rightRows)
          "cross nested loop join")
  else if negb (isEquiJoin join) || forcesNestedLoop (jc_kind join) then
    let scan := Ok (mkJoinPlan JA_NestedLoopIndexProbe true EmptyString EmptyString rows
                      (product_cost leftRows rightRows) label) in
    if negb (isEquiJoin join) || bool_decide (jc_kind join = JK_RightOuter) then scan
    else
      indexed ← table_hasIndex right (jc_rightColumn join);
      if indexed : bool then
        cost ← probe_cost leftRows right (jc_rightColumn join);
        Ok (nested_loop rows true right (jc_rightColumn join) cost (label +:+ " "))
      else scan
  else
    consider_nested true leftRows right (jc_rightColumn join)
      (mkJoinPlan JA_HashJoin true EmptyString EmptyString rows (sum_cost leftRows rightRows) "hash join").
End table_view.

(** ** EXPLAIN

    [cost_text] is [std::ostream << double], [time_text] the same with
    [std::fixed] and three digits. *)

Section explain.
Context (cost_text time_text : double → string).

Definition newline : string := implode [ascii_of_nat 10].
Definition count_text (n : nat) : string := implode (int_chars (Z.of_nat n)).
Definition estimate_text (rows : nat) (cost : double) : string :=
  newline +:+ "est_rows=" +:+ count_text rows +:+ " cost=" +:+ cost_text cost.

Definition formatPlanExplanation (plan : QueryPlan) : string :=
  let e := qp_estimates plan in
  foldl (λ out note, out +:+ newline +:+ note) (pe_explanation e) (pe_notes e)
  +:+ (if bool_decide (is_Some (pe_residual e)) || bool_decide (is_Some (pe_complementaryResidual e))
       then newline +:+ "residual: yes"
       else if negb (bool_decide (accessPath plan = AP_FullScan)) then newline +:+ "residual: no"
       else EmptyString)
  +:+ estimate_text (pe_estimatedRows e) (pe_estimatedCost e).

Definition formatJoinPlanExplanation (plan : JoinPlan) : string :=
  jp_explanation plan +:+ estimate_text (jp_estimatedRows plan) (jp_estimatedCost plan).

Definition appendExplainAnalyzeActuals (planText : string) (actualRows : nat) (candidates : option nat)
    (timeMs : option double) : string :=
  planText +:+ newline +:+ "actual_rows=" +:+ count_text actualRows
  +:+ match candidates with Some c => newline +:+ "candidates=" +:+ count_text c | None => EmptyString end
  +:+ match timeMs with Some t => newline +:+ "actual_time_ms=" +:+ time_text t | None => EmptyString end.
End explain.
