(* ===== verification/PlannerProof.v ===== *)
(** * Plans answer the WHERE clause

    For one row: a plan [planSelect] returns accepts the row, by its access path
    together with its filters, exactly when the row satisfies the WHERE clause.  The
    truth of the leaves of the clause and the tests the index lookups stand for are
    parameters of a section; [SelectScanProof] instantiates them with the rows of a
    table. *)

From S2P Require Import Prelude Value Float64 StringPattern IndexExpression Predicate SetOps Histogram Selectivity IndexManager IndexManagerProof Table Ast Planner.
Local Open Scope nat_scope.

(** ** AND and OR as lists *)

Section row_logic.
Context (ev : Pred → bool).

(** The truth of a clause from the truth of its leaves. *)
Fixpoint holds (p : Pred) : bool :=
  match p with
  | AndPred l r => holds l && holds r
  | OrPred l r => holds l || holds r
  | _ => ev p
  end.

Lemma collectAndConjuncts_holds p : forallb holds (collectAndConjuncts p) = holds p.
Proof.
  induction p as [| l IHl r IHr | | | | | |]; cbn [collectAndConjuncts forallb holds]; try by rewrite andb_true_r.
  by rewrite forallb_app, IHl, IHr.
Qed.

Lemma collectOrDisjuncts_holds p : existsb holds (collectOrDisjuncts p) = holds p.
Proof.
  induction p as [| | l IHl r IHr | | | | |]; cbn [collectOrDisjuncts existsb holds]; try by rewrite orb_false_r.
  by rewrite existsb_app, IHl, IHr.
Qed.

Lemma buildAndTree_holds ps : default true (holds <$> buildAndTree ps) = forallb holds ps.
Proof.
  destruct ps as [|p ps]; [done|]. simpl. revert p.
  induction ps as [|q ps IH]; intros p; simpl; [by rewrite andb_true_r|]. rewrite IH. simpl. by rewrite andb_assoc.
Qed.

Lemma buildOrTree_holds ps : default false (holds <$> buildOrTree ps) = existsb holds ps.
Proof.
  destruct ps as [|p ps]; [done|]. simpl. revert p.
  induction ps as [|q ps IH]; intros p; simpl; [by rewrite orb_false_r|]. rewrite IH. simpl. by rewrite orb_assoc.
Qed.

(** ** The tests of the index lookups *)

Context (cmp_test : string → option IndexExpression → ComparisonOperator → Value → bool).
Context (gram_test prefix_test : string → string → bool).
(** Leaves whose evaluation returns. *)
Context (fine : Pred → Prop).

Record leaf_laws : Prop := {
  ll_comparison c op v e o : ev (ComparisonPred c op v None e o) = cmp_test c e op v;
  ll_inList c vs e o : ev (InListPred c vs e o) = existsb (cmp_test c e Equal) vs;
  ll_prefix c pattern literal o : likePrefixLiteral pattern = Some literal →
    ev (LikePred c pattern o) = true → prefix_test c literal = true;
  ll_gram c pattern literal gram o : likeContainsLiteral pattern = Some literal → 3 ≤ String.length literal →
    gram ∈ extractTrigrams literal → ev (LikePred c pattern o) = true → gram_test c gram = true;
  ll_fine c v vs e o : fine (ComparisonPred c Equal v None e o) → fine (InListPred c vs e o)
}.

Definition is_trigram (e : IndexExpression) : bool := bool_decide (ie_kind e = K_Trigram).

Definition probe_test (probe : IndexEqualityProbe) : bool :=
  match pr_expression probe with
  | Some e =>
      if is_trigram e then match pr_value probe with VString g => gram_test (ie_column e) g | _ => false end
      else cmp_test (pr_column probe) (Some e) Equal (pr_value probe)
  | None => cmp_test (pr_column probe) None Equal (pr_value probe)
  end.

Fixpoint node_test (node : IndexBitmapNode) : bool :=
  match node with
  | BN_Probe probe => probe_test probe
  | BN_Intersect children => forallb node_test children
  | BN_Union children => existsb node_test children
  end.

Definition parts_test (columns : list string) (parts : list Value) : bool :=
  forallb (λ x, cmp_test x.1 None Equal x.2) (zip columns parts).

Definition path_test (path : AccessPathPlan) : bool :=
  match path with
  | FullScanPlan => true
  | HashEqPlan c e v columns =>
      match columns with
      | [] => cmp_test c e Equal v
      | _ => match v with VComposite parts => parts_test columns parts | _ => false end
      end
  | OrderedRangePlan c e op v => cmp_test c e op v
  | HashInPlan c e vs => existsb (cmp_test c e Equal) vs
  | IntersectPlan children => forallb node_test children
  | UnionPlan children => existsb node_test children
  | PrefixLikePlan c prefix => prefix_test c prefix
  end.

Definition opt_holds (d : bool) (p : option Pred) : bool := default d (holds <$> p).

(** The rows the executor returns for a plan: a scan filters with the WHERE clause
    itself, the residual of a union adds rows, any other residual removes some, and
    the complementary residual adds rows. *)
Definition plan_test (query_where : option Pred) (plan : QueryPlan) : bool :=
  match qp_path plan with
  | FullScanPlan => opt_holds true query_where
  | UnionPlan _ => path_test (qp_path plan) || opt_holds false (residual plan)
  | IntersectPlan _ =>
      path_test (qp_path plan) && opt_holds true (residual plan) || opt_holds false (complementaryResidual plan)
  | _ => path_test (qp_path plan) && opt_holds true (residual plan)
  end.

(** ** Clauses the planner handles exactly

    [exprs] holds the expressions of the clause and of the indexes: none of them is
    compared as a trigram set, and two that [==] identifies are the same. *)

Context (exprs : list IndexExpression).

Definition exprs_ok : Prop :=
  (∀ e, e ∈ exprs → is_trigram e = false) ∧
  (∀ e e', e ∈ exprs → e' ∈ exprs → IndexExpression_eqb e e' = true → e = e').

Definition expression_ok (e : option IndexExpression) : Prop := ∀ x, e = Some x → x ∈ exprs.

Fixpoint clause_ok (p : Pred) : Prop :=
  match p with
  | AndPred l r | OrPred l r => clause_ok l ∧ clause_ok r
  | ComparisonPred _ _ v _ e _ => comparable v ∧ expression_ok e ∧ fine p
  | InListPred _ vs e _ => Forall (λ v, comparable v) vs ∧ expression_ok e ∧ fine p
  | _ => fine p
  end.

Lemma buildAndTree_ok ps p : Forall clause_ok ps → buildAndTree ps = Some p → clause_ok p.
Proof.
  destruct ps as [|q ps]; [done|]. simpl. intros [Hq Hps]%Forall_cons [= <-]. revert q Hq.
  induction Hps as [|p ps Hp _ IH]; intros q Hq; [done|]. by apply IH.
Qed.
Lemma buildOrTree_ok ps p : Forall clause_ok ps → buildOrTree ps = Some p → clause_ok p.
Proof.
  destruct ps as [|q ps]; [done|]. simpl. intros [Hq Hps]%Forall_cons [= <-]. revert q Hq.
  induction Hps as [|p ps Hp _ IH]; intros q Hq; [done|]. by apply IH.
Qed.

Lemma conjuncts_ok p : clause_ok p → Forall clause_ok (collectAndConjuncts p).
Proof.
  induction p as [| l IHl r IHr | | | | | |]; cbn [collectAndConjuncts clause_ok]; intros Hp; try by constructor.
  apply Forall_app. destruct Hp. auto.
Qed.

Lemma disjuncts_ok p : clause_ok p → Forall clause_ok (collectOrDisjuncts p).
Proof.
  induction p as [| | l IHl r IHr | | | | |]; cbn [collectOrDisjuncts clause_ok]; intros Hp; try by constructor.
  apply Forall_app. destruct Hp. auto.
Qed.

Context (laws : leaf_laws) (Hexprs : exprs_ok).

(** ** The rewriting to IN *)

Lemma expression_eqb_eq e e' : expression_ok e → expression_ok e' → expression_eqb e e' = true → e = e'.
Proof.
  intros He He'. destruct e as [e|], e' as [e'|]; simpl; try done. intros E. f_equal.
  apply (proj2 Hexprs); auto.
Qed.

Lemma same_column_values_holds c e ds vs : expression_ok e → Forall clause_ok ds →
  same_column_values c e ds = Some vs →
  existsb (cmp_test c e Equal) vs = existsb holds ds ∧ Forall (λ v, comparable v) vs.
Proof.
  intros He Hds. revert vs. induction Hds as [|d ds Hd _ IH]; intros vs; [by intros [= <-]|]. cbn [same_column_values].
  destruct d as [c' op v rhs e' o| | | | | | |]; try done. destruct op; try done. destruct rhs; [done|].
  destruct (String.eqb_spec c' c) as [->|]; [|done]. simpl. destruct (expression_eqb e' e) eqn:Ee; [|done].
  destruct (same_column_values c e ds) as [vs'|]; [|done]. intros [= <-]. destruct Hd as (Hv & He' & _).
  apply expression_eqb_eq in Ee as ->; [|done..]. destruct (IH vs' eq_refl) as [E Hvs].
  simpl. rewrite E, (ll_comparison laws). split; [done|by constructor].
Qed.

Lemma rewritten_ok p : clause_ok p → holds (rewritten p) = holds p ∧ clause_ok (rewritten p).
Proof.
  intros Hp. unfold rewritten, tryRewriteSameColumnEqualityOrToIn. destruct p as [| |l r| | | | |]; try done.
  pose proof (disjuncts_ok _ Hp) as Hds. pose proof (collectOrDisjuncts_holds (OrPred l r)) as Eh.
  destruct (collectOrDisjuncts (OrPred l r)) as [|d ds]; [done|].
  destruct d as [c op v rhs e o| | | | | | |]; try done. destruct op; try done. destruct rhs; [done|].
  destruct ds as [|d' ds]; [done|]. apply Forall_cons in Hds as [(Hv & He & Hf) Hds].
  cbn [mbind option_bind]. destruct (same_column_values c e (d' :: ds)) as [vs|] eqn:Es; [|done]. cbn [mbind option_bind from_option id].
  destruct (same_column_values_holds c e _ vs He Hds Es) as [E Hvs].
  split; [|by split_and!; [constructor|done|by eapply (ll_fine laws)]].
  rewrite <- Eh. cbn [holds existsb]. rewrite (ll_inList laws). cbn [existsb]. rewrite E. cbn [existsb holds].
  by rewrite (ll_comparison laws).
Qed.

Lemma rewritten_list ps : Forall clause_ok ps →
  forallb holds (rewritten <$> ps) = forallb holds ps ∧ Forall clause_ok (rewritten <$> ps).
Proof.
  induction 1 as [|p ps Hp _ [IH1 IH2]]; [done|]. destruct (rewritten_ok p Hp) as [E H]. csimpl.
  rewrite E, IH1. split; [done|by constructor].
Qed.

(** ** Probes *)

Context (double_chars : Z → chars) (llround_out : double → Z).
Context (stats : RelationStats) (indexes : IndexCatalogView).

(** An index for the probe exists, and its key can be compared. *)
Definition probe_ok (probe : IndexEqualityProbe) : Prop :=
  comparable (pr_value probe) ∧
  match pr_expression probe with
  | Some e =>
      iv_hasExpressionIndex indexes e = true ∧
      (e ∈ exprs ∨ e = mkIndexExpression K_Trigram (pr_column probe) VNull ∧ ∃ g, pr_value probe = VString g)
  | None => iv_hasIndex indexes (pr_column probe) = Ok true
  end.

Fixpoint node_ok (node : IndexBitmapNode) : Prop :=
  match node with
  | BN_Probe probe => probe_ok probe
  | BN_Intersect children | BN_Union children => children ≠ [] ∧ foldr (λ c P, node_ok c ∧ P) True children
  end.

Lemma node_ok_children children : foldr (λ c P, node_ok c ∧ P) True children ↔ Forall node_ok children.
Proof. induction children as [|c cs IH]; simpl; [done|]. by rewrite Forall_cons, IH. Qed.

Lemma equality_probe_ok p : clause_ok p → isEqualityIndexProbe indexes p = Ok true →
  ∃ probe, makeEqualityProbe p = Ok probe ∧ probe_ok probe ∧ probe_test probe = holds p.
Proof.
  destruct p as [c op v rhs e o| | | | | | |]; try done. intros (Hv & He & _) Hp. cbn [makeEqualityProbe].
  destruct op; try done. destruct rhs; [by destruct e|]. eexists. split; [done|]. cbn [holds].
  rewrite (ll_comparison laws). destruct e as [e|]; simpl in Hp.
  - injection Hp as Hp. pose proof (He e eq_refl) as Hin. unfold probe_ok, probe_test. cbn.
    rewrite (proj1 Hexprs e Hin). naive_solver.
  - done.
Qed.

Lemma split_disjuncts_ok ds split : Forall clause_ok ds → split_disjuncts indexes ds = Ok split →
  existsb holds ds = existsb node_test (os_probes split) || existsb holds (os_residualDisjuncts split) ∧
  Forall node_ok (os_probes split) ∧ Forall clause_ok (os_residualDisjuncts split).
Proof.
  intros Hds. revert split. induction Hds as [|p ds Hp _ IH]; intros split; [by intros [= <-]|].
  cbn [split_disjuncts]. intros E. inv_result E. destruct a.
  - destruct (equality_probe_ok p Hp Hr) as (probe & Em & Hok & Ht). rewrite Em in E. cbn [mbind result_bind] in E. inv_result E.
    injection E as <-. destruct (IH _ eq_refl) as (Eh & Hps & Hrs). cbn [os_probes os_residualDisjuncts existsb node_test].
    rewrite Eh, Ht. split; [by rewrite orb_assoc|]. split; [by constructor|done].
  - inv_result E. injection E as <-. destruct (IH _ eq_refl) as (Eh & Hps & Hrs).
    cbn [os_probes os_residualDisjuncts existsb]. rewrite Eh. split; [|by split; [|constructor]].
    by destruct (holds p), (existsb node_test _), (existsb holds _).
Qed.

Lemma tryMakeOrUnionSplit_ok p split : clause_ok p → tryMakeOrUnionSplit indexes p = Ok (Some split) →
  holds p = node_test (os_unionNode split) || existsb holds (os_residualDisjuncts split) ∧
  node_ok (os_unionNode split) ∧ Forall clause_ok (os_residualDisjuncts split).
Proof.
  intros Hp. unfold tryMakeOrUnionSplit. pose proof (disjuncts_ok p Hp) as Hds.
  pose proof (collectOrDisjuncts_holds p) as Eh. destruct p as [| |l r| | | | |]; try done. intros E. inv_result E.
  case_bool_decide as Hl; [done|]. injection E as ->. destruct (split_disjuncts_ok _ _ Hds Hr) as (E & Hok & Hres).
  rewrite <- Eh, E. split; [done|]. split; [|done]. simpl. split; [by intros Hn; rewrite Hn in Hl|].
  by apply node_ok_children.
Qed.

Lemma fully_indexable_ok p children : clause_ok p → tryMakeFullyIndexableOrUnion indexes p = Ok (Some children) →
  existsb node_test children = holds p ∧ Forall node_ok children ∧ children ≠ [].
Proof.
  intros Hp E. unfold tryMakeFullyIndexableOrUnion in E. inv_result E. destruct a as [split|]; [|done].
  case_bool_decide as Hl; [|done]. injection E as <-.
  destruct (tryMakeOrUnionSplit_ok p split Hp Hr) as (Eh & [Hne Hok] & _). apply node_ok_children in Hok.
  apply nil_length_inv in Hl. rewrite Eh, Hl. simpl. by rewrite orb_false_r.
Qed.

(** ** A top-level OR *)

Lemma partition_disjuncts_ok ds ix others : Forall clause_ok ds → partition_disjuncts indexes ds = Ok (ix, others) →
  existsb holds ds = existsb holds ix || existsb holds others ∧
  Forall (λ p, clause_ok p ∧ isEqualityIndexProbe indexes p = Ok true) ix ∧ Forall clause_ok others.
Proof.
  intros Hds. revert ix others. induction Hds as [|p ds Hp _ IH]; intros ix others; [by intros [= <- <-]|].
  cbn [partition_disjuncts]. intros E. inv_result E. destruct a0 as [ix' others'].
  destruct (IH _ _ eq_refl) as (Eh & Hix & Ho). destruct a; injection E as <- <-; simpl; rewrite Eh; split_and!; try done.
  - by rewrite orb_assoc.
  - by constructor.
  - by destruct (holds p), (existsb holds ix').
  - by constructor.
Qed.

Lemma make_probes_ok ix probes : Forall (λ p, clause_ok p ∧ isEqualityIndexProbe indexes p = Ok true) ix →
  make_probes ix = Ok probes →
  existsb node_test (BN_Probe <$> probes) = existsb holds ix ∧ Forall node_ok (BN_Probe <$> probes) ∧
  length probes = length ix.
Proof.
  intros Hix. revert probes. induction Hix as [|p ix [Hp Hi] _ IH]; intros probes; [by intros [= <-]|].
  cbn [make_probes]. destruct (equality_probe_ok p Hp Hi) as (probe & -> & Hok & Ht). cbn [mbind result_bind].
  intros E. inv_result E. injection E as <-. destruct (IH _ eq_refl) as (Eh & Hps & El). csimpl.
  rewrite Ht, Eh, El. split; [done|]. by split; [constructor|].
Qed.

(** ** Access paths *)

(** An index on the column or the expression exists. *)
Definition key_ok (c : string) (e : option IndexExpression) : Prop :=
  match e with
  | Some e => iv_hasExpressionIndex indexes e = true ∧ e ∈ exprs
  | None => iv_hasIndex indexes c = Ok true
  end.

Definition path_ok (path : AccessPathPlan) : Prop :=
  match path with
  | FullScanPlan => True
  | HashEqPlan c e v [] => key_ok c e ∧ comparable v
  | HashEqPlan _ e v columns =>
      e = None ∧ iv_hasIndexOn indexes columns = Ok true ∧
      ∃ parts, v = VComposite parts ∧ length parts = length columns ∧ 2 ≤ length parts ∧ Forall (λ v, comparable v) parts
  | OrderedRangePlan c e _ v => key_ok c e ∧ comparable v
  | HashInPlan c e vs => key_ok c e ∧ Forall (λ v, comparable v) vs
  | IntersectPlan children | UnionPlan children => children ≠ [] ∧ Forall node_ok children
  | PrefixLikePlan c _ => iv_hasIndex indexes c = Ok true
  end.

(** The filters of a plan can be evaluated. *)
Definition filters_ok (plan : QueryPlan) : Prop :=
  (∀ p, residual plan = Some p → clause_ok p) ∧ (∀ p, complementaryResidual plan = Some p → clause_ok p).

(** The choice stands for a path that answers the conjunct [p], exactly or, where
    the conjunct stays as a filter, with possibly more rows. *)
Definition chosen_for (p : Pred) (choice : BestConjunctChoice) : Prop :=
  ∃ path text, chosen_path double_chars p choice = Ok (Some (path, text)) ∧ path_ok path ∧ path ≠ FullScanPlan ∧
    if keeps_conjunct choice then holds p = true → path_test path = true else path_test path = holds p.

Definition choice_ok (conjuncts : list Pred) (choice : BestConjunctChoice) : Prop :=
  bc_bestIndex choice = length conjuncts ∨
  ∃ p, conjuncts !! bc_bestIndex choice = Some p ∧ chosen_for p choice.

Lemma consider_ok conjuncts i p path cost tri un choice : conjuncts !! i = Some p →
  (∀ cost, chosen_for p (mkBestConjunctChoice i path cost tri un)) →
  choice_ok conjuncts choice → choice_ok conjuncts (consider i path cost tri un choice).
Proof. intros Hi Hp Hc. unfold consider. case_match; [|done]. right. by exists p. Qed.

Lemma chosen_exact p choice path text : keeps_conjunct choice = false →
  chosen_path double_chars p choice = Ok (Some (path, text)) → path_ok path → path ≠ FullScanPlan →
  path_test path = holds p → chosen_for p choice.
Proof. intros Ek Ep Hok Hne Et. exists path, text. by rewrite Ek. Qed.

Lemma chosen_approx p choice path text : keeps_conjunct choice = true →
  chosen_path double_chars p choice = Ok (Some (path, text)) → path_ok path → path ≠ FullScanPlan →
  (holds p = true → path_test path = true) → chosen_for p choice.
Proof. intros Ek Ep Hok Hne Et. exists path, text. by rewrite Ek. Qed.

Lemma comparison_chosen p rows path cost i cost' : clause_ok p →
  isIndexableComparison llround_out stats indexes p rows = Ok (Some (path, cost)) →
  chosen_for p (mkBestConjunctChoice i path cost' None None).
Proof.
  destruct p as [c op v rhs e o| | | | | | |]; try done. intros (Hv & He & _) E. unfold isIndexableComparison in E.
  destruct rhs; [done|].
  assert (key_ok c e ∧ path = match op with Equal => AP_HashEq | _ => AP_OrderedRange end) as [Hk ->].
  { destruct e as [e|].
    - destruct (iv_hasExpressionIndex indexes e) eqn:Eh; [|done]. simpl in E. split; [by split; [|apply He]|].
      destruct op; inv_result E; by injection E as <- <-.
    - inv_result E. destruct a; [|done]. split; [done|]. simpl in E. destruct op; inv_result E; by injection E as <- <-. }
  destruct op; (eapply chosen_exact; [reflexivity|reflexivity|done|done|]); cbn; by rewrite (ll_comparison laws).
Qed.

Lemma inList_chosen p rows cost i cost' : clause_ok p →
  isIndexableInList stats indexes p rows = Ok (Some cost) → chosen_for p (mkBestConjunctChoice i AP_HashIn cost' None None).
Proof.
  destruct p as [| | |c vs e o| | | |]; try done. intros (Hv & He & _) E. unfold isIndexableInList in E.
  case_bool_decide; [done|].
  assert (key_ok c e) as Hk.
  { destruct e as [e|].
    - destruct (iv_hasExpressionIndex indexes e) eqn:Eh; [|done]. by split; [|apply He].
    - inv_result E. by destruct a. }
  eapply chosen_exact; [reflexivity|reflexivity|done|done|]. cbn. by rewrite (ll_inList laws).
Qed.

Lemma like_chosen p rows path cost tri i cost' : clause_ok p →
  isIndexableLike indexes p rows = Ok (Some (path, cost, tri)) →
  chosen_for p (mkBestConjunctChoice i path cost' tri None).
Proof.
  destruct p as [| | | | | |c pattern o|]; try done. intros _ E. unfold isIndexableLike in E.
  destruct (likePrefixLiteral pattern) as [prefix|] eqn:Ep.
  - inv_result E. destruct a; [|done]. injection E as <- _ <-. eapply chosen_approx; [reflexivity|cbn; by rewrite Ep|done|done|].
    by apply (ll_prefix laws).
  - destruct (likeContainsLiteral pattern) as [needle|] eqn:Ec; [|done].
    destruct (Nat.ltb_spec (String.length needle) 3) as [|Hlen]; [done|].
    destruct (iv_hasExpressionIndex indexes _) eqn:Eh; [|done]. simpl in E. case_bool_decide as Hg; [done|].
    injection E as <- _ <-. eapply chosen_approx; [reflexivity|reflexivity| |done|].
    + cbn [path_ok]. split; [by destruct (extractTrigrams needle)|]. apply Forall_fmap, Forall_forall. intros g _.
      split; [done|]. split; [done|]. right. split; [done|]. by exists g.
    + intros Hh. cbn [path_test]. apply forallb_forall. intros n (g & <- & Hin)%in_map_iff. simpl.
      apply (ll_gram laws c pattern needle g o); [done..|by apply list_elem_of_In|done].
Qed.

Lemma union_chosen p children i cost : clause_ok p →
  tryMakeFullyIndexableOrUnion indexes p = Ok (Some children) →
  chosen_for p (mkBestConjunctChoice i AP_Union cost None (Some children)).
Proof.
  intros Hp E. destruct (fully_indexable_ok p children Hp E) as (Eh & Hok & Hne).
  eapply chosen_exact; [reflexivity|reflexivity|done|done|exact Eh].
Qed.

Lemma consider_conjunct_ok rows conjuncts i p choice choice' : conjuncts !! i = Some p → clause_ok p →
  choice_ok conjuncts choice →
  consider_conjunct llround_out stats indexes rows i p choice = Ok choice' → choice_ok conjuncts choice'.
Proof.
  intros Hi Hp Hc E. unfold consider_conjunct in E. inv_result E.
  assert (choice_ok conjuncts match a with Some (path, cost) => consider i path cost None None choice | None => choice end) as H1.
  { destruct a as [[path cost]|]; [|done]. apply (consider_ok _ _ p); [done| |done]. intros. by eapply comparison_chosen. }
  revert H1 E. generalize (match a with Some (path, cost) => consider i path cost None None choice | None => choice end).
  clear choice Hc. intros choice Hc E. inv_result E.
  assert (choice_ok conjuncts match a0 with Some cost => consider i AP_HashIn cost None None choice | None => choice end) as H1.
  { destruct a0 as [cost|]; [|done]. apply (consider_ok _ _ p); [done| |done]. intros. by eapply inList_chosen. }
  revert H1 E. generalize (match a0 with Some cost => consider i AP_HashIn cost None None choice | None => choice end).
  clear choice Hc. intros choice Hc E. inv_result E.
  assert (choice_ok conjuncts match a1 with Some (path, cost, tri) => consider i path cost tri None choice | None => choice end) as H1.
  { destruct a1 as [[[path cost] tri]|]; [|done]. apply (consider_ok _ _ p); [done| |done]. intros. by eapply like_chosen. }
  revert H1 E. generalize (match a1 with Some (path, cost, tri) => consider i path cost tri None choice | None => choice end).
  clear choice Hc. intros choice Hc E. inv_result E.
  destruct a2 as [children|]; [|by injection E as <-]. inv_result E. injection E as <-.
  apply (consider_ok _ _ p); [done| |done]. intros. by apply union_chosen.
Qed.

Lemma chooseBest_ok conjuncts cost rows choice : Forall clause_ok conjuncts →
  chooseBestConjunctPath llround_out stats indexes conjuncts cost rows = Ok choice → choice_ok conjuncts choice.
Proof.
  intros Hcs. unfold chooseBestConjunctPath.
  assert (∀ rest done choice, conjuncts = done ++ rest → choice_ok conjuncts choice → ∀ choice',
    consider_conjuncts llround_out stats indexes rows (length done) rest choice = Ok choice' → choice_ok conjuncts choice') as Hloop.
  { induction rest as [|p rest IH]; intros ds ch Ec Hc ch'; [by intros [= <-]|]. cbn [consider_conjuncts].
    intros E. inv_result E. assert (conjuncts !! length ds = Some p) as Hi by (by rewrite Ec, list_lookup_middle).
    apply (IH (ds ++ [p])) with (choice := a).
    - by rewrite Ec, <- app_assoc.
    - eapply consider_conjunct_ok; [exact Hi| |exact Hc|exact Hr]. rewrite Forall_forall in Hcs. apply Hcs.
      by eapply list_elem_of_lookup_2.
    - by rewrite length_app, Nat.add_1_r. }
  intros E. eapply (Hloop conjuncts []); [done| |exact E]. by left.
Qed.

Lemma remaining_holds conjuncts choice p : conjuncts !! bc_bestIndex choice = Some p → keeps_conjunct choice = false →
  forallb holds conjuncts = holds p && forallb holds (remaining_conjuncts conjuncts choice).
Proof.
  intros Hp Hk. unfold remaining_conjuncts. rewrite Hk. rewrite <- (take_drop_middle _ _ _ Hp) at 1.
  rewrite !forallb_app. simpl. by destruct (holds p), (forallb holds (take _ _)).
Qed.

(** An index chosen alone, with the other conjuncts as a filter. *)
Lemma finalize_ok query_where conjuncts choice plan plan' : Forall clause_ok conjuncts → choice_ok conjuncts choice →
  bc_bestIndex choice ≠ length conjuncts → complementaryResidual plan = None →
  finalizeBestAccessPath double_chars llround_out stats conjuncts choice plan = Ok plan' →
  path_ok (qp_path plan') ∧ filters_ok plan' ∧
  ((∀ children, qp_path plan' = UnionPlan children → residual plan' = None) →
   plan_test query_where plan' = forallb holds conjuncts).
Proof.
  intros Hcs [Hn|(p & Hp & path & text & Epath & Hok & Hne & Ht)] Hi Hcr; [done|]. unfold finalizeBestAccessPath.
  rewrite Hp, Epath. cbn [mbind result_bind]. intros [= <-]. cbn [qp_path]. split; [done|]. split.
  { split; [intros q; apply buildAndTree_ok|intros q Hq; unfold complementaryResidual in Hcr, Hq; cbn in Hq; by rewrite Hcr in Hq].
    unfold remaining_conjuncts. case_match; [done|]. apply Forall_app. by split; [apply Forall_take|apply Forall_drop]. }
  intros Hun.
  assert (plan_test query_where (mkQueryPlan path (mkPlanEstimates (rowsFromCost llround_out (bc_bestCost choice) (st_rowCount stats))
    (bc_bestCost choice) text (pe_notes (qp_estimates plan) ++ residual_note (buildAndTree (remaining_conjuncts conjuncts choice)))
    (buildAndTree (remaining_conjuncts conjuncts choice)) (pe_complementaryResidual (qp_estimates plan)))) =
    path_test path && forallb holds (remaining_conjuncts conjuncts choice)) as ->.
  { unfold plan_test, complementaryResidual in *. cbn [qp_path qp_estimates pe_complementaryResidual residual pe_residual].
    rewrite Hcr. unfold residual, opt_holds in *. cbn [qp_estimates pe_residual] in *.
    destruct path; try done; rewrite ?buildAndTree_holds; cbn [fmap option_fmap option_map from_option]; try done;
      [by rewrite orb_false_r|]. rewrite <- buildAndTree_holds. cbn [qp_path] in Hun. by rewrite (Hun _ eq_refl), orb_false_r, andb_true_r. }
  destruct (keeps_conjunct choice) eqn:Ek.
  - unfold remaining_conjuncts. rewrite Ek. destruct (forallb holds conjuncts) eqn:Ef; [|by rewrite andb_false_r].
    rewrite forallb_forall in Ef. rewrite Ht; [done|]. apply Ef, list_elem_of_In. by eapply list_elem_of_lookup_2.
  - by rewrite (remaining_holds _ _ _ Hp Ek), Ht.
Qed.

(** ** A composite index *)

Definition at_position (conjuncts : list Pred) (i : nat) : bool :=
  match conjuncts !! i with Some p => holds p | None => false end.

Lemma not_absorbed_holds absorbed conjuncts : Forall (λ i, i < length conjuncts) absorbed →
  forallb holds conjuncts = forallb (at_position conjuncts) absorbed && forallb holds (not_absorbed absorbed conjuncts).
Proof.
  intros Hab. apply eq_true_iff_eq. rewrite andb_true_iff, !forallb_forall.
  assert (∀ p, In p (not_absorbed absorbed conjuncts) ↔ ∃ i, conjuncts !! i = Some p ∧ i ∉ absorbed) as Hna.
  { intros p. rewrite <- list_elem_of_In. unfold not_absorbed. rewrite list_elem_of_fmap. split.
    - intros ([i q] & -> & [Hn Hin]%list_elem_of_filter). apply elem_of_lookup_imap in Hin as (j & y & [= -> ->] & Hj).
      exists j. split; [done|]. intros Hin. apply negb_true_iff, not_true_iff_false in Hn. destruct Hn.
      apply existsb_exists. exists j. split; [by apply list_elem_of_In|apply Nat.eqb_refl].
    - intros (i & Hi & Hn). exists (i, p). split; [done|]. apply list_elem_of_filter. split.
      + apply negb_true_iff, not_true_iff_false. intros (j & Hj & E%Nat.eqb_eq)%existsb_exists. simpl in E. subst j. destruct Hn. by apply list_elem_of_In.
      + apply elem_of_lookup_imap. eauto. }
  split.
  - intros Hall. split; intros x Hx.
    + unfold at_position. rewrite Forall_forall in Hab. specialize (Hab x). rewrite <- list_elem_of_In in Hx.
      destruct (lookup_lt_is_Some_2 conjuncts x (Hab Hx)) as [p Ep]. rewrite Ep. apply Hall, list_elem_of_In.
      by eapply list_elem_of_lookup_2.
    + apply Hna in Hx as (i & Hi & _). apply Hall, list_elem_of_In. by eapply list_elem_of_lookup_2.
  - intros [Ha Hr] p Hp. apply list_elem_of_In, list_elem_of_lookup in Hp as [i Hi].
    destruct (decide (i ∈ absorbed)) as [Hin|Hn]; [|apply Hr, Hna; eauto].
    specialize (Ha i). rewrite <- list_elem_of_In in Ha. specialize (Ha Hin). unfold at_position in Ha. by rewrite Hi in Ha.
Qed.

(** The equalities the composite index can use. *)
Definition equalities_ok (conjuncts : list Pred) (m : list (string * (nat * Value))) : Prop :=
  ∀ c i v, (c, (i, v)) ∈ m → ∃ o, conjuncts !! i = Some (ComparisonPred c Equal v None None o).

Lemma smap_emplace_elem {V} n (v : V) m e : e ∈ smap_emplace n v m → e = (n, v) ∨ e ∈ m.
Proof.
  induction m as [|[a w] m IH]; simpl; [set_solver|]. repeat case_bool; set_solver.
Qed.

Lemma equality_by_column_ok conjuncts before rest m : conjuncts = before ++ rest → equalities_ok conjuncts m →
  equalities_ok conjuncts (equality_by_column (length before) rest m).
Proof.
  revert before m. induction rest as [|p rest IH]; intros before m Ec Hm; [done|].
  specialize (IH (before ++ [p])). rewrite length_app, Nat.add_1_r, <- app_assoc in IH. specialize (λ m, IH m Ec).
  cbn [equality_by_column].
  destruct p as [c op v rhs e o| | | | | | |]; try by apply IH. destruct op; try by apply IH.
  destruct rhs; [by apply IH|]. destruct e; [by apply IH|]. apply IH. intros c' i v' [[= -> -> ->]|Hin]%smap_emplace_elem.
  - exists o. by rewrite Ec, list_lookup_middle.
  - by apply Hm.
Qed.

Lemma covered_ok conjuncts m columns parts absorbed : Forall clause_ok conjuncts → equalities_ok conjuncts m →
  covered m columns = Some (parts, absorbed) →
  length parts = length columns ∧ Forall (λ v, comparable v) parts ∧ Forall (λ i, i < length conjuncts) absorbed ∧
  parts_test columns parts = forallb (at_position conjuncts) absorbed.
Proof.
  intros Hcs Hm. revert parts absorbed. induction columns as [|c columns IH]; intros parts absorbed; cbn [covered].
  { intros [= <- <-]. done. }
  destruct (smap_find c m) as [[i v]|] eqn:Ef; [|done]. cbn [mbind option_bind].
  destruct (covered m columns) as [[ps ab]|]; [|done]. intros [= <- <-].
  destruct (IH _ _ eq_refl) as (El & Hps & Hab & Et). apply smap_find_Some, Hm in Ef as [o Hi]. rewrite Forall_lookup in Hcs.
  split; [by simpl; rewrite El|]. split; [constructor; [by apply (Hcs _ _ Hi)|done]|].
  split; [constructor; [by eapply lookup_lt_Some|done]|]. unfold parts_test in *. cbn [zip zip_with forallb fst snd].
  rewrite Et. f_equal. unfold at_position. rewrite Hi. cbn [holds]. by rewrite (ll_comparison laws).
Qed.

Lemma composite_candidate_ok m columns c : composite_candidate stats indexes m columns = Ok (Some c) →
  cd_columns c = columns ∧ 2 ≤ length columns ∧ iv_hasIndexOn indexes columns = Ok true ∧
  covered m columns = Some (cd_parts c, cd_absorbed c).
Proof.
  unfold composite_candidate. destruct (Nat.ltb_spec (length columns) 2) as [|Hl]; [done|]. intros E. inv_result E.
  destruct a; [|done]. simpl in E. destruct (covered m columns) as [[parts absorbed]|] eqn:Ec; [|done].
  inv_result E. by injection E as <-.
Qed.

Lemma best_candidate_ok m composites cost best c : best_candidate stats indexes m composites cost best = Ok (Some c) →
  best = Some c ∨ ∃ columns, composite_candidate stats indexes m columns = Ok (Some c).
Proof.
  revert best. induction composites as [|columns composites IH]; intros best; cbn [best_candidate]; [intros [= ->]; by left|].
  intros E. inv_result E. apply IH in E as [E|E]; [|by right]. destruct a as [d|]; [|by left].
  destruct (d_ltb cost (cd_cost d)); [by left|]. destruct best as [b|]; [|injection E as ->; by right; exists columns].
  case_bool; injection E as ->; [by right; exists columns|by left].
Qed.

Lemma composite_ok query_where conjuncts cost plan plan' : Forall clause_ok conjuncts → complementaryResidual plan = None →
  tryPlanCompositeHashEq llround_out stats indexes conjuncts cost plan = Ok (Some plan') →
  path_ok (qp_path plan') ∧ filters_ok plan' ∧
  plan_test query_where plan' = forallb holds conjuncts.
Proof.
  intros Hcs Hcr. unfold tryPlanCompositeHashEq. case_match; [done|]. intros E. inv_result E.
  destruct a0 as [best|]; [|done]. destruct (best_candidate_ok _ _ _ _ _ Hr0) as [|[columns Hc]]; [done|].
  apply composite_candidate_ok in Hc as (Ecols & Hl & Hix & Hcov).
  assert (equalities_ok conjuncts (equality_by_column 0 conjuncts [])) as Hm.
  { apply (equality_by_column_ok conjuncts []); [done|]. intros c i v Hin. by apply elem_of_nil in Hin. }
  destruct (covered_ok _ _ _ _ _ Hcs Hm Hcov) as (El & Hps & Hab & Et).
  destruct (cd_columns best) as [|c1 [|c2 cs]] eqn:Ecb; [by simpl in *; subst; simpl in *; lia..|]. subst columns.
  destruct (cd_parts best) as [|v1 [|v2 vs]] eqn:Ep; [done..|].
  cbn [composite mbind result_bind] in E. injection E as <-. cbn [qp_path]. split; [|split].
  2: { split; [intros q; apply buildAndTree_ok|intros q Hq; unfold complementaryResidual in Hcr, Hq; cbn in Hq; by rewrite Hcr in Hq].
       apply Forall_forall. intros x (e & -> & [_ He]%list_elem_of_filter)%list_elem_of_fmap. rewrite Forall_forall in Hcs.
       apply elem_of_lookup_imap in He as (j & y & -> & Hj). apply Hcs. by eapply list_elem_of_lookup_2. }
  - cbn [path_ok]. split; [done|]. split; [done|]. exists (v1 :: v2 :: vs). split_and!; [done|done|simpl; lia|done].
  - unfold plan_test, complementaryResidual in *. cbn [qp_path path_test residual qp_estimates pe_residual pe_complementaryResidual].
    unfold residual, opt_holds. cbn [qp_estimates pe_residual]. rewrite buildAndTree_holds.
    by rewrite (not_absorbed_holds _ _ Hab), Et.
Qed.

(** ** An intersection *)

(** The union child of an absorbed OR, and the disjuncts it leaves out. *)
Definition absorbed_as (a : AbsorbedOr) (u : bool) : Prop :=
  holds (ao_original a) = u || existsb holds (ao_residualDisjuncts a).

Lemma split_conjuncts_ok conjuncts s : Forall clause_ok conjuncts → split_conjuncts indexes conjuncts = Ok s →
  Forall node_ok (as_children s) ∧
  (Forall clause_ok (as_equalityConjuncts s) ∧ Forall clause_ok (as_residualConjuncts s) ∧
   Forall (λ a, clause_ok (ao_original a) ∧ Forall clause_ok (ao_residualDisjuncts a)) (as_absorbedOrs s)) ∧
  forallb holds conjuncts =
    forallb holds (as_equalityConjuncts s) && forallb (holds ∘ ao_original) (as_absorbedOrs s)
    && forallb holds (as_residualConjuncts s) ∧
  ∃ us, Forall2 absorbed_as (as_absorbedOrs s) us ∧
    forallb node_test (as_children s) = forallb holds (as_equalityConjuncts s) && forallb id us.
Proof.
  intros Hcs. revert s. induction Hcs as [|p ps Hp _ IH]; intros s; cbn [split_conjuncts].
  { intros [= <-]. split_and!; try done. by exists []. }
  intros E. inv_result E. destruct a.
  - destruct (equality_probe_ok p Hp Hr) as (probe & Em & Hok & Ht). rewrite Em in E. cbn [mbind result_bind] in E.
    inv_result E. injection E as <-. destruct (IH _ eq_refl) as (Hn & (Hs1 & Hs2 & Hs3) & Eh & us & Hus & Ec).
    cbn [as_children as_equalityConjuncts as_absorbedOrs as_residualConjuncts forallb node_test].
    split; [by constructor|]. split; [by split_and!; [constructor|..]|]. split; [by rewrite Eh, !andb_assoc|]. exists us. split; [done|]. by rewrite Ec, Ht, andb_assoc.
  - inv_result E. destruct (IH _ eq_refl) as (Hn & (Hs1 & Hs2 & Hs3) & Eh & us & Hus & Ec). destruct a as [split|]; injection E as <-;
      cbn [as_children as_equalityConjuncts as_absorbedOrs as_residualConjuncts forallb].
    + destruct (tryMakeOrUnionSplit_ok p split Hp Hr0) as (Es & Hok & Hres). split; [by constructor|].
      split; [by split_and!; [..|constructor]|]. split.
      { rewrite Eh. unfold compose. cbn [ao_original]. by destruct (holds p), (forallb holds (as_equalityConjuncts _)). }
      exists (node_test (os_unionNode split) :: us). split; [by constructor|]. rewrite Ec. simpl.
      by destruct (existsb node_test _), (forallb holds (as_equalityConjuncts _)).
    + split; [done|]. split; [by split_and!; [|constructor|]|]. split; [|by exists us]. rewrite Eh.
      by destruct (holds p), (forallb holds (as_equalityConjuncts _)), (forallb _ (as_absorbedOrs _)).
Qed.

(** The complementary part of an absorbed OR. *)
Definition complement_of (a : AbsorbedOr) : bool :=
  if partial_or a then existsb holds (ao_residualDisjuncts a) else holds (ao_original a).

Lemma complementary_parts_holds s :
  forallb holds (complementary_parts s) =
    forallb holds (as_equalityConjuncts s) && forallb complement_of (as_absorbedOrs s) && forallb holds (as_residualConjuncts s).
Proof.
  unfold complementary_parts. rewrite !forallb_app, <- andb_assoc. do 2 f_equal.
  induction (as_absorbedOrs s) as [|a l IH]; [done|]. cbn [omap list_omap forallb]. rewrite <- IH. unfold complement_of at 1.
  destruct (partial_or a) eqn:Ep; [|done]. rewrite <- buildOrTree_holds. unfold partial_or in Ep.
  destruct (ao_residualDisjuncts a); done.
Qed.

Lemma not_partial a u : absorbed_as a u → partial_or a = false → holds (ao_original a) = u ∧ complement_of a = u.
Proof.
  unfold absorbed_as, complement_of. intros Ha Ep. rewrite Ep. unfold partial_or in Ep.
  destruct (ao_residualDisjuncts a); [|done]. simpl in Ha. by rewrite orb_false_r in Ha.
Qed.

Definition partial_count (l : list AbsorbedOr) : nat := length (filter (λ a, partial_or a = true) l).

Lemma no_partial l us : Forall2 absorbed_as l us → partial_count l = 0 →
  forallb (holds ∘ ao_original) l = forallb id us ∧ forallb complement_of l = forallb id us.
Proof.
  unfold partial_count. induction 1 as [|a u l us Ha _ IH]; [done|]. rewrite (filter_test partial_or).
  destruct (partial_or a) eqn:Ep; [done|]. intros Hc. destruct (IH Hc) as [E1 E2]. cbn [forallb].
  destruct (not_partial a u Ha Ep) as [Eo Ec]. unfold compose at 1. rewrite Eo, Ec, E1, E2. done.
Qed.

(** With one partial OR, the complementary scan finds what the indexes miss. *)
Lemma one_partial l us : Forall2 absorbed_as l us → partial_count l ≤ 1 →
  forallb id us || forallb complement_of l = forallb (holds ∘ ao_original) l.
Proof.
  unfold partial_count. induction 1 as [|a u l us Ha Hl IH]; [done|]. rewrite (filter_test partial_or). cbn [forallb].
  destruct (partial_or a) eqn:Ep; intros Hc.
  - simpl in Hc. destruct (no_partial l us Hl) as [E1 E2]; [unfold partial_count; lia|]. rewrite E1, E2.
    unfold compose, complement_of. rewrite Ep, Ha. simpl. by destruct u, (existsb _ _), (forallb id us).
  - specialize (IH Hc). destruct (not_partial a u Ha Ep) as [Eo Ec]. unfold compose at 1. rewrite Eo, Ec, <- IH. simpl.
    by destruct u, (forallb id us).
Qed.

Definition single_partial_or (conjuncts : list Pred) : bool :=
  match split_conjuncts indexes conjuncts with
  | Ok s => Nat.leb (partial_count (as_absorbedOrs s)) 1
  | Throw _ => true
  end.

Lemma existsb_partial l : existsb partial_or l = false → partial_count l = 0.
Proof.
  unfold partial_count. induction l as [|a l IH]; [done|]. rewrite (filter_test partial_or). cbn [existsb].
  intros [-> Hl]%orb_false_iff. auto.
Qed.

Lemma intersect_ok query_where conjuncts cost plan plan' : Forall clause_ok conjuncts → complementaryResidual plan = None →
  tryPlanAndIntersect double_chars llround_out stats indexes conjuncts cost plan = Ok (Some plan') →
  path_ok (qp_path plan') ∧ filters_ok plan' ∧
  (single_partial_or conjuncts = true → plan_test query_where plan' = forallb holds conjuncts).
Proof.
  intros Hcs Hcr. unfold tryPlanAndIntersect, single_partial_or. intros E. inv_result E.
  destruct (split_conjuncts_ok conjuncts a Hcs Hr) as (Hn & (Hs1 & Hs2 & Hs3) & Eh & us & Hus & Ec).
  destruct (Nat.ltb_spec (length (as_children a)) 2) as [|Hl]; [done|]. inv_result E. case_bool; [done|]. inv_result E.
  injection E as <-. cbn [qp_path]. split; [|split].
  { cbn [path_ok]. split; [|done]. intros Hnil. rewrite Hnil in Hl. simpl in Hl. lia. }
  { split; intros q Hq; [by eapply buildAndTree_ok|]. unfold complementaryResidual in Hcr, Hq. cbn in Hq.
    case_match; [|by rewrite Hcr in Hq]. eapply buildAndTree_ok; [|exact Hq]. unfold complementary_parts.
    rewrite !Forall_app. split; [done|]. split; [|done]. apply Forall_forall. intros x (b & Hb & Ex)%list_elem_of_omap.
    rewrite Forall_forall in Hs3. destruct (Hs3 b Hb) as [Ho Hd]. destruct (partial_or b); [by eapply buildOrTree_ok|by injection Ex as <-]. }
  intros Hone%Nat.leb_le. rewrite Eh. unfold plan_test, complementaryResidual, residual, opt_holds in *.
  cbn [qp_path path_test qp_estimates pe_residual pe_complementaryResidual]. rewrite buildAndTree_holds, Ec, Hcr.
  destruct (existsb partial_or (as_absorbedOrs a)) eqn:Ep.
  - assert (default false (holds <$> buildAndTree (complementary_parts a)) = forallb holds (complementary_parts a)) as ->.
    { rewrite <- buildAndTree_holds. apply existsb_exists in Ep as (x & Hx & Hpx). unfold complementary_parts.
      destruct (as_equalityConjuncts a); [|done]. simpl.
      assert (omap (λ a, if partial_or a then buildOrTree (ao_residualDisjuncts a) else Some (ao_original a)) (as_absorbedOrs a) ≠ []) as Hne.
      { apply list_elem_of_In in Hx. intros Hnil. assert (∃ t, buildOrTree (ao_residualDisjuncts x) = Some t) as [t Et].
        { unfold partial_or in Hpx. destruct (ao_residualDisjuncts x); [done|by eexists]. }
        assert (t ∈ @nil Pred) as Hin; [|by apply elem_of_nil in Hin]. rewrite <- Hnil. apply list_elem_of_omap.
        exists x. split; [done|]. by rewrite Hpx. }
      by destruct (omap _ _). }
    rewrite complementary_parts_holds, <- (one_partial _ _ Hus Hone).
    by destruct (forallb holds (as_equalityConjuncts a)), (forallb id us), (forallb complement_of _), (forallb holds (as_residualConjuncts a)).
  - destruct (no_partial _ _ Hus (existsb_partial _ Ep)) as [-> _]. cbn. by rewrite orb_false_r.
Qed.

(** ** SELECT *)

(** The conjuncts the planner works with. *)
Definition plan_conjuncts (query_where : Pred) : list Pred := rewritten <$> collectAndConjuncts (rewritten query_where).

Definition is_or (p : Pred) : bool := match p with OrPred _ _ => true | _ => false end.

(** The plans the executor reads as the planner means them: at most one OR under
    the AND is answered in part by indexes, and a union has a residual only when the
    whole clause is an OR. *)
Definition plan_supported (query_where : Pred) (plan : QueryPlan) : bool :=
  is_or (rewritten query_where)
  || single_partial_or (plan_conjuncts query_where)
     && match qp_path plan, residual plan with UnionPlan _, Some _ => false | _, _ => true end.

Lemma top_level_or_ok query_where p plan plan' : clause_ok p → holds p = opt_holds true query_where →
  qp_path plan = FullScanPlan ∧ complementaryResidual plan = None → tryPlanTopLevelOrUnion double_chars llround_out stats indexes p plan = Ok (Some plan') →
  path_ok (qp_path plan') ∧ filters_ok plan' ∧ plan_test query_where plan' = holds p.
Proof.
  intros Hp Eq [Hfull Hcr]. unfold tryPlanTopLevelOrUnion. pose proof (collectOrDisjuncts_holds p) as Eh.
  pose proof (disjuncts_ok p Hp) as Hds. destruct p as [| |l r| | | | |]; try done. intros E. inv_result E.
  assert (∀ plan', Ok (Some (full_scan_or (OrPred l r) plan)) = Ok (Some plan') →
    path_ok (qp_path plan') ∧ filters_ok plan' ∧ plan_test query_where plan' = holds (OrPred l r)) as Hfs.
  { intros ? [= <-]. unfold plan_test, filters_ok, complementaryResidual in *. cbn [full_scan_or qp_path].
    rewrite Hfull. split; [done|]. split; [|done]. cbn. rewrite Hcr. by split; [intros ? [= <-]|]. }
  destruct a as [ix others]. destruct (partition_disjuncts_ok _ _ _ Hds Hr) as (Ei & Hix & Ho).
  case_bool_decide as Hl; [by apply Hfs|]. inv_result E. case_bool; [by apply Hfs|]. inv_result E. injection E as <-.
  destruct (make_probes_ok ix _ Hix Hr2) as (Et & Hok & El). cbn [qp_path]. split.
  - split; [|done]. destruct a1; [by rewrite <- El in Hl|done].
  - split. { split; intros q Hq; [by eapply buildOrTree_ok|]. unfold complementaryResidual in Hcr, Hq. cbn in Hq. by rewrite Hcr in Hq. }
    unfold plan_test, residual, opt_holds. cbn [qp_path path_test qp_estimates pe_residual].
    by rewrite buildOrTree_holds, Et, <- Ei, Eh.
Qed.

(** A plan accepts the rows of the WHERE clause. *)
Lemma planSelect_sound query plan : (∀ p, sel_where query = Some p → clause_ok p) →
  planSelect double_chars llround_out stats indexes query = Ok plan →
  path_ok (qp_path plan) ∧ filters_ok plan ∧
  ((∀ p, sel_where query = Some p → plan_supported p plan = true) →
   plan_test (sel_where query) plan = opt_holds true (sel_where query)).
Proof.
  intros Hw E. unfold planSelect in E. destruct (sel_where query) as [w|]; [|by injection E as <-; split_and!; [|split|]].
  specialize (Hw w eq_refl). destruct (rewritten_ok w Hw) as [Er Hr].
  pose proof (rewritten_list _ (conjuncts_ok _ Hr)) as [Ec Hcs]. rewrite collectAndConjuncts_holds, Er in Ec.
  fold (plan_conjuncts w) in E, Ec, Hcs. inv_result E. destruct a as [p1|].
  { injection E as <-. edestruct (top_level_or_ok (Some w)) as (Hok & Hf & Et); [exact Hr|exact Er| |exact Hr0|]; [done|]. split; [done|]. split; [done|].
    intros _. by rewrite Et, Er. }
  assert (is_or (rewritten w) = false) as Hor.
  { unfold tryPlanTopLevelOrUnion in Hr0. destruct (rewritten w); try done. inv_result Hr0. destruct a.
    case_bool_decide; [done|]. inv_result Hr0. case_bool; [done|]. by inv_result Hr0. }
  assert (∀ plan, (∀ p, Some w = Some p → plan_supported p plan = true) → single_partial_or (plan_conjuncts w) = true ∧
    match qp_path plan, residual plan with UnionPlan _, Some _ => false | _, _ => true end = true) as Hsup.
  { intros q Hs. specialize (Hs w eq_refl). unfold plan_supported in Hs. rewrite Hor in Hs. by apply andb_prop in Hs. }
  inv_result E. pose proof (chooseBest_ok _ _ _ _ Hcs Hr1) as Hch. destruct a0 as [p1|].
  { injection E as <-. edestruct (composite_ok (Some w)) as (Hok & Hf & Et); [exact Hcs| |exact Hr2|]; [done|]. split; [done|]. split; [done|].
    intros _. by rewrite Et, Ec. }
  inv_result E. destruct a0 as [p1|].
  { injection E as <-. edestruct (intersect_ok (Some w)) as (Hok & Hf & Et); [exact Hcs| |exact Hr3|]; [done|]. split; [done|]. split; [done|].
    intros Hs. destruct (Hsup _ Hs) as [H1 _]. by rewrite Et, Ec. }
  destruct (Nat.eqb_spec (bc_bestIndex a) (length (plan_conjuncts w))) as [|Hi].
  { injection E as <-. split; [done|]. split; [|done]. by split; [intros ? [= <-]|]. }
  edestruct (finalize_ok (Some w)) as (Hok & Hf & Et); [exact Hcs|exact Hch|exact Hi| |exact E|]; [done|].
  split; [done|]. split; [done|]. intros Hs.
  destruct (Hsup _ Hs) as [_ H2]. rewrite Et; [by rewrite Ec|]. intros children Eun. rewrite Eun in H2.
  by destruct (residual plan).
Qed.
End row_logic.
