(* ===== verification/PlannerTotal.v ===== *)
(** * The planner returns a plan

    [planSelect] throws for no query whose constants are nulls or typed scalars, when
    the catalog answers and the histograms are those of typed columns. *)

From S2P Require Import Prelude Value Float64 StringPattern IndexExpression Predicate SetOps Histogram Selectivity IndexManager IndexManagerProof Table Ast Planner PlannerProof.
Local Open Scope nat_scope.

Create HintDb total.

Definition total {A} (r : result A) : Prop := ∃ a, r = Ok a.

Lemma total_Ok {A} (a : A) : total (Ok a).
Proof. by exists a. Qed.
Lemma total_bind {A B} (r : result A) (f : A → result B) :
  total r → (∀ a, r = Ok a → total (f a)) → total (r ≫= f).
Proof. intros [a E] Hf. rewrite E. by apply Hf. Qed.

Section total.
Context (double_chars : Z → chars) (llround_out : double → Z).
Context (stats : RelationStats) (indexes : IndexCatalogView).

(** The catalog answers, and the histograms are those of typed columns. *)
Record catalog_ok : Prop := {
  co_hasIndex c : total (iv_hasIndex indexes c);
  co_hasIndexOn cs : total (iv_hasIndexOn indexes cs);
  co_distinct c : total (iv_indexDistinctCount indexes c);
  co_distinctOn cs : total (iv_indexDistinctCountOn indexes cs);
  co_distinctOf e : total (iv_indexDistinctCountOf indexes e);
  co_composites : total (iv_compositeIndexColumnLists indexes);
  co_histograms c h : st_columnHistogram stats c = Some h → histogram_typed h
}.

Context (Hcat : catalog_ok).

(** Constants of a clause that are a null or a typed scalar. *)
Fixpoint scalar_clause (p : Pred) : Prop :=
  match p with
  | AndPred l r | OrPred l r => scalar_clause l ∧ scalar_clause r
  | ComparisonPred _ _ v _ _ _ => scalar v
  | _ => True
  end.

Lemma hasIndex_total c : total (iv_hasIndex indexes c).
Proof. apply Hcat. Qed.
Lemma hasIndexOn_total cs : total (iv_hasIndexOn indexes cs).
Proof. apply Hcat. Qed.
Lemma distinctCount_total c : total (iv_indexDistinctCount indexes c).
Proof. apply Hcat. Qed.
Lemma distinctCountOn_total cs : total (iv_indexDistinctCountOn indexes cs).
Proof. apply Hcat. Qed.
Lemma distinctCountOf_total e : total (iv_indexDistinctCountOf indexes e).
Proof. apply Hcat. Qed.
Lemma composites_total : total (iv_compositeIndexColumnLists indexes).
Proof. apply Hcat. Qed.
#[local] Hint Resolve total_Ok hasIndex_total hasIndexOn_total distinctCount_total distinctCountOn_total
  distinctCountOf_total composites_total : total.

Lemma distinctOrOne_total c : total (distinctOrOne stats indexes c).
Proof. apply total_bind; [auto with total|]. intros a _. repeat case_match; apply total_Ok. Qed.
Lemma distinctOrOne_expr_total e : total (distinctOrOne_expr indexes e).
Proof. apply total_bind; [auto with total|]. intros a _. case_match; apply total_Ok. Qed.
#[local] Hint Resolve distinctOrOne_total distinctOrOne_expr_total : total.

Lemma rangeCost_total c op v rows : scalar v → total (rangeCost llround_out stats c op v rows).
Proof.
  intros Hv. unfold rangeCost. destruct (st_columnHistogram stats c) as [h|] eqn:E; [|apply total_Ok].
  apply total_bind; [|intros; apply total_Ok]. apply histogramRangeSelectivity_ok; [by eapply (co_histograms Hcat)|done].
Qed.
#[local] Hint Resolve rangeCost_total : total.

Lemma isEqualityIndexProbe_total p : total (isEqualityIndexProbe indexes p).
Proof. unfold isEqualityIndexProbe. repeat case_match; auto with total. Qed.
#[local] Hint Resolve isEqualityIndexProbe_total : total.

(** Steps of a computation that does not throw. *)
Ltac totals := repeat first
  [ solve [auto with total]
  | apply total_bind; [|intros ? ?]
  | case_match ].

Lemma isIndexableComparison_total p rows : scalar_clause p → total (isIndexableComparison llround_out stats indexes p rows).
Proof. intros Hp. unfold isIndexableComparison. totals. Qed.
Lemma isIndexableInList_total p rows : total (isIndexableInList stats indexes p rows).
Proof. unfold isIndexableInList, inCost. totals. Qed.
Lemma isIndexableLike_total p rows : total (isIndexableLike indexes p rows).
Proof. unfold isIndexableLike. totals. Qed.
Lemma equalityFanout_total p rows : isEqualityIndexProbe indexes p = Ok true → total (equalityFanout stats indexes p rows).
Proof. intros Hp. destruct p; try done. unfold equalityFanout. totals. Qed.
Lemma makeEqualityProbe_total p : isEqualityIndexProbe indexes p = Ok true → total (makeEqualityProbe p).
Proof. intros Hp. destruct p; try done. apply total_Ok. Qed.
#[local] Hint Resolve isIndexableComparison_total isIndexableInList_total isIndexableLike_total
  equalityFanout_total makeEqualityProbe_total : total.

Lemma split_disjuncts_total ds : total (split_disjuncts indexes ds).
Proof. induction ds; cbn [split_disjuncts]; totals. Qed.
#[local] Hint Resolve split_disjuncts_total : total.

Lemma tryMakeOrUnionSplit_total p : total (tryMakeOrUnionSplit indexes p).
Proof. unfold tryMakeOrUnionSplit. totals. Qed.
#[local] Hint Resolve tryMakeOrUnionSplit_total : total.
Lemma tryMakeFullyIndexableOrUnion_total p : total (tryMakeFullyIndexableOrUnion indexes p).
Proof. unfold tryMakeFullyIndexableOrUnion. totals. Qed.
Lemma probe_selectivity_total probe rows : total (probe_selectivity stats indexes probe rows).
Proof. unfold probe_selectivity. totals. Qed.
#[local] Hint Resolve tryMakeFullyIndexableOrUnion_total probe_selectivity_total : total.
Lemma union_miss_total children rows d : total (union_miss stats indexes children rows d).
Proof. revert d. induction children as [|[]]; intros d; cbn [union_miss]; totals. Qed.
#[local] Hint Resolve union_miss_total : total.
Lemma unionSelectivity_total children rows : total (unionSelectivity stats indexes children rows).
Proof. unfold unionSelectivity. totals. Qed.
#[local] Hint Resolve unionSelectivity_total : total.

Lemma consider_conjunct_total rows i p choice : scalar_clause p →
  total (consider_conjunct llround_out stats indexes rows i p choice).
Proof. intros Hp. unfold consider_conjunct. totals. Qed.
#[local] Hint Resolve consider_conjunct_total : total.

Lemma chooseBest_total conjuncts cost rows : Forall scalar_clause conjuncts →
  total (chooseBestConjunctPath llround_out stats indexes conjuncts cost rows).
Proof.
  unfold chooseBestConjunctPath. generalize 0 (mkBestConjunctChoice (length conjuncts) AP_FullScan cost None None).
  induction conjuncts as [|p ps IH]; intros i choice Hps; [apply total_Ok|]. cbn [consider_conjuncts].
  apply Forall_cons in Hps as [Hp Hps]. totals.
Qed.

Lemma residualDisjunctSelectivity_total p rows : scalar_clause p →
  total (residualDisjunctSelectivity llround_out stats indexes p rows).
Proof.
  intros Hp. destruct p as [c op v rhs e o| | | | | | |]; cbn [residualDisjunctSelectivity]; try apply total_Ok.
  unfold equalityFanout. totals.
Qed.
#[local] Hint Resolve residualDisjunctSelectivity_total : total.

Lemma residual_miss_total ps rows d : Forall scalar_clause ps → total (residual_miss llround_out stats indexes ps rows d).
Proof. intros Hps. revert d. induction Hps; intros d; cbn [residual_miss]; totals. Qed.
Lemma equality_miss_total ps rows d : Forall (λ p, isEqualityIndexProbe indexes p = Ok true) ps →
  total (equality_miss stats indexes ps rows d).
Proof. intros Hps. revert d. induction Hps; intros d; cbn [equality_miss]; totals. Qed.
Lemma make_probes_total ps : Forall (λ p, isEqualityIndexProbe indexes p = Ok true) ps → total (make_probes ps).
Proof. induction 1; cbn [make_probes]; totals. Qed.
#[local] Hint Resolve residual_miss_total equality_miss_total make_probes_total : total.

Lemma partition_disjuncts_total ds : total (partition_disjuncts indexes ds).
Proof. induction ds; cbn [partition_disjuncts]; totals. Qed.
#[local] Hint Resolve partition_disjuncts_total : total.

Lemma scalar_disjuncts p : scalar_clause p → Forall scalar_clause (collectOrDisjuncts p).
Proof.
  induction p as [| | l IHl r IHr | | | | |]; cbn [collectOrDisjuncts scalar_clause]; intros Hp; try by constructor.
  apply Forall_app. naive_solver.
Qed.
Lemma scalar_conjuncts p : scalar_clause p → Forall scalar_clause (collectAndConjuncts p).
Proof.
  induction p as [| l IHl r IHr | | | | | |]; cbn [collectAndConjuncts scalar_clause]; intros Hp; try by constructor.
  apply Forall_app. naive_solver.
Qed.

Lemma partition_members ds ix others : partition_disjuncts indexes ds = Ok (ix, others) → Forall scalar_clause ds →
  Forall (λ p, isEqualityIndexProbe indexes p = Ok true) ix ∧ Forall scalar_clause others.
Proof.
  revert ix others. induction ds as [|p ds IH]; intros ix others; [by intros [= <- <-]|]. cbn [partition_disjuncts].
  intros E [Hp Hds]%Forall_cons. inv_result E. destruct a0 as [ix' others']. destruct (IH _ _ eq_refl Hds) as [Hix Ho].
  destruct a; injection E as <- <-; split; try done; by constructor.
Qed.

Lemma split_disjuncts_members ds split : split_disjuncts indexes ds = Ok split → Forall scalar_clause ds →
  Forall scalar_clause (os_residualDisjuncts split).
Proof.
  revert split. induction ds as [|p ds IH]; intros split; [by intros [= <-]|]. cbn [split_disjuncts].
  intros E [Hp Hds]%Forall_cons. inv_result E. destruct a; inv_result E; injection E as <-; cbn [os_residualDisjuncts].
  - by apply IH.
  - constructor; [done|]. by apply IH.
Qed.

Lemma top_level_or_total p plan : scalar_clause p → total (tryPlanTopLevelOrUnion double_chars llround_out stats indexes p plan).
Proof.
  intros Hp. unfold tryPlanTopLevelOrUnion. destruct p as [| |l r| | | | |]; try apply total_Ok.
  apply total_bind; [auto with total|]. intros [ix others] E.
  destruct (partition_members _ _ _ E (scalar_disjuncts _ Hp)) as [Hix Ho]. totals.
Qed.

Lemma split_conjuncts_total ps : total (split_conjuncts indexes ps).
Proof. induction ps; cbn [split_conjuncts]; totals. Qed.
#[local] Hint Resolve split_conjuncts_total : total.

(** What the estimate of the complementary scan needs of a split. *)
Lemma split_conjuncts_members ps s : split_conjuncts indexes ps = Ok s → Forall scalar_clause ps →
  Forall (λ p, isEqualityIndexProbe indexes p = Ok true) (as_equalityConjuncts s) ∧
  Forall (λ a, Forall scalar_clause (ao_residualDisjuncts a)) (as_absorbedOrs s) ∧
  Forall scalar_clause (as_residualConjuncts s).
Proof.
  revert s. induction ps as [|p ps IH]; intros s; [by intros [= <-]|]. cbn [split_conjuncts].
  intros E [Hp Hps]%Forall_cons. inv_result E. destruct a; inv_result E.
  - injection E as <-. destruct (IH _ eq_refl Hps) as (H1 & H2 & H3). split_and!; [by constructor|done|done].
  - destruct (IH _ eq_refl Hps) as (H1 & H2 & H3). destruct a as [split|]; injection E as <-;
      split_and!; try done; constructor; try done. unfold tryMakeOrUnionSplit in Hr0. destruct p; try done.
    inv_result Hr0. case_bool_decide; [done|]. injection Hr0 as ->.
    eapply split_disjuncts_members; [exact Hr2|]. by apply scalar_disjuncts.
Qed.

Lemma nodeSelectivity_total node rows : total (nodeSelectivity stats indexes node rows).
Proof.
  revert node. fix IH 1. intros [probe|children|children]; [apply probe_selectivity_total| |apply unionSelectivity_total].
  cbn [nodeSelectivity]. apply total_bind; [|intros; apply total_Ok]. generalize d_one.
  induction children as [|c cs IHc]; intros d; [apply total_Ok|]. apply total_bind; [apply IH|]. intros x _. apply IHc.
Qed.
#[local] Hint Resolve nodeSelectivity_total : total.

Lemma intersect_rows_total children rows d : total (intersect_rows stats indexes children rows d).
Proof. revert d. induction children; intros d; cbn [intersect_rows]; totals. Qed.
Lemma absorbed_miss_total l rows d : Forall (λ a, Forall scalar_clause (ao_residualDisjuncts a)) l →
  total (absorbed_miss llround_out stats indexes l rows d).
Proof. intros Hl. revert d. induction Hl; intros d; cbn [absorbed_miss]; totals. Qed.
#[local] Hint Resolve intersect_rows_total absorbed_miss_total : total.

Lemma intersect_total ps cost plan : Forall scalar_clause ps →
  total (tryPlanAndIntersect double_chars llround_out stats indexes ps cost plan).
Proof.
  intros Hps. unfold tryPlanAndIntersect. apply total_bind; [auto with total|]. intros s E.
  destruct (split_conjuncts_members _ _ E Hps) as (H1 & H2 & H3). unfold explain_cost. totals.
Qed.

Lemma independent_distinct_total n cs d : total (independent_distinct stats indexes n cs d).
Proof. revert d. induction cs; intros d; cbn [independent_distinct]; totals. Qed.
#[local] Hint Resolve independent_distinct_total : total.
Lemma composite_candidate_total m cs : total (composite_candidate stats indexes m cs).
Proof. unfold composite_candidate. totals. Qed.
#[local] Hint Resolve composite_candidate_total : total.
Lemma best_candidate_total m l cost best : total (best_candidate stats indexes m l cost best).
Proof. revert best. induction l; intros best; cbn [best_candidate]; totals. Qed.
#[local] Hint Resolve best_candidate_total : total.

Lemma covered_length m cs parts absorbed : covered m cs = Some (parts, absorbed) → length parts = length cs.
Proof.
  revert parts absorbed. induction cs as [|c cs IH]; intros parts absorbed; cbn [covered]; [by intros [= <- <-]|].
  destruct (smap_find c m) as [[i v]|]; [|done]. cbn [mbind option_bind]. destruct (covered m cs) as [[ps ab]|]; [|done].
  intros [= <- <-]. simpl. by rewrite (IH _ _ eq_refl).
Qed.

Lemma composite_total ps cost plan : total (tryPlanCompositeHashEq llround_out stats indexes ps cost plan).
Proof.
  unfold tryPlanCompositeHashEq. case_match; [apply total_Ok|]. apply total_bind; [auto with total|]. intros l _.
  apply total_bind; [auto with total|]. intros [best|] E; [|apply total_Ok].
  apply total_bind; [|intros; apply total_Ok]. apply best_candidate_ok in E as [|[cs E]]; [done|].
  apply composite_candidate_ok in E as (_ & Hl & _ & El%covered_length).
  unfold composite. destruct (cd_parts best) as [|v [|w vs]]; [simpl in El; lia|apply total_Ok..].
Qed.

(** A reading of the leaves that makes every clause true, for what the choice of a
    path says without a row. *)
Definition all_true (p : Pred) : bool := match p with InListPred _ vs _ _ => existsb (λ _, true) vs | _ => true end.
Lemma all_true_laws (fine : Pred → Prop) : (∀ c v vs e o, fine (ComparisonPred c Equal v None e o) → fine (InListPred c vs e o)) →
  leaf_laws all_true (λ _ _ _ _, true) (λ _ _, true) (λ _ _, true) fine.
Proof. by constructor. Qed.

Lemma rewritten_scalar p : scalar_clause p → scalar_clause (rewritten p).
Proof.
  intros Hp. unfold rewritten, tryRewriteSameColumnEqualityOrToIn. repeat case_match; try done.
  by destruct (same_column_values _ _ _).
Qed.

Lemma planSelect_total fine exprs query : exprs_ok exprs →
  (∀ c v vs e o, fine (ComparisonPred c Equal v None e o) → fine (InListPred c vs e o)) →
  (∀ p, sel_where query = Some p → clause_ok fine exprs p ∧ scalar_clause p) →
  total (planSelect double_chars llround_out stats indexes query).
Proof.
  intros He Hfine Hw. unfold planSelect. destruct (sel_where query) as [w|]; [|apply total_Ok].
  destruct (Hw w eq_refl) as [Hc Hs]. pose proof (rewritten_scalar _ Hs) as Hs1.
  pose proof (rewritten_ok _ _ _ _ fine exprs (all_true_laws fine Hfine) He w Hc) as [_ Hc1].
  pose proof (rewritten_list _ _ _ _ fine exprs (all_true_laws fine Hfine) He _ (conjuncts_ok fine exprs _ Hc1)) as [_ Hcs].
  assert (Forall scalar_clause (rewritten <$> collectAndConjuncts (rewritten w))) as Hss.
  { apply Forall_fmap. eapply Forall_impl; [by apply scalar_conjuncts|]. intros p. apply rewritten_scalar. }
  apply total_bind; [by apply top_level_or_total|]. intros [p1|] _; [apply total_Ok|].
  apply total_bind; [by apply chooseBest_total|]. intros choice Ech.
  pose proof (chooseBest_ok _ _ _ _ fine exprs (all_true_laws fine Hfine) He double_chars llround_out stats indexes _ _ _ _ Hcs Ech) as Hch.
  apply total_bind; [apply composite_total|]. intros [p1|] _; [apply total_Ok|].
  apply total_bind; [by apply intersect_total|]. intros [p1|] _; [apply total_Ok|]. case_match eqn:Ei; [apply total_Ok|].
  apply Nat.eqb_neq in Ei. destruct Hch as [|(p & Hp & path & text & Epath & _)]; [done|].
  unfold finalizeBestAccessPath. rewrite Hp, Epath. apply total_Ok.
Qed.
End total.
