(* ===== verification/SelectScan.v ===== *)
(** * Scans

    [src/execution/select_engine_bitmap.cpp], [select_engine_ssi.cpp],
    [select_engine_scan.cpp] and [SubqueryRuntime::matches]: the rows of one table
    that satisfy a WHERE clause, along the access path of a plan, with the reads
    they record for serializable transactions.

    A scan reads the table and changes only the transaction manager.  The
    evaluation of a subquery is a parameter, as is the substitution of the outer
    row into it. *)

From S2P Require Import Prelude Value Float64 VectorRowStore StringPattern TransactionManager Mvcc IndexExpression Predicate SetOps.
From S2P Require Import Histogram Selectivity IndexManager Table Database ForeignKeys Ast Planner JoinPlanner.
From Stdlib Require Import Ascii.
Local Open Scope nat_scope.

(** ** Sorted lists of row ids *)

(** [std::set_intersection] and [std::set_union]. *)
Fixpoint set_intersection (l1 : list RowId) : list RowId → list RowId :=
  match l1 with
  | [] => λ _, []
  | x :: l1' =>
      fix go (l2 : list RowId) : list RowId :=
        match l2 with
        | [] => []
        | y :: l2' =>
            if Nat.ltb x y then set_intersection l1' l2
            else if Nat.ltb y x then go l2'
            else x :: set_intersection l1' l2'
        end
  end.

Fixpoint set_union (l1 : list RowId) : list RowId → list RowId :=
  match l1 with
  | [] => λ l2, l2
  | x :: l1' =>
      fix go (l2 : list RowId) : list RowId :=
        match l2 with
        | [] => l1
        | y :: l2' =>
            if Nat.ltb y x then y :: go l2'
            else if Nat.ltb x y then x :: set_union l1' l2
            else x :: set_union l1' l2'
        end
  end.

Section bitmap.
Context {S : Type} `{RowStore S}.
Abbreviation Table := (Table Select S).

Inductive BitmapOp : Type := OpIntersect | OpUnion.

(** The loop of [evalBitmapChildren]; [combined] is the set of the children so
    far, if there was one. *)
Fixpoint combine_children (op : BitmapOp) (children : list (result (list RowId))) (combined : option (list RowId))
  : result (list RowId) :=
  match children with
  | [] => Ok (default [] combined)
  | child :: children =>
      childIds ← child;
      match op with
      | OpIntersect =>
          if bool_decide (length childIds = 0) then Ok []
          else
            match combined with
            | None => combine_children op children (Some childIds)
            | Some ids =>
                let next := set_intersection ids childIds in
                if bool_decide (length next = 0) then Ok [] else combine_children op children (Some next)
            end
      | OpUnion =>
          if bool_decide (length childIds = 0) then combine_children op children combined
          else
            match combined with
            | None => combine_children op children (Some childIds)
            | Some ids => combine_children op children (Some (set_union ids childIds))
            end
      end
  end.

Definition probe_ids (t : Table) (column : string) (expression : option IndexExpression) (value : Value)
  : result (option (list RowId)) :=
  match expression with
  | Some e => indexedLookup_expr (t_indexManager t) e value
  | None => indexedLookup (t_indexManager t) [column] value (t_schema t)
  end.

Fixpoint evalBitmapNode (t : Table) (node : IndexBitmapNode) : result (list RowId) :=
  match node with
  | BN_Probe probe =>
      rowIds ← probe_ids t (pr_column probe) (pr_expression probe) (pr_value probe);
      Ok (match rowIds with Some ids => std_sort Nat.ltb ids | None => [] end)
  | BN_Intersect children => combine_children OpIntersect (evalBitmapNode t <$> children) None
  | BN_Union children => combine_children OpUnion (evalBitmapNode t <$> children) None
  end.

Definition evalIntersectPlan (children : list IndexBitmapNode) (t : Table) : result (list RowId) :=
  combine_children OpIntersect (evalBitmapNode t <$> children) None.
Definition evalUnionPlan (children : list IndexBitmapNode) (t : Table) : result (list RowId) :=
  combine_children OpUnion (evalBitmapNode t <$> children) None.
End bitmap.

(** ** Recorded predicates *)

Fixpoint canRecordColumnSireads (p : Pred) : bool :=
  match p with
  | ComparisonPred _ _ _ rhsColumn expression _ => bool_decide (rhsColumn = None) && bool_decide (expression = None)
  | AndPred l r | OrPred l r => canRecordColumnSireads l && canRecordColumnSireads r
  | InListPred _ _ expression _ => bool_decide (expression = None)
  | LikePred _ _ _ => true
  | _ => false
  end.

Definition column_read (relation column : string) (op : ComparisonOperator) (value : Value) : SsiPredicate :=
  mkSsiPredicate relation column (Some op) (Some value) None.

Fixpoint recordSsiPredicateFromTree (id : TransactionId) (relation : string) (p : Pred) (tm : TransactionManager)
  : TransactionManager :=
  match p with
  | ComparisonPred column op value None None _ => recordPredicateRead id (column_read relation column op value) tm
  | ComparisonPred _ _ _ _ _ _ => recordRelationRead id relation tm
  | AndPred l r => recordSsiPredicateFromTree id relation r (recordSsiPredicateFromTree id relation l tm)
  | OrPred l r =>
      if negb (canRecordColumnSireads p) then recordRelationRead id relation tm
      else recordSsiPredicateFromTree id relation r (recordSsiPredicateFromTree id relation l tm)
  | InListPred column inValues None _ =>
      foldl (λ tm value, recordPredicateRead id (column_read relation column Equal value) tm) tm inValues
  | LikePred column pattern _ =>
      recordPredicateRead id (mkSsiPredicate relation column None None (Some pattern)) tm
  | _ => recordRelationRead id relation tm
  end.

Definition recordSsiProbe (id : TransactionId) (relation : string) (probe : IndexEqualityProbe) (tm : TransactionManager)
  : TransactionManager :=
  match pr_expression probe with
  | Some _ => recordRelationRead id relation tm
  | None => recordPredicateRead id (column_read relation (pr_column probe) Equal (pr_value probe)) tm
  end.

Fixpoint recordSsiBitmapNode (id : TransactionId) (relation : string) (node : IndexBitmapNode)
    (tm : TransactionManager) : TransactionManager :=
  match node with
  | BN_Probe probe => recordSsiProbe id relation probe tm
  | BN_Intersect children | BN_Union children =>
      foldl (λ tm child, recordSsiBitmapNode id relation child tm) tm children
  end.

Definition record_residual (id : TransactionId) (relation : string) (p : option Pred) (tm : TransactionManager)
  : TransactionManager :=
  match p with Some p => recordSsiPredicateFromTree id relation p tm | None => tm end.

Definition record_path (id : TransactionId) (relation : string) (query_where : option Pred) (path : AccessPathPlan)
    (tm : TransactionManager) : result TransactionManager :=
  match path with
  | HashEqPlan _ (Some _) _ _ => Ok (recordRelationRead id relation tm)
  | HashEqPlan column None value [] => Ok (recordPredicateRead id (column_read relation column Equal value) tm)
  | HashEqPlan _ None value columns =>
      parts ← compositeParts value;
      Ok (foldl (λ tm e, recordPredicateRead id (column_read relation e.1 Equal e.2) tm) tm (zip columns parts))
  | OrderedRangePlan _ (Some _) _ _ => Ok (recordRelationRead id relation tm)
  | OrderedRangePlan column None op value => Ok (recordPredicateRead id (column_read relation column op value) tm)
  | HashInPlan _ (Some _) _ => Ok (recordRelationRead id relation tm)
  | HashInPlan column None values =>
      Ok (foldl (λ tm value, recordPredicateRead id (column_read relation column Equal value) tm) tm values)
  | IntersectPlan children | UnionPlan children =>
      Ok (foldl (λ tm child, recordSsiBitmapNode id relation child tm) tm children)
  | PrefixLikePlan _ _ => Ok tm
  | FullScanPlan =>
      Ok (match query_where with
          | Some p => recordSsiPredicateFromTree id relation p tm
          | None => recordRelationRead id relation tm
          end)
  end.

Definition recordSsiScanPredicates (id : TransactionId) (relation : string) (query_where : option Pred) (plan : QueryPlan)
  : M TransactionManager unit := λ tm,
  match record_path id relation query_where (qp_path plan) tm with
  | Throw e => (Throw e, tm)
  | Ok tm => (Ok tt, record_residual id relation (complementaryResidual plan)
                       (record_residual id relation (residual plan) tm))
  end.

(** ** WHERE on a row *)

(** The text before and after the first dot. *)
Fixpoint split_dot (s : string) : option (string * string) :=
  match s with
  | EmptyString => None
  | String c s =>
      if Ascii.eqb c "." then Some (EmptyString, s)
      else '(qual, rest) ← split_dot s; Some (String c qual, rest)
  end.

Section scan.
Context {S : Type} `{RowStore S}.
Context (matchRegexPattern : string → string → bool).
Context (int_to_double : Z → Z) (double_add double_sub : Z → Z → Z).
Abbreviation Table := (Table Select S).
Abbreviation scan := (M TransactionManager).
Context (bindOuterReferences : Select → Row → Table → string → scan Select).
Context (evaluateExists : Select → scan bool) (evaluateSubqueryValues : Select → scan (list Value)).

Definition scoped_lookup (t : Table) (scope : string) (column : string) : option nat :=
  match columnIndex t column with
  | Some i => Some i
  | None =>
      match split_dot column with
      | Some (qual, name) =>
          if equalsIgnoreCase qual (t_name t) || equalsIgnoreCase qual scope then columnIndex t name else None
      | None => None
      end
  end.

(** The subquery with the row put in, when it refers to it. *)
Definition bound_subquery (row : Row) (t : Table) (scope : string) (subquery : Select) (referencesOuter : bool)
  : scan Select :=
  if referencesOuter || sel_hasOuterRefs subquery then bindOuterReferences subquery row t scope else mret subquery.

Fixpoint matches_in (scope : string) (row : Row) (t : Table) (p : Pred) : scan bool :=
  match p with
  | AndPred l r =>
      a ← matches_in scope row t l; if a : bool then matches_in scope row t r else mret false
  | OrPred l r =>
      a ← matches_in scope row t l; if a : bool then mret true else matches_in scope row t r
  | ExistsPred subquery referencesOuter =>
      bound ← bound_subquery row t scope subquery referencesOuter; evaluateExists bound
  | InSubqueryPred column subquery referencesOuter =>
      bound ← bound_subquery row t scope subquery referencesOuter;
      values ← evaluateSubqueryValues bound;
      match columnIndex t column with
      | None => raise (runtime_error "unknown predicate column")
      | Some i => v ← liftM (row_at row i); mret (existsb (λ x, Value_eqb x v) values)
      end
  | _ => liftM (evalPredicate matchRegexPattern int_to_double double_add double_sub p row (total_lookup (scoped_lookup t scope)))
  end.

Definition matches (row : Row) (t : Table) (p : Pred) (scopeName : string) : scan bool :=
  matches_in (if String.eqb scopeName EmptyString then t_name t else scopeName) row t p.

(** ** The rows of a plan *)

Abbreviation Entries := (list (RowId * Row)).

(** The entries that satisfy [p] and whose id is not in [seen]. *)
Fixpoint select_entries (seen : list RowId) (p : option Pred) (scope : string) (t : Table) (entries : Entries)
  : scan Entries :=
  match entries with
  | [] => mret []
  | (rowId, row) :: entries =>
      keep ← (if existsb (Nat.eqb rowId) seen then mret false
              else match p with Some p => matches row t p scope | None => mret true end);
      rest ← select_entries seen p scope t entries;
      mret (if keep : bool then (rowId, row) :: rest else rest)
  end.

(** [applyResidual], with the number of candidates when there is a filter. *)
Definition applyResidual (plan : QueryPlan) (scope : string) (t : Table) (entries : Entries)
  : scan (Entries * option nat) :=
  match residual plan with
  | None => mret (entries, None)
  | Some p => filtered ← select_entries [] (Some p) scope t entries; mret (filtered, Some (length entries))
  end.

(** [combined.insert] for each value of an IN list. *)
Fixpoint lookup_all (t : Table) (column : string) (expression : option IndexExpression) (values : list Value)
  : result (list RowId) :=
  match values with
  | [] => Ok []
  | value :: values =>
      rowIds ← probe_ids t column expression value;
      rest ← lookup_all t column expression values;
      Ok (default [] rowIds ++ rest)
  end.

Definition range_ids (t : Table) (column : string) (expression : option IndexExpression) (op : ComparisonOperator)
    (value : Value) : result (option (list RowId)) :=
  match expression with
  | Some e => orderedLookup_expr (t_indexManager t) e op value
  | None => orderedLookup (t_indexManager t) column op value (t_schema t)
  end.

Definition hash_eq_ids (t : Table) (column : string) (expression : option IndexExpression) (value : Value)
    (columns : list string) : result (option (list RowId)) :=
  match expression, columns with
  | Some e, _ => indexedLookup_expr (t_indexManager t) e value
  | None, _ :: _ => indexedLookup (t_indexManager t) columns value (t_schema t)
  | None, [] => indexedLookup (t_indexManager t) [column] value (t_schema t)
  end.

Section snapshot.
Context (snap : ReadSnapshot).

Definition by_id (t : Table) (ids : list RowId) : scan Entries := visible_by_id ids snap t.

(** The entries with these ids and, of the others, those that satisfy [p]. *)
Definition with_complement (p : Pred) (scope : string) (t : Table) (seen : list RowId) (out : Entries) : scan Entries :=
  all ← visible snap t;
  more ← select_entries seen (Some p) scope t all;
  mret (out ++ more).

Definition entries_of_path (command : Select) (t : Table) (plan : QueryPlan) : scan (Entries * option nat) :=
  let scope := selectScopeName command in
  let filtered ids := entries ← by_id t ids; applyResidual plan scope t entries in
  match qp_path plan with
  | HashEqPlan column expression value columns =>
      rowIds ← liftM (hash_eq_ids t column expression value columns);
      match rowIds with Some ids => filtered ids | None => mret ([], None) end
  | OrderedRangePlan column expression op value =>
      rowIds ← liftM (range_ids t column expression op value);
      match rowIds with Some ids => filtered ids | None => mret ([], None) end
  | HashInPlan column expression values =>
      combined ← liftM (lookup_all t column expression values);
      filtered combined
  | PrefixLikePlan column prefix =>
      exact ← liftM (indexedLookup (t_indexManager t) [column] (VString prefix) (t_schema t));
      greater ← liftM (orderedLookup (t_indexManager t) column Greater (VString prefix) (t_schema t));
      filtered (default [] exact ++ default [] greater)
  | IntersectPlan children =>
      intersection ← liftM (evalIntersectPlan children t);
      let found := if bool_decide (length intersection = 0) then mret ([], None) else filtered intersection in
      match complementaryResidual plan with
      | None => found
      | Some p =>
          '(out, _) ← found;
          entries ← with_complement p scope t out.*1 out;
          mret (entries, Some (length out))
      end
  | UnionPlan children =>
      ids ← liftM (evalUnionPlan children t);
      out ← (if bool_decide (length ids = 0) then mret [] else by_id t ids);
      match residual plan with
      | None => mret (out, None)
      | Some p =>
          entries ← with_complement p scope t ids out;
          mret (entries, Some (length ids))
      end
  | FullScanPlan =>
      all ← visible snap t;
      scanned ← select_entries [] (sel_where command) scope t all;
      mret (scanned, None)
  end.

(** The entries, and the [candidates] of [ExplainAnalyzeStats]; its [actualRows] is
    the number of entries. *)
Definition collectVisibleEntries (command : Select) (t : Table) (plan : QueryPlan) : scan (Entries * option nat) :=
  _ ← recordSsiScanPredicates (snap_self snap) (t_name t) (sel_where command) plan;
  entries_of_path command t plan.

Definition collectRows (command : Select) (t : Table) (plan : QueryPlan) : scan (list Row) :=
  '(entries, _) ← collectVisibleEntries command t plan; mret entries.*2.
End snapshot.
End scan.
