(* ===== verification/SelectScanProof.v ===== *)
(** * Planned scans return the rows of the WHERE clause

    The row ids an access path collects from the indexes are those of the live rows
    that pass the test the path stands for, so the entries [collectVisibleEntries]
    returns for a plan are those a scan with the WHERE clause would return. *)

From S2P Require Import Prelude Value Float64 VectorRowStore StringPattern TransactionManager Mvcc HashIndex BTreeIndex IndexExpression.
From S2P Require Import Predicate SetOps Histogram Selectivity IndexManager IndexManagerProof Table TableProof Database ForeignKeys Ast.
From S2P Require Import Planner JoinPlanner PlannerProof PlannerTotal SelectScan.
From Stdlib Require Import Ascii.
Local Open Scope nat_scope.

(** ** Sorted lists of row ids *)

Lemma StronglySorted_sublist {A} (R : A → A → Prop) l l' : sublist l l' → StronglySorted R l' → StronglySorted R l.
Proof.
  induction 1 as [|x l l' Hs IH|x l l' Hs IH]; [done|..]; intros [Hl' Hx]%StronglySorted_inv; [|auto].
  constructor; [auto|]. rewrite Forall_forall in Hx |- *. intros y Hy. apply Hx. by eapply sublist_subseteq.
Qed.

Lemma StronglySorted_weaken {A} (R R' : A → A → Prop) l : (∀ x y, R x y → R' x y) → StronglySorted R l → StronglySorted R' l.
Proof. intros HR. induction 1 as [|x l Hs IH Hx]; constructor; [done|]. eapply Forall_impl; [exact Hx|auto]. Qed.

Lemma set_intersection_sublist l1 l2 : sublist (set_intersection l1 l2) l1.
Proof.
  revert l2. induction l1 as [|x l1 IH]; intros l2; [done|]. induction l2 as [|y l2 IH2]; cbn [set_intersection].
  - apply sublist_nil_l.
  - destruct (Nat.ltb x y); [by apply sublist_cons|]. destruct (Nat.ltb y x); [exact IH2|]. by apply sublist_skip.
Qed.

Lemma elem_of_set_intersection l1 l2 i : StronglySorted le l1 → StronglySorted le l2 →
  i ∈ set_intersection l1 l2 ↔ i ∈ l1 ∧ i ∈ l2.
Proof.
  intros H1. revert l2. induction H1 as [|x l1 Hs1 IH Hx]; intros l2 H2; [cbn; set_solver|].
  induction H2 as [|y l2 Hs2 IH2 Hy]; cbn [set_intersection]; [set_solver|].
  rewrite Forall_forall in Hx, Hy. destruct (Nat.ltb_spec x y) as [Hlt|Hle].
  - rewrite IH by (constructor; [done|by apply Forall_forall]). rewrite !elem_of_cons. split; [tauto|].
    intros [[->|Hi] [->|Hj]]; [lia|specialize (Hy _ Hj); lia|tauto..].
  - destruct (Nat.ltb_spec y x) as [Hlt|Hle2].
    + rewrite IH2, !elem_of_cons. split; [tauto|]. intros [[->|Hi] [->|Hj]]; [lia|tauto|specialize (Hx _ Hi); lia|tauto].
    + assert (y = x) as -> by lia. rewrite !elem_of_cons, IH by done. tauto.
Qed.

Lemma elem_of_set_union l1 l2 i : i ∈ set_union l1 l2 ↔ i ∈ l1 ∨ i ∈ l2.
Proof.
  revert l2. induction l1 as [|x l1 IH]; intros l2; [cbn; set_solver|].
  induction l2 as [|y l2 IH2]; cbn [set_union]; [set_solver|].
  destruct (Nat.ltb_spec y x) as [Hlt|Hle].
  - rewrite elem_of_cons, IH2. set_solver.
  - destruct (Nat.ltb_spec x y) as [Hlt|Hle2].
    + rewrite elem_of_cons, IH. set_solver.
    + assert (y = x) as -> by lia. rewrite elem_of_cons, IH. set_solver.
Qed.

Lemma set_union_sorted (R : nat → nat → Prop) `{!Transitive R} l1 l2 : (∀ x y, x < y → R x y) →
  StronglySorted R l1 → StronglySorted R l2 → StronglySorted R (set_union l1 l2).
Proof.
  intros HR H1. revert l2. induction H1 as [|x l1 Hs1 IH Hx]; intros l2 H2; [done|].
  induction H2 as [|y l2 Hs2 IH2 Hy]; cbn [set_union]; [by constructor|].
  rewrite Forall_forall in Hx, Hy. destruct (Nat.ltb_spec y x) as [Hlt|Hle].
  - constructor; [done|]. apply Forall_forall. intros z [Hz|Hz]%(elem_of_set_union (x :: l1)); [|by apply Hy].
    apply elem_of_cons in Hz as [->|Hz]; [by apply HR|]. etrans; [by apply HR|by apply Hx].
  - destruct (Nat.ltb_spec x y) as [Hlt|Hle2].
    + constructor; [apply IH; constructor; [done|by apply Forall_forall]|]. apply Forall_forall.
      intros z [Hz|Hz]%elem_of_set_union; [by apply Hx|]. apply elem_of_cons in Hz as [->|Hz]; [by apply HR|].
      etrans; [by apply HR|by apply Hy].
    + assert (y = x) as -> by lia. constructor; [by apply IH|]. apply Forall_forall.
      intros z [Hz|Hz]%elem_of_set_union; auto.
Qed.

(** A sorted list of the ids that satisfy [P]; [strict] when no id is repeated. *)
Definition ids_of (P : RowId → Prop) (strict : bool) (ids : list RowId) : Prop :=
  StronglySorted le ids ∧ (∀ i, i ∈ ids ↔ P i) ∧ (strict = true → StronglySorted lt ids).

Lemma ids_of_empty P strict ids : ids_of P strict ids → ids = [] → ∀ i, ¬ P i.
Proof. intros (_ & Hin & _) -> i Hi. apply Hin in Hi. by apply elem_of_nil in Hi. Qed.

Lemma ids_of_intersection P Q s s' l l' : ids_of P s l → ids_of Q s' l' →
  ids_of (λ i, P i ∧ Q i) (s && s') (set_intersection l l').
Proof.
  intros (Hs & Hin & Hst) (Hs' & Hin' & Hst'). split; [|split].
  - eapply StronglySorted_sublist; [apply set_intersection_sublist|done].
  - intros i. by rewrite elem_of_set_intersection, Hin, Hin'.
  - intros [H1 _]%andb_true_iff. eapply StronglySorted_sublist; [apply set_intersection_sublist|auto].
Qed.

Lemma ids_of_union P Q s s' l l' : ids_of P s l → ids_of Q s' l' →
  ids_of (λ i, P i ∨ Q i) (s && s') (set_union l l').
Proof.
  intros (Hs & Hin & Hst) (Hs' & Hin' & Hst'). split; [|split].
  - apply set_union_sorted; [apply _|lia|done..].
  - intros i. by rewrite elem_of_set_union, Hin, Hin'.
  - intros [H1 H2]%andb_true_iff. apply set_union_sorted; [apply _|lia|auto..].
Qed.

Lemma ids_of_ext P Q s ids : (∀ i, P i ↔ Q i) → ids_of P s ids → ids_of Q s ids.
Proof. intros HPQ (Hs & Hin & Hst). split; [done|]. split; [|done]. intros i. by rewrite Hin, HPQ. Qed.
Lemma ids_of_weaken P s s' ids : (s' = true → s = true) → ids_of P s ids → ids_of P s' ids.
Proof. intros Hss (Hs & Hin & Hst). split; [done|]. split; [done|]. auto. Qed.
Lemma ids_of_nil P s : (∀ i, ¬ P i) → ids_of P s [].
Proof. intros Hno. split; [constructor|]. split; [|constructor]. intros i. split; [by intros ?%elem_of_nil|]. by intros ?%Hno. Qed.

Section combine.
Context {N : Type} (f : N → result (list RowId)) (P : N → RowId → Prop) (strict : N → bool).
Implicit Types ns : list N.

Definition evaluates (n : N) : Prop := ∃ ids, f n = Ok ids ∧ ids_of (P n) (strict n) ids.

Lemma combine_intersect ns : Forall evaluates ns → ∀ Q s c, ids_of Q s c →
  ∃ out, combine_children OpIntersect (f <$> ns) (Some c) = Ok out ∧
    ids_of (λ i, Q i ∧ Forall (λ n, P n i) ns) (s && forallb strict ns) out.
Proof.
  induction 1 as [|n ns (ids & E & Hids) _ IH]; intros Q s c Hc.
  { exists c. split; [done|]. rewrite andb_true_r. eapply ids_of_ext; [|exact Hc]. intros i. rewrite Forall_nil. tauto. }
  rewrite fmap_cons. cbn [combine_children]. rewrite E. cbn [mbind result_bind]. case_bool_decide as H0.
  { apply nil_length_inv in H0. exists []. split; [done|]. apply ids_of_nil. intros i [_ [Hn _]%Forall_cons].
    by apply (ids_of_empty _ _ _ Hids H0 i). }
  pose proof (ids_of_intersection _ _ _ _ _ _ Hc Hids) as Hi. case_bool_decide as H1.
  { apply nil_length_inv in H1. exists []. split; [done|]. apply ids_of_nil. intros i [Hq [Hn _]%Forall_cons].
    by apply (ids_of_empty _ _ _ Hi H1 i). }
  destruct (IH _ _ _ Hi) as (out & Eo & Ho). exists out. split; [done|]. cbn [forallb]. rewrite andb_assoc.
  eapply ids_of_ext; [|exact Ho]. intros i. rewrite Forall_cons. tauto.
Qed.

Lemma combine_intersect_all ns : ns ≠ [] → Forall evaluates ns →
  ∃ out, combine_children OpIntersect (f <$> ns) None = Ok out ∧ ids_of (λ i, Forall (λ n, P n i) ns) (forallb strict ns) out.
Proof.
  intros Hne Hns. destruct Hns as [|n ns (ids & E & Hids) Hns]; [done|].
  rewrite fmap_cons. cbn [combine_children]. rewrite E. cbn [mbind result_bind]. case_bool_decide as H0.
  { apply nil_length_inv in H0. exists []. split; [done|]. apply ids_of_nil. intros i [Hn _]%Forall_cons.
    by apply (ids_of_empty _ _ _ Hids H0 i). }
  destruct (combine_intersect ns Hns _ _ _ Hids) as (out & Eo & Ho). exists out. split; [done|].
  eapply ids_of_ext; [|exact Ho]. intros i. by rewrite Forall_cons.
Qed.

Lemma combine_union ns : Forall evaluates ns → ∀ Q s combined, ids_of Q s (default [] combined) →
  ∃ out, combine_children OpUnion (f <$> ns) combined = Ok out ∧
    ids_of (λ i, Q i ∨ Exists (λ n, P n i) ns) (s && forallb strict ns) out.
Proof.
  induction 1 as [|n ns (ids & E & Hids) _ IH]; intros Q s combined Hc.
  { exists (default [] combined). split; [done|]. rewrite andb_true_r. eapply ids_of_ext; [|exact Hc].
    intros i. rewrite Exists_nil. tauto. }
  rewrite fmap_cons. cbn [combine_children]. rewrite E. cbn [mbind result_bind forallb].
  assert (ids_of (λ i, Q i ∨ P n i) (s && strict n)
            (if bool_decide (length ids = 0) then default [] combined
             else match combined with None => ids | Some c => set_union c ids end)) as Hn.
  { case_bool_decide as H0.
    - apply nil_length_inv in H0. eapply ids_of_weaken, ids_of_ext; [| |exact Hc]; [by intros [? _]%andb_true_iff|].
      intros i. pose proof (ids_of_empty _ _ _ Hids H0 i). tauto.
    - destruct combined as [c|]; [by apply ids_of_union|]. eapply ids_of_weaken, ids_of_ext; [| |exact Hids].
      + by intros [_ ?]%andb_true_iff.
      + intros i. pose proof (ids_of_empty _ _ _ Hc eq_refl i). tauto. }
  assert (∀ combined', ids_of (λ i, Q i ∨ P n i) (s && strict n) (default [] combined') →
    ∃ out, combine_children OpUnion (f <$> ns) combined' = Ok out ∧
      ids_of (λ i, Q i ∨ Exists (λ n, P n i) (n :: ns)) (s && (strict n && forallb strict ns)) out) as Hstep.
  { intros combined' Hn'. destruct (IH _ _ _ Hn') as (out & Eo & Ho). exists out. split; [done|]. rewrite andb_assoc.
    eapply ids_of_ext; [|exact Ho]. intros i. rewrite Exists_cons. tauto. }
  case_bool_decide as H0; [by apply Hstep|]. destruct combined as [c|]; by apply Hstep.
Qed.

Lemma combine_union_all ns : Forall evaluates ns →
  ∃ out, combine_children OpUnion (f <$> ns) None = Ok out ∧ ids_of (λ i, Exists (λ n, P n i) ns) (forallb strict ns) out.
Proof.
  intros Hns. destruct (combine_union ns Hns (λ _, False) true None) as (out & E & Ho).
  { apply ids_of_nil. intros i Hi. exact Hi. }
  exists out. split; [done|]. eapply ids_of_ext; [|exact Ho]. intros i. tauto.
Qed.
End combine.

(** ** Lookups of a table as tests of its rows *)

Section planned_scan.
Context {S : Type} `{RowStoreLaws S}.
Context (regex : string → string → bool).
Context (i2d : Z → Z) (dadd dsub : Z → Z → Z) (dchars : Z → chars).
Abbreviation Table := (Table Select S).
Context (t : Table) (v : VectorRowStore) (scope : string).
Context (Hheap : hinv i2d dadd dsub dchars t v (t_indexManager t)).
Context (exprs : list IndexExpression).

Abbreviation im := (t_indexManager t).
Abbreviation lookup := (scoped_lookup t scope).
Abbreviation eval_expr := (evaluateIndexExpression i2d dadd dsub).

(** The expressions of the clause and those of the indexes that [==] identifies
    with them are the same. *)
Definition index_exprs_ok : Prop :=
  ∀ x e, x ∈ (im_indexExpressions im).*2 → e ∈ exprs → IndexExpression_eqb x e = true → x = e.

Context (Hexprs : exprs_ok exprs) (Hindex : index_exprs_ok).

(** The tests [PlannerProof] is about, on a row. *)
Definition row_cmp (row : Row) (c : string) (e : option IndexExpression) (op : ComparisonOperator) (x : Value) : bool :=
  match pred_operand i2d dadd dsub row (total_lookup lookup) c e with Ok y => compareValues y op x | Throw _ => false end.
Definition row_gram (row : Row) (c g : string) : bool :=
  match lookup c ≫= λ i, row !! i with
  | Some (VString s) => bool_decide (g ∈ extractTrigrams s)
  | _ => false
  end.
Definition row_prefix (row : Row) (c prefix : string) : bool :=
  row_cmp row c None Equal (VString prefix) || row_cmp row c None Greater (VString prefix).

(** The ids are those of the live rows that pass the test; none is repeated when
    [strict]. *)
Definition finds (test : Row → bool) (strict : bool) (ids : list RowId) : Prop :=
  (∀ i, i ∈ ids ↔ ∃ row, vrs_get i v = Some row ∧ test row = true) ∧ (strict = true → NoDup ids).

Lemma scan_ids_finds test ids : ids ≡ₚ scan_ids test v → finds test true ids.
Proof.
  intros Hp. split.
  - intros i. rewrite Hp. unfold scan_ids. rewrite list_elem_of_fmap. split.
    + intros ([j row] & -> & [Ht Hin]%list_elem_of_filter). apply live_entries_elem in Hin. eauto.
    + intros (row & Hi & Ht). exists (i, row). split; [done|]. apply list_elem_of_filter. by rewrite live_entries_elem.
  - intros _. rewrite Hp. unfold scan_ids. eapply (sublist_NoDup _ (vrs_liveEntries v).*1).
    + apply NoDup_live_entries_from.
    + apply fmap_sublist. induction (vrs_liveEntries v) as [|e l IH]; [done|]. rewrite (filter_test (λ e, test e.2)).
      case_match; [by apply sublist_skip|by apply sublist_cons].
Qed.

Lemma finds_ext test test' strict ids : (∀ i row, vrs_get i v = Some row → test row = test' row) →
  finds test strict ids → finds test' strict ids.
Proof.
  intros E [Hin Hnd]. split; [|done]. intros i. rewrite Hin. split; intros (row & Hi & Ht); exists row;
    (split; [done|]); [rewrite <- (E i)|rewrite (E i)]; done.
Qed.

Lemma names_ok : NoDup (col_name <$> t_schema t).
Proof. apply (tc_names _ _ _ _ _ _ _ (hi_core _ _ _ _ _ _ _ Hheap)). Qed.
Lemma wf_ok : im_wf (t_schema t) im.
Proof. apply (tc_wf _ _ _ _ _ _ _ (hi_core _ _ _ _ _ _ _ Hheap)). Qed.
Lemma reflects_ok : im_reflects i2d dadd dsub (t_schema t) im v.
Proof. apply (tc_reflects _ _ _ _ _ _ _ (hi_core _ _ _ _ _ _ _ Hheap)). Qed.
Lemma live_indexable i row : vrs_get i v = Some row → indexable i2d dadd dsub (t_schema t) im row.
Proof. intros Hi. apply (hi_keys _ _ _ _ _ _ _ Hheap). by eapply (tc_rows _ _ _ _ _ _ _ (hi_core _ _ _ _ _ _ _ Hheap)). Qed.

Lemma lookup_column c i : findColumn (t_schema t) c = Some i → lookup c = Some i.
Proof. intros E. unfold scoped_lookup, columnIndex. by rewrite E. Qed.

Lemma row_cmp_column row c i op x : findColumn (t_schema t) c = Some i → row_cmp row c None op x = column_test i op x row.
Proof.
  intros Hc. unfold row_cmp, pred_operand, pred_column, total_lookup, column_test, row_at. cbn [mbind result_bind].
  rewrite (lookup_column _ _ Hc).
  by destruct (row !! i).
Qed.

Lemma column_lookup c x : hasIndex im [c] (t_schema t) = Ok true → comparable x →
  ∃ ids, indexedLookup im [c] x (t_schema t) = Ok (Some ids) ∧ finds (λ row, row_cmp row c None Equal x) true ids.
Proof.
  intros Hix Hx. destruct (indexedLookup_scan _ _ _ _ _ _ [c] x wf_ok reflects_ok Hx) as (r & E & Eh & Hids).
  rewrite Hix in Eh. injection Eh as Eh. destruct r as [ids|]; [|by vm_compute in Eh]. exists ids. split; [done|].
  destruct (Hids ids eq_refl) as (idxs & Hc & Hp). destruct (columns_at_single _ _ _ names_ok Hc) as (i & -> & Hi).
  eapply finds_ext; [|by apply scan_ids_finds]. intros _ row _. rewrite (row_cmp_column _ _ _ _ _ Hi).
  apply (key_test_column i Equal x).
Qed.

Lemma range_lookup c op x : hasIndex im [c] (t_schema t) = Ok true → comparable x →
  ∃ ids, orderedLookup im c op x (t_schema t) = Ok (Some ids) ∧ finds (λ row, row_cmp row c None op x) true ids.
Proof.
  intros Hix Hx. destruct (orderedLookup_scan _ _ _ _ _ _ c op x wf_ok reflects_ok Hx) as (r & E & Eh & Hids).
  rewrite Hix in Eh. injection Eh as Eh. destruct r as [ids|]; [|by vm_compute in Eh]. exists ids. split; [done|].
  destruct (Hids ids eq_refl) as (idxs & Hc & Hp). destruct (columns_at_single _ _ _ names_ok Hc) as (i & -> & Hi).
  eapply finds_ext; [|by apply scan_ids_finds]. intros _ row _. rewrite (row_cmp_column _ _ _ _ _ Hi).
  apply key_test_column.
Qed.

(** A composite key compares the columns one by one. *)
Lemma columns_test idxs columns parts row : columns_at (t_schema t) idxs columns → length parts = length columns →
  match row_parts row idxs with Ok xs => list_eqb Value_eqb xs parts | Throw _ => false end =
  parts_test (row_cmp row) columns parts.
Proof.
  intros Hc. revert parts. induction Hc as [|i c idxs columns (col & Hcol & <-) Hcs IH]; intros [|p parts]; try done.
  intros [= El]. specialize (IH parts El). unfold parts_test in *. cbn [row_parts zip zip_with forallb fst snd].
  assert (findColumn (t_schema t) (col_name col) = Some i) as Hi by (apply findColumn_lookup; [apply names_ok|done]).
  rewrite (row_cmp_column _ _ _ _ _ Hi). unfold column_test. destruct (row !! i) as [x|]; [|done]. rewrite <- IH.
  cbn [compareValues]. destruct (row_parts row idxs) as [xs|]; cbn [mbind result_bind list_eqb]; [done|by rewrite andb_false_r].
Qed.

Lemma composite_lookup columns parts : hasIndex im columns (t_schema t) = Ok true → length parts = length columns →
  2 ≤ length parts → Forall (λ x, comparable x) parts →
  ∃ ids, indexedLookup im columns (VComposite parts) (t_schema t) = Ok (Some ids) ∧
    finds (λ row, parts_test (row_cmp row) columns parts) true ids.
Proof.
  intros Hix El Hl Hx. assert (comparable (VComposite parts)) as Hk.
  { simpl. apply Is_true_true, forallb_forall. intros x Hin. apply Is_true_true. rewrite Forall_forall in Hx.
    by apply Hx, list_elem_of_In. }
  destruct (indexedLookup_scan _ _ _ _ _ _ columns _ wf_ok reflects_ok Hk) as (r & E & Eh & Hids).
  rewrite Hix in Eh. injection Eh as Eh. destruct r as [ids|]; [|by vm_compute in Eh]. exists ids. split; [done|].
  destruct (Hids ids eq_refl) as (idxs & Hc & Hp). eapply finds_ext; [|by apply scan_ids_finds]. intros _ row _.
  rewrite <- (columns_test idxs columns parts row Hc El). unfold key_test, column_key.
  assert (∀ xs, row_parts row idxs = Ok xs → length xs = length idxs) as Hlen.
  { clear. induction idxs as [|i idxs IH]; intros xs; cbn [row_parts]; [by intros [= <-]|].
    destruct (row !! i); [|done]. intros E. inv_result E. injection E as <-. simpl. by rewrite (IH _ eq_refl). }
  destruct (row_parts row idxs) as [xs|]; [|done]. specialize (Hlen xs eq_refl). cbn [mbind result_bind].
  assert (length idxs = length columns) as Hli by (by eapply Forall2_length).
  destruct xs as [|x1 [|x2 xs]]; [simpl in *; lia..|done].
Qed.

(** ** Expression indexes *)

Lemma expression_index_find es e : NoDup es.*1 → existsb (λ item, IndexExpression_eqb item.2 e) es = true →
  ∃ name x, expression_index es e = Some name ∧ smap_find name es = Some x ∧ x ∈ es.*2 ∧ IndexExpression_eqb x e = true.
Proof.
  induction es as [|[n x] es IH]; [done|]. cbn [existsb expression_index fmap list_fmap fst snd].
  intros [Hn Hnd]%NoDup_cons. destruct (IndexExpression_eqb x e) eqn:E.
  - intros _. exists n, x. cbn [smap_find]. rewrite String.eqb_refl. split_and!; [done|done|by left|done].
  - intros Hex. destruct (IH Hnd Hex) as (name & y & Ei & Ef & Hin & Ey). exists name, y. split_and!; [done| |by right|done].
    cbn [smap_find]. destruct (String.eqb_spec n name) as [->|]; [|done]. destruct Hn. apply smap_find_Some in Ef.
    by apply (list_elem_of_fmap_2 fst _ (name, y)).
Qed.

(** The index of an expression, with the keys of the rows in it. *)
Lemma expression_index_ok e : hasExpressionIndex im e = true →
  (∀ x, x ∈ (im_indexExpressions im).*2 → IndexExpression_eqb x e = true → x = e) →
  ∃ name h b, expression_index (im_indexExpressions im) e = Some name ∧ smap_find name (im_indexExpressions im) = Some e ∧
    name ∈ (im_indexes im).*1 ∧ name ∈ (im_orderedIndexes im).*1 ∧
    smap_at name (im_indexes im) = Ok h ∧ hash_holds (index_log_of (hkeys i2d dadd dsub (t_schema t) im name) v) h ∧
    smap_at name (im_orderedIndexes im) = Ok b ∧ tree_holds (index_log_of (okeys i2d dadd dsub (t_schema t) im name) v) b.
Proof.
  intros Hex Hsame. destruct (expression_index_find _ _ (iw_exprs_nodup _ _ wf_ok) Hex) as (name & x & Ei & Ef & Hin & Ee).
  apply (Hsame x Hin) in Ee as ->. destruct reflects_ok as [Hh Ho].
  assert (name ∈ (im_indexColumns im).*1) as Hname.
  { apply (iw_exprs _ _ wf_ok). apply smap_find_Some in Ef. by apply (list_elem_of_fmap_2 fst _ (name, e)). }
  destruct (smap_Forall_find name _ _ Hh) as (h & Eh & Hhh); [by rewrite (iw_hash _ _ wf_ok)|].
  destruct (smap_Forall_find name _ _ Ho) as (b & Eb & Hbb); [by rewrite (iw_ordered _ _ wf_ok)|].
  exists name, h, b. unfold smap_at. rewrite Eh, Eb, (iw_hash _ _ wf_ok), (iw_ordered _ _ wf_ok). done.
Qed.

(** The key of a row in the index of an expression, when it has one. *)
Lemma expression_keys name e row : smap_find name (im_indexExpressions im) = Some e → is_trigram e = false →
  let keys := match eval_expr e row (findColumn (t_schema t)) with Ok k => [k] | Throw _ => [] end in
  hkeys i2d dadd dsub (t_schema t) im name row = keys ∧ okeys i2d dadd dsub (t_schema t) im name row = keys.
Proof.
  intros Ef Ht. unfold hkeys, okeys, hash_keys, isTrigram, indexKeyForRow. rewrite Ef. unfold is_trigram in Ht. rewrite Ht.
  by destruct (eval_expr e row (findColumn (t_schema t))).
Qed.

Lemma live_expression name e i row : smap_find name (im_indexExpressions im) = Some e → name ∈ (im_indexes im).*1 →
  vrs_get i v = Some row →
  (index ← total_lookup lookup (ie_column e); eval_expr e row (λ _, index)) = eval_expr e row (findColumn (t_schema t)).
Proof.
  change (index ← total_lookup lookup (ie_column e); eval_expr e row (λ _, index)) with (eval_expr e row lookup).
  intros Ef Hname Hi. destruct (live_indexable i row Hi) as [Hh _]. destruct (Hh name Hname) as (keys & Ek & _).
  unfold hash_keys, indexKeyForRow in Ek. rewrite Ef in Ek. inv_result Ek. unfold evaluateIndexExpression in *.
  destruct (findColumn (t_schema t) (ie_column e)) as [j|] eqn:Ec; [|done]. by rewrite (lookup_column _ _ Ec).
Qed.

(** A test of the value of an expression. *)
Definition expr_test (e : IndexExpression) (P : Value → bool) (row : Row) : bool :=
  match eval_expr e row (findColumn (t_schema t)) with Ok k => P k | Throw _ => false end.

Lemma expr_test_keys e (P : Value → bool) row :
  let keys := match eval_expr e row (findColumn (t_schema t)) with Ok k => [k] | Throw _ => [] end in
  P <$> keys = (if expr_test e P row then [true] else []) ∨ P <$> keys = [false] ∧ expr_test e P row = false.
Proof. unfold expr_test. destruct (eval_expr e row _) as [k|]; simpl; [|by left]. destruct (P k); auto. Qed.

Lemma expression_lookup c e x : hasExpressionIndex im e = true → e ∈ exprs → comparable x →
  ∃ ids, indexedLookup_expr im e x = Ok (Some ids) ∧ finds (λ row, row_cmp row c (Some e) Equal x) true ids.
Proof.
  intros Hex Hin Hx. destruct (expression_index_ok e Hex) as (name & h & b & Ei & Ef & Hname & _ & Eh & Hh & _).
  { intros y Hy. by apply Hindex. }
  unfold indexedLookup_expr. rewrite Ei, Eh. cbn [mbind result_bind]. eexists. split; [done|].
  apply (finds_ext (expr_test e (λ k, Value_eqb k x))).
  { intros i row Hi. unfold expr_test, row_cmp, pred_operand. by rewrite (live_expression name e i row Ef Hname Hi). }
  apply scan_ids_finds. rewrite (hash_holds_find _ _ _ Hh Hx). apply reflexive_eq, (log_scan (λ k, Value_eqb k x)).
  intros row. destruct (expression_keys name e row Ef) as [-> _]; [by apply Hexprs|]. apply expr_test_keys.
Qed.

Lemma expression_range c e op x : hasExpressionIndex im e = true → e ∈ exprs → comparable x →
  ∃ ids, orderedLookup_expr im e op x = Ok (Some ids) ∧ finds (λ row, row_cmp row c (Some e) op x) true ids.
Proof.
  intros Hex Hin Hx. destruct (expression_index_ok e Hex) as (name & h & b & Ei & Ef & Hname & _ & _ & _ & Eb & Hb).
  { intros y Hy. by apply Hindex. }
  unfold orderedLookup_expr. rewrite Ei, Eb. cbn [mbind result_bind].
  destruct (tree_holds_find _ b op x Hb Hx) as (ids & -> & Hids). eexists. split; [done|].
  apply (finds_ext (expr_test e (λ k, compareValues k op x))).
  { intros i row Hi. unfold expr_test, row_cmp, pred_operand. by rewrite (live_expression name e i row Ef Hname Hi). }
  apply scan_ids_finds. rewrite Hids. apply reflexive_eq, (log_scan (λ k, compareValues k op x)).
  intros row. destruct (expression_keys name e row Ef) as [_ ->]; [by apply Hexprs|]. apply expr_test_keys.
Qed.

(** A trigram is found in the rows whose text contains it, once per occurrence. *)
Lemma trigram_lookup c g : hasExpressionIndex im (mkIndexExpression K_Trigram c VNull) = true →
  ∃ ids, indexedLookup_expr im (mkIndexExpression K_Trigram c VNull) (VString g) = Ok (Some ids) ∧
    finds (λ row, row_gram row c g) false ids.
Proof.
  set (e := mkIndexExpression K_Trigram c VNull). intros Hex.
  destruct (expression_index_ok e Hex) as (name & h & b & Ei & Ef & Hname & _ & Eh & Hh & _).
  { intros [k c' l] _. unfold IndexExpression_eqb. cbn. intros [[Hk Hc]%andb_prop Hl]%andb_prop.
    apply bool_decide_eq_true in Hk. apply String.eqb_eq in Hc. subst. by destruct l. }
  unfold indexedLookup_expr. rewrite Ei, Eh. cbn [mbind result_bind]. eexists. split; [done|]. split; [|done].
  intros i. rewrite (hash_holds_find _ _ _ Hh) by done. rewrite list_elem_of_fmap.
  assert (∀ i row, vrs_get i v = Some row →
    row_gram row c g = true ↔ VString g ∈ hkeys i2d dadd dsub (t_schema t) im name row) as Hg.
  { intros i' row Hi'. destruct (live_indexable i' row Hi') as [Hx _]. destruct (Hx name Hname) as (keys & Ek & _).
    unfold row_gram, hkeys, hash_keys, isTrigram, indexKeyForRow in *. rewrite Ef in *.
    unfold evaluateIndexExpression in *. cbn [ie_column ie_kind e] in *.
    destruct (findColumn (t_schema t) c) as [j|] eqn:Ec; cbn [mbind option_bind result_bind] in *.
    - rewrite (lookup_column _ _ Ec). cbn [mbind option_bind]. clear Ek. destruct (row !! j) as [[| | |s| |]|]; cbn; rewrite ?(bool_decide_true (K_Trigram = K_Trigram)) by done; cbn; rewrite ?elem_of_nil; try done.
      rewrite bool_decide_eq_true, list_elem_of_fmap. split; [eauto|]. by intros (w & [= <-] & Hw).
    - done. }
  unfold index_log_of, row_log. split.
  - intros ([k j] & -> & [Hk Hin]%list_elem_of_filter). apply list_elem_of_In, in_flat_map in Hin as ([j' row] & Hrow & Hin).
    apply list_elem_of_In, list_elem_of_fmap in Hin as (k' & [= <- <-] & Hk'). apply list_elem_of_In, live_entries_elem in Hrow.
    exists row. split; [done|]. apply (Hg _ row Hrow). destruct k; try done. simpl in Hk. apply String.eqb_eq in Hk. by subst.
  - intros (row & Hi & Hr). apply (Hg i row Hi) in Hr. exists (VString g, i). split; [done|]. apply list_elem_of_filter. split; [apply Value_eqb_refl; done|].
    apply list_elem_of_In, in_flat_map. exists (i, row). split; [by apply list_elem_of_In, live_entries_elem|].
    apply list_elem_of_In, list_elem_of_fmap. eauto.
Qed.

(** ** Trees of probes *)

Lemma sorted_strict (l : list nat) : StronglySorted le l → NoDup l → StronglySorted lt l.
Proof.
  induction 1 as [|x l Hs IH Hx]; [constructor|]. intros [Hn Hnd]%NoDup_cons. constructor; [auto|].
  rewrite Forall_forall in Hx |- *. intros y Hy. specialize (Hx y Hy). assert (x ≠ y) by (by intros ->). lia.
Qed.
Lemma strict_NoDup (l : list nat) : StronglySorted lt l → NoDup l.
Proof.
  induction 1 as [|x l Hs IH Hx]; [constructor|]. constructor; [|done]. intros Hin. rewrite Forall_forall in Hx.
  specialize (Hx x Hin). lia.
Qed.

Definition found (test : Row → bool) (i : RowId) : Prop := ∃ row, vrs_get i v = Some row ∧ test row = true.

Lemma finds_sort test strict ids : finds test strict ids → ids_of (found test) strict (std_sort Nat.ltb ids).
Proof.
  intros [Hin Hnd]. assert (StronglySorted le (std_sort Nat.ltb ids)) as Hs.
  { eapply StronglySorted_weaken; [|apply (std_sort_sorted Nat.ltb (λ _, True))].
    - intros x y Hle. simpl in Hle. apply Nat.ltb_ge in Hle. lia.
    - intros x y _ _ Hlt. apply Nat.ltb_lt in Hlt. apply Nat.ltb_ge. lia.
    - intros x y z _ _ _ H1 H2. apply Nat.ltb_ge in H1, H2. apply Nat.ltb_ge. lia.
    - by apply Forall_forall. }
  split; [done|]. split; [intros i; rewrite std_sort_perm; apply Hin|]. intros Hst. apply sorted_strict; [done|].
  rewrite std_sort_perm. auto.
Qed.

Lemma ids_of_finds test strict ids : ids_of (found test) strict ids → finds test strict ids.
Proof. intros (_ & Hin & Hst). split; [done|]. intros Hs. by apply strict_NoDup, Hst. Qed.

Definition probe_strict (probe : IndexEqualityProbe) : bool :=
  match pr_expression probe with Some e => negb (is_trigram e) | None => true end.

Fixpoint node_strict (node : IndexBitmapNode) : bool :=
  match node with
  | BN_Probe probe => probe_strict probe
  | BN_Intersect children | BN_Union children => forallb node_strict children
  end.

Abbreviation view := (table_view t).

Lemma key_lookup c e x : key_ok exprs view c e → comparable x →
  ∃ ids, probe_ids t c e x = Ok (Some ids) ∧ finds (λ row, row_cmp row c e Equal x) true ids.
Proof. destruct e as [e|]; [intros [Hex Hin] Hx; by apply expression_lookup|apply column_lookup]. Qed.

Lemma key_range c e op x : key_ok exprs view c e → comparable x →
  ∃ ids, range_ids t c e op x = Ok (Some ids) ∧ finds (λ row, row_cmp row c e op x) true ids.
Proof. destruct e as [e|]; [intros [Hex Hin] Hx; by apply expression_range|apply range_lookup]. Qed.

Lemma probe_lookup probe : probe_ok exprs view probe →
  ∃ ids, probe_ids t (pr_column probe) (pr_expression probe) (pr_value probe) = Ok (Some ids) ∧
    finds (λ row, probe_test (row_cmp row) (row_gram row) probe) (probe_strict probe) ids.
Proof.
  intros [Hx Hp]. unfold probe_test, probe_strict. destruct (pr_expression probe) as [e|]; [|by apply column_lookup].
  destruct Hp as [Hex [Hin|[-> [g Hg]]]].
  - rewrite (proj1 Hexprs e Hin). by apply expression_lookup.
  - rewrite Hg. cbn [is_trigram ie_kind ie_column]. by apply trigram_lookup.
Qed.

Lemma node_eval node : node_ok exprs view node →
  evaluates (evalBitmapNode t) (λ n, found (λ row, node_test (row_cmp row) (row_gram row) n)) node_strict node.
Proof.
  revert node. fix IH 1. intros [probe|children|children].
  - intros Hp. destruct (probe_lookup probe Hp) as (ids & E & Hf). cbn [evalBitmapNode evaluates].
    exists (std_sort Nat.ltb ids). unfold evaluates. cbn [evalBitmapNode]. rewrite E. split; [done|]. by apply finds_sort.
  - intros [Hne Hok]. assert (Forall (evaluates (evalBitmapNode t)
      (λ n, found (λ row, node_test (row_cmp row) (row_gram row) n)) node_strict) children) as Hall.
    { clear Hne. induction children as [|c cs IHc]; [constructor|]. destruct Hok as [Hc Hcs].
      constructor; [by apply IH|by apply IHc]. }
    destruct (combine_intersect_all _ _ _ children Hne Hall) as (out & E & Ho). exists out. split; [exact E|].
    eapply ids_of_ext; [|exact Ho]. intros i. rewrite Forall_forall. unfold found. cbn [node_test]. clear E Ho Hok Hall IH.
    destruct children as [|c0 cs]; [done|]. split.
    + intros Hall. destruct (Hall c0) as (row & Hi & _); [by left|]. exists row. split; [done|]. apply forallb_forall.
      intros c Hc. apply list_elem_of_In in Hc. destruct (Hall c Hc) as (row' & Hi' & Ht). by simplify_eq.
    + intros (row & Hi & Ht) c Hc. exists row. split; [done|]. rewrite forallb_forall in Ht. by apply Ht, list_elem_of_In.
  - intros [Hne Hok]. assert (Forall (evaluates (evalBitmapNode t)
      (λ n, found (λ row, node_test (row_cmp row) (row_gram row) n)) node_strict) children) as Hall.
    { clear Hne. induction children as [|c cs IHc]; [constructor|]. destruct Hok as [Hc Hcs].
      constructor; [by apply IH|by apply IHc]. }
    destruct (combine_union_all _ _ _ children Hall) as (out & E & Ho). exists out. split; [exact E|].
    eapply ids_of_ext; [|exact Ho]. intros i. rewrite Exists_exists. unfold found. cbn [node_test]. clear E Ho Hok Hall IH.
    split.
    + intros (c & Hc & row & Hi & Ht). exists row. split; [done|]. apply existsb_exists. exists c. by rewrite <- list_elem_of_In.
    + intros (row & Hi & (c & Hc & Ht)%existsb_exists). exists c. rewrite list_elem_of_In. eauto.
Qed.

(** ** The ids of a path *)

Lemma Value_eqb_comparable a b : Value_eqb a b = true → comparable b → comparable a.
Proof.
  revert b. induction a as [|i|d|s|i|ps IH] using Value_ind'; intros [|j|d'|s'|j|qs]; simpl; try done.
  - unfold double_eqb. by destruct (double_isNaN d).
  - revert qs. induction IH as [|p ps Hp _ IHps]; intros [|q qs]; try done. simpl. intros [E1 E2]%andb_prop.
    rewrite !andb_True. intros [H1 H2]. split; [by eapply Hp|by eapply IHps].
Qed.

(** No two values of an IN list are equal. *)
Fixpoint distinct_keys (vs : list Value) : bool :=
  match vs with [] => true | x :: vs => negb (existsb (Value_eqb x) vs) && distinct_keys vs end.

Lemma same_key row c e x y : comparable x → comparable y → row_cmp row c e Equal x = true → row_cmp row c e Equal y = true →
  Value_eqb x y = true.
Proof.
  intros Hx Hy. unfold row_cmp. destruct (pred_operand _ _ _ row (total_lookup lookup) c e) as [z|]; [|done]. simpl. intros E1 E2.
  assert (comparable z) as Hz by (by eapply Value_eqb_comparable). rewrite (Value_eqb_sym z x) in E1 by done.
  by rewrite (Value_eqb_trans x z y).
Qed.

Lemma finds_app test test' strict ids ids' : finds test true ids → finds test' strict ids' →
  (strict = true → ∀ i row, vrs_get i v = Some row → test row = true → test' row = true → False) →
  finds (λ row, test row || test' row) strict (ids ++ ids').
Proof.
  intros [Hin Hnd] [Hin' Hnd'] Hdis. split.
  - intros i. rewrite elem_of_app, Hin, Hin'. split.
    + intros [(row & Hi & Ht)|(row & Hi & Ht)]; exists row; rewrite Ht; by rewrite ?orb_true_r.
    + intros (row & Hi & [Ht|Ht]%orb_true_iff); [left|right]; eauto.
  - intros Hs. apply NoDup_app. split; [by apply Hnd|]. split; [|by apply Hnd'].
    intros i (row & Hi & Ht)%Hin (row' & Hi' & Ht')%Hin'. simplify_eq. eauto.
Qed.

Lemma in_list_lookup c e vs : key_ok exprs view c e → Forall (λ x, comparable x) vs →
  ∃ ids, lookup_all t c e vs = Ok ids ∧ finds (λ row, existsb (row_cmp row c e Equal) vs) (distinct_keys vs) ids.
Proof.
  intros Hk. induction 1 as [|x vs Hx Hvs (ids' & E' & Hf')].
  { exists []. split; [done|]. split; [|constructor]. intros i. rewrite elem_of_nil. naive_solver. }
  destruct (key_lookup c e x Hk Hx) as (ids & E & Hf). cbn [lookup_all]. rewrite E, E'. cbn [mbind result_bind].
  eexists. split; [done|]. cbn [existsb distinct_keys default]. destruct (distinct_keys vs) eqn:Ed.
  - rewrite andb_true_r. assert (finds (λ row, row_cmp row c e Equal x || existsb (row_cmp row c e Equal) vs)
      (negb (existsb (Value_eqb x) vs)) (ids ++ ids')) as Hg; [|exact Hg].
    apply finds_app; [done|by split; [apply Hf'|intros _; by apply Hf']|].
    intros Hn i row _ Ht (y & Hy & Ht')%existsb_exists. apply negb_true_iff, not_true_iff_false in Hn. destruct Hn.
    apply existsb_exists. exists y. split; [done|]. eapply same_key; [done| |exact Ht|exact Ht'].
    rewrite Forall_forall in Hvs. by apply Hvs, list_elem_of_In.
  - rewrite andb_false_r. by apply finds_app.
Qed.

Lemma prefix_lookup c prefix : hasIndex im [c] (t_schema t) = Ok true →
  ∃ exact greater, indexedLookup im [c] (VString prefix) (t_schema t) = Ok (Some exact) ∧
    orderedLookup im c Greater (VString prefix) (t_schema t) = Ok (Some greater) ∧
    finds (λ row, row_prefix row c prefix) true (exact ++ greater).
Proof.
  intros Hix. destruct (column_lookup c (VString prefix) Hix) as (ids & E & Hf); [done|].
  destruct (range_lookup c Greater (VString prefix) Hix) as (ids' & E' & Hf'); [done|].
  exists ids, ids'. split; [done|]. split; [done|]. apply finds_app; [done..|]. intros _ i row _. unfold row_cmp.
  destruct (pred_operand _ _ _ row (total_lookup lookup) c None) as [z|]; [|done]. simpl. intros E1 E2.
  assert (comparable z) as Hz by (by eapply Value_eqb_comparable). apply (Value_cmp_Eq z) in E1; [|done..].
  apply Value_ltb_gt in E2. congruence.
Qed.

(** ** The leaves of a clause *)

Context (bindOuter : Select → Row → Table → string → M TransactionManager Select).
Context (existsRows : Select → M TransactionManager bool) (subqueryValues : Select → M TransactionManager (list Value)).
(** What a leaf with a subquery evaluates to on a row. *)
Context (sub : Pred → Row → bool).
Context (snap : ReadSnapshot) (tm0 : TransactionManager).

(** The same transactions: reads recorded in between do not change what is seen. *)
Definition same_txns (tm : TransactionManager) : Prop := tm_transactions tm = tm_transactions tm0.

Abbreviation eval_pred p row := (evalPredicate regex i2d dadd dsub p row (total_lookup lookup)).
Abbreviation matching := (matches_in regex i2d dadd dsub bindOuter existsRows subqueryValues scope).

Definition is_subquery (p : Pred) : bool :=
  match p with ExistsPred _ _ | InSubqueryPred _ _ _ => true | _ => false end.

Definition leaf_ev (row : Row) (p : Pred) : bool :=
  if is_subquery p then sub p row else match eval_pred p row with Ok b => b | Throw _ => false end.

(** The leaf evaluates on every live row: it names columns of the table, and a
    subquery returns. *)
Definition leaf_fine (p : Pred) : Prop :=
  ∀ i row, vrs_get i v = Some row →
    if is_subquery p
    then ∀ tm, same_txns tm → ∃ tm', matching row t p tm = (Ok (sub p row), tm') ∧ same_txns tm'
    else ∃ b, eval_pred p row = Ok b.

Lemma string_compare_prefix a b : String.compare (a +:+ b) a ≠ Lt.
Proof.
  induction a as [|c a IH]; [by destruct b|]. simpl. pose proof (Ascii.compare_antisym c c). by destruct (Ascii.compare c c).
Qed.

Lemma leaf_laws_row row : leaf_laws (leaf_ev row) (row_cmp row) (row_gram row) (row_prefix row) leaf_fine.
Proof.
  split.
  - intros c op x e o. unfold leaf_ev, row_cmp. cbn. by destruct (pred_operand _ _ _ row (total_lookup lookup) c e).
  - intros c vs e o. unfold leaf_ev, row_cmp. cbn. destruct (pred_operand _ _ _ row (total_lookup lookup) c e); [done|].
    by induction vs.
  - intros c pattern literal o Hp. unfold leaf_ev, row_prefix, row_cmp. cbn. unfold match_text.
    destruct (match lookup c with Some i => row_at row i | None => Throw (runtime_error "unknown predicate column") end)
      as [[| | |s| |]|]; try done. simpl. intros Hm.
    apply (proj1 (proj2 like_pattern_correct) pattern literal s Hp) in Hm as [rest Hs].
    assert (s = literal +:+ implode rest) as ->.
    { rewrite <- (implode_explode s), <- (implode_explode (literal +:+ implode rest)).
      by rewrite explode_app, explode_implode, Hs. }
    pose proof (string_compare_prefix literal (implode rest)) as Hc.
    destruct (String.eqb_spec (literal +:+ implode rest) literal) as [|Hne]; [done|]. simpl. apply Value_ltb_gt. simpl.
    destruct (String.compare (literal +:+ implode rest) literal) eqn:E; [|done|done]. by apply string_compare_Eq in E.
  - intros c pattern literal gram o Hp Hlen Hg. unfold leaf_ev, row_gram. cbn. unfold match_text, pred_column, row_at.
    destruct (lookup c) as [i|]; [|done]. cbn. destruct (row !! i) as [[| | |s| |]|]; try done. simpl. intros Hm.
    apply bool_decide_eq_true. eapply (proj2 (proj2 (proj2 like_pattern_correct))); [exact Hp| |exact Hm|exact Hg].
    rewrite <- (implode_explode literal) in Hlen. clear -Hlen.
    assert (∀ l, String.length (implode l) = length l) as E by (induction l as [|a l IH]; [done|]; simpl; by rewrite IH).
    by rewrite E in Hlen.
  - intros c x vs e o Hf i row' Hi. destruct (Hf i row' Hi) as [b Hb]. cbn in Hb |- *. inv_result Hb. by eexists.
Qed.

(** ** Scans return *)

Definition returns {A} (m : M TransactionManager A) (a : A) : Prop :=
  ∀ tm, same_txns tm → ∃ tm', m tm = (Ok a, tm') ∧ same_txns tm'.

Lemma returns_ret {A} (a : A) : returns (mret a) a.
Proof. intros tm Htm. by exists tm. Qed.
Lemma returns_lift {A} (r : result A) a : r = Ok a → returns (liftM r) a.
Proof. intros -> tm Htm. by exists tm. Qed.
Lemma returns_bind {A B} (m : M TransactionManager A) (f : A → M TransactionManager B) a b :
  returns m a → returns (f a) b → returns (m ≫= f) b.
Proof.
  intros Hm Hf tm Htm. destruct (Hm tm Htm) as (tm1 & E1 & H1). destruct (Hf tm1 H1) as (tm2 & E2 & H2).
  exists tm2. split; [|done]. unfold mbind, M_bind. by rewrite E1.
Qed.

Lemma recordPredicateRead_txns id p tm : tm_transactions (recordPredicateRead id p tm) = tm_transactions tm.
Proof. unfold recordPredicateRead. by repeat case_match. Qed.
Lemma recordRelationRead_txns id r tm : tm_transactions (recordRelationRead id r tm) = tm_transactions tm.
Proof. apply recordPredicateRead_txns. Qed.
Lemma foldl_txns {A} (f : TransactionManager → A → TransactionManager) l tm :
  (∀ tm a, tm_transactions (f tm a) = tm_transactions tm) → tm_transactions (foldl f tm l) = tm_transactions tm.
Proof. intros Hf. revert tm. induction l as [|a l IH]; intros tm; [done|]. simpl. by rewrite IH. Qed.
Lemma tree_txns id r p tm : tm_transactions (recordSsiPredicateFromTree id r p tm) = tm_transactions tm.
Proof.
  revert tm. induction p as [c op x rhs e o|l IHl q IHq|l IHl q IHq|c vs e o| | | |]; intros tm; cbn [recordSsiPredicateFromTree];
    rewrite ?recordRelationRead_txns, ?recordPredicateRead_txns; try done.
  - repeat case_match; by rewrite ?recordRelationRead_txns, ?recordPredicateRead_txns.
  - by rewrite IHq, IHl.
  - case_match; [apply recordRelationRead_txns|]. by rewrite IHq, IHl.
  - case_match; [apply recordRelationRead_txns|]. apply foldl_txns. intros. apply recordPredicateRead_txns.
Qed.
Lemma node_txns id r node tm : tm_transactions (recordSsiBitmapNode id r node tm) = tm_transactions tm.
Proof.
  revert node tm. fix IH 1. intros [probe|children|children] tm; cbn [recordSsiBitmapNode].
  - unfold recordSsiProbe. case_match; [apply recordRelationRead_txns|apply recordPredicateRead_txns].
  - revert tm. induction children as [|c cs IHc]; intros tm; [done|]. simpl. by rewrite IHc, IH.
  - revert tm. induction children as [|c cs IHc]; intros tm; [done|]. simpl. by rewrite IHc, IH.
Qed.

Lemma record_path_ok id r w path : path_ok exprs view path → ∀ tm,
  ∃ tm', record_path id r w path tm = Ok tm' ∧ tm_transactions tm' = tm_transactions tm.
Proof.
  intros Hp tm. destruct path as [|c e x cols|c e op x|c e vs|children|children|c prefix]; cbn [record_path];
    try (eexists; split; [done|]).
  - case_match; [apply tree_txns|apply recordRelationRead_txns].
  - destruct e as [e|]; [eexists; split; [done|]; apply recordRelationRead_txns|]. destruct cols as [|c0 cols].
    + eexists. split; [done|]. apply recordPredicateRead_txns.
    + destruct Hp as (_ & _ & parts & -> & _). cbn [compositeParts mbind result_bind]. eexists. split; [done|].
      apply foldl_txns. intros. apply recordPredicateRead_txns.
  - destruct e; eexists; (split; [done|]); [apply recordRelationRead_txns|apply recordPredicateRead_txns].
  - destruct e; eexists; (split; [done|]); [apply recordRelationRead_txns|]. apply foldl_txns.
    intros. apply recordPredicateRead_txns.
  - apply foldl_txns. intros. apply node_txns.
  - apply foldl_txns. intros. apply node_txns.
  - done.
Qed.

Lemma recordSsi_returns id r w plan : path_ok exprs view (qp_path plan) → returns (recordSsiScanPredicates id r w plan) tt.
Proof.
  intros Hp tm Htm. unfold recordSsiScanPredicates. destruct (record_path_ok id r w _ Hp tm) as (tm' & -> & E).
  eexists. split; [done|]. unfold same_txns, record_residual in *. repeat case_match; rewrite ?tree_txns; congruence.
Qed.

(** ** What a snapshot sees *)

Context (Hvis : ∀ i, mvcc_read i snap tm0 (t_versions t) = vrs_get i v).

Lemma read_txns i tm : same_txns tm → mvcc_read i snap tm (t_versions t) = vrs_get i v.
Proof.
  intros Htm. rewrite <- Hvis. unfold mvcc_read. destruct (t_versions t !! i) as [chain|]; [|done]. unfold chain_read.
  f_equal. assert (∀ a b, isVisible tm a b snap = isVisible tm0 a b snap) as E.
  { intros a b. unfold isVisible, isCreatorVisible, tm_find. by rewrite Htm. }
  induction (reverse chain) as [|x l IH]; [done|]. cbn [List.find]. rewrite E. by destruct (isVisible _ _ _ _).
Qed.

Lemma record_reads_txns self name entries tm : tm_transactions (record_reads self name entries tm) = tm_transactions tm.
Proof. apply foldl_txns. intros tm' e. unfold recordRead. by repeat case_match. Qed.

Lemma by_id_returns ids : returns (by_id snap t ids) (omap (live_at v) ids).
Proof.
  intros tm Htm. unfold by_id, visible_by_id, visibleEntriesById_of. eexists. split.
  - f_equal. f_equal. unfold visibleEntriesById, live_at. induction ids as [|i ids IH]; [done|]. cbn.
    rewrite (read_txns i tm Htm). by destruct (vrs_get i v); cbn; rewrite IH.
  - unfold same_txns. rewrite record_reads_txns. exact Htm.
Qed.

Definition all_entries : list (RowId * Row) := omap (live_at v) (sorted_keys (t_versions t)).

Lemma visible_returns : returns (visible snap t) all_entries.
Proof. apply (by_id_returns (sorted_keys (t_versions t))). Qed.

(** The entries are those of the live rows that pass the test. *)
Definition entries_as (test : Row → bool) (strict : bool) (entries : list (RowId * Row)) : Prop :=
  (∀ i row, (i, row) ∈ entries ↔ vrs_get i v = Some row ∧ test row = true) ∧ (strict = true → NoDup entries.*1).

Lemma live_at_elem (ids : list RowId) i row : (i, row) ∈ omap (live_at v) ids ↔ i ∈ ids ∧ vrs_get i v = Some row.
Proof.
  rewrite list_elem_of_omap. unfold live_at. split.
  - intros (j & Hj & E). destruct (vrs_get j v) eqn:Ej; [|done]. injection E as <- <-. done.
  - intros [Hi Er]. exists i. by rewrite Er.
Qed.

Lemma live_at_fst (ids : list RowId) : sublist (omap (live_at v) ids).*1 ids.
Proof.
  induction ids as [|i ids IH]; [done|]. cbn. unfold live_at at 1. destruct (vrs_get i v); cbn; [by apply sublist_skip|by apply sublist_cons].
Qed.

Lemma finds_entries test strict ids : finds test strict ids → entries_as test strict (omap (live_at v) ids).
Proof.
  intros [Hin Hnd]. split.
  - intros i row. rewrite live_at_elem, Hin. split; [intros [(row' & Hi & Ht) Hi']; by simplify_eq|]. naive_solver.
  - intros Hs. eapply sublist_NoDup; [by apply Hnd|apply live_at_fst].
Qed.

Lemma all_entries_as : entries_as (λ _, true) true all_entries.
Proof.
  unfold all_entries. split.
  - intros i row. rewrite live_at_elem, elem_of_sorted_keys. split; [naive_solver|]. intros [Hi _]. split; [|done].
    rewrite <- Hvis in Hi. unfold mvcc_read in Hi. destruct (t_versions t !! i); [by eexists|done].
  - intros _. eapply sublist_NoDup; [apply (NoDup_sorted_keys (t_versions t))|apply live_at_fst].
Qed.

Lemma entries_as_filter test strict f entries : entries_as test strict entries →
  entries_as (λ row, test row && f row) strict (filter (λ e, f e.2 = true) entries).
Proof.
  intros [Hin Hnd]. split.
  - intros i row. rewrite list_elem_of_filter, Hin, andb_true_iff. tauto.
  - intros Hs. eapply sublist_NoDup; [by apply Hnd|]. apply fmap_sublist. clear. induction entries as [|e l IH]; [done|].
    rewrite (filter_test (λ e, f e.2)). case_match; [by apply sublist_skip|by apply sublist_cons].
Qed.

(** Adding the rows that pass [f] and were not found yet. *)
Lemma entries_as_complement test strict f seen out : entries_as test strict out →
  (∀ i, i ∈ seen ↔ ∃ row, vrs_get i v = Some row ∧ test row = true) →
  entries_as (λ row, test row || f row) strict
    (out ++ filter (λ e, negb (existsb (Nat.eqb e.1) seen) && f e.2 = true) all_entries).
Proof.
  intros [Hin Hnd] Hseen. destruct all_entries_as as [Hall Hnda].
  assert (∀ i, existsb (Nat.eqb i) seen = true ↔ i ∈ seen) as He.
  { intros i. rewrite existsb_exists. split; [intros (j & Hj & ->%Nat.eqb_eq); by apply list_elem_of_In|].
    intros Hi. exists i. split; [by apply list_elem_of_In|apply Nat.eqb_refl]. }
  split.
  - intros i row. rewrite elem_of_app, Hin, list_elem_of_filter, Hall, !andb_true_iff, negb_true_iff, <- not_true_iff_false, He, orb_true_iff.
    cbn [fst snd]. split; [tauto|]. intros [Hi [Ht|Hf]]; [tauto|]. destruct (test row) eqn:Ht; [tauto|]. right.
    split; [|done]. split; [|done]. rewrite Hseen. intros (row' & Hi' & Ht'). simplify_eq. congruence.
  - intros Hs. rewrite fmap_app. apply NoDup_app. split; [by apply Hnd|]. split.
    + intros i ([j row] & -> & Hr)%list_elem_of_fmap ([j' row'] & E & [Hn _]%list_elem_of_filter)%list_elem_of_fmap.
      simpl in E. subst j'. apply andb_prop in Hn as [Hn _]. apply negb_true_iff, not_true_iff_false in Hn. cbn in Hn.
      apply Hn, He, Hseen. exists row. by apply Hin.
    + eapply sublist_NoDup; [by apply Hnda|]. apply fmap_sublist. clear. induction all_entries as [|e l IH]; [done|].
      rewrite (filter_test (λ e, negb (existsb (Nat.eqb e.1) seen) && f e.2)). case_match; [by apply sublist_skip|by apply sublist_cons].
Qed.

(** ** WHERE on a row *)

Abbreviation clause := (clause_ok leaf_fine exprs).

Lemma matching_returns i row p : vrs_get i v = Some row → clause p → returns (matching row t p) (holds (leaf_ev row) p).
Proof.
  intros Hi. induction p as [c op x rhs e o|l IHl q IHq|l IHl q IHq|c vs e o|c s o|s o|c s o|c s o]; intros Hp.
  - destruct Hp as (_ & _ & Hf). destruct (Hf i row Hi) as [b Hb]. apply returns_lift. cbn [holds leaf_ev is_subquery].
    by rewrite Hb.
  - destruct Hp as [Hl Hq]. cbn [matches_in holds]. eapply returns_bind; [by apply IHl|].
    destruct (holds (leaf_ev row) l); [by apply IHq|apply returns_ret].
  - destruct Hp as [Hl Hq]. cbn [matches_in holds]. eapply returns_bind; [by apply IHl|].
    destruct (holds (leaf_ev row) l); [apply returns_ret|by apply IHq].
  - destruct Hp as (_ & _ & Hf). destruct (Hf i row Hi) as [b Hb]. apply returns_lift. cbn [holds leaf_ev is_subquery].
    by rewrite Hb.
  - exact (Hp i row Hi).
  - exact (Hp i row Hi).
  - destruct (Hp i row Hi) as [b Hb]. apply returns_lift. cbn [holds leaf_ev is_subquery]. by rewrite Hb.
  - destruct (Hp i row Hi) as [b Hb]. apply returns_lift. cbn [holds leaf_ev is_subquery]. by rewrite Hb.
Qed.

Context (scopeName : string) (Hscope : scope = if String.eqb scopeName EmptyString then t_name t else scopeName).
Abbreviation select := (select_entries regex i2d dadd dsub bindOuter existsRows subqueryValues).

Lemma select_returns seen p entries : (∀ q, p = Some q → clause q) → (∀ i row, (i, row) ∈ entries → vrs_get i v = Some row) →
  returns (select seen p scopeName t entries)
    (filter (λ e, negb (existsb (Nat.eqb e.1) seen) && opt_holds (leaf_ev e.2) true p = true) entries).
Proof.
  intros Hp. induction entries as [|[i row] entries IH]; intros Hlive; [apply returns_ret|]. cbn [select_entries].
  eapply returns_bind with (a := negb (existsb (Nat.eqb i) seen) && opt_holds (leaf_ev row) true p).
  - destruct (existsb (Nat.eqb i) seen); [apply returns_ret|]. destruct p as [q|]; [|apply returns_ret].
    unfold matches. rewrite <- Hscope. apply (matching_returns i); [by apply Hlive; left|by apply Hp].
  - eapply returns_bind; [apply IH; intros; apply Hlive; by right|].
    rewrite (filter_test (λ e, negb (existsb (Nat.eqb e.1) seen) && opt_holds (leaf_ev e.2) true p)). apply returns_ret.
Qed.

(** ** The entries of a plan *)

Lemma entries_as_ext test test' strict entries : (∀ row, test row = test' row) →
  entries_as test strict entries → entries_as test' strict entries.
Proof. intros E [Hin Hnd]. split; [|done]. intros i row. by rewrite Hin, E. Qed.

Lemma select_all_returns p test strict entries : (∀ q, p = Some q → clause q) → entries_as test strict entries →
  ∃ es, returns (select [] p scopeName t entries) es ∧ entries_as (λ row, test row && opt_holds (leaf_ev row) true p) strict es.
Proof.
  intros Hp He. eexists. split; [apply select_returns; [done|]; intros i row Hin; by apply He in Hin as [? _]|].
  by apply entries_as_filter with (f := λ row, opt_holds (leaf_ev row) true p).
Qed.

Abbreviation residual_step := (applyResidual regex i2d dadd dsub bindOuter existsRows subqueryValues).

Lemma filtered_returns plan test strict ids : filters_ok leaf_fine exprs plan → finds test strict ids →
  ∃ es cand, returns (entries ← by_id snap t ids; residual_step plan scopeName t entries) (es, cand) ∧
    entries_as (λ row, test row && opt_holds (leaf_ev row) true (residual plan)) strict es.
Proof.
  intros [Hres _] Hf. pose proof (finds_entries _ _ _ Hf) as He. unfold applyResidual.
  destruct (residual plan) as [p|].
  - destruct (select_all_returns (Some p) _ _ _ Hres He) as (es & Hs & Hes). exists es, (Some (length (omap (live_at v) ids))).
    split; [|done]. eapply returns_bind; [apply by_id_returns|]. eapply returns_bind; [exact Hs|apply returns_ret].
  - eexists _, None. split; [eapply returns_bind; [apply by_id_returns|apply returns_ret]|].
    eapply entries_as_ext; [|exact He]. intros row. cbn. by rewrite andb_true_r.
Qed.

Definition path_distinct (path : AccessPathPlan) : bool :=
  match path with
  | HashInPlan _ _ vs => distinct_keys vs
  | IntersectPlan children | UnionPlan children => forallb node_strict children
  | _ => true
  end.

Lemma complement_returns p test strict seen out : clause p → entries_as test strict out →
  (∀ i, i ∈ seen ↔ ∃ row, vrs_get i v = Some row ∧ test row = true) →
  ∃ es, returns (with_complement regex i2d dadd dsub bindOuter existsRows subqueryValues snap p scopeName t seen out) es ∧
    entries_as (λ row, test row || holds (leaf_ev row) p) strict es.
Proof.
  intros Hp Ho Hseen. eexists. split.
  - eapply returns_bind; [apply visible_returns|]. eapply returns_bind; [|apply returns_ret].
    apply select_returns; [by intros ? [= <-]|]. intros i row Hin. by apply all_entries_as in Hin as [? _].
  - by apply entries_as_complement with (f := λ row, holds (leaf_ev row) p).
Qed.

Lemma entries_as_seen test strict out : entries_as test strict out →
  ∀ i, i ∈ out.*1 ↔ ∃ row, vrs_get i v = Some row ∧ test row = true.
Proof.
  intros [Hin _] i. rewrite list_elem_of_fmap. split.
  - intros ([j row] & -> & Hr). exists row. by apply Hin.
  - intros (row & Hi). exists (i, row). split; [done|]. by apply Hin.
Qed.

Abbreviation row_plan_test w plan := (λ row, plan_test (leaf_ev row) (row_cmp row) (row_gram row) (row_prefix row) w plan).

Lemma intersect_returns plan children : qp_path plan = IntersectPlan children → path_ok exprs view (qp_path plan) →
  filters_ok leaf_fine exprs plan → ∀ command, selectScopeName command = scopeName →
  ∃ es cand, returns (entries_of_path regex i2d dadd dsub bindOuter existsRows subqueryValues snap command t plan) (es, cand) ∧
    entries_as (row_plan_test (sel_where command) plan) (path_distinct (qp_path plan)) es.
Proof.
  intros Ep Hok Hf command Hc. unfold plan_test, entries_of_path. rewrite Ep, Hc in *. cbn [path_ok path_test path_distinct] in *.
  destruct Hok as [Hne Hok]. destruct (node_eval (BN_Intersect children)) as (ids & E & Hids).
  { split; [done|]. by apply node_ok_children. }
  apply ids_of_finds in Hids. cbn [node_test node_strict] in Hids.
  assert (∃ es cand, returns (if bool_decide (length ids = 0) then mret ([], None)
      else entries ← by_id snap t ids; residual_step plan scopeName t entries) (es, cand) ∧
    entries_as (λ row, forallb (node_test (row_cmp row) (row_gram row)) children && opt_holds (leaf_ev row) true (residual plan))
      (forallb node_strict children) es) as (es & cand & Hr & Hes).
  { case_bool_decide as Hz; [|by apply filtered_returns]. apply nil_length_inv in Hz as ->. exists [], None.
    split; [apply returns_ret|]. split; [|constructor]. intros i row. rewrite elem_of_nil, andb_true_iff. split; [done|].
    intros (Hi & Ht & _). destruct Hids as [Hin _]. apply (elem_of_nil i), Hin. eauto. }
  destruct (complementaryResidual plan) as [p|] eqn:Ec.
  - destruct (complement_returns p _ _ es.*1 es (proj2 Hf p Ec) Hes (entries_as_seen _ _ _ Hes)) as (es' & Hr' & Hes').
    exists es', (Some (length es)). split; [|exact Hes']. eapply returns_bind; [by apply returns_lift|].
    eapply returns_bind; [exact Hr|]. eapply returns_bind; [exact Hr'|apply returns_ret].
  - exists es, cand. split; [eapply returns_bind; [by apply returns_lift|exact Hr]|].
    eapply entries_as_ext; [|exact Hes]. intros row. cbn. by rewrite orb_false_r.
Qed.

Lemma union_returns plan children : qp_path plan = UnionPlan children → path_ok exprs view (qp_path plan) →
  filters_ok leaf_fine exprs plan → ∀ command, selectScopeName command = scopeName →
  ∃ es cand, returns (entries_of_path regex i2d dadd dsub bindOuter existsRows subqueryValues snap command t plan) (es, cand) ∧
    entries_as (row_plan_test (sel_where command) plan) (path_distinct (qp_path plan)) es.
Proof.
  intros Ep Hok Hf command Hc. unfold plan_test, entries_of_path. rewrite Ep, Hc in *. cbn [path_ok path_test path_distinct] in *.
  destruct Hok as [Hne Hok]. destruct (node_eval (BN_Union children)) as (ids & E & Hids).
  { split; [done|]. by apply node_ok_children. }
  apply ids_of_finds in Hids. cbn [node_test node_strict] in Hids.
  assert (returns (if bool_decide (length ids = 0) then mret [] else by_id snap t ids) (omap (live_at v) ids)) as Hr.
  { case_bool_decide as Hz; [|apply by_id_returns]. apply nil_length_inv in Hz as ->. apply returns_ret. }
  destruct (residual plan) as [p|] eqn:Er.
  - destruct (complement_returns p _ _ ids _ (proj1 Hf p Er) (finds_entries _ _ _ Hids) (proj1 Hids)) as (es & Hs & Hes).
    exists es, (Some (length ids)). split; [|exact Hes]. eapply returns_bind; [by apply returns_lift|].
    eapply returns_bind; [exact Hr|]. eapply returns_bind; [exact Hs|apply returns_ret].
  - exists (omap (live_at v) ids), None. split.
    + eapply returns_bind; [by apply returns_lift|]. eapply returns_bind; [exact Hr|apply returns_ret].
    + eapply entries_as_ext; [|by apply finds_entries]. intros row. cbn. by rewrite orb_false_r.
Qed.

Lemma path_returns command plan : selectScopeName command = scopeName → path_ok exprs view (qp_path plan) →
  filters_ok leaf_fine exprs plan → (∀ p, sel_where command = Some p → clause p) →
  ∃ es cand, returns (entries_of_path regex i2d dadd dsub bindOuter existsRows subqueryValues snap command t plan) (es, cand) ∧
    entries_as (row_plan_test (sel_where command) plan) (path_distinct (qp_path plan)) es.
Proof.
  intros Hc Hok Hf Hw. destruct (qp_path plan) as [|c e x cols|c e op x|c e vs|children|children|c prefix] eqn:Ep.
  - destruct (select_all_returns (sel_where command) _ _ _ Hw all_entries_as) as (es & Hs & Hes). exists es, None.
    unfold plan_test, entries_of_path. rewrite Ep, Hc. split; [|exact Hes].
    eapply returns_bind; [apply visible_returns|]. eapply returns_bind; [exact Hs|apply returns_ret].
  - assert (∃ ids, hash_eq_ids t c e x cols = Ok (Some ids) ∧
      finds (λ row, path_test (row_cmp row) (row_gram row) (row_prefix row) (HashEqPlan c e x cols)) true ids) as (ids & E & Hids).
    { cbn [path_ok] in Hok. destruct cols as [|c0 cols].
      - destruct Hok as [Hk Hx]. destruct (key_lookup c e x Hk Hx) as (ids & E & Hids). exists ids. split; [|done].
        by destruct e.
      - destruct Hok as (-> & Hix & parts & -> & El & Hl & Hps). by apply composite_lookup. }
    destruct (filtered_returns plan _ _ _ Hf Hids) as (es & cand & Hr & Hes). exists es, cand.
    unfold plan_test, entries_of_path. rewrite Ep, Hc. split; [|exact Hes]. eapply returns_bind; [by apply returns_lift|exact Hr].
  - destruct Hok as [Hk Hx]. destruct (key_range c e op x Hk Hx) as (ids & E & Hids).
    destruct (filtered_returns plan _ _ _ Hf Hids) as (es & cand & Hr & Hes). exists es, cand.
    unfold plan_test, entries_of_path. rewrite Ep, Hc. split; [|exact Hes]. eapply returns_bind; [by apply returns_lift|exact Hr].
  - destruct Hok as [Hk Hx]. destruct (in_list_lookup c e vs Hk Hx) as (ids & E & Hids).
    destruct (filtered_returns plan _ _ _ Hf Hids) as (es & cand & Hr & Hes). exists es, cand.
    unfold plan_test, entries_of_path. rewrite Ep, Hc. split; [|exact Hes]. eapply returns_bind; [by apply returns_lift|exact Hr].
  - rewrite <- Ep in Hok |- *. by eapply intersect_returns.
  - rewrite <- Ep in Hok |- *. by eapply union_returns.
  - destruct (prefix_lookup c prefix Hok) as (ids & ids' & E & E' & Hids).
    destruct (filtered_returns plan _ _ _ Hf Hids) as (es & cand & Hr & Hes). exists es, cand.
    unfold plan_test, entries_of_path. rewrite Ep, Hc. split; [|exact Hes]. eapply returns_bind; [by apply returns_lift|].
    eapply returns_bind; [by apply returns_lift|exact Hr].
Qed.

(** ** The catalog answers *)

Lemma hash_at name : name ∈ (im_indexColumns im).*1 → ∃ h, smap_at name (im_indexes im) = Ok h.
Proof.
  intros Hname. rewrite <- (iw_hash _ _ wf_ok) in Hname. unfold smap_at.
  destruct (smap_find name (im_indexes im)) eqn:E; [by eexists|]. by apply smap_find_None in E.
Qed.

Lemma column_names_total idxs : Forall (λ i, i < length (t_schema t)) idxs → total (IndexManager.column_names (t_schema t) idxs).
Proof.
  induction 1 as [|i idxs Hi _ IH]; [apply total_Ok|]. cbn [IndexManager.column_names]. unfold column_name.
  destruct (lookup_lt_is_Some_2 _ _ Hi) as [col ->]. cbn [mbind result_bind]. apply total_bind; [done|]. intros; apply total_Ok.
Qed.

Lemma column_index_total columns : ∃ o, column_index im columns (t_schema t) = Ok o ∧
  ∀ name, o = Some name → name ∈ (im_indexColumns im).*1.
Proof.
  destruct (column_loop_ok (t_schema t) columns (im_indexColumns im) (im_indexExpressions im) (iw_columns _ _ wf_ok)) as (o & E & Ho).
  exists o. split; [exact E|]. intros name Hn. destruct (Ho name Hn) as (idxs & Hin & _).
  by apply (list_elem_of_fmap_2 fst _ (name, idxs)).
Qed.

Lemma expression_index_name es e name : expression_index es e = Some name → name ∈ es.*1.
Proof.
  induction es as [|[n x] es IH]; [done|]. cbn [expression_index fmap list_fmap fst].
  destruct (IndexExpression_eqb x e); [intros [= ->]; by left|]. intros Hn. right. auto.
Qed.

Lemma table_catalog_ok : (∀ c h, columnHistogram c (t_statistics t) = Some h → histogram_typed h) →
  catalog_ok (table_stats t) view.
Proof.
  intros Hh. assert (∀ cs, total (hasIndex im cs (t_schema t))) as Hix.
  { intros cs. unfold hasIndex. destruct (column_index_total cs) as (o & -> & _). apply total_Ok. }
  assert (∀ cs, total (indexDistinctCount im cs (t_schema t))) as Hdc.
  { intros cs. unfold indexDistinctCount. destruct (column_index_total cs) as ([name|] & -> & Ho); [|apply total_Ok].
    cbn [mbind result_bind]. destruct (hash_at name (Ho name eq_refl)) as [h ->]. apply total_Ok. }
  split; cbn [table_view iv_hasIndex iv_hasIndexOn iv_indexDistinctCount iv_indexDistinctCountOn iv_indexDistinctCountOf
    iv_compositeIndexColumnLists table_stats st_columnHistogram]; auto.
  - intros e. unfold indexDistinctCount_expr. destruct (expression_index _ e) as [name|] eqn:E; [|apply total_Ok].
    destruct (hash_at name) as [h ->]; [|apply total_Ok]. apply (iw_exprs _ _ wf_ok). by eapply expression_index_name.
  - apply total_bind; [|intros; apply total_Ok]. unfold indexDefinitions. pose proof (iw_columns _ _ wf_ok) as Hc.
    induction Hc as [|[n idxs] defs Hn _ IH]; [apply total_Ok|]. cbn [indexDefinitions_loop].
    apply total_bind; [by apply column_names_total|]. intros ns _. apply total_bind; [done|]. intros; apply total_Ok.
Qed.
End planned_scan.

(** ** The planned scan and the full scan *)

Section exact.
Context {S : Type} `{RowStoreLaws S}.
Context (regex : string → string → bool).
Context (i2d : Z → Z) (dadd dsub : Z → Z → Z) (dchars : Z → chars) (llround_out : double → Z).
Abbreviation Table := (Table Select S).
Context (bindOuter : Select → Row → Table → string → M TransactionManager Select).
Context (existsRows : Select → M TransactionManager bool) (subqueryValues : Select → M TransactionManager (list Value)).
Abbreviation collect := (collectVisibleEntries regex i2d dadd dsub bindOuter existsRows subqueryValues).

(** The scope a query's columns are looked up in. *)
Definition query_scope (t : Table) (query : Select) : string :=
  let name := selectScopeName query in if String.eqb name EmptyString then t_name t else name.

(** The clause can be planned and evaluated on the rows of the table: its leaves
    evaluate on every live row, with a subquery to [sub]; its constants are
    comparable scalars; its expressions are not compared as trigram sets. *)
Definition query_ok (t : Table) (v : VectorRowStore) (sub : Pred → Row → bool) (tm : TransactionManager)
    (exprs : list IndexExpression) (query : Select) : Prop :=
  exprs_ok exprs ∧ index_exprs_ok t exprs ∧
  (∀ c h, columnHistogram c (t_statistics t) = Some h → histogram_typed h) ∧
  ∀ p, sel_where query = Some p →
    clause_ok (leaf_fine regex i2d dadd dsub t v (query_scope t query) bindOuter existsRows subqueryValues sub tm) exprs p ∧
    scalar_clause p.

Definition full_scan (e : PlanEstimates) : QueryPlan := mkQueryPlan FullScanPlan e.
Definition no_filters : PlanEstimates := mkPlanEstimates 0 d_zero EmptyString [] None None.

Lemma collect_returns t v sub snap tm exprs query plan : table_ok i2d dadd dsub dchars t v →
  (∀ i, mvcc_read i snap tm (t_versions t) = vrs_get i v) → query_ok t v sub tm exprs query →
  path_ok exprs (table_view t) (qp_path plan) →
  filters_ok (leaf_fine regex i2d dadd dsub t v (query_scope t query) bindOuter existsRows subqueryValues sub tm) exprs plan →
  ∃ es cand tm', collect snap query t plan tm = (Ok (es, cand), tm') ∧ tm_transactions tm' = tm_transactions tm ∧
    entries_as v (λ row, plan_test (leaf_ev regex i2d dadd dsub t (query_scope t query) sub row)
      (row_cmp i2d dadd dsub t (query_scope t query) row) (row_gram t (query_scope t query) row)
      (row_prefix i2d dadd dsub t (query_scope t query) row) (sel_where query) plan) (path_distinct (qp_path plan)) es.
Proof.
  intros [_ [Hheap _]] Hvis (He & Hi & _ & Hw) Hp Hf.
  destruct (path_returns regex i2d dadd dsub dchars t v _ Hheap exprs He Hi bindOuter existsRows subqueryValues sub snap tm
    Hvis (selectScopeName query) eq_refl query plan eq_refl Hp Hf (λ p Hs, proj1 (Hw p Hs))) as (es & cand & Hr & Hes).
  destruct (recordSsi_returns t exprs tm (snap_self snap) (t_name t) (sel_where query) plan Hp tm eq_refl) as (tm1 & E1 & H1).
  destruct (Hr tm1 H1) as (tm2 & E2 & H2). exists es, cand, tm2. split; [|done].
  unfold collectVisibleEntries, mbind, M_bind. by rewrite E1.
Qed.

Lemma query_laws t v sub tm query row :
  leaf_laws (leaf_ev regex i2d dadd dsub t (query_scope t query) sub row)
    (row_cmp i2d dadd dsub t (query_scope t query) row) (row_gram t (query_scope t query) row)
    (row_prefix i2d dadd dsub t (query_scope t query) row)
    (leaf_fine regex i2d dadd dsub t v (query_scope t query) bindOuter existsRows subqueryValues sub tm).
Proof. apply leaf_laws_row. Qed.

(** The scan along the plan returns the live rows that satisfy the WHERE clause. *)
Lemma planned_scan t v sub snap tm exprs query :
  table_ok i2d dadd dsub dchars t v → (∀ i, mvcc_read i snap tm (t_versions t) = vrs_get i v) →
  query_ok t v sub tm exprs query →
  ∃ plan, planSelect_table dchars llround_out query t = Ok plan ∧
  ((∀ p, sel_where query = Some p → plan_supported (table_view t) p plan = true) →
   ∃ es cand tm', collect snap query t plan tm = (Ok (es, cand), tm') ∧ tm_transactions tm' = tm_transactions tm ∧
     (∀ i row, (i, row) ∈ es ↔ vrs_get i v = Some row ∧
        opt_holds (leaf_ev regex i2d dadd dsub t (query_scope t query) sub row) true (sel_where query) = true) ∧
     (path_distinct (qp_path plan) = true → NoDup es.*1)).
Proof.
  intros Ht Hvis Hq. pose proof Hq as (He & Hi & Hh & Hw). pose proof Ht as [_ [Hheap _]].
  pose proof (query_laws t v sub tm query) as Hlaws.
  destruct (planSelect_total dchars llround_out (table_stats t) (table_view t) (table_catalog_ok _ _ _ _ _ _ Hheap Hh)
    _ exprs query He (ll_fine _ _ _ _ _ (Hlaws [])) Hw) as [plan Eplan]. exists plan. split; [done|]. intros Hs.
  assert (∀ row, _) as Hsound by (intros row; exact (planSelect_sound _ _ _ _ _ exprs (Hlaws row) He dchars llround_out
    (table_stats t) (table_view t) query plan (λ p Hp, proj1 (Hw p Hp)) Eplan)).
  destruct (Hsound []) as (Hpath & Hfilters & _).
  destruct (collect_returns t v sub snap tm exprs query plan Ht Hvis Hq Hpath Hfilters) as (es & cand & tm1 & E1 & H1 & Hes & Hnd).
  exists es, cand, tm1. do 2 (split; [done|]). split; [|done]. intros i row. rewrite Hes.
  destruct (Hsound row) as (_ & _ & Heq). by rewrite (Heq Hs).
Qed.

(** C8: an index scan returns the rows of a full scan.  For a table whose indexes,
    rows and versions agree, a snapshot that sees its current rows, and a query whose
    WHERE clause can be evaluated on them, [planSelect] returns a plan.  If at most
    one OR under the AND is answered in part by indexes, and no union of indexes has
    a further AND filter, then the scan along the plan, whatever the costs made it,
    returns the same entries as the full scan with the WHERE clause; each entry
    appears once when no value is repeated in an IN list and no trigram index is
    used.  Neither changes a transaction. *)
Theorem planned_scan_exact t v sub snap tm exprs query :
  table_ok i2d dadd dsub dchars t v → (∀ i, mvcc_read i snap tm (t_versions t) = vrs_get i v) →
  query_ok t v sub tm exprs query →
  ∃ plan, planSelect_table dchars llround_out query t = Ok plan ∧
  ((∀ p, sel_where query = Some p → plan_supported (table_view t) p plan = true) →
   ∃ es cand tm' scanned cand' tm'',
     collect snap query t plan tm = (Ok (es, cand), tm') ∧ tm_transactions tm' = tm_transactions tm ∧
     collect snap query t (full_scan no_filters) tm = (Ok (scanned, cand'), tm'') ∧ tm_transactions tm'' = tm_transactions tm ∧
     (∀ e, e ∈ es ↔ e ∈ scanned) ∧ (path_distinct (qp_path plan) = true → es ≡ₚ scanned)).
Proof.
  intros Ht Hvis Hq. destruct (planned_scan t v sub snap tm exprs query Ht Hvis Hq) as (plan & Eplan & Hscan).
  exists plan. split; [done|]. intros Hs. destruct (Hscan Hs) as (es & cand & tm1 & E1 & H1 & Hes & Hnd).
  destruct (collect_returns t v sub snap tm exprs query (full_scan no_filters) Ht Hvis Hq I) as (es2 & cand2 & tm2 & E2 & H2 & Hes2 & Hnd2).
  { by split. }
  exists es, cand, tm1, es2, cand2, tm2. do 4 (split; [done|]).
  assert (∀ e, e ∈ es ↔ e ∈ es2) as Hsame by (intros [i row]; by rewrite Hes, Hes2).
  split; [exact Hsame|]. intros Hd. apply NoDup_Permutation; [|  |exact Hsame]; eapply NoDup_fmap_1; auto.
Qed.
End exact.
