(* ===== verification/JoinEngine.v ===== *)
(** * Joins

    [src/execution/select_engine_join.cpp], with the column helpers of
    [select_helpers.cpp] and [SelectEngine::requireTable]: the rows of the joined
    tables along the plan of each join, then the WHERE clause.

    The temporary tables of a query are an association list in the order they were
    made; the join reads them and the tables of the database through the snapshot
    and changes only the read sets of the transaction manager. *)

From S2P Require Import Prelude Value Float64 VectorRowStore StringPattern TransactionManager Mvcc IndexExpression Predicate SetOps.
From S2P Require Import Histogram Selectivity IndexManager Table Database ForeignKeys Ast Planner JoinPlanner SelectScan.
From Stdlib Require Import Ascii.
Local Open Scope nat_scope.

(** ** Ordered maps

    [std::map] with the order [lt]: an association list sorted by it. *)

Section ordered_map.
Context {K V : Type} (lt : K → K → bool).

Fixpoint map_find (k : K) (m : list (K * V)) : option V :=
  match m with
  | [] => None
  | (k', v) :: m => if lt k k' then None else if lt k' k then map_find k m else Some v
  end.

(** [f(m[k])], where [m[k]] is new when the argument is [None]. *)
Fixpoint map_alter (f : option V → V) (k : K) (m : list (K * V)) : list (K * V) :=
  match m with
  | [] => [(k, f None)]
  | (k', v) :: m' =>
      if lt k k' then (k, f None) :: m
      else if lt k' k then (k', v) :: map_alter f k m'
      else (k', f (Some v)) :: m'
  end.
End ordered_map.

(** ** Names *)

(** The text after the last dot. *)
Fixpoint after_last_dot (s : string) : option string :=
  match s with
  | EmptyString => None
  | String c s =>
      match after_last_dot s with
      | Some rest => Some rest
      | None => if Ascii.eqb c "." then Some s else None
      end
  end.
Definition unqualified (name : string) : string := default name (after_last_dot name).

(** [remove_prefix], when the text starts with the prefix. *)
Fixpoint strip_prefix (prefix s : string) : option string :=
  match prefix, s with
  | EmptyString, _ => Some s
  | String c prefix, String d s => if Ascii.eqb c d then strip_prefix prefix s else None
  | String _ _, EmptyString => None
  end.

Section join.
Context {S : Type} `{RowStore S}.
Context (matchRegexPattern : string → string → bool).
Context (int_to_double : Z → Z) (double_add double_sub : Z → Z → Z).
Abbreviation Table := (Table Select S).
Abbreviation scan := (M TransactionManager).
Abbreviation Temps := (list (string * Table)).

Definition resolveTableColumn (t : Table) (tableName requested : string) (tableAlias : option string) : option nat :=
  columnIndex t
    (match strip_prefix (tableName +:+ ".") requested with
     | Some name => name
     | None => default requested (tableAlias ≫= λ alias, strip_prefix (alias +:+ ".") requested)
     end).

(** [std::find] over the temporary tables, without case. *)
Fixpoint temp_table (tableName : string) (temps : Temps) : option Table :=
  match temps with
  | [] => None
  | (name, t) :: temps => if equalsIgnoreCase name tableName then Some t else temp_table tableName temps
  end.

Definition select_requireTable (database : option (Database Select S)) (tableName : string) (temps : Temps)
  : result Table :=
  match temp_table tableName temps, database with
  | Some t, _ => Ok t
  | None, None => Throw (runtime_error "no active database")
  | None, Some db =>
      match Database_table tableName db with
      | Some t => Ok t
      | None => Throw (runtime_error "unknown table")
      end
  end.

(** ** Rows of a table *)

Context (snap : ReadSnapshot).

Definition rowsSnapshotForRead (t : Table) : scan (list Row) := λ tm,
  let '(rows, tm) := rowsSnapshot_of snap t tm in (Ok rows, tm).
Definition rowsByIdForRead (t : Table) (rowIds : list RowId) : scan (list Row) := λ tm,
  let '(rows, tm) := rowsById_of rowIds snap t tm in (Ok rows, tm).

(** ** One join *)

(** What a join knows besides its rows: the width of the left rows and of the right
    table, and the positions of the join columns. *)
Record JoinShape : Type := mkJoinShape {
  js_leftWidth : nat;
  js_rightWidth : nat;
  js_leftColumn : nat;
  js_rightColumn : nat;
  js_padLeft : bool;
  js_padRight : bool
}.

Definition left_only (s : JoinShape) (leftRow : Row) : Row := leftRow ++ replicate (js_rightWidth s) VNull.
Definition right_only (s : JoinShape) (rightRow : Row) : Row := replicate (js_leftWidth s) VNull ++ rightRow.

(** The joined rows of [leftRow], padded when it has no partner. *)
Definition left_group (s : JoinShape) (leftRow : Row) (partners : list Row) : list Row :=
  match partners with
  | [] => if js_padLeft s then [left_only s leftRow] else []
  | _ => (λ rightRow, leftRow ++ rightRow) <$> partners
  end.
Definition right_group (s : JoinShape) (rightRow : Row) (partners : list Row) : list Row :=
  match partners with
  | [] => if js_padRight s then [right_only s rightRow] else []
  | _ => (λ leftRow, leftRow ++ rightRow) <$> partners
  end.

Definition cross_join (leftRows rightRows : list Row) : list Row :=
  flat_map (λ leftRow, (λ rightRow, leftRow ++ rightRow) <$> rightRows) leftRows.

(** The rows of [t] with the value in the indexed column. *)
Definition probe_rows (t : Table) (column : string) (value : Value) : scan (list Row) :=
  rowIds ← liftM (indexedLookup (t_indexManager t) [column] value (t_schema t));
  match rowIds with Some rowIds => rowsByIdForRead t rowIds | None => mret [] end.

(** For each outer row, the rows of [t] found by the index. *)
Fixpoint probe_loop (t : Table) (column : string) (key : nat) (group : Row → list Row → list Row) (outer : list Row)
  : scan (list Row) :=
  match outer with
  | [] => mret []
  | row :: outer =>
      value ← liftM (row_at row key);
      partners ← probe_rows t column value;
      rest ← probe_loop t column key group outer;
      mret (group row partners ++ rest)
  end.

Fixpoint hash_build (key : nat) (rows : list Row) (m : list (Value * list Row)) : result (list (Value * list Row)) :=
  match rows with
  | [] => Ok m
  | row :: rows =>
      value ← row_at row key;
      hash_build key rows (map_alter Value_ltb (λ o, default [] o ++ [row]) value m)
  end.

Fixpoint hash_probe (s : JoinShape) (m : list (Value * list Row)) (leftRows : list Row) : result (list Row) :=
  match leftRows with
  | [] => Ok []
  | row :: leftRows =>
      value ← row_at row (js_leftColumn s);
      rest ← hash_probe s m leftRows;
      Ok (left_group s row (default [] (map_find Value_ltb value m)) ++ rest)
  end.

(** The comparisons of one left row with the right rows; [matched] tells which right
    rows had a partner. *)
Fixpoint compare_rows (s : JoinShape) (op : ComparisonOperator) (value : Value) (rightRows : list Row)
    (matched : list bool) : result (list Row * list bool) :=
  match rightRows, matched with
  | row :: rightRows, m :: matched =>
      other ← row_at row (js_rightColumn s);
      '(partners, matched) ← compare_rows s op value rightRows matched;
      Ok (if compareValues value op other then (row :: partners, true :: matched) else (partners, m :: matched))
  | _, _ => Ok ([], [])
  end.

Fixpoint nested_rows (s : JoinShape) (op : ComparisonOperator) (rightRows leftRows : list Row) (matched : list bool)
  : result (list Row * list bool) :=
  match leftRows with
  | [] => Ok ([], matched)
  | row :: leftRows =>
      value ← row_at row (js_leftColumn s);
      '(partners, matched) ← compare_rows s op value rightRows matched;
      '(rest, matched) ← nested_rows s op rightRows leftRows matched;
      Ok (left_group s row partners ++ rest, matched)
  end.

Definition unmatched_rows (s : JoinShape) (rightRows : list Row) (matched : list bool) : list Row :=
  right_only s <$> (fst <$> filter (λ e, e.2 = false) (zip rightRows matched)).

Definition nested_loop_join (s : JoinShape) (op : ComparisonOperator) (rightRows leftRows : list Row) : result (list Row) :=
  '(rows, matched) ← nested_rows s op rightRows leftRows (replicate (length rightRows) false);
  Ok (rows ++ if js_padRight s then unmatched_rows s rightRows matched else []).

Definition pads_left (kind : JoinKind) : bool := match kind with JK_LeftOuter | JK_FullOuter => true | _ => false end.
Definition pads_right (kind : JoinKind) : bool := match kind with JK_RightOuter | JK_FullOuter => true | _ => false end.

(** The branches of a join that is not a cross join. *)
Definition join_rows (plan : JoinPlan) (first : bool) (left right : Table) (join : JoinClause) (s : JoinShape)
    (leftRows : list Row) : scan (list Row) :=
  let equi := bool_decide (jc_op join = Equal) in
  let probes := equi && bool_decide (jp_algorithm plan = JA_NestedLoopIndexProbe) in
  if probes && jp_outerIsLeft plan && negb (String.eqb (jp_probeColumn plan) EmptyString) && negb (js_padRight s) then
    probe_loop right (unqualified (jc_rightColumn join)) (js_leftColumn s) (left_group s) leftRows
  else if probes && negb (jp_outerIsLeft plan) && first && negb (js_padLeft s) then
    outerRows ← rowsSnapshotForRead right;
    probe_loop left (unqualified (jc_leftColumn join)) (js_rightColumn s) (right_group s) outerRows
  else if equi && bool_decide (jp_algorithm plan = JA_HashJoin) && negb (js_padRight s) then
    rightRows ← rowsSnapshotForRead right;
    m ← liftM (hash_build (js_rightColumn s) rightRows []);
    liftM (hash_probe s m leftRows)
  else
    rightRows ← rowsSnapshotForRead right;
    liftM (nested_loop_join s (jc_op join) rightRows leftRows).

Definition qualified_columns (name : string) (t : Table) : list string :=
  (λ c, name +:+ "." +:+ col_name c) <$> t_schema t.

Definition join_step (first : bool) (left right : Table) (join : JoinClause) (columns : list string) (rows : list Row)
  : scan (list Row) :=
  plan ← liftM (if first then planJoin left right join else planJoinAgainstRows (length rows) right join);
  if bool_decide (jc_kind join = JK_Cross) then
    rightRows ← rowsSnapshotForRead right; mret (cross_join rows rightRows)
  else
    leftColumn ← liftM (resolveResultColumn columns (jc_leftColumn join));
    match leftColumn, resolveTableColumn right (jc_table join) (jc_rightColumn join) (jc_tableAlias join) with
    | Some leftColumn, Some rightColumn =>
        join_rows plan first left right join
          (mkJoinShape (length columns) (length (t_schema right)) leftColumn rightColumn
             (pads_left (jc_kind join)) (pads_right (jc_kind join))) rows
    | _, _ => raise (runtime_error "unknown join column")
    end.

(** ** All joins *)

Context (database : option (Database Select S)).

(** The columns and rows after the joins, and the numbers of rows after each. *)
Fixpoint join_loop (first : bool) (left : Table) (joins : list JoinClause) (temps : Temps) (columns : list string)
    (rows : list Row) : scan (list string * list Row * list nat) :=
  match joins with
  | [] => mret (columns, rows, [])
  | join :: joins =>
      right ← liftM (select_requireTable database (jc_table join) temps);
      nextRows ← join_step first left right join columns rows;
      '(result, counts) ← join_loop false left joins temps (columns ++ qualified_columns (jc_table join) right) nextRows;
      mret (result, length nextRows :: counts)
  end.

Fixpoint filter_rows (p : Pred) (lookup : ColumnLookup) (rows : list Row) : result (list Row) :=
  match rows with
  | [] => Ok []
  | row :: rows =>
      keep ← evalPredicate matchRegexPattern int_to_double double_add double_sub p row lookup;
      rest ← filter_rows p lookup rows;
      Ok (if keep : bool then row :: rest else rest)
  end.

(** The joined columns and rows, and [joinActualRows] of [ExplainAnalyzeStats], whose
    [actualRows] is the number of rows. *)
Definition collectJoinRows (command : Select) (temps : Temps) : scan (list string * list Row * list nat) :=
  if bool_decide (length (sel_joins command) = 0) then raise (runtime_error "collectJoinRows requires at least one join")
  else
    left ← liftM (select_requireTable database (sel_table command) temps);
    rows ← rowsSnapshotForRead left;
    '(columns, rows, counts) ←
      join_loop true left (sel_joins command) temps (qualified_columns (sel_table command) left) rows;
    match sel_where command with
    | None => mret (columns, rows, counts)
    | Some p =>
        filtered ← liftM (filter_rows p (resolveResultColumn columns) rows);
        mret (columns, filtered, take (length counts - 1) counts ++ [length filtered])
    end.
End join.
