(* ===== verification/JoinProof.v ===== *)
(** * Joins compute the join

    Whatever algorithm the planner chose, a join returns the rows of the reference
    definition [join_spec]: each left row with its partners or padded, then the right
    rows without a partner.  [collectJoinRows] returns, up to order, the rows of the
    joins of the current rows of the tables that satisfy the WHERE clause. *)

From S2P Require Import Prelude Value Float64 VectorRowStore StringPattern TransactionManager Mvcc HashIndex BTreeIndex IndexExpression.
From S2P Require Import Predicate SetOps Histogram Selectivity IndexManager IndexManagerProof Table TableProof Database ForeignKeys Ast.
From S2P Require Import Planner JoinPlanner PlannerProof PlannerTotal SelectScan SelectScanProof JoinEngine.
From Stdlib Require Import Ascii.
Local Open Scope nat_scope.

(** ** Ordered maps *)

Section ordered_map.
Context {V : Type}.
Implicit Types m : list (Value * V).

Lemma ltb_neither a b : comparable a → comparable b → Value_ltb a b = false → Value_ltb b a = false → Value_eqb a b = true.
Proof.
  intros Ha Hb H1 H2. apply (Value_cmp_Eq a b Ha Hb). destruct (Value_cmp a b) eqn:E; [done| |].
  - apply Value_ltb_cmp in E. congruence.
  - apply Value_ltb_gt in E. congruence.
Qed.

Lemma eqb_ltb a b : comparable a → comparable b → Value_eqb a b = true → Value_ltb a b = false ∧ Value_ltb b a = false.
Proof.
  intros Ha Hb E. apply (Value_cmp_Eq a b Ha Hb) in E. split; apply not_true_iff_false; [rewrite Value_ltb_cmp|rewrite Value_ltb_gt]; congruence.
Qed.

Lemma eqb_ltb_l a b c : comparable a → comparable b → comparable c → Value_eqb a b = true → Value_ltb a c = Value_ltb b c.
Proof. intros Ha Hb Hc E. apply bool_eq_iff. by rewrite !Value_ltb_cmp, (Value_cmp_eq_l a b c). Qed.
Lemma eqb_ltb_r a b c : comparable a → comparable b → comparable c → Value_eqb a b = true → Value_ltb c a = Value_ltb c b.
Proof. intros Ha Hb Hc E. apply bool_eq_iff. by rewrite !Value_ltb_cmp, (Value_cmp_eq_r a b c). Qed.

(** The keys are strictly increasing. *)
Definition map_sorted m : Prop :=
  Forall (λ k, comparable k) m.*1 ∧ StronglySorted (λ a b, Value_ltb a b = true) m.*1.

Lemma map_sorted_cons k v m : map_sorted ((k, v) :: m) ↔
  comparable k ∧ Forall (λ k', Value_ltb k k' = true) m.*1 ∧ map_sorted m.
Proof.
  unfold map_sorted. simpl. rewrite Forall_cons. split.
  - intros ((? & ?) & [? ?]%StronglySorted_inv). done.
  - intros (? & ? & ? & ?). split; [done|]. by constructor.
Qed.

(** The new key is in place of an equal one, or new. *)
Lemma map_alter_keys f k m : Forall (λ k', k' = k ∨ k' ∈ m.*1) (map_alter Value_ltb f k m).*1.
Proof.
  induction m as [|[a v] m IH]; simpl; [constructor; auto|]. repeat case_match; simpl.
  - constructor; [auto|]. constructor; [right; set_solver|]. apply Forall_forall. intros x Hx. right. set_solver.
  - constructor; [right; set_solver|]. eapply Forall_impl; [exact IH|]. intros x [->|Hx]; [auto|right; set_solver].
  - constructor; [right; set_solver|]. apply Forall_forall. intros x Hx. right. set_solver.
Qed.

Lemma map_alter_sorted f k m : comparable k → map_sorted m → map_sorted (map_alter Value_ltb f k m).
Proof.
  intros Hk. induction m as [|[a v] m IH]; simpl; [intros _; split; by repeat constructor|].
  intros (Ha & Hlt & Hm)%map_sorted_cons. destruct (Value_ltb k a) eqn:E1; [|destruct (Value_ltb a k) eqn:E2].
  - apply map_sorted_cons. split; [done|]. split; [|by apply map_sorted_cons]. simpl. constructor; [done|].
    eapply Forall_impl; [apply Forall_and; split; [exact Hlt|exact (proj1 Hm)]|]. intros x [Hx Hcx].
    by eapply (Value_ltb_trans k a x).
  - apply map_sorted_cons. split; [done|]. split; [|auto]. eapply Forall_impl; [apply map_alter_keys|].
    intros x [->|Hx]; [done|]. rewrite Forall_forall in Hlt. by apply Hlt.
  - by apply map_sorted_cons.
Qed.

Lemma map_find_below k m : map_sorted m → comparable k → Forall (λ k', Value_ltb k k' = true) m.*1 → map_find Value_ltb k m = None.
Proof. intros _ _. destruct m as [|[a v] m]; [done|]. simpl. by intros [-> _]%Forall_cons. Qed.

Lemma map_find_alter f k k' m : map_sorted m → comparable k → comparable k' →
  map_find Value_ltb k (map_alter Value_ltb f k' m) =
  if Value_eqb k' k then Some (f (map_find Value_ltb k' m)) else map_find Value_ltb k m.
Proof.
  intros Hm Hk Hk'. induction m as [|[a v] m IH]; simpl.
  - destruct (Value_eqb k' k) eqn:E.
    + destruct (eqb_ltb k' k Hk' Hk E) as [-> ->]. done.
    + destruct (Value_ltb k k') eqn:E1; [done|]. destruct (Value_ltb k' k) eqn:E2; [done|].
      by rewrite (ltb_neither k' k) in E.
  - apply map_sorted_cons in Hm as (Ha & Hlt & Hm). specialize (IH Hm).
    destruct (Value_ltb k' a) eqn:E1; [|destruct (Value_ltb a k') eqn:E2]; simpl.
    + destruct (Value_eqb k' k) eqn:E.
      { destruct (eqb_ltb k' k Hk' Hk E) as [-> ->]. done. }
      destruct (Value_ltb k k') eqn:E3; [by rewrite (Value_ltb_trans k k' a)|].
      destruct (Value_ltb k' k) eqn:E4; [done|]. by rewrite (ltb_neither k' k) in E.
    + rewrite IH. destruct (Value_eqb k' k) eqn:E; [|done].
      rewrite <- (eqb_ltb_l k' k a), <- (eqb_ltb_r k' k a), E1, E2 by done. done.
    + assert (Value_eqb a k' = true) as Eak by (by apply ltb_neither).
      destruct (Value_eqb k' k) eqn:E.
      * rewrite <- (eqb_ltb_l k' k a), <- (eqb_ltb_r k' k a), E1, E2 by done. done.
      * destruct (Value_ltb k a) eqn:E3; [done|]. destruct (Value_ltb a k) eqn:E4; [done|].
        rewrite (eqb_ltb_r a k' k) in E3 by done. rewrite (eqb_ltb_l a k' k) in E4 by done.
        by rewrite (ltb_neither k' k) in E.
Qed.
End ordered_map.

(** ** The reference *)

Definition row_matches (s : JoinShape) (op : ComparisonOperator) (l r : Row) : bool :=
  match l !! js_leftColumn s, r !! js_rightColumn s with
  | Some a, Some b => compareValues a op b
  | _, _ => false
  end.
Definition partners_of (s : JoinShape) (op : ComparisonOperator) (l : Row) (R : list Row) : list Row :=
  filter (λ r, row_matches s op l r = true) R.
Definition lonely (s : JoinShape) (op : ComparisonOperator) (L R : list Row) : list Row :=
  filter (λ r, existsb (λ l, row_matches s op l r) L = false) R.

(** Each left row with its partners, or padded; then the right rows without one. *)
Definition join_spec (s : JoinShape) (op : ComparisonOperator) (L R : list Row) : list Row :=
  flat_map (λ l, left_group s l (partners_of s op l R)) L
  ++ if js_padRight s then right_only s <$> lonely s op L R else [].

Lemma flat_map_ext_perm {A B} (f g : A → list B) l : (∀ x, x ∈ l → f x ≡ₚ g x) → flat_map f l ≡ₚ flat_map g l.
Proof.
  induction l as [|x l IH]; intros E; [done|]. simpl. rewrite (E x) by set_solver. by rewrite IH by set_solver.
Qed.
Lemma flat_map_perm {A B} (f : A → list B) l l' : l ≡ₚ l' → flat_map f l ≡ₚ flat_map f l'.
Proof. induction 1 as [|x l l' _ IH|x y l|l1 l2 l3 _ IH1 _ IH2]; simpl; [done|by rewrite IH|solve_Permutation|by rewrite IH1]. Qed.
Lemma flat_map_nil {A B} (l : list A) : flat_map (λ _, @nil B) l = [].
Proof. by induction l. Qed.
Lemma flat_map_app_perm {A B} (f g : A → list B) l : flat_map (λ x, f x ++ g x) l ≡ₚ flat_map f l ++ flat_map g l.
Proof. induction l as [|x l IH]; [done|]. simpl. rewrite IH. solve_Permutation. Qed.

#[export] Instance left_group_proper s l : Proper ((≡ₚ) ==> (≡ₚ)) (left_group s l).
Proof.
  intros R R' E. unfold left_group. destruct R as [|r R], R' as [|r' R'].
  - done.
  - by apply Permutation_nil_l in E.
  - by apply Permutation_nil_r in E.
  - by rewrite E.
Qed.
#[export] Instance right_group_proper s r : Proper ((≡ₚ) ==> (≡ₚ)) (right_group s r).
Proof.
  intros L L' E. unfold right_group. destruct L as [|l L], L' as [|l' L'].
  - done.
  - by apply Permutation_nil_l in E.
  - by apply Permutation_nil_r in E.
  - by rewrite E.
Qed.

Lemma filter_none {A} (P : A → Prop) `{!∀ x, Decision (P x)} l : (∀ x, x ∈ l → ¬ P x) → filter P l = [].
Proof. induction l as [|x l IH]; intros Hn; [done|]. rewrite filter_cons_False by set_solver. apply IH. set_solver. Qed.
Lemma existsb_perm {A} (f : A → bool) l l' : l ≡ₚ l' → existsb f l = existsb f l'.
Proof. induction 1 as [|x l l' _ IH|x y l|l1 l2 l3 _ IH1 _ IH2]; simpl; [done|by rewrite IH|by destruct (f x), (f y)|congruence]. Qed.

#[export] Instance join_spec_proper s op : Proper ((≡ₚ) ==> (≡ₚ) ==> (≡ₚ)) (join_spec s op).
Proof.
  intros L L' EL R R' ER. unfold join_spec, lonely. f_equiv.
  - rewrite (flat_map_perm _ _ _ EL). apply flat_map_ext_perm. intros l _. unfold partners_of. by rewrite ER.
  - destruct (js_padRight s); [|done]. rewrite ER. apply reflexive_eq. f_equal. apply list_filter_iff.
    intros r. by rewrite (existsb_perm _ _ _ EL).
Qed.
#[export] Instance cross_join_proper : Proper ((≡ₚ) ==> (≡ₚ) ==> (≡ₚ)) cross_join.
Proof.
  intros L L' EL R R' ER. unfold cross_join. rewrite (flat_map_perm _ _ _ EL). apply flat_map_ext_perm. intros l _. by rewrite ER.
Qed.

(** Reading the join by right rows. *)
Lemma join_spec_right s op L R : js_padLeft s = false →
  join_spec s op L R ≡ₚ flat_map (λ r, right_group s r (filter (λ l, row_matches s op l r = true) L)) R.
Proof.
  intros Hpad. unfold join_spec.
  assert (flat_map (λ l, left_group s l (partners_of s op l R)) L ≡ₚ
          flat_map (λ r, (λ l, l ++ r) <$> filter (λ l, row_matches s op l r = true) L) R) as ->.
  { transitivity (flat_map (λ l, (λ r, l ++ r) <$> partners_of s op l R) L).
    { apply reflexive_eq, flat_map_ext. intros l. unfold left_group. by destruct (partners_of s op l R); rewrite ?Hpad. }
    induction L as [|l L IH]; simpl; [by rewrite flat_map_nil|]. rewrite IH. clear IH. unfold partners_of.
    induction R as [|r R IHR]; [done|]. simpl. rewrite !(filter_test (λ x, row_matches s op l x)).
    rewrite (filter_test (λ l, row_matches s op l r)). destruct (row_matches s op l r); simpl.
    - rewrite <- IHR. solve_Permutation.
    - rewrite <- IHR. solve_Permutation. }
  transitivity (flat_map (λ r, ((λ l, l ++ r) <$> filter (λ l, row_matches s op l r = true) L) ++
    (if js_padRight s then if existsb (λ l, row_matches s op l r) L then [] else [right_only s r] else [])) R).
  { rewrite flat_map_app_perm. f_equiv. destruct (js_padRight s); [|by rewrite flat_map_nil]. unfold lonely.
    induction R as [|r R IH]; [done|]. simpl. rewrite <- IH.
    destruct (existsb (λ l, row_matches s op l r) L) eqn:E.
    - rewrite filter_cons_False; [done|]. by rewrite E.
    - rewrite filter_cons_True; [done|]. by rewrite E. }
  apply reflexive_eq, flat_map_ext. intros r. unfold right_group.
  destruct (existsb (λ l, row_matches s op l r) L) eqn:E.
  - destruct (js_padRight s); rewrite app_nil_r; destruct (filter _ L) eqn:Ef; try done; simpl;
      apply existsb_exists in E as (l & Hl%list_elem_of_In & Hm);
      assert (l ∈ filter (λ l, row_matches s op l r = true) L) as Hin by (by apply list_elem_of_filter);
      rewrite Ef in Hin; by apply elem_of_nil in Hin.
  - assert (filter (λ l, row_matches s op l r = true) L = []) as ->; [|by destruct (js_padRight s)].
    apply filter_none. intros l Hl Hm. apply not_true_iff_false in E. apply E, existsb_exists. exists l.
    by rewrite <- list_elem_of_In.
Qed.

(** ** The algorithms on rows *)

(** The row has a value in the column, and it can be compared. *)
Definition joinable (column : nat) (row : Row) : Prop := ∃ x, row !! column = Some x ∧ comparable x.

Lemma joinable_at column row : joinable column row → ∃ x, row_at row column = Ok x ∧ row !! column = Some x ∧ comparable x.
Proof. intros (x & E & Hx). exists x. unfold row_at. by rewrite E. Qed.

Definition has_value (column : nat) (x : Value) (row : Row) : bool :=
  match row !! column with Some y => Value_eqb y x | None => false end.

Lemma hash_build_ok column rows : Forall (joinable column) rows → ∀ m, map_sorted m →
  ∃ m', hash_build column rows m = Ok m' ∧ ∀ x, comparable x →
    default [] (map_find Value_ltb x m') = default [] (map_find Value_ltb x m) ++ filter (λ r, has_value column x r = true) rows.
Proof.
  induction 1 as [|row rows Hrow _ IH]; intros m Hm; cbn [hash_build]; [exists m; split; [done|]; intros; by rewrite app_nil_r|].
  destruct (joinable_at _ _ Hrow) as (y & -> & Ey & Hy). cbn [mbind result_bind].
  destruct (IH _ (map_alter_sorted (λ o, default [] o ++ [row]) _ _ Hy Hm)) as (m' & E & Hf). exists m'. split; [exact E|]. intros x Hx.
  rewrite (Hf x Hx), (map_find_alter _ _ _ _ Hm Hx Hy), (filter_test (has_value column x)).
  assert (has_value column x row = Value_eqb y x) as -> by (unfold has_value; by rewrite Ey).
  destruct (Value_eqb y x) eqn:Eyx; [|done]. simpl.
  rewrite <- app_assoc. simpl. f_equal. f_equal.
  clear -Hm Hx Hy Eyx. induction m as [|[a v] m IHm]; [done|]. apply map_sorted_cons in Hm as (Ha & _ & Hm). simpl.
  rewrite (eqb_ltb_l y x a), (eqb_ltb_r y x a) by done. destruct (Value_ltb x a); [done|]. destruct (Value_ltb a x); auto.
Qed.

Lemma partners_has_value s l R x : l !! js_leftColumn s = Some x → comparable x → Forall (joinable (js_rightColumn s)) R →
  filter (λ r, has_value (js_rightColumn s) x r = true) R = partners_of s Equal l R.
Proof.
  intros El Hx HR. apply filter_ext_in. eapply Forall_impl; [exact HR|]. intros r (y & Er & Hy).
  unfold has_value, row_matches. rewrite El, Er. simpl. by rewrite Value_eqb_sym.
Qed.

Lemma hash_probe_ok s R m L : Forall (joinable (js_rightColumn s)) R → Forall (joinable (js_leftColumn s)) L →
  (∀ x, comparable x → default [] (map_find Value_ltb x m) = filter (λ r, has_value (js_rightColumn s) x r = true) R) →
  hash_probe s m L = Ok (flat_map (λ l, left_group s l (partners_of s Equal l R)) L).
Proof.
  intros HR HL Hm. induction HL as [|l L Hl _ IH]; [done|]. cbn [hash_probe].
  destruct (joinable_at _ _ Hl) as (x & -> & El & Hx). cbn [mbind result_bind]. rewrite IH. cbn [mbind result_bind].
  by rewrite (Hm x Hx), (partners_has_value s l R x).
Qed.

Lemma compare_rows_ok s op l x R matched : l !! js_leftColumn s = Some x → Forall (joinable (js_rightColumn s)) R →
  length matched = length R →
  compare_rows s op x R matched = Ok (partners_of s op l R, zip_with (λ r m, m || row_matches s op l r) R matched).
Proof.
  intros El HR. revert matched. induction HR as [|r R Hr _ IH]; intros [|m matched]; try done. intros [= Hlen].
  cbn [compare_rows]. destruct (joinable_at _ _ Hr) as (y & -> & Er & Hy). cbn [mbind result_bind].
  rewrite (IH matched Hlen). cbn [mbind result_bind]. unfold partners_of. rewrite (filter_test (row_matches s op l)). cbn [zip_with].
  assert (row_matches s op l r = compareValues x op y) as ->. { unfold row_matches. by rewrite El, Er. }
  destruct (compareValues x op y); [by rewrite orb_true_r|by rewrite orb_false_r].
Qed.

Lemma nested_rows_ok s op R L : Forall (joinable (js_rightColumn s)) R → Forall (joinable (js_leftColumn s)) L →
  ∀ matched, length matched = length R →
  nested_rows s op R L matched = Ok (flat_map (λ l, left_group s l (partners_of s op l R)) L,
    zip_with (λ r m, m || existsb (λ l, row_matches s op l r) L) R matched).
Proof.
  intros HR HL. induction HL as [|l L Hl _ IH]; intros matched Hlen; cbn [nested_rows].
  - do 2 f_equal. clear HR. revert matched Hlen. induction R as [|r R IHR]; intros [|m matched]; try done. intros [= Hlen].
    simpl. rewrite orb_false_r. f_equal. auto.
  - destruct (joinable_at _ _ Hl) as (x & -> & El & Hx). cbn [mbind result_bind].
    rewrite (compare_rows_ok s op l x R matched El HR Hlen). cbn [mbind result_bind].
    rewrite IH by (rewrite length_zip_with; lia). cbn [mbind result_bind flat_map]. do 2 f_equal. clear -Hlen.
    revert matched Hlen. induction R as [|r R IHR]; intros [|m matched]; try done. intros [= Hlen]. cbn [zip_with existsb].
    by rewrite orb_assoc, IHR.
Qed.

Lemma nested_loop_join_ok s op R L : Forall (joinable (js_rightColumn s)) R → Forall (joinable (js_leftColumn s)) L →
  nested_loop_join s op R L = Ok (join_spec s op L R).
Proof.
  intros HR HL. unfold nested_loop_join. rewrite (nested_rows_ok s op R L HR HL) by apply length_replicate.
  cbn [mbind result_bind]. unfold join_spec, unmatched_rows, lonely. destruct (js_padRight s); [|done]. do 3 f_equal. clear.
  induction R as [|r R IH]; [done|]. simpl. destruct (existsb (λ l, row_matches s op l r) L) eqn:E.
  - by rewrite !filter_cons_False by (by rewrite ?E).
  - rewrite !filter_cons_True by (by rewrite ?E). simpl. f_equal. exact IH.
Qed.

Lemma join_spec_left s op L R : js_padRight s = false →
  join_spec s op L R = flat_map (λ l, left_group s l (partners_of s op l R)) L.
Proof. unfold join_spec. intros ->. apply app_nil_r. Qed.

(** ** Column names *)

Definition dotless (name : string) : Prop := after_last_dot name = None.

Lemma dotless_chars name : dotless name ↔ ("."%char : ascii) ∉ explode name.
Proof.
  unfold dotless. induction name as [|c name IH]; simpl; [split; [intros _; apply not_elem_of_nil|done]|].
  rewrite not_elem_of_cons. destruct (after_last_dot name); [naive_solver|].
  destruct (Ascii.eqb_spec c "."%char) as [->|Hne]; naive_solver.
Qed.

Lemma unqualified_dotless name : dotless name → unqualified name = name.
Proof. unfold dotless, unqualified. by intros ->. Qed.

Lemma strip_prefix_dot p name rest : strip_prefix (p +:+ ".") name = Some rest → ¬ dotless name.
Proof.
  rewrite dotless_chars. revert name. induction p as [|c p IH]; intros [|d name]; try done.
  - change ("" +:+ ".") with ".". cbn [strip_prefix]. destruct (Ascii.eqb_spec "."%char d) as [<-|]; [|done]. intros _ Hn. apply Hn, list_elem_of_here.
  - change (String c p +:+ ".") with (String c (p +:+ ".")). cbn [strip_prefix].
    destruct (Ascii.eqb c d); [|done]. intros E Hn. apply (IH name E). intros Hin. apply Hn, list_elem_of_further, Hin.
Qed.

Lemma app_dot_inj (n m x y : chars) : ("."%char : ascii) ∉ x → ("."%char : ascii) ∉ y → n ++ "."%char :: x = m ++ "."%char :: y → x = y.
Proof.
  intros Hx Hy. revert m. induction n as [|c n IH]; intros [|d m]; simpl; intros E; simplify_eq; try done.
  - destruct Hx. rewrite elem_of_app. right. apply list_elem_of_here.
  - destruct Hy. rewrite elem_of_app. right. apply list_elem_of_here.
  - by eapply IH.
Qed.

Lemma has_suffix_column n x c : dotless x → dotless c →
  has_suffix (explode "." ++ explode c) (explode (n +:+ "." +:+ x)) = String.eqb x c.
Proof.
  intros Hx%dotless_chars Hc%dotless_chars. unfold has_suffix. rewrite !explode_app. cbn [explode app].
  set (whole := explode n ++ "."%char :: explode x). destruct (String.eqb_spec x c) as [->|Hne].
  - assert (length (("."%char : ascii) :: explode c) ≤ length whole) as Hlen by (unfold whole; rewrite length_app; simpl; lia).
    apply Nat.leb_le in Hlen as ->. apply bool_decide_eq_true. unfold whole. rewrite length_app. simpl.
    replace (length (explode n) + Datatypes.S (length (explode c)) - Datatypes.S (length (explode c))) with (length (explode n)) by lia.
    apply drop_app_length.
  - apply andb_false_iff. right. apply bool_decide_eq_false. intros E. destruct Hne.
    assert (explode x = explode c) as Ee.
    { apply (app_dot_inj (explode n) (take (length whole - length (("."%char : ascii) :: explode c)) whole) _ _ Hx Hc).
      rewrite <- E at 2. by rewrite take_drop. }
    rewrite <- (implode_explode x), <- (implode_explode c). by rewrite Ee.
Qed.

Lemma exact_column_dotless {S} (t : Table Select S) name c i : dotless c → exact_column (qualified_columns name t) c i = None.
Proof.
  intros Hc. unfold qualified_columns. revert i. induction (t_schema t) as [|col sch IH]; intros i; [done|]. simpl.
  destruct (String.eqb_spec (name +:+ "." +:+ col_name col) c) as [<-|]; [|auto]. apply dotless_chars in Hc. destruct Hc.
  rewrite !explode_app, !elem_of_app. right. left. apply list_elem_of_here.
Qed.

(** An unqualified column of the only table is found by its name. *)
Lemma resolve_only_table {S} (t : Table Select S) name c : NoDup (col_name <$> t_schema t) →
  Forall (λ col, dotless (col_name col)) (t_schema t) → dotless c →
  resolveResultColumn (qualified_columns name t) c = Ok (columnIndex t c).
Proof.
  intros Hnd Hd Hc. unfold resolveResultColumn. rewrite exact_column_dotless by done. unfold qualified_columns, columnIndex.
  assert (∀ i found, (is_Some found → c ∉ col_name <$> t_schema t) →
    suffix_column ((λ col, name +:+ "." +:+ col_name col) <$> t_schema t) (explode "." ++ explode c) i found =
    Ok (match found with Some k => Some k | None => (λ k, i + k) <$> findColumn (t_schema t) c end)) as Hs.
  { induction (t_schema t) as [|col sch IH]; intros i found Hf; [by destruct found|].
    apply Forall_cons in Hd as [Hcol Hd]. rewrite fmap_cons in Hnd. apply NoDup_cons in Hnd as [Hni Hnd].
    cbn [fmap list_fmap suffix_column findColumn]. rewrite has_suffix_column by done.
    destruct (String.eqb_spec (col_name col) c) as [E|E].
    - destruct found as [k|]; [exfalso; apply Hf; [by eexists|]; rewrite fmap_cons, E; left|].
      rewrite IH; [cbn; by rewrite Nat.add_0_r|done|done|]. intros _. by rewrite <- E.
    - rewrite IH; [|done|done|intros Hs Hin; apply (Hf Hs); rewrite fmap_cons; by right].
      destruct found; [done|]. destruct (findColumn sch c) as [k|]; [|done]. simpl. do 2 f_equal. lia. }
  rewrite (Hs 0 None) by (by intros [? ?]). by destruct (findColumn (t_schema t) c).
Qed.

Lemma resolveTableColumn_dotless {S} (t : Table Select S) name c alias : dotless c →
  resolveTableColumn t name c alias = columnIndex t c.
Proof.
  intros Hc. unfold resolveTableColumn. destruct (strip_prefix (name +:+ ".") c) eqn:E; [by apply strip_prefix_dot in E|].
  destruct alias as [a|]; [|done]. simpl. destruct (strip_prefix (a +:+ ".") c) eqn:Ea; [by apply strip_prefix_dot in Ea|done].
Qed.

(** ** The rows of a table *)

Definition row_fits (width : nat) (row : Row) : Prop := length row = width ∧ Forall (λ x, comparable x) row.
Definition rows_of (v : VectorRowStore) : list Row := (vrs_liveEntries v).*2.

Lemma row_fits_joinable width column row : row_fits width row → column < width → joinable column row.
Proof.
  intros [Hlen Hc] Hlt. destruct (lookup_lt_is_Some_2 row column) as [x Hx]; [lia|]. exists x. split; [done|].
  exact (Forall_lookup_1 _ _ _ _ Hc Hx).
Qed.

Lemma entries_rows v test entries : entries_as v test true entries →
  entries.*2 ≡ₚ filter (λ row, test row = true) (rows_of v).
Proof.
  intros [Hin Hnd]. transitivity ((filter (λ e, test e.2 = true) (vrs_liveEntries v)).*2).
  - f_equiv. apply NoDup_Permutation.
    + eapply NoDup_fmap_1. by apply Hnd.
    + apply NoDup_filter. eapply NoDup_fmap_1, NoDup_live_entries_from.
    + intros [i row]. rewrite Hin, list_elem_of_filter, live_entries_elem. simpl. tauto.
  - unfold rows_of. induction (vrs_liveEntries v) as [|[i row] l IH]; [done|]. rewrite (filter_test (λ e, test e.2)).
    cbn [fmap list_fmap snd]. rewrite (filter_test test). destruct (test row); simpl; by rewrite IH.
Qed.

Section tables.
Context {S : Type} `{RowStoreLaws S}.
Context (regex : string → string → bool).
Context (i2d : Z → Z) (dadd dsub : Z → Z → Z) (dchars : Z → chars).
Abbreviation Table := (Table Select S).
Context (snap : ReadSnapshot) (tm0 : TransactionManager).
Abbreviation returns := (returns tm0).

(** A table whose rows, indexes and versions agree, of which the snapshot sees the
    current rows, with typed statistics and column names without a dot. *)
Record readable (t : Table) (v : VectorRowStore) : Prop := {
  rd_ok : table_ok i2d dadd dsub dchars t v;
  rd_visible i : mvcc_read i snap tm0 (t_versions t) = vrs_get i v;
  rd_histograms c h : columnHistogram c (t_statistics t) = Some h → histogram_typed h;
  rd_names : Forall (λ col, dotless (col_name col)) (t_schema t)
}.

Lemma rd_heap t v : readable t v → hinv i2d dadd dsub dchars t v (t_indexManager t).
Proof. intros [[_ [Hh _]] _ _ _]. exact Hh. Qed.
Lemma rd_rows t v : readable t v → Forall (row_fits (length (t_schema t))) (rows_of v).
Proof.
  intros Hr. apply Forall_forall. intros row ([i r] & -> & Hin%live_entries_elem)%list_elem_of_fmap.
  destruct (tc_rows _ _ _ _ _ _ _ (hi_core _ _ _ _ _ _ _ (rd_heap t v Hr)) i r Hin) as (Hv & Hc & _).
  split; [|exact Hc]. simpl. unfold validateRow in Hv. by destruct (Nat.eqb_spec (length r) (length (t_schema t))).
Qed.

Lemma findColumn_lt (sch : Schema) c i : findColumn sch c = Some i → ∃ col, sch !! i = Some col ∧ col_name col = c.
Proof.
  revert i. induction sch as [|col sch IH]; [done|]. intros i. simpl. destruct (String.eqb_spec (col_name col) c) as [E|E].
  - intros [= <-]. by exists col.
  - destruct (findColumn sch c) as [k|]; [|done]. intros [= <-]. by apply IH.
Qed.

Lemma hasIndex_column t v c : readable t v → table_hasIndex t c = Ok true →
  ∃ i, findColumn (t_schema t) c = Some i ∧ dotless c.
Proof.
  intros Hr Hix. pose proof (rd_heap t v Hr) as Hh. unfold table_hasIndex in Hix.
  destruct (indexedLookup_scan _ _ _ _ _ _ [c] VNull (wf_ok _ _ _ _ _ _ Hh) (reflects_ok _ _ _ _ _ _ Hh) I) as (r & E & Eh & Hids).
  rewrite Hix in Eh. injection Eh as Eh. destruct r as [ids|]; [|by vm_compute in Eh]. destruct (Hids ids eq_refl) as (idxs & Hc & _).
  destruct (columns_at_single _ _ _ (names_ok _ _ _ _ _ _ Hh) Hc) as (i & -> & Hi). exists i. split; [done|].
  destruct (findColumn_lt _ _ _ Hi) as (col & Hcol & <-). exact (Forall_lookup_1 _ _ _ _ (rd_names t v Hr) Hcol).
Qed.

Lemma snapshot_returns t v : readable t v → ∃ rows, returns (rowsSnapshotForRead snap t) rows ∧ rows ≡ₚ rows_of v.
Proof.
  intros Hr. exists (all_entries t v).*2. split.
  - intros tm Htm. destruct (visible_returns t v snap tm0 (rd_visible t v Hr) tm Htm) as (tm' & E & Htm').
    exists tm'. split; [|done]. unfold rowsSnapshotForRead, rowsSnapshot_of. unfold visible in E.
    destruct (visibleEntries_of snap t tm) as [entries tm1]. by injection E as -> ->.
  - rewrite (entries_rows v (λ _, true)); [|by apply (all_entries_as regex t v EmptyString snap tm0), rd_visible].
    apply reflexive_eq. induction (rows_of v) as [|row l IH]; [done|]. by rewrite filter_cons_True, IH.
Qed.

Lemma probe_returns t v c i x : readable t v → table_hasIndex t c = Ok true → findColumn (t_schema t) c = Some i → comparable x →
  ∃ rows, returns (probe_rows snap t c x) rows ∧ rows ≡ₚ filter (λ row, has_value i x row = true) (rows_of v).
Proof.
  intros Hr Hix Hi Hx.
  destruct (column_lookup i2d dadd dsub dchars t v EmptyString (rd_heap t v Hr) c x Hix Hx) as (ids & E & Hf).
  exists (omap (live_at v) ids).*2. split.
  - intros tm Htm. destruct (by_id_returns t v snap tm0 (rd_visible t v Hr) ids tm Htm) as (tm' & Eb & Htm').
    exists tm'. split; [|done]. unfold probe_rows, rowsByIdForRead, rowsById_of, mbind, M_bind, liftM. rewrite E.
    unfold by_id, visible_by_id in Eb. destruct (visibleEntriesById_of ids snap t tm) as [entries tm1]. by injection Eb as -> ->.
  - rewrite (entries_rows v _ _ (finds_entries regex v EmptyString _ _ _ Hf)). apply reflexive_eq, list_filter_iff.
    intros row. by rewrite (row_cmp_column _ _ _ _ _ _ _ _ _ _ Hi).
Qed.

Lemma probe_loop_returns t v c i key group outer : readable t v → table_hasIndex t c = Ok true →
  findColumn (t_schema t) c = Some i → Forall (joinable key) outer →
  (∀ row, Proper ((≡ₚ) ==> (≡ₚ)) (group row)) →
  ∃ rows, returns (probe_loop snap t c key group outer) rows ∧
    rows ≡ₚ flat_map (λ row, group row (filter (λ r, match row !! key with Some x => has_value i x r | None => false end = true)
                                        (rows_of v))) outer.
Proof.
  intros Hr Hix Hi Ho Hg. induction Ho as [|row outer Hrow _ IH]; [exists []; split; [apply returns_ret|done]|].
  destruct IH as (rest & Hrest & Ep). destruct (joinable_at _ _ Hrow) as (x & Ex & El & Hx).
  destruct (probe_returns t v c i x Hr Hix Hi Hx) as (rows & Hrows & Eq). exists (group row rows ++ rest). split.
  - cbn [probe_loop]. eapply returns_bind; [by apply returns_lift|]. eapply returns_bind; [exact Hrows|].
    eapply returns_bind; [exact Hrest|apply returns_ret].
  - cbn [flat_map]. f_equiv; [|exact Ep]. rewrite El. by apply Hg.
Qed.

(** ** Plans *)

(** A plan that probes an index names one there is. *)
Definition plan_fits (left right : Table) (join : JoinClause) (p : JoinPlan) : Prop :=
  (jp_outerIsLeft p = true → jp_probeColumn p ≠ EmptyString → table_hasIndex right (jc_rightColumn join) = Ok true) ∧
  (jp_outerIsLeft p = false → table_hasIndex left (jc_leftColumn join) = Ok true).

Ltac fits := match goal with |- plan_fits _ _ _ _ => split; cbn; intros; congruence end.

Lemma consider_nested_fits left right join b n t c p p' : plan_fits left right join p →
  (if b : bool then t = right ∧ c = jc_rightColumn join else t = left ∧ c = jc_leftColumn join) →
  consider_nested b n t c p = Ok p' → plan_fits left right join p'.
Proof.
  intros Hp Hb E. unfold consider_nested in E. inv_result E. destruct a; [|by injection E as <-]. simpl in E. inv_result E.
  injection E as <-. destruct (d_ltb _ _); [|done]. destruct b; destruct Hb as [-> ->]; fits.
Qed.

Lemma planJoin_fits left right join p : planJoin left right join = Ok p → plan_fits left right join p.
Proof.
  unfold planJoin. case_bool_decide; [intros [= <-]; fits|].
  destruct (isEquiJoin join); cbn [negb orb].
  - destruct (forcesNestedLoop (jc_kind join)).
    + case_bool_decide; cbn [negb]; intros E; inv_result E.
      * destruct a; [|injection E as <-; fits]. inv_result E. injection E as <-. fits.
      * destruct a; [|injection E as <-; fits]. inv_result E. injection E as <-. fits.
    + intros E. inv_result E. eapply (consider_nested_fits _ _ _ false); [|by split|exact E].
      eapply (consider_nested_fits _ _ _ true); [|by split|exact Hr]. fits.
  - intros [= <-]. fits.
Qed.

Lemma planJoinAgainstRows_fits n left right join p : planJoinAgainstRows n right join = Ok p →
  plan_fits left right join p ∧ jp_outerIsLeft p = true.
Proof.
  unfold planJoinAgainstRows. case_bool_decide; [intros [= <-]; (split; [fits|done])|].
  destruct (isEquiJoin join); cbn [negb orb].
  - destruct (forcesNestedLoop (jc_kind join)).
    + case_bool_decide; [intros [= <-]; (split; [fits|done])|]. intros E. inv_result E.
      destruct a; [|injection E as <-; split; [fits|done]]. inv_result E. injection E as <-. split; [fits|done].
    + intros E. unfold consider_nested in E. inv_result E. destruct a; [|injection E as <-; split; [fits|done]]. simpl in E. inv_result E.
      injection E as <-. destruct (d_ltb _ _); (split; [fits|done]).
  - intros [= <-]. split; [fits|done].
Qed.

Lemma table_hasIndex_total t v c : readable t v → total (table_hasIndex t c).
Proof. intros Hr. apply (co_hasIndex _ _ (table_catalog_ok _ _ _ _ _ _ (rd_heap t v Hr) (rd_histograms t v Hr))). Qed.
Lemma probe_cost_total n t v c : readable t v → total (probe_cost n t c).
Proof.
  intros Hr. apply total_bind; [|intros; apply total_Ok].
  apply distinctOrOne_total, (table_catalog_ok _ _ _ _ _ _ (rd_heap t v Hr) (rd_histograms t v Hr)).
Qed.
Lemma consider_nested_total b n t v c p : readable t v → total (consider_nested b n t c p).
Proof.
  intros Hr. apply total_bind; [by eapply table_hasIndex_total|]. intros [] _; [|apply total_Ok]. simpl.
  apply total_bind; [by eapply probe_cost_total|]. intros; apply total_Ok.
Qed.

Lemma planJoin_total left vl right vr join : readable left vl → readable right vr → total (planJoin left right join).
Proof.
  intros Hl Hr. unfold planJoin. case_bool_decide; [apply total_Ok|]. case_match.
  - case_match; [apply total_Ok|]. case_match.
    + apply total_bind; [by eapply table_hasIndex_total|]. intros [] _; [|apply total_Ok].
      apply total_bind; [by eapply probe_cost_total|]. intros; apply total_Ok.
    + apply total_bind; [by eapply table_hasIndex_total|]. intros [] _; [|apply total_Ok].
      apply total_bind; [by eapply probe_cost_total|]. intros; apply total_Ok.
  - apply total_bind; [by eapply consider_nested_total|]. intros p _. by eapply consider_nested_total.
Qed.
Lemma planJoinAgainstRows_total n right vr join : readable right vr → total (planJoinAgainstRows n right join).
Proof.
  intros Hr. unfold planJoinAgainstRows. case_bool_decide; [apply total_Ok|]. case_match; [|by eapply consider_nested_total].
  case_match; [apply total_Ok|]. apply total_bind; [by eapply table_hasIndex_total|]. intros [] _; [|apply total_Ok].
  apply total_bind; [by eapply probe_cost_total|]. intros; apply total_Ok.
Qed.

(** ** One join *)

Lemma flat_map_partners s i L R : js_rightColumn s = i → Forall (joinable (js_leftColumn s)) L → Forall (joinable i) R →
  flat_map (λ l, left_group s l (filter (λ r, match l !! js_leftColumn s with Some x => has_value i x r | None => false end = true) R)) L =
  flat_map (λ l, left_group s l (partners_of s Equal l R)) L.
Proof.
  intros <- HL HR. induction HL as [|l L (x & El & Hx) _ IH]; [done|]. cbn [flat_map]. rewrite IH. f_equal. f_equal. rewrite El.
  by apply partners_has_value.
Qed.

Lemma flat_map_left_partners s i L R : js_leftColumn s = i → Forall (joinable (js_rightColumn s)) R →
  flat_map (λ r, right_group s r (filter (λ l, match r !! js_rightColumn s with Some x => has_value i x l | None => false end = true) L)) R =
  flat_map (λ r, right_group s r (filter (λ l, row_matches s Equal l r = true) L)) R.
Proof.
  intros <- HR. induction HR as [|r R (x & Er & Hx) _ IH]; [done|]. cbn [flat_map]. rewrite IH. f_equal. f_equal.
  apply list_filter_iff. intros l. rewrite Er. unfold has_value, row_matches. rewrite Er. by destruct (l !! js_leftColumn s).
Qed.

Lemma join_rows_returns plan first left vl right vr join s L : readable left vl → readable right vr →
  plan_fits left right join plan → (first = false → jp_outerIsLeft plan = true) →
  (first = true → L ≡ₚ rows_of vl ∧ ∀ i, dotless (jc_leftColumn join) → columnIndex left (jc_leftColumn join) = Some i → js_leftColumn s = i) →
  (∀ i, dotless (jc_rightColumn join) → columnIndex right (jc_rightColumn join) = Some i → js_rightColumn s = i) →
  Forall (joinable (js_leftColumn s)) L → Forall (joinable (js_rightColumn s)) (rows_of vr) →
  ∃ out, returns (join_rows snap plan first left right join s L) out ∧ out ≡ₚ join_spec s (jc_op join) L (rows_of vr).
Proof.
  intros Hl Hr [Hfr Hfl] Hfirst Hleft Hright HL HR. unfold join_rows.
  destruct (snapshot_returns right vr Hr) as (R & HRr & ER).
  assert (Forall (joinable (js_rightColumn s)) R) as HR' by (by rewrite ER).
  destruct (_ && jp_outerIsLeft plan && _ && _) eqn:E1.
  { apply andb_prop in E1 as [[[E1 Eo]%andb_prop Epc]%andb_prop Epad]. apply andb_prop in E1 as [Eop%bool_decide_eq_true _].
    apply negb_true_iff in Epc, Epad. apply String.eqb_neq in Epc. destruct (hasIndex_column right vr _ Hr (Hfr Eo Epc)) as (i & Hi & Hd).
    rewrite unqualified_dotless by done. rewrite Eop, join_spec_left by done.
    destruct (probe_loop_returns right vr _ i (js_leftColumn s) (left_group s) L Hr (Hfr Eo Epc) Hi HL (left_group_proper s))
      as (out & Hout & Ep). exists out. split; [done|]. rewrite Ep. apply reflexive_eq.
    rewrite <- (flat_map_partners s i L (rows_of vr) (Hright i Hd Hi) HL); [done|]. by rewrite <- (Hright i Hd Hi). }
  destruct (_ && negb (jp_outerIsLeft plan) && _ && _) eqn:E2.
  { apply andb_prop in E2 as [[[E2 Eo]%andb_prop ->]%andb_prop Epad]. apply andb_prop in E2 as [Eop%bool_decide_eq_true _].
    apply negb_true_iff in Eo, Epad. destruct (hasIndex_column left vl _ Hl (Hfl Eo)) as (i & Hi & Hd).
    rewrite unqualified_dotless by done. destruct (Hleft eq_refl) as [EL Hlc].
    destruct (probe_loop_returns left vl _ i (js_rightColumn s) (right_group s) R Hl (Hfl Eo) Hi HR' (right_group_proper s))
      as (out & Hout & Ep). exists out. split; [eapply returns_bind; [exact HRr|exact Hout]|].
    rewrite Ep, (flat_map_left_partners s i (rows_of vl) R (Hlc i Hd Hi) HR'), Eop, <- join_spec_right by done. by rewrite ER, EL. }
  destruct (_ && bool_decide (jp_algorithm plan = JA_HashJoin) && _) eqn:E3.
  { apply andb_prop in E3 as [[Eop%bool_decide_eq_true _]%andb_prop Epad%negb_true_iff].
    destruct (hash_build_ok _ R HR' []) as (m & Em & Hm); [by split; constructor|].
    eexists. split.
    - eapply returns_bind; [exact HRr|]. eapply returns_bind; [by apply returns_lift|]. apply returns_lift.
      by apply (hash_probe_ok s R m L HR' HL).
    - rewrite Eop, <- (join_spec_left s Equal L R) by done. by rewrite ER. }
  eexists. split.
  - eapply returns_bind; [exact HRr|]. apply returns_lift, (nested_loop_join_ok s (jc_op join) R L HR' HL).
  - by rewrite ER.
Qed.

(** ** All joins *)

Context (database : option (Database Select S)) (temps : list (string * Table)).

Definition source (name : string) (t : Table) (v : VectorRowStore) : Prop :=
  select_requireTable database name temps = Ok t ∧ readable t v.

Definition shape_of (join : JoinClause) (columns : list string) (right : Table) (leftColumn rightColumn : nat) : JoinShape :=
  mkJoinShape (length columns) (length (t_schema right)) leftColumn rightColumn (pads_left (jc_kind join)) (pads_right (jc_kind join)).

(** The reference meaning of a list of joins, from left to right. *)
Inductive joined : list JoinClause → list string → list Row → list string → list Row → Prop :=
| joined_nil columns rows : joined [] columns rows columns rows
| joined_cross join joins right vr columns rows columns' rows' :
    source (jc_table join) right vr → jc_kind join = JK_Cross →
    joined joins (columns ++ qualified_columns (jc_table join) right) (cross_join rows (rows_of vr)) columns' rows' →
    joined (join :: joins) columns rows columns' rows'
| joined_on join joins right vr leftColumn rightColumn columns rows columns' rows' :
    source (jc_table join) right vr → jc_kind join ≠ JK_Cross →
    resolveResultColumn columns (jc_leftColumn join) = Ok (Some leftColumn) →
    resolveTableColumn right (jc_table join) (jc_rightColumn join) (jc_tableAlias join) = Some rightColumn →
    joined joins (columns ++ qualified_columns (jc_table join) right)
      (join_spec (shape_of join columns right leftColumn rightColumn) (jc_op join) rows (rows_of vr)) columns' rows' →
    joined (join :: joins) columns rows columns' rows'.

Lemma resolveResultColumn_lt columns c i : resolveResultColumn columns c = Ok (Some i) → i < length columns.
Proof.
  unfold resolveResultColumn.
  assert (∀ l k, exact_column l c k = Some i → i < k + length l) as He.
  { induction l as [|x l IH]; intros k; [done|]. simpl. case_match; [intros [= <-]; lia|]. intros E%IH. lia. }
  assert (∀ l suffix k found, (∀ j, found = Some j → j < k) → suffix_column l suffix k found = Ok (Some i) → i < k + length l) as Hs.
  { induction l as [|x l IH]; intros suffix k found Hf; simpl; [intros [= ->]; specialize (Hf i eq_refl); lia|]. case_match.
    - destruct found; [done|]. intros E%IH; [lia|]. intros j [= <-]. lia.
    - intros E%IH; [lia|]. intros j Hj. specialize (Hf j Hj). lia. }
  destruct (exact_column columns c 0) eqn:E; [intros [= ->]; by apply (He columns 0)|]. by apply (Hs _ _ 0 None).
Qed.

Lemma row_fits_app n m l r : row_fits n l → row_fits m r → row_fits (n + m) (l ++ r).
Proof. intros [Hl Hcl] [Hr Hcr]. split; [by rewrite length_app, Hl, Hr|]. by apply Forall_app. Qed.
Lemma row_fits_nulls n : row_fits n (replicate n VNull).
Proof. split; [apply length_replicate|]. apply Forall_replicate. exact I. Qed.

Lemma cross_join_fits n m L R : Forall (row_fits n) L → Forall (row_fits m) R → Forall (row_fits (n + m)) (cross_join L R).
Proof.
  intros HL HR. apply Forall_forall. intros row Hin. unfold cross_join in Hin. apply list_elem_of_In, in_flat_map in Hin as (l & Hl & Hr).
  apply list_elem_of_In in Hl, Hr. apply list_elem_of_fmap in Hr as (r & -> & Hr). rewrite Forall_forall in HL, HR. apply row_fits_app; auto.
Qed.

Lemma join_spec_fits s op L R : Forall (row_fits (js_leftWidth s)) L → Forall (row_fits (js_rightWidth s)) R →
  Forall (row_fits (js_leftWidth s + js_rightWidth s)) (join_spec s op L R).
Proof.
  intros HL HR. unfold join_spec. apply Forall_app. split.
  - apply Forall_forall. intros row Hin. apply list_elem_of_In, in_flat_map in Hin as (l & Hl & Hr).
    apply list_elem_of_In in Hl, Hr. rewrite Forall_forall in HL. specialize (HL l Hl). unfold left_group in Hr.
    destruct (partners_of s op l R) as [|r0 rs] eqn:Ep.
    + destruct (js_padLeft s); [|by apply elem_of_nil in Hr]. apply list_elem_of_singleton in Hr as ->. apply row_fits_app, row_fits_nulls. exact HL.
    + rewrite <- Ep in Hr. apply list_elem_of_fmap in Hr as (r & -> & [_ Hr]%list_elem_of_filter). rewrite Forall_forall in HR. apply row_fits_app; auto.
  - destruct (js_padRight s); [|done]. apply Forall_fmap, Forall_forall. intros r [_ Hr]%list_elem_of_filter. rewrite Forall_forall in HR.
    apply row_fits_app; [apply row_fits_nulls|auto].
Qed.

Lemma length_qualified_columns name (t : Table) : length (qualified_columns name t) = length (t_schema t).
Proof. apply length_fmap. Qed.

Lemma join_step_returns first left vl name right vr join columns rows rows' leftColumn rightColumn :
  readable left vl → readable right vr → jc_kind join ≠ JK_Cross →
  resolveResultColumn columns (jc_leftColumn join) = Ok (Some leftColumn) →
  resolveTableColumn right (jc_table join) (jc_rightColumn join) (jc_tableAlias join) = Some rightColumn →
  (first = true → columns = qualified_columns name left ∧ rows ≡ₚ rows_of vl) →
  Forall (row_fits (length columns)) rows → rows' ≡ₚ rows →
  ∃ out, returns (join_step snap first left right join columns rows') out ∧
    out ≡ₚ join_spec (shape_of join columns right leftColumn rightColumn) (jc_op join) rows (rows_of vr).
Proof.
  intros Hl Hr Hk El Er Hf Hw Ep. unfold join_step.
  assert (∃ plan, (if first then planJoin left right join else planJoinAgainstRows (length rows') right join) = Ok plan ∧
    plan_fits left right join plan ∧ (first = false → jp_outerIsLeft plan = true)) as (plan & Eplan & Hfit & Hout).
  { destruct first.
    - destruct (planJoin_total left vl right vr join Hl Hr) as [plan E]. exists plan. split; [done|]. split; [by apply planJoin_fits|done].
    - destruct (planJoinAgainstRows_total (length rows') right vr join Hr) as [plan E]. exists plan. split; [done|].
      destruct (planJoinAgainstRows_fits _ left _ _ _ E). done. }
  destruct (join_rows_returns plan first left vl right vr join (shape_of join columns right leftColumn rightColumn) rows')
    as (out & Ho & Eo); try done.
  - intros ->. destruct (Hf eq_refl) as [-> Erows]. split; [by rewrite Ep|]. intros i Hd Hi.
    rewrite resolve_only_table in El; [|apply (names_ok _ _ _ _ _ _ (rd_heap left vl Hl))|apply (rd_names left vl Hl)|done].
    rewrite Hi in El. injection El as <-. done.
  - intros i Hd Hi. rewrite resolveTableColumn_dotless, Hi in Er by done. by injection Er as <-.
  - rewrite Ep. eapply Forall_impl; [exact Hw|]. intros row Hrow. eapply row_fits_joinable; [exact Hrow|]. by apply resolveResultColumn_lt in El.
  - eapply Forall_impl; [exact (rd_rows right vr Hr)|]. intros row Hrow. eapply row_fits_joinable; [exact Hrow|].
    apply findColumn_lt in Er as (col & Hcol & _). by apply lookup_lt_Some in Hcol.
  - exists out. split; [|by rewrite Eo, Ep]. eapply returns_bind; [by apply returns_lift|]. rewrite bool_decide_false by done.
    eapply returns_bind; [by apply returns_lift|]. by rewrite Er.
Qed.

Lemma cross_step_returns first left vl right vr join columns rows rows' :
  readable left vl → readable right vr → jc_kind join = JK_Cross → rows' ≡ₚ rows →
  ∃ out, returns (join_step snap first left right join columns rows') out ∧ out ≡ₚ cross_join rows (rows_of vr).
Proof.
  intros Hl Hr Hk Ep. unfold join_step. destruct (snapshot_returns right vr Hr) as (R & HR & ER).
  assert (∃ plan, (if first then planJoin left right join else planJoinAgainstRows (length rows') right join) = Ok plan) as [plan Eplan].
  { destruct first; [by eapply planJoin_total|by eapply planJoinAgainstRows_total]. }
  eexists. split; [|by rewrite <- Ep, <- ER]. eapply returns_bind; [by apply returns_lift|]. rewrite bool_decide_true by done.
  eapply returns_bind; [exact HR|apply returns_ret].
Qed.

Lemma join_loop_returns left vl name joins columns rows columns' rows' : joined joins columns rows columns' rows' →
  readable left vl → Forall (row_fits (length columns)) rows → ∀ first rows1,
  (first = true → columns = qualified_columns name left ∧ rows ≡ₚ rows_of vl) → rows1 ≡ₚ rows →
  ∃ out counts, returns (join_loop snap database first left joins temps columns rows1) (columns', out, counts) ∧
    out ≡ₚ rows'.
Proof.
  intros Hj Hl. induction Hj as [columns rows|join joins right vr columns rows columns' rows' [Es Hr] Hk _ IH
    |join joins right vr lc rc columns rows columns' rows' [Es Hr] Hk El Er _ IH]; intros Hw first rows1 Hf Ep.
  - exists rows1, []. split; [apply returns_ret|done].
  - destruct (cross_step_returns first left vl right vr join columns rows rows1 Hl Hr Hk Ep) as (next & Hn & En).
    destruct IH with (first := false) (rows1 := next) as (out & counts & Ho & Eo); [|done..|].
    { rewrite length_app, length_qualified_columns. apply cross_join_fits; [done|]. apply (rd_rows right vr Hr). }
    exists out, (length next :: counts). split; [|done]. cbn [join_loop]. eapply returns_bind; [by apply returns_lift|].
    eapply returns_bind; [exact Hn|]. eapply returns_bind; [exact Ho|apply returns_ret].
  - destruct (join_step_returns first left vl name right vr join columns rows rows1 lc rc Hl Hr Hk El Er Hf Hw Ep) as (next & Hn & En).
    destruct IH with (first := false) (rows1 := next) as (out & counts & Ho & Eo); [|done..|].
    { rewrite length_app, length_qualified_columns.
      apply (join_spec_fits (shape_of join columns right lc rc)); [done|]. apply (rd_rows right vr Hr). }
    exists out, (length next :: counts). split; [|done]. cbn [join_loop]. eapply returns_bind; [by apply returns_lift|].
    eapply returns_bind; [exact Hn|]. eapply returns_bind; [exact Ho|apply returns_ret].
Qed.

Lemma filter_rows_ok p lookup f rows :
  (∀ row, row ∈ rows → evalPredicate regex i2d dadd dsub p row lookup = Ok (f row)) →
  filter_rows regex i2d dadd dsub p lookup rows = Ok (filter (λ row, f row = true) rows).
Proof.
  induction rows as [|row rows IH]; intros Hf; [done|]. cbn [filter_rows]. rewrite (Hf row) by set_solver.
  cbn [mbind result_bind]. rewrite IH by set_solver. cbn [mbind result_bind]. rewrite (filter_test f). done.
Qed.

(** The WHERE clause of a query evaluates to [f] on the rows. *)
Definition where_is (query : Select) (columns : list string) (rows : list Row) (f : Row → bool) : Prop :=
  match sel_where query with
  | Some p => ∀ row, row ∈ rows → evalPredicate regex i2d dadd dsub p row (resolveResultColumn columns) = Ok (f row)
  | None => ∀ row, row ∈ rows → f row = true
  end.

(** C9: a join returns the join.  For tables whose rows, indexes and versions agree,
    a snapshot that sees their current rows, and join columns that resolve,
    [collectJoinRows] returns the columns of the joined tables and, up to order, the
    rows that the definition of the joins from left to right gives and that satisfy
    the WHERE clause: inner, left, right, full and cross joins with any comparison,
    whether the planner had the join computed by index probes from the left or from
    the right, by hashing or by comparing all pairs.  No transaction is changed. *)
Theorem collectJoinRows_exact query left vl columns rows f : sel_joins query ≠ [] →
  source (sel_table query) left vl →
  joined (sel_joins query) (qualified_columns (sel_table query) left) (rows_of vl) columns rows →
  where_is query columns rows f →
  ∃ out counts tm', collectJoinRows regex i2d dadd dsub snap database query temps tm0 = (Ok (columns, out, counts), tm') ∧
    tm_transactions tm' = tm_transactions tm0 ∧ out ≡ₚ filter (λ row, f row = true) rows.
Proof.
  intros Hne [Es Hl] Hj Hw. destruct (snapshot_returns left vl Hl) as (L & HL & EL).
  destruct (join_loop_returns left vl (sel_table query) _ _ _ _ _ Hj Hl) with (first := true) (rows1 := L)
    as (out & counts & Ho & Eo); [rewrite length_qualified_columns; by apply rd_rows|done|done|].
  assert (∃ out' counts', returns (collectJoinRows regex i2d dadd dsub snap database query temps) (columns, out', counts') ∧
    out' ≡ₚ filter (λ row, f row = true) rows) as (out' & counts' & Hc & E').
  { unfold collectJoinRows, where_is in *. rewrite bool_decide_false by (by destruct (sel_joins query)).
    destruct (sel_where query) as [p|].
    - eexists _, _. split; [|by rewrite <- Eo]. eapply returns_bind; [by apply returns_lift|]. eapply returns_bind; [exact HL|].
      eapply returns_bind; [exact Ho|]. cbn beta iota. eapply returns_bind; [|apply returns_ret]. apply returns_lift.
      apply filter_rows_ok. intros row Hrow. apply Hw. by rewrite <- Eo.
    - eexists _, _. split.
      + eapply returns_bind; [by apply returns_lift|]. eapply returns_bind; [exact HL|]. eapply returns_bind; [exact Ho|apply returns_ret].
      + rewrite Eo. apply reflexive_eq. clear -Hw. induction rows as [|row rows IH]; [done|].
        rewrite filter_cons_True by (apply Hw; set_solver). f_equal. apply IH. set_solver. }
  destruct (Hc tm0 eq_refl) as (tm' & E & Htm). by exists out', counts', tm'.
Qed.
End tables.
