(* ===== verification/ScanReads.v ===== *)
(** * The reads a scan records cover its clause

    A serializable transaction that scans a table records predicates
    ([recordSsiScanPredicates]); a commit is refused when a row inserted by another
    transaction matches one of them.  The recorded predicates match every row the
    scan would have returned, so no phantom escapes, as long as the clause names its
    columns without a table name. *)

From S2P Require Import Prelude Value Float64 VectorRowStore StringPattern TransactionManager Mvcc HashIndex BTreeIndex IndexExpression.
From S2P Require Import Predicate SetOps Histogram Selectivity IndexManager IndexManagerProof Table TableProof Database ForeignKeys Ast.
From S2P Require Import Planner JoinPlanner PlannerProof PlannerTotal SelectScan SelectScanProof.
Local Open Scope nat_scope.

(** ** Recorded predicates *)

Section recorded.
Context (id : TransactionId) (Hid : id ≠ kSystemTransactionId).

Definition reads_of (tm : TransactionManager) : option (list SsiPredicate) := tm_activePredicateReads tm !! id.

(** The transaction is active, and a predicate it recorded matches the row. *)
Definition detects (image : SsiInsert) (tm : TransactionManager) : Prop :=
  ∃ ps, reads_of tm = Some ps ∧ predicateConflictsWithInserts ps [image] = true.

Definition active_in (tm : TransactionManager) : Prop := is_Some (reads_of tm).

Lemma recordPredicateRead_reads p tm ps : reads_of tm = Some ps →
  reads_of (recordPredicateRead id p tm) = Some (ps ++ [p]).
Proof.
  unfold reads_of, recordPredicateRead. intros E. destruct (Nat.eqb_spec id kSystemTransactionId); [done|].
  rewrite E. cbn. by rewrite lookup_insert_eq.
Qed.

Lemma conflicts_app ps qs images :
  predicateConflictsWithInserts (ps ++ qs) images = predicateConflictsWithInserts ps images || predicateConflictsWithInserts qs images.
Proof. apply existsb_app. Qed.

(** Steps that only add predicates. *)
Definition adds (f : TransactionManager → TransactionManager) : Prop :=
  ∀ tm ps, reads_of tm = Some ps → ∃ qs, reads_of (f tm) = Some (ps ++ qs).

Lemma adds_id : adds (λ tm, tm).
Proof. intros tm ps E. exists []. by rewrite app_nil_r. Qed.
Lemma adds_compose f g : adds f → adds g → adds (λ tm, g (f tm)).
Proof.
  intros Hf Hg tm ps E. destruct (Hf tm ps E) as [qs E1]. destruct (Hg _ _ E1) as [rs E2]. exists (qs ++ rs). by rewrite app_assoc.
Qed.
Lemma adds_predicate p : adds (recordPredicateRead id p).
Proof. intros tm ps E. exists [p]. by apply recordPredicateRead_reads. Qed.
Lemma adds_relation r : adds (recordRelationRead id r).
Proof. apply adds_predicate. Qed.
Lemma adds_foldl {A} (f : TransactionManager → A → TransactionManager) l :
  (∀ a, a ∈ l → adds (λ tm, f tm a)) → adds (λ tm, foldl f tm l).
Proof.
  induction l as [|a l IH]; intros Hf; [apply adds_id|]. cbn [foldl]. apply (adds_compose (λ tm, f tm a) (λ tm, foldl f tm l)); [apply Hf; set_solver|].
  apply IH. set_solver.
Qed.

Lemma adds_active f tm : adds f → active_in tm → active_in (f tm).
Proof. intros Hf [ps E]. destruct (Hf tm ps E) as [qs E']. by exists (ps ++ qs). Qed.
Lemma adds_detects f image tm : adds f → detects image tm → detects image (f tm).
Proof.
  intros Hf (ps & E & Hc). destruct (Hf tm ps E) as [qs E']. exists (ps ++ qs). split; [done|]. by rewrite conflicts_app, Hc.
Qed.

Lemma detects_predicate image p tm : active_in tm → insertMatchesPredicate image p = true →
  detects image (recordPredicateRead id p tm).
Proof.
  intros [ps E] Hm. exists (ps ++ [p]). split; [by apply recordPredicateRead_reads|]. rewrite conflicts_app.
  unfold predicateConflictsWithInserts at 2. simpl. by rewrite Hm, !orb_true_r.
Qed.
Lemma detects_relation image tm : active_in tm → detects image (recordRelationRead id (si_relation image) tm).
Proof.
  intros Ha. apply detects_predicate; [done|]. unfold insertMatchesPredicate. cbn. by rewrite String.eqb_refl.
Qed.
Lemma detects_foldl {A} image (f : TransactionManager → A → TransactionManager) l a tm : a ∈ l → active_in tm →
  (∀ b, b ∈ l → adds (λ tm, f tm b)) → (∀ tm, active_in tm → detects image (f tm a)) → detects image (foldl f tm l).
Proof.
  intros Hin Ha Hadds Hf. apply list_elem_of_split in Hin as (l1 & l2 & ->). rewrite foldl_app. cbn [foldl].
  apply (adds_detects (λ tm, foldl f tm l2)); [apply adds_foldl; set_solver|]. apply Hf.
  apply (adds_active (λ tm, foldl f tm l1)); [apply adds_foldl; set_solver|done].
Qed.

Lemma adds_tree r p : adds (recordSsiPredicateFromTree id r p).
Proof.
  induction p as [c op x rhs e o|l IHl q IHq|l IHl q IHq|c vs e o| | | |]; cbn [recordSsiPredicateFromTree];
    try apply adds_relation; try apply adds_predicate.
  - destruct rhs, e; try apply adds_relation; apply adds_predicate.
  - by apply (adds_compose (recordSsiPredicateFromTree id r l) (recordSsiPredicateFromTree id r q)).
  - destruct (negb _); [apply adds_relation|]. by apply (adds_compose (recordSsiPredicateFromTree id r l) (recordSsiPredicateFromTree id r q)).
  - destruct e; [apply adds_relation|]. apply (adds_foldl (λ tm value, recordPredicateRead id (column_read r c Equal value) tm)).
    intros. apply adds_predicate.
Qed.

Lemma adds_node r node : adds (recordSsiBitmapNode id r node).
Proof.
  revert node. fix IH 1. intros [probe|children|children]; cbn [recordSsiBitmapNode].
  - unfold recordSsiProbe. destruct (pr_expression probe); [apply adds_relation|apply adds_predicate].
  - intros tm ps E. revert tm ps E. induction children as [|c cs IHc]; [apply adds_id|]. intros tm ps E. cbn [foldl].
    destruct (IH c tm ps E) as [qs E1]. destruct (IHc _ _ E1) as [rs E2]. exists (qs ++ rs). by rewrite app_assoc.
  - intros tm ps E. revert tm ps E. induction children as [|c cs IHc]; [apply adds_id|]. intros tm ps E. cbn [foldl].
    destruct (IH c tm ps E) as [qs E1]. destruct (IHc _ _ E1) as [rs E2]. exists (qs ++ rs). by rewrite app_assoc.
Qed.

Lemma adds_children r cs : adds (λ tm, foldl (λ tm child, recordSsiBitmapNode id r child tm) tm cs).
Proof. apply (adds_foldl (λ tm child, recordSsiBitmapNode id r child tm)). intros. apply adds_node. Qed.
Lemma adds_predicates r (l : list (string * Value)) :
  adds (λ tm, foldl (λ tm e, recordPredicateRead id (column_read r e.1 Equal e.2) tm) tm l).
Proof. apply (adds_foldl (λ tm e, recordPredicateRead id (column_read r e.1 Equal e.2) tm)). intros. apply adds_predicate. Qed.

Lemma adds_residual r p : adds (record_residual id r p).
Proof. destruct p; [apply adds_tree|apply adds_id]. Qed.
End recorded.

(** ** Rows and predicates *)

Section cover.
Context {S : Type} `{RowStoreLaws S}.
Context (regex : string → string → bool).
Context (i2d : Z → Z) (dadd dsub : Z → Z → Z) (dchars : Z → chars) (llround_out : double → Z).
Abbreviation Table := (Table Select S).
Context (t : Table) (v : VectorRowStore) (scope : string).
Context (Hheap : hinv i2d dadd dsub dchars t v (t_indexManager t)).
Context (bindOuter : Select → Row → Table → string → M TransactionManager Select).
Context (existsRows : Select → M TransactionManager bool) (subqueryValues : Select → M TransactionManager (list Value)).
Context (sub : Pred → Row → bool) (tm0 : TransactionManager) (exprs : list IndexExpression).
Context (id : TransactionId) (Hid : id ≠ kSystemTransactionId).

(** A comparison with a column, an IN list or a LIKE names a column of the table
    without a qualifier. *)
Definition plain_leaf (p : Pred) : Prop :=
  match p with
  | ComparisonPred c _ _ None None _ | InListPred c _ None _ | LikePred c _ _ => is_Some (columnIndex t c)
  | _ => True
  end.

Abbreviation fine := (leaf_fine regex i2d dadd dsub t v scope bindOuter existsRows subqueryValues sub tm0).
Definition plain_fine (p : Pred) : Prop := fine p ∧ plain_leaf p.

(** A row that is inserted, and its image in the transaction manager. *)
Context (row : Row) (cells : list (string * Value)) (Hcells : ssi_columns (t_schema t) row = Ok cells).
Abbreviation image := (mkSsiInsert (t_name t) cells).
Abbreviation ev := (leaf_ev regex i2d dadd dsub t scope sub row).
Abbreviation cmp := (row_cmp i2d dadd dsub t scope row).

Lemma columns_match_cell (sch : Schema) r cs p i y : ssi_columns sch r = Ok cs → findColumn sch (sp_column p) = Some i → r !! i = Some y →
  columns_match cs p = match sp_likePattern p with
                       | Some pattern => match y with VString s => matchLikePattern s pattern | _ => false end
                       | None => match sp_op p, sp_value p with Some op, Some x => compareCell y op x | _, _ => true end
                       end.
Proof.
  revert r cs i. induction sch as [|col sch IH]; intros [|x r] cs i; try done. cbn [ssi_columns findColumn]. intros E.
  inv_result E. injection E as <-. cbn [columns_match].
  destruct (String.eqb_spec (col_name col) (sp_column p)) as [En|En]; cbn [negb]; [by intros [= <-] [= ->]|].
  destruct (findColumn sch (sp_column p)) as [k|]; [|done]. intros [= <-] Hy. by apply (IH r _ k).
Qed.

Lemma compareCell_compareValues y op x : compareCell y op x = compareValues y op x.
Proof. by destruct op. Qed.

Lemma image_matches c i y p : columnIndex t c = Some i → row !! i = Some y → sp_relation p = t_name t → sp_column p = c →
  match sp_likePattern p with
  | Some pattern => match y with VString s => matchLikePattern s pattern | _ => false end
  | None => match sp_op p, sp_value p with Some op, Some x => compareCell y op x | _, _ => true end
  end = true → insertMatchesPredicate image p = true.
Proof.
  intros Hi Hy Hr Hc Hm. unfold insertMatchesPredicate. cbn [si_relation si_columns]. rewrite Hr, String.eqb_refl. cbn [negb].
  destruct (String.eqb (sp_column p) ""); [done|]. rewrite (columns_match_cell _ _ _ p i y Hcells); [done| |done]. by rewrite Hc.
Qed.

Lemma cmp_detects c op x tm : is_Some (columnIndex t c) → active_in id tm → cmp c None op x = true →
  detects id image (recordPredicateRead id (column_read (t_name t) c op x) tm).
Proof.
  intros [i Hi] Ha Hc. rewrite (row_cmp_column _ _ _ _ _ _ _ _ _ _ Hi) in Hc. unfold column_test in Hc.
  destruct (row !! i) as [y|] eqn:Ey; [|done]. apply detects_predicate; [done..|].
  eapply (image_matches c i y); [done..|]. cbn. by rewrite compareCell_compareValues.
Qed.

Lemma in_detects c vs tm : is_Some (columnIndex t c) → active_in id tm → existsb (cmp c None Equal) vs = true →
  detects id image (foldl (λ tm value, recordPredicateRead id (column_read (t_name t) c Equal value) tm) tm vs).
Proof.
  intros Hc Ha (x & Hx%list_elem_of_In & Hcmp)%existsb_exists. eapply (detects_foldl id Hid _ _ vs x); [done|done| |].
  - intros. by apply adds_predicate.
  - intros. by apply cmp_detects.
Qed.

Abbreviation laws := (leaf_laws_row regex i2d dadd dsub t v scope bindOuter existsRows subqueryValues sub tm0 row).

(** A clause that holds of the row is detected once it is recorded. *)
Lemma tree_detects p tm : clause_ok plain_fine exprs p → active_in id tm → holds ev p = true →
  detects id image (recordSsiPredicateFromTree id (t_name t) p tm).
Proof.
  revert tm. induction p as [c op x rhs e o|l IHl q IHq|l IHl q IHq|c vs e o|c s o|s o|c s o|c s o]; intros tm Hp Ha Hh;
    cbn [recordSsiPredicateFromTree]; try (by apply (detects_relation id Hid image)).
  - destruct rhs, e; try (by apply (detects_relation id Hid image)). destruct Hp as (_ & _ & _ & Hc).
    apply cmp_detects; [done..|]. cbn [holds] in Hh. by rewrite (ll_comparison _ _ _ _ _ laws) in Hh.
  - cbn [holds] in Hh. apply andb_prop in Hh as [Hl _]. destruct Hp as [Hpl _].
    apply (adds_detects id (recordSsiPredicateFromTree id (t_name t) q)); [by apply adds_tree|by apply IHl].
  - destruct (negb _); [by apply (detects_relation id Hid image)|]. cbn [holds] in Hh. destruct Hp as [Hpl Hpq].
    apply orb_prop in Hh as [Hh|Hh].
    + apply (adds_detects id (recordSsiPredicateFromTree id (t_name t) q)); [by apply adds_tree|by apply IHl].
    + apply IHq; [done| |done]. apply (adds_active id (recordSsiPredicateFromTree id (t_name t) l)); [by apply adds_tree|done].
  - destruct e; [by apply (detects_relation id Hid image)|]. destruct Hp as (_ & _ & _ & Hc). apply in_detects; [done..|].
    cbn [holds] in Hh. by rewrite (ll_inList _ _ _ _ _ laws) in Hh.
  - destruct Hp as [_ [i Hi]]. cbn [holds leaf_ev is_subquery] in Hh. unfold leaf_ev in Hh. cbn [is_subquery evalPredicate] in Hh.
    unfold match_text, pred_column, total_lookup, row_at in Hh. cbn [mbind result_bind] in Hh.
    rewrite (lookup_column t scope c i Hi) in Hh. destruct (row !! i) as [y|] eqn:Ey; [|done]. cbn in Hh.
    apply detects_predicate; [done..|]. eapply (image_matches c i y); [done..|]. cbn. by destruct y.
Qed.

(** ** Paths *)

Lemma hasIndex_columns cs : hasIndex (t_indexManager t) cs (t_schema t) = Ok true → Forall (λ c, is_Some (columnIndex t c)) cs.
Proof.
  intros Hix. destruct (indexedLookup_scan _ _ _ _ _ _ cs VNull (wf_ok _ _ _ _ _ _ Hheap) (reflects_ok _ _ _ _ _ _ Hheap) I)
    as (r & E & Eh & Hids). rewrite Hix in Eh. injection Eh as Eh. destruct r as [ids|]; [|by vm_compute in Eh].
  destruct (Hids ids eq_refl) as (idxs & Hc & _). eapply Forall2_Forall_r; [exact Hc|]. apply Forall_true.
  intros i c (col & Hcol & <-). exists i. apply findColumn_lookup; [apply (names_ok _ _ _ _ _ _ Hheap)|done].
Qed.
Lemma hasIndex_one c : iv_hasIndex (table_view t) c = Ok true → is_Some (columnIndex t c).
Proof. intros Hix. apply (hasIndex_columns [c]) in Hix. by inversion Hix. Qed.

Abbreviation gram := (row_gram t scope row).
Abbreviation prefix := (row_prefix i2d dadd dsub t scope row).

Lemma probe_detects probe tm : probe_ok exprs (table_view t) probe → active_in id tm → probe_test cmp gram probe = true →
  detects id image (recordSsiProbe id (t_name t) probe tm).
Proof.
  intros [_ Hp] Ha Ht. unfold recordSsiProbe, probe_test in *. destruct (pr_expression probe); [by apply (detects_relation id Hid image)|].
  apply cmp_detects; [by apply hasIndex_one|done..].
Qed.

Lemma node_detects node tm : node_ok exprs (table_view t) node → active_in id tm → node_test cmp gram node = true →
  detects id image (recordSsiBitmapNode id (t_name t) node tm).
Proof.
  revert node tm. fix IH 1. intros [probe|children|children] tm; cbn [node_ok node_test recordSsiBitmapNode].
  - apply probe_detects.
  - intros [Hne Hc] Ha Ht. destruct children as [|c cs]; [done|]. cbn [foldr] in Hc. destruct Hc as [Hc _].
    cbn [forallb] in Ht. apply andb_prop in Ht as [Ht _]. cbn [foldl].
    apply (adds_detects id (λ tm, foldl (λ tm child, recordSsiBitmapNode id (t_name t) child tm) tm cs)).
    + by apply adds_children.
    + by apply IH.
  - intros [_ Hc]. revert tm Hc. induction children as [|c cs IHc]; [done|]. intros tm [Hc Hcs] Ha Ht. cbn [existsb] in Ht.
    cbn [foldl]. apply orb_prop in Ht as [Ht|Ht].
    + apply (adds_detects id (λ tm, foldl (λ tm child, recordSsiBitmapNode id (t_name t) child tm) tm cs)).
      * by apply adds_children.
      * by apply IH.
    + apply IHc; [done| |done]. apply (adds_active id (recordSsiBitmapNode id (t_name t) c)); [by apply adds_node|done].
Qed.

Lemma children_detect children tm : children ≠ [] → Forall (node_ok exprs (table_view t)) children → active_in id tm →
  existsb (node_test cmp gram) children = true →
  detects id image (foldl (λ tm child, recordSsiBitmapNode id (t_name t) child tm) tm children).
Proof.
  intros Hne Hok Ha Ht. apply (node_detects (BN_Union children) tm); [|done..]. split; [done|]. by apply node_ok_children.
Qed.

(** The path records predicates that match the rows it finds; a prefix LIKE leaves
    that to its residual. *)
Lemma path_detects w path tm tm' : path_ok exprs (table_view t) path → active_in id tm →
  (∀ p, w = Some p → clause_ok plain_fine exprs p) → (∀ c x, path ≠ PrefixLikePlan c x) →
  record_path id (t_name t) w path tm = Ok tm' →
  (if path is FullScanPlan then opt_holds ev true w else path_test cmp gram prefix path) = true → detects id image tm'.
Proof.
  intros Hok Ha Hw Hnp E Ht. destruct path as [|c e x cols|c e op x|c e vs|children|children|c s]; cbn [record_path] in E.
  - injection E as <-. destruct w as [p|]; [apply tree_detects; auto|by apply (detects_relation id Hid image)].
  - destruct e as [e|]; [injection E as <-; by apply (detects_relation id Hid image)|]. destruct cols as [|c0 cols].
    + injection E as <-. destruct Hok as [Hix _]. apply cmp_detects; [by apply hasIndex_one|done..].
    + destruct Hok as (_ & Hix & parts & -> & Hlen & Hlen2 & _). cbn [compositeParts mbind result_bind] in E. injection E as <-.
      destruct parts as [|p0 parts]; [simpl in Hlen2; lia|]. cbn [path_test] in Ht. unfold parts_test in Ht. cbn [zip zip_with forallb fst snd] in Ht.
      apply andb_prop in Ht as [Ht _]. cbn [zip zip_with foldl fst snd].
      apply (adds_detects id (λ tm, foldl (λ tm e, recordPredicateRead id (column_read (t_name t) e.1 Equal e.2) tm) tm (zip cols parts))).
      * by apply adds_predicates.
      * apply cmp_detects; [|done..]. apply (hasIndex_columns (c0 :: cols)) in Hix. by inversion Hix.
  - destruct e as [e|]; injection E as <-; [by apply (detects_relation id Hid image)|]. destruct Hok as [Hix _].
    apply cmp_detects; [by apply hasIndex_one|done..].
  - destruct e as [e|]; injection E as <-; [by apply (detects_relation id Hid image)|]. destruct Hok as [Hix _].
    apply in_detects; [by apply hasIndex_one|done..].
  - injection E as <-. destruct Hok as [Hne Hc]. apply children_detect; [done..|]. cbn [path_test] in Ht.
    destruct children as [|c cs]; [done|]. cbn [forallb existsb] in Ht |- *. by apply andb_prop in Ht as [-> _].
  - injection E as <-. destruct Hok as [Hne Hc]. by apply children_detect.
  - by destruct (Hnp c s).
Qed.
End cover.

Lemma path_active id (Hid : id ≠ kSystemTransactionId) r w path tm tm' : record_path id r w path tm = Ok tm' →
  active_in id tm → active_in id tm'.
Proof.
  assert (∀ f, adds id f → Ok (f tm) = Ok tm' → active_in id tm → active_in id tm') as Hadds.
  { intros f Hf [= <-]. by apply adds_active. }
  destruct path as [|c e x cols|c e op x|c e vs|children|children|c s]; cbn [record_path].
  - destruct w as [p|]; [apply (Hadds (recordSsiPredicateFromTree id r p)); by apply adds_tree|apply (Hadds (recordRelationRead id r)); by apply adds_relation].
  - destruct e; [apply (Hadds (recordRelationRead id r)); by apply adds_relation|]. destruct cols as [|c0 cols].
    + apply (Hadds (recordPredicateRead id _)); by apply adds_predicate.
    + destruct (compositeParts x) as [parts|]; [|done]. cbn [mbind result_bind].
      apply (Hadds (λ tm, foldl (λ tm e, recordPredicateRead id (column_read r e.1 Equal e.2) tm) tm (zip (c0 :: cols) parts))). by apply adds_predicates.
  - destruct e; [apply (Hadds (recordRelationRead id r)); by apply adds_relation|]. apply (Hadds (recordPredicateRead id _)); by apply adds_predicate.
  - destruct e; [apply (Hadds (recordRelationRead id r)); by apply adds_relation|].
    apply (Hadds (λ tm, foldl (λ tm value, recordPredicateRead id (column_read r c Equal value) tm) tm vs)).
    apply (adds_foldl id Hid (λ tm value, recordPredicateRead id (column_read r c Equal value) tm)). intros. by apply adds_predicate.
  - apply (Hadds (λ tm, foldl (λ tm child, recordSsiBitmapNode id r child tm) tm children)). by apply adds_children.
  - apply (Hadds (λ tm, foldl (λ tm child, recordSsiBitmapNode id r child tm) tm children)). by apply adds_children.
  - by intros [= <-].
Qed.

(** ** Plans *)

(** The path of a prefix LIKE comes with the LIKE as a residual. *)
Lemma prefix_residual dchars llround_out stats indexes query plan c x :
  planSelect dchars llround_out stats indexes query = Ok plan → qp_path plan = PrefixLikePlan c x → is_Some (residual plan).
Proof.
  unfold planSelect. destruct (sel_where query) as [w|]; [|by intros [= <-]]. intros E Hp. inv_result E. destruct a as [p1|].
  { injection E as ->. unfold tryPlanTopLevelOrUnion in Hr. destruct (rewritten w); try done. inv_result Hr. destruct a as [ix others].
    case_bool_decide; [by injection Hr as <-|]. inv_result Hr. case_bool; [by injection Hr as <-|]. inv_result Hr. by injection Hr as <-. }
  inv_result E. destruct a0 as [p1|].
  { injection E as ->. unfold tryPlanCompositeHashEq in Hr1. case_match; [done|]. inv_result Hr1. destruct a1 as [best|]; [|done].
    inv_result Hr1. by injection Hr1 as <-. }
  inv_result E. destruct a0 as [p1|].
  { injection E as ->. unfold tryPlanAndIntersect in Hr2. inv_result Hr2. case_match; [done|]. inv_result Hr2. case_bool; [done|].
    inv_result Hr2. by injection Hr2 as <-. }
  case_match; [by injection E as <-|]. unfold finalizeBestAccessPath in E. destruct (_ !! bc_bestIndex a) as [chosen|] eqn:Ec; [|done].
  inv_result E. injection E as <-. destruct a0 as [[path text]|]; [|done]. cbn [qp_path] in Hp. subst path.
  assert (keeps_conjunct a = true) as Hk.
  { unfold chosen_path in Hr3. unfold keeps_conjunct. destruct (bc_bestPath a); try done; repeat case_match; try done; by inv_result Hr3. }
  unfold residual. cbn [qp_estimates pe_residual]. unfold remaining_conjuncts. rewrite Hk. destruct (rewritten <$> _); [done|by eexists].
Qed.

Section safe.
Context {S : Type} `{RowStoreLaws S}.
Context (regex : string → string → bool).
Context (i2d : Z → Z) (dadd dsub : Z → Z → Z) (dchars : Z → chars) (llround_out : double → Z).
Abbreviation Table := (Table Select S).
Context (bindOuter : Select → Row → Table → string → M TransactionManager Select).
Context (existsRows : Select → M TransactionManager bool) (subqueryValues : Select → M TransactionManager (list Value)).

(** Every leaf of the clause names its columns without a qualifier. *)
Fixpoint plain_clause (t : Table) (p : Pred) : Prop :=
  match p with
  | AndPred l r | OrPred l r => plain_clause t l ∧ plain_clause t r
  | _ => plain_leaf t p
  end.

Lemma clause_ok_plain t fine exprs p : clause_ok fine exprs p → plain_clause t p → clause_ok (λ p, fine p ∧ plain_leaf t p) exprs p.
Proof. induction p as [c op x rhs e o|l IHl q IHq|l IHl q IHq|c vs e o|c s o|s o|c s o|c s o]; cbn [clause_ok plain_clause]; tauto. Qed.

Lemma plain_laws t v scope sub tm row :
  leaf_laws (leaf_ev regex i2d dadd dsub t scope sub row) (row_cmp i2d dadd dsub t scope row) (row_gram t scope row)
    (row_prefix i2d dadd dsub t scope row) (plain_fine regex i2d dadd dsub t v scope bindOuter existsRows subqueryValues sub tm).
Proof.
  destruct (leaf_laws_row regex i2d dadd dsub t v scope bindOuter existsRows subqueryValues sub tm row) as [H1 H2 H3 H4 H5].
  split; [exact H1|exact H2|exact H3|exact H4|]. intros c x vs e o [Hf Hp]. split; [by eapply H5|]. by destruct e.
Qed.

(** C10: no phantom escapes a scan.  For a table whose indexes, rows and versions
    agree and a query whose clause can be evaluated and names its columns without a
    table name, let [plan] be the plan of the query.  Recording the reads of the scan
    succeeds, and afterwards the recorded predicates of the transaction conflict with
    the image of every row that the scan along the plan would have returned, also of
    rows that do not exist yet; if the plan is one the executor reads as meant, with
    every row that satisfies the WHERE clause.  So a row that would have changed the
    result, inserted or updated by a transaction that commits in between, makes the
    commit of the scanning transaction fail. *)
Theorem scan_reads_cover t v sub tm exprs query plan id : table_ok i2d dadd dsub dchars t v →
  query_ok regex i2d dadd dsub bindOuter existsRows subqueryValues t v sub tm exprs query →
  (∀ p, sel_where query = Some p → plain_clause t p) →
  planSelect_table dchars llround_out query t = Ok plan →
  id ≠ kSystemTransactionId → is_Some (tm_activePredicateReads tm !! id) →
  ∃ tm', recordSsiScanPredicates id (t_name t) (sel_where query) plan tm = (Ok tt, tm') ∧
  ∀ row cells, ssi_columns (t_schema t) row = Ok cells →
    let ev := leaf_ev regex i2d dadd dsub t (query_scope t query) sub row in
    (plan_test ev (row_cmp i2d dadd dsub t (query_scope t query) row) (row_gram t (query_scope t query) row)
       (row_prefix i2d dadd dsub t (query_scope t query) row) (sel_where query) plan = true ∨
     (∀ p, sel_where query = Some p → plan_supported (table_view t) p plan = true ∧ holds ev p = true)) →
    ∃ ps, tm_activePredicateReads tm' !! id = Some ps ∧
      predicateConflictsWithInserts ps [mkSsiInsert (t_name t) cells] = true.
Proof.
  intros [_ [Hheap _]] (He & Hi & Hh & Hw) Hplain Eplan Hid Hact. set (scope := query_scope t query).
  assert (∀ p, sel_where query = Some p → clause_ok (plain_fine regex i2d dadd dsub t v scope bindOuter existsRows subqueryValues sub tm) exprs p) as Hok.
  { intros p Hp. apply clause_ok_plain; [by apply Hw|by apply Hplain]. }
  assert (∀ row, _) as Hsound by (intros row; exact (planSelect_sound _ _ _ _ _ exprs (plain_laws t v scope sub tm row) He dchars llround_out
    (table_stats t) (table_view t) query plan Hok Eplan)).
  destruct (Hsound []) as (Hpath & [Hres Hcomp] & _). unfold recordSsiScanPredicates.
  destruct (record_path_ok t exprs id (t_name t) (sel_where query) _ Hpath tm) as (tm1 & Ep & _). rewrite Ep. eexists. split; [done|].
  intros row cells Hcells Hrow. pose proof (path_active id Hid _ _ _ _ _ Ep Hact) as Hact1.
  set (ev := leaf_ev regex i2d dadd dsub t scope sub row) in *.
  assert (plan_test ev (row_cmp i2d dadd dsub t scope row) (row_gram t scope row) (row_prefix i2d dadd dsub t scope row)
    (sel_where query) plan = true) as Ht.
  { destruct Hrow as [Ht|Hs]; [exact Ht|]. pose proof (proj2 (proj2 (Hsound row))) as Heq. fold ev in Heq.
    rewrite Heq by (intros p Hp; by apply Hs). destruct (sel_where query) as [p|]; [|done]. by apply (Hs p eq_refl). }
  set (image := mkSsiInsert (t_name t) cells).
  pose proof (adds_residual id Hid (t_name t) (residual plan)) as Ar.
  pose proof (adds_residual id Hid (t_name t) (complementaryResidual plan)) as Ac.
  assert (∀ q tm2, clause_ok (plain_fine regex i2d dadd dsub t v scope bindOuter existsRows subqueryValues sub tm) exprs q →
    active_in id tm2 → holds ev q = true → detects id image (recordSsiPredicateFromTree id (t_name t) q tm2)) as Htree.
  { intros. by eapply (tree_detects regex i2d dadd dsub t v scope bindOuter existsRows subqueryValues sub tm exprs id Hid row cells Hcells). }
  assert (opt_holds ev false (complementaryResidual plan) = true →
    detects id image (record_residual id (t_name t) (complementaryResidual plan) (record_residual id (t_name t) (residual plan) tm1))) as Hcd.
  { destruct (complementaryResidual plan) as [q|]; [|done]. intros Hq. apply Htree; [by apply Hcomp|by apply adds_active|done]. }
  assert (∀ b, (b = false ∨ is_Some (residual plan)) → opt_holds ev b (residual plan) = true →
    detects id image (record_residual id (t_name t) (complementaryResidual plan) (record_residual id (t_name t) (residual plan) tm1))) as Hrd.
  { intros b Hb Hq. apply adds_detects; [done|]. destruct (residual plan) as [q|]; [apply Htree; [by apply Hres|done..]|].
    destruct Hb as [->|[? [=]]]. done. }
  assert ((∀ c x, qp_path plan ≠ PrefixLikePlan c x) → (if qp_path plan is FullScanPlan then opt_holds ev true (sel_where query)
      else path_test (row_cmp i2d dadd dsub t scope row) (row_gram t scope row) (row_prefix i2d dadd dsub t scope row) (qp_path plan)) = true →
    detects id image (record_residual id (t_name t) (complementaryResidual plan) (record_residual id (t_name t) (residual plan) tm1))) as Hpd.
  { intros Hnp Hp. apply adds_detects; [done|]. apply adds_detects; [done|].
    exact (path_detects regex i2d dadd dsub dchars t v scope Hheap bindOuter existsRows subqueryValues sub tm exprs id Hid row cells Hcells
      (sel_where query) (qp_path plan) tm tm1 Hpath Hact Hok Hnp Ep Hp). }
  clear Htree. unfold plan_test in Ht. destruct (qp_path plan) as [|c e x cols|c e op x|c e vs|children|children|c x] eqn:Eq.
  - by apply Hpd.
  - apply andb_prop in Ht as [Ht _]. by apply Hpd.
  - apply andb_prop in Ht as [Ht _]. by apply Hpd.
  - apply andb_prop in Ht as [Ht _]. by apply Hpd.
  - apply orb_prop in Ht as [[Ht _]%andb_prop|Ht]; [by apply Hpd|by apply Hcd].
  - apply orb_prop in Ht as [Ht|Ht]; [by apply Hpd|]. by apply (Hrd false); [left|].
  - apply andb_prop in Ht as [_ Ht]. apply (Hrd true); [right|done]. by eapply prefix_residual.
Qed.
End safe.
