(* ===== verification/ScanExamples.v ===== *)
(** * Scans of one table, run

    The table the scans of [SelectScanProof] are run on: instances of the
    equivalence of planned and full scans, of the joins and of the recorded reads, and
    the WHERE clauses for which the scan along the plan returns other rows than the
    clause asks for, or records too little. *)

From S2P Require Import Prelude Value Float64 VectorRowStore StringPattern TransactionManager Mvcc HashIndex BTreeIndex IndexExpression.
From S2P Require Import Predicate SetOps Histogram Selectivity IndexManager IndexManagerProof Table TableProof Database ForeignKeys Ast.
From S2P Require Import Planner JoinPlanner PlannerProof PlannerTotal SelectScan SelectScanProof JoinEngine JoinProof ScanReads.
Local Open Scope nat_scope.

(** ** The table *)

Definition staff_schema : Schema :=
  [mkColumn "id" CT_Int true false false; mkColumn "dept" CT_Int true false false;
   mkColumn "city" CT_Int true false false; mkColumn "flag" CT_Int true false false].
Definition staff_new : Table Select VectorRowStore :=
  mkTable "staff" staff_schema [] [] [] vrs_empty im_empty ∅ [].
Definition staff_row (n : nat) : Row :=
  [VInt (Z.of_nat n); VInt (Z.of_nat (n mod 5)); VInt (Z.of_nat (n / 2)); VInt (Z.of_nat (n mod 3))].
Definition staff_ops : list table_op :=
  [Do_createIndex "by_dept" ["dept"]; Do_createIndex "by_city" ["city"]] ++ ((λ n, Do_insert (staff_row n) 0) <$> seq 0 10).
Definition staff : Table Select VectorRowStore :=
  st_table (run_ops (λ z, z) Z.add Z.sub (λ _, []) staff_ops (mkState staff_new None)).

Lemma staff_names : NoDup (col_name <$> staff_schema).
Proof. apply (bool_decide_unpack _). vm_compute. exact I. Qed.

Lemma staff_ok : table_ok (λ z, z) Z.add Z.sub (λ _, []) staff (t_rowStore staff).
Proof.
  assert (rs_rep vrs_empty vrs_empty) as Hrep by (split; [done|apply vrs_inv_empty]).
  pose proof (Table_new_ok (λ z, z) Z.add Z.sub (λ _, []) vrs_empty "staff" staff_schema ([] : list (Predicate Select)) [] []
    staff_new Hrep eq_refl staff_names) as Hok.
  destruct (run_ops_ok (λ z, z) Z.add Z.sub (λ _, []) staff_new vrs_empty _ staff_ops (table_ok_state _ _ _ _ _ _ None Hok))
    as [v Hs]; [by repeat constructor|].
  destruct (ok_state_table _ _ _ _ _ _ _ Hs) as [Ht _]. pose proof Ht as [[<- _] _]. exact Ht.
Qed.

(** ** Queries *)

Definition now : ReadSnapshot := mkReadSnapshot 0 0.
Definition select_from (name : string) (p : Pred) : Select := mkSelect name [] [SE_Star] (Some p) [] None None [] [] None false.
Definition eq_int (c : string) (n : Z) : Pred := ComparisonPred c Equal (VInt n) None None false.
Definition plan_of (t : Table Select VectorRowStore) (p : Pred) : result QueryPlan :=
  planSelect_table (λ _, []) (λ _, 0%Z) (select_from (t_name t) p) t.
Definition scan_with (t : Table Select VectorRowStore) (p : Pred) (plan : QueryPlan) : result (list nat) :=
  '(entries, _) ← (collectVisibleEntries (λ _ _, false) (λ z, z) Z.add Z.sub (λ s _ _ _, mret s) (λ _, mret false)
    (λ _, mret []) now (select_from (t_name t) p) t plan tm_empty).1;
  Ok (entries.*1).
(** The ids a query's plan returns, and those of the full scan. *)
Definition planned_ids (t : Table Select VectorRowStore) (p : Pred) : result (list nat) :=
  plan ← plan_of t p; scan_with t p plan.
Definition scanned_ids (t : Table Select VectorRowStore) (p : Pred) : result (list nat) := scan_with t p (full_scan no_filters).

(** ** An index scan *)

Lemma staff_store i : vrs_get i (t_rowStore staff) = staff_row <$> seq 0 10 !! i.
Proof.
  assert (vrs_rows (t_rowStore staff) = Some ∘ staff_row <$> seq 0 10) as E by (vm_compute; reflexivity).
  unfold vrs_get, vrs_lookup. rewrite E, list_lookup_fmap. by destruct (seq 0 10 !! i).
Qed.

Lemma staff_live i row : vrs_get i (t_rowStore staff) = Some row → row ∈ staff_row <$> seq 0 10.
Proof.
  rewrite staff_store. intros (n & Hn & ->)%fmap_Some. apply list_elem_of_fmap. exists n. split; [done|].
  by eapply list_elem_of_lookup_2.
Qed.

Lemma staff_visible i : mvcc_read i now tm_empty (t_versions staff) = vrs_get i (t_rowStore staff).
Proof.
  destruct (decide (i < 10)) as [Hi|Hi].
  - do 10 (destruct i as [|i]; [vm_compute; reflexivity|]). lia.
  - rewrite staff_store, lookup_ge_None_2 by (rewrite length_seq; lia). unfold mvcc_read.
    assert (map_Forall (λ i _, i < 10) (t_versions staff)) as Hd by (apply (bool_decide_unpack _); vm_compute; exact I).
    destruct (t_versions staff !! i) as [chain|] eqn:E; [|done]. by apply Hd in E.
Qed.

(** The rows with [dept = 1] and either [city = 3] or [flag = 1]. *)
Definition dept_clause : Pred := AndPred (eq_int "dept" 1) (OrPred (eq_int "city" 3) (eq_int "flag" 1)).

Lemma staff_leaf bind ex vals c n tm : In c ["dept"; "city"; "flag"] →
  leaf_fine (λ _ _, false) (λ z, z) Z.add Z.sub staff (t_rowStore staff) "staff" bind ex vals (λ _ _, false) tm (eq_int c n).
Proof.
  intros Hc i row Hi%staff_live. cbn. apply list_elem_of_fmap in Hi as (k & -> & Hk%elem_of_seq).
  destruct Hc as [<-|[<-|[<-|[]]]]; vm_compute; eauto.
Qed.

Lemma staff_leaf_clause bind ex vals c n tm : In c ["dept"; "city"; "flag"] →
  clause_ok (leaf_fine (λ _ _, false) (λ z, z) Z.add Z.sub staff (t_rowStore staff) "staff" bind ex vals (λ _ _, false) tm) [] (eq_int c n).
Proof. intros Hc. split; [exact I|]. split; [by intros x [=]|]. by apply staff_leaf. Qed.

Lemma dept_clause_ok bind ex vals tm : query_ok (λ _ _, false) (λ z, z) Z.add Z.sub bind ex vals
  staff (t_rowStore staff) (λ _ _, false) tm [] (select_from "staff" dept_clause).
Proof.
  split; [split; [intros e He|intros e e' He]; by apply elem_of_nil in He|].
  split; [intros x e _ He; by apply elem_of_nil in He|].
  split; [assert (t_statistics staff = []) as -> by (vm_compute; reflexivity); intros c h Hh; discriminate Hh|].
  intros p [= <-]. 
  assert (∀ n, scalar (VInt n)) as Hs by (intros n; right; by exists CT_Int).
  split; [split; [|split]|split; [|split]; exact (Hs _)]; apply staff_leaf_clause; simpl; tauto.
Qed.

Lemma planned_scan_exact_witness : ∃ plan children e,
  plan_of staff dept_clause = Ok plan ∧ qp_path plan = IntersectPlan children ∧ complementaryResidual plan = Some e ∧
  planned_ids staff dept_clause = Ok [6; 1] ∧ ∃ es cand tm' scanned cand' tm'',
    collectVisibleEntries (λ _ _, false) (λ z, z) Z.add Z.sub (λ s _ _ _, mret s) (λ _, mret false) (λ _, mret []) now
      (select_from "staff" dept_clause) staff plan tm_empty = (Ok (es, cand), tm') ∧
    collectVisibleEntries (λ _ _, false) (λ z, z) Z.add Z.sub (λ s _ _ _, mret s) (λ _, mret false) (λ _, mret []) now
      (select_from "staff" dept_clause) staff (full_scan no_filters) tm_empty = (Ok (scanned, cand'), tm'') ∧
    es ≡ₚ scanned.
Proof.
  destruct (planned_scan_exact (λ _ _, false) (λ z, z) Z.add Z.sub (λ _, []) (λ _, 0%Z) (λ s _ _ _, mret s)
    (λ _, mret false) (λ _, mret []) staff (t_rowStore staff) (λ _ _, false) now tm_empty [] (select_from "staff" dept_clause)
    staff_ok staff_visible (dept_clause_ok _ _ _ tm_empty)) as (plan & Eplan & Hscan).
  pose proof Eplan as Ep. vm_compute in Ep. injection Ep as <-. eexists _, _, _. split; [exact Eplan|].
  do 2 (split; [reflexivity|]). split; [vm_compute; reflexivity|].
  destruct Hscan as (es & cand & tm1 & scanned & cand2 & tm2 & E1 & _ & E2 & _ & _ & Hp).
  { intros p [= <-]. vm_compute. reflexivity. }
  exists es, cand, tm1, scanned, cand2, tm2. split; [exact E1|]. split; [exact E2|]. apply Hp. vm_compute. reflexivity.
Defined.

(** ** Scans that return other rows *)

(** [(dept = 1 OR city = 2) AND flag = 1]: the union of two indexes with a filter. *)
Definition filtered_union : Pred := AndPred (OrPred (eq_int "dept" 1) (eq_int "city" 2)) (eq_int "flag" 1).
(** [(dept = 1 OR flag = 1) AND (city = 2 OR flag = 2)]: two ORs with one index each. *)
Definition two_partial_ors : Pred :=
  AndPred (OrPred (eq_int "dept" 1) (eq_int "flag" 1)) (OrPred (eq_int "city" 2) (eq_int "flag" 2)).


Definition notes_gram : IndexExpression := mkIndexExpression K_Trigram "body" VNull.
Definition notes : Table Select VectorRowStore :=
  let s0 := mkState (mkTable "notes" [mkColumn "body" CT_String true false false] [] [] [] vrs_empty im_empty ∅ []) None in
  let s1 := (createIndex_expr (λ z, z) Z.add Z.sub "by_gram" notes_gram s0).2 in
  st_table (foldl (λ s x, (Table_insert (λ z, z) Z.add Z.sub (λ _, []) [VString x] 0 s).2) s1
    ["aaaa"; "abc"; "abcd"; "x"; "y"; "z"; "xx"; "yy"; "zzz"]).

(** An index scan can return a row twice or too many rows.  [dept IN (1, 1)]
    looks the value up twice and returns rows 1 and 6 twice.  A trigram index holds a
    row once for each occurrence of a trigram, so [body LIKE '%aaa%'] returns the row
    ['aaaa'] twice.  [(trigram(body)) = 'abc'] is answered by the trigram index with
    every row that contains [abc], while the comparison itself holds of ['abc'] only. *)
Theorem index_scan_repeats_rows :
  planned_ids staff (InListPred "dept" [VInt 1; VInt 1] None false) = Ok [1; 6; 1; 6] ∧
  scanned_ids staff (InListPred "dept" [VInt 1; VInt 1] None false) = Ok [1; 6] ∧
  planned_ids notes (LikePred "body" "%aaa%" false) = Ok [0; 0] ∧
  scanned_ids notes (LikePred "body" "%aaa%" false) = Ok [0] ∧
  planned_ids notes (ComparisonPred "body" Equal (VString "abc") None (Some notes_gram) false) = Ok [1; 2] ∧
  scanned_ids notes (ComparisonPred "body" Equal (VString "abc") None (Some notes_gram) false) = Ok [1].
Proof. do 5 (split; [vm_compute; reflexivity|]). vm_compute. reflexivity. Qed.

(** ** Joins *)

(** [staff LEFT JOIN boss ON staff.id = boss.city JOIN team ON boss.id = team.id
    WHERE staff.flag = 1], where the three tables are [staff]: the first join probes
    the index of [city], the second is a hash join. *)
Definition staff_names_of : list (string * Table Select VectorRowStore) := [("staff", staff); ("boss", staff); ("team", staff)].
Definition staff_join : Select :=
  mkSelect "staff"
    [mkJoinClause "boss" "staff.id" "boss.city" None JK_LeftOuter Equal; mkJoinClause "team" "boss.id" "team.id" None JK_Inner Equal]
    [SE_Star] (Some (eq_int "staff.flag" 1)) [] None None [] [] None false.

Lemma staff_readable : readable (λ z, z) Z.add Z.sub (λ _, []) now tm_empty staff (t_rowStore staff).
Proof.
  split; [exact staff_ok|exact staff_visible| |apply (bool_decide_unpack _); vm_compute; exact I].
  assert (t_statistics staff = []) as -> by (vm_compute; reflexivity). intros c h Hh. discriminate Hh.
Qed.

(** The reference meaning of the two joins. *)
Definition staff_shape (n column : nat) (padLeft : bool) : JoinShape := mkJoinShape (4 * n) 4 column (if padLeft then 2 else 0) padLeft false.
Definition staff_joined : list Row :=
  join_spec (staff_shape 2 4 false) Equal
    (join_spec (staff_shape 1 0 true) Equal (rows_of (t_rowStore staff)) (rows_of (t_rowStore staff))) (rows_of (t_rowStore staff)).

Definition flagged (row : Row) : bool := match row !! 3 with Some (VInt n) => Z.eqb n 1 | _ => false end.

(** Conversion compares the arguments of [evalPredicate] before it evaluates it, and
    unfolds [plan_of] first. *)
#[local] Strategy 100 [evalPredicate].
#[local] Strategy -100 [plan_of].

(** A clause evaluated on each of finitely many rows. *)
Definition agrees (ev : Row → result bool) (f : Row → bool) (row : Row) : bool :=
  match ev row with Ok b => Bool.eqb b (f row) | _ => false end.
Lemma forallb_agrees ev f rows : forallb (agrees ev f) rows = true → ∀ row, row ∈ rows → ev row = Ok (f row).
Proof.
  intros Hall row Hin%list_elem_of_In. rewrite forallb_forall in Hall. specialize (Hall row Hin). unfold agrees in Hall.
  destruct (ev row); try done. apply Bool.eqb_prop in Hall. by subst.
Qed.

Definition staff_join_columns : list string :=
  (qualified_columns "staff" staff ++ qualified_columns "boss" staff) ++ qualified_columns "team" staff.
Definition staff_join_test (row : Row) : result bool :=
  evalPredicate (λ _ _, false) (λ z, z) Z.add Z.sub (eq_int "staff.flag" 1 : Pred) row (resolveResultColumn staff_join_columns).
Lemma staff_join_where : ∀ row, row ∈ staff_joined → staff_join_test row = Ok (flagged row).
Proof. exact (forallb_agrees staff_join_test flagged staff_joined (eq_refl true <: forallb (agrees staff_join_test flagged) staff_joined = true)). Qed.

Lemma staff_source name : In name ["staff"; "boss"; "team"] →
  source (λ z, z) Z.add Z.sub (λ _, []) now tm_empty None staff_names_of name staff (t_rowStore staff).
Proof. intros Hn. split; [|exact staff_readable]. destruct Hn as [<-|[<-|[<-|[]]]]; reflexivity. Qed.

Lemma staff_joined_ok : joined (λ z, z) Z.add Z.sub (λ _, []) now tm_empty None staff_names_of (sel_joins staff_join)
  (qualified_columns "staff" staff) (rows_of (t_rowStore staff)) staff_join_columns staff_joined.
Proof.
  eapply joined_on with (right := staff) (leftColumn := 0) (rightColumn := 2);
    [apply staff_source; simpl; tauto|done|vm_compute; reflexivity|vm_compute; reflexivity|].
  eapply joined_on with (right := staff) (leftColumn := 4) (rightColumn := 0);
    [apply staff_source; simpl; tauto|done|vm_compute; reflexivity|vm_compute; reflexivity|].
  match goal with |- joined _ _ _ _ _ _ _ _ _ ?c ?r _ _ =>
    replace r with staff_joined by (vm_compute; reflexivity); replace c with staff_join_columns by (vm_compute; reflexivity) end.
  generalize staff_join_columns, staff_joined. exact (joined_nil _ _ _ _ _ _ _ _).
Qed.

Lemma staff_where_is : where_is (λ _ _, false) (λ z, z) Z.add Z.sub staff_join staff_join_columns staff_joined flagged.
Proof. unfold where_is. cbn [sel_where staff_join]. intros row Hin. exact (staff_join_where row Hin). Qed.

Lemma collectJoinRows_exact_witness : ∃ out counts tm',
  collectJoinRows (λ _ _, false) (λ z, z) Z.add Z.sub now None staff_join staff_names_of tm_empty =
    (Ok (staff_join_columns, out, counts), tm') ∧
  length out = 4 ∧ counts = [15; 4] ∧ out ≡ₚ filter (λ row, flagged row = true) staff_joined.
Proof.
  destruct (collectJoinRows_exact (λ _ _, false) (λ z, z) Z.add Z.sub (λ _, []) now tm_empty None staff_names_of staff_join
    staff (t_rowStore staff) staff_join_columns staff_joined flagged) as (out & counts & tm' & E & _ & Hp);
    [done|apply staff_source; simpl; tauto|exact staff_joined_ok|exact staff_where_is|].
  exists out, counts, tm'. split; [exact E|].
  assert ((length out, counts) = (4, [15; 4])) as [= -> ->]; [|exact (conj eq_refl (conj eq_refl Hp))].
  clear Hp. vm_compute in E. injection E as <- <- <-. reflexivity.
Defined.

(** ** Recorded reads *)

(** The transaction manager in which the transactions 1 and 2 have begun. *)
Definition two_transactions : TransactionManager := (begin (begin tm_empty).2).2.

Lemma staff_name : t_name staff = "staff".
Proof. vm_compute. reflexivity. Qed.

Lemma dept_clause_plain : plain_clause staff dept_clause.
Proof.
  assert (∀ c, In c ["dept"; "city"; "flag"] → is_Some (columnIndex staff c)) as Hc.
  { intros c [<-|[<-|[<-|[]]]]; vm_compute; eauto. }
  split; [|split]; apply Hc; simpl; tauto.
Qed.
Lemma two_transactions_active : is_Some (tm_activePredicateReads two_transactions !! 1).
Proof. vm_compute. eauto. Qed.
Lemma dept_clause_supported plan : plan_of staff dept_clause = Ok plan → plan_supported (table_view staff) dept_clause plan = true.
Proof. intros E. vm_compute in E. injection E as <-. vm_compute. reflexivity. Qed.

Lemma scan_reads_cover_witness : ∃ plan ps,
  plan_of staff dept_clause = Ok plan ∧
  tm_activePredicateReads (recordSsiScanPredicates 1 "staff" (Some dept_clause) plan two_transactions).2 !! 1 = Some ps ∧
  predicateConflictsWithInserts ps [mkSsiInsert "staff" [("id", VInt 11); ("dept", VInt 1); ("city", VInt 7); ("flag", VInt 1)]] = true.
Proof.
  assert (∃ plan, plan_of staff dept_clause = Ok plan) as [plan Eplan] by (vm_compute; eauto).
  pose proof Eplan as Ep. unfold plan_of in Ep. rewrite staff_name in Ep.
  destruct (scan_reads_cover (λ _ _, false) (λ z, z) Z.add Z.sub (λ _, []) (λ _, 0%Z) (λ s _ _ _, mret s) (λ _, mret false)
    (λ _, mret []) staff (t_rowStore staff) (λ _ _, false) two_transactions [] (select_from "staff" dept_clause) plan 1
    staff_ok (dept_clause_ok _ _ _ two_transactions)) as (tm' & E & Hcover).
  - intros p [= <-]. exact dept_clause_plain.
  - exact Ep.
  - vm_compute. lia.
  - exact two_transactions_active.
  - destruct (Hcover [VInt 11; VInt 1; VInt 7; VInt 1] [("id", VInt 11); ("dept", VInt 1); ("city", VInt 7); ("flag", VInt 1)])
      as (ps & Hps & Hc); [vm_compute; reflexivity| |].
    { right. intros p [= <-]. split; [|vm_compute; reflexivity]. by apply dept_clause_supported. }
    rewrite staff_name in Hc. exists plan, ps. split; [exact Eplan|]. split; [|exact Hc]. rewrite staff_name in E. cbn [select_from sel_where] in E.
    rewrite E. exact Hps.
Defined.

(** *** What is not recorded *)

Definition keeps_predicates {A} (m : M TransactionManager A) : Prop :=
  ∀ tm, tm_activePredicateReads (m tm).2 = tm_activePredicateReads tm.

Lemma predicates_kept_ret {A} (a : A) : keeps_predicates (mret a).
Proof. done. Qed.
Lemma predicates_kept_lift {A} (r : result A) : keeps_predicates (liftM r).
Proof. done. Qed.
Lemma predicates_kept_bind {A B} (m : M TransactionManager A) (f : A → M TransactionManager B) :
  keeps_predicates m → (∀ a, keeps_predicates (f a)) → keeps_predicates (m ≫= f).
Proof.
  intros Hm Hf tm. unfold mbind, M_bind. specialize (Hm tm). destruct (m tm) as [[a|e] tm1]; cbn in *; [by rewrite Hf|done].
Qed.

Lemma keeps_reads self name entries tm :
  tm_activePredicateReads (record_reads self name entries tm) = tm_activePredicateReads tm.
Proof.
  unfold record_reads. revert tm. induction entries as [|e l IH]; intros tm; [done|]. cbn [foldl]. rewrite IH. unfold recordRead.
  by repeat case_match.
Qed.

Section joins_keep.
Context {S : Type} `{RowStore S} (regex : string → string → bool) (i2d : Z → Z) (dadd dsub : Z → Z → Z) (snap : ReadSnapshot).

Lemma keeps_snapshot (t : Table Select S) : keeps_predicates (rowsSnapshotForRead snap t).
Proof. intros tm. apply keeps_reads. Qed.
Lemma keeps_probe_rows (t : Table Select S) column x : keeps_predicates (probe_rows snap t column x).
Proof. apply predicates_kept_bind; [apply predicates_kept_lift|]. intros [ids|]; [intros tm; apply keeps_reads|apply predicates_kept_ret]. Qed.
Lemma keeps_probe_loop (t : Table Select S) column key group rows : keeps_predicates (probe_loop snap t column key group rows).
Proof.
  induction rows as [|row rows IH]; [apply predicates_kept_ret|]. cbn [probe_loop]. apply predicates_kept_bind; [apply predicates_kept_lift|]. intros x.
  apply predicates_kept_bind; [apply keeps_probe_rows|]. intros rs. apply predicates_kept_bind; [apply IH|]. intros. apply predicates_kept_ret.
Qed.

Lemma keeps_join_step first (l r : Table Select S) join columns rows : keeps_predicates (join_step snap first l r join columns rows).
Proof.
  unfold join_step. apply predicates_kept_bind; [destruct first; apply predicates_kept_lift|]. intros plan. case_match.
  { apply predicates_kept_bind; [apply keeps_snapshot|]. intros. apply predicates_kept_ret. }
  apply predicates_kept_bind; [apply predicates_kept_lift|]. intros [i|]; [|done]. case_match; [|done]. unfold join_rows.
  repeat case_match; repeat (apply predicates_kept_bind; [first [apply keeps_snapshot|apply predicates_kept_lift]|intros]);
    first [apply keeps_probe_loop|apply predicates_kept_lift].
Qed.

Lemma keeps_join_loop database (l : Table Select S) joins : ∀ first temps columns rows,
  keeps_predicates (join_loop snap database first l joins temps columns rows).
Proof.
  induction joins as [|join joins IH]; intros first temps columns rows; [apply predicates_kept_ret|]. cbn [join_loop].
  apply predicates_kept_bind; [apply predicates_kept_lift|]. intros r. apply predicates_kept_bind; [apply keeps_join_step|]. intros rs.
  apply predicates_kept_bind; [apply IH|]. intros [result counts]. apply predicates_kept_ret.
Qed.

Lemma keeps_collectJoinRows database query (temps : list (string * Table Select S)) :
  keeps_predicates (collectJoinRows regex i2d dadd dsub snap database query temps).
Proof.
  unfold collectJoinRows. case_match; [done|]. apply predicates_kept_bind; [apply predicates_kept_lift|]. intros l.
  apply predicates_kept_bind; [apply keeps_snapshot|]. intros rows. apply predicates_kept_bind; [apply keeps_join_loop|]. intros [[columns rs] counts].
  case_match; [|apply predicates_kept_ret]. apply predicates_kept_bind; [apply predicates_kept_lift|]. intros. apply predicates_kept_ret.
Qed.
End joins_keep.

(** Transaction 1 reads as [read] does, transaction 2 inserts row 11 and commits, and
    then 1 commits. *)
Definition inserted_row : Row := [VInt 11; VInt 1; VInt 5; VInt 1].
Definition commit_after_phantom (read : TransactionManager → TransactionManager) : result unit :=
  let tm := recordInsert 2 (mkSsiInsert "staff" (zip ["id"; "dept"; "city"; "flag"] inserted_row)) (read two_transactions) in
  (tm_commit 1 (tm_commit 2 tm).2).1.
Definition read_planned (p : Pred) (tm : TransactionManager) : TransactionManager :=
  match plan_of staff p with Ok plan => (recordSsiScanPredicates 1 "staff" (Some p) plan tm).2 | Throw _ => tm end.
Definition read_joined (tm : TransactionManager) : TransactionManager :=
  (collectJoinRows (λ _ _, false) (λ z, z) Z.add Z.sub (mkReadSnapshot 1 0) None staff_join staff_names_of tm).2.

(** C12: some reads escape the conflict detection.  The scan of [dept = 1] is recorded,
    so the transaction cannot commit once another one has committed a row with
    [dept = 1].  The scan of [staff.dept = 1] returns the same rows, but what is
    recorded is a predicate on a column named [staff.dept], which no inserted row has,
    and the transaction commits.  A join never records a predicate, whatever the
    query and the tables: the rows it returned are recorded one by one, and a
    transaction that joins [staff] also commits after the insertion. *)
Theorem reads_unrecorded :
  planned_ids staff (eq_int "staff.dept" 1) = planned_ids staff (eq_int "dept" 1) ∧
  (∃ message, commit_after_phantom (read_planned (eq_int "dept" 1)) = Throw (SerializationFailure message)) ∧
  commit_after_phantom (read_planned (eq_int "staff.dept" 1)) = Ok tt ∧
  commit_after_phantom read_joined = Ok tt ∧
  ∀ (S : Type) (rs : RowStore S) regex i2d dadd dsub snap database query (temps : list (string * Table Select S)) tm,
    tm_activePredicateReads (collectJoinRows regex i2d dadd dsub snap database query temps tm).2 = tm_activePredicateReads tm.
Proof.
  split; [vm_compute; reflexivity|]. split; [vm_compute; by eexists|]. do 2 (split; [vm_compute; reflexivity|]).
  intros. apply keeps_collectJoinRows.
Qed.
