(* ===== verification/SelectResult.v ===== *)
(** * The result of a SELECT

    [src/execution/select_aggregate.cpp], and what comes after the scan in
    [src/execution/select_engine.cpp] and [select_helpers.cpp]: GROUP BY and the
    aggregates, ORDER BY, the projection and LIMIT.

    [std::map<Row, GroupState>] is the sorted association list of [JoinEngine], its
    keys the rows as composite values, which compare as rows do.  The sums of doubles
    are [double_add] and [double_div] on bit patterns; the sum of integers and the
    counts wrap around at 64 bits. *)

From S2P Require Import Prelude Value Float64 VectorRowStore StringPattern TransactionManager Mvcc IndexExpression Predicate SetOps.
From S2P Require Import Histogram IndexManager Table Ast JoinEngine.
Local Open Scope nat_scope.

(** ** Sorting *)

Definition row_before (column : nat) (ascending : bool) (l r : Row) : bool :=
  match l !! column, r !! column with
  | Some a, Some b => if ascending then Value_ltb a b else Value_ltb b a
  | _, _ => false
  end.

(** [std::ranges::sort]: the library leaves the order of equal rows open; here they
    stay in the order they had.  Two rows are compared as soon as there are two. *)
Definition sortRowsByColumn (rows : list Row) (column : nat) (ascending : bool) : result (list Row) :=
  if Nat.leb (length rows) 1 then Ok rows
  else if forallb (λ row, bool_decide (is_Some (row !! column))) rows then Ok (std_sort (row_before column ascending) rows)
  else Throw (out_of_range "vector index out of range").

(** ** Aggregates *)

Section aggregate.
Context (int_to_double : Z → Z) (double_add double_div : Z → Z → Z).

Record AggregateAccumulator : Type := mkAccumulator {
  aa_op : AggregateOp;
  aa_argIndex : nat;
  aa_count : Z;
  aa_hasNumeric : bool;
  aa_isDouble : bool;
  aa_intSum : Z;
  aa_doubleSum : Z;
  aa_minValue : Value;
  aa_maxValue : Value;
  aa_hasMinMax : bool
}.

Definition new_accumulator (op : AggregateOp) (argIndex : nat) : AggregateAccumulator :=
  mkAccumulator op argIndex 0 false false 0 0 VNull VNull false.

Definition with_count (a : AggregateAccumulator) : AggregateAccumulator :=
  mkAccumulator (aa_op a) (aa_argIndex a) (wrap64 (aa_count a + 1)) (aa_hasNumeric a) (aa_isDouble a) (aa_intSum a)
    (aa_doubleSum a) (aa_minValue a) (aa_maxValue a) (aa_hasMinMax a).
Definition with_sum (isDouble : bool) (intSum doubleSum : Z) (a : AggregateAccumulator) : AggregateAccumulator :=
  mkAccumulator (aa_op a) (aa_argIndex a) (aa_count a) true isDouble intSum doubleSum (aa_minValue a) (aa_maxValue a)
    (aa_hasMinMax a).
Definition with_min (v : Value) (a : AggregateAccumulator) : AggregateAccumulator :=
  mkAccumulator (aa_op a) (aa_argIndex a) (aa_count a) (aa_hasNumeric a) (aa_isDouble a) (aa_intSum a) (aa_doubleSum a) v
    (aa_maxValue a) true.
Definition with_max (v : Value) (a : AggregateAccumulator) : AggregateAccumulator :=
  mkAccumulator (aa_op a) (aa_argIndex a) (aa_count a) (aa_hasNumeric a) (aa_isDouble a) (aa_intSum a) (aa_doubleSum a)
    (aa_minValue a) v true.

(** SUM and AVG of a value that is not NULL. *)
Definition observe_sum (value : Value) (a : AggregateAccumulator) : result AggregateAccumulator :=
  let a := with_count a in
  match value with
  | VDouble x =>
      Ok (if negb (aa_hasNumeric a) then with_sum true (aa_intSum a) x a
          else if aa_isDouble a then with_sum true (aa_intSum a) (double_add (aa_doubleSum a) x) a
          else with_sum true (aa_intSum a) (double_add (int_to_double (aa_intSum a)) x) a)
  | VInt x =>
      Ok (if negb (aa_hasNumeric a) then with_sum (aa_isDouble a) x (aa_doubleSum a) a
          else if aa_isDouble a then with_sum true (aa_intSum a) (double_add (aa_doubleSum a) (int_to_double x)) a
          else with_sum false (wrap64 (aa_intSum a + x)) (aa_doubleSum a) a)
  | VString _ => Throw (runtime_error "SUM/AVG require numeric arguments")
  | _ => Value_type value ≫= λ _, Ok a
  end.

Definition accumulator_observe (row : Row) (a : AggregateAccumulator) : result AggregateAccumulator :=
  match aa_op a with
  | AO_CountStar => Ok (with_count a)
  | op =>
      value ← row_at row (aa_argIndex a);
      if isNull value then Ok a
      else
        match op with
        | AO_Sum | AO_Avg => observe_sum value a
        | AO_Min => Ok (if negb (aa_hasMinMax a) || Value_ltb value (aa_minValue a) then with_min value a else a)
        | AO_Max => Ok (if negb (aa_hasMinMax a) || Value_ltb (aa_maxValue a) value then with_max value a else a)
        | _ => Ok (with_count a)
        end
  end.

Definition accumulator_result (a : AggregateAccumulator) : Value :=
  match aa_op a with
  | AO_CountStar | AO_Count => VInt (aa_count a)
  | AO_Sum =>
      if negb (aa_hasNumeric a) then VNull else if aa_isDouble a then VDouble (aa_doubleSum a) else VInt (aa_intSum a)
  | AO_Avg =>
      if Z.eqb (aa_count a) 0 then VNull
      else if aa_isDouble a then VDouble (double_div (aa_doubleSum a) (int_to_double (aa_count a)))
      else VDouble (double_div (int_to_double (aa_intSum a)) (int_to_double (aa_count a)))
  | AO_Min => if aa_hasMinMax a then aa_minValue a else VNull
  | AO_Max => if aa_hasMinMax a then aa_maxValue a else VNull
  end.

(** ** GROUP BY *)

Definition groupByContains (groupBy : list string) (column : string) : bool :=
  existsb (λ entry,
    String.eqb entry column || has_suffix (explode ("." +:+ column)) (explode entry) ||
    (Nat.ltb (String.length entry) (String.length column) && has_suffix (explode ("." +:+ entry)) (explode column))) groupBy.

Definition aggregating (command : Select) : bool :=
  hasAggregates (sel_columns command) || negb (bool_decide (length (sel_groupBy command) = 0)).

Fixpoint validate_columns (groupBy : list string) (columns : list SelectExpr) : result unit :=
  match columns with
  | [] => Ok tt
  | expr :: columns =>
      _ ← match expr with
          | SE_Star => Throw (runtime_error "SELECT * is not allowed with aggregates or GROUP BY")
          | SE_Column column =>
              throw_if (negb (groupByContains groupBy column))
                (runtime_error "selected column must appear in GROUP BY or an aggregate")
          | SE_Aggregate op arg =>
              throw_if (negb (bool_decide (op = AO_CountStar)) && negb (bool_decide (is_Some arg)))
                (runtime_error "aggregate is missing a column argument")
          end;
      validate_columns groupBy columns
  end.

Definition validateAggregation (command : Select) : result unit :=
  if negb (aggregating command) then Ok tt
  else
    _ ← throw_if (isStarProjection (sel_columns command))
          (runtime_error "SELECT * is not allowed with aggregates or GROUP BY");
    validate_columns (sel_groupBy command) (sel_columns command).

Definition required_column (message : string) (sourceColumns : list string) (column : string) : result nat :=
  index ← resolveResultColumn sourceColumns column;
  match index with Some i => Ok i | None => Throw (runtime_error message) end.

Fixpoint group_indices (sourceColumns groupBy : list string) : result (list nat) :=
  match groupBy with
  | [] => Ok []
  | column :: groupBy =>
      i ← required_column "unknown GROUP BY column" sourceColumns column;
      rest ← group_indices sourceColumns groupBy;
      Ok (i :: rest)
  end.

Fixpoint makeAccumulators (sourceColumns : list string) (columns : list SelectExpr) : result (list AggregateAccumulator) :=
  match columns with
  | [] => Ok []
  | SE_Aggregate op arg :: columns =>
      i ← (if bool_decide (op = AO_CountStar) then Ok 0
           else required_column "unknown aggregate column" sourceColumns (default EmptyString arg));
      rest ← makeAccumulators sourceColumns columns;
      Ok (new_accumulator op i :: rest)
  | _ :: columns => makeAccumulators sourceColumns columns
  end.

Record GroupState : Type := mkGroupState {
  gs_key : Row;
  gs_aggregates : list AggregateAccumulator
}.
Abbreviation Groups := (list (Value * GroupState)).

Fixpoint observe_all (row : Row) (accs : list AggregateAccumulator) : result (list AggregateAccumulator) :=
  match accs with
  | [] => Ok []
  | a :: accs => a ← accumulator_observe row a; rest ← observe_all row accs; Ok (a :: rest)
  end.

(** [observe] of [aggregateRows]: a group without aggregates is set up. *)
Definition group_observe (make : result (list AggregateAccumulator)) (groupIndices : list nat) (row : Row) (groups : Groups)
  : result Groups :=
  key ← project_row row groupIndices;
  let group := default (mkGroupState [] []) (map_find Value_ltb (VComposite key) groups) in
  group ← (if bool_decide (length (gs_aggregates group) = 0) then accs ← make; Ok (mkGroupState key accs) else Ok group);
  accs ← observe_all row (gs_aggregates group);
  Ok (map_alter Value_ltb (λ _, mkGroupState (gs_key group) accs) (VComposite key) groups).

Fixpoint group_rows (make : result (list AggregateAccumulator)) (groupIndices : list nat) (rows : list Row) (groups : Groups)
  : result Groups :=
  match rows with
  | [] => Ok groups
  | row :: rows => groups ← group_observe make groupIndices row groups; group_rows make groupIndices rows groups
  end.

(** The place in GROUP BY of a selected column. *)
Fixpoint group_position (groupBy : list string) (column : string) (i : nat) : option nat :=
  match groupBy with
  | [] => None
  | entry :: groupBy =>
      if String.eqb entry column || groupByContains [entry] column || groupByContains [column] entry then Some i
      else group_position groupBy column (S i)
  end.

Fixpoint group_output (groupBy : list string) (key : Row) (columns : list SelectExpr) (accs : list AggregateAccumulator)
  : result Row :=
  match columns with
  | [] => Ok []
  | SE_Column column :: columns =>
      match group_position groupBy column 0 with
      | None => Throw (runtime_error "selected column must appear in GROUP BY or an aggregate")
      | Some i => v ← row_at key i; rest ← group_output groupBy key columns accs; Ok (v :: rest)
      end
  | _ :: columns =>
      match accs with
      | [] => Throw (out_of_range "vector index out of range")
      | a :: accs => rest ← group_output groupBy key columns accs; Ok (accumulator_result a :: rest)
      end
  end.

Fixpoint output_groups (command : Select) (groups : Groups) : result (list Row) :=
  match groups with
  | [] => Ok []
  | (_, g) :: groups =>
      row ← group_output (sel_groupBy command) (gs_key g) (sel_columns command) (gs_aggregates g);
      rest ← output_groups command groups;
      Ok (row :: rest)
  end.

Definition aggregateRows (command : Select) (sourceColumns : list string) (rows : list Row) : result QueryResult :=
  _ ← validateAggregation command;
  groupIndices ← group_indices sourceColumns (sel_groupBy command);
  let make := makeAccumulators sourceColumns (sel_columns command) in
  groups ← (if bool_decide (length rows = 0) && bool_decide (length (sel_groupBy command) = 0)
                && hasAggregates (sel_columns command)
            then accs ← make; Ok [(VComposite [], mkGroupState [] accs)]
            else group_rows make groupIndices rows []);
  out ← output_groups command groups;
  Ok (mkQueryResult true "selected rows" (outputName <$> sel_columns command) out).

(** ** ORDER BY, projection and LIMIT *)

Definition limit_rows (limit : option Z) (rows : list Row) : list Row :=
  match limit with
  | Some n => if Z.ltb n (Z.of_nat (length rows)) then take (Z.to_nat n) rows else rows
  | None => rows
  end.

Definition order_rows (orderBy : option OrderBy) (columns : list string) (rows : list Row) : result (list Row) :=
  match orderBy with
  | None => Ok rows
  | Some o =>
      i ← required_column "unknown ORDER BY column" columns (ob_column o);
      sortRowsByColumn rows i (ob_ascending o)
  end.

Definition applyOrderLimitToResult (r : QueryResult) (command : Select) : result QueryResult :=
  if negb (qr_success r) then Ok r
  else
    rows ← order_rows (sel_orderBy command) (qr_columns r) (qr_rows r);
    Ok (mkQueryResult (qr_success r) (qr_message r) (qr_columns r) (limit_rows (sel_limit command) rows)).

Fixpoint projection_of (sourceColumns : list string) (columns : list SelectExpr) : result (list nat) :=
  match columns with
  | [] => Ok []
  | SE_Column column :: columns =>
      i ← required_column "unknown selected column" sourceColumns column;
      rest ← projection_of sourceColumns columns;
      Ok (i :: rest)
  | _ => Throw (runtime_error "non-aggregate projection expected a column reference")
  end.

(** The positions of the selected columns, and their names. *)
Definition resolveProjectionFromNames (command : Select) (sourceColumns : list string) : result (list nat * list string) :=
  if isStarProjection (sel_columns command) then Ok (seq 0 (length sourceColumns), sourceColumns)
  else
    projection ← projection_of sourceColumns (sel_columns command);
    Ok (projection, map (λ i, default EmptyString (sourceColumns !! i)) projection).

Definition finalizeSelectResult (command : Select) (sourceColumns : list string) (rows : list Row) : result QueryResult :=
  if aggregating command then
    r ← aggregateRows command sourceColumns rows;
    rows ← order_rows (sel_orderBy command) (qr_columns r) (qr_rows r);
    Ok (mkQueryResult (qr_success r) (qr_message r) (qr_columns r) (limit_rows (sel_limit command) rows))
  else
    '(projection, columns) ← resolveProjectionFromNames command sourceColumns;
    rows ← order_rows (sel_orderBy command) sourceColumns rows;
    projectWithLimit rows projection columns (Z.to_nat <$> sel_limit command) "selected rows".
End aggregate.
