(* ===== verification/SelectResultProof.v ===== *)
(** * Groups, aggregates and order

    [aggregateRows] computes, for each group of rows with the same GROUP BY values, the
    aggregates of the rows of the group, and returns the groups in the order of their
    values; [finalizeSelectResult] sorts, projects and cuts off the rows. *)

From S2P Require Import Prelude Value Float64 VectorRowStore StringPattern TransactionManager Mvcc HashIndex BTreeIndex IndexExpression.
From S2P Require Import Predicate SetOps Histogram IndexManager IndexManagerProof Table Ast JoinEngine JoinProof SelectResult.
Local Open Scope nat_scope.

(** ** Sorting *)

Definition in_order (lt : Row → Row → bool) (rows : list Row) : Prop := StronglySorted (λ a b, lt b a = false) rows.

Lemma row_before_asym column ascending a b : row_before column ascending a b = true → row_before column ascending b a = false.
Proof.
  unfold row_before. destruct (a !! column), (b !! column); try done. destruct ascending; apply Value_ltb_asym.
Qed.

(** The rows have a comparable value in the column. *)
Definition sortable (column : nat) (row : Row) : Prop := ∃ x, row !! column = Some x ∧ comparable x.

Lemma row_before_trans column ascending a b c : sortable column a → sortable column b → sortable column c →
  row_before column ascending b a = false → row_before column ascending c b = false → row_before column ascending c a = false.
Proof.
  intros (x & Ex & Hx) (y & Ey & Hy) (z & Ez & Hz). unfold row_before. rewrite Ex, Ey, Ez.
  assert (∀ x y z, comparable x → comparable y → comparable z → Value_ltb y x = false → Value_ltb z y = false → Value_ltb z x = false) as Ht.
  { clear. intros x y z Hx Hy Hz H1 H2. apply not_true_iff_false. intros H3.
    destruct (Value_ltb x y) eqn:E1.
    - rewrite (Value_ltb_trans z x y) in H2; done.
    - pose proof (ltb_neither x y Hx Hy E1 H1) as He. rewrite <- (eqb_ltb_r x y z), H3 in H2; done. }
  destruct ascending; intros H1 H2; [by apply (Ht x y z)|by apply (Ht z y x)].
Qed.

Lemma sortRowsByColumn_ok rows column ascending : Forall (sortable column) rows → ∃ sorted,
  sortRowsByColumn rows column ascending = Ok sorted ∧ sorted ≡ₚ rows ∧ in_order (row_before column ascending) sorted.
Proof.
  intros Hs. unfold sortRowsByColumn. destruct (Nat.leb_spec (length rows) 1).
  - exists rows. split; [done|]. split; [done|]. destruct rows as [|r [|]]; simpl in *; [constructor|by repeat constructor|lia].
  - replace (forallb _ rows) with true.
    + exists (std_sort (row_before column ascending) rows). split; [done|]. split; [apply std_sort_perm|].
      apply (std_sort_sorted _ (sortable column)); [intros; by apply row_before_asym| |done].
      intros a b c Ha Hb Hc. by apply row_before_trans.
    + symmetry. apply forallb_forall. intros r Hr%list_elem_of_In. rewrite Forall_forall in Hs.
      destruct (Hs r Hr) as (x & Ex & _). apply bool_decide_eq_true. by exists x.
Qed.

(** ** Integers at 64 bits *)

Definition int64_range (x : Z) : Prop := (- 2 ^ 63 ≤ x < 2 ^ 63)%Z.

Lemma wrap64_small x : int64_range x → wrap64 x = x.
Proof. unfold int64_range, wrap64. intros. rewrite Z.mod_small; lia. Qed.
Lemma wrap64_add a b : wrap64 (wrap64 a + b) = wrap64 (a + b).
Proof.
  unfold wrap64. f_equal. replace ((a + 2 ^ 63) mod 2 ^ 64 - 2 ^ 63 + b + 2 ^ 63)%Z with ((a + 2 ^ 63) mod 2 ^ 64 + b)%Z by lia.
  rewrite Z.add_mod_idemp_l by lia. f_equal. lia.
Qed.

(** ** What an aggregate of some rows is *)

Section aggregates.
Context (i2d : Z → Z) (dadd ddiv : Z → Z → Z).

(** The values of a column that are not NULL. *)
Definition non_null (column : nat) (rows : list Row) : list Value :=
  filter (λ v, isNull v = false) (omap (λ row, row !! column) rows).

Definition is_double (v : Value) : bool := match v with VDouble _ => true | _ => false end.
Definition numeric (v : Value) : Prop := match v with VInt x => int64_range x | VDouble _ => True | _ => False end.
Definition as_double (v : Value) : Z := match v with VInt x => i2d x | VDouble x => x | _ => 0%Z end.
Definition int_of (v : Value) : Z := match v with VInt x => x | _ => 0%Z end.
Definition int_sum (vs : list Value) : Z := foldr (λ v s, int_of v + s)%Z 0%Z vs.

(** The sum from the first double on; [ints] is the sum of the integers before it. *)
Fixpoint double_sum (ints : option Z) (vs : list Value) : Z :=
  match vs with
  | [] => 0%Z
  | VDouble d :: vs =>
      foldl (λ s v, dadd s (as_double v)) (match ints with None => d | Some p => dadd (i2d (wrap64 p)) d end) vs
  | v :: vs => double_sum (Some (default 0%Z ints + int_of v)%Z) vs
  end.

Definition sum_of (vs : list Value) : Value :=
  match vs with
  | [] => VNull
  | _ => if existsb is_double vs then VDouble (double_sum None vs) else VInt (wrap64 (int_sum vs))
  end.
Definition average_of (vs : list Value) : Value :=
  match vs with
  | [] => VNull
  | _ => VDouble (ddiv (if existsb is_double vs then double_sum None vs else i2d (wrap64 (int_sum vs))) (i2d (Z.of_nat (length vs))))
  end.

(** [v] is a value of [vs] that no other is before; [NULL] when there is none. *)
Definition extreme (before : Value → Value → bool) (vs : list Value) (v : Value) : Prop :=
  match vs with [] => v = VNull | _ => v ∈ vs ∧ Forall (λ x, before x v = false) vs end.

(** The reference meaning of the aggregates. *)
Definition aggregate_is (op : AggregateOp) (column : nat) (rows : list Row) (v : Value) : Prop :=
  match op with
  | AO_CountStar => v = VInt (Z.of_nat (length rows))
  | AO_Count => v = VInt (Z.of_nat (length (non_null column rows)))
  | AO_Sum => v = sum_of (non_null column rows)
  | AO_Avg => v = average_of (non_null column rows)
  | AO_Min => extreme Value_ltb (non_null column rows) v
  | AO_Max => extreme (λ a b, Value_ltb b a) (non_null column rows) v
  end.

(** ** Accumulators *)

Definition sum_tracks (vs : list Value) (a : AggregateAccumulator) : Prop :=
  aa_hasNumeric a = bool_decide (vs ≠ []) ∧ aa_isDouble a = existsb is_double vs ∧
  (if aa_isDouble a then aa_doubleSum a = double_sum None vs else aa_intSum a = wrap64 (int_sum vs)).

Definition tracks (op : AggregateOp) (column : nat) (rows : list Row) (a : AggregateAccumulator) : Prop :=
  aa_op a = op ∧ aa_argIndex a = column ∧
  let vs := non_null column rows in
  match op with
  | AO_CountStar => aa_count a = wrap64 (Z.of_nat (length rows))
  | AO_Count => aa_count a = wrap64 (Z.of_nat (length vs))
  | AO_Sum | AO_Avg => aa_count a = wrap64 (Z.of_nat (length vs)) ∧ sum_tracks vs a
  | AO_Min => aa_hasMinMax a = bool_decide (vs ≠ []) ∧ (aa_hasMinMax a = true → extreme Value_ltb vs (aa_minValue a))
  | AO_Max => aa_hasMinMax a = bool_decide (vs ≠ []) ∧ (aa_hasMinMax a = true → extreme (λ a b, Value_ltb b a) vs (aa_maxValue a))
  end.

(** The rows an aggregate can take: the column is there, its value comparable, and a
    number or NULL under SUM and AVG. *)
Definition aggregable (op : AggregateOp) (column : nat) (row : Row) : Prop :=
  match op with
  | AO_CountStar => True
  | AO_Sum | AO_Avg => ∃ x, row !! column = Some x ∧ comparable x ∧ (isNull x = false → numeric x)
  | _ => ∃ x, row !! column = Some x ∧ comparable x
  end.

Lemma new_tracks op column : tracks op column [] (new_accumulator op column).
Proof. split; [done|]. split; [done|]. by destruct op. Qed.

Lemma non_null_snoc column rows row x : row !! column = Some x →
  non_null column (rows ++ [row]) = if isNull x then non_null column rows else non_null column rows ++ [x].
Proof.
  intros E. unfold non_null. rewrite omap_app, filter_app. simpl. rewrite E. simpl. destruct (isNull x) eqn:En.
  - rewrite filter_cons_False by congruence. apply app_nil_r.
  - by rewrite filter_cons_True.
Qed.

Lemma count_snoc {A} (l : list A) x : wrap64 (wrap64 (Z.of_nat (length l)) + 1) = wrap64 (Z.of_nat (length (l ++ [x]))).
Proof. rewrite wrap64_add, length_app. f_equal. simpl. lia. Qed.

Lemma int_sum_snoc vs x : int_sum (vs ++ [x]) = (int_sum vs + int_of x)%Z.
Proof. induction vs as [|v vs IH]; simpl; [lia|]. rewrite IH. lia. Qed.

Lemma double_sum_snoc vs : ∀ ints x, existsb is_double vs = true →
  double_sum ints (vs ++ [x]) = dadd (double_sum ints vs) (as_double x).
Proof.
  induction vs as [|v vs IH]; intros ints x; [done|]. simpl. destruct v; simpl; try (by intros; apply IH). intros _. by rewrite foldl_app.
Qed.
Lemma double_sum_first vs : ∀ ints d, existsb is_double vs = false →
  double_sum ints (vs ++ [VDouble d]) =
  match vs, ints with
  | [], None => d
  | _, _ => dadd (i2d (wrap64 (default 0%Z ints + int_sum vs))) d
  end.
Proof.
  induction vs as [|v vs IH]; intros ints d.
  { simpl. destruct ints; [|done]. intros _. by rewrite Z.add_0_r. }
  simpl. intros [Hv Hvs]%orb_false_iff.
  assert (double_sum ints (v :: vs ++ [VDouble d]) = double_sum (Some (default 0%Z ints + int_of v)%Z) (vs ++ [VDouble d])) as E by (by destruct v).
  transitivity (double_sum ints (v :: vs ++ [VDouble d])); [done|]. rewrite E, IH by done. cbn [default].
  destruct vs; do 2 f_equal; cbn [int_sum foldr default]; f_equal; unfold id; lia.
Qed.

Lemma existsb_snoc vs x : existsb is_double (vs ++ [x]) = existsb is_double vs || is_double x.
Proof. rewrite existsb_app. simpl. by rewrite orb_false_r. Qed.
Lemma snoc_not_nil {A} (l : list A) x : bool_decide (l ++ [x] ≠ []) = true.
Proof. apply bool_decide_eq_true. by destruct l. Qed.

Lemma observe_sum_tracks vs a x : numeric x → aa_count a = wrap64 (Z.of_nat (length vs)) → sum_tracks vs a →
  ∃ a', observe_sum i2d dadd x a = Ok a' ∧ aa_op a' = aa_op a ∧ aa_argIndex a' = aa_argIndex a ∧
    aa_count a' = wrap64 (Z.of_nat (length (vs ++ [x]))) ∧ sum_tracks (vs ++ [x]) a'.
Proof.
  intros Hx Hc (Hn & Hd & Hs). unfold observe_sum. rewrite <- (count_snoc vs x), <- Hc.
  destruct x; try done; eexists; (split; [done|]); unfold sum_tracks; rewrite snoc_not_nil, existsb_snoc, <- Hd;
    cbn [aa_hasNumeric with_count aa_isDouble]; rewrite Hn; case_bool_decide as Hv; cbn [negb];
    destruct (aa_isDouble a) eqn:Ed; cbn; (do 5 (split; [done|]));
    try (subst vs; try discriminate Hd; try reflexivity); try (rewrite double_sum_snoc by done; by rewrite Hs).
  - by rewrite int_sum_snoc, Hs, wrap64_add.
  - cbn [int_sum foldr app int_of]. rewrite Z.add_0_r. symmetry. by apply wrap64_small.
  - rewrite double_sum_first by done. rewrite Hs. by destruct vs.
Qed.

Lemma extreme_snoc before vs x v (cmp : Value → Prop) :
  (∀ a b c, cmp a → cmp b → cmp c → before b a = false → before c b = false → before c a = false) →
  (∀ a b, before a b = true → before b a = false) → (∀ a, before a a = false) →
  Forall cmp vs → cmp x → vs ≠ [] → extreme before vs v → extreme before (vs ++ [x]) (if before x v then x else v).
Proof.
  intros Ht Ha Hi Hvs Hx Hne He. assert (v ∈ vs ∧ Forall (λ x, before x v = false) vs) as [Hin Hall] by (by destruct vs).
  assert (∀ w, w ∈ vs ++ [x] → Forall (λ y, before y w = false) (vs ++ [x]) → extreme before (vs ++ [x]) w) as Hg by (by destruct vs).
  rewrite Forall_forall in Hvs. destruct (before x v) eqn:E.
  - apply Hg; [set_solver|]. apply Forall_app. split; [|by repeat constructor]. rewrite Forall_forall in Hall. apply Forall_forall.
    intros y Hy. apply (Ht x v y); auto.
  - apply Hg; [set_solver|]. apply Forall_app. split; [done|by repeat constructor].
Qed.

Lemma le_ltb_trans a b c : comparable a → comparable b → comparable c → Value_ltb b a = false → Value_ltb c b = false → Value_ltb c a = false.
Proof.
  intros Ha Hb Hc H1 H2. apply not_true_iff_false. intros H3. destruct (Value_ltb a b) eqn:E.
  - rewrite (Value_ltb_trans c a b) in H2; done.
  - pose proof (ltb_neither a b Ha Hb E H1) as He. rewrite <- (eqb_ltb_r a b c), H3 in H2; done.
Qed.

Lemma non_null_comparable column rows : Forall (λ row, ∃ x, row !! column = Some x ∧ comparable x) rows →
  Forall (λ x, comparable x) (non_null column rows).
Proof.
  intros Hr. apply Forall_forall. intros x [_ (row & Hin & E)%list_elem_of_omap]%list_elem_of_filter. rewrite Forall_forall in Hr.
  destruct (Hr row Hin) as (y & Ey & Hy). congruence.
Qed.

Lemma ge_ltb_trans a b c : comparable a → comparable b → comparable c → Value_ltb a b = false → Value_ltb b c = false → Value_ltb a c = false.
Proof. intros Ha Hb Hc H1 H2. by apply (le_ltb_trans c b a). Qed.

Lemma extreme_step before column rows x (flag : bool) v :
  (∀ a b c, comparable a → comparable b → comparable c → before b a = false → before c b = false → before c a = false) →
  (∀ a b, before a b = true → before b a = false) → (∀ a, before a a = false) →
  Forall (λ row, ∃ x, row !! column = Some x ∧ comparable x) rows → comparable x →
  flag = bool_decide (non_null column rows ≠ []) → (flag = true → extreme before (non_null column rows) v) →
  extreme before (non_null column rows ++ [x]) (if negb flag || before x v then x else v) ∧
  (negb flag || before x v = false → flag = true).
Proof.
  intros Ht Ha Hi Hrows Hx Hf He. split; [|by destruct flag]. destruct flag; cbn [negb orb].
  - apply (extreme_snoc before _ x v (λ v, comparable v)); auto; [by apply non_null_comparable|]. by symmetry in Hf; apply bool_decide_eq_true in Hf.
  - symmetry in Hf. apply bool_decide_eq_false in Hf. destruct (non_null column rows); [|by exfalso; apply Hf].
    split; [set_solver|]. by repeat constructor.
Qed.

(** Observing a row tracks the rows with it. *)
Lemma observe_tracks op column rows row a : tracks op column rows a → Forall (aggregable op column) rows → aggregable op column row →
  ∃ a', accumulator_observe i2d dadd row a = Ok a' ∧ tracks op column (rows ++ [row]) a'.
Proof.
  intros (Ho & Hi & Ht) Hrows Hrow. unfold accumulator_observe. rewrite Ho. unfold tracks.
  destruct op; cbn [aggregable] in *.
  1: { eexists. split; [done|]. split; [done|]. split; [done|]. cbn. by rewrite Ht, (count_snoc rows row). }
  all: destruct Hrow as (x & Ex & Hrow); rewrite Hi; unfold row_at; rewrite Ex, (non_null_snoc column rows row x Ex); cbn [mbind result_bind];
    destruct (isNull x) eqn:En; [by exists a|].
  - eexists. split; [done|]. split; [done|]. split; [done|]. cbn. by rewrite Ht, (count_snoc _ x).
  - destruct Ht as [Hc Hs]. destruct Hrow as [_ Hnum]. destruct (observe_sum_tracks _ _ x (Hnum eq_refl) Hc Hs) as (a' & E & E1 & E2 & H1 & H2).
    exists a'. split; [done|]. split; [congruence|]. split; [congruence|]. done.
  - destruct Ht as [Hc Hs]. destruct Hrow as [_ Hnum]. destruct (observe_sum_tracks _ _ x (Hnum eq_refl) Hc Hs) as (a' & E & E1 & E2 & H1 & H2).
    exists a'. split; [done|]. split; [congruence|]. split; [congruence|]. done.
  - destruct Ht as [Hf Hm]. eexists. split; [done|]. destruct (extreme_step Value_ltb _ _ x _ _ le_ltb_trans Value_ltb_asym
      Value_ltb_irrefl Hrows Hrow Hf Hm) as (Hx & Hflag). split; [by case_match|]. split; [by case_match|].
    rewrite snoc_not_nil. case_match; cbn in *; auto.
  - destruct Ht as [Hf Hm]. eexists. split; [done|]. destruct (extreme_step (λ a b, Value_ltb b a) _ _ x _ _ ge_ltb_trans
      (λ a b, Value_ltb_asym b a) Value_ltb_irrefl Hrows Hrow Hf Hm) as (Hx & Hflag). split; [by case_match|]. split; [by case_match|].
    rewrite snoc_not_nil. case_match; cbn in *; auto.
Qed.

Lemma observe_tracks_all rows row specs : ∀ accs,
  Forall2 (λ spec a, tracks spec.1 spec.2 rows a) specs accs →
  Forall (λ spec, Forall (aggregable spec.1 spec.2) rows ∧ aggregable spec.1 spec.2 row) specs →
  ∃ accs', observe_all i2d dadd row accs = Ok accs' ∧ Forall2 (λ spec a, tracks spec.1 spec.2 (rows ++ [row]) a) specs accs'.
Proof.
  induction specs as [|[op column] specs IH]; intros accs Ha Hs; [apply Forall2_nil_inv_l in Ha as ->; by exists []|].
  apply Forall2_cons_inv_l in Ha as (a & accs1 & Ht & Ha & ->). apply Forall_cons in Hs as [[Hr1 Hr2] Hs].
  destruct (observe_tracks op column rows row a Ht Hr1 Hr2) as (a' & E & Ht'). destruct (IH accs1 Ha Hs) as (accs' & E' & Ha').
  exists (a' :: accs'). cbn [observe_all]. rewrite E. cbn [mbind result_bind]. rewrite E'. split; [done|]. by constructor.
Qed.

(** An accumulator that tracks some rows returns their aggregate. *)
Lemma tracks_result op column rows a : tracks op column rows a → (Z.of_nat (length rows) < 2 ^ 63)%Z →
  aggregate_is op column rows (accumulator_result i2d ddiv a).
Proof.
  intros (Ho & _ & Ht) Hlen. assert (length (non_null column rows) ≤ length rows) as Hle.
  { unfold non_null. etransitivity; [apply length_filter|]. clear. induction rows as [|r rows IH]; simpl; [done|].
    unfold omap in IH. case_match; cbn [length]; lia. }
  assert (∀ n, n ≤ length rows → wrap64 (Z.of_nat n) = Z.of_nat n) as Hw by (intros; apply wrap64_small; unfold int64_range; lia).
  unfold accumulator_result, aggregate_is. rewrite Ho. destruct op.
  - by rewrite Ht, Hw.
  - by rewrite Ht, Hw.
  - destruct Ht as (_ & Hn & Hd & Hs). rewrite Hn. unfold sum_of. destruct (non_null column rows); [done|]. cbn [negb bool_decide].
    rewrite bool_decide_true by done. cbn [negb]. rewrite <- Hd. by destruct (aa_isDouble a); rewrite Hs.
  - destruct Ht as (Hc & _ & Hd & Hs). rewrite Hc, Hw by done. unfold average_of. destruct (non_null column rows) as [|x vs]; [done|].
    rewrite <- Hd. destruct (Z.eqb_spec (Z.of_nat (length (x :: vs))) 0); [simpl in *; lia|]. by destruct (aa_isDouble a); rewrite Hs.
  - destruct Ht as [Hf Hm]. destruct (aa_hasMinMax a); [by apply Hm|]. symmetry in Hf. apply bool_decide_eq_false in Hf.
    destruct (non_null column rows); [done|]. by exfalso; apply Hf.
  - destruct Ht as [Hf Hm]. destruct (aa_hasMinMax a); [by apply Hm|]. symmetry in Hf. apply bool_decide_eq_false in Hf.
    destruct (non_null column rows); [done|]. by exfalso; apply Hf.
Qed.
End aggregates.

(** ** Groups *)

Section ordered_groups.
Context {V : Type}.
Implicit Types m : list (Value * V).

Lemma map_find_spec k m : map_sorted m → comparable k →
  match map_find Value_ltb k m with
  | Some v => ∃ a, (a, v) ∈ m ∧ Value_eqb a k = true
  | None => ∀ a v, (a, v) ∈ m → Value_eqb a k = false
  end.
Proof.
  intros Hm Hk. induction m as [|[a v] m IH]; cbn [map_find]; [intros a v H; by apply elem_of_nil in H|].
  apply map_sorted_cons in Hm as (Ha & Hlt & Hm). specialize (IH Hm). destruct (Value_ltb k a) eqn:E1; [|destruct (Value_ltb a k) eqn:E2].
  - intros b w Hin. apply not_true_iff_false. intros He.
    assert (Value_ltb k b = true ∧ comparable b) as [Hb Hcb].
    { apply elem_of_cons in Hin as [[= -> ->]|Hin]; [done|]. assert (b ∈ m.*1) as Hb by (apply list_elem_of_fmap; by exists (b, w)).
      destruct Hm as [Hcm _]. rewrite Forall_forall in Hlt, Hcm. split; [|auto]. by apply (Value_ltb_trans k a b); auto. }
    destruct (eqb_ltb b k Hcb Hk He). congruence.
  - destruct (map_find Value_ltb k m).
    + destruct IH as (b & Hb & He). exists b. split; [by apply elem_of_cons; right|done].
    + intros b w [[= -> ->]|Hin]%elem_of_cons; [|by eapply IH]. apply not_true_iff_false. intros He. destruct (eqb_ltb a k Ha Hk He). congruence.
  - exists a. split; [by apply elem_of_cons; left|]. by apply ltb_neither.
Qed.

Lemma map_alter_elem v k m b w : map_sorted m → comparable k →
  (b, w) ∈ map_alter Value_ltb (λ _, v) k m ↔
  (w = v ∧ (b = k ∧ (∀ a x, (a, x) ∈ m → Value_eqb a k = false) ∨ (∃ x, (b, x) ∈ m) ∧ Value_eqb b k = true)) ∨
  ((b, w) ∈ m ∧ Value_eqb b k = false).
Proof.
  intros Hm Hk. induction m as [|[a x] m IH]; cbn [map_alter] in *.
  { rewrite list_elem_of_singleton. split; [intros [= -> ->]; left; split; [done|]; left; split; [done|]; intros ? ? H; by apply elem_of_nil in H|].
    intros [[-> [[-> _]|[[? H%elem_of_nil] _]]]|[H%elem_of_nil _]]; done. }
  pose proof (map_find_spec k _ Hm Hk) as Hf. cbn [map_find] in Hf. apply map_sorted_cons in Hm as (Ha & Hlt & Hm). specialize (IH Hm).
  destruct (Value_ltb k a) eqn:E1; [|destruct (Value_ltb a k) eqn:E2].
  - rewrite elem_of_cons. split.
    + intros [[= -> ->]|Hin]; [left; split; [done|]; by left|]. right. split; [done|]. by eapply Hf.
    + intros [[-> [[-> _]|[[y Hy] He]]]|[Hin _]]; [by left| |by right]. rewrite (Hf _ _ Hy) in He. done.
  - assert (Value_eqb a k = false) as Eak.
    { apply not_true_iff_false. intros He. destruct (eqb_ltb a k Ha Hk He). congruence. }
    rewrite elem_of_cons, IH. split.
    + intros [[= -> ->]|[[-> [[-> Hn]|[[y Hy] He]]]|[Hin He]]].
      * right. split; [by apply elem_of_cons; left|done].
      * left. split; [done|]. left. split; [done|]. intros c y [[= -> ->]|Hc]%elem_of_cons; [done|by eapply Hn].
      * left. split; [done|]. right. split; [|done]. exists y. by apply elem_of_cons; right.
      * right. split; [by apply elem_of_cons; right|done].
    + intros [[-> [[-> Hn]|[[y [[= -> ->]|Hy]%elem_of_cons] He]]]|[[[= -> ->]|Hin]%elem_of_cons He]]; try congruence; auto.
      * right. left. split; [done|]. left. split; [done|]. intros c y Hc. apply (Hn c y). by apply elem_of_cons; right.
      * right. left. split; [done|]. right. split; [by exists y|done].
  - assert (Value_eqb a k = true) as Eak by (by apply ltb_neither).
    assert (∀ c y, (c, y) ∈ m → Value_eqb c k = false) as Hrest.
    { intros c y Hc. assert (c ∈ m.*1) as Hin by (apply list_elem_of_fmap; by exists (c, y)).
      destruct Hm as [Hcm _]. rewrite Forall_forall in Hlt, Hcm. specialize (Hlt c Hin). specialize (Hcm c Hin).
      apply not_true_iff_false. intros He. destruct (eqb_ltb c k Hcm Hk He) as [_ Hkc].
      rewrite <- (eqb_ltb_l a k c) in Hkc by done. congruence. }
    rewrite elem_of_cons. split.
    + intros [[= -> ->]|Hin]; [left; split; [done|]; right; split; [by exists x; apply elem_of_cons; left|done]|].
      right. split; [by apply elem_of_cons; right|by eapply Hrest].
    + intros [[-> [[-> Hn]|[[y [[= -> ->]|Hy]%elem_of_cons] He]]]|[[[= -> ->]|Hin]%elem_of_cons He]]; auto.
      * rewrite (Hn a x) in Eak by (by apply elem_of_cons; left). done.
      * rewrite (Hrest _ _ Hy) in He. done.
      * congruence.
Qed.
End ordered_groups.

(** *** Rows of a group *)

Definition key_of (indices : list nat) (row : Row) : Row := omap (λ i, row !! i) indices.
Definition group_of (indices : list nat) (rows : list Row) (key : Row) : list Row :=
  filter (λ row, row_eqb key (key_of indices row) = true) rows.

Lemma project_row_ok width row indices : row_fits width row → Forall (λ i, i < width) indices →
  project_row row indices = Ok (key_of indices row) ∧ row_ok (key_of indices row) ∧ length (key_of indices row) = length indices.
Proof.
  intros [Hlen Hc]. induction indices as [|i indices IH]; intros Hi; [done|]. apply Forall_cons in Hi as [Hi Hs].
  destruct (lookup_lt_is_Some_2 row i) as [x Ex]; [lia|]. destruct (IH Hs) as (E & Hk & Hl). unfold key_of. simpl. rewrite Ex, E.
  split; [done|]. split; [|simpl; by f_equal]. unfold row_ok in *. simpl in *. rewrite Forall_forall in Hc.
  apply andb_prop_intro. split; [|exact Hk]. apply Hc. by eapply list_elem_of_lookup_2.
Qed.

Lemma group_of_app indices rows row key : group_of indices (rows ++ [row]) key =
  if row_eqb key (key_of indices row) then group_of indices rows key ++ [row] else group_of indices rows key.
Proof.
  unfold group_of. rewrite filter_app. destruct (row_eqb key (key_of indices row)) eqn:E.
  - by rewrite (filter_cons_True _ row []).
  - rewrite (filter_cons_False _ row []) by congruence. apply app_nil_r.
Qed.

Section grouping.
Context (i2d : Z → Z) (dadd ddiv : Z → Z → Z).
Context (width : nat) (indices : list nat) (specs : list (AggregateOp * nat)).
Context (Hindices : Forall (λ i, i < width) indices).
Abbreviation key := (key_of indices).

Definition fresh_accumulators : list AggregateAccumulator := (λ spec, new_accumulator spec.1 spec.2) <$> specs.
Definition usable (row : Row) : Prop := row_fits width row ∧ Forall (λ spec, aggregable spec.1 spec.2 row) specs.

Record groups_track (done : list Row) (groups : list (Value * GroupState)) : Prop := {
  gt_sorted : map_sorted groups;
  gt_groups k g : (k, g) ∈ groups → ∃ k', k = VComposite k' ∧ row_ok k' ∧ row_eqb k' (gs_key g) = true ∧
    (∃ row, row ∈ done ∧ gs_key g = key row) ∧
    Forall2 (λ spec a, tracks i2d dadd spec.1 spec.2 (group_of indices done k') a) specs (gs_aggregates g);
  gt_cover row : row ∈ done → ∃ k g, (k, g) ∈ groups ∧ Value_eqb k (VComposite (key row)) = true
}.

Lemma fresh_track : Forall2 (λ spec a, tracks i2d dadd spec.1 spec.2 [] a) specs fresh_accumulators.
Proof. apply Forall2_fmap_r, Forall_Forall2_diag, Forall_true. intros [op column]. apply new_tracks. Qed.

Lemma group_of_nil done k : (∀ row, row ∈ done → row_eqb k (key row) = false) → group_of indices done k = [].
Proof.
  intros Hn. unfold group_of. induction done as [|r done IH]; [done|]. rewrite filter_cons_False.
  - apply IH. intros. apply Hn. by apply elem_of_cons; right.
  - rewrite (Hn r) by (by apply elem_of_cons; left). done.
Qed.

Lemma group_of_eqb done a b : row_ok a → row_ok b → Forall (λ row, row_ok (key row)) done → row_eqb a b = true →
  group_of indices done a = group_of indices done b.
Proof.
  intros Ha Hb Hd E. unfold group_of. induction Hd as [|r done Hr Hd IH]; [done|].
  rewrite !(filter_test (λ r, row_eqb _ (key r))). rewrite (row_eqb_trans a b (key r)) by done. by rewrite IH.
Qed.

Lemma observe_track done groups row : groups_track done groups → Forall usable done → usable row →
  ∃ groups', group_observe i2d dadd (Ok fresh_accumulators) indices row groups = Ok groups' ∧ groups_track (done ++ [row]) groups'.
Proof.
  intros [Hs Hg Hc] Hd [Hfit Hrow]. destruct (project_row_ok width row indices Hfit Hindices) as (Ep & Hk & _).
  assert (Forall (λ r, row_ok (key r)) done) as Hok.
  { eapply Forall_impl; [exact Hd|]. intros r [Hf _]. by apply (project_row_ok width r indices Hf Hindices). }
  unfold group_observe. rewrite Ep. cbn [mbind result_bind].
  set (group := default (mkGroupState [] []) (map_find Value_ltb (VComposite (key row)) groups)).
  pose proof (map_find_spec (VComposite (key row)) groups Hs Hk) as Hf.
  assert (Forall2 (λ spec a, tracks i2d dadd spec.1 spec.2 (group_of indices done (key row)) a) specs
    (if bool_decide (length (gs_aggregates group) = 0) then fresh_accumulators else gs_aggregates group) ∧
    (bool_decide (length (gs_aggregates group) = 0) = false → ∃ r, r ∈ done ∧ gs_key group = key r ∧ row_eqb (key row) (gs_key group) = true))
    as [Hacc Hkey].
  { destruct (map_find Value_ltb (VComposite (key row)) groups) as [g|] eqn:Ef; subst group; cbn [default] in *.
    - destruct Hf as (a & Hin & He). destruct (Hg a g Hin) as (k' & -> & Hk' & Hgk & (r & Hr & Er) & Ht).
      assert (row_eqb k' (key row) = true) as He' by (by rewrite row_eqb_composite).
      rewrite <- (group_of_eqb done k' (key row)) by done. split.
      + case_bool_decide as Hl; [|done]. apply nil_length_inv in Hl. unfold id in Hl. rewrite Hl in Ht.
        apply Forall2_nil_inv_r in Ht as Es. unfold fresh_accumulators. rewrite Es. constructor.
      + intros _. exists r. split; [done|]. split; [done|]. unfold id. rewrite Er in *. rewrite Forall_forall in Hok.
        by rewrite <- (row_eqb_trans k' (key row) (key r)) by auto.
    - rewrite bool_decide_true by done. split; [|done]. rewrite group_of_nil; [exact fresh_track|]. intros r Hr.
      destruct (Hc r Hr) as (k & g & Hin & He). pose proof (Hf k g Hin) as Hn. destruct (Hg k g Hin) as (k' & -> & Hk' & _).
      rewrite Forall_forall in Hok. rewrite <- !row_eqb_composite in *. apply not_true_iff_false. intros Hc'.
      rewrite (row_eqb_trans_r (key row) (key r) k'), He in Hn by auto. done. }
  assert (∃ g, (if bool_decide (length (gs_aggregates group) = 0) then accs ← Ok fresh_accumulators; Ok (mkGroupState (key row) accs) else Ok group)
      = Ok g ∧ Forall2 (λ spec a, tracks i2d dadd spec.1 spec.2 (group_of indices done (key row)) a) specs (gs_aggregates g) ∧
      ∃ r, r ∈ done ++ [row] ∧ gs_key g = key r ∧ row_eqb (key row) (gs_key g) = true) as (g & Eg & Hga & r & Hr & Egk & Hgk).
  { case_bool_decide; eexists; (split; [done|]); cbn [gs_aggregates gs_key]; (split; [exact Hacc|]).
    - exists row. split; [set_solver|]. split; [done|]. by apply row_eqb_refl.
    - destruct (Hkey eq_refl) as (r & Hr & E & He). exists r. split; [set_solver|]. done. }
  cbn [mbind result_bind] in Eg. rewrite Eg. cbn [mbind result_bind].
  destruct (observe_tracks_all i2d dadd (group_of indices done (key row)) row specs _ Hga) as (accs & Ea & Ht).
  { apply Forall_forall. intros s Hin. rewrite Forall_forall in Hrow. split; [|auto]. apply Forall_forall. intros x [_ Hx]%list_elem_of_filter.
    rewrite Forall_forall in Hd. destruct (Hd x Hx) as [_ Hu]. rewrite Forall_forall in Hu. auto. }
  rewrite Ea. cbn [mbind result_bind]. eexists. split; [done|]. split.
  - by apply map_alter_sorted.
  - intros k g' Hin. apply map_alter_elem in Hin; [|done..]. destruct Hin as [[-> Hin]|[Hin Hne]].
    + assert (∃ k', k = VComposite k' ∧ row_ok k' ∧ row_eqb k' (key row) = true) as (k' & -> & Hk' & He).
      { destruct Hin as [[-> _]|[[x Hx] He]]; [exists (key row); split; [done|]; split; [done|by apply row_eqb_refl]|].
        destruct (Hg k x Hx) as (k' & -> & Hk' & _). exists k'. by rewrite row_eqb_composite. }
      exists k'. split; [done|]. split; [done|]. cbn [gs_key gs_aggregates]. assert (row_ok (gs_key g)) as Hgo.
      { rewrite Egk. apply elem_of_app in Hr as [Hr| ->%list_elem_of_singleton]; [|done]. rewrite Forall_forall in Hok. auto. }
      split; [by rewrite (row_eqb_trans k' (key row))|]. split; [by exists r|].
      rewrite group_of_app, He. by rewrite (group_of_eqb done k' (key row)).
    + destruct (Hg k g' Hin) as (k' & -> & Hk' & Hgk' & (r' & Hr' & Er') & Ht'). exists k'. split; [done|]. split; [done|]. split; [done|].
      split; [exists r'; split; [set_solver|done]|]. rewrite group_of_app. rewrite <- row_eqb_composite in Hne. by rewrite Hne.
  - intros x Hx. assert (row_ok (key x) ∧ ∃ k g', (k, g') ∈ map_alter Value_ltb (λ _, mkGroupState (gs_key g) accs) (VComposite (key row)) groups ∧
      Value_eqb k (VComposite (key x)) = true) as [_ ?]; [|done].
    assert (∀ k g', (k, g') ∈ groups → Value_eqb k (VComposite (key row)) = true →
      (k, mkGroupState (gs_key g) accs) ∈ map_alter Value_ltb (λ _, mkGroupState (gs_key g) accs) (VComposite (key row)) groups) as Hin.
    { intros k g' Hi He. apply map_alter_elem; [done..|]. left. split; [done|]. right. split; [by exists g'|done]. }
    apply elem_of_app in Hx as [Hx| ->%list_elem_of_singleton].
    + split; [rewrite Forall_forall in Hok; auto|]. destruct (Hc x Hx) as (k & g' & Hi & He).
      destruct (Value_eqb k (VComposite (key row))) eqn:E; [exists k; eexists; split; [by eapply Hin|done]|].
      exists k, g'. split; [|done]. apply map_alter_elem; [done..|]. by right.
    + split; [done|]. destruct (map_find Value_ltb (VComposite (key row)) groups) as [g0|].
      * destruct Hf as (a & Hi & He). exists a. eexists. split; [by eapply Hin|done].
      * eexists _, _. split; [apply map_alter_elem; [done..|]; left; split; [done|]; left; split; [done|exact Hf]|].
        apply (row_eqb_refl _ Hk).
Qed.

Lemma group_rows_track rows : ∀ done groups, groups_track done groups → Forall usable done → Forall usable rows →
  ∃ groups', group_rows i2d dadd (Ok fresh_accumulators) indices rows groups = Ok groups' ∧ groups_track (done ++ rows) groups'.
Proof.
  induction rows as [|row rows IH]; intros done groups Hg Hd Hr; [exists groups; by rewrite app_nil_r|].
  apply Forall_cons in Hr as [Hrow Hr]. destruct (observe_track done groups row Hg Hd Hrow) as (groups1 & E & H1).
  destruct (IH (done ++ [row]) groups1 H1) as (groups' & E' & H2); [apply Forall_app; split; [done|by constructor]|done|]. exists groups'. cbn [group_rows]. rewrite E.
  cbn [mbind result_bind]. split; [done|]. by rewrite <- app_assoc in H2.
Qed.
End grouping.

(** ** The rows of the result *)

Section result_rows.
Context (i2d : Z → Z) (dadd ddiv : Z → Z → Z).

(** What a selected expression is for a group. *)
Definition expression_is (groupBy sourceColumns : list string) (key : Row) (group : list Row) (expr : SelectExpr) (v : Value) : Prop :=
  match expr with
  | SE_Star => False
  | SE_Column column => ∃ i, group_position groupBy column 0 = Some i ∧ key !! i = Some v
  | SE_Aggregate op arg => ∃ column,
      (op ≠ AO_CountStar → resolveResultColumn sourceColumns (default EmptyString arg) = Ok (Some column)) ∧
      aggregate_is i2d dadd ddiv op column group v
  end.

(** The aggregates of the select list can be computed on the rows. *)
Definition aggregates_ok (sourceColumns : list string) (columns : list SelectExpr) (rows : list Row) : Prop :=
  ∀ op arg, SE_Aggregate op arg ∈ columns → ∃ column,
    (op ≠ AO_CountStar → resolveResultColumn sourceColumns (default EmptyString arg) = Ok (Some column)) ∧
    Forall (aggregable op column) rows.

Definition spec_is (sourceColumns : list string) (expr : SelectExpr) (spec : AggregateOp * nat) : Prop :=
  match expr with
  | SE_Aggregate op arg => spec.1 = op ∧ (op ≠ AO_CountStar → resolveResultColumn sourceColumns (default EmptyString arg) = Ok (Some spec.2))
  | _ => False
  end.

Definition is_aggregate (expr : SelectExpr) : bool := match expr with SE_Aggregate _ _ => true | _ => false end.

Lemma makeAccumulators_ok sourceColumns columns rows : aggregates_ok sourceColumns columns rows → ∃ specs,
  makeAccumulators sourceColumns columns = Ok (fresh_accumulators specs) ∧
  Forall2 (spec_is sourceColumns) (filter (λ e, is_aggregate e = true) columns) specs ∧
  Forall (λ row, Forall (λ spec, aggregable spec.1 spec.2 row) specs) rows.
Proof.
  induction columns as [|expr columns IH]; intros Ha.
  { exists []. split; [done|]. split; [constructor|]. apply Forall_forall. by constructor. }
  destruct IH as (specs & E & Hs & Hr); [intros op arg Hin; apply Ha; by apply elem_of_cons; right|]. rewrite (filter_test is_aggregate).
  destruct expr as [|c|op arg]; cbn [is_aggregate makeAccumulators]; [by exists specs..|].
  destruct (Ha op arg) as (column & Hc & Hrows); [by apply elem_of_cons; left|].
  assert (∃ i, (if bool_decide (op = AO_CountStar) then Ok 0 else required_column "unknown aggregate column" sourceColumns (default EmptyString arg)) = Ok i ∧
    spec_is sourceColumns (SE_Aggregate op arg) (op, i) ∧ Forall (aggregable op i) rows) as (i & Ei & Hi & Hri).
  { case_bool_decide as Ho.
    - subst op. exists 0. split; [done|]. split; [by split|]. by apply Forall_true.
    - exists column. unfold required_column. rewrite Hc by done. done. }
  rewrite Ei. cbn [mbind result_bind]. rewrite E. exists ((op, i) :: specs). split; [done|]. split; [by constructor|].
  rewrite Forall_forall in *. intros row Hrow. constructor; [by apply Hri|by apply Hr].
Qed.

Lemma groupByContains_position groupBy column : groupByContains groupBy column = true → ∀ n,
  ∃ i, group_position groupBy column n = Some i ∧ n ≤ i < n + length groupBy.
Proof.
  induction groupBy as [|entry groupBy IH]; intros Hc n; [done|]. cbn [group_position]. destruct (_ || _ || _) eqn:E.
  - exists n. split; [done|]. simpl. lia.
  - unfold groupByContains in *. cbn [existsb] in *. apply orb_false_elim in E as [[_ E]%orb_false_elim _]. rewrite orb_false_r in E.
    rewrite E in Hc. destruct (IH Hc (S n)) as (i & -> & Hi). exists i. split; [done|]. simpl. lia.
Qed.

Lemma group_output_ok groupBy sourceColumns key group columns : ∀ specs accs,
  validate_columns groupBy columns = Ok tt → length key = length groupBy →
  Forall2 (spec_is sourceColumns) (filter (λ e, is_aggregate e = true) columns) specs →
  Forall2 (λ spec a, tracks i2d dadd spec.1 spec.2 group a) specs accs → (Z.of_nat (length group) < 2 ^ 63)%Z →
  ∃ out, group_output i2d ddiv groupBy key columns accs = Ok out ∧ Forall2 (expression_is groupBy sourceColumns key group) columns out.
Proof.
  induction columns as [|expr columns IH]; intros specs accs Hv Hk Hs Ha Hlen; [by exists []|].
  cbn [validate_columns] in Hv. rewrite (filter_test is_aggregate) in Hs. destruct expr as [|c|op arg]; cbn [is_aggregate group_output] in *.
  - done.
  - destruct (groupByContains groupBy c) eqn:Ec; [|done]. cbn [negb throw_if mbind result_bind] in Hv.
    destruct (groupByContains_position groupBy c Ec 0) as (i & Ei & Hi). rewrite Ei. destruct (lookup_lt_is_Some_2 key i) as [v Ev]; [lia|].
    destruct (IH specs accs Hv Hk Hs Ha Hlen) as (out & E & Ho). unfold row_at. rewrite Ev. cbn [mbind result_bind]. rewrite E.
    exists (v :: out). split; [done|]. constructor; [|done]. by exists i.
  - apply Forall2_cons_inv_l in Hs as (spec & specs1 & [Hop Hc] & Hs & ->). apply Forall2_cons_inv_l in Ha as (a & accs1 & Ht & Ha & ->).
    destruct (throw_if _ _) as [[]|]; [|done]. cbn [mbind result_bind] in Hv.
    destruct (IH specs1 accs1 Hv Hk Hs Ha Hlen) as (out & E & Ho). rewrite E. exists (accumulator_result i2d ddiv a :: out). split; [done|].
    constructor; [|done]. exists spec.2. split; [done|]. rewrite <- Hop. by apply (tracks_result i2d dadd ddiv).
Qed.

Lemma group_indices_lt sourceColumns groupBy : ∀ indices, group_indices sourceColumns groupBy = Ok indices →
  Forall (λ i, i < length sourceColumns) indices ∧ length indices = length groupBy.
Proof.
  induction groupBy as [|c groupBy IH]; intros indices E; [by injection E as <-|]. cbn [group_indices] in E. inv_result E.
  destruct (IH _ eq_refl) as [H1 H2]. injection E as <-. split; [|simpl; by rewrite H2]. constructor; [|done].
  unfold required_column in Hr. inv_result Hr. destruct a1; [|done]. injection Hr as ->. by eapply resolveResultColumn_lt.
Qed.

Lemma output_groups_ok command sourceColumns indices done specs groups :
  validate_columns (sel_groupBy command) (sel_columns command) = Ok tt → length indices = length (sel_groupBy command) →
  Forall2 (spec_is sourceColumns) (filter (λ e, is_aggregate e = true) (sel_columns command)) specs →
  (Z.of_nat (length done) < 2 ^ 63)%Z →
  (∀ k g, (k, g) ∈ groups → length (gs_key g) = length indices ∧
    Forall2 (λ spec a, tracks i2d dadd spec.1 spec.2 (group_of indices done (gs_key g)) a) specs (gs_aggregates g)) →
  ∃ out, output_groups i2d ddiv command groups = Ok out ∧
    Forall2 (λ key, Forall2 (expression_is (sel_groupBy command) sourceColumns key (group_of indices done key)) (sel_columns command))
      (gs_key <$> groups.*2) out.
Proof.
  intros Hv Hi Hs Hlen. induction groups as [|[k g] groups IH]; intros Hg; [by exists []|].
  destruct (Hg k g) as [Hk Ha]; [by apply elem_of_cons; left|]. destruct IH as (out & E & Ho); [intros; eapply Hg; by apply elem_of_cons; right|].
  destruct (group_output_ok (sel_groupBy command) sourceColumns (gs_key g) (group_of indices done (gs_key g)) (sel_columns command) specs
    (gs_aggregates g)) as (row & Er & Hrow); [done|congruence|done|done| |].
  { unfold group_of. pose proof (length_filter (λ r, row_eqb (gs_key g) (key_of indices r) = true) done). lia. }
  exists (row :: out). cbn [output_groups]. rewrite Er. cbn [mbind result_bind]. rewrite E. split; [done|]. by constructor.
Qed.

Lemma keys_sorted (groups : list (Value * GroupState)) : map_sorted groups →
  (∀ k g, (k, g) ∈ groups → row_ok (gs_key g) ∧ ∃ k', k = VComposite k' ∧ row_ok k' ∧ row_eqb k' (gs_key g) = true) →
  StronglySorted (λ a b, Value_ltb (VComposite a) (VComposite b) = true) (gs_key <$> groups.*2).
Proof.
  induction groups as [|[k g] groups IH]; intros Hs Hg; [constructor|]. apply map_sorted_cons in Hs as (Hk & Hlt & Hs).
  constructor; [apply IH; [done|intros; eapply Hg; by apply elem_of_cons; right]|]. apply Forall_forall.
  intros key (g' & -> & ([k' g2] & -> & Hin)%list_elem_of_fmap)%list_elem_of_fmap. cbn [snd].
  destruct (Hg k g) as [Hgo (a & -> & Ha & Hae)]; [by apply elem_of_cons; left|].
  destruct (Hg k' g2) as [Hgo' (b & -> & Hb & Hbe)]; [by apply elem_of_cons; right|].
  rewrite Forall_forall in Hlt. assert (Value_ltb (VComposite a) (VComposite b) = true) as Hab.
  { apply Hlt. apply list_elem_of_fmap. by exists (VComposite b, g2). }
  rewrite row_eqb_composite in *. rewrite <- (eqb_ltb_l (VComposite a) (VComposite (gs_key g))) by done.
  by rewrite <- (eqb_ltb_r (VComposite b) (VComposite (gs_key g2))).
Qed.

(** C13: GROUP BY and the aggregates.  For a valid aggregation over rows of typed values
    whose columns resolve, [aggregateRows] succeeds and returns one row for each group
    of rows with equal GROUP BY values, in increasing order of these values: the
    selected columns are those of the group, COUNT star counts its rows, COUNT the
    values that are not NULL, SUM is their 64-bit sum or, from the first double on,
    the sum in doubles, AVG the quotient, MIN and MAX a least and a greatest value,
    and an aggregate of no value is NULL.  Without GROUP BY an empty table gives one
    row. *)
Theorem aggregateRows_groups command sourceColumns rows indices : aggregating command = true →
  validateAggregation command = Ok tt → group_indices sourceColumns (sel_groupBy command) = Ok indices →
  aggregates_ok sourceColumns (sel_columns command) rows → Forall (row_fits (length sourceColumns)) rows →
  (Z.of_nat (length rows) < 2 ^ 63)%Z → ∃ keys out,
  aggregateRows i2d dadd ddiv command sourceColumns rows =
    Ok (mkQueryResult true "selected rows" (outputName <$> sel_columns command) out) ∧
  StronglySorted (λ a b, Value_ltb (VComposite a) (VComposite b) = true) keys ∧
  (∀ row, row ∈ rows → ∃ key, key ∈ keys ∧ row_eqb key (key_of indices row) = true) ∧
  (∀ key, key ∈ keys → (rows = [] ∧ sel_groupBy command = [] ∧ key = []) ∨ ∃ row, row ∈ rows ∧ key = key_of indices row) ∧
  Forall2 (λ key, Forall2 (expression_is (sel_groupBy command) sourceColumns key (group_of indices rows key)) (sel_columns command)) keys out.
Proof.
  intros Hagg Hv Hi Ha Hfit Hlen. unfold aggregateRows. rewrite Hv, Hi. cbn [mbind result_bind].
  unfold validateAggregation in Hv. rewrite Hagg in Hv. cbn [negb] in Hv. destruct (isStarProjection _); [done|]. cbn [throw_if mbind result_bind] in Hv.
  destruct (group_indices_lt _ _ _ Hi) as [Hlt Hli]. destruct (makeAccumulators_ok _ _ _ Ha) as (specs & -> & Hspec & Hrows).
  destruct (bool_decide (length rows = 0) && bool_decide (length (sel_groupBy command) = 0) && hasAggregates (sel_columns command)) eqn:Eb.
  - apply andb_prop in Eb as [[->%bool_decide_eq_true%nil_length_inv Hg%bool_decide_eq_true%nil_length_inv]%andb_prop _].
    cbn [mbind result_bind]. rewrite Hg in Hi. injection Hi as <-. 
    destruct (output_groups_ok command sourceColumns [] [] specs [(VComposite [], mkGroupState [] (fresh_accumulators specs))])
      as (out & E & Ho); [done|done|done|done| |].
    { intros k g [= -> ->]%list_elem_of_singleton. split; [done|]. apply fresh_track. }
    rewrite E. exists [[]], out. split; [done|]. split; [by repeat constructor|]. split; [by intros row H%elem_of_nil|].
    split; [intros key ->%list_elem_of_singleton; by left|exact Ho].
  - destruct (group_rows_track i2d dadd (length sourceColumns) indices specs Hlt rows [] []) as (groups & E & [Hs Hg Hc]).
    { split; [by split; constructor|intros k g H; by apply elem_of_nil in H|intros row H; by apply elem_of_nil in H]. }
    { constructor. }
    { rewrite Forall_forall in *. intros row Hrow. split; [by apply Hfit|by apply Hrows]. }
    rewrite E. cbn [mbind result_bind]. cbn [app] in *.
    assert (∀ row, row ∈ rows → row_ok (key_of indices row) ∧ length (key_of indices row) = length indices) as Hok.
    { intros row Hrow. rewrite Forall_forall in Hfit. by apply (project_row_ok (length sourceColumns)); [apply Hfit|]. }
    assert (∀ k g, (k, g) ∈ groups → row_ok (gs_key g) ∧ length (gs_key g) = length indices) as Hgk.
    { intros k g Hin. destruct (Hg k g Hin) as (k' & _ & _ & _ & (row & Hrow & ->) & _). by apply Hok. }
    destruct (output_groups_ok command sourceColumns indices rows specs groups) as (out & Eo & Ho); [done|done|done|done| |].
    { intros k g Hin. split; [by eapply Hgk|]. destruct (Hg k g Hin) as (k' & -> & Hk' & He & _ & Ht).
      rewrite <- (group_of_eqb indices rows k' (gs_key g)); [done|done|by eapply Hgk| |done].
      apply Forall_forall. intros row Hrow. by apply Hok. }
    rewrite Eo. exists (gs_key <$> groups.*2), out. split; [done|]. split.
    { apply keys_sorted; [done|]. intros k g Hin. split; [by eapply Hgk|]. destruct (Hg k g Hin) as (k' & -> & Hk' & He & _).
      by exists k'. }
    split; [|split; [|exact Ho]].
    + intros row Hrow. destruct (Hc row Hrow) as (k & g & Hin & He). exists (gs_key g).
      split; [apply list_elem_of_fmap; exists g; split; [done|]; apply list_elem_of_fmap; by exists (k, g)|].
      destruct (Hg k g Hin) as (k' & -> & Hk' & He' & _). rewrite <- row_eqb_composite in He.
      rewrite <- (row_eqb_trans k' (gs_key g)); [done|done|by eapply Hgk|by apply Hok|done].
    + intros key (g & -> & ([k g'] & -> & Hin)%list_elem_of_fmap)%list_elem_of_fmap. right. destruct (Hg k g' Hin) as (k' & _ & _ & _ & H & _).
      exact H.
Qed.
End result_rows.
