(* ===== verification/RecursiveCte.v ===== *)
(** * Recursive common table expressions

    [src/parser/recursive_cte.cpp]: the references between recursive entries of a
    WITH list, their strongly connected components, and the validation of the list.
    Sets of nodes whose iteration order the code leaves open are iterated in
    increasing order; the validation does not depend on it. *)

From S2P Require Import Prelude Value StringPattern IndexExpression Predicate SetOps Histogram IndexManager Table Ast.
Local Open Scope nat_scope.

Definition count_if (b : bool) : nat := if b then 1 else 0.

(** Subqueries of WHERE and the CTEs of the select are not looked into. *)
Fixpoint countTableRefs (select : Select) (tableName : string) : nat :=
  count_if (equalsIgnoreCase (sel_table select) tableName) +
  sum_list_with (λ j, count_if (equalsIgnoreCase (jc_table j) tableName)) (sel_joins select) +
  match select with
  | mkSelect _ _ _ _ _ _ _ _ setOps _ _ =>
      (fix arms (l : list (SetOpArm Select)) : nat :=
         match l with
         | [] => 0
         | mkSetOpArm _ (Some s) :: l => countTableRefs s tableName + arms l
         | mkSetOpArm _ None :: l => arms l
         end) setOps
  end.

Definition selectReferencesTable (select : Select) (tableName : string) : bool :=
  Nat.ltb 0 (countTableRefs select tableName).

Abbreviation Cte := (CteEntry Select).

Definition canonicalRecursiveName (ctes : list Cte) (name : string) : string :=
  match list_find (λ c, cte_recursive c && equalsIgnoreCase (cte_name c) name = true) ctes with
  | Some (_, c) => cte_name c
  | None => EmptyString
  end.

Definition recursiveCteIndexes (ctes : list Cte) : list nat :=
  List.filter (λ i, match ctes !! i with Some c => cte_recursive c | None => false end) (seq 0 (length ctes)).

Definition referencedRecursiveCteNames (select : Select) (ctes : list Cte) : list string :=
  foldl (λ names c,
    if cte_recursive c && selectReferencesTable select (cte_name c) && negb (bool_decide (cte_name c ∈ names))
    then names ++ [cte_name c] else names) [] ctes.

(** [ctes[i]], at an index that is in range. *)
Definition name_at (ctes : list Cte) (i : nat) : string :=
  match ctes !! i with Some c => cte_name c | None => EmptyString end.

(** The edges: the arm of the first entry references the second. *)
Definition buildRecursiveRefGraph (ctes : list Cte) (recursiveIndexes : list nat) : list (list nat) :=
  (λ i,
    match ctes !! i ≫= cte_recursiveArm with
    | None => []
    | Some arm =>
        (imap pair recursiveIndexes) ≫= λ '(other, j),
          if selectReferencesTable arm (name_at ctes j) then [other] else []
    end) <$> recursiveIndexes.

(** ** Kosaraju's algorithm

    A call of [dfs1] or [dfs2] marks a node that was not marked, so the number of
    nodes bounds the depth of the recursion. *)

Definition edges (adj : list (list nat)) (u : nat) : list nat := default [] (adj !! u).

Definition reverse_graph (adj : list (list nat)) : list (list nat) :=
  (λ v, (imap pair adj) ≫= λ '(u, vs), repeat u (count_occ Nat.eq_dec vs v)) <$> seq 0 (length adj).

Fixpoint dfs1 (fuel : nat) (adj : list (list nat)) (u : nat) (st : gset nat * list nat) : gset nat * list nat :=
  match fuel with
  | O => st
  | Datatypes.S fuel =>
      let '(seen, order) :=
        foldl (λ st v, if bool_decide (v ∈ st.1) then st else dfs1 fuel adj v st) ({[u]} ∪ st.1, st.2) (edges adj u) in
      (seen, order ++ [u])
  end.

Definition finish_order (adj : list (list nat)) : list nat :=
  (foldl (λ st u, if bool_decide (u ∈ st.1) then st else dfs1 (Datatypes.S (length adj)) adj u st)
     (∅, []) (seq 0 (length adj))).2.

Fixpoint dfs2 (fuel : nat) (radj : list (list nat)) (id u : nat) (st : gset nat * list nat) : gset nat * list nat :=
  match fuel with
  | O => st
  | Datatypes.S fuel =>
      foldl (λ st v, if bool_decide (v ∈ st.1) then st else dfs2 fuel radj id v st)
        ({[u]} ∪ st.1, <[u:=id]> st.2) (edges radj u)
  end.

(** The component of every node and the number of components. *)
Definition stronglyConnectedComponents (adj : list (list nat)) : list nat * nat :=
  let radj := reverse_graph adj in
  let '(_, scc, sccCount) :=
    foldl (λ '(seen, scc, sccCount) u,
      if bool_decide (u ∈ seen) then (seen, scc, sccCount)
      else let '(seen, scc) := dfs2 (Datatypes.S (length adj)) radj sccCount u (seen, scc) in
           (seen, scc, Datatypes.S sccCount))
      (∅ : gset nat, repeat 0 (length adj), 0) (rev (finish_order adj)) in
  (scc, sccCount).

(** The entries of the component of a recursive entry. *)
Definition recursiveSccContaining (ctes : list Cte) (name : string) : list Cte :=
  let recursiveIndexes := recursiveCteIndexes ctes in
  let canon := canonicalRecursiveName ctes name in
  if String.eqb canon EmptyString then []
  else
    let scc := (stronglyConnectedComponents (buildRecursiveRefGraph ctes recursiveIndexes)).1 in
    match list_find (λ i, equalsIgnoreCase (name_at ctes i) canon = true) recursiveIndexes with
    | None => []
    | Some (target, _) =>
        (imap pair recursiveIndexes) ≫= λ '(d, i),
          if bool_decide (scc !! d = scc !! target) then match ctes !! i with Some c => [c] | None => [] end else []
    end.

(** ** Validation *)

(** The edges between different components. *)
Definition condensation (adj : list (list nat)) (sccOf : list nat) (sccCount : nat) : list (list nat) :=
  let of_ u := default 0 (sccOf !! u) in
  let linked c c' := existsb (λ u, Nat.eqb (of_ u) c && existsb (λ v, Nat.eqb (of_ v) c') (edges adj u)) (seq 0 (length adj)) in
  (λ c, List.filter (λ c', negb (Nat.eqb c c') && linked c c') (seq 0 sccCount)) <$> seq 0 sccCount.

(** The search for a cycle: whether one was found, and the nodes being visited and
    visited.  A call enters a node that is in neither set. *)
Fixpoint find_cycle (fuel : nat) (cond : list (list nat)) (u : nat) (st : gset nat * gset nat)
  : bool * (gset nat * gset nat) :=
  if bool_decide (u ∈ st.1) then (true, st)
  else if bool_decide (u ∈ st.2) then (false, st)
  else
    match fuel with
    | O => (false, st)
    | Datatypes.S fuel =>
        let '(found, (visiting, visited)) :=
          foldl (λ '(found, st) v, if found : bool then (found, st) else find_cycle fuel cond v st)
            (false, ({[u]} ∪ st.1, st.2)) (edges cond u) in
        if found : bool then (true, (visiting, visited)) else (false, (visiting ∖ {[u]}, {[u]} ∪ visited))
    end.

Definition has_cycle (cond : list (list nat)) : bool :=
  (foldl (λ '(found, st) u, if found : bool then (found, st) else find_cycle (Datatypes.S (length cond)) cond u st)
     (false, (∅, ∅)) (seq 0 (length cond))).1.

Definition validate_entry (ctes : list Cte) (recursiveIndexes : list nat) (cte : Cte) : result unit :=
  match cte_body cte, cte_recursiveArm cte with
  | Some body, Some arm =>
      _ ← throw_if (cte_recursiveBindAccumulator cte && negb (cte_recursive cte))
            (runtime_error "AS ACCUMULATOR requires a recursive CTE");
      _ ← throw_if (existsb (λ j, selectReferencesTable body (name_at ctes j)) recursiveIndexes)
            (runtime_error "recursive CTE anchor must not reference a recursive CTE");
      match referencedRecursiveCteNames arm ctes with
      | [name] =>
          throw_if (negb (Nat.eqb (countTableRefs arm name) 1))
            (runtime_error "recursive CTE arm must reference the recursive CTE name exactly once")
      | _ => Throw (runtime_error "recursive CTE arm must reference exactly one recursive CTE name")
      end
  | _, _ => Throw (runtime_error "recursive CTE is missing anchor or recursive arm")
  end.

Fixpoint validate_entries (ctes : list Cte) (recursiveIndexes todo : list nat) : result unit :=
  match todo with
  | [] => Ok tt
  | i :: todo =>
      _ ← match ctes !! i with
          | Some cte => validate_entry ctes recursiveIndexes cte
          | None => Throw (out_of_range "vector index out of range")
          end;
      validate_entries ctes recursiveIndexes todo
  end.

Definition validateRecursiveCtes (ctes : list Cte) : result unit :=
  let recursiveIndexes := recursiveCteIndexes ctes in
  match recursiveIndexes with
  | [] => Ok tt
  | _ =>
      _ ← validate_entries ctes recursiveIndexes recursiveIndexes;
      let adj := buildRecursiveRefGraph ctes recursiveIndexes in
      let '(sccOf, sccCount) := stronglyConnectedComponents adj in
      throw_if (has_cycle (condensation adj sccOf sccCount))
        (runtime_error "recursive CTE dependency cycle is not supported")
  end.

(** Two components with an edge between them, and a cycle of two nodes. *)
Example components_example : stronglyConnectedComponents [[1]; [0; 2]; []] = ([0; 0; 1], 2).
Proof. vm_compute. reflexivity. Qed.
Example cycle_example : has_cycle [[1]; [2]; [0]] = true ∧ has_cycle [[1; 2]; [2]; []] = false.
Proof. vm_compute. done. Qed.

(** ** The order of materialization

    Kahn's algorithm on the condensation: a component is queued when the last of the
    components it depends on is done, so that each is queued at most once and their
    number bounds the loop. *)

(** The components that depend on each component. *)
Definition producers_of (cond : list (list nat)) : list (list nat) :=
  (λ v, List.filter (λ u, existsb (Nat.eqb v) (edges cond u)) (seq 0 (length cond))) <$> seq 0 (length cond).

Fixpoint kahn_loop (fuel : nat) (producers : list (list nat)) (remaining queue topo : list nat) : list nat :=
  match fuel, queue with
  | Datatypes.S fuel, id :: queue =>
      let '(remaining, queue) :=
        foldl (λ '(remaining, queue) consumer,
          let n := default 0 (remaining !! consumer) - 1 in
          (<[consumer := n]> remaining, if Nat.eqb n 0 then queue ++ [consumer] else queue))
          (remaining, queue) (edges producers id) in
      kahn_loop fuel producers remaining queue (topo ++ [id])
  | _, _ => topo
  end.

Definition topological_order (cond : list (list nat)) : list nat :=
  let remaining := length <$> cond in
  let topo := kahn_loop (length cond) (producers_of cond) remaining
                (List.filter (λ id, Nat.eqb (default 0 (remaining !! id)) 0) (seq 0 (length cond))) [] in
  if Nat.eqb (length topo) (length cond) then topo else seq 0 (length cond).

Definition recursiveMaterializationOrder (ctes : list Cte) : list Cte :=
  let recursiveIndexes := recursiveCteIndexes ctes in
  match recursiveIndexes with
  | [] => []
  | _ =>
      let adj := buildRecursiveRefGraph ctes recursiveIndexes in
      let '(sccOf, sccCount) := stronglyConnectedComponents adj in
      topological_order (condensation adj sccOf sccCount) ≫= λ sccId,
        (imap pair recursiveIndexes) ≫= λ '(dense, i),
          if bool_decide (sccOf !! dense = Some sccId) then match ctes !! i with Some c => [c] | None => [] end else []
  end.
