(* ===== verification/Rewriter.v ===== *)
(** * CTE rewriting

    [src/planner/rewriter.cpp]: a WITH list is inlined into the SELECT that reads it
    or handed on to be materialized, with the notes for EXPLAIN.

    [rewriteSelect] calls itself on the bodies of the CTEs and on the query without
    the CTE it has dealt with.  [cte_weight], the size of the WITH lists, gets smaller
    in each call, and is fuel enough ([rewriteSelect_total]); dereferencing a missing body,
    undefined in C++, throws. *)

From S2P Require Import Prelude Value StringPattern IndexExpression Predicate SetOps Histogram IndexManager Table Ast RecursiveCte.
From Stdlib Require Import Ascii.
Local Open Scope nat_scope.

Abbreviation Pred := (Predicate Select).

Definition andPredicates (l r : option Pred) : option Pred :=
  match l, r with
  | None, _ => r
  | _, None => l
  | Some l, Some r => Some (AndPred l r)
  end.

Definition set_ctes (ctes : list Cte) (s : Select) : Select :=
  mkSelect (sel_table s) (sel_joins s) (sel_columns s) (sel_where s) (sel_groupBy s) (sel_orderBy s) (sel_limit s) ctes
    (sel_setOps s) (sel_tableAlias s) (sel_hasOuterRefs s).
Definition stripCtes (query : Select) : Select := set_ctes [] query.

Definition findCte (query : Select) (table : string) : option Cte :=
  snd <$> list_find (λ c, equalsIgnoreCase (cte_name c) table = true) (sel_ctes query).

Definition referencesCteInFromOrJoin (query : Select) (cte : Cte) : bool :=
  equalsIgnoreCase (cte_name cte) (sel_table query) ||
  existsb (λ join, equalsIgnoreCase (cte_name cte) (jc_table join)) (sel_joins query).

Record RewriteResult : Type := mkRewriteResult {
  rw_query : Select;
  rw_notes : list string;
  rw_materialize : list Cte
}.

(** The notes and the CTEs to materialize collected so far. *)
Abbreviation Collected := (list string * list Cte)%type.
Definition appendRewrite (acc part : Collected) : Collected := (acc.1 ++ part.1, acc.2 ++ part.2).
Definition collected (r : RewriteResult) : Collected := (rw_notes r, rw_materialize r).
Definition note (text : string) (acc : Collected) : Collected := (acc.1 ++ [text], acc.2).
Definition to_materialize (cte : Cte) (acc : Collected) : Collected := (acc.1, acc.2 ++ [cte]).
Definition finish (query : Select) (acc : Collected) : RewriteResult := mkRewriteResult query acc.1 acc.2.

Definition with_body (body : option Select) (arm : option Select) (cte : Cte) : Cte :=
  mkCteEntry (cte_name cte) body (cte_materializeMode cte) (cte_recursive cte) (cte_recursiveDistinct cte)
    (cte_recursiveBindAccumulator cte) arm.

Definition other_ctes (query : Select) (matched : Cte) : list Cte :=
  List.filter (λ c, negb (equalsIgnoreCase (cte_name c) (cte_name matched))) (sel_ctes query).

(** The query with the body of a CTE in the place of the CTE. *)
Definition inline (query body : Select) : Select :=
  mkSelect (sel_table body) (sel_joins body)
    (if isStarProjection (sel_columns query) && negb (isStarProjection (sel_columns body)) then sel_columns body
     else sel_columns query)
    (andPredicates (sel_where body) (sel_where query))
    (match sel_groupBy query with [] => sel_groupBy body | _ => sel_groupBy query end)
    (match sel_orderBy query with Some o => Some o | None => sel_orderBy body end)
    (match sel_limit query with Some n => Some n | None => sel_limit body end)
    [] (sel_setOps body) (sel_tableAlias body) (sel_hasOuterRefs body).

Section rewrite.
Context (rewriteSelect : Select → result RewriteResult).

Definition rewriteBody (body : option Select) (acc : Collected) : result (Select * Collected) :=
  match body with
  | None => Throw (logic_error "null pointer dereferenced")
  | Some body =>
      match sel_ctes body with
      | [] => Ok (body, acc)
      | _ => r ← rewriteSelect body; Ok (rw_query r, appendRewrite acc (collected r))
      end
  end.

(** The recursive CTEs in order; [known] is the body of one of them, rewritten before. *)
Fixpoint materialize_recursive (suffix : string) (known : option (string * Select)) (ctes : list Cte) (acc : Collected)
  : result Collected :=
  match ctes with
  | [] => Ok acc
  | cte :: ctes =>
      '(body, acc) ← (match known with
                      | Some (name, body) =>
                          if equalsIgnoreCase (cte_name cte) name then Ok (body, acc) else rewriteBody (cte_body cte) acc
                      | None => rewriteBody (cte_body cte) acc
                      end);
      let acc := note ("materialized recursive CTE " +:+ cte_name cte +:+ suffix) acc in
      '(arm, acc) ← (match cte_recursiveArm cte with
                     | None => Ok (None, acc)
                     | Some arm => '(arm, acc) ← rewriteBody (Some arm) acc; Ok (Some arm, acc)
                     end);
      materialize_recursive suffix known ctes (to_materialize (with_body (Some body) arm cte) acc)
  end.

Fixpoint materialize_targets (targets : list Cte) (acc : Collected) : result Collected :=
  match targets with
  | [] => Ok acc
  | cte :: targets =>
      if cte_recursive cte then materialize_targets targets acc
      else
        '(body, acc) ← rewriteBody (cte_body cte) acc;
        let acc := note ("materialized CTE " +:+ cte_name cte +:+ " (join target)") acc in
        materialize_targets targets (to_materialize (with_body (Some body) (cte_recursiveArm cte) cte) acc)
  end.

Definition rewrite_joined (query : Select) (joinTargets : list Cte) : result RewriteResult :=
  acc ← (if existsb cte_recursive joinTargets
         then materialize_recursive " (join target)" None (recursiveMaterializationOrder (sel_ctes query)) ([], [])
         else Ok ([], []));
  acc ← materialize_targets joinTargets acc;
  Ok (finish (stripCtes query) acc).

(** The rest of the query, rewritten when it still has CTEs. *)
Definition rewrite_rest (remaining : Select) (acc : Collected) : result RewriteResult :=
  match sel_ctes remaining with
  | [] => Ok (finish (stripCtes remaining) acc)
  | _ => r ← rewriteSelect remaining; Ok (finish (rw_query r) (appendRewrite acc (collected r)))
  end.

(** A query that reads a CTE with the rewritten [body]. *)
Definition rewrite_with_body (query : Select) (matched : Cte) (body : Select) (acc : Collected) : result RewriteResult :=
  if cte_recursive matched then
    acc ← materialize_recursive EmptyString (Some (cte_name matched, body)) (recursiveMaterializationOrder (sel_ctes query)) acc;
    rewrite_rest (set_ctes (List.filter (λ c, negb (cte_recursive c)) (sel_ctes query)) query) acc
  else if negb (bool_decide (length (sel_setOps body) = 0)) then
    rewrite_rest (set_ctes (other_ctes query matched) query)
      (to_materialize (with_body (Some body) (cte_recursiveArm matched) matched)
         (note ("materialized CTE " +:+ cte_name matched +:+ " (set operation)") acc))
  else
    match cte_materializeMode matched with
    | MM_Materialized =>
        rewrite_rest (set_ctes (other_ctes query matched) query)
          (to_materialize (with_body (Some body) (cte_recursiveArm matched) matched)
             (note ("materialized CTE " +:+ cte_name matched) acc))
    | _ =>
        let acc := note ("inlined CTE " +:+ cte_name matched) acc in
        let inlined := inline query body in
        if Nat.ltb 1 (length (sel_ctes query)) then
          r ← rewriteSelect (set_ctes (other_ctes query matched) inlined);
          Ok (finish (rw_query r) (appendRewrite acc (collected r)))
        else Ok (finish inlined acc)
    end.

Definition rewrite_matched (query : Select) (matched : Cte) : result RewriteResult :=
  '(body, acc) ← rewriteBody (cte_body matched) ([], []);
  rewrite_with_body query matched body acc.

Definition rewrite_step (query : Select) : result RewriteResult :=
  match sel_ctes query with
  | [] => Ok (finish (stripCtes query) ([], []))
  | _ =>
      let joinTargets := List.filter (referencesCteInFromOrJoin query) (sel_ctes query) in
      if negb (bool_decide (length (sel_joins query) = 0)) && negb (bool_decide (length joinTargets = 0))
      then rewrite_joined query joinTargets
      else
        match findCte query (sel_table query) with
        | None => Ok (finish (stripCtes query) (note "CTEs present but FROM references a base table" ([], [])))
        | Some matched => rewrite_matched query matched
        end
  end.
End rewrite.

Fixpoint rewrite_fuel (fuel : nat) (query : Select) : result RewriteResult :=
  match fuel with
  | O => Throw (logic_error "rewriteSelect: out of fuel")
  | Datatypes.S fuel => rewrite_step (rewrite_fuel fuel) query
  end.

(** The size of the WITH lists of a SELECT. *)
Fixpoint cte_weight (s : Select) : nat :=
  match s with
  | mkSelect _ _ _ _ _ _ _ ctes _ _ _ =>
      (fix go (l : list Cte) : nat :=
         match l with
         | [] => 0
         | mkCteEntry _ body _ _ _ _ arm :: l =>
             1 + match body with Some b => cte_weight b | None => 0 end
             + match arm with Some a => cte_weight a | None => 0 end + go l
         end) ctes
  end.

Definition rewriteSelect (query : Select) : result RewriteResult := rewrite_fuel (Datatypes.S (cte_weight query)) query.

(** ** The rewriting ends *)

(** Every CTE has a body, also those inside the bodies and arms. *)
Fixpoint bodies_ok (s : Select) : bool :=
  match s with
  | mkSelect _ _ _ _ _ _ _ ctes _ _ _ =>
      (fix go (l : list Cte) : bool :=
         match l with
         | [] => true
         | mkCteEntry _ body _ _ _ _ arm :: l =>
             match body with Some b => bodies_ok b | None => false end
             && match arm with Some a => bodies_ok a | None => true end && go l
         end) ctes
  end.

Definition option_weight (s : option Select) : nat := match s with Some s => cte_weight s | None => 0 end.
Definition ctes_weight (l : list Cte) : nat := sum_list_with (λ c, 1 + option_weight (cte_body c) + option_weight (cte_recursiveArm c)) l.
Definition cte_ok (c : Cte) : bool :=
  match cte_body c with Some b => bodies_ok b | None => false end
  && match cte_recursiveArm c with Some a => bodies_ok a | None => true end.

Lemma cte_weight_ctes s : cte_weight s = ctes_weight (sel_ctes s).
Proof.
  destruct s as [? ? ? ? ? ? ? ctes ? ? ?]. cbn [cte_weight sel_ctes]. unfold ctes_weight.
  induction ctes as [|[name body mode r d a arm] ctes IH]; [done|]. rewrite IH. by destruct body, arm.
Qed.
Lemma bodies_ok_ctes s : bodies_ok s = forallb cte_ok (sel_ctes s).
Proof.
  destruct s as [? ? ? ? ? ? ? ctes ? ? ?]. cbn [bodies_ok sel_ctes].
  induction ctes as [|[name body mode r d a arm] ctes IH]; [done|]. rewrite IH. by destruct body, arm.
Qed.

Lemma ctes_weight_elem c l : c ∈ l → 1 + option_weight (cte_body c) + option_weight (cte_recursiveArm c) ≤ ctes_weight l.
Proof.
  unfold ctes_weight. induction l as [|d l IH]; [by intros H%elem_of_nil|]. cbn [sum_list_with]. intros [->|Hin]%elem_of_cons; [lia|]. specialize (IH Hin). lia.
Qed.
Lemma ctes_weight_filter f l : ctes_weight (List.filter f l) ≤ ctes_weight l.
Proof. unfold ctes_weight. induction l as [|c l IH]; [done|]. cbn [List.filter sum_list_with]. destruct (f c); cbn [sum_list_with]; lia. Qed.
Lemma ctes_weight_filter_lt f l c : c ∈ l → f c = false → ctes_weight (List.filter f l) < ctes_weight l.
Proof.
  unfold ctes_weight. induction l as [|d l IH]; [by intros H%elem_of_nil|]. intros [->|Hin]%elem_of_cons Hf; cbn [List.filter sum_list_with].
  - rewrite Hf. pose proof (ctes_weight_filter f l). unfold ctes_weight in *. lia.
  - specialize (IH Hin Hf). destruct (f d); cbn [sum_list_with]; lia.
Qed.
Lemma filter_ctes_ok f l : forallb cte_ok l = true → forallb cte_ok (List.filter f l) = true.
Proof.
  rewrite !forallb_forall. intros Hl c [Hc _]%filter_In. auto.
Qed.

Lemma materialization_order_elem ctes c : c ∈ recursiveMaterializationOrder ctes → c ∈ ctes.
Proof.
  unfold recursiveMaterializationOrder. destruct (recursiveCteIndexes ctes) as [|i indexes] eqn:Ei; [by intros H%elem_of_nil|]. rewrite <- Ei. clear Ei.
  destruct (stronglyConnectedComponents _) as [sccOf sccCount]. intros (scc & Hin & _)%list_elem_of_bind.
  apply list_elem_of_bind in Hin as ([d j] & Hin & _). case_bool_decide; [|by apply elem_of_nil in Hin].
  destruct (ctes !! j) as [c'|] eqn:E; [|by apply elem_of_nil in Hin]. apply list_elem_of_singleton in Hin as ->.
  by eapply list_elem_of_lookup_2.
Qed.

(** ** Calls on smaller queries *)

Definition materializable (c : Cte) : Prop := ∃ body, cte_body c = Some body ∧ sel_ctes body = [].
Definition rewritten_ok (r : RewriteResult) : Prop := sel_ctes (rw_query r) = [] ∧ Forall materializable (rw_materialize r).

Section smaller.
Context (w : nat) (rec : Select → result RewriteResult).
Context (rec_ok : ∀ q, bodies_ok q = true → cte_weight q < w → ∃ r, rec q = Ok r ∧ rewritten_ok r).

Definition agrees (rec2 : Select → result RewriteResult) : Prop := ∀ q, bodies_ok q = true → cte_weight q < w → rec2 q = rec q.

Definition small (s : Select) : Prop := bodies_ok s = true ∧ cte_weight s < w.

Lemma rewriteBody_ok body acc : small body → Forall materializable acc.2 → ∃ b acc', sel_ctes b = [] ∧ Forall materializable acc'.2 ∧
  ∀ rec2, agrees rec2 → rewriteBody rec2 (Some body) acc = Ok (b, acc').
Proof.
  intros [Hb Hw] Hacc. unfold rewriteBody. destruct (sel_ctes body) eqn:Ec; [by exists body, acc|].
  destruct (rec_ok body Hb Hw) as (r & E & Hq & Hm). exists (rw_query r), (appendRewrite acc (collected r)).
  split; [done|]. split; [by apply Forall_app|]. intros rec2 Ha. by rewrite (Ha body Hb Hw), E.
Qed.

(** A CTE of the query, whose body and arm are smaller. *)
Definition small_cte (c : Cte) : Prop :=
  (∃ body, cte_body c = Some body ∧ small body) ∧ (∀ arm, cte_recursiveArm c = Some arm → small arm).

Lemma materialize_recursive_ok suffix known ctes : (∀ name body, known = Some (name, body) → sel_ctes body = []) →
  Forall small_cte ctes → ∀ acc, Forall materializable acc.2 → ∃ acc', Forall materializable acc'.2 ∧
  ∀ rec2, agrees rec2 → materialize_recursive rec2 suffix known ctes acc = Ok acc'.
Proof.
  intros Hk. induction ctes as [|c ctes IH]; intros Hs acc Hacc; [by exists acc|].
  apply Forall_cons in Hs as [[(body & Eb & Hb) Harm] Hs].
  destruct (rewriteBody_ok body acc Hb Hacc) as (b1 & acc1 & Hb1 & Hacc1 & E1).
  assert (∃ b acc2, sel_ctes b = [] ∧ Forall materializable acc2.2 ∧ ∀ rec2, agrees rec2 →
    (match known with
     | Some (name, body) => if equalsIgnoreCase (cte_name c) name then Ok (body, acc) else rewriteBody rec2 (cte_body c) acc
     | None => rewriteBody rec2 (cte_body c) acc
     end) = Ok (b, acc2)) as (b & acc2 & Hb2 & Hacc2 & E2).
  { rewrite Eb. destruct known as [[name kb]|]; [|by exists b1, acc1]. destruct (equalsIgnoreCase (cte_name c) name); [|by exists b1, acc1].
    exists kb, acc. split; [by eapply Hk|]. done. }
  set (acc3 := note ("materialized recursive CTE " +:+ cte_name c +:+ suffix) acc2).
  assert (∃ arm acc4, Forall materializable acc4.2 ∧ ∀ rec2, agrees rec2 →
    (match cte_recursiveArm c with
     | None => Ok (None, acc3)
     | Some arm => '(arm, acc) ← rewriteBody rec2 (Some arm) acc3; Ok (Some arm, acc)
     end) = Ok (arm, acc4)) as (arm & acc4 & Hacc4 & E4).
  { destruct (cte_recursiveArm c) as [arm|]; [|by exists None, acc3]. destruct (rewriteBody_ok arm acc3 (Harm arm eq_refl) Hacc2) as (a & acc4 & _ & Ha & E).
    exists (Some a), acc4. split; [done|]. intros rec2 Hr. by rewrite (E rec2 Hr). }
  destruct (IH Hs (to_materialize (with_body (Some b) arm c) acc4)) as (acc' & Hacc' & E').
  { apply Forall_app. split; [done|]. constructor; [by exists b|constructor]. }
  exists acc'. split; [done|]. intros rec2 Hr. cbn [materialize_recursive]. rewrite (E2 rec2 Hr). cbn [mbind result_bind].
  fold acc3. rewrite (E4 rec2 Hr). cbn [mbind result_bind]. by apply E'.
Qed.

Lemma materialize_targets_ok targets : Forall small_cte targets → ∀ acc, Forall materializable acc.2 → ∃ acc', Forall materializable acc'.2 ∧
  ∀ rec2, agrees rec2 → materialize_targets rec2 targets acc = Ok acc'.
Proof.
  induction targets as [|c targets IH]; intros Hs acc Hacc; [by exists acc|]. apply Forall_cons in Hs as [[(body & Eb & Hb) _] Hs].
  cbn [materialize_targets]. destruct (cte_recursive c); [by apply IH|].
  destruct (rewriteBody_ok body acc Hb Hacc) as (b & acc1 & Hb1 & Hacc1 & E1).
  destruct (IH Hs (to_materialize (with_body (Some b) (cte_recursiveArm c) c)
    (note ("materialized CTE " +:+ cte_name c +:+ " (join target)") acc1))) as (acc' & Hacc' & E').
  { apply Forall_app. split; [done|]. constructor; [by exists b|constructor]. }
  exists acc'. split; [done|]. intros rec2 Hr. rewrite Eb, (E1 rec2 Hr). cbn [mbind result_bind]. by apply E'.
Qed.

Lemma rewrite_rest_ok remaining acc : bodies_ok remaining = true → (sel_ctes remaining = [] ∨ cte_weight remaining < w) →
  Forall materializable acc.2 → ∃ r, rewritten_ok r ∧ ∀ rec2, agrees rec2 → rewrite_rest rec2 remaining acc = Ok r.
Proof.
  intros Hb Hw Hacc. unfold rewrite_rest. destruct (sel_ctes remaining) eqn:Ec; [by exists (finish (stripCtes remaining) acc)|].
  destruct Hw as [?|Hw]; [done|]. destruct (rec_ok remaining Hb Hw) as (r & E & Hq & Hm).
  exists (finish (rw_query r) (appendRewrite acc (collected r))). split; [split; [done|by apply Forall_app]|].
  intros rec2 Hr. by rewrite (Hr remaining Hb Hw), E.
Qed.
End smaller.

(** ** Queries *)

Lemma small_ctes q : bodies_ok q = true → Forall (small_cte (cte_weight q)) (sel_ctes q).
Proof.
  rewrite bodies_ok_ctes, cte_weight_ctes, forallb_forall. intros Hb. apply Forall_forall. intros c Hc.
  pose proof (ctes_weight_elem c _ Hc) as Hw. specialize (Hb c (proj1 (list_elem_of_In _ _) Hc)). unfold cte_ok in Hb. apply andb_prop in Hb as [Hb Ha].
  split.
  - destruct (cte_body c) as [b|]; [|done]. exists b. split; [done|]. split; [done|]. simpl in Hw. lia.
  - intros arm E. rewrite E in *. split; [done|]. simpl in Hw. lia.
Qed.

Lemma findCte_elem q name c : findCte q name = Some c → c ∈ sel_ctes q.
Proof.
  unfold findCte. destruct (list_find _ (sel_ctes q)) as [[i d]|] eqn:E; [|done]. intros [= <-]. apply list_find_Some in E as (E & _).
  by eapply list_elem_of_lookup_2.
Qed.

Lemma equalsIgnoreCase_refl s : equalsIgnoreCase s s = true.
Proof. induction s as [|c s IH]; [done|]. cbn [equalsIgnoreCase]. by rewrite Ascii.eqb_refl, IH. Qed.

Lemma other_ctes_weight q c : c ∈ sel_ctes q → ctes_weight (other_ctes q c) < cte_weight q.
Proof. intros Hc. rewrite cte_weight_ctes. apply (ctes_weight_filter_lt _ _ c Hc). by rewrite equalsIgnoreCase_refl. Qed.

Lemma inline_ctes query body : sel_ctes (inline query body) = [].
Proof. done. Qed.

Lemma inlined_ok q c b acc rec :
  (∀ q', bodies_ok q' = true → cte_weight q' < cte_weight q → ∃ r, rec q' = Ok r ∧ rewritten_ok r) →
  bodies_ok (set_ctes (other_ctes q c) q) = true → cte_weight (set_ctes (other_ctes q c) q) < cte_weight q →
  Forall materializable acc.2 → ∃ r, rewritten_ok r ∧ ∀ rec2, agrees (cte_weight q) rec rec2 →
  (if Nat.ltb 1 (length (sel_ctes q)) then
     r ← rec2 (set_ctes (other_ctes q c) (inline q b));
     Ok (finish (rw_query r) (appendRewrite (note ("inlined CTE " +:+ cte_name c) acc) (collected r)))
   else Ok (finish (inline q b) (note ("inlined CTE " +:+ cte_name c) acc))) = Ok r.
Proof.
  intros Hrec Ho Hw Hacc. case_match; [|eexists; split; [|done]; by split].
  assert (bodies_ok (set_ctes (other_ctes q c) (inline q b)) = true ∧ cte_weight (set_ctes (other_ctes q c) (inline q b)) < cte_weight q) as [Ho' Hw'].
  { rewrite bodies_ok_ctes in Ho. rewrite (cte_weight_ctes (set_ctes _ q)) in Hw. by rewrite bodies_ok_ctes, (cte_weight_ctes (set_ctes _ _)). }
  destruct (Hrec _ Ho' Hw') as (r & E & Hq & Hm). eexists. split; [|intros rec2 Ha; by rewrite (Ha _ Ho' Hw'), E].
  split; [done|]. by apply Forall_app.
Qed.

(** One call, with calls on smaller queries that return. *)
Lemma rewrite_step_ok q rec : bodies_ok q = true →
  (∀ q', bodies_ok q' = true → cte_weight q' < cte_weight q → ∃ r, rec q' = Ok r ∧ rewritten_ok r) →
  ∃ r, rewritten_ok r ∧ ∀ rec2, agrees (cte_weight q) rec rec2 → rewrite_step rec2 q = Ok r.
Proof.
  intros Hb Hrec. pose proof (small_ctes q Hb) as Hs. unfold rewrite_step. destruct (sel_ctes q) as [|c0 cs] eqn:Ec.
  { eexists. split; [|done]. split; [done|constructor]. }
  rewrite <- Ec in *. clear Ec c0 cs.
  assert (∀ f l, (∀ c, c ∈ l → c ∈ sel_ctes q) → Forall (small_cte (cte_weight q)) (List.filter f l)) as Hsub.
  { intros f l Hl. apply Forall_forall. intros c [Hc _]%list_elem_of_In%filter_In. rewrite Forall_forall in Hs. apply Hs, Hl. by apply list_elem_of_In. }
  assert (Forall (small_cte (cte_weight q)) (recursiveMaterializationOrder (sel_ctes q))) as Horder.
  { apply Forall_forall. intros c Hc. rewrite Forall_forall in Hs. by apply Hs, materialization_order_elem. }
  destruct (_ && _).
  - unfold rewrite_joined. set (targets := List.filter (referencesCteInFromOrJoin q) (sel_ctes q)).
    assert (∃ acc, Forall materializable acc.2 ∧ ∀ rec2, agrees (cte_weight q) rec rec2 →
      (if existsb cte_recursive targets
       then materialize_recursive rec2 " (join target)" None (recursiveMaterializationOrder (sel_ctes q)) ([], []) else Ok ([], [])) = Ok acc)
      as (acc & Hacc & E).
    { destruct (existsb cte_recursive targets); [|by exists ([], [])]. by apply (materialize_recursive_ok _ rec Hrec). }
    destruct (materialize_targets_ok _ rec Hrec targets (Hsub _ _ (λ c Hc, Hc)) acc Hacc) as (acc' & Hacc' & E').
    exists (finish (stripCtes q) acc'). split; [by split|]. intros rec2 Hr. rewrite (E rec2 Hr). cbn [mbind result_bind].
    by rewrite (E' rec2 Hr).
  - destruct (findCte q (sel_table q)) as [c|] eqn:Ef.
    2: { eexists. split; [|done]. split; [done|constructor]. }
    apply findCte_elem in Ef. rewrite Forall_forall in Hs. destruct (Hs c Ef) as [(body & Eb & Hbody) _].
    destruct (rewriteBody_ok _ rec Hrec body ([], []) Hbody) as (b & acc & Hbc & Hacc & E); [constructor|].
    assert (bodies_ok (set_ctes (other_ctes q c) q) = true ∧ cte_weight (set_ctes (other_ctes q c) q) < cte_weight q) as [Ho Hw].
    { rewrite bodies_ok_ctes in *. rewrite (cte_weight_ctes (set_ctes _ _)). split; [by apply filter_ctes_ok|by apply other_ctes_weight]. }
    assert (Forall materializable [with_body (Some b) (cte_recursiveArm c) c]) as Hmc by (constructor; [by exists b|constructor]).
    assert (∃ r, rewritten_ok r ∧ ∀ rec2, agrees (cte_weight q) rec rec2 → rewrite_with_body rec2 q c b acc = Ok r) as (r & Hr & E2).
    2: { exists r. split; [done|]. intros rec2 Ha. unfold rewrite_matched. rewrite Eb, (E rec2 Ha). cbn [mbind result_bind]. by apply E2. }
    unfold rewrite_with_body. destruct (cte_recursive c) eqn:Er; [|destruct (negb _); [|destruct (cte_materializeMode c)]].
    + destruct (materialize_recursive_ok _ rec Hrec EmptyString (Some (cte_name c, b)) (recursiveMaterializationOrder (sel_ctes q))) with (acc := acc)
        as (acc' & Hacc' & E'); [by intros ? ? [= <- <-]|done|done|].
      destruct (rewrite_rest_ok _ rec Hrec (set_ctes (List.filter (λ c, negb (cte_recursive c)) (sel_ctes q)) q) acc') as (r & Hr & E2); [| |done|].
      { rewrite bodies_ok_ctes in *. by apply filter_ctes_ok. }
      { right. rewrite (cte_weight_ctes (set_ctes _ _)), (cte_weight_ctes q). apply (ctes_weight_filter_lt _ _ c Ef). by rewrite Er. }
      exists r. split; [done|]. intros rec2 Ha. rewrite (E' rec2 Ha). cbn [mbind result_bind]. by apply E2.
    + apply (rewrite_rest_ok _ rec Hrec); [done|by right|by apply Forall_app].
    + by apply inlined_ok.
    + apply (rewrite_rest_ok _ rec Hrec); [done|by right|by apply Forall_app].
    + by apply inlined_ok.
Qed.

(** C19: the rewriting of WITH lists ends.  When every CTE has its body, as the parser
    makes it, [rewriteSelect] returns: its calls of itself get smaller, so that its
    fuel is enough and more of it changes nothing.  The rewritten query has no WITH
    list, nor have the bodies of the CTEs that are to be materialized. *)
Theorem rewriteSelect_total q : bodies_ok q = true → ∃ r, rewriteSelect q = Ok r ∧ rewritten_ok r ∧
  ∀ fuel, cte_weight q < fuel → rewrite_fuel fuel q = Ok r.
Proof.
  remember (cte_weight q) as w eqn:Hw. revert q Hw. induction w as [w IH] using lt_wf_ind. intros q -> Hb.
  destruct (rewrite_step_ok q rewriteSelect Hb) as (r & Hr & E).
  { intros q' Hb' Hlt. destruct (IH _ Hlt q' eq_refl Hb') as (r & E & Hr & _). by exists r. }
  assert (∀ fuel, cte_weight q < fuel → rewrite_fuel fuel q = Ok r) as Hf.
  { intros [|fuel] Hlt; [lia|]. cbn [rewrite_fuel]. apply E. intros q' Hb' Hlt'.
    destruct (IH _ Hlt' q' eq_refl Hb') as (r' & E' & _ & Hf'). rewrite E'. apply Hf'. lia. }
  exists r. split; [apply Hf; lia|]. by split.
Qed.
