(* ===== verification/SelectScope.v ===== *)
(** * Scopes of column names and outer references

    [src/execution/select_scope.cpp]: the qualifiers of column names are rewritten to
    what the scan or the join resolves: an alias is stripped from the names of a query
    over one table, and replaced by the table's name in a join.

    The code changes the SELECT and the subqueries it points to in place; here the new
    SELECT is returned.  The statements share their subqueries with the copies that
    are executed, so a subquery that is evaluated again is normalized again.

    [normalizeSelectScopeQualifiers] goes down the nesting of queries, whose depth
    bounds the fuel: [select_depth] is not changed by the rewriting.

    [src/execution/subquery_runtime_bind.cpp]: the columns of the outer row that a
    correlated subquery refers to, put in as values.  The code copies what it binds;
    the subqueries of the statement stay as they are. *)

From S2P Require Import Prelude Value Float64 VectorRowStore StringPattern TransactionManager Mvcc IndexExpression Predicate SetOps.
From S2P Require Import Histogram Selectivity IndexManager Table Ast Planner SelectScan JoinEngine.
Local Open Scope nat_scope.

Definition stripLocalQualifier (scope table : string) (stripTableName : bool) (name : string) : string :=
  match split_dot name with
  | Some (qual, _) =>
      if equalsIgnoreCase qual scope || (stripTableName && equalsIgnoreCase qual table) then unqualified name else name
  | None => name
  end.

Definition rewriteQualifierToTable (scope table name : string) : string :=
  match split_dot name with
  | Some (qual, _) => if equalsIgnoreCase qual scope then table +:+ "." +:+ unqualified name else name
  | None => name
  end.

Section nested.
Context (normalize : Select → Select).

Section names.
Context (rename : string → string).

(** The names of a predicate renamed and its subqueries normalized. *)
Fixpoint rename_predicate (p : Pred) : Pred :=
  match p with
  | AndPred l r => AndPred (rename_predicate l) (rename_predicate r)
  | OrPred l r => OrPred (rename_predicate l) (rename_predicate r)
  | ComparisonPred column op value rhsColumn e o => ComparisonPred (rename column) op value (rename <$> rhsColumn) e o
  | InListPred column values e o => InListPred (rename column) values e o
  | LikePred column pattern o => LikePred (rename column) pattern o
  | RegexPred column pattern o => RegexPred (rename column) pattern o
  | InSubqueryPred column subquery o => InSubqueryPred (rename column) (normalize subquery) o
  | ExistsPred subquery o => ExistsPred (normalize subquery) o
  end.

Definition rename_expr (expr : SelectExpr) : SelectExpr :=
  match expr with
  | SE_Star => SE_Star
  | SE_Column column => SE_Column (rename column)
  | SE_Aggregate op arg => SE_Aggregate op (rename <$> arg)
  end.

(** The names of the select list, GROUP BY, ORDER BY and WHERE, and, by [rename_join],
    those of the joins. *)
Definition rename_select (rename_join : JoinClause → JoinClause) (s : Select) : Select :=
  mkSelect (sel_table s) (rename_join <$> sel_joins s) (rename_expr <$> sel_columns s) (rename_predicate <$> sel_where s)
    (rename <$> sel_groupBy s) ((λ o, mkOrderBy (rename (ob_column o)) (ob_ascending o)) <$> sel_orderBy s) (sel_limit s)
    (sel_ctes s) (sel_setOps s) (sel_tableAlias s) (sel_hasOuterRefs s).
End names.

Definition normalizePredicateScopeQualifiers (scope table : string) (stripTableName : bool) : Pred → Pred :=
  rename_predicate (stripLocalQualifier scope table stripTableName).

Definition rewritePredicateJoinAliases (scope table : string) : Pred → Pred :=
  rename_predicate (rewriteQualifierToTable scope table).

Fixpoint normalizeNestedSelectsInPredicate (p : Pred) : Pred :=
  match p with
  | AndPred l r => AndPred (normalizeNestedSelectsInPredicate l) (normalizeNestedSelectsInPredicate r)
  | OrPred l r => OrPred (normalizeNestedSelectsInPredicate l) (normalizeNestedSelectsInPredicate r)
  | InSubqueryPred column subquery o => InSubqueryPred column (normalize subquery) o
  | ExistsPred subquery o => ExistsPred (normalize subquery) o
  | _ => p
  end.

Definition rename_join_columns (rename : string → string) (j : JoinClause) : JoinClause :=
  mkJoinClause (jc_table j) (rename (jc_leftColumn j)) (rename (jc_rightColumn j)) (jc_tableAlias j) (jc_kind j) (jc_op j).

Definition rewriteJoinAliasOnSelect (scope table : string) (s : Select) : Select :=
  rename_select (rewriteQualifierToTable scope table) (rename_join_columns (rewriteQualifierToTable scope table)) s.

Definition normalize_where (s : Select) : Select :=
  mkSelect (sel_table s) (sel_joins s) (sel_columns s) (normalizeNestedSelectsInPredicate <$> sel_where s) (sel_groupBy s)
    (sel_orderBy s) (sel_limit s) (sel_ctes s) (sel_setOps s) (sel_tableAlias s) (sel_hasOuterRefs s).

(** The queries of the WITH list and of the set operations. *)
Definition normalize_parts (s : Select) : Select :=
  mkSelect (sel_table s) (sel_joins s) (sel_columns s) (sel_where s) (sel_groupBy s) (sel_orderBy s) (sel_limit s)
    ((λ c, mkCteEntry (cte_name c) (normalize <$> cte_body c) (cte_materializeMode c) (cte_recursive c) (cte_recursiveDistinct c)
             (cte_recursiveBindAccumulator c) (normalize <$> cte_recursiveArm c)) <$> sel_ctes s)
    ((λ a, mkSetOpArm (arm_op a) (normalize <$> arm_select a)) <$> sel_setOps s) (sel_tableAlias s) (sel_hasOuterRefs s).

(** The aliases of a join, one after the other: the query's and those of the joins. *)
Definition join_aliases (s : Select) : list (string * string) :=
  match sel_tableAlias s with Some alias => [(alias, sel_table s)] | None => [] end
  ++ omap (λ j, (λ alias, (alias, jc_table j)) <$> jc_tableAlias j) (sel_joins s).

Definition normalize_step (s : Select) : Select :=
  let s := normalize_parts s in
  match sel_joins s with
  | _ :: _ => normalize_where (foldl (λ s '(scope, table), rewriteJoinAliasOnSelect scope table s) s (join_aliases s))
  | [] =>
      match sel_tableAlias s with
      | Some scope => rename_select (stripLocalQualifier scope (sel_table s) true) id s
      | None => normalize_where s
      end
  end.
End nested.

Fixpoint normalize_fuel (fuel : nat) (s : Select) : Select :=
  match fuel with
  | O => s
  | Datatypes.S fuel => normalize_step (normalize_fuel fuel) s
  end.

(** The nesting of the queries of a predicate and of a SELECT. *)
Section depth.
Context (depth : Select → nat).
Fixpoint predicate_depth (p : Pred) : nat :=
  match p with
  | AndPred l r | OrPred l r => Nat.max (predicate_depth l) (predicate_depth r)
  | InSubqueryPred _ subquery _ | ExistsPred subquery _ => depth subquery
  | _ => 0
  end.
Definition option_depth (s : option Select) : nat := match s with Some s => depth s | None => 0 end.
Fixpoint ctes_depth (l : list (CteEntry Select)) : nat :=
  match l with
  | [] => 0
  | mkCteEntry _ body _ _ _ _ arm :: l => Nat.max (Nat.max (option_depth body) (option_depth arm)) (ctes_depth l)
  end.
Fixpoint arms_depth (l : list (SetOpArm Select)) : nat :=
  match l with
  | [] => 0
  | mkSetOpArm _ arm :: l => Nat.max (option_depth arm) (arms_depth l)
  end.
End depth.

Fixpoint select_depth (s : Select) : nat :=
  match s with
  | mkSelect _ _ _ condition _ _ _ ctes setOps _ _ =>
      Datatypes.S (Nat.max (match condition with Some p => predicate_depth select_depth p | None => 0 end)
                     (Nat.max (ctes_depth select_depth ctes) (arms_depth select_depth setOps)))
  end.

Definition normalizeSelectScopeQualifiers (s : Select) : Select := normalize_fuel (select_depth s) s.

(** ** Outer references *)

Section outer.
Context {S : Type}.
Context (outerRow : Row) (outerTable : Table Select S) (outerScope : string).

Definition refersToCurrentOuter (column : string) : bool :=
  match split_dot column with
  | Some (qual, _) => equalsIgnoreCase qual outerScope || equalsIgnoreCase qual (t_name outerTable)
  | None => bool_decide (is_Some (columnIndex outerTable (unqualified column)))
  end.

Definition outerColumnValue (column : string) : result Value :=
  match columnIndex outerTable (unqualified column) with
  | None => Throw (runtime_error "unknown outer reference column")
  | Some i => row_at outerRow i
  end.

Section predicates.
Context (bind : Select → result Select).

Fixpoint bindOuterReferences_predicate (p : Pred) : result Pred :=
  match p with
  | AndPred l r => l ← bindOuterReferences_predicate l; r ← bindOuterReferences_predicate r; Ok (AndPred l r)
  | OrPred l r => l ← bindOuterReferences_predicate l; r ← bindOuterReferences_predicate r; Ok (OrPred l r)
  | InSubqueryPred column subquery _ => sub ← bind subquery; Ok (InSubqueryPred column sub (sel_hasOuterRefs sub))
  | ExistsPred subquery _ => sub ← bind subquery; Ok (ExistsPred sub (sel_hasOuterRefs sub))
  | ComparisonPred column op value (Some rhs) e true =>
      if refersToCurrentOuter rhs then v ← outerColumnValue rhs; Ok (ComparisonPred column op v None e false)
      else Ok p
  | _ => Ok p
  end.

Definition bind_option (s : option Select) : result (option Select) :=
  match s with None => Ok None | Some s => s ← bind s; Ok (Some s) end.

Fixpoint bind_ctes (l : list (CteEntry Select)) : result (list (CteEntry Select)) :=
  match l with
  | [] => Ok []
  | mkCteEntry name body mode recursive distinct accumulator arm :: l =>
      body ← bind_option body;
      arm ← bind_option arm;
      l ← bind_ctes l;
      Ok (mkCteEntry name body mode recursive distinct accumulator arm :: l)
  end.

Fixpoint bind_arms (l : list (SetOpArm Select)) : result (list (SetOpArm Select)) :=
  match l with
  | [] => Ok []
  | mkSetOpArm op arm :: l => arm ← bind_option arm; l ← bind_arms l; Ok (mkSetOpArm op arm :: l)
  end.
End predicates.

Definition has_outer (s : option Select) : bool := match s with Some s => sel_hasOuterRefs s | None => false end.

Fixpoint bindOuterReferences (s : Select) : result Select :=
  match s with
  | mkSelect table joins columns condition groupBy orderBy limit ctes setOps alias _ =>
      ctes ← bind_ctes bindOuterReferences ctes;
      setOps ← bind_arms bindOuterReferences setOps;
      condition ← match condition with
                  | None => Ok None
                  | Some p => p ← bindOuterReferences_predicate bindOuterReferences p; Ok (Some p)
                  end;
      Ok (mkSelect table joins columns condition groupBy orderBy limit ctes setOps alias
            (existsb (λ c, has_outer (cte_body c) || has_outer (cte_recursiveArm c)) ctes
             || existsb (λ a, has_outer (arm_select a)) setOps
             || match condition with Some p => predicateReferencesOuter p | None => false end))
  end.
End outer.

(** ** The depth of a query is fuel enough *)

(** ** The nesting *)

Section step.
Context (n : nat) (norm norm2 : Select → Select).
Context (Hdepth : ∀ s, select_depth s ≤ n → select_depth (norm s) = select_depth s).
Context (Hsame : ∀ s, select_depth s ≤ n → norm2 s = norm s).

Abbreviation depth := (predicate_depth select_depth).

Lemma rename_predicate_ok f p : depth p ≤ n →
  rename_predicate norm2 f p = rename_predicate norm f p ∧ depth (rename_predicate norm f p) = depth p.
Proof.
  induction p as [| l IHl r IHr | l IHl r IHr | | c s o | s o | |]; cbn [predicate_depth rename_predicate]; intros Hp; try done.
  - destruct IHl as [-> ->]; [lia|]. destruct IHr as [-> ->]; [lia|]. done.
  - destruct IHl as [-> ->]; [lia|]. destruct IHr as [-> ->]; [lia|]. done.
  - by rewrite Hsame, Hdepth.
  - by rewrite Hsame, Hdepth.
Qed.
Lemma nested_predicate_ok p : depth p ≤ n →
  normalizeNestedSelectsInPredicate norm2 p = normalizeNestedSelectsInPredicate norm p ∧
  depth (normalizeNestedSelectsInPredicate norm p) = depth p.
Proof.
  induction p as [| l IHl r IHr | l IHl r IHr | | c s o | s o | |]; cbn [predicate_depth normalizeNestedSelectsInPredicate]; intros Hp; try done.
  - destruct IHl as [-> ->]; [lia|]. destruct IHr as [-> ->]; [lia|]. done.
  - destruct IHl as [-> ->]; [lia|]. destruct IHr as [-> ->]; [lia|]. done.
  - by rewrite Hsame, Hdepth.
  - by rewrite Hsame, Hdepth.
Qed.

Definition where_depth (s : Select) : nat := match sel_where s with Some p => depth p | None => 0 end.
Lemma select_depth_parts s : select_depth s =
  S (Nat.max (where_depth s) (Nat.max (ctes_depth select_depth (sel_ctes s)) (arms_depth select_depth (sel_setOps s)))).
Proof. by destruct s. Qed.

Lemma rename_select_ok f g s : where_depth s ≤ n →
  rename_select norm2 f g s = rename_select norm f g s ∧ where_depth (rename_select norm f g s) = where_depth s ∧
  sel_ctes (rename_select norm f g s) = sel_ctes s ∧ sel_setOps (rename_select norm f g s) = sel_setOps s.
Proof.
  unfold where_depth, rename_select. cbn. destruct (sel_where s) as [p|]; [|done]. intros Hp. cbn [fmap option_fmap option_map].
  destruct (rename_predicate_ok f p Hp) as [-> ->]. done.
Qed.
Lemma normalize_where_ok s : where_depth s ≤ n →
  normalize_where norm2 s = normalize_where norm s ∧ where_depth (normalize_where norm s) = where_depth s ∧
  sel_ctes (normalize_where norm s) = sel_ctes s ∧ sel_setOps (normalize_where norm s) = sel_setOps s.
Proof.
  unfold where_depth, normalize_where. cbn. destruct (sel_where s) as [p|]; [|done]. intros Hp. cbn [fmap option_fmap option_map].
  destruct (nested_predicate_ok p Hp) as [-> ->]. done.
Qed.

Lemma option_ok (s : option Select) : option_depth select_depth s ≤ n →
  norm2 <$> s = norm <$> s ∧ option_depth select_depth (norm <$> s) = option_depth select_depth s.
Proof. destruct s as [s|]; [|done]. cbn. intros Hs. by rewrite Hsame, Hdepth. Qed.

Lemma normalize_parts_ok s : select_depth s ≤ S n →
  normalize_parts norm2 s = normalize_parts norm s ∧ where_depth (normalize_parts norm s) = where_depth s ∧
  ctes_depth select_depth (sel_ctes (normalize_parts norm s)) = ctes_depth select_depth (sel_ctes s) ∧
  arms_depth select_depth (sel_setOps (normalize_parts norm s)) = arms_depth select_depth (sel_setOps s).
Proof.
  rewrite select_depth_parts. destruct s as [table joins columns condition groupBy orderBy limit ctes setOps alias has]. unfold normalize_parts.
  cbn [sel_ctes sel_setOps sel_where sel_table sel_joins sel_columns sel_groupBy sel_orderBy sel_limit sel_tableAlias sel_hasOuterRefs].
  intros Hle. set (F := λ (norm : Select → Select) c, mkCteEntry (cte_name c) (norm <$> cte_body c) (cte_materializeMode c) (cte_recursive c)
    (cte_recursiveDistinct c) (cte_recursiveBindAccumulator c) (norm <$> cte_recursiveArm c)).
  set (G := λ (norm : Select → Select) a, mkSetOpArm (arm_op a) (norm <$> arm_select a)).
  assert (ctes_depth select_depth ctes ≤ n → F norm2 <$> ctes = F norm <$> ctes ∧
    ctes_depth select_depth (F norm <$> ctes) = ctes_depth select_depth ctes) as Hc.
  { clear -Hsame Hdepth F. induction ctes as [|[name body mode r d a arm] ctes IH]; [done|]. cbn [ctes_depth fmap list_fmap]. intros Hle. unfold F at 1 3 5. cbn.
    destruct (option_ok body) as [-> ->]; [lia|]. destruct (option_ok arm) as [-> ->]; [lia|]. destruct IH as [E1 E2]; [lia|].
    split; [f_equal; exact E1|by rewrite <- E2]. }
  assert (arms_depth select_depth setOps ≤ n → G norm2 <$> setOps = G norm <$> setOps ∧
    arms_depth select_depth (G norm <$> setOps) = arms_depth select_depth setOps) as Ha.
  { clear -Hsame Hdepth G. induction setOps as [|[op arm] setOps IH]; [done|]. cbn [arms_depth fmap list_fmap]. intros Hle. unfold G at 1 3 5. cbn.
    destruct (option_ok arm) as [-> ->]; [lia|]. destruct IH as [E1 E2]; [lia|]. split; [f_equal; exact E1|by rewrite <- E2]. }
  destruct Hc as [Ec1 Ec2]; [lia|]. destruct Ha as [Ea1 Ea2]; [lia|]. fold (F norm) (F norm2) (G norm) (G norm2). split; [|done].
  by rewrite Ec1, Ea1.
Qed.

Lemma aliases_ok aliases : ∀ s, where_depth s ≤ n →
  foldl (λ s '(scope, table), rewriteJoinAliasOnSelect norm2 scope table s) s aliases =
  foldl (λ s '(scope, table), rewriteJoinAliasOnSelect norm scope table s) s aliases ∧
  let s' := foldl (λ s '(scope, table), rewriteJoinAliasOnSelect norm scope table s) s aliases in
  where_depth s' = where_depth s ∧ sel_ctes s' = sel_ctes s ∧ sel_setOps s' = sel_setOps s.
Proof.
  induction aliases as [|[scope table] aliases IH]; intros s Hs; [done|]. cbn [foldl]. unfold rewriteJoinAliasOnSelect at 2 4 6.
  destruct (rename_select_ok (rewriteQualifierToTable scope table) (rename_join_columns (rewriteQualifierToTable scope table)) s Hs) as (-> & Hw & Hc & Ha).
  destruct (IH (rewriteJoinAliasOnSelect norm scope table s)) as (E & Hw2 & Hc2 & Ha2); [unfold rewriteJoinAliasOnSelect; lia|].
  split; [exact E|]. cbn zeta in *. unfold rewriteJoinAliasOnSelect in *. split; [congruence|]. split; congruence.
Qed.

Lemma normalize_step_ok s : select_depth s ≤ S n →
  normalize_step norm2 s = normalize_step norm s ∧ select_depth (normalize_step norm s) = select_depth s.
Proof.
  intros Hs. destruct (normalize_parts_ok s Hs) as (E & Hw & Hc & Ha). unfold normalize_step. rewrite E. rewrite select_depth_parts in Hs.
  assert (where_depth (normalize_parts norm s) ≤ n) as Hn by lia. set (s1 := normalize_parts norm s) in *.
  assert (∀ s', where_depth s' = where_depth s1 ∧ sel_ctes s' = sel_ctes s1 ∧ sel_setOps s' = sel_setOps s1 → select_depth s' = select_depth s) as Hd.
  { intros s' (H1 & H2 & H3). by rewrite (select_depth_parts s'), (select_depth_parts s), H1, H2, H3, Hw, Hc, Ha. }
  destruct (sel_joins s1); [destruct (sel_tableAlias s1)|].
  - destruct (rename_select_ok (stripLocalQualifier s0 (sel_table s1) true) id s1 Hn) as [-> H]. split; [done|]. by apply Hd.
  - destruct (normalize_where_ok s1 Hn) as [-> H]. split; [done|]. by apply Hd.
  - destruct (aliases_ok (join_aliases s1) s1 Hn) as (-> & H1 & H2 & H3). cbn zeta in *.
    set (s2 := foldl _ s1 _) in *. destruct (normalize_where_ok s2) as (-> & H4 & H5 & H6); [lia|]. split; [done|]. apply Hd.
    split; [congruence|]. split; congruence.
Qed.
End step.

(** The depth of the query is fuel enough, and is not changed. *)
Lemma normalize_fuel_enough n : ∀ s, select_depth s ≤ n →
  normalize_fuel n s = normalizeSelectScopeQualifiers s ∧ select_depth (normalizeSelectScopeQualifiers s) = select_depth s.
Proof.
  assert (∀ n s, select_depth s ≤ n → select_depth (normalize_fuel n s) = select_depth s ∧ ∀ m, n ≤ m → normalize_fuel m s = normalize_fuel n s) as Hall.
  { clear n. induction n as [|n IH]; intros s Hs; [destruct s; cbn in Hs; lia|]. split.
    - cbn [normalize_fuel]. apply (normalize_step_ok n _ (normalize_fuel n)); [by apply IH|done|done].
    - intros [|m] Hm; [lia|]. cbn [normalize_fuel]. apply (normalize_step_ok n); [by apply IH| |done]. intros s' Hs'. by apply IH; [|lia]. }
  intros s Hs. unfold normalizeSelectScopeQualifiers. destruct (Hall (select_depth s) s) as [Hd Hm]; [done|]. split; [|done]. by apply Hm.
Qed.
