(* ===== verification/SelectEngine.v ===== *)
(** * SELECT

    [src/execution/select_engine.cpp], [subquery_runtime.cpp] and
    [subquery_runtime_cte.cpp]: the execution of a SELECT, with its WITH list, set
    operations and subqueries, and EXPLAIN.

    [SelectEngine] and [SubqueryRuntime] call each other: a scan evaluates the
    subqueries of its WHERE, a subquery is a scan.  [Runtime] is the interface between
    them, the three ways a nested query is evaluated; each function is written against
    it, and [runtime] ties the knot on fuel, one unit for each nested query.  The
    tables made for a WITH list live in a list of temporary tables; where the code
    shares such a table, it no longer changes it.  The number of rounds of a recursive
    CTE is bounded by the code itself ([recursiveCteLimits]). *)

From S2P Require Import Prelude Value Float64 VectorRowStore StringPattern TransactionManager Mvcc IndexExpression Predicate SetOps.
From S2P Require Import Histogram Selectivity IndexManager Table Database ForeignKeys Ast Planner JoinPlanner SelectScan JoinEngine.
From S2P Require Import SelectResult RecursiveCte Rewriter SelectScope.
Local Open Scope nat_scope.

Record RecursiveCteLimits : Type := mkRecursiveCteLimits {
  maxIterations : nat;
  maxRows : Z
}.
Definition recursiveCteLimits : RecursiveCteLimits := mkRecursiveCteLimits 1000 100000.

Section select.
Context {S : Type} `{RowStore S}.
Context (matchRegexPattern : string → string → bool).
Context (int_to_double : Z → Z) (double_add double_sub double_div : Z → Z → Z) (double_chars : Z → chars) (llround_out : double → Z).
(** What [makePageRowStore] returns. *)
Context (newStore : S) (limits : RecursiveCteLimits).
Abbreviation Table := (Table Select S).
Abbreviation Temps := (list (string * Table)).
Abbreviation scan := (M TransactionManager).
Context (snap : ReadSnapshot) (database : option (Database Select S)).

(** ** Temporary tables *)

Definition tempsContains (temps : Temps) (name : string) : bool := existsb (λ e, equalsIgnoreCase e.1 name) temps.
Definition temps_emplace (name : string) (t : Table) (temps : Temps) : Temps :=
  if existsb (λ e, String.eqb e.1 name) temps then temps else temps ++ [(name, t)].
Definition temps_assign (name : string) (t : Table) (temps : Temps) : Temps :=
  if existsb (λ e, String.eqb e.1 name) temps then (λ e, if String.eqb e.1 name then (name, t) else e) <$> temps
  else temps ++ [(name, t)].

(** An operation of a table that no transaction knows. *)
Definition on_new_table {A} (m : op Select S A) (t : Table) : result (A * Table) :=
  let '(r, s) := m (mkState t None) in a ← r; Ok (a, st_table s).

(** The type of the first value of the column that is not NULL, and INT without one. *)
Fixpoint result_column_type (i : nat) (rows : list Row) : result ColumnType :=
  match rows with
  | [] => Ok CT_Int
  | row :: rows => v ← row_at row i; if isNull v then result_column_type i rows else Value_type v
  end.

Fixpoint result_schema (i : nat) (columns : list string) (rows : list Row) : result Schema :=
  match columns with
  | [] => Ok []
  | column :: columns =>
      type ← result_column_type i rows;
      rest ← result_schema (i + 1) columns rows;
      Ok (mkColumn (unqualified column) type true false false :: rest)
  end.

Fixpoint insert_rows (rows : list Row) (t : Table) : result Table :=
  match rows with
  | [] => Ok t
  | row :: rows =>
      '(_, t) ← on_new_table (Table_insert int_to_double double_add double_sub double_chars row kSystemTransactionId) t;
      insert_rows rows t
  end.

Fixpoint index_columns (schema : Schema) (t : Table) : result Table :=
  match schema with
  | [] => Ok t
  | c :: schema =>
      '(_, t) ← on_new_table (createIndex int_to_double double_add double_sub ("idx_" +:+ col_name c) [col_name c]) t;
      index_columns schema t
  end.

Definition tableFromQueryResult (name : string) (r : QueryResult) : result Table :=
  if negb (qr_success r) then Throw (runtime_error (qr_message r))
  else
    schema ← result_schema 0 (qr_columns r) (qr_rows r);
    _ ← throw_if (bool_decide (length schema = 0)) (runtime_error "materialized CTE produced no columns");
    t ← Table_new newStore name schema [] [] [];
    t ← insert_rows (qr_rows r) t;
    index_columns (t_schema t) t.

(** ** Nested queries *)

Record Runtime : Type := mkRuntime {
  rt_values : Select → scan (list Value);
  rt_exists : Select → scan bool;
  rt_result : Select → Temps → scan QueryResult
}.

Section nested.
Context (rt : Runtime).

Fixpoint materializePredicate (p : Pred) : scan Pred :=
  match p with
  | AndPred l r => l ← materializePredicate l; r ← materializePredicate r; mret (AndPred l r)
  | OrPred l r => l ← materializePredicate l; r ← materializePredicate r; mret (OrPred l r)
  | InSubqueryPred column subquery referencesOuter =>
      if referencesOuter || sel_hasOuterRefs subquery then mret p
      else values ← rt_values rt subquery; mret (InListPred column values None false)
  | _ => mret p
  end.

Definition set_where (p : option Pred) (s : Select) : Select :=
  mkSelect (sel_table s) (sel_joins s) (sel_columns s) p (sel_groupBy s) (sel_orderBy s) (sel_limit s) (sel_ctes s)
    (sel_setOps s) (sel_tableAlias s) (sel_hasOuterRefs s).

Definition prepareSelect (command : Select) : scan (Select * RewriteResult) :=
  rewrite ← liftM (rewriteSelect command);
  let prepared := normalizeSelectScopeQualifiers (rw_query rewrite) in
  match sel_where prepared with
  | None => mret (prepared, rewrite)
  | Some p => p ← materializePredicate p; mret (set_where (Some p) prepared, rewrite)
  end.

Definition planPreparedSelect (command : Select) (t : Table) (rewrite : RewriteResult) : result QueryPlan :=
  plan ← planSelect_table double_chars llround_out command t;
  let e := qp_estimates plan in
  Ok (mkQueryPlan (qp_path plan)
        (mkPlanEstimates (pe_estimatedRows e) (pe_estimatedCost e) (pe_explanation e) (pe_notes e ++ rw_notes rewrite)
           (pe_residual e) (pe_complementaryResidual e))).

Definition bind_outer (subquery : Select) (row : Row) (t : Table) (scope : string) : scan Select :=
  liftM (bindOuterReferences row t scope subquery).

Definition collect_entries (command : Select) (t : Table) (plan : QueryPlan) : scan (list (RowId * Row) * option nat) :=
  collectVisibleEntries matchRegexPattern int_to_double double_add double_sub bind_outer (rt_exists rt) (rt_values rt) snap
    command t plan.
Definition collect_rows (command : Select) (t : Table) (plan : QueryPlan) : scan (list Row) :=
  collectRows matchRegexPattern int_to_double double_add double_sub bind_outer (rt_exists rt) (rt_values rt) snap command t plan.

Definition finalize (command : Select) (sourceColumns : list string) (rows : list Row) : scan QueryResult :=
  liftM (finalizeSelectResult int_to_double double_add double_div command sourceColumns rows).

Definition executeJoinSelect (command : Select) (temps : Temps) : scan QueryResult :=
  '(columns, rows, _) ← collectJoinRows matchRegexPattern int_to_double double_add double_sub snap database command temps;
  finalize command columns rows.

(** *** Recursive CTEs *)

Record RecursiveWorking : Type := mkRecursiveWorking {
  wk_cte : Cte;
  wk_result : Table;
  wk_delta : Table;
  wk_seen : list Row
}.

Fixpoint start_workings (group : list Cte) (extraTemps : Temps) : scan (list RecursiveWorking) :=
  match group with
  | [] => mret []
  | cte :: group =>
      match cte_body cte, cte_recursiveArm cte with
      | Some body, Some _ =>
          anchor ← rt_result rt body extraTemps;
          let anchor := if cte_recursiveDistinct cte
                        then mkQueryResult (qr_success anchor) (qr_message anchor) (qr_columns anchor) (deduplicateRows (qr_rows anchor))
                        else anchor in
          table ← liftM (tableFromQueryResult (cte_name cte) anchor);
          delta ← liftM (tableFromQueryResult (cte_name cte +:+ "#delta") anchor);
          rest ← start_workings group extraTemps;
          mret (mkRecursiveWorking cte table delta (if cte_recursiveDistinct cte then qr_rows anchor else []) :: rest)
      | _, _ => raise (runtime_error "recursive CTE is missing a recursive arm")
      end
  end.

Definition growing (workings : list RecursiveWorking) : bool :=
  existsb (λ w, Nat.ltb 0 (rs_size (t_rowStore (wk_delta w)))) workings.

Definition round_temps (extraTemps : Temps) (workings : list RecursiveWorking) : Temps :=
  foldl (λ temps w, temps_assign (cte_name (wk_cte w))
           (if cte_recursiveBindAccumulator (wk_cte w) then wk_result w else wk_delta w) temps) extraTemps workings.

Fixpoint evaluate_arms (workings : list RecursiveWorking) (temps : Temps) : scan (list QueryResult) :=
  match workings with
  | [] => mret []
  | w :: workings =>
      match cte_recursiveArm (wk_cte w) with
      | None => raise (logic_error "null pointer dereferenced")
      | Some arm => step ← rt_result rt arm temps; rest ← evaluate_arms workings temps; mret (step :: rest)
      end
  end.

(** [seen.insert(row).second] for each row. *)
Definition unseen_rows (seen : list Row) (rows : list Row) : list Row * list Row :=
  foldl (λ '(seen, new) row, if set_contains row seen then (seen, new) else (seen ++ [row], new ++ [row])) (seen, []) rows.

(** The new rows of each CTE, those seen before left out where rows are distinct. *)
Definition filter_step (w : RecursiveWorking) (step : QueryResult) : RecursiveWorking * QueryResult :=
  if cte_recursiveDistinct (wk_cte w) then
    let '(seen, new) := unseen_rows (wk_seen w) (qr_rows step) in
    (mkRecursiveWorking (wk_cte w) (wk_result w) (wk_delta w) seen, mkQueryResult (qr_success step) (qr_message step) (qr_columns step) new)
  else (w, step).

Fixpoint extend_workings (steps : list (RecursiveWorking * QueryResult)) : result (list RecursiveWorking) :=
  match steps with
  | [] => Ok []
  | (w, step) :: steps =>
      table ← insert_rows (qr_rows step) (wk_result w);
      delta ← tableFromQueryResult (cte_name (wk_cte w) +:+ "#delta")
                (mkQueryResult (qr_success step) (qr_message step) (col_name <$> t_schema (wk_result w)) (qr_rows step));
      rest ← extend_workings steps;
      Ok (mkRecursiveWorking (wk_cte w) table delta (wk_seen w) :: rest)
  end.

(** The rounds, [rounds] of them left. *)
Fixpoint recursion_rounds (rounds : nat) (extraTemps : Temps) (workings : list RecursiveWorking) : scan (list RecursiveWorking) :=
  match rounds with
  | O => mret workings
  | Datatypes.S rounds =>
      if negb (growing workings) then mret workings
      else
        steps ← evaluate_arms workings (round_temps extraTemps workings);
        let steps := zip_with filter_step workings steps in
        let totalRows := sum_list_with (λ w, rs_size (t_rowStore (wk_result w))) workings in
        let stepRows := sum_list_with (λ e, length (qr_rows e.2)) steps in
        if Z.ltb (maxRows limits) (Z.of_nat (totalRows + stepRows)) then raise (runtime_error "WITH RECURSIVE exceeded maximum row count")
        else
          workings ← liftM (extend_workings steps);
          if Nat.eqb rounds 0 && growing workings then raise (runtime_error "WITH RECURSIVE exceeded maximum iteration count")
          else recursion_rounds rounds extraTemps workings
  end.

Definition materializeRecursiveGroup (group : list Cte) (extraTemps : Temps) : scan Temps :=
  match group with
  | [] => raise (runtime_error "recursive CTE group is empty")
  | _ =>
      workings ← start_workings group extraTemps;
      workings ← recursion_rounds (maxIterations limits) extraTemps workings;
      mret (foldl (λ temps w, temps_emplace (cte_name (wk_cte w)) (wk_result w) temps) [] workings)
  end.

(** [all] is the whole list of CTEs. *)
Fixpoint materialize_ctes (all ctes : list Cte) (temps : Temps) : scan Temps :=
  match ctes with
  | [] => mret temps
  | cte :: ctes =>
      if tempsContains temps (cte_name cte) then materialize_ctes all ctes temps
      else if cte_recursive cte then
        let group := match recursiveSccContaining all (cte_name cte) with [] => [cte] | group => group end in
        let pending := List.filter (λ m, negb (tempsContains temps (cte_name m))) group in
        match pending with
        | [] => materialize_ctes all ctes temps
        | _ =>
            tables ← materializeRecursiveGroup pending temps;
            materialize_ctes all ctes (foldl (λ temps e, temps_emplace e.1 e.2 temps) temps tables)
        end
      else
        match cte_body cte with
        | None => raise (runtime_error "materialized CTE is missing a body")
        | Some body =>
            r ← rt_result rt body temps;
            t ← liftM (tableFromQueryResult (cte_name cte) r);
            materialize_ctes all ctes (temps_emplace (cte_name cte) t temps)
        end
  end.
Definition materializeCteList (ctes : list Cte) (temps : Temps) : scan Temps := materialize_ctes ctes ctes temps.

(** *** Queries *)

Definition source_columns (t : Table) : list string := col_name <$> t_schema t.

Definition stripSetOpsAndOrderLimit (s : Select) : Select :=
  mkSelect (sel_table s) (sel_joins s) (sel_columns s) (sel_where s) (sel_groupBy s) None None (sel_ctes s) []
    (sel_tableAlias s) (sel_hasOuterRefs s).

(** The CTEs of the outer query are visible in an arm without its own. *)
Definition arm_query (command arm : Select) : Select :=
  match sel_ctes arm with [] => set_ctes (sel_ctes command) arm | _ => arm end.

Fixpoint combine_arms (command : Select) (evaluate : Select → scan QueryResult) (arms : list (SetOpArm Select))
    (combined : QueryResult) : scan QueryResult :=
  match arms with
  | [] => mret combined
  | arm :: arms =>
      match arm_select arm with
      | None => raise (runtime_error "set operation is missing a SELECT arm")
      | Some s =>
          r ← evaluate (arm_query command s);
          combined ← liftM (applySetOperation (arm_op arm) combined r);
          combine_arms command evaluate arms combined
      end
  end.

(** A SELECT without set operations. *)
Definition execute_plain (command : Select) (extraTemps : Temps) : scan QueryResult :=
  '(prepared, rewrite) ← prepareSelect command;
  temps ← materializeCteList (rw_materialize rewrite) extraTemps;
  match sel_joins prepared with
  | _ :: _ => executeJoinSelect prepared temps
  | [] =>
      t ← liftM (select_requireTable database (sel_table prepared) temps);
      plan ← liftM (planPreparedSelect prepared t rewrite);
      rows ← collect_rows prepared t plan;
      finalize prepared (source_columns t) rows
  end.

Definition evaluateSelectResult (body : Select) (extraTemps : Temps) : scan QueryResult :=
  match sel_setOps body with
  | [] => execute_plain body extraTemps
  | arms =>
      l ← rt_result rt (stripSetOpsAndOrderLimit body) extraTemps;
      combined ← combine_arms body (λ s, rt_result rt s extraTemps) arms l;
      rows ← liftM (order_rows (sel_orderBy body) (qr_columns combined) (qr_rows combined));
      mret (mkQueryResult (qr_success combined) (qr_message combined) (qr_columns combined) (limit_rows (sel_limit body) rows))
  end.

(** The values of a column; the limit is tested after a value is added. *)
Fixpoint column_values (i : nat) (limit : option Z) (rows : list Row) (acc : list Value) : result (list Value) :=
  match rows with
  | [] => Ok acc
  | row :: rows =>
      v ← row_at row i;
      let acc := acc ++ [v] in
      if match limit with Some n => Z.leb n (Z.of_nat (length acc)) | None => false end then Ok acc
      else column_values i limit rows acc
  end.

Definition one_column (columns : list SelectExpr) : option string :=
  match columns with [SE_Column column] => Some column | _ => None end.

Definition require_column (message : string) (t : Table) (column : string) : result nat :=
  match columnIndex t column with Some i => Ok i | None => Throw (runtime_error message) end.

Definition evaluateSubqueryValues (subquery : Select) : scan (list Value) :=
  match sel_setOps subquery with
  | _ :: _ =>
      r ← rt_result rt subquery [];
      _ ← liftM (throw_if (negb (Nat.eqb (length (qr_columns r)) 1)) (runtime_error "IN subquery must project exactly one column"));
      liftM (column_values 0 None (qr_rows r) [])
  | [] =>
      '(prepared, rewrite) ← prepareSelect subquery;
      temps ← materializeCteList (rw_materialize rewrite) [];
      match one_column (sel_columns prepared) with
      | None => raise (runtime_error "IN subquery must project exactly one column")
      | Some column =>
          match sel_joins prepared with
          | _ :: _ =>
              r ← executeJoinSelect prepared temps;
              _ ← liftM (throw_if (negb (qr_success r)) (runtime_error (qr_message r)));
              _ ← liftM (throw_if (negb (Nat.eqb (length (qr_columns r)) 1)) (runtime_error "IN subquery must project exactly one column"));
              liftM (column_values 0 (sel_limit prepared) (qr_rows r) [])
          | [] =>
              t ← liftM (select_requireTable database (sel_table prepared) temps);
              plan ← liftM (planPreparedSelect prepared t rewrite);
              rows ← collect_rows prepared t plan;
              i ← liftM (require_column "unknown IN subquery projection column" t column);
              rows ← liftM (match sel_orderBy prepared with
                            | None => Ok rows
                            | Some o => k ← require_column "unknown ORDER BY column" t (ob_column o); sortRowsByColumn rows k (ob_ascending o)
                            end);
              liftM (column_values i (sel_limit prepared) rows [])
          end
      end
  end.

Definition limit_one (s : Select) : Select :=
  mkSelect (sel_table s) (sel_joins s) (sel_columns s) (sel_where s) (sel_groupBy s) (sel_orderBy s) (Some 1%Z) (sel_ctes s)
    (sel_setOps s) (sel_tableAlias s) (sel_hasOuterRefs s).

Definition is_empty {A} (l : list A) : bool := match l with [] => true | _ => false end.

Definition evaluateExists (subquery : Select) : scan bool :=
  match sel_setOps subquery with
  | _ :: _ => r ← rt_result rt subquery []; mret (negb (is_empty (qr_rows r)))
  | [] =>
      '(prepared, rewrite) ← prepareSelect subquery;
      temps ← materializeCteList (rw_materialize rewrite) [];
      let prepared := limit_one prepared in
      match sel_joins prepared with
      | _ :: _ =>
          r ← executeJoinSelect prepared temps;
          _ ← liftM (throw_if (negb (qr_success r)) (runtime_error (qr_message r)));
          mret (negb (is_empty (qr_rows r)))
      | [] =>
          t ← liftM (select_requireTable database (sel_table prepared) temps);
          plan ← liftM (planPreparedSelect prepared t rewrite);
          rows ← collect_rows prepared t plan;
          mret (negb (is_empty rows))
      end
  end.
End nested.

(** Without fuel nothing is evaluated. *)
Definition out_of_fuel : exn := logic_error "select: out of fuel".
Fixpoint runtime (fuel : nat) : Runtime :=
  match fuel with
  | O => mkRuntime (λ _, raise out_of_fuel) (λ _, raise out_of_fuel) (λ _ _, raise out_of_fuel)
  | Datatypes.S fuel =>
      let rt := runtime fuel in
      mkRuntime (evaluateSubqueryValues rt) (evaluateExists rt) (evaluateSelectResult rt)
  end.

(** ** SelectEngine::execute *)

Fixpoint execute_select (fuel : nat) (command : Select) : scan QueryResult :=
  match fuel with
  | O => raise out_of_fuel
  | Datatypes.S fuel =>
      match sel_setOps command with
      | [] => execute_plain (runtime fuel) command []
      | arms =>
          l ← execute_select fuel (stripSetOpsAndOrderLimit command);
          combined ← combine_arms command (execute_select fuel) arms l;
          liftM (applyOrderLimitToResult combined command)
      end
  end.

(** The rows UPDATE and DELETE change ([mutationScanSelect]). *)
Definition mutationScanSelect (table : string) (condition : option Pred) : Select :=
  mkSelect table [] [SE_Star] condition [] None None [] [] None false.
Definition mutation_targets (fuel : nat) (table : string) (condition : option Pred) : scan (list (RowId * Row)) :=
  let query := mutationScanSelect table condition in
  t ← liftM (select_requireTable database table []);
  plan ← liftM (planSelect_table double_chars llround_out query t);
  '(entries, _) ← collect_entries (runtime fuel) query t plan;
  mret entries.
End select.
