(* ===== verification/SelectProof.v ===== *)
(** * What a SELECT returns

    [execute_select] on one table: the live rows that satisfy the WHERE clause, in the
    order asked for, projected and cut off, whatever plan the costs led to. *)

From S2P Require Import Prelude Value Float64 VectorRowStore StringPattern TransactionManager Mvcc HashIndex BTreeIndex IndexExpression.
From S2P Require Import Predicate SetOps Histogram Selectivity IndexManager IndexManagerProof Table TableProof Database ForeignKeys Ast.
From S2P Require Import Planner JoinPlanner PlannerProof PlannerTotal SelectScan SelectScanProof JoinEngine JoinProof.
From S2P Require Import SelectResult SelectResultProof RecursiveCte Rewriter SelectScope SelectEngine.
Local Open Scope nat_scope.

(** ** Preparation *)

(** No subquery is evaluated before the scan. *)
Fixpoint settled (p : Pred) : bool :=
  match p with
  | AndPred l r | OrPred l r => settled l && settled r
  | InSubqueryPred _ subquery referencesOuter => referencesOuter || sel_hasOuterRefs subquery
  | _ => true
  end.

Lemma bind_ok {St A B} (m : M St A) (f : A → M St B) s a s' : m s = (Ok a, s') → (m ≫= f) s = f a s'.
Proof. intros E. unfold mbind, M_bind. by rewrite E. Qed.

Lemma rewriteSelect_no_ctes q : sel_ctes q = [] → rewriteSelect q = Ok (finish q ([], [])).
Proof.
  intros E. unfold rewriteSelect. cbn [rewrite_fuel]. unfold rewrite_step. rewrite E. do 2 f_equal. unfold stripCtes, set_ctes.
  destruct q. cbn in *. by rewrite E.
Qed.

Lemma normalize_joins q : sel_joins q = [] → sel_joins (normalizeSelectScopeQualifiers q) = [] ∧
  sel_table (normalizeSelectScopeQualifiers q) = sel_table q.
Proof.
  intros E. unfold normalizeSelectScopeQualifiers. destruct (select_depth q) as [|n]; [done|]. cbn [normalize_fuel].
  unfold normalize_step. cbn [normalize_parts sel_joins sel_tableAlias]. rewrite E. destruct (sel_tableAlias q); cbn; by rewrite E.
Qed.

Section prepare.
Context {S : Type} (rt : Runtime (S:=S)).

Lemma materialize_settled p tm : settled p = true → materializePredicate rt p tm = (Ok p, tm).
Proof.
  revert tm. induction p as [| l IHl r IHr | l IHl r IHr | | | | |]; intros tm; cbn [settled materializePredicate]; try done.
  - intros [Hl Hr]%andb_prop. rewrite (bind_ok _ _ _ _ _ (IHl tm Hl)). by rewrite (bind_ok _ _ _ _ _ (IHr tm Hr)).
  - intros [Hl Hr]%andb_prop. rewrite (bind_ok _ _ _ _ _ (IHl tm Hl)). by rewrite (bind_ok _ _ _ _ _ (IHr tm Hr)).
  - by intros ->.
Qed.

Lemma prepare_plain q tm : sel_ctes q = [] → (∀ p, sel_where (normalizeSelectScopeQualifiers q) = Some p → settled p = true) →
  prepareSelect rt q tm = (Ok (normalizeSelectScopeQualifiers q, finish q ([], [])), tm).
Proof.
  intros Hc Hs. unfold prepareSelect. rewrite (rewriteSelect_no_ctes q Hc). unfold mbind at 1, M_bind at 1, liftM. cbn [rw_query finish].
  destruct (sel_where (normalizeSelectScopeQualifiers q)) as [p|] eqn:E; [|done].
  rewrite (bind_ok _ _ _ _ _ (materialize_settled p tm (Hs p eq_refl))). unfold mret, M_ret. do 3 f_equal.
  unfold set_where. destruct (normalizeSelectScopeQualifiers q). cbn in *. by rewrite E.
Qed.
End prepare.

(** ** The result *)

(** The rows a LIMIT keeps of a projection: LIMIT 0 keeps one. *)
Definition projected_limit {A} (limit : option Z) (rows : list A) : list A :=
  match Z.to_nat <$> limit with
  | None => rows
  | Some 0 => take 1 rows
  | Some n => take n rows
  end.

Definition ordered_by (orderBy : option OrderBy) (columns : list string) (rows : list Row) : Prop :=
  match orderBy with
  | None => True
  | Some o => ∃ k, resolveResultColumn columns (ob_column o) = Ok (Some k) ∧ in_order (row_before k (ob_ascending o)) rows
  end.

Lemma project_all_ok width projection rows : Forall (row_fits width) rows → Forall (λ i, i < width) projection →
  project_all rows projection = Ok (key_of projection <$> rows).
Proof.
  intros Hr Hp. induction Hr as [|row rows Hrow Hr IH]; [done|]. destruct (project_row_ok width row projection Hrow Hp) as (E & _).
  unfold project_all in *. cbn [mapM]. cbn in *. rewrite E. cbn. by rewrite IH.
Qed.

Lemma projection_lt sourceColumns columns : ∀ projection, projection_of sourceColumns columns = Ok projection →
  Forall (λ i, i < length sourceColumns) projection.
Proof.
  induction columns as [|expr columns IH]; intros projection E; [by injection E as <-|]. cbn [projection_of] in E.
  destruct expr; try done. inv_result E. injection E as <-. constructor; [|by apply IH].
  unfold required_column in Hr. inv_result Hr. destruct a1; [|done]. injection Hr as ->. by eapply resolveResultColumn_lt.
Qed.

Lemma resolveProjection_lt q sourceColumns projection names :
  resolveProjectionFromNames q sourceColumns = Ok (projection, names) → Forall (λ i, i < length sourceColumns) projection.
Proof.
  unfold resolveProjectionFromNames. case_match.
  - intros [= <- <-]. apply Forall_forall. intros i Hi%elem_of_seq. lia.
  - intros E. inv_result E. injection E as <- <-. by eapply projection_lt.
Qed.

Lemma order_rows_ok orderBy columns rows : Forall (row_fits (length columns)) rows →
  (∀ o, orderBy = Some o → ∃ k, resolveResultColumn columns (ob_column o) = Ok (Some k)) →
  ∃ sorted, order_rows orderBy columns rows = Ok sorted ∧ sorted ≡ₚ rows ∧ ordered_by orderBy columns sorted.
Proof.
  intros Hr Ho. destruct orderBy as [o|]; [|by exists rows]. destruct (Ho o eq_refl) as [k Ek]. unfold order_rows, required_column.
  rewrite Ek. cbn [mbind result_bind]. destruct (sortRowsByColumn_ok rows k (ob_ascending o)) as (sorted & E & Hp & Hs).
  - eapply Forall_impl; [exact Hr|]. intros row Hrow. apply (row_fits_joinable (length columns)); [done|by eapply resolveResultColumn_lt].
  - exists sorted. split; [done|]. split; [done|]. by exists k.
Qed.

(** Sorting, projection and LIMIT of typed rows. *)
Lemma finalized i2d dadd ddiv q columns projection names rows : aggregating q = false → Forall (row_fits (length columns)) rows →
  resolveProjectionFromNames q columns = Ok (projection, names) →
  (∀ o, sel_orderBy q = Some o → ∃ k, resolveResultColumn columns (ob_column o) = Ok (Some k)) →
  ∃ sorted, finalizeSelectResult i2d dadd ddiv q columns rows =
      Ok (mkQueryResult true "selected rows" names (projected_limit (sel_limit q) (key_of projection <$> sorted))) ∧
    sorted ≡ₚ rows ∧ ordered_by (sel_orderBy q) columns sorted.
Proof.
  intros Ha Hr Hp Ho. destruct (order_rows_ok _ _ _ Hr Ho) as (sorted & E & Hs & Hord). exists sorted. split; [|done].
  unfold finalizeSelectResult. rewrite Ha, Hp. cbn [mbind result_bind]. rewrite E. cbn [mbind result_bind].
  rewrite (project_limit sorted projection names (Z.to_nat <$> sel_limit q) "selected rows" (key_of projection <$> sorted)).
  { unfold projected_limit. by destruct (Z.to_nat <$> sel_limit q) as [[|]|]. }
  apply (project_all_ok (length columns)); [by rewrite Hs|by eapply resolveProjection_lt].
Qed.

Section select.
Context {S : Type} `{RowStoreLaws S}.
Context (regex : string → string → bool).
Context (i2d : Z → Z) (dadd dsub ddiv : Z → Z → Z) (dchars : Z → chars) (llround_out : double → Z).
Context (newStore : S) (limits : RecursiveCteLimits) (snap : ReadSnapshot) (database : option (Database Select S)).
Abbreviation Table := (Table Select S).
Abbreviation runtime := (runtime regex i2d dadd dsub ddiv dchars llround_out newStore limits snap database).
Abbreviation execute_select := (execute_select regex i2d dadd dsub ddiv dchars llround_out newStore limits snap database).

Lemma table_rows_fit (t : Table) v : table_ok i2d dadd dsub dchars t v → Forall (row_fits (length (t_schema t))) (rows_of v).
Proof.
  intros [_ [Hheap _]]. apply Forall_forall. intros row ([i r] & -> & Hin%live_entries_elem)%list_elem_of_fmap.
  destruct (tc_rows _ _ _ _ _ _ _ (hi_core _ _ _ _ _ _ _ Hheap) i r Hin) as (Hv & Hc & _). split; [|exact Hc].
  simpl. unfold validateRow in Hv. by destruct (Nat.eqb_spec (length r) (length (t_schema t))).
Qed.

Lemma plan_without_notes query (t : Table) command plan : planSelect_table dchars llround_out query t = Ok plan →
  planPreparedSelect dchars llround_out query t (finish command ([], [])) = Ok plan.
Proof.
  intros E. unfold planPreparedSelect. rewrite E. cbn [mbind result_bind rw_notes finish fst]. rewrite app_nil_r.
  by destruct plan as [path []].
Qed.

(** C7: what a SELECT over one table returns.  For a table whose rows, indexes and
    versions agree, a snapshot that sees its current rows, a WHERE clause that can be
    evaluated on them and names that resolve, [execute_select] succeeds, whatever plan
    the statistics led to: up to order the rows are the live rows that satisfy the
    clause, in the order of ORDER BY, projected on the select list and cut off at
    LIMIT (LIMIT 0 keeps one row).  The exceptions are the plans that the scan reads
    otherwise and those that can return a row twice.  No transaction is changed. *)
Theorem select_returns_rows n (t : Table) v sub tm exprs command projection names :
  let query := normalizeSelectScopeQualifiers command in
  sel_ctes command = [] → sel_setOps command = [] → sel_joins command = [] →
  (∀ p, sel_where query = Some p → settled p = true) → aggregating query = false →
  select_requireTable database (sel_table command) [] = Ok t → table_ok i2d dadd dsub dchars t v →
  (∀ i, mvcc_read i snap tm (t_versions t) = vrs_get i v) →
  query_ok regex i2d dadd dsub bind_outer (rt_exists (runtime n)) (rt_values (runtime n)) t v sub tm exprs query →
  resolveProjectionFromNames query (source_columns t) = Ok (projection, names) →
  (∀ o, sel_orderBy query = Some o → ∃ k, resolveResultColumn (source_columns t) (ob_column o) = Ok (Some k)) →
  ∃ plan, planSelect_table dchars llround_out query t = Ok plan ∧
  ((∀ p, sel_where query = Some p → plan_supported (table_view t) p plan = true) → path_distinct (qp_path plan) = true →
   ∃ rows tm', execute_select (Datatypes.S n) command tm =
     (Ok (mkQueryResult true "selected rows" names (projected_limit (sel_limit query) (key_of projection <$> rows))), tm') ∧
     tm_transactions tm' = tm_transactions tm ∧ ordered_by (sel_orderBy query) (source_columns t) rows ∧
     rows ≡ₚ filter (λ row, opt_holds (leaf_ev regex i2d dadd dsub t (query_scope t query) sub row) true (sel_where query) = true)
               (rows_of v)).
Proof.
  intros query Hctes Hset Hjoins Hsettled Hagg Et Ht Hvis Hq Hproj Hord.
  destruct (planned_scan regex i2d dadd dsub dchars llround_out bind_outer (rt_exists (runtime n)) (rt_values (runtime n))
    t v sub snap tm exprs query Ht Hvis Hq) as (plan & Eplan & Hscan). exists plan. split; [done|]. intros Hs Hd.
  destruct (Hscan Hs) as (es & cand & tm1 & E1 & H1 & Hes & Hnd).
  assert (es.*2 ≡ₚ filter (λ row, opt_holds (leaf_ev regex i2d dadd dsub t (query_scope t query) sub row) true (sel_where query) = true)
    (rows_of v)) as Hrows by (apply entries_rows; split; [exact Hes|intros _; by apply Hnd]).
  destruct (finalized i2d dadd ddiv query (source_columns t) projection names es.*2) as (rows & Ef & Hp & Ho); [done| |done|done|].
  { unfold source_columns. rewrite length_fmap, Hrows.
    apply Forall_forall. intros row [_ Hin]%list_elem_of_filter. by apply (proj1 (Forall_forall _ _) (table_rows_fit t v Ht)). }
  exists rows, tm1. split; [|split; [done|split; [done|by rewrite Hp]]].
  cbn [SelectEngine.execute_select]. rewrite Hset. unfold execute_plain.
  rewrite (bind_ok _ _ _ _ _ (prepare_plain (runtime n) command tm Hctes Hsettled)). fold query.
  destruct (normalize_joins command Hjoins) as [Hj Htab]. fold query in Hj, Htab.
  unfold materializeCteList. cbn [rw_materialize finish snd materialize_ctes]. unfold mbind at 1, M_bind at 1, mret at 1, M_ret at 1.
  rewrite Hj, Htab, Et. rewrite (bind_ok (liftM (Ok t)) _ tm t tm eq_refl).
  rewrite (bind_ok (liftM _) _ tm plan tm) by (unfold liftM; f_equal; by apply plan_without_notes).
  rewrite (bind_ok _ _ tm es.*2 tm1).
  - unfold finalize, liftM. by rewrite Ef.
  - unfold collect_rows, collectRows. rewrite (bind_ok _ _ _ _ _ E1). done.
Qed.
End select.
