(* ===== verification/Tokenizer.v ===== *)
(** * The tokenizer

    [src/parser/tokenizer.cpp], [include/VertexDB/parser/token.hpp] and
    [parse_error.hpp].  The cursor of the code is a position in the text; the loops
    here run over the text from that position on, and keep the cursor for the
    positions of the tokens.

    The specification is the relation [lexed]: a text is split into white space
    and the longest possible tokens.  The code computes it ([tokenize_lexed]). *)

From stdpp Require Import pretty.
From S2P Require Import Prelude Value StringPattern IndexExpression.
From Stdlib Require Import Ascii.
Local Open Scope nat_scope.

Inductive TokenType : Type :=
| T_Identifier | T_Number | T_String | T_Comma | T_Semicolon | T_LeftParen | T_RightParen | T_Star | T_Equal
| T_Greater | T_Less | T_Plus | T_Minus | T_Parameter | T_Tilde | T_End.

#[export] Instance TokenType_eq_dec : EqDecision TokenType.
Proof. solve_decision. Defined.

Record Token : Type := mkToken {
  tk_type : TokenType;
  tk_lexeme : string;
  tk_offset : nat;
  tk_line : nat;
  tk_column : nat
}.

(** [ParseError]: its [what()] is all that its handlers look at. *)
Definition ParseError (message : string) (line column : nat) : exn :=
  runtime_error ("line " +:+ pretty line +:+ ", column " +:+ pretty column +:+ ": " +:+ message).

Definition isIdentifierStart (ch : ascii) : bool := isalpha ch || Ascii.eqb ch "_".
Definition isIdentifierPart (ch : ascii) : bool := isalnum ch || Ascii.eqb ch "_" || Ascii.eqb ch ".".
Definition isNumberPart (ch : ascii) : bool := isdigit ch || Ascii.eqb ch ".".

Definition newline : ascii := ascii_of_nat 10.
Definition double_quote : ascii := ascii_of_nat 34.
Definition escape : ascii := ascii_of_nat 92.

Record SourceCursor : Type := mkCursor {
  cur_pos : nat;
  cur_line : nat;
  cur_column : nat
}.

Definition advanceChar (cursor : SourceCursor) (ch : ascii) : SourceCursor :=
  if Ascii.eqb ch newline then mkCursor (Datatypes.S (cur_pos cursor)) (Datatypes.S (cur_line cursor)) 1
  else mkCursor (Datatypes.S (cur_pos cursor)) (cur_line cursor) (Datatypes.S (cur_column cursor)).

Definition makeToken (type : TokenType) (lexeme : chars) (start : SourceCursor) : Token :=
  mkToken type (implode lexeme) (cur_pos start) (cur_line start) (cur_column start).

(** The loops over identifier and number characters: what they pass over, the
    rest of the text and the cursor there. *)
Fixpoint span_while (p : ascii → bool) (text : chars) (cursor : SourceCursor) : chars * chars * SourceCursor :=
  match text with
  | c :: rest =>
      if p c then let '(word, rest, cursor) := span_while p rest (advanceChar cursor c) in (c :: word, rest, cursor)
      else ([], text, cursor)
  | [] => ([], [], cursor)
  end.

(** A string literal after its opening quote. *)
Fixpoint read_string (start : SourceCursor) (text : chars) (cursor : SourceCursor)
  : result (chars * chars * SourceCursor) :=
  let unterminated := ParseError "unterminated string literal" (cur_line start) (cur_column start) in
  match text with
  | [] => Throw unterminated
  | c :: rest =>
      if Ascii.eqb c double_quote then Ok ([], rest, advanceChar cursor c)
      else if Ascii.eqb c escape then
        match rest with
        | [] => Throw unterminated
        | d :: rest =>
            '(value, rest, cursor) ← read_string start rest (advanceChar (advanceChar cursor c) d);
            Ok (d :: value, rest, cursor)
        end
      else
        '(value, rest, cursor) ← read_string start rest (advanceChar cursor c);
        Ok (c :: value, rest, cursor)
  end.

Definition punctuation (ch : ascii) : option TokenType :=
  match ch with
  | "," => Some T_Comma
  | ";" => Some T_Semicolon
  | "(" => Some T_LeftParen
  | ")" => Some T_RightParen
  | "*" => Some T_Star
  | "=" => Some T_Equal
  | ">" => Some T_Greater
  | "<" => Some T_Less
  | "+" => Some T_Plus
  | "-" => Some T_Minus
  | "?" => Some T_Parameter
  | "~" => Some T_Tilde
  | _ => None
  end%char.

(** The main loop; every round passes over a character. *)
Fixpoint tokenize_loop (fuel : nat) (text : chars) (cursor : SourceCursor) : result (list Token) :=
  match fuel with
  | O => Throw (logic_error "out of fuel")
  | Datatypes.S fuel =>
      match text with
      | [] => Ok [makeToken T_End [] cursor]
      | ch :: rest =>
          if isspace ch then tokenize_loop fuel rest (advanceChar cursor ch)
          else if isIdentifierStart ch then
            let '(word, rest, next) := span_while isIdentifierPart rest (advanceChar cursor ch) in
            tokens ← tokenize_loop fuel rest next;
            Ok (makeToken T_Identifier (ch :: word) cursor :: tokens)
          else if isdigit ch then
            let '(word, rest, next) := span_while isNumberPart rest (advanceChar cursor ch) in
            tokens ← tokenize_loop fuel rest next;
            Ok (makeToken T_Number (ch :: word) cursor :: tokens)
          else if Ascii.eqb ch double_quote then
            '(value, rest, next) ← read_string cursor rest (advanceChar cursor ch);
            tokens ← tokenize_loop fuel rest next;
            Ok (makeToken T_String value cursor :: tokens)
          else
            match punctuation ch with
            | None => Throw (ParseError "unexpected character in SQL input" (cur_line cursor) (cur_column cursor))
            | Some type =>
                tokens ← tokenize_loop fuel rest (advanceChar cursor ch);
                Ok (makeToken type [ch] cursor :: tokens)
            end
      end
  end.

Definition cursor_start : SourceCursor := mkCursor 0 1 1.

Definition tokenize (sql : chars) : result (list Token) :=
  tokenize_loop (Datatypes.S (length sql)) sql cursor_start.

(** ** The lexical grammar *)

(** [body] is how [value] is written between quotes. *)
Inductive unescapes : chars → chars → Prop :=
| unescapes_nil : unescapes [] []
| unescapes_plain c body value : c ≠ double_quote → c ≠ escape → unescapes body value →
    unescapes (c :: body) (c :: value)
| unescapes_escaped c body value : unescapes body value → unescapes (escape :: c :: body) (c :: value).

(** The text does not go on with a character that satisfies [p]. *)
Definition stops (p : ascii → bool) (text : chars) : Prop :=
  match text with c :: _ => p c = false | [] => True end.

(** [token_text type value text rest]: in front of [rest], [text] is one token. *)
Inductive token_text : TokenType → chars → chars → chars → Prop :=
| text_identifier c word rest : isIdentifierStart c = true → Forall (λ x, isIdentifierPart x = true) word →
    stops isIdentifierPart rest → token_text T_Identifier (c :: word) (c :: word) rest
| text_number c word rest : isdigit c = true → Forall (λ x, isNumberPart x = true) word →
    stops isNumberPart rest → token_text T_Number (c :: word) (c :: word) rest
| text_string body value rest : unescapes body value →
    token_text T_String value (double_quote :: body ++ [double_quote]) rest
| text_punctuation c type rest : punctuation c = Some type → token_text type [c] [c] rest.

(** The cursor after [done]. *)
Definition cursor_after (done : chars) : SourceCursor := foldl advanceChar cursor_start done.

(** [lexed done rest tokens]: [tokens] are the tokens of [rest], which [done]
    precedes. *)
Inductive lexed : chars → chars → list Token → Prop :=
| lexed_end done : lexed done [] [makeToken T_End [] (cursor_after done)]
| lexed_space done c rest tokens : isspace c = true → lexed (done ++ [c]) rest tokens → lexed done (c :: rest) tokens
| lexed_token done type value text rest tokens : token_text type value text rest →
    lexed (done ++ text) rest tokens →
    lexed done (text ++ rest) (makeToken type value (cursor_after done) :: tokens).

(** ** The code computes it *)

Lemma cursor_after_app done text : foldl advanceChar (cursor_after done) text = cursor_after (done ++ text).
Proof. unfold cursor_after. by rewrite foldl_app. Qed.

(** Lines and columns as an editor counts them. *)
Fixpoint last_line (text : chars) : chars :=
  match text with
  | [] => []
  | c :: rest => if bool_decide (newline ∈ text) then last_line rest else text
  end.

Lemma last_line_no_newline text : newline ∉ text → last_line text = text.
Proof. destruct text as [|c text]; [done|]. intros Hn. simpl. by rewrite bool_decide_false. Qed.

Lemma last_line_snoc text c : last_line (text ++ [c]) = if Ascii.eqb c newline then [] else last_line text ++ [c].
Proof.
  induction text as [|a text IH].
  - simpl. destruct (Ascii.eqb_spec c newline) as [->|Hc]; [by rewrite bool_decide_true by set_solver|].
    by rewrite bool_decide_false by set_solver.
  - change ((a :: text) ++ [c]) with (a :: (text ++ [c])). cbn [last_line]. rewrite IH.
    destruct (Ascii.eqb_spec c newline) as [Hc|Hc].
    + rewrite Hc. by rewrite bool_decide_true by set_solver.
    + case_bool_decide as H1; case_bool_decide as H2; [done|set_solver..|done].
Qed.

Lemma cursor_after_spec done :
  cur_pos (cursor_after done) = length done ∧
  cur_line (cursor_after done) = 1 + length (filter (λ c, c = newline) done) ∧
  cur_column (cursor_after done) = 1 + length (last_line done).
Proof.
  induction done as [|c done IH] using rev_ind; [done|].
  rewrite <- cursor_after_app, last_line_snoc, filter_app, !length_app. cbn [foldl length].
  destruct IH as (Hp & Hl & Hc). unfold advanceChar. rewrite filter_cons, filter_nil.
  destruct (Ascii.eqb_spec c newline) as [E|E].
  - rewrite decide_True by done. cbn [cur_pos cur_line cur_column length]. lia.
  - rewrite decide_False by done. cbn [cur_pos cur_line cur_column length]. rewrite length_app. cbn [length]. lia.
Qed.

Lemma span_while_app p word rest cursor : Forall (λ x, p x = true) word → stops p rest →
  span_while p (word ++ rest) cursor = (word, rest, foldl advanceChar cursor word).
Proof.
  intros Hw Hs. revert cursor. induction Hw as [|c word Hc _ IH]; intros cursor; simpl.
  - destruct rest as [|c rest]; [done|]. simpl in *. by rewrite Hs.
  - by rewrite Hc, IH.
Qed.

Lemma span_while_split p text : ∃ word rest, text = word ++ rest ∧ Forall (λ x, p x = true) word ∧ stops p rest.
Proof.
  induction text as [|c text (word & rest & -> & Hw & Hs)]; [by exists [], []|].
  destruct (p c) eqn:Hc; [by exists (c :: word), rest; auto|by exists [], (c :: word ++ rest)].
Qed.

Lemma read_string_body start body value rest cursor : unescapes body value →
  read_string start (body ++ double_quote :: rest) cursor =
  Ok (value, rest, advanceChar (foldl advanceChar cursor body) double_quote).
Proof.
  intros Hb. revert cursor. induction Hb as [|c body value Hq He _ IH|c body value _ IH]; intros cursor; simpl; [done|..].
  - rewrite (proj2 (Ascii.eqb_neq _ _) Hq), (proj2 (Ascii.eqb_neq _ _) He), IH. done.
  - by rewrite IH.
Qed.

(** The errors of the tokenizer. *)
Definition lexical_error (e : exn) : Prop := ∃ message line column, e = ParseError message line column ∧
  (message = "unterminated string literal" ∨ message = "unexpected character in SQL input").

Lemma read_string_total text :
  (∃ body value rest, text = body ++ double_quote :: rest ∧ unescapes body value) ∨
  ∀ start cursor, read_string start text cursor =
    Throw (ParseError "unterminated string literal" (cur_line start) (cur_column start)).
Proof.
  remember (length text) as n eqn:Hn. revert text Hn.
  induction n as [n IH] using lt_wf_ind. intros [|c text] ->; [by right|].
  destruct (Ascii.eqb_spec c double_quote) as [->|Hq]; [left; exists [], [], text; by split; [|constructor]|].
  destruct (Ascii.eqb_spec c escape) as [->|He].
  - destruct text as [|d text]; [by right|].
    destruct (IH (length text) ltac:(simpl; lia) text eq_refl)
      as [(body & value & rest & -> & Hb)|E]; [|right; intros; simpl; by rewrite E].
    left. exists (escape :: d :: body), (d :: value), rest. by split; [|constructor].
  - destruct (IH (length text) ltac:(simpl; lia) text eq_refl) as [(body & value & rest & -> & Hb)|E].
    2: { right. intros. simpl. by rewrite (proj2 (Ascii.eqb_neq _ _) Hq), (proj2 (Ascii.eqb_neq _ _) He), E. }
    left. exists (c :: body), (c :: value), rest. by split; [|constructor].
Qed.

(** The classes of characters are disjoint, in the order the code tests them. *)
Lemma char_classes_bool c :
  let p := match punctuation c with Some _ => true | None => false end in
  let q := Ascii.eqb c double_quote in
  implb (isIdentifierStart c) (negb (isspace c)) && implb (isdigit c) (negb (isspace c) && negb (isIdentifierStart c)) &&
  implb (p || q) (negb (isspace c) && negb (isIdentifierStart c) && negb (isdigit c)) && implb p (negb q) = true.
Proof. by destruct c as [[] [] [] [] [] [] [] []]. Qed.

Lemma char_classes c :
  (isIdentifierStart c = true → isspace c = false) ∧
  (isdigit c = true → isspace c = false ∧ isIdentifierStart c = false) ∧
  (is_Some (punctuation c) ∨ c = double_quote →
     isspace c = false ∧ isIdentifierStart c = false ∧ isdigit c = false) ∧
  (is_Some (punctuation c) → c ≠ double_quote).
Proof.
  pose proof (char_classes_bool c) as H. cbv zeta in H.
  split_and!.
  - intros E. rewrite E in H. by destruct (isspace c).
  - intros E. rewrite E in H. by destruct (isspace c), (isIdentifierStart c).
  - intros [[t E]| ->]; [rewrite E in H|done].
    by destruct (isspace c), (isIdentifierStart c), (isdigit c).
  - intros [t E] ->. done.
Qed.

Lemma token_text_step type value text rest done fuel : token_text type value text rest →
  tokenize_loop (Datatypes.S fuel) (text ++ rest) (cursor_after done) =
  (tokens ← tokenize_loop fuel rest (cursor_after (done ++ text));
   Ok (makeToken type value (cursor_after done) :: tokens)).
Proof.
  intros Ht. rewrite <- cursor_after_app.
  destruct Ht as [c word rest Hc Hw Hs|c word rest Hc Hw Hs|body value rest Hb|c type rest Hc];
    pose proof (char_classes) as Hcl; cbn [tokenize_loop app].
  - destruct (Hcl c) as (H1 & _). rewrite (H1 Hc), Hc, span_while_app by done. done.
  - destruct (Hcl c) as (_ & H1 & _). destruct (H1 Hc) as [-> ->]. rewrite Hc, span_while_app by done. done.
  - destruct (Hcl double_quote) as (_ & _ & H1 & _). destruct (H1 (or_intror eq_refl)) as (-> & -> & ->).
    rewrite Ascii.eqb_refl, <- app_assoc. simpl ([double_quote] ++ rest). rewrite (read_string_body _ _ _ _ _ Hb). simpl.
    by rewrite foldl_app.
  - destruct (Hcl c) as (_ & _ & H1 & H2). destruct (H1 (or_introl (ex_intro _ _ Hc))) as (-> & -> & ->).
    rewrite (proj2 (Ascii.eqb_neq _ _) (H2 (ex_intro _ _ Hc))), Hc. done.
Qed.

(** A text goes on with a token, or tokenizing it fails. *)
Lemma token_text_total c text : isspace c = false →
  (∃ type value word rest, c :: text = word ++ rest ∧ word ≠ [] ∧ token_text type value word rest) ∨
  ∀ fuel cursor, ∃ e, tokenize_loop (Datatypes.S fuel) (c :: text) cursor = Throw e ∧ lexical_error e.
Proof.
  intros Hsp. destruct (isIdentifierStart c) eqn:Hi.
  { destruct (span_while_split isIdentifierPart text) as (word & rest & -> & Hw & Hs). left.
    exists T_Identifier, (c :: word), (c :: word), rest. by split_and!; [..|constructor]. }
  destruct (isdigit c) eqn:Hd.
  { destruct (span_while_split isNumberPart text) as (word & rest & -> & Hw & Hs). left.
    exists T_Number, (c :: word), (c :: word), rest. by split_and!; [..|constructor]. }
  destruct (Ascii.eqb_spec c double_quote) as [->|Hq].
  { destruct (read_string_total text) as [(body & value & rest & -> & Hb)|E].
    - left. exists T_String, value, (double_quote :: body ++ [double_quote]), rest.
      split_and!; [|done|by constructor]. simpl. by rewrite <- app_assoc.
    - right. intros fuel cursor. eexists. split; [cbn [tokenize_loop]; rewrite Hsp, Hi, Hd, Ascii.eqb_refl, E; reflexivity|].
      eexists _, _, _. eauto. }
  destruct (punctuation c) as [type|] eqn:Hp.
  { left. exists type, [c], [c], text. by split_and!; [..|constructor]. }
  right. intros fuel cursor. eexists. split.
  - cbn [tokenize_loop]. rewrite Hsp, Hi, Hd, (proj2 (Ascii.eqb_neq _ _) Hq), Hp. reflexivity.
  - eexists _, _, _. eauto.
Qed.

Lemma tokenize_loop_total fuel done text : length text < fuel →
  (∃ tokens, tokenize_loop fuel text (cursor_after done) = Ok tokens ∧ lexed done text tokens) ∨
  (∃ e, tokenize_loop fuel text (cursor_after done) = Throw e ∧ lexical_error e).
Proof.
  revert done text. induction fuel as [|fuel IH]; intros done text Hf; [lia|].
  destruct text as [|c text]; [left; eexists; by split; [|constructor]|]. simpl in Hf.
  destruct (isspace c) eqn:Hsp.
  { cbn [tokenize_loop]. rewrite Hsp. change (advanceChar (cursor_after done) c) with (foldl advanceChar (cursor_after done) [c]).
    rewrite cursor_after_app. destruct (IH (done ++ [c]) text) as [(tokens & E & Hl)|]; [lia| |by right].
    left. exists tokens. by split; [|constructor]. }
  destruct (token_text_total c text Hsp) as [(type & value & word & rest & Ew & Hne & Ht)|He]; [|right; apply He].
  rewrite Ew, (token_text_step _ _ _ _ done fuel Ht).
  assert (length rest < fuel) as Hr.
  { apply (f_equal length) in Ew. rewrite length_app in Ew. simpl in Ew. destruct word; [done|]. simpl in Ew. lia. }
  destruct (IH (done ++ word) rest Hr) as [(tokens & E & Hl)|(e & E & He)]; rewrite E; simpl.
  - left. eexists. split; [done|]. by econstructor.
  - right. by exists e.
Qed.

Lemma token_text_nonempty type value text rest : token_text type value text rest → text ≠ [].
Proof. by destruct 1. Qed.

Lemma lexed_tokenize fuel done text tokens : lexed done text tokens → length text < fuel →
  tokenize_loop fuel text (cursor_after done) = Ok tokens.
Proof.
  intros Hl. revert fuel. induction Hl as [done|done c rest tokens Hsp Hl IH|done type value text rest tokens Ht Hl IH];
    intros [|fuel] Hf; try (simpl in Hf; lia).
  - done.
  - cbn [tokenize_loop]. rewrite Hsp. change (advanceChar (cursor_after done) c) with (foldl advanceChar (cursor_after done) [c]).
    rewrite cursor_after_app. apply IH. simpl in Hf. lia.
  - rewrite (token_text_step _ _ _ _ done fuel Ht). pose proof (token_text_nonempty _ _ _ _ Ht). destruct text; [done|].
    rewrite IH; [done|]. rewrite length_app in Hf. simpl in Hf. lia.
Qed.

(** A token of a text starts after [done]. *)
Lemma lexed_positions done text tokens t : lexed done text tokens → t ∈ tokens →
  ∃ before after, done ++ text = before ++ after ∧ tk_offset t = length before ∧
    tk_line t = 1 + length (filter (λ c, c = newline) before) ∧ tk_column t = 1 + length (last_line before).
Proof.
  induction 1 as [done|done c rest tokens Hsp Hl IH|done type value text rest tokens Ht Hl IH].
  - intros ->%list_elem_of_singleton. exists done, []. split; [done|]. apply cursor_after_spec.
  - intros Hin. destruct (IH Hin) as (before & after & E & H). exists before, after. split; [|exact H]. by rewrite <- E, <- app_assoc.
  - rewrite elem_of_cons. intros [->|Hin].
    + exists done, (text ++ rest). split; [done|]. apply cursor_after_spec.
    + destruct (IH Hin) as (before & after & E & H). exists before, after. split; [|exact H]. by rewrite <- E, <- app_assoc.
Qed.

(** C24: the tokenizer implements the lexical grammar.  It returns the tokens of a
    text exactly when the text splits into white space and longest tokens as
    [lexed] says, ending with the [End] token; on every other text it stops with
    one of its two parse errors; and each token carries the offset, line and column
    at which it starts, as an editor counts them. *)
Theorem tokenize_lexed (sql : chars) :
  (∀ tokens, tokenize sql = Ok tokens ↔ lexed [] sql tokens) ∧
  (∀ e, tokenize sql = Throw e → lexical_error e) ∧
  (∀ tokens t, tokenize sql = Ok tokens → t ∈ tokens →
     ∃ before after, sql = before ++ after ∧ tk_offset t = length before ∧
       tk_line t = 1 + length (filter (λ c, c = newline) before) ∧ tk_column t = 1 + length (last_line before)).
Proof.
  assert (∀ tokens, tokenize sql = Ok tokens → lexed [] sql tokens) as Hs.
  { intros tokens E. unfold tokenize in E. destruct (tokenize_loop_total (Datatypes.S (length sql)) [] sql) as [(ts & E' & Hl)|(e & E' & _)];
      [lia| |]; change (cursor_after []) with cursor_start in E'; congruence. }
  split_and!.
  - intros tokens. split; [apply Hs|]. intros Hl. apply (lexed_tokenize _ [] _ _ Hl). lia.
  - intros e E. unfold tokenize in E. destruct (tokenize_loop_total (Datatypes.S (length sql)) [] sql) as [(ts & E' & _)|(e' & E' & He)];
      [lia| |]; change (cursor_after []) with cursor_start in E'; [congruence|]. by replace e with e' by congruence.
  - intros tokens t E Hin. by apply (lexed_positions [] sql tokens t (Hs _ E)).
Qed.

(** The second line of a statement with a string that holds a quote. *)
Definition select_text : chars :=
  explode "SELECT a" ++ [newline] ++ explode "WHERE b=" ++ [double_quote; escape; double_quote; double_quote].

Lemma tokenize_lexed_witness :
  let tokens := [mkToken T_Identifier "SELECT" 0 1 1; mkToken T_Identifier "a" 7 1 8; mkToken T_Identifier "WHERE" 9 2 1;
    mkToken T_Identifier "b" 15 2 7; mkToken T_Equal "=" 16 2 8;
    mkToken T_String (implode [double_quote]) 17 2 9; mkToken T_End EmptyString 21 2 13] in
  lexed [] select_text tokens.
Proof. apply (proj1 (tokenize_lexed select_text)). vm_compute. reflexivity. Defined.

(** ** Tokens without positions *)

Definition word (t : Token) : TokenType * string := (tk_type t, tk_lexeme t).

(** [reads text words]: in front of [rest], [text] is the tokens [words]. *)
Definition reads (text : chars) (words : list (TokenType * string)) (rest : chars) : Prop :=
  ∀ done tokens, lexed (done ++ text) rest tokens →
    ∃ ts, lexed done (text ++ rest) (ts ++ tokens) ∧ word <$> ts = words.

Lemma reads_nil rest : reads [] [] rest.
Proof. intros done tokens Hl. rewrite app_nil_r in Hl. by exists []. Qed.

Lemma reads_app a b wa wb rest : reads a wa (b ++ rest) → reads b wb rest → reads (a ++ b) (wa ++ wb) rest.
Proof.
  intros Ha Hb done tokens Hl. rewrite app_assoc in Hl. destruct (Hb _ _ Hl) as (tb & Hlb & <-).
  destruct (Ha _ _ Hlb) as (ta & Hla & <-). exists (ta ++ tb). by rewrite <- !app_assoc, fmap_app.
Qed.

Lemma reads_space c rest : isspace c = true → reads [c] [] rest.
Proof. intros Hc done tokens Hl. exists []. split; [|done]. by constructor. Qed.

Lemma reads_token type value text rest : token_text type value text rest → reads text [(type, implode value)] rest.
Proof. intros Ht done tokens Hl. exists [makeToken type value (cursor_after done)]. split; [|done]. by constructor. Qed.

Lemma reads_tokenize text words : reads text words [] → ∃ tokens, tokenize text = Ok tokens ∧
  word <$> tokens = words ++ [(T_End, EmptyString)].
Proof.
  intros H. destruct (H [] [makeToken T_End [] (cursor_after text)]) as (ts & Hl & <-); [constructor|].
  rewrite app_nil_r in Hl. eexists. split; [apply (lexed_tokenize _ [] _ _ Hl); lia|]. by rewrite fmap_app.
Qed.

(** The names that are one identifier token. *)
Definition is_identifier (name : string) : Prop :=
  match explode name with
  | c :: w => isIdentifierStart c = true ∧ Forall (λ x, isIdentifierPart x = true) w
  | [] => False
  end.
#[export] Instance is_identifier_dec name : Decision (is_identifier name).
Proof. unfold is_identifier. destruct (explode name); apply _. Defined.

Lemma reads_identifier name rest : is_identifier name → stops isIdentifierPart rest →
  reads (explode name) [(T_Identifier, name)] rest.
Proof.
  intros Hi Hs. rewrite <- (String.string_of_list_ascii_of_string name) at 2. apply reads_token. unfold is_identifier in Hi.
  destruct (explode name) as [|c w]; [done|]. destruct Hi. by constructor.
Qed.

Lemma reads_punctuation c type rest : punctuation c = Some type → reads [c] [(type, implode [c])] rest.
Proof. intros Hc. by apply reads_token, text_punctuation. Qed.
