(* ===== verification/SqlLiteral.v ===== *)
(** * SQL text of logged statements

    [src/execution/sql_literal.cpp]: the statements of the catalog engine are logged
    as SQL, which replay parses again.  Text is a list of characters; the printing
    of a [double] is the parameter [double_chars]. *)

From S2P Require Import Prelude Value StringPattern IndexExpression Predicate Histogram IndexManager Table Ast ForeignKeys.
From Stdlib Require Import Ascii.
Local Open Scope nat_scope.

Section literals.
Context {Select : Type} (double_chars : Z → chars).
Abbreviation Predicate := (Predicate Select).

(** ** Literals *)

Definition quote : ascii := ascii_of_nat 34.
Definition backslash : ascii := ascii_of_nat 92.

Definition escaped (s : chars) : chars :=
  flat_map (λ c, if Ascii.eqb c quote || Ascii.eqb c backslash then [backslash; c] else [c]) s.

Definition sqlLiteral (v : Value) : result chars :=
  if isNull v then Ok (explode "NULL")
  else if isComposite v then Ok (Value_toString double_chars v)
  else
    t ← Value_type v;
    match t, v with
    | CT_Double, VDouble b =>
        let text := double_chars b in
        Ok (if existsb (λ c, Ascii.eqb c "." || Ascii.eqb c "e" || Ascii.eqb c "E") text
            then text else text ++ explode ".0")
    | CT_String, VString s => Ok (quote :: escaped (explode s) ++ [quote])
    | _, _ => Ok (Value_toString double_chars v)
    end.

(** Items joined by a comma and a space. *)
Fixpoint commas (items : list chars) : chars :=
  match items with
  | [] => []
  | [item] => item
  | item :: items => item ++ explode ", " ++ commas items
  end.

Fixpoint predicateLiteral (p : Predicate) : result chars :=
  match p with
  | AndPred l r =>
      l ← predicateLiteral l; r ← predicateLiteral r;
      Ok (explode "(" ++ l ++ explode " AND " ++ r ++ explode ")")
  | OrPred l r =>
      l ← predicateLiteral l; r ← predicateLiteral r;
      Ok (explode "(" ++ l ++ explode " OR " ++ r ++ explode ")")
  | InListPred column values _ _ =>
      values ← mapM sqlLiteral values;
      Ok (explode column ++ explode " IN (" ++ commas values ++ explode ")")
  | InSubqueryPred column _ _ => Ok (explode column ++ explode " IN (SELECT ...)")
  | ExistsPred _ _ => Ok (explode "EXISTS (SELECT ...)")
  | LikePred column pattern _ =>
      text ← sqlLiteral (VString pattern); Ok (explode column ++ explode " LIKE " ++ text)
  | RegexPred column pattern _ =>
      text ← sqlLiteral (VString pattern); Ok (explode column ++ explode " ~ " ++ text)
  | ComparisonPred column op value rhsColumn expression _ =>
      let left := match expression with
                  | Some e => explode "(" ++ indexExpressionToString double_chars e ++ explode ")"
                  | None => explode column
                  end in
      right ← match rhsColumn with Some rhs => Ok (explode rhs) | None => sqlLiteral value end;
      Ok (left ++ explode " " ++ op_text op ++ explode " " ++ right)
  end.

(** ** Statements as text *)

Definition createIndexSql (command : CreateIndex) : chars :=
  let head := explode "CREATE INDEX " ++ explode (ci_name command) ++ explode " ON " ++ explode (ci_table command) in
  match ci_expression command with
  | Some e => head ++ explode "((" ++ indexExpressionToString double_chars e ++ explode "));"
  | None =>
      let list := match ci_columns command with [] => [ci_column command] | columns => columns end in
      head ++ explode "(" ++ commas (explode <$> list) ++ explode ");"
  end.

Definition dropIndexSql (name table : string) : chars :=
  explode "DROP INDEX " ++ explode name ++ explode " ON " ++ explode table ++ explode ";".

Definition alterTableSql (command : AlterTable) : result chars :=
  let head := explode "ALTER TABLE " ++ explode (at_table command) in
  match at_action command with
  | AlterAddColumn column defaultValue =>
      fill ← match defaultValue with
             | Some value => text ← sqlLiteral value; Ok (explode " DEFAULT " ++ text)
             | None => Ok []
             end;
      Ok (head ++ explode " ADD COLUMN " ++ explode (col_name column) ++ explode " " ++
          explode (ColumnType_toString (col_type column)) ++ explode " " ++
          explode (if col_nullable column then "NULL" else "NOT NULL") ++ fill ++ explode ";")
  | AlterDropColumn column cascade =>
      Ok (head ++ explode " DROP COLUMN " ++ explode column ++ explode (if cascade then " CASCADE;" else ";"))
  | AlterRenameColumn oldName newName =>
      Ok (head ++ explode " RENAME COLUMN " ++ explode oldName ++ explode " TO " ++ explode newName ++ explode ";")
  end.

Definition columnSql (column : Column) : chars :=
  explode (col_name column) ++ explode " " ++ explode (ColumnType_toString (col_type column)) ++
  (if col_nullable column then explode " NULL"
   else if negb (col_primaryKey column) then explode " NOT NULL" else []) ++
  (if col_primaryKey column then explode " PRIMARY KEY"
   else if col_unique column then explode " UNIQUE" else []).

Definition uniqueSql (c : UniqueConstraint) : chars :=
  explode ", " ++ explode (if uc_primaryKey c then "PRIMARY KEY (" else "UNIQUE (") ++
  commas (explode <$> uc_columns c) ++ explode ")".

Definition createTableSql (command : CreateTable Select) : result chars :=
  checks ← mapM (λ check, text ← checkConstraintLiteral double_chars check;
                          Ok (explode ", CHECK (" ++ text ++ explode ")")) (ct_checkConstraints command);
  Ok (explode "CREATE TABLE " ++ explode (ct_name command) ++ explode " (" ++
      commas (columnSql <$> ct_columns command) ++ concat (uniqueSql <$> ct_uniqueConstraints command) ++
      concat checks ++ concat ((λ fk, explode ", " ++ explode (foreignKeyLiteral fk)) <$> ct_foreignKeys command) ++
      explode ");").

Definition insertSql (table : string) (row : Row) : result chars :=
  values ← mapM sqlLiteral row;
  Ok (explode "INSERT INTO " ++ explode table ++ explode " VALUES (" ++ commas values ++ explode ");").

Definition where_sql (condition : option Predicate) : result chars :=
  match condition with
  | Some p => text ← predicateLiteral p; Ok (explode " WHERE " ++ text)
  | None => Ok []
  end.

Definition updateSql (command : Update Select) : result chars :=
  value ← sqlLiteral (up_value command);
  w ← where_sql (up_where command);
  Ok (explode "UPDATE " ++ explode (up_table command) ++ explode " SET " ++ explode (up_column command) ++
      explode " = " ++ value ++ w ++ explode ";").

Definition deleteSql (table : string) (condition : option Predicate) : result chars :=
  w ← where_sql condition;
  Ok (explode "DELETE FROM " ++ explode table ++ w ++ explode ";").
End literals.

