(* ===== verification/Parser.v ===== *)
(** * The parser

    [src/parser/parser.cpp], [parser_predicate.cpp], [parser_ddl.cpp],
    [parser_dml.cpp], [parser_select.cpp], [parser_with.cpp],
    [parser_outer_refs.cpp] and [parse_utils.hpp]: recursive descent over the
    tokens.

    A parser keeps its state when a statement throws, and a shell uses one parser
    for all its statements.  The functions that call each other through nested
    parentheses, subqueries and WITH are tied together by [grammar], on fuel; each
    nesting passes over a token, so the number of tokens is enough
    ([ParserTotal]).  [std::stod] is a parameter; [None] is its [out_of_range]. *)

From S2P Require Import Prelude Value StringPattern IndexExpression Predicate SetOps Histogram IndexManager Table.
From S2P Require Import Ast Tokenizer RecursiveCte Database.
From Stdlib Require Import Ascii.
Local Open Scope nat_scope.

Record Parser : Type := mkParser {
  p_tokens : list Token;
  p_current : nat;
  p_currentFromTable : string;
  p_outerTableStack : list string;
  p_nextParameterIndex : nat
}.

Abbreviation parse := (M Parser).
Abbreviation Pred := (Predicate Select).

Definition parser_new : Parser := mkParser [] 0 EmptyString [] 0.

Definition set_current (n : nat) (p : Parser) : Parser :=
  mkParser (p_tokens p) n (p_currentFromTable p) (p_outerTableStack p) (p_nextParameterIndex p).
Definition set_from (table : string) (p : Parser) : Parser :=
  mkParser (p_tokens p) (p_current p) table (p_outerTableStack p) (p_nextParameterIndex p).
Definition set_outer (stack : list string) (p : Parser) : Parser :=
  mkParser (p_tokens p) (p_current p) (p_currentFromTable p) stack (p_nextParameterIndex p).
Definition set_parameter (n : nat) (p : Parser) : Parser :=
  mkParser (p_tokens p) (p_current p) (p_currentFromTable p) (p_outerTableStack p) n.

(** ** Tokens *)

Definition peek : parse Token := λ p,
  match p_tokens p !! p_current p with
  | None => (Throw (ParseError "parser read past end of token stream" 1 1), p)
  | Some t => (Ok t, p)
  end.

Definition advance : parse Token :=
  t ← peek;
  _ ← (if bool_decide (tk_type t = T_End) then mret tt else modify (λ p, set_current (Datatypes.S (p_current p)) p));
  mret t.

(** An empty [lexeme] stands for any. *)
Definition token_is (type : TokenType) (lexeme : string) (t : Token) : bool :=
  bool_decide (tk_type t = type) && (String.eqb lexeme EmptyString || equalsIgnoreCase (tk_lexeme t) lexeme).

Definition Parser_match (type : TokenType) (lexeme : string) : parse bool :=
  t ← peek;
  if token_is type lexeme t then _ ← advance; mret true else mret false.

Definition keyword (lexeme : string) : parse bool := Parser_match T_Identifier lexeme.
Definition symbol (type : TokenType) : parse bool := Parser_match type EmptyString.

Definition error {A} (message : string) : parse A :=
  t ← peek;
  raise (ParseError message (tk_line t) (tk_column t)).

Definition expect (type : TokenType) (lexeme : string) : parse unit :=
  ok ← Parser_match type lexeme;
  if ok : bool then mret tt
  else if String.eqb lexeme EmptyString then error "unexpected token"
  else error ("expected '" +:+ lexeme +:+ "'").

Definition expect_keyword (lexeme : string) : parse unit := expect T_Identifier lexeme.
Definition expect_symbol (type : TokenType) : parse unit := expect type EmptyString.

Definition expectStatementEnd : parse unit :=
  _ ← symbol T_Semicolon;
  t ← peek;
  if bool_decide (tk_type t = T_End) then mret tt else error "unexpected trailing token".

(** [advance()], which must be an identifier. *)
Definition name_or (message : string) : parse string :=
  t ← advance;
  if bool_decide (tk_type t = T_Identifier) then mret (tk_lexeme t) else raise (runtime_error message).

Definition fail {A} (message : string) : parse A := raise (runtime_error message).

(** [if (c) throw std::runtime_error(message)] *)
Definition fail_if (c : bool) (message : string) : parse unit := if c then fail message else mret tt.

(** [catch (const std::runtime_error &)] *)
Definition catch_runtime {A} (m h : parse A) : parse A := λ p,
  match m p with
  | (Throw (runtime_error _ | SerializationFailure _), p) => h p
  | r => r
  end.

(** ** Loops

    A loop repeats [step] until it gives [None]; a step that gives a state has
    passed over a token. *)

Definition parse_fuel_spent : exn := logic_error "out of fuel".

Fixpoint loop_fuel {A} (fuel : nat) (step : A → parse (option A)) (a : A) : parse A :=
  match fuel with
  | O => raise parse_fuel_spent
  | Datatypes.S fuel =>
      next ← step a;
      match next with
      | None => mret a
      | Some a => loop_fuel fuel step a
      end
  end.

Definition remaining (p : Parser) : nat := length (p_tokens p) - p_current p.

Definition loop {A} (step : A → parse (option A)) (a : A) : parse A :=
  n ← gets remaining;
  loop_fuel (Datatypes.S n) step a.

(** [while (cond) body] *)
Definition while {A} (cond : parse bool) (body : A → parse A) (a : A) : parse A :=
  loop (λ a, go ← cond; if go : bool then a ← body a; mret (Some a) else mret None) a.

(** [do item while (match(Comma))] *)
Definition commas_of {A} (body : A → parse A) (a : A) : parse A :=
  a ← body a; while (symbol T_Comma) body a.

Definition comma_list {A} (item : parse A) : parse (list A) :=
  commas_of (λ l, x ← item; mret (l ++ [x])) [].

(** ** Names *)

Definition columnQualifier (name : string) : option string :=
  let '(q, rest) := (fix split (l : chars) : chars * chars :=
    match l with
    | [] => ([], [])
    | c :: l => if Ascii.eqb c "." then ([], c :: l) else let '(q, rest) := split l in (c :: q, rest)
    end) (explode name) in
  match rest with [] => None | _ => Some (implode q) end.

Definition refersToOuterTable (column innerTable : string) (outerTables : list string) : bool :=
  match columnQualifier column with
  | None => false
  | Some table =>
      if equalsIgnoreCase table innerTable then false
      else if existsb (equalsIgnoreCase table) outerTables then true
      else match outerTables with [] => false | _ => true end
  end.

Definition isSelectClauseKeyword (lexeme : string) : bool :=
  existsb (equalsIgnoreCase lexeme)
    ["WHERE"; "JOIN"; "GROUP"; "ORDER"; "LIMIT"; "UNION"; "INTERSECT"; "EXCEPT"; "HAVING"; "ON"; "LEFT"; "RIGHT";
     "FULL"; "INNER"; "OUTER"; "CROSS"; "ALL"].
Definition isJoinIntroducer (lexeme : string) : bool :=
  existsb (equalsIgnoreCase lexeme) ["JOIN"; "LEFT"; "RIGHT"; "FULL"; "INNER"; "CROSS"].

Definition kMaxOuterCorrelationDepth : nat := 8.
Definition kMaxNestedWithDepth : nat := 6.

(** ** Outer references *)

(** The outer references of a predicate, with [outer] the stack of tables. *)
Fixpoint markOuterRefs (outer : list string) (innerTable : string) (p : Pred) : result Pred :=
  let mark (b : bool) : result unit :=
    throw_if (b && Nat.ltb kMaxOuterCorrelationDepth (length outer))
      (runtime_error "correlated subquery exceeds maximum outer depth") in
  match p with
  | AndPred l r => l ← markOuterRefs outer innerTable l; r ← markOuterRefs outer innerTable r; Ok (AndPred l r)
  | OrPred l r => l ← markOuterRefs outer innerTable l; r ← markOuterRefs outer innerTable r; Ok (OrPred l r)
  | InSubqueryPred column subquery o =>
      _ ← mark (sel_hasOuterRefs subquery); Ok (InSubqueryPred column subquery (o || sel_hasOuterRefs subquery))
  | ExistsPred subquery o =>
      _ ← mark (sel_hasOuterRefs subquery); Ok (ExistsPred subquery (o || sel_hasOuterRefs subquery))
  | ComparisonPred column op value rhsColumn expression o =>
      let b := refersToOuterTable column innerTable outer
               || match rhsColumn with
                  | None => false
                  | Some rhs =>
                      refersToOuterTable rhs innerTable outer
                      || (negb (bool_decide (is_Some (columnQualifier rhs))) && negb (bool_decide (outer = [])))
                  end in
      _ ← mark b; Ok (ComparisonPred column op value rhsColumn expression (o || b))
  | LikePred column pattern o =>
      let b := refersToOuterTable column innerTable outer in _ ← mark b; Ok (LikePred column pattern (o || b))
  | RegexPred column pattern o =>
      let b := refersToOuterTable column innerTable outer in _ ← mark b; Ok (RegexPred column pattern (o || b))
  | InListPred column values expression o =>
      let b := refersToOuterTable column innerTable outer in _ ← mark b; Ok (InListPred column values expression (o || b))
  end.

Definition outer_of (s : option Select) : bool := match s with Some s => sel_hasOuterRefs s | None => false end.

Fixpoint markOuterRefs_select (outer : list string) (innerTable : string) (s : Select) : result Select :=
  match s with
  | mkSelect table joins columns condition groupBy orderBy limit ctes setOps alias has =>
      let mark (o : option Select) : result (option Select) :=
        match o with
        | None => Ok None
        | Some s => s ← markOuterRefs_select outer (selectScopeName s) s; Ok (Some s)
        end in
      ctes ← (fix go (l : list Cte) : result (list Cte) :=
        match l with
        | [] => Ok []
        | mkCteEntry name body mode recursive distinct accumulator arm :: l =>
            body ← mark body; arm ← mark arm; l ← go l;
            Ok (mkCteEntry name body mode recursive distinct accumulator arm :: l)
        end) ctes;
      setOps ← (fix go (l : list (SetOpArm Select)) : result (list (SetOpArm Select)) :=
        match l with
        | [] => Ok []
        | mkSetOpArm op arm :: l => arm ← mark arm; l ← go l; Ok (mkSetOpArm op arm :: l)
        end) setOps;
      condition ← match condition with
                  | None => Ok None
                  | Some p => p ← markOuterRefs outer innerTable p; Ok (Some p)
                  end;
      Ok (mkSelect table joins columns condition groupBy orderBy limit ctes setOps alias
            (has || existsb (λ c, outer_of (cte_body c) || outer_of (cte_recursiveArm c)) ctes
             || existsb (λ a, outer_of (arm_select a)) setOps
             || match condition with Some p => predicateReferencesOuter p | None => false end))
  end.

Section grammar.
Context (stod : chars → option Z).

(** ** Literals and expressions *)

Definition parseIntLiteral (lexeme : string) : parse Z :=
  match from_chars (explode lexeme) with
  | Some i => mret i
  | None => fail "invalid integer literal"
  end.

Definition has_dot (lexeme : string) : bool := existsb (λ c, Ascii.eqb c ".") (explode lexeme).

Definition parseDouble (lexeme : string) : parse Z :=
  match stod (explode lexeme) with
  | Some bits => mret bits
  | None => raise (out_of_range "stod")
  end.

Definition parseValue : parse Value :=
  parameter ← symbol T_Parameter;
  if parameter : bool then
    index ← gets p_nextParameterIndex;
    _ ← modify (set_parameter (Datatypes.S index));
    mret (VParam index)
  else
    minus ← symbol T_Minus;
    if minus : bool then
      t ← advance;
      if negb (bool_decide (tk_type t = T_Number)) then fail "expected numeric literal after minus"
      else if has_dot (tk_lexeme t) then bits ← parseDouble (tk_lexeme t); mret (VDouble (double_neg bits))
      else i ← parseIntLiteral (tk_lexeme t); mret (VInt (- i))
    else
      t ← advance;
      if bool_decide (tk_type t = T_Identifier) && equalsIgnoreCase (tk_lexeme t) "NULL" then mret VNull
      else if bool_decide (tk_type t = T_String) then mret (VString (tk_lexeme t))
      else if bool_decide (tk_type t = T_Number) then
        if has_dot (tk_lexeme t) then bits ← parseDouble (tk_lexeme t); mret (VDouble bits)
        else i ← parseIntLiteral (tk_lexeme t); mret (VInt i)
      else fail "expected literal value".

Definition qualified (name : string) : bool := bool_decide (is_Some (columnQualifier name)).

Definition parseIndexExpression : parse IndexExpression :=
  let unqualified := "expression index column must be unqualified" in
  minus ← symbol T_Minus;
  if minus : bool then
    column ← name_or "expected column after unary minus";
    _ ← fail_if (qualified column) unqualified;
    mret (mkIndexExpression K_Negate column VNull)
  else
    column ← name_or "expected expression column";
    if equalsIgnoreCase column "trigram" then
      _ ← expect_symbol T_LeftParen;
      inner ← name_or "expected trigram column";
      _ ← fail_if (qualified inner) unqualified;
      _ ← expect_symbol T_RightParen;
      mret (mkIndexExpression K_Trigram inner VNull)
    else
      _ ← fail_if (qualified column) unqualified;
      plus ← symbol T_Plus;
      if plus : bool then v ← parseValue; mret (mkIndexExpression K_Add column v)
      else
        minus ← symbol T_Minus;
        if minus : bool then v ← parseValue; mret (mkIndexExpression K_Subtract column v)
        else mret (mkIndexExpression K_Column column VNull).

Definition comparison_operator (message : string) : parse ComparisonOperator :=
  equal ← symbol T_Equal;
  if equal : bool then mret Equal
  else
    greater ← symbol T_Greater;
    if greater : bool then mret Greater
    else
      less ← symbol T_Less;
      if less : bool then mret Less else fail message.

(** ** Predicates *)

(** The functions that are called from inside nested text. *)
Record Grammar : Type := mkGrammar {
  g_predicate : parse Pred;
  g_select : parse Select;
  g_with : nat → parse Select
}.

Section open_grammar.
Context (g : Grammar).

Definition parseSubquerySelect : parse Select :=
  from ← gets p_currentFromTable;
  if String.eqb from EmptyString then fail "subquery is missing an outer FROM scope"
  else
    _ ← modify (λ p, set_outer (p_outerTableStack p ++ [from]) p);
    with_ ← keyword "WITH";
    subquery ← (if with_ : bool then g_with g 0 else _ ← expect_keyword "SELECT"; g_select g);
    _ ← modify (set_from from);
    outer ← gets p_outerTableStack;
    subquery ← liftM (markOuterRefs_select outer (selectScopeName subquery) subquery);
    _ ← modify (λ p, set_outer (removelast (p_outerTableStack p)) p);
    mret subquery.

Definition parseExistsPredicate : parse Pred :=
  _ ← expect_symbol T_LeftParen;
  subquery ← parseSubquerySelect;
  _ ← expect_symbol T_RightParen;
  mret (ExistsPred subquery (sel_hasOuterRefs subquery)).

Definition parse_pattern (message : string) : parse string :=
  pattern ← parseValue;
  type ← liftM (Value_type pattern);
  match pattern with
  | VString s => if bool_decide (type = CT_String) then mret s else fail message
  | _ => fail message
  end.

Definition parse_in (column : string) : parse Pred :=
  _ ← expect_symbol T_LeftParen;
  t ← peek;
  if bool_decide (tk_type t = T_Identifier)
     && (equalsIgnoreCase (tk_lexeme t) "SELECT" || equalsIgnoreCase (tk_lexeme t) "WITH")
  then
    subquery ← parseSubquerySelect;
    match sel_columns subquery with
    | [SE_Column _] =>
        _ ← expect_symbol T_RightParen;
        mret (InSubqueryPred column subquery (sel_hasOuterRefs subquery))
    | _ => fail "IN subquery must project exactly one column"
    end
  else
    values ← comma_list parseValue;
    _ ← expect_symbol T_RightParen;
    mret (InListPred column values None false).

Definition parseComparisonPredicate : parse Pred :=
  column ← name_or "expected predicate column";
  in_ ← keyword "IN";
  if in_ : bool then parse_in column
  else
    like ← keyword "LIKE";
    if like : bool then
      pattern ← parse_pattern "LIKE pattern must be a string literal"; mret (LikePred column pattern false)
    else
      tilde ← symbol T_Tilde;
      if tilde : bool then
        pattern ← parse_pattern "regex pattern must be a string literal"; mret (RegexPred column pattern false)
      else
        op ← comparison_operator "expected comparison operator";
        t ← peek;
        if bool_decide (tk_type t = T_Identifier) && negb (equalsIgnoreCase (tk_lexeme t) "NULL") then
          rhs ← advance;
          mret (ComparisonPred column op VNull (Some (tk_lexeme rhs)) None false)
        else
          value ← parseValue;
          mret (ComparisonPred column op value None None false).

(** [(expr) op value], after the parenthesis. *)
Definition parse_expression_comparison : parse Pred :=
  expression ← parseIndexExpression;
  _ ← expect_symbol T_RightParen;
  op ← comparison_operator "expected comparison operator";
  value ← parseValue;
  mret (ComparisonPred (ie_column expression) op value None (Some expression) false).

(** The attempt rewinds the tokens, not the parameter counter, when it fails. *)
Definition try_expression_comparison : parse (option Pred) :=
  t ← peek;
  if bool_decide (tk_type t = T_Identifier) || bool_decide (tk_type t = T_Minus) then
    saved ← gets p_current;
    catch_runtime (p ← parse_expression_comparison; mret (Some p)) (_ ← modify (set_current saved); mret None)
  else mret None.

Definition parsePrimaryPredicate : parse Pred :=
  exists_ ← keyword "EXISTS";
  if exists_ : bool then parseExistsPredicate
  else
    paren ← symbol T_LeftParen;
    if paren : bool then
      attempt ← try_expression_comparison;
      match attempt with
      | Some p => mret p
      | None => p ← g_predicate g; _ ← expect_symbol T_RightParen; mret p
      end
    else parseComparisonPredicate.

Definition parseAndPredicate : parse Pred :=
  p ← parsePrimaryPredicate;
  while (keyword "AND") (λ l, r ← parsePrimaryPredicate; mret (AndPred l r)) p.

Definition parseOrPredicate : parse Pred :=
  p ← parseAndPredicate;
  while (keyword "OR") (λ l, r ← parseAndPredicate; mret (OrPred l r)) p.

Definition parsePredicate : parse Pred := parseOrPredicate.

(** [if (match("WHERE")) where = parsePredicate()] *)
Definition parse_where (p : parse Pred) : parse (option Pred) :=
  has ← keyword "WHERE";
  if has : bool then p ← p; mret (Some p) else mret None.

(** ** SELECT *)

Definition aggregateOpFromName (name : string) : option AggregateOp :=
  if equalsIgnoreCase name "COUNT" then Some AO_Count
  else if equalsIgnoreCase name "SUM" then Some AO_Sum
  else if equalsIgnoreCase name "AVG" then Some AO_Avg
  else if equalsIgnoreCase name "MIN" then Some AO_Min
  else if equalsIgnoreCase name "MAX" then Some AO_Max
  else None.

Definition parse_aggregate (agg : AggregateOp) : parse SelectExpr :=
  _ ← advance;
  _ ← expect_symbol T_LeftParen;
  star ← (if bool_decide (agg = AO_Count) then symbol T_Star else mret false);
  if star : bool then _ ← expect_symbol T_RightParen; mret (SE_Aggregate AO_CountStar None)
  else
    arg ← name_or "expected aggregate column argument";
    _ ← expect_symbol T_RightParen;
    mret (SE_Aggregate agg (Some arg)).

Definition parse_select_item : parse SelectExpr :=
  t ← peek;
  next ← gets (λ p, p_tokens p !! Datatypes.S (p_current p));
  let agg := if bool_decide (tk_type t = T_Identifier) then aggregateOpFromName (tk_lexeme t) else None in
  match agg, next with
  | Some agg, Some n =>
      if bool_decide (tk_type n = T_LeftParen) then parse_aggregate agg
      else column ← name_or "expected selected column"; mret (SE_Column column)
  | _, _ => column ← name_or "expected selected column"; mret (SE_Column column)
  end.

Definition parse_alias : parse (option string) :=
  _ ← keyword "AS";
  t ← peek;
  if bool_decide (tk_type t = T_Identifier) && negb (isSelectClauseKeyword (tk_lexeme t))
  then t ← advance; mret (Some (tk_lexeme t))
  else mret None.

(** The table of FROM, its alias and the CTE of a derived table. *)
Definition parse_from : parse (string * option string * list Cte) :=
  paren ← symbol T_LeftParen;
  if paren : bool then
    _ ← expect_keyword "SELECT";
    body ← g_select g;
    _ ← expect_symbol T_RightParen;
    _ ← keyword "AS";
    alias ← name_or "expected derived table alias";
    mret (alias, None, [mkCteEntry alias (Some body) MM_DefaultInline false false false None])
  else
    table ← name_or "expected table name";
    alias ← parse_alias;
    mret (table, alias, []).

Definition parse_join_kind : parse JoinKind :=
  let outer (kind : JoinKind) : parse JoinKind := _ ← keyword "OUTER"; _ ← expect_keyword "JOIN"; mret kind in
  left ← keyword "LEFT";
  if left : bool then outer JK_LeftOuter
  else
    right ← keyword "RIGHT";
    if right : bool then outer JK_RightOuter
    else
      full ← keyword "FULL";
      if full : bool then outer JK_FullOuter
      else
        cross ← keyword "CROSS";
        if cross : bool then _ ← expect_keyword "JOIN"; mret JK_Cross
        else _ ← keyword "INNER"; _ ← expect_keyword "JOIN"; mret JK_Inner.

Definition parse_join : parse JoinClause :=
  kind ← parse_join_kind;
  table ← name_or "expected joined table name";
  alias ← parse_alias;
  if bool_decide (kind = JK_Cross) then mret (mkJoinClause table EmptyString EmptyString alias kind Equal)
  else
    _ ← expect_keyword "ON";
    left ← name_or "expected left join column";
    op ← comparison_operator "expected join comparison operator";
    right ← name_or "expected right join column";
    mret (mkJoinClause table left right alias kind op).

Definition at_join : parse bool :=
  t ← peek;
  mret (bool_decide (tk_type t = T_Identifier) && isJoinIntroducer (tk_lexeme t)).

Definition parse_group_by : parse (list string) :=
  group ← keyword "GROUP";
  if group : bool then _ ← expect_keyword "BY"; comma_list (name_or "expected GROUP BY column") else mret [].

Definition parseSelectCoreAfterSelectKeyword : parse Select :=
  star ← symbol T_Star;
  columns ← (if star : bool then mret [SE_Star] else comma_list parse_select_item);
  _ ← expect_keyword "FROM";
  '(table, alias, ctes) ← parse_from;
  joins ← while at_join (λ l, j ← parse_join; mret (l ++ [j])) [];
  previous ← gets p_currentFromTable;
  _ ← modify (set_from (default table alias));
  condition ← parse_where (g_predicate g);
  _ ← modify (set_from previous);
  groupBy ← parse_group_by;
  mret (mkSelect table joins columns condition groupBy None None ctes [] alias false).

Definition matchSetOpKeyword (lexeme : string) : option SetOpKind :=
  if equalsIgnoreCase lexeme "UNION" then Some SO_Union
  else if equalsIgnoreCase lexeme "INTERSECT" then Some SO_Intersect
  else if equalsIgnoreCase lexeme "EXCEPT" then Some SO_Except
  else None.

Definition set_op_all (op : SetOpKind) : SetOpKind :=
  match op with
  | SO_Union => SO_UnionAll
  | SO_Intersect => SO_IntersectAll
  | SO_Except => SO_ExceptAll
  | op => op
  end.

Definition parse_set_op (arms : list (SetOpArm Select)) : parse (option (list (SetOpArm Select))) :=
  t ← peek;
  match (if bool_decide (tk_type t = T_Identifier) then matchSetOpKeyword (tk_lexeme t) else None) with
  | None => mret None
  | Some op =>
      _ ← advance;
      all ← keyword "ALL";
      _ ← expect_keyword "SELECT";
      right ← parseSelectCoreAfterSelectKeyword;
      mret (Some (arms ++ [mkSetOpArm (if all : bool then set_op_all op else op) (Some right)]))
  end.

Definition parse_order_by : parse (option OrderBy) :=
  order ← keyword "ORDER";
  if order : bool then
    _ ← expect_keyword "BY";
    column ← name_or "expected ORDER BY column";
    desc ← keyword "DESC";
    _ ← (if desc : bool then mret true else keyword "ASC");
    mret (Some (mkOrderBy column (negb desc)))
  else mret None.

Definition parse_limit : parse (option Z) :=
  limit ← keyword "LIMIT";
  if limit : bool then
    count ← advance;
    if negb (bool_decide (tk_type count = T_Number)) then fail "expected numeric limit"
    else i ← parseIntLiteral (tk_lexeme count); mret (Some i)
  else mret None.

Definition set_tail (setOps : list (SetOpArm Select)) (orderBy : option OrderBy) (limit : option Z) (s : Select) : Select :=
  mkSelect (sel_table s) (sel_joins s) (sel_columns s) (sel_where s) (sel_groupBy s) orderBy limit (sel_ctes s) setOps
    (sel_tableAlias s) (sel_hasOuterRefs s).
Definition set_ctes (ctes : list Cte) (s : Select) : Select :=
  mkSelect (sel_table s) (sel_joins s) (sel_columns s) (sel_where s) (sel_groupBy s) (sel_orderBy s) (sel_limit s) ctes
    (sel_setOps s) (sel_tableAlias s) (sel_hasOuterRefs s).

Definition parseSelectAfterSelectKeyword : parse Select :=
  query ← parseSelectCoreAfterSelectKeyword;
  setOps ← loop parse_set_op [];
  orderBy ← parse_order_by;
  limit ← parse_limit;
  mret (set_tail setOps orderBy limit query).

(** ** WITH *)

Definition parse_materialize : parse (MaterializeMode * bool) :=
  not_ ← keyword "NOT";
  if not_ : bool then _ ← expect_keyword "MATERIALIZED"; mret (MM_NotMaterialized, false)
  else
    mat ← keyword "MATERIALIZED";
    if mat : bool then mret (MM_Materialized, false)
    else acc ← keyword "ACCUMULATOR"; mret (MM_DefaultInline, acc).

(** The body of a CTE and, when it is recursive, its recursive arm and whether the
    union is distinct. *)
Definition peel_recursive (recursiveWith : bool) (name : string) (body : Select) : result (Select * option (Select * bool)) :=
  let recursive arm distinct :=
    _ ← throw_if (bool_decide (is_Some (sel_orderBy body)) || bool_decide (is_Some (sel_limit body)))
          (runtime_error "ORDER BY / LIMIT on recursive CTE bodies is not supported");
    _ ← throw_if (negb (Nat.eqb (length (sel_setOps arm)) 0))
          (runtime_error "recursive CTE arm must be a single SELECT");
    Ok (set_tail [] (sel_orderBy body) (sel_limit body) body, Some (arm, distinct)) in
  if recursiveWith then
    match sel_setOps body with
    | [mkSetOpArm SO_Union (Some arm)] => recursive arm true
    | [mkSetOpArm SO_UnionAll (Some arm)] => recursive arm false
    | _ :: _ =>
        Throw (runtime_error "WITH RECURSIVE requires a single UNION [ALL] between anchor and recursive arm")
    | [] =>
        _ ← throw_if (negb (Nat.eqb (countTableRefs body name) 0))
              (runtime_error "CTE self-reference requires WITH RECURSIVE");
        Ok (body, None)
    end
  else
    _ ← throw_if (negb (Nat.eqb (countTableRefs body name) 0))
          (runtime_error "CTE self-reference requires WITH RECURSIVE");
    Ok (body, None).

Definition parse_cte (depth : nat) (recursiveWith : bool) (ctes : list Cte) : parse (list Cte) :=
  name ← name_or "expected CTE name";
  _ ← expect_keyword "AS";
  '(mode, accumulator) ← parse_materialize;
  _ ← expect_symbol T_LeftParen;
  with_ ← keyword "WITH";
  body ← (if with_ : bool then
            _ ← fail_if (Nat.leb kMaxNestedWithDepth depth) "nested WITH exceeds maximum depth";
            g_with g (Datatypes.S depth)
          else _ ← expect_keyword "SELECT"; g_select g);
  '(body, arm) ← liftM (peel_recursive recursiveWith name body);
  _ ← fail_if (accumulator && negb (bool_decide (is_Some (fst <$> arm)))) "AS ACCUMULATOR requires a recursive UNION [ALL] CTE";
  _ ← expect_symbol T_RightParen;
  mret (ctes ++ [mkCteEntry name (Some body) mode (bool_decide (is_Some (fst <$> arm)))
                   (match arm with Some (_, distinct) => distinct | None => false end) accumulator (fst <$> arm)]).

Definition parseWithSelectAtDepth (depth : nat) : parse Select :=
  recursiveWith ← keyword "RECURSIVE";
  ctes ← commas_of (parse_cte depth recursiveWith) [];
  _ ← fail_if (recursiveWith && negb (existsb cte_recursive ctes)) "WITH RECURSIVE requires a UNION [ALL] recursive CTE";
  _ ← (if recursiveWith : bool then liftM (validateRecursiveCtes ctes) else mret tt);
  _ ← expect_keyword "SELECT";
  query ← g_select g;
  mret (set_ctes (sel_ctes query ++ ctes) query).
End open_grammar.

Fixpoint grammar (fuel : nat) : Grammar :=
  match fuel with
  | O => mkGrammar (raise parse_fuel_spent) (raise parse_fuel_spent) (λ _, raise parse_fuel_spent)
  | Datatypes.S fuel =>
      let g := grammar fuel in
      mkGrammar (parsePredicate g) (parseSelectAfterSelectKeyword g) (parseWithSelectAtDepth g)
  end.

(** ** Statements *)

Section statements.
Context (g : Grammar).

Definition parse_column_names (message : string) : parse (list string) :=
  _ ← expect_symbol T_LeftParen;
  names ← comma_list (name_or message);
  _ ← expect_symbol T_RightParen;
  mret names.

Definition parseCheckConstraintBody : parse Pred :=
  _ ← expect_symbol T_LeftParen;
  p ← g_predicate g;
  _ ← expect_symbol T_RightParen;
  _ ← liftM (assertSimpleCheckConstraint p);
  mret p.

Definition parseReferencesClause (childColumns : list string) : parse ForeignKeyConstraint :=
  parentTable ← name_or "expected REFERENCES table name";
  parentColumns ← parse_column_names "expected REFERENCES column name";
  _ ← fail_if (negb (Nat.eqb (length parentColumns) (length childColumns))) "FOREIGN KEY child/parent column count mismatch";
  mret (mkForeignKeyConstraint childColumns parentTable parentColumns FK_NoAction FK_NoAction).

Definition parse_fk_action : parse ForeignKeyAction :=
  no ← keyword "NO";
  if no : bool then _ ← expect_keyword "ACTION"; mret FK_NoAction
  else
    cascade ← keyword "CASCADE";
    if cascade : bool then mret FK_Cascade
    else
      set ← keyword "SET";
      if set : bool then _ ← expect_keyword "NULL"; mret FK_SetNull
      else fail "expected NO ACTION, CASCADE, or SET NULL".

(** After ON: the event and its action. *)
Definition parse_on_action (fk : ForeignKeyConstraint) : parse ForeignKeyConstraint :=
  isDelete ← keyword "DELETE";
  _ ← (if isDelete : bool then mret tt else expect_keyword "UPDATE");
  action ← parse_fk_action;
  mret (if isDelete : bool
        then mkForeignKeyConstraint (fk_childColumns fk) (fk_parentTable fk) (fk_parentColumns fk) action (fk_onUpdate fk)
        else mkForeignKeyConstraint (fk_childColumns fk) (fk_parentTable fk) (fk_parentColumns fk) (fk_onDelete fk) action).

Definition parseForeignKeyActions (fk : ForeignKeyConstraint) : parse ForeignKeyConstraint :=
  while (keyword "ON") parse_on_action fk.

(** What the items of CREATE TABLE have given so far. *)
Record TableItems : Type := mkTableItems {
  ti_columns : list Column;
  ti_checks : list Pred;
  ti_foreignKeys : list ForeignKeyConstraint;
  ti_uniques : list UniqueConstraint;
  ti_sawPrimaryKey : bool
}.
Definition add_check (p : Pred) (i : TableItems) : TableItems :=
  mkTableItems (ti_columns i) (ti_checks i ++ [p]) (ti_foreignKeys i) (ti_uniques i) (ti_sawPrimaryKey i).
Definition add_foreign_key (fk : ForeignKeyConstraint) (i : TableItems) : TableItems :=
  mkTableItems (ti_columns i) (ti_checks i) (ti_foreignKeys i ++ [fk]) (ti_uniques i) (ti_sawPrimaryKey i).
Definition add_unique (c : UniqueConstraint) (i : TableItems) : TableItems :=
  mkTableItems (ti_columns i) (ti_checks i) (ti_foreignKeys i) (ti_uniques i ++ [c])
    (ti_sawPrimaryKey i || uc_primaryKey c).
Definition add_column (c : Column) (i : TableItems) : TableItems :=
  mkTableItems (ti_columns i ++ [c]) (ti_checks i) (ti_foreignKeys i) (ti_uniques i)
    (ti_sawPrimaryKey i || col_primaryKey c).

(** The flags of a column being parsed. *)
Record ColumnFlags : Type := mkColumnFlags {
  cf_nullable : bool;
  cf_unique : bool;
  cf_primaryKey : bool;
  cf_sawNullability : bool
}.

Definition column_nullability (nullable : bool) (f : ColumnFlags) : parse ColumnFlags :=
  _ ← fail_if (cf_sawNullability f) "conflicting NULL / NOT NULL";
  mret (mkColumnFlags nullable (cf_unique f) (cf_primaryKey f) true).

(** One round of the loop over the options of a column. *)
Definition parse_column_option (column : string) (s : ColumnFlags * TableItems) : parse (option (ColumnFlags * TableItems)) :=
  let '(f, i) := s in
  not_ ← keyword "NOT";
  if not_ : bool then _ ← expect_keyword "NULL"; f ← column_nullability false f; mret (Some (f, i))
  else
    null ← keyword "NULL";
    if null : bool then f ← column_nullability true f; mret (Some (f, i))
    else
      primary ← keyword "PRIMARY";
      if primary : bool then
        _ ← expect_keyword "KEY";
        _ ← fail_if (cf_primaryKey f) "duplicate PRIMARY KEY on column";
        mret (Some (mkColumnFlags (cf_nullable f) true true (cf_sawNullability f), i))
      else
        unique ← keyword "UNIQUE";
        if unique : bool then mret (Some (mkColumnFlags (cf_nullable f) true (cf_primaryKey f) (cf_sawNullability f), i))
        else
          check ← keyword "CHECK";
          if check : bool then p ← parseCheckConstraintBody; mret (Some (f, add_check p i))
          else
            references ← keyword "REFERENCES";
            if references : bool then
              fk ← parseReferencesClause [column];
              fk ← parseForeignKeyActions fk;
              mret (Some (f, add_foreign_key fk i))
            else mret None.

Definition parse_column_type : parse ColumnType :=
  typeName ← name_or "expected column type";
  match columnTypeFromString typeName with
  | Some type => mret type
  | None => fail "unsupported column type"
  end.

Definition parse_column (i : TableItems) : parse TableItems :=
  column ← name_or "expected column name";
  type ← parse_column_type;
  '(f, i) ← loop (parse_column_option column) (mkColumnFlags false false false false, i);
  _ ← fail_if (cf_primaryKey f && cf_nullable f) "PRIMARY KEY column cannot be NULL";
  _ ← fail_if (cf_primaryKey f && ti_sawPrimaryKey i) "multiple PRIMARY KEY constraints are not supported";
  mret (add_column (mkColumn column type (cf_nullable f) (cf_unique f) (cf_primaryKey f)) i).

Definition parse_table_item (i : TableItems) : parse TableItems :=
  check ← keyword "CHECK";
  if check : bool then p ← parseCheckConstraintBody; mret (add_check p i)
  else
    foreign ← keyword "FOREIGN";
    if foreign : bool then
      _ ← expect_keyword "KEY";
      childColumns ← parse_column_names "expected column name";
      _ ← expect_keyword "REFERENCES";
      fk ← parseReferencesClause childColumns;
      fk ← parseForeignKeyActions fk;
      mret (add_foreign_key fk i)
    else
      primary ← keyword "PRIMARY";
      if primary : bool then
        _ ← expect_keyword "KEY";
        _ ← fail_if (ti_sawPrimaryKey i) "multiple PRIMARY KEY constraints are not supported";
        names ← parse_column_names "expected column name";
        mret (add_unique (mkUniqueConstraint names true) i)
      else
        unique ← keyword "UNIQUE";
        if unique : bool then
          names ← parse_column_names "expected column name";
          mret (add_unique (mkUniqueConstraint names false) i)
        else parse_column i.

(** A pass over the columns named [name]: whether there was one, and the columns
    with [f] applied. *)
Fixpoint map_columns (name : string) (f : Column → result Column) (columns : list Column)
  : result (bool * list Column) :=
  match columns with
  | [] => Ok (false, [])
  | c :: columns =>
      if String.eqb (col_name c) name then
        c ← f c;
        '(_, columns) ← map_columns name f columns;
        Ok (true, c :: columns)
      else
        '(found, columns) ← map_columns name f columns;
        Ok (found, c :: columns)
  end.

Definition find_columns (name : string) (f : Column → result Column) (columns : list Column) : result (list Column) :=
  '(found, columns) ← map_columns name f columns;
  _ ← throw_if (negb found) (runtime_error ("unknown UNIQUE / PRIMARY KEY column: " +:+ name));
  Ok columns.

Definition primary_not_null (primaryKey : bool) (c : Column) : result unit :=
  throw_if (primaryKey && col_nullable c) (runtime_error "PRIMARY KEY column cannot be NULL").

(** A constraint of one column becomes flags of the column. *)
Definition flag_column (primaryKey : bool) (c : Column) : result Column :=
  _ ← primary_not_null primaryKey c;
  Ok (mkColumn (col_name c) (col_type c) (col_nullable c) true (col_primaryKey c || primaryKey)).
Definition keep_column (primaryKey : bool) (c : Column) : result Column :=
  _ ← primary_not_null primaryKey c; Ok c.

Fixpoint check_each (primaryKey : bool) (names : list string) (columns : list Column) : result (list Column) :=
  match names with
  | [] => Ok columns
  | name :: names => columns ← find_columns name (keep_column primaryKey) columns; check_each primaryKey names columns
  end.

Definition normalize_unique (columns : list Column) (c : UniqueConstraint) : result (list Column) :=
  match uc_columns c with
  | [name] => find_columns name (flag_column (uc_primaryKey c)) columns
  | names => check_each (uc_primaryKey c) names columns
  end.

Fixpoint normalize_uniques (columns : list Column) (l : list UniqueConstraint) : result (list Column) :=
  match l with
  | [] => Ok columns
  | c :: l => columns ← normalize_unique columns c; normalize_uniques columns l
  end.

Definition known_column (columns : list Column) (name : string) : bool := existsb (λ c, String.eqb (col_name c) name) columns.

(** The columns of a CHECK; the code throws for one of the unknown ones, here the
    first. *)
Fixpoint check_names (p : Pred) : list string :=
  match p with
  | AndPred l r | OrPred l r => check_names l ++ check_names r
  | ComparisonPred column _ _ rhsColumn _ _ => column :: match rhsColumn with Some rhs => [rhs] | None => [] end
  | _ => []
  end.

Fixpoint all_known (prefix : string) (columns : list Column) (names : list string) : result unit :=
  match names with
  | [] => Ok tt
  | name :: names =>
      _ ← throw_if (negb (known_column columns name)) (runtime_error (prefix +:+ name));
      all_known prefix columns names
  end.

Definition validateCheckColumns (columns : list Column) (checks : list Pred) : result unit :=
  all_known "CHECK references unknown column " columns (checks ≫= check_names).

Definition finish_table (name : string) (i : TableItems) : result (CreateTable Select) :=
  columns ← normalize_uniques (ti_columns i) (ti_uniques i);
  let uniques := List.filter (λ c, negb (Nat.eqb (length (uc_columns c)) 1)) (ti_uniques i) in
  _ ← validateCheckColumns columns (ti_checks i);
  _ ← all_known "FOREIGN KEY child column not found: " columns (ti_foreignKeys i ≫= fk_childColumns);
  Ok (mkCreateTable name columns (ti_checks i) (ti_foreignKeys i) uniques).

Definition parseCreateTable : parse (CreateTable Select) :=
  table ← name_or "expected table name";
  _ ← expect_symbol T_LeftParen;
  i ← commas_of parse_table_item (mkTableItems [] [] [] [] false);
  _ ← expect_symbol T_RightParen;
  liftM (finish_table table i).

Definition parseDropIndex : parse Query :=
  index ← name_or "expected index name";
  _ ← expect_keyword "ON";
  table ← name_or "expected indexed table name";
  mret (Q_DropIndex index table).

Definition parseDropTable : parse Query :=
  _ ← expect_keyword "TABLE";
  table ← name_or "expected table name";
  mret (Q_DropTable table).

Definition parseRenameTable : parse Query :=
  _ ← expect_keyword "TABLE";
  oldName ← name_or "expected source table name";
  _ ← expect_keyword "TO";
  newName ← name_or "expected destination table name";
  mret (Q_RenameTable oldName newName).

Definition parse_default (type : ColumnType) (nullable : bool) : parse (option Value) :=
  has ← keyword "DEFAULT";
  if has : bool then
    v ← parseValue;
    if isNull v then
      _ ← fail_if (negb nullable) "DEFAULT NULL requires a nullable column"; mret (Some v)
    else
      t ← liftM (Value_type v);
      _ ← fail_if (negb (bool_decide (t = type))) "DEFAULT literal type does not match column type"; mret (Some v)
  else mret None.

Definition inline_constraint : parse bool :=
  b ← keyword "PRIMARY";
  if b : bool then mret true
  else b ← keyword "UNIQUE";
       if b : bool then mret true
       else b ← keyword "CHECK"; if b : bool then mret true else keyword "REFERENCES".

Definition parse_add_column (table : string) : parse AlterTable :=
  _ ← expect_keyword "COLUMN";
  column ← name_or "expected column name";
  type ← parse_column_type;
  not_ ← keyword "NOT";
  nullable ← (if not_ : bool then _ ← expect_keyword "NULL"; mret false
              else null ← keyword "NULL";
                   if null : bool then mret true else fail "expected NULL or NOT NULL after column type");
  defaultValue ← parse_default type nullable;
  inline ← inline_constraint;
  _ ← fail_if inline "ALTER TABLE ADD COLUMN does not support inline PRIMARY KEY / UNIQUE / CHECK / REFERENCES";
  mret (mkAlterTable table (AlterAddColumn (mkColumn column type nullable false false) defaultValue)).

Definition parseAlterTable : parse AlterTable :=
  _ ← expect_keyword "TABLE";
  table ← name_or "expected table name";
  add ← keyword "ADD";
  if add : bool then parse_add_column table
  else
    drop_ ← keyword "DROP";
    if drop_ : bool then
      _ ← expect_keyword "COLUMN";
      column ← name_or "expected column name";
      cascade ← keyword "CASCADE";
      mret (mkAlterTable table (AlterDropColumn column cascade))
    else
      rename ← keyword "RENAME";
      if rename : bool then
        _ ← expect_keyword "COLUMN";
        oldName ← name_or "expected column name";
        _ ← expect_keyword "TO";
        newName ← name_or "expected new column name";
        mret (mkAlterTable table (AlterRenameColumn oldName newName))
      else fail "expected ADD, DROP, or RENAME after ALTER TABLE".

Definition parseCreateIndex : parse CreateIndex :=
  index ← name_or "expected index name";
  _ ← expect_keyword "ON";
  table ← name_or "expected indexed table name";
  _ ← expect_symbol T_LeftParen;
  paren ← symbol T_LeftParen;
  if paren : bool then
    e ← parseIndexExpression;
    _ ← expect_symbol T_RightParen;
    _ ← expect_symbol T_RightParen;
    mret (mkCreateIndex index table (ie_column e) [ie_column e] (Some e))
  else
    columns ← comma_list (name_or "expected indexed column name");
    _ ← expect_symbol T_RightParen;
    mret (mkCreateIndex index table (default EmptyString (head columns)) columns None).

Definition parse_row : parse Row :=
  _ ← expect_symbol T_LeftParen;
  values ← comma_list parseValue;
  _ ← expect_symbol T_RightParen;
  mret values.

Definition parseInsert : parse (string * list Row) :=
  _ ← expect_keyword "INTO";
  table ← name_or "expected table name";
  _ ← expect_keyword "VALUES";
  rows ← comma_list parse_row;
  mret (table, rows).

Definition parseAnalyze : parse Query :=
  has ← keyword "TABLE";
  if has : bool then table ← name_or "expected table name after ANALYZE TABLE"; mret (Q_Analyze (Some table))
  else mret (Q_Analyze None).

Definition parseUpdate : parse (Update Select) :=
  table ← name_or "expected table name";
  _ ← expect_keyword "SET";
  column ← name_or "expected update column";
  _ ← expect_symbol T_Equal;
  value ← parseValue;
  condition ← parse_where (g_predicate g);
  mret (mkUpdate table column value condition).

Definition parseDelete : parse (string * option Pred) :=
  _ ← expect_keyword "FROM";
  table ← name_or "expected table name";
  condition ← parse_where (g_predicate g);
  mret (table, condition).

Definition parsePrepare : parse Query :=
  name ← name_or "expected prepared statement name";
  _ ← expect_keyword "AS";
  sql ← advance;
  if bool_decide (tk_type sql = T_String) then mret (Q_PrepareStatement name (tk_lexeme sql))
  else fail "expected prepared SQL string".

Definition parseExecutePrepared : parse Query :=
  name ← name_or "expected prepared statement name";
  values ← keyword "VALUES";
  if values : bool then parameters ← parse_row; mret (Q_ExecutePrepared name parameters)
  else mret (Q_ExecutePrepared name []).

Definition parseExplain : parse Query :=
  analyze ← keyword "ANALYZE";
  with_ ← keyword "WITH";
  if with_ : bool then s ← g_with g 0; mret (Q_ExplainQuery (Explain_Select s) analyze)
  else
    update ← keyword "UPDATE";
    if update : bool then
      if analyze : bool then error "EXPLAIN ANALYZE does not support UPDATE"
      else u ← parseUpdate; mret (Q_ExplainQuery (Explain_Update u) analyze)
    else
      delete_ ← keyword "DELETE";
      if delete_ : bool then
        if analyze : bool then error "EXPLAIN ANALYZE does not support DELETE"
        else '(table, condition) ← parseDelete; mret (Q_ExplainQuery (Explain_Delete table condition) analyze)
      else
        insert_ ← keyword "INSERT";
        if insert_ : bool then
          if analyze : bool then error "EXPLAIN ANALYZE does not support INSERT"
          else '(table, rows) ← parseInsert; mret (Q_ExplainQuery (Explain_Insert table rows) analyze)
        else
          _ ← expect_keyword "SELECT";
          s ← g_select g;
          mret (Q_ExplainQuery (Explain_Select s) analyze).

Definition parse_create : parse Query :=
  database ← keyword "DATABASE";
  if database : bool then name ← name_or "expected database name"; mret (Q_CreateDatabase name)
  else
    table ← keyword "TABLE";
    if table : bool then c ← parseCreateTable; mret (Q_CreateTable c)
    else
      index ← keyword "INDEX";
      if index : bool then c ← parseCreateIndex; mret (Q_CreateIndex c)
      else error "expected DATABASE, TABLE, or INDEX after CREATE".

Definition parse_drop : parse Query :=
  index ← keyword "INDEX";
  if index : bool then parseDropIndex
  else
    database ← keyword "DATABASE";
    if database : bool then name ← name_or "expected database name"; mret (Q_DropDatabase name)
    else parseDropTable.

Definition parse_load : parse Query :=
  _ ← expect_keyword "DATABASE";
  t ← peek;
  if bool_decide (tk_type t = T_Identifier) then t ← advance; mret (Q_LoadDatabase (Some (tk_lexeme t)))
  else mret (Q_LoadDatabase None).

(** The statements by their first word, in the order the code tests them. *)
Definition commands : list (string * parse Query) :=
  [("CREATE", parse_create); ("DROP", parse_drop); ("RENAME", parseRenameTable);
   ("ALTER", c ← parseAlterTable; mret (Q_AlterTable c));
   ("LIST", _ ← expect_keyword "TABLES"; mret Q_ListTables);
   ("INSERT", '(table, rows) ← parseInsert; mret (Q_Insert table rows));
   ("WITH", s ← g_with g 0; mret (Q_Select s)); ("SELECT", s ← g_select g; mret (Q_Select s));
   ("EXPLAIN", parseExplain); ("ANALYZE", parseAnalyze);
   ("UPDATE", u ← parseUpdate; mret (Q_Update u));
   ("DELETE", '(table, condition) ← parseDelete; mret (Q_Delete table condition));
   ("SAVE", _ ← expect_keyword "DATABASE"; mret Q_SaveDatabase); ("LOAD", parse_load);
   ("BEGIN", mret Q_BeginTransaction); ("COMMIT", mret Q_CommitTransaction); ("ROLLBACK", mret Q_RollbackTransaction);
   ("PREPARE", parsePrepare); ("EXECUTE", parseExecutePrepared); ("EXIT", mret Q_Exit)].

Fixpoint dispatch (l : list (string * parse Query)) : parse Query :=
  match l with
  | [] => error "unsupported SQL command"
  | (word, command) :: l =>
      b ← keyword word;
      if b : bool then q ← command; _ ← expectStatementEnd; mret q else dispatch l
  end.

Definition parse_statement : parse Query := dispatch commands.
End statements.

(** ** Entry points *)

(** [parse(std::span<const Token>)]: only the tokens and the position are reset. *)
Definition parse_tokens (tokens : list Token) : parse Query :=
  _ ← modify (λ p, mkParser tokens 0 (p_currentFromTable p) (p_outerTableStack p) (p_nextParameterIndex p));
  parse_statement (grammar (Datatypes.S (length tokens))).

(** [parse(std::string_view)]. *)
Definition Parser_parse (sql : chars) : parse Query :=
  tokens ← liftM (tokenize sql);
  parse_tokens tokens.

Definition parseCheckConstraintExpression (expression : chars) : parse Pred :=
  tokens ← liftM (tokenize expression);
  _ ← modify (λ _, mkParser tokens 0 EmptyString [] 0);
  p ← g_predicate (grammar (Datatypes.S (length tokens)));
  more ← gets (λ s, Nat.ltb (p_current s) (length (p_tokens s)));
  t ← (if more : bool then t ← peek; mret (Some t) else mret None);
  _ ← fail_if (match t with Some t => negb (bool_decide (tk_type t = T_End)) | None => false end)
        "unexpected tokens after CHECK expression";
  _ ← liftM (assertSimpleCheckConstraint p);
  mret p.
End grammar.
