(* ===== verification/SelectExamples.v ===== *)
(** * SELECT, run

    The text of queries, parsed and executed on the table of [ScanExamples]: instances of the theorems on what a SELECT
    returns, and the queries that return something else. *)

From S2P Require Import Prelude Value Float64 VectorRowStore StringPattern TransactionManager Mvcc HashIndex BTreeIndex IndexExpression.
From S2P Require Import Predicate SetOps Histogram Selectivity IndexManager IndexManagerProof Table TableProof Database ForeignKeys Ast.
From S2P Require Import Planner JoinPlanner PlannerProof PlannerTotal SelectScan SelectScanProof JoinEngine JoinProof ScanExamples.
From S2P Require Import SelectResult SelectResultProof RecursiveCte Rewriter SelectScope SelectEngine SelectProof Parser.
Local Open Scope nat_scope.

Definition company : Database Select VectorRowStore := mkDatabase "company" [("notes", notes); ("staff", staff)].
Definition run (s : Select) : result QueryResult :=
  (execute_select (λ _ _, false) (λ z, z) Z.add Z.sub Z.div (λ _, []) (λ _, 0%Z) vrs_empty recursiveCteLimits now (Some company) 8 s
     tm_empty).1.
Definition rows_returned (s : Select) : result (list Row) := r ← run s; Ok (qr_rows r).

Definition parse_sql (text : string) : result Query := (Parser_parse (λ _, None) (explode text) parser_new).1.
(** The rows of a SELECT. *)
Definition sql (text : string) : result (list Row) :=
  match parse_sql text with
  | Ok (Q_Select s) => r ← run s; Ok (qr_rows r)
  | Ok _ => Throw (logic_error "not a SELECT")
  | Throw e => Throw e
  end.

(** ** What a SELECT returns *)

(** [SELECT id FROM staff WHERE dept = 1 AND (city = 3 OR flag = 1) ORDER BY id DESC]. *)
Definition dept_query : Select :=
  mkSelect "staff" [] [SE_Column "id"] (Some dept_clause) [] (Some (mkOrderBy "id" false)) None [] [] None false.

Lemma company_staff : select_requireTable (Some company) "staff" [] = Ok staff.
Proof. reflexivity. Qed.

Lemma select_returns_rows_witness :
  parse_sql "SELECT id FROM staff WHERE dept = 1 AND (city = 3 OR flag = 1) ORDER BY id DESC;" = Ok (Q_Select dept_query) ∧
  ∃ rows tm', execute_select (λ _ _, false) (λ z, z) Z.add Z.sub Z.div (λ _, []) (λ _, 0%Z) vrs_empty recursiveCteLimits now (Some company) 8
      dept_query tm_empty = (Ok (mkQueryResult true "selected rows" ["id"] (key_of [0] <$> rows)), tm') ∧
    (key_of [0] <$> rows) = [[VInt 6]; [VInt 1]] ∧ ordered_by (Some (mkOrderBy "id" false)) ["id"; "dept"; "city"; "flag"] rows.
Proof.
  split; [vm_compute; reflexivity|].
  destruct (select_returns_rows (λ _ _, false) (λ z, z) Z.add Z.sub Z.div (λ _, []) (λ _, 0%Z) vrs_empty recursiveCteLimits now (Some company) 7
    staff (t_rowStore staff) (λ _ _, false) tm_empty [] dept_query [0] ["id"]) as (plan & Eplan & Hrun).
  - reflexivity.
  - reflexivity.
  - reflexivity.
  - intros p [= <-]. reflexivity.
  - reflexivity.
  - exact company_staff.
  - exact staff_ok.
  - exact staff_visible.
  - apply dept_clause_ok.
  - vm_compute. reflexivity.
  - intros o [= <-]. exists 0. vm_compute. reflexivity.
  - destruct Hrun as (rows & tm' & E & _ & Ho & _).
    + intros p [= <-]. vm_compute in Eplan. injection Eplan as <-. vm_compute. reflexivity.
    + vm_compute in Eplan. injection Eplan as <-. vm_compute. reflexivity.
    + exists rows, tm'. split; [exact E|]. split; [|exact Ho]. vm_compute in E. injection E as E _. symmetry. exact E.
Defined.

(** *** Groups *)

(** [SELECT dept, COUNT( * ), SUM(id), MAX(city) FROM staff GROUP BY dept]. *)
Definition dept_totals : Select :=
  mkSelect "staff" [] [SE_Column "dept"; SE_Aggregate AO_CountStar None; SE_Aggregate AO_Sum (Some "id"); SE_Aggregate AO_Max (Some "city")]
    None ["dept"] None None [] [] None false.
Definition staff_columns : list string := ["id"; "dept"; "city"; "flag"].

Lemma aggregateRows_groups_witness : ∃ keys out,
  aggregateRows (λ z, z) Z.add Z.div dept_totals staff_columns (staff_row <$> seq 0 10) =
    Ok (mkQueryResult true "selected rows" ["dept"; "COUNT(*)"; "SUM(id)"; "MAX(city)"] out) ∧
  out = (λ n, [VInt n; VInt 2; VInt (2 * n + 5); VInt ((n + 5) / 2)]) <$> [0; 1; 2; 3; 4]%Z ∧
  StronglySorted (λ a b, Value_ltb (VComposite a) (VComposite b) = true) keys.
Proof.
  destruct (aggregateRows_groups (λ z, z) Z.add Z.div dept_totals staff_columns (staff_row <$> seq 0 10) [1])
    as (keys & out & E & Hsorted & _).
  - reflexivity.
  - reflexivity.
  - reflexivity.
  - intros op arg Hin. cbn in Hin. repeat (apply elem_of_cons in Hin as [Hin|Hin]; [try discriminate Hin; injection Hin as -> ->|]);
      [exists 0|exists 0|exists 2|by apply elem_of_nil in Hin]; (split; [intros Hop; try (by exfalso; apply Hop); vm_compute; reflexivity|]).
    + by apply Forall_true.
    + apply Forall_forall. intros row (n & -> & Hn%elem_of_seq)%list_elem_of_fmap. exists (VInt (Z.of_nat n)).
      split; [reflexivity|]. split; [exact I|]. intros _. cbn. unfold int64_range. lia.
    + apply Forall_forall. intros row (n & -> & _)%list_elem_of_fmap. eexists. split; [reflexivity|exact I].
  - apply Forall_forall. intros row (n & -> & _)%list_elem_of_fmap. split; [reflexivity|by repeat constructor].
  - simpl. lia.
  - exists keys, out. split; [exact E|]. split; [|exact Hsorted]. vm_compute in E. injection E as <-. reflexivity.
Defined.

(** ** WITH lists *)

(** [WITH a AS (WITH b AS MATERIALIZED (SELECT * FROM staff) SELECT * FROM b) SELECT * FROM a]. *)
Definition nested_with : Select :=
  mkSelect "a" [] [SE_Star] None [] None None
    [mkCteEntry "a" (Some (mkSelect "b" [] [SE_Star] None [] None None
       [mkCteEntry "b" (Some (mkSelect "staff" [] [SE_Star] None [] None None [] [] None false)) MM_Materialized false false false None]
       [] None false)) MM_DefaultInline false false false None] [] None false.

Lemma rewriteSelect_total_witness : ∃ r,
  rewriteSelect nested_with = Ok r ∧ sel_table (rw_query r) = "b" ∧ (cte_name <$> rw_materialize r) = ["b"] ∧
  rw_notes r = ["materialized CTE b"; "inlined CTE a"] ∧ rewrite_fuel 100 nested_with = Ok r.
Proof.
  destruct (rewriteSelect_total nested_with) as (r & E & _ & Hf); [reflexivity|]. exists r. split; [exact E|].
  pose proof E as E'. vm_compute in E'. injection E' as <-. do 3 (split; [reflexivity|]). apply Hf. vm_compute. lia.
Defined.


(** ** Subqueries and aliases *)

(** Subqueries and aliases that are misread.  An outer column is bound on the right
    of a comparison only: with the sides of [b.city = a.id] swapped the query fails.
    EXISTS looks at the rows of the scan: a COUNT over no row, one row in SQL, does not
    exist, and LIMIT 0 is replaced by LIMIT 1.  The aliases of a join are replaced one
    after the other: when a joined table takes the name of another one, the columns of
    the latter are looked for in the former, and the query fails that another alias
    answers. *)
Theorem scopes_misread :
  sql "SELECT id FROM staff AS a WHERE EXISTS (SELECT id FROM staff AS b WHERE b.city = a.id);" =
    Ok [[VInt 0]; [VInt 1]; [VInt 2]; [VInt 3]; [VInt 4]] ∧
  sql "SELECT id FROM staff AS a WHERE EXISTS (SELECT id FROM staff AS b WHERE a.id = b.city);" =
    Throw (runtime_error "unknown predicate column") ∧
  sql "SELECT id FROM staff WHERE id = 3 AND EXISTS (SELECT COUNT(*) FROM staff WHERE dept = 77);" = Ok [] ∧
  sql "SELECT id FROM staff WHERE id = 3 AND EXISTS (SELECT id FROM staff LIMIT 0);" = Ok [[VInt 3]] ∧
  sql "SELECT e.id FROM staff AS e JOIN notes AS n ON e.id = n.body WHERE e.id = 3;" = Ok [] ∧
  sql "SELECT e.id FROM staff AS e JOIN notes AS staff ON e.id = staff.body WHERE e.id = 3;" = Throw (runtime_error "unknown join column").
Proof. do 5 (split; [vm_compute; reflexivity|]). vm_compute. reflexivity. Qed.
