(* ===== verification/ParserTotal.v ===== *)
(** * Parsing always ends

    The fuel of the parser is never used up: a call into nested text and a round of
    a loop pass over a token. *)

From S2P Require Import Prelude Value StringPattern IndexExpression Predicate SetOps Histogram IndexManager Table.
From S2P Require Import Ast Tokenizer RecursiveCte Database Parser.
Local Open Scope nat_scope.

(** The exceptions of the parser. *)
Definition parse_exn (e : exn) : Prop :=
  (∃ what, e = runtime_error what) ∨ e = out_of_range "stod".

Definition fine {A} (r : result A) : Prop := ∀ e, r = Throw e → parse_exn e.

(** [spends k m c]: run on fewer than [k] tokens, [m] ends without using up its
    fuel; if it returns [a], it has passed over at least [c a] tokens. *)
Definition spends {A} (k : nat) (m : parse A) (c : A → nat) : Prop := ∀ p, remaining p < k →
  let '(r, p') := m p in
  p_tokens p' = p_tokens p ∧ remaining p' ≤ remaining p ∧
  match r with Ok a => remaining p' + c a ≤ remaining p | Throw e => parse_exn e end.

Definition free {A} (a : A) : nat := 0.
Definition if_true (b : bool) : nat := if b then 1 else 0.
Definition if_some {A} (o : option A) : nat := match o with Some _ => 1 | None => 0 end.

(** ** Rules *)

Lemma spends_weaken {A} k k' (m : parse A) c c' : spends k m c → k' ≤ k → (∀ a, c' a ≤ c a) → spends k' m c'.
Proof.
  intros Hm Hk Hc p Hp. specialize (Hm p ltac:(lia)). destruct (m p) as [r p']. destruct Hm as (H1 & H2 & H3).
  split_and!; [done..|]. destruct r as [a|e]; [|done]. specialize (Hc a). lia.
Qed.

Lemma spends_bind {A B} k (m : parse A) (f : A → parse B) c1 c : spends k m c1 →
  (∀ a, spends (k - c1 a) (f a) (λ b, c b - c1 a)) → spends k (m ≫= f) c.
Proof.
  intros Hm Hf p Hp. specialize (Hm p Hp). unfold mbind, M_bind. destruct (m p) as [[a|e] p1]; [|by destruct Hm as (? & ? & ?)].
  destruct Hm as (H1 & H2 & H3). specialize (Hf a p1 ltac:(lia)). destruct (f a p1) as [r p2].
  destruct Hf as (F1 & F2 & F3). split_and!; [congruence|lia|]. destruct r as [b|e]; [lia|done].
Qed.

Lemma spends_ret {A} k (a : A) c : c a = 0 → spends k (mret a) c.
Proof. intros Hc p Hp. unfold mret, M_ret. rewrite Hc. split_and!; [done|lia|lia]. Qed.

Lemma spends_raise {A} k e c : parse_exn e → spends k (raise e : parse A) c.
Proof. intros He p Hp. by split_and!. Qed.

Lemma spends_lift {A} k (r : result A) c : fine r → (∀ a, c a = 0) → spends k (liftM r) c.
Proof.
  intros Hr Hc p Hp. unfold liftM. split_and!; [done|lia|]. destruct r as [a|e]; [rewrite Hc; lia|by apply Hr].
Qed.

Lemma spends_gets {A} k (f : Parser → A) c : (∀ a, c a = 0) → spends k (gets f) c.
Proof. intros Hc p Hp. unfold gets. rewrite Hc. split_and!; [done|lia|lia]. Qed.

(** The fields other than the tokens and the position. *)
Lemma spends_modify k f c : (∀ p, p_tokens (f p) = p_tokens p ∧ p_current (f p) = p_current p) → c tt = 0 →
  spends k (modify f) c.
Proof.
  intros Hf Hc p Hp. unfold modify, remaining. destruct (Hf p) as [-> ->]. rewrite Hc. split_and!; [done|lia|lia].
Qed.

Lemma spends_none {A} (m : parse A) c : spends 0 m c.
Proof. intros p Hp. lia. Qed.

(** ** Tokens *)

Lemma peek_cases p : (∃ t, peek p = (Ok t, p) ∧ p_tokens p !! p_current p = Some t) ∨
  ∃ e, peek p = (Throw e, p) ∧ parse_exn e.
Proof.
  unfold peek. destruct (p_tokens p !! p_current p) as [t|] eqn:E; [left; eauto|].
  right. eexists. split; [done|]. left. by eexists.
Qed.

Lemma spends_peek k c : (∀ t, c t = 0) → spends k peek c.
Proof.
  intros Hc p Hp. destruct (peek_cases p) as [(t & -> & _)|(e & -> & He)]; [|by split_and!]. rewrite Hc. split_and!; (done || lia).
Qed.

Definition not_end (t : Token) : nat := if bool_decide (tk_type t = T_End) then 0 else 1.

Lemma advance_run p t : p_tokens p !! p_current p = Some t →
  advance p = (Ok t, if bool_decide (tk_type t = T_End) then p else set_current (Datatypes.S (p_current p)) p).
Proof. intros Ht. unfold advance, peek, mbind, M_bind. rewrite Ht. by destruct (bool_decide _). Qed.

Lemma remaining_next p t : p_tokens p !! p_current p = Some t →
  remaining (set_current (Datatypes.S (p_current p)) p) + 1 ≤ remaining p.
Proof. intros Ht%lookup_lt_Some. unfold remaining. simpl. lia. Qed.

Lemma spends_advance k : spends k advance not_end.
Proof.
  intros p Hp. destruct (peek_cases p) as [(t & _ & Ht)|(e & E & He)].
  - rewrite (advance_run p t Ht). pose proof (remaining_next p t Ht). unfold not_end.
    destruct (bool_decide (tk_type t = T_End)) eqn:Hn; simpl; try rewrite Hn; split_and!; (done || lia).
  - unfold advance, mbind, M_bind. rewrite E. by split_and!.
Qed.

Lemma spends_match k type lexeme : type ≠ T_End → spends k (Parser_match type lexeme) if_true.
Proof.
  intros Htype p Hp. unfold Parser_match, mbind, M_bind. destruct (peek_cases p) as [(t & E & Ht)|(e & -> & He)]; [|by split_and!].
  rewrite E. destruct (token_is type lexeme t) eqn:Ei; [|unfold mret, M_ret; simpl; split_and!; (done || lia)].
  rewrite (advance_run p t Ht). unfold token_is in Ei. apply andb_prop in Ei as [Ei _]. apply bool_decide_eq_true in Ei.
  rewrite bool_decide_false by congruence. pose proof (remaining_next p t Ht). unfold mret, M_ret. simpl.
  split_and!; (done || lia).
Qed.

Lemma spends_error {A} k message c : spends k (error message : parse A) c.
Proof.
  intros p Hp. unfold error, mbind, M_bind. destruct (peek_cases p) as [(t & -> & Ht)|(e & -> & He)]; [|by split_and!].
  split_and!; [done|done|]. left. by eexists.
Qed.

Lemma spends_name k message : spends k (name_or message) (λ _, 1).
Proof.
  eapply spends_bind; [apply spends_advance|]. intros t. unfold not_end. destruct (decide (tk_type t = T_Identifier)) as [H1|H1].
  - rewrite (bool_decide_true (tk_type t = T_Identifier)) by done. apply spends_ret. by rewrite bool_decide_false by congruence.
  - rewrite (bool_decide_false (tk_type t = T_Identifier)) by done. apply spends_raise. left. by eexists.
Qed.

(** ** Loops *)

Lemma spends_loop_fuel {A} k (step : A → parse (option A)) : (∀ a, spends k (step a) if_some) →
  ∀ fuel a p, remaining p < k → remaining p < fuel →
    let '(r, p') := loop_fuel fuel step a p in
    p_tokens p' = p_tokens p ∧ remaining p' ≤ remaining p ∧ match r with Ok _ => True | Throw e => parse_exn e end.
Proof.
  intros Hs fuel. induction fuel as [|fuel IH]; intros a p Hk Hf; [lia|]. cbn [loop_fuel]. unfold mbind, M_bind.
  specialize (Hs a p Hk). destruct (step a p) as [[[a'|]|e] p1]; destruct Hs as (H1 & H2 & H3); [|by split_and!..].
  simpl in H3. specialize (IH a' p1 ltac:(lia) ltac:(lia)). destruct (loop_fuel fuel step a' p1) as [r p2].
  destruct IH as (I1 & I2 & I3). split_and!; [congruence|lia|done].
Qed.

Lemma spends_loop {A} k (step : A → parse (option A)) a c : (∀ a, spends k (step a) if_some) → (∀ a, c a = 0) →
  spends k (loop step a) c.
Proof.
  intros Hs Hc p Hp. unfold loop, mbind, M_bind, gets.
  pose proof (spends_loop_fuel k step Hs (Datatypes.S (remaining p)) a p Hp ltac:(lia)) as H.
  destruct (loop_fuel _ step a p) as [r p']. destruct H as (H1 & H2 & H3). split_and!; [done..|].
  destruct r; [rewrite Hc; lia|done].
Qed.

Lemma spends_while {A} k cond (body : A → parse A) a c : spends k cond if_true → (∀ a, spends (k - 1) (body a) free) →
  (∀ a, c a = 0) → spends k (while cond body a) c.
Proof.
  intros Hcond Hbody Hc. apply spends_loop; [|done]. intros a'. eapply spends_bind; [exact Hcond|]. intros [].
  - eapply spends_bind; [apply Hbody|]. intros a2. by apply spends_ret.
  - by apply spends_ret.
Qed.

(** Loops whose condition leaves the tokens alone and whose body passes over one. *)
Lemma spends_while_body {A} k cond (body : A → parse A) a c : spends k cond free → (∀ a, spends k (body a) (λ _, 1)) →
  (∀ a, c a = 0) → spends k (while cond body a) c.
Proof.
  intros Hcond Hbody Hc. apply spends_loop; [|done]. intros a'. eapply spends_bind; [exact Hcond|]. intros [].
  - eapply spends_bind; [eapply spends_weaken; [apply Hbody|unfold free; lia|done]|]. intros a2. by apply spends_ret.
  - by apply spends_ret.
Qed.

Lemma spends_commas {A} k (body : A → parse A) a c : (∀ a, spends k (body a) free) → (∀ a, c a = 0) →
  spends k (commas_of body a) c.
Proof.
  intros Hbody Hc. eapply spends_bind; [apply Hbody|]. intros a'. apply spends_while.
  - by apply spends_match.
  - intros a2. eapply spends_weaken; [apply Hbody|unfold free; lia|done].
  - intros a2. rewrite Hc. done.
Qed.

(** ** Automation

    [parsing] proves [spends] of a parser by its structure; the calls of other
    parsers are in the hint database [parser]. *)

Create HintDb parser.

Lemma fine_ok {A} (a : A) : fine (Ok a).
Proof. by intros e [=]. Qed.
Lemma fine_runtime {A} what : fine (Throw (runtime_error what) : result A).
Proof. intros e [= <-]. left. by eexists. Qed.
Lemma fine_throw_if b what : fine (throw_if b (runtime_error what)).
Proof. destruct b; [apply fine_runtime|apply fine_ok]. Qed.
Lemma fine_bind {A B} (m : result A) (f : A → result B) : fine m → (∀ a, fine (f a)) → fine (m ≫= f).
Proof. intros Hm Hf e. destruct m as [a|x]; simpl; [apply Hf|]. intros [= <-]. by apply Hm. Qed.
#[export] Hint Resolve fine_ok fine_runtime fine_throw_if : parser.

Ltac free_cost := intros; unfold free, if_true, if_some, not_end in *; simpl; repeat case_bool_decide; (done || lia || congruence).

(** Results that throw only runtime errors. *)
Ltac fining := repeat first
  [ solve [eauto 2 with parser] | apply fine_bind; [|intros]
  | match goal with |- fine (match ?x with _ => _ end) => destruct x end ].

Ltac parsing_call := eapply spends_weaken; [solve [eauto 2 with parser] | free_cost.. ].

Ltac parsing := cbv zeta; repeat first
  [ solve [apply spends_raise; left; eexists; reflexivity]
  | solve [apply spends_ret; free_cost]
  | solve [apply spends_error]
  | solve [apply spends_peek; free_cost] | solve [apply spends_gets; free_cost]
  | solve [apply spends_modify; [done|free_cost]]
  | solve [apply spends_lift; [fining|free_cost]]
  | solve [parsing_call]
  | match goal with
    | |- spends _ (mbind _ _) _ => eapply spends_bind; [solve [eauto 2 with parser]|intros; cbv beta]
    | |- spends _ (mbind _ _) _ => eapply (spends_bind _ _ _ free); [|intros; cbv beta]
    | |- spends _ (match ?x with _ => _ end) _ => destruct x
    end ].

Lemma spends_keyword k lexeme : spends k (keyword lexeme) if_true.
Proof. by apply spends_match. Qed.
Lemma spends_symbol k type : type ≠ T_End → spends k (symbol type) if_true.
Proof. by apply spends_match. Qed.
#[export] Hint Resolve spends_keyword spends_advance spends_name : parser.
#[export] Hint Extern 1 (spends _ (symbol _) _) => apply spends_symbol; discriminate : parser.

Lemma spends_expect k type lexeme : type ≠ T_End → spends k (expect type lexeme) (λ _, 1).
Proof.
  intros Ht. eapply spends_bind; [by apply spends_match|]. intros []; parsing.
Qed.
Lemma spends_expect_keyword k lexeme : spends k (expect_keyword lexeme) (λ _, 1).
Proof. by apply spends_expect. Qed.
Lemma spends_expect_symbol k type : type ≠ T_End → spends k (expect_symbol type) (λ _, 1).
Proof. by apply spends_expect. Qed.
#[export] Hint Resolve spends_expect_keyword : parser.
#[export] Hint Extern 1 (spends _ (expect_symbol _) _) => apply spends_expect_symbol; discriminate : parser.

Lemma spends_fail_if k b message : spends k (fail_if b message) free.
Proof. unfold fail_if, fail. parsing. Qed.
Lemma spends_end k : spends k expectStatementEnd free.
Proof.
  unfold expectStatementEnd. parsing.
Qed.
#[export] Hint Resolve spends_fail_if spends_end : parser.

(** ** Lists *)

Lemma spends_comma_list {A} k (item : parse A) c : spends k item free → (∀ l, c l = 0) → spends k (comma_list item) c.
Proof.
  intros Hi Hc. apply spends_commas; [|done]. intros l. eapply spends_bind; [exact Hi|]. intros. by apply spends_ret.
Qed.

(** The same with loops. *)
Ltac parsing_loops := parsing; repeat (first
  [ apply spends_comma_list; [|free_cost] | apply spends_commas; [intros|free_cost]
  | apply spends_while; [solve [eauto 2 with parser]|intros|free_cost]
  | apply spends_while_body; [solve [eauto 2 with parser]|intros|free_cost] | apply spends_loop; [intros|free_cost] ]; parsing).

(** ** Results *)

Lemma fine_type v : fine (Value_type v).
Proof. unfold Value_type. fining. Qed.
Lemma fine_simple (p : Pred) : fine (assertSimpleCheckConstraint p).
Proof. induction p; simpl; fining. Qed.
Lemma fine_mark outer inner p : fine (markOuterRefs outer inner p).
Proof. induction p; simpl; fining. Qed.
#[export] Hint Resolve fine_type fine_simple fine_mark : parser.

Lemma fine_mark_select outer : ∀ s inner, fine (markOuterRefs_select outer inner s).
Proof.
  fix IH 1. intros [table joins columns condition groupBy orderBy limit ctes setOps alias has] inner. simpl.
  apply fine_bind.
  { induction ctes as [|[name [body|] mode recursive distinct accumulator [arm|]] ctes IHc]; [apply fine_ok|..];
      fining; apply IH || exact IHc. }
  intros ctes'. apply fine_bind; [|intros; fining].
  induction setOps as [|[op [arm|]] setOps IHs]; [apply fine_ok|..]; fining; apply IH || exact IHs.
Qed.
#[export] Hint Resolve fine_mark_select : parser.

Lemma fine_peel b name body : fine (peel_recursive b name body).
Proof. unfold peel_recursive. fining. Qed.

Lemma fine_entries ctes ids todo : (∀ i, i ∈ todo → is_Some (ctes !! i)) → fine (validate_entries ctes ids todo).
Proof.
  induction todo as [|i todo IH]; intros Hin; [apply fine_ok|]. simpl.
  destruct (Hin i) as [c ->]; [set_solver|]. apply fine_bind; [unfold validate_entry; fining|].
  intros _. apply IH. set_solver.
Qed.

Lemma fine_validate ctes : fine (validateRecursiveCtes ctes).
Proof.
  unfold validateRecursiveCtes. destruct (recursiveCteIndexes ctes) as [|i l] eqn:E; [apply fine_ok|]. apply fine_bind.
  - apply fine_entries. intros j Hj. rewrite <- E in Hj. unfold recursiveCteIndexes in Hj.
    rewrite list_elem_of_In, filter_In in Hj. destruct Hj as [_ Hj]. by destruct (ctes !! j).
  - intros _. destruct (stronglyConnectedComponents _). apply fine_throw_if.
Qed.
#[export] Hint Resolve fine_peel fine_validate : parser.

Lemma fine_map_columns name f columns : (∀ c, fine (f c)) → fine (map_columns name f columns).
Proof. intros Hf. induction columns; simpl; fining; apply Hf. Qed.
Lemma fine_flag b c : fine (flag_column b c).
Proof. unfold flag_column, primary_not_null. fining. Qed.
Lemma fine_keep b c : fine (keep_column b c).
Proof. unfold keep_column, primary_not_null. fining. Qed.
Lemma fine_find name f columns : (∀ c, fine (f c)) → fine (find_columns name f columns).
Proof. intros Hf. unfold find_columns. apply fine_bind; [by apply fine_map_columns|]. intros []. fining. Qed.
Lemma fine_check_each b names columns : fine (check_each b names columns).
Proof.
  revert columns. induction names as [|name names IH]; intros columns; [apply fine_ok|]. simpl.
  apply fine_bind; [apply fine_find; intros; apply fine_keep|apply IH].
Qed.
Lemma fine_normalize columns l : fine (normalize_uniques columns l).
Proof.
  revert columns. induction l as [|c l IH]; intros columns; [apply fine_ok|]. simpl. apply fine_bind; [|apply IH].
  unfold normalize_unique. destruct (uc_columns c) as [|n [|]]; try apply fine_check_each.
  apply fine_find. intros. apply fine_flag.
Qed.
Lemma fine_known prefix columns names : fine (all_known prefix columns names).
Proof. induction names; simpl; fining. Qed.
#[export] Hint Resolve fine_normalize fine_known : parser.
Lemma fine_finish name i : fine (finish_table name i).
Proof. unfold finish_table, validateCheckColumns. fining. Qed.
#[export] Hint Resolve fine_finish : parser.

(** ** The parsers *)

Section total.
Context (stod : chars → option Z).

Lemma spends_parseIntLiteral k lexeme : spends k (parseIntLiteral lexeme) free.
Proof. unfold parseIntLiteral, fail. parsing. Qed.
Lemma spends_parseDouble k lexeme : spends k (parseDouble stod lexeme) free.
Proof. unfold parseDouble. destruct (stod _); [parsing|]. apply spends_raise. by right. Qed.
Hint Resolve spends_parseIntLiteral spends_parseDouble : parser.

Lemma spends_parseValue k : spends k (parseValue stod) free.
Proof. unfold parseValue, fail. parsing. Qed.
Hint Resolve spends_parseValue : parser.

Lemma spends_parseIndexExpression k : spends k (parseIndexExpression stod) free.
Proof. unfold parseIndexExpression. parsing. Qed.
Lemma spends_comparison_operator k message : spends k (comparison_operator message) free.
Proof. unfold comparison_operator, fail. parsing. Qed.
Hint Resolve spends_parseIndexExpression spends_comparison_operator : parser.

(** What is known of the calls into nested text. *)
Section open_grammar.
Context (g : Grammar) (n : nat) (Hpred : spends n (g_predicate g) free) (Hsel : spends n (g_select g) free).
Context (Hwith : ∀ depth, spends n (g_with g depth) free).
Hint Resolve Hpred Hsel Hwith : parser.

Lemma spends_subquery : spends (Datatypes.S n) (parseSubquerySelect g) free.
Proof. unfold parseSubquerySelect, fail. parsing. Qed.
Hint Resolve spends_subquery : parser.

Lemma spends_exists : spends (Datatypes.S n) (parseExistsPredicate g) free.
Proof. unfold parseExistsPredicate. parsing. Qed.

Lemma spends_pattern k message : spends k (parse_pattern stod message) free.
Proof. unfold parse_pattern, fail. parsing. Qed.
Hint Resolve spends_exists spends_pattern : parser.

Lemma spends_in column : spends (Datatypes.S n) (parse_in stod g column) free.
Proof. unfold parse_in, fail. parsing_loops. Qed.
Hint Resolve spends_in : parser.

Lemma spends_comparison : spends (Datatypes.S n) (parseComparisonPredicate stod g) free.
Proof. unfold parseComparisonPredicate, fail. parsing. Qed.
Lemma spends_expression_comparison k : spends k (parse_expression_comparison stod) free.
Proof. unfold parse_expression_comparison. parsing. Qed.
Hint Resolve spends_comparison spends_expression_comparison : parser.

(** The attempt gives back its tokens when it fails. *)
Lemma spends_attempt k : spends k (try_expression_comparison stod) free.
Proof.
  intros p Hp. unfold try_expression_comparison, mbind, M_bind.
  destruct (peek_cases p) as [(t & -> & _)|(e & -> & He)]; [|by split_and!].
  destruct (_ || _); [|unfold free, mret, M_ret; split_and!; (done || lia)]. unfold gets, catch_runtime.
  pose proof (spends_expression_comparison k p Hp) as H. destruct (parse_expression_comparison stod p) as [[q|e] p'];
    destruct H as (H1 & H2 & H3); [by split_and!|].
  assert (∀ q : Parser, p_tokens q = p_tokens p → remaining (set_current (p_current p) q) = remaining p) as Hr.
  { intros q Hq. unfold remaining. simpl. by rewrite Hq. }
  destruct e; unfold modify, mret, M_ret, free in *; split_and!; try done; rewrite ?Hr by done; lia.
Qed.
Hint Resolve spends_attempt : parser.

Lemma spends_primary : spends (Datatypes.S n) (parsePrimaryPredicate stod g) free.
Proof. unfold parsePrimaryPredicate. parsing. Qed.
Hint Resolve spends_primary : parser.
Lemma spends_and : spends (Datatypes.S n) (parseAndPredicate stod g) free.
Proof. unfold parseAndPredicate. parsing_loops. Qed.
Hint Resolve spends_and : parser.
Lemma spends_or : spends (Datatypes.S n) (parsePredicate stod g) free.
Proof. unfold parsePredicate, parseOrPredicate. parsing_loops. Qed.

Lemma spends_where k (q : parse Pred) : spends (k - 1) q free → spends k (parse_where q) free.
Proof. intros Hq. unfold parse_where. eapply spends_bind; [apply spends_keyword|]. intros []; parsing. Qed.

Lemma spends_aggregate k agg : spends k (parse_aggregate agg) free.
Proof. unfold parse_aggregate. parsing. Qed.
Hint Resolve spends_aggregate : parser.
Lemma spends_select_item k : spends k parse_select_item free.
Proof. unfold parse_select_item. parsing. Qed.
Lemma spends_alias k : spends k parse_alias free.
Proof. unfold parse_alias. parsing. Qed.
Hint Resolve spends_select_item spends_alias : parser.
Lemma spends_from : spends (Datatypes.S n) (parse_from g) free.
Proof. unfold parse_from. parsing. Qed.
Lemma spends_join_kind k : spends k parse_join_kind (λ _, 1).
Proof. unfold parse_join_kind. parsing. Qed.
Hint Resolve spends_from spends_join_kind : parser.
Lemma spends_join k : spends k parse_join (λ _, 1).
Proof. unfold parse_join. parsing. Qed.
Lemma spends_at_join k : spends k at_join free.
Proof. unfold at_join. parsing. Qed.
Lemma spends_group_by k : spends k parse_group_by free.
Proof. unfold parse_group_by. parsing_loops. Qed.
Hint Resolve spends_join spends_at_join spends_group_by : parser.

Lemma spends_core : spends (Datatypes.S n) (parseSelectCoreAfterSelectKeyword g) free.
Proof.
  unfold parseSelectCoreAfterSelectKeyword. parsing_loops.
  - eapply spends_weaken; [apply (spends_where (Datatypes.S n))|free_cost..]. parsing.
Qed.
Hint Resolve spends_core : parser.

Lemma spends_set_op arms : spends (Datatypes.S n) (parse_set_op g arms) if_some.
Proof.
  unfold parse_set_op. eapply (spends_bind _ _ _ free); [parsing|]. intros t.
  destruct (if bool_decide _ then _ else _) as [op|]; [|parsing].
  eapply (spends_bind _ _ _ free); [parsing|]. intros. parsing.
Qed.
Lemma spends_order_by k : spends k parse_order_by free.
Proof. unfold parse_order_by. parsing. Qed.
Lemma spends_limit k : spends k parse_limit free.
Proof. unfold parse_limit, fail. parsing. Qed.
Hint Resolve spends_set_op spends_order_by spends_limit : parser.

Lemma spends_select : spends (Datatypes.S n) (parseSelectAfterSelectKeyword g) free.
Proof. unfold parseSelectAfterSelectKeyword. parsing_loops. Qed.

Lemma spends_materialize k : spends k parse_materialize free.
Proof. unfold parse_materialize. parsing. Qed.
Hint Resolve spends_materialize : parser.
Lemma spends_cte depth b ctes : spends (Datatypes.S n) (parse_cte g depth b ctes) free.
Proof. unfold parse_cte. parsing. Qed.
Hint Resolve spends_cte : parser.
Lemma spends_with depth : spends (Datatypes.S n) (parseWithSelectAtDepth g depth) free.
Proof. unfold parseWithSelectAtDepth. parsing_loops. Qed.
End open_grammar.

Lemma spends_grammar n : spends n (g_predicate (grammar stod n)) free ∧ spends n (g_select (grammar stod n)) free ∧
  ∀ depth, spends n (g_with (grammar stod n) depth) free.
Proof.
  induction n as [|n (Hp & Hs & Hw)]; [split_and!; intros; apply spends_none|]. cbn [grammar]. split_and!.
  - by apply spends_or.
  - by apply spends_select.
  - intros depth. by apply spends_with.
Qed.

(** ** Statements *)

Section statements.
Context (g : Grammar) (n : nat) (Hpred : spends n (g_predicate g) free) (Hsel : spends n (g_select g) free).
Context (Hwith : ∀ depth, spends n (g_with g depth) free).
Hint Resolve Hpred Hsel Hwith : parser.

Lemma spends_column_names k message : spends k (parse_column_names message) free.
Proof. unfold parse_column_names. parsing_loops. Qed.
Hint Resolve spends_column_names : parser.
Lemma spends_check_body : spends n (parseCheckConstraintBody g) free.
Proof. unfold parseCheckConstraintBody. parsing. Qed.
Lemma spends_references k columns : spends k (parseReferencesClause columns) free.
Proof. unfold parseReferencesClause. parsing. Qed.
Lemma spends_fk_action k : spends k parse_fk_action free.
Proof. unfold parse_fk_action, fail. parsing. Qed.
Hint Resolve spends_check_body spends_references spends_fk_action : parser.
Lemma spends_fk_actions k fk : spends k (parseForeignKeyActions fk) free.
Proof. unfold parseForeignKeyActions, parse_on_action. parsing_loops. Qed.
Hint Resolve spends_fk_actions : parser.

Lemma spends_nullability k b f : spends k (column_nullability b f) free.
Proof. unfold column_nullability. parsing. Qed.
Hint Resolve spends_nullability : parser.
Lemma spends_column_option column s : spends n (parse_column_option g column s) if_some.
Proof. unfold parse_column_option. parsing. Qed.
Lemma spends_column_type k : spends k parse_column_type free.
Proof. unfold parse_column_type, fail. parsing. Qed.
Hint Resolve spends_column_option spends_column_type : parser.
Lemma spends_column i : spends n (parse_column g i) free.
Proof. unfold parse_column. parsing_loops. Qed.
Hint Resolve spends_column : parser.
Lemma spends_table_item i : spends n (parse_table_item g i) free.
Proof. unfold parse_table_item. parsing. Qed.
Hint Resolve spends_table_item : parser.
Lemma spends_create_table : spends n (parseCreateTable g) free.
Proof. unfold parseCreateTable. parsing_loops. Qed.

Lemma spends_default k t b : spends k (parse_default stod t b) free.
Proof. unfold parse_default. parsing. Qed.
Lemma spends_inline k : spends k inline_constraint free.
Proof. unfold inline_constraint. parsing. Qed.
Hint Resolve spends_create_table spends_default spends_inline : parser.
Lemma spends_add_column k table : spends k (parse_add_column stod table) free.
Proof. unfold parse_add_column, fail. parsing. Qed.
Hint Resolve spends_add_column : parser.
Lemma spends_alter k : spends k (parseAlterTable stod) free.
Proof. unfold parseAlterTable, fail. parsing. Qed.
Lemma spends_create_index k : spends k (parseCreateIndex stod) free.
Proof. unfold parseCreateIndex. parsing_loops. Qed.
Lemma spends_row k : spends k (parse_row stod) free.
Proof. unfold parse_row. parsing_loops. Qed.
Hint Resolve spends_alter spends_create_index spends_row : parser.
Lemma spends_insert k : spends k (parseInsert stod) free.
Proof. unfold parseInsert. parsing_loops. Qed.
Lemma spends_update : spends n (parseUpdate stod g) free.
Proof.
  unfold parseUpdate. parsing. eapply spends_weaken; [apply (spends_where n)|free_cost..]. parsing.
Qed.
Lemma spends_delete : spends n (parseDelete g) free.
Proof. unfold parseDelete. parsing. eapply spends_weaken; [apply (spends_where n)|free_cost..]. parsing. Qed.
Hint Resolve spends_insert spends_update spends_delete : parser.
Lemma spends_explain : spends n (parseExplain stod g) free.
Proof. unfold parseExplain. parsing. Qed.

Lemma spends_create : spends n (parse_create stod g) free.
Proof. unfold parse_create. parsing. Qed.
Lemma spends_drop k : spends k parse_drop free.
Proof. unfold parse_drop, parseDropIndex, parseDropTable. parsing. Qed.

Lemma spends_commands : Forall (λ c, spends n c.2 free) (commands stod g).
Proof.
  unfold commands. repeat (apply Forall_cons; split); simpl; try apply Forall_nil; try done;
    unfold parseRenameTable, parseAnalyze, parse_load, parsePrepare, parseExecutePrepared, fail;
    (apply spends_create || apply spends_drop || apply spends_explain || parsing).
Qed.

Lemma spends_statement : spends n (parse_statement stod g) free.
Proof.
  unfold parse_statement. induction spends_commands as [|[w command] l Hc _ IH]; simpl; [parsing|].
  eapply spends_bind; [apply spends_keyword|]. intros []; [|eapply spends_weaken; [exact IH|free_cost..]].
  eapply spends_bind; [eapply spends_weaken; [exact Hc|free_cost|done]|]. intros. parsing.
Qed.
End statements.
End total.

(** A statement is returned at the end of the text. *)
Lemma dispatch_end l p q p' : dispatch l p = (Ok q, p') → ∃ t, p_tokens p' !! p_current p' = Some t ∧ tk_type t = T_End.
Proof.
  revert p. induction l as [|[w command] l IH]; intros p; simpl.
  - unfold error, mbind, M_bind. by destruct (peek p) as [[t|e] p1].
  - unfold mbind at 1, M_bind at 1. destruct (keyword w p) as [[[]|e] p1]; [|apply IH|done].
    unfold mbind, M_bind. destruct (command p1) as [[q1|e] p2]; [|done]. unfold expectStatementEnd, mbind, M_bind.
    destruct (symbol T_Semicolon p2) as [[b|e] p3]; [|done].
    unfold peek at 1. destruct (p_tokens p3 !! p_current p3) as [t|] eqn:Et; [|done]. case_bool_decide as Hb.
    + unfold mret, M_ret. intros [= _ <-]. by exists t.
    + unfold error, mbind, M_bind. by destruct (peek p3) as [[t'|e] p4].
Qed.

Lemma lexical_parse_exn e : lexical_error e → parse_exn e.
Proof. intros (m & l & c & -> & _). left. by eexists. Qed.

(** C18: parsing a text always ends.  A parser in any state, given any text, returns
    a statement after reading the text to its end, or throws a runtime error (or the
    [out_of_range] of [std::stod]): the fuel of the recursion through nested
    parentheses, subqueries and WITH lists, and of every loop, is never used up. *)
Theorem parser_total (stod : chars → option Z) (sql : chars) (p : Parser) :
  match Parser_parse stod sql p with
  | (Ok _, p') => ∃ t, tokenize sql = Ok (p_tokens p') ∧ p_tokens p' !! p_current p' = Some t ∧ tk_type t = T_End
  | (Throw e, _) => parse_exn e
  end.
Proof.
  unfold Parser_parse, mbind, M_bind, liftM. destruct (tokenize sql) as [tokens|e] eqn:Et.
  2: { apply lexical_parse_exn. unfold tokenize in Et.
       destruct (tokenize_loop_total (Datatypes.S (length sql)) [] sql) as [(ts & E & _)|(e' & E & He)]; [lia| |];
         change (cursor_after []) with cursor_start in E; [congruence|by replace e with e' by congruence]. }
  unfold parse_tokens, mbind, M_bind, modify. set (p0 := mkParser tokens 0 _ _ _). set (n := Datatypes.S (length tokens)).
  destruct (spends_grammar stod n) as (Hp & Hs & Hw).
  pose proof (spends_statement stod (grammar stod n) n Hp Hs Hw p0) as H.
  destruct (parse_statement stod (grammar stod n) p0) as [[q|e] p'] eqn:E; destruct H as (H1 & _ & H3);
    try (unfold remaining; simpl; lia); [|done].
  destruct (dispatch_end _ _ _ _ E) as (t & Ht & He). exists t. by rewrite H1 in *.
Qed.

(** ** State after an error *)

(** [parse] resets only the tokens, so the scope of a subquery that failed to parse
    stays: the DELETE of a new parser is refused because DELETE opens no FROM scope,
    and the same statement is accepted after the error. *)
Lemma scope_kept_after_error :
  let stod : chars → option Z := λ _, None in
  let broken := explode "SELECT a FROM t WHERE EXISTS (SELECT b FROM u WHERE );" in
  let delete := explode "DELETE FROM t WHERE EXISTS (SELECT b FROM u);" in
  let p := (Parser_parse stod broken parser_new).2 in
  (Parser_parse stod delete parser_new).1 = Throw (runtime_error "subquery is missing an outer FROM scope") ∧
  (∃ x, (Parser_parse stod broken parser_new).1 = Throw x) ∧ (∃ q, (Parser_parse stod delete p).1 = Ok q) ∧
  p_outerTableStack p = ["t"].
Proof. vm_compute. split_and!; by eauto. Qed.
