(* ===== verification/ParserWords.v ===== *)
(** * Parsing known words

    How a parser runs on tokens whose types and lexemes are known, and how a text
    with known words is tokenized.  Both are used to show that printed statements
    parse. *)

From S2P Require Import Prelude Value StringPattern IndexExpression Predicate SetOps Histogram IndexManager Table.
From S2P Require Import Ast Tokenizer RecursiveCte Database Parser.
From Stdlib Require Import Ascii.
Local Open Scope nat_scope.

Abbreviation W := (TokenType * string)%type.

(** The words from the current position on. *)
Definition at_words (p : Parser) (ws : list W) : Prop := word <$> drop (p_current p) (p_tokens p) = ws.

Definition skip (n : nat) (p : Parser) : Parser := set_current (p_current p + n) p.

(** On the words [ws] in front of [rest], [m] returns [a] and passes over [ws]. *)
Definition parses {A} (m : parse A) (ws rest : list W) (a : A) : Prop :=
  ∀ p, at_words p (ws ++ rest) → m p = (Ok a, skip (length ws) p).

Lemma at_words_skip p ws rest : at_words p (ws ++ rest) → at_words (skip (length ws) p) rest.
Proof.
  unfold at_words, skip. simpl. intros H. rewrite <- drop_drop, fmap_drop, H. by rewrite drop_app_length.
Qed.

Lemma skip_skip a b p : skip b (skip a p) = skip (a + b) p.
Proof. unfold skip, set_current. simpl. by rewrite Nat.add_assoc. Qed.

Lemma skip_0 p : skip 0 p = p.
Proof. destruct p. unfold skip, set_current. simpl. by rewrite Nat.add_0_r. Qed.

Lemma at_words_lookup p w ws : at_words p (w :: ws) → ∃ t, p_tokens p !! p_current p = Some t ∧ word t = w.
Proof.
  unfold at_words. intros H. destruct (drop (p_current p) (p_tokens p)) as [|t l] eqn:E; [done|]. injection H as Hw _.
  exists t. split; [|done]. rewrite <- (Nat.add_0_r (p_current p)), <- lookup_drop, E. done.
Qed.

Lemma at_words_remaining p ws : at_words p ws → remaining p = length ws.
Proof. intros <-. unfold remaining. by rewrite length_fmap, length_drop. Qed.

(** ** Rules *)

Lemma parses_ret {A} (a : A) rest : parses (mret a) [] rest a.
Proof. intros p _. by rewrite skip_0. Qed.

Lemma parses_bind {A B} (m : parse A) (f : A → parse B) ws1 ws2 rest a b : parses m ws1 (ws2 ++ rest) a →
  parses (f a) ws2 rest b → parses (m ≫= f) (ws1 ++ ws2) rest b.
Proof.
  intros Hm Hf p Hp. rewrite <- app_assoc in Hp. unfold mbind, M_bind. rewrite (Hm p Hp), (Hf _ (at_words_skip _ _ _ Hp)).
  by rewrite skip_skip, length_app.
Qed.

Lemma parses_cons {A B} (m : parse A) (f : A → parse B) w ws rest a b : parses m [w] (ws ++ rest) a →
  parses (f a) ws rest b → parses (m ≫= f) (w :: ws) rest b.
Proof. apply (parses_bind m f [w]). Qed.

Lemma parses_nil {A B} (m : parse A) (f : A → parse B) ws rest a b : parses m [] (ws ++ rest) a →
  parses (f a) ws rest b → parses (m ≫= f) ws rest b.
Proof. apply (parses_bind m f []). Qed.

Lemma parses_last {A B} (m : parse A) (f : A → parse B) ws rest a b : parses m ws rest a →
  parses (f a) [] rest b → parses (m ≫= f) ws rest b.
Proof. intros Hm Hf. rewrite <- (app_nil_r ws). by eapply parses_bind. Qed.

Lemma parses_lift {A} (r : result A) rest a : r = Ok a → parses (liftM r) [] rest a.
Proof. intros -> p _. by rewrite skip_0. Qed.

Lemma parses_fail_if b message rest : b = false → parses (fail_if b message) [] rest tt.
Proof. intros -> p _. by rewrite skip_0. Qed.

(** ** Tokens *)

Definition word_is (type : TokenType) (lexeme : string) (w : W) : bool :=
  bool_decide (w.1 = type) && (String.eqb lexeme EmptyString || equalsIgnoreCase w.2 lexeme).

Lemma parses_peek w rest : ∀ p, at_words p (w :: rest) → ∃ t, peek p = (Ok t, p) ∧ word t = w.
Proof. intros p Hp. destruct (at_words_lookup _ _ _ Hp) as (t & Ht & Hw). exists t. unfold peek. by rewrite Ht. Qed.

Lemma advance_words w rest p : at_words p (w :: rest) → w.1 ≠ T_End → ∃ t, advance p = (Ok t, skip 1 p) ∧ word t = w.
Proof.
  intros Hp Hw. destruct (parses_peek w rest p Hp) as (t & E & <-). exists t. split; [|done].
  unfold advance, mbind, M_bind. rewrite E. rewrite bool_decide_false by exact Hw. unfold modify, mret, M_ret, skip.
  by rewrite Nat.add_1_r.
Qed.

Lemma match_words type lexeme w rest p : at_words p (w :: rest) → w.1 ≠ T_End →
  Parser_match type lexeme p = if word_is type lexeme w then (Ok true, skip 1 p) else (Ok false, p).
Proof.
  intros Hp Hw. unfold Parser_match. destruct (parses_peek w rest p Hp) as (t & E & Ht).
  unfold mbind at 1, M_bind at 1. rewrite E.
  assert (token_is type lexeme t = word_is type lexeme w) as -> by (by rewrite <- Ht).
  destruct (word_is type lexeme w); [|done]. destruct (advance_words w rest p Hp Hw) as (t' & E' & _).
  unfold mbind, M_bind. by rewrite E'.
Qed.

Lemma match_end type lexeme w rest p : at_words p (w :: rest) → w.1 ≠ type → Parser_match type lexeme p = (Ok false, p).
Proof.
  intros Hp Hw. unfold Parser_match. destruct (parses_peek w rest p Hp) as (t & E & <-).
  unfold mbind, M_bind. rewrite E. unfold token_is. by rewrite bool_decide_false.
Qed.

Lemma parses_match type lexeme w rest : w.1 ≠ T_End → word_is type lexeme w = true →
  parses (Parser_match type lexeme) [w] rest true.
Proof. intros Hw Hi p Hp. rewrite (match_words type lexeme w rest p Hp Hw). by rewrite Hi. Qed.

Lemma parses_no_match type lexeme w rest : type ≠ T_End → word_is type lexeme w = false →
  parses (Parser_match type lexeme) [] (w :: rest) false.
Proof.
  intros Ht Hi p Hp. rewrite skip_0. simpl in Hp. destruct (decide (w.1 = T_End)) as [He|He].
  - apply (match_end type lexeme w rest p Hp). congruence.
  - rewrite (match_words type lexeme w rest p Hp He). by rewrite Hi.
Qed.

Lemma parses_expect type lexeme w rest : w.1 ≠ T_End → word_is type lexeme w = true →
  parses (expect type lexeme) [w] rest tt.
Proof. intros Hw Hi. eapply parses_cons; [by apply parses_match|apply parses_ret]. Qed.

Lemma parses_name message name rest : parses (name_or message) [(T_Identifier, name)] rest name.
Proof.
  intros p Hp. destruct (advance_words (T_Identifier, name) rest p Hp) as (t & E & Ht); [done|].
  unfold name_or, mbind, M_bind. rewrite E. injection Ht as Ht <-. by rewrite bool_decide_true.
Qed.

(** ** Loops *)

(** The rounds of a loop over [ws] in front of [rest]. *)
Inductive rounds {A} (step : A → parse (option A)) (rest : list W) : A → list W → A → Prop :=
| rounds_stop a : parses (step a) [] rest None → rounds step rest a [] a
| rounds_step a a' a'' w ws : w ≠ [] → parses (step a) w (ws ++ rest) (Some a') → rounds step rest a' ws a'' →
    rounds step rest a (w ++ ws) a''.

Lemma parses_loop {A} (step : A → parse (option A)) a ws rest a' : rounds step rest a ws a' → parses (loop step a) ws rest a'.
Proof.
  intros Hr p Hp. unfold loop, mbind, M_bind, gets. rewrite (at_words_remaining p _ Hp).
  assert (∀ fuel, length (ws ++ rest) < fuel → loop_fuel fuel step a p = (Ok a', skip (length ws) p)) as H; [|by apply H; lia].
  revert p Hp. induction Hr as [a Hs|a a1 a2 w ws Hw Hs Hr IH]; intros p Hp [|fuel] Hf; try lia; cbn [loop_fuel];
    unfold mbind, M_bind.
  - by rewrite (Hs p Hp).
  - rewrite <- app_assoc in Hp. rewrite (Hs p Hp). rewrite (IH _ (at_words_skip _ _ _ Hp)); [by rewrite skip_skip, length_app|].
    rewrite !length_app in *. destruct w; [done|]. simpl in Hf. lia.
Qed.

Lemma rounds_while {A} cond (body : A → parse A) rest a : parses cond [] rest false → parses (while cond body a) [] rest a.
Proof.
  intros Hc. apply parses_loop. constructor. eapply parses_nil; [exact Hc|apply parses_ret].
Qed.

(** [P] of every item, with what the items before it gave. *)
Fixpoint along {A X} (P : A → X → Prop) (add : A → X → A) (a : A) (items : list X) : Prop :=
  match items with
  | [] => True
  | x :: items => P a x ∧ along P add (add a x) items
  end.

Lemma along_true {A X} (P : A → X → Prop) add a (items : list X) : (∀ a x, x ∈ items → P a x) → along P add a items.
Proof.
  revert a. induction items as [|x items IH]; intros a H; simpl; [done|]. split; [apply H; set_solver|].
  apply IH. intros. apply H. set_solver.
Qed.

Definition comma : W := (T_Comma, implode [","%char]).

(** The words of items, each but the first behind a comma. *)
Definition comma_words {X} (text : X → list W) (first : X) (items : list X) : list W :=
  text first ++ concat ((λ x, comma :: text x) <$> items).

(** An item ends at a comma or at the end of the list. *)
Lemma parses_commas {A X} (body : A → parse A) (add : A → X → A) (text : X → list W) (P : A → X → Prop) first items w0 rest a :
  (∀ a x w ws, P a x → w.1 = T_Comma ∨ w :: ws = w0 :: rest → parses (body a) (text x) (w :: ws) (add a x)) →
  w0.1 ≠ T_Comma → along P add a (first :: items) →
  parses (commas_of body a) (comma_words text first items) (w0 :: rest) (foldl add a (first :: items)).
Proof.
  intros Hb Hw0 [Hf Hi]. unfold commas_of, comma_words. cbn [foldl].
  assert (word_is T_Comma EmptyString w0 = false) as Hn by (unfold word_is; by rewrite bool_decide_false).
  eapply parses_bind.
  { destruct items as [|y items]; [apply Hb; [done|by right]|]. simpl. apply Hb; [done|by left]. }
  apply parses_loop. generalize dependent (add a first). clear a Hf. induction items as [|y items IH]; intros a Hi.
  - constructor. eapply parses_nil; [by apply parses_no_match|apply parses_ret].
  - destruct Hi as [Hy Hi].
    change (concat (_ <$> y :: items)) with ((comma :: text y) ++ concat ((λ x, comma :: text x) <$> items)).
    apply (rounds_step _ _ _ (add a y)); [done| |by apply IH].
    eapply parses_cons; [by apply parses_match|]. eapply parses_last; [|apply parses_ret].
    destruct items as [|z items]; [apply Hb; [done|by right]|]. simpl. apply Hb; [done|by left].
Qed.

Lemma parses_comma_list {X} (item : parse X) (text : X → list W) first items w0 rest :
  (∀ x w ws, x ∈ first :: items → w.1 = T_Comma ∨ w :: ws = w0 :: rest → parses item (text x) (w :: ws) x) → w0.1 ≠ T_Comma →
  parses (comma_list item) (comma_words text first items) (w0 :: rest) (first :: items).
Proof.
  intros Hi Hw0. assert (foldl (λ l x, l ++ [x]) [] (first :: items) = first :: items) as E.
  { assert (∀ l acc : list X, foldl (λ l x, l ++ [x]) acc l = acc ++ l) as H; [|apply (H _ [])].
    induction l as [|x l IH]; intros acc; simpl; [by rewrite app_nil_r|]. by rewrite IH, <- app_assoc. }
  rewrite <- E. apply (parses_commas _ (λ l x, l ++ [x]) text (λ _ x, x ∈ first :: items)); [|done|].
  - intros a x w ws Hx Hw. eapply parses_last; [by apply Hi|apply parses_ret].
  - apply along_true. by intros.
Qed.

(** ** Texts *)

(** The text ends with white space, punctuation or a quote. *)
Definition ends_clean (text : chars) : bool :=
  match last text with
  | Some c => isspace c || Ascii.eqb c double_quote || match punctuation c with Some _ => true | None => false end
  | None => true
  end.

Lemma clean_not_part c : isspace c || Ascii.eqb c double_quote || match punctuation c with Some _ => true | None => false end = true →
  isIdentifierPart c = false ∧ isNumberPart c = false ∧ isIdentifierStart c = false ∧ isdigit c = false.
Proof. by destruct c as [[] [] [] [] [] [] [] []]. Qed.

Lemma last_part (p : ascii → bool) c word : p c = true → Forall (λ x, p x = true) word →
  ∃ d, last (c :: word) = Some d ∧ p d = true.
Proof.
  intros Hc Hw. revert c Hc. induction Hw as [|d word Hd _ IH]; intros c Hc; [by exists c|].
  rewrite last_cons_cons. by apply IH.
Qed.

Lemma stops_pair rest : stops isIdentifierPart rest → stops isNumberPart rest.
Proof. destruct rest as [|c rest]; [done|]. simpl. unfold isIdentifierPart, isNumberPart, isalnum. by destruct (isalpha c), (isdigit c), (Ascii.eqb c "_"), (Ascii.eqb c "."). Qed.

Lemma token_text_extend type value text next rest : token_text type value text next →
  next ≠ [] ∨ ends_clean text = true ∨ stops isIdentifierPart rest → token_text type value text (next ++ rest).
Proof.
  intros Ht Hn.
  assert (∀ p c w, stops p next → p c = true → Forall (λ x, p x = true) w → text = c :: w →
    (∀ d, p d = true → isIdentifierPart d = true ∨ isNumberPart d = true) →
    (stops isIdentifierPart rest → stops p rest) → stops p (next ++ rest)) as Hs.
  { intros p c w Hst Hc Hw -> Hp Hpr. destruct next as [|d next]; [|done]. destruct Hn as [Hn|[Hn|Hn]]; [done| |by apply Hpr].
    destruct (last_part p c w Hc Hw) as (d & Hd & Hpd). unfold ends_clean in Hn. rewrite Hd in Hn.
    apply clean_not_part in Hn as (H1 & H2 & _). destruct (Hp d Hpd); congruence. }
  assert (∀ c, isIdentifierStart c = true → isIdentifierPart c = true) as Hi by (intros [[] [] [] [] [] [] [] []]; done).
  assert (∀ c, isdigit c = true → isNumberPart c = true) as Hd by (intros c Hc; unfold isNumberPart; by rewrite Hc).
  destruct Ht as [c w next Hc Hw Hst|c w next Hc Hw Hst|body value next Hb|c type next Hc].
  - constructor; [done..|]. eapply Hs; [done|by apply Hi|done|done|tauto|done].
  - constructor; [done..|]. eapply Hs; [done|by apply Hd|done|done|tauto|apply stops_pair].
  - by constructor.
  - by constructor.
Qed.

Lemma ends_clean_app a b : ends_clean (a ++ b) = true → b = [] ∧ ends_clean a = true ∨ b ≠ [] ∧ ends_clean b = true.
Proof.
  unfold ends_clean. destruct b as [|c b]; [rewrite app_nil_r; by left|]. rewrite last_app_cons. by right.
Qed.

Lemma lexed_reads done text tokens rest : lexed done text tokens → ends_clean text = true ∨ stops isIdentifierPart rest →
  ∃ ws, word <$> tokens = ws ++ [(T_End, EmptyString)] ∧ reads text ws rest.
Proof.
  induction 1 as [done|done c next tokens Hsp Hl IH|done type value text next tokens Ht Hl IH]; intros He.
  - exists []. split; [done|apply reads_nil].
  - destruct IH as (ws & -> & Hr).
    { destruct He as [He|]; [left|by right]. change (c :: next) with ([c] ++ next) in He.
      by apply ends_clean_app in He as [[-> _]|[_ He]]. }
    exists ws. split; [done|]. change (c :: next) with ([c] ++ next).
    change ws with ([] ++ ws). apply reads_app; [by apply reads_space|done].
  - assert ((ends_clean next = true ∨ stops isIdentifierPart rest) ∧
      (next ≠ [] ∨ ends_clean text = true ∨ stops isIdentifierPart rest)) as [He1 He2].
    { destruct He as [He|]; [|tauto]. destruct (ends_clean_app _ _ He) as [[-> He']|[Hn He']]; tauto. }
    destruct IH as (ws & Ew & Hr); [done|]. exists ((type, implode value) :: ws). split; [by rewrite fmap_cons, Ew|].
    change ((type, implode value) :: ws) with ([(type, implode value)] ++ ws). apply reads_app; [|done].
    by apply reads_token, token_text_extend.
Qed.

(** The words of a text, by running the tokenizer. *)
Definition words_of (text : chars) : option (list W) :=
  match tokenize text with
  | Ok tokens => Some (removelast (word <$> tokens))
  | Throw _ => None
  end.

Lemma reads_words text ws rest : words_of text = Some ws → ends_clean text = true ∨ stops isIdentifierPart rest →
  reads text ws rest.
Proof.
  unfold words_of. destruct (tokenize text) as [tokens|e] eqn:E; [|done]. intros [= <-] He.
  assert (lexed [] text tokens) as Hl.
  { unfold tokenize in E. destruct (tokenize_loop_total (Datatypes.S (length text)) [] text) as [(ts & E' & Hl)|(e & E' & _)];
      [lia| |]; change (cursor_after []) with cursor_start in E'; [|congruence]. by replace tokens with ts by congruence. }
  destruct (lexed_reads [] text tokens rest Hl He) as (ws & -> & Hr). by rewrite removelast_last.
Qed.

Lemma reads_text text ws rest : words_of text = Some ws → ends_clean text = true → reads text ws rest.
Proof. intros Hw He. by apply reads_words; [|left]. Qed.

Lemma reads_open text ws rest : words_of text = Some ws → stops isIdentifierPart rest → reads text ws rest.
Proof. intros Hw He. by apply reads_words; [|right]. Qed.

(** Words of a text that is read to its end, in any parser state. *)
Lemma reads_parse {A} (m : parse A) text ws a : reads text ws [] → parses m ws [(T_End, EmptyString)] a →
  ∃ tokens, tokenize text = Ok tokens ∧ length ws < length tokens ∧
    ∀ from outer n, ∃ p', m (mkParser tokens 0 from outer n) = (Ok a, p') ∧ p_tokens p' = tokens ∧ p_current p' = length ws ∧
      p_currentFromTable p' = from ∧ p_outerTableStack p' = outer ∧ p_nextParameterIndex p' = n.
Proof.
  intros Hr Hm. destruct (reads_tokenize text ws Hr) as (tokens & Et & Ew). exists tokens. split; [done|].
  split. { apply (f_equal length) in Ew. rewrite length_fmap, length_app in Ew. simpl in Ew. lia. }
  intros from outer n. eexists. split; [apply Hm; exact Ew|]. by split_and!.
Qed.

(** Texts joined by commas. *)
Lemma reads_joined {X} (text : X → list W) (print : X → chars) first items rest :
  (∀ x rest, x ∈ first :: items → stops isIdentifierPart rest → reads (print x) (text x) rest) → stops isIdentifierPart rest →
  reads (print first ++ concat ((λ x, explode ", " ++ print x) <$> items)) (comma_words text first items) rest.
Proof.
  intros Hp Hr. unfold comma_words. apply reads_app.
  { apply Hp; [set_solver|]. by destruct items. }
  assert (∀ x rest, x ∈ items → stops isIdentifierPart rest → reads (print x) (text x) rest) as Hp' by (intros; apply Hp; set_solver).
  clear Hp. induction items as [|y items IH]; [apply reads_nil|]. 
  change (reads (((explode ", " ++ print y)) ++ concat ((λ x, explode ", " ++ print x) <$> items))
    (([comma] ++ text y) ++ concat ((λ x, comma :: text x) <$> items)) rest).
  apply reads_app; [|apply IH; intros; apply Hp'; set_solver].
  apply reads_app; [by apply reads_text|]. apply Hp'; [set_solver|]. by destruct items.
Qed.
