(* ===== verification/StatementText.v ===== *)
(** * Printed statements parse back

    The text of a CHECK constraint, which snapshots store, and of the statements of
    the catalog engine, which the log stores, is read back by the tokenizer and the
    parser as the constraint or statement it was printed from. *)

From S2P Require Import Prelude Value StringPattern IndexExpression Predicate SetOps Histogram IndexManager Table ForeignKeys.
From S2P Require Import Ast Tokenizer RecursiveCte SqlLiteral Database Parser ParserWords.
From Stdlib Require Import Ascii.
Local Open Scope nat_scope.

Definition sym (c : ascii) : string := implode [c].
Definition ident (name : string) : W := (T_Identifier, name).
Definition op_type (op : ComparisonOperator) : TokenType :=
  match op with Equal => T_Equal | Greater => T_Greater | Less => T_Less end.

(** One symbol or one keyword of a parser on a word. *)
Ltac on_word := first
  [ apply parses_match; [done|reflexivity] | apply parses_expect; [done|reflexivity]
  | apply parses_no_match; [done|reflexivity] | apply parses_name | apply parses_ret
  | apply parses_fail_if; reflexivity ].

(** ** Words of statements *)

Section text.
Context (double_chars : Z → chars) (stod : chars → option Z).

Definition number_text (digits : chars) : Prop :=
  match digits with
  | c :: w => isdigit c = true ∧ Forall (λ x, isNumberPart x = true) w
  | [] => False
  end.

(** The literal of a [double]. *)
Definition double_text (b : Z) : chars :=
  let text := double_chars b in
  if existsb (λ c, Ascii.eqb c "." || Ascii.eqb c "e" || Ascii.eqb c "E") text then text else text ++ explode ".0".

(** The literal is a decimal fraction that [std::stod] reads as the same number. *)
Definition double_ok (b : Z) : Prop :=
  ∃ digits bits, number_text digits ∧ has_dot (implode digits) = true ∧ stod digits = Some bits ∧
    (double_text b = digits ∧ b = bits ∨ double_text b = "-"%char :: digits ∧ b = double_neg bits).

Definition literal_ok (v : Value) : Prop :=
  match v with
  | VNull | VString _ => True
  | VInt i => (- 2 ^ 63 < i < 2 ^ 63)%Z
  | VDouble b => double_ok b
  | VParam _ | VComposite _ => False
  end.

Definition number_words (text : chars) : list W :=
  match text with
  | "-"%char :: digits => [(T_Minus, sym "-"); (T_Number, implode digits)]
  | digits => [(T_Number, implode digits)]
  end.

Definition value_words (v : Value) : list W :=
  match v with
  | VInt i => number_words (int_chars i)
  | VDouble b => number_words (double_text b)
  | VString s => [(T_String, s)]
  | _ => [ident "NULL"]
  end.

Lemma number_digits digits : number_text digits → ∃ c w, digits = c :: w ∧ c ≠ "-"%char ∧ isdigit c = true ∧
  Forall (λ x, isNumberPart x = true) w.
Proof. destruct digits as [|c w]; [done|]. intros [Hc Hw]. exists c, w. split_and!; try done. by intros ->. Qed.

Lemma reads_number digits rest : number_text digits → stops isIdentifierPart rest →
  reads digits (number_words digits) rest ∧ reads ("-"%char :: digits) (number_words ("-"%char :: digits)) rest.
Proof.
  intros (c & w & -> & Hne & Hc & Hw)%number_digits Hr.
  assert (reads (c :: w) [(T_Number, implode (c :: w))] rest) as H by (apply reads_token; constructor; [done..|by apply stops_pair]).
  split.
  - assert (number_words (c :: w) = [(T_Number, implode (c :: w))]) as ->; [|done].
    unfold number_words. by destruct c as [[] [] [] [] [] [] [] []].
  - change ("-"%char :: c :: w) with (["-"%char] ++ c :: w). eapply (reads_app _ _ [_]); [by apply reads_punctuation|done].
Qed.

Lemma uint_text n : number_text (uint_chars n) ∧ has_dot (implode (uint_chars n)) = false.
Proof.
  destruct (uint_chars_digits n) as [Hd Hne]. unfold has_dot. rewrite String.list_ascii_of_string_of_list_ascii.
  split; [|by apply existsb_digits]. unfold number_text. destruct (uint_chars n) as [|c w]; [done|].
  apply Forall_cons in Hd as [Hc Hw]. split; [done|]. eapply Forall_impl; [exact Hw|]. intros x Hx. unfold isNumberPart. by rewrite Hx.
Qed.

Lemma int_words i : (- 2 ^ 63 < i < 2 ^ 63)%Z → ∃ n, (Z.of_N n < 2 ^ 63)%Z ∧
  (int_chars i = uint_chars n ∧ i = Z.of_N n ∨ int_chars i = "-"%char :: uint_chars n ∧ i = (- Z.of_N n)%Z).
Proof.
  intros Hi. destruct i as [|p|p].
  - exists 0%N. split; [lia|]. left. split; [apply (int_chars_nonneg 0)|done].
  - exists (Npos p). split; [lia|]. left. split; [apply (int_chars_nonneg (Npos p))|done].
  - exists (Npos p). split; [lia|]. right. split; [apply int_chars_neg|done].
Qed.

Lemma unescapes_escaped s : unescapes (escaped s) s.
Proof.
  induction s as [|c s IH]; [constructor|]. simpl. change quote with double_quote. change backslash with escape.
  destruct (Ascii.eqb_spec c double_quote) as [->|Hq]; [by apply unescapes_escaped|].
  destruct (Ascii.eqb_spec c escape) as [->|He]; [by apply unescapes_escaped|]. by apply unescapes_plain.
Qed.

Lemma reads_literal v rest : literal_ok v → stops isIdentifierPart rest →
  ∃ text, sqlLiteral double_chars v = Ok text ∧ literalForCheck double_chars v = Ok text ∧ reads text (value_words v) rest.
Proof.
  intros Hv Hr. destruct v as [|i|b|s|n|l]; try done; simpl in Hv.
  - eexists. split_and!; [done..|]. apply (reads_identifier "NULL"); [|done]. by apply (bool_decide_unpack _).
  - eexists. split_and!; [done..|]. simpl. destruct (int_words i Hv) as (n & _ & [[-> _]|[-> _]]);
      by apply (reads_number _ rest (proj1 (uint_text n))).
  - destruct Hv as (digits & bits & Hd & _ & _ & Ht). exists (double_text b). split_and!.
    + unfold sqlLiteral, double_text. simpl. done.
    + unfold literalForCheck, double_text. simpl. by destruct (existsb _ _).
    + unfold value_words. destruct Ht as [[-> _]|[-> _]]; by apply reads_number.
  - eexists. split_and!; [done..|]. simpl. rewrite <- (implode_explode s) at 2. apply reads_token.
    change quote with double_quote. constructor. apply unescapes_escaped.
Qed.

(** The value of a number token. *)
Lemma parses_number digits rest (v : Value) : number_text digits →
  (if has_dot (implode digits) then bits ← parseDouble stod (implode digits); mret (VDouble bits)
   else i ← parseIntLiteral (implode digits); mret (VInt i)) = mret v →
  parses (parseValue stod) [(T_Number, implode digits)] rest v.
Proof.
  intros Hd E. unfold parseValue. eapply parses_nil; [on_word|]. eapply parses_nil; [on_word|].
  intros p Hp. destruct (advance_words _ rest p Hp) as (t & Et & Hw); [done|]. injection Hw as Ht Hl.
  unfold mbind at 1, M_bind at 1. rewrite Et, Ht, Hl. simpl. by rewrite E.
Qed.

Lemma parses_minus digits rest (v : Value) : number_text digits →
  (if has_dot (implode digits) then bits ← parseDouble stod (implode digits); mret (VDouble (double_neg bits))
   else i ← parseIntLiteral (implode digits); mret (VInt (- i))) = mret v →
  parses (parseValue stod) [(T_Minus, sym "-"); (T_Number, implode digits)] rest v.
Proof.
  intros Hd E. unfold parseValue. eapply parses_nil; [on_word|]. eapply parses_cons; [on_word|].
  intros p Hp. destruct (advance_words _ rest p Hp) as (t & Et & Hw); [done|]. injection Hw as Ht Hl.
  unfold mbind at 1, M_bind at 1. rewrite Et, Ht, Hl. simpl. by rewrite E.
Qed.

Lemma number_words_plain digits : number_text digits → number_words digits = [(T_Number, implode digits)].
Proof.
  intros (c & w & -> & Hne & _)%number_digits. unfold number_words. by destruct c as [[] [] [] [] [] [] [] []].
Qed.

Lemma parses_value v rest : literal_ok v → parses (parseValue stod) (value_words v) rest v.
Proof.
  intros Hv. destruct v as [|i|b|s|n|l]; try done; simpl in Hv.
  - unfold parseValue. eapply parses_nil; [on_word|]. eapply parses_nil; [on_word|].
    intros p Hp. destruct (advance_words _ rest p Hp) as (t & Et & Hw); [done|]. injection Hw as Ht Hl.
    unfold mbind, M_bind. by rewrite Et, Ht, Hl.
  - simpl. destruct (int_words i Hv) as (n & Hn & Hi). destruct (uint_text n) as [Hd Hdot].
    assert (parseIntLiteral (implode (uint_chars n)) = mret (Z.of_N n)) as E.
    { unfold parseIntLiteral. by rewrite String.list_ascii_of_string_of_list_ascii, (from_uint_chars n Hn). }
    destruct Hi as [[-> ->]|[-> ->]].
    + rewrite (number_words_plain _ Hd). apply parses_number; [done|]. by rewrite Hdot, E.
    + apply parses_minus; [done|]. by rewrite Hdot, E.
  - destruct Hv as (digits & bits & Hd & Hdot & Hs & Ht). simpl.
    assert (parseDouble stod (implode digits) = mret bits) as E.
    { unfold parseDouble. by rewrite String.list_ascii_of_string_of_list_ascii, Hs. }
    destruct Ht as [[-> ->]|[-> ->]].
    + rewrite (number_words_plain _ Hd). apply parses_number; [done|]. by rewrite Hdot, E.
    + apply parses_minus; [done|]. by rewrite Hdot, E.
  - unfold parseValue. eapply parses_nil; [on_word|]. eapply parses_nil; [on_word|].
    intros p Hp. destruct (advance_words _ rest p Hp) as (t & Et & Hw); [done|]. injection Hw as Ht Hl.
    unfold mbind, M_bind. by rewrite Et, Ht, Hl.
Qed.

(** ** CHECK constraints *)

(** The constraints the parser builds, with literals that can be written. *)
Fixpoint check_ok (p : Pred) : Prop :=
  match p with
  | AndPred l r | OrPred l r => check_ok l ∧ check_ok r
  | ComparisonPred column op value rhsColumn None false =>
      is_identifier column ∧ equalsIgnoreCase column "EXISTS" = false ∧
      match rhsColumn with
      | Some rhs => is_identifier rhs ∧ equalsIgnoreCase rhs "NULL" = false ∧ value = VNull
      | None => literal_ok value
      end
  | _ => False
  end.

Definition paren (ws : list W) : list W := (T_LeftParen, sym "(") :: ws ++ [(T_RightParen, sym ")")].
Definition op_word (op : ComparisonOperator) : W := (op_type op, implode (op_text op)).

Fixpoint check_words (p : Pred) : list W :=
  match p with
  | AndPred l r => paren (check_words l ++ ident "AND" :: check_words r)
  | OrPred l r => paren (check_words l ++ ident "OR" :: check_words r)
  | ComparisonPred column op value rhsColumn _ _ =>
      ident column :: op_word op :: match rhsColumn with Some rhs => [ident rhs] | None => value_words value end
  | _ => []
  end.

Fixpoint check_depth (p : Pred) : nat :=
  match p with AndPred l r | OrPred l r => Datatypes.S (check_depth l `max` check_depth r) | _ => 0 end.

Lemma check_simple p : check_ok p → assertSimpleCheckConstraint p = Ok tt.
Proof.
  induction p as [column op value rhs [e|] [] |l IHl r IHr|l IHl r IHr| | | | |]; simpl; intros H; try done.
  - destruct H as (_ & _ & H). destruct rhs; [done|]. by destruct value.
  - destruct H as [Hl Hr]. by rewrite IHl, IHr.
  - destruct H as [Hl Hr]. by rewrite IHl, IHr.
Qed.

Lemma reads_op op rest : reads (explode " " ++ op_text op ++ explode " ") [op_word op] rest.
Proof. destruct op; by apply reads_text. Qed.

(** Text in parentheses with a keyword between two parts. *)
Lemma reads_infix (a b middle : chars) wa wb w rest : words_of middle = Some [w] → ends_clean middle = true →
  (∀ rest, stops isIdentifierPart rest → reads a wa rest) → (∀ rest, stops isIdentifierPart rest → reads b wb rest) →
  stops isIdentifierPart middle → middle ≠ [] →
  reads (explode "(" ++ a ++ middle ++ b ++ explode ")") (paren (wa ++ w :: wb)) rest.
Proof.
  intros Hm He Ha Hb Hs Hne. unfold paren. change ((T_LeftParen, sym "(") :: ?l) with ([(T_LeftParen, sym "(")] ++ l).
  apply reads_app; [by apply reads_text|]. rewrite <- app_assoc. apply reads_app.
  { apply Ha. by destruct middle. }
  change ((w :: wb) ++ ?l) with ([w] ++ wb ++ l). apply reads_app; [by apply reads_text|].
  apply reads_app; [by apply Hb|by apply reads_text].
Qed.

Lemma reads_check p : check_ok p → ∃ text, checkConstraintLiteral double_chars p = Ok text ∧
  ∀ rest, stops isIdentifierPart rest → reads text (check_words p) rest.
Proof.
  induction p as [column op value rhs [e|] [] |l IHl r IHr|l IHl r IHr| | | | |]; simpl; intros H; try done.
  - destruct H as (Hc & _ & Hr).
    assert (∃ text, (match rhs with Some rhs => Ok (explode rhs) | None => literalForCheck double_chars value end) = Ok text ∧
      ∀ rest, stops isIdentifierPart rest →
        reads text (match rhs with Some rhs => [ident rhs] | None => value_words value end) rest) as (text & Et & Hrt).
    { destruct rhs as [rhs|].
      - exists (explode rhs). split; [done|]. intros rest Hs. apply reads_identifier; [apply Hr|done].
      - destruct (reads_literal value [] Hr I) as (text & _ & E & _). exists text. split; [done|]. intros rest Hs.
        destruct (reads_literal value rest Hr Hs) as (text' & _ & E' & Ht). by replace text with text' by congruence. }
    exists (explode column ++ (explode " " ++ op_text op ++ explode " ") ++ text). split.
    { destruct rhs as [rhs|]; simplify_eq; simpl; [by rewrite <- app_assoc|]. rewrite Et. simpl. by rewrite <- app_assoc. }
    intros rest Hs. change (ident column :: op_word op :: ?l) with ([ident column] ++ [op_word op] ++ l).
    apply reads_app; [by apply reads_identifier|]. apply reads_app; [apply reads_op|by apply Hrt].
  - destruct H as [Hl Hr]. destruct (IHl Hl) as (a & Ea & Ha), (IHr Hr) as (b & Eb & Hb).
    rewrite Ea, Eb. exists (explode "(" ++ a ++ explode " AND " ++ b ++ explode ")"). split; [done|].
    intros rest _. by apply (reads_infix a b (explode " AND ")).
  - destruct H as [Hl Hr]. destruct (IHl Hl) as (a & Ea & Ha), (IHr Hr) as (b & Eb & Hb).
    rewrite Ea, Eb. exists (explode "(" ++ a ++ explode " OR " ++ b ++ explode ")"). split; [done|].
    intros rest _. by apply (reads_infix a b (explode " OR ")).
Qed.

Lemma parses_op message op rest : parses (comparison_operator message) [op_word op] rest op.
Proof.
  unfold comparison_operator. destruct op.
  - eapply parses_cons; on_word.
  - eapply parses_nil; [on_word|]. eapply parses_cons; on_word.
  - eapply parses_nil; [on_word|]. eapply parses_nil; [on_word|]. eapply parses_cons; on_word.
Qed.

Lemma parses_comparison g column op value rhs rest : check_ok (ComparisonPred column op value rhs None false) →
  parses (parseComparisonPredicate stod g) (check_words (ComparisonPred column op value rhs None false)) rest
    (ComparisonPred column op value rhs None false).
Proof.
  intros (Hc & _ & Hr). unfold parseComparisonPredicate. simpl check_words. eapply parses_cons; [on_word|].
  assert (∀ k, word_is T_Identifier k (op_word op) = false) as Hk by (by destruct op).
  assert (word_is T_Tilde EmptyString (op_word op) = false) as Ht by (by destruct op).
  eapply parses_nil; [by apply parses_no_match|]. eapply parses_nil; [by apply parses_no_match|].
  eapply parses_nil; [by apply parses_no_match|]. eapply parses_cons; [apply parses_op|].
  destruct rhs as [rhs|].
  - destruct Hr as (_ & Hn & ->). intros p Hp. destruct (parses_peek _ _ p Hp) as (t & Et & Hw).
    unfold mbind at 1, M_bind at 1. rewrite Et. injection Hw as Hty Hl. rewrite Hty, Hl, Hn. simpl.
    destruct (advance_words _ _ p Hp) as (t' & Et' & Hw'); [done|]. injection Hw' as _ Hl'. unfold mbind, M_bind. rewrite Et'.
    by rewrite Hl'.
  - intros p Hp. assert (∃ w ws, value_words value = w :: ws ∧
      bool_decide (w.1 = T_Identifier) && negb (equalsIgnoreCase w.2 "NULL") = false) as (w & ws & Ew & Hw).
    { destruct value; try done; simpl; try (by eexists _, _). 
      all: unfold number_words; match goal with |- context [match ?x with [] => _ | _ => _ end] => destruct x as [|[[] [] [] [] [] [] [] []] ?] end;
        by eexists _, _. }
    rewrite Ew in Hp. destruct (parses_peek _ _ p Hp) as (t & Et & Hwt). unfold mbind at 1, M_bind at 1. rewrite Et.
    rewrite <- Hwt in Hw. simpl in Hw. rewrite Hw. rewrite <- Ew in Hp. revert p Hp Et.
    intros p Hp _. eapply (parses_last (parseValue stod)); [by apply parses_value|apply parses_ret|done].
Qed.

(** An attempt to read [(column op] as an expression in parentheses gives up. *)
Lemma attempt_fails column op ws p : at_words p (ident column :: op_word op :: ws) →
  try_expression_comparison stod p = (Ok None, p).
Proof.
  intros Hp. unfold try_expression_comparison. destruct (parses_peek _ _ p Hp) as (t & Et & Hw).
  unfold mbind at 1, M_bind at 1. rewrite Et. injection Hw as Hty _. rewrite Hty. cbn [bool_decide orb]. rewrite bool_decide_true by done.
  cbn [orb]. unfold gets, mbind at 1, M_bind at 1, catch_runtime.
  assert (∃ what, (p0 ← parse_expression_comparison stod; mret (Some p0)) p = (Throw (runtime_error what), skip 1 p)) as [what ->].
  2: { unfold modify, mbind, M_bind, mret, M_ret. f_equal. unfold skip, set_current. by destruct p. }
  assert (∀ k, word_is T_Identifier k (op_word op) = false) as Hk by (by destruct op).
  assert (∀ type, type ≠ op_type op → word_is type EmptyString (op_word op) = false) as Hs.
  { intros type Hn. unfold word_is. rewrite bool_decide_false; [done|]. simpl. congruence. }
  pose proof (at_words_skip p [ident column] _ Hp) as Hp1. simpl in Hp1.
  destruct (parses_peek _ _ _ Hp1) as (t1 & Et1 & _).
  assert (∀ type, type ≠ T_End → type ≠ op_type op → ∃ what, expect type EmptyString (skip 1 p) = (Throw (runtime_error what), skip 1 p)) as Hex.
  { intros type Hte Hn. unfold expect, mbind, M_bind. rewrite (parses_no_match type EmptyString _ ws Hte (Hs type Hn) _ Hp1), skip_0.
    simpl. unfold error, mbind, M_bind. rewrite Et1. by eexists. }
  unfold parse_expression_comparison, parseIndexExpression, mbind, M_bind.
  assert (symbol T_Minus p = (Ok false, p)) as ->.
  { unfold symbol. by rewrite (parses_no_match T_Minus EmptyString (ident column) _ ltac:(done) eq_refl p Hp), skip_0. }
  rewrite (parses_name _ column _ p Hp). simpl length.
  destruct (equalsIgnoreCase column "trigram").
  { destruct (Hex T_LeftParen) as [what E]; [done|by destruct op|]. unfold expect_symbol. rewrite E. by eexists. }
  unfold fail_if. destruct (qualified column); [by eexists|]. unfold mret at 1, M_ret at 1.
  assert (∀ type, type ≠ T_End → type ≠ op_type op → symbol type (skip 1 p) = (Ok false, skip 1 p)) as Hsym.
  { intros type Hte Hn. unfold symbol. by rewrite (parses_no_match type EmptyString _ ws Hte (Hs type Hn) _ Hp1), skip_0. }
  rewrite Hsym by (by destruct op). rewrite Hsym by (by destruct op). unfold mret at 1, M_ret at 1.
  destruct (Hex T_RightParen) as [what E]; [done|by destruct op|]. unfold expect_symbol. rewrite E. by eexists.
Qed.

Lemma attempt_skips ws p : at_words p ((T_LeftParen, sym "(") :: ws) → try_expression_comparison stod p = (Ok None, p).
Proof.
  intros Hp. unfold try_expression_comparison. destruct (parses_peek _ _ p Hp) as (t & Et & Hw).
  unfold mbind, M_bind. rewrite Et. injection Hw as Hty _. by rewrite Hty.
Qed.

Lemma check_words_head p : check_ok p → (∃ column op ws, check_words p = ident column :: op_word op :: ws ∧
    equalsIgnoreCase column "EXISTS" = false) ∨ ∃ ws, check_words p = (T_LeftParen, sym "(") :: ws.
Proof.
  destruct p as [column op value rhs [e|] [] |l r|l r| | | | |]; simpl; intros H; try done; [left|by right; eexists..].
  eexists _, _, _. split; [done|apply H].
Qed.

(** [l AND r] or [l OR r] in front of a parenthesis. *)
Lemma parses_inner n l r rest :
  (∀ rest, parses (parsePrimaryPredicate stod (grammar stod n)) (check_words l) rest l) →
  (∀ rest, parses (parsePrimaryPredicate stod (grammar stod n)) (check_words r) rest r) →
  parses (parsePredicate stod (grammar stod n)) (check_words l ++ ident "AND" :: check_words r)
    ((T_RightParen, sym ")") :: rest) (AndPred l r) ∧
  parses (parsePredicate stod (grammar stod n)) (check_words l ++ ident "OR" :: check_words r)
    ((T_RightParen, sym ")") :: rest) (OrPred l r).
Proof.
  intros Hl Hr. unfold parsePredicate, parseOrPredicate. split.
  - eapply parses_last; [|apply rounds_while; on_word]. unfold parseAndPredicate. eapply parses_bind; [apply Hl|].
    apply parses_loop. rewrite <- (app_nil_r (ident "AND" :: _)). eapply rounds_step; [done| |].
    + eapply parses_cons; [on_word|]. simpl. eapply parses_last; [|apply parses_ret].
      eapply parses_last; [apply Hr|apply parses_ret].
    + constructor. eapply parses_nil; on_word.
  - eapply (parses_bind _ _ (check_words l)).
    { unfold parseAndPredicate. eapply parses_last; [apply Hl|]. apply rounds_while. on_word. }
    apply parses_loop. rewrite <- (app_nil_r (ident "OR" :: _)). eapply rounds_step; [done| |].
    + eapply parses_cons; [on_word|]. simpl. eapply parses_last; [|apply parses_ret].
      eapply parses_last; [|apply parses_ret]. unfold parseAndPredicate. eapply parses_last; [apply Hr|].
      apply rounds_while. on_word.
    + constructor. eapply parses_nil; on_word.
Qed.

Lemma parses_primary p : check_ok p → ∀ n rest, check_depth p ≤ n →
  parses (parsePrimaryPredicate stod (grammar stod n)) (check_words p) rest p.
Proof.
  assert (∀ n l k r q rest, check_ok l → parses (parsePredicate stod (grammar stod n)) (check_words l ++ ident k :: check_words r)
      ((T_RightParen, sym ")") :: rest) q →
    parses (parsePrimaryPredicate stod (grammar stod (Datatypes.S n))) (paren (check_words l ++ ident k :: check_words r)) rest q) as Hparen.
  { intros n l k r q rest Hl Hin. unfold parsePrimaryPredicate, paren. eapply parses_nil; [on_word|].
    eapply parses_cons; [on_word|]. simpl. eapply (parses_nil _ _ _ _ None).
    - intros s Hs. rewrite skip_0. simpl in Hs. destruct (check_words_head l Hl) as [(c & op & ws & E & _)|(ws & E)]; rewrite E in Hs; simpl in Hs;
        [by eapply attempt_fails|by eapply attempt_skips].
    - eapply parses_bind; [exact Hin|]. eapply parses_cons; on_word. }
  induction p as [column op value rhs e o|l IHl r IHr|l IHl r IHr| | | | |]; intros Hok n rest Hd; try done.
  - unfold parsePrimaryPredicate. destruct e; [done|]. destruct o; [done|]. pose proof Hok as (_ & He & _). simpl check_words.
    eapply parses_nil; [apply parses_no_match; [done|by unfold word_is; simpl; rewrite He]|].
    eapply parses_nil; [on_word|]. by apply (parses_comparison (grammar stod n) column op value rhs).
  - destruct Hok as [Hl Hr]. simpl in Hd. destruct n as [|n]; [lia|]. apply Hparen; [done|].
    apply parses_inner; intros; [apply IHl|apply IHr]; (done || lia).
  - destruct Hok as [Hl Hr]. simpl in Hd. destruct n as [|n]; [lia|]. apply Hparen; [done|].
    apply parses_inner; intros; [apply IHl|apply IHr]; (done || lia).
Qed.

Lemma parses_predicate p n w rest : check_ok p → check_depth p ≤ n → w.1 ≠ T_Identifier →
  parses (parsePredicate stod (grammar stod n)) (check_words p) (w :: rest) p.
Proof.
  intros Hok Hd Hw. assert (∀ k, word_is T_Identifier k w = false) as Hk by (intros k; unfold word_is; by rewrite bool_decide_false).
  unfold parsePredicate, parseOrPredicate. eapply parses_last; [|apply rounds_while; by apply parses_no_match].
  unfold parseAndPredicate. eapply parses_last; [by apply parses_primary|]. apply rounds_while. by apply parses_no_match.
Qed.

Lemma check_depth_words p : check_ok p → check_depth p < length (check_words p).
Proof.
  induction p as [column op value rhs e o|l IHl r IHr|l IHl r IHr| | | | |]; intros Hok; try done; simpl.
  - lia.
  - destruct Hok as [Hl Hr]. rewrite !length_app. simpl. specialize (IHl Hl). specialize (IHr Hr). lia.
  - destruct Hok as [Hl Hr]. rewrite !length_app. simpl. specialize (IHl Hl). specialize (IHr Hr). lia.
Qed.
End text.

Lemma check_text_parses double_chars stod (p : Pred) : check_ok double_chars stod p →
  ∃ text, checkConstraintLiteral double_chars p = Ok text ∧
    ∀ s, (parseCheckConstraintExpression stod text s).1 = Ok p.
Proof.
  intros Hok. destruct (reads_check _ _ p Hok) as (text & Et & Hr). exists text. split; [done|]. intros s.
  destruct (reads_parse (parsePredicate stod (grammar stod (length (check_words double_chars p)))) text _ p (Hr [] I))
    as (tokens & Etok & Hlen & _).
  { apply parses_predicate; [done| |done]. pose proof (check_depth_words _ _ p Hok). lia. }
  destruct (reads_parse (parsePredicate stod (grammar stod (length tokens))) text _ p (Hr [] I))
    as (tokens' & Etok' & _ & Hrun).
  { apply parses_predicate; [done| |done]. pose proof (check_depth_words _ _ p Hok). lia. }
  replace tokens' with tokens in * by congruence.
  unfold parseCheckConstraintExpression, mbind, M_bind, liftM, modify. rewrite Etok.
  destruct (Hrun EmptyString [] 0) as (s' & Es & Ht & Hc & _). cbn [grammar g_predicate]. rewrite Es.
  destruct (reads_tokenize text _ (Hr [] I)) as (tokens2 & E2 & Ew). replace tokens2 with tokens in * by congruence.
  unfold gets. rewrite Ht, Hc, (proj2 (Nat.ltb_lt _ _) Hlen).
  assert (at_words s' [(T_End, EmptyString)]) as Hend.
  { unfold at_words. rewrite Hc, Ht, fmap_drop, Ew. by rewrite drop_app_length. }
  destruct (parses_peek _ _ s' Hend) as (t & Epk & Hw). rewrite Epk. unfold mret, M_ret. injection Hw as Hty _.
  rewrite Hty. unfold fail_if. simpl. by rewrite (check_simple _ _ p Hok).
Qed.

(** C25: a CHECK constraint survives being stored as text.  The text that a snapshot
    stores for a constraint is read back, by a parser in any state, as the same
    constraint.  The constraint is one the parser can build ([check_ok]): names
    that are identifiers, strings with any characters, integers in the range of the
    literals, and [double] values whose decimal text [std::stod] reads back. *)
Theorem check_text_roundtrip double_chars stod (p : Pred) : check_ok double_chars stod p →
  ∃ text, checkConstraintLiteral double_chars p = Ok text ∧
    ∀ s, (parseCheckConstraintExpression stod text s).1 = Ok p.
Proof. apply check_text_parses. Qed.

(** A constraint with nested parentheses, a string with a quote in it and a negative
    number. *)
Definition quoted_check : Pred :=
  OrPred (AndPred (ComparisonPred "qty" Greater (VInt (-3)) None None false)
                  (ComparisonPred "qty" Less VNull (Some "maximum") None false))
         (ComparisonPred "name" Equal (VString (implode [double_quote; "a"%char; escape])) None None false).

Lemma check_text_roundtrip_witness :
  ∃ text, checkConstraintLiteral (λ _, []) quoted_check = Ok text ∧
    (parseCheckConstraintExpression (λ _, None) text parser_new).1 = Ok quoted_check.
Proof.
  destruct (check_text_roundtrip (λ _, []) (λ _, None) quoted_check) as (text & E & H).
  - simpl. split_and!; try (by apply (bool_decide_unpack _)); try done; lia.
  - exists text. split; [exact E|exact (H parser_new)].
Defined.
