(* ===== verification/DdlText.v ===== *)
(** * DDL statements as text

    The statements that the catalog engine logs are parsed again when the log is
    replayed.  [ddl_text] is the text it logs for a statement; the parser reads it
    back as that statement. *)

From S2P Require Import Prelude Value StringPattern IndexExpression Predicate SetOps Histogram IndexManager Table ForeignKeys.
From S2P Require Import Ast Tokenizer RecursiveCte SqlLiteral Database Parser ParserWords StatementText.
From Stdlib Require Import Ascii.
Local Open Scope nat_scope.

(** ** Lists of names *)

Lemma explode_append a b : explode (a +:+ b) = explode a ++ explode b.
Proof. induction a as [|c a IH]; [done|]. simpl. by rewrite IH. Qed.

Lemma commas_cons x l : commas (x :: l) = x ++ concat ((λ y, explode ", " ++ y) <$> l).
Proof.
  revert x. induction l as [|y l IH]; intros x; [simpl; by rewrite app_nil_r|].
  change (commas (x :: y :: l)) with (x ++ explode ", " ++ commas (y :: l)). by rewrite IH.
Qed.

Lemma explode_concat l : explode (String.concat ", " l) = commas (explode <$> l).
Proof.
  induction l as [|x [|y l] IH]; [done|done|].
  change (String.concat ", " (x :: y :: l)) with (x +:+ ", " +:+ String.concat ", " (y :: l)).
  rewrite !explode_append, IH. done.
Qed.

Definition names_words (names : list string) : list W :=
  match names with
  | [] => []
  | first :: items => comma_words (λ n, [ident n]) first items
  end.

Lemma reads_names names rest : Forall is_identifier names → names ≠ [] → stops isIdentifierPart rest →
  reads (commas (explode <$> names)) (names_words names) rest.
Proof.
  intros Hn Hne Hr. destruct names as [|first items]; [done|]. rewrite fmap_cons, commas_cons, <- list_fmap_compose.
  apply (reads_joined (λ n, [ident n]) explode); [|done]. intros x rest' Hx Hs. apply reads_identifier; [|done].
  rewrite Forall_forall in Hn. by apply Hn.
Qed.

Lemma parses_names message names rest : names ≠ [] →
  parses (parse_column_names message) (paren (names_words names)) rest names.
Proof.
  intros Hne. destruct names as [|first items]; [done|]. unfold parse_column_names, paren. eapply parses_cons; [on_word|].
  eapply parses_bind.
  - apply (parses_comma_list _ (λ n, [ident n])); [|done]. intros x w ws _ _. apply parses_name.
  - eapply parses_cons; on_word.
Qed.

(** ** Statements *)

(** A statement is the command of its first word and a semicolon. *)
Lemma parses_dispatch l k m ws q i k' : list_find (λ c, equalsIgnoreCase k c.1 = true) l = Some (i, (k', m)) →
  Forall (λ c, c.1 ≠ EmptyString) l → parses m ws [(T_Semicolon, sym ";"); (T_End, EmptyString)] q →
  parses (dispatch l) (ident k :: ws ++ [(T_Semicolon, sym ";")]) [(T_End, EmptyString)] q.
Proof.
  intros Hf Hne Hm. revert i Hf. induction Hne as [|[k1 m1] l Hk1 _ IH]; intros i Hf; [done|]. simpl in *.
  assert (word_is T_Identifier k1 (ident k) = equalsIgnoreCase k k1) as Hw.
  { unfold word_is. simpl. by rewrite (proj2 (String.eqb_neq k1 EmptyString) Hk1). }
  destruct (decide (equalsIgnoreCase k k1 = true)) as [E|E].
  - injection Hf as <- <- <-. eapply parses_cons; [apply parses_match; [done|congruence]|]. simpl.
    eapply parses_bind; [exact Hm|]. eapply parses_last; [|apply parses_ret].
    intros p Hp. unfold expectStatementEnd, mbind, M_bind.
    assert (symbol T_Semicolon p = (Ok true, skip 1 p)) as -> by (by apply (parses_match T_Semicolon EmptyString (T_Semicolon, sym ";") [(T_End, EmptyString)])).
    destruct (parses_peek (T_End, EmptyString) [] (skip 1 p)) as (t & -> & Ht); [exact (at_words_skip p _ _ Hp)|].
    injection Ht as Ht _. by rewrite Ht.
  - destruct (list_find _ l) as [[j c]|] eqn:Ef; [|done]. simpl in Hf. injection Hf as <- ->.
    eapply parses_nil; [apply parses_no_match; [done|]|by eapply IH].
    rewrite Hw. by destruct (equalsIgnoreCase k k1).
Qed.

(** A keyword that is the next word, or is not. *)
Ltac next_word := first
  [ eapply parses_cons; [apply parses_match; [done|reflexivity]|]
  | eapply parses_cons; [apply parses_expect; [done|reflexivity]|]
  | eapply parses_cons; [apply parses_name|]
  | eapply parses_nil; [apply parses_no_match; [done|reflexivity]|]
  | eapply parses_nil; [apply parses_fail_if; (done || reflexivity)|]
  | apply parses_ret ]; cbn beta iota.

(** Reads the next piece of a text: a literal or a name. *)
Ltac read_next := rewrite <- ?app_assoc; cbn [app];
  match goal with
  | |- reads (explode (String ?c ?n) ++ ?t) ?ws ?rest =>
      let r := eval vm_compute in (words_of (explode (String c n))) in
      match r with
      | Some ?l => apply (reads_app (explode (String c n)) t l); [first [by apply reads_text|by apply reads_open]|]
      end
  | |- reads (explode ?n ++ ?t) (?w :: ?ws) ?rest => apply (reads_app (explode n) t [w]); [by apply reads_identifier|]
  | |- reads (explode ?n) ?ws ?rest => by apply reads_text
  end.

Section ddl.
Context (double_chars : Z → chars) (stod : chars → option Z).
Abbreviation literal_ok := (literal_ok double_chars stod).
Abbreviation value_words := (value_words double_chars).

Lemma commands_named g : Forall (λ c, c.1 ≠ EmptyString) (commands stod g).
Proof. repeat (apply Forall_cons; split); done. Qed.

(** ** Columns *)

Definition type_word (t : ColumnType) : W := ident (ColumnType_toString t).

Definition column_words (c : Column) : list W :=
  ident (col_name c) :: type_word (col_type c) ::
  (if col_nullable c then [ident "NULL"] else if negb (col_primaryKey c) then [ident "NOT"; ident "NULL"] else []) ++
  (if col_primaryKey c then [ident "PRIMARY"; ident "KEY"] else if col_unique c then [ident "UNIQUE"] else []).

(** A name that does not start a table constraint. *)
Definition plain_name (name : string) : Prop :=
  is_identifier name ∧ Forall (λ k, equalsIgnoreCase name k = false) ["CHECK"; "FOREIGN"; "PRIMARY"; "UNIQUE"].

Definition column_ok (c : Column) : Prop :=
  plain_name (col_name c) ∧ (col_primaryKey c = true → col_unique c = true ∧ col_nullable c = false).

Lemma reads_column c rest : column_ok c → stops isIdentifierPart rest → reads (columnSql c) (column_words c) rest.
Proof.
  intros [[Hn _] _] Hr. unfold columnSql, column_words.
  change (ident ?a :: ?b :: ?l) with ([ident a] ++ b :: l). apply reads_app; [by apply reads_identifier|].
  destruct (col_nullable c), (col_primaryKey c), (col_unique c), (col_type c); by apply reads_open.
Qed.

(** The words that end an option of a column. *)
Definition ends_column (w : W) : Prop := w.1 = T_Comma ∨ w.1 = T_RightParen.

Lemma ends_no_keyword w k : ends_column w → word_is T_Identifier k w = false.
Proof. intros [E|E]; unfold word_is; by rewrite E. Qed.

(** One more option. *)
Lemma parses_column_end g column s w rest : ends_column w → parses (parse_column_option g column s) [] (w :: rest) None.
Proof.
  intros Hw. destruct s as [f i]. unfold parse_column_option.
  do 6 (eapply parses_nil; [apply parses_no_match; [done|by apply ends_no_keyword]|]). apply parses_ret.
Qed.

Lemma parses_null g column f i rest : cf_sawNullability f = false →
  parses (parse_column_option g column (f, i)) [ident "NULL"] rest
    (Some (mkColumnFlags true (cf_unique f) (cf_primaryKey f) true, i)).
Proof.
  intros Hf. unfold parse_column_option. do 2 next_word. eapply parses_nil; [|apply parses_ret]. 
  unfold column_nullability. rewrite Hf. by do 2 next_word.
Qed.
Lemma parses_not_null g column f i rest : cf_sawNullability f = false →
  parses (parse_column_option g column (f, i)) [ident "NOT"; ident "NULL"] rest
    (Some (mkColumnFlags false (cf_unique f) (cf_primaryKey f) true, i)).
Proof.
  intros Hf. unfold parse_column_option. do 2 next_word. eapply parses_nil; [|apply parses_ret].
  unfold column_nullability. rewrite Hf. by do 2 next_word.
Qed.
Lemma parses_primary_key g column f i rest : cf_primaryKey f = false →
  parses (parse_column_option g column (f, i)) [ident "PRIMARY"; ident "KEY"] rest
    (Some (mkColumnFlags (cf_nullable f) true true (cf_sawNullability f), i)).
Proof. intros Hf. unfold parse_column_option. rewrite Hf. by do 6 next_word. Qed.
Lemma parses_unique g column f i rest :
  parses (parse_column_option g column (f, i)) [ident "UNIQUE"] rest
    (Some (mkColumnFlags (cf_nullable f) true (cf_primaryKey f) (cf_sawNullability f), i)).
Proof. unfold parse_column_option. by do 5 next_word. Qed.

Lemma parses_column g c i w rest : column_ok c → (col_primaryKey c = true → ti_sawPrimaryKey i = false) → ends_column w →
  parses (parse_column g i) (column_words c) (w :: rest) (add_column c i).
Proof.
  intros [_ Hpk] Hsaw Hw. unfold parse_column, column_words. eapply parses_cons; [apply parses_name|].
  eapply (parses_cons _ _ _ _ _ (col_type c)).
  { unfold parse_column_type. eapply parses_last; [apply parses_name|]. destruct (col_type c); apply parses_ret. }
  eapply (parses_last _ _ _ _ (mkColumnFlags (col_nullable c) (col_unique c) (col_primaryKey c)
    (col_nullable c || negb (col_primaryKey c)), i)).
  - apply parses_loop. rewrite <- (app_nil_r (_ ++ _)), <- app_assoc.
    pose proof (parses_column_end g (col_name c)) as Hend.
    destruct (col_nullable c), (col_primaryKey c), (col_unique c); cbn [negb orb];
      try (by destruct (Hpk eq_refl)); try rewrite (app_nil_l (_ ++ []));
      repeat first
        [ apply rounds_stop; by apply Hend
        | eapply rounds_step; [done|first [by apply parses_null|by apply parses_not_null|by apply parses_primary_key|by apply parses_unique]|] ].
  - cbn beta iota. eapply parses_nil; [apply parses_fail_if|].
    { simpl. destruct (col_primaryKey c); [|done]. by destruct (Hpk eq_refl) as [_ ->]. }
    eapply parses_nil; [apply parses_fail_if|].
    { simpl. destruct (col_primaryKey c); [|done]. by rewrite Hsaw. }
    destruct c. apply parses_ret.
Qed.

(** ** Table constraints *)

Inductive item : Type :=
| I_column (c : Column)
| I_unique (u : UniqueConstraint)
| I_check (p : Pred)
| I_foreign_key (fk : ForeignKeyConstraint).

Definition action_words (event : string) (a : ForeignKeyAction) : list W :=
  match a with
  | FK_NoAction => []
  | FK_Cascade => [ident "ON"; ident event; ident "CASCADE"]
  | FK_SetNull => [ident "ON"; ident event; ident "SET"; ident "NULL"]
  end.

Definition fk_words (fk : ForeignKeyConstraint) : list W :=
  ident "FOREIGN" :: ident "KEY" :: paren (names_words (fk_childColumns fk)) ++ ident "REFERENCES" ::
  ident (fk_parentTable fk) :: paren (names_words (fk_parentColumns fk)) ++
  action_words "DELETE" (fk_onDelete fk) ++ action_words "UPDATE" (fk_onUpdate fk).

Definition item_words (x : item) : list W :=
  match x with
  | I_column c => column_words c
  | I_unique u => (if uc_primaryKey u then [ident "PRIMARY"; ident "KEY"] else [ident "UNIQUE"]) ++ paren (names_words (uc_columns u))
  | I_check p => ident "CHECK" :: paren (check_words double_chars p)
  | I_foreign_key fk => fk_words fk
  end.

Definition item_add (i : TableItems) (x : item) : TableItems :=
  match x with
  | I_column c => add_column c i
  | I_unique u => add_unique u i
  | I_check p => add_check p i
  | I_foreign_key fk => add_foreign_key fk i
  end.

Definition names_ok (names : list string) : Prop := names ≠ [] ∧ Forall is_identifier names.

Definition fk_ok (fk : ForeignKeyConstraint) : Prop :=
  names_ok (fk_childColumns fk) ∧ is_identifier (fk_parentTable fk) ∧ names_ok (fk_parentColumns fk) ∧
  length (fk_parentColumns fk) = length (fk_childColumns fk).

Definition item_ok (x : item) : Prop :=
  match x with
  | I_column c => column_ok c
  | I_unique u => names_ok (uc_columns u)
  | I_check p => check_ok double_chars stod p
  | I_foreign_key fk => fk_ok fk
  end.

Definition item_primary (x : item) : bool :=
  match x with I_column c => col_primaryKey c | I_unique u => uc_primaryKey u | _ => false end.
Definition item_depth (x : item) : nat := match x with I_check p => check_depth p | _ => 0 end.

Lemma parses_action rest a : a ≠ FK_NoAction →
  parses parse_fk_action (match a with FK_Cascade => [ident "CASCADE"] | _ => [ident "SET"; ident "NULL"] end) rest a.
Proof. intros Ha. unfold parse_fk_action. destruct a; [done|..]; by repeat next_word. Qed.

Lemma parses_on_delete fk a rest : a ≠ FK_NoAction →
  parses (parse_on_action fk) (tail (action_words "DELETE" a)) rest
    (mkForeignKeyConstraint (fk_childColumns fk) (fk_parentTable fk) (fk_parentColumns fk) a (fk_onUpdate fk)).
Proof.
  intros Ha. unfold parse_on_action. destruct a; [done|..]; simpl tail; next_word; (eapply parses_nil; [apply parses_ret|]);
    (eapply parses_last; [first [by apply (parses_action rest FK_Cascade)|by apply (parses_action rest FK_SetNull)]|apply parses_ret]).
Qed.
Lemma parses_on_update fk a rest : a ≠ FK_NoAction →
  parses (parse_on_action fk) (tail (action_words "UPDATE" a)) rest
    (mkForeignKeyConstraint (fk_childColumns fk) (fk_parentTable fk) (fk_parentColumns fk) (fk_onDelete fk) a).
Proof.
  intros Ha. unfold parse_on_action. destruct a; [done|..]; simpl tail; next_word; next_word;
    (eapply parses_last; [first [by apply (parses_action rest FK_Cascade)|by apply (parses_action rest FK_SetNull)]|apply parses_ret]).
Qed.

(** An action that is written, or the default. *)
Lemma rounds_action event a fk fk' fk'' ws rest : (∀ rest, a ≠ FK_NoAction → parses (parse_on_action fk) (tail (action_words event a)) rest fk') →
  (a = FK_NoAction → fk' = fk) →
  rounds (λ a, go ← keyword "ON"; if go : bool then a ← parse_on_action a; mret (Some a) else mret None) rest fk' ws fk'' →
  rounds (λ a, go ← keyword "ON"; if go : bool then a ← parse_on_action a; mret (Some a) else mret None) rest fk (action_words event a ++ ws) fk''.
Proof.
  intros Hp Hn Hr. assert (a = FK_NoAction ∨ a ≠ FK_NoAction) as [->|Ha]; [destruct a; auto|by rewrite Hn in Hr by done|].
  eapply rounds_step; [by destruct a| |exact Hr].
  assert (action_words event a = ident "ON" :: tail (action_words event a)) as -> by (by destruct a).
  next_word. eapply parses_last; [by apply Hp|apply parses_ret].
Qed.

Lemma parses_actions fk w rest : ends_column w →
  parses (parseForeignKeyActions (mkForeignKeyConstraint (fk_childColumns fk) (fk_parentTable fk) (fk_parentColumns fk) FK_NoAction FK_NoAction))
    (action_words "DELETE" (fk_onDelete fk) ++ action_words "UPDATE" (fk_onUpdate fk)) (w :: rest) fk.
Proof.
  intros Hw. destruct fk as [child table parent d u]. simpl. apply parses_loop.
  eapply rounds_action; [intros; by apply parses_on_delete|by intros ->|]. simpl.
  rewrite <- (app_nil_r (action_words "UPDATE" u)). eapply rounds_action; [intros; by apply parses_on_update|by intros ->|]. simpl.
  constructor. eapply parses_nil; [apply parses_no_match; [done|by apply ends_no_keyword]|]. apply parses_ret.
Qed.

Lemma parses_item x i n w rest : item_ok x → (item_primary x = true → ti_sawPrimaryKey i = false) → item_depth x ≤ n →
  ends_column w → parses (parse_table_item (grammar stod (Datatypes.S n)) i) (item_words x) (w :: rest) (item_add i x).
Proof.
  intros Hok Hsaw Hd Hw. unfold parse_table_item. destruct x as [c|u|p|fk]; simpl in *.
  - destruct (proj1 Hok) as [_ Hk]. repeat (apply Forall_cons in Hk as [? Hk]). 
    assert (∀ k, k ∈ ["CHECK"; "FOREIGN"; "PRIMARY"; "UNIQUE"] → k ≠ EmptyString ∧ equalsIgnoreCase (col_name c) k = false) as Hkw.
    { intros k Hin. repeat (apply elem_of_cons in Hin as [->|Hin]; [by split|]). by apply elem_of_nil in Hin. }
    assert (∀ k, k ∈ ["CHECK"; "FOREIGN"; "PRIMARY"; "UNIQUE"] →
      parses (keyword k) [] (column_words c ++ w :: rest) false) as Hno.
    { intros k Hin. destruct (Hkw k Hin) as [Hne Hk']. apply parses_no_match; [done|]. unfold word_is. simpl.
      by rewrite (proj2 (String.eqb_neq k EmptyString) Hne), Hk'. }
    do 4 (eapply parses_nil; [apply Hno; set_solver|]; cbn beta iota). by apply parses_column.
  - destruct Hok as [Hne _], u as [columns pk]. simpl in *. destruct pk; cbn [app].
    + do 4 next_word. eapply parses_nil; [apply parses_fail_if; by apply Hsaw|].
      eapply parses_last; [by apply parses_names|apply parses_ret].
    + do 4 next_word. eapply parses_last; [by apply parses_names|apply parses_ret].
  - next_word. eapply parses_last; [|apply parses_ret]. unfold parseCheckConstraintBody, paren. next_word.
    eapply parses_bind; [by apply parses_predicate|]. next_word. eapply parses_nil; [apply parses_lift|apply parses_ret].
    by apply (check_simple double_chars stod).
  - destruct Hok as ((Hc & _) & _ & (Hp & _) & Hlen). unfold fk_words. do 3 next_word.
    eapply parses_bind; [by apply parses_names|]. next_word. unfold parseReferencesClause.
    eapply (parses_bind _ _ (ident (fk_parentTable fk) :: paren (names_words (fk_parentColumns fk)))).
    { next_word. eapply parses_last; [by apply parses_names|]. eapply parses_nil; [apply parses_fail_if|apply parses_ret].
      by rewrite Hlen, Nat.eqb_refl. }
    eapply parses_last; [by apply parses_actions|apply parses_ret].
Qed.

(** The text of an item. *)
Definition item_text (x : item) : result chars :=
  match x with
  | I_column c => Ok (columnSql c)
  | I_unique u => Ok (explode (if uc_primaryKey u then "PRIMARY KEY (" else "UNIQUE (") ++ commas (explode <$> uc_columns u) ++ explode ")")
  | I_check p => text ← checkConstraintLiteral double_chars p; Ok (explode "CHECK (" ++ text ++ explode ")")
  | I_foreign_key fk => Ok (explode (foreignKeyLiteral fk))
  end.

Lemma reads_fk fk rest : fk_ok fk → stops isIdentifierPart rest → reads (explode (foreignKeyLiteral fk)) (fk_words fk) rest.
Proof.
  intros ((Hc & Hc') & Ht & (Hp & Hp') & _) Hr. 
  assert (∃ d u, explode (foreignKeyLiteral fk) = explode "FOREIGN KEY (" ++ commas (explode <$> fk_childColumns fk) ++
    explode ") REFERENCES " ++ explode (fk_parentTable fk) ++ explode "(" ++ commas (explode <$> fk_parentColumns fk) ++ explode ")" ++
    d ++ u ∧ (∀ rest, stops isIdentifierPart rest → reads d (action_words "DELETE" (fk_onDelete fk)) rest) ∧
    (∀ rest, stops isIdentifierPart rest → reads u (action_words "UPDATE" (fk_onUpdate fk)) rest) ∧
    (∀ rest, stops isIdentifierPart rest → stops isIdentifierPart (u ++ rest))) as (d & u & -> & Hd & Hu & Hs).
  { destruct fk as [child table parent d u]. unfold foreignKeyLiteral, foreignKeyColumnsLabel. simpl.
    exists (match d with FK_NoAction => [] | a => explode " ON DELETE " ++ explode (foreignKeyActionName a) end),
      (match u with FK_NoAction => [] | a => explode " ON UPDATE " ++ explode (foreignKeyActionName a) end). split_and!.
    - destruct d, u; simpl String.concat; rewrite !explode_append, !explode_concat; simpl; by rewrite ?app_nil_r.
    - intros rest' Hr'. destruct d; [apply reads_nil|by apply reads_open..].
    - intros rest' Hr'. destruct u; [apply reads_nil|by apply reads_open..].
    - intros rest' Hr'. by destruct u. }
  unfold fk_words, paren.
  change (ident "FOREIGN" :: ident "KEY" :: ((T_LeftParen, sym "(") :: ?a ++ ?b) ++ ident "REFERENCES" :: ident ?t :: ?l)
    with ([ident "FOREIGN"; ident "KEY"; (T_LeftParen, sym "(")] ++ (a ++ b) ++ [ident "REFERENCES"] ++ [ident t] ++ l).
  apply reads_app; [by apply reads_text|]. rewrite <- app_assoc. apply reads_app; [by apply reads_names|].
  change ([(T_RightParen, sym ")")] ++ [ident "REFERENCES"] ++ ?l) with ([(T_RightParen, sym ")"); ident "REFERENCES"] ++ l).
  apply reads_app; [by apply reads_text|]. apply reads_app; [by apply reads_identifier|].
  change (((T_LeftParen, sym "(") :: ?a ++ ?b) ++ ?l) with ([(T_LeftParen, sym "(")] ++ (a ++ b) ++ l).
  apply reads_app; [by apply reads_text|]. rewrite <- app_assoc. apply reads_app; [by apply reads_names|].
  apply reads_app; [by apply reads_text|]. apply reads_app; [by apply Hd, Hs|by apply Hu].
Qed.

Lemma reads_item x : item_ok x → ∃ text, item_text x = Ok text ∧ ∀ rest, stops isIdentifierPart rest → reads text (item_words x) rest.
Proof.
  destruct x as [c|u|p|fk]; simpl; intros Hok.
  - eexists. split; [done|]. intros rest. by apply reads_column.
  - destruct Hok as [Hne Hn]. eexists. split; [done|]. intros rest Hr.
    unfold paren. destruct (uc_primaryKey u).
    + change ([ident "PRIMARY"; ident "KEY"] ++ ?p :: ?l) with ([ident "PRIMARY"; ident "KEY"; p] ++ l).
      apply reads_app; [by apply reads_text|]. apply reads_app; [by apply reads_names|by apply reads_text].
    + change ([ident "UNIQUE"] ++ ?p :: ?l) with ([ident "UNIQUE"; p] ++ l).
      apply reads_app; [by apply reads_text|]. apply reads_app; [by apply reads_names|by apply reads_text].
  - destruct (reads_check _ _ p Hok) as (text & -> & Ht). exists (explode "CHECK (" ++ text ++ explode ")").
    split; [done|]. intros rest Hr. unfold paren.
    change (ident "CHECK" :: ?p :: ?l) with ([ident "CHECK"; p] ++ l).
    apply reads_app; [by apply reads_text|]. apply reads_app; [by apply Ht|by apply reads_text].
  - eexists. split; [done|]. intros rest Hr. by apply reads_fk.
Qed.

(** ** CREATE TABLE *)

Definition items_of (c : CreateTable Select) : list item :=
  (I_column <$> ct_columns c) ++ (I_unique <$> ct_uniqueConstraints c) ++ (I_check <$> ct_checkConstraints c) ++
  (I_foreign_key <$> ct_foreignKeys c).

(** What the parser guarantees of a CREATE TABLE statement: at least one column, at
    most one primary key, table constraints of several known columns, constraints
    over known columns, and literals that can be written. *)
Definition create_ok (c : CreateTable Select) : Prop :=
  is_identifier (ct_name c) ∧ ct_columns c ≠ [] ∧ Forall item_ok (items_of c) ∧
  length (filter (λ x, item_primary x = true) (items_of c)) ≤ 1 ∧
  Forall (λ u, length (uc_columns u) ≠ 1 ∧
               Forall (λ name, known_column (ct_columns c) name = true) (uc_columns u) ∧
               (uc_primaryKey u = true → Forall (λ col, col_name col ∈ uc_columns u → col_nullable col = false) (ct_columns c)))
    (ct_uniqueConstraints c) ∧
  Forall (λ p, Forall (λ name, known_column (ct_columns c) name = true) (check_names p)) (ct_checkConstraints c) ∧
  Forall (λ fk, Forall (λ name, known_column (ct_columns c) name = true) (fk_childColumns fk)) (ct_foreignKeys c).

Lemma along_primary items i : Forall item_ok items →
  (length (filter (λ x, item_primary x = true) items) + (if ti_sawPrimaryKey i then 1 else 0) ≤ 1) →
  along (λ i x, item_ok x ∧ (item_primary x = true → ti_sawPrimaryKey i = false)) item_add i items.
Proof.
  intros Hok. revert i. induction Hok as [|x items Hx _ IH]; intros i Hc; [done|]. rewrite filter_cons in Hc.
  assert (ti_sawPrimaryKey (item_add i x) = ti_sawPrimaryKey i || item_primary x) as Es.
  { destruct x; simpl; by rewrite ?orb_false_r. }
  split; [split; [done|]|apply IH; rewrite Es].
  - intros Hp. rewrite decide_True in Hc by done. simpl in Hc. destruct (ti_sawPrimaryKey i); [lia|done].
  - destruct (item_primary x); [rewrite decide_True in Hc by done|rewrite decide_False in Hc by done]; simpl in Hc;
      destruct (ti_sawPrimaryKey i); simpl; lia.
Qed.

Lemma items_added items i : foldl item_add i items =
  mkTableItems (ti_columns i ++ omap (λ x, match x with I_column c => Some c | _ => None end) items)
    (ti_checks i ++ omap (λ x, match x with I_check p => Some p | _ => None end) items)
    (ti_foreignKeys i ++ omap (λ x, match x with I_foreign_key fk => Some fk | _ => None end) items)
    (ti_uniques i ++ omap (λ x, match x with I_unique u => Some u | _ => None end) items)
    (ti_sawPrimaryKey i || existsb item_primary items).
Proof.
  revert i. induction items as [|x items IH]; intros i; simpl.
  - rewrite !app_nil_r, orb_false_r. by destruct i.
  - rewrite IH. destruct x; simpl; by rewrite <- ?app_assoc, <- ?orb_assoc.
Qed.

Lemma omap_some {A B C} (f : A → B) (g : B → option C) (h : A → C) (l : list A) : (∀ a, g (f a) = Some (h a)) → omap g (f <$> l) = h <$> l.
Proof. intros H. induction l as [|a l IH]; [done|]. simpl. rewrite H. f_equal. exact IH. Qed.
Lemma omap_none {A B C} (f : A → B) (g : B → option C) (l : list A) : (∀ a, g (f a) = None) → omap g (f <$> l) = [].
Proof. intros H. induction l as [|a l IH]; [done|]. simpl. rewrite H. exact IH. Qed.

Lemma items_of_added c : let i := foldl item_add (mkTableItems [] [] [] [] false) (items_of c) in
  ti_columns i = ct_columns c ∧ ti_checks i = ct_checkConstraints c ∧ ti_foreignKeys i = ct_foreignKeys c ∧
  ti_uniques i = ct_uniqueConstraints c.
Proof.
  cbv zeta. rewrite items_added. simpl. unfold items_of. rewrite !omap_app.
  split_and!;
    repeat first [rewrite (omap_some _ _ (λ x, x)) by done | rewrite omap_none by done];
    rewrite ?list_fmap_id, ?app_nil_r; done.
Qed.

Lemma map_keep pk name columns : (pk = true → Forall (λ c, col_name c = name → col_nullable c = false) columns) →
  map_columns name (keep_column pk) columns = Ok (known_column columns name, columns).
Proof.
  intros H. induction columns as [|c columns IH]; [done|]. simpl.
  assert (∀ P, (pk = true → Forall P (c :: columns)) → pk = true → Forall P columns) as Htl.
  { intros P HP Hpk. specialize (HP Hpk). by inversion HP. }
  rewrite IH by (by apply Htl). destruct (String.eqb_spec (col_name c) name) as [E|E]; [|done].
  unfold keep_column, primary_not_null. destruct pk; [|done]. specialize (H eq_refl). inversion H as [|? ? Hc _]. subst.
  by rewrite (Hc eq_refl).
Qed.

Lemma check_each_ok pk names columns : Forall (λ name, known_column columns name = true) names →
  (pk = true → Forall (λ c, col_name c ∈ names → col_nullable c = false) columns) → check_each pk names columns = Ok columns.
Proof.
  induction names as [|name names IH]; intros Hk Hpk; [done|]. apply Forall_cons in Hk as [Hn Hk]. simpl. unfold find_columns.
  rewrite map_keep.
  2: { intros E. eapply Forall_impl; [by apply Hpk|]. intros c Hc Ec. apply Hc. rewrite Ec. set_solver. }
  simpl. rewrite Hn. simpl. apply IH; [done|]. intros E. eapply Forall_impl; [by apply Hpk|]. intros c Hc Hin. apply Hc. set_solver.
Qed.

Lemma all_known_ok prefix columns names : Forall (λ name, known_column columns name = true) names → all_known prefix columns names = Ok tt.
Proof. induction 1 as [|name names Hn _ IH]; [done|]. simpl. rewrite Hn. exact IH. Qed.

Lemma finish_create c : create_ok c →
  finish_table (ct_name c) (foldl item_add (mkTableItems [] [] [] [] false) (items_of c)) = Ok c.
Proof.
  intros (_ & _ & Hok & _ & Hu & Hc & Hf). destruct (items_of_added c) as (E1 & E2 & E3 & E4). unfold finish_table.
  rewrite E1, E2, E3, E4.
  assert (normalize_uniques (ct_columns c) (ct_uniqueConstraints c) = Ok (ct_columns c)) as ->.
  { clear -Hu. induction Hu as [|u l (Hl & Hk & Hp) _ IH]; [done|]. simpl.
    assert (normalize_unique (ct_columns c) u = Ok (ct_columns c)) as ->; [|exact IH].
    unfold normalize_unique. destruct (uc_columns u) as [|a [|b names]] eqn:E; [done|done|]. by apply check_each_ok. }
  simpl. unfold validateCheckColumns. rewrite all_known_ok.
  2: { by apply Forall_bind. }
  simpl. rewrite all_known_ok.
  2: { by apply Forall_bind. }
  simpl. assert (List.filter (λ u, negb (Nat.eqb (length (uc_columns u)) 1)) (ct_uniqueConstraints c) = ct_uniqueConstraints c) as ->.
  { clear -Hu. induction Hu as [|u l (Hl & _) _ IH]; [done|]. simpl. by rewrite (proj2 (Nat.eqb_neq _ _) Hl), IH. }
  by destruct c.
Qed.

Definition create_words (c : CreateTable Select) : list W :=
  ident "TABLE" :: ident (ct_name c) :: paren (match items_of c with
                                               | [] => []
                                               | first :: items => comma_words item_words first items
                                               end).

Lemma parses_create_table c n rest : create_ok c → Forall (λ x, item_depth x ≤ n) (items_of c) →
  parses (parse_create stod (grammar stod (Datatypes.S n))) (create_words c) rest (Q_CreateTable c).
Proof.
  intros Hok Hd. unfold parse_create, create_words. do 2 next_word. eapply parses_last; [|apply parses_ret].
  unfold parseCreateTable. next_word. unfold paren. next_word.
  pose proof Hok as (_ & Hne & Hi & Hp & _). destruct (items_of c) as [|first items] eqn:Ei.
  { unfold items_of in Ei. by destruct (ct_columns c). }
  eapply (parses_bind _ _ _ _ _ (foldl item_add (mkTableItems [] [] [] [] false) (first :: items))).
  - apply (parses_commas _ item_add item_words (λ i x, (item_ok x ∧ (item_primary x = true → ti_sawPrimaryKey i = false)) ∧ item_depth x ≤ n)); [|done|].
    + intros i x w ws [[Hx Hs] Hdx] Hw. apply parses_item; [done..|]. destruct Hw as [Hw|[= -> _]]; [by left|by right].
    + assert (along (λ i x, item_ok x ∧ (item_primary x = true → ti_sawPrimaryKey i = false)) item_add
        (mkTableItems [] [] [] [] false) (first :: items)) as Ha by (apply along_primary; [done|simpl; lia]).
      revert Ha Hd. generalize (mkTableItems [] [] [] [] false) as i. generalize (first :: items) as l.
      induction l as [|x l IH]; intros i Ha Hd; [done|]. destruct Ha as [Hx Ha]. apply Forall_cons in Hd as [Hdx Hd].
      split; [done|]. by apply IH.
  - next_word. apply parses_lift. rewrite <- Ei. by apply finish_create.
Qed.

Lemma item_texts items : Forall item_ok items → ∃ texts, mapM item_text items = Ok texts ∧
  Forall2 (λ x text, ∀ rest, stops isIdentifierPart rest → reads text (item_words x) rest) items texts.
Proof.
  induction 1 as [|x items Hx _ (texts & E & Ht)]; [by exists []|].
  destruct (reads_item x Hx) as (text & Ex & Hr). exists (text :: texts). split; [|by constructor]. simpl. by rewrite Ex, E.
Qed.

Lemma mapM_result_app {A B} (f : A → result B) l l' ts : mapM f (l ++ l') = Ok ts →
  ∃ t t', ts = t ++ t' ∧ mapM f l = Ok t ∧ mapM f l' = Ok t'.
Proof.
  revert ts. induction l as [|a l IH]; intros ts H; [by exists [], ts|]. simpl in H.
  destruct (f a) as [b|e] eqn:Ea; [|done]. destruct (mapM f (l ++ l')) as [bs|e] eqn:El; [|done]. injection H as <-.
  destruct (IH bs eq_refl) as (t & t' & -> & E & E'). exists (b :: t), t'. split_and!; [done| |done]. simpl. by rewrite Ea, E.
Qed.
Lemma mapM_result_fmap {A B C} (f : B → result C) (g : A → B) (h : A → C) l :
  (∀ a, f (g a) = Ok (h a)) → mapM f (g <$> l) = Ok (h <$> l).
Proof. intros H. induction l as [|a l IH]; [done|]. simpl. rewrite H. simpl. fold (fmap (M := list) g l). by rewrite IH. Qed.

Definition after_comma (text : chars) : chars := explode ", " ++ text.

Lemma commas_app l l' : l ≠ [] → commas (l ++ l') = commas l ++ concat (after_comma <$> l').
Proof.
  destruct l as [|x l]; [done|]. intros _. cbn [app]. rewrite !commas_cons, fmap_app, concat_app. by rewrite app_assoc.
Qed.

Lemma check_texts (l : list Pred) (ts : list chars) : mapM item_text (I_check <$> l) = Ok ts →
  mapM (λ check, text ← checkConstraintLiteral double_chars check; Ok (explode ", CHECK (" ++ text ++ explode ")")) l =
    Ok (after_comma <$> ts).
Proof.
  revert ts. induction l as [|p l IH]; intros ts H; [by injection H as <-|]. simpl in *.
  destruct (checkConstraintLiteral double_chars p) as [text|e]; [|done]. simpl in *.
  destruct (mapM item_text _) as [bs|e]; [|done]. injection H as <-. by rewrite (IH bs eq_refl).
Qed.

(** The statement is the list of its items. *)
Lemma create_text c texts : ct_columns c ≠ [] → mapM item_text (items_of c) = Ok texts →
  createTableSql double_chars c =
    Ok (explode "CREATE TABLE " ++ explode (ct_name c) ++ explode " (" ++ commas texts ++ explode ");").
Proof.
  intros Hne H. unfold items_of in H.
  apply mapM_result_app in H as (t1 & t & -> & H1 & H). apply mapM_result_app in H as (t2 & t' & -> & H2 & H).
  apply mapM_result_app in H as (t3 & t4 & -> & H3 & H4).
  rewrite (mapM_result_fmap _ _ columnSql) in H1 by done. injection H1 as <-.
  erewrite mapM_result_fmap in H2 by done. injection H2 as <-.
  erewrite mapM_result_fmap in H4 by done. injection H4 as <-.
  unfold createTableSql. rewrite (check_texts _ _ H3). simpl. do 4 f_equal.
  rewrite commas_app by (by destruct (ct_columns c)). rewrite !fmap_app, !concat_app, <- !app_assoc, <- !list_fmap_compose. done.
Qed.

(** ** Statements *)

Abbreviation semicolon := (T_Semicolon, sym ";").

(** A text that consists of a command, its words and a semicolon. *)
Lemma statement_parses q text k ws i k' (m : Grammar → parse Query) : reads text (ident k :: ws ++ [semicolon]) [] →
  (∀ g, list_find (λ c, equalsIgnoreCase k c.1 = true) (commands stod g) = Some (i, (k', m g))) →
  (∀ n, length ws ≤ n → parses (m (grammar stod (Datatypes.S n))) ws [semicolon; (T_End, EmptyString)] q) →
  ∀ s, (Parser_parse stod text s).1 = Ok q.
Proof.
  intros Hr Hf Hm s. destruct (reads_tokenize text _ Hr) as (tokens & Et & Ew).
  assert (length ws ≤ length tokens) as Hn.
  { apply (f_equal length) in Ew. rewrite length_fmap in Ew. simpl in Ew. rewrite !length_app in Ew. lia. }
  unfold Parser_parse, parse_tokens, mbind, M_bind, liftM, modify. rewrite Et.
  assert (parses (parse_statement stod (grammar stod (Datatypes.S (length tokens)))) (ident k :: ws ++ [semicolon])
    [(T_End, EmptyString)] q) as H.
  { eapply parses_dispatch; [apply Hf|apply commands_named|by apply Hm]. }
  rewrite H; [done|exact Ew].
Qed.

Lemma create_depth c : create_ok c → Forall (λ x, item_depth x ≤ length (create_words c)) (items_of c).
Proof.
  intros (_ & _ & Hi & _). unfold create_words. apply Forall_forall. intros x Hx.
  assert (item_depth x ≤ length (item_words x)) as Hd.
  { destruct x as [ | |p| ]; simpl; try lia. rewrite Forall_forall in Hi. specialize (Hi _ Hx).
    pose proof (check_depth_words _ _ p Hi). unfold paren. simpl. rewrite length_app. lia. }
  assert (length (item_words x) ≤ length (match items_of c with [] => [] | first :: items => comma_words item_words first items end)) as Hl.
  { destruct (items_of c) as [|y l]; [by apply elem_of_nil in Hx|]. unfold comma_words. rewrite length_app.
    apply elem_of_cons in Hx as [->|Hx]; [lia|]. apply list_elem_of_split in Hx as (l1 & l2 & ->).
    rewrite fmap_app, concat_app, length_app. simpl. rewrite length_app. lia. }
  unfold paren. simpl. rewrite length_app. lia.
Qed.

Lemma create_reads c : create_ok c → ∃ text, createTableSql double_chars c = Ok text ∧
  reads text (ident "CREATE" :: create_words c ++ [semicolon]) [].
Proof.
  intros (Hn & Hne & Hi & _). destruct (item_texts _ Hi) as (texts & E & Ht). eexists. split; [by apply create_text|]. clear E Hi.
  unfold create_words, paren.
  change (ident "CREATE" :: (ident "TABLE" :: ident ?n :: ?p :: ?l ++ [?r]) ++ [?e])
    with ([ident "CREATE"; ident "TABLE"] ++ [ident n] ++ [p] ++ (l ++ [r]) ++ [e]). rewrite <- app_assoc.
  apply reads_app; [by apply reads_text|]. apply reads_app; [by apply reads_identifier|]. apply reads_app; [by apply reads_text|].
  apply reads_app; [|by apply reads_text].
  destruct Ht as [|x text items texts Hx Ht]; [apply reads_nil|]. rewrite commas_cons. unfold comma_words.
  apply reads_app; [apply Hx; by destruct texts|]. induction Ht as [|y t items' texts Hy Ht IH]; [apply reads_nil|].
  change (reads ((explode ", " ++ t) ++ concat (after_comma <$> texts))
    (([comma] ++ item_words y) ++ concat ((λ x, comma :: item_words x) <$> items')) (explode ");" ++ [])).
  apply reads_app; [|exact IH].
  apply reads_app; [by apply reads_text|]. apply Hy. by destruct texts.
Qed.

(** *** ALTER TABLE *)

Definition alter_words (c : AlterTable) : list W :=
  ident "TABLE" :: ident (at_table c) ::
  match at_action c with
  | AlterAddColumn column fill =>
      [ident "ADD"; ident "COLUMN"; ident (col_name column); type_word (col_type column)] ++
      (if col_nullable column then [ident "NULL"] else [ident "NOT"; ident "NULL"]) ++
      match fill with Some v => ident "DEFAULT" :: value_words v | None => [] end
  | AlterDropColumn column cascade =>
      [ident "DROP"; ident "COLUMN"; ident column] ++ (if cascade then [ident "CASCADE"] else [])
  | AlterRenameColumn oldName newName =>
      [ident "RENAME"; ident "COLUMN"; ident oldName; ident "TO"; ident newName]
  end.

(** A default has the type of the column, or is NULL in a nullable one. *)
Definition default_ok (column : Column) (v : Value) : Prop :=
  literal_ok v ∧ if isNull v then col_nullable column = true else Value_type v = Ok (col_type column).

Definition alter_ok (c : AlterTable) : Prop :=
  is_identifier (at_table c) ∧
  match at_action c with
  | AlterAddColumn column fill =>
      is_identifier (col_name column) ∧ col_unique column = false ∧ col_primaryKey column = false ∧
      match fill with Some v => default_ok column v | None => True end
  | AlterDropColumn column _ => is_identifier column
  | AlterRenameColumn oldName newName => is_identifier oldName ∧ is_identifier newName
  end.

Lemma alter_reads c : alter_ok c → ∃ text, alterTableSql double_chars c = Ok text ∧
  reads text (ident "ALTER" :: alter_words c ++ [semicolon]) [].
Proof.
  destruct c as [table [column fill|column cascade|oldName newName]]; intros [Ht Ha]; simpl in Ht, Ha; unfold alterTableSql, alter_words; cbn [at_table at_action].
  - destruct Ha as (Hn & _ & _ & Hfill).
    assert (∃ text, match fill with Some v => text ← sqlLiteral double_chars v; Ok (explode " DEFAULT " ++ text) | None => Ok [] end = Ok text ∧
      stops isIdentifierPart ((text ++ explode ";") ++ []) ∧
      reads text (match fill with Some v => ident "DEFAULT" :: value_words v | None => [] end) (explode ";")) as (text & -> & Hs & Hr).
    { destruct fill as [v|]; [|exists []; split_and!; [done..|apply reads_nil]].
      destruct (reads_literal double_chars stod v (explode ";") (proj1 Hfill) eq_refl) as (text & -> & _ & Hr).
      eexists. split_and!; [done..|]. change (ident "DEFAULT" :: ?l) with ([ident "DEFAULT"] ++ l).
      apply reads_app; [by apply reads_text|done]. }
    eexists. split; [done|]. rewrite <- app_assoc.
    destruct column as [cn ct nullable u pk], ct, nullable; cbn [app col_name col_type col_nullable ColumnType_toString]; 
      repeat read_next; (apply reads_app; [exact Hr|by apply reads_text]).
  - eexists. split; [done|]. destruct cascade; cbn [app]; repeat read_next.
  - destruct Ha. eexists. split; [done|]. cbn [app]. repeat read_next.
Qed.

Lemma parses_fill column fill w rest : (match fill with Some v => default_ok column v | None => True end) → w.1 ≠ T_Identifier →
  parses (parse_default stod (col_type column) (col_nullable column))
    (match fill with Some v => ident "DEFAULT" :: value_words v | None => [] end) (w :: rest) fill.
Proof.
  intros Hok Hw. unfold parse_default. destruct fill as [v|].
  - destruct Hok as [Hl Ht]. next_word. eapply parses_last; [by apply parses_value|]. destruct (isNull v).
    + rewrite Ht. next_word. apply parses_ret.
    + rewrite Ht. eapply parses_nil; [by apply parses_lift|]. rewrite bool_decide_true by done. next_word. apply parses_ret.
  - eapply (parses_nil _ _ _ _ false); [|apply parses_ret]. apply parses_no_match; [done|]. unfold word_is. by rewrite bool_decide_false.
Qed.

Lemma parses_no_constraint w rest : w.1 ≠ T_Identifier → parses inline_constraint [] (w :: rest) false.
Proof.
  intros Hw. assert (∀ k, parses (keyword k) [] (w :: rest) false) as Hk.
  { intros k. apply parses_no_match; [done|]. unfold word_is. by rewrite bool_decide_false. }
  unfold inline_constraint. do 3 (eapply parses_nil; [apply Hk|]). apply Hk.
Qed.

Lemma parses_alter c w rest : alter_ok c → w.1 ≠ T_Identifier → parses (parseAlterTable stod) (alter_words c) (w :: rest) c.
Proof.
  intros [_ Ha] Hw. destruct c as [table action]. unfold parseAlterTable, alter_words. simpl in *. do 2 next_word.
  destruct action as [column fill|column cascade|oldName newName]; cbn [app].
  - destruct Ha as (_ & Hu & Hp & Hf). next_word. unfold parse_add_column. do 2 next_word.
    eapply (parses_cons _ _ _ _ _ (col_type column)).
    { unfold parse_column_type. eapply parses_last; [apply parses_name|]. destruct (col_type column); apply parses_ret. }
    pose proof (parses_fill column fill w rest Hf Hw) as Hd.
    assert (∀ x, parses (inline ← inline_constraint;
        _ ← fail_if inline "ALTER TABLE ADD COLUMN does not support inline PRIMARY KEY / UNIQUE / CHECK / REFERENCES";
        mret (mkAlterTable table (AlterAddColumn (mkColumn (col_name column) (col_type column) (col_nullable column) false false) x)))
        [] (w :: rest) (mkAlterTable table (AlterAddColumn column x))) as He.
    { intros x. eapply parses_nil; [by apply parses_no_constraint|]. next_word. destruct column. simpl in *. subst. apply parses_ret. }
    destruct (col_nullable column); cbn [app].
    + next_word. eapply (parses_cons _ _ _ _ _ true); [next_word; apply parses_ret|].
      eapply parses_last; [exact Hd|]. apply He.
    + next_word. eapply (parses_cons _ _ _ _ _ false); [next_word; apply parses_ret|].
      eapply parses_last; [exact Hd|]. apply He.
  - do 4 next_word. destruct cascade; [by do 2 next_word|].
    eapply parses_nil; [apply parses_no_match; [done|]|apply parses_ret]. unfold word_is. by rewrite bool_decide_false.
  - by do 8 next_word.
Qed.

(** *** Indexes *)

(** An expression is written without the quotes of a string, and a [double] without
    the [.0] that marks it as one. *)
Definition expression_literal_ok (v : Value) : Prop :=
  literal_ok v ∧ match v with
                 | VString _ => False
                 | VDouble b => double_text double_chars b = double_chars b
                 | _ => True
                 end.

Definition expression_ok (e : IndexExpression) : Prop :=
  is_identifier (ie_column e) ∧ qualified (ie_column e) = false ∧
  match ie_kind e with
  | K_Add | K_Subtract => equalsIgnoreCase (ie_column e) "trigram" = false ∧ expression_literal_ok (ie_literal e)
  | K_Column => equalsIgnoreCase (ie_column e) "trigram" = false ∧ ie_literal e = VNull
  | K_Negate | K_Trigram => ie_literal e = VNull
  end.

Definition expression_words (e : IndexExpression) : list W :=
  match ie_kind e with
  | K_Column => [ident (ie_column e)]
  | K_Negate => [(T_Minus, sym "-"); ident (ie_column e)]
  | K_Add => ident (ie_column e) :: (T_Plus, sym "+") :: value_words (ie_literal e)
  | K_Subtract => ident (ie_column e) :: (T_Minus, sym "-") :: value_words (ie_literal e)
  | K_Trigram => ident "trigram" :: paren [ident (ie_column e)]
  end.

Lemma reads_expression e rest : expression_ok e → stops isIdentifierPart rest →
  reads (indexExpressionToString double_chars e) (expression_words e) rest.
Proof.
  intros (Hn & _ & Hk) Hr. unfold indexExpressionToString, expression_words.
  assert (∀ v, expression_literal_ok v → reads (Value_toString double_chars v) (value_words v) rest) as Hv.
  { intros v [Hl Hv]. destruct (reads_literal double_chars stod v rest Hl Hr) as (text & E & _ & Ht).
    replace (Value_toString double_chars v) with text; [done|]. destruct v as [|i|b|s|n|l]; try done; simpl in *;
      injection E as <-; [done..|exact Hv]. }
  destruct (ie_kind e).
  - by apply reads_identifier.
  - read_next. by apply reads_identifier.
  - destruct Hk as [_ Hk]. do 2 read_next. by apply Hv.
  - destruct Hk as [_ Hk]. do 2 read_next. by apply Hv.
  - unfold paren. repeat read_next.
Qed.

Lemma parses_expression e w rest : expression_ok e → w.1 = T_RightParen →
  parses (parseIndexExpression stod) (expression_words e) (w :: rest) e.
Proof.
  intros (_ & Hq & Hk) Hw. destruct e as [kind column v]. unfold parseIndexExpression, expression_words. simpl in *.
  assert (∀ t, t ≠ T_RightParen → t ≠ T_End → parses (symbol t) [] (w :: rest) false) as Hno.
  { intros t Ht He. apply parses_no_match; [done|]. unfold word_is. rewrite Hw. by rewrite bool_decide_false. }
  destruct kind.
  - destruct Hk as [Ht ->]. do 2 next_word. rewrite Ht. eapply parses_nil; [by apply parses_fail_if|].
    do 2 (eapply parses_nil; [by apply Hno|]). apply parses_ret.
  - subst v. do 2 next_word. eapply parses_nil; [by apply parses_fail_if|]. apply parses_ret.
  - destruct Hk as [Ht [Hl _]]. do 2 next_word. rewrite Ht. eapply parses_nil; [by apply parses_fail_if|].
    next_word. eapply parses_last; [by apply parses_value|apply parses_ret].
  - destruct Hk as [Ht [Hl _]]. do 2 next_word. rewrite Ht. eapply parses_nil; [by apply parses_fail_if|].
    do 2 next_word. eapply parses_last; [by apply parses_value|apply parses_ret].
  - subst v. do 2 next_word. change (equalsIgnoreCase "trigram" "trigram") with true. cbn iota. unfold paren. do 2 next_word.
    eapply parses_nil; [by apply parses_fail_if|]. by do 2 next_word.
Qed.

Definition index_words (c : CreateIndex) : list W :=
  [ident "INDEX"; ident (ci_name c); ident "ON"; ident (ci_table c)] ++
  match ci_expression c with
  | Some e => paren (paren (expression_words e))
  | None => paren (names_words (ci_columns c))
  end.

(** The column of a definition is its first column. *)
Definition index_ok (c : CreateIndex) : Prop :=
  is_identifier (ci_name c) ∧ is_identifier (ci_table c) ∧
  match ci_expression c with
  | Some e => expression_ok e ∧ ci_column c = ie_column e ∧ ci_columns c = [ie_column e]
  | None => names_ok (ci_columns c) ∧ ci_column c = default EmptyString (head (ci_columns c))
  end.

Lemma index_reads c : index_ok c → reads (createIndexSql double_chars c) (ident "CREATE" :: index_words c ++ [semicolon]) [].
Proof.
  intros (Hn & Ht & Hc). unfold createIndexSql, index_words, paren. destruct (ci_expression c) as [e|].
  - destruct Hc as [He _]. cbn [app]. rewrite <- !app_assoc. do 5 read_next.
    apply reads_app; [by apply reads_expression|by apply reads_text].
  - destruct Hc as [[Hne Hns] _].
    destruct (ci_columns c) as [|first items]; [done|]. do 5 read_next. apply reads_app; [by apply reads_names|by apply reads_text].
Qed.

Lemma parses_create_index c g rest : index_ok c → parses (parse_create stod g) (index_words c) rest (Q_CreateIndex c).
Proof.
  intros (_ & _ & Hc). destruct c as [name table column columns e]. unfold parse_create, index_words. simpl in *. do 3 next_word.
  eapply parses_last; [|apply parses_ret]. unfold parseCreateIndex. do 3 next_word. unfold paren. destruct e as [e|].
  - destruct Hc as (He & -> & ->). do 2 next_word. fold (@app W). rewrite <- app_assoc.
    eapply parses_bind; [by apply parses_expression|]. by do 3 next_word.
  - destruct Hc as ((Hne & _) & ->). next_word. destruct columns as [|first items]; [done|].
    eapply parses_nil; [by destruct items; on_word|].
    eapply parses_bind; [apply (parses_comma_list _ (λ n, [ident n])); [|done]; intros; apply parses_name|].
    by do 2 next_word.
Qed.

(** *** Every statement of the catalog *)

(** The text that is logged for a statement. *)
Definition ddl_text (q : Query) : result chars :=
  match q with
  | Q_CreateTable c => createTableSql double_chars c
  | Q_DropTable table => Ok (explode "DROP TABLE " ++ explode table ++ explode ";")
  | Q_RenameTable oldName newName =>
      Ok (explode "RENAME TABLE " ++ explode oldName ++ explode " TO " ++ explode newName ++ explode ";")
  | Q_AlterTable c => alterTableSql double_chars c
  | Q_CreateIndex c => Ok (createIndexSql double_chars c)
  | Q_DropIndex name table => Ok (dropIndexSql name table)
  | _ => Throw (logic_error "not a catalog statement")
  end.

Definition ddl_ok (q : Query) : Prop :=
  match q with
  | Q_CreateTable c => create_ok c
  | Q_DropTable table => is_identifier table
  | Q_RenameTable oldName newName => is_identifier oldName ∧ is_identifier newName
  | Q_AlterTable c => alter_ok c
  | Q_CreateIndex c => index_ok c
  | Q_DropIndex name table => is_identifier name ∧ is_identifier table
  | _ => False
  end.
End ddl.

(** Statement by statement. *)
Lemma ddl_text_parses double_chars stod (q : Query) : ddl_ok double_chars stod q →
  ∃ text, ddl_text double_chars q = Ok text ∧ ∀ s, (Parser_parse stod text s).1 = Ok q.
Proof.
  destruct q as [| |c|table|oldName newName|c| | | | | |c|name table| | | | | | | | | |]; try done; cbn [ddl_ok ddl_text]; intros Hok.
  - destruct (create_reads double_chars stod c Hok) as (text & E & Hr). exists text. split; [done|].
    eapply statement_parses; [exact Hr|reflexivity|]. intros n Hn. apply (parses_create_table double_chars); [done|].
    eapply Forall_impl; [by apply (create_depth double_chars stod)|]. cbn beta. lia.
  - eexists. split; [done|]. eapply (statement_parses _ _ _ "DROP" [ident "TABLE"; ident table]); [repeat read_next|reflexivity|].
    intros n Hn. unfold parse_drop, parseDropTable. by do 5 next_word.
  - destruct Hok. eexists. split; [done|].
    eapply (statement_parses _ _ _ "RENAME" [ident "TABLE"; ident oldName; ident "TO"; ident newName]); [repeat read_next|reflexivity|].
    intros n Hn. unfold parseRenameTable. by do 5 next_word.
  - destruct (alter_reads double_chars stod c Hok) as (text & E & Hr). exists text. split; [done|].
    eapply statement_parses; [exact Hr|reflexivity|]. intros n Hn. eapply parses_last; [by apply (parses_alter double_chars)|apply parses_ret].
  - eexists. split; [done|]. eapply statement_parses; [by apply (index_reads double_chars stod)|reflexivity|].
    intros n Hn. by apply (parses_create_index double_chars).
  - destruct Hok. eexists. split; [done|].
    eapply (statement_parses _ _ _ "DROP" [ident "INDEX"; ident name; ident "ON"; ident table]); [unfold dropIndexSql; repeat read_next|reflexivity|].
    intros n Hn. unfold parse_drop, parseDropIndex. by do 5 next_word.
Qed.

(** C17: a catalog statement survives being logged.  The text that the write-ahead
    log keeps for CREATE TABLE, DROP TABLE, RENAME TABLE, ALTER TABLE, CREATE INDEX
    and DROP INDEX is read back, by a parser in any state, as the statement it was
    printed from: the same columns with their options, the same composite keys, CHECK
    and FOREIGN KEY constraints, defaults and index expressions.  [ddl_ok] is what the
    parser guarantees of a statement it built (identifiers, one primary key,
    constraints over known columns), with literals that have a text. *)
Theorem ddl_text_roundtrip double_chars stod (q : Query) : ddl_ok double_chars stod q →
  ∃ text, ddl_text double_chars q = Ok text ∧ ∀ s, (Parser_parse stod text s).1 = Ok q.
Proof. apply ddl_text_parses. Qed.

(** A table with a composite key, a CHECK constraint and a foreign key. *)
Definition orders_table : CreateTable Select :=
  mkCreateTable "orders"
    [mkColumn "id" CT_Int false true true; mkColumn "customer" CT_String true false false;
     mkColumn "number" CT_Int false false false; mkColumn "note" CT_String true false false]
    [OrPred (ComparisonPred "number" Greater (VInt (-1)) None None false)
            (ComparisonPred "note" Equal (VString (implode [double_quote])) None None false)]
    [mkForeignKeyConstraint ["customer"] "customers" ["name"] FK_Cascade FK_SetNull]
    [mkUniqueConstraint ["customer"; "number"] false].

(** Decides [ddl_ok] of a concrete statement. *)
Ltac decide_ddl :=
  unfold ddl_ok, create_ok, alter_ok, index_ok, default_ok, items_of; simpl;
  split_and!; try done; repeat (apply Forall_cons; split); try done; simpl;
  unfold column_ok, plain_name, names_ok, fk_ok; simpl;
  split_and!; try (by apply (bool_decide_unpack _)); try done; try lia.

Lemma ddl_text_roundtrip_witness :
  ∃ text, ddl_text (λ _, []) (Q_CreateTable orders_table) = Ok text ∧
    (Parser_parse (λ _, None) text parser_new).1 = Ok (Q_CreateTable orders_table).
Proof.
  destruct (ddl_text_roundtrip (λ _, []) (λ _, None) (Q_CreateTable orders_table)) as (text & E & H).
  - decide_ddl.
  - exists text. split; [exact E|exact (H parser_new)].
Defined.

(** A [double] that iostreams print with an exponent is logged as it is printed: the
    tokenizer splits [1e+06] into a number, a name, a sign and a number, and the
    logged statement does not parse. *)
Definition price_table : CreateTable Select :=
  mkCreateTable "prices" [mkColumn "p" CT_Double false false false]
    [ComparisonPred "p" Less (VDouble 4696837146684686336) None None false] [] [].

Lemma exponent_literal_unreadable stod :
  let printed := λ b : Z, if Z.eqb b 4696837146684686336 then explode "1e+06" else [] in
  ∃ text x, ddl_text printed (Q_CreateTable price_table) = Ok text ∧
    text = explode "CREATE TABLE prices (p DOUBLE NOT NULL, CHECK (p < 1e+06));" ∧
    (Parser_parse stod text parser_new).1 = Throw x.
Proof. eexists _, _. split_and!; [vm_compute; reflexivity..]. Qed.
