(* ===== verification/Prepared.v ===== *)
(** * Prepared statements

    [src/execution/prepared_bind.cpp] and [src/execution/prepared_statement_catalog.cpp]:
    the parameters of a stored statement are replaced by values, and every value
    must be used.  [seen] is the vector that marks the used ones. *)

From S2P Require Import Prelude Value StringPattern IndexExpression Predicate SetOps Histogram IndexManager Table Ast Database.
Local Open Scope nat_scope.

Abbreviation Pred := (Predicate Select).

(** ** The catalog *)

Abbreviation PreparedStatementCatalog := (gmap string Query).

Definition prepared_store (name : string) (query : Query) (c : PreparedStatementCatalog) : PreparedStatementCatalog :=
  <[name := query]> c.
Definition prepared_find (name : string) (c : PreparedStatementCatalog) : option Query := c !! name.
Definition prepared_exists (name : string) (c : PreparedStatementCatalog) : bool := bool_decide (is_Some (c !! name)).

(** ** Binding *)

Section bind.
Context (parameters : list Value).
Abbreviation bind := (M (list bool)).

Definition bindValue (value : Value) : bind Value :=
  match value with
  | VParam index =>
      match parameters !! index with
      | None => raise (runtime_error "not enough prepared statement parameters")
      | Some v => _ ← modify (λ seen, <[index := true]> seen); mret v
      end
  | _ => mret value
  end.

Definition bindIndexExpression (e : IndexExpression) : bind IndexExpression :=
  literal ← bindValue (ie_literal e);
  mret (mkIndexExpression (ie_kind e) (ie_column e) literal).

(** An optional part. *)
Definition bind_option {A} (f : A → bind A) (o : option A) : bind (option A) :=
  match o with
  | None => mret None
  | Some a => a ← f a; mret (Some a)
  end.

Section predicate.
Context (bindSubquery : Select → bind Select).

Fixpoint bindPredicate (p : Pred) : bind Pred :=
  match p with
  | AndPred l r => l ← bindPredicate l; r ← bindPredicate r; mret (AndPred l r)
  | OrPred l r => l ← bindPredicate l; r ← bindPredicate r; mret (OrPred l r)
  | InListPred column values expression outer =>
      values ← mapM bindValue values;
      expression ← bind_option bindIndexExpression expression;
      mret (InListPred column values expression outer)
  | InSubqueryPred column subquery outer =>
      subquery ← bindSubquery subquery; mret (InSubqueryPred column subquery outer)
  | ExistsPred subquery outer => subquery ← bindSubquery subquery; mret (ExistsPred subquery outer)
  | LikePred _ _ _ | RegexPred _ _ _ => mret p
  | ComparisonPred column op value rhs expression outer =>
      value ← bindValue value;
      expression ← bind_option bindIndexExpression expression;
      mret (ComparisonPred column op value rhs expression outer)
  end.
End predicate.

Fixpoint bindSelect (s : Select) : bind Select :=
  match s with
  | mkSelect table joins columns condition groupBy orderBy limit ctes setOps alias outer =>
      condition ← bind_option (bindPredicate bindSelect) condition;
      ctes ← mapM (λ c, match c with
                        | mkCteEntry name body mode recursive distinct accumulator arm =>
                            body ← bind_option bindSelect body;
                            arm ← bind_option bindSelect arm;
                            mret (mkCteEntry name body mode recursive distinct accumulator arm)
                        end) ctes;
      setOps ← mapM (λ a, match a with
                          | mkSetOpArm op arm => arm ← bind_option bindSelect arm; mret (mkSetOpArm op arm)
                          end) setOps;
      mret (mkSelect table joins columns condition groupBy orderBy limit ctes setOps alias outer)
  end.

Definition bind_rows (rows : list Row) : bind (list Row) := mapM (mapM bindValue) rows.

Definition bind_update (u : Update Select) : bind (Update Select) :=
  value ← bindValue (up_value u);
  condition ← bind_option (bindPredicate bindSelect) (up_where u);
  mret (mkUpdate (up_table u) (up_column u) value condition).

Definition bind_explained (q : Explained) : bind Explained :=
  match q with
  | Explain_Select s => s ← bindSelect s; mret (Explain_Select s)
  | Explain_Update u => u ← bind_update u; mret (Explain_Update u)
  | Explain_Delete table condition =>
      condition ← bind_option (bindPredicate bindSelect) condition; mret (Explain_Delete table condition)
  | Explain_Insert table rows => rows ← bind_rows rows; mret (Explain_Insert table rows)
  end.

Definition bind_query (q : Query) : bind Query :=
  match q with
  | Q_Select s => s ← bindSelect s; mret (Q_Select s)
  | Q_ExplainQuery inner analyze => inner ← bind_explained inner; mret (Q_ExplainQuery inner analyze)
  | Q_Insert table rows => rows ← bind_rows rows; mret (Q_Insert table rows)
  | Q_Update u => u ← bind_update u; mret (Q_Update u)
  | Q_Delete table condition =>
      condition ← bind_option (bindPredicate bindSelect) condition; mret (Q_Delete table condition)
  | Q_CreateIndex c =>
      expression ← bind_option bindIndexExpression (ci_expression c);
      mret (Q_CreateIndex (mkCreateIndex (ci_name c) (ci_table c) (ci_column c) (ci_columns c) expression))
  | _ => mret q
  end.

Definition bindQueryParameters (q : Query) : result Query :=
  let '(bound, seen) := bind_query q (replicate (length parameters) false) in
  bound ← bound;
  _ ← throw_if (existsb negb seen) (runtime_error "too many prepared statement parameters");
  Ok bound.
End bind.

(** ** What binding means *)

(** The parameters of a statement, in the order they are bound. *)
Definition value_slots (v : Value) : list nat := match v with VParam i => [i] | _ => [] end.
Definition expression_slots (e : option IndexExpression) : list nat :=
  match e with Some e => value_slots (ie_literal e) | None => [] end.
Definition row_slots (row : list Value) : list nat := concat (value_slots <$> row).

Section slots.
Context (subquery_slots : Select → list nat).

Fixpoint predicate_slots (p : Pred) : list nat :=
  match p with
  | AndPred l r | OrPred l r => predicate_slots l ++ predicate_slots r
  | InListPred _ values expression _ => row_slots values ++ expression_slots expression
  | InSubqueryPred _ subquery _ | ExistsPred subquery _ => subquery_slots subquery
  | LikePred _ _ _ | RegexPred _ _ _ => []
  | ComparisonPred _ _ value _ expression _ => value_slots value ++ expression_slots expression
  end.
End slots.

Definition option_slots {A} (f : A → list nat) (o : option A) : list nat := match o with Some a => f a | None => [] end.

Fixpoint select_slots (s : Select) : list nat :=
  match s with
  | mkSelect _ _ _ condition _ _ _ ctes setOps _ _ =>
      option_slots (predicate_slots select_slots) condition ++
      concat ((λ c, option_slots select_slots (cte_body c) ++ option_slots select_slots (cte_recursiveArm c)) <$> ctes) ++
      concat ((λ a, option_slots select_slots (arm_select a)) <$> setOps)
  end.

Definition where_slots : option Pred → list nat := option_slots (predicate_slots select_slots).
Definition rows_slots (rows : list Row) : list nat := concat (row_slots <$> rows).
Definition update_slots (u : Update Select) : list nat := value_slots (up_value u) ++ where_slots (up_where u).

Definition query_slots (q : Query) : list nat :=
  match q with
  | Q_Select s | Q_ExplainQuery (Explain_Select s) _ => select_slots s
  | Q_Insert _ rows | Q_ExplainQuery (Explain_Insert _ rows) _ => rows_slots rows
  | Q_Update u | Q_ExplainQuery (Explain_Update u) _ => update_slots u
  | Q_Delete _ condition | Q_ExplainQuery (Explain_Delete _ condition) _ => where_slots condition
  | Q_CreateIndex c => expression_slots (ci_expression c)
  | _ => []
  end.

(** The statement with the parameters replaced. *)
Section fill.
Context (parameters : list Value).

Definition fill_value (v : Value) : Value := match v with VParam i => default v (parameters !! i) | _ => v end.
Definition fill_expression (e : IndexExpression) : IndexExpression :=
  mkIndexExpression (ie_kind e) (ie_column e) (fill_value (ie_literal e)).

Section predicate.
Context (fill_subquery : Select → Select).

Fixpoint fill_predicate (p : Pred) : Pred :=
  match p with
  | AndPred l r => AndPred (fill_predicate l) (fill_predicate r)
  | OrPred l r => OrPred (fill_predicate l) (fill_predicate r)
  | InListPred column values expression outer =>
      InListPred column (fill_value <$> values) (fill_expression <$> expression) outer
  | InSubqueryPred column subquery outer => InSubqueryPred column (fill_subquery subquery) outer
  | ExistsPred subquery outer => ExistsPred (fill_subquery subquery) outer
  | LikePred _ _ _ | RegexPred _ _ _ => p
  | ComparisonPred column op value rhs expression outer =>
      ComparisonPred column op (fill_value value) rhs (fill_expression <$> expression) outer
  end.
End predicate.

Fixpoint fill_select (s : Select) : Select :=
  match s with
  | mkSelect table joins columns condition groupBy orderBy limit ctes setOps alias outer =>
      mkSelect table joins columns (fill_predicate fill_select <$> condition) groupBy orderBy limit
        ((λ c, mkCteEntry (cte_name c) (fill_select <$> cte_body c) (cte_materializeMode c) (cte_recursive c)
                 (cte_recursiveDistinct c) (cte_recursiveBindAccumulator c) (fill_select <$> cte_recursiveArm c)) <$> ctes)
        ((λ a, mkSetOpArm (arm_op a) (fill_select <$> arm_select a)) <$> setOps) alias outer
  end.

Definition fill_where : option Pred → option Pred := fmap (fill_predicate fill_select).
Definition fill_rows (rows : list Row) : list Row := (λ row : list Value, fill_value <$> row) <$> (rows : list (list Value)).
Definition fill_update (u : Update Select) : Update Select :=
  mkUpdate (up_table u) (up_column u) (fill_value (up_value u)) (fill_where (up_where u)).

Definition fill_query (q : Query) : Query :=
  match q with
  | Q_Select s => Q_Select (fill_select s)
  | Q_ExplainQuery (Explain_Select s) a => Q_ExplainQuery (Explain_Select (fill_select s)) a
  | Q_ExplainQuery (Explain_Update u) a => Q_ExplainQuery (Explain_Update (fill_update u)) a
  | Q_ExplainQuery (Explain_Delete t c) a => Q_ExplainQuery (Explain_Delete t (fill_where c)) a
  | Q_ExplainQuery (Explain_Insert t rows) a => Q_ExplainQuery (Explain_Insert t (fill_rows rows)) a
  | Q_Insert t rows => Q_Insert t (fill_rows rows)
  | Q_Update u => Q_Update (fill_update u)
  | Q_Delete t c => Q_Delete t (fill_where c)
  | Q_CreateIndex c =>
      Q_CreateIndex (mkCreateIndex (ci_name c) (ci_table c) (ci_column c) (ci_columns c) (fill_expression <$> ci_expression c))
  | _ => q
  end.
End fill.

(** ** Induction over nested selects *)

Fixpoint predicate_all (Q : Select → Prop) (p : Pred) : Prop :=
  match p with
  | AndPred l r | OrPred l r => predicate_all Q l ∧ predicate_all Q r
  | InSubqueryPred _ s _ | ExistsPred s _ => Q s
  | _ => True
  end.

Definition option_all {A} (Q : A → Prop) (o : option A) : Prop := match o with Some a => Q a | None => True end.

Definition select_all (Q : Select → Prop) (s : Select) : Prop :=
  option_all (predicate_all Q) (sel_where s) ∧
  Forall (λ c, option_all Q (cte_body c) ∧ option_all Q (cte_recursiveArm c)) (sel_ctes s) ∧
  Forall (λ a, option_all Q (arm_select a)) (sel_setOps s).

Definition option_intro {A} {Q : A → Prop} (f : ∀ a, Q a) (o : option A) : option_all Q o :=
  match o with Some a => f a | None => I end.
Fixpoint predicate_intro {Q : Select → Prop} (f : ∀ s, Q s) (p : Pred) : predicate_all Q p :=
  match p with
  | AndPred l r | OrPred l r => conj (predicate_intro f l) (predicate_intro f r)
  | InSubqueryPred _ s _ | ExistsPred s _ => f s
  | _ => I
  end.
Definition list_intro {A} {Q : A → Prop} (f : ∀ a, Q a) : ∀ l, Forall Q l :=
  fix go l := match l with [] => List.Forall_nil _ | a :: l => List.Forall_cons _ _ _ (f a) (go l) end.

Lemma Select_nested_ind (P : Select → Prop) : (∀ s, select_all P s → P s) → ∀ s, P s.
Proof.
  intros H. fix IH 1. intros [table joins columns condition groupBy orderBy limit ctes setOps alias outer]. apply H.
  split; [exact (option_intro (predicate_intro IH) condition)|]. split.
  - exact (list_intro (λ c, match c return option_all P (cte_body c) ∧ option_all P (cte_recursiveArm c) with mkCteEntry _ body _ _ _ _ arm => conj (option_intro IH body) (option_intro IH arm) end) ctes).
  - exact (list_intro (λ a, match a return option_all P (arm_select a) with mkSetOpArm _ arm => option_intro IH arm end) setOps).
Qed.

(** ** Binding is replacement *)

Definition mark (ids : list nat) (seen : list bool) : list bool := foldl (λ s i, <[i := true]> s) seen ids.

Section bind_proof.
Context (parameters : list Value).
Abbreviation n := (length parameters).

(** [m] uses the parameters [ids] and gives [a]. *)
Definition binds {A} (m : M (list bool) A) (ids : list nat) (a : A) : Prop :=
  ∀ seen, if forallb (λ i, Nat.ltb i n) ids
          then m seen = (Ok a, mark ids seen)
          else ∃ seen', m seen = (Throw (runtime_error "not enough prepared statement parameters"), seen').

Lemma binds_ret {A} (a : A) : binds (mret a) [] a.
Proof. by intros seen. Qed.

Lemma binds_bind {A B} (m : M (list bool) A) (f : A → M (list bool) B) ids ids' a b :
  binds m ids a → binds (f a) ids' b → binds (m ≫= f) (ids ++ ids') b.
Proof.
  intros Hm Hf seen. specialize (Hm seen). rewrite forallb_app. unfold mbind, M_bind.
  destruct (forallb _ ids); simpl.
  - rewrite Hm. specialize (Hf (mark ids seen)). unfold mark in *. by rewrite foldl_app.
  - destruct Hm as [seen' ->]. by exists seen'.
Qed.

Lemma binds_fmap {A B} (m : M (list bool) A) (f : A → B) ids a b : b = f a → binds m ids a → binds (a ← m; mret (f a)) ids b.
Proof. intros -> Hm. rewrite <- (app_nil_r ids). eapply binds_bind; [exact Hm|apply binds_ret]. Qed.

Lemma binds_value v : binds (bindValue parameters v) (value_slots v) (fill_value parameters v).
Proof.
  intros seen. destruct v as [| | | |i|]; try done. simpl. destruct (parameters !! i) as [v|] eqn:E.
  - rewrite (proj2 (Nat.ltb_lt i n)); [done|]. by eapply lookup_lt_Some.
  - apply lookup_ge_None_1 in E. rewrite (proj2 (Nat.ltb_ge i n)) by done. by eexists.
Qed.

Lemma binds_option {A} (f : A → M (list bool) A) (ids : A → list nat) (g : A → A) o :
  option_all (λ a, binds (f a) (ids a) (g a)) o → binds (bind_option f o) (option_slots ids o) (g <$> o).
Proof. destruct o as [a|]; intros H; [by eapply binds_fmap|apply binds_ret]. Qed.

Lemma binds_list {A} (f : A → M (list bool) A) (ids : A → list nat) (g : A → A) l :
  Forall (λ a, binds (f a) (ids a) (g a)) l → binds (mapM f l) (concat (ids <$> l)) (g <$> l).
Proof.
  induction 1 as [|a l Ha _ IH]; [apply binds_ret|]. simpl. eapply binds_bind; [exact Ha|]. by eapply binds_fmap.
Qed.

Lemma binds_values l : binds (mapM (bindValue parameters) l) (row_slots l) (fill_value parameters <$> l).
Proof. apply binds_list, Forall_true. apply binds_value. Qed.

Lemma binds_expression e : binds (bind_option (bindIndexExpression parameters) e) (expression_slots e) (fill_expression parameters <$> e).
Proof. apply binds_option. destruct e as [e|]; [|done]. eapply binds_fmap; [done|apply binds_value]. Qed.

Lemma binds_predicate f ids g p : predicate_all (λ s, binds (f s) (ids s) (g s)) p →
  binds (bindPredicate parameters f p) (predicate_slots ids p) (fill_predicate parameters g p).
Proof.
  induction p as [column op value rhs e o|l IHl r IHr|l IHl r IHr|column values e o|column s o|s o| |]; simpl; intros H.
  - eapply binds_bind; [apply binds_value|]. eapply binds_fmap; [done|apply binds_expression].
  - destruct H. eapply binds_bind; [by apply IHl|]. eapply binds_fmap; [done|by apply IHr].
  - destruct H. eapply binds_bind; [by apply IHl|]. eapply binds_fmap; [done|by apply IHr].
  - eapply binds_bind; [apply binds_values|]. eapply binds_fmap; [done|apply binds_expression].
  - by eapply binds_fmap.
  - by eapply binds_fmap.
  - apply binds_ret.
  - apply binds_ret.
Qed.

Lemma binds_select s : binds (bindSelect parameters s) (select_slots s) (fill_select parameters s).
Proof.
  induction s as [[table joins columns condition groupBy orderBy limit ctes setOps alias outer] (Hw & Hc & Ha)] using Select_nested_ind.
  simpl in *. eapply binds_bind; [|eapply binds_bind; [|eapply binds_fmap; [done|]]].
  - apply binds_option. destruct condition as [p|]; [|done]. by apply binds_predicate.
  - apply binds_list. eapply Forall_impl; [exact Hc|]. intros [name body mode recursive distinct accumulator arm] [Hb Har].
    eapply binds_bind; [by apply binds_option|]. eapply binds_fmap; [done|by apply binds_option].
  - apply binds_list. eapply Forall_impl; [exact Ha|]. intros [op arm] Harm. eapply binds_fmap; [done|by apply binds_option].
Qed.

Lemma binds_where condition : binds (bind_option (bindPredicate parameters (bindSelect parameters)) condition) (where_slots condition) (fill_where parameters condition).
Proof. apply binds_option. destruct condition as [p|]; [|done]. apply binds_predicate, predicate_intro, binds_select. Qed.

Lemma binds_rows rows : binds (bind_rows parameters rows) (rows_slots rows) (fill_rows parameters rows).
Proof. apply binds_list, Forall_true. apply binds_values. Qed.

Lemma binds_update u : binds (bind_update parameters u) (update_slots u) (fill_update parameters u).
Proof. eapply binds_bind; [apply binds_value|]. eapply binds_fmap; [done|apply binds_where]. Qed.

Lemma binds_query q : binds (bind_query parameters q) (query_slots q) (fill_query parameters q).
Proof.
  destruct q as [| | | | | | |t rows|s|u|t c|c| | | | | | | | |[s|u|t c|t rows] a| |]; simpl; try apply binds_ret; repeat (eapply binds_fmap; [done|]);
    first [apply binds_select|apply binds_rows|apply binds_update|apply binds_where|apply binds_expression].
Qed.

(** *** No parameter is left *)

Context (closed : Forall (λ v, isParameter v = false) parameters).
Abbreviation in_range := (Forall (λ i, i < n)).

Lemma fill_closed v : in_range (value_slots v) → value_slots (fill_value parameters v) = [].
Proof.
  destruct v as [| | | |i|]; try done. simpl. rewrite Forall_singleton. intros Hi. destruct (lookup_lt_is_Some_2 _ _ Hi) as [v Hv].
  rewrite Hv. simpl. rewrite Forall_lookup in closed. specialize (closed i v Hv). by destruct v.
Qed.

Lemma fill_list {A} (ids : A → list nat) (g : A → A) l : Forall (λ a, in_range (ids a) → ids (g a) = []) l →
  in_range (concat (ids <$> l)) → concat (ids <$> (g <$> l)) = [].
Proof.
  induction 1 as [|a l Ha _ IH]; [done|]. rewrite !fmap_cons. cbn [concat]. intros [H1 H2]%Forall_app. by rewrite Ha, IH.
Qed.

Lemma fill_option {A} (ids : A → list nat) (g : A → A) o : option_all (λ a, in_range (ids a) → ids (g a) = []) o →
  in_range (option_slots ids o) → option_slots ids (g <$> o) = [].
Proof. destruct o as [a|]; [|done]. intros H. exact H. Qed.

Lemma fill_values_closed l : in_range (row_slots l) → row_slots (fill_value parameters <$> l) = [].
Proof. apply fill_list, Forall_true. apply fill_closed. Qed.

Lemma fill_expression_closed e : in_range (expression_slots e) → expression_slots (fill_expression parameters <$> e) = [].
Proof. destruct e as [e|]; [|done]. apply fill_closed. Qed.

Lemma fill_predicate_closed ids g p : predicate_all (λ s, in_range (ids s) → ids (g s) = []) p →
  in_range (predicate_slots ids p) → predicate_slots ids (fill_predicate parameters g p) = [].
Proof.
  induction p as [column op value rhs e o|l IHl r IHr|l IHl r IHr|column values e o|column s o|s o| |]; simpl; intros H; try done;
    rewrite Forall_app; intros [H1 H2].
  - by rewrite fill_closed, fill_expression_closed.
  - destruct H. by rewrite IHl, IHr.
  - destruct H. by rewrite IHl, IHr.
  - by rewrite fill_values_closed, fill_expression_closed.
Qed.

Lemma fill_select_closed s : in_range (select_slots s) → select_slots (fill_select parameters s) = [].
Proof.
  induction s as [[table joins columns condition groupBy orderBy limit ctes setOps alias outer] (Hw & Hc & Ha)] using Select_nested_ind.
  cbn [select_slots fill_select] in *. cbn [sel_where sel_ctes sel_setOps] in *. rewrite !Forall_app. intros (H1 & H2 & H3).
  rewrite fill_option; [|destruct condition as [p|]; [exact (fill_predicate_closed _ _ p Hw)|done]|done].
  rewrite fill_list; [|eapply Forall_impl; [exact Hc|]|done].
  2: { intros c [Hb Har] [H4 H5]%Forall_app. simpl. by rewrite !fill_option. }
  apply fill_list; [|done]. eapply Forall_impl; [exact Ha|]. intros a Harm H4. by apply fill_option.
Qed.

Lemma fill_where_closed c : in_range (where_slots c) → where_slots (fill_where parameters c) = [].
Proof. apply fill_option. destruct c as [p|]; [|done]. exact (fill_predicate_closed _ _ p (predicate_intro fill_select_closed p)). Qed.

Lemma fill_rows_closed rows : in_range (rows_slots rows) → rows_slots (fill_rows parameters rows) = [].
Proof. apply fill_list, Forall_true. apply fill_values_closed. Qed.

Lemma fill_update_closed u : in_range (update_slots u) → update_slots (fill_update parameters u) = [].
Proof. unfold update_slots. rewrite Forall_app. intros [H1 H2]. simpl. by rewrite fill_closed, fill_where_closed. Qed.

Lemma fill_query_closed q : in_range (query_slots q) → query_slots (fill_query parameters q) = [].
Proof.
  destruct q as [| | | | | | |t rows|s|u|t c|c| | | | | | | | |[s|u|t c|t rows] a| |]; try done; simpl;
    first [apply fill_select_closed|apply fill_rows_closed|apply fill_update_closed|apply fill_where_closed|apply fill_expression_closed].
Qed.
End bind_proof.

Lemma mark_lookup ids seen i : i < length seen → mark ids seen !! i = Some (bool_decide (i ∈ ids) || default false (seen !! i)).
Proof.
  revert seen. induction ids as [|j ids IH]; intros seen Hi; simpl.
  - destruct (lookup_lt_is_Some_2 _ _ Hi) as [b ->]. done.
  - rewrite IH by (by rewrite length_insert). f_equal. destruct (decide (i = j)) as [->|Hne].
    + rewrite list_lookup_insert_eq by done. rewrite orb_true_r. by rewrite bool_decide_true by set_solver.
    + rewrite list_lookup_insert_ne by done. f_equal. apply bool_decide_ext. set_solver.
Qed.

Lemma length_mark ids seen : length (mark ids seen) = length seen.
Proof. revert seen. induction ids as [|j ids IH]; intros seen; simpl; [done|]. by rewrite IH, length_insert. Qed.

Lemma mark_all ids k : existsb negb (mark ids (replicate k false)) = negb (forallb (λ i, bool_decide (i ∈ ids)) (seq 0 k)).
Proof.
  assert (∀ i, i < k → mark ids (replicate k false) !! i = Some (bool_decide (i ∈ ids))) as Hl.
  { intros i Hi. rewrite mark_lookup by (by rewrite length_replicate). rewrite lookup_replicate_2 by done. by rewrite orb_false_r. }
  destruct (existsb negb _) eqn:E; symmetry; [apply negb_true_iff, not_true_iff_false|apply negb_false_iff]; rewrite forallb_forall.
  - intros Hall. apply existsb_exists in E as (b & Hb & Hneg). apply list_elem_of_In, list_elem_of_lookup in Hb as [i Hi].
    assert (i < k) as Hk by (apply lookup_lt_Some in Hi; by rewrite length_mark, length_replicate in Hi).
    rewrite Hl in Hi by done. rewrite Hall in Hi; [|apply in_seq; lia]. by injection Hi as <-.
  - intros i Hi%in_seq. apply not_false_iff_true. intros Hb. apply not_true_iff_false in E. apply E, existsb_exists. exists false.
    split; [|done]. apply list_elem_of_In, list_elem_of_lookup. exists i. rewrite Hl by lia. by rewrite Hb.
Qed.

Lemma bind_query_exact parameters q : bindQueryParameters parameters q =
  if forallb (λ i, Nat.ltb i (length parameters)) (query_slots q) then
    if forallb (λ i, bool_decide (i ∈ query_slots q)) (seq 0 (length parameters)) then Ok (fill_query parameters q)
    else Throw (runtime_error "too many prepared statement parameters")
  else Throw (runtime_error "not enough prepared statement parameters").
Proof.
  pose proof (binds_query parameters q (replicate (length parameters) false)) as H. unfold bindQueryParameters.
  destruct (forallb _ (query_slots q)); [|by destruct H as [seen ->]]. rewrite H. simpl. rewrite mark_all.
  by destruct (forallb _ (seq 0 _)).
Qed.

(** Binding a prepared statement is replacement.  With a value for every
    parameter of the statement and a use for every value, [bindQueryParameters] gives
    the statement with each parameter replaced by its value, in nested predicates,
    subqueries, CTEs and set operations too; with fewer values it throws "not
    enough", with more it throws "too many".  No parameter is left in the bound
    statement. *)
Theorem bind_parameters_exact parameters q :
  bindQueryParameters parameters q =
    (if forallb (λ i, Nat.ltb i (length parameters)) (query_slots q) then
       if forallb (λ i, bool_decide (i ∈ query_slots q)) (seq 0 (length parameters)) then Ok (fill_query parameters q)
       else Throw (runtime_error "too many prepared statement parameters")
     else Throw (runtime_error "not enough prepared statement parameters")) ∧
  (Forall (λ i, i < length parameters) (query_slots q) → Forall (λ v, isParameter v = false) parameters →
   query_slots (fill_query parameters q) = []).
Proof. split; [apply bind_query_exact|]. intros Hr Hc. by apply fill_query_closed. Qed.
