(* ===== verification/Recovery.v ===== *)
(** * Recovery and transactions of the executor

    [src/execution/recovery_service.cpp] and the transaction statements of
    [src/execution/query_executor.cpp]: the undo of a record, the replay of the
    log, the deferred log records of a transaction, BEGIN, COMMIT and ROLLBACK.

    The state of the executor is its database, its session, its log, the files of
    the storage manager and the flag that suppresses logging during replay.  The
    storage manager is used through the class [StorageManager].  A DDL record of
    the log is replayed by the callback the service is constructed with,
    [replayQuery], here given the text of the statement. *)

From S2P Require Import Prelude Value BinaryIO BufferPool PageCodec VectorRowStore PageRowStore WriteAheadLog TransactionManager Mvcc.
From S2P Require Import StringPattern HashIndex BTreeIndex RedoCodec IndexExpression Predicate SetOps IndexManager Histogram.
From S2P Require Import Table TableSchema TablePages Database Session.
Local Open Scope nat_scope.

(** The database files, as the executor uses them. *)
Class StorageManager (F Db : Type) : Type := {
  sm_loadFirstDatabase : F → result Db;
  sm_loadDatabase : string → F → result Db;
  sm_saveDatabase : Db → F → result unit * F;
  sm_deleteDatabase : string → F → result unit * F
}.

Definition exn_what (e : exn) : string :=
  match e with
  | invalid_argument w | runtime_error w | logic_error w | out_of_range w | SerializationFailure w => w
  end.

(** [try { m } catch (const std::exception &ex) { h(ex) }] *)
Definition try_catch {St A} (m : M St A) (h : exn → M St A) : M St A := λ s,
  match m s with
  | (Throw e, s) => h e s
  | r => r
  end.

Section recovery.
Context {Select F : Type}.
Abbreviation Table := (Table Select PageRowStore).
Abbreviation Database := (Database Select PageRowStore).
Abbreviation UndoRecord := (UndoRecord Select PageRowStore).
Abbreviation TxnSession := (TxnSession Select PageRowStore).
Context `{StorageManager F Database}.
Context (int_to_double : Z → Z) (double_add double_sub : Z → Z → Z) (double_chars : Z → chars).

Record Executor : Type := mkExecutor {
  ex_database : option Database;
  ex_session : TxnSession;
  ex_wal : WriteAheadLog;
  ex_files : F;
  ex_replayingWal : bool
}.

Definition set_database (db : option Database) (e : Executor) : Executor :=
  mkExecutor db (ex_session e) (ex_wal e) (ex_files e) (ex_replayingWal e).
Definition set_session (s : TxnSession) (e : Executor) : Executor :=
  mkExecutor (ex_database e) s (ex_wal e) (ex_files e) (ex_replayingWal e).
Definition set_wal (w : WriteAheadLog) (e : Executor) : Executor :=
  mkExecutor (ex_database e) (ex_session e) w (ex_files e) (ex_replayingWal e).
Definition set_files (f : F) (e : Executor) : Executor :=
  mkExecutor (ex_database e) (ex_session e) (ex_wal e) f (ex_replayingWal e).
Definition set_replaying (b : bool) (e : Executor) : Executor :=
  mkExecutor (ex_database e) (ex_session e) (ex_wal e) (ex_files e) b.

Abbreviation exec := (M Executor).

(** Calls of the parts of the executor. *)
Definition on_session {A} (m : M TxnSession A) : exec A := λ e,
  let '(r, s) := m (ex_session e) in (r, set_session s e).
Definition on_files {A} (m : F → result A * F) : exec A := λ e,
  let '(r, f) := m (ex_files e) in (r, set_files f e).
Definition wal_write (operation : WalOperation) (payload : bytes) : exec unit := λ e,
  (Ok tt, set_wal (wal_append operation payload (ex_wal e)).2 e).

(** [database_->m], through a pointer that may be null. *)
Definition on_database {A} (m : M Database A) : exec A := λ e,
  match ex_database e with
  | None => (Throw (logic_error "null database dereferenced"), e)
  | Some db => let '(r, db) := m db in (r, set_database (Some db) e)
  end.

(** Operations that see the transaction manager next to the database. *)
Definition on_catalog {A} (m : M (catalog Select PageRowStore) A) : exec A := λ e,
  match ex_database e with
  | None => (Throw (logic_error "null database dereferenced"), e)
  | Some db =>
      let tm := ts_transactionManager (ex_session e) in
      let '(r, c) := m (mkCatalog db (Some tm)) in
      (r, set_session (set_tm (default tm (cat_transactions c)) (ex_session e))
            (set_database (Some (cat_database c)) e))
  end.
Definition on_table_named {A} (name : string) (m : op Select PageRowStore A) : exec A := on_catalog (call name m).

Definition find_table (name : string) (e : Executor) : option Table := ex_database e ≫= Database_table name.

Definition requireTable (name : string) : exec unit := λ e,
  match ex_database e with
  | None => (Throw (runtime_error "no active database"), e)
  | Some db =>
      match Database_table name db with
      | None => (Throw (runtime_error "unknown table"), e)
      | Some _ => (Ok tt, e)
      end
  end.

(** ** Undo *)

(** [if (!ok) throw std::runtime_error(message)] *)
Definition require (ok : bool) (message : string) : exec unit := liftM (throw_if (negb ok) (runtime_error message)).

(** A database call, false when there is no database. *)
Definition database_ok (m : M Database bool) : exec bool :=
  has ← gets (λ e, bool_decide (is_Some (ex_database e)));
  if has : bool then on_database m else mret false.

Definition rethrow {A} (prefix : string) (m : exec A) : exec A :=
  try_catch m (λ e, raise (runtime_error (String.append prefix (exn_what e)))).

Definition undo_in_table (r : UndoRecord) : exec unit :=
  let name := ur_tableName r in
  match ur_kind r with
  | UK_Insert =>
      ok ← on_table_named name (eraseDiscardingVersion int_to_double double_add double_sub (ur_rowId r));
      require ok "failed to undo insert"
  | UK_Update =>
      ok ← match ur_beforeImage r with
           | None => mret false
           | Some image =>
               on_table_named name (replaceRow int_to_double double_add double_sub double_chars (ur_rowId r) image)
           end;
      require ok "failed to undo update"
  | UK_Delete =>
      ok ← match ur_beforeImage r with
           | None => mret false
           | Some image =>
               on_table_named name (Table_revive int_to_double double_add double_sub double_chars (ur_rowId r) image)
           end;
      require ok "failed to undo delete"
  | UK_CreateIndex =>
      ok ← (if String.eqb (ur_indexName r) EmptyString then mret false
            else on_table_named name (Table_dropIndex (ur_indexName r)));
      require ok "failed to undo create index"
  | UK_DropIndex =>
      _ ← require (negb (String.eqb (ur_indexName r) EmptyString)) "failed to undo drop index";
      ok ← on_table_named name
             match ur_indexExpression r with
             | Some e => createIndex_expr int_to_double double_add double_sub (ur_indexName r) e
             | None =>
                 createIndex int_to_double double_add double_sub (ur_indexName r)
                   (match ur_indexColumns r with [] => [ur_indexColumn r] | columns => columns end)
             end;
      require ok "failed to undo drop index"
  | UK_AlterAddColumn =>
      rethrow "failed to undo ADD COLUMN: "
        (tables ← gets (λ e, Database_tables <$> ex_database e);
         _ ← on_table_named name
               (dropColumn int_to_double double_add double_sub (col_name (dc_column (ur_alter r))) tables false);
         mret tt)
  | UK_AlterDropColumn =>
      rethrow "failed to undo DROP COLUMN: "
        (on_table_named name (restoreDroppedColumn int_to_double double_add double_sub (ur_alter r)))
  | UK_AlterRenameColumn =>
      rethrow "failed to undo RENAME COLUMN: "
        (on_catalog (renameColumn int_to_double double_add double_sub name (ur_renameTo r)
                       (col_name (dc_column (ur_alter r)))))
  | UK_CreateTable | UK_DropTable | UK_RenameTable | UK_SwapDatabase => mret tt
  end.

Definition applyUndoRecord (r : UndoRecord) : exec unit :=
  match ur_kind r with
  | UK_CreateTable =>
      ok ← database_ok (dropTable (ur_tableName r));
      require ok "failed to undo create table"
  | UK_DropTable =>
      ok ← database_ok (attachTable (ur_retainedTable r));
      require ok "failed to undo drop table"
  | UK_RenameTable =>
      ok ← (if String.eqb (ur_renameTo r) EmptyString then mret false
            else database_ok (renameTable (ur_renameTo r) (ur_tableName r)));
      _ ← require ok "failed to undo rename table";
      on_session (session_rewriteTableName (ur_renameTo r) (ur_tableName r))
  | UK_SwapDatabase =>
      match ur_previousDatabase r with
      | None => raise (runtime_error "failed to undo create database")
      | Some db => modify (set_database (Some db))
      end
  | _ =>
      found ← gets (find_table (ur_tableName r));
      match found with
      | None => raise (runtime_error (String.append "undo references unknown table " (ur_tableName r)))
      | Some _ => undo_in_table r
      end
  end.

(** The loop that pops and undoes the records, the newest first: undoing a
    record pushes none, so the length of the log bounds the rounds. *)
Fixpoint undo_all (fuel : nat) : exec unit :=
  match fuel with
  | O => mret tt
  | Datatypes.S fuel =>
      log ← gets (λ e, ts_undoLog (ex_session e));
      match UndoLog_pop log with
      | None => mret tt
      | Some (rest, record) =>
          _ ← modify (λ e, set_session (set_undo rest (ex_session e)) e);
          _ ← applyUndoRecord record;
          undo_all fuel
      end
  end.
Definition undoTransaction : exec unit :=
  log ← gets (λ e, ts_undoLog (ex_session e));
  undo_all (Datatypes.S (length log)).

(** ** Redo *)

Definition applyPhysicalRedo (redo : PhysicalRedoRecord) : exec unit :=
  _ ← requireTable (prr_tableName redo);
  match prr_kind redo with
  | PR_Upsert =>
      ok ← on_table_named (prr_tableName redo)
             (applyPhysicalUpsert int_to_double double_add double_sub double_chars (prr_rowId redo) (prr_row redo));
      require ok "failed to apply physical upsert redo"
  | PR_Erase =>
      ok ← on_table_named (prr_tableName redo)
             (applyPhysicalErase int_to_double double_add double_sub (prr_rowId redo));
      require ok "failed to apply physical erase redo"
  end.

Definition applyPageImageRedo (redo : PageImageRedoRecord) : exec unit :=
  _ ← requireTable (pir_tableName redo);
  on_table_named (pir_tableName redo)
    (Table_applyPageImageRedo (pir_hasHeapMeta redo) (pir_capacity redo) (pir_freeList redo) (pir_heapPages redo)
       (pir_btreeIndexes redo) (pir_hashIndexes redo)).

Section replay.
Context (replayQuery : bytes → exec unit).

Definition has_space (payload : bytes) : bool := bool_decide (is_Some (bytes_find (text [" "]) payload)).

Definition replay_record (r : WalRecord) : exec unit :=
  match wal_operation r with
  | Wal_SaveDatabase => mret tt
  | Wal_PhysicalRedo => redos ← liftM (decodePhysicalRedos (wal_payload r)); mapM_ applyPhysicalRedo redos
  | Wal_PageImageRedo => redos ← liftM (decodePageImageRedos (wal_payload r)); mapM_ applyPageImageRedo redos
  | Wal_CreateDatabase =>
      if has_space (wal_payload r) then replayQuery (wal_payload r)
      else
        db ← liftM (Database_new (bytes_string (wal_payload r)));
        modify (set_database (Some db))
  | Wal_DropDatabase =>
      if has_space (wal_payload r) then replayQuery (wal_payload r)
      else
        let name := bytes_string (wal_payload r) in
        _ ← modify (λ e, match ex_database e with
                         | Some db => if String.eqb (db_name db) name then set_database None e else e
                         | None => e
                         end);
        on_files (sm_deleteDatabase name)
  | _ => replayQuery (wal_payload r)
  end.

(** The records after the last checkpoint, when a snapshot was loaded. *)
Fixpoint after_save (records acc : list WalRecord) : list WalRecord :=
  match records with
  | [] => acc
  | r :: records =>
      after_save records (match wal_operation r with Wal_SaveDatabase => records | _ => acc end)
  end.

Definition replay_records (records : list WalRecord) (loadedSnapshot : bool) : list WalRecord :=
  if loadedSnapshot then after_save records records else records.

(** An exception of the replay leaves no database. *)
Definition recoverFromWal (loadedSnapshot : bool) : exec unit :=
  records ← gets (λ e, wal_readAll (ex_wal e));
  match records with
  | [] => mret tt
  | _ =>
      _ ← modify (set_replaying true);
      _ ← try_catch (mapM_ replay_record (replay_records records loadedSnapshot))
            (λ _, modify (set_database None));
      modify (set_replaying false)
  end.

Definition recoverFromStorage : exec unit :=
  loaded ← try_catch
    (files ← gets ex_files;
     db ← liftM (sm_loadFirstDatabase files);
     _ ← modify (set_database (Some db));
     mret true)
    (λ _, _ ← modify (set_database None); mret false);
  recoverFromWal loaded.
End replay.

(** ** The log of a transaction *)

Definition appendWal (operation : WalOperation) (payload : bytes) : exec unit :=
  replaying ← gets ex_replayingWal;
  if replaying : bool then mret tt
  else
    active ← gets (λ e, transactionActive (ex_session e));
    if active : bool
    then modify (λ e, set_session (pushPendingWal (mkPendingWalRecord operation payload) (ex_session e)) e)
    else wal_write operation payload.

Definition redo_record (tableName : string) (c : PageImageCapture) : PageImageRedoRecord :=
  mkPageImageRedoRecord tableName true (pic_capacity c) (pic_freeList c) (pic_heapPages c) (pic_btreeIndexes c)
    (pic_hashIndexes c).

Definition appendPageImageRedo (tableName : string) : exec unit :=
  capture ← on_table_named tableName takePageImageCapture;
  payload ← liftM (encodePageImageRedo (redo_record tableName capture));
  appendWal Wal_PageImageRedo payload.

(** The loop of [flushPendingWal]: DDL records are written as they come, redo
    records are collected. *)
Fixpoint flush_loop (pending : list PendingWalRecord) (pages : list PageImageRedoRecord)
    (rows : list PhysicalRedoRecord) : exec (list PageImageRedoRecord * list PhysicalRedoRecord) :=
  match pending with
  | [] => mret (pages, rows)
  | r :: pending =>
      match pw_operation r with
      | Wal_PageImageRedo =>
          redos ← liftM (decodePageImageRedos (pw_payload r)); flush_loop pending (pages ++ redos) rows
      | Wal_PhysicalRedo =>
          redos ← liftM (decodePhysicalRedos (pw_payload r)); flush_loop pending pages (rows ++ redos)
      | operation => _ ← wal_write operation (pw_payload r); flush_loop pending pages rows
      end
  end.

Definition flushPendingWal : exec unit :=
  pending ← gets (λ e, ts_pendingWal (ex_session e));
  match pending with
  | [] => mret tt
  | _ =>
      '(pages, rows) ← flush_loop pending [] [];
      _ ← match pages with
          | [] => mret tt
          | _ => payload ← liftM (encodePageImageRedos pages); wal_write Wal_PageImageRedo payload
          end;
      _ ← match rows with
          | [] => mret tt
          | _ => payload ← liftM (encodePhysicalRedos rows); wal_write Wal_PhysicalRedo payload
          end;
      modify (λ e, set_session (clearPendingWal (ex_session e)) e)
  end.

(** ** Transaction statements *)

Definition executeBegin : exec QueryResult :=
  has ← gets (λ e, bool_decide (is_Some (ex_database e)));
  if negb has then mret (messageResult false "no active database") else on_session session_begin.

Definition executeCommit : exec QueryResult :=
  active ← gets (λ e, ts_activeTransaction (ex_session e));
  match active with
  | None => mret (messageResult false "no active transaction")
  | Some id =>
      ok ← gets (λ e, isSerializable (ts_transactionManager (ex_session e)) id);
      if negb ok then
        _ ← undoTransaction;
        _ ← modify (λ e, set_session (clearPendingWal (ex_session e)) e);
        _ ← on_session session_rollback;
        mret (messageResult false "serialization failure")
      else
        _ ← flushPendingWal;
        on_session session_commit
  end.

Definition executeRollback : exec QueryResult :=
  active ← gets (λ e, transactionActive (ex_session e));
  if negb active then mret (messageResult false "no active transaction")
  else
    _ ← undoTransaction;
    on_session session_rollback.
End recovery.

Arguments Executor : clear implicits.
