(* ===== verification/CatalogEngine.v ===== *)
(** * The catalog engine

    [src/execution/catalog_engine.cpp]: CREATE and DROP of databases, tables and
    indexes, RENAME TABLE, ALTER TABLE, ANALYZE, SAVE and LOAD.  A statement that
    changes the catalog records how to undo it when a transaction is active, and
    logs its own SQL text. *)

From S2P Require Import Prelude Value BinaryIO VectorRowStore PageRowStore WriteAheadLog TransactionManager Mvcc.
From S2P Require Import StringPattern HashIndex BTreeIndex RedoCodec IndexExpression Predicate SetOps IndexManager Histogram.
From S2P Require Import Table TableSchema TablePages Database Session ForeignKeys Ast SqlLiteral Recovery.
From stdpp Require Import pretty.
Local Open Scope nat_scope.

Section catalog_engine.
Context {Select F : Type}.
Abbreviation Table := (Table Select PageRowStore).
Abbreviation Database := (Database Select PageRowStore).
Abbreviation UndoRecord := (UndoRecord Select PageRowStore).
Context `{StorageManager F Database}.
Context (int_to_double : Z → Z) (double_add double_sub : Z → Z → Z) (double_chars : Z → chars).
Abbreviation Executor := (Executor Select F).
Abbreviation exec := (M Executor).

(** ** Undo records *)

Definition undo_default (tableName : string) (kind : UndoKind) : UndoRecord := undo_row tableName kind 0 None.

Definition undo_rename (tableName renameTo : string) (kind : UndoKind) (alter : DroppedColumnCapture Select) : UndoRecord :=
  mkUndoRecord tableName kind 0 None EmptyString EmptyString [] None None None renameTo alter.

Definition undo_index (tableName : string) (kind : UndoKind) (d : IndexDefinition) : UndoRecord :=
  mkUndoRecord tableName kind 0 None (id_name d) (id_column d) (id_columns d) (id_expression d) None None EmptyString
    capture_default.

Definition undo_drop_table (tableName : string) (retained : Table) : UndoRecord :=
  mkUndoRecord tableName UK_DropTable 0 None EmptyString EmptyString [] None (Some retained) None EmptyString
    capture_default.

Definition undo_swap (previous : option Database) : UndoRecord :=
  mkUndoRecord EmptyString UK_SwapDatabase 0 None EmptyString EmptyString [] None None previous EmptyString
    capture_default.

(** The capture of an ALTER that only records a column. *)
Definition capture_column (column : Column) : DroppedColumnCapture Select :=
  mkDroppedColumnCapture column 0 [] [] false [] [] [] [].

(** [if (transactionActive()) pushUndo(record)] *)
Definition record_undo (record : UndoRecord) : exec unit :=
  modify (λ e, if transactionActive (ex_session e) then set_session (pushUndo record (ex_session e)) e else e).

Definition log_sql (operation : WalOperation) (sql : chars) : exec unit :=
  appendWal operation (string_bytes (implode sql)).

Definition message (success : bool) (words : list string) : exec QueryResult :=
  mret (messageResult success (String.concat EmptyString words)).

Definition refuse (why : string) : exec QueryResult := mret (messageResult false why).

(** [if (!ctx_.database) return messageResult(false, ...)] *)
Definition with_database (f : Database → exec QueryResult) : exec QueryResult :=
  db ← gets ex_database;
  match db with
  | None => refuse "no active database"
  | Some db => f db
  end.

(** A [catch] of the exceptions that satisfy [p]. *)
Definition catch_if {A} (p : exn → bool) (m : exec A) (h : exn → exec A) : exec A :=
  try_catch m (λ e, if p e then h e else raise e).

Definition is_invalid_argument (e : exn) : bool :=
  match e with invalid_argument _ => true | _ => false end.
Definition is_runtime_error (e : exn) : bool :=
  match e with runtime_error _ | SerializationFailure _ => true | _ => false end.

(** ** Databases *)

Definition executeCreateDatabase (name : string) : exec QueryResult :=
  previous ← gets ex_database;
  _ ← record_undo (undo_swap previous);
  _ ← appendWal Wal_CreateDatabase (string_bytes name);
  db ← liftM (Database_new name);
  _ ← modify (set_database (Some db));
  message true ["created database "; name].

Definition executeDropDatabase (name : string) : exec QueryResult :=
  active ← gets (λ e, transactionActive (ex_session e));
  if active : bool then refuse "DROP DATABASE is not allowed while a transaction is active"
  else
    with_database (λ db,
      if negb (String.eqb (db_name db) name) then refuse "DROP DATABASE must name the active database"
      else
        _ ← appendWal Wal_DropDatabase (string_bytes name);
        _ ← modify (set_database None);
        _ ← on_files (sm_deleteDatabase name);
        message true ["dropped database "; name]).

(** ** Tables *)

Definition executeCreateTable (command : CreateTable Select) : exec QueryResult :=
  with_database (λ db,
    match validateForeignKeyDefinitions db (ct_name command) (ct_columns command) (ct_foreignKeys command)
            (ct_columns command) (ct_uniqueConstraints command) with
    | Throw (invalid_argument what) => refuse what
    | Throw e => raise e
    | Ok _ =>
        store ← liftM makePageRowStore;
        created ← on_database (createTable store (ct_name command) (ct_columns command) (ct_checkConstraints command)
                                 (ct_foreignKeys command) (ct_uniqueConstraints command));
        if created : bool then
          _ ← on_table_named (ct_name command) (ensureConstraintIndexes int_to_double double_add double_sub);
          _ ← record_undo (undo_default (ct_name command) UK_CreateTable);
          sql ← liftM (createTableSql double_chars command);
          _ ← log_sql Wal_CreateTable sql;
          message true ["created table "; ct_name command]
        else refuse "table already exists"
    end).

Definition executeDropTable (name : string) : exec QueryResult :=
  with_database (λ db,
    if tableIsForeignKeyParent (Database_tables db) name
    then refuse "cannot DROP TABLE: still referenced by FOREIGN KEY"
    else
      retained ← on_database (detachTable name);
      match retained with
      | None => refuse "unknown table"
      | Some t =>
          _ ← record_undo (undo_drop_table name t);
          _ ← appendWal Wal_DropTable (text ["DROP TABLE "; name; ";"]);
          message true ["dropped table "; name]
      end).

Definition executeRenameTable (oldName newName : string) : exec QueryResult :=
  with_database (λ db,
    if tableIsForeignKeyParent (Database_tables db) oldName
    then refuse "cannot RENAME TABLE: still referenced by FOREIGN KEY"
    else
      renamed ← on_database (renameTable oldName newName);
      if renamed : bool then
        active ← gets (λ e, transactionActive (ex_session e));
        _ ← (if active : bool then on_session (session_rewriteTableName oldName newName) else mret tt);
        _ ← record_undo (undo_rename oldName newName UK_RenameTable capture_default);
        _ ← appendWal Wal_RenameTable (text ["RENAME TABLE "; oldName; " TO "; newName; ";"]);
        message true ["renamed table "; oldName]
      else refuse "rename failed").

Definition alter_action (command : AlterTable) : exec QueryResult :=
  let name := at_table command in
  match at_action command with
  | AlterAddColumn column defaultValue =>
      _ ← on_table_named name (addColumn column defaultValue);
      _ ← record_undo (undo_rename name EmptyString UK_AlterAddColumn (capture_column column));
      sql ← liftM (alterTableSql double_chars command);
      _ ← log_sql Wal_AlterTable sql;
      message true ["added column "; col_name column]
  | AlterDropColumn column cascade =>
      tables ← gets (λ e, Database_tables <$> ex_database e);
      capture ← on_table_named name (dropColumn int_to_double double_add double_sub column tables cascade);
      _ ← record_undo (undo_rename name EmptyString UK_AlterDropColumn capture);
      sql ← liftM (alterTableSql double_chars command);
      _ ← log_sql Wal_AlterTable sql;
      message true ["dropped column "; column]
  | AlterRenameColumn oldName newName =>
      _ ← on_catalog (renameColumn int_to_double double_add double_sub name oldName newName);
      _ ← record_undo (undo_rename name newName UK_AlterRenameColumn
                         (capture_column (mkColumn oldName CT_Int false false false)));
      sql ← liftM (alterTableSql double_chars command);
      _ ← log_sql Wal_AlterTable sql;
      message true ["renamed column "; oldName; " to "; newName]
  end.

Definition executeAlterTable (command : AlterTable) : exec QueryResult :=
  with_database (λ db,
    match Database_table (at_table command) db with
    | None => refuse "unknown table"
    | Some _ =>
        catch_if (λ e, is_invalid_argument e || is_runtime_error e) (alter_action command)
          (λ e, refuse (exn_what e))
    end).

Definition executeListTables : exec QueryResult :=
  with_database (λ db,
    mret (mkQueryResult true "listed tables" ["table"] ((λ name, [VString name]) <$> listTables db))).

(** ** Indexes *)

Definition executeCreateIndex (command : CreateIndex) : exec QueryResult :=
  _ ← requireTable (ci_table command);
  created ← on_table_named (ci_table command)
    (match ci_expression command with
     | Some e => createIndex_expr int_to_double double_add double_sub (ci_name command) e
     | None => createIndex int_to_double double_add double_sub (ci_name command) (ci_columns command)
     end);
  if created : bool then
    _ ← record_undo (mkUndoRecord (ci_table command) UK_CreateIndex 0 None (ci_name command) EmptyString [] None None
                       None EmptyString capture_default);
    _ ← log_sql Wal_CreateIndex (createIndexSql double_chars command);
    message true ["created index "; ci_name command]
  else refuse "index creation failed".

Definition executeDropIndex (name table : string) : exec QueryResult :=
  _ ← requireTable table;
  definitions ← on_table_named table Table_indexDefinitions;
  match snd <$> list_find (λ d, String.eqb (id_name d) name = true) definitions with
  | None => refuse "unknown index"
  | Some d =>
      if constraint_index_name (id_name d) then message false ["cannot drop constraint index "; id_name d]
      else
        dropped ← on_table_named table (Table_dropIndex name);
        if negb dropped then refuse "index drop failed"
        else
          _ ← record_undo (undo_index table UK_DropIndex d);
          _ ← log_sql Wal_DropIndex (dropIndexSql name table);
          message true ["dropped index "; name]
  end.

Definition executeAnalyze (table : option string) : exec QueryResult :=
  with_database (λ db,
    match table with
    | Some name =>
        _ ← requireTable name;
        _ ← on_table_named name (analyze kDefaultHistogramBuckets);
        message true ["analyzed table "; name]
    | None =>
        _ ← mapM_ (λ name, on_table_named name (analyze kDefaultHistogramBuckets)) (listTables db);
        message true ["analyzed "; pretty (length (Database_tables db)); " table(s)"]
    end).

(** ** SAVE and LOAD *)

Definition wal_clear : exec unit := modify (λ e, set_wal (wal_reset (ex_wal e)) e).

Definition save_files (implicitCommit : bool) : exec QueryResult :=
  with_database (λ db,
    _ ← appendWal Wal_SaveDatabase (string_bytes (db_name db));
    _ ← on_files (sm_saveDatabase db);
    _ ← wal_clear;
    message true [if implicitCommit then "committed and saved database " else "saved database "; db_name db]).

Definition executeSaveDatabase : exec QueryResult :=
  with_database (λ _,
    active ← gets (λ e, ts_activeTransaction (ex_session e));
    match active with
    | None => save_files false
    | Some id =>
        ok ← gets (λ e, isSerializable (ts_transactionManager (ex_session e)) id);
        if negb ok then
          _ ← undoTransaction int_to_double double_add double_sub double_chars;
          _ ← modify (λ e, set_session (clearPendingWal (ex_session e)) e);
          _ ← on_session session_rollback;
          refuse "serialization failure"
        else
          _ ← flushPendingWal;
          committed ← on_session session_commit;
          if qr_success committed then save_files true else mret committed
    end).

Definition load_files (name : option string) : exec Database :=
  files ← gets ex_files;
  current ← gets ex_database;
  liftM (match name, current with
         | Some name, _ => sm_loadDatabase name files
         | None, Some db => sm_loadDatabase (db_name db) files
         | None, None => sm_loadFirstDatabase files
         end).

Definition load_named (implicitRollback : bool) (name : option string) : exec QueryResult :=
  db ← load_files name;
  _ ← modify (λ e, set_session (session_reset (ex_session e)) (set_database (Some db) e));
  message true [if implicitRollback then "rolled back and loaded database " else "loaded database "; db_name db].

Definition executeLoadDatabase (name : option string) : exec QueryResult :=
  active ← gets (λ e, transactionActive (ex_session e));
  if active : bool then
    _ ← undoTransaction int_to_double double_add double_sub double_chars;
    rolled ← on_session session_rollback;
    if qr_success rolled then load_named true name else mret rolled
  else load_named false name.
End catalog_engine.
