(* ===== verification/DmlEngine.v ===== *)
(** * The DML engine

    [src/execution/dml_engine.cpp]: INSERT, and what UPDATE and DELETE do with the
    rows their scan has found ([targets]): constraint and foreign-key tests,
    referential actions, the row operation itself, the undo record and the redo
    record of every changed row.

    The recursion of a cascade is bounded by the depth limit of the code, which is
    the fuel: [kMaxReferentialActionDepth] levels below the statement's row. *)

From stdpp Require Import pretty.
From S2P Require Import Prelude Value BinaryIO VectorRowStore PageRowStore WriteAheadLog TransactionManager Mvcc.
From S2P Require Import StringPattern HashIndex BTreeIndex RedoCodec IndexExpression Predicate SetOps IndexManager Histogram.
From S2P Require Import Table TableSchema TablePages Database Session ForeignKeys Recovery.
Local Open Scope nat_scope.

Section dml.
Context {Select F : Type}.
Context (int_to_double : Z → Z) (double_add double_sub : Z → Z → Z) (double_chars : Z → chars).
Abbreviation Table := (Table Select PageRowStore).
Abbreviation Executor := (Executor Select F).
Abbreviation exec := (M Executor).

(** ** Helpers *)

Definition on_transactions {A} (m : M TransactionManager A) : exec A := λ e,
  let '(r, tm) := m (ts_transactionManager (ex_session e)) in
  (r, set_session (set_tm tm (ex_session e)) e).

(** A computation that reads the database and the table named [name]. *)
Definition with_table {A} (name : string) (f : Database Select PageRowStore → Table → exec A) : exec A := λ e,
  match ex_database e with
  | None => (Throw (logic_error "null database dereferenced"), e)
  | Some db =>
      match Database_table name db with
      | None => (Throw (logic_error "null table dereferenced"), e)
      | Some t => f db t e
      end
  end.

Definition current_snapshot : exec ReadSnapshot := gets (λ e, readSnapshot (ex_session e)).

(** [validateRow], [assertUniqueRow] and [assertForeignKeysOnChildRow]. *)
Definition assert_row (name : string) (row : Row) (excludeRowId : option RowId) (snapshot : ReadSnapshot) : exec unit :=
  _ ← with_table name (λ _ t, liftM (validateRow double_chars t row));
  _ ← on_table_named name (assertUniqueRow double_chars row excludeRowId);
  with_table name (λ db t, on_transactions (assertForeignKeysOnChildRow db t row snapshot)).

(** [if (transactionActive()) pushUndo(record)] *)
Definition push_undo (record : UndoRecord Select PageRowStore) : exec unit :=
  modify (λ e, if transactionActive (ex_session e) then set_session (pushUndo record (ex_session e)) e else e).

Definition visit_key (tableName : string) (rowId : RowId) : string := tableName +:+ "#" +:+ pretty rowId.

(** ** INSERT *)

Fixpoint batch_conflict (t : Table) (row : Row) (earlier : list Row) : result unit :=
  match earlier with
  | [] => Ok tt
  | other :: earlier =>
      c ← rowsConflictOnUnique t row other;
      _ ← throw_if c (invalid_argument "unique constraint violation on batch insert");
      batch_conflict t row earlier
  end.

(** The tests before any row is inserted; [earlier] are the rows before the rest. *)
Fixpoint check_batch (name : string) (snapshot : ReadSnapshot) (earlier rows : list Row) : exec unit :=
  match rows with
  | [] => mret tt
  | row :: rows =>
      _ ← assert_row name row None snapshot;
      _ ← with_table name (λ _ t, liftM (batch_conflict t row earlier));
      check_batch name snapshot (earlier ++ [row]) rows
  end.

Definition insert_row (name : string) (writerId : TransactionId) (row : Row) : exec unit :=
  _ ← on_table_named name clearDirtyTracking;
  rowId ← on_table_named name (Table_insert int_to_double double_add double_sub double_chars row writerId);
  _ ← push_undo (undo_row name UK_Insert rowId None);
  appendPageImageRedo name.

Definition executeInsert (name : string) (rows : list Row) : exec QueryResult :=
  _ ← requireTable name;
  snapshot ← current_snapshot;
  _ ← check_batch name snapshot [] rows;
  writerId ← on_session writeTransactionId;
  _ ← mapM_ (insert_row name writerId) rows;
  mret (messageResult true ("inserted " +:+ pretty (length rows) +:+ " row(s)")).

(** ** Referential actions *)

(** The child row with NULL in every column of the foreign key, and the columns. *)
Fixpoint null_columns (t : Table) (columns : list string) (row : Row) : result (Row * list nat) :=
  match columns with
  | [] => Ok (row, [])
  | column :: columns =>
      match columnIndex t column with
      | None => Throw (invalid_argument (String.append "FOREIGN KEY child column not found: " column))
      | Some i =>
          _ ← row_at row i;
          '(row, rest) ← null_columns t columns (<[i := VNull]> row);
          Ok (row, i :: rest)
      end
  end.

(** The loop of updates of one child row; the result tells whether one changed it. *)
Fixpoint update_columns (name : string) (rowId : RowId) (indexes : list nat) (updated : Row) (writerId : TransactionId)
  : exec bool :=
  match indexes with
  | [] => mret false
  | i :: indexes =>
      _ ← on_table_named name clearDirtyTracking;
      value ← liftM (row_at updated i);
      changed ← on_table_named name (Table_update int_to_double double_add double_sub double_chars rowId i value writerId);
      rest ← update_columns name rowId indexes updated writerId;
      mret (changed || rest)
  end.

(** The end of both actions on a child row: tests, updates, undo and redo. *)
Definition change_child (hit : ForeignKeyChildHit) (updated : Row) (indexes : list nat) (snapshot : ReadSnapshot)
    (writerId : TransactionId) : exec unit :=
  let name := fch_tableName hit in
  _ ← assert_row name updated (Some (fch_rowId hit)) snapshot;
  changed ← update_columns name (fch_rowId hit) indexes updated writerId;
  if negb changed then mret tt
  else
    _ ← push_undo (undo_row name UK_Update (fch_rowId hit) (Some (fch_row hit)));
    appendPageImageRedo name.

Definition set_null_child (snapshot : ReadSnapshot) (writerId : TransactionId) (hit : ForeignKeyChildHit) : exec unit :=
  '(updated, indexes) ← with_table (fch_tableName hit) (λ _ t,
      liftM (null_columns t (fk_childColumns (fch_fk hit)) (fch_row hit)));
  change_child hit updated indexes snapshot writerId.

(** The position of the updated column in the parent key. *)
Fixpoint position_of (name : string) (columns : list string) : option nat :=
  match columns with
  | [] => None
  | column :: columns => if String.eqb column name then Some 0 else Datatypes.S <$> position_of name columns
  end.

Definition cascade_child (replacement : Value) (parentColumn : string) (snapshot : ReadSnapshot) (writerId : TransactionId)
    (hit : ForeignKeyChildHit) : exec unit :=
  match position_of parentColumn (fk_parentColumns (fch_fk hit)) with
  | None => mret tt
  | Some mapped =>
      match fk_childColumns (fch_fk hit) !! mapped with
      | None => raise (out_of_range "vector index out of range")
      | Some column =>
          index ← with_table (fch_tableName hit) (λ _ t, mret (columnIndex t column));
          match index with
          | None => raise (invalid_argument (String.append "FOREIGN KEY child column not found: " column))
          | Some i =>
              _ ← liftM (row_at (fch_row hit) i);
              change_child hit (<[i := replacement]> (fch_row hit)) [i] snapshot writerId
          end
      end
  end.

Definition same_action (a b : ForeignKeyAction) : bool :=
  match a, b with
  | FK_NoAction, FK_NoAction | FK_Cascade, FK_Cascade | FK_SetNull, FK_SetNull => true
  | _, _ => false
  end.

Definition applyChildFkUpdates (refs : list ForeignKeyChildHit) (wanted : ForeignKeyAction) (replacement : Value)
    (parentColumn : string) : exec unit :=
  snapshot ← current_snapshot;
  writerId ← on_session writeTransactionId;
  mapM_ (λ hit,
    if negb (same_action (fk_onUpdate (fch_fk hit)) wanted) then mret tt
    else match wanted with
         | FK_SetNull => set_null_child snapshot writerId hit
         | _ => cascade_child replacement parentColumn snapshot writerId hit
         end) refs.

(** ** DELETE *)

Abbreviation keys := (gset string).

(** A loop that threads the two sets of visited rows. *)
Fixpoint iterate {A} (f : A → keys * keys → exec (keys * keys)) (l : list A) (sets : keys * keys) : exec (keys * keys) :=
  match l with
  | [] => mret sets
  | a :: l => sets ← f a sets; iterate f l sets
  end.

Definition erase_row (name : string) (rowId : RowId) (row : Row) (writerId : TransactionId) : exec bool :=
  _ ← on_table_named name clearDirtyTracking;
  erased ← on_table_named name (Table_erase int_to_double double_add double_sub rowId writerId);
  if negb erased then mret false
  else
    _ ← push_undo (undo_row name UK_Delete rowId (Some row));
    _ ← appendPageImageRedo name;
    mret true.

(** [sets] are the rows being deleted and the rows deleted. *)
Fixpoint eraseRowWithReferentialActions (fuel : nat) (name : string) (rowId : RowId) (row : Row) (sets : keys * keys)
  : exec (keys * keys) :=
  match fuel with
  | O => raise (invalid_argument "FOREIGN KEY CASCADE depth exceeded")
  | Datatypes.S fuel =>
      let '(visiting, deleted) := sets in
      let visitKey := visit_key name rowId in
      if bool_decide (visitKey ∈ deleted) || bool_decide (visitKey ∈ visiting) then mret sets
      else
        snapshot ← current_snapshot;
        writerId ← on_session writeTransactionId;
        refs ← with_table name (λ db t,
                 on_transactions (collectReferencingChildren db t row snapshot None None));
        _ ← liftM (assertNoActionParentKeyNotReferenced refs false);
        sets ← iterate (λ hit sets,
                 if negb (same_action (fk_onDelete (fch_fk hit)) FK_Cascade) then mret sets
                 else eraseRowWithReferentialActions fuel (fch_tableName hit) (fch_rowId hit) (fch_row hit) sets)
                 refs ({[visitKey]} ∪ visiting, deleted);
        _ ← mapM_ (λ hit,
              if negb (same_action (fk_onDelete (fch_fk hit)) FK_SetNull) then mret tt
              else if bool_decide (visit_key (fch_tableName hit) (fch_rowId hit) ∈ sets.2) then mret tt
              else set_null_child snapshot writerId hit) refs;
        erased ← (if bool_decide (visitKey ∈ sets.2) then mret false else erase_row name rowId row writerId);
        mret (sets.1 ∖ {[visitKey]}, if erased : bool then {[visitKey]} ∪ sets.2 else sets.2)
  end.

Fixpoint delete_targets (name : string) (targets : list (RowId * Row)) (sets : keys * keys) (count : nat) : exec nat :=
  match targets with
  | [] => mret count
  | (rowId, row) :: targets =>
      let visitKey := visit_key name rowId in
      if bool_decide (visitKey ∈ sets.2) then delete_targets name targets sets count
      else
        sets ← eraseRowWithReferentialActions kMaxReferentialActionDepth name rowId row sets;
        delete_targets name targets sets (if bool_decide (visitKey ∈ sets.2) then count + 1 else count)
  end.

Definition executeDelete_rows (name : string) (targets : list (RowId * Row)) : exec QueryResult :=
  count ← delete_targets name targets (∅, ∅) 0;
  mret (messageResult true ("deleted " +:+ pretty count +:+ " row(s)")).

(** ** UPDATE *)

(** The row operation of UPDATE with its undo and redo records. *)
Definition update_row (name : string) (rowId : RowId) (row : Row) (target : nat) (value : Value) (writerId : TransactionId)
  : exec bool :=
  _ ← on_table_named name clearDirtyTracking;
  updated ← on_table_named name (Table_update int_to_double double_add double_sub double_chars rowId target value writerId);
  if negb updated then mret false
  else
    _ ← push_undo (undo_row name UK_Update rowId (Some row));
    _ ← appendPageImageRedo name;
    mret true.

Definition update_target (name column : string) (target : nat) (value : Value) (writerId : TransactionId)
    (snapshot : ReadSnapshot) (rowId : RowId) (row : Row) : exec bool :=
  _ ← liftM (row_at row target);
  _ ← assert_row name (<[target := value]> row) (Some rowId) snapshot;
  refs ← with_table name (λ db t,
           on_transactions (collectReferencingChildren db t row snapshot (Some target) (Some value)));
  _ ← liftM (assertNoActionParentKeyNotReferenced refs true);
  _ ← applyChildFkUpdates refs FK_SetNull VNull column;
  updated ← update_row name rowId row target value writerId;
  _ ← applyChildFkUpdates refs FK_Cascade value column;
  mret updated.

Fixpoint update_targets (name column : string) (target : nat) (value : Value) (writerId : TransactionId)
    (snapshot : ReadSnapshot) (targets : list (RowId * Row)) (count : nat) : exec nat :=
  match targets with
  | [] => mret count
  | (rowId, row) :: targets =>
      updated ← update_target name column target value writerId snapshot rowId row;
      update_targets name column target value writerId snapshot targets (if updated : bool then count + 1 else count)
  end.

(** UPDATE of column [column], at position [target]. *)
Definition executeUpdate_rows (name column : string) (target : nat) (value : Value) (targets : list (RowId * Row))
  : exec QueryResult :=
  writerId ← on_session writeTransactionId;
  snapshot ← current_snapshot;
  count ← update_targets name column target value writerId snapshot targets 0;
  mret (messageResult true ("updated " +:+ pretty count +:+ " row(s)")).
End dml.
