(* ===== verification/SelectExecutor.v ===== *)
(** * EXPLAIN, and SELECT in the executor

    [SelectEngine::explain] of [src/execution/select_engine.cpp], and the calls of the
    select engine by [QueryExecutor] and [DmlEngine]: the snapshot, the transaction
    manager and the database are those of the executor.

    [cost_text] and [time_text] print a [double] to a stream; [elapsed] is the time
    that EXPLAIN ANALYZE measured. *)

From S2P Require Import Prelude Value Float64 VectorRowStore BufferPool PageRowStore StringPattern TransactionManager Mvcc IndexExpression.
From S2P Require Import Predicate SetOps Histogram Selectivity IndexManager Table Database Session ForeignKeys Ast Planner JoinPlanner SelectScan.
From S2P Require Import JoinEngine SelectResult RecursiveCte Rewriter SelectScope SelectEngine WriteAheadLog Recovery CatalogEngine DmlEngine.
Local Open Scope nat_scope.

Section explain.
Context {S : Type} `{RowStore S}.
Context (matchRegexPattern : string → string → bool).
Context (int_to_double : Z → Z) (double_add double_sub double_div : Z → Z → Z) (double_chars : Z → chars) (llround_out : double → Z).
Context (newStore : S) (limits : RecursiveCteLimits) (snap : ReadSnapshot) (database : option (Database Select S)).
Context (cost_text time_text : double → string) (elapsed : double).
Abbreviation Table := (Table Select S).
Abbreviation scan := (M TransactionManager).
Abbreviation runtime := (runtime matchRegexPattern int_to_double double_add double_sub double_div double_chars llround_out
  newStore limits snap database).
Abbreviation execute_select := (execute_select matchRegexPattern int_to_double double_add double_sub double_div double_chars llround_out
  newStore limits snap database).

Definition plan_result (rows : list Row) : QueryResult := mkQueryResult true "explain" ["plan"] rows.
Definition plan_line (text : string) : Row := [VString text].

(** The plans of the joins, planned against the estimated rows of those before. *)
Fixpoint join_plans (first : bool) (leftTable : Table) (leftRows : nat) (joins : list JoinClause) (temps : list (string * Table))
  : result (list JoinPlan) :=
  match joins with
  | [] => Ok []
  | join :: joins =>
      right ← select_requireTable database (jc_table join) temps;
      plan ← (if first then planJoin leftTable right join else planJoinAgainstRows leftRows right join);
      rest ← join_plans false leftTable (jp_estimatedRows plan) joins temps;
      Ok (plan :: rest)
  end.

(** The number of rows that aggregation leaves of the collected rows. *)
Definition aggregated_count (command : Select) (columns : list string) (rows : list Row) : result nat :=
  if aggregating command then r ← aggregateRows int_to_double double_add double_div command columns rows; Ok (length (qr_rows r))
  else Ok (length rows).

Definition set_last (l : list nat) (n : nat) : list nat := match l with [] => [] | _ => take (length l - 1) l ++ [n] end.

Definition join_lines (analyze : bool) (plans : list JoinPlan) (joinActualRows : list nat) (actualRows : nat) : list Row :=
  imap (λ i plan,
    let text := formatJoinPlanExplanation cost_text plan in
    plan_line (if analyze
               then appendExplainAnalyzeActuals time_text text (default actualRows (joinActualRows !! i)) None
                      (if Nat.eqb i 0 then Some elapsed else None)
               else text)) plans.

Definition explain_joins (analyze : bool) (prepared : Select) (rewrite : RewriteResult) (temps : list (string * Table))
  : scan (list Row) :=
  left ← liftM (select_requireTable database (sel_table prepared) temps);
  plans ← liftM (join_plans true left (rs_size (t_rowStore left)) (sel_joins prepared) temps);
  '(joinActualRows, actualRows) ←
    (if analyze : bool then
       '(columns, rows, counts) ← collectJoinRows matchRegexPattern int_to_double double_add double_sub snap database prepared temps;
       n ← liftM (aggregated_count prepared columns rows);
       mret (if aggregating prepared then set_last counts n else counts, n)
     else mret ([], 0));
  mret (join_lines analyze plans joinActualRows actualRows ++ (plan_line <$> rw_notes rewrite)).

Definition explain_scan (rt : Runtime (S:=S)) (analyze : bool) (prepared : Select) (rewrite : RewriteResult) (temps : list (string * Table))
  : scan (list Row) :=
  t ← liftM (select_requireTable database (sel_table prepared) temps);
  plan ← liftM (planPreparedSelect double_chars llround_out prepared t rewrite);
  let text := formatPlanExplanation cost_text plan in
  if analyze then
    '(entries, candidates) ← collect_entries matchRegexPattern int_to_double double_add double_sub snap rt prepared t plan;
    n ← liftM (aggregated_count prepared (source_columns t) entries.*2);
    mret [plan_line (appendExplainAnalyzeActuals time_text text n candidates (Some elapsed))]
  else mret [plan_line text].

Definition explain_plain (fuel : nat) (analyze : bool) (query : Select) : scan QueryResult :=
  let rt := runtime fuel in
  '(prepared, rewrite) ← prepareSelect rt query;
  temps ← materializeCteList int_to_double double_add double_sub double_chars newStore limits rt (rw_materialize rewrite) [];
  rows ← (match sel_joins prepared with
          | _ :: _ => explain_joins analyze prepared rewrite temps
          | [] => explain_scan rt analyze prepared rewrite temps
          end);
  mret (plan_result (rows ++ if aggregating prepared then [plan_line "aggregation"] else [])).

Fixpoint explain_arms (explain : Select → scan QueryResult) (query : Select) (arms : list (SetOpArm Select)) : scan (list Row) :=
  match arms with
  | [] => mret []
  | arm :: arms =>
      rows ← (match arm_select arm with
              | None => mret []
              | Some s => r ← explain (arm_query query s); mret (qr_rows r)
              end);
      rest ← explain_arms explain query arms;
      mret (plan_line (setOpKindName (arm_op arm)) :: rows ++ rest)
  end.

Fixpoint explain_select (fuel : nat) (analyze : bool) (query : Select) : scan QueryResult :=
  match fuel with
  | O => raise out_of_fuel
  | Datatypes.S fuel =>
      match sel_setOps query with
      | [] => explain_plain fuel analyze query
      | arms =>
          l ← explain_select fuel false (stripSetOpsAndOrderLimit query);
          rows ← explain_arms (explain_select fuel false) query arms;
          let plans := plan_line "set operation left arm" :: qr_rows l ++ rows in
          if analyze then
            executed ← execute_select fuel query;
            mret (plan_result (plan_line (appendExplainAnalyzeActuals time_text "set operation result" (length (qr_rows executed)) None
                                            (Some elapsed)) :: plans))
          else mret (plan_result plans)
      end
  end.

Definition explain_mutation (prefix table : string) (condition : option Pred) (analyze : bool) : scan QueryResult :=
  if analyze then raise (runtime_error "EXPLAIN ANALYZE does not support UPDATE/DELETE")
  else
    t ← liftM (select_requireTable database table []);
    plan ← liftM (planSelect_table double_chars llround_out (mutationScanSelect table condition) t);
    mret (plan_result [plan_line (prefix +:+ formatPlanExplanation cost_text plan)]).

Definition explain_query (fuel : nat) (q : Explained) (analyze : bool) : scan QueryResult :=
  match q with
  | Explain_Insert table rows =>
      if analyze then raise (runtime_error "EXPLAIN ANALYZE does not support INSERT")
      else
        _ ← liftM (select_requireTable database table []);
        mret (plan_result [plan_line ("insert: " +:+ count_text (length rows) +:+ " row(s) into " +:+ table)])
  | Explain_Update u => explain_mutation "update: " (up_table u) (up_where u) analyze
  | Explain_Delete table condition => explain_mutation "delete: " table condition analyze
  | Explain_Select query => explain_select fuel analyze query
  end.
End explain.

(** ** In the executor *)

Section executor.
Context {F : Type}.
Context (matchRegexPattern : string → string → bool).
Context (int_to_double : Z → Z) (double_add double_sub double_div : Z → Z → Z) (double_chars : Z → chars) (llround_out : double → Z).
Context (newStore : PageRowStore) (limits : RecursiveCteLimits).
Context (cost_text time_text : double → string) (elapsed : double) (fuel : nat).
Abbreviation Executor := (Executor Select F).

(** A computation of the select engine on the state of the executor. *)
Definition on_select {A} (m : ReadSnapshot → option (Database Select PageRowStore) → M TransactionManager A) : M Executor A := λ e,
  on_transactions (m (readSnapshot (ex_session e)) (ex_database e)) e.

Definition engine_select (s : Select) : M Executor QueryResult :=
  on_select (λ snap database, execute_select matchRegexPattern int_to_double double_add double_sub double_div double_chars llround_out
    newStore limits snap database fuel s).
Definition engine_explain (q : Explained) (analyze : bool) : M Executor QueryResult :=
  on_select (λ snap database, explain_query matchRegexPattern int_to_double double_add double_sub double_div double_chars llround_out
    newStore limits snap database cost_text time_text elapsed fuel q analyze).
Definition engine_targets (table : string) (condition : option Pred) : M Executor (list (RowId * Row)) :=
  on_select (λ snap database, mutation_targets matchRegexPattern int_to_double double_add double_sub double_div double_chars llround_out
    newStore limits snap database fuel table condition).
End executor.
