(* ===== verification/QueryExecutor.v ===== *)
(** * The query executor

    [src/execution/query_executor.cpp], and the UPDATE and DELETE statements of
    [src/execution/dml_engine.cpp]: statements are dispatched to the engines,
    prepared statements are stored and executed, COMMIT has the two points at which
    a test can make it crash.

    The SELECT engine and the scan that finds the rows of UPDATE and DELETE are
    parameters.  The lock that a statement holds while it runs is not modelled. *)

From S2P Require Import Prelude Value BinaryIO VectorRowStore PageRowStore WriteAheadLog TransactionManager Mvcc.
From S2P Require Import StringPattern HashIndex BTreeIndex RedoCodec IndexExpression Predicate SetOps IndexManager Histogram.
From S2P Require Import Table TableSchema TablePages Database Session ForeignKeys Ast Tokenizer RecursiveCte Parser Prepared.
From S2P Require Import SqlLiteral Recovery CatalogEngine DmlEngine.
Local Open Scope nat_scope.

Inductive CrashInjectionPoint : Type := CI_None | CI_BeforeWalSync | CI_AfterWalSyncBeforeCommitMark.

#[export] Instance CrashInjectionPoint_eq_dec : EqDecision CrashInjectionPoint.
Proof. solve_decision. Defined.

Definition CrashInjected (point : CrashInjectionPoint) : exn :=
  runtime_error (if bool_decide (point = CI_BeforeWalSync) then "crash injected before WAL sync"
                 else "crash injected after WAL sync before commit mark").

Section query_executor.
Context {F : Type}.
Abbreviation Database := (Database Select PageRowStore).
Abbreviation Executor := (Executor Select F).
Context `{StorageManager F Database}.
Context (int_to_double : Z → Z) (double_add double_sub : Z → Z → Z) (double_chars : Z → chars).
Context (stod : chars → option Z).
Context (select : Select → M Executor QueryResult) (explain : Explained → bool → M Executor QueryResult).
Context (scan_targets : string → option Pred → M Executor (list (RowId * Row))).

(** ** UPDATE and DELETE *)

Definition executeUpdate (u : Update Select) : M Executor QueryResult :=
  _ ← requireTable (up_table u);
  target ← with_table (up_table u) (λ _ t, mret (columnIndex t (up_column u)));
  match target with
  | None => raise (runtime_error "unknown update column")
  | Some target =>
      targets ← scan_targets (up_table u) (up_where u);
      executeUpdate_rows int_to_double double_add double_sub double_chars (up_table u) (up_column u) target (up_value u) targets
  end.

Definition executeDelete (table : string) (condition : option Pred) : M Executor QueryResult :=
  _ ← requireTable table;
  targets ← scan_targets table condition;
  executeDelete_rows int_to_double double_add double_sub double_chars table targets.

(** ** State *)

Record QueryExecutor : Type := mkQueryExecutor {
  qe_engine : Executor;
  qe_prepared : PreparedStatementCatalog;
  qe_crashInjection : CrashInjectionPoint
}.

Abbreviation query := (M QueryExecutor).

Definition on_engine {A} (m : M Executor A) : query A := λ s,
  let '(r, e) := m (qe_engine s) in (r, mkQueryExecutor e (qe_prepared s) (qe_crashInjection s)).

Definition set_prepared (f : PreparedStatementCatalog → PreparedStatementCatalog) (s : QueryExecutor) : QueryExecutor :=
  mkQueryExecutor (qe_engine s) (f (qe_prepared s)) (qe_crashInjection s).

Definition armCrashInjection (point : CrashInjectionPoint) (s : QueryExecutor) : QueryExecutor :=
  mkQueryExecutor (qe_engine s) (qe_prepared s) point.

(** ** COMMIT *)

Definition fireCrashInjection {A} (point : CrashInjectionPoint) : query A :=
  _ ← modify (armCrashInjection CI_None);
  raise (CrashInjected point).

(** [if (crashInjection_ == point) fireCrashInjection(point)] *)
Definition crash_point (point : CrashInjectionPoint) : query unit :=
  armed ← gets qe_crashInjection;
  if bool_decide (armed = point) then fireCrashInjection point else mret tt.

Definition commit_statement : query QueryResult :=
  active ← on_engine (gets (λ e, ts_activeTransaction (ex_session e)));
  match active with
  | None => mret (messageResult false "no active transaction")
  | Some id =>
      ok ← on_engine (gets (λ e, isSerializable (ts_transactionManager (ex_session e)) id));
      if negb ok then
        _ ← on_engine (undoTransaction int_to_double double_add double_sub double_chars);
        _ ← on_engine (modify (λ e, set_session (clearPendingWal (ex_session e)) e));
        _ ← on_engine (on_session session_rollback);
        mret (messageResult false "serialization failure")
      else
        _ ← crash_point CI_BeforeWalSync;
        _ ← on_engine flushPendingWal;
        _ ← crash_point CI_AfterWalSyncBeforeCommitMark;
        on_engine (on_session session_commit)
  end.

(** ** Statements *)

Definition executePrepare (name sql : string) : query QueryResult :=
  ast ← liftM (Parser_parse stod (explode sql) parser_new).1;
  _ ← modify (set_prepared (prepared_store name ast));
  mret (messageResult true ("prepared statement " +:+ name)).

Definition executeUnlocked (q : Query) : query QueryResult :=
  match q with
  | Q_CreateDatabase name => on_engine (executeCreateDatabase name)
  | Q_DropDatabase name => on_engine (executeDropDatabase name)
  | Q_CreateTable c => on_engine (executeCreateTable int_to_double double_add double_sub double_chars c)
  | Q_DropTable name => on_engine (executeDropTable name)
  | Q_RenameTable oldName newName => on_engine (executeRenameTable oldName newName)
  | Q_AlterTable c => on_engine (executeAlterTable int_to_double double_add double_sub double_chars c)
  | Q_ListTables => on_engine executeListTables
  | Q_Insert table rows => on_engine (executeInsert int_to_double double_add double_sub double_chars table rows)
  | Q_Select s => on_engine (select s)
  | Q_ExplainQuery q analyze => on_engine (explain q analyze)
  | Q_Update u => on_engine (executeUpdate u)
  | Q_Delete table condition => on_engine (executeDelete table condition)
  | Q_CreateIndex c => on_engine (executeCreateIndex int_to_double double_add double_sub double_chars c)
  | Q_DropIndex name table => on_engine (executeDropIndex name table)
  | Q_Analyze table => on_engine (executeAnalyze table)
  | Q_SaveDatabase => on_engine (executeSaveDatabase int_to_double double_add double_sub double_chars)
  | Q_LoadDatabase name => on_engine (executeLoadDatabase int_to_double double_add double_sub double_chars name)
  | Q_BeginTransaction => on_engine executeBegin
  | Q_CommitTransaction => commit_statement
  | Q_RollbackTransaction => on_engine (executeRollback int_to_double double_add double_sub double_chars)
  | Q_PrepareStatement name sql => executePrepare name sql
  | Q_ExecutePrepared _ _ => raise (runtime_error "prepared execution must not be dispatched while locked")
  | Q_Exit => mret (messageResult true "exit")
  end.

(** A stored EXECUTE is executed in turn, on fuel. *)
Definition execute_fuel_spent : exn := logic_error "out of fuel".

Definition executePrepared (run : Query → query QueryResult) (name : string) (parameters : list Value) : query QueryResult :=
  stored ← gets (λ s, prepared_find name (qe_prepared s));
  match stored with
  | None => raise (runtime_error "unknown prepared statement")
  | Some stored => bound ← liftM (bindQueryParameters parameters stored); run bound
  end.

Fixpoint execute (fuel : nat) (q : Query) : query QueryResult :=
  match q with
  | Q_ExecutePrepared name parameters =>
      match fuel with
      | O => raise execute_fuel_spent
      | S fuel => executePrepared (execute fuel) name parameters
      end
  | q => executeUnlocked q
  end.

(** ** Start *)

(** How recovery runs a logged statement. *)
Definition replay_statement (payload : bytes) : M Executor unit := λ e,
  match (Parser_parse stod (explode (bytes_string payload)) parser_new).1 with
  | Throw x => (Throw x, e)
  | Ok q =>
      let '(r, s) := executeUnlocked q (mkQueryExecutor e ∅ CI_None) in
      (match r with Ok _ => Ok tt | Throw x => Throw x end, qe_engine s)
  end.

(** The constructor, on the log and the files it finds. *)
Definition QueryExecutor_open (e : Executor) : result unit * QueryExecutor :=
  let '(r, e) := recoverFromStorage int_to_double double_add double_sub double_chars replay_statement e in
  (r, mkQueryExecutor e ∅ CI_None).
End query_executor.

Arguments QueryExecutor : clear implicits.
