(* ===== verification/ExecutorProof.v ===== *)
(** * Properties of the query executor

    What PREPARE and EXECUTE do, when EXECUTE does not return, and what the two
    crash points of COMMIT leave behind. *)

From S2P Require Import Prelude Value BinaryIO VectorRowStore PageRowStore WriteAheadLog TransactionManager Mvcc.
From S2P Require Import StringPattern HashIndex BTreeIndex RedoCodec IndexExpression Predicate SetOps IndexManager Histogram.
From S2P Require Import Table TableSchema TablePages Database Session ForeignKeys Ast Tokenizer RecursiveCte Parser ParserWords Prepared.
From S2P Require Import SqlLiteral StatementText DdlText Recovery CatalogEngine DmlEngine QueryExecutor.
Local Open Scope nat_scope.

Section executor.
Context {F : Type}.
Abbreviation Database := (Database Select PageRowStore).
Abbreviation Executor := (Executor Select F).
Context `{StorageManager F Database}.
Context (i2d : Z → Z) (dadd dsub : Z → Z → Z) (dchars : Z → chars) (stod : chars → option Z).
Context (select : Select → M Executor QueryResult) (explain : Explained → bool → M Executor QueryResult).
Context (scan_targets : string → option Pred → M Executor (list (RowId * Row))).
Abbreviation execute := (execute i2d dadd dsub dchars stod select explain scan_targets).
Abbreviation commit_statement := (commit_statement i2d dadd dsub dchars).
Abbreviation executeCommit := (executeCommit i2d dadd dsub dchars).
Implicit Types s : QueryExecutor F.

(** ** Prepared statements *)

Lemma execute_prepare fuel name sql q s : (Parser_parse stod (explode sql) parser_new).1 = Ok q →
  execute fuel (Q_PrepareStatement name sql) s =
    (Ok (messageResult true ("prepared statement " +:+ name)), set_prepared (prepared_store name q) s).
Proof. intros E. destruct fuel; simpl; unfold executePrepare, mbind, M_bind, liftM; by rewrite E. Qed.

(** C22: EXECUTE runs the prepared statement with its parameters replaced.  After
    PREPARE of a text that parses as [q], EXECUTE with a value for every parameter of
    [q] does exactly what the statement with the values in it does, on the state at
    that time; with a wrong number of values it throws and changes nothing. *)
Theorem prepared_execution fuel name sql q parameters s :
  (Parser_parse stod (explode sql) parser_new).1 = Ok q →
  ∃ s1, execute fuel (Q_PrepareStatement name sql) s = (Ok (messageResult true ("prepared statement " +:+ name)), s1) ∧
    qe_engine s1 = qe_engine s ∧
    ∀ s2, qe_prepared s2 !! name = qe_prepared s1 !! name →
      execute (S fuel) (Q_ExecutePrepared name parameters) s2 =
        if forallb (λ i, Nat.ltb i (length parameters)) (query_slots q) then
          if forallb (λ i, bool_decide (i ∈ query_slots q)) (seq 0 (length parameters))
          then execute fuel (fill_query parameters q) s2
          else (Throw (runtime_error "too many prepared statement parameters"), s2)
        else (Throw (runtime_error "not enough prepared statement parameters"), s2).
Proof.
  intros E. exists (set_prepared (prepared_store name q) s). split; [by apply execute_prepare|]. split; [done|].
  intros s2 E2. unfold set_prepared, prepared_store in E2. simpl in E2. rewrite lookup_insert_eq in E2.
  simpl. unfold executePrepared, mbind, M_bind, gets, prepared_find. rewrite E2. unfold liftM. rewrite bind_query_exact.
  destruct (forallb _ (query_slots q)); [|done]. by destruct (forallb _ (seq 0 _)).
Qed.

(** The text of an EXECUTE statement without parameters. *)
Definition execute_text (name : string) : chars := explode "EXECUTE " ++ explode name ++ explode ";".

Lemma execute_text_parses name : is_identifier name → ∀ p, (Parser_parse stod (execute_text name) p).1 = Ok (Q_ExecutePrepared name []).
Proof.
  intros Hn. eapply (statement_parses _ _ _ "EXECUTE" [ident name]); [unfold execute_text; repeat read_next|reflexivity|].
  intros n Hl. cbn beta. unfold parseExecutePrepared. by do 3 next_word.
Qed.

(** C23: a prepared statement that executes itself never returns.  PREPARE accepts
    the text EXECUTE p as the statement p; EXECUTE p then looks p up again, for
    ever: no number of rounds is enough. *)
Theorem self_execute_diverges name s : is_identifier name →
  ∃ s1, execute 0 (Q_PrepareStatement name (implode (execute_text name))) s =
      (Ok (messageResult true ("prepared statement " +:+ name)), s1) ∧
    ∀ fuel, execute fuel (Q_ExecutePrepared name []) s1 = (Throw execute_fuel_spent, s1).
Proof.
  intros Hn. exists (set_prepared (prepared_store name (Q_ExecutePrepared name [])) s). split.
  - apply execute_prepare. rewrite (String.list_ascii_of_string_of_list_ascii (execute_text name)). by apply execute_text_parses.
  - induction fuel as [|fuel IH]; [done|]. simpl. unfold executePrepared, mbind, M_bind, gets, prepared_find, set_prepared, prepared_store. simpl.
    rewrite lookup_insert_eq. unfold liftM. simpl. exact IH.
Qed.

(** ** COMMIT *)

(** The state with another engine state. *)
Abbreviation with_engine e s := (mkQueryExecutor e (qe_prepared s) (qe_crashInjection s)).

Lemma crash_point_passes point s : qe_crashInjection s ≠ point → crash_point point s = (Ok tt, s).
Proof. intros Hp. unfold crash_point, mbind, M_bind, gets. by rewrite bool_decide_false. Qed.

Lemma crash_point_fires point s : qe_crashInjection s = point →
  crash_point point s = (Throw (CrashInjected point), armCrashInjection CI_None s).
Proof. intros Hp. unfold crash_point, mbind, M_bind, gets. by rewrite bool_decide_true. Qed.

Ltac step := cbn -[crash_point flushPendingWal undoTransaction on_session].

Lemma commit_unarmed s : qe_crashInjection s = CI_None → commit_statement s = on_engine executeCommit s.
Proof.
  destruct s as [e p c]. simpl. intros ->. unfold QueryExecutor.commit_statement, Recovery.executeCommit, on_engine, mbind, M_bind, gets. step.
  destruct (ts_activeTransaction (ex_session e)) as [id|]; [|done]. destruct (isSerializable _ _); step.
  - rewrite crash_point_passes by done. step. destruct (flushPendingWal e) as [[[]|x] e1]; [|done]. step.
    rewrite crash_point_passes by done. done.
  - destruct (undoTransaction _ _ _ _ e) as [[[]|x] e1]; [|done]. step.
    by destruct (on_session session_rollback _) as [[r|x] e2].
Qed.

Lemma session_commit_frame (e : Executor) : let e' := (on_session session_commit e).2 in
  ex_wal e' = ex_wal e ∧ ex_files e' = ex_files e ∧ ex_database e' = ex_database e.
Proof. unfold on_session. by destruct (session_commit (ex_session e)). Qed.

(** C16: what a crash inside COMMIT leaves behind.  Without an armed crash COMMIT is
    [executeCommit].  A transaction that may commit and crashes before the log is
    written leaves the database, the log and the files exactly as before COMMIT; one
    that crashes after it leaves the log, the files and the database of the commit
    that succeeds, so the same recovery follows.  Each armed crash fires once. *)
Theorem commit_crash_points s id :
  (qe_crashInjection s = CI_None → commit_statement s = on_engine executeCommit s) ∧
  (ts_activeTransaction (ex_session (qe_engine s)) = Some id →
   isSerializable (ts_transactionManager (ex_session (qe_engine s))) id = true →
   commit_statement (armCrashInjection CI_BeforeWalSync s) =
     (Throw (CrashInjected CI_BeforeWalSync), armCrashInjection CI_None s) ∧
   ∀ r e2, executeCommit (qe_engine s) = (Ok r, e2) →
     ∃ s2, commit_statement (armCrashInjection CI_AfterWalSyncBeforeCommitMark s) =
         (Throw (CrashInjected CI_AfterWalSyncBeforeCommitMark), s2) ∧
       qe_crashInjection s2 = CI_None ∧ ex_wal (qe_engine s2) = ex_wal e2 ∧ ex_files (qe_engine s2) = ex_files e2 ∧
       ex_database (qe_engine s2) = ex_database e2).
Proof.
  split; [apply commit_unarmed|]. intros Ha Hs. destruct s as [e p c]. simpl in *. split.
  - unfold QueryExecutor.commit_statement, on_engine, mbind, M_bind, gets, armCrashInjection. step. rewrite Ha. step. rewrite Hs. step.
    by rewrite crash_point_fires.
  - intros r e2 E. unfold Recovery.executeCommit, mbind, M_bind, gets in E. rewrite Ha, Hs in E. simpl in E.
    unfold QueryExecutor.commit_statement, on_engine, mbind, M_bind, gets, armCrashInjection. step. rewrite Ha. step. rewrite Hs. step.
    rewrite crash_point_passes by done. step. destruct (flushPendingWal e) as [[[]|x] e1]; [|done]. step.
    rewrite crash_point_fires by done. pose proof (session_commit_frame e1) as Hf. rewrite E in Hf. simpl in Hf.
    destruct Hf as (-> & -> & ->). eexists. by split_and!.
Qed.
End executor.

(** ** Examples *)

#[local] Instance no_disk : StorageManager unit (Database Select PageRowStore) := {
  sm_loadFirstDatabase _ := Throw (runtime_error "no database files found");
  sm_loadDatabase _ _ := Throw (runtime_error "database file not found");
  sm_saveDatabase _ f := (Ok tt, f);
  sm_deleteDatabase _ f := (Ok tt, f)
}.

Definition empty_executor : QueryExecutor unit :=
  mkQueryExecutor (mkExecutor None session_new (wal_open None) tt false) ∅ CI_None.

(** DELETE FROM t WHERE a = ? with the value 7. *)
Lemma prepared_execution_witness : ∃ s1,
  execute (λ z, z) Z.add Z.sub (λ _, []) (λ _, None) (λ _, raise (runtime_error "not used"))
    (λ _ _, raise (runtime_error "not used")) (λ _ _, raise (runtime_error "not used")) 1
    (Q_PrepareStatement "d" "DELETE FROM t WHERE a = ?;") empty_executor = (Ok (messageResult true "prepared statement d"), s1) ∧
  execute (λ z, z) Z.add Z.sub (λ _, []) (λ _, None) (λ _, raise (runtime_error "not used"))
    (λ _ _, raise (runtime_error "not used")) (λ _ _, raise (runtime_error "not used")) 2
    (Q_ExecutePrepared "d" [VInt 7]) s1 =
  execute (λ z, z) Z.add Z.sub (λ _, []) (λ _, None) (λ _, raise (runtime_error "not used"))
    (λ _ _, raise (runtime_error "not used")) (λ _ _, raise (runtime_error "not used")) 1
    (Q_Delete "t" (Some (ComparisonPred "a" Equal (VInt 7) None None false))) s1.
Proof.
  destruct (prepared_execution (λ z, z) Z.add Z.sub (λ _, []) (λ _, None) (λ _, raise (runtime_error "not used"))
    (λ _ _, raise (runtime_error "not used")) (λ _ _, raise (runtime_error "not used")) 1 "d" "DELETE FROM t WHERE a = ?;"
    (Q_Delete "t" (Some (ComparisonPred "a" Equal (VParam 0) None None false))) [VInt 7] empty_executor) as (s1 & E & _ & H).
  - vm_compute. reflexivity.
  - exists s1. split; [exact E|]. rewrite (H s1 eq_refl). reflexivity.
Defined.

Lemma self_execute_diverges_witness : ∃ s1 : QueryExecutor unit,
  execute (λ z, z) Z.add Z.sub (λ _, []) (λ _, None) (λ _, raise (runtime_error "not used"))
    (λ _ _, raise (runtime_error "not used")) (λ _ _, raise (runtime_error "not used")) 100 (Q_ExecutePrepared "p" []) s1 =
  (Throw execute_fuel_spent, s1).
Proof.
  destruct (self_execute_diverges (λ z, z) Z.add Z.sub (λ _, []) (λ _, None) (λ _, raise (runtime_error "not used"))
    (λ _ _, raise (runtime_error "not used")) (λ _ _, raise (runtime_error "not used")) "p" empty_executor) as (s1 & _ & H2).
  - by apply (bool_decide_unpack _).
  - exists s1. exact (H2 100).
Defined.
