(* ===== verification/DmlReplay.v ===== *)
(** * Row changes and their redo

    The row operations of the DML engine, as changes of one row of a table, and
    what the page images they log do to a replica of the table: a change that
    succeeds brings the replica up to date, a change that fails leaves the rows as
    they were. *)

From S2P Require Import Prelude Value BinaryIO BufferPool PageCodec VectorRowStore PageRowStore PageRowStoreProof WriteAheadLog TransactionManager Mvcc.
From S2P Require Import StringPattern HashIndex BTreeIndex BTreeSpec RedoCodec IndexExpression Predicate SetOps.
From S2P Require Import IndexManager IndexManagerProof IndexRedo Histogram Table TableProof TableSchema TablePages TablePagesProof.
Local Open Scope nat_scope.

Section changes.
Context {Select : Type}.
Context (i2d : Z → Z) (dadd dsub : Z → Z → Z) (dchars : Z → chars).
Abbreviation Table := (Table Select PageRowStore).
Abbreviation state := (state Select PageRowStore).
Abbreviation op := (op Select PageRowStore).
Abbreviation table_ok := (table_ok (Select := Select) (S := PageRowStore) i2d dadd dsub dchars).
Implicit Types t : Table.
Implicit Types s : state.
#[local] Existing Instances op_ret op_bind.

(** The change of one row; an erase and an update carry the row before. *)
Inductive row_change : Type :=
  | RC_insert (row : Row)
  | RC_erase (rowId : RowId) (before : Row)
  | RC_update (rowId : RowId) (before : Row) (column : nat) (value : Value).

(** The values of a change can be stored and compared. *)
Definition change_ok (c : row_change) : Prop :=
  match c with
  | RC_insert row => Forall (λ x, comparable x) row ∧ storable_row row
  | RC_erase _ _ => True
  | RC_update _ _ _ value => comparable value ∧ storable value
  end.

(** The row operation; the result is the row that changed, if one did. *)
Definition row_op (c : row_change) (w : TransactionId) : op (option RowId) :=
  match c with
  | RC_insert row => i ← Table_insert i2d dadd dsub dchars row w; mret (Some i)
  | RC_erase i _ =>
      ok ← Table_erase i2d dadd dsub i w;
      mret (if ok : bool then Some i else None)
  | RC_update i _ k value =>
      ok ← Table_update i2d dadd dsub dchars i k value w;
      mret (if ok : bool then Some i else None)
  end.

(** What a change of row [i] does to the rows. *)
Definition changed (c : row_change) (i : RowId) (v v' : VectorRowStore) : Prop :=
  match c with
  | RC_insert row => i = (vrs_append row v).1 ∧ v' = (vrs_append row v).2
  | RC_erase j _ => i = j ∧ is_Some (vrs_get i v) ∧ v' = (vrs_erase i v).2
  | RC_update j _ k value => i = j ∧ ∃ row, vrs_get i v = Some row ∧ v' = (vrs_update i (<[k := value]> row) v).2
  end.

Definition change_outcome (c : row_change) (v : VectorRowStore) (r : result (option RowId)) (v' : VectorRowStore) : Prop :=
  match r with
  | Ok (Some i) => changed c i v v'
  | _ => v' = v
  end.

(** The versions after a change. *)
Definition versions_after (c : row_change) (w : TransactionId) (v : VectorRowStore) (r : result (option RowId))
    (vs : MVCCRowStore) : MVCCRowStore :=
  match r with
  | Ok (Some i) =>
      match c with
      | RC_insert row => mvcc_write i row w vs
      | RC_erase _ _ => mvcc_erase i w vs
      | RC_update _ _ k value =>
          match vrs_get i v with Some row => mvcc_write i (<[k := value]> row) w vs | None => vs end
      end
  | _ => vs
  end.

Lemma runs_then {A B} (m : op A) (f : A → B) s a (P : state → Prop) : runs m s (Ok a) P →
  runs (x ← m; mret (f x)) s (Ok (f a)) P.
Proof. intros Hm. eapply runs_bind; [exact Hm|]. intros s' Hs'. by apply runs_ret. Qed.

Lemma row_op_runs `{!RowStoreLaws PageRowStore} t v im vs tm s c w :
  at_state t v im vs tm s → tinv i2d dadd dsub dchars t v im vs → change_ok c →
  ∃ r v', runs (row_op c w) s r (ok_with i2d dadd dsub dchars t v' (versions_after c w v r vs)) ∧ change_outcome c v r v'.
Proof.
  intros Hs Hinv Hc. destruct c as [row|i b|i b k value]; simpl.
  - destruct Hc as [Hcmp Hst]. destruct (insert_runs i2d dadd dsub dchars t v im vs tm s row w Hs Hinv Hcmp Hst)
      as (r & v' & Hrun & Ho). unfold insert_outcome in Ho. destruct (validateRow _ _ _) as [[]|e].
    2:{ destruct Ho as [-> ->]. exists (Throw e), v. split; [by apply runs_throw|done]. }
    destruct Ho as [(c & _ & _ & -> & ->)|(_ & -> & ->)].
    + eexists _, v. split; [apply runs_throw, Hrun|done].
    + exists (Ok (Some (vrs_append row v).1)), (vrs_append row v).2. split; [by apply (runs_then _ Some)|done].
  - destruct (erase_runs i2d dadd dsub dchars t v im vs tm s i w Hs Hinv) as (r & v' & Hrun & Ho).
    unfold erase_outcome in Ho. destruct (vrs_get i v) as [row|] eqn:Eg; destruct Ho as [-> ->].
    + exists (Ok (Some i)), (vrs_erase i v).2.
      split; [by apply (runs_then _ (λ ok : bool, if ok then Some i else None) _ true)|]. simpl. by rewrite Eg.
    + exists (Ok None), v. split; [by apply (runs_then _ (λ ok : bool, if ok then Some i else None) _ false)|done].
  - destruct Hc as [Hcmp Hst]. destruct (update_runs i2d dadd dsub dchars t v im vs tm s i k value w Hs Hinv Hcmp Hst)
      as (r & v' & Hrun & Ho).
    assert ((r = Ok true ∧ ∃ row, vrs_get i v = Some row ∧ v' = (vrs_update i (<[k := value]> row) v).2) ∨
            ((r = Ok false ∨ ∃ e, r = Throw e) ∧ v' = v)) as [[-> Hv]|[Hr ->]].
    { unfold update_outcome in Ho.
      destruct (vrs_get i v) as [row|]; [|right; destruct Ho as [-> ->]; auto].
      destruct (t_schema t !! k) as [col|]; [|right; destruct Ho as [-> ->]; auto]. cbv zeta in Ho.
      destruct (validate_update _ _) as [[]|e]; [|right; destruct Ho as [-> ->]; eauto].
      destruct (enforceCheckConstraints _ _ _) as [[]|e]; [|right; destruct Ho as [-> ->]; eauto].
      destruct Ho as [(c & _ & _ & -> & ->)|(_ & -> & ->)]; [right; eauto|left; eauto]. }
    + exists (Ok (Some i)), v'.
      split; [by apply (runs_then _ (λ ok : bool, if ok then Some i else None) _ true)|]. by split.
    + destruct Hr as [->|[e ->]].
      * exists (Ok None), v. split; [by apply (runs_then _ (λ ok : bool, if ok then Some i else None) _ false)|done].
      * exists (Throw e), v. split; [by apply runs_throw|done].
Qed.

Lemma keeps_row_op base c w : keeps (Select := Select) (S := PageRowStore) (follows base) (row_op c w).
Proof.
  destruct c; simpl.
  - apply keeps_bind; [apply keeps_insert|]. intros. apply keeps_ret.
  - apply keeps_bind; [apply keeps_erase|]. intros. apply keeps_ret.
  - apply keeps_bind; [apply keeps_update|]. intros. apply keeps_ret.
Qed.

(** ** Changes relative to a clean table *)

Definition cleared t : Table :=
  set_indexes (clear_index_marks (t_indexManager t)) (set_store (clearDirtyPages (t_rowStore t)) t).

Lemma follows_cleared im : follows (clear_index_marks im) (clear_index_marks im).
Proof.
  split; [|by split_and!]. split; simpl; apply Forall2_fmap, Forall_Forall2_diag, Forall_true; intros e; simpl.
  - split; [done|]. apply hash_since_clear.
  - by split.
Qed.

(** A change of a table, seen from the rows and indexes before it. *)
Lemma change_marked t v tm c w : table_ok t v → change_ok c →
  ∃ r s v', row_op c w (mkState (cleared t) tm) = (r, s) ∧ change_outcome c v r v' ∧
    marked_since i2d dadd dsub dchars (st_table s) v (clear_index_marks (t_indexManager t)) (prs_rowsPerPage (t_rowStore t)) v' ∧
    table_ok (st_table s) v' ∧ t_versions (st_table s) = versions_after c w v r (t_versions t) ∧
    st_table s = with_parts t (t_rowStore (st_table s)) (t_indexManager (st_table s)) (t_versions (st_table s)).
Proof.
  intros [Hrep Hinv] Hc. set (base := clear_index_marks (t_indexManager t)).
  destruct (clear_marks_reflect i2d dadd dsub (t_schema t) (t_indexManager t) v) as [Hbr Hbd];
    [apply (ti_core i2d dadd dsub dchars _ _ _ _ Hinv)|]. fold base in Hbr, Hbd.
  set (rpp := prs_rowsPerPage (t_rowStore t)).
  assert (tinv i2d dadd dsub dchars t v base (t_versions t)) as Hinv0.
  { split; [|apply Hinv]. eapply hinv_indexes; [apply Hinv|done|done]. }
  destruct (row_op_runs (RowStoreLaws0 := since_laws rpp (vrs_rows v)) t v base (t_versions t) tm
    (mkState (cleared t) tm) c w) as (r & v' & (s & E & Hs) & Ho); [|done..|].
  { exists (clearDirtyPages (t_rowStore t)). split; [done|].
    apply (prs_since_refl (clearDirtyPages (t_rowStore t)) v), clearDirtyPages_rep, Hrep. }
  destruct (keeps_row_op base c w (mkState (cleared t) tm) (follows_cleared _)) as [Hsince Hdefs]. rewrite E in Hsince, Hdefs.
  destruct Hs as (im & tm' & (store & -> & Hst) & Hinv'). simpl in *. set (vs := versions_after _ _ _ _ _) in *.
  assert (static t = static (with_parts t store im vs)) as Hstat by done.
  exists r, (mkState (with_parts t store im vs) tm'), v'. split_and!; [done|done| | |done|done].
  - split; [exact Hst| |exact Hbr|exact Hsince|exact Hdefs]. eapply hinv_static; [exact Hstat|apply Hinv'].
  - split; [exact (psn_rep _ _ _ _ Hst)|]. split; [|apply Hinv']. eapply hinv_static; [exact Hstat|apply Hinv'].
Qed.

(** ** A table and its replica *)

(** Both hold the rows [v]; [tr] is what recovery has of [t]. *)
Definition paired t tr : Prop := ∃ v, table_ok t v ∧ table_ok tr v ∧ replica_of i2d dadd dsub dchars t tr v ∧ t_schema t ≠ [].

Lemma same_defs_sym im im' : same_defs im im' → same_defs im' im.
Proof. intros (D1 & D2 & D3 & D4). split_and!; congruence. Qed.

Lemma replica_moves t tr t' v : replica_of i2d dadd dsub dchars t tr v → static t' = static t →
  same_defs (t_indexManager t) (t_indexManager t') →
  prs_rowsPerPage (t_rowStore t') = prs_rowsPerPage (t_rowStore t) → replica_of i2d dadd dsub dchars t' tr v.
Proof.
  intros [Hs Hr Hi Hd Hp] Hs' Hd' Hp'. split; [congruence|done|done| |congruence]. by eapply same_defs_trans.
Qed.

(** A change of a table: the replica follows once the captured images are
    applied, and needs nothing when the change failed. *)
Lemma change_replays t tr tm tmr c w : paired t tr → change_ok c →
  ∃ r s, row_op c w (mkState (cleared t) tm) = (r, s) ∧
    match r with
    | Ok (Some _) => ∃ images t' tr',
        takePageImageCapture (mkState (st_table s) (st_transactions s)) = (Ok images, mkState t' (st_transactions s)) ∧
        apply_capture images (mkState tr tmr) = (Ok tt, mkState tr' tmr) ∧ paired t' tr'
    | _ => paired (st_table s) tr
    end.
Proof.
  intros (v & Hok & Hokr & Hrep & Hne) Hc. destruct (change_marked t v tm c w Hok Hc) as (r & s & v' & E & Ho & Hm & Hok' & _ & Es).
  exists r, s. split; [done|].
  assert (static (st_table s) = static t) as Hstat by (by rewrite Es).
  assert (replica_of i2d dadd dsub dchars (st_table s) tr v) as Hrep'.
  { eapply replica_moves; [exact Hrep|done| |].
    - eapply same_defs_trans; [|exact (ms_defs _ _ _ _ _ _ _ _ _ Hm)].
      eapply (clear_marks_reflect i2d dadd dsub (t_schema t) (t_indexManager t) v).
      apply (ti_core i2d dadd dsub dchars _ _ _ _ (proj2 Hok)).
    - exact (psn_rpp _ _ _ _ (ms_store _ _ _ _ _ _ _ _ _ Hm)). }
  assert (t_schema (st_table s) ≠ []) as Hne' by (by rewrite Es).
  assert (v' = v → paired (st_table s) tr) as Hsame by (intros ->; by exists v).
  destruct r as [[i|]|x]; [|by apply Hsame..].
  destruct (capture_replays i2d dadd dsub dchars (st_table s) tr v _ _ v' (st_transactions s) tmr Hm Hrep' Hne')
    as (images & t' & tr' & E1 & E2 & Et & Hrep1 & Hinv1 & Hrep2 & Hlat & _).
  exists images, t', tr'. split_and!; [done|done|]. exists v'. split_and!.
  - split; [exact Hrep1|]. split; [exact Hinv1|]. rewrite Et. apply Hok'.
  - split; [apply Hrep2|]. split; [apply Hrep2|done].
  - done.
  - by rewrite Et.
Qed.
End changes.
