(* ===== verification/RecoveryProof.v ===== *)
(** * Commits are atomic and durable

    A transaction of row changes, its commit and the recovery from any crash in
    between.  [recovers file files db]: a new process that loads the database files
    and replays the log [file] has a database with the tables, rows, constraints
    and indexes of [db]. *)

From S2P Require Import Prelude Value BinaryIO BufferPool PageCodec VectorRowStore PageRowStore PageRowStoreProof WriteAheadLog.
From S2P Require Import TransactionManager Mvcc StringPattern HashIndex BTreeIndex BTreeSpec RedoCodec RedoCodecProof.
From S2P Require Import IndexExpression Predicate SetOps IndexManager IndexManagerProof IndexRedo Histogram.
From S2P Require Import Table TableProof TableSchema TablePages TablePagesProof Database Session ForeignKeys Recovery DmlEngine DmlReplay.
Local Open Scope nat_scope.

(** ** Maps of tables *)

Section smaps.
Context {V : Type}.
Implicit Types m : list (string * V).

Lemma smap_set_keys n (v : V) m : (smap_set n v m).*1 = m.*1.
Proof.
  unfold smap_set. rewrite <- list_fmap_compose. apply list_fmap_ext. intros i [k x] _. simpl.
  by destruct (String.eqb k n).
Qed.

Lemma smap_set_set n (v w : V) m : smap_set n v (smap_set n w m) = smap_set n v m.
Proof.
  unfold smap_set. rewrite <- list_fmap_compose. apply list_fmap_ext. intros i [k x] _. simpl.
  by destruct (String.eqb k n) eqn:E; simpl; rewrite E.
Qed.

Lemma smap_find_set n (v : V) m k : smap_find k (smap_set n v m) =
  if String.eqb k n then (λ _, v) <$> smap_find k m else smap_find k m.
Proof.
  unfold smap_set. induction m as [|[a x] m IH]; simpl; [by destruct (String.eqb k n)|].
  destruct (String.eqb_spec a n) as [->|Hn]; simpl.
  - destruct (String.eqb_spec n k) as [->|Hk]; [by rewrite String.eqb_refl|exact IH].
  - destruct (String.eqb_spec a k) as [->|Hk]; [|exact IH]. by rewrite (proj2 (String.eqb_neq k n)).
Qed.

Lemma smap_find_set_eq n (v : V) m x : smap_find n m = Some x → smap_find n (smap_set n v m) = Some v.
Proof. intros E. by rewrite smap_find_set, String.eqb_refl, E. Qed.
End smaps.

Lemma smap_find_Forall2 {V W} (R : V → W → Prop) (m : list (string * V)) (m' : list (string * W)) n v :
  Forall2 (λ a b, a.1 = b.1 ∧ R a.2 b.2) m m' → smap_find n m = Some v → ∃ w, smap_find n m' = Some w ∧ R v w.
Proof.
  induction 1 as [|[a x] [b y] m m' [Hk HR] HF IH]; [done|]. simpl in *. subst b.
  destruct (String.eqb a n); [|exact IH]. intros [= ->]. by exists y.
Qed.

Lemma smap_set_Forall2 {V W} (R : V → W → Prop) (m : list (string * V)) (m' : list (string * W)) n v w :
  Forall2 (λ a b, a.1 = b.1 ∧ R a.2 b.2) m m' → R v w →
  Forall2 (λ a b, a.1 = b.1 ∧ R a.2 b.2) (smap_set n v m) (smap_set n w m').
Proof.
  intros HF HR. unfold smap_set. induction HF as [|[a x] [b y] m m' [Hk HR'] HF IH]; [constructor|].
  simpl in *. subst b. constructor; [|exact IH]. by destruct (String.eqb a n).
Qed.

Lemma smap_set_absent {V} n (v : V) (m : list (string * V)) : n ∉ m.*1 → smap_set n v m = m.
Proof.
  induction m as [|[k z] m IH]; [done|]. intros [Hk Hn]%not_elem_of_cons. simpl in *. unfold smap_set in *. simpl.
  rewrite IH by done. by rewrite (proj2 (String.eqb_neq k n)).
Qed.

Lemma smap_set_same {V} n (v : V) (m : list (string * V)) : NoDup m.*1 → smap_find n m = Some v → smap_set n v m = m.
Proof.
  induction m as [|[k x] m IH]; [done|]. simpl. intros [Hn Hnd]%NoDup_cons.
  change (smap_set n v ((k, x) :: m)) with ((if String.eqb k n then (k, v) else (k, x)) :: smap_set n v m).
  destruct (String.eqb_spec k n) as [->|Hne].
  - intros [= ->]. by rewrite smap_set_absent.
  - intros Hf. by rewrite IH.
Qed.

Lemma smap_set_Forall2_l {V W} (R : V → W → Prop) (m : list (string * V)) (m' : list (string * W)) n v w :
  Forall2 (λ a b, a.1 = b.1 ∧ R a.2 b.2) m m' → NoDup m.*1 → smap_find n m' = Some w → R v w →
  Forall2 (λ a b, a.1 = b.1 ∧ R a.2 b.2) (smap_set n v m) m'.
Proof.
  induction 1 as [|[a x] [b y] m m' [Hk HR'] HF IH]; intros Hnd Hf HR; [constructor|].
  simpl in *. subst b. apply NoDup_cons in Hnd as [Hn Hnd].
  change (smap_set n v ((a, x) :: m)) with ((if String.eqb a n then (a, v) else (a, x)) :: smap_set n v m).
  destruct (String.eqb_spec a n) as [->|Hne].
  - injection Hf as ->. rewrite smap_set_absent by done. by constructor.
  - constructor; [done|]. by apply IH.
Qed.

(** ** Running the executor *)

Section exec.
Context {Select F : Type}.
Context (i2d : Z → Z) (dadd dsub : Z → Z → Z) (dchars : Z → chars).
Abbreviation Table := (Table Select PageRowStore).
Abbreviation state := (state Select PageRowStore).
Abbreviation Database := (Database Select PageRowStore).
Abbreviation Executor := (Executor Select F).
Abbreviation exec := (M Executor).
Implicit Types e : Executor.
Implicit Types t : Table.

Abbreviation tm_of e := (ts_transactionManager (ex_session e)).
Abbreviation pending_of e := (ts_pendingWal (ex_session e)).

(** The executor after an operation on the table [name] that ended in [s]. *)
Definition put (name : string) (s : state) (e : Executor) : Executor :=
  set_session (set_tm (default (tm_of e) (st_transactions s)) (ex_session e))
    (set_database (set_tables (smap_set name (st_table s)) <$> ex_database e) e).

Lemma on_table_found {A} name (m : op Select PageRowStore A) e t : find_table name e = Some t →
  on_table_named name m e = let '(r, s) := m (mkState t (Some (tm_of e))) in (r, put name s e).
Proof.
  unfold find_table, on_table_named, on_catalog, call, put. intros Hf. destruct (ex_database e) as [db|]; [|done].
  simpl in Hf. simpl. rewrite Hf. by destruct (m _) as [r s].
Qed.

Lemma on_table_missing {A} name (m : op Select PageRowStore A) e : find_table name e = None →
  ∃ x, on_table_named name m e = (Throw x, e).
Proof.
  unfold find_table, on_table_named, on_catalog, call. intros Hf. destruct e as [[db|] [] w f b]; simpl in *.
  - rewrite Hf. by eexists.
  - by eexists.
Qed.

Lemma find_put name s e t : find_table name e = Some t → find_table name (put name s e) = Some (st_table s).
Proof.
  unfold find_table, put. simpl. destruct (ex_database e) as [db|]; [|done]. simpl. unfold Database_table.
  intros Hf. by eapply smap_find_set_eq.
Qed.

(** What a transaction keeps until its commit. *)
Definition same_frame e e' : Prop :=
  ex_wal e' = ex_wal e ∧ ex_files e' = ex_files e ∧ ex_replayingWal e' = ex_replayingWal e ∧
  ts_activeTransaction (ex_session e') = ts_activeTransaction (ex_session e).

(** ** Row changes of a transaction *)

Definition run_change (w : TransactionId) (name : string) (c : row_change) : exec unit :=
  match c with
  | RC_insert row => insert_row i2d dadd dsub dchars name w row
  | RC_erase i before => _ ← erase_row i2d dadd dsub name i before w; mret tt
  | RC_update i before k value => _ ← update_row i2d dadd dsub dchars name i before k value w; mret tt
  end.

Definition kind_of (c : row_change) : UndoKind :=
  match c with RC_insert _ => UK_Insert | RC_erase _ _ => UK_Delete | RC_update _ _ _ _ => UK_Update end.
Definition before_of (c : row_change) : option Row :=
  match c with RC_insert _ => None | RC_erase _ b | RC_update _ b _ _ => Some b end.

(** The end of a change: nothing if no row changed, else an undo record and the
    redo record. *)
Definition log_change (name : string) (c : row_change) (r : result (option RowId)) : exec unit :=
  match r with
  | Ok (Some i) =>
      _ ← push_undo (undo_row name (kind_of c) i (before_of c));
      appendPageImageRedo name
  | _ => mret tt
  end.

Definition op_state (w : TransactionId) (c : row_change) e t : result (option RowId) * state :=
  row_op i2d dadd dsub dchars c w (mkState (cleared t) (Some (tm_of e))).

Lemma run_change_missing w name c e : find_table name e = None → (run_change w name c e).2 = e.
Proof.
  intros Hf. destruct (on_table_missing name (clearDirtyTracking (Select := Select)) e Hf) as [x Ex].
  destruct c; unfold run_change, insert_row, erase_row, update_row, mbind, M_bind; by rewrite Ex.
Qed.

Lemma run_change_eq w name c e t : find_table name e = Some t →
  let '(r, s) := op_state w c e t in
  (run_change w name c e).2 =
    (log_change name c r (put name s (put name (mkState (cleared t) (Some (tm_of e))) e))).2.
Proof.
  intros Hf. set (e1 := put name (mkState (cleared t) (Some (tm_of e))) e).
  assert (on_table_named name clearDirtyTracking e = (Ok tt, e1)) as E1 by (by rewrite (on_table_found _ _ _ _ Hf)).
  assert (find_table name e1 = Some (cleared t)) as Hf1 by (by eapply find_put).
  assert (tm_of e1 = tm_of e) as Ht by done.
  unfold op_state. destruct c as [row|i b|i b k value]; simpl; unfold insert_row, erase_row, update_row, mbind, M_bind, op_bind;
    rewrite E1, (on_table_found _ _ _ _ Hf1), Ht;
    match goal with |- context [?m (mkState (cleared t) ?x)] => destruct (m (mkState (cleared t) x)) as [[a|?] s] end;
    try done; cbn [kind_of before_of].
  all: destruct a; [|done]; unfold log_change, push_undo, modify, mbind, M_bind; simpl;
    by destruct (appendPageImageRedo _ _) as [[]].
Qed.

(** ** Databases and their replicas *)

Definition paired_db (db dbr : Database) : Prop :=
  db_name dbr = db_name db ∧ NoDup (db_tables db).*1 ∧
  Forall2 (λ a b, a.1 = b.1 ∧ paired i2d dadd dsub dchars a.2 b.2) (db_tables db) (db_tables dbr).

Lemma paired_find db dbr name t : paired_db db dbr → Database_table name db = Some t →
  ∃ tr, Database_table name dbr = Some tr ∧ paired i2d dadd dsub dchars t tr.
Proof. intros (_ & _ & HF). apply (smap_find_Forall2 _ _ _ _ _ HF). Qed.

Lemma paired_set db dbr name t tr : paired_db db dbr → paired i2d dadd dsub dchars t tr →
  paired_db (set_tables (smap_set name t) db) (set_tables (smap_set name tr) dbr).
Proof.
  intros (Hn & Hnd & HF) Hp. split_and!; [done|simpl; by rewrite smap_set_keys|]. by apply smap_set_Forall2.
Qed.

Lemma paired_set_l db dbr name t tr : paired_db db dbr → Database_table name dbr = Some tr →
  paired i2d dadd dsub dchars t tr → paired_db (set_tables (smap_set name t) db) dbr.
Proof.
  intros (Hn & Hnd & HF) Hf Hp. split_and!; [done|simpl; by rewrite smap_set_keys|]. by eapply smap_set_Forall2_l.
Qed.

Lemma set_tables_twice name t t' (db : Database) :
  set_tables (smap_set name t) (set_tables (smap_set name t') db) = set_tables (smap_set name t) db.
Proof. unfold set_tables. simpl. by rewrite smap_set_set. Qed.

(** ** The redo records of a transaction *)

Lemma append_image name e t images t' payload w : find_table name e = Some t →
  (∀ tm, takePageImageCapture (mkState t tm) = (Ok images, mkState t' tm)) →
  encodePageImageRedo (redo_record name images) = Ok payload →
  ex_replayingWal e = false → ts_activeTransaction (ex_session e) = Some w →
  let e' := (appendPageImageRedo name e).2 in
  same_frame e e' ∧ pending_of e' = pending_of e ++ [mkPendingWalRecord Wal_PageImageRedo payload] ∧
  ex_database e' = set_tables (smap_set name t') <$> ex_database e ∧ ts_undoLog (ex_session e') = ts_undoLog (ex_session e).
Proof.
  intros Hf Hc He Hr Ha. unfold appendPageImageRedo, mbind, M_bind. rewrite (on_table_found _ _ _ _ Hf), Hc.
  cbv beta iota zeta. unfold liftM. rewrite He. unfold appendWal, mbind, M_bind, gets, modify. simpl. rewrite Hr.
  unfold transactionActive. simpl. rewrite Ha. by split_and!.
Qed.

(** The captured images of a change fit the 64-bit sizes of the log format. *)
Definition capture_fits (w : TransactionId) (name : string) (c : row_change) e : Prop :=
  match find_table name e with
  | None => True
  | Some t =>
      let '(r, s) := op_state w c e t in
      match r, takePageImageCapture s with
      | Ok (Some _), (Ok images, _) => image_record_ok (redo_record name images)
      | _, _ => True
      end
  end.

Fixpoint run_changes (w : TransactionId) (cs : list (string * row_change)) e : Executor :=
  match cs with
  | [] => e
  | (name, c) :: cs => run_changes w cs (run_change w name c e).2
  end.

Fixpoint changes_fit (w : TransactionId) (cs : list (string * row_change)) e : Prop :=
  match cs with
  | [] => True
  | (name, c) :: cs => capture_fits w name c e ∧ changes_fit w cs (run_change w name c e).2
  end.

(** [er] is the executor of a recovery that has replayed the log up to the start
    of the transaction; [recs] are the records the transaction has logged. *)
Record tx_inv (e0 er : Executor) (recs : list PageImageRedoRecord) (e : Executor) : Prop := {
  tx_frame : same_frame e0 e;
  tx_ok : Forall image_record_ok recs;
  tx_pending : Forall2 (λ r p, pw_operation p = Wal_PageImageRedo ∧ decodePageImageRedos (pw_payload p) = Ok [r])
                 recs (pending_of e);
  tx_replay : ∃ db dbr, ex_database e = Some db ∧
    mapM_ applyPageImageRedo recs er = (Ok tt, set_database (Some dbr) er) ∧ paired_db db dbr
}.

Lemma mapM_app {St A} (f : A → M St unit) l1 l2 s : mapM_ f (l1 ++ l2) s =
  match mapM_ f l1 s with (Ok _, s) => mapM_ f l2 s | r => r end.
Proof.
  revert s. induction l1 as [|a l1 IH]; intros s; [done|]. simpl. unfold mbind, M_bind.
  destruct (f a s) as [[]]; [apply IH|done].
Qed.

Lemma apply_redo_record name images (er : Executor) dbr tr tr' : Database_table name dbr = Some tr →
  apply_capture images (mkState tr (Some (tm_of er))) = (Ok tt, mkState tr' (Some (tm_of er))) →
  applyPageImageRedo (redo_record name images) (set_database (Some dbr) er) =
  (Ok tt, set_database (Some (set_tables (smap_set name tr') dbr)) er).
Proof.
  intros Hf Ha. unfold applyPageImageRedo, mbind, M_bind, requireTable. simpl. rewrite Hf.
  rewrite (on_table_found name _ _ tr) by done. unfold apply_capture in Ha. simpl. rewrite Ha. unfold put. simpl.
  by destruct er as [o []].
Qed.

Lemma same_frame_trans e1 e2 e3 : same_frame e1 e2 → same_frame e2 e3 → same_frame e1 e3.
Proof. intros (A1 & A2 & A3 & A4) (B1 & B2 & B3 & B4). unfold same_frame. by rewrite B1, B2, B3, B4. Qed.

Lemma put_frame name s e : same_frame e (put name s e).
Proof. done. Qed.

Lemma capture_any t tm images t' tm' : takePageImageCapture (mkState t tm) = (Ok images, mkState t' tm) →
  takePageImageCapture (mkState t tm') = (Ok images, mkState t' tm').
Proof. unfold takePageImageCapture. simpl. by intros [= <- <-]. Qed.

Lemma run_change_inv e0 er recs e w name c : tx_inv e0 er recs e →
  ex_replayingWal e0 = false → ts_activeTransaction (ex_session e0) = Some w →
  change_ok c → capture_fits w name c e →
  ∃ recs', tx_inv e0 er recs' (run_change w name c e).2 ∧ length recs' ≤ length recs + 1.
Proof.
  intros [Hfr Hok Hpend (db & dbr & Edb & Erep & Hpair)] Hrp Hact Hc Hfit.
  unfold capture_fits in Hfit. destruct (find_table name e) as [t|] eqn:Hf.
  2:{ exists recs. split; [|lia]. rewrite run_change_missing by done. split; eauto. }
  pose proof (run_change_eq w name c e t Hf) as Erun. unfold find_table in Hf. rewrite Edb in Hf. simpl in Hf.
  destruct (paired_find _ _ _ _ Hpair Hf) as (tr & Hfr' & Hpt).
  destruct (change_replays i2d dadd dsub dchars t tr (Some (tm_of e)) (Some (tm_of er)) c w Hpt Hc) as (r & s & Eop & Hr).
  unfold op_state in *. rewrite Eop in Erun, Hfit. rewrite Erun. clear Erun.
  set (e1 := put name s (put name (mkState (cleared t) (Some (tm_of e))) e)).
  assert (same_frame e0 e1) as Hfr1 by exact Hfr.
  assert (ex_database e1 = Some (set_tables (smap_set name (st_table s)) db)) as Edb1.
  { subst e1. simpl. rewrite Edb. simpl. by rewrite set_tables_twice. }
  assert (pending_of e1 = pending_of e) as Ep1 by done.
  assert (paired i2d dadd dsub dchars (st_table s) tr →
    ∃ recs', tx_inv e0 er recs' e1 ∧ length recs' ≤ length recs + 1) as Hsame.
  { intros Hp. exists recs. split; [|lia]. split; [done|done|by rewrite Ep1|]. eexists _, dbr. split_and!; [done..|].
    by eapply paired_set_l. }
  destruct r as [[i|]|x]; [|by apply Hsame..]. clear Hsame.
  destruct Hr as (images & t' & tr' & Etake & Eapp & Hp'). destruct s as [t1 tm1]. cbn [st_table st_transactions] in *.
  rewrite Etake in Hfit. destruct (image_batch_codes [redo_record name images]) as (payload & Eenc & Edec & _); [done|done|by constructor|].
  unfold log_change, push_undo, modify, mbind, M_bind. simpl. unfold transactionActive. simpl.
  rewrite (proj2 (proj2 (proj2 Hfr))), Hact. simpl.
  set (e2 := set_session _ _).
  assert (find_table name e2 = Some t1) as Hf2.
  { unfold find_table. subst e2. simpl. rewrite Edb. simpl. rewrite set_tables_twice. by eapply smap_find_set_eq. }
  destruct (append_image name e2 t1 images t' payload w Hf2) as (Hfr2 & Ep2 & Edb2 & _).
  { intros tm. by eapply capture_any. }
  { exact Eenc. }
  { by rewrite <- Hrp; apply Hfr1. }
  { by rewrite <- Hact; apply Hfr1. }
  exists (recs ++ [redo_record name images]). split; [|rewrite length_app; simpl; lia]. split.
  - by eapply same_frame_trans.
  - apply Forall_app. split; [done|by constructor].
  - rewrite Ep2. apply Forall2_app; [done|]. by repeat constructor.
  - eexists (set_tables (smap_set name t') db), (set_tables (smap_set name tr') dbr). split_and!.
    + rewrite Edb2. subst e2. simpl. rewrite Edb. simpl. by rewrite !set_tables_twice.
    + rewrite mapM_app, Erep. simpl. unfold mbind, M_bind.
      by rewrite (apply_redo_record name images er dbr tr tr').
    + by apply paired_set.
Qed.

Lemma run_changes_inv e0 er recs e w cs : tx_inv e0 er recs e →
  ex_replayingWal e0 = false → ts_activeTransaction (ex_session e0) = Some w →
  Forall (λ c, change_ok c.2) cs → changes_fit w cs e →
  ∃ recs', tx_inv e0 er recs' (run_changes w cs e) ∧ length recs' ≤ length recs + length cs.
Proof.
  intros Hinv Hrp Hact Hcs. revert recs e Hinv. induction Hcs as [|[name c] cs Hc Hcs IH]; intros recs e Hinv Hfit; simpl.
  { exists recs. split; [done|lia]. }
  destruct Hfit as [Hf1 Hfit]. destruct (run_change_inv e0 er recs e w name c) as (recs1 & Hinv1 & Hl1); [done..|].
  destruct (IH recs1 _ Hinv1 Hfit) as (recs' & Hinv' & Hl'). exists recs'. split; [done|lia].
Qed.
End exec.

(** ** Recovery *)

Create HintDb ignores.

Section recovery_proof.
Context {Select F : Type}.
Context (i2d : Z → Z) (dadd dsub : Z → Z → Z) (dchars : Z → chars).
Abbreviation Database := (Database Select PageRowStore).
Abbreviation Executor := (Executor Select F).
Abbreviation exec := (M Executor).
Context `{StorageManager F Database} (replayQuery : bytes → exec unit).
Implicit Types e : Executor.

(** A change [g] of parts of the executor other than its database and session, and
    computations that neither read nor write those parts. *)
Record outside (g : Executor → Executor) : Prop := {
  out_database e : ex_database (g e) = ex_database e;
  out_session e : ex_session (g e) = ex_session e;
  out_set_database d e : set_database d (g e) = g (set_database d e);
  out_set_session s e : set_session s (g e) = g (set_session s e)
}.

Lemma outside_wal w : outside (set_wal w).
Proof. done. Qed.
Lemma outside_files f : outside (set_files f).
Proof. done. Qed.

Definition ignores (g : Executor → Executor) {A} (m : exec A) : Prop := ∀ e,
  m (g e) = let '(r, e') := m e in (r, g e').

Section ignores.
Context (g : Executor → Executor) (Hg : outside g).

Lemma ignores_ret {A} (a : A) : ignores g (mret a).
Proof. done. Qed.
Lemma ignores_liftM {A} (r : result A) : ignores g (liftM r).
Proof. done. Qed.
Lemma ignores_raise {A} x : ignores g (raise (A := A) x).
Proof. done. Qed.
Lemma ignores_gets {A} (f : Executor → A) : (∀ e, f (g e) = f e) → ignores g (gets f).
Proof. intros Hf e. unfold gets. by rewrite Hf. Qed.
Lemma ignores_modify (f : Executor → Executor) : (∀ e, f (g e) = g (f e)) → ignores g (modify f).
Proof. intros Hf e. unfold modify. by rewrite Hf. Qed.
Lemma ignores_bind {A B} (m : exec A) (f : A → exec B) :
  ignores g m → (∀ a, ignores g (f a)) → ignores g (mbind f m).
Proof.
  intros Hm Hf e. unfold mbind, M_bind. rewrite Hm. destruct (m e) as [[a|x] e']; [|done]. apply Hf.
Qed.
Lemma ignores_catch {A} (m : exec A) h : ignores g m → (∀ x, ignores g (h x)) → ignores g (try_catch m h).
Proof. intros Hm Hh e. unfold try_catch. rewrite Hm. destruct (m e) as [[a|x] e']; [done|]. apply Hh. Qed.
Lemma ignores_mapM {A} (f : A → exec unit) l : (∀ a, ignores g (f a)) → ignores g (mapM_ f l).
Proof. intros Hf. induction l; simpl; [apply ignores_ret|]. by apply ignores_bind. Qed.
Lemma ignores_on_catalog {A} (m : M (catalog Select PageRowStore) A) : ignores g (on_catalog m).
Proof.
  intros e. unfold on_catalog. rewrite (out_database g Hg), (out_session g Hg). destruct (ex_database e) as [db|]; [|done].
  destruct (m _) as [r c]. by rewrite (out_set_database g Hg), (out_set_session g Hg).
Qed.
Lemma ignores_on_table {A} name (m : op Select PageRowStore A) : ignores g (on_table_named name m).
Proof. apply ignores_on_catalog. Qed.
Lemma ignores_on_database {A} (m : M Database A) : ignores g (on_database m).
Proof.
  intros e. unfold on_database. rewrite (out_database g Hg). destruct (ex_database e) as [db|]; [|done].
  destruct (m db). by rewrite (out_set_database g Hg).
Qed.
Lemma ignores_on_session {A} (m : M (TxnSession Select PageRowStore) A) : ignores g (on_session m).
Proof. intros e. unfold on_session. rewrite (out_session g Hg). destruct (m _). by rewrite (out_set_session g Hg). Qed.
Lemma ignores_requireTable name : ignores g (requireTable name).
Proof.
  intros e. unfold requireTable. rewrite (out_database g Hg). destruct (ex_database e) as [db|]; [|done].
  by destruct (Database_table name db).
Qed.
Lemma ignores_set_session f : ignores g (modify (λ e, set_session (f (ex_session e)) e)).
Proof. apply ignores_modify. intros e. by rewrite (out_session g Hg), (out_set_session g Hg). Qed.
Lemma ignores_session {A} (f : TxnSession Select PageRowStore → A) : ignores g (gets (λ e, f (ex_session e))).
Proof. apply ignores_gets. intros e. by rewrite (out_session g Hg). Qed.
Lemma ignores_database {A} (f : option Database → A) : ignores g (gets (λ e, f (ex_database e))).
Proof. apply ignores_gets. intros e. by rewrite (out_database g Hg). Qed.
Lemma ignores_set_database d : ignores g (modify (set_database d)).
Proof. apply ignores_modify. intros e. by rewrite (out_set_database g Hg). Qed.
End ignores.

Lemma ignores_on_files {A} w (m : F → result A * F) : ignores (set_wal w) (on_files m).
Proof. intros e. unfold on_files. simpl. by destruct (m (ex_files e)). Qed.

#[local] Hint Resolve ignores_ret ignores_liftM ignores_raise ignores_on_catalog ignores_on_table ignores_on_database
  ignores_on_session ignores_requireTable ignores_set_session ignores_session ignores_database ignores_set_database
  ignores_on_files outside_wal outside_files : ignores.

(** ** Undo and rollback do not touch the log or the files *)

Ltac ignoring := repeat (intros; first
  [ solve [auto with ignores]
  | match goal with
    | |- ignores _ (@mbind _ _ _ _ _ _) => apply ignores_bind
    | |- ignores _ (try_catch _ _) => apply ignores_catch
    | |- ignores _ (require _ _) => apply ignores_liftM
    | |- context [match ?x with _ => _ end] => destruct x
    end ]).

Section undo_ignores.
Context (g : Executor → Executor) (Hg : outside g).

Lemma ignores_database_ok m : ignores g (database_ok m).
Proof. unfold database_ok. apply ignores_bind; [|ignoring]. apply ignores_gets. intros e. by rewrite (out_database g Hg). Qed.
#[local] Hint Resolve ignores_database_ok : ignores.

Lemma ignores_undo_in_table r : ignores g (undo_in_table i2d dadd dsub dchars r).
Proof.
  unfold undo_in_table, rethrow. destruct (ur_kind r); ignoring.
Qed.

Lemma ignores_undo r : ignores g (applyUndoRecord i2d dadd dsub dchars r).
Proof.
  unfold applyUndoRecord. pose proof (ignores_undo_in_table r) as Ht.
  pose proof (ignores_database g Hg (λ d, d ≫= Database_table (ur_tableName r))) as Hf.
  destruct (ur_kind r); try solve [ignoring]; (apply ignores_bind; [exact Hf|]; ignoring).
Qed.

Lemma ignores_undo_all fuel : ignores g (undo_all i2d dadd dsub dchars fuel).
Proof.
  induction fuel as [|fuel IH]; cbn [undo_all]; [apply ignores_ret|].
  apply ignores_bind; [by apply (ignores_session g Hg ts_undoLog)|]. intros log.
  destruct (UndoLog_pop log) as [[rest r]|]; [|apply ignores_ret].
  apply ignores_bind; [by apply (ignores_set_session g Hg (set_undo rest))|]. intros _.
  apply ignores_bind; [apply ignores_undo|]. by intros _.
Qed.

Lemma ignores_undoTransaction : ignores g (undoTransaction i2d dadd dsub dchars).
Proof. apply ignores_bind; [by apply (ignores_session g Hg ts_undoLog)|]. intros. apply ignores_undo_all. Qed.

Lemma ignores_rollback : ignores g (executeRollback i2d dadd dsub dchars).
Proof.
  unfold executeRollback. apply ignores_bind; [by apply (ignores_session g Hg transactionActive)|]. intros active.
  destruct (negb active); [apply ignores_ret|]. apply ignores_bind; [apply ignores_undoTransaction|]. ignoring.
Qed.
End undo_ignores.

(** What a computation that ignores the log and the files leaves. *)
Lemma ignores_frame {A} (m : exec A) e : (∀ w, ignores (set_wal w) m) → (∀ f, ignores (set_files f) m) →
  ex_wal (m e).2 = ex_wal e ∧ ex_files (m e).2 = ex_files e.
Proof.
  intros Hw Hf. specialize (Hw (ex_wal e) e). specialize (Hf (ex_files e) e).
  replace (set_wal (ex_wal e) e) with e in Hw by (by destruct e).
  replace (set_files (ex_files e) e) with e in Hf by (by destruct e).
  destruct (m e) as [r e']. simpl. by split; [injection Hw as -> | injection Hf as ->].
Qed.

(** ** Replay *)

Hypothesis replay_ignores_log : ∀ w q, ignores (set_wal w) (replayQuery q).

Lemma ignores_replay w r : ignores (set_wal w) (replay_record i2d dadd dsub dchars replayQuery r).
Proof.
  assert (∀ redo, ignores (set_wal w) (applyPhysicalRedo i2d dadd dsub dchars redo)) as Hp.
  { intros redo. unfold applyPhysicalRedo. ignoring. }
  assert (∀ redo, ignores (set_wal w) (applyPageImageRedo redo)) as Hi.
  { intros redo. unfold applyPageImageRedo. ignoring. }
  pose proof (replay_ignores_log w (wal_payload r)) as Hq.
  unfold replay_record. destruct (wal_operation r); try done; ignoring; try (intros; by apply ignores_mapM).
  apply ignores_modify. intros e. simpl. destruct (ex_database e) as [db|]; [|done]. by destruct (String.eqb _ _).
Qed.

(** A new process. *)
Definition boot (file : bytes) (files : F) : Executor := mkExecutor None session_new (wal_open (Some file)) files false.

Definition loaded (files : F) : option Database :=
  match sm_loadFirstDatabase files with Ok db => Some db | Throw _ => None end.

(** The state and result of the replay of [rs]. *)
Definition replay_run (rs : list WalRecord) (file : bytes) (files : F) : result unit * Executor :=
  mapM_ (replay_record i2d dadd dsub dchars replayQuery)
    (replay_records rs (bool_decide (is_Some (loaded files))))
    (set_replaying true (set_database (loaded files) (boot file files))).

Definition replayed (rs : list WalRecord) (file : bytes) (files : F) : option Database :=
  match replay_run rs file files with (Ok _, e) => ex_database e | (Throw _, _) => None end.

Lemma recover_database file files : ∃ e',
  recoverFromStorage i2d dadd dsub dchars replayQuery (boot file files) = (Ok tt, e') ∧
  ex_database e' = replayed (wal_readAll (wal_open (Some file))) file files.
Proof.
  unfold recoverFromStorage, try_catch, mbind, M_bind, gets, liftM, modify, replayed, replay_run, loaded, boot. simpl.
  destruct (sm_loadFirstDatabase files) as [db|x]; simpl; unfold recoverFromWal, mbind, M_bind, gets, modify, try_catch; simpl;
    destruct (wal_readAll _) as [|r rs] eqn:Er; try (by eexists);
    match goal with |- context [mapM_ ?f ?l ?s] => destruct (mapM_ f l s) as [[[]|x'] e2] end; by eexists.
Qed.

(** The replay of a list of records does not depend on the bytes of the log. *)
Lemma replayed_file rs file file' files : replayed rs file files = replayed rs file' files.
Proof.
  unfold replayed, replay_run.
  pose proof (ignores_mapM _ (replay_record i2d dadd dsub dchars replayQuery)
    (replay_records rs (bool_decide (is_Some (loaded files)))) (ignores_replay (wal_open (Some file)))
    (set_replaying true (set_database (loaded files) (boot file' files)))) as E.
  change (set_wal (wal_open (Some file)) (set_replaying true _)) with (set_replaying true (set_database (loaded files) (boot file files))) in E.
  rewrite E. match goal with |- context [mapM_ ?f ?l ?s] => by destruct (mapM_ f l s) as [[]] end.
Qed.

Lemma after_save_snoc rs acc r : wal_operation r ≠ Wal_SaveDatabase →
  after_save (rs ++ [r]) (acc ++ [r]) = after_save rs acc ++ [r].
Proof.
  intros Hr. revert acc. induction rs as [|a rs IH]; intros acc; simpl; [by destruct (wal_operation r)|].
  destruct (wal_operation a); apply IH.
Qed.

Lemma replay_records_snoc rs r b : wal_operation r ≠ Wal_SaveDatabase →
  replay_records (rs ++ [r]) b = replay_records rs b ++ [r].
Proof. intros Hr. unfold replay_records. destruct b; [|done]. by apply after_save_snoc. Qed.

(** A new process that finds [file] ends up with the tables of [db]. *)
Definition recovers (file : bytes) (files : F) (db : option Database) : Prop :=
  ∃ e' d dr, recoverFromStorage i2d dadd dsub dchars replayQuery (boot file files) = (Ok tt, e') ∧
    db = Some d ∧ ex_database e' = Some dr ∧ paired_db i2d dadd dsub dchars d dr.

Lemma recovers_replayed rs file files db : wal_readAll (wal_open (Some file)) = rs →
  recovers file files db ↔ ∃ d dr, db = Some d ∧ replayed rs file files = Some dr ∧ paired_db i2d dadd dsub dchars d dr.
Proof.
  intros <-. destruct (recover_database file files) as (e' & E & Ed). unfold recovers. split.
  - intros (e2 & d & dr & E2 & -> & Hdr & Hp). exists d, dr. rewrite <- Ed. split_and!; [done| |done]. congruence.
  - intros (d & dr & -> & Hdr & Hp). exists e', d, dr. split_and!; [done..| |done]. congruence.
Qed.

(** ** Commit *)

Abbreviation tm_of e := (ts_transactionManager (ex_session e)).
Abbreviation pending_of e := (ts_pendingWal (ex_session e)).

Lemma flush_loop_images recs pending pages rows e :
  Forall2 (λ r p, pw_operation p = Wal_PageImageRedo ∧ decodePageImageRedos (pw_payload p) = Ok [r]) recs pending →
  flush_loop pending pages rows e = (Ok (pages ++ recs, rows), e).
Proof.
  intros HF. revert pages. induction HF as [|r p recs pending [Hop Hdec] HF IH]; intros pages; cbn [flush_loop].
  - by rewrite app_nil_r.
  - rewrite Hop. unfold mbind, M_bind, liftM. rewrite Hdec, IH. by rewrite <- app_assoc.
Qed.

(** The records of a transaction become one record of the log. *)
Lemma flush_images recs e : recs ≠ [] → size_ok (length recs) → Forall image_record_ok recs →
  Forall2 (λ r p, pw_operation p = Wal_PageImageRedo ∧ decodePageImageRedos (pw_payload p) = Ok [r]) recs (pending_of e) →
  ∃ payload, decodePageImageRedos payload = Ok recs ∧
    flushPendingWal e = (Ok tt, set_session (clearPendingWal (ex_session e))
                                  (set_wal (wal_append Wal_PageImageRedo payload (ex_wal e)).2 e)).
Proof.
  intros Hne Hsz Hok HF. destruct (image_batch_codes recs Hne Hsz Hok) as (payload & Eenc & Edec & _).
  exists payload. split; [done|]. unfold flushPendingWal, mbind, M_bind, gets.
  pose proof (flush_loop_images recs (pending_of e) [] [] e HF) as El.
  destruct (pending_of e) as [|p pending]; [by apply Forall2_nil_inv_r in HF|]. rewrite El. simpl.
  destruct recs as [|r recs]; [done|]. unfold liftM. by rewrite Eenc.
Qed.

Lemma commit_session e w : ts_activeTransaction (ex_session e) = Some w → isSerializable (tm_of e) w = true →
  ∃ tm, on_session session_commit e =
    (Ok (messageResult true "committed transaction"), set_session (mkTxnSession tm [] None None (pending_of e)) e).
Proof.
  intros Ha Hs. unfold on_session, session_commit. rewrite Ha, Hs. cbn [negb]. unfold tm_commit. rewrite Hs.
  assert (∃ t, active_txn (tm_of e) w = Some t) as [t ->].
  { unfold isSerializable in Hs. unfold active_txn. destruct (tm_find (tm_of e) w) as [t|]; [|done].
    destruct (bool_decide (txn_state t = Active)) eqn:Ea; [|done]. simpl in *. eexists. 
    try rewrite Ea. reflexivity. }
  cbn [negb]. by eexists.
Qed.

Definition log_of e : bytes := default [] (wal_file (ex_wal e)).

Lemma wal_inv_log e rs : wal_inv (ex_wal e) rs → log_of e = wal_bytes rs ∧ Forall wal_record_ok rs.
Proof. by intros (Hok & Hf & _). Qed.

Lemma readAll_log rs torn : Forall wal_record_ok rs → torn = [] ∨ wal_readRecord torn = None →
  wal_readAll (wal_open (Some (wal_bytes rs ++ torn))) = rs.
Proof. intros Hok Ht. by eapply wal_readAll_prefix. Qed.

(** Replaying one more record of page images. *)
Lemma replayed_snoc rs r recs file files er dbr : replay_run rs file files = (Ok tt, er) →
  wal_operation r = Wal_PageImageRedo → decodePageImageRedos (wal_payload r) = Ok recs →
  mapM_ applyPageImageRedo recs er = (Ok tt, set_database (Some dbr) er) →
  replayed (rs ++ [r]) file files = Some dbr.
Proof.
  intros Hrun Hop Hdec Hm. unfold replayed, replay_run in *. rewrite replay_records_snoc by (by rewrite Hop).
  rewrite mapM_app, Hrun. simpl. unfold mbind, M_bind, replay_record. rewrite Hop. unfold mbind, M_bind, liftM.
  rewrite Hdec, Hm. done.
Qed.

Lemma recovers_start e rs : wal_inv (ex_wal e) rs → recovers (log_of e) (ex_files e) (ex_database e) →
  ∃ er, replay_run rs (log_of e) (ex_files e) = (Ok tt, er) ∧ ∀ e1, same_frame e e1 → ex_database e1 = ex_database e →
    pending_of e1 = [] → tx_inv i2d dadd dsub dchars e er [] e1.
Proof.
  intros Hw Hrec. destruct (wal_inv_log _ _ Hw) as [El Hok].
  apply (recovers_replayed rs) in Hrec as (d & dr & Ed & Hr & Hp).
  2:{ rewrite El, <- (app_nil_r (wal_bytes rs)). apply readAll_log; auto. }
  unfold replayed in Hr. destruct (replay_run rs (log_of e) (ex_files e)) as [[[]|x] er]; [|done].
  exists er. split; [done|]. intros e1 Hf Edb Ep. split; [done|done|by rewrite Ep; constructor|].
  exists d, dr. split_and!; [congruence| |done]. simpl. unfold mret, M_ret. f_equal. by destruct er; simpl in *; subst.
Qed.

(** Every log that a crash can leave while one record is appended. *)
Lemma append_crash rs r file : Forall wal_record_ok (rs ++ [r]) → wal_bytes rs `prefix_of` file →
  file `prefix_of` wal_bytes (rs ++ [r]) →
  wal_readAll (wal_open (Some file)) = if bool_decide (file = wal_bytes (rs ++ [r])) then rs ++ [r] else rs.
Proof.
  intros Hok [p ->] Hp. pose proof Hok as [Hrs [Hr _]%Forall_cons]%Forall_app.
  assert (wal_bytes (rs ++ [r]) = wal_bytes rs ++ wal_record_bytes r) as E.
  { unfold wal_bytes. rewrite map_app, concat_app. simpl. by rewrite app_nil_r. }
  rewrite E in *. apply prefix_app_inv in Hp. case_bool_decide as Heq.
  - rewrite Heq, <- E, <- (app_nil_r (wal_bytes (rs ++ [r]))). apply readAll_log; auto.
  - apply readAll_log; [done|]. right. apply (wal_readRecord_torn r); [done|done|]. congruence.
Qed.

(** COMMIT of a serializable transaction with the redo records [recs]. *)
Lemma commit_runs e er recs e1 w rs : tx_inv i2d dadd dsub dchars e er recs e1 →
  ts_activeTransaction (ex_session e) = Some w → isSerializable (tm_of e1) w = true →
  wal_inv (ex_wal e) rs → wal_room (ex_wal e) rs → size_ok (length recs) →
  ∃ e2, executeCommit i2d dadd dsub dchars e1 = (Ok (messageResult true "committed transaction"), e2) ∧
    ex_database e2 = ex_database e1 ∧ ex_files e2 = ex_files e ∧
    (size_ok (length (log_of e2)) →
     (recs = [] ∧ ex_wal e2 = ex_wal e) ∨
     (∃ r, wal_operation r = Wal_PageImageRedo ∧ decodePageImageRedos (wal_payload r) = Ok recs ∧
        wal_inv (ex_wal e2) (rs ++ [r]))).
Proof.
  intros [(Fw & Ff & _ & Fa) Hok HF _] Hact Hser Hw Hroom Hsz. rewrite <- Fa in Hact.
  unfold executeCommit, mbind, M_bind, gets. rewrite Hact, Hser. cbn [negb].
  destruct recs as [|rec recs].
  - apply Forall2_nil_inv_l in HF. unfold flushPendingWal, mbind, M_bind, gets. rewrite HF. unfold mret at 1, M_ret at 1.
    destruct (commit_session e1 w Hact Hser) as [tm ->]. eexists. split_and!; [done..|]. intros _. by left.
  - destruct (flush_images (rec :: recs) e1) as (payload & Edec & ->); [done..|].
    destruct (commit_session (set_session (clearPendingWal (ex_session e1))
      (set_wal (wal_append Wal_PageImageRedo payload (ex_wal e1)).2 e1)) w Hact Hser) as [tm ->].
    eexists. split_and!; [done..|]. unfold log_of. simpl. intros Hlog. right.
    assert (size_ok (length payload)) as Hp.
    { unfold wal_append in Hlog. destruct (wal_nextLsn_step _) as [lsn next]. simpl in Hlog.
      rewrite length_app, wal_record_bytes_length in Hlog. simpl in Hlog. unfold size_ok in *. lia. }
    rewrite Fw. pose proof (wal_append_inv (ex_wal e) rs Wal_PageImageRedo payload Hw Hroom ltac:(done) eq_refl Hp) as Ha.
    destruct (wal_append Wal_PageImageRedo payload (ex_wal e)) as [lsn w']. eexists. by split_and!; [..|apply Ha].
Qed.

End recovery_proof.

(** ** An example *)

Section example.
Abbreviation Database := (Database unit PageRowStore).
Abbreviation Executor := (Executor unit Database).

(** Files that hold one database. *)
#[local] Instance one_file : StorageManager Database Database := {
  sm_loadFirstDatabase := Ok;
  sm_loadDatabase _ := Ok;
  sm_saveDatabase db _ := (Ok tt, db);
  sm_deleteDatabase _ f := (Ok tt, f)
}.
Definition no_statements (q : bytes) : M Executor unit := raise (runtime_error "no statement").

(** The table [items] with an index and a row, as the tables of [TableProof]. *)
Definition shop_store : PageRowStore := mkPageRowStore 256 (mkBufferPool 128 [] ∅) [] [] ∅ ∅ 0 ∅.
Definition shop_new : Table unit PageRowStore :=
  mkTable "items" items_schema items_checks [] items_uniques shop_store im_empty ∅ [].
Definition shop_ops : list table_op := [Do_createIndex "by_qty" ["qty"]; Do_insert [VInt 1; VInt 7] 1].
Definition shop_items : Table unit PageRowStore := st_table (items_run shop_ops (mkState shop_new None)).
Definition shop_db : Database := mkDatabase "shop" [("items", shop_items)].

(** An executor that has just started a transaction. *)
Definition shop : Executor :=
  (executeBegin (mkExecutor (Some shop_db) session_new (wal_open None) shop_db false)).2.

(** A refused insert between an insert, an update and a delete. *)
Definition shop_changes : list (string * row_change) :=
  [("items", RC_insert [VInt 2; VInt 9]); ("items", RC_insert [VInt 2; VInt 1]);
   ("items", RC_update 0 [VInt 1; VInt 7] 1 (VInt 3)); ("items", RC_erase 1 [VInt 2; VInt 9])].

Lemma shop_ok : ∃ v, table_ok (λ z, z) Z.add Z.sub (λ _, []) shop_items v.
Proof.
  assert (makePageRowStore = Ok shop_store) as Es by reflexivity.
  assert (rs_rep shop_store vrs_empty) as Hrep by (by apply (PageRowStore_new_rep 256 128)).
  pose proof (Table_new_ok (λ z, z) Z.add Z.sub (λ _, []) shop_store "items" items_schema items_checks [] items_uniques
    shop_new Hrep eq_refl items_names) as Hok.
  destruct (run_ops_ok (λ z, z) Z.add Z.sub (λ _, []) shop_new vrs_empty _ shop_ops (table_ok_state _ _ _ _ _ _ None Hok))
    as [v Hs]; [by repeat constructor|].
  exists v. by apply (ok_state_table _ _ _ _ _ _ _ Hs).
Qed.

Lemma paired_refl {Select} i2d dadd dsub dchars (t : Table Select PageRowStore) v :
  table_ok i2d dadd dsub dchars t v → t_schema t ≠ [] → paired i2d dadd dsub dchars t t.
Proof.
  intros Hok Hne. exists v. split_and!; [done..| |done].
  split; [done|apply Hok|apply Hok|by split_and!|done].
Qed.

Lemma shop_recovers : recovers (λ z, z) Z.add Z.sub (λ _, []) no_statements (log_of shop) (ex_files shop) (ex_database shop).
Proof.
  apply (recovers_replayed _ _ _ _ _ []); [reflexivity|]. exists shop_db, shop_db. split_and!; [done..|].
  split_and!; [done|vm_compute; repeat constructor; set_solver|]. repeat constructor.
  destruct shop_ok as [v Hv]. eapply paired_refl; [exact Hv|done].
Qed.

Lemma shop_fits : changes_fit (λ z, z) Z.add Z.sub (λ _, []) 1 shop_changes shop.
Proof. vm_compute. repeat constructor. Qed.

End example.
