(* ===== verification/RollbackProof.v ===== *)
(** * Rollback restores the database

    The undo of a transaction of row changes: every table has the rows it had when
    the transaction began, under the same row ids, with exact indexes.  On a table with
    the rows and indexes that a change left, the undo of the change succeeds and gives
    back the rows before it, and the versions before it unless the change was an insert
    into a slot that had held another row. *)

From S2P Require Import Prelude Value BinaryIO BufferPool PageCodec VectorRowStore PageRowStore PageRowStoreProof WriteAheadLog.
From S2P Require Import TransactionManager Mvcc StringPattern HashIndex BTreeIndex BTreeSpec RedoCodec.
From S2P Require Import IndexExpression Predicate SetOps IndexManager IndexManagerProof Histogram.
From S2P Require Import Table TableProof TableSchema TablePages TablePagesProof Database Session ForeignKeys Recovery.
From S2P Require Import DmlEngine DmlReplay RecoveryProof.
Local Open Scope nat_scope.

(** ** Undo of row changes *)

Lemma revive_get v i row j : vrs_inv v → vrs_get i v = None → i < vrs_capacity v →
  (vrs_revive i row v).1 = true ∧ vrs_get j (vrs_revive i row v).2 = if decide (j = i) then Some row else vrs_get j v.
Proof.
  unfold vrs_get, vrs_revive, vrs_capacity. intros Hv Hg Hi. pose proof Hi as [o Ho]%lookup_lt_is_Some_2.
  assert (o = None) as -> by (unfold vrs_lookup in Hg; rewrite Ho in Hg; by destruct o).
  rewrite Ho, bool_decide_true by (by apply Hv). split; [done|]. by apply vrs_lookup_insert.
Qed.

Lemma capacity_erase i v : vrs_capacity (vrs_erase i v).2 = vrs_capacity v.
Proof. unfold vrs_erase, vrs_capacity. destruct (vrs_lookup v i); [|done]. simpl. by rewrite length_insert. Qed.
Lemma capacity_update i row v : vrs_capacity (vrs_update i row v).2 = vrs_capacity v.
Proof. unfold vrs_update, vrs_capacity. destruct (vrs_lookup v i); [|done]. simpl. by rewrite length_insert. Qed.
Lemma capacity_revive i row v : vrs_capacity (vrs_revive i row v).2 = vrs_capacity v.
Proof.
  unfold vrs_revive, vrs_capacity. destruct (vrs_rows v !! i) as [[]|]; [done| |done].
  case_bool_decide; [|done]. simpl. by rewrite length_insert.
Qed.
Lemma capacity_append row v : vrs_capacity v ≤ vrs_capacity (vrs_append row v).2.
Proof.
  unfold vrs_append, vrs_capacity. destruct (unsnoc (vrs_free v)) as [[]|]; simpl; [by rewrite length_insert|].
  rewrite length_app. lia.
Qed.

Section undo.
Context {Select S : Type} `{RowStoreLaws S}.
Context (i2d : Z → Z) (dadd dsub : Z → Z → Z) (dchars : Z → chars).
Abbreviation Table := (Table Select S).
Abbreviation state := (state Select S).
Abbreviation hinv := (hinv (Select := Select) (S := S) i2d dadd dsub dchars).
Abbreviation good_row := (good_row (Select := Select) (S := S) dchars).
Implicit Types t : Table.
Implicit Types s : state.
#[local] Existing Instances op_ret op_bind.

(** The row [o] at [i], the others as in [v]. *)
Definition put_get (v : VectorRowStore) (i : RowId) (o : option Row) (v' : VectorRowStore) : Prop :=
  (∀ j, vrs_get j v' = if decide (j = i) then o else vrs_get j v) ∧ vrs_capacity v' = vrs_capacity v.

Lemma undo_insert_runs t v im vs tm s i row : at_state t v im vs tm s → hinv t v im → vrs_get i v = Some row →
  ∃ v', put_get v i None v' ∧ runs (eraseDiscardingVersion i2d dadd dsub i) s (Ok true)
    (λ s', ∃ im', same_defs im im' ∧ at_state t v' im' (popLatestVersion i vs).2 tm s' ∧ hinv t v' im').
Proof.
  intros Hs Hinv Hg. exists (vrs_erase i v).2. pose proof (λ j, erase_get v i row j Hg) as Hdel.
  split; [split; [intros j; apply Hdel|apply capacity_erase]|].
  eapply runs_bind; [eapply get_runs, Hs|]. rewrite Hg. intros s1 Hs1.
  eapply (runs_bind _ _ _ true).
  { eapply runs_store; [exact Hs1|]. intros store Hrep. rewrite <- (proj1 (Hdel i)). apply rs_erase_sim, Hrep. }
  intros s2 Hs2. cbn [negb]. eapply runs_bind; [eapply runs_versions, Hs2|]. intros s3 Hs3.
  eapply runs_bind.
  { eapply rebuild_runs; [exact Hs3|apply Hinv|]. eapply rebuild_keys; [apply Hinv|]. intros j rj.
    rewrite (proj2 (Hdel j)). case_decide; [done|]. apply (tc_rows _ _ _ _ _ _ _ (hi_core _ _ _ _ _ _ _ Hinv)). }
  intros s4 (im' & (Hd & Hr) & Hs4). apply runs_ret. exists im'. split_and!; [done..|].
  eapply hinv_del; [exact Hinv| |done..]. intros j. apply Hdel.
Qed.

(** The end of both other undo operations. *)
Lemma undo_put_runs t v im v' vs tm s i row : at_state t v' im vs tm s → hinv t v im → put_get v i (Some row) v' →
  good_row t row → (∀ c, c ∈ allUniqueConstraints t → ¬ conflicts t c row v (Some i)) →
  runs (_ ← Table_rebuildIndexes i2d dadd dsub; mret true) s (Ok true)
    (λ s', ∃ im', same_defs im im' ∧ at_state t v' im' vs tm s' ∧ hinv t v' im').
Proof.
  intros Hs Hinv [Hput _] Hrow Hno. eapply runs_bind.
  { eapply rebuild_runs; [exact Hs|apply Hinv|]. eapply rebuild_keys; [apply Hinv|]. intros j rj.
    rewrite Hput. case_decide; [by intros [= <-]|]. apply (tc_rows _ _ _ _ _ _ _ (hi_core _ _ _ _ _ _ _ Hinv)). }
  intros s' (im' & (Hd & Hr) & Hs'). apply runs_ret. exists im'. split_and!; [done..|].
  by eapply hinv_put.
Qed.

Lemma undo_update_runs t v im vs tm s i old row : at_state t v im vs tm s → hinv t v im → vrs_get i v = Some old →
  good_row t row → (∀ c, c ∈ allUniqueConstraints t → ¬ conflicts t c row v (Some i)) →
  ∃ v', put_get v i (Some row) v' ∧ runs (replaceRow i2d dadd dsub dchars i row) s (Ok true)
    (λ s', ∃ im', same_defs im im' ∧ at_state t v' im' (popLatestVersion i vs).2 tm s' ∧ hinv t v' im').
Proof.
  intros Hs Hinv Hg Hrow Hno. exists (vrs_update i row v).2.
  assert (put_get v i (Some row) (vrs_update i row v).2) as Hput.
  { split; [|apply capacity_update]. intros j. by apply (update_get v i old). }
  split; [done|]. pose proof Hrow as (Ev & _ & Hst).
  destruct (enforce_runs i2d dadd dsub dchars t v im vs tm s row (Some i) Hs (hi_core _ _ _ _ _ _ _ Hinv) Hrow)
    as [[_ Henf]|(c & Hc & Hyes & _)]; [|by destruct (Hno c Hc)].
  eapply runs_table; [exact Hs|]. intros store Hrep.
  eapply runs_bind; [eapply runs_lift_eq; [exact Ev|exact Hs]|]. intros s1 Hs1.
  eapply runs_bind; [eapply get_runs, Hs1|]. rewrite Hg. intros s2 Hs2.
  eapply runs_bind; [by apply Henf|]. intros s3 Hs3.
  eapply runs_bind; [by eapply update_store_runs|]. intros s4 Hs4. cbn [negb].
  eapply runs_bind; [eapply runs_versions, Hs4|]. intros s5 Hs5. by eapply undo_put_runs.
Qed.

Lemma undo_delete_runs t v im vs tm s i row : at_state t v im vs tm s → hinv t v im → vrs_get i v = None →
  i < vrs_capacity v → good_row t row → (∀ c, c ∈ allUniqueConstraints t → ¬ conflicts t c row v (Some i)) →
  ∃ v', put_get v i (Some row) v' ∧ runs (Table_revive i2d dadd dsub dchars i row) s (Ok true)
    (λ s', ∃ im', same_defs im im' ∧ at_state t v' im' (clearLatestDeletedBy i vs).2 tm s' ∧ hinv t v' im').
Proof.
  intros Hs Hinv Hg Hi Hrow Hno. exists (vrs_revive i row v).2. pose proof (at_state_inv _ _ _ _ _ _ Hs) as Hv.
  assert (put_get v i (Some row) (vrs_revive i row v).2) as Hput.
  { split; [|apply capacity_revive]. intros j. by apply revive_get. }
  split; [done|]. pose proof Hrow as (Ev & _ & Hst).
  destruct (enforce_runs i2d dadd dsub dchars t v im vs tm s row (Some i) Hs (hi_core _ _ _ _ _ _ _ Hinv) Hrow)
    as [[_ Henf]|(c & Hc & Hyes & _)]; [|by destruct (Hno c Hc)].
  eapply runs_table; [exact Hs|]. intros store Hrep.
  eapply runs_bind; [eapply runs_lift_eq; [exact Ev|exact Hs]|]. intros s1 Hs1.
  eapply runs_bind; [by apply Henf|]. intros s2 Hs2.
  eapply (runs_bind _ _ _ true).
  { eapply runs_store; [exact Hs2|]. intros store' Hrep'. rewrite <- (proj1 (revive_get v i row i Hv Hg Hi)).
    by apply rs_revive_sim. }
  intros s3 Hs3. cbn [negb]. eapply runs_bind; [eapply runs_versions, Hs3|]. intros s4 Hs4. by eapply undo_put_runs.
Qed.

(** A row that was live conflicts with none of the others. *)
Lemma live_no_conflict t v im i row v' o : hinv t v im → vrs_get i v = Some row →
  (∀ j, vrs_get j v' = if decide (j = i) then o else vrs_get j v) →
  ∀ c, c ∈ allUniqueConstraints t → ¬ conflicts t c row v' (Some i).
Proof.
  intros Hinv Hg Hput c Hc (j & rj & Hj & Hgj & Eu). rewrite Hput in Hgj.
  assert (j ≠ i) as Hne by (intros ->; simpl in Hj; by rewrite Nat.eqb_refl in Hj). rewrite decide_False in Hgj by done.
  by apply (hi_unique _ _ _ _ _ _ _ Hinv c i j row rj).
Qed.
End undo.

(** ** Undo of a change *)

Section undo_change.
Context {Select : Type}.
Context (i2d : Z → Z) (dadd dsub : Z → Z → Z) (dchars : Z → chars).
Abbreviation Table := (Table Select PageRowStore).
Abbreviation hinv := (hinv (Select := Select) (S := PageRowStore) i2d dadd dsub dchars).
Abbreviation table_ok := (table_ok (Select := Select) (S := PageRowStore) i2d dadd dsub dchars).
Implicit Types t : Table.

Definition undo_op (c : row_change) (i : RowId) : op Select PageRowStore bool :=
  match c with
  | RC_insert _ => eraseDiscardingVersion i2d dadd dsub i
  | RC_erase _ before => Table_revive i2d dadd dsub dchars i before
  | RC_update _ before _ _ => replaceRow i2d dadd dsub dchars i before
  end.

(** The undo record carries the row before the change. *)
Definition accurate (c : row_change) (v : VectorRowStore) : Prop :=
  match c with
  | RC_insert _ => True
  | RC_erase i before | RC_update i before _ _ => vrs_get i v = Some before ∨ vrs_get i v = None
  end.

(** The change does not insert into a slot that has versions. *)
Definition fresh_slot (c : row_change) (i : RowId) (vs : MVCCRowStore) : Prop :=
  match c with RC_insert _ => vs !! i = None | _ => True end.

(** [t'] has the rows of [t], and possibly more free slots. *)
Record table_like (exact : Prop) t t' : Prop := {
  tl_static : static t' = static t;
  tl_defs : same_defs (t_indexManager t) (t_indexManager t');
  tl_versions : exact → t_versions t' = t_versions t;
  tl_heap : ∃ v', prs_rep (t_rowStore t') v' ∧ hinv t' v' (t_indexManager t') ∧
    ∀ v, prs_rep (t_rowStore t) v → (∀ j, vrs_get j v' = vrs_get j v) ∧ vrs_capacity v ≤ vrs_capacity v'
}.

Lemma rep_gets s v v' : prs_rep s v → prs_rep s v' → (∀ j, vrs_get j v' = vrs_get j v) ∧ vrs_capacity v' = vrs_capacity v.
Proof.
  intros Hv Hv'. change (rs_rep s v) in Hv. change (rs_rep s v') in Hv'. split.
  - intros j. destruct (rs_get_sim s v j Hv) as (s1 & E1 & _), (rs_get_sim s v' j Hv') as (s2 & E2 & _).
    rewrite E1 in E2. by injection E2.
  - rewrite <- (rs_capacity_sim s v Hv). symmetry. exact (rs_capacity_sim s v' Hv').
Qed.

Lemma good_row_static t t' row : static t = static t' → good_row dchars t row → good_row dchars t' row.
Proof. destruct t, t'. intros E. unfold static in E. simpl in E. by injection E as -> -> -> -> ->. Qed.

Lemma latest_is_open vs i row : latest vs i = Some row → latest_open vs i ∧ is_Some (vs !! i).
Proof.
  unfold latest, latest_open. destruct (vs !! i) as [chain|]; [|done]. simpl. destruct (last chain) as [x|]; [|done].
  destruct (rv_deletedBy x) eqn:E; [done|]. by intros _.
Qed.

(** The rows of a change, undone. *)
Lemma changed_gets c i v v1 : vrs_inv v → changed c i v v1 → accurate c v →
  vrs_capacity v ≤ vrs_capacity v1 ∧
  match c with
  | RC_insert row => vrs_get i v = None ∧ ∀ j, vrs_get j v1 = if decide (j = i) then Some row else vrs_get j v
  | RC_erase _ before =>
      vrs_get i v = Some before ∧ i < vrs_capacity v ∧ ∀ j, vrs_get j v1 = if decide (j = i) then None else vrs_get j v
  | RC_update _ before k value => vrs_get i v = Some before ∧
      ∀ j, vrs_get j v1 = if decide (j = i) then Some (<[k := value]> before) else vrs_get j v
  end.
Proof.
  intros Hv Hc Ha. destruct c as [row|j before|j before k value]; simpl in *.
  - destruct Hc as [-> ->]. split; [apply capacity_append|]. pose proof (vrs_append_spec v row Hv) as Hs.
    destruct (vrs_append row v) as [i v']. by destruct Hs as (_ & ? & ?).
  - destruct Hc as (<- & [row Hg] & ->). rewrite capacity_erase. split; [done|].
    destruct Ha as [Ha|Ha]; [|congruence]. split_and!; [done| |intros k; by apply (erase_get v i before)].
    apply vrs_lookup_Some, lookup_lt_Some in Ha. exact Ha.
  - destruct Hc as (<- & row & Hg & ->). rewrite capacity_update. split; [done|].
    destruct Ha as [Ha|Ha]; [|congruence]. rewrite Ha in Hg. injection Hg as <-. split; [done|].
    intros l. by apply (update_get v i before).
Qed.

Definition undo_versions (c : row_change) (i : RowId) (vs : MVCCRowStore) : MVCCRowStore :=
  match c with
  | RC_erase _ _ => (clearLatestDeletedBy i vs).2
  | _ => (popLatestVersion i vs).2
  end.

(** The undo of a change on a table that has the rows the change left. *)
Lemma undo_op_runs t v im u imu vs tm s c i v1 : hinv t v im → hinv t u imu → vrs_inv v →
  at_state t u imu vs tm s → changed c i v v1 → accurate c v →
  (∀ j, vrs_get j u = vrs_get j v1) → vrs_capacity v1 ≤ vrs_capacity u →
  ∃ u', (∀ j, vrs_get j u' = vrs_get j v) ∧ vrs_capacity v ≤ vrs_capacity u' ∧
    runs (undo_op c i) s (Ok true)
      (λ s', ∃ im', same_defs imu im' ∧ at_state t u' im' (undo_versions c i vs) tm s' ∧ hinv t u' im').
Proof.
  intros Hinv Hinvu Hv Hs Hc Ha Hu Hcap. destruct (changed_gets c i v v1 Hv Hc Ha) as [Hcap1 Hg].
  pose proof (tc_rows _ _ _ _ _ _ _ (hi_core _ _ _ _ _ _ _ Hinv)) as Hgood.
  destruct c as [row|i' before|i' before k value]; simpl in Hg.
  - destruct Hg as [Hn Hg]. destruct (undo_insert_runs i2d dadd dsub dchars t u imu vs tm s i row Hs Hinvu)
      as (u' & [Hp Ec] & Hrun). { rewrite Hu, Hg. by rewrite decide_True. }
    exists u'. split_and!; [|lia|exact Hrun]. intros j. rewrite Hp, Hu, Hg. case_decide; by simplify_eq.
  - destruct Hg as (Hb & Hi & Hg). assert (∀ j, vrs_get j u = if decide (j = i) then None else vrs_get j v) as Hu'.
    { intros j. by rewrite Hu, Hg. }
    destruct (undo_delete_runs i2d dadd dsub dchars t u imu vs tm s i before Hs Hinvu) as (u' & [Hp Ec] & Hrun).
    { rewrite Hu'. by rewrite decide_True. }
    { lia. }
    { by apply (Hgood i). }
    { exact (live_no_conflict i2d dadd dsub dchars t v im i before u _ Hinv Hb Hu'). }
    exists u'. split_and!; [|lia|exact Hrun]. intros j. rewrite Hp, Hu'. case_decide; by simplify_eq.
  - destruct Hg as [Hb Hg]. assert (∀ j, vrs_get j u = if decide (j = i) then Some (<[k := value]> before) else vrs_get j v) as Hu'.
    { intros j. by rewrite Hu, Hg. }
    destruct (undo_update_runs i2d dadd dsub dchars t u imu vs tm s i (<[k := value]> before) before Hs Hinvu)
      as (u' & [Hp Ec] & Hrun).
    { rewrite Hu'. by rewrite decide_True. }
    { by apply (Hgood i). }
    { exact (live_no_conflict i2d dadd dsub dchars t v im i before u _ Hinv Hb Hu'). }
    exists u'. split_and!; [|lia|exact Hrun]. intros j. rewrite Hp, Hu'. case_decide; by simplify_eq.
Qed.

(** ... and of its versions. *)
Lemma undo_versions_exact c i w v v1 vs : (∀ j, latest vs j = vrs_get j v) → vrs_inv v → changed c i v v1 →
  accurate c v → fresh_slot c i vs → undo_versions c i (versions_after c w v (Ok (Some i)) vs) = vs.
Proof.
  intros Hl Hv Hc Ha Hf. destruct (changed_gets c i v v1 Hv Hc Ha) as [_ Hg].
  destruct c as [row|i' before|i' before k value]; simpl in *.
  - rewrite pop_write; [done|]. unfold latest_open. by rewrite Hf.
  - destruct Hg as (Hb & _). rewrite <- Hl in Hb. apply latest_is_open in Hb as [Ho Hs]. by rewrite clear_erase.
  - destruct Hg as (Hb & _). rewrite Hb. rewrite <- Hl in Hb. apply latest_is_open in Hb as [Ho Hs]. by rewrite pop_write.
Qed.

Lemma undo_change exact t t1 t1' v v1 c i w tm : table_ok t v → prs_rep (t_rowStore t1) v1 → changed c i v v1 →
  accurate c v → (exact → fresh_slot c i (t_versions t)) →
  static t1 = static t → same_defs (t_indexManager t) (t_indexManager t1) →
  t_versions t1 = versions_after c w v (Ok (Some i)) (t_versions t) → table_like exact t1 t1' →
  ∃ t', undo_op c i (mkState t1' tm) = (Ok true, mkState t' tm) ∧ table_like exact t t'.
Proof.
  intros [Hrep [Hinv Hlat]] Hrep1 Hc Ha Hfresh Hst1 Hd1 Hvs1 [Hst2 Hd2 Hvs2 (u & Hru & Hinvu & Hu)].
  destruct (Hu v1 Hrep1) as [Hgu Hcu]. assert (static t = static t1') as Hstat by congruence.
  pose proof (pr_inv _ _ Hrep) as Hv.
  destruct (undo_op_runs t1' v (t_indexManager t) u (t_indexManager t1') (t_versions t1') tm (mkState t1' tm) c i v1)
    as (u' & Hg' & Hc' & (s' & E & im' & Hd' & (store & -> & Hrs) & Hinv')); [|done..| |done|done|done|done|].
  { by apply (hinv_static i2d dadd dsub dchars t). }
  { exists (t_rowStore t1'). split; [by destruct t1'|done]. }
  eexists. split; [exact E|]. split; simpl.
  - by rewrite Hstat.
  - eapply same_defs_trans; [exact Hd1|]. by eapply same_defs_trans.
  - intros Hex. rewrite (Hvs2 Hex), Hvs1. by eapply undo_versions_exact; [..|apply Hfresh].
  - exists u'. split_and!; [exact Hrs|by eapply hinv_static, Hinv'|]. intros v2 Hv2.
    destruct (rep_gets _ _ _ Hrep Hv2) as [Hg2 Hc2]. split; [|lia]. intros j. by rewrite Hg', Hg2.
Qed.
End undo_change.

(** ** The undo of a transaction *)

Section rollback.
Context {Select F : Type}.
Context (i2d : Z → Z) (dadd dsub : Z → Z → Z) (dchars : Z → chars).
Abbreviation Table := (Table Select PageRowStore).
Abbreviation Database := (Database Select PageRowStore).
Abbreviation Executor := (Executor Select F).
Abbreviation exec := (M Executor).
Abbreviation table_ok := (table_ok (Select := Select) (S := PageRowStore) i2d dadd dsub dchars).
Abbreviation table_like := (table_like (Select := Select) i2d dadd dsub dchars).
Abbreviation tm_of e := (ts_transactionManager (ex_session e)).
Implicit Types e : Executor.
Implicit Types t : Table.

(** ** What a change leaves *)

(** The same table with other marks. *)
Definition same_table t t' : Prop :=
  static t' = static t ∧ t_versions t' = t_versions t ∧ same_defs (t_indexManager t) (t_indexManager t') ∧
  ∀ v, table_ok t v → table_ok t' v.

Lemma capture_same t tm : ∃ images t', takePageImageCapture (mkState t tm) = (Ok images, mkState t' tm) ∧ same_table t t'.
Proof.
  eexists _, _. split; [reflexivity|]. 
  assert (same_defs (t_indexManager t) (take_index_marks (t_indexManager t))) as Hd.
  { split_and!; [done..| |]; simpl; rewrite <- list_fmap_compose; by apply list_fmap_ext. }
  split_and!; [done|done|done|apply Hd..|]. intros v [Hrep [Hinv Hl]].
  destruct (take_marks_reflect i2d dadd dsub (t_schema t) (t_indexManager t) v) as [Hr _];
    [apply (hi_core _ _ _ _ _ _ _ Hinv)|].
  split; [by apply clearDirtyPages_rep|]. split; [|done].
  apply (hinv_static i2d dadd dsub dchars t); [done|]. eapply hinv_indexes; [exact Hinv|exact Hd|exact Hr].
Qed.

Lemma append_image_any name e t : find_table name e = Some t → ∃ t', same_table t t' ∧
  let e' := (appendPageImageRedo name e).2 in
  ex_database e' = set_tables (smap_set name t') <$> ex_database e ∧
  ts_undoLog (ex_session e') = ts_undoLog (ex_session e) ∧
  ts_activeTransaction (ex_session e') = ts_activeTransaction (ex_session e).
Proof.
  intros Hf. destruct (capture_same t (Some (tm_of e))) as (images & t' & Et & Hs). exists t'. split; [done|].
  unfold appendPageImageRedo, mbind, M_bind. rewrite (on_table_found _ _ _ _ Hf), Et. cbv beta iota zeta. unfold liftM.
  destruct (encodePageImageRedo _) as [payload|x]; [|done].
  unfold appendWal, mbind, M_bind, gets. destruct (ex_replayingWal _); [done|].
  by destruct (transactionActive _).
Qed.

Definition undo_of (name : string) (c : row_change) (r : result (option RowId)) : list (UndoRecord Select PageRowStore) :=
  match r with Ok (Some i) => [undo_row name (kind_of c) i (before_of c)] | _ => [] end.

Lemma run_change_undo w name c e t : find_table name e = Some t → ts_activeTransaction (ex_session e) = Some w →
  let '(r, s) := op_state i2d dadd dsub dchars w c e t in
  ∃ t1, same_table (st_table s) t1 ∧
    let e1 := (run_change i2d dadd dsub dchars w name c e).2 in
    ex_database e1 = set_tables (smap_set name t1) <$> ex_database e ∧
    ts_undoLog (ex_session e1) = ts_undoLog (ex_session e) ++ undo_of name c r ∧
    ts_activeTransaction (ex_session e1) = Some w.
Proof.
  intros Hf Ha. pose proof (run_change_eq i2d dadd dsub dchars w name c e t Hf) as E.
  destruct (op_state i2d dadd dsub dchars w c e t) as [r s]. rewrite E. clear E.
  set (e1 := put name s (put name (mkState (cleared t) (Some (tm_of e))) e)).
  assert (ex_database e1 = set_tables (smap_set name (st_table s)) <$> ex_database e) as Ed.
  { subst e1. simpl. destruct (ex_database e); [|done]. simpl. by rewrite set_tables_twice. }
  assert (find_table name e1 = Some (st_table s)) as Hf1 by (eapply find_put, find_put, Hf).
  assert (same_table (st_table s) (st_table s)) as Hrefl by (by split_and!).
  destruct r as [[i|]|x]; simpl;
    [|exists (st_table s); split_and!; try done; by rewrite app_nil_r..].
  unfold push_undo, modify, mbind, M_bind. simpl. unfold transactionActive. simpl. rewrite Ha. simpl.
  match goal with |- context [appendPageImageRedo name ?e2] => destruct (append_image_any name e2 (st_table s)) as (t1 & Hs & Ed1 & Eu & Ea) end.
  { exact Hf1. }
  exists t1. split; [done|]. split_and!; [|exact Eu|by rewrite Ea]. rewrite Ed1. simpl.
  destruct (ex_database e); [|done]. simpl. by rewrite !set_tables_twice.
Qed.

(** ** Databases with the same rows *)

Definition db_ok (db : Database) : Prop :=
  NoDup (db_tables db).*1 ∧ Forall (λ a, ∃ v, table_ok a.2 v) (db_tables db).

Definition db_like (exact : Prop) (db db' : Database) : Prop :=
  db_name db' = db_name db ∧ Forall2 (λ a b, a.1 = b.1 ∧ table_like exact a.2 b.2) (db_tables db) (db_tables db').

Lemma table_like_refl exact t v : table_ok t v → table_like exact t t.
Proof.
  intros Hok. split; [done|by split_and!|done|]. exists v. split_and!; [apply Hok..|]. intros v' Hv'.
  destruct (rep_gets _ _ _ (proj1 Hok) Hv') as [Hg Hc]. split; [by intros j|lia].
Qed.

Lemma db_like_refl exact db : db_ok db → db_like exact db db.
Proof.
  intros [_ Hok]. split; [done|]. apply Forall_Forall2_diag. eapply Forall_impl; [exact Hok|].
  intros a [v Hv]. split; [done|]. by eapply table_like_refl.
Qed.

Lemma db_ok_find db name t : db_ok db → Database_table name db = Some t → ∃ v, table_ok t v.
Proof.
  intros [_ Hok]. unfold Database_table. induction Hok as [|[k x] l Hx _ IH]; [done|]. simpl.
  destruct (String.eqb k name); [by intros [= <-]|exact IH].
Qed.

Lemma db_ok_set db name t v : db_ok db → table_ok t v → db_ok (set_tables (smap_set name t) db).
Proof.
  intros [Hnd Hok] Ht. split; [simpl; by rewrite smap_set_keys|]. simpl. unfold smap_set. apply Forall_fmap.
  eapply Forall_impl; [exact Hok|]. intros [k x] Hx. simpl. destruct (String.eqb k name); [by exists v|done].
Qed.

Lemma db_like_set exact db db' name t t' : db_like exact db db' → table_like exact t t' →
  db_like exact (set_tables (smap_set name t) db) (set_tables (smap_set name t') db').
Proof. intros [Hn HF] Ht. split; [done|]. by apply smap_set_Forall2. Qed.

(** Only the table [name] changed: undoing that change is enough. *)
Lemma db_like_back exact db name t t1 t1' t' db' : Database_table name db = Some t → NoDup (db_tables db).*1 →
  db_like exact (set_tables (smap_set name t1) db) db' → Database_table name db' = Some t1' → table_like exact t t' →
  db_like exact db (set_tables (smap_set name t') db').
Proof.
  intros Hf Hnd Hl Hf' Ht. pose proof (db_like_set exact _ _ name t t' Hl Ht) as Hs.
  rewrite set_tables_twice in Hs.
  assert (set_tables (smap_set name t) db = db) as E; [|by rewrite E in Hs].
  destruct db as [n l]. unfold set_tables. simpl in *. f_equal. by apply smap_set_same.
Qed.

(** ** Undoing the log *)

Lemma apply_undo_row name c i e t t' : find_table name e = Some t →
  undo_op i2d dadd dsub dchars c i (mkState t (Some (tm_of e))) = (Ok true, mkState t' (Some (tm_of e))) →
  applyUndoRecord i2d dadd dsub dchars (undo_row name (kind_of c) i (before_of c)) e =
  (Ok tt, put name (mkState t' (Some (tm_of e))) e).
Proof.
  intros Hf Hu. destruct c; simpl in *; unfold applyUndoRecord, mbind, M_bind, gets; simpl; rewrite Hf; simpl;
    unfold undo_in_table, mbind, M_bind; simpl; rewrite (on_table_found _ _ _ _ Hf), Hu; done.
Qed.

(** The change carries the row that is in the store, if the row is live. *)
Definition accurate_at (c : row_change) t : Prop :=
  match c with
  | RC_insert _ => True
  | RC_erase i before | RC_update i before _ _ =>
      match rs_get i (t_rowStore t) with
      | Ok (found, _) => found = Some before ∨ found = None
      | Throw _ => False
      end
  end.

Lemma accurate_rows c t v : accurate_at c t → prs_rep (t_rowStore t) v → accurate c v.
Proof.
  intros Ha Hrep. change (rs_rep (t_rowStore t) v) in Hrep.
  destruct c as [row|i before|i before k value]; [done|..]; unfold accurate_at in Ha;
    destruct (rs_get_sim _ _ i Hrep) as (s & E & _); rewrite E in Ha; destruct Ha; simpl; auto.
Qed.

(** [e] can be rolled back to [db0]: from any database with its rows. *)
Record undoable (exact : Prop) (w : TransactionId) (db0 : Database) e : Prop := {
  un_active : ts_activeTransaction (ex_session e) = Some w;
  un_db : ∃ db, ex_database e = Some db ∧ db_ok db ∧
    ∀ e' db', ex_database e' = Some db' → db_like exact db db' → ts_undoLog (ex_session e') = ts_undoLog (ex_session e) →
      ∀ fuel, length (ts_undoLog (ex_session e)) < fuel → ∃ db2,
        undo_all i2d dadd dsub dchars fuel e' =
          (Ok tt, set_session (set_undo [] (ex_session e')) (set_database (Some db2) e')) ∧ db_like exact db0 db2
}.

Lemma undoable_start exact w e db : ts_activeTransaction (ex_session e) = Some w → ex_database e = Some db → db_ok db →
  ts_undoLog (ex_session e) = [] → undoable exact w db e.
Proof.
  intros Ha Ed Hok Hu. split; [done|]. exists db. split_and!; [done|apply Hok..|]. intros e' db' Ed' Hl Hu' [|fuel] Hf; [lia|].
  exists db'. split; [|done]. cbn [undo_all]. unfold mbind, M_bind, gets. rewrite Hu', Hu. simpl. unfold mret, M_ret. f_equal.
  rewrite Hu in Hu'. destruct e' as [d []]. simpl in *. by subst.
Qed.

Lemma db_like_find exact db db' name t : db_like exact db db' → Database_table name db = Some t →
  ∃ t', Database_table name db' = Some t' ∧ table_like exact t t'.
Proof. intros [_ HF]. apply (smap_find_Forall2 _ _ _ _ _ HF). Qed.

Lemma db_like_keys exact db db' : db_like exact db db' → (db_tables db').*1 = (db_tables db).*1.
Proof. intros [_ HF]. induction HF as [|a b l l' [Hk _] _ IH]; [done|]. rewrite !fmap_cons. congruence. Qed.

(** A refused change: a table like the one after it is like the one before it. *)
Lemma table_like_refused exact t s t1 t1' v : table_ok t v → table_ok s v → same_table s t1 →
  static s = static t → t_versions s = t_versions t → same_defs (t_indexManager t) (t_indexManager s) →
  table_like exact t1 t1' → table_like exact t t1'.
Proof.
  intros Hok Hoks (S1 & S2 & S3 & S4) Hst Hvs Hd [L1 L2 L3 (u & Hu & Hinv & Hg)]. split.
  - congruence.
  - eapply same_defs_trans; [exact Hd|]. by eapply same_defs_trans.
  - intros Hex. rewrite (L3 Hex). congruence.
  - exists u. split_and!; [done..|]. intros v2 Hv2. destruct (rep_gets _ _ _ (proj1 Hok) Hv2) as [Hg2 Hc2].
    destruct (Hg v (proj1 (S4 v Hoks))) as [Hg1 Hc1]. split; [|lia]. intros j. by rewrite Hg1, Hg2.
Qed.

Definition fresh_at (w : TransactionId) (c : row_change) e t : Prop :=
  match op_state i2d dadd dsub dchars w c e t with
  | (Ok (Some i), _) => fresh_slot c i (t_versions t)
  | _ => True
  end.

Lemma undoable_step exact w db0 e name c : undoable exact w db0 e → change_ok c →
  (∀ t, find_table name e = Some t → accurate_at c t ∧ (exact → fresh_at w c e t)) →
  undoable exact w db0 (run_change i2d dadd dsub dchars w name c e).2.
Proof.
  intros Hun Hc Hacc. destruct (find_table name e) as [t|] eqn:Hf; [|by rewrite run_change_missing].
  destruct Hun as [Ha (db & Ed & Hok & Hundo)]. destruct (Hacc t eq_refl) as [Hat Hfr].
  assert (Database_table name db = Some t) as Hfd by (unfold find_table in Hf; by rewrite Ed in Hf).
  destruct (db_ok_find _ _ _ Hok Hfd) as [v Hv].
  destruct (change_marked i2d dadd dsub dchars t v (Some (tm_of e)) c w Hv Hc) as (r & s & v' & E & Ho & Hm & Hok' & Hvs & Es).
  pose proof (run_change_undo w name c e t Hf Ha) as Hrun. unfold fresh_at, op_state in *. rewrite E in Hrun, Hfr.
  destruct Hrun as (t1 & Hsame & Ed1 & Eu1 & Ea1). rewrite Ed in Ed1. simpl in Ed1.
  assert (static (st_table s) = static t) as Hst by (by rewrite Es).
  assert (same_defs (t_indexManager t) (t_indexManager (st_table s))) as Hds.
  { eapply same_defs_trans; [|exact (ms_defs _ _ _ _ _ _ _ _ _ Hm)].
    eapply (clear_marks_reflect i2d dadd dsub (t_schema t) (t_indexManager t) v).
    apply (ti_core i2d dadd dsub dchars _ _ _ _ (proj2 Hv)). }
  pose proof Hsame as (S1 & S2 & S3 & S4).
  split; [done|]. eexists. split; [exact Ed1|]. split; [eapply db_ok_set; [exact Hok|by apply S4]|].
  intros e' db' Ed' Hl Hlog fuel Hfuel. rewrite Eu1 in Hlog, Hfuel.
  destruct (db_like_find _ _ _ name t1 Hl) as (t1' & Hf1' & Hlike); [by eapply smap_find_set_eq|].
  assert (table_like exact t t1' → undo_of name c r = [] → ∃ db2,
    undo_all i2d dadd dsub dchars fuel e' =
      (Ok tt, set_session (set_undo [] (ex_session e')) (set_database (Some db2) e')) ∧ db_like exact db0 db2) as Hrefused.
  { intros Ht Hn. rewrite Hn, app_nil_r in Hlog, Hfuel. apply (Hundo e' db'); [done| |done|done].
    pose proof (db_like_back exact db name t t1 t1' t1' db' Hfd (proj1 Hok) Hl Hf1' Ht) as Hb.
    assert (set_tables (smap_set name t1') db' = db') as Eb; [|by rewrite Eb in Hb].
    pose proof (db_like_keys _ _ _ Hl) as Hk. simpl in Hk. rewrite smap_set_keys in Hk.
    destruct db' as [n l]. unfold set_tables. simpl in *. f_equal. apply smap_set_same; [|done]. rewrite Hk. apply Hok. }
  destruct r as [[i|]|x].
  2,3: simpl in Ho; subst v'; apply Hrefused; [by eapply table_like_refused|done].
  clear Hrefused. simpl in Ho, Hlog, Hfuel. rewrite length_app in Hfuel. simpl in Hfuel. destruct fuel as [|fuel]; [lia|].
  cbn [undo_all]. unfold mbind, M_bind, gets. rewrite Hlog. unfold UndoLog_pop. rewrite unsnoc_snoc. unfold modify.
  set (e2 := set_session (set_undo (ts_undoLog (ex_session e)) (ex_session e')) e').
  assert (find_table name e2 = Some t1') as Hf2 by (unfold find_table, e2; simpl; by rewrite Ed').
  destruct (undo_change i2d dadd dsub dchars exact t t1 t1' v v' c i w (Some (tm_of e2))) as (t' & Eundo & Ht'); try done.
  { apply (S4 v' Hok'). }
  { by eapply accurate_rows, Hv. }
  { congruence. }
  { by eapply same_defs_trans. }
  { congruence. }
  rewrite (apply_undo_row name c i e2 t1' t' Hf2 Eundo).
  destruct (Hundo (put name (mkState t' (Some (tm_of e2))) e2) (set_tables (smap_set name t') db')) with (fuel := fuel)
    as (db2 & Ek & Hl2).
  { simpl. by rewrite Ed'. }
  { exact (db_like_back exact db name t t1 t1' t' db' Hfd (proj1 Hok) Hl Hf1' Ht'). }
  { done. }
  { lia. }
  exists db2. split; [|done]. rewrite Ek. by destruct e' as [d [? ? ? ? ?]].
Qed.

(** Every change of the run is accurate and, if [exact], inserts into no slot that
    has versions. *)
Fixpoint changes_undoable (exact : Prop) (w : TransactionId) (cs : list (string * row_change)) e : Prop :=
  match cs with
  | [] => True
  | (name, c) :: cs =>
      match find_table name e with
      | Some t => accurate_at c t ∧ (exact → fresh_at w c e t)
      | None => True
      end ∧ changes_undoable exact w cs (run_change i2d dadd dsub dchars w name c e).2
  end.

Lemma undoable_run exact w db0 e cs : undoable exact w db0 e → Forall (λ c, change_ok c.2) cs →
  changes_undoable exact w cs e → undoable exact w db0 (run_changes i2d dadd dsub dchars w cs e).
Proof.
  intros Hun Hcs. revert e Hun. induction Hcs as [|[name c] cs Hc _ IH]; intros e Hun Hch; simpl; [done|].
  destruct Hch as [H1 Hch]. apply IH; [|done]. apply undoable_step; [done|done|]. intros t Hf. by rewrite Hf in H1.
Qed.

End rollback.

(** ** An example *)

(** Two rows inserted, one of them erased, an insert refused and a row updated. *)
Definition shop_rollback : list (string * row_change) :=
  [("items", RC_insert [VInt 2; VInt 9]); ("items", RC_insert [VInt 5; VNull]); ("items", RC_insert [VInt 2; VInt 1]);
   ("items", RC_update 0 [VInt 1; VInt 7] 1 (VInt 3)); ("items", RC_erase 1 [VInt 2; VInt 9])].

Lemma shop_db_ok : db_ok (λ z, z) Z.add Z.sub (λ _, []) shop_db.
Proof. split; [vm_compute; repeat constructor; set_solver|]. repeat constructor. exact shop_ok. Qed.

