(* ===== verification/CommitOrder.v ===== *)
(** * The order of the records of commits and checkpoints

    [flushPendingWal] writes the DDL statements of a transaction as they come and
    its redo records in one batch after them.  A redo record of a table that the
    transaction dropped later is therefore replayed after the DROP, where it
    throws, and an exception of the replay leaves no database.

    [executeSaveDatabase] logs the checkpoint, writes the snapshot and truncates
    the log.  A recovery that finds a snapshot replays only the records after the
    last checkpoint of the log, so what it restores after a SAVE is what the files
    hold, even when the snapshot was not written. *)

From S2P Require Import Prelude Value BinaryIO BufferPool PageCodec VectorRowStore PageRowStore PageRowStoreProof WriteAheadLog.
From S2P Require Import TransactionManager Mvcc StringPattern HashIndex BTreeIndex RedoCodec RedoCodecProof.
From S2P Require Import IndexExpression Predicate SetOps IndexManager IndexManagerProof Histogram.
From S2P Require Import Table TableProof TableSchema TablePages TablePagesProof Database Session ForeignKeys SqlLiteral Recovery.
From S2P Require Import CatalogEngine DmlEngine DmlReplay RecoveryProof.
Local Open Scope nat_scope.

(** ** The records of a log *)

Definition wal_holds (w : WriteAheadLog) (rs : list WalRecord) : Prop :=
  default [] (wal_file w) = wal_bytes rs ∧ Forall wal_record_ok rs ∧ ∀ n, wal_nextLsn w = Some n → u64 n.

Lemma wal_append_holds w rs op payload : wal_holds w rs → u8 (WalOperation_code op) →
  WalOperation_of_code (WalOperation_code op) = op → size_ok (length payload) →
  ∃ lsn, wal_holds (wal_append op payload w).2 (rs ++ [mkWalRecord lsn op payload]).
Proof.
  intros (Hf & Hrs & Hn) Hop Hop' Hsz. unfold wal_append. destruct (wal_nextLsn_step w) as [lsn next] eqn:E. exists lsn.
  assert (u64 lsn ∧ ∀ n, next = Some n → u64 n) as [Hl Hnext].
  { unfold wal_nextLsn_step in E. unfold u64 in *. destruct (wal_nextLsn w) as [n|].
    - injection E as <- <-. split; [by apply Hn|]. intros n' [= <-]. by apply Z.mod_pos_bound.
    - injection E as <- <-. split; [|intros n' [= <-]; by apply Z.mod_pos_bound].
      assert (∀ l acc, (0 <= acc < 2 ^ 64)%Z →
        (0 <= foldl (λ next r, Z.max next ((wal_lsn r + 1) mod 2 ^ 64)) acc l < 2 ^ 64)%Z) as Hfold; [|by apply Hfold].
      intros l. induction l as [|r l IH]; intros acc Ha; simpl; [done|]. apply IH.
      pose proof (Z.mod_pos_bound (wal_lsn r + 1) (2 ^ 64) ltac:(done)). lia. }
  split_and!; simpl.
  - rewrite Hf. unfold wal_bytes. rewrite map_app, concat_app. simpl. by rewrite app_nil_r.
  - apply Forall_app. split; [done|]. apply Forall_singleton. by split_and!.
  - exact Hnext.
Qed.

Section order.
Context {Select F : Type}.
Context (i2d : Z → Z) (dadd dsub : Z → Z → Z) (dchars : Z → chars).
Abbreviation Database := (Database Select PageRowStore).
Abbreviation Executor := (Executor Select F).
Context `{StorageManager F Database} (replayQuery : bytes → M Executor unit).
Implicit Types e : Executor.

(** The log after COMMIT of a transaction that changed a row and dropped a table. *)
Lemma commit_writes_ddl_first e w rs r payload q : ts_activeTransaction (ex_session e) = Some w →
  isSerializable (ts_transactionManager (ex_session e)) w = true → wal_holds (ex_wal e) rs →
  ts_pendingWal (ex_session e) = [mkPendingWalRecord Wal_PageImageRedo payload; mkPendingWalRecord Wal_DropTable q] →
  decodePageImageRedos payload = Ok [r] → image_record_ok r → size_ok (length q) →
  (∀ p, encodePageImageRedos [r] = Ok p → size_ok (length p)) →
  ∃ e2 l1 l2 batch, executeCommit i2d dadd dsub dchars e = (Ok (messageResult true "committed transaction"), e2) ∧
    decodePageImageRedos batch = Ok [r] ∧
    wal_holds (ex_wal e2) (rs ++ [mkWalRecord l1 Wal_DropTable q; mkWalRecord l2 Wal_PageImageRedo batch]).
Proof.
  intros Ha Hs Hw Hp Hdec Hok Hq Hsz.
  destruct (image_batch_codes [r]) as (batch & Eb & Db & _); [done|done|by constructor|].
  destruct (wal_append_holds (ex_wal e) rs Wal_DropTable q) as [l1 H1]; [done..|].
  destruct (wal_append_holds (wal_append Wal_DropTable q (ex_wal e)).2 _ Wal_PageImageRedo batch H1) as [l2 H2];
    [done|done|by apply Hsz|].
  unfold executeCommit, mbind, M_bind, gets. rewrite Ha, Hs. cbn [negb].
  unfold flushPendingWal, mbind, M_bind, gets. rewrite Hp. simpl. unfold mbind, M_bind, liftM. rewrite Hdec. simpl.
  rewrite Eb. simpl. unfold modify.
  set (e1 := set_session _ _). destruct (commit_session e1 w Ha Hs) as [tm Ec].
  rewrite Ec. eexists _, l1, l2, batch. split_and!; [done|done|]. rewrite <- app_assoc in H2. exact H2.
Qed.

End order.

(** ** An example *)

#[local] Existing Instance one_file.

(** [DROP TABLE items], for the replay. *)
Definition drop_items (q : bytes) : M (Executor unit (Database unit PageRowStore)) unit :=
  modify (λ e, set_database (set_tables (filter (λ a, a.1 ≠ "items")) <$> ex_database e) e).

Lemma drop_items_drops q e : ∃ e', drop_items q e = (Ok tt, e') ∧ find_table "items" e' = None.
Proof.
  eexists. split; [reflexivity|]. unfold find_table. simpl. destruct (ex_database e) as [[n l]|]; [|done]. simpl.
  unfold Database_table. simpl. induction l as [|[k x] l IH]; [done|]. rewrite filter_cons.
  case_decide as Hk; [|exact IH]. simpl in *. by rewrite (proj2 (String.eqb_neq k "items")).
Qed.

(** INSERT and DROP TABLE in the transaction of [shop]. *)
Definition shop_dropped : Executor unit (Database unit PageRowStore) :=
  let e := run_changes (λ z, z) Z.add Z.sub (λ _, []) 1 [("items", RC_insert [VInt 2; VInt 9])] shop in
  (appendWal Wal_DropTable (text ["DROP TABLE items;"]) (set_database (Some (mkDatabase "shop" [])) e)).2.

(** The redo record of the insert. *)
Definition shop_payload : bytes :=
  match ts_pendingWal (ex_session shop_dropped) with p :: _ => pw_payload p | [] => [] end.
Definition shop_record : PageImageRedoRecord :=
  match decodePageImageRedos shop_payload with
  | Ok (r :: _) => r
  | _ => mkPageImageRedoRecord "items" false 0 [] [] [] []
  end.


(** ** Slots of a rolled-back insert *)

(** The rows of a rolled-back insert stay out of the log, its free slot does not.
    With two rows per page: two rows are logged; an insert takes a slot of a second
    page and is rolled back; then an update of the first row is logged.  The replica
    knows the free slot but not its page: the next insert reuses the slot in the
    running store and throws in the recovered one. *)
Definition rolled_back_slot : result (result (RowId * PageRowStore) * result (RowId * PageRowStore)) :=
  s ← PageRowStore_new 2 1;
  '(_, s) ← prs_append [VInt 1] s;
  '(_, s) ← prs_append [VInt 2] s;
  r ← PageRowStore_new 2 1;
  r ← applyPageImages (Some (prs_capacity s)) (Some (prs_free s)) (takeDirtyPages s).1 r;
  '(_, s) ← prs_append [VInt 3] (clearDirtyPages s);
  '(_, s) ← prs_erase 2 s;
  '(_, s) ← prs_update 0 [VInt 9] (clearDirtyPages s);
  r ← applyPageImages (Some (prs_capacity s)) (Some (prs_free s)) (takeDirtyPages s).1 r;
  Ok (prs_append [VInt 4] s, prs_append [VInt 4] r).

Lemma rolled_back_slot_unusable : ∃ s,
  rolled_back_slot = Ok (Ok (2, s), Throw (runtime_error "page slot offset out of range on free-list reuse")).
Proof. eexists. vm_compute. reflexivity. Qed.

(** ** The checkpoint of SAVE *)

Section checkpoint.
Context {Select F : Type}.
Context (i2d : Z → Z) (dadd dsub : Z → Z → Z) (dchars : Z → chars).
Abbreviation Database := (Database Select PageRowStore).
Abbreviation Executor := (Executor Select F).
Context `{StorageManager F Database} (replayQuery : bytes → M Executor unit).
Implicit Types e : Executor.

Lemma after_save_last rs acc r : wal_operation r = Wal_SaveDatabase → after_save (rs ++ [r]) acc = [].
Proof. intros Hr. revert acc. induction rs as [|a rs IH]; intros acc; simpl; [by rewrite Hr|apply IH]. Qed.

(** A log that ends with a checkpoint adds nothing to a snapshot. *)
Lemma replayed_checkpoint rs r file files stored : wal_operation r = Wal_SaveDatabase →
  sm_loadFirstDatabase files = Ok stored → replayed i2d dadd dsub dchars replayQuery (rs ++ [r]) file files = Some stored.
Proof.
  intros Hr Hl. unfold replayed, replay_run, replay_records, loaded. rewrite Hl. rewrite bool_decide_true by by eexists.
  by rewrite after_save_last.
Qed.

Lemma recover_checkpoint w rs r files stored : wal_operation r = Wal_SaveDatabase → wal_holds w (rs ++ [r]) →
  sm_loadFirstDatabase files = Ok stored → ∃ er,
  recoverFromStorage i2d dadd dsub dchars replayQuery (boot (default [] (wal_file w)) files) = (Ok tt, er) ∧
  ex_database er = Some stored.
Proof.
  intros Hr (Hf & Hrs & _) Hl. destruct (recover_database i2d dadd dsub dchars replayQuery (default [] (wal_file w)) files)
    as (er & Er & Ed). exists er. split; [done|]. rewrite Ed, Hf, <- (app_nil_r (wal_bytes _)).
  rewrite readAll_log; [|done|by left]. by apply replayed_checkpoint.
Qed.

Lemma recover_snapshot files stored : sm_loadFirstDatabase files = Ok stored → ∃ er,
  recoverFromStorage i2d dadd dsub dchars replayQuery (boot [] files) = (Ok tt, er) ∧ ex_database er = Some stored.
Proof.
  intros Hl. destruct (recover_database i2d dadd dsub dchars replayQuery [] files) as (er & Er & Ed). exists er.
  split; [done|]. rewrite Ed. unfold replayed, replay_run, loaded. rewrite Hl. by rewrite bool_decide_true by by eexists.
Qed.

(** C21: after SAVE, recovery restores what the database files hold and nothing
    else.  A SAVE that writes its snapshot empties the log, and a new process
    restores the snapshot.  But a SAVE whose snapshot write fails has already
    logged the checkpoint: when an older snapshot is there, a new process restores
    that one, and every change committed and logged since is lost, whatever the log
    holds. *)
Theorem save_moves_recovery_point e db rs stored :
  ex_database e = Some db → ts_activeTransaction (ex_session e) = None → ex_replayingWal e = false →
  wal_holds (ex_wal e) rs → size_ok (String.length (db_name db)) →
  let '(r, files) := sm_saveDatabase db (ex_files e) in
  sm_loadFirstDatabase files = Ok stored →
  ∃ e1 er, executeSaveDatabase i2d dadd dsub dchars e =
      (match r with
       | Ok _ => Ok (messageResult true ("saved database " +:+ db_name db))
       | Throw x => Throw x
       end, e1) ∧
    ex_files e1 = files ∧ (r = Ok tt → log_of e1 = []) ∧
    recoverFromStorage i2d dadd dsub dchars replayQuery (boot (log_of e1) (ex_files e1)) = (Ok tt, er) ∧
    ex_database er = Some stored.
Proof.
  intros Ed Ha Hr Hw Hsz. destruct (sm_saveDatabase db (ex_files e)) as [r files] eqn:Es. intros Hl.
  destruct (wal_append_holds (ex_wal e) rs Wal_SaveDatabase (string_bytes (db_name db))) as [lsn Hw1];
    [done|done|done|by rewrite length_string_bytes|].
  unfold executeSaveDatabase, with_database, mbind, M_bind, gets. rewrite Ed, Ha.
  unfold save_files, with_database, mbind, M_bind, gets. rewrite Ed.
  unfold appendWal, mbind, M_bind, gets, transactionActive. rewrite Hr, Ha. rewrite bool_decide_false by (intros [? [=]]).
  cbn -[wal_append sm_saveDatabase]. unfold on_files. cbn -[wal_append sm_saveDatabase]. rewrite Es.
  destruct r as [[]|x].
  - destruct (recover_snapshot files stored Hl) as (er & Er & Eq). by exists (set_wal (wal_reset (wal_append Wal_SaveDatabase
      (string_bytes (db_name db)) (ex_wal e)).2) (set_files files (set_wal (wal_append Wal_SaveDatabase
      (string_bytes (db_name db)) (ex_wal e)).2 e))), er.
  - destruct (recover_checkpoint _ rs (mkWalRecord lsn Wal_SaveDatabase _) files stored eq_refl Hw1 Hl) as (er & Er & Eq). eexists _, er. by split_and!.
Qed.
End checkpoint.

(** ** An example *)

(** A disk on which nothing can be written, with a database of no tables on it. *)
#[local] Instance full_disk : StorageManager (Database unit PageRowStore) (Database unit PageRowStore) := {
  sm_loadFirstDatabase := Ok;
  sm_loadDatabase _ := Ok;
  sm_saveDatabase _ f := (Throw (runtime_error "failed to write database file"), f);
  sm_deleteDatabase _ f := (Ok tt, f)
}.

Definition empty_shop : Database unit PageRowStore := mkDatabase "shop" [].

(** The table [items] was created since the snapshot was written. *)
Definition shop_unsaved : Executor unit (Database unit PageRowStore) :=
  mkExecutor (Some shop_db) session_new
    (wal_append Wal_CreateTable (text ["CREATE TABLE items (qty INT NULL);"]) (wal_open None)).2 empty_shop false.

Lemma save_moves_recovery_point_witness : ∃ e1 er,
  executeSaveDatabase (λ z, z) Z.add Z.sub (λ _, []) shop_unsaved =
    (Throw (runtime_error "failed to write database file"), e1) ∧
  recoverFromStorage (λ z, z) Z.add Z.sub (λ _, []) no_statements (boot (log_of e1) (ex_files e1)) = (Ok tt, er) ∧
  ex_database er = Some empty_shop.
Proof.
  destruct (wal_append_holds (wal_open None) [] Wal_CreateTable (text ["CREATE TABLE items (qty INT NULL);"])) as [lsn Hw];
    [split_and!; [done|constructor|done]|done|done|vm_compute; done|].
  destruct (save_moves_recovery_point (λ z, z) Z.add Z.sub (λ _, []) no_statements shop_unsaved shop_db _ empty_shop
    eq_refl eq_refl eq_refl Hw) as (e1 & er & E & _ & _ & Er & Eq); [vm_compute; done|reflexivity|].
  exact (ex_intro _ e1 (ex_intro _ er (conj E (conj Er Eq)))).
Defined.
