(* ===== verification/Tcrdb.v ===== *)
(** * Database files

    [src/persistence/tcrdb_codec.cpp] with [tcrdb_value_codec.cpp],
    [tcrdb_table_codec.cpp] and [tcrdb_index_codec.cpp]: the file of a saved database,
    in the current version and, for reading, the eight versions before it; and
    [src/persistence/storage_manager.cpp], which publishes such a file by renaming a
    temporary one.

    A file is the list of its bytes.  The values, the B+ trees and the hash indexes are
    written as in a redo record; their readers are those of [RedoCodec] with the message
    of this file.  [std::string value(size)] of an impossible size throws in the code
    with another message.  A type or an action whose code the enumeration does not have
    is cast unchecked in the code; here it throws.  Reading builds the table while it
    goes on; an exception discards the database. *)

From S2P Require Import Prelude Value BinaryIO BufferPool PageCodec VectorRowStore PageRowStore TransactionManager Mvcc StringPattern.
From S2P Require Import HashIndex BTreeIndex RedoCodec IndexExpression Predicate SetOps IndexManager Histogram Table TablePages Database.
From S2P Require Import ForeignKeys Ast Tokenizer Parser Session Recovery.
Local Open Scope nat_scope.

Definition kMagic : string := "TCRDB001".
Definition kVersion : Z := 9.
Definition kHistogramMagic : string := "VDBHIST1".
Definition kReadError : string := "failed to read database file".
Definition kUnsupportedValue : string := "unsupported value type in database file".

(** ** Fields *)

Abbreviation db_string := (readString kReadError kReadError).
Abbreviation db_nat := (readNat kReadError).
Abbreviation db_flag := (readFlag kReadError).
Abbreviation db_counted := (readCounted kReadError).
Definition db_readValue : reader Value := image_readValue kReadError kUnsupportedValue.
Definition writeValue : Value → result bytes := image_appendValue.

(** [for (i = 0; i < count; ++i)] over a state.  Every round reads something, so the
    length of the input bounds the rounds. *)
Fixpoint readFold_fuel {St} (step : St → reader St) (fuel : nat) (count : Z) (st : St) (bs : bytes) : result (St * bytes) :=
  if Z.leb count 0 then Ok (st, bs)
  else
    match fuel with
    | O => Throw (runtime_error "out of fuel")
    | Datatypes.S fuel => '(st, bs) ← step st bs; readFold_fuel step fuel (count - 1) st bs
    end.
Definition readFold {St} (step : St → reader St) (st : St) : reader St := λ bs,
  '(count, bs) ← readPod_u64 kReadError bs;
  readFold_fuel step (Datatypes.S (length bs)) count st bs.

Definition code_out_of_range : exn := logic_error "enumeration code out of range".

Definition readColumnType : reader ColumnType := λ bs,
  '(code, bs) ← readPod_u8 kReadError bs;
  if Z.eqb code 0 then Ok (CT_Int, bs)
  else if Z.eqb code 1 then Ok (CT_Double, bs)
  else if Z.eqb code 2 then Ok (CT_String, bs)
  else Throw code_out_of_range.

Definition ForeignKeyAction_code (action : ForeignKeyAction) : Z :=
  match action with FK_NoAction => 0 | FK_Cascade => 1 | FK_SetNull => 2 end.
Definition readAction : reader ForeignKeyAction := λ bs,
  '(code, bs) ← readPod_u8 kReadError bs;
  if Z.eqb code 0 then Ok (FK_NoAction, bs)
  else if Z.eqb code 1 then Ok (FK_Cascade, bs)
  else if Z.eqb code 2 then Ok (FK_SetNull, bs)
  else Throw code_out_of_range.

(** ** Definitions of a table *)

Definition writeColumn (c : Column) : bytes :=
  appendString (col_name c) ++ writePod_u8 (ColumnType_code (col_type c)) ++ appendFlag (col_nullable c)
  ++ appendFlag (col_unique c) ++ appendFlag (col_primaryKey c).

Definition readColumn (version : Z) : reader Column := λ bs,
  '(name, bs) ← db_string bs;
  '(type, bs) ← readColumnType bs;
  '(nullable, bs) ← db_flag bs;
  if Z.leb 5 version then
    '(unique, bs) ← db_flag bs;
    '(primaryKey, bs) ← db_flag bs;
    Ok (mkColumn name type nullable unique primaryKey, bs)
  else Ok (mkColumn name type nullable false false, bs).

Definition writeForeignKey (fk : ForeignKeyConstraint) : bytes :=
  writeCounted appendString (fk_childColumns fk) ++ appendString (fk_parentTable fk)
  ++ writeCounted appendString (fk_parentColumns fk) ++ writePod_u8 (ForeignKeyAction_code (fk_onDelete fk))
  ++ writePod_u8 (ForeignKeyAction_code (fk_onUpdate fk)).

(** The columns of a foreign key: lists in the current version, one each before. *)
Definition readKeyColumns (version : Z) : reader (list string) := λ bs,
  if Z.leb kVersion version then db_counted db_string bs
  else '(column, bs) ← db_string bs; Ok ([column], bs).

Definition readForeignKey (version : Z) : reader ForeignKeyConstraint := λ bs,
  '(childColumns, bs) ← readKeyColumns version bs;
  '(parentTable, bs) ← db_string bs;
  '(parentColumns, bs) ← readKeyColumns version bs;
  '(onDelete, bs) ← readAction bs;
  '(onUpdate, bs) ← readAction bs;
  Ok (mkForeignKeyConstraint childColumns parentTable parentColumns onDelete onUpdate, bs).

Definition writeUnique (c : UniqueConstraint) : bytes :=
  appendFlag (uc_primaryKey c) ++ writeCounted appendString (uc_columns c).
Definition readUnique : reader UniqueConstraint := λ bs,
  '(primaryKey, bs) ← db_flag bs;
  '(columns, bs) ← db_counted db_string bs;
  Ok (mkUniqueConstraint columns primaryKey, bs).

(** A part of the file that versions before [first] do not have. *)
Definition since {A} (first version : Z) (read : reader (list A)) : reader (list A) := λ bs,
  if Z.leb first version then read bs else Ok ([], bs).

(** An index definition: its name and its encoded columns. *)
Definition appendNames (e : string * string) : bytes := appendString e.1 ++ appendString e.2.
Definition readNames : reader (string * string) := λ bs,
  '(name, bs) ← db_string bs;
  '(column, bs) ← db_string bs;
  Ok ((name, column), bs).

(** ** Statistics *)

Definition writeHistogramBucket (b : HistogramBucket) : result bytes :=
  lower ← writeValue (hb_lower b);
  upper ← writeValue (hb_upper b);
  Ok (lower ++ upper ++ appendNat (hb_rowCount b) ++ appendNat (hb_distinctCount b)).
Definition readHistogramBucket : reader HistogramBucket := λ bs,
  '(lower, bs) ← db_readValue bs;
  '(upper, bs) ← db_readValue bs;
  '(rowCount, bs) ← db_nat bs;
  '(distinctCount, bs) ← db_nat bs;
  Ok (mkHistogramBucket lower upper rowCount distinctCount, bs).

Definition writeHistogram (h : ColumnHistogram) : result bytes :=
  buckets ← mapM writeHistogramBucket (ch_buckets h);
  Ok (appendString (ch_column h) ++ appendNat (ch_rowCount h) ++ appendNat (ch_distinctCount h)
      ++ appendNat (length (ch_buckets h)) ++ concat buckets).
Definition readHistogram : reader ColumnHistogram := λ bs,
  '(column, bs) ← db_string bs;
  '(rowCount, bs) ← db_nat bs;
  '(distinctCount, bs) ← db_nat bs;
  '(buckets, bs) ← db_counted readHistogramBucket bs;
  Ok (mkColumnHistogram column rowCount distinctCount buckets, bs).

(** ** Pages *)

(** A page: its id, the number of its bytes, and the bytes. *)
Definition writePageStore (s : PageStoreSnapshot) : bytes :=
  appendNat (ps_rowsPerPage s) ++ appendNat (ps_capacity s) ++ writeCounted appendNat (ps_freeList s)
  ++ writeCounted appendHeapPage (ps_pages s).
Definition readPage : reader (PageId * bytes) := λ bs,
  '(pageId, bs) ← db_nat bs;
  '(payload, bs) ← readBlob kReadError bs;
  Ok ((pageId, payload), bs).
Definition readPageStore : reader PageStoreSnapshot := λ bs,
  '(rowsPerPage, bs) ← db_nat bs;
  '(capacity, bs) ← db_nat bs;
  '(freeList, bs) ← readNats kReadError bs;
  '(pages, bs) ← db_counted readPage bs;
  Ok (mkPageStoreSnapshot rowsPerPage capacity freeList pages, bs).

(** The nodes of a tree are written as in a redo record. *)
Definition writeBTreeNode : BTreeNode → result bytes := appendBTreeNode.
Definition db_readBTreeNode : reader BTreeNode := readBTreeNode kReadError kUnsupportedValue.

Definition writeBTreeSnapshot (s : BTreeIndexSnapshot) : result bytes :=
  nodes ← mapM writeBTreeNode (bs_nodes s);
  Ok (appendNat (bs_maxKeysPerNode s) ++ appendNat (bs_rootPageId s) ++ appendNat (bs_nextPageId s) ++
      appendNat (bs_keyCount s) ++ writeCounted appendNat (bs_freePageIds s) ++
      appendNat (length (bs_nodes s)) ++ concat nodes).
Definition db_readBTreeSnapshot : reader BTreeIndexSnapshot := λ bs,
  '(maxKeysPerNode, bs) ← db_nat bs;
  '(rootPageId, bs) ← db_nat bs;
  '(nextPageId, bs) ← db_nat bs;
  '(keyCount, bs) ← db_nat bs;
  '(freePageIds, bs) ← readNats kReadError bs;
  '(nodes, bs) ← db_counted db_readBTreeNode bs;
  Ok (mkBTreeIndexSnapshot maxKeysPerNode rootPageId nextPageId freePageIds keyCount nodes, bs).

(** The buckets alone: when they are read the index is replaced as a whole. *)
Definition writeHashSnapshot (s : HashIndexSnapshot) : result bytes :=
  buckets ← mapM appendBucket (his_buckets s);
  Ok (appendNat (length (his_buckets s)) ++ concat buckets).
Definition db_readHashSnapshot : reader HashIndexSnapshot := λ bs,
  '(buckets, bs) ← readBuckets kReadError kUnsupportedValue bs;
  Ok (mkHashIndexSnapshot true buckets, bs).

Definition writeIndexStore (e : IndexStoreSnapshot) : result bytes :=
  btree ← writeBTreeSnapshot (iss_btree e);
  hash ← writeHashSnapshot (iss_hash e);
  Ok (appendString (iss_name e) ++ appendString (iss_column e) ++ btree ++ hash).
Definition readIndexStore : reader IndexStoreSnapshot := λ bs,
  '(name, bs) ← db_string bs;
  '(column, bs) ← db_string bs;
  '(btree, bs) ← db_readBTreeSnapshot bs;
  '(hash, bs) ← db_readHashSnapshot bs;
  Ok (mkIndexStoreSnapshot name column btree hash, bs).

(** A row has a value for every column. *)
Definition readRow (columnCount : nat) : reader Row := readMany db_readValue (Z.of_nat columnCount).
Definition readEntry (columnCount : nat) : reader (RowId * Row) := λ bs,
  '(rowId, bs) ← db_nat bs;
  '(row, bs) ← readRow columnCount bs;
  Ok ((rowId, row), bs).

Section tcrdb.
Context (int_to_double : Z → Z) (double_add double_sub : Z → Z → Z) (double_chars : Z → chars).
(** [std::stod], and what [makePageRowStore] returns. *)
Context (stod : chars → option Z) (newStore : PageRowStore).
Abbreviation Table := (Table Select PageRowStore).
Abbreviation Database := (Database Select PageRowStore).
Abbreviation Pred := (Predicate Select).
Abbreviation op := (op Select PageRowStore).

(** ** Writing *)

(** A call of a method that only reads the table. *)
Definition read_off {A} (m : op A) (t : Table) : result A := (m (mkState t None)).1.

Definition checkText (check : Pred) : result string := text ← checkConstraintLiteral double_chars check; Ok (implode text).
Definition indexText (d : IndexDefinition) : result (string * string) :=
  column ← encodeIndexDefinitionColumns double_chars (id_columns d) (id_expression d);
  Ok (id_name d, implode column).

Definition writeIndexPages (t : Table) : result bytes :=
  entries ← read_off (exportIndexPages double_chars) t;
  indexes ← mapM writeIndexStore entries;
  Ok (appendNat (length entries) ++ concat indexes).

Definition writeColumnHistograms (t : Table) : result bytes :=
  histograms ← mapM writeHistogram (columnHistograms (t_statistics t));
  Ok (string_bytes kHistogramMagic ++ appendNat (length (columnHistograms (t_statistics t))) ++ concat histograms).

Definition writeTable (t : Table) : result bytes :=
  checks ← mapM checkText (t_checkConstraints t);
  definitions ← read_off Table_indexDefinitions t;
  definitions ← mapM indexText definitions;
  pages ← read_off exportPageStore t;
  indexes ← writeIndexPages t;
  histograms ← writeColumnHistograms t;
  Ok (appendString (t_name t) ++ writeCounted writeColumn (t_schema t) ++ writeCounted appendString checks
      ++ writeCounted writeForeignKey (t_foreignKeys t) ++ writeCounted writeUnique (t_uniqueConstraints t)
      ++ writeCounted appendNames definitions ++ writePageStore pages ++ indexes ++ histograms).

Definition writeTcrdbSnapshot (db : Database) : result bytes :=
  tables ← mapM writeTable (Database_tables db);
  Ok (string_bytes kMagic ++ writePod_u32 kVersion ++ appendString (db_name db)
      ++ appendNat (length tables) ++ concat tables).

(** ** Reading *)

(** The constraints are parsed by one parser as they are read. *)
Definition readCheck (st : Parser * list Pred) : reader (Parser * list Pred) := λ bs,
  '(text, bs) ← db_string bs;
  match parseCheckConstraintExpression stod (explode text) st.1 with
  | (Throw e, _) => Throw e
  | (Ok check, parser) => Ok ((parser, st.2 ++ [check]), bs)
  end.
Definition readChecks : reader (list Pred) := λ bs,
  '(st, bs) ← readFold readCheck (parser_new, []) bs; Ok (st.2, bs).

(** The indexes are filled later when the file has their pages. *)
Definition restoreIndex (version : Z) (tableName : string) (e : string * string) (t : Table) : result Table :=
  '(columns, expression) ← decodeIndexDefinitionColumns stod (explode e.2);
  let '(r, s) :=
    (match expression with
     | Some expression =>
         (if Z.leb 4 version then createIndexWithoutRebuild_expr else createIndex_expr)
           int_to_double double_add double_sub e.1 expression
     | None => (if Z.leb 4 version then createIndexWithoutRebuild else createIndex)
                 int_to_double double_add double_sub e.1 columns
     end) (mkState t None) in
  ok ← r;
  if ok : bool then Ok (st_table s)
  else Throw (runtime_error ("failed to restore index '" +:+ e.1 +:+ "' on column '" +:+ e.2 +:+ "' for table '"
                             +:+ tableName +:+ "'")).

Fixpoint restoreIndexes (version : Z) (tableName : string) (definitions : list (string * string)) (t : Table) : result Table :=
  match definitions with
  | [] => Ok t
  | e :: definitions => t ← restoreIndex version tableName e t; restoreIndexes version tableName definitions t
  end.

Definition loadDenseRows (columnCount : nat) (t : Table) : reader Table := λ bs,
  '(rows, bs) ← db_counted (readRow columnCount) bs;
  t ← on_copy (Table_replaceRows int_to_double double_add double_sub double_chars rows) t;
  Ok (t, bs).

Definition loadSparseRows (columnCount : nat) (t : Table) : reader Table := λ bs,
  '(capacity, bs) ← db_nat bs;
  '(freeList, bs) ← readNats kReadError bs;
  '(entries, bs) ← db_counted (readEntry columnCount) bs;
  t ← on_copy (Table_replaceSparse int_to_double double_add double_sub double_chars capacity freeList entries) t;
  Ok (t, bs).

Definition loadPagePayloadRows (rebuildIndexes : bool) (t : Table) : reader Table := λ bs,
  '(snapshot, bs) ← readPageStore bs;
  t ← on_copy (Table_replaceFromPages int_to_double double_add double_sub double_chars snapshot rebuildIndexes) t;
  Ok (t, bs).

Definition loadIndexPages (t : Table) : reader Table := λ bs,
  '(entries, bs) ← db_counted readIndexStore bs;
  t ← on_copy (replaceIndexPages entries) t;
  Ok (t, bs).

(** Without the mark nothing is consumed. *)
Definition tryLoadColumnHistograms (t : Table) : reader Table := λ bs,
  if bool_decide (take (String.length kHistogramMagic) bs = string_bytes kHistogramMagic) then
    '(histograms, bs) ← db_counted readHistogram (drop (String.length kHistogramMagic) bs);
    t ← on_copy (Table_replaceColumnHistograms histograms) t;
    Ok (t, bs)
  else Ok (t, bs).

Definition loadRows (version : Z) (columnCount : nat) (t : Table) : reader Table := λ bs,
  if Z.eqb version 1 then loadDenseRows columnCount t bs
  else if Z.eqb version 2 then loadSparseRows columnCount t bs
  else
    '(t, bs) ← loadPagePayloadRows (negb (Z.leb 4 version)) t bs;
    if Z.leb 4 version then
      '(t, bs) ← loadIndexPages t bs;
      tryLoadColumnHistograms t bs
    else Ok (t, bs).

Definition readTable (version : Z) (db : Database) : reader Database := λ bs,
  '(tableName, bs) ← db_string bs;
  '(schema, bs) ← db_counted (readColumn version) bs;
  '(checks, bs) ← since 6 version readChecks bs;
  '(foreignKeys, bs) ← since 7 version (db_counted (readForeignKey version)) bs;
  '(uniques, bs) ← since 8 version (db_counted readUnique) bs;
  let '(created, db) := createTable newStore tableName schema checks foreignKeys uniques db in
  created ← created;
  _ ← throw_if (negb created) (runtime_error "duplicate table in database file");
  match Database_table tableName db with
  | None => Throw (logic_error "null table dereferenced")
  | Some t =>
      '(definitions, bs) ← db_counted readNames bs;
      t ← restoreIndexes version tableName definitions t;
      '(t, bs) ← loadRows version (length schema) t bs;
      t ← on_copy (ensureConstraintIndexes int_to_double double_add double_sub) t;
      Ok (set_tables (smap_set tableName t) db, bs)
  end.

Definition readTcrdbSnapshot : reader Database := λ bs,
  '(magic, bs) ← readBytes (Z.of_nat (String.length kMagic)) kReadError bs;
  _ ← throw_if (negb (bool_decide (magic = string_bytes kMagic))) (runtime_error "invalid database file magic");
  '(version, bs) ← readPod_u32 kReadError bs;
  _ ← throw_if (Z.ltb version 1 || Z.ltb kVersion version) (runtime_error "unsupported database file version");
  '(name, bs) ← db_string bs;
  db ← Database_new name;
  readFold (readTable version) db bs.


(** ** The storage directory *)

(** A file: its bytes, and whether they are on the medium. *)
Record File : Type := mkFile { fl_bytes : bytes; fl_synced : bool }.

(** The directory, the entries in the order of [directory_iterator] (unspecified; here
    by name), points to the files by number.  [dk_pending] are the directories before
    the changes that are not on the medium. *)
Record Disk : Type := mkDisk {
  dk_exists : bool;
  dk_files : gmap nat File;
  dk_dir : list (string * nat);
  dk_pending : list (list (string * nat));
  dk_publishCount : nat
}.

(** Which calls of the system fail.  [fa_write]: what a failing write leaves in the
    file, and the exception.  The storage directory can be made, and the temporary
    file removed after a failed publication. *)
Record faults : Type := mkFaults {
  fa_open : bool;
  fa_write : option (bytes * exn);
  fa_sync : bool;
  fa_rename : bool;
  fa_remove : bool;
  fa_renameAgain : bool;
  fa_syncDirectory : bool;
  fa_delete : bool
}.
Definition no_faults : faults := mkFaults false None false false false false false false.

Definition kTcrdbExtension : string := ".tcrdb".
Definition tcrdbPathFor (databaseName : string) : string := databaseName +:+ kTcrdbExtension.
Definition tcrdbTemporaryPathFor (databaseName : string) : string := databaseName +:+ kTcrdbExtension +:+ ".tmp".

Definition change_dir (f : list (string * nat) → list (string * nat)) (d : Disk) : Disk :=
  mkDisk (dk_exists d) (dk_files d) (f (dk_dir d)) (dk_dir d :: dk_pending d) (dk_publishCount d).
Definition put_file (i : nat) (f : File) (d : Disk) : Disk :=
  mkDisk (dk_exists d) (<[i := f]> (dk_files d)) (dk_dir d) (dk_pending d) (dk_publishCount d).
Definition file_at (name : string) (d : Disk) : option File := i ← smap_find name (dk_dir d); dk_files d !! i.

Definition create_directories (d : Disk) : Disk := mkDisk true (dk_files d) (dk_dir d) (dk_pending d) (dk_publishCount d).
(** [std::ios::trunc]: an existing file loses its bytes. *)
Definition open_trunc (name : string) (d : Disk) : Disk :=
  match smap_find name (dk_dir d) with
  | Some i => put_file i (mkFile [] false) d
  | None => let i := fresh (dom (dk_files d)) in put_file i (mkFile [] false) (change_dir (smap_emplace name i) d)
  end.
Definition set_file (name : string) (f : File → File) (d : Disk) : Disk :=
  match smap_find name (dk_dir d), file_at name d with
  | Some i, Some file => put_file i (f file) d
  | _, _ => d
  end.
Definition write_file (name : string) (bs : bytes) : Disk → Disk := set_file name (λ f, mkFile (fl_bytes f ++ bs) false).
Definition sync_file (name : string) : Disk → Disk := set_file name (λ f, mkFile (fl_bytes f) true).
Definition remove_file (name : string) : Disk → Disk := change_dir (smap_erase name).
(** In one step the new name points to the file and the old name is gone. *)
Definition rename_file (from to : string) (d : Disk) : Disk :=
  match smap_find from (dk_dir d) with
  | Some i => change_dir (λ dir, smap_emplace to i (smap_erase to (smap_erase from dir))) d
  | None => d
  end.
Definition sync_directory (d : Disk) : Disk := mkDisk (dk_exists d) (dk_files d) (dk_dir d) [] (dk_publishCount d).
Definition count_publish (d : Disk) : Disk :=
  mkDisk (dk_exists d) (dk_files d) (dk_dir d) (dk_pending d) (Datatypes.S (dk_publishCount d)).

(** The disk, and the disks before it, the last one first: a crash can come at any. *)
Abbreviation traced := (M (Disk * list Disk)).
Definition step (f : Disk → Disk) : traced unit := modify (λ s, (f s.1, s.1 :: s.2)).

Definition durableSyncFile (fails : bool) (name : string) : traced unit :=
  if fails then raise (runtime_error ("failed to durable-sync file: " +:+ name)) else step (sync_file name).
Definition durableSyncDirectory (fails : bool) : traced unit :=
  if fails then raise (runtime_error "failed to durable-sync directory") else step sync_directory.
Definition rename (fails : bool) (from to : string) : traced bool :=
  if fails then mret false else _ ← step (rename_file from to); mret true.

(** [partial]: what is written before [writeTcrdbSnapshot] throws. *)
Context (partial : Database → bytes).

Definition write_snapshot (fault : option (bytes * exn)) (name : string) (db : Database) : traced unit :=
  match fault with
  | Some (torn, e) => _ ← step (write_file name torn); raise e
  | None =>
      match writeTcrdbSnapshot db with
      | Throw e => _ ← step (write_file name (partial db)); raise e
      | Ok bs => step (write_file name bs)
      end
  end.

Definition saveDatabase (fault : faults) (db : Database) : traced unit :=
  _ ← step create_directories;
  let targetPath := tcrdbPathFor (db_name db) in
  let tempPath := tcrdbTemporaryPathFor (db_name db) in
  _ ← (if fa_open fault then raise (runtime_error "failed to open temporary database file for writing")
       else step (open_trunc tempPath));
  _ ← write_snapshot (fa_write fault) tempPath db;
  _ ← durableSyncFile (fa_sync fault) tempPath;
  renamed ← rename (fa_rename fault) tempPath targetPath;
  renamed ← (if renamed : bool then mret true
             else
               _ ← (if fa_remove fault then mret tt else step (remove_file targetPath));
               rename (fa_renameAgain fault) tempPath targetPath);
  if negb renamed then
    _ ← step (remove_file tempPath);
    raise (runtime_error "failed to publish database snapshot")
  else
    _ ← durableSyncDirectory (fa_syncDirectory fault);
    step count_publish.

(** A missing file is no error; the removal of the temporary file may fail. *)
Definition deleteDatabase (fault : faults) (databaseName : string) : traced unit :=
  _ ← (if fa_delete fault then raise (runtime_error "failed to delete database file")
       else step (remove_file (tcrdbPathFor databaseName)));
  if fa_remove fault then mret tt else step (remove_file (tcrdbTemporaryPathFor databaseName)).

Definition loadDatabase (databaseName : string) (d : Disk) : result Database :=
  match file_at (tcrdbPathFor databaseName) d with
  | None => Throw (runtime_error "failed to open database file for reading")
  | Some f => '(db, _) ← readTcrdbSnapshot (fl_bytes f); Ok db
  end.

(** [entry.path().extension()] and [stem()]: a name that is only the extension has none. *)
Definition snapshot_stem (file : string) : option string :=
  let cs := explode file in
  let n := length cs - String.length kTcrdbExtension in
  if bool_decide (drop n cs = explode kTcrdbExtension) && negb (Nat.eqb n 0) then Some (implode (take n cs)) else None.

Definition loadFirstDatabase (d : Disk) : result Database :=
  if negb (dk_exists d) then Throw (runtime_error "database storage directory does not exist")
  else
    match omap snapshot_stem (dk_dir d).*1 with
    | [] => Throw (runtime_error "no saved database files found")
    | name :: _ => loadDatabase name d
    end.

Definition metadataExists (databaseName : string) (d : Disk) : bool :=
  bool_decide (is_Some (smap_find (tcrdbPathFor databaseName) (dk_dir d))).

(** The files as the executor uses them. *)
Definition outcome {A} (r : result A * (Disk * list Disk)) : result A * Disk := (r.1, r.2.1).
#[local] Instance disk_storage (fault : faults) : StorageManager Disk Database := {
  sm_loadFirstDatabase := loadFirstDatabase;
  sm_loadDatabase := loadDatabase;
  sm_saveDatabase db d := outcome (saveDatabase fault db (d, []));
  sm_deleteDatabase name d := outcome (deleteDatabase fault name (d, []))
}.
End tcrdb.
