(* ===== verification/TcrdbProof.v ===== *)
(** * A saved database is loaded again

    [reads_back d a x]: the reader [d] turns the bytes [x], whatever follows, into
    [a].  It composes along the binds of a reader, like [decodes]; the part on proper
    prefixes is missing, since the statistics at the end of a file are optional.

    [saveable] collects what a table needs to be saved, [restored] what is the same in
    the table that is loaded.  The second part follows [saveDatabase] through its calls:
    [passes] says of every disk on the way that a crash there keeps the files
    ([keeps_files]). *)

From S2P Require Import Prelude Value BinaryIO BufferPool PageCodec VectorRowStore PageRowStore PageRowStoreProof TransactionManager Mvcc.
From S2P Require Import StringPattern HashIndex BTreeIndex BTreeSpec RedoCodec RedoCodecProof IndexExpression Predicate SetOps IndexManager.
From S2P Require Import IndexManagerProof IndexRedo Histogram Table TableProof TablePages TablePagesProof Database.
From S2P Require Import ForeignKeys Ast Tokenizer SqlLiteral Parser ParserWords StatementText Session Recovery Tcrdb.
Local Open Scope nat_scope.

Definition reads_back {A} (d : reader A) (a : A) (x : bytes) : Prop := ∀ rest, d (x ++ rest) = Ok (a, rest).

Lemma decodes_back {A} (d : reader A) a x : decodes d a x → reads_back d a x.
Proof. by intros []. Qed.
Lemma back_codec {A} (wf : A → Prop) enc d `{!Codec wf enc d} a : wf a → reads_back d a (enc a).
Proof. intros Ha rest. by apply codec_roundtrip. Qed.
Lemma back_bind {A B} (d : reader A) (k : A → reader B) a b x y :
  reads_back d a x → reads_back (k a) b y → reads_back (λ bs, '(a, bs) ← d bs; k a bs) b (x ++ y).
Proof. intros Hd Hk rest. rewrite <- app_assoc, Hd. apply Hk. Qed.
Lemma back_last {A B} (d : reader A) (f : A → B) a x :
  reads_back d a x → reads_back (λ bs, '(a, bs) ← d bs; Ok (f a, bs)) (f a) x.
Proof. intros Hd rest. by rewrite Hd. Qed.
Lemma back_ret {A} (a : A) : reads_back (λ bs, Ok (a, bs)) a [].
Proof. done. Qed.

(** The fold over a counted sequence: [I done st] holds of the state [st] after [done]. *)
Lemma readFold_back {St A} (step : St → reader St) (enc : A → bytes) (I : list A → St → Prop) l st : I [] st →
  (∀ done a st, done ++ [a] `prefix_of` l → I done st → ∃ st', reads_back (step st) st' (enc a) ∧ I (done ++ [a]) st') →
  (∀ a, a ∈ l → 0 < length (enc a)) → size_ok (length l) →
  ∃ st', reads_back (readFold step st) st' (appendNat (length l) ++ concat (map enc l)) ∧ I l st'.
Proof.
  intros Hst Hstep Hpos Hl.
  assert (∀ todo done st, l = done ++ todo → I done st → ∃ st', I l st' ∧ ∀ fuel rest, length todo < fuel →
    readFold_fuel step fuel (Z.of_nat (length todo)) st (concat (map enc todo) ++ rest) = Ok (st', rest)) as Hloop.
  { intros todo. induction todo as [|a todo IH]; intros done st1 -> H1.
    - exists st1. rewrite app_nil_r. split; [done|]. by intros [|fuel] rest Hf.
    - destruct (Hstep done a st1) as (st2 & E2 & H2); [exists todo; by rewrite <- app_assoc|done|].
      destruct (IH (done ++ [a]) st2) as (st3 & H3 & E3); [by rewrite <- app_assoc|done|].
      exists st3. split; [done|]. intros [|fuel] rest Hf; simpl in Hf; [lia|]. cbn [readFold_fuel map concat length].
      destruct (Z.leb_spec (Z.of_nat (S (length todo))) 0); [lia|]. rewrite <- app_assoc, E2. cbn [mbind result_bind].
      replace (Z.of_nat (S (length todo)) - 1)%Z with (Z.of_nat (length todo)) by lia. apply E3. lia. }
  assert (length l ≤ length (concat (map enc l))) as Hlen.
  { clear -Hpos. induction l as [|a l IH]; simpl; [lia|]. rewrite length_app.
    pose proof (Hpos a (list_elem_of_here _ _)). assert (length l ≤ length (concat (map enc l))) by (apply IH; set_solver). lia. }
  destruct (Hloop l [] st eq_refl Hst) as (st' & H' & E). exists st'. split; [|done].
  intros rest. unfold readFold, appendNat. rewrite <- app_assoc, u64_bind_roundtrip by (by apply size_u64).
  apply E. rewrite length_app. lia.
Qed.

(** ** Fields *)

Lemma back_string s : name_ok s → reads_back (readString kReadError kReadError) s (appendString s).
Proof. intros Hs. by apply decodes_back, decodes_name. Qed.
Lemma back_nat n : size_ok n → reads_back (readNat kReadError) n (appendNat n).
Proof. intros Hn. by apply decodes_back, decodes_nat. Qed.
Lemma back_flag b : reads_back (readFlag kReadError) b (appendFlag b).
Proof. apply decodes_back, decodes_flag. Qed.
Lemma back_nats l : sizes_ok l → reads_back (readNats kReadError) l (writeCounted appendNat l).
Proof. intros Hl. by apply decodes_back, decodes_nats. Qed.
Lemma back_tag z : u8 z → reads_back (readPod_u8 kReadError) z (writePod_u8 z).
Proof. intros Hz. by apply decodes_back, decodes_tag. Qed.

(** A counted sequence of elements that are read back. *)
Lemma back_counted {A} (wf : A → Prop) enc (d : reader A) l : (∀ a, wf a → reads_back d a (enc a)) →
  (∀ a, 0 < length (enc a)) → size_ok (length l) → Forall wf l →
  reads_back (readCounted kReadError d) l (appendNat (length l) ++ concat (map enc l)).
Proof.
  intros Hd Hpos Hl Hwf rest. unfold readCounted, appendNat. rewrite <- app_assoc, u64_bind_roundtrip by (by apply size_u64).
  unfold readMany. pose proof (length_concat_enc enc l Hpos) as Hlen.
  assert (length l < S (length (concat (map enc l) ++ rest))) as Hf by (rewrite length_app; lia).
  revert Hf. generalize (S (length (concat (map enc l) ++ rest))). clear Hl Hlen. intros fuel. revert fuel.
  induction Hwf as [|a l Ha _ IH]; intros [|fuel] Hf; simpl in Hf; try lia; [done|]. cbn [readMany_fuel map concat length].
  destruct (Z.leb_spec (Z.of_nat (S (length l))) 0); [lia|]. rewrite <- app_assoc, Hd by done. cbn [mbind result_bind].
  replace (Z.of_nat (S (length l)) - 1)%Z with (Z.of_nat (length l)) by lia. by rewrite IH by lia.
Qed.

Definition names_fit (l : list string) : Prop := size_ok (length l) ∧ Forall name_ok l.
Lemma back_strings l : names_fit l → reads_back (readCounted kReadError (readString kReadError kReadError)) l (writeCounted appendString l).
Proof. intros [Hl Hn]. apply (back_counted name_ok appendString); [apply back_string|apply appendString_pos|done|done]. Qed.

Lemma back_column c : name_ok (col_name c) → reads_back (readColumn kVersion) c (writeColumn c).
Proof.
  intros Hn. destruct c as [name type nullable unique primaryKey]. unfold readColumn, writeColumn.
  cbn [col_name col_type col_nullable col_unique col_primaryKey] in *. eapply back_bind; [by apply back_string|].
  eapply (back_bind readColumnType _ type).
  { intros rest. unfold readColumnType. rewrite back_tag by (by destruct type). by destruct type. }
  do 2 (eapply back_bind; [apply back_flag|]). apply (back_last _ (λ b, mkColumn name type nullable unique b)), back_flag.
Qed.

Lemma back_action action : reads_back readAction action (writePod_u8 (ForeignKeyAction_code action)).
Proof. intros rest. unfold readAction. rewrite back_tag by (by destruct action). by destruct action. Qed.

Definition fk_fits (fk : ForeignKeyConstraint) : Prop :=
  names_fit (fk_childColumns fk) ∧ name_ok (fk_parentTable fk) ∧ names_fit (fk_parentColumns fk).
Lemma back_foreign_key fk : fk_fits fk → reads_back (readForeignKey kVersion) fk (writeForeignKey fk).
Proof.
  intros (Hc & Ht & Hp). destruct fk as [children table parents onDelete onUpdate]. unfold readForeignKey, writeForeignKey, readKeyColumns.
  cbn [fk_childColumns fk_parentTable fk_parentColumns fk_onDelete fk_onUpdate] in *. cbn [Z.leb Z.compare Pos.compare Pos.compare_cont kVersion].
  eapply back_bind; [by apply back_strings|]. eapply back_bind; [by apply back_string|]. eapply back_bind; [by apply back_strings|].
  eapply back_bind; [apply back_action|]. apply (back_last _ (λ a, mkForeignKeyConstraint children table parents onDelete a)), back_action.
Qed.

Lemma back_unique c : names_fit (uc_columns c) → reads_back readUnique c (writeUnique c).
Proof.
  intros Hc. destruct c as [columns primaryKey]. unfold readUnique, writeUnique. cbn [uc_columns uc_primaryKey] in *.
  eapply back_bind; [apply back_flag|]. apply (back_last _ (λ columns, mkUniqueConstraint columns primaryKey)). by apply back_strings.
Qed.

Lemma back_names e : name_ok e.1 → name_ok e.2 → reads_back readNames e (appendNames e).
Proof.
  destruct e as [a b]. intros Ha Hb. unfold readNames, appendNames. eapply back_bind; [by apply back_string|].
  apply (back_last _ (λ b, (a, b))). by apply back_string.
Qed.

(** ** Statistics, pages and indexes *)

Lemma back_value v : keyable v → reads_back db_readValue v (image_bytes v).
Proof. intros Hv. by apply (back_codec (λ v, keyable v) image_bytes _). Qed.

Record histogram_bucket_ok (b : HistogramBucket) : Prop := {
  hbo_lower : keyable (hb_lower b);
  hbo_upper : keyable (hb_upper b);
  hbo_rows : size_ok (hb_rowCount b);
  hbo_distinct : size_ok (hb_distinctCount b)
}.
Definition histogram_ok (h : ColumnHistogram) : Prop :=
  name_ok (ch_column h) ∧ size_ok (ch_rowCount h) ∧ size_ok (ch_distinctCount h) ∧
  size_ok (length (ch_buckets h)) ∧ Forall histogram_bucket_ok (ch_buckets h).

Lemma histogram_bucket_written b : histogram_bucket_ok b → writeHistogramBucket b =
  Ok (image_bytes (hb_lower b) ++ image_bytes (hb_upper b) ++ appendNat (hb_rowCount b) ++ appendNat (hb_distinctCount b)).
Proof. intros [Hl Hu _ _]. unfold writeHistogramBucket, writeValue. by rewrite !image_append_keyable. Qed.

Lemma back_histogram_bucket b : histogram_bucket_ok b → reads_back readHistogramBucket b (written writeHistogramBucket b).
Proof.
  intros Hb. unfold written. rewrite histogram_bucket_written by done. destruct Hb as [Hl Hu Hr Hd]. destruct b as [l u r d].
  cbn [hb_lower hb_upper hb_rowCount hb_distinctCount] in *. unfold readHistogramBucket.
  do 2 (eapply back_bind; [by apply back_value|]). eapply back_bind; [by apply back_nat|].
  apply (back_last _ (λ d, mkHistogramBucket l u r d)). by apply back_nat.
Qed.

Lemma histogram_bucket_pos b : 0 < length (written writeHistogramBucket b).
Proof.
  apply written_pos. intros x. unfold writeHistogramBucket. destruct (writeValue (hb_lower b)); [|done].
  cbn [mbind result_bind]. destruct (writeValue (hb_upper b)); [|done]. apply Ok_pos.
  rewrite !length_app. pose proof (appendNat_pos (hb_rowCount b)). lia.
Qed.

Lemma back_histogram h : histogram_ok h → writes writeHistogram h ∧ reads_back readHistogram h (written writeHistogram h).
Proof.
  intros (Hc & Hr & Hd & Hl & Hb). unfold writes, written, writeHistogram at 1 2 3.
  rewrite (writes_mapM writeHistogramBucket).
  2:{ eapply Forall_impl; [exact Hb|]. intros b Hok. unfold writes, written. by rewrite histogram_bucket_written. }
  cbn [mbind result_bind]. split; [done|]. destruct h as [column rows distinct buckets].
  cbn [ch_column ch_rowCount ch_distinctCount ch_buckets] in *. unfold readHistogram.
  eapply back_bind; [by apply back_string|]. do 2 (eapply back_bind; [by apply back_nat|]).
  apply (back_last _ (λ buckets, mkColumnHistogram column rows distinct buckets)).
  apply (back_counted histogram_bucket_ok (written writeHistogramBucket)); [apply back_histogram_bucket|apply histogram_bucket_pos|done|done].
Qed.

Record page_store_ok (s : PageStoreSnapshot) : Prop := {
  pso_rpp : size_ok (ps_rowsPerPage s);
  pso_capacity : size_ok (ps_capacity s);
  pso_free : sizes_ok (ps_freeList s);
  pso_pages : size_ok (length (ps_pages s)) ∧ Forall heap_page_ok (ps_pages s)
}.

Lemma back_page p : heap_page_ok p → reads_back readPage p (appendHeapPage p).
Proof.
  destruct p as [id payload]. intros [Hi Hp]. unfold readPage, appendHeapPage. cbn [fst snd] in *.
  eapply back_bind; [by apply back_nat|]. apply (back_last _ (λ payload, (id, payload))).
  by apply (back_codec (λ b, size_ok (length b)) appendBlob _).
Qed.

Lemma back_page_store s : page_store_ok s → reads_back readPageStore s (writePageStore s).
Proof.
  intros [Hr Hc Hf [Hl Hp]]. destruct s as [rpp capacity free pages]. cbn [ps_rowsPerPage ps_capacity ps_freeList ps_pages] in *.
  unfold readPageStore, writePageStore. cbn [ps_rowsPerPage ps_capacity ps_freeList ps_pages].
  do 2 (eapply back_bind; [by apply back_nat|]). eapply back_bind; [by apply back_nats|].
  apply (back_last _ (λ pages, mkPageStoreSnapshot rpp capacity free pages)).
  apply (back_counted heap_page_ok appendHeapPage); [apply back_page|apply heap_page_pos|done|done].
Qed.

(** An index whose images have fields that fit. *)
Definition index_store_ok (e : IndexStoreSnapshot) : Prop :=
  name_ok (iss_name e) ∧ name_ok (iss_column e) ∧ btree_image_ok (iss_btree e) ∧ hash_image_ok (iss_hash e).

(** What is read: the hash index is marked as a whole. *)
Definition stored_index (e : IndexStoreSnapshot) : IndexStoreSnapshot :=
  mkIndexStoreSnapshot (iss_name e) (iss_column e) (iss_btree e) (mkHashIndexSnapshot true (his_buckets (iss_hash e))).

Lemma back_index_store e : index_store_ok e → writes writeIndexStore e ∧
  reads_back readIndexStore (stored_index e) (written writeIndexStore e).
Proof.
  intros (Hn & Hc & Hb & Hl & Hh). destruct (writes_btree kReadError kUnsupportedValue _ Hb) as [Eb Db].
  assert (writeHashSnapshot (iss_hash e) = Ok (appendNat (length (his_buckets (iss_hash e))) ++
    concat (map (written appendBucket) (his_buckets (iss_hash e))))) as Eh.
  { unfold writeHashSnapshot. rewrite writes_mapM; [done|]. eapply Forall_impl; [exact Hh|]. intros b Hok.
    unfold writes, written. by rewrite writes_bucket. }
  unfold writes, written, writeIndexStore at 1 2 3. change writeBTreeSnapshot with appendBTreeSnapshot.
  rewrite Eb, Eh. cbn [mbind result_bind]. split; [done|].
  unfold readIndexStore. do 2 (eapply back_bind; [by apply back_string|]). eapply back_bind; [by apply decodes_back|].
  apply (back_last _ (λ h, mkIndexStoreSnapshot (iss_name e) (iss_column e) (iss_btree e) h)).
  apply (back_last _ (λ b, mkHashIndexSnapshot true b)). by apply decodes_back, decodes_buckets.
Qed.

Lemma index_store_pos e : 0 < length (written writeIndexStore e).
Proof.
  apply written_pos. intros x. unfold writeIndexStore. destruct (writeBTreeSnapshot (iss_btree e)); [|done].
  cbn [mbind result_bind]. destruct (writeHashSnapshot (iss_hash e)); [|done]. apply Ok_pos.
  rewrite !length_app. pose proof (appendString_pos (iss_name e)). lia.
Qed.

Lemma histogram_pos h : 0 < length (written writeHistogram h).
Proof.
  apply written_pos. intros x. unfold writeHistogram. destruct (mapM writeHistogramBucket _); [|done].
  apply Ok_pos. rewrite !length_app. pose proof (appendString_pos (ch_column h)). lia.
Qed.

(** ** Maps in order *)

Definition name_lt (x y : string) : Prop := String.ltb x y = true.
(** The entries of a [std::map] are in ascending order of their names. *)
Definition map_ordered {V} (m : list (string * V)) : Prop := StronglySorted name_lt m.*1.

Lemma name_lt_flip x y : name_lt x y → String.ltb y x = false.
Proof. unfold name_lt, String.ltb. rewrite (String.compare_antisym x y). by destruct (String.compare y x). Qed.
Lemma name_lt_irrefl x : ¬ name_lt x x.
Proof. intros H. pose proof (name_lt_flip _ _ H). unfold name_lt in H. congruence. Qed.
#[export] Instance name_lt_antisymm : AntiSymm (=) name_lt.
Proof. intros x y Hx Hy%name_lt_flip. unfold name_lt in Hx. congruence. Qed.

Lemma sorted_NoDup l : StronglySorted name_lt l → NoDup l.
Proof.
  induction 1 as [|x l _ IH Hx]; constructor; [|done]. intros Hin. rewrite Forall_forall in Hx. by apply (name_lt_irrefl x), Hx.
Qed.
Lemma names_sorted_last {A} (R : relation A) l x : StronglySorted R (l ++ [x]) → Forall (λ y, R y x) l.
Proof.
  induction l as [|y l IH]; [constructor|]. simpl. intros [Hl Hy]%StronglySorted_inv. constructor; [|by apply IH].
  by apply Forall_app in Hy as [_ [Hy _]%Forall_cons].
Qed.
Lemma smap_emplace_last {V} name (v : V) m : Forall (λ k, name_lt k name) m.*1 → smap_emplace name v m = m ++ [(name, v)].
Proof.
  induction m as [|[k w] m IH]; [done|]. intros [Hk Hm]%Forall_cons. simpl.
  destruct (String.eqb_spec k name) as [->|]; [by apply name_lt_irrefl in Hk|]. simpl in Hk. by rewrite (name_lt_flip k name Hk), IH.
Qed.

(** The loop that fills a map from its own entries. *)
Lemma smap_fold {V} (f : V → string) (l : list V) : StronglySorted name_lt (f <$> l) →
  foldl (λ m v, smap_emplace (f v) v m) [] l = (λ v, (f v, v)) <$> l.
Proof.
  induction l as [|v l IH] using rev_ind; [done|]. rewrite fmap_app. simpl. intros Hs. pose proof (names_sorted_last _ _ _ Hs) as Hl.
  rewrite foldl_app, IH by (by apply StronglySorted_app_1_l in Hs). simpl. rewrite smap_emplace_last, fmap_app; [done|].
  by rewrite <- list_fmap_compose.
Qed.

(** Two maps over the same names. *)
Lemma map_by_keys {V W} (d : W) (m : list (string * V)) (m' : list (string * W)) : m'.*1 = m.*1 → NoDup m.*1 →
  m' = (λ e, (e.1, default d (smap_find e.1 m'))) <$> m.
Proof.
  intros E Hnd. rewrite <- E in Hnd.
  assert (m' = (λ k, (k, default d (smap_find k m'))) <$> m'.*1) as E'.
  { rewrite <- list_fmap_compose. symmetry. rewrite <- (list_fmap_id m') at 2. apply list_fmap_ext.
    intros i [k w] Hi. simpl. rewrite (smap_find_NoDup k w m'); [done|done|]. by eapply list_elem_of_lookup_2. }
  rewrite E' at 1. by rewrite E, <- list_fmap_compose.
Qed.

(** ** Index definitions *)

Section snapshot.
Context (i2d : Z → Z) (dadd dsub : Z → Z → Z) (dchars : Z → chars) (stod : chars → option Z).
Context (newStore : PageRowStore).
Abbreviation Table := (Table Select PageRowStore).
Abbreviation Database := (Database Select PageRowStore).
Abbreviation state := (state Select PageRowStore).
Implicit Types t : Table.
Implicit Types P : list (string * list nat).
Implicit Types exprs : list (string * IndexExpression).

(** The manager with the definitions [P] and nothing in its indexes. *)
Definition exprs_of exprs P : list (string * IndexExpression) := omap (λ x, e ← smap_find x.1 exprs; Some (x.1, e)) P.
Definition im_blank exprs P : IndexManager :=
  mkIndexManager P (exprs_of exprs P) ((λ x, (x.1, hi_empty)) <$> P) ((λ x, (x.1, bt_default)) <$> P).

Lemma exprs_of_keys (Q : string → Prop) exprs P : Forall Q P.*1 → Forall Q (exprs_of exprs P).*1.
Proof.
  induction P as [|[k idxs] P IH]; [done|]. intros [Hk HP]%Forall_cons. unfold exprs_of. cbn [omap list_omap fst].
  destruct (smap_find k exprs); cbn [mbind option_bind]; [|by apply IH]. constructor; [done|by apply IH].
Qed.

(** With the expressions in the order of the names nothing is lost. *)
Lemma exprs_of_all exprs P : map_ordered P → map_ordered exprs → exprs.*1 ⊆ P.*1 → exprs_of exprs P = exprs.
Proof.
  intros HP He Hsub. pose proof (sorted_NoDup _ He) as Hnd. pose proof (sorted_NoDup _ HP) as HndP.
  assert (∀ k e, (k, e) ∈ exprs_of exprs P ↔ k ∈ P.*1 ∧ smap_find k exprs = Some e) as Hin.
  { intros k e. unfold exprs_of. rewrite list_elem_of_omap, list_elem_of_fmap. split.
    - intros ([k' idxs] & Hx & E). simpl in E. destruct (smap_find k' exprs) as [e'|] eqn:Ef; [|done].
      injection E as -> ->. split; [by exists (k, idxs)|done].
    - intros ([[k' idxs] [-> Hx]] & E). exists (k', idxs). split; [done|]. simpl in *. by rewrite E. }
  assert (map_ordered (exprs_of exprs P)) as Ho.
  { clear He Hsub Hin HndP. induction P as [|[k idxs] P IH]; [constructor|].
    unfold map_ordered in HP. simpl in HP. apply StronglySorted_inv in HP as [HP Hk].
    unfold map_ordered, exprs_of. cbn [omap list_omap fst]. destruct (smap_find k exprs); cbn [mbind option_bind]; [|by apply IH].
    constructor; [by apply IH|]. by apply exprs_of_keys. }
  assert (exprs_of exprs P ≡ₚ exprs) as Hperm.
  { apply NoDup_Permutation.
    - by eapply NoDup_fmap_1, sorted_NoDup.
    - by eapply NoDup_fmap_1.
    - intros [k e]. rewrite Hin. split.
      + intros [_ E]. by apply smap_find_Some.
      + intros Hx. split; [by apply Hsub, (list_elem_of_fmap_2 fst exprs (k, e))|by apply smap_find_NoDup]. }
  assert ((exprs_of exprs P).*1 = exprs.*1) as Ek by (eapply (StronglySorted_unique name_lt); [done|done|by rewrite Hperm]).
  set (d := mkIndexExpression K_Column EmptyString VNull). rewrite (map_by_keys d exprs (exprs_of exprs P)) by done.
  etransitivity; [|symmetry; by apply (map_by_keys d exprs exprs)].
  apply list_fmap_ext. intros i [k e] Hi. simpl. f_equal. f_equal. apply list_elem_of_lookup_2 in Hi.
  rewrite (smap_find_NoDup k e exprs) by done. apply smap_find_NoDup; [by rewrite Ek|by rewrite Hperm].
Qed.

Lemma define_blank exprs P x : map_ordered (P ++ [x]) →
  im_define x.1 x.2 (smap_find x.1 exprs) (im_blank exprs P) = im_blank exprs (P ++ [x]).
Proof.
  intros Hs. unfold map_ordered in Hs. rewrite fmap_app in Hs. apply names_sorted_last in Hs. destruct x as [name idxs].
  unfold im_define, im_blank. cbn [im_indexColumns im_indexExpressions im_indexes im_orderedIndexes fst snd] in *.
  rewrite !fmap_app, !smap_emplace_last by (rewrite <- ?list_fmap_compose; done). f_equal.
  unfold exprs_of. rewrite omap_app. cbn [omap list_omap fst]. destruct (smap_find name exprs); cbn [mbind option_bind].
  - rewrite smap_emplace_last; [done|]. by apply exprs_of_keys.
  - by rewrite app_nil_r.
Qed.

(** An index definition the catalog can have made. *)
Record definition_ok (sch : Schema) exprs (x : string * list nat) : Prop := {
  df_columns : x.2 ≠ [];
  df_names : Forall (λ i, ∃ c, sch !! i = Some c ∧ identifier (col_name c) = true) x.2;
  df_expression e : smap_find x.1 exprs = Some e →
    IndexExpression.literal_ok e = true ∧ ∃ i c, x.2 = [i] ∧ sch !! i = Some c ∧ ie_column e = col_name c
}.

(** What the file says of the definition [x]. *)
Definition text_of (sch : Schema) exprs (x : string * list nat) (e : string * string) : Prop :=
  e.1 = x.1 ∧ ∃ names encoded, column_names sch x.2 = Ok names ∧ column_names_at sch x.2 = Ok names ∧
    encodeIndexDefinitionColumns dchars names (smap_find x.1 exprs) = Ok encoded ∧ e.2 = implode encoded ∧
    decodeIndexDefinitionColumns stod encoded = Ok (names, smap_find x.1 exprs).

Lemma column_names_ok (sch : Schema) idxs : Forall (λ i, ∃ c, sch !! i = Some c ∧ identifier (col_name c) = true) idxs →
  ∃ names, column_names sch idxs = Ok names ∧ column_names_at sch idxs = Ok names ∧ length names = length idxs ∧
    Forall (λ s, identifier s = true) names.
Proof.
  induction 1 as [|i idxs (c & Ec & Hc) _ (names & E1 & E2 & El & Hn)]; [by exists []|]. exists (col_name c :: names).
  cbn [column_names column_names_at]. unfold column_name. rewrite Ec. cbn [mbind result_bind]. rewrite E1, E2.
  split_and!; [done|done|simpl; by f_equal|by constructor].
Qed.

Lemma definition_text sch exprs x : definition_ok sch exprs x → ∃ e, text_of sch exprs x e.
Proof.
  intros [Hne Hn He]. destruct (column_names_ok sch x.2 Hn) as (names & E1 & E2 & El & Hnames).
  destruct (index_definition_roundtrip dchars stod names (smap_find x.1 exprs)) as (encoded & Ee & Ed).
  - done.
  - intros ->. by destruct x.2.
  - intros e Ef. destruct (He e Ef) as (Hl & i & c & Ei & Ec & ->). split; [|done].
    rewrite Ei in E1. simpl in E1. unfold column_name in E1. rewrite Ec in E1. simpl in E1. by injection E1 as <-.
  - exists (x.1, implode encoded). split; [done|]. by exists names, encoded.
Qed.

Lemma definitions_written sch exprs P : Forall (definition_ok sch exprs) P → ∃ ds entries,
  indexDefinitions_loop P exprs sch = Ok ds ∧ mapM (indexText dchars) ds = Ok entries ∧ Forall2 (text_of sch exprs) P entries.
Proof.
  induction 1 as [|[name idxs] P Hx _ (ds & entries & Ed & Ee & HF)]; [by exists [], []|].
  destruct (definition_text _ _ _ Hx) as (e & Het & names & encoded & E1 & E2 & E3 & E4 & E5).
  eexists _, (e :: entries). cbn [indexDefinitions_loop]. cbn [fst snd] in *. rewrite E1. cbn [mbind result_bind]. rewrite Ed.
  cbn [mbind result_bind]. split_and!; [done| |].
  - cbn [mapM]. rewrite Ee. unfold indexText. cbn [id_columns id_expression id_name]. rewrite E3. cbn [mbind result_bind]. destruct e. simpl in *. by subst.
  - constructor; [|done]. split; [done|]. by exists names, encoded.
Qed.

Lemma names_columnIndexes t idxs names : NoDup (column_names_of t) → column_names (t_schema t) idxs = Ok names →
  columnIndexes t names = Some idxs.
Proof.
  intros Hnd. revert names. induction idxs as [|i idxs IH]; intros names E; simpl in E; [by injection E as <-|].
  unfold column_name in E at 1. destruct (t_schema t !! i) as [c|] eqn:Ec; [|done]. cbn [mbind result_bind] in E.
  destruct (column_names (t_schema t) idxs) as [rest|] eqn:Er; [|done]. injection E as <-.
  cbn [columnIndexes]. unfold columnIndex. by rewrite (findColumn_lookup _ i c), (IH rest).
Qed.

(** One definition is registered, with empty indexes. *)
Lemma restore_one t exprs P x e tableName : t_indexManager t = im_blank exprs P → NoDup (column_names_of t) →
  im_wf (t_schema t) (im_blank exprs P) → map_ordered (P ++ [x]) → definition_ok (t_schema t) exprs x →
  text_of (t_schema t) exprs x e →
  restoreIndex i2d dadd dsub stod kVersion tableName e t = Ok (set_indexes (im_blank exprs (P ++ [x])) t) ∧
  im_wf (t_schema t) (im_blank exprs (P ++ [x])).
Proof.
  intros Him Hnd Hwf Hs [Hne Hn He] (E1 & names & encoded & En & _ & _ & Et & Ed).
  assert (x.1 ∉ (im_indexColumns (im_blank exprs P)).*1) as Hfresh.
  { intros Hin. unfold map_ordered in Hs. rewrite fmap_app in Hs. apply names_sorted_last in Hs.
    rewrite Forall_forall in Hs. by apply (name_lt_irrefl x.1), Hs. }
  assert (Forall (λ i, i < length (t_schema t)) x.2) as Hcols.
  { eapply Forall_impl; [exact Hn|]. intros i (c & Ec & _). by eapply lookup_lt_Some. }
  rewrite <- define_blank by done. split; [|by apply define_wf].
  unfold restoreIndex. rewrite Et, explode_implode, Ed. cbn [mbind result_bind]. change (Z.leb 4 kVersion) with true. cbv iota.
  assert ((Table_registerIndex i2d dadd dsub x.1 x.2 (smap_find x.1 exprs) false) (mkState t None) =
    (Ok true, mkState (set_indexes (im_define x.1 x.2 (smap_find x.1 exprs) (im_blank exprs P)) t) None)) as Er.
  { unfold Table_registerIndex, mbind, op_bind, on_table, id, indexes. cbn [st_table]. rewrite Him.
    rewrite registerIndex_accepts; [by destruct t|done|done| |done|done].
    destruct (smap_find x.1 exprs) as [ex|] eqn:Ef; [right|by left]. destruct (He ex eq_refl) as (_ & i & c & -> & _). done. }
  destruct (smap_find x.1 exprs) as [ex|] eqn:Ef.
  - unfold createIndexWithoutRebuild_expr, create_index_expr. unfold mbind, op_bind, on_table, id. cbn [st_table].
    destruct (He ex eq_refl) as (_ & i & c & Ei & Ec & Ecol). unfold columnIndex.
    rewrite Ecol, (findColumn_lookup _ i c) by done. rewrite <- Ei, E1, Er. done.
  - unfold createIndexWithoutRebuild, create_index. unfold mbind, op_bind, on_table, id. cbn [st_table].
    pose proof (names_columnIndexes t x.2 names Hnd En) as Ec. destruct names as [|n names]; [|by rewrite Ec, E1, Er].
    destruct x as [? [|i idxs]]; [done|]. simpl in En. destruct (column_name _ i); [|done]. cbn [mbind result_bind] in En.
    by destruct (column_names _ idxs).
Qed.

Lemma restore_all sch exprs entries todo P t tableName : t_schema t = sch → t_indexManager t = im_blank exprs P →
  NoDup (column_names_of t) → im_wf sch (im_blank exprs P) → map_ordered (P ++ todo) →
  Forall (definition_ok sch exprs) todo → Forall2 (text_of sch exprs) todo entries →
  restoreIndexes i2d dadd dsub stod kVersion tableName entries t = Ok (set_indexes (im_blank exprs (P ++ todo)) t).
Proof.
  intros Hsch Him Hnd Hwf Hs Hdf HF. revert P t Hsch Him Hnd Hwf Hs Hdf.
  induction HF as [|x e todo entries He HF IH]; intros P t Hsch Him Hnd Hwf Hs Hdf.
  - rewrite app_nil_r, <- Him. by destruct t.
  - apply Forall_cons in Hdf as [Hx Hdf]. cbn [restoreIndexes].
    destruct (restore_one t exprs P x e tableName Him Hnd) as [E Hwf']; rewrite ?Hsch; [done| |done|done|].
    { unfold map_ordered in *. rewrite cons_middle, app_assoc, fmap_app in Hs. by apply StronglySorted_app_1_l in Hs. }
    rewrite E. cbn [mbind result_bind]. rewrite (cons_middle x P todo), app_assoc. rewrite Hsch in Hwf'.
    rewrite (IH (P ++ [x]) (set_indexes (im_blank exprs (P ++ [x])) t)); [done..| |done].
    by rewrite <- app_assoc.
Qed.

(** ** Rows and index pages *)

Lemma page_rows_valid t (rows : list Row) : (∀ row, row ∈ rows → row = [] ∨ validateRow dchars t row = Ok tt) →
  validate_page_rows dchars t rows = Ok tt.
Proof.
  induction rows as [|row rows IH]; intros H; [done|]. cbn [validate_page_rows].
  assert (validate_page_rows dchars t rows = Ok tt) as -> by (apply IH; set_solver).
  destruct (H row (list_elem_of_here _ _)) as [->| ->]; [done|]. by destruct (Nat.eqb _ 0).
Qed.

Lemma exported_valid t s v : prs_rep s v → (∀ i row, vrs_get i v = Some row → validateRow dchars t row = Ok tt) →
  validate_pages dchars t (ps_pages (exportPages s)) = Ok tt.
Proof.
  intros [Hc _ _ _] Hv. unfold exportPages. cbn [ps_pages].
  rewrite (dir_pages_list s _ _ (pc_rpp _ _ Hc) (pc_dir _ _ Hc)). unfold pages_list. generalize (seq 0 (expectedPageCount (prs_rowsPerPage s) (length (vrs_rows v)))).
  intros l. induction l as [|q l IH]; [done|]. cbn [fmap list_fmap validate_pages].
  rewrite chunk_decodes by apply Hc. cbn [mbind result_bind]. rewrite page_rows_valid; [exact IH|].
  intros row [k Hk]%list_elem_of_lookup. rewrite lookup_chunk in Hk. case_decide; [|done]. rewrite lookup_flat in Hk.
  destruct (vrs_rows v !! (q * prs_rowsPerPage s + k)) as [[row'|]|] eqn:Er; simpl in Hk; [|by injection Hk as <-; left|done].
  injection Hk as <-. right. apply (Hv (q * prs_rowsPerPage s + k)). unfold vrs_get, vrs_lookup. by rewrite Er.
Qed.

Lemma pages_loaded s t v w : prs_rep s v → prs_rep (t_rowStore t) w → rows_nonempty (vrs_rows v) →
  (∀ i row, vrs_get i v = Some row → validateRow dchars t row = Ok tt) →
  ∃ store vs, on_copy (Table_replaceFromPages i2d dadd dsub dchars (exportPages s) false) t =
      Ok (with_parts t store (t_indexManager t) vs) ∧ prs_rep store v ∧ ∀ i, latest vs i = vrs_get i v.
Proof.
  intros Hs Ht Hne Hv. destruct (export_reload s v (t_rowStore t) w Hs Ht Hne) as (s' & E & Hs' & _).
  assert (validatePageStoreLayout (exportPages s) = Ok tt) as El.
  { unfold replaceFromPages in E. by destruct (validatePageStoreLayout _) as [[]|]. }
  destruct (refresh_runs (set_store s' t) v (t_indexManager t) (t_versions t) None (mkState (set_store s' t) None))
    as (s2 & E2 & vs & (store & -> & Hrep) & Hvs).
  { exists s'. split; [by destruct t|exact Hs']. }
  exists store, vs. split; [|by split]. unfold on_copy, Table_replaceFromPages, mbind, op_bind, on_table, lift, id. cbn [st_table].
  rewrite El, (exported_valid t s v Hs Hv). unfold replace_store, row_store. cbn [st_table st_transactions]. rewrite E.
  cbn [mbind result_bind]. rewrite E2. done.
Qed.

(** The two indexes of a definition, and an entry of the file that has their pages. *)
Definition hash_of (im : IndexManager) (x : string * list nat) : HashIndex := default hi_empty (smap_find x.1 (im_indexes im)).
Definition tree_of (im : IndexManager) (x : string * list nat) : BTreeIndex := default bt_default (smap_find x.1 (im_orderedIndexes im)).
Definition pages_of (im : IndexManager) (x : string * list nat) (e : IndexStoreSnapshot) : Prop :=
  iss_name e = x.1 ∧ iss_btree e = bt_exportPages (tree_of im x) ∧ his_buckets (iss_hash e) = hi_entries (hash_of im x).

Lemma export_entries sch im P : im_wf sch im → P ⊆ im_indexColumns im → Forall (definition_ok sch (im_indexExpressions im)) P →
  ∃ entries, mapM (λ e, export_index dchars im sch e.1 e.2) P = Ok entries ∧ Forall2 (pages_of im) P entries.
Proof.
  intros Hwf Hsub. induction 1 as [|x P Hx HP IH]; [by exists []|]. destruct IH as (entries & E & HF); [set_solver|].
  destruct (definition_text _ _ _ Hx) as (text & _ & names & encoded & _ & En & Ee & _).
  assert (x.1 ∈ (im_indexColumns im).*1) as Hin by (apply list_elem_of_fmap_2, Hsub; left).
  assert (∀ V (m : list (string * V)) d, m.*1 = (im_indexColumns im).*1 → smap_at x.1 m = Ok (default d (smap_find x.1 m))) as Hat.
  { intros V m d Ek. unfold smap_at. destruct (smap_find x.1 m) eqn:Ef; [done|]. apply smap_find_None in Ef. by rewrite Ek in Ef. }
  eexists. cbn [mapM]. rewrite E. unfold export_index at 1. rewrite En. cbn [mbind result_bind]. rewrite Ee. cbn [mbind result_bind].
  rewrite (Hat _ _ bt_default) by apply Hwf. cbn [mbind result_bind]. rewrite (Hat _ _ hi_empty) by apply Hwf. cbn [mbind result_bind].
  split; [done|]. by constructor.
Qed.

Lemma pages_replaced im P entries Dh Db (s : state) :
  im_indexes (im_of s) = Dh ++ ((λ x, (x.1, hi_empty)) <$> P) → im_orderedIndexes (im_of s) = Db ++ ((λ x, (x.1, bt_default)) <$> P) →
  NoDup (im_indexes (im_of s)).*1 → NoDup (im_orderedIndexes (im_of s)).*1 → Forall2 (pages_of im) P entries →
  Forall (λ x, assoc_ok (hi_entries (hash_of im x)) ∧ ∃ max tr l, bt_refines max (tree_of im x) tr l) P →
  replaceIndexPages entries s = (Ok tt, with_im (im_with_indexes (im_of s)
    (Dh ++ ((λ x, (x.1, HashIndex_clearDirtyPages (hash_of im x))) <$> P))
    (Db ++ ((λ x, (x.1, bt_clearDirtyPages (tree_of im x))) <$> P))) s).
Proof.
  intros Hh Hb Nh Nb HF Hok. revert Dh Db s Hh Hb Nh Nb. induction HF as [|x e P entries (En & Et & Ebk) HF IH]; intros Dh Db s Hh Hb Nh Nb.
  - simpl in *. rewrite <- Hh, <- Hb. by destruct s as [[????? ? []]].
  - apply Forall_cons in Hok as [(Hx & max & tr & l & Hr) Hok]. rewrite fmap_cons in Hh. rewrite fmap_cons in Hb.
    rewrite Hh in Nh. rewrite Hb in Nb. rewrite !fmap_cons.
    cbn [replaceIndexPages]. unfold mbind at 1, op_bind, on_table. fold (im_of s). rewrite Hh, Hb, En.
    rewrite (smap_find_NoDup x.1 hi_empty) by (done || set_solver). rewrite (smap_find_NoDup x.1 bt_default) by (done || set_solver).
    unfold mbind, lift. rewrite Et, (bt_export_reload max _ tr l) by done. unfold update_indexes, set_table.
    cbn [st_table st_transactions]. unfold set_tree, set_hash.
    fold (im_of s). cbn [t_indexManager set_indexes im_with_indexes im_indexes im_orderedIndexes].
    rewrite Hh, Hb, !smap_set_middle by done.
    rewrite (IH Hok (Dh ++ [(x.1, HashIndex_clearDirtyPages (hash_of im x))]) (Db ++ [(x.1, bt_clearDirtyPages (tree_of im x))])).
    + unfold with_im, im_of. simpl. by rewrite <- !app_assoc.
    + simpl. unfold replaceFromBuckets, HashIndex_clearDirtyPages. rewrite Ebk, (emplace_all_ok [] (hi_entries (hash_of im x))) by done.
      by rewrite <- app_assoc.
    + simpl. by rewrite <- app_assoc.
    + simpl. rewrite fmap_app, fmap_cons in *. done.
    + simpl. rewrite fmap_app, fmap_cons in *. done.
Qed.

(** ** Tables *)

(** Every field of the file has room for what the table has. *)
Record table_fits t : Prop := {
  tf_name : name_ok (t_name t);
  tf_columns : size_ok (length (t_schema t)) ∧ Forall (λ c, name_ok (col_name c)) (t_schema t);
  tf_checks : size_ok (length (t_checkConstraints t)) ∧
    Forall (λ p, ∀ text, checkText dchars p = Ok text → name_ok text) (t_checkConstraints t);
  tf_foreignKeys : size_ok (length (t_foreignKeys t)) ∧ Forall fk_fits (t_foreignKeys t);
  tf_uniques : size_ok (length (t_uniqueConstraints t)) ∧ Forall (λ c, names_fit (uc_columns c)) (t_uniqueConstraints t);
  tf_definitions : size_ok (length (im_indexColumns (t_indexManager t))) ∧ ∀ x e, x ∈ im_indexColumns (t_indexManager t) →
    text_of (t_schema t) (im_indexExpressions (t_indexManager t)) x e → name_ok e.1 ∧ name_ok e.2;
  tf_pages : page_store_ok (exportPages (t_rowStore t));
  tf_indexes entries : read_off (exportIndexPages dchars) t = Ok entries → Forall index_store_ok entries;
  tf_histograms : size_ok (length (t_statistics t)) ∧ Forall histogram_ok (columnHistograms (t_statistics t))
}.

(** A table with the rows [v] that can be saved: its constructor accepts its own
    definition, the maps of the table are in order, every unique constraint has its index. *)
Record saveable t (v : VectorRowStore) : Prop := {
  sv_new : t_schema <$> Table_new newStore (t_name t) (t_schema t) (t_checkConstraints t) (t_foreignKeys t)
             (t_uniqueConstraints t) = Ok (t_schema t);
  sv_checks : Forall (check_ok dchars stod) (t_checkConstraints t);
  sv_rep : prs_rep (t_rowStore t) v;
  sv_inv : hinv i2d dadd dsub dchars t v (t_indexManager t);
  sv_indexes : map_ordered (im_indexColumns (t_indexManager t));
  sv_expressions : map_ordered (im_indexExpressions (t_indexManager t));
  sv_definitions : Forall (definition_ok (t_schema t) (im_indexExpressions (t_indexManager t))) (im_indexColumns (t_indexManager t));
  sv_indexed : Forall (λ c, hasIndex (t_indexManager t) (uc_columns c) (t_schema t) = Ok true) (allUniqueConstraints t);
  sv_statistics : map_ordered (t_statistics t) ∧ Forall (λ e, e.1 = ch_column e.2) (t_statistics t);
  sv_fits : table_fits t
}.

(** The table [t'] that a reader of the file gets: the indexes are those of [t] with
    nothing marked as changed, and there is one version of every row. *)
Record restored t (v : VectorRowStore) t' : Prop := {
  rs_static : static t' = static t;
  rs_statistics : t_statistics t' = t_statistics t;
  rs_indexManager : t_indexManager t' = clear_index_marks (t_indexManager t);
  rs_rows : prs_rep (t_rowStore t') v;
  rs_inv : hinv i2d dadd dsub dchars t' v (t_indexManager t');
  rs_versions i : latest (t_versions t') i = vrs_get i v
}.

Definition check_text (p : Predicate Select) : string := match checkText dchars p with Ok text => text | Throw _ => EmptyString end.

Lemma check_written p : check_ok dchars stod p → checkText dchars p = Ok (check_text p) ∧
  ∀ s, (parseCheckConstraintExpression stod (explode (check_text p)) s).1 = Ok p.
Proof.
  intros Hp. destruct (check_text_parses dchars stod p Hp) as (text & E & H). unfold check_text, checkText. rewrite E.
  cbn [mbind result_bind]. split; [done|]. by rewrite explode_implode.
Qed.

Lemma back_since {A} first (d : reader (list A)) a x : Z.leb first kVersion = true → reads_back d a x →
  reads_back (since first kVersion d) a x.
Proof. intros E Hd rest. unfold since. rewrite E. apply Hd. Qed.

Lemma back_checks checks : Forall (check_ok dchars stod) checks → size_ok (length checks) →
  Forall (λ p, ∀ text, checkText dchars p = Ok text → name_ok text) checks →
  mapM (checkText dchars) checks = Ok (map check_text checks) ∧
  reads_back (readChecks stod) checks (writeCounted appendString (map check_text checks)).
Proof.
  intros Hok Hl Hfit. split.
  { apply mapM_Ok. eapply Forall_impl; [exact Hok|]. intros p Hp. by apply check_written. }
  destruct (readFold_back (readCheck stod) (appendString ∘ check_text) (λ done st, st.2 = done) checks (parser_new, []))
    as ([parser st] & Hb & E); [done| | |done|].
  - intros seen p [parser st] Hpre Est. cbn [snd] in Est. subst st. assert (p ∈ checks) as Hin by (destruct Hpre as [k ->]; set_solver).
    rewrite Forall_forall in Hok, Hfit. destruct (check_written p (Hok p Hin)) as [Et Hparse].
    specialize (Hparse parser). cbn [fst snd].
    destruct (parseCheckConstraintExpression stod (explode (check_text p)) parser) as [r parser'] eqn:Ep. cbn [fst] in Hparse.
    exists (parser', seen ++ [p]). split; [|done]. intros rest. unfold readCheck, compose.
    rewrite back_string by (by apply (Hfit p)). cbn [mbind result_bind fst snd]. by rewrite Ep, Hparse.
  - intros p _. apply appendString_pos.
  - intros rest. unfold readChecks. cbn [snd] in E. subst st. unfold writeCounted. rewrite length_map, map_map.
    change (writePod_u64 (Z.of_nat (length checks))) with (appendNat (length checks)). rewrite Hb. done.
Qed.

Lemma back_indexes entries : size_ok (length entries) → Forall index_store_ok entries →
  mapM writeIndexStore entries = Ok (map (written writeIndexStore) entries) ∧
  reads_back (readCounted kReadError readIndexStore) (map stored_index entries)
    (appendNat (length entries) ++ concat (map (written writeIndexStore) entries)).
Proof.
  intros Hl Hok. split; [apply writes_mapM; eapply Forall_impl; [exact Hok|]; intros e He; by apply back_index_store|].
  rewrite <- (length_map stored_index), <- (map_ext (λ e, written writeIndexStore (stored_index e)) _ ltac:(done)),
    <- (map_map stored_index (written writeIndexStore)).
  apply (back_counted (λ e, index_store_ok e ∧ stored_index e = e)); [|apply index_store_pos|by rewrite length_map|].
  - intros e [He Es]. destruct (back_index_store e He) as [_ Hb]. by rewrite Es in Hb.
  - apply Forall_map. eapply Forall_impl; [exact Hok|]. intros e (Hn & Hc & Hb & Hh). by split.
Qed.

Lemma back_histograms hs : size_ok (length hs) → Forall histogram_ok hs →
  mapM writeHistogram hs = Ok (map (written writeHistogram) hs) ∧
  reads_back (readCounted kReadError readHistogram) hs (appendNat (length hs) ++ concat (map (written writeHistogram) hs)).
Proof.
  intros Hl Hok. split; [apply writes_mapM; eapply Forall_impl; [exact Hok|]; intros h Hh; by apply back_histogram|].
  apply (back_counted histogram_ok); [intros h Hh; by apply back_histogram|apply histogram_pos|done|done].
Qed.

(** The bytes of a table. *)
Definition table_bytes t (definitions : list (string * string)) (entries : list IndexStoreSnapshot) : bytes :=
  appendString (t_name t) ++ writeCounted writeColumn (t_schema t) ++ writeCounted appendString (map check_text (t_checkConstraints t))
  ++ writeCounted writeForeignKey (t_foreignKeys t) ++ writeCounted writeUnique (t_uniqueConstraints t)
  ++ writeCounted appendNames definitions ++ writePageStore (exportPages (t_rowStore t))
  ++ (appendNat (length entries) ++ concat (map (written writeIndexStore) entries))
  ++ (string_bytes kHistogramMagic ++ appendNat (length (columnHistograms (t_statistics t)))
      ++ concat (map (written writeHistogram) (columnHistograms (t_statistics t)))).

Lemma table_written t v : saveable t v → ∃ definitions entries,
  writeTable dchars t = Ok (table_bytes t definitions entries) ∧
  Forall2 (text_of (t_schema t) (im_indexExpressions (t_indexManager t))) (im_indexColumns (t_indexManager t)) definitions ∧
  Forall2 (pages_of (t_indexManager t)) (im_indexColumns (t_indexManager t)) entries ∧ Forall index_store_ok entries ∧
  length entries = length (im_indexColumns (t_indexManager t)).
Proof.
  intros [_ Hck _ Hinv _ _ Hdf _ _ [_ _ [Hcl Hct] _ _ [Hdl _] _ Hix [Hsl Hst]]].
  destruct (definitions_written _ _ _ Hdf) as (ds & definitions & Ed & Et & Hdefs).
  destruct (export_entries (t_schema t) (t_indexManager t) (im_indexColumns (t_indexManager t))) as (entries & Ee & Hpages);
    [apply Hinv|done|done|].
  assert (read_off (exportIndexPages dchars) t = Ok entries) as Eo by exact Ee. pose proof (Hix _ Eo) as Hie.
  pose proof (Forall2_length _ _ _ Hpages) as Elen. rewrite Elen in Hdl.
  exists definitions, entries. split_and!; [|done..]. unfold writeTable.
  rewrite (proj1 (back_checks _ Hck Hcl Hct)). cbn [mbind result_bind].
  change (read_off Table_indexDefinitions t) with (indexDefinitions_loop (im_indexColumns (t_indexManager t)) (im_indexExpressions (t_indexManager t)) (t_schema t)).
  rewrite Ed. cbn [mbind result_bind]. rewrite Et. cbn [mbind result_bind].
  change (read_off exportPageStore t) with (Ok (exportPages (t_rowStore t))). cbn [mbind result_bind].
  unfold writeIndexPages. rewrite Eo. cbn [mbind result_bind]. rewrite (proj1 (back_indexes _ Hdl Hie)). cbn [mbind result_bind].
  unfold writeColumnHistograms. rewrite (proj1 (back_histograms (columnHistograms (t_statistics t)) ltac:(by unfold columnHistograms; rewrite length_fmap) Hst)).
  cbn [mbind result_bind]. done.
Qed.

Lemma indexes_hold t v im : im_wf (t_schema t) im → im_reflects i2d dadd dsub (t_schema t) im v →
  Forall (λ x, assoc_ok (hi_entries (hash_of im x)) ∧ ∃ max tr l, bt_refines max (tree_of im x) tr l) (im_indexColumns im).
Proof.
  intros Hwf [Hh Ht]. apply Forall_forall. intros x Hx. assert (x.1 ∈ (im_indexColumns im).*1) as Hin by (by apply list_elem_of_fmap_2).
  rewrite Forall_forall in Hh. rewrite Forall_forall in Ht. split; unfold hash_of, tree_of.
  - destruct (smap_find x.1 (im_indexes im)) as [h|] eqn:E.
    + destruct (Hh _ (smap_find_Some _ _ _ E)) as (l & Hr & _). apply Hr.
    + apply smap_find_None in E. by rewrite (iw_hash _ _ Hwf) in E.
  - destruct (smap_find x.1 (im_orderedIndexes im)) as [b|] eqn:E.
    + destruct (Ht _ (smap_find_Some _ _ _ E)) as (max & tr & l & Hr & _). by exists max, tr, l.
    + apply smap_find_None in E. by rewrite (iw_ordered _ _ Hwf) in E.
Qed.

Lemma blank_filled sch im : im_wf sch im → exprs_of (im_indexExpressions im) (im_indexColumns im) = im_indexExpressions im →
  im_with_indexes (im_blank (im_indexExpressions im) (im_indexColumns im))
    ((λ x, (x.1, HashIndex_clearDirtyPages (hash_of im x))) <$> im_indexColumns im)
    ((λ x, (x.1, bt_clearDirtyPages (tree_of im x))) <$> im_indexColumns im) = clear_index_marks im.
Proof.
  intros Hwf Ee. unfold clear_index_marks, im_with_indexes, im_blank. cbn [im_indexColumns im_indexExpressions]. rewrite Ee.
  pose proof (map_by_keys hi_empty _ _ (iw_hash _ _ Hwf) (iw_nodup _ _ Hwf)) as Eh.
  pose proof (map_by_keys bt_default _ _ (iw_ordered _ _ Hwf) (iw_nodup _ _ Hwf)) as Eb.
  f_equal; [|]; (etransitivity; [|symmetry; eapply (f_equal (fmap _)); eassumption]); by rewrite <- list_fmap_compose.
Qed.

(** The index pages of [t] into a table with the same definitions. *)
Lemma index_pages_loaded t v t1 entries : saveable t v → Forall2 (pages_of (t_indexManager t)) (im_indexColumns (t_indexManager t)) entries →
  t_indexManager t1 = im_blank (im_indexExpressions (t_indexManager t)) (im_indexColumns (t_indexManager t)) →
  on_copy (replaceIndexPages (map stored_index entries)) t1 = Ok (set_indexes (clear_index_marks (t_indexManager t)) t1).
Proof.
  intros Hsv HF Him. destruct (sv_inv _ _ Hsv) as [[Hwf Hr _ _ _] _ _].
  assert ((im_indexes (t_indexManager t1)).*1 = (im_indexColumns (t_indexManager t)).*1 ∧
    (im_orderedIndexes (t_indexManager t1)).*1 = (im_indexColumns (t_indexManager t)).*1) as [Eh Eb].
  { rewrite Him. split; simpl; rewrite <- list_fmap_compose; by apply list_fmap_ext. }
  unfold on_copy. rewrite (pages_replaced (t_indexManager t) (im_indexColumns (t_indexManager t)) _ [] []).
  - unfold with_im, im_of. cbn [st_table]. rewrite Him, (blank_filled (t_schema t)); [done|done|].
    apply exprs_of_all; [apply Hsv|apply Hsv|apply Hwf].
  - unfold im_of. cbn [st_table]. by rewrite Him.
  - unfold im_of. cbn [st_table]. by rewrite Him.
  - unfold im_of. cbn [st_table]. rewrite Eh. apply Hwf.
  - unfold im_of. cbn [st_table]. rewrite Eb. apply Hwf.
  - apply Forall2_fmap_r. eapply Forall2_impl; [exact HF|]. done.
  - by eapply indexes_hold.
Qed.

Lemma constraints_indexed t constraints : Forall (λ c, hasIndex (t_indexManager t) (uc_columns c) (t_schema t) = Ok true) constraints →
  ensure_indexes i2d dadd dsub constraints (mkState t None) = (Ok tt, mkState t None).
Proof.
  induction 1 as [|c constraints Hc _ IH]; [done|]. cbn [ensure_indexes]. unfold mbind, op_bind, on_table, lift, id in *.
  cbn [st_table]. by rewrite Hc.
Qed.

Lemma statistics_loaded t v : saveable t v → replaceColumnHistograms (columnHistograms (t_statistics t)) = t_statistics t.
Proof.
  intros Hsv. destruct (sv_statistics _ _ Hsv) as [Ho Hk]. unfold replaceColumnHistograms, columnHistograms.
  assert (ch_column <$> (t_statistics t).*2 = (t_statistics t).*1) as Ek.
  { clear Ho. induction Hk as [|e l He _ IH]; [done|]. rewrite !fmap_cons, IH. by rewrite He. }
  rewrite smap_fold by (by rewrite Ek). clear Ho Ek.
  induction Hk as [|e l He _ IH]; [done|]. rewrite !fmap_cons, IH. destruct e. simpl in *. by subst.
Qed.

(** The rows, the index pages and the statistics, into a new table with the
    definitions of [t]. *)
Lemma contents_loaded t v t0 w entries n : saveable t v → static t0 = static t → prs_rep (t_rowStore t0) w → t_schema t ≠ [] →
  t_indexManager t0 = im_blank (im_indexExpressions (t_indexManager t)) (im_indexColumns (t_indexManager t)) →
  Forall2 (pages_of (t_indexManager t)) (im_indexColumns (t_indexManager t)) entries → Forall index_store_ok entries →
  ∃ t', reads_back (loadRows i2d dadd dsub dchars kVersion n t0) t'
    (writePageStore (exportPages (t_rowStore t)) ++ (appendNat (length entries) ++ concat (map (written writeIndexStore) entries))
     ++ (string_bytes kHistogramMagic ++ appendNat (length (columnHistograms (t_statistics t)))
      ++ concat (map (written writeHistogram) (columnHistograms (t_statistics t))))) ∧
    restored t v t' ∧ on_copy (ensureConstraintIndexes i2d dadd dsub) t' = Ok t'.
Proof.
  intros Hsv Hst Hrep Hne Him HF Hie. pose proof (sv_inv _ _ Hsv) as Hinv.
  assert (t_schema t0 = t_schema t ∧ t_checkConstraints t0 = t_checkConstraints t ∧ t_uniqueConstraints t0 = t_uniqueConstraints t)
    as (Esch & Eck & Eun) by (unfold static in Hst; split_and!; congruence).
  destruct (pages_loaded (t_rowStore t) t0 v w) as (store & vs & Ep & Hstore & Hvs); [apply Hsv|done|by eapply good_rows_nonempty| |].
  { intros i row Hi. destruct (tc_rows _ _ _ _ _ _ _ (hi_core _ _ _ _ _ _ _ Hinv) i row Hi) as [Hv _].
    unfold validateRow, enforceCheckConstraints, columnIndex in *. by rewrite Esch, Eck. }
  set (t2 := with_parts t0 store (t_indexManager t0) vs) in *.
  set (t' := set_statistics (t_statistics t) (set_indexes (clear_index_marks (t_indexManager t)) t2)).
  destruct (tf_histograms _ (sv_fits _ _ Hsv)) as [Hhl Hh]. pose proof (proj1 (tf_definitions _ (sv_fits _ _ Hsv))) as Hil.
  rewrite (Forall2_length _ _ _ HF) in Hil.
  exists t'. split; [|split].
  - intros rest. unfold loadRows. change (Z.eqb kVersion 1) with false. change (Z.eqb kVersion 2) with false. change (Z.leb 4 kVersion) with true.
    cbv iota. cbn [negb]. unfold loadPagePayloadRows. rewrite <- !app_assoc, back_page_store by apply (sv_fits _ _ Hsv).
    cbn [mbind result_bind]. rewrite Ep. cbn [mbind result_bind]. unfold loadIndexPages.
    rewrite (app_assoc (appendNat (length entries))), (proj2 (back_indexes _ Hil Hie)). cbn [mbind result_bind].
    rewrite (index_pages_loaded t v) by done. cbn [mbind result_bind]. unfold tryLoadColumnHistograms.
    rewrite take_app_length', drop_app_length' by done. rewrite bool_decide_eq_true_2 by done.
    rewrite (app_assoc (appendNat _)), (proj2 (back_histograms (columnHistograms (t_statistics t)) ltac:(by unfold columnHistograms; rewrite length_fmap) Hh)).
    cbn [mbind result_bind]. unfold Table_replaceColumnHistograms, on_copy, set_table. cbn [st_table]. by rewrite (statistics_loaded t v).
  - destruct (clear_marks_reflect i2d dadd dsub (t_schema t) (t_indexManager t) v) as [Hr Hd]; [apply Hinv|].
    split; try done. apply (hinv_static i2d dadd dsub dchars t); [done|]. by eapply hinv_indexes.
  - unfold on_copy, ensureConstraintIndexes, mbind, op_bind, on_table, id. cbn [st_table]. rewrite constraints_indexed; [done|].
    pose proof (sv_indexed _ _ Hsv) as Hix. unfold allUniqueConstraints in *. subst t' t2. cbn. by rewrite Esch, Eun.
Qed.

(** ** The file *)

Lemma Table_new_parts store name sch checks fks uniques sch' :
  t_schema <$> Table_new (Select := Select) store name sch checks fks uniques = Ok sch' →
  Table_new store name sch checks fks uniques = Ok (mkTable name sch' checks fks uniques (store : PageRowStore) im_empty ∅ []) ∧ sch ≠ [].
Proof.
  unfold Table_new. intros E. destruct (throw_if (String.eqb name _) _) as [[]|]; [|done]. cbn [mbind result_bind] in *.
  destruct (bool_decide (length sch = 0)) eqn:El; [done|]. apply bool_decide_eq_false in El. cbn [throw_if mbind result_bind] in *.
  destruct (check_columns sch false) as [saw|]; [|done]. cbn [mbind result_bind] in *.
  destruct (check_uniques uniques sch saw) as [sch1|]; [|done]. cbn [mbind result_bind] in *.
  destruct (assert_checks checks) as [[]|]; [|done]. cbn [mbind result_bind] in *.
  unfold fmap, result_fmap in E. injection E as <-. split; [done|]. by intros ->.
Qed.

(** The counted sequences of a table definition. *)
Lemma back_list {A} (wf : A → Prop) enc (d : reader A) l : (∀ a, wf a → reads_back d a (enc a)) →
  (∀ a, 0 < length (enc a)) → size_ok (length l) ∧ Forall wf l → reads_back (readCounted kReadError d) l (writeCounted enc l).
Proof. intros Hd Hpos [Hl Hw]. by apply (back_counted wf). Qed.

Lemma first_pos {A} (f g : A → bytes) : (∀ a, 0 < length (f a)) → ∀ a, 0 < length (f a ++ g a).
Proof. intros Hf a. rewrite length_app. specialize (Hf a). lia. Qed.

Lemma table_loaded t v db w : saveable t v → prs_rep newStore w → StronglySorted name_lt ((db_tables db).*1 ++ [t_name t]) →
  ∃ t', reads_back (readTable i2d dadd dsub dchars stod newStore kVersion db) (set_tables (λ m, m ++ [(t_name t, t')]) db)
          (written (writeTable dchars) t) ∧ restored t v t'.
Proof.
  intros Hsv Hnew Hsort. pose proof (names_sorted_last _ _ _ Hsort) as Hlt. pose proof (sv_inv _ _ Hsv) as Hinv. pose proof (sv_fits _ _ Hsv) as Hfit.
  destruct (Table_new_parts _ _ _ _ _ _ _ (sv_new _ _ Hsv)) as [Enew Hne].
  destruct (table_written t v Hsv) as (definitions & entries & Ew & Hdefs & Hpages & Hie & _). unfold written. rewrite Ew.
  set (exprs := im_indexExpressions (t_indexManager t)) in *. set (P := im_indexColumns (t_indexManager t)) in *.
  set (t0 := mkTable (t_name t) (t_schema t) (t_checkConstraints t) (t_foreignKeys t) (t_uniqueConstraints t) newStore im_empty ∅ []) in *.
  set (t1 := set_indexes (im_blank exprs P) t0).
  destruct (contents_loaded t v t1 w entries (length (t_schema t)) Hsv) as (t' & Hload & Hres & Hens); [done..|].
  pose proof (back_list _ writeColumn (readColumn kVersion) (t_schema t) back_column
    (first_pos _ _ (λ c, appendString_pos (col_name c))) (tf_columns _ Hfit)) as Bc.
  pose proof (back_list _ writeForeignKey (readForeignKey kVersion) (t_foreignKeys t) back_foreign_key
    (first_pos _ _ (λ c, appendNat_pos _)) (tf_foreignKeys _ Hfit)) as Bf.
  pose proof (back_list _ writeUnique readUnique (t_uniqueConstraints t) back_unique
    (first_pos (λ c, appendFlag (uc_primaryKey c)) _ (λ c, le_n 1)) (tf_uniques _ Hfit)) as Bu.
  pose proof (proj2 (back_checks _ (sv_checks _ _ Hsv) (proj1 (tf_checks _ Hfit)) (proj2 (tf_checks _ Hfit)))) as Bk.
  assert (reads_back (readCounted kReadError readNames) definitions (writeCounted appendNames definitions)) as Bd.
  { apply (back_list (λ e, name_ok e.1 ∧ name_ok e.2)); [intros e []; by apply back_names|apply (first_pos _ _ (λ e, appendString_pos e.1))|].
    destruct (tf_definitions _ Hfit) as [Hl Hd]. split; [by rewrite <- (Forall2_length _ _ _ Hdefs)|].
    apply Forall_forall. intros e [k Hk]%list_elem_of_lookup. destruct (Forall2_lookup_r _ _ _ _ _ Hdefs Hk) as (x & Hx & He).
    apply (Hd x); [by eapply list_elem_of_lookup_2|done]. }
  assert (smap_find (t_name t) (db_tables db) = None) as Hfresh.
  { apply smap_find_None. intros Hin. rewrite Forall_forall in Hlt. by apply (name_lt_irrefl (t_name t)), Hlt. }
  assert (NoDup (db_tables db ++ [(t_name t, t0)]).*1) as Hnd.
  { rewrite fmap_app. by apply sorted_NoDup. }
  exists t'. split; [|done]. intros rest. unfold readTable, table_bytes. rewrite <- !app_assoc, back_string by apply Hfit.
  cbn [mbind result_bind]. rewrite Bc. cbn [mbind result_bind]. rewrite (back_since 6 _ _ _ eq_refl Bk). cbn [mbind result_bind].
  rewrite (back_since 7 _ _ _ eq_refl Bf). cbn [mbind result_bind]. rewrite (back_since 8 _ _ _ eq_refl Bu). cbn [mbind result_bind].
  unfold createTable. rewrite Enew. fold t0.
  unfold smap_contains. rewrite Hfresh. cbn [negb throw_if mbind result_bind]. unfold set_tables at 1 3. cbn [db_tables].
  rewrite smap_emplace_last by done. unfold Database_table. cbn [db_tables].
  rewrite (smap_find_NoDup (t_name t) t0) by (done || set_solver). rewrite Bd. cbn [mbind result_bind].
  rewrite (restore_all (t_schema t) exprs definitions P [] t0) by (done || apply Hinv || apply Hsv || apply example_im_wf).
  cbn [mbind result_bind]. fold P. change (set_indexes (im_blank exprs ([] ++ P)) t0) with t1. rewrite !app_assoc in *. rewrite Hload.
  cbn [mbind result_bind]. rewrite Hens. cbn [mbind result_bind]. unfold set_tables. cbn [db_tables db_name].
  by rewrite smap_set_middle.
Qed.

(** The database [db'] that is loaded after [db] was saved. *)
Definition reloaded (db : Database) (rows : list VectorRowStore) (db' : Database) : Prop :=
  db_name db' = db_name db ∧ Forall3 (λ e v e', e'.1 = e.1 ∧ restored e.2 v e'.2) (db_tables db) rows (db_tables db').

(** A database whose tables can be saved. *)
Record saveable_database (db : Database) (rows : list VectorRowStore) : Prop := {
  sd_name : db_name db ≠ EmptyString ∧ name_ok (db_name db);
  sd_order : size_ok (length (db_tables db)) ∧ map_ordered (db_tables db);
  sd_tables : Forall2 (λ e v, e.1 = t_name e.2 ∧ saveable e.2 v) (db_tables db) rows
}.

Lemma snapshot_loads (db : Database) rows w : prs_rep newStore w → saveable_database db rows →
  ∃ bs db', writeTcrdbSnapshot dchars db = Ok bs ∧
    reads_back (readTcrdbSnapshot i2d dadd dsub dchars stod newStore) db' bs ∧ reloaded db rows db'.
Proof.
  intros Hnew [[Hname Hnf] [Hl Hs] HF].
  destruct (readFold_back (readTable i2d dadd dsub dchars stod newStore kVersion) (written (writeTable dchars) ∘ snd)
    (λ seen st, db_name st = db_name db ∧
       Forall3 (λ e v e', e'.1 = e.1 ∧ restored e.2 v e'.2) seen (take (length seen) rows) (db_tables st))
    (db_tables db) (mkDatabase (db_name db) [])) as (db' & Hb & En & Hres).
  - split; [done|constructor].
  - intros seen [k t] st Hpre [En H3]. destruct Hpre as [todo Hpre]. rewrite Hpre in HF, Hs.
    destruct (Forall2_lookup_l _ _ _ (length seen) (k, t) HF) as (v & Hv & Ek & Hsv).
    { rewrite <- app_assoc. by apply list_lookup_middle. }
    cbn [fst snd] in *. subst k.
    assert ((db_tables st).*1 = seen.*1) as Ekeys by (clear -H3; induction H3 as [|e v e' l1 l2 l3 [E _] _ IH]; [done|]; by rewrite !fmap_cons, IH, E).
    destruct (table_loaded t v st w Hsv Hnew) as (t' & Hb & Ht).
    { rewrite Ekeys. unfold map_ordered in Hs. rewrite fmap_app in Hs. apply StronglySorted_app_1_l in Hs. by rewrite fmap_app in Hs. }
    eexists. split; [exact Hb|]. split; [exact En|]. unfold set_tables. cbn [db_tables]. rewrite length_app, Nat.add_1_r, (take_S_r _ _ v) by done.
    apply Forall3_app; [exact H3|]. constructor; [by split|constructor].
  - intros [k t] [i Hi]%list_elem_of_lookup. destruct (Forall2_lookup_l _ _ _ _ _ HF Hi) as (v & _ & _ & Hsv).
    destruct (table_written t v Hsv) as (ds & es & E & _). unfold compose, written. cbn [snd] in *. rewrite E.
    apply (first_pos (λ _, appendString (t_name t)) (λ _, _) (λ _, appendString_pos _) t).
  - done.
  - eexists _, db'. split; [|split; [|split; [exact En|]]].
    + unfold writeTcrdbSnapshot. rewrite (writes_mapM (writeTable dchars)); [reflexivity|]. unfold Database_tables.
      apply Forall_fmap, Forall_forall. intros [k t] [i Hi]%list_elem_of_lookup.
      destruct (Forall2_lookup_l _ _ _ _ _ HF Hi) as (v & _ & _ & Hsv). destruct (table_written t v Hsv) as (ds & es & E & _).
      unfold writes, written, compose. cbn [snd] in *. by rewrite E.
    + intros rest. unfold readTcrdbSnapshot. rewrite <- !app_assoc, (readBytes_app _ (string_bytes kMagic)). cbn [mbind result_bind].
      rewrite bool_decide_eq_true_2 by done. cbn [negb throw_if mbind result_bind].
      rewrite (back_codec _ writePod_u32 _ kVersion) by done. cbn [mbind result_bind].
      change (throw_if _ _) with (Ok tt). cbn [mbind result_bind]. rewrite back_string by done. cbn [mbind result_bind].
      unfold Database_new. rewrite (proj2 (String.eqb_neq _ _) Hname). cbn [throw_if mbind result_bind].
      unfold Database_tables. rewrite length_map, length_fmap, app_assoc. rewrite <- Hb. do 4 f_equal. apply map_map.
    + by rewrite (Forall2_length _ _ _ HF), firstn_all in Hres.
Qed.

(** C5: a saved database is loaded again.  Writing a database whose tables can be
    saved succeeds, and reading the file, whatever follows it, gives a database with the
    same name and the same tables in the same order: each with the same schema,
    constraints, statistics and index definitions, the same rows under the same row ids
    with the same free list, the same index contents with nothing marked as changed,
    and one version of every row.  The constraints hold and the indexes are exact, so
    the loaded tables go on as the saved ones would. *)
Theorem snapshot_roundtrip (db : Database) rows w : prs_rep newStore w → saveable_database db rows →
  ∃ bs db', writeTcrdbSnapshot dchars db = Ok bs ∧
    reads_back (readTcrdbSnapshot i2d dadd dsub dchars stod newStore) db' bs ∧ reloaded db rows db'.
Proof. apply snapshot_loads. Qed.
End snapshot.

(** ** Crashes *)

(** What a crash or a loss of power leaves of [d]: the directory as it is or as it was
    before a change that was not synced, and the synced files. *)
Definition crashed (d d' : Disk) : Prop :=
  dk_dir d' ∈ dk_dir d :: dk_pending d ∧ ∀ i f, dk_files d !! i = Some f → fl_synced f = true → dk_files d' !! i = Some f.

(** A disk on which nothing is pending; only [temp] may be a file that is not synced. *)
Record settled (temp : string) (d : Disk) : Prop := {
  se_synced name i : name ≠ temp → smap_find name (dk_dir d) = Some i → ∃ f, dk_files d !! i = Some f ∧ fl_synced f = true;
  se_temp name i : name ≠ temp → smap_find name (dk_dir d) = Some i → smap_find temp (dk_dir d) ≠ Some i;
  se_names : NoDup (dk_dir d).*1;
  se_pending : dk_pending d = []
}.

Abbreviation traced := (M (Disk * list Disk)).

(** Every disk [m] passes through is in [Q]. *)
Definition passes (Q : Disk → Prop) {A} (m : traced A) (P : Disk → Prop) (R : result A → Disk → Prop) : Prop :=
  ∀ d h, P d → Forall Q (d :: h) → ∃ r d' h', m (d, h) = (r, (d', h')) ∧ Forall Q (d' :: h') ∧ R r d'.

Lemma passes_bind Q {A B} (m : traced A) (f : A → traced B) P R T :
  passes Q m P R → (∀ a, passes Q (f a) (R (Ok a)) T) → (∀ e d, R (Throw e) d → T (Throw e) d) →
  passes Q (@mbind _ M_bind _ _ f m) P T.
Proof.
  intros Hm Hf He d h Hd Hh. destruct (Hm d h Hd Hh) as ([a|e] & d' & h' & E & Hh' & Hr).
  - destruct (Hf a d' h' Hr Hh') as (r & d2 & h2 & E2 & Hres). exists r, d2, h2. unfold mbind, M_bind. by rewrite E.
  - exists (Throw e), d', h'. unfold mbind, M_bind. rewrite E. split_and!; [done..|by apply He].
Qed.
Lemma passes_step Q (f : Disk → Disk) (P P' : Disk → Prop) R : (∀ d, P d → Q (f d) ∧ P' (f d)) → (∀ d, P' d → R (Ok tt) d) →
  passes Q (step f) P R.
Proof. intros Hf Hr d h Hd Hh. destruct (Hf d Hd). exists (Ok tt), (f d), (d :: h). split_and!; [done|by constructor|by apply Hr]. Qed.
Lemma passes_raise Q {A} (e : exn) (P : Disk → Prop) (R : result A → Disk → Prop) : (∀ d, P d → R (Throw e) d) → passes Q (raise e) P R.
Proof. intros Hr d h Hd Hh. exists (Throw e), d, h. split_and!; [done..|by apply Hr]. Qed.
Lemma passes_ret Q {A} (a : A) (P : Disk → Prop) (R : result A → Disk → Prop) : (∀ d, P d → R (Ok a) d) → passes Q (mret a) P R.
Proof. intros Hr d h Hd Hh. exists (Ok a), d, h. split_and!; [done..|by apply Hr]. Qed.
Lemma passes_step_raise Q {A} (f : Disk → Disk) (e : exn) (P : Disk → Prop) (R : result A → Disk → Prop) : (∀ d, P d → Q (f d)) →
  (∀ d, R (Throw e) d) → passes Q (_ ← step f; raise e) P R.
Proof. intros Hf Hr d h Hd Hh. exists (Throw e), (f d), (d :: h). split_and!; [done|constructor; [by apply Hf|done]|apply Hr]. Qed.
Lemma passes_mono Q {A} (m : traced A) (P P' : Disk → Prop) R : (∀ d, P' d → P d) → passes Q m P R → passes Q m P' R.
Proof. intros HP Hm d h Hd. by apply Hm, HP. Qed.

Section publish.
Context (base : Disk) (target temp : string) (Hne : target ≠ temp) (Hbase : settled temp base).

(** The names other than the temporary one are as they were. *)
Definition same_names (dir : list (string * nat)) : Prop := ∀ name, name ≠ temp → smap_find name dir = smap_find name (dk_dir base).
Definition free_file (j : nat) : Prop := ∀ name, name ≠ temp → smap_find name (dk_dir base) ≠ Some j.

(** The temporary file is the file [j] with the contents [x]. *)
Record writing (j : nat) (x : File) (d : Disk) : Prop := {
  wr_free : free_file j;
  wr_others i : i ≠ j → dk_files d !! i = dk_files base !! i;
  wr_file : dk_files d !! j = Some x;
  wr_temp : smap_find temp (dk_dir d) = Some j;
  wr_nodup : NoDup (dk_dir d).*1;
  wr_dirs : Forall same_names (dk_dir d :: dk_pending d)
}.

(** [target] is the file [j], which holds [bs]. *)
Definition names_new (j : nat) (dir : list (string * nat)) : Prop :=
  smap_find target dir = Some j ∧ ∀ name, name ≠ temp → name ≠ target → smap_find name dir = smap_find name (dk_dir base).
Record published (j : nat) (bs : bytes) (old : bool) (d : Disk) : Prop := {
  pu_free : free_file j;
  pu_others i : i ≠ j → dk_files d !! i = dk_files base !! i;
  pu_file : dk_files d !! j = Some (mkFile bs true);
  pu_dirs : Forall (λ dir, names_new j dir ∨ old = true ∧ same_names dir) (dk_dir d :: dk_pending d)
}.

(** What a crash leaves: the other files, and the old or the new target. *)
Definition keeps_files (new : bytes → Prop) (d : Disk) : Prop := ∀ dl, crashed d dl →
  (∀ name, name ≠ temp → name ≠ target → file_at name dl = file_at name base) ∧
  (file_at target dl = file_at target base ∨ ∃ bs, new bs ∧ file_at target dl = Some (mkFile bs true)).

Lemma same_names_crash (d dl : Disk) j name : free_file j → (∀ i, i ≠ j → dk_files d !! i = dk_files base !! i) → crashed d dl →
  name ≠ temp → smap_find name (dk_dir dl) = smap_find name (dk_dir base) → file_at name dl = file_at name base.
Proof.
  intros Hfree Hf [_ Hc] Hn E. unfold file_at. rewrite E. destruct (smap_find name (dk_dir base)) as [i|] eqn:Ei; [|done].
  destruct (se_synced _ _ Hbase name i Hn Ei) as (f & Ef & Hs). cbn [mbind option_bind]. rewrite Ef. apply Hc; [|done].
  rewrite Hf; [done|]. intros ->. by apply (Hfree name Hn).
Qed.

Lemma published_keeps j bs (new : bytes → Prop) old d : published j bs old d → new bs → keeps_files new d.
Proof.
  intros [Hfree Ho Hj Hd] Hnew dl Hc. pose proof Hc as [Hdir Hfiles]. rewrite Forall_forall in Hd.
  destruct (Hd _ Hdir) as [[Ht Hothers]|[_ Hs]].
  - split; [intros name Hn1 Hn2; eapply same_names_crash; eauto|]. right. exists bs. split; [done|].
    unfold file_at. rewrite Ht. cbn [mbind option_bind]. by apply Hfiles.
  - split; [intros name Hn1 Hn2|left]; eapply same_names_crash; eauto.
Qed.

Lemma writing_keeps j x new d : writing j x d → keeps_files new d.
Proof.
  intros [Hfree Ho Hj _ _ Hd] dl Hc. pose proof Hc as [Hdir Hfiles]. rewrite Forall_forall in Hd. specialize (Hd _ Hdir).
  split; [intros name Hn1 Hn2|left]; eapply same_names_crash; eauto.
Qed.

Lemma base_keeps new : keeps_files new (create_directories base) ∧ keeps_files new base.
Proof.
  pose proof (se_pending _ _ Hbase) as Hp.
  assert (∀ d : Disk, dk_files d = dk_files base → dk_dir d = dk_dir base → dk_pending d = [] → keeps_files new d) as H.
  { intros d Hf Hd Hpd dl Hc. pose proof Hc as [Hdir _]. rewrite Hd, Hpd in Hdir. apply list_elem_of_singleton in Hdir.
    set (j := fresh (dom (dk_files base))).
    assert (free_file j) as Hfree.
    { intros name Hn E. destruct (se_synced _ _ Hbase name j Hn E) as (f & Ef & _). apply (is_fresh (dom (dk_files base))).
      apply elem_of_dom. by exists f. }
    split; [intros name Hn1 Hn2|left]; (eapply same_names_crash; [exact Hfree|by intros; rewrite Hf|exact Hc|done|by rewrite Hdir]). }
  split; by apply H.
Qed.
Lemma smap_erase_find {V} n (m : list (string * V)) : NoDup m.*1 → smap_find n (smap_erase n m) = None.
Proof. intros Hn. apply smap_find_None. intros ([k v] & -> & Hin)%list_elem_of_fmap. by destruct (smap_erase_elem _ _ _ Hn Hin). Qed.

Lemma opened : ∃ j, writing j (mkFile [] false) (open_trunc temp (create_directories base)).
Proof.
  destruct Hbase as [Hs Ht Hn Hp]. unfold open_trunc. cbn [create_directories dk_dir dk_files].
  destruct (smap_find temp (dk_dir base)) as [i|] eqn:Et.
  - exists i. split; cbn; [|intros; by rewrite lookup_insert_ne|by rewrite lookup_insert_eq|done|done|].
    + intros name Hname E. by apply (Ht name i).
    + rewrite Hp. by constructor.
  - set (j := fresh (dom (dk_files base))). exists j. split; cbn; [|intros; by rewrite lookup_insert_ne|by rewrite lookup_insert_eq| | |].
    + intros name Hname E. destruct (Hs name j Hname E) as (f & Ef & _). apply (is_fresh (dom (dk_files base))).
      apply elem_of_dom. by exists f.
    + rewrite smap_find_emplace by done. by rewrite String.eqb_refl.
    + rewrite smap_emplace_perm by done. apply NoDup_cons. split; [by apply smap_find_None|done].
    + rewrite Hp. constructor; [|by constructor]. intros name Hname. rewrite smap_find_emplace by done.
      by rewrite (proj2 (String.eqb_neq temp name)) by congruence.
Qed.

Lemma file_set j x f d : writing j x d → writing j (f x) (set_file temp f d).
Proof.
  intros [Hfree Ho Hj Ht Hn Hd]. unfold set_file, file_at. rewrite Ht. cbn [mbind option_bind]. rewrite Hj.
  split; cbn; [done|intros i Hi; rewrite lookup_insert_ne; auto|by rewrite lookup_insert_eq|done|done|done].
Qed.

Lemma renamed j bs d : writing j (mkFile bs true) d →
  published j bs true (rename_file temp target d) ∧ names_new j (dk_dir (rename_file temp target d)).
Proof.
  intros [Hfree Ho Hj Ht Hn Hd]. unfold rename_file. rewrite Ht.
  assert (names_new j (smap_emplace target j (smap_erase target (smap_erase temp (dk_dir d))))) as Hnew.
  { pose proof (smap_erase_find target _ (smap_erase_NoDup temp _ Hn)) as Hf. apply Forall_cons in Hd as [Hd _].
    split; [rewrite smap_find_emplace by done; by rewrite String.eqb_refl|]. intros name Hn1 Hn2.
    rewrite smap_find_emplace by done. rewrite (proj2 (String.eqb_neq target name)) by congruence.
    rewrite !smap_find_erase_ne by done. by apply Hd. }
  split; [|done]. split; [done|done|done|]. constructor; [by left|].
  eapply Forall_impl; [exact Hd|]. intros dir Hdir. by right.
Qed.

Lemma directory_synced j bs d : published j bs true d → names_new j (dk_dir d) →
  published j bs false (sync_directory d).
Proof. intros [Hfree Ho Hj _] Hnew. split; [done..|]. cbn. constructor; [by left|constructor]. Qed.

Lemma published_at j bs d dl : published j bs false d → crashed d dl → file_at target dl = Some (mkFile bs true).
Proof.
  intros [_ _ Hj Hd] [Hdir Hfiles]. rewrite Forall_forall in Hd. destruct (Hd _ Hdir) as [[Ht _]|[? _]]; [|done].
  unfold file_at. rewrite Ht. cbn [mbind option_bind]. by apply Hfiles.
Qed.
End publish.

(** ** Saving *)

Section save.
Context (i2d : Z → Z) (dadd dsub : Z → Z → Z) (dchars : Z → chars) (stod : chars → option Z).
Context (newStore : PageRowStore) (partial : Database Select PageRowStore → bytes).
Abbreviation Database := (Database Select PageRowStore).
Abbreviation saved := (saveDatabase dchars partial).
Abbreviation loaded := (loadDatabase i2d dadd dsub dchars stod newStore).

Lemma path_injective name name' : tcrdbPathFor name = tcrdbPathFor name' → name = name'.
Proof.
  unfold tcrdbPathFor. intros E%(f_equal explode). rewrite !explode_app in E. apply app_inv_tail in E.
  by rewrite <- (implode_explode name), E, implode_explode.
Qed.
Lemma path_not_temporary name name' : tcrdbPathFor name ≠ tcrdbTemporaryPathFor name'.
Proof.
  unfold tcrdbPathFor, tcrdbTemporaryPathFor. intros E%(f_equal (λ s, last (explode s))). by rewrite !explode_app, !last_app in E.
Qed.

(** Why saving may throw although the first renaming works. *)
Definition save_fails (fault : faults) (db : Database) : Prop :=
  fault ≠ no_faults ∨ ∃ e, writeTcrdbSnapshot dchars db = Throw e.

Lemma save_passes fault db base : fa_rename fault = false → settled (tcrdbTemporaryPathFor (db_name db)) base →
  passes (keeps_files base (tcrdbPathFor (db_name db)) (tcrdbTemporaryPathFor (db_name db)) (λ bs, writeTcrdbSnapshot dchars db = Ok bs))
    (saved fault db) (λ d, d = base)
    (λ r d, match r with
            | Ok _ => ∃ bs, writeTcrdbSnapshot dchars db = Ok bs ∧
                ∀ dl, crashed d dl → file_at (tcrdbPathFor (db_name db)) dl = Some (mkFile bs true)
            | Throw _ => save_fails fault db
            end).
Proof.
  intros Hren Hbase. set (temp := tcrdbTemporaryPathFor (db_name db)) in *. set (target := tcrdbPathFor (db_name db)).
  set (new := λ bs, writeTcrdbSnapshot dchars db = Ok bs). pose proof (path_not_temporary (db_name db) (db_name db)) as Hne. fold target temp in Hne.
  unfold saveDatabase. fold target temp.
  eapply (passes_bind _ _ _ _ (λ r d, r = Ok tt ∧ d = create_directories base)).
  { eapply (passes_step _ _ _ (λ d, d = create_directories base)); [|done]. intros d ->. split; [|done].
    exact (proj1 (base_keeps base target temp Hne Hbase new)). }
  2:{ by intros e d []. }
  intros [].
  eapply (passes_bind _ _ _ _ (λ r d, match r with Ok _ => ∃ j, writing base temp j (mkFile [] false) d | Throw _ => save_fails fault db end)).
  { destruct (fa_open fault) eqn:Eo.
    - apply passes_raise. intros d _. left. intros ->. done.
    - eapply (passes_step _ _ _ (λ d, ∃ j, writing base temp j (mkFile [] false) d)); [|done]. intros d [_ ->].
      destruct (opened base temp Hbase) as [j Hj]. split; [by eapply writing_keeps|by exists j]. }
  2:{ done. }
  intros [].
  eapply (passes_bind _ _ _ _ (λ r d, match r with
    | Ok _ => ∃ bs j, new bs ∧ writing base temp j (mkFile bs false) d | Throw _ => save_fails fault db end)).
  { assert (∀ bs d, (∃ j, writing base temp j (mkFile [] false) d) → ∃ j, writing base temp j (mkFile bs false) (write_file temp bs d)) as Hw.
    { intros bs d [j Hj]. exists j. by apply (file_set base temp j (mkFile [] false) (λ f, mkFile (fl_bytes f ++ bs) false)). }
    assert (∀ bs d, (∃ j, writing base temp j (mkFile [] false) d) → keeps_files base target temp new (write_file temp bs d)) as Hk.
    { intros bs d Hd. destruct (Hw bs d Hd) as [j Hj]. by eapply writing_keeps. }
    unfold write_snapshot. destruct (fa_write fault) as [[torn e]|] eqn:Ewr.
    - apply passes_step_raise; [by apply Hk|]. intros d. left. intros ->. done.
    - destruct (writeTcrdbSnapshot dchars db) as [bs|e] eqn:Es.
      + eapply (passes_step _ _ _ (λ d, ∃ j, writing base temp j (mkFile bs false) d)).
        * intros d Hd. split; [by apply Hk|by apply Hw].
        * intros d [j Hj]. by exists bs, j.
      + apply passes_step_raise; [by apply Hk|]. intros d. right. by exists e. }
  2:{ done. }
  intros [].
  eapply (passes_bind _ _ _ _ (λ r d, match r with
    | Ok _ => ∃ bs j, new bs ∧ writing base temp j (mkFile bs true) d | Throw _ => save_fails fault db end)).
  { unfold durableSyncFile. destruct (fa_sync fault) eqn:Esy.
    - apply passes_raise. intros d _. left. intros ->. done.
    - eapply (passes_step _ _ _ (λ d, ∃ bs j, new bs ∧ writing base temp j (mkFile bs true) d)); [|done].
      intros d (bs & j & Hnew & Hj). assert (writing base temp j (mkFile bs true) (sync_file temp d)) as Hj'
        by (by apply (file_set base temp j (mkFile bs false) (λ f, mkFile (fl_bytes f) true))).
      split; [by eapply writing_keeps|by exists bs, j]. }
  2:{ done. }
  intros []. rewrite Hren.
  set (done_renaming := λ d : Disk, ∃ bs j, new bs ∧ published base target temp j bs true d ∧ names_new base target temp j (dk_dir d)).
  eapply (passes_bind _ _ _ _ (λ r d, r = Ok true ∧ done_renaming d)).
  { eapply (passes_bind _ _ _ _ (λ r d, r = Ok tt ∧ done_renaming d)); [|intros []; apply passes_ret; by intros d [_ Hd]|by intros e d []].
    eapply (passes_step _ _ _ done_renaming); [|done]. intros d (bs & j & Hnew & Hj).
    destruct (renamed base target temp j bs d Hj) as [Hp Hn]. split; [by eapply published_keeps|by exists bs, j]. }
  2:{ by intros e d []. }
  intros [|]; [|by intros d h []].
  eapply (passes_bind _ _ _ _ (λ r d, r = Ok true ∧ done_renaming d)); [apply passes_ret; by intros d [_ Hd]| |by intros e d []].
  intros [|]; [|by intros d h []]. cbn [negb].
  set (synced := λ d : Disk, ∃ bs j, new bs ∧ published base target temp j bs false d).
  eapply (passes_bind _ _ _ _ (λ r d, match r with Ok _ => synced d | Throw _ => save_fails fault db end)).
  { unfold durableSyncDirectory. destruct (fa_syncDirectory fault) eqn:Esd.
    - apply passes_raise. intros d _. left. intros ->. done.
    - eapply (passes_step _ _ _ synced); [|done]. intros d [_ (bs & j & Hnew & Hp & Hn)].
      pose proof (directory_synced base target temp j bs d Hp Hn) as Hs. split; [by eapply published_keeps|by exists bs, j]. }
  2:{ done. }
  intros []. eapply (passes_step _ _ _ synced).
  - intros d (bs & j & Hnew & [Hfree Ho Hj Hd]). assert (published base target temp j bs false (count_publish d)) as Hp by (by split).
    split; [by eapply published_keeps|by exists bs, j].
  - intros d (bs & j & Hnew & Hp). exists bs. split; [done|]. intros dl Hc. by eapply published_at.
Qed.

(** C6: saving is crash-safe.  The disk has no unsynced snapshot, the database can
    be saved, and the temporary file can be renamed; every other call of the system may
    fail.  Whenever saving is interrupted, by an exception or by a crash after any call,
    with or without the changes that were not synced, the other databases load as
    before, and the saved one loads as before or as it is now.  When saving returns it
    loads as it is now, also after a crash, and saving returns when no call fails. *)
Theorem save_crash_safe fault db rows base w : fa_rename fault = false → settled (tcrdbTemporaryPathFor (db_name db)) base →
  saveable_database i2d dadd dsub dchars stod newStore db rows → prs_rep newStore w →
  ∃ r d history, saved fault db (base, []) = (r, (d, history)) ∧ (fault = no_faults → r = Ok tt) ∧
    (∀ dc dl, dc ∈ d :: history → crashed dc dl →
      (∀ name, name ≠ db_name db → loaded name dl = loaded name base) ∧
      (loaded (db_name db) dl = loaded (db_name db) base ∨ ∃ db', loaded (db_name db) dl = Ok db' ∧ reloaded i2d dadd dsub dchars db rows db')) ∧
    (r = Ok tt → ∀ dl, crashed d dl → ∃ db', loaded (db_name db) dl = Ok db' ∧ reloaded i2d dadd dsub dchars db rows db').
Proof.
  intros Hren Hbase Hsv Hnew. destruct (snapshot_loads i2d dadd dsub dchars stod newStore db rows w Hnew Hsv) as (bs & db' & Ew & Hb & Hre).
  set (target := tcrdbPathFor (db_name db)) in *. set (temp := tcrdbTemporaryPathFor (db_name db)) in *.
  destruct (save_passes fault db base Hren Hbase base [] eq_refl) as (r & d & history & E & HQ & HR).
  { constructor; [|constructor]. by apply base_keeps; [apply path_not_temporary|]. }
  assert (∀ bs', writeTcrdbSnapshot dchars db = Ok bs' → ∀ dl, file_at target dl = Some (mkFile bs' true) →
    ∃ db', loaded (db_name db) dl = Ok db' ∧ reloaded i2d dadd dsub dchars db rows db') as Hload.
  { intros bs' Ew' dl Hf. assert (bs' = bs) as -> by congruence. exists db'. split; [|done]. unfold loadDatabase. fold target. rewrite Hf.
    cbn [fl_bytes]. rewrite <- (app_nil_r bs), Hb. done. }
  exists r, d, history. split; [exact E|]. split_and!.
  - intros ->. destruct r as [[]|e]; [done|]. destruct HR as [?|[e' He']]; [done|congruence].
  - intros dc dl Hdc Hc. rewrite Forall_forall in HQ. destruct (HQ dc Hdc dl Hc) as [Hothers Htarget]. split.
    + intros name Hname. unfold loadDatabase. rewrite Hothers; [done|apply path_not_temporary|]. intros Ep. by apply Hname, path_injective.
    + destruct Htarget as [Ht|(bs' & Ew' & Ht)]; [left|right; by eapply Hload]. unfold loadDatabase. by rewrite Ht.
  - intros -> dl Hc. destruct HR as (bs' & Ew' & Hf). eapply Hload; [exact Ew'|by apply Hf].
Qed.

(** When the file cannot be renamed, the code removes the old snapshot and tries again;
    when that fails too, neither the old nor the new snapshot is left. *)
Theorem failed_publish_loses_snapshot db bs base : settled (tcrdbTemporaryPathFor (db_name db)) base →
  writeTcrdbSnapshot dchars db = Ok bs →
  ∃ d history, saved (mkFaults false None false true false true false false) db (base, []) =
    (Throw (runtime_error "failed to publish database snapshot"), (d, history)) ∧
    loaded (db_name db) d = Throw (runtime_error "failed to open database file for reading").
Proof.
  intros Hbase Ew. unfold saveDatabase, write_snapshot. cbn [fa_open fa_write fa_sync fa_rename fa_remove fa_renameAgain]. rewrite Ew.
  eexists _, _. split; [reflexivity|]. unfold loadDatabase.
  set (temp := tcrdbTemporaryPathFor (db_name db)) in *. set (target := tcrdbPathFor (db_name db)).
  assert (∀ name f d, dk_dir (set_file name f d) = dk_dir d) as Hset.
  { intros name f d. unfold set_file. destruct (smap_find name (dk_dir d)); [|done]. by destruct (file_at name d). }
  destruct (opened base temp Hbase) as [j [_ _ _ _ Hn _]].
  unfold file_at, remove_file, change_dir. cbn [dk_dir fst snd]. unfold write_file, sync_file. rewrite !Hset.
  rewrite smap_find_erase_ne by apply path_not_temporary. by rewrite smap_erase_find.
Qed.
End save.

(** ** A database to save *)

Definition shop_store : PageRowStore :=
  match makePageRowStore as r return match r with Ok _ => PageRowStore | Throw _ => unit end with Ok s => s | Throw _ => tt end.
Definition shop_checks : list (Predicate Select) := [ComparisonPred "qty" Greater (VInt 0) None None false].
Definition shop_statistics : TableStatistics := [("qty", mkColumnHistogram "qty" 1 1 [mkHistogramBucket (VInt 7) (VInt 9) 2 2])].
Definition shop_new : Table Select PageRowStore :=
  mkTable "items" items_schema shop_checks [] items_uniques shop_store im_empty ∅ [].
Definition shop_ops : list table_op :=
  [Do_createIndex "__pk_id" ["id"]; Do_createIndex "__uq_qty_id" ["qty"; "id"]; Do_insert [VInt 1; VInt 7] 1;
   Do_insert [VInt 2; VInt 9] 1; Do_insert [VInt 3; VInt 7] 1; Do_createIndex "by_qty" ["qty"]; Do_erase 1 1].
Definition shop_table : Table Select PageRowStore :=
  set_statistics shop_statistics (st_table (run_ops (λ z, z) Z.add Z.sub (λ _, []) shop_ops (mkState shop_new None))).
Definition shop_db : Database Select PageRowStore := mkDatabase "shop" [("items", shop_table)].

Lemma shop_store_rep : prs_rep shop_store vrs_empty.
Proof. apply (PageRowStore_new_rep 256 128 shop_store); [reflexivity|reflexivity]. Qed.

Lemma shop_built : Table_new shop_store "items" items_schema shop_checks [] items_uniques = Ok shop_new.
Proof. reflexivity. Qed.

Lemma shop_table_ok : ∃ v, prs_rep (t_rowStore shop_table) v ∧
  hinv (λ z, z) Z.add Z.sub (λ _, []) shop_table v (t_indexManager shop_table) ∧ static shop_table = static shop_new.
Proof.
  destruct (run_ops_ok (Select := Select) (S := PageRowStore) (λ z, z) Z.add Z.sub (λ _, []) shop_new vrs_empty (mkState shop_new None) shop_ops)
    as [v Hv].
  { apply table_ok_state. eapply Table_new_ok; [exact shop_store_rep|exact shop_built|exact items_names]. }
  { repeat constructor; done. }
  apply ok_state_table in Hv. unfold shop_table. revert Hv.
  generalize (run_ops (λ z, z) Z.add Z.sub (λ _, []) shop_ops (mkState shop_new None)). intros s [[Hrep [Hinv _]] Est].
  exists v. split_and!; [exact Hrep|by apply (hinv_static _ _ _ _ (st_table s))|].
  change (static (set_statistics shop_statistics (st_table s))) with (static (st_table s)). by rewrite Est.
Qed.

Lemma static_parts (t t' : Table Select PageRowStore) : static t = static t' → t_name t = t_name t' ∧ t_schema t = t_schema t' ∧
  t_checkConstraints t = t_checkConstraints t' ∧ t_foreignKeys t = t_foreignKeys t' ∧ t_uniqueConstraints t = t_uniqueConstraints t'.
Proof. unfold static. intros E. by injection E. Qed.

Lemma shop_defs : im_indexColumns (t_indexManager shop_table) = [("__pk_id", [0]); ("__uq_qty_id", [1; 0]); ("by_qty", [1])] ∧
  im_indexExpressions (t_indexManager shop_table) = [].
Proof. split; vm_compute; reflexivity. Qed.

Definition shop_pages : PageStoreSnapshot := Eval vm_compute in exportPages (t_rowStore shop_table).
Lemma shop_pages_eq : exportPages (t_rowStore shop_table) = shop_pages.
Proof. vm_compute. reflexivity. Qed.
Definition shop_entries : result (list IndexStoreSnapshot) := Eval vm_compute in read_off (exportIndexPages (λ _, [])) shop_table.
Lemma shop_entries_eq : read_off (exportIndexPages (λ _, [])) shop_table = shop_entries.
Proof. vm_compute. reflexivity. Qed.

(** Decided by computation, one field at a time. *)
Ltac shop_fits := repeat first [reflexivity | exact I | split | constructor].

Lemma shop_table_fits : table_fits (λ _, []) (λ _, None) shop_table.
Proof.
  destruct shop_table_ok as (v & _ & _ & (En & Es & Ec & Ef & Eu)%static_parts).
  destruct shop_defs as [Ed Ee].
  split; rewrite ?En, ?Es, ?Ec, ?Ef, ?Eu, ?Ed, ?Ee; clear.
  - reflexivity.
  - shop_fits.
  - split; [reflexivity|]. repeat constructor. intros text [= <-]. reflexivity.
  - shop_fits.
  - shop_fits.
  - split; [reflexivity|]. intros x [name text] Hx (E1 & names & encoded & En1 & _ & Ee1 & E2 & _). cbn [fst snd] in *. subst.
    repeat (apply elem_of_cons in Hx as [->|Hx]); [..|by apply elem_of_nil in Hx];
      cbn in En1; injection En1 as <-; cbn in Ee1; injection Ee1 as <-; by split.
  - rewrite shop_pages_eq. shop_fits.
  - rewrite shop_entries_eq. intros entries [= <-]. shop_fits.
  - shop_fits.
Qed.

Lemma shop_indexed : Forall (λ c, hasIndex (t_indexManager shop_table) (uc_columns c) (t_schema shop_table) = Ok true) (allUniqueConstraints shop_table).
Proof. vm_compute. repeat constructor. Qed.

Lemma shop_saveable : ∃ v, saveable (λ z, z) Z.add Z.sub (λ _, []) (λ _, None) shop_store shop_table v.
Proof.
  destruct shop_table_ok as (v & Hrep & Hinv & (En & Es & Ec & Ef & Eu)%static_parts). destruct shop_defs as [Ed Ee].
  exists v. split; [rewrite En, Es, Ec, Ef, Eu; reflexivity|rewrite Ec; clear|exact Hrep|exact Hinv|
    rewrite Ed; clear|rewrite Ee; clear|rewrite Es, Ed, Ee; clear|exact shop_indexed|clear|exact shop_table_fits].
  - repeat constructor; try (by apply (bool_decide_unpack _)); simpl; lia.
  - unfold map_ordered. repeat constructor.
  - constructor.
  - repeat constructor; try done; by eexists.
  - split; [unfold map_ordered|]; repeat constructor.
Qed.

Lemma shop_saveable_database : ∃ rows, saveable_database (λ z, z) Z.add Z.sub (λ _, []) (λ _, None) shop_store shop_db rows.
Proof.
  destruct shop_saveable as [v Hv]. exists [v]. split.
  - by split.
  - split; [reflexivity|]. repeat constructor.
  - constructor; [|constructor]. split; [|exact Hv]. cbn [fst snd]. destruct shop_table_ok as (_ & _ & _ & (-> & _)%static_parts). reflexivity.
Qed.

Lemma snapshot_roundtrip_witness : ∃ rows bs db', writeTcrdbSnapshot (λ _, []) shop_db = Ok bs ∧
  reads_back (readTcrdbSnapshot (λ z, z) Z.add Z.sub (λ _, []) (λ _, None) shop_store) db' bs ∧
  reloaded (λ z, z) Z.add Z.sub (λ _, []) shop_db rows db'.
Proof.
  destruct shop_saveable_database as [rows Hrows]. exists rows.
  exact (snapshot_roundtrip (λ z, z) Z.add Z.sub (λ _, []) (λ _, None) shop_store shop_db rows vrs_empty shop_store_rep Hrows).
Defined.

(** A disk with an older file of the database and a file of another one. *)
Definition shop_disk : Disk :=
  mkDisk true {[0 := mkFile [Byte.x00] true; 1 := mkFile [Byte.x01] true]} [("depot.tcrdb", 0); ("shop.tcrdb", 1)] [] 3.

Lemma shop_settled : settled (tcrdbTemporaryPathFor "shop") shop_disk.
Proof.
  split; [| | |done].
  - intros name i _. cbn [shop_disk dk_dir dk_files smap_find].
    destruct (String.eqb "depot.tcrdb" name); [intros [= <-]; by eexists|]. destruct (String.eqb "shop.tcrdb" name); [intros [= <-]; by eexists|done].
  - intros name i _ _. done.
  - apply (bool_decide_unpack _). reflexivity.
Qed.

Lemma save_crash_safe_witness : ∃ rows d history,
  saveDatabase (λ _, []) (λ _, []) no_faults shop_db (shop_disk, []) = (Ok tt, (d, history)) ∧
  ∃ db', loadDatabase (λ z, z) Z.add Z.sub (λ _, []) (λ _, None) shop_store "shop" d = Ok db' ∧
    reloaded (λ z, z) Z.add Z.sub (λ _, []) shop_db rows db'.
Proof.
  destruct shop_saveable_database as [rows Hrows].
  destruct (save_crash_safe (λ z, z) Z.add Z.sub (λ _, []) (λ _, None) shop_store (λ _, []) no_faults shop_db rows shop_disk vrs_empty
    eq_refl shop_settled Hrows shop_store_rep) as (r & d & history & E & Hr & _ & Hload).
  exists rows, d, history. rewrite (Hr eq_refl) in E. split; [exact E|]. apply (Hload (Hr eq_refl)).
  split; [left|]; done.
Defined.
