(* ===== verification/CatalogReplay.v ===== *)
(** * Catalog statements survive a restart

    A catalog statement outside of a transaction changes the database and logs its
    text.  Replaying the text makes the same change: the statement is parsed back
    ([DdlText]), and what a catalog statement does to a database depends on the
    database only, not on the session, the log or the files ([framed]). *)

From S2P Require Import Prelude Value BinaryIO VectorRowStore PageRowStore WriteAheadLog TransactionManager Mvcc.
From S2P Require Import StringPattern HashIndex BTreeIndex RedoCodec IndexExpression Predicate SetOps IndexManager Histogram.
From S2P Require Import Table TableSchema TablePages Database Session ForeignKeys Ast Tokenizer RecursiveCte Parser Prepared.
From S2P Require Import SqlLiteral StatementText DdlText Recovery CatalogEngine DmlEngine QueryExecutor RecoveryProof CommitOrder.
Local Open Scope nat_scope.

(** ** Table operations that do not look at the transactions *)

Section blind.
Context {Select : Type}.
Abbreviation op := (op Select PageRowStore).
#[local] Existing Instances op_ret op_bind.

Definition blind {A} (m : op A) : Prop := ∀ t o o',
  (m (mkState t o)).1 = (m (mkState t o')).1 ∧ st_table (m (mkState t o)).2 = st_table (m (mkState t o')).2.

Lemma blind_ret {A} (a : A) : blind (mret a).
Proof. by intros t o o'. Qed.
Lemma blind_lift {A} (r : result A) : blind (lift r).
Proof. by intros t o o'. Qed.
Lemma blind_on_table {A} (f : Table Select PageRowStore → A) : blind (on_table f).
Proof. by intros t o o'. Qed.
Lemma blind_set_table f : blind (set_table f).
Proof. by intros t o o'. Qed.
Lemma blind_row_store {A} (f : PageRowStore → result (A * PageRowStore)) : blind (row_store f).
Proof. intros t o o'. unfold row_store. simpl. by destruct (f _) as [[a s]|e]. Qed.
Lemma blind_indexes {A} (f : IndexManager → PageRowStore → result A * IndexManager * PageRowStore) : blind (indexes f).
Proof. intros t o o'. unfold indexes. simpl. by destruct (f _ _) as [[r im] s]. Qed.
Lemma blind_versions {A} (f : MVCCRowStore → A * MVCCRowStore) : blind (versions f).
Proof. intros t o o'. unfold versions. simpl. by destruct (f _) as [a v]. Qed.
Lemma blind_versions_try {A} (f : MVCCRowStore → result (A * MVCCRowStore)) : blind (versions_try f).
Proof. intros t o o'. unfold versions_try. simpl. by destruct (f _) as [[a v]|e]. Qed.
Lemma blind_shift index : blind (shift_index_columns index).
Proof. intros t o o'. unfold shift_index_columns. simpl. by destruct (shift_definitions _ _). Qed.

Lemma blind_bind {A B} (m : op A) (f : A → op B) : blind m → (∀ a, blind (f a)) → blind (m ≫= f).
Proof.
  intros Hm Hf t o o'. destruct (Hm t o o') as [H1 H2]. unfold mbind, op_bind.
  destruct (m (mkState t o)) as [r [t1 o1]], (m (mkState t o')) as [r' [t1' o1']]. simpl in H1, H2. subst.
  destruct r' as [a|e]; [|done]. apply Hf.
Qed.

Ltac blind := repeat first
  [ apply blind_ret | apply blind_lift | apply blind_on_table | apply blind_set_table | apply blind_row_store
  | apply blind_indexes | apply blind_versions | apply blind_versions_try | apply blind_shift | assumption
  | apply blind_bind; [|intros ?] | case_match ].

Context (i2d : Z → Z) (dadd dsub : Z → Z → Z).

Lemma blind_register name idxs e rebuild : blind (Table_registerIndex i2d dadd dsub name idxs e rebuild).
Proof. unfold Table_registerIndex. blind. Qed.

Lemma blind_ensure : blind (ensureConstraintIndexes i2d dadd dsub).
Proof.
  unfold ensureConstraintIndexes. apply blind_bind; [blind|]. intros t. induction (allUniqueConstraints t) as [|c l IH]; simpl; [blind|].
  pose proof blind_register. unfold throw. blind; eauto.
Qed.

Lemma blind_create name columns : blind (createIndex i2d dadd dsub name columns).
Proof. unfold createIndex, create_index. pose proof blind_register. blind; eauto. Qed.
Lemma blind_create_expr name e : blind (createIndex_expr i2d dadd dsub name e).
Proof. unfold createIndex_expr, create_index_expr. pose proof blind_register. blind; eauto. Qed.
Lemma blind_drop_index name : blind (Table_dropIndex name).
Proof. unfold Table_dropIndex. blind. Qed.
Lemma blind_definitions : blind Table_indexDefinitions.
Proof. unfold Table_indexDefinitions. blind. Qed.

Lemma blind_rewrite f failed entries : blind (rewrite_rows f failed entries).
Proof. induction entries as [|[i r] l IH]; simpl; unfold throw_unless; blind. Qed.

Lemma blind_add_column column fill : blind (addColumn column fill).
Proof.
  unfold addColumn, append_column, pad_column. pose proof blind_rewrite. unfold throw_unless. blind; eauto.
Qed.

Lemma blind_drop_indexes l : blind (drop_indexes l).
Proof. induction l as [|d l IH]; simpl; unfold throw_unless; pose proof blind_drop_index; blind; eauto. Qed.
Lemma blind_drop_constraint_indexes l : blind (drop_constraint_indexes l).
Proof. induction l as [|d l IH]; simpl; unfold throw_unless; pose proof blind_drop_index; blind; eauto. Qed.

Lemma blind_drop_column name tables cascade : blind (dropColumn i2d dadd dsub name tables cascade).
Proof.
  unfold dropColumn, drop_dependents, drop_histogram, Table_rebuildIndexes, throw.
  pose proof blind_rewrite. pose proof blind_drop_indexes. pose proof blind_drop_constraint_indexes. blind; eauto.
Qed.

Lemma blind_rename_indexes l : blind (rename_constraint_indexes i2d dadd dsub l).
Proof.
  induction l as [|[index c] l IH]; simpl; unfold throw_unless, throw; pose proof blind_drop_index; pose proof blind_register;
    blind; eauto.
Qed.

Lemma blind_rename_column oldName newName : blind (renameColumn_local i2d dadd dsub oldName newName).
Proof. unfold renameColumn_local, throw. pose proof blind_rename_indexes. blind; eauto. Qed.
End blind.

(** ** Executor operations that depend on the database only *)

Section framed.
Context {F : Type}.
Abbreviation Database := (Database Select PageRowStore).
Abbreviation Executor := (Executor Select F).
Abbreviation exec := (M Executor).
Implicit Types e : Executor.

Definition idle e : Prop := ts_activeTransaction (ex_session e) = None.

Definition agree e e' : Prop := ex_database e = ex_database e' ∧ idle e ∧ idle e'.

Definition framed {A} (m : exec A) : Prop := ∀ e e', agree e e' → (m e).1 = (m e').1 ∧ agree (m e).2 (m e').2.

Lemma idle_inactive e : idle e → transactionActive (ex_session e) = false.
Proof. unfold idle, transactionActive. by intros ->. Qed.

Lemma framed_ret {A} (a : A) : framed (mret a).
Proof. by intros e e' Ha. Qed.
Lemma framed_raise {A} x : framed (A := A) (raise x).
Proof. by intros e e' Ha. Qed.
Lemma framed_lift {A} (r : result A) : framed (liftM r).
Proof. by intros e e' Ha. Qed.
Lemma framed_gets {A} (f : Executor → A) : (∀ e e', agree e e' → f e = f e') → framed (gets f).
Proof. intros Hf e e' Ha. split; [|done]. simpl. by rewrite (Hf e e' Ha). Qed.
Lemma framed_set_database db : framed (modify (set_database db)).
Proof. intros e e' (Hd & Hi & Hi'). by split. Qed.

Lemma framed_bind {A B} (m : exec A) (f : A → exec B) : framed m → (∀ a, framed (f a)) → framed (m ≫= f).
Proof.
  intros Hm Hf e e' Ha. destruct (Hm e e' Ha) as [H1 H2]. unfold mbind, M_bind.
  destruct (m e) as [r e1], (m e') as [r' e1']. simpl in *. subst. destruct r' as [a|x]; [|done]. by apply Hf.
Qed.

Lemma framed_catch {A} p (m : exec A) h : framed m → (∀ x, framed (h x)) → framed (catch_if p m h).
Proof.
  intros Hm Hh e e' Ha. destruct (Hm e e' Ha) as [H1 H2]. unfold catch_if, try_catch.
  destruct (m e) as [r e1], (m e') as [r' e1']. simpl in *. subst. destruct r' as [a|x]; [done|].
  destruct (p x); [by apply Hh|done].
Qed.

Lemma framed_undo r : framed (record_undo r).
Proof.
  intros e e' (Hd & Hi & Hi'). unfold record_undo, modify. simpl. by rewrite !idle_inactive.
Qed.

Lemma framed_log operation payload : framed (appendWal operation payload).
Proof.
  intros e e' (Hd & Hi & Hi').
  assert (∀ e, idle e → ∃ w, appendWal operation payload e = (Ok tt, set_wal w e)) as H.
  { intros e0 H0. unfold appendWal, mbind, M_bind, gets. destruct (ex_replayingWal e0).
    - exists (ex_wal e0). by destruct e0.
    - rewrite (idle_inactive e0 H0). by eexists. }
  destruct (H e Hi) as [w ->], (H e' Hi') as [w' ->]. by split.
Qed.

Lemma framed_database {A} (m : M Database A) : framed (on_database m).
Proof.
  intros e e' (Hd & Hi & Hi'). unfold on_database. rewrite <- Hd. destruct (ex_database e) as [db|] eqn:E.
  2: { split; [done|]. split_and!; [|done..]. simpl. congruence. }
  by destruct (m db) as [r db'].
Qed.

(** Operations on the catalog that do not look at the transactions. *)
Definition blind_catalog {A} (m : M (catalog Select PageRowStore) A) : Prop := ∀ db o o',
  (m (mkCatalog db o)).1 = (m (mkCatalog db o')).1 ∧ cat_database (m (mkCatalog db o)).2 = cat_database (m (mkCatalog db o')).2.

Lemma framed_catalog {A} (m : M (catalog Select PageRowStore) A) : blind_catalog m → framed (on_catalog m).
Proof.
  intros Hm e e' (Hd & Hi & Hi'). unfold on_catalog. rewrite <- Hd. destruct (ex_database e) as [db|] eqn:E.
  2: { split; [done|]. split_and!; [|done..]. simpl. congruence. }
  destruct (Hm db (Some (ts_transactionManager (ex_session e))) (Some (ts_transactionManager (ex_session e')))) as [H1 H2].
  destruct (m _) as [r c], (m _) as [r' c']. simpl in *. subst. split; [done|]. split_and!; [by rewrite H2|done..].
Qed.

Lemma blind_catalog_bind {A B} (m : M (catalog Select PageRowStore) A) (f : A → M (catalog Select PageRowStore) B) :
  blind_catalog m → (∀ a, blind_catalog (f a)) → blind_catalog (m ≫= f).
Proof.
  intros Hm Hf db o o'. destruct (Hm db o o') as [H1 H2]. unfold mbind, M_bind.
  destruct (m (mkCatalog db o)) as [r [db1 o1]], (m (mkCatalog db o')) as [r' [db1' o1']]. simpl in H1, H2. subst.
  destruct r' as [a|e]; [|done]. apply Hf.
Qed.

Lemma blind_call {A} name (m : op Select PageRowStore A) : blind m → blind_catalog (call name m).
Proof.
  intros Hm db o o'. unfold call. simpl. destruct (Database_table name db) as [t|]; [|done].
  destruct (Hm t o o') as [H1 H2]. destruct (m (mkState t o)) as [r s], (m (mkState t o')) as [r' s']. simpl in *. by subst; rewrite H2.
Qed.

Lemma framed_table {A} name (m : op Select PageRowStore A) : blind m → framed (on_table_named name m).
Proof. intros Hm. by apply framed_catalog, blind_call. Qed.
End framed.

(** ** Catalog statements *)

Section statements.
Context {F : Type}.
Abbreviation Database := (Database Select PageRowStore).
Abbreviation Executor := (Executor Select F).
Abbreviation exec := (M Executor).
Context `{StorageManager F Database}.
Context (i2d : Z → Z) (dadd dsub : Z → Z → Z) (dchars : Z → chars).
Implicit Types e : Executor.

(** The statement that [ddl_text] prints. *)
Definition ddl_statement (q : Query) : exec QueryResult :=
  match q with
  | Q_CreateTable c => executeCreateTable i2d dadd dsub dchars c
  | Q_DropTable name => executeDropTable name
  | Q_RenameTable oldName newName => executeRenameTable oldName newName
  | Q_AlterTable c => executeAlterTable i2d dadd dsub dchars c
  | Q_CreateIndex c => executeCreateIndex i2d dadd dsub dchars c
  | Q_DropIndex name table => executeDropIndex name table
  | _ => raise (logic_error "not a catalog statement")
  end.

Lemma framed_inactive {A} (f : bool → exec A) : framed (f false) → framed (gets (λ e, transactionActive (ex_session e)) ≫= f).
Proof.
  intros Hf e e' Ha. pose proof Ha as (_ & Hi & Hi'). unfold mbind, M_bind, gets. rewrite !idle_inactive by done. by apply Hf.
Qed.

Lemma framed_with_database (f : Database → exec QueryResult) : (∀ db, framed (f db)) → framed (with_database f).
Proof.
  intros Hf. apply framed_bind; [by apply framed_gets; intros e e' (-> & _)|]. intros [db|]; [apply Hf|apply framed_ret].
Qed.

Lemma framed_require name : framed (requireTable (F := F) (Select := Select) name).
Proof.
  intros e e' Ha. unfold requireTable. pose proof Ha as (<- & _).
  destruct (ex_database e) as [db|]; [|done]. by destruct (Database_table name db).
Qed.

Lemma blind_catalog_rename name oldName newName : blind_catalog (renameColumn i2d dadd dsub name oldName newName).
Proof.
  unfold renameColumn. apply blind_catalog_bind; [apply blind_call, blind_rename_column|]. intros [|]; [|by intros ? ? ?]. simpl.
  apply blind_catalog_bind; [apply blind_call, blind_on_table|]. intros own.
  apply blind_catalog_bind; [by intros ? ? ?|]. intros keys. induction keys as [|key keys IH]; [by intros ? ? ?|].
  apply blind_catalog_bind; [|done]. destruct (String.eqb key name); [by intros ? ? ?|]. apply blind_call, blind_set_table.
Qed.

Ltac frame := repeat first
  [ apply framed_ret | apply framed_raise | apply framed_lift | apply framed_undo | apply framed_log | apply framed_database
  | apply framed_require | apply framed_table | apply framed_catalog | apply framed_with_database; intros ? | apply framed_inactive
  | apply framed_catch; [|intros ?] | apply framed_bind; [|intros ?] | case_match
  | apply framed_gets; intros ? ? (-> & _); done ].

Lemma framed_alter c : framed (F := F) (alter_action i2d dadd dsub dchars c).
Proof.
  unfold alter_action, log_sql, message. pose proof blind_catalog_rename.
  frame; eauto using blind_add_column, blind_drop_column.
Qed.

Lemma framed_ddl q : framed (ddl_statement q).
Proof.
  destruct q; try apply framed_raise; simpl.
  - unfold executeCreateTable, refuse, log_sql, message. frame; eauto using blind_ensure.
  - unfold executeDropTable, refuse, message. frame.
  - unfold executeRenameTable, refuse, message. frame.
  - unfold executeAlterTable, refuse. pose proof framed_alter. frame; eauto.
  - unfold executeCreateIndex, refuse, log_sql, message. frame; eauto using blind_create, blind_create_expr.
  - unfold executeDropIndex, refuse, log_sql, message. frame; eauto using blind_drop_index, blind_definitions.
Qed.

(** ** What a catalog statement logs *)

Definition quiet e : Prop := idle e ∧ ex_replayingWal e = false.

Definition appends (ws : list (WalOperation * bytes)) (w : WriteAheadLog) : WriteAheadLog :=
  foldl (λ w r, (wal_append r.1 r.2 w).2) w ws.

(** [m] appends records to the log; with the result [a] they satisfy [Q a]. *)
Definition logs {A} (m : exec A) (Q : A → list (WalOperation * bytes) → Prop) : Prop := ∀ e, quiet e →
  ∃ ws, ex_wal (m e).2 = appends ws (ex_wal e) ∧ quiet (m e).2 ∧ ex_files (m e).2 = ex_files e ∧
    match (m e).1 with Ok a => Q a ws | Throw _ => True end.

(** Nothing but the database and the transaction manager change. *)
Definition silent {A} (m : exec A) : Prop := ∀ e,
  ex_wal (m e).2 = ex_wal e ∧ ex_files (m e).2 = ex_files e ∧ ex_replayingWal (m e).2 = ex_replayingWal e ∧
  ts_activeTransaction (ex_session (m e).2) = ts_activeTransaction (ex_session e).

Lemma logs_ret {A} (a : A) (Q : A → list (WalOperation * bytes) → Prop) : Q a [] → logs (mret a) Q.
Proof. intros HQ e He. by exists []. Qed.

Lemma logs_silent {A} (m : exec A) : silent m → logs m (λ _ ws, ws = []).
Proof.
  intros Hm e [Hi Hr]. destruct (Hm e) as (Hw & Hf & Hp & Ha). exists []. split_and!; [done| |done|].
  - split; [by unfold idle; rewrite Ha|by rewrite Hp].
  - by destruct (m e).1.
Qed.

Lemma logs_bind {A B} (m : exec A) (f : A → exec B) Q1 Q : logs m Q1 →
  (∀ a ws, Q1 a ws → logs (f a) (λ b ws', Q b (ws ++ ws'))) → logs (m ≫= f) Q.
Proof.
  intros Hm Hf e He. destruct (Hm e He) as (ws & Hw & He1 & Hfl & HQ). unfold mbind, M_bind.
  destruct (m e) as [r e1]. simpl in *. destruct r as [a|x]; [|by exists ws].
  destruct (Hf a ws HQ e1 He1) as (ws' & Hw' & He2 & Hfl' & HQ'). exists (ws ++ ws'). split_and!; [|done|congruence|done].
  rewrite Hw', Hw. unfold appends. by rewrite foldl_app.
Qed.

Lemma logs_quiet {A B} (m : exec A) (f : A → exec B) Q : silent m → (∀ a, logs (f a) Q) → logs (m ≫= f) Q.
Proof. intros Hm Hf. eapply logs_bind; [by apply logs_silent|]. intros a ws ->. apply Hf. Qed.

Lemma logs_append operation payload : logs (appendWal operation payload) (λ _ ws, ws = [(operation, payload)]).
Proof.
  intros e [Hi Hr]. unfold appendWal, mbind, M_bind, gets. rewrite Hr, (idle_inactive e Hi). simpl. by exists [(operation, payload)].
Qed.

Lemma logs_undo {A} r (f : unit → exec A) Q : logs (f tt) Q → logs (record_undo r ≫= f) Q.
Proof.
  intros Hf e He. unfold mbind, M_bind, record_undo, modify. rewrite (idle_inactive e (proj1 He)). by apply Hf.
Qed.

Lemma logs_catch {A} p (m : exec A) h Q : logs m Q → (∀ x, ∃ a, h x = mret a ∧ ∀ ws, Q a ws) → logs (catch_if p m h) Q.
Proof.
  intros Hm Hh e He. destruct (Hm e He) as (ws & Hw & He1 & Hf & HQ1). unfold catch_if, try_catch.
  destruct (m e) as [[a|x] e1]; [by exists ws|]. simpl in *. destruct (p x); [|by exists ws].
  destruct (Hh x) as (a & Ea & HQ). exists ws. rewrite Ea. simpl. split_and!; [done..|]. apply HQ.
Qed.

Lemma silent_gets {A} (f : Executor → A) : silent (gets f).
Proof. by intros e. Qed.
Lemma silent_lift {A} (r : result A) : silent (liftM r).
Proof. by intros e. Qed.
Lemma silent_database {A} (m : M Database A) : silent (on_database m).
Proof. intros e. unfold on_database. destruct (ex_database e) as [db|]; [|done]. by destruct (m db). Qed.
Lemma silent_catalog {A} (m : M (catalog Select PageRowStore) A) : silent (on_catalog m).
Proof. intros e. unfold on_catalog. destruct (ex_database e) as [db|]; [|done]. by destruct (m _) as [r c]. Qed.
Lemma silent_require name : silent (requireTable name).
Proof. intros e. unfold requireTable. destruct (ex_database e) as [db|]; [|done]. by destruct (Database_table name db). Qed.

Definition ddl_operation (operation : WalOperation) : bool :=
  match operation with
  | Wal_CreateTable | Wal_DropTable | Wal_RenameTable | Wal_AlterTable | Wal_CreateIndex | Wal_DropIndex => true
  | _ => false
  end.

Definition text_logged (q : Query) (r : QueryResult) (ws : list (WalOperation * bytes)) : Prop :=
  qr_success r = true → ∃ operation text, ddl_text dchars q = Ok text ∧ ddl_operation operation = true ∧
    ws = [(operation, string_bytes (implode text))].

Lemma logs_refuse q why : logs (refuse why) (text_logged q).
Proof. by apply logs_ret. Qed.

Lemma logs_text q operation sql words : ddl_text dchars q = Ok sql → ddl_operation operation = true →
  logs (log_sql operation sql ≫= λ _, message true words) (text_logged q).
Proof.
  intros Hq Hop. eapply logs_bind; [apply logs_append|]. intros [] ws ->. apply logs_ret. intros _. by exists operation, sql.
Qed.

Lemma implode_app a b : implode (a ++ b) = implode a +:+ implode b.
Proof. induction a as [|c a IH]; [done|]. simpl. by rewrite IH. Qed.

Lemma text_words parts : text parts = string_bytes (implode (concat (explode <$> parts))).
Proof.
  unfold text. f_equal. induction parts as [|a [|b parts] IH]; [done| |].
  - simpl. by rewrite app_nil_r, implode_explode.
  - change (String.concat EmptyString (a :: b :: parts)) with (a +:+ String.concat EmptyString (b :: parts)).
    change (concat (explode <$> a :: b :: parts)) with (explode a ++ concat (explode <$> b :: parts)).
    by rewrite IH, implode_app, implode_explode.
Qed.

Lemma logs_words q operation parts words : ddl_text dchars q = Ok (concat (explode <$> parts)) → ddl_operation operation = true →
  logs (appendWal operation (text parts) ≫= λ _, message true words) (text_logged q).
Proof. rewrite text_words. apply logs_text. Qed.

Lemma logs_lift {A B} (r : result A) (f : A → exec B) Q : (∀ a, r = Ok a → logs (f a) Q) → logs (liftM r ≫= f) Q.
Proof. intros Hf e He. destruct r as [a|x]; [by apply Hf|by exists []]. Qed.
Lemma logs_raise {A} x (Q : A → list (WalOperation * bytes) → Prop) : logs (raise x) Q.
Proof. intros e He. by exists []. Qed.
Lemma logs_inactive {A} (f : bool → exec A) Q : logs (f false) Q → logs (gets (λ e, transactionActive (ex_session e)) ≫= f) Q.
Proof. intros Hf e He. unfold mbind, M_bind, gets. rewrite (idle_inactive e (proj1 He)). by apply Hf. Qed.
Lemma logs_with_database q (f : Database → exec QueryResult) :
  (∀ db, logs (f db) (text_logged q)) → logs (with_database f) (text_logged q).
Proof. intros Hf. apply logs_quiet; [apply silent_gets|]. intros [db|]; [apply Hf|apply logs_refuse]. Qed.
Lemma logs_failed q words : logs (message false words) (text_logged q).
Proof. by apply logs_ret. Qed.

Ltac logging := repeat lazymatch goal with
  | |- logs (refuse _) _ => apply logs_refuse
  | |- logs (message false _) _ => apply logs_failed
  | |- logs (raise _) _ => apply logs_raise
  | |- logs (with_database _) _ => apply logs_with_database; intros ?
  | |- logs (record_undo _ ≫= _) _ => apply logs_undo
  | |- logs (log_sql _ _ ≫= _) _ => apply logs_text; done
  | |- logs (gets (λ e, transactionActive _) ≫= _) _ => apply logs_inactive
  | |- logs (gets _ ≫= _) _ => apply logs_quiet; [apply silent_gets|intros ?]
  | |- logs (liftM _ ≫= _) _ => apply logs_lift; intros ? ?
  | |- logs (on_database _ ≫= _) _ => apply logs_quiet; [apply silent_database|intros ?]
  | |- logs (on_catalog _ ≫= _) _ => apply logs_quiet; [apply silent_catalog|intros ?]
  | |- logs (on_table_named _ _ ≫= _) _ => apply logs_quiet; [apply silent_catalog|intros ?]
  | |- logs (requireTable _ ≫= _) _ => apply logs_quiet; [apply silent_require|intros ?]
  | |- logs (mret _ ≫= _) _ => apply logs_quiet; [done|intros ?]
  | |- logs (match _ with _ => _ end) _ => case_match
  end.

Lemma logs_alter c : logs (alter_action i2d dadd dsub dchars c) (text_logged (Q_AlterTable c)).
Proof. unfold alter_action. logging. Qed.

Lemma logs_ddl q : logs (ddl_statement q) (text_logged q).
Proof.
  destruct q; simpl; try apply logs_raise.
  - unfold executeCreateTable. logging.
  - unfold executeDropTable. logging. by apply (logs_words _ _ ["DROP TABLE "; name; ";"]).
  - unfold executeRenameTable. logging. by apply (logs_words _ _ ["RENAME TABLE "; oldName; " TO "; newName; ";"]).
  - unfold executeAlterTable. logging. apply logs_catch; [apply logs_alter|]. intros x. by eexists.
  - unfold executeCreateIndex. logging.
  - unfold executeDropIndex. logging.
Qed.
End statements.

(** ** Restart *)

Section restart.
Context {F : Type}.
Abbreviation Database := (Database Select PageRowStore).
Abbreviation Executor := (Executor Select F).
Context `{StorageManager F Database}.
Context (i2d : Z → Z) (dadd dsub : Z → Z → Z) (dchars : Z → chars) (stod : chars → option Z).
Context (select : Select → M Executor QueryResult) (explain : Explained → bool → M Executor QueryResult).
Context (scan_targets : string → option Pred → M Executor (list (RowId * Row))).
Abbreviation execute := (execute i2d dadd dsub dchars stod select explain scan_targets).
Abbreviation replay := (replay_statement i2d dadd dsub dchars stod select explain scan_targets).
Abbreviation replay_record := (replay_record i2d dadd dsub dchars replay).
Implicit Types (e : Executor) (s : QueryExecutor F).

(** A statement of the catalog: CREATE DATABASE, or one that is logged as text. *)
Definition catalog_ok (q : Query) : Prop :=
  match q with
  | Q_CreateDatabase name => is_identifier name ∧ size_ok (String.length name)
  | q => ddl_ok dchars stod q ∧ ∀ text, ddl_text dchars q = Ok text → size_ok (length text)
  end.

(** Statements that all succeed. *)
Fixpoint run_all (qs : list Query) s : option (QueryExecutor F) :=
  match qs with
  | [] => Some s
  | q :: qs =>
      match execute 0 q s with
      | (Ok r, s) => if qr_success r then run_all qs s else None
      | (Throw _, _) => None
      end
  end.

Lemma execute_ddl q s : ddl_ok dchars stod q → execute 0 q s = on_engine (ddl_statement i2d dadd dsub dchars q) s.
Proof. by destruct q. Qed.

(** A logged statement makes the same change when it is replayed. *)
Lemma replay_text q text operation lsn e er r : ddl_ok dchars stod q → ddl_text dchars q = Ok text → ddl_operation operation = true →
  agree e er → (ddl_statement i2d dadd dsub dchars q e).1 = Ok r →
  ∃ er', replay_record (mkWalRecord lsn operation (string_bytes (implode text))) er = (Ok tt, er') ∧
    agree (ddl_statement i2d dadd dsub dchars q e).2 er'.
Proof.
  intros Hok Ht Hop Ha Hr. destruct (ddl_text_parses _ _ q Hok) as (text' & Et & Hp).
  replace text' with text in * by congruence.
  destruct (framed_ddl i2d dadd dsub dchars q e er Ha) as [H1 H2].
  destruct (ddl_statement i2d dadd dsub dchars q er) as [r' er'] eqn:Es. exists er'. split; [|exact H2].
  assert (replay (string_bytes (implode text)) er = (Ok tt, er')) as E.
  { unfold replay_statement. rewrite bytes_string_bytes, (String.list_ascii_of_string_of_list_ascii text), Hp.
    assert (executeUnlocked i2d dadd dsub dchars stod select explain scan_targets q (mkQueryExecutor er ∅ CI_None) =
      on_engine (ddl_statement i2d dadd dsub dchars q) (mkQueryExecutor er ∅ CI_None)) as -> by (by destruct q).
    unfold on_engine. simpl. rewrite Es. simpl in *. by rewrite <- H1, Hr. }
  unfold Recovery.replay_record. simpl. by destruct operation.
Qed.

Lemma bytes_find_none c text pos : Forall (λ x, x ≠ c) text → find_from [c] text pos = None.
Proof.
  intros Ht. revert pos. induction Ht as [|x text Hx _ IH]; intros pos; [done|]. simpl. rewrite bool_decide_false by done. apply IH.
Qed.

Lemma identifier_no_space name : is_identifier name → has_space (string_bytes name) = false.
Proof.
  intros Hn. unfold has_space. rewrite bool_decide_false; [done|].
  assert (bytes_find (text [" "]) (string_bytes name) = None) as ->; [|by intros [? [=]]].
  apply (bytes_find_none Byte.x20). unfold string_bytes, String.list_byte_of_string. apply Forall_map. simpl.
  assert (Forall (λ c, isIdentifierPart c = true) (explode name)) as Hc.
  { unfold is_identifier in Hn. destruct (explode name) as [|c w]; [done|]. destruct Hn as [Hc Hw]. constructor; [|done].
    revert Hc. by destruct c as [[] [] [] [] [] [] [] []]. }
  eapply Forall_impl; [exact Hc|]. intros c. simpl. by destruct c as [[] [] [] [] [] [] [] []].
Qed.

(** The log and the files of [e] hold its database: a new process that finds
    [file], the log so far, replays it without exceptions. *)
Definition restorable (files : F) (rs : list WalRecord) e : Prop :=
  quiet e ∧ ex_files e = files ∧ wal_holds (ex_wal e) rs ∧
  ∀ file, ∃ er, replay_run i2d dadd dsub dchars replay rs file files = (Ok tt, er) ∧ agree e er.

Lemma restorable_snoc files rs e e' operation payload : restorable files rs e → quiet e' → ex_files e' = files →
  ex_wal e' = (wal_append operation payload (ex_wal e)).2 → operation ≠ Wal_SaveDatabase →
  u8 (WalOperation_code operation) → WalOperation_of_code (WalOperation_code operation) = operation → size_ok (length payload) →
  (∀ lsn er, agree e er → ∃ er', replay_record (mkWalRecord lsn operation payload) er = (Ok tt, er') ∧ agree e' er') →
  ∃ rs', restorable files rs' e'.
Proof.
  intros (Hq & Hf & Hw & Hr) Hq' Hf' Ew Hop Hu Hc Hsz Hrep.
  destruct (wal_append_holds (ex_wal e) rs operation payload Hw Hu Hc Hsz) as [lsn Hw'].
  exists (rs ++ [mkWalRecord lsn operation payload]). split_and!; [done|done|by rewrite Ew|].
  intros file. destruct (Hr file) as (er & Hrun & Ha). destruct (Hrep lsn er Ha) as (er' & Er' & Ha').
  exists er'. split; [|done]. unfold replay_run in *. rewrite replay_records_snoc by done. rewrite mapM_app, Hrun. simpl.
  unfold mbind, M_bind. by rewrite Er'.
Qed.

Lemma ddl_operation_codes operation : ddl_operation operation = true → operation ≠ Wal_SaveDatabase ∧
  u8 (WalOperation_code operation) ∧ WalOperation_of_code (WalOperation_code operation) = operation.
Proof. by destruct operation. Qed.

Lemma restorable_create files rs e name r e' : restorable files rs e → is_identifier name → size_ok (String.length name) →
  executeCreateDatabase name e = (Ok r, e') → ∃ rs', restorable files rs' e'.
Proof.
  intros Hres Hn Hsz E. pose proof Hres as ((Hi & Hrp) & Hf & _).
  unfold executeCreateDatabase, mbind, M_bind, gets, record_undo, modify in E. rewrite (idle_inactive e Hi) in E.
  unfold appendWal, mbind, M_bind, gets in E. rewrite Hrp, (idle_inactive e Hi) in E. unfold wal_write, liftM in E. 
  destruct (Database_new name) as [db|x] eqn:Ed; [|done]. injection E as _ <-.
  eapply (restorable_snoc _ _ _ _ Wal_CreateDatabase (string_bytes name) Hres); try done; [by rewrite length_string_bytes|].
  intros lsn er (_ & _ & Hi'). unfold Recovery.replay_record. simpl. rewrite (identifier_no_space name Hn), bytes_string_bytes.
  unfold mbind, M_bind, liftM. rewrite Ed. by eexists.
Qed.

Lemma length_implode text : String.length (implode text) = length text.
Proof. induction text as [|c text IH]; [done|]. simpl. by rewrite IH. Qed.

Lemma restorable_ddl files rs e q r e' : restorable files rs e → ddl_ok dchars stod q →
  (∀ text, ddl_text dchars q = Ok text → size_ok (length text)) →
  ddl_statement i2d dadd dsub dchars q e = (Ok r, e') → qr_success r = true → ∃ rs', restorable files rs' e'.
Proof.
  intros Hres Hok Hsz E Hs. pose proof Hres as (Hq & Hf & _).
  destruct (logs_ddl i2d dadd dsub dchars q e Hq) as (ws & Hw & Hq' & Hf' & Hl). rewrite E in *. simpl in *.
  destruct (Hl Hs) as (operation & text & Et & Hop & ->). destruct (ddl_operation_codes _ Hop) as (H1 & H2 & H3).
  eapply (restorable_snoc _ _ _ _ operation (string_bytes (implode text)) Hres); try done; [congruence| |].
  - rewrite length_string_bytes, length_implode. by apply Hsz.
  - intros lsn er Ha. destruct (replay_text q text operation lsn e er r Hok Et Hop Ha) as (er' & Er & Ha'); [by rewrite E|].
    rewrite E in Ha'. by exists er'.
Qed.

Lemma restorable_run files rs qs s s' : restorable files rs (qe_engine s) → Forall catalog_ok qs → run_all qs s = Some s' →
  ∃ rs', restorable files rs' (qe_engine s').
Proof.
  intros Hres Hqs. revert rs s Hres. induction Hqs as [|q qs Hq _ IH]; intros rs s Hres Hrun; [injection Hrun as <-; by exists rs|].
  cbn [run_all] in Hrun. destruct (execute 0 q s) as [[r|x] s1] eqn:E; [|done]. destruct (qr_success r) eqn:Es; [|done].
  assert (∃ rs', restorable files rs' (qe_engine s1)) as (rs' & Hres'); [|by eapply IH].
  assert (∀ m, execute 0 q s = on_engine m s → m (qe_engine s) = (Ok r, qe_engine s1)) as Hm.
  { intros m Em. rewrite E in Em. unfold on_engine in Em. destruct (m (qe_engine s)) as [r' e']. by injection Em as <- ->. }
  destruct q; try (destruct Hq as [Hok Hsz]; eapply restorable_ddl; [exact Hres|exact Hok|exact Hsz|apply Hm; by apply execute_ddl|done]).
  destruct Hq as [Hn Hsz]. eapply restorable_create; [exact Hres|exact Hn|exact Hsz|by apply Hm].
Qed.

End restart.

(** ** An example *)

(** A directory without database files. *)
#[local] Instance no_files : StorageManager unit (Database Select PageRowStore) := {
  sm_loadFirstDatabase _ := Throw (runtime_error "no database files found");
  sm_loadDatabase _ _ := Throw (runtime_error "database file not found");
  sm_saveDatabase _ f := (Ok tt, f);
  sm_deleteDatabase _ f := (Ok tt, f)
}.

Definition shop_statements : list Query :=
  [Q_CreateDatabase "shop";
   Q_CreateTable (mkCreateTable "customers" [mkColumn "name" CT_String false true true] [] [] []);
   Q_CreateTable orders_table;
   Q_AlterTable (mkAlterTable "orders" (AlterAddColumn (mkColumn "paid" CT_Int false false false) (Some (VInt 0))));
   Q_CreateIndex (mkCreateIndex "by_number" "orders" "number" ["number"] None);
   Q_AlterTable (mkAlterTable "orders" (AlterRenameColumn "note" "remark"));
   Q_RenameTable "orders" "purchases"].

Abbreviation shop_open := (QueryExecutor_open (F := unit) (λ z, z) Z.add Z.sub (λ _, []) (λ _, None) (λ _, raise (runtime_error "not used"))
  (λ _ _, raise (runtime_error "not used")) (λ _ _, raise (runtime_error "not used"))).
Abbreviation shop_run := (run_all (F := unit) (λ z, z) Z.add Z.sub (λ _, []) (λ _, None) (λ _, raise (runtime_error "not used"))
  (λ _ _, raise (runtime_error "not used")) (λ _ _, raise (runtime_error "not used")) shop_statements).

Definition shop_start : QueryExecutor unit := (shop_open (boot [] tt)).2.
Definition shop_end : QueryExecutor unit := default shop_start (shop_run shop_start).

Lemma shop_started : shop_open (boot [] tt) = (Ok tt, shop_start).
Proof. vm_compute. reflexivity. Qed.
Lemma shop_ended : shop_run shop_start = Some shop_end.
Proof. vm_compute. reflexivity. Qed.

Lemma shop_statements_ok : Forall (catalog_ok (λ _, []) (λ _, None)) shop_statements.
Proof.
  unfold shop_statements. repeat (apply Forall_cons; split); try apply Forall_nil; cbn [catalog_ok]; split;
    lazymatch goal with
    | |- size_ok _ => by apply Z.ltb_lt
    | |- ∀ text, _ => intros text Ht; vm_compute in Ht; injection Ht as <-; by apply Z.ltb_lt
    | |- _ => decide_ddl
    end.
Qed.

